(* ===== verification/_CoqProject ===== *)
-Q . S2P
Prelude.v
Clib.v
Lexer.v
LexerFacts.v
LexerProps.v
Ast.v
Parser.v
Expressions.v
Literals.v
Statements.v
ParserFacts.v
Grammar.v
ExpressionsSound.v
ExpressionsComplete.v
ExpressionsProps.v
StatementsFacts.v
StatementsProps.v
RoundTrip.v
Findings.v
Ir.v
IrTrees.v
IrFacts.v
IrLayout.v
IrLower.v
IrAccess.v
IrScopesFacts.v
IrResolve.v
Cfg.v
CfgTraces.v
CfgBuild.v
CfgPrune.v
CfgProps.v
IrProps.v
IrOptimize.v
IrPasses.v
IrPassesFacts.v
IrRewrite.v
IrPruning.v
IrSimplify.v
IrPropagate.v
IrOptimizeProps.v
Runtime.v
RuntimeFacts.v
HirSemantics.v
HirFolding.v
Dataflow.v
DataflowFacts.v
DataflowEffects.v
DataflowProps.v
HirKnown.v
HirPropagate.v
HirOptimize.v
HirProps.v
TypeNames.v
TypeCheck.v
TypeSystem.v
TypeCheckFacts.v
TypeCheckExpr.v
TypeCheckStmt.v
TypeCheckBlocks.v
TypeResolve.v
Compiler.v
TypeCheckProps.v
CompilerProps.v
Modules.v
ModulesFacts.v
ModulesProps.v
ModuleLines.v
Driver.v
Asm.v
Freestanding.v
FreestandingRuns.v
FreestandingCode.v
FreestandingEmit.v
FreestandingProgram.v
AsmFacts.v
FreestandingSteps.v
FreestandingExpressions.v
FreestandingStatements.v
FreestandingProps.v
