(* ===== verification/Prelude.v ===== *)
(** VNT: a compiler written in C for a small imperative language, and this
    development about it. Paths below are under src/src/ unless they start
    with include/, which is src/include/.

    * The program

    main.c reads a source file (modules.c splices the imported modules into
    it), scans and parses it to a syntax tree (lexer.c, parser/, ast.c). Then
    compile_mode (compiler/compiler.c) checks types (typecheck.c), which also
    completes the tree, lowers it to a flat index-addressed HIR and resolves
    names (ir_lower.c, ir.c), optimizes the HIR (ir.c), builds and analyses a
    control-flow graph (cfg.c) and prints x86-64 assembly: x86_backend.c for an
    operating system, linked with a runtime library (native_runtime.c,
    native_net.c, native_async_net.c), freestanding_x86.c for a machine
    without one. tools/vbuild.c is a separate build tool.

    This development covers the compiler from the files of a project to the
    graph that is checked before emission, the part of the runtime library
    that computes with values, and the freestanding back end down to the
    instructions of the processor.

    * The files

    Foundations:
    - Prelude: machine integers, byte strings, <ctype.h>, the monad [St] of the
      model with its outcomes and its rule of total correctness [wp].
    - Clib: strtoll, strtoull, strtod and the decimal output of printf.

    Lexer and parser:
    - Lexer: lexer.c, include/vnt/lexer.h; the switch of lexer_next is
      [operator_token]. LexerFacts: a reference scanner, by recursion on the
      unread text, which the scanner computes. LexerProps: what follows for the
      client (totality, positions, tiling, recognition of rendered lexemes).
    - Ast: include/vnt/ast.h, include/vnt/operators.h, the constructors of ast.c.
    - Parser: include/vnt/parser.h, the state and shared operations of
      parser/parser.c. Expressions: parser/primary.c, unary.c, binary.c.
      Statements: parser/statements.c, simple_statements.c, control.c,
      functions.c, assignments.c, loops.c, and parser_parse of parser.c;
      [parse_source] is the chain lexer_init, parser_init, parser_parse of main.
    - Literals: exactness and round trips of integer and string literals.
    - ParserFacts: views of the token stream, the invariant [parser_ok], and
      the rules for the operations of Parser that every later proof uses.
    - Grammar: the reference grammar of expressions, the relation [derives].
      ExpressionsSound and ExpressionsComplete: the parser accepts what the
      grammar derives, and all of it. ExpressionsProps: the consequences.
    - StatementsFacts, StatementsProps: every statement function keeps the
      invariant and builds well-formed statements; what follows for files.
    - RoundTrip: expressions written out as text and read back. Findings:
      places where the parser accepts what it means to reject.

    HIR:
    - Ir: include/vnt/ir.h, the storage and validation of ir.c. IrTrees: the
      tree that an array of linked nodes stores. IrFacts, IrAccess, IrLayout:
      walking over such arrays, and the array that a construction leaves.
    - IrLower: ir_lower.c. IrScopesFacts, IrResolve: its resolver of names
      computes lexical scoping. IrProps: lowering and validation are exact.
    - IrOptimize: the optimizer of ir.c, which rewrites the array in place.
      IrPasses: the passes as functions on trees, their reference.
      IrPassesFacts, IrRewrite, IrPruning, IrSimplify, IrPropagate,
      IrOptimizeProps: the array is rewritten as the passes say.
    - Runtime: the values and operators of native_runtime.c. RuntimeFacts:
      constant folding against them. HirSemantics: the meaning of HIR programs,
      over an interface [Machine] for what the optimizer does not look into.
      HirFolding, HirKnown, HirPropagate, HirOptimize, HirProps: the passes
      keep this meaning.

    Control-flow graph:
    - Cfg: construction and pruning of cfg.c. CfgTraces, CfgBuild, CfgPrune,
      CfgProps: the paths of the graph are the runs of the program.
    - Dataflow: the two analyses of cfg.c. DataflowFacts, DataflowEffects,
      DataflowProps: they compute the extreme fixed points, and these say what
      they should of the paths.

    Type checker:
    - TypeNames, TypeCheck: typecheck.c. TypeSystem: what it accepts, without
      its state. TypeCheckFacts, TypeCheckExpr, TypeCheckStmt, TypeCheckBlocks,
      TypeCheckProps: the checker decides the type system. TypeResolve: the
      names of an accepted program can be resolved.

    The whole compiler:
    - Compiler: compile_mode of compiler.c up to emission. CompilerProps: what
      the stages give each other; break and continue stay in their loops
      through the optimizer, so the graph never refuses them.
    - Modules: modules.c, over the files of a [Host]. ModulesFacts,
      ModulesProps: the text of a project. ModuleLines: its directives.
    - Driver: main.c from the name of a file to what a back end is handed.

    The freestanding back end:
    - Asm: the assembly language, its text, and what a processor does with it.
    - Freestanding: freestanding_x86.c. FreestandingRuns: the meaning of the
      programs it compiles, with words, stack slots and raw memory.
    - FreestandingCode, FreestandingEmit, FreestandingProgram: the code of each
      construct as a relation without the state of the generator, the subset
      that the generator accepts as a predicate on trees, and that the
      generator writes such code for just this subset.
    - AsmFacts, FreestandingSteps, FreestandingExpressions,
      FreestandingStatements, FreestandingProps: running that code does what
      the program means.

    * What is shown

    - The lexer refines the reference scanner, reads only inside the source
      buffer, always returns, and recognises every rendered sequence of lexemes.
    - Literals: an integer literal is accepted exactly when its value fits in
      int64_t, with that value; integers and strings have spellings that are
      read back; escapes never overrun the buffer they are decoded to.
    - Expressions: from every valid state the parser returns; its results are
      exactly what the reference grammar derives within the two limits (256
      operators, 256 levels of nesting); the grammar is unambiguous; printing
      then parsing is the identity; trees are bounded in size and height.
    - Statements and files: parsing any text terminates without reading
      outside of it, restores the depth counters on every path, and returns
      only well-formed programs, never one in which a limit was exceeded.
    - HIR: vnt_ir_validate accepts just the arrays that store a program;
      lowering gives the tree of the program with the names that lexical
      scoping gives; the optimizer computes its passes on trees and keeps the
      meaning of programs, on every machine. The exception is a block inside
      of a branch, or an if or while there that its literal condition makes a
      block, after an assignment of the same branch ([orderly] excludes it):
      it gets the constants from before the branch, and there is a theorem
      that a program is compiled wrongly for this reason.
    - Graph: it is built unless a break or continue is misplaced (none is in
      an accepted program) or no part of the program can reach its end; its
      paths are the runs of the program; liveness and definite assignment are
      exact.
    - Types: the checker decides the type system; what it accepts is safe to
      lower, and its names are all in scope.
    - Modules: a project has a text just if its files expand to one within the
      limit, each file comes once and after its imports, and projects without
      cycles load.
    - Whole compiler: from the name of a file to the back end, compilation
      returns for every set of files, and each failure has its reason.
    - Freestanding back end: it accepts exactly the programs of its subset
      ([supported_program]); its code is exact and its labels are unique; the
      processor, started at _start, follows the program to the halt, with the
      value of kernel_main in RAX, or to the ud2 of .Lvnt_arithmetic_fault on
      an arithmetic fault; no division faults by itself.

    * How the model corresponds to the code

    - A function of the C code is a definition of the same name; a C function
      too long to read at once is split at its branches (primary_* for
      parse_primary, for_* for parse_for, emit_* for emit_expression and
      emit_statement), and the loop of a function is a Fixpoint of its own.
    - State is passed explicitly, in the monad [St]: Lexer functions update a
      [Lexer], parser functions a [Parser], the checker a [TypeChecker], the
      generator a [FreestandingGen]. A read outside of a buffer or an array is
      a [Fault]; theorems that say "returns" exclude it.
    - The source is the list of its bytes, with a NUL read after them. A
      pointer into it is an offset; a pointer to a HIR node is its index.
    - A chain of nodes (the field next) is a list; NULL is [[]] or [None].
      Hence an empty block and a failed block are the same value, in the model
      as in the code, and the findings come from that.
    - What is printed is the list [output] of a state, or the message that a
      function returns.
    - int fields that count (line, column, depths, labels) are natural
      numbers: a source of fewer than 2^31 bytes does not overflow them.
      Integer values are Z, with the range of int64_t checked as the code
      does. Floating values are SpecFloat values, rounded to binary64.
    - The processor has registers of 64 bits as signed Z, the three flags that
      the code tests (undefined after the instructions that leave them so), a
      memory of bytes, and the list of lines as its program. Where a linker
      puts code and data is the class [Layout], with laws [LayoutLaws]; that
      the stack that the code reserves is where freestanding_stack_top says is
      [Linked]. A run that needs something outside of the model (a call of an
      instruction of the operating mode, an access of private memory) is a
      [crash], of which the theorems say nothing.

    * Bounds and fuel

    Recursion that is not structural takes a budget, and running out of it is
    [Stuck]; each is proved to be enough on every input.
    - [lexer_fuel], the length of the source plus 2: every round moves forward
      by a character or ends. [parser_fuel], plus 5: every call that uses it up
      moves past a token or goes down from one grammar level to the next.
    - HIR and graph: the number of nodes plus 1 for walks of children
      ([sibling_fuel]) and down the tree (the resolver, the passes, [emit_fuel]);
      the number of blocks and cells for the construction and the analyses
      ([build_fuel], [reads_fuel], [flow_fuel]): a round of an analysis changes
      a cell or is the last. The optimizer's VNT_IR_ROUNDS is the code's own.
    - Checker: the height of an expression ([expression_depth]).
    - Loader: [load_fuel], 65, one more than the code's own limit of depth.
    - Runs of programs are bounded in iterations and calls by a parameter over
      which the theorems quantify; a run that does not end within it is
      [Unfinished]. For the freestanding back end the depth of calls times the
      largest frame ([program_room]) is at most the 16384 bytes of stack.

    * What is not modelled, and why

    - Allocation is assumed to succeed, and freeing is not modelled: the
      out-of-memory branches only end the run.
    - x86_backend.c: every operation of its code is a call of the runtime
      library on pointers to values, so its meaning is that of the runtime;
      native_backend.c prints C and is called from nowhere.
    - native_runtime.c beyond values and operators, native_net.c and
      native_async_net.c: mostly system calls. vbuild.c: a tool that runs other
      programs.
    - vnt_ir_dump (printing), the command line of main.c and the calls of gcc. *)

From stdpp Require Export base tactics list numbers strings.
From Stdlib Require Export Ascii ZArith Lia.

(** * C machine integers *)

Declare Scope vnt_scope.
Create HintDb vnt.
Delimit Scope vnt_scope with vnt.

Definition INT64_MIN : Z := - 2 ^ 63.
Definition INT64_MAX : Z := 2 ^ 63 - 1.
Definition UINT64_MAX : Z := 2 ^ 64 - 1.

Definition in_int64 (z : Z) : bool := (INT64_MIN <=? z)%Z && (z <=? INT64_MAX)%Z.

(** * Bytes and C strings *)

(** A C string is the list of its bytes, the terminating NUL left out. *)
Abbreviation bytes := (list ascii).

(** [str "while"] writes a byte string as a literal. *)
Definition str (s : string) : bytes := String.list_ascii_of_string s.

Definition NUL : ascii := ascii_of_nat 0.
Definition newline : ascii := ascii_of_nat 10.
Definition carriage_return : ascii := ascii_of_nat 13.
Definition tab : ascii := ascii_of_nat 9.
Definition quote : ascii := ascii_of_nat 34.
Definition backslash : ascii := ascii_of_nat 92.

(** [strcmp(a, b) == 0] on byte strings. *)
Fixpoint bytes_eqb (a b : bytes) : bool :=
  match a, b with
  | [], [] => true
  | x :: a', y :: b' => (x =? y)%char && bytes_eqb a' b'
  | _, _ => false
  end.

Lemma bytes_eqb_spec a : forall b, bytes_eqb a b = true <-> a = b.
Proof.
  induction a as [|x a IH]; intros [|y b]; cbn; try done.
  rewrite andb_true_iff, Ascii.eqb_eq, IH. naive_solver.
Qed.

Lemma exists_in (x : bytes) l : existsb (bytes_eqb x) l = true <-> x ∈ l.
Proof.
  rewrite existsb_exists. split.
  - intros (y & Hy & E). apply bytes_eqb_spec in E as ->. by apply list_elem_of_In.
  - intros H. exists x. split; [by apply list_elem_of_In|by apply bytes_eqb_spec].
Qed.

(** * The <ctype.h> classes in the C locale *)

(** The value of [(unsigned char)c]. *)
Definition code (c : ascii) : Z := Z.of_N (N_of_ascii c).

Definition between (lo c hi : Z) : bool := (lo <=? c)%Z && (c <=? hi)%Z.

Definition isspace (c : ascii) : bool := between 9 (code c) 13 || (code c =? 32)%Z.
Definition isdigit (c : ascii) : bool := between 48 (code c) 57.
Definition isalpha (c : ascii) : bool := between 65 (code c) 90 || between 97 (code c) 122.
Definition isalnum (c : ascii) : bool := isalpha c || isdigit c.
Definition isxdigit (c : ascii) : bool :=
  isdigit c || between 65 (code c) 70 || between 97 (code c) 102.

(** * Outcomes and state passing *)

(** What running a piece of the C code from a state gives: a value; [Fault],
    an access outside of an object (undefined behaviour in C); or [Stuck],
    the recursion budget of the model ran out. *)
Inductive outcome (A : Type) : Type :=
  | Done (a : A)
  | Fault
  | Stuck.
Arguments Done {A} a.
Arguments Fault {A}.
Arguments Stuck {A}.

(** Code that reads and updates a state [S] and returns an [A]. *)
Definition St (S A : Type) : Type := S -> outcome (A * S).

#[export] Instance St_ret {S} : MRet (St S) := fun A a s => Done (a, s).
#[export] Instance St_bind {S} : MBind (St S) := fun A B k m s =>
  match m s with
  | Done (a, s') => k a s'
  | Fault => Fault
  | Stuck => Stuck
  end.

#[export] Instance outcome_ret : MRet outcome := fun A a => Done a.
#[export] Instance outcome_bind : MBind outcome := fun A B k m =>
  match m with
  | Done a => k a
  | Fault => Fault
  | Stuck => Stuck
  end.

Definition get {S} : St S S := fun s => Done (s, s).
Definition gets {S A} (f : S -> A) : St S A := fun s => Done (f s, s).
Definition modify {S} (f : S -> S) : St S unit := fun s => Done (tt, f s).

(** A reader of the state. *)
Definition asks {S A} (f : S -> outcome A) : St S A := fun s =>
  match f s with
  | Done a => Done (a, s)
  | Fault => Fault
  | Stuck => Stuck
  end.
Definition fault {S A} : St S A := fun _ => Fault.
Definition stuck {S A} : St S A := fun _ => Stuck.

(** Total correctness of [m] from [s]: it returns, without a fault and within
    its budget, and the result and the final state satisfy [Q]. *)
Definition wp {S A} (m : St S A) (s : S) (Q : A -> S -> Prop) : Prop :=
  match m s with
  | Done (a, s') => Q a s'
  | Fault => False
  | Stuck => False
  end.

(** The same for code that only reads. *)
Definition returns {A} (m : outcome A) (Q : A -> Prop) : Prop :=
  match m with
  | Done a => Q a
  | Fault => False
  | Stuck => False
  end.

Lemma returns_bind {A B} (m : outcome A) (k : A -> outcome B) Q :
  returns m (fun a => returns (k a) Q) -> returns (m ≫= k) Q.
Proof. by destruct m. Qed.

Lemma returns_mono {A} (m : outcome A) (P Q : A -> Prop) :
  returns m P -> (forall a, P a -> Q a) -> returns m Q.
Proof. destruct m; cbn; auto. Qed.

Lemma returns_done {A} (m : outcome A) Q : returns m Q <-> exists a, m = Done a /\ Q a.
Proof.
  destruct m; cbn; split; try done; eauto; intros (? & [= <-] & ?); done.
Qed.

Section wp_rules.
Context {S : Type}.
Implicit Types s : S.

Lemma wp_done {A} (m : St S A) s Q :
  wp m s Q <-> exists a s', m s = Done (a, s') /\ Q a s'.
Proof.
  unfold wp. destruct (m s) as [[a s']| |]; split; try done.
  - eauto.
  - intros (? & ? & [= <- <-] & ?). done.
  - intros (? & ? & ? & ?). done.
  - intros (? & ? & ? & ?). done.
Qed.

Lemma wp_mono {A} (m : St S A) s (P Q : A -> S -> Prop) :
  wp m s P -> (forall a s', P a s' -> Q a s') -> wp m s Q.
Proof. unfold wp. destruct (m s) as [[a s']| |]; auto. Qed.

Lemma wp_ret {A} (a : A) s (Q : A -> S -> Prop) : Q a s -> wp (mret a) s Q.
Proof. done. Qed.

Lemma wp_bind {A B} (m : St S A) (k : A -> St S B) s Q :
  wp m s (fun a s' => wp (k a) s' Q) -> wp (m ≫= k) s Q.
Proof. unfold wp, mbind, St_bind. by destruct (m s) as [[a s']| |]. Qed.

Lemma wp_gets {A} (f : S -> A) s (Q : A -> S -> Prop) : Q (f s) s -> wp (gets f) s Q.
Proof. done. Qed.

Lemma wp_get s (Q : S -> S -> Prop) : Q s s -> wp get s Q.
Proof. done. Qed.

Lemma wp_modify (f : S -> S) s (Q : unit -> S -> Prop) : Q tt (f s) -> wp (modify f) s Q.
Proof. done. Qed.

Lemma wp_asks {A} (f : S -> outcome A) s a (Q : A -> S -> Prop) :
  f s = Done a -> Q a s -> wp (asks f) s Q.
Proof. intros E HQ. unfold wp, asks. by rewrite E. Qed.

Lemma wp_if {A} (b : bool) (m1 m2 : St S A) s Q :
  (b = true -> wp m1 s Q) -> (b = false -> wp m2 s Q) -> wp (if b then m1 else m2) s Q.
Proof. destruct b; auto. Qed.

(** Two postconditions of the same run can be combined. *)
Lemma wp_and {A} (m : St S A) s (P Q : A -> S -> Prop) :
  wp m s P -> wp m s Q -> wp m s (fun a s' => P a s' /\ Q a s').
Proof. unfold wp. destruct (m s) as [[a s']| |]; auto. Qed.

Lemma wp_run {A} (m : St S A) s Q a s' : wp m s Q -> m s = Done (a, s') -> Q a s'.
Proof. intros H E. unfold wp in H. rewrite E in H. done. Qed.

Lemma bind_done {A B} (m : St S A) (k : A -> St S B) s a s' :
  m s = Done (a, s') -> (m ≫= k) s = k a s'.
Proof. intros E. unfold mbind, St_bind. by rewrite E. Qed.

Lemma wp_bind_done {A B} (m : St S A) (k : A -> St S B) s a s' Q :
  m s = Done (a, s') -> wp (k a) s' Q -> wp (m ≫= k) s Q.
Proof. intros E. unfold wp. by rewrite (bind_done _ _ _ _ _ E). Qed.
End wp_rules.

#[export] Instance wp_proper {S A} (m : St S A) s :
  Proper (pointwise_relation A (pointwise_relation S impl) ==> impl) (wp m s).
Proof. intros P Q HPQ HP. eapply wp_mono; [exact HP|]. intros a s'. apply HPQ. Qed.

(** Compute the monad's own steps, leaving the operations of the program. *)
Ltac st_unfold := cbv [mbind St_bind mret St_ret get gets modify].

(** * Lists of booleans *)

Lemma existsb_false {A} (f : A -> bool) l :
  existsb f l = false <-> forall x, In x l -> f x = false.
Proof.
  induction l as [|a l IH]; cbn; [naive_solver|]. rewrite orb_false_iff, IH. naive_solver.
Qed.

Lemma forallb_false {A} (f : A -> bool) l :
  forallb f l = false <-> exists x, In x l /\ f x = false.
Proof.
  induction l as [|a l IH]; cbn; [naive_solver|]. rewrite andb_false_iff, IH. naive_solver.
Qed.

(** * Lists *)

Lemma exists_snoc {A} (P : A -> Prop) (l : list A) a :
  (exists x, x ∈ l ++ [a] /\ P x) <-> (exists x, x ∈ l /\ P x) \/ P a.
Proof.
  setoid_rewrite elem_of_app. setoid_rewrite list_elem_of_singleton. split.
  - intros (x & [?| ->] & ?); eauto.
  - intros [(x & ? & ?)|?]; eauto.
Qed.
