(* ===== verification/Clib.v ===== *)
(** Clib: the <stdlib.h> conversions the front end calls, on byte strings:
    [strtoll], [strtoull], [strtod] and the decimal output of [%d].
    A conversion returns the value, what the end pointer leaves unread, and
    whether errno was set to ERANGE. *)

From S2P Require Import Prelude.
From Stdlib Require Import SpecFloat.
Local Open Scope Z_scope.

(** * Digits *)

(** The value of a digit character in bases up to 16. *)
Definition digit_value (c : ascii) : Z :=
  if isdigit c then code c - 48
  else if between 97 (code c) 122 then code c - 87
  else if between 65 (code c) 90 then code c - 55
  else 99.

(** The digits of the longest prefix in [base], and the rest. *)
Fixpoint span_digits (base : Z) (s : bytes) : list Z * bytes :=
  match s with
  | c :: s' =>
      if digit_value c <? base
      then let (ds, rest) := span_digits base s' in (digit_value c :: ds, rest)
      else ([], s)
  | [] => ([], [])
  end.

Definition value_of (base : Z) (ds : list Z) : Z :=
  fold_left (fun acc d => acc * base + d) ds 0.

(** * strtoll and strtoull *)

Record conversion := { cv_value : Z; cv_rest : bytes; cv_erange : bool }.

Fixpoint drop_space (s : bytes) : bytes :=
  match s with
  | c :: s' => if isspace c then drop_space s' else s
  | [] => []
  end.

Definition split_sign (s : bytes) : bool * bytes :=
  match s with
  | c :: s' =>
      if (c =? "-")%char then (true, s') else if (c =? "+")%char then (false, s') else (false, s)
  | [] => (false, s)
  end.

(** With base 16 a leading 0x or 0X is skipped if a hexadecimal digit follows. *)
Definition skip_prefix (base : Z) (s : bytes) : bytes :=
  match s with
  | z :: x :: d :: s' =>
      if (base =? 16) && (z =? "0")%char && ((x =? "x")%char || (x =? "X")%char)
         && (digit_value d <? 16)
      then d :: s' else s
  | _ => s
  end.

(** The subject sequence: sign, magnitude, rest; [None] if there is no digit. *)
Definition scan_integer (s : bytes) (base : Z) : option (bool * Z * bytes) :=
  let (neg, s1) := split_sign (drop_space s) in
  match span_digits base (skip_prefix base s1) with
  | ([], _) => None
  | (ds, rest) => Some (neg, value_of base ds, rest)
  end.

(** [strtoll(s, &end, base)]: clamped to the range of long long. *)
Definition strtoll (s : bytes) (base : Z) : conversion :=
  match scan_integer s base with
  | None => {| cv_value := 0; cv_rest := s; cv_erange := false |}
  | Some (neg, m, rest) =>
      let v := if neg then - m else m in
      if v <? INT64_MIN then {| cv_value := INT64_MIN; cv_rest := rest; cv_erange := true |}
      else if INT64_MAX <? v then {| cv_value := INT64_MAX; cv_rest := rest; cv_erange := true |}
      else {| cv_value := v; cv_rest := rest; cv_erange := false |}
  end.

(** [strtoull(s, &end, base)]: the magnitude must fit; a sign negates modulo 2^64. *)
Definition strtoull (s : bytes) (base : Z) : conversion :=
  match scan_integer s base with
  | None => {| cv_value := 0; cv_rest := s; cv_erange := false |}
  | Some (neg, m, rest) =>
      if UINT64_MAX <? m then {| cv_value := UINT64_MAX; cv_rest := rest; cv_erange := true |}
      else {| cv_value := (if neg then - m else m) mod 2 ^ 64; cv_rest := rest; cv_erange := false |}
  end.

(** * strtod on [digits . digits]

    The value m / 10^k rounded once to binary64 (round to nearest, ties to
    even), as the C library does for decimal input. *)

Definition binary64 := spec_float.

Definition float_of_ratio (m : Z) (p : positive) : binary64 :=
  match m with
  | Zpos n => SFdiv 53 1024 (S754_finite false n 0) (S754_finite false p 0)
  | _ => S754_zero false
  end.

Fixpoint pow10 (k : nat) : positive :=
  match k with
  | O => 1%positive
  | S k' => (10 * pow10 k')%positive
  end.

Definition strtod (s : bytes) : binary64 :=
  let (ip, rest) := span_digits 10 s in
  match rest with
  | c :: rest' =>
      if (c =? ".")%char then
        let (fp, _) := span_digits 10 rest' in
        float_of_ratio (value_of 10 (ip ++ fp)) (pow10 (length fp))
      else float_of_ratio (value_of 10 ip) 1
  | [] => float_of_ratio (value_of 10 ip) 1
  end.

(** * printf("%d") *)

Definition digit_char (d : Z) : ascii := ascii_of_N (Z.to_N (48 + d)).

Fixpoint decimal_digits (fuel : nat) (z : Z) (acc : bytes) : bytes :=
  match fuel with
  | O => acc
  | S f => if z <? 10 then digit_char z :: acc
           else decimal_digits f (z / 10) (digit_char (z mod 10) :: acc)
  end.

(** Enough digits for every 64-bit magnitude, and for larger values too: the
    budget is the number of binary digits. *)
Definition print_nonneg (z : Z) : bytes := decimal_digits (S (Z.to_nat (Z.log2 z))) z [].

Definition print_Z (z : Z) : bytes :=
  if z <? 0 then "-"%char :: print_nonneg (- z) else print_nonneg z.
