(* ===== verification/Lexer.v ===== *)
(** Lexer: src/lexer.c and include/vnt/lexer.h. The scanner state is the
    record [Lexer]; each C function is the definition of the same name, in the
    state monad of Prelude. A read of the source is checked: an index past the
    terminating NUL is a [Fault]. *)

From S2P Require Import Prelude.

(** * Tokens *)

Inductive TokenType : Set :=
  | TOKEN_EOF
  | TOKEN_IDENTIFIER
  | TOKEN_STRING
  | TOKEN_INTEGER
  | TOKEN_FLOAT
  | TOKEN_LEFT_PAREN
  | TOKEN_RIGHT_PAREN
  | TOKEN_COMMA
  | TOKEN_COLON
  | TOKEN_DOT
  | TOKEN_AMPERSAND
  | TOKEN_LEFT_BRACE
  | TOKEN_RIGHT_BRACE
  | TOKEN_LEFT_BRACKET
  | TOKEN_RIGHT_BRACKET
  | TOKEN_EQUALS
  | TOKEN_PLUS_EQUALS
  | TOKEN_MINUS_EQUALS
  | TOKEN_STAR_EQUALS
  | TOKEN_SLASH_EQUALS
  | TOKEN_PERCENT_EQUALS
  | TOKEN_EQUAL_EQUAL
  | TOKEN_BANG
  | TOKEN_BANG_EQUAL
  | TOKEN_GREATER
  | TOKEN_LESS
  | TOKEN_GREATER_EQUAL
  | TOKEN_LESS_EQUAL
  | TOKEN_PLUS
  | TOKEN_MINUS
  | TOKEN_STAR
  | TOKEN_SLASH
  | TOKEN_PERCENT
  | TOKEN_AND_AND
  | TOKEN_OR_OR
  | TOKEN_UNKNOWN.

#[export] Instance TokenType_eq_dec : EqDecision TokenType.
Proof. solve_decision. Defined.

(** [token_start] is the offset of [start] in the source buffer. *)
Record Token := {
  token_type : TokenType;
  token_start : nat;
  token_length : nat;
  token_line : nat;
  token_column : nat
}.

Record Lexer := {
  source : bytes;
  current : nat;
  line : nat;
  column : nat;
  token_start_line : nat;
  token_start_column : nat
}.

(** * Reading the source buffer *)

(** The buffer holds the bytes of the source and a NUL after them. *)
Definition char_at (src : bytes) (i : nat) : option ascii := (src ++ [NUL]) !! i.

Definition read (offset : nat) : St Lexer ascii := fun lx =>
  match char_at (source lx) (current lx + offset) with
  | Some c => Done (c, lx)
  | None => Fault
  end.

Definition peek : St Lexer ascii := read 0.

(** The position after reading [c] (line, column). *)
Definition next_position (c : ascii) (pos : nat * nat) : nat * nat :=
  if (c =? newline)%char then (S pos.1, 1)
  else if (c =? NUL)%char then pos
  else (pos.1, S pos.2).

Definition step_over (c : ascii) (lx : Lexer) : Lexer :=
  let pos := next_position c (line lx, column lx) in
  {| source := source lx; current := S (current lx); line := pos.1; column := pos.2;
     token_start_line := token_start_line lx;
     token_start_column := token_start_column lx |}.

Definition advance : St Lexer ascii :=
  c ← peek;
  _ ← modify (step_over c);
  mret c.

(** [while (p(peek(lexer))) advance(lexer);] *)
Fixpoint advance_while (p : ascii -> bool) (fuel : nat) : St Lexer unit :=
  match fuel with
  | O => stuck
  | S f =>
      c ← peek;
      if p c then _ ← advance; advance_while p f else mret tt
  end.

(** Every loop of the scanner moves forward at each round, so the length of
    the buffer bounds the number of rounds. *)
Definition lexer_fuel (lx : Lexer) : nat := 2 + length (source lx).

Definition in_comment (c : ascii) : bool :=
  negb (c =? NUL)%char && negb (c =? newline)%char.

Fixpoint skip_whitespace_loop (fuel : nat) : St Lexer unit :=
  match fuel with
  | O => stuck
  | S f =>
      c ← peek;
      if isspace c then _ ← advance; skip_whitespace_loop f
      else if (c =? "#")%char then
        n ← gets lexer_fuel;
        _ ← advance_while in_comment n;
        skip_whitespace_loop f
      else mret tt
  end.

Definition skip_whitespace : St Lexer unit :=
  n ← gets lexer_fuel;
  skip_whitespace_loop n.

(** * Tokens of each kind *)

Definition make_token (type : TokenType) (start : nat) : St Lexer Token :=
  lx ← get;
  mret {| token_type := type; token_start := start; token_length := current lx - start;
          token_line := token_start_line lx; token_column := token_start_column lx |}.

Definition identifier_char (c : ascii) : bool := isalnum c || (c =? "_")%char.

Definition identifier (start : nat) : St Lexer Token :=
  n ← gets lexer_fuel;
  _ ← advance_while identifier_char n;
  make_token TOKEN_IDENTIFIER start.

Definition number (first : ascii) (start : nat) : St Lexer Token :=
  n ← gets lexer_fuel;
  c ← peek;
  if (first =? "0")%char && ((c =? "x")%char || (c =? "X")%char) then
    _ ← advance;
    _ ← advance_while isxdigit n;
    make_token TOKEN_INTEGER start
  else
    _ ← advance_while isdigit n;
    c ← peek;
    if (c =? ".")%char then
      d ← read 1;
      if isdigit d then
        _ ← advance;
        _ ← advance_while isdigit n;
        make_token TOKEN_FLOAT start
      else make_token TOKEN_INTEGER start
    else make_token TOKEN_INTEGER start.

Fixpoint string_loop (fuel : nat) : St Lexer unit :=
  match fuel with
  | O => stuck
  | S f =>
      c ← peek;
      if (c =? quote)%char || (c =? NUL)%char then mret tt
      else if (c =? backslash)%char then
        _ ← advance;
        d ← peek;
        if (d =? NUL)%char then mret tt
        else _ ← advance; string_loop f
      else _ ← advance; string_loop f
  end.

Definition string_token (start : nat) : St Lexer Token :=
  n ← gets lexer_fuel;
  _ ← string_loop n;
  c ← peek;
  if (c =? NUL)%char then make_token TOKEN_UNKNOWN start
  else
    _ ← advance;
    t ← make_token TOKEN_STRING start;
    mret {| token_type := token_type t; token_start := S (token_start t);
            token_length := token_length t - 2;
            token_line := token_line t; token_column := token_column t |}.

(** [case c: if (peek(lexer) == second) { advance(lexer); return two; } return one;] *)
Definition one_or_two (second : ascii) (two one : TokenType) (start : nat) : St Lexer Token :=
  c ← peek;
  if (c =? second)%char then _ ← advance; make_token two start
  else make_token one start.

Definition operator_token (c : ascii) (start : nat) : St Lexer Token :=
  if (c =? "(")%char then make_token TOKEN_LEFT_PAREN start
  else if (c =? ")")%char then make_token TOKEN_RIGHT_PAREN start
  else if (c =? "{")%char then make_token TOKEN_LEFT_BRACE start
  else if (c =? "}")%char then make_token TOKEN_RIGHT_BRACE start
  else if (c =? "[")%char then make_token TOKEN_LEFT_BRACKET start
  else if (c =? "]")%char then make_token TOKEN_RIGHT_BRACKET start
  else if (c =? ",")%char then make_token TOKEN_COMMA start
  else if (c =? ":")%char then make_token TOKEN_COLON start
  else if (c =? ".")%char then make_token TOKEN_DOT start
  else if (c =? "=")%char then one_or_two "=" TOKEN_EQUAL_EQUAL TOKEN_EQUALS start
  else if (c =? "!")%char then one_or_two "=" TOKEN_BANG_EQUAL TOKEN_BANG start
  else if (c =? ">")%char then one_or_two "=" TOKEN_GREATER_EQUAL TOKEN_GREATER start
  else if (c =? "<")%char then one_or_two "=" TOKEN_LESS_EQUAL TOKEN_LESS start
  else if (c =? "+")%char then one_or_two "=" TOKEN_PLUS_EQUALS TOKEN_PLUS start
  else if (c =? "-")%char then one_or_two "=" TOKEN_MINUS_EQUALS TOKEN_MINUS start
  else if (c =? "*")%char then one_or_two "=" TOKEN_STAR_EQUALS TOKEN_STAR start
  else if (c =? "/")%char then one_or_two "=" TOKEN_SLASH_EQUALS TOKEN_SLASH start
  else if (c =? "%")%char then one_or_two "=" TOKEN_PERCENT_EQUALS TOKEN_PERCENT start
  else if (c =? "&")%char then one_or_two "&" TOKEN_AND_AND TOKEN_AMPERSAND start
  else if (c =? "|")%char then one_or_two "|" TOKEN_OR_OR TOKEN_UNKNOWN start
  else make_token TOKEN_UNKNOWN start.

(** * The scanner *)

Definition lexer_init (src : bytes) : Lexer :=
  {| source := src; current := 0; line := 1; column := 1;
     token_start_line := 1; token_start_column := 1 |}.

Definition mark_token_start (lx : Lexer) : Lexer :=
  {| source := source lx; current := current lx; line := line lx; column := column lx;
     token_start_line := line lx; token_start_column := column lx |}.

Definition lexer_next : St Lexer Token :=
  _ ← skip_whitespace;
  _ ← modify mark_token_start;
  start ← gets current;
  c ← advance;
  if (c =? NUL)%char then make_token TOKEN_EOF start
  else if isalpha c || (c =? "_")%char then identifier start
  else if isdigit c then number c start
  else if (c =? quote)%char then string_token start
  else operator_token c start.

(** The bytes a token points to: [length] bytes from [start]. *)
Definition token_text (src : bytes) (t : Token) : bytes :=
  take (token_length t) (drop (token_start t) src).

(** Reading tokens up to the first end-of-file token. *)
Fixpoint lex_all (fuel : nat) : St Lexer (list Token) :=
  match fuel with
  | O => stuck
  | S f =>
      t ← lexer_next;
      if decide (token_type t = TOKEN_EOF) then mret [t]
      else ts ← lex_all f; mret (t :: ts)
  end.

Definition tokenize (src : bytes) : outcome (list Token) :=
  match lex_all (2 + length src) (lexer_init src) with
  | Done (ts, _) => Done ts
  | Fault => Fault
  | Stuck => Stuck
  end.
