(* ===== verification/LexerFacts.v ===== *)
(** LexerFacts: the scanner of Lexer computes a reference scanner, so
    it never reads outside of the source and always returns. The reference works
    on the unread suffix of the source and is written by recursion on it. *)

From S2P Require Import Prelude Lexer.

(** * The reference scanner *)

Fixpoint take_while (p : ascii -> bool) (l : bytes) : bytes :=
  match l with
  | c :: l' => if p c then c :: take_while p l' else []
  | [] => []
  end.

Definition while_len (p : ascii -> bool) (l : bytes) : nat := length (take_while p l).
Arguments while_len : simpl never.

(** The length of the blanks and comments at the start of [l]; [comment] tells
    whether a comment is open. *)
Fixpoint trivia_len (comment : bool) (l : bytes) : nat :=
  match l with
  | [] => 0
  | c :: l' =>
      if comment then
        if (c =? NUL)%char then 0
        else if (c =? newline)%char then S (trivia_len false l')
        else S (trivia_len true l')
      else if isspace c then S (trivia_len false l')
      else if (c =? "#")%char then S (trivia_len true l')
      else 0
  end.

(** The length of the body of a string literal, and whether it is closed. *)
Fixpoint string_body (l : bytes) : nat * bool :=
  match l with
  | [] => (0, false)
  | c :: l' =>
      if (c =? quote)%char then (0, true)
      else if (c =? NUL)%char then (0, false)
      else if (c =? backslash)%char then
        match l' with
        | [] => (1, false)
        | d :: l'' =>
            if (d =? NUL)%char then (1, false)
            else let (n, closed) := string_body l'' in (2 + n, closed)
        end
      else let (n, closed) := string_body l' in (S n, closed)
  end.

Definition number_lexeme (first : ascii) (l : bytes) : TokenType * nat :=
  if (first =? "0")%char && ((hd NUL l =? "x")%char || (hd NUL l =? "X")%char)
  then (TOKEN_INTEGER, 2 + while_len isxdigit (tail l))
  else
    let n := while_len isdigit l in
    let rest := drop n l in
    if (hd NUL rest =? ".")%char && isdigit (hd NUL (tail rest))
    then (TOKEN_FLOAT, 2 + n + while_len isdigit (tail rest))
    else (TOKEN_INTEGER, 1 + n).

(** The spellings of the operators, the two-character ones first. *)
Definition operators : list (bytes * TokenType) :=
  [(str "==", TOKEN_EQUAL_EQUAL); (str "!=", TOKEN_BANG_EQUAL);
   (str ">=", TOKEN_GREATER_EQUAL); (str "<=", TOKEN_LESS_EQUAL);
   (str "+=", TOKEN_PLUS_EQUALS); (str "-=", TOKEN_MINUS_EQUALS);
   (str "*=", TOKEN_STAR_EQUALS); (str "/=", TOKEN_SLASH_EQUALS);
   (str "%=", TOKEN_PERCENT_EQUALS); (str "&&", TOKEN_AND_AND); (str "||", TOKEN_OR_OR);
   (str "(", TOKEN_LEFT_PAREN); (str ")", TOKEN_RIGHT_PAREN);
   (str "{", TOKEN_LEFT_BRACE); (str "}", TOKEN_RIGHT_BRACE);
   (str "[", TOKEN_LEFT_BRACKET); (str "]", TOKEN_RIGHT_BRACKET);
   (str ",", TOKEN_COMMA); (str ":", TOKEN_COLON); (str ".", TOKEN_DOT);
   (str "=", TOKEN_EQUALS); (str "!", TOKEN_BANG); (str ">", TOKEN_GREATER);
   (str "<", TOKEN_LESS); (str "+", TOKEN_PLUS); (str "-", TOKEN_MINUS);
   (str "*", TOKEN_STAR); (str "/", TOKEN_SLASH); (str "%", TOKEN_PERCENT);
   (str "&", TOKEN_AMPERSAND)].

Fixpoint is_prefix (s l : bytes) : bool :=
  match s, l with
  | [], _ => true
  | x :: s', y :: l' => (x =? y)%char && is_prefix s' l'
  | _ :: _, [] => false
  end.

(** The first spelling of the table at the start of [l]; any other character
    is a token of its own. *)
Definition operator_lexeme (l : bytes) : TokenType * nat :=
  match List.find (fun op => is_prefix op.1 l) operators with
  | Some (spelling, type) => (type, length spelling)
  | None => (TOKEN_UNKNOWN, 1)
  end.

(** The kind of the lexeme at the start of [l] and how many characters it
    takes (for the end of file, the terminating NUL). *)
Definition lexeme (l : bytes) : TokenType * nat :=
  match l with
  | [] => (TOKEN_EOF, 1)
  | c :: l' =>
      if (c =? NUL)%char then (TOKEN_EOF, 1)
      else if isalpha c || (c =? "_")%char then
        (TOKEN_IDENTIFIER, S (while_len identifier_char l'))
      else if isdigit c then number_lexeme c l'
      else if (c =? quote)%char then
        let (n, closed) := string_body l' in
        if closed then (TOKEN_STRING, n + 2) else (TOKEN_UNKNOWN, S n)
      else operator_lexeme l
  end.

(** * Moving over the source *)

(** The unread part of the source. *)
Definition suffix (lx : Lexer) : bytes := drop (current lx) (source lx).

(** A position the scanner may read at: the terminating NUL included. *)
Definition in_source (lx : Lexer) : Prop := current lx <= length (source lx).

Definition advance_position (cs : bytes) (pos : nat * nat) : nat * nat :=
  fold_left (fun pos c => next_position c pos) cs pos.

(** The scanner [k] characters further. *)
Definition moved (k : nat) (lx : Lexer) : Lexer :=
  let pos := advance_position (take k (suffix lx)) (line lx, column lx) in
  {| source := source lx; current := current lx + k; line := pos.1; column := pos.2;
     token_start_line := token_start_line lx;
     token_start_column := token_start_column lx |}.

(** The token of [n] characters that starts where [lx] is; the token of a
    string literal leaves its quotes out. *)
Definition token_of (lx : Lexer) (type : TokenType) (n : nat) : Token :=
  {| token_type := type;
     token_start := if decide (type = TOKEN_STRING) then S (current lx) else current lx;
     token_length := if decide (type = TOKEN_STRING) then n - 2 else n;
     token_line := token_start_line lx; token_column := token_start_column lx |}.

(** What [lexer_next] returns, from the reference scanner. *)
Definition scan (lx : Lexer) : Token * Lexer :=
  let lx1 := mark_token_start (moved (trivia_len false (suffix lx)) lx) in
  let (type, n) := lexeme (suffix lx1) in (token_of lx1 type n, moved n lx1).

(** * Moving over the source *)

Lemma suffix_length lx : length (suffix lx) = length (source lx) - current lx.
Proof. apply length_drop. Qed.

Lemma moved_0 lx : moved 0 lx = lx.
Proof. destruct lx. unfold moved. cbn. by rewrite Nat.add_0_r. Qed.

Lemma suffix_moved k lx : suffix (moved k lx) = drop k (suffix lx).
Proof. unfold suffix. cbn. by rewrite drop_drop. Qed.

Lemma moved_moved a b lx : moved b (moved a lx) = moved (a + b) lx.
Proof.
  unfold moved at 1. rewrite suffix_moved. unfold moved. cbn.
  replace (take (a + b) (suffix lx)) with (take a (suffix lx) ++ take b (drop a (suffix lx))).
  2: { rewrite <- (take_drop a (suffix lx)) at 3. rewrite take_app.
       rewrite length_take. rewrite take_take. f_equal.
       - f_equal. lia.
       - destruct (decide (a <= length (suffix lx))).
         + f_equal. lia.
         + rewrite !drop_ge by lia. by rewrite !take_nil. }
  unfold advance_position. rewrite fold_left_app.
  rewrite <- surjective_pairing. by rewrite Nat.add_assoc.
Qed.

Lemma suffix_mark lx : suffix (mark_token_start lx) = suffix lx.
Proof. done. Qed.

Lemma in_source_moved k lx :
  in_source lx -> k <= length (suffix lx) -> in_source (moved k lx).
Proof. unfold in_source. rewrite suffix_length. cbn. lia. Qed.

Lemma suffix_moved_1 lx c l : suffix lx = c :: l -> suffix (moved 1 lx) = l.
Proof. intros E. rewrite suffix_moved, E. done. Qed.

Lemma in_source_moved_1 lx c l : in_source lx -> suffix lx = c :: l -> in_source (moved 1 lx).
Proof. intros Hin E. apply in_source_moved; [done|]. rewrite E. cbn. lia. Qed.

Lemma in_source_drop lx : in_source lx -> current lx + length (suffix lx) = length (source lx).
Proof. unfold in_source. rewrite suffix_length. lia. Qed.

#[export] Hint Resolve in_source_moved : vnt.

(** * Reading one character *)

Lemma char_at_suffix lx k :
  in_source lx -> k <= length (suffix lx) ->
  char_at (source lx) (current lx + k) = Some (hd NUL (drop k (suffix lx))).
Proof.
  unfold in_source. rewrite suffix_length. intros Hin Hk.
  unfold char_at, suffix. rewrite drop_drop.
  rewrite lookup_app. destruct (source lx !! (current lx + k)) as [c|] eqn:E.
  - apply drop_S in E. by rewrite E.
  - apply lookup_ge_None in E. rewrite drop_ge by lia.
    by replace (current lx + k - length (source lx)) with 0 by lia.
Qed.

Lemma read_suffix k lx :
  in_source lx -> k <= length (suffix lx) ->
  read k lx = Done (hd NUL (drop k (suffix lx)), lx).
Proof. intros ??. unfold read. by rewrite char_at_suffix. Qed.

Lemma peek_suffix lx : in_source lx -> peek lx = Done (hd NUL (suffix lx), lx).
Proof. intros. unfold peek. rewrite read_suffix by (done || lia). by rewrite drop_0. Qed.

Lemma step_over_moved lx : step_over (hd NUL (suffix lx)) lx = moved 1 lx.
Proof.
  unfold step_over, moved, advance_position. rewrite Nat.add_1_r.
  destruct (suffix lx) as [|c l]; cbn; done.
Qed.

Lemma advance_suffix lx :
  in_source lx -> advance lx = Done (hd NUL (suffix lx), moved 1 lx).
Proof.
  intros Hin. unfold advance. rewrite (bind_done _ _ _ _ _ (peek_suffix lx Hin)).
  unfold modify, mbind, St_bind, mret, St_ret. by rewrite step_over_moved.
Qed.

(** * The loops *)

Lemma while_len_le p l : while_len p l <= length l.
Proof. unfold while_len. induction l as [|c l IH]; cbn; [lia|]. destruct (p c); cbn; lia. Qed.

Lemma trivia_len_le l : forall comment, trivia_len comment l <= length l.
Proof.
  induction l as [|c l IH]; intros comment; cbn; [lia|].
  pose proof (IH true). pose proof (IH false). repeat case_match; lia.
Qed.

(** [advance_suffix] and [peek_suffix] as rewriting steps on a goal
    [_ = Done _] whose left side is a bind. *)
Ltac run_peek :=
  match goal with
  | |- mbind _ peek ?lx = _ =>
      rewrite (bind_done _ _ _ _ _ (peek_suffix lx ltac:(eauto with vnt)))
  end.
Ltac run_advance :=
  match goal with
  | |- mbind _ advance ?lx = _ =>
      rewrite (bind_done _ _ _ _ _ (advance_suffix lx ltac:(eauto with vnt)))
  end.

Lemma advance_while_suffix p n : forall lx,
  in_source lx -> p NUL = false -> length (suffix lx) < n ->
  advance_while p n lx = Done (tt, moved (while_len p (suffix lx)) lx).
Proof.
  induction n as [|n IH]; intros lx Hin Hp Hn; [lia|]. cbn [advance_while].
  run_peek. unfold while_len. destruct (suffix lx) as [|c l] eqn:E; cbn [hd take_while].
  - rewrite Hp. cbn. by rewrite moved_0.
  - destruct (p c) eqn:Hc; [|by rewrite moved_0].
    run_advance. cbn in Hn.
    rewrite IH by (eauto using in_source_moved_1 || (erewrite suffix_moved_1 by done; lia)).
    erewrite suffix_moved_1 by done. by rewrite moved_moved.
Qed.

Lemma lexer_fuel_suffix lx : length (suffix lx) < lexer_fuel lx.
Proof. rewrite suffix_length. unfold lexer_fuel. lia. Qed.
#[export] Hint Resolve lexer_fuel_suffix : vnt.

Lemma trivia_comment l :
  trivia_len true l =
  while_len in_comment l + trivia_len false (drop (while_len in_comment l) l).
Proof.
  unfold while_len. induction l as [|c l IH]; cbn [trivia_len take_while]; [done|].
  unfold in_comment at 1 3. destruct (c =? NUL)%char eqn:E0; cbn [negb andb].
  - apply Ascii.eqb_eq in E0 as ->. done.
  - destruct (c =? newline)%char eqn:E1; cbn [negb andb length drop].
    + apply Ascii.eqb_eq in E1 as ->. done.
    + by rewrite IH.
Qed.

Lemma skip_whitespace_loop_suffix n : forall lx,
  in_source lx -> length (suffix lx) < n ->
  skip_whitespace_loop n lx = Done (tt, moved (trivia_len false (suffix lx)) lx).
Proof.
  induction n as [|n IH]; intros lx Hin Hn; [lia|]. cbn [skip_whitespace_loop].
  run_peek. destruct (suffix lx) as [|c l] eqn:E; cbn [hd trivia_len].
  - by rewrite moved_0.
  - destruct (isspace c) eqn:Hs; [|destruct (c =? "#")%char eqn:Hc]; [..|by rewrite moved_0].
    + run_advance. cbn in Hn.
      rewrite IH by (eauto using in_source_moved_1 || (erewrite suffix_moved_1 by done; lia)).
      erewrite suffix_moved_1 by done. by rewrite moved_moved.
    + apply Ascii.eqb_eq in Hc as ->. cbn [mbind St_bind gets].
      change (gets lexer_fuel ≫= ?k) with (fun s : Lexer => k (lexer_fuel s) s). cbn beta.
      erewrite bind_done; [|apply advance_while_suffix; eauto with vnt].
      pose proof (while_len_le in_comment (suffix lx)).
      assert (while_len in_comment (suffix lx) = S (while_len in_comment l)) as Hw
        by (by rewrite E).
      rewrite IH; [|by apply in_source_moved
                   |rewrite suffix_moved, length_drop, Hw, E in *; cbn in *; lia].
      rewrite moved_moved, suffix_moved, trivia_comment, Hw, E. done.
Qed.

Lemma skip_whitespace_suffix lx :
  in_source lx ->
  skip_whitespace lx = Done (tt, moved (trivia_len false (suffix lx)) lx).
Proof. intros. apply skip_whitespace_loop_suffix; eauto with vnt. Qed.

Lemma string_loop_suffix n : forall lx,
  in_source lx -> length (suffix lx) < n ->
  string_loop n lx = Done (tt, moved (string_body (suffix lx)).1 lx).
Proof.
  induction n as [|n IH]; intros lx Hin Hn; [lia|]. cbn [string_loop].
  run_peek. destruct (suffix lx) as [|c l] eqn:E; cbn [hd string_body].
  { by rewrite moved_0. }
  cbn in Hn.
  assert (in_source (moved 1 lx)) as Hin1 by eauto using in_source_moved_1.
  assert (suffix (moved 1 lx) = l) as E1 by eauto using suffix_moved_1.
  destruct (c =? quote)%char eqn:Hq; [by rewrite moved_0|].
  destruct (c =? NUL)%char eqn:H0; [by rewrite moved_0|]. cbn [orb].
  destruct (c =? backslash)%char eqn:Hb.
  - run_advance. run_peek. rewrite E1. destruct l as [|d l]; cbn [hd]; [done|].
    destruct (d =? NUL)%char eqn:Hd; [done|].
    run_advance. cbn in Hn.
    rewrite IH by (eauto using in_source_moved_1 || (erewrite suffix_moved_1 by done; lia)).
    erewrite suffix_moved_1 by done. rewrite !moved_moved. by destruct (string_body l).
  - run_advance. rewrite IH by (rewrite ?E1; done || lia).
    rewrite E1, moved_moved. by destruct (string_body l).
Qed.

(** * The kinds of tokens *)

(** Where the body of a string literal ends. *)
Lemma string_body_end l : forall n closed,
  string_body l = (n, closed) ->
  n <= length l /\ hd NUL (drop n l) = (if closed then quote else NUL).
Proof.
  induction l as [l IH] using (induction_ltof1 _ (@length ascii)). unfold ltof in IH.
  intros n closed. destruct l as [|c l]; cbn [string_body]; [by intros [= <- <-]|].
  destruct (c =? quote)%char eqn:Hq.
  { apply Ascii.eqb_eq in Hq as ->. intros [= <- <-]. cbn. split; [lia|done]. }
  destruct (c =? NUL)%char eqn:H0.
  { apply Ascii.eqb_eq in H0 as ->. intros [= <- <-]. cbn. split; [lia|done]. }
  destruct (c =? backslash)%char.
  - destruct l as [|d l]; [intros [= <- <-]; cbn; split; [lia|done]|].
    destruct (d =? NUL)%char eqn:Hd.
    { apply Ascii.eqb_eq in Hd as ->. intros [= <- <-]. cbn. split; [lia|done]. }
    destruct (string_body l) as [m b] eqn:E. intros [= <- <-].
    apply IH in E; [|cbn; lia]. cbn. split; [lia|apply E].
  - destruct (string_body l) as [m b] eqn:E. intros [= <- <-].
    apply IH in E; [|cbn; lia]. cbn. split; [lia|apply E].
Qed.

Lemma make_token_moved type lx n :
  type <> TOKEN_STRING ->
  make_token type (current lx) (moved n lx) = Done (token_of lx type n, moved n lx).
Proof.
  intros. unfold make_token, token_of. st_unfold. cbn.
  rewrite !decide_False by done. by replace (current lx + n - current lx) with n by lia.
Qed.

Section token_kinds.
Context (lx : Lexer) (c : ascii) (l : bytes).
Hypothesis (Hin : in_source lx) (Hl : suffix lx = c :: l).

Let Hin1 : in_source (moved 1 lx) := in_source_moved_1 lx c l Hin Hl.
Let Hl1 : suffix (moved 1 lx) = l := suffix_moved_1 lx c l Hl.

Lemma advance_while_moved_1 p :
  p NUL = false ->
  advance_while p (lexer_fuel (moved 1 lx)) (moved 1 lx)
  = Done (tt, moved (S (while_len p l)) lx).
Proof.
  intros Hp. rewrite advance_while_suffix by eauto with vnt.
  by rewrite Hl1, moved_moved.
Qed.

Lemma identifier_lexeme :
  identifier (current lx) (moved 1 lx) =
  let n := S (while_len identifier_char l) in
  Done (token_of lx TOKEN_IDENTIFIER n, moved n lx).
Proof.
  unfold identifier. change (gets lexer_fuel ≫= ?k) with (fun s : Lexer => k (lexer_fuel s) s).
  cbv beta. erewrite bind_done by (by apply advance_while_moved_1).
  by rewrite make_token_moved.
Qed.

Lemma string_token_lexeme :
  string_token (current lx) (moved 1 lx) =
  let (n, closed) := string_body l in
  if closed then Done (token_of lx TOKEN_STRING (n + 2), moved (n + 2) lx)
  else Done (token_of lx TOKEN_UNKNOWN (S n), moved (S n) lx).
Proof.
  unfold string_token.
  change (gets lexer_fuel ≫= ?k) with (fun s : Lexer => k (lexer_fuel s) s). cbv beta.
  erewrite bind_done by (apply string_loop_suffix; eauto with vnt).
  rewrite Hl1, moved_moved. destruct (string_body l) as [n closed] eqn:E.
  apply string_body_end in E as [Hn Hend]. cbn [fst].
  assert (in_source (moved (1 + n) lx)) as Hin2.
  { apply in_source_moved; [done|]. rewrite Hl. cbn. lia. }
  run_peek. assert (suffix (moved (1 + n) lx) = drop n l) as E by (by rewrite suffix_moved, Hl).
  rewrite E, Hend. destruct closed; cbn [Ascii.eqb].
  - change (quote =? NUL)%char with false. cbv iota. run_advance. rewrite moved_moved.
    unfold make_token, token_of. st_unfold. cbn. rewrite !decide_True by done.
    replace (n + 2) with (S (n + 1)) by lia.
    by replace (current lx + S (n + 1) - current lx) with (S (n + 1)) by lia.
  - change (NUL =? NUL)%char with true. cbv iota. by rewrite make_token_moved.
Qed.

Lemma number_token_lexeme :
  number c (current lx) (moved 1 lx) =
  let (type, n) := number_lexeme c l in Done (token_of lx type n, moved n lx).
Proof.
  unfold number, number_lexeme.
  change (gets lexer_fuel ≫= ?k) with (fun s : Lexer => k (lexer_fuel s) s). cbv beta.
  run_peek. rewrite Hl1. set (hex := (c =? "0")%char && _). destruct hex eqn:Hhex.
  - run_advance. destruct l as [|x l'].
    { unfold hex in Hhex. cbn in Hhex. by rewrite andb_false_r in Hhex. }
    erewrite bind_done.
    2: { apply advance_while_suffix; eauto using in_source_moved_1.
         erewrite suffix_moved_1 by done. unfold lexer_fuel. cbn.
         pose proof (in_source_drop lx Hin). rewrite Hl in *. cbn in *. lia. }
    erewrite suffix_moved_1 by done. rewrite !moved_moved. by rewrite make_token_moved.
  - erewrite bind_done by (by apply advance_while_moved_1).
    set (n := while_len isdigit l).
    pose proof (while_len_le isdigit l) as Hn. fold n in Hn.
    assert (in_source (moved (S n) lx)) as Hin2.
    { apply in_source_moved; [done|]. rewrite Hl. cbn. lia. }
    assert (suffix (moved (S n) lx) = drop n l) as E by (by rewrite suffix_moved, Hl).
    run_peek. rewrite E. destruct (hd NUL (drop n l) =? ".")%char eqn:Hdot.
    2: { cbn [andb]. by rewrite make_token_moved. }
    destruct (drop n l) as [|x r] eqn:Er; [done|]. cbn [hd tail andb] in *.
    erewrite bind_done by (apply read_suffix; rewrite ?E; cbn; done || lia).
    rewrite E. change (drop 1 (x :: r)) with r. destruct (isdigit (hd NUL r)).
    2: { by rewrite make_token_moved. }
    run_advance. erewrite bind_done.
    2: { apply advance_while_suffix; eauto using in_source_moved_1.
         erewrite suffix_moved_1 by done. unfold lexer_fuel. cbn.
         pose proof (in_source_drop _ Hin2). rewrite E in *. cbn in *. lia. }
    erewrite suffix_moved_1 by done. rewrite !moved_moved.
    replace (S n + (1 + while_len isdigit r)) with (2 + n + while_len isdigit r) by lia.
    by rewrite make_token_moved.
Qed.

Lemma one_or_two_lexeme second two one :
  two <> TOKEN_STRING -> one <> TOKEN_STRING -> second <> NUL ->
  one_or_two second two one (current lx) (moved 1 lx) =
  let (type, n) := if (hd NUL l =? second)%char then (two, 2) else (one, 1) in
  Done (token_of lx type n, moved n lx).
Proof.
  intros Htwo Hone Hs. unfold one_or_two. run_peek. rewrite Hl1.
  destruct (hd NUL l =? second)%char; [|by rewrite make_token_moved].
  run_advance. rewrite moved_moved. by rewrite make_token_moved.
Qed.

End token_kinds.

Lemma is_prefix_cons x s y r :
  is_prefix (x :: s) (y :: r) = (y =? x)%char && is_prefix s r.
Proof. cbn. by rewrite Ascii.eqb_sym. Qed.

Lemma is_prefix_one x l : x <> NUL -> is_prefix [x] l = (hd NUL l =? x)%char.
Proof.
  intros Hx. destruct l as [|y r]; cbn.
  - symmetry. apply Ascii.eqb_neq. congruence.
  - by rewrite andb_true_r, Ascii.eqb_sym.
Qed.

(** One test of the switch: the character is the one tested, or it is not. *)
Ltac on_char :=
  match goal with
  | Hl : suffix ?lx = ?c :: ?l |- context [(?c =? ?x)%char] =>
      destruct (c =? x)%char eqn:?;
      [ match goal with H : (c =? x)%char = true |- _ => apply Ascii.eqb_eq in H; subst c end;
        first [ rewrite (one_or_two_lexeme lx _ l) by done; by destruct (hd NUL l =? _)%char
              | by rewrite make_token_moved ]
      | cbn [andb List.find fst] ]
  end.

Lemma operator_token_lexeme lx c l :
  in_source lx -> suffix lx = c :: l ->
  operator_token c (current lx) (moved 1 lx) =
  let (type, n) := operator_lexeme (c :: l) in Done (token_of lx type n, moved n lx).
Proof.
  intros Hin Hl. unfold operator_token, operator_lexeme, operators.
  cbn [List.find fst str String.list_ascii_of_string].
  rewrite !is_prefix_cons, !is_prefix_one by done. cbn [is_prefix].
  rewrite !andb_true_r. do 20 on_char. by rewrite make_token_moved.
Qed.

(** * The scanner computes the reference scanner *)

Theorem lexer_next_scan lx :
  in_source lx -> lexer_next lx = Done (scan lx).
Proof.
  intros Hin. unfold lexer_next, scan.
  erewrite bind_done by (by apply skip_whitespace_suffix).
  set (lx1 := mark_token_start (moved (trivia_len false (suffix lx)) lx)).
  assert (in_source lx1) as Hin1 by (by apply in_source_moved, trivia_len_le).
  change (modify mark_token_start ≫= ?k) with (fun s : Lexer => k tt (mark_token_start s)).
  cbv beta. fold lx1.
  change (gets current ≫= ?k) with (fun s : Lexer => k (current s) s). cbv beta.
  run_advance. destruct (suffix lx1) as [|c l] eqn:E; cbn [hd lexeme].
  { change (NUL =? NUL)%char with true. cbv iota. by rewrite make_token_moved. }
  destruct (c =? NUL)%char; [by rewrite make_token_moved|].
  destruct (isalpha c || _); [by rewrite (identifier_lexeme lx1 c l)|].
  destruct (isdigit c).
  { rewrite (number_token_lexeme lx1 c l) by done. by destruct (number_lexeme c l). }
  destruct (c =? quote)%char.
  { rewrite (string_token_lexeme lx1 c l) by done.
    destruct (string_body l) as [n closed]. by destruct closed. }
  rewrite (operator_token_lexeme lx1 c l) by done. by destruct (operator_lexeme (c :: l)).
Qed.
