(* ===== verification/LexerProps.v ===== *)
(** LexerProps: what the scanner guarantees to its client. It is total and
    moves forward, its positions are those of the characters, the tokens and
    the blanks between them tile the source, and every well-formed sequence of
    lexemes is recognised. *)

From S2P Require Import Prelude Lexer LexerFacts.

(** * Specifications *)

(** Line and column (both from 1) of offset [off], counted on the text. *)
Definition line_of (src : bytes) (off : nat) : nat :=
  1 + length (List.filter (fun c => (c =? newline)%char) (take off src)).

Definition column_of (src : bytes) (off : nat) : nat :=
  1 + while_len (fun c => negb (c =? newline)%char) (reverse (take off src)).

(** Where the lexeme of a token starts and how long it is, quotes included;
    the end-of-file token has an empty lexeme. *)
Definition lexeme_start (t : Token) : nat :=
  if decide (token_type t = TOKEN_STRING) then token_start t - 1 else token_start t.
Definition lexeme_length (t : Token) : nat :=
  if decide (token_type t = TOKEN_STRING) then token_length t + 2
  else if decide (token_type t = TOKEN_EOF) then 0
  else token_length t.
Definition lexeme_text (src : bytes) (t : Token) : bytes :=
  take (lexeme_length t) (drop (lexeme_start t) src).

(** Blanks and comments only. *)
Definition is_trivia (l : bytes) : bool := trivia_len false l =? length l.

(** The texts a token of each kind may have. *)
Definition lexeme_ok (type : TokenType) (text : bytes) : bool :=
  match type with
  | TOKEN_EOF => false
  | TOKEN_IDENTIFIER =>
      match text with
      | c :: l => (isalpha c || (c =? "_")%char) && forallb identifier_char l
      | [] => false
      end
  | TOKEN_INTEGER =>
      match text with
      | c :: l =>
          isdigit c &&
          (forallb isdigit l ||
           match l with
           | x :: l' => (c =? "0")%char && ((x =? "x")%char || (x =? "X")%char)
                        && forallb isxdigit l'
           | [] => false
           end)
      | [] => false
      end
  | TOKEN_FLOAT =>
      let n := while_len isdigit text in
      match drop n text with
      | c :: d :: l => (0 <? n) && (c =? ".")%char && forallb isdigit (d :: l)
      | _ => false
      end
  | TOKEN_STRING =>
      match text with
      | c :: l => (c =? quote)%char &&
                  (let (n, closed) := string_body l in closed && (S n =? length l))
      | [] => false
      end
  | TOKEN_UNKNOWN => 0 <? length text
  | _ => existsb (fun op => bool_decide (op = (text, type))) operators
  end.

(** From offset [off] on, [ts] covers the source: blanks and comments, then a
    lexeme of the right kind, and so on up to the end. *)
Fixpoint tiling (src : bytes) (off : nat) (ts : list Token) : bool :=
  match ts with
  | [] => false
  | t :: ts' =>
      let s := lexeme_start t in
      let e := s + lexeme_length t in
      (off <=? s) && (e <=? length src) && is_trivia (take (s - off) (drop off src)) &&
      (if decide (token_type t = TOKEN_EOF) then (s =? length src) && bool_decide (ts' = [])
       else lexeme_ok (token_type t) (lexeme_text src t) && tiling src e ts')
  end.

(** * The lexemes of the reference scanner *)

Lemma operator_lexeme_length l :
  l <> [] -> 1 <= (operator_lexeme l).2 <= length l.
Proof.
  intros Hl. unfold operator_lexeme. destruct (List.find _ operators) as [[sp ty]|] eqn:E.
  - apply List.find_some in E as [Hin Hp]. cbn [fst snd] in *.
    assert (forall s l, is_prefix s l = true -> length s <= length l) as Hle.
    { induction s as [|x s IH]; intros [|y r]; cbn; try lia; try done.
      intros [_ H]%andb_prop. specialize (IH _ H). lia. }
    split; [|auto]. unfold operators in Hin. cbn in Hin.
    decompose [or] Hin; try done;
      match goal with H : _ = (sp, ty) |- _ => injection H as <- <- end; cbn; lia.
  - destruct l; [done|]. cbn. lia.
Qed.

Lemma operator_lexeme_kind l :
  (operator_lexeme l).1 <> TOKEN_EOF /\ (operator_lexeme l).1 <> TOKEN_STRING.
Proof.
  unfold operator_lexeme. destruct (List.find _ operators) as [[sp ty]|] eqn:E; [|done].
  apply List.find_some in E as [Hin _]. unfold operators in Hin. cbn in Hin.
  decompose [or] Hin; try done;
    match goal with H : _ = (sp, ty) |- _ => injection H as <- <- end; done.
Qed.

Lemma number_lexeme_length c l :
  1 <= (number_lexeme c l).2 <= S (length l).
Proof.
  unfold number_lexeme. destruct (_ && _) eqn:Hx.
  - destruct l as [|x l]; [cbn in Hx; by rewrite andb_false_r in Hx|].
    cbn. pose proof (while_len_le isxdigit l). lia.
  - pose proof (while_len_le isdigit l).
    set (n := while_len isdigit l) in *. clearbody n. case_match eqn:Hf; cbn; [|lia].
    destruct (drop n l) as [|d r] eqn:E; [done|].
    assert (length (drop n l) = S (length r)) as Hlen by (by rewrite E).
    rewrite length_drop in Hlen. pose proof (while_len_le isdigit r). cbn. lia.
Qed.

Lemma number_lexeme_kind c l :
  (number_lexeme c l).1 = TOKEN_INTEGER \/ (number_lexeme c l).1 = TOKEN_FLOAT.
Proof. unfold number_lexeme. repeat case_match; cbn; auto. Qed.

(** A lexeme takes at least one character; only the end of file takes more
    than what is left (its NUL). *)
Lemma lexeme_bounds l type n :
  lexeme l = (type, n) ->
  1 <= n /\ (type <> TOKEN_EOF -> n <= length l) /\
  (type = TOKEN_EOF -> n = 1) /\ (type = TOKEN_EOF <-> hd NUL l = NUL).
Proof.
  unfold lexeme. destruct l as [|c l]; [intros [= <- <-]; split_and!; done || lia|].
  cbn [hd]. destruct (c =? NUL)%char eqn:H0.
  { apply Ascii.eqb_eq in H0 as ->. intros [= <- <-]. split_and!; done || lia. }
  apply Ascii.eqb_neq in H0. destruct (isalpha c || _).
  { intros [= <- <-]. pose proof (while_len_le identifier_char l). cbn. split_and!; done || lia. }
  destruct (isdigit c).
  { intros E. pose proof (number_lexeme_length c l) as Hn. rewrite E in Hn.
    pose proof (number_lexeme_kind c l) as Hk. rewrite E in Hk. cbn in *.
    destruct Hk as [-> | ->]; split_and!; done || lia. }
  destruct (c =? quote)%char.
  { destruct (string_body l) as [k closed] eqn:E. apply string_body_end in E as [Hk Hend].
    assert (closed = true -> k < length l) as Hc.
    { intros ->. destruct (drop k l) as [|q r] eqn:Ed; [done|].
      assert (length (drop k l) = S (length r)) as Hlen by (by rewrite Ed).
      rewrite length_drop in Hlen. lia. }
    destruct closed; intros [= <- <-]; cbn; split_and!; done || lia. }
  intros E. pose proof (operator_lexeme_length (c :: l) ltac:(done)) as Hn. rewrite E in Hn.
  pose proof (operator_lexeme_kind (c :: l)) as [Hk _]. rewrite E in Hk. cbn [fst snd] in *.
  split_and!; done || lia.
Qed.

(** * Progress *)

Lemma moved_fields k lx :
  source (moved k lx) = source lx /\ current (moved k lx) = current lx + k.
Proof. done. Qed.

(** Where a scan starts reading its lexeme. *)
Definition lexeme_point (lx : Lexer) : Lexer :=
  mark_token_start (moved (trivia_len false (suffix lx)) lx).

Lemma lexeme_point_in_source lx : in_source lx -> in_source (lexeme_point lx).
Proof. intros. apply in_source_moved; [done|]. apply trivia_len_le. Qed.

Lemma scan_unfold lx :
  scan lx = (token_of (lexeme_point lx) (lexeme (suffix (lexeme_point lx))).1
                      (lexeme (suffix (lexeme_point lx))).2,
             moved (lexeme (suffix (lexeme_point lx))).2 (lexeme_point lx)).
Proof. unfold scan. fold (lexeme_point lx). by destruct (lexeme _). Qed.

(** A scan keeps the source, moves forward, and leaves the scanner at a
    readable position unless it has returned the end of file. *)
Definition scanned (lx : Lexer) (t : Token) (lx' : Lexer) : Prop :=
  source lx' = source lx /\
  current lx < current lx' <= S (length (source lx)) /\
  (token_type t <> TOKEN_EOF -> in_source lx').

Lemma scan_scanned lx : in_source lx -> scanned lx (scan lx).1 (scan lx).2.
Proof.
  intros Hin. rewrite scan_unfold. cbn [fst snd].
  pose proof (lexeme_point_in_source lx Hin) as Hin1.
  destruct (lexeme (suffix (lexeme_point lx))) as [type n] eqn:E.
  apply lexeme_bounds in E as (Hn & Hle & Hone & Heof). cbn [fst snd].
  pose proof (in_source_drop _ Hin1) as Hd.
  assert (source (lexeme_point lx) = source lx) as Hs by done.
  assert (current lx <= current (lexeme_point lx)) as Hc by (cbn; lia).
  unfold scanned, in_source in *. cbn [token_of token_type]. rewrite !(proj1 (moved_fields _ _)).
  rewrite (proj2 (moved_fields _ _)), Hs in *.
  split_and!; [done|lia| |].
  - destruct (decide (type = TOKEN_EOF)) as [->|Ht]; [|specialize (Hle Ht); lia].
    rewrite (Hone eq_refl). lia.
  - intros Ht. specialize (Hle Ht). lia.
Qed.

(** * Prefixes of a text *)

Lemma take_while_len p l : take (while_len p l) l = take_while p l.
Proof.
  unfold while_len. induction l as [|c l IH]; cbn; [done|].
  destruct (p c); cbn; [|done]. by rewrite IH.
Qed.

Lemma forallb_take_while p l : forallb p (take_while p l) = true.
Proof. induction l as [|c l IH]; cbn; [done|]. destruct (p c) eqn:E; cbn; [|done]. by rewrite E. Qed.

Lemma while_len_stop p l c rest :
  forallb p l = true -> p c = false -> while_len p (l ++ c :: rest) = length l.
Proof.
  intros Hl Hc. unfold while_len. induction l as [|x l IH]; cbn in *.
  - by rewrite Hc.
  - apply andb_prop in Hl as [-> Hl]. cbn. by rewrite IH.
Qed.

Lemma while_len_all p l : forallb p l = true -> p NUL = false -> while_len p l = length l.
Proof.
  intros Hl Hc. unfold while_len. induction l as [|x l IH]; cbn in *; [done|].
  apply andb_prop in Hl as [-> Hl]. cbn. by rewrite IH.
Qed.

Lemma is_prefix_take s l : is_prefix s l = true -> take (length s) l = s.
Proof.
  revert l. induction s as [|x s IH]; intros [|y l]; cbn; try done.
  intros [->%Ascii.eqb_eq H]%andb_prop. by rewrite IH.
Qed.

Lemma string_body_take l : forall n,
  string_body l = (n, true) -> string_body (take (S n) l) = (n, true).
Proof.
  induction l as [l IH] using (induction_ltof1 _ (@length ascii)). unfold ltof in IH.
  intros n. destruct l as [|c l]; cbn [string_body]; [done|]. rewrite firstn_cons.
  cbn [string_body].
  destruct (c =? quote)%char eqn:Hq; [done|]. destruct (c =? NUL)%char; [done|].
  destruct (c =? backslash)%char.
  - destruct l as [|d l]; [done|]. destruct (d =? NUL)%char eqn:Hd; [done|].
    destruct (string_body l) as [m b] eqn:E. intros [= <- ->].
    apply IH in E; [|cbn; lia]. rewrite firstn_cons, Hd, E. done.
  - destruct (string_body l) as [m b] eqn:E. intros [= <- ->].
    apply IH in E; [|cbn; lia]. by rewrite E.
Qed.

Lemma string_body_app l rest : forall n,
  string_body l = (n, true) -> string_body (l ++ rest) = (n, true).
Proof.
  induction l as [l IH] using (induction_ltof1 _ (@length ascii)). unfold ltof in IH.
  intros n. destruct l as [|c l]; cbn [string_body app]; [done|].
  destruct (c =? quote)%char eqn:Hq; [done|]. destruct (c =? NUL)%char; [done|].
  destruct (c =? backslash)%char.
  - destruct l as [|d l]; [done|]. cbn [app]. destruct (d =? NUL)%char eqn:Hd; [done|].
    destruct (string_body l) as [m b] eqn:E. intros [= <- ->].
    apply IH in E; [|cbn; lia]. by rewrite E.
  - destruct (string_body l) as [m b] eqn:E. intros [= <- ->].
    apply IH in E; [|cbn; lia]. by rewrite E.
Qed.

(** * The text of each lexeme *)

Lemma operator_lexeme_ok l :
  l <> [] -> lexeme_ok (operator_lexeme l).1 (take (operator_lexeme l).2 l) = true.
Proof.
  intros Hl. unfold operator_lexeme.
  destruct (List.find _ operators) as [[sp ty]|] eqn:E.
  - apply List.find_some in E as [Hin Hp]. cbn [fst snd] in *. rewrite is_prefix_take by done.
    unfold operators in Hin. cbn in Hin. decompose [or] Hin; try done;
      match goal with H : _ = (sp, ty) |- _ => injection H as <- <- end; reflexivity.
  - by destruct l.
Qed.

Lemma number_lexeme_ok c l :
  isdigit c = true ->
  lexeme_ok (number_lexeme c l).1 (take (number_lexeme c l).2 (c :: l)) = true.
Proof.
  intros Hc. unfold number_lexeme. case_match eqn:Hx.
  - apply andb_prop in Hx as [H0 Hx]. destruct l as [|x l]; [done|]. cbn [hd tail fst snd] in *.
    cbn [Nat.add]. rewrite !firstn_cons, take_while_len. cbn.
    by rewrite Hc, H0, Hx, forallb_take_while, orb_true_r.
  - set (n := while_len isdigit l). case_match eqn:Hf; cbn [fst snd].
    + apply andb_prop in Hf as [Hdot Hd].
      destruct (drop n l) as [|x [|d r]] eqn:E; [done|done|]. cbn [hd tail] in *.
      apply Ascii.eqb_eq in Hdot as ->.
      assert (take (2 + n + while_len isdigit (d :: r)) (c :: l)
              = c :: take_while isdigit l ++ "."%char :: take_while isdigit (d :: r)) as ->.
      { cbn [Nat.add]. rewrite firstn_cons. f_equal.
        rewrite <- (take_drop n l) at 1. unfold n at 2. rewrite take_while_len, E.
        assert (length (take_while isdigit l) = n) as Hlen by done.
        rewrite take_app, Hlen, take_ge by lia.
        replace (S (n + while_len isdigit (d :: r)) - n) with (S (while_len isdigit (d :: r))) by lia.
        by rewrite firstn_cons, take_while_len. }
      unfold lexeme_ok. rewrite app_comm_cons, while_len_stop; [|cbn; by rewrite Hc, forallb_take_while|done].
      cbn [length]. rewrite <- app_comm_cons. cbn [drop]. rewrite drop_app_length.
      cbn [take_while]. rewrite Hd. cbn. by rewrite Hd, forallb_take_while.
    + rewrite Nat.add_1_l, firstn_cons. unfold n. rewrite take_while_len. cbn.
      by rewrite Hc, forallb_take_while.
Qed.

Lemma lexeme_kind_ok l type n :
  lexeme l = (type, n) -> type <> TOKEN_EOF -> lexeme_ok type (take n l) = true.
Proof.
  unfold lexeme. destruct l as [|c l]; [by intros [= <- <-]|].
  destruct (c =? NUL)%char; [by intros [= <- <-]|].
  destruct (isalpha c || _) eqn:Ha.
  { intros [= <- <-] _. rewrite firstn_cons, take_while_len. cbn. by rewrite Ha, forallb_take_while. }
  destruct (isdigit c) eqn:Hd.
  { intros E _. pose proof (number_lexeme_ok c l Hd) as Hok. by rewrite E in Hok. }
  destruct (c =? quote)%char eqn:Hq.
  { destruct (string_body l) as [k closed] eqn:E.
    pose proof E as E2. apply string_body_end in E2 as [Hk Hend].
    destruct closed; intros [= <- <-] _; [|by rewrite firstn_cons].
    replace (k + 2) with (S (S k)) by lia. rewrite firstn_cons. cbn [lexeme_ok].
    rewrite Hq. rewrite string_body_take by done. cbn [andb].
    apply Nat.eqb_eq. rewrite length_take.
    destruct (drop k l) as [|q r] eqn:Ed; [done|].
    assert (length (drop k l) = S (length r)) as Hlen by (by rewrite Ed).
    rewrite length_drop in Hlen. lia. }
  intros E _. pose proof (operator_lexeme_ok (c :: l) ltac:(done)) as Hok. by rewrite E in Hok.
Qed.

Lemma not_NUL c (p : ascii -> bool) : p NUL = false -> p c = true -> (c =? NUL)%char = false.
Proof. intros Hp Hc. apply Ascii.eqb_neq. congruence. Qed.

Lemma digit_not_alpha c : isdigit c = true -> isalpha c || (c =? "_")%char = false.
Proof.
  intros Hc. apply orb_false_intro.
  - unfold isdigit, isalpha, between in *. lia.
  - apply Ascii.eqb_neq. intros ->. done.
Qed.

Lemma number_lexeme_of_text type c l rest :
  type = TOKEN_INTEGER \/ type = TOKEN_FLOAT -> isdigit c = true ->
  lexeme_ok type (c :: l) = true ->
  number_lexeme c (l ++ " "%char :: rest) = (type, S (length l)).
Proof.
  intros Htype Hc Hok. unfold number_lexeme. destruct Htype as [-> | ->].
  - cbn in Hok. rewrite Hc in Hok. cbn [andb] in Hok.
    destruct (forallb isdigit l) eqn:Hl; cbn [orb] in Hok.
    + rewrite (proj2 (andb_false_iff _ _)).
      2: { right. apply orb_false_intro; apply Ascii.eqb_neq;
           destruct l as [|d l]; cbn in *; intros Hd; subst; done. }
      rewrite while_len_stop, drop_app_length by done. done.
    + destruct l as [|x l]; [done|]. cbn [app hd tail].
      apply andb_prop in Hok as [Hx Hl']. rewrite Hx, while_len_stop by done. done.
  - cbn in Hok. unfold while_len in Hok. cbn in Hok. rewrite Hc in Hok. cbn in Hok.
    change (length (take_while isdigit l)) with (while_len isdigit l) in Hok.
    destruct (drop (while_len isdigit l) l) as [|x [|d r]] eqn:E; [done..|].
    apply andb_prop in Hok as [->%Ascii.eqb_eq Hd].
    rewrite <- (take_drop (while_len isdigit l) l), E, take_while_len, <- app_assoc.
    rewrite <- app_comm_cons. rewrite (proj2 (andb_false_iff _ _)).
    2: { right. apply orb_false_intro; apply Ascii.eqb_neq; pose proof (forallb_take_while isdigit l);
         destruct (take_while isdigit l) as [|y ?]; cbn in *; intros Hy; subst; done. }
    rewrite while_len_stop, drop_app_length by (done || apply forallb_take_while).
    cbn [hd tail]. rewrite <- app_comm_cons. cbn [hd].
    pose proof Hd as Hd'. cbn in Hd'. apply andb_prop in Hd' as [-> _]. cbn [andb].
    rewrite app_comm_cons, while_len_stop by done. f_equal.
    rewrite length_app. cbn. lia.
Qed.

(** Conversely a well-formed text, with a blank after it, is one lexeme. *)
Lemma lexeme_of_text type text rest :
  lexeme_ok type text = true -> type <> TOKEN_UNKNOWN ->
  lexeme (text ++ " "%char :: rest) = (type, length text).
Proof.
  intros Hok Hu. destruct text as [|c l]; [by destruct type|].
  destruct (decide (type = TOKEN_IDENTIFIER)) as [->|Hid].
  { cbn in Hok. apply andb_prop in Hok as [Hc Hl]. cbn [app]. unfold lexeme.
    rewrite (not_NUL _ (fun c => isalpha c || (c =? "_")%char)) by done.
    rewrite Hc, while_len_stop by done. done. }
  destruct (decide (type = TOKEN_INTEGER \/ type = TOKEN_FLOAT)) as [Hnum|Hnum].
  { assert (isdigit c = true) as Hc.
    { destruct Hnum as [-> | ->]; cbn in Hok.
      - by apply andb_prop in Hok as [? _].
      - unfold while_len in Hok. cbn in Hok. destruct (isdigit c); [done|]. cbn in Hok.
        by destruct l. }
    cbn [app]. unfold lexeme. rewrite (not_NUL _ isdigit), digit_not_alpha, Hc by done.
    by apply number_lexeme_of_text. }
  destruct (decide (type = TOKEN_STRING)) as [->|Hstr].
  { cbn [lexeme_ok] in Hok. apply andb_prop in Hok as [->%Ascii.eqb_eq Hb].
    destruct (string_body l) as [n closed] eqn:E. apply andb_prop in Hb as [-> Hn].
    apply Nat.eqb_eq in Hn. cbn [app]. unfold lexeme. cbn.
    rewrite (string_body_app _ _ _ E). f_equal. lia. }
  assert (existsb (fun op => bool_decide (op = (c :: l, type))) operators = true) as Hop.
  { destruct type; try done; naive_solver. }
  apply existsb_exists in Hop as (op & Hin & Heq). apply bool_decide_eq_true in Heq as ->.
  unfold operators in Hin. cbn in Hin.
  decompose [or] Hin; try done;
    match goal with H : _ = (_, type) |- _ => injection H as <- <- <- end; reflexivity.
Qed.

(** * Runs of the scanner *)

(** [scans lx ts]: from [lx] the scanner returns [ts], the last of which is the
    first end of file. *)
Inductive scans : Lexer -> list Token -> Prop :=
  | scans_eof lx :
      in_source lx -> token_type (scan lx).1 = TOKEN_EOF -> scans lx [(scan lx).1]
  | scans_next lx ts :
      in_source lx -> token_type (scan lx).1 <> TOKEN_EOF ->
      scans (scan lx).2 ts -> scans lx ((scan lx).1 :: ts).

Lemma scan_next_suffix lx :
  in_source lx -> token_type (scan lx).1 <> TOKEN_EOF ->
  in_source (scan lx).2 /\ length (suffix (scan lx).2) < length (suffix lx).
Proof.
  intros Hin Ht. destruct (scan_scanned lx Hin) as (Hs & Hc & Hn). specialize (Hn Ht).
  split; [done|]. rewrite !suffix_length, Hs. unfold in_source in *. rewrite Hs in Hn. lia.
Qed.

Lemma lex_all_scans fuel : forall lx,
  in_source lx -> length (suffix lx) < fuel ->
  wp (lex_all fuel) lx (fun ts _ => scans lx ts /\ length ts <= S (length (suffix lx))).
Proof.
  induction fuel as [|fuel IH]; intros lx Hin Hf; [lia|]. cbn [lex_all].
  apply wp_bind. unfold wp at 1. rewrite lexer_next_scan by done.
  destruct (scan lx) as [t lx'] eqn:E. destruct (decide (token_type t = TOKEN_EOF)) as [Ht|Ht].
  - apply wp_ret. split; [|cbn; lia].
    assert (t = (scan lx).1) as -> by (by rewrite E). by constructor.
  - pose proof (scan_next_suffix lx Hin) as Hnext. rewrite E in Hnext. cbn in Hnext.
    destruct (Hnext Ht) as [Hin' Hlt]. apply wp_bind.
    eapply wp_mono; [apply IH; [done|lia]|]. intros ts lx'' [Hts Hlen]. apply wp_ret.
    split; [|cbn; lia].
    assert (t = (scan lx).1) as -> by (by rewrite E). constructor; [done..|by rewrite E].
Qed.

Lemma tokenize_scans src ts : tokenize src = Done ts -> scans (lexer_init src) ts.
Proof.
  unfold tokenize. intros H.
  pose proof (lex_all_scans (2 + length src) (lexer_init src)) as Hw.
  unfold wp in Hw. destruct (lex_all _ _) as [[ts' lx']| |]; [|done..].
  injection H as ->. apply Hw; unfold in_source, suffix; cbn; [lia|]. rewrite drop_0. lia.
Qed.

Lemma scan_source lx : source (scan lx).2 = source lx.
Proof. by rewrite scan_unfold. Qed.

(** * Totality *)

(** From a readable position the scanner returns a token: it neither reads outside of
    the source buffer nor loops; it keeps the source, moves forward by at least one
    character, and is again at a readable position unless the token is the end of file. *)
Theorem lexer_next_safe lx : in_source lx -> wp lexer_next lx (scanned lx).
Proof.
  intros Hin. unfold wp. rewrite lexer_next_scan by done.
  pose proof (scan_scanned lx Hin). by destruct (scan lx).
Qed.

Lemma lexer_next_safe_witness :
  in_source (lexer_init (str "x = 1")) /\
  wp lexer_next (lexer_init (str "x = 1")) (scanned (lexer_init (str "x = 1"))).
Proof.
  assert (in_source (lexer_init (str "x = 1"))) as H by (apply Nat.leb_le; reflexivity).
  split; [exact H|]. apply (lexer_next_safe _ H).
Defined.

(** C31: the index-based scanner computes the reference scanner on the unread suffix of the
    source: the same token, the same position in the text, the same line and column. *)
Theorem lexer_next_refines lx : in_source lx -> lexer_next lx = Done (scan lx).
Proof. apply lexer_next_scan. Qed.

Lemma lexer_next_refines_witness :
  in_source (lexer_init (str "# c")) /\
  lexer_next (lexer_init (str "# c")) = Done (scan (lexer_init (str "# c"))).
Proof.
  assert (in_source (lexer_init (str "# c"))) as H by (apply Nat.leb_le; reflexivity).
  split; [exact H|]. apply (lexer_next_refines _ H).
Defined.

(** C34: scanning a whole source always ends, with at most one token per character and one
    for the end of file, which comes last and only there. *)
Theorem tokenize_total src :
  exists ts t, tokenize src = Done (ts ++ [t]) /\ length ts <= length src /\
    token_type t = TOKEN_EOF /\ Forall (fun t => token_type t <> TOKEN_EOF) ts.
Proof.
  pose proof (lex_all_scans (2 + length src) (lexer_init src)) as Hw.
  assert (suffix (lexer_init src) = src) as Hsrc by (unfold suffix; apply drop_0).
  unfold tokenize. unfold wp in Hw. rewrite Hsrc in Hw.
  destruct (lex_all _ _) as [[ts lx]| |]; [|destruct Hw; cbn; unfold in_source; cbn; lia..].
  destruct Hw as [Hs Hlen]; [unfold in_source; cbn; lia|lia|].
  assert (exists pre t, ts = pre ++ [t] /\ token_type t = TOKEN_EOF /\
            Forall (fun t => token_type t <> TOKEN_EOF) pre) as (pre & t & -> & Ht & Hpre).
  { clear -Hs. induction Hs as [lx Hin Ht|lx ts Hin Ht Hs (pre & t & -> & Ht' & Hpre)].
    - exists [], (scan lx).1. done.
    - exists ((scan lx).1 :: pre), t. split_and!; [done|done|by constructor]. }
  exists pre, t. split_and!; try done. rewrite length_app in Hlen. cbn in Hlen. lia.
Qed.

(** * Positions *)

Definition positioned (lx : Lexer) : Prop :=
  (line lx, column lx) = advance_position (take (current lx) (source lx)) (1, 1).

Lemma positioned_moved k lx : positioned lx -> positioned (moved k lx).
Proof.
  unfold positioned. intros Hp. cbn. rewrite <- surjective_pairing, Hp.
  unfold advance_position, suffix. by rewrite <- fold_left_app, take_take_drop.
Qed.

Lemma positioned_lexeme_point lx : positioned lx -> positioned (lexeme_point lx).
Proof. intros Hp. apply (positioned_moved _ _ Hp). Qed.

Lemma positioned_scan lx : positioned lx -> positioned (scan lx).2.
Proof. intros Hp. rewrite scan_unfold. by apply positioned_moved, positioned_lexeme_point. Qed.

Lemma advance_position_text src off :
  ~ In NUL src ->
  advance_position (take off src) (1, 1) = (line_of src off, column_of src off).
Proof.
  intros Hnul. unfold line_of, column_of.
  assert (~ In NUL (take off src)) as H.
  { intros H. apply Hnul. rewrite <- (take_drop off src). apply in_or_app. by left. }
  revert H. generalize (take off src) as l. clear.
  induction l as [|c l IH] using rev_ind; intros Hnul; [done|].
  unfold advance_position in *. rewrite fold_left_app, reverse_snoc, List.filter_app.
  rewrite IH by (intros H; apply Hnul, in_or_app; by left).
  cbn [fold_left List.filter]. unfold next_position, while_len. cbn [take_while].
  destruct (c =? newline)%char eqn:Hn; cbn [negb fst snd].
  - rewrite length_app. cbn. f_equal; lia.
  - destruct (c =? NUL)%char eqn:H0.
    + apply Ascii.eqb_eq in H0 as ->. destruct Hnul. apply in_or_app. right. by left.
    + cbn [fst snd length]. rewrite app_nil_r. done.
Qed.

Lemma string_lexeme_length l n : lexeme l = (TOKEN_STRING, n) -> 2 <= n.
Proof.
  intros E. pose proof (lexeme_kind_ok _ _ _ E ltac:(done)) as Hok.
  destruct (take n l) as [|c [|d r]] eqn:Et; cbn in Hok; [done|by rewrite andb_false_r in Hok|].
  assert (length (take n l) = S (S (length r))) as Hlen by (by rewrite Et).
  rewrite length_take in Hlen. lia.
Qed.

(** The start of the lexeme of a scanned token, and its length. *)
Lemma lexeme_start_scan lx :
  lexeme_start (scan lx).1 = current (lexeme_point lx).
Proof.
  rewrite scan_unfold. unfold lexeme_start. cbn. by case_decide; [rewrite Nat.sub_succ, Nat.sub_0_r|].
Qed.

Lemma lexeme_length_scan lx :
  token_type (scan lx).1 <> TOKEN_EOF ->
  lexeme_length (scan lx).1 = (lexeme (suffix (lexeme_point lx))).2.
Proof.
  rewrite scan_unfold. unfold lexeme_length. cbn [token_of token_type token_length fst].
  destruct (lexeme (suffix (lexeme_point lx))) as [type n] eqn:E. cbn [fst snd]. intros Ht.
  case_decide as Hs; [|by rewrite decide_False].
  subst type. apply string_lexeme_length in E. lia.
Qed.

Lemma scans_positions lx ts :
  scans lx ts -> positioned lx -> ~ In NUL (source lx) ->
  Forall (fun t => (token_line t, token_column t)
                   = (line_of (source lx) (lexeme_start t), column_of (source lx) (lexeme_start t))) ts.
Proof.
  intros Hs. assert (forall lx, positioned lx -> ~ In NUL (source lx) ->
    (token_line (scan lx).1, token_column (scan lx).1)
    = (line_of (source lx) (lexeme_start (scan lx).1),
       column_of (source lx) (lexeme_start (scan lx).1))) as Hhead.
  { clear. intros lx Hp Hnul. rewrite lexeme_start_scan, <- advance_position_text by done.
    rewrite scan_unfold. exact (positioned_lexeme_point lx Hp). }
  induction Hs as [lx Hin Ht|lx ts Hin Ht Hs IH]; intros Hp Hnul; constructor; auto.
  rewrite <- (scan_source lx). apply IH; [by apply positioned_scan|by rewrite scan_source].
Qed.

(** Every token carries the line and the column of the first character of its lexeme,
    counted on the source text. *)
Theorem tokenize_positions src ts :
  ~ In NUL src -> tokenize src = Done ts ->
  Forall (fun t => token_line t = line_of src (lexeme_start t) /\
                   token_column t = column_of src (lexeme_start t)) ts.
Proof.
  intros Hnul H%tokenize_scans. apply scans_positions in H; [|done..].
  eapply Forall_impl; [exact H|]. cbn. by intros t [= -> ->].
Qed.

Lemma no_NUL src : forallb (fun c => negb (c =? NUL)%char) src = true -> ~ In NUL src.
Proof. intros H Hin. rewrite forallb_forall in H. by specialize (H _ Hin). Qed.

(** A source of two lines with every kind of token. *)
Definition sample_source : bytes :=
  str "let x: float = 1.5 # c" ++ [newline; tab] ++ str "print(" ++ [quote] ++ str "a" ++
  [backslash; quote; quote] ++ str " <= 0x1F) @".
Definition sample_tokens : list Token :=
  match tokenize sample_source with Done ts => ts | _ => [] end.

Lemma tokenize_positions_witness :
  tokenize sample_source = Done sample_tokens /\ length sample_tokens = 14 /\
  Forall (fun t => token_line t = line_of sample_source (lexeme_start t) /\
                   token_column t = column_of sample_source (lexeme_start t)) sample_tokens.
Proof.
  split; [vm_compute; reflexivity|]. split; [vm_compute; reflexivity|].
  apply (tokenize_positions sample_source sample_tokens);
    [apply no_NUL; vm_compute; reflexivity|vm_compute; reflexivity].
Defined.

(** * Tiling *)

Lemma trivia_prefix l : forall comment,
  trivia_len comment (take (trivia_len comment l) l) = trivia_len comment l.
Proof.
  induction l as [|c l IH]; intros comment; [by rewrite take_nil|]. cbn [trivia_len].
  destruct comment.
  - destruct (c =? NUL)%char eqn:H0; [done|].
    destruct (c =? newline)%char eqn:Hn; rewrite firstn_cons; cbn [trivia_len];
      by rewrite H0, Hn, IH.
  - destruct (isspace c) eqn:Hs; [|destruct (c =? "#")%char eqn:Hh]; [..|done];
      rewrite firstn_cons; cbn [trivia_len]; by rewrite Hs, ?Hh, IH.
Qed.

Lemma is_trivia_prefix l : is_trivia (take (trivia_len false l) l) = true.
Proof.
  unfold is_trivia. rewrite trivia_prefix, length_take. apply Nat.eqb_eq.
  pose proof (trivia_len_le l false). lia.
Qed.

Lemma scans_tiling lx ts :
  scans lx ts -> ~ In NUL (source lx) -> tiling (source lx) (current lx) ts = true.
Proof.
  induction 1 as [lx Hin Ht|lx ts Hin Ht Hs IH]; intros Hnul; cbn [tiling];
    rewrite lexeme_start_scan; pose proof (lexeme_point_in_source lx Hin) as Hin1;
    pose proof (in_source_drop _ Hin1) as Hd;
    assert (current (lexeme_point lx) - current lx = trivia_len false (suffix lx)) as ->
      by (cbn; lia); rewrite is_trivia_prefix;
    assert (current lx <= current (lexeme_point lx)) as Hle%Nat.leb_le by (cbn; lia);
    rewrite Hle; cbn [andb].
  - rewrite decide_True by done. unfold lexeme_length. rewrite Ht.
    change (if decide _ then _ else _) with 0 at 1.
    assert (current (lexeme_point lx) = length (source lx)) as ->.
    { rewrite scan_unfold in Ht. cbn [fst token_of token_type] in Ht.
      destruct (lexeme (suffix (lexeme_point lx))) as [type n] eqn:E. cbn [fst] in Ht.
      apply lexeme_bounds in E as (_ & _ & _ & [E _]). specialize (E Ht).
      destruct (suffix (lexeme_point lx)) as [|c l] eqn:El; [cbn in Hd; cbn; lia|].
      cbn in E. subst c. destruct Hnul. unfold suffix in El.
      rewrite <- (take_drop (current (lexeme_point lx)) (source lx)).
      apply in_or_app. right. change (source (lexeme_point lx)) with (source lx) in El.
      rewrite El. by left. }
    rewrite Nat.add_0_r, Nat.leb_refl, Nat.eqb_refl. done.
  - rewrite decide_False by done. rewrite lexeme_length_scan by done.
    unfold lexeme_text. rewrite lexeme_start_scan, lexeme_length_scan by done.
    change (drop (current (lexeme_point lx)) (source lx)) with (suffix (lexeme_point lx)).
    rewrite scan_source in IH. specialize (IH Hnul). rewrite scan_unfold in Ht, IH. rewrite scan_unfold.
    destruct (lexeme (suffix (lexeme_point lx))) as [type n] eqn:E. cbn [fst snd token_of token_type] in *.
    rewrite (lexeme_kind_ok _ _ _ E) by done.
    apply lexeme_bounds in E as (_ & Hn & _). specialize (Hn Ht).
    rewrite (proj2 (moved_fields _ _)) in IH. rewrite IH.
    rewrite !andb_true_r. apply Nat.leb_le. change (source (lexeme_point lx)) with (source lx) in Hd. lia.
Qed.

(** C33: the tokens tile the source: between two lexemes there are only blanks and comments,
    every lexeme has the form of its kind, and the end-of-file token is at the end of the
    text: no character is lost or read twice. *)
Theorem tokenize_tiling src ts :
  ~ In NUL src -> tokenize src = Done ts -> tiling src 0 ts = true.
Proof. intros Hnul H%tokenize_scans. by apply scans_tiling in H. Qed.

Lemma tokenize_tiling_witness :
  tokenize sample_source = Done sample_tokens /\ tiling sample_source 0 sample_tokens = true.
Proof.
  split; [vm_compute; reflexivity|].
  apply (tokenize_tiling sample_source sample_tokens);
    [apply no_NUL; vm_compute; reflexivity|vm_compute; reflexivity].
Defined.

(** * Recognition *)

(** Lexemes written one after the other, each followed by a blank. *)
Fixpoint render (ls : list (TokenType * bytes)) : bytes :=
  match ls with
  | [] => []
  | (_, text) :: ls' => text ++ " "%char :: render ls'
  end.

Definition lexeme_wf (l : TokenType * bytes) : bool :=
  lexeme_ok l.1 l.2 && negb (bool_decide (l.1 = TOKEN_UNKNOWN)).

(** A token read back as its kind and the text of its lexeme. *)
Definition read_back (src : bytes) (t : Token) : TokenType * bytes :=
  (token_type t, lexeme_text src t).

(** The first character of a well-formed lexeme is neither a blank nor #. *)
Lemma lexeme_starts type text rest :
  lexeme_ok type text = true -> type <> TOKEN_UNKNOWN ->
  trivia_len false (text ++ rest) = 0.
Proof.
  intros Hok Hu. pose proof (lexeme_of_text type text [] Hok Hu) as El.
  destruct text as [|c l]; [by destruct type|]. cbn [app trivia_len].
  destruct (isspace c) eqn:Hs; [|destruct (c =? "#")%char eqn:Hh]; [exfalso..|done].
  - assert (forall d, isspace d = true -> (lexeme (d :: l ++ [" "%char])).1 = TOKEN_UNKNOWN) as H.
    { clear. intros d Hd. unfold isspace, between, code in Hd.
      destruct d as [[] [] [] [] [] [] [] []]; try discriminate Hd; reflexivity. }
    specialize (H c Hs). cbn [app] in El. rewrite El in H. done.
  - apply Ascii.eqb_eq in Hh as ->. cbn [app] in El.
    assert (lexeme ("#"%char :: l ++ [" "%char]) = (TOKEN_UNKNOWN, 1)) as E by reflexivity.
    congruence.
Qed.

(** The scanner on a source of which [render ((type, text) :: ls)] is left. *)
Lemma scan_render lx type text ls :
  suffix lx = render ((type, text) :: ls) \/ suffix lx = " "%char :: render ((type, text) :: ls) ->
  lexeme_wf (type, text) = true ->
  read_back (source lx) (scan lx).1 = (type, text) /\
  suffix (scan lx).2 = " "%char :: render ls.
Proof.
  intros Hl [Hok Hu%negb_true_iff%bool_decide_eq_false]%andb_prop. cbn [fst snd] in *.
  assert (suffix (lexeme_point lx) = text ++ " "%char :: render ls) as Hp.
  { unfold lexeme_point. rewrite suffix_mark, suffix_moved.
    destruct Hl as [-> | ->]; cbn [render]; cbn [trivia_len].
    - by rewrite (lexeme_starts type) by done.
    - change (isspace " ") with true. cbv iota. by rewrite (lexeme_starts type) by done. }
  assert (type <> TOKEN_EOF) as Heof by (by intros ->).
  pose proof (lexeme_of_text type text (render ls) Hok Hu) as El.
  unfold read_back, lexeme_text.
  rewrite lexeme_start_scan, lexeme_length_scan;
    rewrite scan_unfold, Hp, El; cbn [fst snd token_of token_type]; [|done].
  change (drop (current (lexeme_point lx)) (source lx)) with (suffix (lexeme_point lx)).
  rewrite Hp, take_app_length, suffix_moved, Hp, drop_app_length. done.
Qed.

Lemma scans_render ls : forall lx ts,
  suffix lx = render ls \/ suffix lx = " "%char :: render ls ->
  forallb lexeme_wf ls = true -> scans lx ts ->
  map (read_back (source lx)) ts = ls ++ [(TOKEN_EOF, [])].
Proof.
  induction ls as [|[type text] ls IH]; intros lx ts Hl Hwf Hs.
  - assert ((scan lx).1 = token_of (lexeme_point lx) TOKEN_EOF 1) as Ht.
    { rewrite scan_unfold. cbn [fst]. assert (suffix (lexeme_point lx) = []) as ->; [|done].
      unfold lexeme_point. rewrite suffix_mark, suffix_moved. by destruct Hl as [-> | ->]. }
    destruct Hs as [lx Hin Heof|lx ts Hin Heof Hs]; [|by rewrite Ht in Heof].
    rewrite Ht. done.
  - cbn [forallb] in Hwf. apply andb_prop in Hwf as [Hw Hwf].
    destruct (scan_render lx type text ls Hl Hw) as [Hrb Hsuf].
    destruct Hs as [lx Hin Heof|lx ts Hin Heof Hs].
    + unfold read_back in Hrb. injection Hrb as Hty _. rewrite Heof in Hty. subst type.
      by cbn in Hw.
    + cbn [map app]. rewrite Hrb. f_equal. rewrite <- (scan_source lx). apply IH; auto.
Qed.

(** C32: every sequence of well-formed lexemes is recognised: written out with blanks in
    between, it is scanned back to the same kinds and texts. *)
Theorem tokenize_render ls ts :
  forallb lexeme_wf ls = true -> tokenize (render ls) = Done ts ->
  map (read_back (render ls)) ts = ls ++ [(TOKEN_EOF, [])].
Proof.
  intros Hwf H%tokenize_scans. apply (scans_render ls (lexer_init (render ls))); [|done..].
  left. unfold suffix. apply drop_0.
Qed.

Lemma tokenize_render_witness :
  let ls := [(TOKEN_IDENTIFIER, str "x"); (TOKEN_LESS_EQUAL, str "<="); (TOKEN_INTEGER, str "0x1F")] in
  let ts := match tokenize (render ls) with Done ts => ts | _ => [] end in
  forallb lexeme_wf ls = true /\ map (read_back (render ls)) ts = ls ++ [(TOKEN_EOF, [])].
Proof.
  intros ls ts. split; [vm_compute; reflexivity|].
  apply (tokenize_render ls ts); vm_compute; reflexivity.
Defined.
