(* ===== verification/Ast.v ===== *)
(** Ast: include/vnt/ast.h, include/vnt/operators.h and src/ast.c. A node is a
    value of [ast], with the C enum's constructors. The [next] chain of a
    statement, argument or element list is a Rocq list, so a chain pointer that
    may be NULL is a list that may be empty, and a pointer to one node that may
    be NULL is an [option]. Allocation is assumed to succeed and freeing is not
    modelled. *)

From S2P Require Import Prelude Clib.

(** * Operators *)

Inductive BinaryOperator : Set :=
  | BINARY_ADD
  | BINARY_SUBTRACT
  | BINARY_MULTIPLY
  | BINARY_DIVIDE
  | BINARY_MODULO
  | BINARY_EQUAL
  | BINARY_NOT_EQUAL
  | BINARY_GREATER
  | BINARY_LESS
  | BINARY_GREATER_EQUAL
  | BINARY_LESS_EQUAL
  | BINARY_AND
  | BINARY_OR.

Inductive UnaryOperator : Set :=
  | UNARY_NOT
  | UNARY_NEGATE
  | UNARY_REFERENCE
  | UNARY_DEREFERENCE.

#[export] Instance BinaryOperator_eq_dec : EqDecision BinaryOperator.
Proof. solve_decision. Defined.
#[export] Instance UnaryOperator_eq_dec : EqDecision UnaryOperator.
Proof. solve_decision. Defined.

(** * Nodes *)

Unset Elimination Schemes.
Inductive ast : Type :=
  | AST_PROGRAM (statements : list ast)
  | AST_PRINT_STATEMENT (expression : ast)
  | AST_IF_STATEMENT (condition : ast) (then_branch else_branch : list ast)
  | AST_WHILE_STATEMENT (condition : ast) (body : list ast)
  | AST_FUNCTION_DECLARATION (name : bytes) (parameters : list bytes)
      (parameter_types : list (option bytes)) (parameter_count : nat)
      (return_type : option bytes) (is_unsafe : bool) (body : list ast)
  | AST_STRUCT_DECLARATION (name : bytes) (fields : list bytes) (field_count : nat)
  | AST_FUNCTION_CALL (name : bytes) (arguments : list ast) (argument_count : nat)
  | AST_RETURN_STATEMENT (expression : option ast)
  | AST_BREAK_STATEMENT
  | AST_CONTINUE_STATEMENT
  | AST_STRING_LITERAL (value : bytes)
  | AST_INTEGER_LITERAL (value : Z)
  | AST_FLOAT_LITERAL (value : binary64)
  | AST_BOOLEAN_LITERAL (value : bool)
  | AST_NULL_LITERAL
  | AST_ARRAY_LITERAL (elements : list ast) (element_count : nat)
  | AST_VARIABLE_DECLARATION (name : bytes) (declared_type : option bytes)
      (value : ast) (is_reassignment : bool)
  | AST_VARIABLE (name : bytes)
  | AST_INDEX_EXPRESSION (array index : ast)
  | AST_MEMBER_EXPRESSION (object : ast) (member : bytes)
  | AST_ASSIGNMENT (target value : ast)
  | AST_BINARY_EXPRESSION (left right : ast) (operator : BinaryOperator)
  | AST_UNARY_EXPRESSION (operand : ast) (operator : UnaryOperator)
  | AST_UNSAFE_BLOCK (statements : list ast)
  | AST_ASM_STATEMENT (assembly : bytes) (is_volatile : bool).
Set Elimination Schemes.

(** * Constructors of src/ast.c *)

Definition ast_create_program (statements : list ast) : ast := AST_PROGRAM statements.
Definition ast_create_print (expression : ast) : ast := AST_PRINT_STATEMENT expression.
Definition ast_create_if (condition : ast) (then_branch else_branch : list ast) : ast :=
  AST_IF_STATEMENT condition then_branch else_branch.
Definition ast_create_while (condition : ast) (body : list ast) : ast :=
  AST_WHILE_STATEMENT condition body.
Definition ast_create_typed_function_declaration (name : bytes) (parameters : list bytes)
    (parameter_types : list (option bytes)) (parameter_count : nat)
    (return_type : option bytes) (body : list ast) : ast :=
  AST_FUNCTION_DECLARATION name parameters parameter_types parameter_count return_type false body.
Definition ast_create_struct_declaration (name : bytes) (fields : list bytes)
    (field_count : nat) : ast :=
  AST_STRUCT_DECLARATION name fields field_count.
Definition ast_create_function_call (name : bytes) (arguments : list ast)
    (argument_count : nat) : ast :=
  AST_FUNCTION_CALL name arguments argument_count.
Definition ast_create_return (expression : option ast) : ast := AST_RETURN_STATEMENT expression.
Definition ast_create_break : ast := AST_BREAK_STATEMENT.
Definition ast_create_continue : ast := AST_CONTINUE_STATEMENT.
Definition ast_create_string (value : bytes) : ast := AST_STRING_LITERAL value.
Definition ast_create_integer (value : Z) : ast := AST_INTEGER_LITERAL value.
Definition ast_create_float (value : binary64) : ast := AST_FLOAT_LITERAL value.
Definition ast_create_boolean (value : Z) : ast := AST_BOOLEAN_LITERAL (negb (value =? 0)%Z).
Definition ast_create_null : ast := AST_NULL_LITERAL.
Definition ast_create_array (elements : list ast) (element_count : nat) : ast :=
  AST_ARRAY_LITERAL elements element_count.
Definition ast_create_variable_declaration (name : bytes) (value : ast) : ast :=
  AST_VARIABLE_DECLARATION name None value false.
Definition ast_create_typed_variable_declaration (name type : bytes) (value : ast) : ast :=
  AST_VARIABLE_DECLARATION name (Some type) value false.
Definition ast_create_variable (name : bytes) : ast := AST_VARIABLE name.
Definition ast_create_index (array index : ast) : ast := AST_INDEX_EXPRESSION array index.
Definition ast_create_member (object : ast) (member : bytes) : ast :=
  AST_MEMBER_EXPRESSION object member.
Definition ast_create_assignment (target value : ast) : ast := AST_ASSIGNMENT target value.
Definition ast_create_binary (left right : ast) (operator : BinaryOperator) : ast :=
  AST_BINARY_EXPRESSION left right operator.
Definition ast_create_unary (operand : ast) (operator : UnaryOperator) : ast :=
  AST_UNARY_EXPRESSION operand operator.
Definition ast_create_unsafe_block (statements : list ast) : ast := AST_UNSAFE_BLOCK statements.
Definition ast_create_asm_statement (assembly : bytes) (is_volatile : bool) : ast :=
  AST_ASM_STATEMENT assembly is_volatile.

(** The chain [node] is hooked at the end of the chain [chain]. *)
Definition ast_append (chain node : list ast) : list ast := chain ++ node.

(** * clone_expression of src/parser/assignments.c

    A deep copy; [None] (NULL) for a node of a kind the switch does not list. *)
Fixpoint clone_expression (node : ast) : option ast :=
  match node with
  | AST_VARIABLE name => Some (ast_create_variable name)
  | AST_INTEGER_LITERAL value => Some (ast_create_integer value)
  | AST_BOOLEAN_LITERAL value => Some (ast_create_boolean (if value then 1 else 0))
  | AST_STRING_LITERAL value => Some (ast_create_string value)
  | AST_FLOAT_LITERAL value => Some (ast_create_float value)
  | AST_MEMBER_EXPRESSION object member =>
      match clone_expression object with
      | None => None
      | Some object => Some (ast_create_member object member)
      end
  | AST_INDEX_EXPRESSION array index =>
      match clone_expression array, clone_expression index with
      | Some array, Some index => Some (ast_create_index array index)
      | _, _ => None
      end
  | AST_BINARY_EXPRESSION lhs rhs operator =>
      match clone_expression lhs, clone_expression rhs with
      | Some lhs, Some rhs => Some (ast_create_binary lhs rhs operator)
      | _, _ => None
      end
  | AST_UNARY_EXPRESSION operand operator =>
      match clone_expression operand with
      | None => None
      | Some operand => Some (ast_create_unary operand operator)
      end
  | _ => None
  end.

Definition clone_assignment_target (node : ast) : option ast := clone_expression node.
