(* ===== verification/Parser.v ===== *)
(** Parser: the parser state and the operations of src/parser/parser.c that the
    grammar functions share, with include/vnt/parser.h. *)

From S2P Require Import Prelude Clib Lexer Ast.

Definition VNT_PARSER_MAX_NESTING : nat := 256.
Definition VNT_PARSER_MAX_EXPRESSION_OPERATORS : nat := 256.

(** * State *)

(** A line printed by the parser: to standard error or standard output, with
    the source position it mentions, if any. *)
Inductive stream : Set := Stderr | Stdout.
Record diagnostic := {
  diagnostic_stream : stream;
  diagnostic_position : option (nat * nat);
  diagnostic_message : bytes
}.

(** The C [Parser] (its lexer included), the static [for_counter] of loops.c,
    and what has been printed. *)
Record Parser := {
  p_lexer : Lexer;
  p_current : Token;
  p_previous : Token;
  nesting_depth : nat;
  nesting_failed : bool;
  expression_depth : nat;
  expression_operator_count : nat;
  for_counter : nat;
  output : list diagnostic
}.

Definition with_tokens (lx : Lexer) (cur prev : Token) (p : Parser) : Parser :=
  {| p_lexer := lx; p_current := cur; p_previous := prev;
     nesting_depth := nesting_depth p; nesting_failed := nesting_failed p;
     expression_depth := expression_depth p;
     expression_operator_count := expression_operator_count p;
     for_counter := for_counter p; output := output p |}.

Definition with_nesting (depth : nat) (failed : bool) (p : Parser) : Parser :=
  {| p_lexer := p_lexer p; p_current := p_current p; p_previous := p_previous p;
     nesting_depth := depth; nesting_failed := failed;
     expression_depth := expression_depth p;
     expression_operator_count := expression_operator_count p;
     for_counter := for_counter p; output := output p |}.

Definition with_expression (depth operators : nat) (p : Parser) : Parser :=
  {| p_lexer := p_lexer p; p_current := p_current p; p_previous := p_previous p;
     nesting_depth := nesting_depth p; nesting_failed := nesting_failed p;
     expression_depth := depth; expression_operator_count := operators;
     for_counter := for_counter p; output := output p |}.

Definition with_for_counter (n : nat) (p : Parser) : Parser :=
  {| p_lexer := p_lexer p; p_current := p_current p; p_previous := p_previous p;
     nesting_depth := nesting_depth p; nesting_failed := nesting_failed p;
     expression_depth := expression_depth p;
     expression_operator_count := expression_operator_count p;
     for_counter := n; output := output p |}.

Definition with_output (d : diagnostic) (p : Parser) : Parser :=
  {| p_lexer := p_lexer p; p_current := p_current p; p_previous := p_previous p;
     nesting_depth := nesting_depth p; nesting_failed := nesting_failed p;
     expression_depth := expression_depth p;
     expression_operator_count := expression_operator_count p;
     for_counter := for_counter p; output := output p ++ [d] |}.

Definition p_source (p : Parser) : bytes := source (p_lexer p).

(** * NULL results

    A grammar function gives up by returning NULL at once: the empty chain or
    [None]. [x ←? m; k] runs [m] and gives up if it returned NULL; [m ?; k]
    runs the test [m] and gives up if it failed. *)
Class Null (A : Type) := null : A.
#[export] Instance option_null {A} : Null (option A) := None.
#[export] Instance list_null {A} : Null (list A) := [].

Definition bind_null {A B} `{Null B} (m : St Parser (option A)) (k : A -> St Parser B)
  : St Parser B :=
  o ← m;
  match o with
  | Some a => k a
  | None => mret null
  end.

Definition bind_check {B} `{Null B} (m : St Parser bool) (k : St Parser B) : St Parser B :=
  b ← m;
  if (b : bool) then k else mret null.

Notation "x '←?' y ; z" := (bind_null y (fun x => z))
  (at level 20, y at level 100, z at level 200, only parsing) : vnt_scope.
Notation "'check' y ; z" := (bind_check y z)
  (at level 20, y at level 100, z at level 200, only parsing) : vnt_scope.
Open Scope vnt_scope.

(** * Printing *)

Definition print_diagnostic (s : stream) (position : option (nat * nat)) (message : string)
  : St Parser unit :=
  modify (with_output {| diagnostic_stream := s; diagnostic_position := position;
                         diagnostic_message := str message |}).

(** [fprintf(stderr, "Parser error at %d:%d: ...", current.line, current.column)]. *)
Definition error_at_current (message : string) : St Parser unit :=
  t ← gets p_current;
  print_diagnostic Stderr (Some (token_line t, token_column t)) message.
Definition error_stderr (message : string) : St Parser unit :=
  print_diagnostic Stderr None message.
Definition error_stdout (message : string) : St Parser unit :=
  print_diagnostic Stdout None message.

(** Print, and give up. *)
Definition give_up_with {B} `{Null B} (m : St Parser unit) : St Parser B :=
  _ ← m; mret null.

(** * Nesting *)

Definition parser_enter_nesting (context : string) : St Parser bool :=
  p ← get;
  if nesting_failed p then mret false
  else if VNT_PARSER_MAX_NESTING <=? nesting_depth p then
    _ ← modify (with_nesting (nesting_depth p) true);
    _ ← error_at_current (context +:+ " nesting exceeds 256 levels.");
    mret false
  else
    _ ← modify (with_nesting (S (nesting_depth p)) false);
    mret true.

Definition parser_leave_nesting : St Parser unit :=
  p ← get;
  if 0 <? nesting_depth p
  then modify (with_nesting (nesting_depth p - 1) (nesting_failed p))
  else mret tt.

Definition parser_note_expression_operator : St Parser bool :=
  p ← get;
  if nesting_failed p then mret false
  else if VNT_PARSER_MAX_EXPRESSION_OPERATORS <=? expression_operator_count p then
    _ ← modify (with_nesting (nesting_depth p) true);
    _ ← error_at_current "expression exceeds 256 operator nodes.";
    mret false
  else
    _ ← modify (with_expression (expression_depth p) (S (expression_operator_count p)));
    mret true.

(** * Tokens *)

Definition parser_advance : St Parser unit := fun p =>
  match lexer_next (p_lexer p) with
  | Done (t, lx) => Done (tt, with_tokens lx t (p_current p) p)
  | Fault => Fault
  | Stuck => Stuck
  end.

Definition parser_check (type : TokenType) : St Parser bool :=
  gets (fun p => bool_decide (token_type (p_current p) = type)).

(** [token_is] of src/internal/parser_internal.h. *)
Definition token_is (type : TokenType) : St Parser bool :=
  gets (fun p => bool_decide (token_type (p_current p) = type)).

Definition parser_consume (type : TokenType) (message : string) : St Parser bool :=
  b ← parser_check type;
  if (b : bool) then _ ← parser_advance; mret true
  else _ ← error_at_current message; mret false.

(** [memcpy(value, token.start, token.length)]: the bytes read must be in the
    source buffer. *)
Definition parser_token_to_string (t : Token) : St Parser bytes := fun p =>
  if token_start t + token_length t <=? S (length (p_source p))
  then Done (token_text (p_source p) t, p)
  else Fault.

(** [parser_is_token(parser->current, text)]. *)
Definition current_is (text : string) : St Parser bool :=
  gets (fun p =>
    let t := p_current p in
    bool_decide (token_type t = TOKEN_IDENTIFIER) &&
    (token_length t =? length (str text)) &&
    bytes_eqb (token_text (p_source p) t) (str text)).

Definition unknown_token : Token :=
  {| token_type := TOKEN_UNKNOWN; token_start := 0; token_length := 0;
     token_line := 0; token_column := 0 |}.

Definition parser_init (counter : nat) (lx : Lexer) : outcome Parser :=
  let p := {| p_lexer := lx; p_current := unknown_token; p_previous := unknown_token;
              nesting_depth := 0; nesting_failed := false; expression_depth := 0;
              expression_operator_count := 0; for_counter := counter; output := [] |} in
  match parser_advance p with
  | Done (_, p) => Done p
  | Fault => Fault
  | Stuck => Stuck
  end.
