(* ===== verification/Expressions.v ===== *)
(** Expressions: the expression grammar, src/parser/primary.c, unary.c and
    binary.c. A function that calls [parse_expression] takes it as the
    parameter [parse_expression]; [n] is the recursion budget of its loops. *)

From S2P Require Import Prelude Clib Lexer Ast Parser.

(** * Literals *)

(** [buffer[0] == '0' && (buffer[1] == 'x' || buffer[1] == 'X') ? 16 : 10]. *)
Definition literal_base (buffer : bytes) : Z :=
  match buffer with
  | z :: x :: _ =>
      if (z =? "0")%char && ((x =? "x")%char || (x =? "X")%char) then 16%Z else 10%Z
  | _ => 10%Z
  end.

(** The integer literal in [buffer]; [None] if the conversion is rejected. *)
Definition integer_literal (buffer : bytes) : option Z :=
  let c := strtoll buffer (literal_base buffer) in
  if cv_erange c || (length (cv_rest c) =? length buffer) || negb (length (cv_rest c) =? 0)
  then None else Some (cv_value c).

(** The decoding loop of string literals. *)
Fixpoint decode_string (l : bytes) : bytes :=
  match l with
  | [] => []
  | c :: l' =>
      if (c =? backslash)%char then
        match l' with
        | [] => [c]
        | escaped :: l'' =>
            if (escaped =? "n")%char then newline :: decode_string l''
            else if (escaped =? "r")%char then carriage_return :: decode_string l''
            else if (escaped =? "t")%char then tab :: decode_string l''
            else if (escaped =? backslash)%char then backslash :: decode_string l''
            else if (escaped =? quote)%char then quote :: decode_string l''
            else backslash :: escaped :: decode_string l''
        end
      else c :: decode_string l'
  end.

(** The test of unary.c for the magnitude of INT64_MIN after a minus sign. *)
Definition is_int64_min_magnitude (buffer : bytes) : bool :=
  let c := strtoull buffer (literal_base buffer) in
  negb (cv_erange c) && negb (length (cv_rest c) =? length buffer) &&
  (length (cv_rest c) =? 0) && (cv_value c =? INT64_MAX + 1)%Z.

(** "%s__%s" *)
Definition qualified_name (module function : bytes) : bytes := module ++ str "__" ++ function.

Section grammar.
Context (parse_expression : St Parser (option ast)).

(** * primary.c *)

Definition primary_integer (token : Token) : St Parser (option ast) :=
  if 64 <=? token_length token then
    give_up_with (error_stdout "Parser error: integer too long.")
  else
    buffer ← parser_token_to_string token;
    match integer_literal buffer with
    | None =>
        give_up_with
          (error_stdout "Parser error: integer literal is outside the signed 64-bit range.")
    | Some value =>
        _ ← parser_advance;
        mret (Some (ast_create_integer value))
    end.

Definition primary_float (token : Token) : St Parser (option ast) :=
  if 64 <=? token_length token then
    give_up_with (error_stdout "Parser error: float too long.")
  else
    buffer ← parser_token_to_string token;
    _ ← parser_advance;
    mret (Some (ast_create_float (strtod buffer))).

Definition primary_string (token : Token) : St Parser (option ast) :=
  text ← parser_token_to_string token;
  _ ← parser_advance;
  mret (Some (ast_create_string (decode_string text))).

(** The [for (;;)] loop over the elements of an array literal; a comma may
    end the list. *)
Fixpoint array_elements (n : nat) (elements : list ast) (count : nat)
  : St Parser (option (list ast * nat)) :=
  match n with
  | O => stuck
  | S n =>
      element ←? parse_expression;
      let elements := ast_append elements [element] in
      let count := S count in
      comma ← token_is TOKEN_COMMA;
      if (comma : bool) then
        _ ← parser_advance;
        close ← token_is TOKEN_RIGHT_BRACKET;
        if (close : bool) then mret (Some (elements, count))
        else array_elements n elements count
      else mret (Some (elements, count))
  end.

Definition primary_array (n : nat) : St Parser (option ast) :=
  _ ← parser_advance;
  empty ← token_is TOKEN_RIGHT_BRACKET;
  list ←? (if (empty : bool) then mret (Some ([], 0)) else array_elements n [] 0);
  close ← token_is TOKEN_RIGHT_BRACKET;
  if (close : bool) then
    _ ← parser_advance;
    mret (Some (ast_create_array list.1 list.2))
  else give_up_with (error_stdout "Parser error: expected ']'.").

Definition primary_parenthesis : St Parser (option ast) :=
  _ ← parser_advance;
  expression ←? parse_expression;
  close ← token_is TOKEN_RIGHT_PAREN;
  if (close : bool) then
    _ ← parser_advance;
    mret (Some expression)
  else give_up_with (error_stdout "Parser error: expected ')'.").

(** The arguments of a call in an expression; a trailing comma is an error. *)
Fixpoint primary_arguments (n : nat) (arguments : list ast) (argument_count : nat)
  : St Parser (option (list ast * nat)) :=
  match n with
  | O => stuck
  | S n =>
      argument ←? parse_expression;
      let arguments := ast_append arguments [argument] in
      let argument_count := S argument_count in
      comma ← token_is TOKEN_COMMA;
      if (comma : bool) then
        _ ← parser_advance;
        close ← token_is TOKEN_RIGHT_PAREN;
        if (close : bool) then
          give_up_with (error_stdout "Parser error: trailing comma in function call.")
        else primary_arguments n arguments argument_count
      else mret (Some (arguments, argument_count))
  end.

Definition primary_call (n : nat) (name : bytes) : St Parser (option ast) :=
  _ ← parser_advance;
  empty ← token_is TOKEN_RIGHT_PAREN;
  list ←? (if (empty : bool) then mret (Some ([], 0)) else primary_arguments n [] 0);
  close ← token_is TOKEN_RIGHT_PAREN;
  if (close : bool) then
    _ ← parser_advance;
    mret (Some (ast_create_function_call name list.1 list.2))
  else give_up_with (error_stdout "Parser error: expected ')'.").

(** A name that is not followed by an argument list. *)
Definition primary_name (name : bytes) : ast :=
  if bytes_eqb name (str "true") then ast_create_boolean 1
  else if bytes_eqb name (str "false") then ast_create_boolean 0
  else if bytes_eqb name (str "null") then ast_create_null
  else ast_create_variable name.

Definition primary_identifier (n : nat) (token : Token) : St Parser (option ast) :=
  name ← parser_token_to_string token;
  _ ← parser_advance;
  call ← token_is TOKEN_LEFT_PAREN;
  if (call : bool) then primary_call n name
  else mret (Some (primary_name name)).

Definition parse_primary (n : nat) : St Parser (option ast) :=
  token ← gets p_current;
  match token_type token with
  | TOKEN_INTEGER => primary_integer token
  | TOKEN_FLOAT => primary_float token
  | TOKEN_STRING => primary_string token
  | TOKEN_LEFT_BRACKET => primary_array n
  | TOKEN_LEFT_PAREN => primary_parenthesis
  | TOKEN_IDENTIFIER => primary_identifier n token
  | _ => give_up_with (error_stdout "Parser error: expected expression.")
  end.

(** The arguments of a call by statement or by qualified name, up to (and not
    including) the closing parenthesis. *)
Fixpoint call_arguments (n : nat) (arguments : list ast) (argument_count : nat)
  : St Parser (option (list ast * nat)) :=
  match n with
  | O => stuck
  | S n =>
      argument ←? parse_expression;
      let arguments := ast_append arguments [argument] in
      let argument_count := S argument_count in
      close ← token_is TOKEN_RIGHT_PAREN;
      if (close : bool) then mret (Some (arguments, argument_count))
      else
        check parser_consume TOKEN_COMMA "expected ',' between arguments.";
        call_arguments n arguments argument_count
  end.

Definition postfix_index (expression : ast) : St Parser (option ast) :=
  check parser_note_expression_operator;
  _ ← parser_advance;
  index ←? parse_expression;
  close ← token_is TOKEN_RIGHT_BRACKET;
  if (close : bool) then
    _ ← parser_advance;
    mret (Some (ast_create_index expression index))
  else give_up_with (error_stdout "Parser error: expected ']'.").

(** [module.function(arguments)] is a call of [module__function]. *)
Definition postfix_call (n : nat) (module_name function_name : bytes)
  : St Parser (option ast) :=
  let qualified := qualified_name module_name function_name in
  _ ← parser_advance;
  empty ← token_is TOKEN_RIGHT_PAREN;
  list ←? (if (empty : bool) then mret (Some ([], 0)) else call_arguments n [] 0);
  check parser_consume TOKEN_RIGHT_PAREN "expected ')' after arguments.";
  mret (Some (ast_create_function_call qualified list.1 list.2)).

Definition postfix_member (n : nat) (expression : ast) : St Parser (option ast) :=
  check parser_note_expression_operator;
  _ ← parser_advance;
  identifier ← token_is TOKEN_IDENTIFIER;
  if (identifier : bool) then
    token ← gets p_current;
    member ← parser_token_to_string token;
    _ ← parser_advance;
    call ← token_is TOKEN_LEFT_PAREN;
    match call, expression with
    | true, AST_VARIABLE module_name => postfix_call n module_name member
    | _, _ => mret (Some (ast_create_member expression member))
    end
  else give_up_with (error_stdout "Parser error: expected member name after '.'.").

Fixpoint postfix_loop (n : nat) (expression : ast) : St Parser (option ast) :=
  match n with
  | O => stuck
  | S n =>
      type ← gets (fun p => token_type (p_current p));
      match type with
      | TOKEN_LEFT_BRACKET =>
          expression ←? postfix_index expression;
          postfix_loop n expression
      | TOKEN_DOT =>
          expression ←? postfix_member n expression;
          postfix_loop n expression
      | _ => mret (Some expression)
      end
  end.

Definition parse_postfix (n : nat) : St Parser (option ast) :=
  expression ←? parse_primary n;
  postfix_loop n expression.

(** * unary.c *)

Definition unary_operator (type : TokenType) : option UnaryOperator :=
  match type with
  | TOKEN_BANG => Some UNARY_NOT
  | TOKEN_MINUS => Some UNARY_NEGATE
  | TOKEN_AMPERSAND => Some UNARY_REFERENCE
  | TOKEN_STAR => Some UNARY_DEREFERENCE
  | _ => None
  end.

(** After a minus sign: is the current token the magnitude of INT64_MIN? *)
Definition at_int64_min (operator : UnaryOperator) : St Parser bool :=
  token ← gets p_current;
  if bool_decide (operator = UNARY_NEGATE) && bool_decide (token_type token = TOKEN_INTEGER)
     && (0 <? token_length token) && (token_length token <? 64)
  then
    buffer ← parser_token_to_string token;
    mret (is_int64_min_magnitude buffer)
  else mret false.

Fixpoint parse_unary (n : nat) : St Parser (option ast) :=
  match n with
  | O => stuck
  | S n =>
      type ← gets (fun p => token_type (p_current p));
      match unary_operator type with
      | Some operator =>
          check parser_enter_nesting "unary operator";
          _ ← parser_advance;
          minimum ← at_int64_min operator;
          if (minimum : bool) then
            _ ← parser_advance;
            _ ← parser_leave_nesting;
            mret (Some (ast_create_integer INT64_MIN))
          else
            operand ← parse_unary n;
            _ ← parser_leave_nesting;
            match operand with
            | None => mret None
            | Some operand => mret (Some (ast_create_unary operand operator))
            end
      | None => parse_postfix n
      end
  end.

(** * binary.c *)

(** The [while] loop of a level of left-associative operators: [operator_of]
    gives the operators of the level, [parse_operand] the next level. *)
Fixpoint binary_loop (operator_of : TokenType -> option BinaryOperator)
    (parse_operand : St Parser (option ast)) (n : nat) (left : ast)
  : St Parser (option ast) :=
  match n with
  | O => stuck
  | S n =>
      type ← gets (fun p => token_type (p_current p));
      match operator_of type with
      | None => mret (Some left)
      | Some operator =>
          _ ← parser_advance;
          check parser_note_expression_operator;
          right ←? parse_operand;
          binary_loop operator_of parse_operand n (ast_create_binary left right operator)
      end
  end.

Definition multiplication_operator (type : TokenType) : option BinaryOperator :=
  match type with
  | TOKEN_STAR => Some BINARY_MULTIPLY
  | TOKEN_SLASH => Some BINARY_DIVIDE
  | TOKEN_PERCENT => Some BINARY_MODULO
  | _ => None
  end.

Definition addition_operator (type : TokenType) : option BinaryOperator :=
  match type with
  | TOKEN_PLUS => Some BINARY_ADD
  | TOKEN_MINUS => Some BINARY_SUBTRACT
  | _ => None
  end.

Definition comparison_operator (type : TokenType) : option BinaryOperator :=
  match type with
  | TOKEN_GREATER => Some BINARY_GREATER
  | TOKEN_LESS => Some BINARY_LESS
  | TOKEN_GREATER_EQUAL => Some BINARY_GREATER_EQUAL
  | TOKEN_LESS_EQUAL => Some BINARY_LESS_EQUAL
  | _ => None
  end.

Definition equality_operator (type : TokenType) : option BinaryOperator :=
  match type with
  | TOKEN_EQUAL_EQUAL => Some BINARY_EQUAL
  | TOKEN_BANG_EQUAL => Some BINARY_NOT_EQUAL
  | _ => None
  end.

Definition and_operator (type : TokenType) : option BinaryOperator :=
  match type with
  | TOKEN_AND_AND => Some BINARY_AND
  | _ => None
  end.

Definition or_operator (type : TokenType) : option BinaryOperator :=
  match type with
  | TOKEN_OR_OR => Some BINARY_OR
  | _ => None
  end.

Definition parse_multiplication (n : nat) : St Parser (option ast) :=
  left ←? parse_unary n;
  binary_loop multiplication_operator (parse_unary n) n left.

Definition parse_addition (n : nat) : St Parser (option ast) :=
  left ←? parse_multiplication n;
  binary_loop addition_operator (parse_multiplication n) n left.

Definition parse_comparison (n : nat) : St Parser (option ast) :=
  left ←? parse_addition n;
  binary_loop comparison_operator (parse_addition n) n left.

Definition parse_equality (n : nat) : St Parser (option ast) :=
  left ←? parse_comparison n;
  binary_loop equality_operator (parse_comparison n) n left.

Definition parse_and (n : nat) : St Parser (option ast) :=
  left ←? parse_equality n;
  binary_loop and_operator (parse_equality n) n left.

Definition parse_or (n : nat) : St Parser (option ast) :=
  left ←? parse_and n;
  binary_loop or_operator (parse_and n) n left.
End grammar.

(** The counter of operator nodes restarts with each outermost expression. *)
Definition start_expression : St Parser unit :=
  modify (fun p => if expression_depth p =? 0 then with_expression 0 0 p else p).

Definition change_expression_depth (f : nat -> nat) : St Parser unit :=
  modify (fun p => with_expression (f (expression_depth p)) (expression_operator_count p) p).

Fixpoint parse_expression (n : nat) : St Parser (option ast) :=
  match n with
  | O => stuck
  | S n =>
      _ ← start_expression;
      check parser_enter_nesting "expression";
      _ ← change_expression_depth S;
      expression ← parse_or (parse_expression n) n;
      _ ← change_expression_depth Nat.pred;
      _ ← parser_leave_nesting;
      failed ← gets nesting_failed;
      if (failed : bool) then mret None else mret expression
  end.
