(* ===== verification/Literals.v ===== *)
(** Literals: the values of integer and string literals. The conversions of
    Expressions are exact on the texts the lexer gives them, and every value
    that can be written is read back. *)

From S2P Require Import Prelude Clib Lexer LexerFacts LexerProps Ast Parser.
From S2P Require Import Expressions.
Local Open Scope Z_scope.

(** * Strings *)

(** The spelling of a byte in a string literal. *)
Definition encode_char (c : ascii) : bytes :=
  if (c =? newline)%char then [backslash; "n"%char]
  else if (c =? carriage_return)%char then [backslash; "r"%char]
  else if (c =? tab)%char then [backslash; "t"%char]
  else if (c =? backslash)%char then [backslash; backslash]
  else if (c =? quote)%char then [backslash; quote]
  else [c].

Definition encode_string (s : bytes) : bytes := concat (map encode_char s).

Definition string_literal (s : bytes) : bytes := quote :: encode_string s ++ [quote].

Lemma encode_char_cases (P : ascii -> bytes -> Prop) :
  (forall c, (c =? backslash)%char = false -> (c =? quote)%char = false -> P c [c]) ->
  P newline [backslash; "n"%char] -> P carriage_return [backslash; "r"%char] ->
  P tab [backslash; "t"%char] -> P backslash [backslash; backslash] ->
  P quote [backslash; quote] -> forall c, P c (encode_char c).
Proof.
  intros Hc Hn Hr Ht Hb Hq c. unfold encode_char.
  destruct (Ascii.eqb_spec c newline) as [->|]; [done|].
  destruct (Ascii.eqb_spec c carriage_return) as [->|]; [done|].
  destruct (Ascii.eqb_spec c tab) as [->|]; [done|].
  destruct (Ascii.eqb_spec c backslash) as [->|Hb']; [done|].
  destruct (Ascii.eqb_spec c quote) as [->|Hq']; [done|].
  by apply Hc; apply Ascii.eqb_neq.
Qed.

Lemma decode_encode_char c rest :
  decode_string (encode_char c ++ rest) = c :: decode_string rest.
Proof.
  apply (encode_char_cases (fun c l => decode_string (l ++ rest) = c :: decode_string rest));
    try done. clear c.
  intros c Hb Hq. cbn [app decode_string]. by rewrite Hb.
Qed.

Lemma decode_encode s : decode_string (encode_string s) = s.
Proof.
  induction s as [|c s IH]; [done|]. unfold encode_string in *. cbn [map concat].
  by rewrite decode_encode_char, IH.
Qed.

Lemma string_body_encode s rest :
  ~ In NUL s -> string_body (encode_string s ++ quote :: rest) = (length (encode_string s), true).
Proof.
  induction s as [|c s IH]; intros Hs; [done|]. unfold encode_string in *. cbn [map concat].
  specialize (IH ltac:(cbn in Hs; tauto)). rewrite <- app_assoc.
  assert (c <> NUL) as Hc by (cbn in Hs; intros ->; tauto). clear Hs. revert Hc.
  apply (encode_char_cases (fun c l => c <> NUL ->
    string_body (l ++ concat (map encode_char s) ++ quote :: rest) =
    (length (l ++ concat (map encode_char s)), true))); clear c.
  { intros c Hb Hq Hc%Ascii.eqb_neq. cbn [app string_body]. rewrite Hq, Hc, Hb. by rewrite IH. }
  all: intros _; cbn; by rewrite IH.
Qed.

Lemma string_literal_ok s : ~ In NUL s -> lexeme_ok TOKEN_STRING (string_literal s) = true.
Proof.
  intros Hs. unfold lexeme_ok, string_literal. rewrite string_body_encode by done.
  rewrite length_app. cbn [length]. rewrite Nat.add_1_r. by rewrite Nat.eqb_refl.
Qed.

Lemma decode_string_length_fuel n : forall l, (length l <= n)%nat -> (length (decode_string l) <= length l)%nat.
Proof.
  induction n as [|n IH]; intros l Hl; [by destruct l; [|cbn in Hl; lia]|].
  destruct l as [|c l]; [done|]. cbn [decode_string]. destruct (c =? backslash)%char.
  - destruct l as [|e l]; [done|]. cbn [length] in *.
    assert (length (decode_string l) <= length l)%nat by (apply IH; lia).
    repeat case_match; cbn [length]; lia.
  - cbn [length] in *. specialize (IH l ltac:(lia)). lia.
Qed.

(** * Integers *)

Lemma span_digits_all base l :
  forallb (fun c => digit_value c <? base) l = true ->
  span_digits base l = (map digit_value l, []).
Proof.
  induction l as [|c l IH]; [done|]. cbn [forallb span_digits map]. intros [-> Hl]%andb_prop.
  by rewrite IH.
Qed.

Lemma isdigit_value c : isdigit c = true -> (digit_value c <? 10) = true /\ digit_value c = code c - 48.
Proof.
  intros H. unfold digit_value. rewrite H. split; [|done]. unfold isdigit, between in H.
  apply andb_prop in H as [? ?]. apply Z.ltb_lt. lia.
Qed.

Lemma isxdigit_value c : isxdigit c = true -> (digit_value c <? 16) = true.
Proof. by destruct c as [[] [] [] [] [] [] [] []]. Qed.

Lemma forallb_impl {A} (f g : A -> bool) l :
  (forall x, f x = true -> g x = true) -> forallb f l = true -> forallb g l = true.
Proof.
  intros Hfg. induction l as [|x l IH]; [done|]. cbn. intros [Hx Hl]%andb_prop.
  by rewrite (Hfg x Hx), IH.
Qed.

Lemma value_of_nonneg base l :
  0 <= base -> (forall d, In d l -> 0 <= d) -> 0 <= value_of base l.
Proof.
  unfold value_of. intros Hb. enough (forall acc, 0 <= acc -> (forall d, In d l -> 0 <= d) ->
    0 <= fold_left (fun acc d => acc * base + d) l acc) as H by (by apply H).
  induction l as [|d l IH]; intros acc Ha Hd; [done|]. cbn. apply IH; [|by intros; apply Hd; right].
  specialize (Hd d (or_introl eq_refl)). nia.
Qed.

Lemma digit_value_nonneg c : 0 <= digit_value c.
Proof. destruct c as [[] [] [] [] [] [] [] []]; vm_compute; congruence. Qed.

(** The value an integer literal denotes: digits, or 0x and at least one
    hexadecimal digit. *)
Definition literal_value (text : bytes) : option Z :=
  if literal_base text =? 16 then
    match drop 2 text with
    | [] => None
    | ds => Some (value_of 16 (map digit_value ds))
    end
  else Some (value_of 10 (map digit_value text)).

(** The two texts of an integer literal. *)
Lemma integer_text_cases text :
  lexeme_ok TOKEN_INTEGER text = true ->
  (literal_base text = 10 /\ text <> [] /\ forallb isdigit text = true) \/
  (exists z x ds, text = z :: x :: ds /\ (z =? "0")%char = true /\
     ((x =? "x")%char || (x =? "X")%char) = true /\ forallb isxdigit ds = true).
Proof.
  destruct text as [|c l]; [done|]. cbn [lexeme_ok].
  intros [Hc [Hl|Hx]%orb_prop]%andb_prop; [left|right].
  - split_and!; [|done|cbn; by rewrite Hc]. destruct l as [|x l]; [done|].
    cbn in Hl. apply andb_prop in Hl as [Hx _]. cbn [literal_base].
    destruct (c =? "0")%char; [|done]. cbn [andb].
    by destruct x as [[] [] [] [] [] [] [] []].
  - destruct l as [|x l]; [done|]. apply andb_prop in Hx as [[H0 Hx]%andb_prop Hl].
    by exists c, x, l.
Qed.

Lemma scan_integer_text text :
  lexeme_ok TOKEN_INTEGER text = true ->
  match literal_value text with
  | Some v => 0 <= v /\ scan_integer text (literal_base text) = Some (false, v, [])
  | None => exists v x, scan_integer text (literal_base text) = Some (false, v, [x])
  end.
Proof.
  intros H. pose proof (integer_text_cases text H) as [(Hb & Hne & Hd)|(z & x & ds & -> & Hz & Hx & Hds)].
  - unfold literal_value. rewrite Hb. cbn [Z.eqb Pos.eqb]. split.
    { apply value_of_nonneg; [lia|]. intros d Hin. apply in_map_iff in Hin as (c & <- & _).
      apply digit_value_nonneg. }
    assert (split_sign (drop_space text) = (false, text)) as Hs.
    { destruct text as [|c l]; [done|]. cbn in Hd. apply andb_prop in Hd as [Hc _].
      by destruct c as [[] [] [] [] [] [] [] []]. }
    assert (skip_prefix 10 text = text) as Hp by (by destruct text as [|? [|? [|? ?]]]).
    unfold scan_integer. rewrite Hs, Hp, span_digits_all; [by destruct text|].
    eapply forallb_impl; [|exact Hd]. intros c Hc. by apply isdigit_value.
  - apply Ascii.eqb_eq in Hz as ->.
    assert (literal_base ("0"%char :: x :: ds) = 16) as Hb by (cbn; by rewrite Hx).
    unfold literal_value. rewrite Hb. change (16 =? 16) with true. cbv iota.
    change (drop 2 ("0"%char :: x :: ds)) with ds.
    unfold scan_integer. change (split_sign (drop_space ("0"%char :: x :: ds)))
      with (false, "0"%char :: x :: ds). cbv iota.
    destruct ds as [|d ds].
    + exists 0, x. by apply orb_prop in Hx as [Hx|Hx]; apply Ascii.eqb_eq in Hx as ->.
    + split.
      { apply value_of_nonneg; [lia|]. intros e Hin. apply in_map_iff in Hin as (c & <- & _).
        apply digit_value_nonneg. }
      assert (forallb (fun c => digit_value c <? 16) (d :: ds) = true) as Hall.
      { eapply forallb_impl; [|exact Hds]. apply isxdigit_value. }
      assert ((digit_value d <? 16) = true) as Hd by (cbn in Hall; by apply andb_prop in Hall as [? _]).
      cbn [skip_prefix]. rewrite Hx, Hd. change (16 =? 16) with true.
      change (("0" =? "0")%char) with true. cbn [andb]. by rewrite span_digits_all.
Qed.

(** What the parser makes of an integer literal: its value if it fits. *)
Lemma integer_literal_spec text :
  lexeme_ok TOKEN_INTEGER text = true ->
  integer_literal text =
  match literal_value text with
  | Some v => if v <=? INT64_MAX then Some v else None
  | None => None
  end.
Proof.
  intros H. pose proof (scan_integer_text text H) as Hs. unfold integer_literal, strtoll.
  assert (text <> []) as Hne by (by destruct text).
  destruct (literal_value text) as [v|].
  - destruct Hs as [Hv ->]. rewrite (proj2 (Z.ltb_ge v INT64_MIN)) by (unfold INT64_MIN; lia).
    destruct (Z.ltb_spec INT64_MAX v); destruct (Z.leb_spec v INT64_MAX); try lia; cbn; [done|].
    by destruct text.
  - destruct Hs as (v & x & ->).
    destruct (v <? INT64_MIN); [done|]. destruct (INT64_MAX <? v); [done|].
    cbn. by rewrite orb_true_r.
Qed.

Lemma is_int64_min_magnitude_spec text :
  lexeme_ok TOKEN_INTEGER text = true ->
  is_int64_min_magnitude text = bool_decide (literal_value text = Some (2 ^ 63)).
Proof.
  intros H. pose proof (scan_integer_text text H) as Hs. unfold is_int64_min_magnitude, strtoull.
  assert (text <> []) as Hne by (by destruct text).
  destruct (literal_value text) as [v|].
  - destruct Hs as [Hv ->].
    destruct (Z.ltb_spec UINT64_MAX v) as [Hbig|Hle].
    + cbn. rewrite bool_decide_eq_false_2; [done|]. intros [= ->]. by vm_compute in Hbig.
    + cbn [cv_erange cv_rest cv_value]. rewrite Z.mod_small by (unfold UINT64_MAX in *; lia).
      assert ((length (@nil ascii) =? length text)%nat = false) as -> by (by destruct text).
      cbn [negb andb length Nat.eqb]. change (INT64_MAX + 1) with (2 ^ 63).
      destruct (Z.eqb_spec v (2 ^ 63)) as [->|Hn]; [by rewrite bool_decide_eq_true_2|].
      rewrite bool_decide_eq_false_2; [done|]. congruence.
  - destruct Hs as (v & x & ->). rewrite bool_decide_eq_false_2 by done.
    destruct (UINT64_MAX <? v); [done|]. cbn. by rewrite andb_false_r.
Qed.

(** * Printing integers *)

Lemma digit_char_digit d : 0 <= d < 10 -> isdigit (digit_char d) = true /\ digit_value (digit_char d) = d.
Proof.
  intros Hd. assert (d = 0 \/ d = 1 \/ d = 2 \/ d = 3 \/ d = 4 \/ d = 5 \/ d = 6 \/ d = 7 \/ d = 8 \/ d = 9)
    as H by lia.
  repeat (destruct H as [-> | H]; [by split|]). subst d. by split.
Qed.

Lemma value_of_app base l1 l2 :
  value_of base (l1 ++ l2) = value_of base l1 * base ^ Z.of_nat (length l2) + value_of base l2.
Proof.
  unfold value_of. rewrite fold_left_app. generalize (fold_left (fun acc d => acc * base + d) l1 0).
  assert (forall l acc, fold_left (fun acc d => acc * base + d) l acc =
            acc * base ^ Z.of_nat (length l) + fold_left (fun acc d => acc * base + d) l 0) as H.
  { induction l as [|d l IH]; intros acc; cbn [fold_left length]; [cbn; lia|].
    rewrite IH, (IH (0 * base + d)), Nat2Z.inj_succ, Z.pow_succ_r by lia. nia. }
  intros z. apply H.
Qed.

Lemma decimal_digits_step f z acc :
  decimal_digits (S f) z acc =
  if z <? 10 then digit_char z :: acc
  else decimal_digits f (z / 10) (digit_char (z mod 10) :: acc).
Proof. done. Qed.

Lemma decimal_digits_spec f : forall z acc,
  0 <= z < 10 ^ Z.of_nat (S f) -> exists ds,
    decimal_digits (S f) z acc = ds ++ acc /\ (0 < length ds <= S f)%nat /\
    forallb isdigit ds = true /\ value_of 10 (map digit_value ds) = z.
Proof.
  induction f as [|f IH]; intros z acc Hz; rewrite decimal_digits_step.
  - change (10 ^ Z.of_nat 1) with 10 in Hz. rewrite (proj2 (Z.ltb_lt z 10)) by lia.
    destruct (digit_char_digit z) as [Hd Hv]; [lia|].
    exists [digit_char z]. cbn. rewrite Hd, Hv. split_and!; done || lia.
  - destruct (Z.ltb_spec z 10).
    + destruct (digit_char_digit z) as [Hd Hv]; [lia|].
      exists [digit_char z]. cbn. rewrite Hd, Hv. split_and!; done || lia.
    + pose proof (Z.mod_pos_bound z 10 ltac:(lia)).
      destruct (IH (z / 10) (digit_char (z mod 10) :: acc)) as (ds & E & Hl & Hall & Hval).
      { rewrite Nat2Z.inj_succ, Z.pow_succ_r in Hz by lia.
        split; [apply Z.div_pos; lia|apply Z.div_lt_upper_bound; lia]. }
      destruct (digit_char_digit (z mod 10)) as [Hd Hv]; [lia|].
      exists (ds ++ [digit_char (z mod 10)]). rewrite E. split_and!.
      * by rewrite <- app_assoc.
      * rewrite length_app. cbn. lia.
      * rewrite length_app. cbn. lia.
      * rewrite forallb_app, Hall. cbn. by rewrite Hd.
      * rewrite map_app, value_of_app. cbn [map length]. rewrite Hval, Hv.
        change (10 ^ Z.of_nat 1) with 10. change (value_of 10 [z mod 10]) with (0 * 10 + z mod 10).
        pose proof (Z.div_mod z 10 ltac:(lia)). lia.
Qed.

Lemma print_nonneg_spec z :
  0 <= z -> forallb isdigit (print_nonneg z) = true /\ print_nonneg z <> [] /\
    value_of 10 (map digit_value (print_nonneg z)) = z.
Proof.
  intros Hz. unfold print_nonneg.
  destruct (decimal_digits_spec (Z.to_nat (Z.log2 z)) z []) as (ds & E & Hl & Hall & Hval).
  { split; [done|]. rewrite Nat2Z.inj_succ, Z2Nat.id by apply Z.log2_nonneg.
    destruct (decide (z = 0)) as [->|]; [done|].
    pose proof (Z.log2_spec z ltac:(lia)) as [_ Hlt].
    pose proof (Z.pow_le_mono_l 2 10 (Z.succ (Z.log2 z)) ltac:(lia)). lia. }
  rewrite E, app_nil_r. split_and!; [done| |done]. by destruct ds; [cbn in Hl; lia|].
Qed.

Lemma print_nonneg_length z k : 0 <= z < 10 ^ Z.of_nat (S k) -> (length (print_nonneg z) <= S k)%nat.
Proof.
  intros Hz. assert (forall f z acc, 0 <= z < 10 ^ Z.of_nat (S k) ->
    (length (decimal_digits f z acc) <= S k + length acc)%nat) as H.
  2:{ unfold print_nonneg. specialize (H (S (Z.to_nat (Z.log2 z))) z [] Hz). cbn [length] in H. lia. }
  clear. induction k as [|k IH]; intros f z acc Hz; (destruct f as [|f]; [cbn; lia|]);
    rewrite decimal_digits_step.
  - change (10 ^ Z.of_nat 1) with 10 in Hz. rewrite (proj2 (Z.ltb_lt z 10)) by lia. cbn. lia.
  - destruct (Z.ltb_spec z 10); [cbn; lia|].
    eapply Nat.le_trans; [apply IH|cbn [length]; lia].
    rewrite Nat2Z.inj_succ, Z.pow_succ_r in Hz by lia.
    split; [apply Z.div_pos; lia|apply Z.div_lt_upper_bound; lia].
Qed.

Lemma print_nonneg_ok z : 0 <= z -> lexeme_ok TOKEN_INTEGER (print_nonneg z) = true.
Proof.
  intros Hz. destruct (print_nonneg_spec z Hz) as (Hall & Hne & _).
  destruct (print_nonneg z) as [|c l]; [done|]. cbn in Hall |- *.
  apply andb_prop in Hall as [-> ->]. done.
Qed.

Lemma literal_value_print z : 0 <= z -> literal_value (print_nonneg z) = Some z.
Proof.
  intros Hz. destruct (print_nonneg_spec z Hz) as (Hall & Hne & Hval).
  destruct (integer_text_cases _ (print_nonneg_ok z Hz)) as [(Hb & _)|(c & x & ds & E & _ & Hx & _)].
  - unfold literal_value. by rewrite Hb, Hval.
  - exfalso. rewrite E in Hall. cbn in Hall. apply andb_prop in Hall as [_ [Hd _]%andb_prop].
    by destruct x as [[] [] [] [] [] [] [] []].
Qed.

(** * Theorems *)

Lemma integer_literal_values text :
  lexeme_ok TOKEN_INTEGER text = true ->
  (forall v, integer_literal text = Some v <-> literal_value text = Some v /\ v <= INT64_MAX) /\
  (is_int64_min_magnitude text = true <-> literal_value text = Some (- INT64_MIN)).
Proof.
  intros H. rewrite integer_literal_spec, is_int64_min_magnitude_spec by done. split.
  - intros v. destruct (literal_value text) as [w|]; [|by split; [|intros [? _]]].
    destruct (Z.leb_spec w INT64_MAX).
    + split; [by intros [= ->]|by intros [[= ->] _]].
    + split; [done|]. intros [[= ->] ?]. lia.
  - by rewrite bool_decide_eq_true.
Qed.



Lemma integer_literal_print z rest :
  0 <= z <= INT64_MAX ->
  lexeme (print_nonneg z ++ " "%char :: rest) = (TOKEN_INTEGER, length (print_nonneg z)) /\
  (length (print_nonneg z) < 64)%nat /\ integer_literal (print_nonneg z) = Some z.
Proof.
  intros Hz. pose proof (print_nonneg_ok z ltac:(lia)) as Hok. split_and!.
  - by apply lexeme_of_text.
  - pose proof (print_nonneg_length z 18) as Hl. unfold INT64_MAX in Hz.
    change (10 ^ Z.of_nat 19) with 10000000000000000000 in Hl. lia.
  - rewrite integer_literal_spec, literal_value_print by (done || lia).
    by rewrite (proj2 (Z.leb_le z INT64_MAX)) by lia.
Qed.

(** Every non-negative 64-bit integer has a decimal spelling that the lexer takes as
    one integer token, that fits in the buffer of the parser and that is converted back to
    the integer. *)
Theorem integer_literal_roundtrip z rest :
  0 <= z <= INT64_MAX ->
  lexeme (print_nonneg z ++ " "%char :: rest) = (TOKEN_INTEGER, length (print_nonneg z)) /\
  (length (print_nonneg z) < 64)%nat /\ integer_literal (print_nonneg z) = Some z.
Proof. apply integer_literal_print. Qed.

Lemma integer_literal_roundtrip_witness :
  0 <= INT64_MAX <= INT64_MAX /\ print_nonneg INT64_MAX = str "9223372036854775807" /\
  integer_literal (print_nonneg INT64_MAX) = Some INT64_MAX.
Proof.
  split; [by vm_compute|]. split; [reflexivity|].
  apply (integer_literal_roundtrip INT64_MAX [] ltac:(by vm_compute)).
Defined.

(** C36: every string without a NUL byte has a spelling with escapes that the lexer takes as
    one string token and that the parser decodes back to the string. *)
Theorem string_literal_roundtrip s rest :
  ~ In NUL s ->
  lexeme (string_literal s ++ " "%char :: rest) = (TOKEN_STRING, length (string_literal s)) /\
  decode_string (encode_string s) = s.
Proof.
  intros Hs. split; [|apply decode_encode]. by apply lexeme_of_text; [apply string_literal_ok|].
Qed.

Lemma string_literal_roundtrip_witness :
  ~ In NUL (str "a" ++ [newline; quote]) /\
  string_literal (str "a" ++ [newline; quote]) =
    [quote; "a"%char; backslash; "n"%char; backslash; quote; quote] /\
  decode_string (encode_string (str "a" ++ [newline; quote])) = str "a" ++ [newline; quote].
Proof.
  assert (~ In NUL (str "a" ++ [newline; quote])) as H by (intros H; cbn in H; intuition discriminate).
  split; [exact H|]. split; [reflexivity|]. apply (string_literal_roundtrip _ [] H).
Defined.

(** Decoding the escapes of a string literal never makes it longer, so the buffer of
    the length of the token that the parser allocates is never overrun. *)
Theorem decode_string_length l : (length (decode_string l) <= length l)%nat.
Proof. by apply (decode_string_length_fuel (length l)). Qed.
