(* ===== verification/Statements.v ===== *)
(** Statements: the statement grammar, src/parser/statements.c,
    simple_statements.c, control.c, functions.c, assignments.c, loops.c, and
    parser_parse of parser.c. A statement is the chain of nodes its parse
    function returns, [[]] for NULL ([parse_for] returns three nodes); so an
    empty block and a failed block are the same value, as they are in the code. *)

From S2P Require Import Prelude Clib Lexer Ast Parser Expressions.

(** * for loops are lowered while they are parsed: loops.c *)

(** snprintf(name, 64, "...%d", for_counter) *)
Definition for_items_name (counter : nat) : bytes :=
  str "__vnt_for_items_" ++ print_Z (Z.of_nat counter).
Definition for_index_name (counter : nat) : bytes :=
  str "__vnt_for_index_" ++ print_Z (Z.of_nat counter).

Definition for_items_declaration (items_name : bytes) (iterable : ast) : ast :=
  ast_create_variable_declaration items_name iterable.

Definition for_index_declaration (index_name : bytes) : ast :=
  ast_create_variable_declaration index_name (ast_create_integer (-1)).

Definition for_length_call (items_name : bytes) : ast :=
  ast_create_function_call (str "len") (ast_append [] [ast_create_variable items_name]) 1.

Definition for_condition (items_name index_name : bytes) : ast :=
  let condition_left :=
    ast_create_binary (ast_create_variable index_name) (ast_create_integer 1) BINARY_ADD in
  ast_create_binary condition_left (for_length_call items_name) BINARY_LESS.

Definition for_item_declaration (loop_variable items_name index_name : bytes) : ast :=
  ast_create_variable_declaration loop_variable
    (ast_create_index (ast_create_variable items_name) (ast_create_variable index_name)).

Definition for_increment (index_name : bytes) : ast :=
  ast_create_variable_declaration index_name
    (ast_create_binary (ast_create_variable index_name) (ast_create_integer 1) BINARY_ADD).

Definition for_statements (counter : nat) (loop_variable : bytes) (iterable : ast)
    (body : list ast) : list ast :=
  let items_name := for_items_name counter in
  let index_name := for_index_name counter in
  let while_node :=
    ast_create_while (for_condition items_name index_name)
      (for_increment index_name ::
       for_item_declaration loop_variable items_name index_name :: body) in
  ast_append
    (ast_append [for_items_declaration items_name iterable] [for_index_declaration index_name])
    [while_node].

(** * Assignments: assignments.c *)

(** Is it one of the six assignment operators? *)
Definition assignment_operator (type : TokenType) : bool :=
  match type with
  | TOKEN_EQUALS | TOKEN_PLUS_EQUALS | TOKEN_MINUS_EQUALS | TOKEN_STAR_EQUALS
  | TOKEN_SLASH_EQUALS | TOKEN_PERCENT_EQUALS => true
  | _ => false
  end.

(** The operator of a compound assignment. *)
Definition compound_operator (type : TokenType) : option BinaryOperator :=
  match type with
  | TOKEN_PLUS_EQUALS => Some BINARY_ADD
  | TOKEN_MINUS_EQUALS => Some BINARY_SUBTRACT
  | TOKEN_STAR_EQUALS => Some BINARY_MULTIPLY
  | TOKEN_SLASH_EQUALS => Some BINARY_DIVIDE
  | TOKEN_PERCENT_EQUALS => Some BINARY_MODULO
  | _ => None
  end.

(** [x = v] is a declaration of [x], any other target an assignment node. *)
Definition assignment_node (target value : ast) : ast :=
  match target with
  | AST_VARIABLE name => ast_create_variable_declaration name value
  | _ => ast_create_assignment target value
  end.

(** [target op= value] is [target = clone(target) op value]. *)
Definition compound_assignment (type : TokenType) (target value : ast)
  : St Parser (list ast) :=
  match compound_operator type with
  | None => mret []
  | Some operator =>
      match clone_assignment_target target with
      | None => give_up_with (error_stdout "Parser error: out of memory.")
      | Some lhs => mret [assignment_node target (ast_create_binary lhs value operator)]
      end
  end.

Definition dereference_assignment (type : TokenType) (target value : ast) : list ast :=
  if bool_decide (type = TOKEN_EQUALS) then [ast_create_assignment target value]
  else
    match compound_operator type with
    | None => []
    | Some operator =>
        match clone_assignment_target target with
        | None => []
        | Some lhs => [ast_create_assignment target (ast_create_binary lhs value operator)]
        end
    end.

(** The text of the token that [parser_consume] has just consumed. *)
Definition previous_text : St Parser bytes :=
  token ← gets p_previous; parser_token_to_string token.
Definition current_text : St Parser bytes :=
  token ← gets p_current; parser_token_to_string token.

(** Set the unsafe flag of the function declaration at the head of a chain. *)
Definition mark_unsafe (function : list ast) : list ast :=
  match function with
  | AST_FUNCTION_DECLARATION name parameters parameter_types parameter_count return_type _ body
      :: next =>
      AST_FUNCTION_DECLARATION name parameters parameter_types parameter_count return_type true body
      :: next
  | chain => chain
  end.

Definition is_null (chain : list ast) : bool :=
  match chain with [] => true | _ => false end.

Section grammar.
Context (parse_expression : St Parser (option ast)).
Context (parse_statement : St Parser (list ast)).

(** * simple_statements.c *)

Definition parse_print : St Parser (list ast) :=
  _ ← parser_advance;
  check parser_consume TOKEN_LEFT_PAREN "expected '('.";
  expression ←? parse_expression;
  check parser_consume TOKEN_RIGHT_PAREN "expected ')'.";
  mret [ast_create_print expression].

(** No value if the current token closes the block, ends the file or is on a
    later line than [return]. *)
Definition is_bare_return : St Parser bool :=
  gets (fun p =>
    bool_decide (token_type (p_current p) = TOKEN_RIGHT_BRACE) ||
    bool_decide (token_type (p_current p) = TOKEN_EOF) ||
    (token_line (p_previous p) <? token_line (p_current p))).

Definition parse_return : St Parser (list ast) :=
  _ ← parser_advance;
  bare ← is_bare_return;
  if (bare : bool) then mret [ast_create_return None]
  else
    expression ← parse_expression;
    match expression with
    | None => give_up_with (error_at_current "expected expression after return.")
    | Some expression => mret [ast_create_return (Some expression)]
    end.

Definition parse_break : St Parser (list ast) :=
  _ ← parser_advance;
  mret [ast_create_break].

Definition parse_continue : St Parser (list ast) :=
  _ ← parser_advance;
  mret [ast_create_continue].

(** * statements.c *)

Fixpoint parse_block (n : nat) (statements : list ast) : St Parser (list ast) :=
  match n with
  | O => stuck
  | S n =>
      brace ← parser_check TOKEN_RIGHT_BRACE;
      eof ← parser_check TOKEN_EOF;
      if negb brace && negb eof then
        statement ← parse_statement;
        if is_null statement then mret []
        else parse_block n (ast_append statements statement)
      else
        check parser_consume TOKEN_RIGHT_BRACE "expected '}'.";
        mret statements
  end.

Definition parse_let_declaration : St Parser (list ast) :=
  _ ← parser_advance;
  check parser_consume TOKEN_IDENTIFIER "expected variable name after 'let'.";
  name ← previous_text;
  check parser_consume TOKEN_COLON "expected ':' after typed variable name.";
  check parser_consume TOKEN_IDENTIFIER "expected type name after ':'.";
  type ← previous_text;
  check parser_consume TOKEN_EQUALS "expected '=' after variable type.";
  value ←? parse_expression;
  mret [ast_create_typed_variable_declaration name type value].

Definition parse_asm_statement : St Parser (list ast) :=
  _ ← parser_advance;
  is_volatile ← current_is "volatile";
  _ ← (if (is_volatile : bool) then parser_advance else mret tt);
  check parser_consume TOKEN_LEFT_PAREN "expected '(' after asm or asm volatile.";
  check parser_consume TOKEN_STRING "expected an assembly template string.";
  assembly ← previous_text;
  check parser_consume TOKEN_RIGHT_PAREN "expected ')' after assembly template.";
  mret [ast_create_asm_statement assembly is_volatile].

(** * functions.c *)

Definition parameter_type : St Parser (option (option bytes)) :=
  colon ← parser_check TOKEN_COLON;
  if (colon : bool) then
    _ ← parser_advance;
    identifier ← parser_check TOKEN_IDENTIFIER;
    if (identifier : bool) then
      type ← current_text;
      _ ← parser_advance;
      mret (Some (Some type))
    else give_up_with (error_stderr "Parser error: expected parameter type after ':'.")
  else mret (Some None).

(** The [while] loop over the parameters, up to the closing parenthesis; a
    comma may end the list. *)
Fixpoint function_parameters (n : nat) (parameters : list bytes)
    (parameter_types : list (option bytes)) (count : nat)
  : St Parser (option (list bytes * list (option bytes) * nat)) :=
  match n with
  | O => stuck
  | S n =>
      close ← parser_check TOKEN_RIGHT_PAREN;
      if (close : bool) then mret (Some (parameters, parameter_types, count))
      else
        identifier ← parser_check TOKEN_IDENTIFIER;
        if (identifier : bool) then
          parameter ← current_text;
          _ ← parser_advance;
          type ←? parameter_type;
          let parameters := parameters ++ [parameter] in
          let parameter_types := parameter_types ++ [type] in
          let count := S count in
          close ← parser_check TOKEN_RIGHT_PAREN;
          if (close : bool) then mret (Some (parameters, parameter_types, count))
          else
            check parser_consume TOKEN_COMMA "expected ',' between parameters.";
            function_parameters n parameters parameter_types count
        else give_up_with (error_at_current "expected parameter name.")
  end.

Definition function_return_type : St Parser (option (option bytes)) :=
  minus ← parser_check TOKEN_MINUS;
  if (minus : bool) then
    _ ← parser_advance;
    check parser_consume TOKEN_GREATER "expected '>' after '-' in return type.";
    identifier ← parser_check TOKEN_IDENTIFIER;
    if (identifier : bool) then
      type ← current_text;
      _ ← parser_advance;
      mret (Some (Some type))
    else give_up_with (error_stderr "Parser error: expected function return type.")
  else mret (Some None).

(** The chain [body] returned by [parse_block] counts as a failure when it is
    empty, except at the end of the file. *)
Definition block_failed (body : list ast) : St Parser bool :=
  eof ← parser_check TOKEN_EOF;
  mret (is_null body && negb eof).

Definition parse_function (n : nat) : St Parser (list ast) :=
  _ ← parser_advance;
  identifier ← parser_check TOKEN_IDENTIFIER;
  if (identifier : bool) then
    name ← current_text;
    _ ← parser_advance;
    check parser_consume TOKEN_LEFT_PAREN "expected '(' after function name.";
    signature ←? function_parameters n [] [] 0;
    check parser_consume TOKEN_RIGHT_PAREN "expected ')' after parameters.";
    return_type ←? function_return_type;
    check parser_consume TOKEN_LEFT_BRACE "expected '{' before function body.";
    body ← parse_block n [];
    failed ← block_failed body;
    if (failed : bool) then mret []
    else
      let '(parameters, parameter_types, count) := signature in
      mret [ast_create_typed_function_declaration name parameters parameter_types count
              return_type body]
  else give_up_with (error_stderr "Parser error: expected function name.").

Definition parse_function_call (n : nat) (name : bytes) : St Parser (list ast) :=
  check parser_consume TOKEN_LEFT_PAREN "expected '(' after function name.";
  empty ← parser_check TOKEN_RIGHT_PAREN;
  list ←? (if (empty : bool) then mret (Some ([], 0))
           else call_arguments parse_expression n [] 0);
  check parser_consume TOKEN_RIGHT_PAREN "expected ')' after arguments.";
  mret [ast_create_function_call name list.1 list.2].

Fixpoint struct_fields (n : nat) (fields : list bytes) (field_count : nat)
  : St Parser (option (list bytes * nat)) :=
  match n with
  | O => stuck
  | S n =>
      identifier ← parser_check TOKEN_IDENTIFIER;
      if (identifier : bool) then
        field ← current_text;
        _ ← parser_advance;
        let fields := fields ++ [field] in
        let field_count := S field_count in
        close ← parser_check TOKEN_RIGHT_BRACE;
        if (close : bool) then mret (Some (fields, field_count))
        else
          check parser_consume TOKEN_COMMA "expected ',' between struct fields.";
          struct_fields n fields field_count
      else give_up_with (error_stdout "Parser error: expected struct field name.")
  end.

Definition parse_struct (n : nat) : St Parser (list ast) :=
  _ ← parser_advance;
  identifier ← parser_check TOKEN_IDENTIFIER;
  if (identifier : bool) then
    name ← current_text;
    _ ← parser_advance;
    check parser_consume TOKEN_LEFT_BRACE "expected '{' after struct name.";
    empty ← parser_check TOKEN_RIGHT_BRACE;
    fields ←? (if (empty : bool) then mret (Some ([], 0)) else struct_fields n [] 0);
    check parser_consume TOKEN_RIGHT_BRACE "expected '}' after struct definition.";
    mret [ast_create_struct_declaration name fields.1 fields.2]
  else give_up_with (error_stdout "Parser error: expected struct name.").

(** * control.c *)

(** What follows the then branch. *)
Definition else_branch (n : nat) : St Parser (option (list ast)) :=
  is_else ← current_is "else";
  if (is_else : bool) then
    _ ← parser_advance;
    is_if ← current_is "if";
    if (is_if : bool) then
      branch ← parse_statement;
      if is_null branch then mret None else mret (Some branch)
    else
      check parser_consume TOKEN_LEFT_BRACE "expected '{' or 'if' after else.";
      branch ← parse_block n [];
      failed ← block_failed branch;
      if (failed : bool) then mret None else mret (Some branch)
  else mret (Some []).

Definition parse_if (n : nat) : St Parser (list ast) :=
  _ ← parser_advance;
  condition ←? parse_expression;
  check parser_consume TOKEN_LEFT_BRACE "expected '{' after if condition.";
  then_branch ← parse_block n [];
  brace ← parser_check TOKEN_RIGHT_BRACE;
  eof ← parser_check TOKEN_EOF;
  if is_null then_branch && negb brace && negb eof then mret []
  else
    branch ←? else_branch n;
    mret [ast_create_if condition then_branch branch].

Definition parse_while (n : nat) : St Parser (list ast) :=
  _ ← parser_advance;
  condition ←? parse_expression;
  check parser_consume TOKEN_LEFT_BRACE "expected '{' after while condition.";
  body ← parse_block n [];
  failed ← block_failed body;
  if (failed : bool) then mret []
  else mret [ast_create_while condition body].

(** * loops.c *)

Definition parse_for (n : nat) : St Parser (list ast) :=
  _ ← parser_advance;
  identifier ← parser_check TOKEN_IDENTIFIER;
  if (identifier : bool) then
    loop_variable ← current_text;
    _ ← parser_advance;
    is_in ← current_is "in";
    if (is_in : bool) then
      _ ← parser_advance;
      iterable ←? parse_expression;
      check parser_consume TOKEN_LEFT_BRACE "expected '{' after for expression.";
      body ← parse_block n [];
      failed ← block_failed body;
      if (failed : bool) then mret []
      else
        _ ← modify (fun p => with_for_counter (S (for_counter p)) p);
        counter ← gets for_counter;
        mret (for_statements counter loop_variable iterable body)
    else give_up_with (error_stdout "Parser error: expected 'in' after for variable.")
  else give_up_with (error_stdout "Parser error: expected loop variable after for.").

(** * assignments.c *)

(** The indices and members that follow the name of an assignment target. *)
Fixpoint target_loop (n : nat) (target : ast) : St Parser (option ast) :=
  match n with
  | O => stuck
  | S n =>
      type ← gets (fun p => token_type (p_current p));
      match type with
      | TOKEN_LEFT_BRACKET =>
          _ ← parser_advance;
          index ← parse_expression;
          match index with
          | None => give_up_with (error_stdout "Parser error: expected array index.")
          | Some index =>
              check parser_consume TOKEN_RIGHT_BRACKET "expected ']' after array index.";
              target_loop n (ast_create_index target index)
          end
      | TOKEN_DOT =>
          _ ← parser_advance;
          identifier ← parser_check TOKEN_IDENTIFIER;
          if (identifier : bool) then
            member ← current_text;
            _ ← parser_advance;
            target_loop n (ast_create_member target member)
          else give_up_with (error_stdout "Parser error: expected member name after '.'.")
      | _ => mret (Some target)
      end
  end.

(** [target op value], from the operator on. *)
Definition assignment_tail (target : ast) : St Parser (list ast) :=
  operator ← gets (fun p => token_type (p_current p));
  if assignment_operator operator then
    _ ← parser_advance;
    value ←? parse_expression;
    if bool_decide (operator = TOKEN_EQUALS) then mret [assignment_node target value]
    else compound_assignment operator target value
  else
    token ← gets p_current;
    give_up_with (print_diagnostic Stdout (Some (token_line token, token_column token))
                    "expected assignment operator.").

Definition parse_identifier_statement (n : nat) : St Parser (list ast) :=
  name ← current_text;
  _ ← parser_advance;
  call ← parser_check TOKEN_LEFT_PAREN;
  if (call : bool) then parse_function_call n name
  else
    target ←? target_loop n (ast_create_variable name);
    call ← parser_check TOKEN_LEFT_PAREN;
    match call, target with
    | true, AST_MEMBER_EXPRESSION (AST_VARIABLE module_name) function_name =>
        parse_function_call n (qualified_name module_name function_name)
    | _, _ => assignment_tail target
    end.

Definition parse_dereference_statement : St Parser (list ast) :=
  _ ← parser_advance;
  operand ← parse_expression;
  match operand with
  | None => give_up_with (error_stdout "Parser error: expected reference after '*'.")
  | Some operand =>
      let target := ast_create_unary operand UNARY_DEREFERENCE in
      operator ← gets (fun p => token_type (p_current p));
      if assignment_operator operator then
        _ ← parser_advance;
        value ←? parse_expression;
        mret (dereference_assignment operator target value)
      else
        give_up_with
          (error_stdout "Parser error: expected assignment operator after dereference.")
  end.

(** * The rest of statements.c *)

Definition parse_unsafe_block (n : nat) : St Parser (list ast) :=
  _ ← parser_advance;
  is_fun ← current_is "fun";
  if (is_fun : bool) then
    function ← parse_function n;
    mret (mark_unsafe function)
  else
    check parser_consume TOKEN_LEFT_BRACE "expected '{' or 'fun' after unsafe.";
    statements ← parse_block n [];
    eof ← parser_check TOKEN_EOF;
    if is_null statements && eof then mret []
    else mret [ast_create_unsafe_block statements].

(** [if (parser_is_token(current, text)) m else k]. *)
Definition on_keyword (text : string) (m k : St Parser (list ast)) : St Parser (list ast) :=
  b ← current_is text;
  if (b : bool) then m else k.

Definition dispatch_statement (n : nat) : St Parser (list ast) :=
  on_keyword "unsafe" (parse_unsafe_block n) $
  on_keyword "asm" parse_asm_statement $
  on_keyword "let" parse_let_declaration $
  on_keyword "print" parse_print $
  on_keyword "return" parse_return $
  on_keyword "break" parse_break $
  on_keyword "continue" parse_continue $
  on_keyword "if" (parse_if n) $
  on_keyword "while" (parse_while n) $
  on_keyword "for" (parse_for n) $
  on_keyword "fun" (parse_function n) $
  on_keyword "struct" (parse_struct n) $
  type ← gets (fun p => token_type (p_current p));
  match type with
  | TOKEN_STAR => parse_dereference_statement
  | TOKEN_IDENTIFIER => parse_identifier_statement n
  | _ => give_up_with (error_at_current "expected a statement.")
  end.
End grammar.

Fixpoint parse_statement (n : nat) : St Parser (list ast) :=
  match n with
  | O => stuck
  | S n =>
      check parser_enter_nesting "statement";
      statement ← dispatch_statement (parse_expression n) (parse_statement n) n;
      failed ← gets nesting_failed;
      _ ← parser_leave_nesting;
      mret (if (failed : bool) then [] else statement)
  end.

(** * parser_parse of parser.c *)

Fixpoint parse_program (n : nat) (statements : list ast) : St Parser (option ast) :=
  match n with
  | O => stuck
  | S n =>
      eof ← parser_check TOKEN_EOF;
      if (eof : bool) then mret (Some (ast_create_program statements))
      else
        statement ← parse_statement n;
        if is_null statement then mret None
        else parse_program n (ast_append statements statement)
  end.

Definition parser_parse (n : nat) : St Parser (option ast) := parse_program n [].

(** * From a source file to its program *)

(** Enough budget for any run on a source of this length. *)
Definition parser_fuel (source : bytes) : nat := length source + 5.

Definition parse_source (counter : nat) (source : bytes) : outcome (option ast * Parser) :=
  match parser_init counter (lexer_init source) with
  | Done p => parser_parse (parser_fuel source) p
  | Fault => Fault
  | Stuck => Stuck
  end.
