(* ===== verification/ParserFacts.v ===== *)
(** ParserFacts: moving over the tokens. The token view of a parser, the
    relation [consumes] (these tokens are read between two views), the
    invariant [parser_ok] and its preservation [step], and the rules for the
    operations of Parser. *)

From S2P Require Import Prelude Clib Lexer LexerFacts LexerProps Ast Parser.

(** * Views *)

(** What the parser sees of its input. *)
Record View := { v_lexer : Lexer; v_current : Token; v_previous : Token }.

Definition view (p : Parser) : View :=
  {| v_lexer := p_lexer p; v_current := p_current p; v_previous := p_previous p |}.

Definition with_view (v : View) (p : Parser) : Parser :=
  with_tokens (v_lexer v) (v_current v) (v_previous v) p.

Definition v_source (v : View) : bytes := source (v_lexer v).
Definition v_type (v : View) : TokenType := token_type (v_current v).
Definition v_text (v : View) : bytes := token_text (v_source v) (v_current v).

(** A token as the grammar reads it: its kind and its text. *)
Abbreviation lexeme_t := (TokenType * bytes)%type.
Definition v_lexeme (v : View) : lexeme_t := (v_type v, v_text v).

Definition token_in (src : bytes) (t : Token) : Prop :=
  token_start t + token_length t <=
    (if decide (token_type t = TOKEN_EOF) then S (length src) else length src).

Record view_ok (v : View) : Prop := {
  ok_lexer : v_type v = TOKEN_EOF \/ in_source (v_lexer v);
  ok_current : token_in (v_source v) (v_current v);
  ok_previous : token_in (v_source v) (v_previous v)
}.

(** A bound on the tokens still to come, the current one included. *)
Definition v_remaining (v : View) : nat :=
  if decide (v_type v = TOKEN_EOF) then 0
  else S (length (v_source v) - current (v_lexer v)).

(** The view after [parser_advance]. *)
Definition v_next (v : View) : View :=
  {| v_lexer := (scan (v_lexer v)).2; v_current := (scan (v_lexer v)).1;
     v_previous := v_current v |}.

Lemma scan_token_in lx : in_source lx -> token_in (source lx) (scan lx).1.
Proof.
  intros Hin. pose proof (lexeme_point_in_source lx Hin) as Hp.
  rewrite scan_unfold. cbn [fst].
  destruct (lexeme (suffix (lexeme_point lx))) as [type n] eqn:E.
  pose proof E as Hb. apply lexeme_bounds in Hb as (Hn & Hle & Hone & _).
  pose proof (in_source_drop _ Hp) as Hd.
  change (source (lexeme_point lx)) with (source lx) in Hd.
  unfold token_in, token_of. cbn [fst snd token_start token_length token_type].
  destruct (decide (type = TOKEN_STRING)) as [->|Hs].
  - pose proof (string_lexeme_length _ _ E). specialize (Hle ltac:(done)).
    rewrite decide_False by done. lia.
  - case_decide as Ht; [rewrite (Hone Ht); lia|]. specialize (Hle Ht). lia.
Qed.

Lemma v_next_source v : v_source (v_next v) = v_source v.
Proof. apply scan_source. Qed.

Lemma v_next_ok v :
  view_ok v -> v_type v <> TOKEN_EOF ->
  view_ok (v_next v) /\ v_remaining (v_next v) < v_remaining v.
Proof.
  intros [[He|Hin] Hc Hp] Ht; [done|].
  pose proof (scan_scanned _ Hin) as (Hs & Hcur & Hin').
  split.
  - constructor; rewrite ?v_next_source; [|by apply scan_token_in|done].
    unfold v_type. cbn [v_next v_current v_lexer].
    destruct (decide (token_type (scan (v_lexer v)).1 = TOKEN_EOF)); auto.
  - unfold v_remaining. rewrite v_next_source, (decide_False (P := v_type v = TOKEN_EOF)) by done.
    case_decide as Hd; [lia|]. unfold v_type in Hd. cbn [v_next v_current v_lexer] in *.
    specialize (Hin' Hd). unfold in_source, v_source in *. rewrite scan_source in Hin'. lia.
Qed.

(** * Consuming tokens *)

(** From the first view, the tokens [ts] are read up to the second one. *)
Fixpoint consumes (ts : list lexeme_t) (v v' : View) : Prop :=
  match ts with
  | [] => v = v'
  | t :: ts => v_type v <> TOKEN_EOF /\ v_lexeme v = t /\ consumes ts (v_next v) v'
  end.

Lemma consumes_app ts1 ts2 v1 v2 v3 :
  consumes ts1 v1 v2 -> consumes ts2 v2 v3 -> consumes (ts1 ++ ts2) v1 v3.
Proof.
  revert v1. induction ts1 as [|t ts1 IH]; intros v1; cbn [consumes app].
  - by intros ->.
  - intros (? & ? & ?) ?. eauto.
Qed.

Lemma consumes_app_inv ts1 ts2 v1 v3 :
  consumes (ts1 ++ ts2) v1 v3 -> exists v2, consumes ts1 v1 v2 /\ consumes ts2 v2 v3.
Proof.
  revert v1. induction ts1 as [|t ts1 IH]; intros v1; cbn [consumes app].
  - eauto.
  - intros (? & ? & (v2 & ? & ?)%IH). eauto.
Qed.

(** One token, seen from the view. *)
Lemma consumes_one v : v_type v <> TOKEN_EOF -> consumes [v_lexeme v] v (v_next v).
Proof. by cbn. Qed.

Lemma consumes_ok ts v v' :
  consumes ts v v' -> view_ok v ->
  view_ok v' /\ v_source v' = v_source v /\ v_remaining v' + length ts <= v_remaining v.
Proof.
  revert v. induction ts as [|t ts IH]; intros v; cbn [consumes length].
  - intros -> ?. auto with lia.
  - intros (Ht & _ & Hc) Hok. destruct (v_next_ok v Hok Ht) as [Hok' Hlt].
    destruct (IH _ Hc Hok') as (? & Hs & ?). rewrite Hs, v_next_source. auto with lia.
Qed.

Lemma consumes_det ts v v1 v2 : consumes ts v v1 -> consumes ts v v2 -> v1 = v2.
Proof.
  revert v. induction ts as [|t ts IH]; intros v; cbn [consumes].
  - by intros <- <-.
  - intros (_ & _ & ?) (_ & _ & ?). eauto.
Qed.

(** * The invariant *)

Record parser_ok (p : Parser) : Prop := {
  ok_view : view_ok (view p);
  ok_nesting : nesting_depth p <= VNT_PARSER_MAX_NESTING;
  ok_operators : expression_operator_count p <= VNT_PARSER_MAX_EXPRESSION_OPERATORS
}.

Definition remaining (p : Parser) : nat := v_remaining (view p).

(** What every operation of the grammar keeps, whether it succeeds or gives
    up: the invariant, the source and both depths; the input only shrinks, a
    nesting failure is never forgotten, and nothing printed is taken back. *)
Record step (p p' : Parser) : Prop := {
  step_ok : parser_ok p';
  step_source : p_source p' = p_source p;
  step_remaining : remaining p' <= remaining p;
  step_nesting : nesting_depth p' = nesting_depth p;
  step_expression : expression_depth p' = expression_depth p;
  step_failed : nesting_failed p = true -> nesting_failed p' = true;
  step_counter : for_counter p <= for_counter p';
  step_output : exists ds, output p' = output p ++ ds
}.

Lemma step_refl p : parser_ok p -> step p p.
Proof. intros. constructor; auto. exists []. by rewrite app_nil_r. Qed.

Lemma step_trans p1 p2 p3 : step p1 p2 -> step p2 p3 -> step p1 p3.
Proof.
  intros [? ? ? ? ? ? ? [ds1 Hd1]] [? ? ? ? ? ? ? [ds2 Hd2]].
  constructor; eauto; try congruence; try lia.
  exists (ds1 ++ ds2). by rewrite Hd2, Hd1, app_assoc.
Qed.

Lemma step_print d p p' : step p p' -> step p (with_output d p').
Proof.
  intros [[? ? ?] ? ? ? ? ? ? [ds Hd]]. constructor; eauto; [by constructor|].
  exists (ds ++ [d]). cbn. by rewrite Hd, app_assoc.
Qed.

(** The parser after reading up to the view [v], [k] operators noted. *)
Definition moved_to (v : View) (k : nat) (p : Parser) : Parser :=
  with_expression (expression_depth p) (expression_operator_count p + k) (with_view v p).

Lemma moved_to_0 p : moved_to (view p) 0 p = p.
Proof. destruct p. unfold moved_to. cbn. by rewrite Nat.add_0_r. Qed.

Lemma moved_to_moved_to v1 k1 v2 k2 p :
  moved_to v2 k2 (moved_to v1 k1 p) = moved_to v2 (k1 + k2) p.
Proof. destruct p. unfold moved_to. cbn. by rewrite Nat.add_assoc. Qed.

Lemma view_moved_to v k p : view (moved_to v k p) = v.
Proof. by destruct v. Qed.

Lemma parser_ok_moved_to v k p ts :
  parser_ok p -> consumes ts (view p) v ->
  expression_operator_count p + k <= VNT_PARSER_MAX_EXPRESSION_OPERATORS ->
  parser_ok (moved_to v k p).
Proof.
  intros [Hv ? ?] Hc ?. apply consumes_ok in Hc as (Hok & _); [|done].
  by constructor; rewrite ?view_moved_to.
Qed.

Lemma step_moved_to v k p ts :
  parser_ok p -> consumes ts (view p) v ->
  expression_operator_count p + k <= VNT_PARSER_MAX_EXPRESSION_OPERATORS ->
  step p (moved_to v k p).
Proof.
  intros Hok Hc Hk. constructor; try done; [by eapply parser_ok_moved_to| | |].
  - by destruct (consumes_ok _ _ _ Hc (ok_view _ Hok)) as (_ & Hs & _).
  - unfold remaining. rewrite view_moved_to.
    pose proof (consumes_ok _ _ _ Hc (ok_view _ Hok)) as (_ & _ & ?). lia.
  - exists []. by rewrite app_nil_r.
Qed.

(** * Rules *)

Section rules.
Context {A B : Type} `{Null B}.
Implicit Types p : Parser.

Lemma wp_bind_null (m : St Parser (option A)) (k : A -> St Parser B) p Q :
  wp m p (fun o p' => match o with Some a => wp (k a) p' Q | None => Q null p' end) ->
  wp (bind_null m k) p Q.
Proof.
  intros Hm. apply wp_bind. eapply wp_mono; [exact Hm|]. by intros [a|] p'.
Qed.

Lemma wp_bind_check (m : St Parser bool) (k : St Parser B) p Q :
  wp m p (fun b p' => if b then wp k p' Q else Q null p') -> wp (bind_check m k) p Q.
Proof. intros Hm. apply wp_bind. eapply wp_mono; [exact Hm|]. by intros [] p'. Qed.
End rules.

(** [m] does nothing but print one line. *)
Definition prints (m : St Parser unit) : Prop := forall p, exists d, m p = Done (tt, with_output d p).

Lemma prints_diagnostic s pos msg : prints (print_diagnostic s pos msg).
Proof. intros p. eexists. reflexivity. Qed.
Lemma prints_current msg : prints (error_at_current msg).
Proof. intros p. eexists. reflexivity. Qed.
Lemma prints_stdout msg : prints (error_stdout msg).
Proof. intros p. eexists. reflexivity. Qed.
Lemma prints_stderr msg : prints (error_stderr msg).
Proof. intros p. eexists. reflexivity. Qed.
#[export] Hint Resolve prints_diagnostic prints_current prints_stdout prints_stderr : vnt.

Lemma wp_give_up {B} `{Null B} m p (Q : B -> Parser -> Prop) :
  prints m -> (forall d, Q null (with_output d p)) -> wp (give_up_with m) p Q.
Proof.
  intros Hm HQ. apply wp_bind. unfold wp. destruct (Hm p) as [d ->]. apply HQ.
Qed.

Lemma parser_advance_view p :
  parser_ok p -> token_type (p_current p) <> TOKEN_EOF ->
  parser_advance p = Done (tt, moved_to (v_next (view p)) 0 p).
Proof.
  intros Hok Ht. destruct (ok_lexer _ (ok_view _ Hok)) as [?|Hin]; [done|].
  unfold parser_advance. cbn in Hin. rewrite lexer_next_scan by done.
  destruct (scan (p_lexer p)) as [t lx] eqn:E. destruct p.
  unfold moved_to, with_view, v_next. cbn in *. by rewrite E, Nat.add_0_r.
Qed.

Lemma wp_advance p (Q : unit -> Parser -> Prop) :
  parser_ok p -> token_type (p_current p) <> TOKEN_EOF ->
  Q tt (moved_to (v_next (view p)) 0 p) -> wp parser_advance p Q.
Proof. intros. unfold wp. by rewrite parser_advance_view. Qed.

Lemma wp_consume type msg p (Q : bool -> Parser -> Prop) :
  parser_ok p -> type <> TOKEN_EOF ->
  (token_type (p_current p) = type -> Q true (moved_to (v_next (view p)) 0 p)) ->
  (forall d, Q false (with_output d p)) ->
  wp (parser_consume type msg) p Q.
Proof.
  intros Hok Ht Htrue Hfalse. apply wp_bind, wp_gets. case_bool_decide as Hc.
  - apply wp_bind, wp_advance; [done|by rewrite Hc|]. by apply wp_ret, Htrue.
  - apply wp_bind. unfold wp. cbn. apply Hfalse.
Qed.

Lemma wp_token_text t p (Q : bytes -> Parser -> Prop) :
  token_in (p_source p) t -> Q (token_text (p_source p) t) p ->
  wp (parser_token_to_string t) p Q.
Proof.
  intros Ht HQ. unfold wp, parser_token_to_string.
  unfold token_in in Ht.
  rewrite (proj2 (Nat.leb_le _ _)) by (case_decide; lia). done.
Qed.

Lemma wp_enter_nesting context p (Q : bool -> Parser -> Prop) :
  (nesting_failed p = true -> Q false p) ->
  (forall d, nesting_failed p = false -> VNT_PARSER_MAX_NESTING <= nesting_depth p ->
     Q false (with_output d (with_nesting (nesting_depth p) true p))) ->
  (nesting_failed p = false -> nesting_depth p < VNT_PARSER_MAX_NESTING ->
     Q true (with_nesting (S (nesting_depth p)) false p)) ->
  wp (parser_enter_nesting context) p Q.
Proof.
  intros Hf Hlimit Hok. apply wp_bind, wp_get. destruct (nesting_failed p) eqn:E.
  - by apply wp_ret, Hf.
  - destruct (Nat.leb_spec VNT_PARSER_MAX_NESTING (nesting_depth p)).
    + unfold wp. cbn. by apply Hlimit.
    + unfold wp. cbn. by apply Hok.
Qed.

Lemma wp_note_operator p (Q : bool -> Parser -> Prop) :
  (nesting_failed p = true -> Q false p) ->
  (forall d, nesting_failed p = false ->
     VNT_PARSER_MAX_EXPRESSION_OPERATORS <= expression_operator_count p ->
     Q false (with_output d (with_nesting (nesting_depth p) true p))) ->
  (nesting_failed p = false ->
     expression_operator_count p < VNT_PARSER_MAX_EXPRESSION_OPERATORS ->
     Q true (moved_to (view p) 1 p)) ->
  wp parser_note_expression_operator p Q.
Proof.
  intros Hf Hlimit Hok. apply wp_bind, wp_get. destruct (nesting_failed p) eqn:E.
  - by apply wp_ret, Hf.
  - destruct (Nat.leb_spec VNT_PARSER_MAX_EXPRESSION_OPERATORS (expression_operator_count p)).
    + unfold wp. cbn. by apply Hlimit.
    + unfold wp. cbn. specialize (Hok eq_refl H). unfold moved_to in Hok.
      destruct p. cbn in *. by rewrite Nat.add_1_r in Hok.
Qed.

(** Failing to enter a level, or to note an operator, is a step. *)
Lemma step_limit d p : parser_ok p -> step p (with_output d (with_nesting (nesting_depth p) true p)).
Proof.
  intros [? ? ?]. constructor; try done. by exists [d].
Qed.

(** Leaving the level that was entered. *)
Lemma leave_nesting_done p :
  parser_leave_nesting p = Done (tt, with_nesting (nesting_depth p - 1) (nesting_failed p) p).
Proof.
  unfold parser_leave_nesting. destruct p as [? ? ? d ? ? ? ? ?]. cbn.
  by destruct d.
Qed.

Lemma wp_leave_nesting p (Q : unit -> Parser -> Prop) :
  Q tt (with_nesting (nesting_depth p - 1) (nesting_failed p) p) ->
  wp parser_leave_nesting p Q.
Proof. intros. unfold wp. by rewrite leave_nesting_done. Qed.

(** A whole level: what was a step inside is one outside. *)
Lemma step_level p p' :
  parser_ok p -> nesting_failed p = false ->
  step (with_nesting (S (nesting_depth p)) false p) p' ->
  step p (with_nesting (nesting_depth p' - 1) (nesting_failed p') p').
Proof.
  intros [? ? ?] Hf [[? ? ?] ? ? Hn ? ? ? ?]. cbn in Hn.
  constructor; try done; [constructor; try done; cbn; lia|cbn; lia|].
  cbn. congruence.
Qed.

(** The level after a success inside it. *)
Lemma level_moved_to v k p :
  nesting_failed p = false ->
  let q := moved_to v k (with_nesting (S (nesting_depth p)) false p) in
  with_nesting (nesting_depth q - 1) (nesting_failed q) q = moved_to v k p.
Proof. intros Hf. destruct p. cbn in *. subst. unfold moved_to. cbn. by rewrite Nat.sub_0_r. Qed.

Lemma parser_ok_level p :
  parser_ok p -> nesting_depth p < VNT_PARSER_MAX_NESTING ->
  parser_ok (with_nesting (S (nesting_depth p)) false p).
Proof. intros [? ? ?] ?. by constructor. Qed.

(** * Reading tokens successfully *)

(** [q] is [p] after reading the tokens [ts] and noting [k] operators, and is
    otherwise unchanged: nothing printed, same depths. *)
Definition reached (p : Parser) (ts : list lexeme_t) (k : nat) (q : Parser) : Prop :=
  exists v, consumes ts (view p) v /\ q = moved_to v k p /\
            expression_operator_count p + k <= VNT_PARSER_MAX_EXPRESSION_OPERATORS.

Definition current_lexeme_text (p : Parser) : bytes := token_text (p_source p) (p_current p).

Lemma reached_refl p : parser_ok p -> reached p [] 0 p.
Proof.
  intros [? ? ?]. exists (view p). rewrite moved_to_0. split_and!; [done|done|lia].
Qed.

Lemma reached_trans p q r ts1 ts2 k1 k2 :
  reached p ts1 k1 q -> reached q ts2 k2 r -> reached p (ts1 ++ ts2) (k1 + k2) r.
Proof.
  intros (v1 & Hc1 & -> & Hk1) (v2 & Hc2 & -> & Hk2). exists v2.
  rewrite view_moved_to in Hc2. split_and!; [by eapply consumes_app|apply moved_to_moved_to|].
  cbn in Hk2. lia.
Qed.

Lemma reached_eq p ts ts' k k' q :
  reached p ts k q -> ts = ts' -> k = k' -> reached p ts' k' q.
Proof. by intros ? <- <-. Qed.

Lemma reached_ok p ts k q :
  parser_ok p -> reached p ts k q ->
  step p q /\ remaining q + length ts <= remaining p /\
  nesting_failed q = nesting_failed p /\
  expression_operator_count q = expression_operator_count p + k /\
  for_counter q = for_counter p /\ output q = output p.
Proof.
  intros Hok (v & Hc & -> & Hk). split_and!; try done; [by eapply step_moved_to|].
  unfold remaining. rewrite view_moved_to.
  pose proof (consumes_ok _ _ _ Hc (ok_view _ Hok)) as (_ & _ & ?). lia.
Qed.

Lemma reached_step p ts k q : parser_ok p -> reached p ts k q -> step p q.
Proof. intros. by eapply reached_ok. Qed.

Lemma reached_parser_ok p ts k q : parser_ok p -> reached p ts k q -> parser_ok q.
Proof. intros. by eapply step_ok, reached_step. Qed.

Lemma reached_remaining p ts k q :
  parser_ok p -> reached p ts k q -> remaining q + length ts <= remaining p.
Proof. intros. by eapply reached_ok. Qed.

Lemma reached_fields p ts k q :
  parser_ok p -> reached p ts k q ->
  nesting_depth q = nesting_depth p /\ expression_depth q = expression_depth p /\
  nesting_failed q = nesting_failed p.
Proof. intros Hok (v & _ & -> & _). done. Qed.

Lemma reached_operator p :
  expression_operator_count p < VNT_PARSER_MAX_EXPRESSION_OPERATORS ->
  reached p [] 1 (moved_to (view p) 1 p).
Proof. intros. exists (view p). split_and!; [done|done|lia]. Qed.

Lemma wp_advance_reached type p (Q : unit -> Parser -> Prop) :
  parser_ok p -> token_type (p_current p) = type -> type <> TOKEN_EOF ->
  (forall q, reached p [(type, current_lexeme_text p)] 0 q -> Q tt q) ->
  wp parser_advance p Q.
Proof.
  intros Hok <- Ht HQ. apply wp_advance; [done..|]. apply HQ.
  exists (v_next (view p)). destruct Hok. split_and!; [by apply consumes_one|done|lia].
Qed.

Lemma wp_consume_reached type msg p (Q : bool -> Parser -> Prop) :
  parser_ok p -> type <> TOKEN_EOF ->
  (forall q, reached p [(type, current_lexeme_text p)] 0 q -> Q true q) ->
  (forall d, Q false (with_output d p)) ->
  wp (parser_consume type msg) p Q.
Proof.
  intros Hok Ht Htrue Hfalse. apply wp_consume; [done..| |done]. intros Hc. apply Htrue.
  exists (v_next (view p)). destruct Hok. rewrite <- Hc in *.
  split_and!; [by apply consumes_one|done|lia].
Qed.

Lemma wp_current_text p (Q : bytes -> Parser -> Prop) :
  parser_ok p -> Q (current_lexeme_text p) p -> wp (parser_token_to_string (p_current p)) p Q.
Proof. intros [[? ? ?] ? ?] ?. by apply wp_token_text. Qed.

(** The length of the text of a token is the length of the token. *)
Lemma current_text_length p :
  parser_ok p -> token_type (p_current p) <> TOKEN_EOF ->
  length (current_lexeme_text p) = token_length (p_current p).
Proof.
  intros [[_ Hc _] _ _] Ht. unfold token_in in Hc. cbn in Hc. rewrite decide_False in Hc by done.
  unfold current_lexeme_text, token_text. rewrite length_take, length_drop.
  change (p_source p) with (v_source (view p)). lia.
Qed.

Lemma reached_count p ts k q :
  reached p ts k q -> expression_operator_count q = expression_operator_count p + k.
Proof. by intros (v & _ & -> & _). Qed.

Lemma reached_output p ts k q : reached p ts k q -> output q = output p.
Proof. by intros (v & _ & -> & _). Qed.

(** What is left of the expected tokens. *)
Lemma reached_consumes p ts1 k q ts2 v :
  reached p ts1 k q -> consumes (ts1 ++ ts2) (view p) v -> consumes ts2 (view q) v.
Proof.
  intros (v1 & Hc1 & -> & _) (v2 & Hc2 & Hc)%consumes_app_inv.
  rewrite view_moved_to. by rewrite (consumes_det _ _ _ _ Hc1 Hc2).
Qed.

Lemma reached_view p ts k q v : reached p ts k q -> consumes ts (view p) v -> view q = v.
Proof.
  intros Hr Hc. eapply (reached_consumes _ _ _ _ []) in Hr; [|by rewrite app_nil_r]. done.
Qed.

Lemma consumes_current type text ts p v :
  consumes ((type, text) :: ts) (view p) v ->
  token_type (p_current p) = type /\ current_lexeme_text p = text /\ type <> TOKEN_EOF.
Proof. intros (He & [= <- <-] & _). done. Qed.

(** Noting an operator before going on with [m]. *)
Lemma wp_bind_note {B} `{Null B} (m : St Parser B) p Q :
  parser_ok p -> (forall r, step p r -> Q null r) ->
  (forall q, reached p [] 1 q -> p_current q = p_current p -> wp m q Q) ->
  wp (bind_check parser_note_expression_operator m) p Q.
Proof.
  intros Hok Hfail Hm. apply wp_bind_check, wp_note_operator.
  - intros _. by apply Hfail, step_refl.
  - intros d _ _. by apply Hfail, step_limit.
  - intros _ Hk. apply Hm; [by apply reached_operator|done].
Qed.

(** The parser inside a level that [p] enters, and after leaving it. *)
Definition entered (p : Parser) : Parser := with_nesting (S (nesting_depth p)) false p.
Definition left_level (p : Parser) : Parser :=
  with_nesting (nesting_depth p - 1) (nesting_failed p) p.

Lemma reached_left_level p ts k q :
  nesting_failed p = false -> reached (entered p) ts k q -> reached p ts k (left_level q).
Proof.
  intros Hf (v & Hc & -> & Hk). exists v. split_and!; [done|by apply level_moved_to|done].
Qed.

Lemma step_left_level p q :
  parser_ok p -> nesting_failed p = false -> step (entered p) q -> step p (left_level q).
Proof. apply step_level. Qed.

Lemma wp_bind_enter {B} `{Null B} context (m : St Parser B) p Q :
  parser_ok p -> (forall r, step p r -> Q null r) ->
  (nesting_failed p = false -> nesting_depth p < VNT_PARSER_MAX_NESTING ->
   parser_ok (entered p) -> wp m (entered p) Q) ->
  wp (bind_check (parser_enter_nesting context) m) p Q.
Proof.
  intros Hok Hfail Hm. apply wp_bind_check, wp_enter_nesting.
  - intros _. by apply Hfail, step_refl.
  - intros d _ _. by apply Hfail, step_limit.
  - intros Hf Hlt. by apply Hm, parser_ok_level.
Qed.

Lemma wp_bind_leave {B} (m : St Parser B) p Q :
  wp m (left_level p) Q -> wp (parser_leave_nesting ≫= fun _ => m) p Q.
Proof. intros. by apply wp_bind, wp_leave_nesting. Qed.

(** The parser at the start of a file. *)
Lemma parser_init_ok counter src :
  exists p, parser_init counter (lexer_init src) = Done p /\ parser_ok p /\
    remaining p <= S (length src) /\ nesting_depth p = 0 /\ nesting_failed p = false /\
    expression_depth p = 0 /\ output p = [] /\ for_counter p = counter /\ p_source p = src.
Proof.
  set (p0 := {| p_lexer := lexer_init src; p_current := unknown_token;
                p_previous := unknown_token; nesting_depth := 0; nesting_failed := false;
                expression_depth := 0; expression_operator_count := 0; for_counter := counter;
                output := [] |}).
  assert (parser_ok p0) as Hok.
  { constructor; [|cbn; lia..]. constructor; [right; unfold in_source; cbn; lia|..];
      unfold token_in; cbn; lia. }
  pose proof (parser_advance_view p0 Hok ltac:(done)) as E.
  assert (consumes [v_lexeme (view p0)] (view p0) (v_next (view p0))) as Hc by by apply consumes_one.
  exists (moved_to (v_next (view p0)) 0 p0). split_and!; try done.
  - unfold parser_init. fold p0. by rewrite E.
  - by eapply parser_ok_moved_to; [done|exact Hc|apply Nat.le_0_l].
  - unfold remaining. rewrite view_moved_to.
    pose proof (consumes_ok _ _ _ Hc (ok_view _ Hok)) as (_ & _ & Hr). cbn [length] in Hr.
    assert (v_remaining (view p0) = S (length src - 0)) as E0 by done. lia.
  - apply (v_next_source (view p0)).
Qed.

(** The parser at the start of the text [src]. *)
Definition parser_at (src : bytes) : Parser :=
  match parser_init 0 (lexer_init src) with
  | Done p => p
  | _ => {| p_lexer := lexer_init src; p_current := unknown_token; p_previous := unknown_token;
            nesting_depth := 0; nesting_failed := false; expression_depth := 0;
            expression_operator_count := 0; for_counter := 0; output := [] |}
  end.

Lemma parser_at_ok src : parser_ok (parser_at src).
Proof.
  unfold parser_at. by destruct (parser_init_ok 0 src) as (p & -> & ? & _).
Qed.

(** [reach q]: the facts about a parser [q] reached from a good one. *)
Ltac reach q :=
  lazymatch goal with
  | Hr : reached ?p _ _ q, Hok : parser_ok ?p |- _ =>
      pose proof (reached_parser_ok _ _ _ _ Hok Hr);
      pose proof (reached_remaining _ _ _ _ Hok Hr);
      pose proof (reached_fields _ _ _ _ Hok Hr) as (? & ? & ?);
      pose proof (reached_count _ _ _ _ Hr);
      cbn [length] in *
  end.

(** Read one expected token. *)
Lemma wp_advance_expected type text ts p v (Q : unit -> Parser -> Prop) :
  parser_ok p -> consumes ((type, text) :: ts) (view p) v ->
  (forall q, reached p [(type, text)] 0 q -> consumes ts (view q) v -> Q tt q) ->
  wp parser_advance p Q.
Proof.
  intros Hok Hc HQ. pose proof (consumes_current _ _ _ _ _ Hc) as (Ht & Hx & He).
  apply (wp_advance_reached type); [done..|]. intros q Hq. rewrite Hx in Hq.
  apply HQ; [done|]. by eapply reached_consumes.
Qed.

Lemma wp_consume_expected type text msg ts p v (Q : bool -> Parser -> Prop) :
  parser_ok p -> consumes ((type, text) :: ts) (view p) v ->
  (forall q, reached p [(type, text)] 0 q -> consumes ts (view q) v -> Q true q) ->
  wp (parser_consume type msg) p Q.
Proof.
  intros Hok Hc HQ. pose proof (consumes_current _ _ _ _ _ Hc) as (Ht & _).
  apply wp_bind, wp_gets. rewrite bool_decide_eq_true_2 by done.
  apply wp_bind. eapply wp_advance_expected; [done..|]. intros q Hq Hc'. by apply wp_ret, HQ.
Qed.

Lemma wp_bind_note_room {B} `{Null B} (m : St Parser B) p Q :
  parser_ok p -> nesting_failed p = false ->
  expression_operator_count p < VNT_PARSER_MAX_EXPRESSION_OPERATORS ->
  (forall q, reached p [] 1 q -> wp m q Q) ->
  wp (bind_check parser_note_expression_operator m) p Q.
Proof.
  intros Hok Hf Hlt Hm. apply wp_bind_check, wp_note_operator; [congruence|lia|].
  intros _ ?. by apply Hm, reached_operator.
Qed.

Lemma wp_bind_enter_room {B} `{Null B} context (m : St Parser B) p Q :
  parser_ok p -> nesting_failed p = false -> nesting_depth p < VNT_PARSER_MAX_NESTING ->
  (parser_ok (entered p) -> wp m (entered p) Q) ->
  wp (bind_check (parser_enter_nesting context) m) p Q.
Proof.
  intros Hok Hf Hlt Hm. apply wp_bind_check, wp_enter_nesting; [congruence|lia|].
  intros _ _. by apply Hm, parser_ok_level.
Qed.

(** Chains of [reached] and [step] facts from one parser to the next. *)
Ltac steps :=
  lazymatch goal with
  | |- step _ (with_output _ _) => apply step_print; steps
  | |- step ?p ?p => apply step_refl; assumption
  | |- step ?p ?r =>
      first
        [ assumption
        | eapply reached_step; eassumption
        | match goal with
          | H : reached p _ _ ?q |- _ =>
              apply (step_trans p q r); [eapply reached_step; eassumption | steps]
          end
        | match goal with
          | H : step p ?q |- _ => apply (step_trans p q r); [exact H | steps]
          end ]
  end.

Ltac reaches :=
  lazymatch goal with
  | |- reached ?p _ _ ?p => apply reached_refl; assumption
  | |- reached ?p _ _ ?r =>
      first
        [ eassumption
        | match goal with
          | H : reached p _ _ ?q |- _ => eapply reached_trans; [exact H | reaches]
          end ]
  end.

(** The same tokens, up to the association of the parts. *)
Ltac reached_parts :=
  eapply reached_eq;
  [ reaches | cbn [app]; rewrite <- ?app_assoc; cbn [app]; rewrite ?app_nil_r; reflexivity | lia ].
