(* ===== verification/Grammar.v ===== *)
(** Grammar: the reference grammar of expressions, against which Expressions is
    proved. [derives l ts e k d]: at level [l] the tokens [ts] read as [e],
    with [k] operator nodes noted by the parser and [d] levels of nesting. *)

From S2P Require Import Prelude Clib Lexer Ast Parser Expressions ParserFacts.

(** The operators of the binary levels, from the loosest (1) to the tightest (6). *)
Definition level_operator (l : nat) (type : TokenType) : option BinaryOperator :=
  match l with
  | 1 => or_operator type
  | 2 => and_operator type
  | 3 => equality_operator type
  | 4 => comparison_operator type
  | 5 => addition_operator type
  | 6 => multiplication_operator type
  | _ => None
  end.

(** A minus sign and the magnitude of INT64_MIN are one literal, not an operator. *)
Definition starts_int64_min (operator : UnaryOperator) (ts : list lexeme_t) : bool :=
  match ts with
  | (TOKEN_INTEGER, text) :: _ =>
      bool_decide (operator = UNARY_NEGATE) && (0 <? length text) && (length text <? 64) &&
      is_int64_min_magnitude text
  | _ => false
  end.

(** Levels: 0 a whole expression, 1 to 6 the binary operators, 7 unary
    operators, 8 postfix operators, 9 primary expressions. *)
Inductive derives : nat -> list lexeme_t -> ast -> nat -> nat -> Prop :=
  | derives_expression ts e k d :
      derives 1 ts e k d -> derives 0 ts e k (S d)
  | derives_level l ts e k d :
      1 <= l <= 8 -> derives (S l) ts e k d -> derives l ts e k d
  | derives_binary l ts1 e1 k1 d1 type text operator ts2 e2 k2 d2 :
      level_operator l type = Some operator ->
      derives l ts1 e1 k1 d1 -> derives (S l) ts2 e2 k2 d2 ->
      derives l (ts1 ++ (type, text) :: ts2) (ast_create_binary e1 e2 operator)
        (k1 + S k2) (Nat.max d1 d2)
  | derives_unary type text operator ts e k d :
      unary_operator type = Some operator -> starts_int64_min operator ts = false ->
      derives 7 ts e k d ->
      derives 7 ((type, text) :: ts) (ast_create_unary e operator) k (S d)
  | derives_int64_min t text :
      starts_int64_min UNARY_NEGATE [(TOKEN_INTEGER, text)] = true ->
      derives 7 [(TOKEN_MINUS, t); (TOKEN_INTEGER, text)] (ast_create_integer INT64_MIN) 0 1
  | derives_index ts1 e1 k1 d1 t1 ts2 e2 k2 d2 t2 :
      derives 8 ts1 e1 k1 d1 -> derives 0 ts2 e2 k2 d2 ->
      derives 8 (ts1 ++ (TOKEN_LEFT_BRACKET, t1) :: ts2 ++ [(TOKEN_RIGHT_BRACKET, t2)])
        (ast_create_index e1 e2) (k1 + S k2) (Nat.max d1 d2)
  | derives_member ts e k d t member :
      derives 8 ts e k d ->
      derives 8 (ts ++ [(TOKEN_DOT, t); (TOKEN_IDENTIFIER, member)])
        (ast_create_member e member) (k + 1) d
  | derives_qualified_call ts1 module k1 d1 t1 function t2 ts2 es k2 d2 t3 :
      derives 8 ts1 (ast_create_variable module) k1 d1 -> derives_list ts2 es k2 d2 ->
      derives 8 (ts1 ++ (TOKEN_DOT, t1) :: (TOKEN_IDENTIFIER, function)
                 :: (TOKEN_LEFT_PAREN, t2) :: ts2 ++ [(TOKEN_RIGHT_PAREN, t3)])
        (ast_create_function_call (qualified_name module function) es (length es))
        (k1 + S k2) (Nat.max d1 d2)
  | derives_integer text value :
      length text < 64 -> integer_literal text = Some value ->
      derives 9 [(TOKEN_INTEGER, text)] (ast_create_integer value) 0 0
  | derives_float text :
      length text < 64 -> derives 9 [(TOKEN_FLOAT, text)] (ast_create_float (strtod text)) 0 0
  | derives_string text :
      derives 9 [(TOKEN_STRING, text)] (ast_create_string (decode_string text)) 0 0
  | derives_name name :
      derives 9 [(TOKEN_IDENTIFIER, name)] (primary_name name) 0 0
  | derives_call name t1 ts es k d t2 :
      derives_list ts es k d ->
      derives 9 ((TOKEN_IDENTIFIER, name) :: (TOKEN_LEFT_PAREN, t1) :: ts
                 ++ [(TOKEN_RIGHT_PAREN, t2)])
        (ast_create_function_call name es (length es)) k d
  | derives_array t1 ts es k d t2 :
      derives_list ts es k d ->
      derives 9 ((TOKEN_LEFT_BRACKET, t1) :: ts ++ [(TOKEN_RIGHT_BRACKET, t2)])
        (ast_create_array es (length es)) k d
  | derives_array_comma t1 ts es k d t t2 :
      es <> [] -> derives_list ts es k d ->
      derives 9 ((TOKEN_LEFT_BRACKET, t1) :: ts
                 ++ [(TOKEN_COMMA, t); (TOKEN_RIGHT_BRACKET, t2)])
        (ast_create_array es (length es)) k d
  | derives_parenthesis t1 ts e k d t2 :
      derives 0 ts e k d ->
      derives 9 ((TOKEN_LEFT_PAREN, t1) :: ts ++ [(TOKEN_RIGHT_PAREN, t2)]) e k d
with derives_list : list lexeme_t -> list ast -> nat -> nat -> Prop :=
  | derives_nil : derives_list [] [] 0 0
  | derives_one ts e k d : derives 0 ts e k d -> derives_list ts [e] k d
  | derives_more ts1 e1 k1 d1 t ts2 e2 es k2 d2 :
      derives 0 ts1 e1 k1 d1 -> derives_list ts2 (e2 :: es) k2 d2 ->
      derives_list (ts1 ++ (TOKEN_COMMA, t) :: ts2) (e1 :: e2 :: es) (k1 + k2) (Nat.max d1 d2).

Scheme derives_mut := Minimality for derives Sort Prop
  with derives_list_mut := Minimality for derives_list Sort Prop.
Combined Scheme derives_both from derives_mut, derives_list_mut.

(** * The first token *)

(** The test of the parser for the literal INT64_MIN. *)
Lemma wp_at_int64_min operator p (Q : bool -> Parser -> Prop) :
  parser_ok p ->
  Q (starts_int64_min operator [(token_type (p_current p), current_lexeme_text p)]) p ->
  wp (at_int64_min operator) p Q.
Proof.
  intros Hok HQ. apply wp_bind, wp_gets.
  destruct (decide (token_type (p_current p) = TOKEN_INTEGER)) as [Ht|Ht].
  - rewrite (bool_decide_eq_true_2 _ Ht), andb_true_r.
    rewrite Ht in HQ. cbn [starts_int64_min] in HQ.
    rewrite (current_text_length p Hok ltac:(by rewrite Ht)) in HQ.
    destruct (bool_decide (operator = UNARY_NEGATE) && (0 <? token_length (p_current p)) &&
              (token_length (p_current p) <? 64)); [|by apply wp_ret]. apply wp_bind, wp_current_text; [done|]. by apply wp_ret.
  - rewrite (bool_decide_eq_false_2 _ Ht), andb_false_r. apply wp_ret.
    by destruct (token_type (p_current p)).
Qed.

(** Tokens an expression can start with. *)
Definition starts_expression (type : TokenType) : bool :=
  match type with
  | TOKEN_INTEGER | TOKEN_FLOAT | TOKEN_STRING | TOKEN_LEFT_BRACKET | TOKEN_LEFT_PAREN
  | TOKEN_IDENTIFIER | TOKEN_BANG | TOKEN_MINUS | TOKEN_AMPERSAND | TOKEN_STAR => true
  | _ => false
  end.

Definition starts_with (f : TokenType -> bool) (ts : list lexeme_t) : Prop :=
  match ts with
  | (type, _) :: _ => f type = true
  | [] => False
  end.

Lemma starts_with_app f ts1 ts2 : starts_with f ts1 -> starts_with f (ts1 ++ ts2).
Proof. by destruct ts1 as [|[] ?]. Qed.

Lemma derives_starts :
  (forall l ts e k d, derives l ts e k d -> starts_with starts_expression ts) /\
  (forall ts es k d, derives_list ts es k d -> es <> [] -> starts_with starts_expression ts).
Proof.
  apply derives_both; intros; cbn [starts_with]; auto using starts_with_app; try done.
  by destruct type.
Qed.

Lemma derives_start l ts e k d : derives l ts e k d -> starts_with starts_expression ts.
Proof. apply derives_starts. Qed.

Lemma derives_nonempty l ts e k d : derives l ts e k d -> 0 < length ts.
Proof. intros H%derives_start. destruct ts; cbn in *; [done|lia]. Qed.

(** From level 8 on, the first token is not a unary operator; an integer read
    by the grammar is in range. *)
Definition starts_postfix (t : lexeme_t) : bool :=
  match t.1 with
  | TOKEN_INTEGER => bool_decide (is_Some (integer_literal t.2))
  | type => bool_decide (unary_operator type = None)
  end.

Lemma derives_starts_postfix l ts e k d :
  derives l ts e k d -> 8 <= l -> match ts with t :: _ => starts_postfix t = true | [] => False end.
Proof.
  intros H. induction H as [| | ? ? ? ? ? ? ? ? ? ? ? ? ? Hop| | | | | |? ? Hl Hv| | | | | | |];
    intros Hle; try lia; try done; auto.
  - apply IHderives. lia.
  - do 7 (destruct l as [|l]; [done || lia|]). done.
  - specialize (IHderives1 Hle). by destruct ts1.
  - specialize (IHderives Hle). by destruct ts.
  - specialize (IHderives Hle). by destruct ts1.
  - unfold starts_postfix. cbn. by rewrite Hv.
Qed.

(** From a tighter level to a looser one. *)
Lemma derives_lift l m ts e k d :
  1 <= l -> l <= m <= 9 -> derives m ts e k d -> derives l ts e k d.
Proof.
  intros Hl [Hlm Hm]. remember (m - l) as n eqn:Hn. revert l Hl Hlm Hn.
  induction n as [|n IH]; intros l Hl Hlm Hn H; [by replace l with m by lia|].
  apply derives_level; [lia|]. apply IH; [lia..|done].
Qed.

(** What may follow the elements of a list: nothing, or one more comma. *)
Definition no_tail (tl : list lexeme_t) : Prop := tl = [].
Definition comma_tail (tl : list lexeme_t) : Prop := tl = [] \/ exists t, tl = [(TOKEN_COMMA, t)].
