(* ===== verification/ExpressionsSound.v ===== *)
(** ExpressionsSound: running the parser on an expression ends within its
    budget and never reads outside of the source; when it succeeds, the tokens
    it has read derive the expression by the reference grammar. *)

From S2P Require Import Prelude Clib Lexer Ast Parser Expressions ParserFacts Grammar.

(** What a run at level [l] from [p] gives. *)
Definition yields (l : nat) (p : Parser) (o : option ast) (p' : Parser) : Prop :=
  match o with
  | None => step p p'
  | Some e => exists ts k d, derives l ts e k d /\ reached p ts k p' /\
                             nesting_depth p + d <= VNT_PARSER_MAX_NESTING
  end.

(** The same, going on at [p] with what was read since [base]. *)
Definition yields_more (l : nat) (base p : Parser) (o : option ast) (p' : Parser) : Prop :=
  yields l base o p' /\ (o <> None -> remaining p' < remaining p).

(** What the loop over a list of arguments gives; [tail] is what may follow. *)
Definition yields_list (tail : list lexeme_t -> Prop) (p : Parser) (acc : list ast) (count : nat)
    (o : option (list ast * nat)) (p' : Parser) : Prop :=
  match o with
  | None => step p p'
  | Some (es, c) => exists es' ts tl k d,
      es = acc ++ es' /\ c = count + length es' /\ es' <> [] /\ tail tl /\
      derives_list ts es' k d /\ reached p (ts ++ tl) k p' /\
      nesting_depth p + d <= VNT_PARSER_MAX_NESTING
  end.

Section sound.
Context (parse_expression : St Parser (option ast)) (budget : nat).
Hypothesis parse_expression_yields : forall p,
  parser_ok p -> 0 < expression_depth p -> remaining p < budget ->
  wp parse_expression p (yields 0 p).

(** Give up, from a parser that a chain of steps leads to. *)
Ltac fails := unfold yields_more; cbn; repeat (split; [|done]); steps.
Ltac gives_up := apply wp_give_up; [auto with vnt|intros ?; fails].
Ltac advances type := eapply (wp_advance_reached type); [done|done|done|];
  let q := fresh "q" in let Hq := fresh "Hq" in intros q Hq; reach q.
(** Run the parser of a whole expression. *)
Ltac expression e :=
  eapply wp_mono; [apply parse_expression_yields; [done|lia|lia]|];
  let q := fresh "q" in
  intros [e|] q; [intros (?ts & ?k & ?d & ?He & ?Hq & ?Hd); reach q|intros ?Hq; try fails].
(** Consume a token of a given kind, or give up. *)
Ltac consumes_token type :=
  apply wp_bind_check; apply (wp_consume_reached type);
  [done|done|let q := fresh "q" in let Hq := fresh "Hq" in intros q Hq; reach q
  |intros ?; fails].
(** Note an operator, or give up. *)
Ltac notes_operator :=
  apply wp_bind_note;
  [done|intros ? ?; fails
  |let q := fresh "q" in let Hq := fresh "Hq" in let Hc := fresh "Hcurrent" in
   intros q Hq Hc; reach q; try rewrite <- Hc in *].
(** Branch on the kind of the current token. *)
Ltac tests := apply wp_bind, wp_gets; case_bool_decide.

Lemma primary_integer_yields p :
  parser_ok p -> token_type (p_current p) = TOKEN_INTEGER ->
  wp (primary_integer (p_current p)) p (yields 9 p).
Proof.
  intros Hok Ht. unfold primary_integer.
  rewrite <- (current_text_length p Hok) by (by rewrite Ht).
  destruct (Nat.leb_spec 64 (length (current_lexeme_text p))); [gives_up|].
  apply wp_bind, wp_current_text; [done|].
  destruct (integer_literal _) as [value|] eqn:E; [|gives_up].
  apply wp_bind. advances TOKEN_INTEGER. apply wp_ret.
  do 3 eexists. split_and!; [by apply derives_integer|done|destruct Hok; lia].
Qed.

Lemma primary_float_yields p :
  parser_ok p -> token_type (p_current p) = TOKEN_FLOAT ->
  wp (primary_float (p_current p)) p (yields 9 p).
Proof.
  intros Hok Ht. unfold primary_float.
  rewrite <- (current_text_length p Hok) by (by rewrite Ht).
  destruct (Nat.leb_spec 64 (length (current_lexeme_text p))); [gives_up|].
  apply wp_bind, wp_current_text; [done|].
  apply wp_bind. advances TOKEN_FLOAT. apply wp_ret.
  do 3 eexists. split_and!; [by apply derives_float|done|destruct Hok; lia].
Qed.

Lemma primary_string_yields p :
  parser_ok p -> token_type (p_current p) = TOKEN_STRING ->
  wp (primary_string (p_current p)) p (yields 9 p).
Proof.
  intros Hok Ht. apply wp_bind, wp_current_text; [done|].
  apply wp_bind. advances TOKEN_STRING. apply wp_ret.
  do 3 eexists. split_and!; [by apply derives_string|done|destruct Hok; lia].
Qed.

Lemma array_elements_yields n : forall p es count,
  parser_ok p -> 0 < expression_depth p -> remaining p < budget -> remaining p < n ->
  wp (array_elements parse_expression n es count) p (yields_list comma_tail p es count).
Proof.
  induction n as [|n IH]; intros p es count Hok Hd Hb Hn; [lia|].
  apply wp_bind_null. expression e. tests.
  - apply wp_bind. advances TOKEN_COMMA. tests.
    + apply wp_ret. exists [e], ts, [(TOKEN_COMMA, current_lexeme_text q)], k, d.
      split_and!; [done|cbn; lia|done|right; eauto|by apply derives_one|reached_parts|done].
    + eapply wp_mono; [apply IH; [done|lia..]|].
      intros [[es' c]|] q'; [|intros ?; fails].
      intros (es2 & ts2 & tl & k2 & d2 & -> & -> & Hne & Htl & Hes & Hq' & Hd').
      destruct es2 as [|e2 es2]; [done|].
      exists (e :: e2 :: es2), (ts ++ (TOKEN_COMMA, current_lexeme_text q) :: ts2), tl, (k + k2),
        (Nat.max d d2).
      split_and!; [by rewrite <- app_assoc|cbn; lia|done|done| |reached_parts|lia].
      by apply derives_more.
  - apply wp_ret. exists [e], ts, [], k, d.
    split_and!; [done|cbn; lia|done|by left|by apply derives_one|by rewrite app_nil_r|done].
Qed.

Lemma primary_arguments_yields n : forall p es count,
  parser_ok p -> 0 < expression_depth p -> remaining p < budget -> remaining p < n ->
  wp (primary_arguments parse_expression n es count) p (yields_list no_tail p es count).
Proof.
  induction n as [|n IH]; intros p es count Hok Hd Hb Hn; [lia|].
  apply wp_bind_null. expression e. tests.
  - apply wp_bind. advances TOKEN_COMMA. tests; [gives_up|].
    eapply wp_mono; [apply IH; [done|lia..]|].
    intros [[es' c]|] q'; [|intros ?; fails].
    intros (es2 & ts2 & tl & k2 & d2 & -> & -> & Hne & -> & Hes & Hq' & Hd').
    destruct es2 as [|e2 es2]; [done|]. rewrite app_nil_r in Hq'.
    exists (e :: e2 :: es2), (ts ++ (TOKEN_COMMA, current_lexeme_text q) :: ts2), [], (k + k2),
      (Nat.max d d2).
    split_and!; [by rewrite <- app_assoc|cbn; lia|done|done| |reached_parts|lia].
    by apply derives_more.
  - apply wp_ret. exists [e], ts, [], k, d.
    split_and!; [done|cbn; lia|done|done|by apply derives_one|by rewrite app_nil_r|done].
Qed.

Lemma call_arguments_yields n : forall p es count,
  parser_ok p -> 0 < expression_depth p -> remaining p < budget -> remaining p < n ->
  wp (call_arguments parse_expression n es count) p (yields_list no_tail p es count).
Proof.
  induction n as [|n IH]; intros p es count Hok Hd Hb Hn; [lia|].
  apply wp_bind_null. expression e. tests.
  - apply wp_ret. exists [e], ts, [], k, d.
    split_and!; [done|cbn; lia|done|done|by apply derives_one|by rewrite app_nil_r|done].
  - consumes_token TOKEN_COMMA.
    eapply wp_mono; [apply IH; [done|lia..]|].
    intros [[es' c]|] q'; [|intros ?; fails].
    intros (es2 & ts2 & tl & k2 & d2 & -> & -> & Hne & -> & Hes & Hq' & Hd').
    destruct es2 as [|e2 es2]; [done|]. rewrite app_nil_r in Hq'.
    exists (e :: e2 :: es2), (ts ++ (TOKEN_COMMA, current_lexeme_text q) :: ts2), [], (k + k2),
      (Nat.max d d2).
    split_and!; [by rewrite <- app_assoc|cbn; lia|done|done| |reached_parts|lia].
    by apply derives_more.
Qed.

(** A list that may be empty, as its callers start it. *)
Definition yields_items (tail : list lexeme_t -> Prop) (p : Parser)
    (o : option (list ast * nat)) (p' : Parser) : Prop :=
  match o with
  | None => step p p'
  | Some (es, c) => exists ts tl k d,
      c = length es /\ tail tl /\ (es = [] -> tl = []) /\ derives_list ts es k d /\
      reached p (ts ++ tl) k p' /\ nesting_depth p + d <= VNT_PARSER_MAX_NESTING
  end.

Lemma items_yield tail p (empty : bool) (m : St Parser (option (list ast * nat))) :
  parser_ok p -> tail [] -> wp m p (yields_list tail p [] 0) ->
  wp (if empty then mret (Some ([], 0)) else m) p (yields_items tail p).
Proof.
  intros Hok Htl Hm. destruct empty.
  - apply wp_ret. exists [], [], 0, 0.
    split_and!; [done|done|done|constructor|by apply reached_refl|destruct Hok; lia].
  - eapply wp_mono; [exact Hm|]. intros [[es c]|] q; [|done].
    intros (es' & ts & tl & k & d & -> & -> & Hne & ? & ? & ? & ?). by exists ts, tl, k, d.
Qed.

Lemma primary_array_yields n p :
  parser_ok p -> 0 < expression_depth p -> remaining p <= budget -> remaining p <= n ->
  token_type (p_current p) = TOKEN_LEFT_BRACKET ->
  wp (primary_array parse_expression n) p (yields 9 p).
Proof.
  intros Hok Hdepth Hb Hn Ht. apply wp_bind. advances TOKEN_LEFT_BRACKET.
  apply wp_bind, wp_gets, wp_bind_null. eapply wp_mono.
  { apply (items_yield comma_tail); [done|by left|apply array_elements_yields; [done|lia..]]. }
  intros [[es c]|] q0; [|intros ?; fails].
  intros (ts & tl & k & d & -> & Htl & Hne & Hes & Hq0 & Hd). reach q0. tests; [|gives_up].
  apply wp_bind. advances TOKEN_RIGHT_BRACKET. apply wp_ret.
  destruct Htl as [->|[t ->]]; do 3 eexists.
  - split_and!; [by apply derives_array|reached_parts|lia].
  - split_and!; [eapply derives_array_comma; [|done]|reached_parts|lia].
    intros He. by specialize (Hne He).
Qed.

Lemma primary_parenthesis_yields p :
  parser_ok p -> 0 < expression_depth p -> remaining p <= budget ->
  token_type (p_current p) = TOKEN_LEFT_PAREN ->
  wp (primary_parenthesis parse_expression) p (yields 9 p).
Proof.
  intros Hok Hdepth Hb Ht. apply wp_bind. advances TOKEN_LEFT_PAREN.
  apply wp_bind_null. expression e. tests; [|gives_up].
  apply wp_bind. advances TOKEN_RIGHT_PAREN. apply wp_ret. do 3 eexists.
  split_and!; [by apply derives_parenthesis|reached_parts|lia].
Qed.

Lemma primary_identifier_yields n p :
  parser_ok p -> 0 < expression_depth p -> remaining p <= budget -> remaining p <= n ->
  token_type (p_current p) = TOKEN_IDENTIFIER ->
  wp (primary_identifier parse_expression n (p_current p)) p (yields 9 p).
Proof.
  intros Hok Hdepth Hb Hn Ht. apply wp_bind, wp_current_text; [done|].
  apply wp_bind. advances TOKEN_IDENTIFIER. tests.
  - apply wp_bind. advances TOKEN_LEFT_PAREN.
    apply wp_bind, wp_gets, wp_bind_null. eapply wp_mono.
    { apply (items_yield no_tail); [done|done|apply primary_arguments_yields; [done|lia..]]. }
    intros [[es c]|] q1; [|intros ?; fails].
    intros (ts & tl & k & d & -> & -> & Hne & Hes & Hq1 & Hd).
    rewrite app_nil_r in Hq1. reach q1. tests; [|gives_up].
    apply wp_bind. advances TOKEN_RIGHT_PAREN. apply wp_ret. do 3 eexists.
    split_and!; [by apply derives_call|reached_parts|lia].
  - apply wp_ret. do 3 eexists. split_and!; [apply derives_name|done|destruct Hok; lia].
Qed.

Lemma parse_primary_yields n p :
  parser_ok p -> 0 < expression_depth p -> remaining p <= budget -> remaining p <= n ->
  wp (parse_primary parse_expression n) p (yields 9 p).
Proof.
  intros Hok Hdepth Hb Hn. apply wp_bind, wp_gets.
  destruct (token_type (p_current p)) eqn:Ht;
    try (apply wp_give_up; [auto with vnt|intros; cbn; steps]).
  all: auto using primary_identifier_yields, primary_integer_yields, primary_float_yields,
    primary_string_yields, primary_parenthesis_yields, primary_array_yields.
Qed.

(** * Postfix operators *)

(** What an operation gives that reads on after the expression [e]. *)
Definition extends (l : nat) (base : Parser) (p : Parser) (e : ast)
    (m : St Parser (option ast)) : Prop :=
  forall ts k d, derives l ts e k d -> reached base ts k p ->
    nesting_depth base + d <= VNT_PARSER_MAX_NESTING -> wp m p (yields_more l base p).

Lemma postfix_index_yields base p e :
  parser_ok base -> parser_ok p -> 0 < expression_depth p -> remaining p <= budget ->
  token_type (p_current p) = TOKEN_LEFT_BRACKET ->
  extends 8 base p e (postfix_index parse_expression e).
Proof.
  intros Hb0 Hok Hdepth Hb Ht ts k d He Hr Hd. reach p.
  notes_operator. apply wp_bind. advances TOKEN_LEFT_BRACKET.
  apply wp_bind_null. expression index. tests; [|gives_up].
  apply wp_bind. advances TOKEN_RIGHT_BRACKET. apply wp_ret. split; [|lia]. do 3 eexists.
  split_and!; [by eapply derives_index|reached_parts|lia].
Qed.

Lemma postfix_call_yields n base p module function ts k d t1 :
  parser_ok base -> parser_ok p -> 0 < expression_depth p ->
  remaining p <= budget -> remaining p <= n ->
  token_type (p_current p) = TOKEN_LEFT_PAREN ->
  derives 8 ts (ast_create_variable module) k d ->
  reached base (ts ++ [(TOKEN_DOT, t1); (TOKEN_IDENTIFIER, function)]) (k + 1) p ->
  nesting_depth base + d <= VNT_PARSER_MAX_NESTING ->
  wp (postfix_call parse_expression n module function) p (yields_more 8 base p).
Proof.
  intros Hb0 Hok Hdepth Hb Hn Ht He Hr Hd. reach p.
  apply wp_bind. advances TOKEN_LEFT_PAREN.
  apply wp_bind, wp_gets, wp_bind_null. eapply wp_mono.
  { apply (items_yield no_tail); [done|done|apply call_arguments_yields; [done|lia..]]. }
  intros [[es c]|] q0; [|intros ?; fails].
  intros (ts2 & tl & k2 & d2 & -> & -> & Hne & Hes & Hq1 & Hd2).
  rewrite app_nil_r in Hq1. reach q0. consumes_token TOKEN_RIGHT_PAREN.
  apply wp_ret. split; [|lia]. do 3 eexists.
  split_and!; [by eapply derives_qualified_call|reached_parts|lia].
Qed.

Lemma postfix_member_yields n base p e :
  parser_ok base -> parser_ok p -> 0 < expression_depth p ->
  remaining p <= budget -> remaining p <= n ->
  token_type (p_current p) = TOKEN_DOT ->
  extends 8 base p e (postfix_member parse_expression n e).
Proof.
  intros Hb0 Hok Hdepth Hb Hn Ht ts k d He Hr Hd. reach p.
  notes_operator. apply wp_bind. advances TOKEN_DOT. tests; [|gives_up].
  apply wp_bind, wp_gets, wp_bind, wp_current_text; [done|].
  apply wp_bind. advances TOKEN_IDENTIFIER. apply wp_bind, wp_gets.
  set (member := wp (mret (Some (ast_create_member e (current_lexeme_text q0)))) q1
                   (yields_more 8 base p)).
  assert member as Hmember.
  { apply wp_ret. split; [|lia]. do 3 eexists.
    split_and!; [by eapply derives_member|reached_parts|lia]. }
  case_bool_decide; [|done]. destruct e; try exact Hmember.
  eapply wp_mono; [eapply (postfix_call_yields n base); try done; [lia|lia|lia|reached_parts]|].
  intros o q' [? Hlt]. split; [done|]. intros Ho. specialize (Hlt Ho). lia.
Qed.

Lemma postfix_loop_yields n : forall base p e ts k d,
  parser_ok base -> parser_ok p -> 0 < expression_depth p ->
  remaining p <= budget -> remaining p < n ->
  derives 8 ts e k d -> reached base ts k p -> nesting_depth base + d <= VNT_PARSER_MAX_NESTING ->
  wp (postfix_loop parse_expression n e) p (yields 8 base).
Proof.
  induction n as [|n IH]; intros base p e ts k d Hb0 Hok Hdepth Hb Hn He Hr Hd; [lia|].
  reach p. apply wp_bind, wp_gets.
  assert (forall m, extends 8 base p e m ->
    wp (bind_null m (postfix_loop parse_expression n)) p (yields 8 base)) as Hloop.
  { intros m Hm. apply wp_bind_null. eapply wp_mono; [by eapply (Hm ts k d)|].
    intros [e'|] q [Hy Hlt]; [|done]. specialize (Hlt ltac:(done)).
    destruct Hy as (ts' & k' & d' & He' & Hr' & Hd'). reach q.
    eapply (IH base q e'); done || lia. }
  assert (wp (mret (Some e)) p (yields 8 base)) as Hend by (apply wp_ret; by exists ts, k, d).
  destruct (token_type (p_current p)) eqn:Ht; try exact Hend.
  - apply Hloop, postfix_member_yields; done || lia.
  - apply Hloop, postfix_index_yields; done.
Qed.

Lemma parse_postfix_yields n p :
  parser_ok p -> 0 < expression_depth p -> remaining p <= budget -> remaining p < n ->
  wp (parse_postfix parse_expression n) p (yields 8 p).
Proof.
  intros Hok Hdepth Hb Hn. apply wp_bind_null. eapply wp_mono.
  { apply parse_primary_yields; done || lia. }
  intros [e|] q; [|done]. intros (ts & k & d & He & Hr & Hd). reach q.
  eapply postfix_loop_yields; try done; [lia..|]. apply derives_level; [lia|done].
Qed.

(** * Unary operators *)

Lemma parse_unary_yields n : forall p,
  parser_ok p -> 0 < expression_depth p -> remaining p <= budget -> S (remaining p) < n ->
  wp (parse_unary parse_expression n) p (yields 7 p).
Proof.
  induction n as [|n IH]; intros p Hok Hdepth Hb Hn; [lia|].
  apply wp_bind, wp_gets. destruct (unary_operator _) as [operator|] eqn:Hop.
  - apply wp_bind_enter; [done|done|]. intros Hfailed Hlimit Hok1.
    assert (0 < expression_depth (entered p)) as Hdepth1 by done.
    assert (remaining (entered p) = remaining p) as Hr1 by done.
    assert (nesting_depth (entered p) = S (nesting_depth p)) as Hn1 by done.
    apply wp_bind. eapply (wp_advance_reached (token_type (p_current (entered p))));
      [done|done|by intros E; cbn in E; rewrite E in Hop|]. intros q Hq. reach q.
    apply wp_bind, wp_at_int64_min; [done|].
    destruct (starts_int64_min _ _) eqn:Hmin.
    + assert (token_type (p_current q) = TOKEN_INTEGER) as Ht.
      { by destruct (token_type (p_current q)). }
      rewrite Ht in Hmin. assert (operator = UNARY_NEGATE) as ->.
      { cbn in Hmin. by destruct operator. }
      assert (token_type (p_current (entered p)) = TOKEN_MINUS) as Hminus.
      { cbn. by destruct (token_type (p_current p)). }
      rewrite Hminus in *. apply wp_bind. advances TOKEN_INTEGER.
      apply wp_bind_leave, wp_ret. do 3 eexists. split_and!.
      * by apply derives_int64_min.
      * apply reached_left_level; [done|]. reached_parts.
      * lia.
    + apply wp_bind. eapply wp_mono; [apply IH; done || lia|]. intros o q1 Hy.
      apply wp_bind_leave. destruct o as [e|]; apply wp_ret; cbn in Hy |- *.
      * destruct Hy as (ts & k & d & He & Hq1 & Hd). do 3 eexists. split_and!.
        -- eapply derives_unary; [done| |done]. pose proof (derives_nonempty _ _ _ _ _ He).
           destruct ts as [|[type text] ts]; [cbn in *; lia|].
           destruct Hq1 as (v & (_ & [= <- <-] & _) & _). done.
        -- apply reached_left_level; [done|]. reached_parts.
        -- lia.
      * apply step_left_level; [done..|]. steps.
  - eapply wp_mono; [apply parse_postfix_yields; done || lia|].
    intros [e|] q; [|done]. intros (ts & k & d & He & Hr & Hd).
    exists ts, k, d. split_and!; [apply derives_level; [lia|done]|done..].
Qed.

(** * Binary operators *)

Section level.
Context (l : nat) (parse_operand : St Parser (option ast)) (bound : nat).
Hypothesis l_binary : 1 <= l <= 6.
Hypothesis parse_operand_yields : forall p,
  parser_ok p -> 0 < expression_depth p -> remaining p <= bound ->
  wp parse_operand p (yields (S l) p).

Lemma binary_loop_yields n : forall base p e ts k d,
  parser_ok base -> parser_ok p -> 0 < expression_depth p ->
  remaining p <= bound -> remaining p < n ->
  derives l ts e k d -> reached base ts k p ->
  nesting_depth base + d <= VNT_PARSER_MAX_NESTING ->
  wp (binary_loop (level_operator l) parse_operand n e) p (yields l base).
Proof.
  induction n as [|n IH]; intros base p e ts k d Hb0 Hok Hdepth Hb Hn He Hr Hd; [lia|].
  reach p. apply wp_bind, wp_gets. destruct (level_operator _ _) as [operator|] eqn:Hop.
  - apply wp_bind. eapply (wp_advance_reached (token_type (p_current p)));
      [done|done|intros E; rewrite E in Hop; by destruct l as [|[|[|[|[|[|[]]]]]]]|].
    intros q Hq. reach q. notes_operator.
    apply wp_bind_null. eapply wp_mono; [apply parse_operand_yields; done || lia|].
    intros [e2|] q1; [|intros ?; fails]. intros (ts2 & k2 & d2 & He2 & Hq1 & Hd2). reach q1.
    apply (IH base q1 _ (ts ++ (token_type (p_current p), current_lexeme_text p) :: ts2)
              (k + S k2) (Nat.max d d2)); try done; [lia|lia|lia| |reached_parts|lia].
    by apply derives_binary.
  - apply wp_ret. by exists ts, k, d.
Qed.

Lemma binary_level_yields n p :
  parser_ok p -> 0 < expression_depth p -> remaining p <= bound -> remaining p < n ->
  wp (bind_null parse_operand (binary_loop (level_operator l) parse_operand n)) p (yields l p).
Proof.
  intros Hok Hdepth Hb Hn. apply wp_bind_null.
  eapply wp_mono; [apply parse_operand_yields; done || lia|].
  intros [e|] q; [|done]. intros (ts & k & d & He & Hq & Hd). reach q.
  eapply (binary_loop_yields n p q); try done; [lia..|]. apply derives_level; [lia|done].
Qed.
End level.

(** Down one level of binary operators. *)
Ltac level l p :=
  match goal with
  | bound := _ |- wp _ p _ =>
      apply (binary_level_yields l _ bound); [lia| |done|done|lia|lia];
      clear dependent p; intros p Hok Hdepth Hb
  end.

Lemma parse_or_yields n p :
  parser_ok p -> 0 < expression_depth p -> remaining p <= budget -> S (remaining p) < n ->
  wp (parse_or parse_expression n) p (yields 1 p).
Proof.
  intros Hok Hdepth Hb Hn.
  set (bound := budget `min` (n - 2)). assert (2 <= n) by lia.
  level 1 p. level 2 p. level 3 p. level 4 p. level 5 p. level 6 p.
  apply parse_unary_yields; done || lia.
Qed.
End sound.

(** * A whole expression *)

(** The counter of operators restarts with an outermost expression. *)
Definition started (p : Parser) : Parser :=
  if expression_depth p =? 0 then with_expression 0 0 p else p.

Definition yields_expression (p : Parser) (o : option ast) (p' : Parser) : Prop :=
  yields 0 (started p) o p' /\ (o <> None -> nesting_failed p = false).

Lemma started_inner p : 0 < expression_depth p -> started p = p.
Proof. intros. unfold started. by destruct (Nat.eqb_spec (expression_depth p) 0); [lia|]. Qed.

Lemma started_ok p : parser_ok p -> parser_ok (started p) /\ step p (started p).
Proof.
  intros Hok. unfold started. destruct (Nat.eqb_spec (expression_depth p) 0) as [E|_].
  - assert (parser_ok (with_expression 0 0 p)) as Hok'.
    { destruct Hok. by constructor; [..|cbn; lia]. }
    split; [done|]. constructor; try done. by exists []; rewrite app_nil_r.
  - split; [done|by apply step_refl].
Qed.

(** The parser inside the body of an expression, and after it. *)
Definition inside_expression (p : Parser) : Parser :=
  with_expression (S (expression_depth p)) (expression_operator_count p) (entered p).
Definition outside_expression (p : Parser) : Parser :=
  left_level (with_expression (Nat.pred (expression_depth p)) (expression_operator_count p) p).

Lemma reached_outside p ts k q :
  nesting_failed p = false -> reached (inside_expression p) ts k q ->
  reached p ts k (outside_expression q).
Proof.
  intros Hf (v & Hc & -> & Hk). exists v. split_and!; [done| |done].
  destruct p. cbn in *. subst. unfold outside_expression, left_level, moved_to. cbn.
  by rewrite Nat.sub_0_r.
Qed.

Lemma step_outside p q :
  parser_ok p -> nesting_failed p = false -> step (inside_expression p) q ->
  step p (outside_expression q).
Proof.
  intros [? ? ?] Hf [[? ? ?] ? ? Hn He ? ? ?]. cbn in Hn, He.
  constructor; try done; [constructor; try done; cbn; lia|cbn; lia|cbn; lia|].
  cbn. congruence.
Qed.

Lemma parse_expression_yields n : forall p,
  parser_ok p -> remaining p + 3 <= n -> wp (parse_expression n) p (yields_expression p).
Proof.
  induction n as [|n IH]; intros p Hok Hn; [lia|].
  apply wp_bind. unfold start_expression. apply wp_modify.
  change (if expression_depth p =? 0 then with_expression 0 0 p else p) with (started p).
  pose proof (started_ok p Hok) as [Hok0 Hstep].
  pose proof (step_remaining _ _ Hstep) as Hr0.
  assert (nesting_failed (started p) = nesting_failed p) as Hnf.
  { unfold started. by destruct (_ =? _). }
  apply wp_bind_enter; [done|done|]. intros Hf Hlt Hok1.
  apply wp_bind. unfold change_expression_depth. apply wp_modify.
  lazymatch goal with |- wp _ ?q _ => change q with (inside_expression (started p)) end.
  set (q0 := started p) in *.
  assert (parser_ok (inside_expression q0)) as Hok2 by (destruct Hok1; by constructor).
  apply wp_bind. eapply wp_mono.
  { apply (parse_or_yields (parse_expression n) (n - 2)).
    - intros q Hq Hd Hb. eapply wp_mono; [apply IH; [done|lia]|].
      intros o q' [Hy _]. by rewrite started_inner in Hy.
    - done.
    - cbn. lia.
    - change (remaining (inside_expression q0)) with (remaining q0). lia.
    - change (remaining (inside_expression q0)) with (remaining q0). lia. }
  intros o q Hy. apply wp_bind. unfold change_expression_depth. apply wp_modify.
  apply wp_bind_leave.
  lazymatch goal with |- wp _ ?r _ => change r with (outside_expression q) end.
  apply wp_bind, wp_gets. destruct o as [e|].
  - destruct Hy as (ts & k & d & He & Hq & Hd).
    assert (nesting_failed (outside_expression q) = false) as ->.
    { by destruct (reached_fields _ _ _ _ Hok2 Hq) as (_ & _ & ?). }
    apply wp_ret. split; [|by rewrite <- Hnf]. exists ts, k, (S d).
    split_and!; [by apply derives_expression|by apply reached_outside|].
    change (nesting_depth (inside_expression q0)) with (S (nesting_depth q0)) in Hd.
    change (started p) with q0. lia.
  - cbn in Hy. assert (yields_expression p None (outside_expression q)).
    { split; [|done]. change (started p) with q0. by apply step_outside. }
    by destruct (nesting_failed (outside_expression q)); apply wp_ret.
Qed.
