(* ===== verification/ExpressionsComplete.v ===== *)
(** ExpressionsComplete: the converse of ExpressionsSound. Tokens that derive
    an expression are parsed to it, provided that the limits on operators and
    nesting are respected and that the next token does not go on the
    expression. *)

From S2P Require Import Prelude Clib Lexer Ast Parser Expressions ParserFacts Grammar.
From S2P Require Import ExpressionsSound.

(** Tokens that end an expression read at a level: at levels 8 and 9 all but an
    opening parenthesis (it would make a name a call), at level 7 all but the
    postfix operators too, below also all but the operators of the tighter
    levels. *)
Definition ends (l : nat) (type : TokenType) : bool :=
  negb (bool_decide (type = TOKEN_LEFT_PAREN)) &&
  ((8 <=? l) ||
   negb (bool_decide (type = TOKEN_LEFT_BRACKET)) && negb (bool_decide (type = TOKEN_DOT))) &&
  forallb (fun l' => (l' <=? l) || bool_decide (level_operator l' type = None)) [1; 2; 3; 4; 5; 6].

Definition room (p : Parser) (k d : nat) : Prop :=
  expression_operator_count p + k <= VNT_PARSER_MAX_EXPRESSION_OPERATORS /\
  nesting_depth p + d <= VNT_PARSER_MAX_NESTING.

Lemma ends_S l type : l <= 7 -> ends l type = true -> ends (S l) type = true.
Proof.
  intros Hl. do 8 (destruct l as [|l]; [by destruct type|]). lia.
Qed.

Lemma ends_operator l type : l <= 5 -> ends l type = true -> level_operator (S l) type = None.
Proof.
  intros Hl. do 6 (destruct l as [|l]; [by destruct type|]). lia.
Qed.

(** An operator of a level ends the operand on its left. *)
Lemma operator_ends l type operator : level_operator l type = Some operator -> ends l type = true.
Proof. do 7 (destruct l as [|l]; [by destruct type|]). done. Qed.

Section complete.
Context (parse_expression : St Parser (option ast)) (budget : nat).

(** A run of [m] that reads [ts] as [e] and goes on with [Q]. *)
Definition parses (m : St Parser (option ast)) (p : Parser) (ts : list lexeme_t)
    (k : nat) (e : ast) : Prop :=
  forall Q, (forall q, reached p ts k q -> Q (Some e) q) -> wp m p Q.

Hypothesis parse_expression_parses : forall p ts e k d v,
  parser_ok p -> 0 < expression_depth p -> remaining p < budget ->
  nesting_failed p = false -> room p k d ->
  derives 0 ts e k d -> consumes ts (view p) v -> ends 0 (v_type v) = true ->
  parses parse_expression p ts k e.

(** Read the expected token. *)
Ltac expects :=
  eapply wp_advance_expected; [done|eassumption|];
  let q := fresh "q" in let Hq := fresh "Hq" in let Hc := fresh "Hc" in
  intros q Hq Hc; reach q.
(** The kind of the next token is known. *)
Ltac next_token :=
  cbn [app] in *;
  match goal with
  | H : consumes ((_, _) :: _) (view ?q) _ |- wp _ ?q _ =>
      pose proof (consumes_current _ _ _ _ _ H) as (? & ? & _)
  end.
Ltac tests := apply wp_bind, wp_gets; next_token; case_bool_decide; [|congruence].
Ltac tests_not := apply wp_bind, wp_gets; case_bool_decide; [congruence|].

(** Read an expected expression, [rest] tokens being expected after it. *)
Lemma wp_expression p ts e k d rest v (Q : option ast -> Parser -> Prop) :
  derives 0 ts e k d -> consumes (ts ++ rest) (view p) v ->
  match rest with [] => ends 0 (v_type v) = true | t :: _ => ends 0 t.1 = true end ->
  parser_ok p -> 0 < expression_depth p -> remaining p < budget ->
  nesting_failed p = false -> room p k d ->
  (forall q, reached p ts k q -> consumes rest (view q) v -> Q (Some e) q) ->
  wp parse_expression p Q.
Proof.
  intros He Hc Hend Hok Hd Hb Hf Hroom HQ.
  apply consumes_app_inv in Hc as (v1 & Hc1 & Hc2).
  eapply parse_expression_parses; [done..| |].
  - destruct rest as [|t rest]; [by rewrite Hc2|]. by destruct Hc2 as (_ & <- & _).
  - intros q Hq. apply HQ; [done|]. by rewrite (reached_view _ _ _ _ _ Hq Hc1).
Qed.

(** The first token of a list does not close it. *)
Lemma not_closing ts e es k d p rest close v :
  derives_list ts (e :: es) k d -> consumes (ts ++ rest) (view p) v ->
  close = TOKEN_RIGHT_PAREN \/ close = TOKEN_RIGHT_BRACKET ->
  bool_decide (token_type (p_current p) = close) = false.
Proof.
  intros Hes Hc Hclose. apply bool_decide_eq_false_2. intros Ht.
  destruct derives_starts as [_ Hs]. specialize (Hs _ _ _ _ Hes ltac:(done)).
  destruct ts as [|[type text] ts]; [done|].
  pose proof (consumes_current _ _ _ _ _ Hc) as (Ht' & _). rewrite Ht' in Ht. subst type.
  by destruct Hclose as [-> | ->].
Qed.

Lemma array_elements_parses tl ts es k d :
  derives_list ts es k d -> es <> [] -> comma_tail tl -> forall n p acc count t v Q,
  parser_ok p -> 0 < expression_depth p -> remaining p < budget -> remaining p < n ->
  nesting_failed p = false -> room p k d ->
  consumes (ts ++ tl ++ [(TOKEN_RIGHT_BRACKET, t)]) (view p) v ->
  (forall q, reached p (ts ++ tl) k q -> consumes [(TOKEN_RIGHT_BRACKET, t)] (view q) v ->
   Q (Some (acc ++ es, count + length es)) q) ->
  wp (array_elements parse_expression n acc count) p Q.
Proof.
  intros H Hne Htl. induction H as [|ts e k d He|ts e k d ct ts2 e2 es k2 d2 He Hes IH];
    intros n p acc count t v Q Hok Hd Hb Hn Hf [Hk Hnd] Hc HQ; [done|..];
    (destruct n as [|n]; [lia|]); apply wp_bind_null.
  - eapply wp_expression; [done|exact Hc|by destruct Htl as [->|[? ->]]|done..|].
    intros q Hq Hc1. reach q. destruct Htl as [->|[ct ->]].
    + apply wp_bind, wp_gets. next_token. case_bool_decide; [congruence|].
      apply wp_ret. rewrite Nat.add_1_r in HQ. apply HQ; [by rewrite app_nil_r|done].
    + tests. apply wp_bind. expects. tests. apply wp_ret. rewrite Nat.add_1_r in HQ.
      apply HQ; [reached_parts|done].
  - rewrite <- app_assoc in Hc. cbn [app] in Hc.
    eapply wp_expression; [done|exact Hc|done|done..|split; lia|].
    intros q Hq Hc1. reach q. tests. apply wp_bind. expects.
    apply wp_bind, wp_gets.
    rewrite (not_closing _ _ _ _ _ _ _ TOKEN_RIGHT_BRACKET _ Hes Hc0) by auto.
    eapply IH; [done..|lia|lia|lia|congruence|split; lia|exact Hc0|].
    intros q1 Hq1 Hc2. reach q1. rewrite <- app_assoc in HQ |- *. cbn [length app] in HQ |- *.
    rewrite <- Nat.add_succ_comm in HQ. apply HQ; [|done]. reached_parts.
Qed.

Lemma primary_arguments_parses ts es k d :
  derives_list ts es k d -> es <> [] -> forall n p acc count t v Q,
  parser_ok p -> 0 < expression_depth p -> remaining p < budget -> remaining p < n ->
  nesting_failed p = false -> room p k d ->
  consumes (ts ++ [(TOKEN_RIGHT_PAREN, t)]) (view p) v ->
  (forall q, reached p ts k q -> consumes [(TOKEN_RIGHT_PAREN, t)] (view q) v ->
   Q (Some (acc ++ es, count + length es)) q) ->
  wp (primary_arguments parse_expression n acc count) p Q.
Proof.
  intros H Hne. induction H as [|ts e k d He|ts e k d ct ts2 e2 es k2 d2 He Hes IH];
    intros n p acc count t v Q Hok Hd Hb Hn Hf [Hk Hnd] Hc HQ; [done|..];
    (destruct n as [|n]; [lia|]); apply wp_bind_null.
  - eapply wp_expression; [done|exact Hc|done|done..|].
    intros q Hq Hc1. reach q. apply wp_bind, wp_gets. next_token.
    case_bool_decide; [congruence|]. apply wp_ret. rewrite Nat.add_1_r in HQ. by apply HQ.
  - rewrite <- app_assoc in Hc. cbn [app] in Hc.
    eapply wp_expression; [done|exact Hc|done|done..|split; lia|].
    intros q Hq Hc1. reach q. tests. apply wp_bind. expects.
    apply wp_bind, wp_gets. rewrite (not_closing _ _ _ _ _ _ _ TOKEN_RIGHT_PAREN _ Hes Hc0) by auto.
    eapply IH; [done..|lia|lia|lia|congruence|split; lia|exact Hc0|].
    intros q1 Hq1 Hc2. reach q1. rewrite <- app_assoc. cbn [length app] in HQ |- *.
    rewrite <- Nat.add_succ_comm in HQ. apply HQ; [|done]. reached_parts.
Qed.

Lemma call_arguments_parses ts es k d :
  derives_list ts es k d -> es <> [] -> forall n p acc count t v Q,
  parser_ok p -> 0 < expression_depth p -> remaining p < budget -> remaining p < n ->
  nesting_failed p = false -> room p k d ->
  consumes (ts ++ [(TOKEN_RIGHT_PAREN, t)]) (view p) v ->
  (forall q, reached p ts k q -> consumes [(TOKEN_RIGHT_PAREN, t)] (view q) v ->
   Q (Some (acc ++ es, count + length es)) q) ->
  wp (call_arguments parse_expression n acc count) p Q.
Proof.
  intros H Hne. induction H as [|ts e k d He|ts e k d ct ts2 e2 es k2 d2 He Hes IH];
    intros n p acc count t v Q Hok Hd Hb Hn Hf [Hk Hnd] Hc HQ; [done|..];
    (destruct n as [|n]; [lia|]); apply wp_bind_null.
  - eapply wp_expression; [done|exact Hc|done|done..|].
    intros q Hq Hc1. reach q. tests. apply wp_ret. rewrite Nat.add_1_r in HQ. by apply HQ.
  - rewrite <- app_assoc in Hc. cbn [app] in Hc.
    eapply wp_expression; [done|exact Hc|done|done..|split; lia|].
    intros q Hq Hc1. reach q. next_token. apply wp_bind, wp_gets.
    case_bool_decide; [congruence|]. apply wp_bind_check.
    eapply wp_consume_expected; [done|exact Hc1|]. intros q0 Hq0 Hc0. reach q0.
    eapply IH; [done..|lia|lia|lia|congruence|split; lia|exact Hc0|].
    intros q1 Hq1 Hc2. reach q1. rewrite <- app_assoc. cbn [length app] in HQ |- *.
    rewrite <- Nat.add_succ_comm in HQ. apply HQ; [|done]. reached_parts.
Qed.

(** A list that may be empty, at the place where its callers test for it. *)
Lemma wp_items (close : TokenType) (m : St Parser (option (list ast * nat))) tl ts es k d rest v p Q :
  derives_list ts es k d -> close = TOKEN_RIGHT_PAREN \/ close = TOKEN_RIGHT_BRACKET ->
  parser_ok p -> (es = [] -> tl = []) ->
  consumes (ts ++ tl ++ (close, rest) :: []) (view p) v ->
  (es <> [] -> wp m p Q) ->
  (es = [] -> reached p (ts ++ tl) k p -> Q (Some ([], 0)) p) ->
  wp (if bool_decide (token_type (p_current p) = close) then mret (Some ([], 0)) else m) p Q.
Proof.
  intros Hes Hclose Hok Htl Hc Hm Hnil. destruct es as [|e es].
  - inversion Hes; subst. rewrite Htl in * by done. cbn [app] in Hc.
    pose proof (consumes_current _ _ _ _ _ Hc) as (Ht & _).
    rewrite bool_decide_eq_true_2 by done. apply wp_ret, Hnil; [done|]. by apply reached_refl.
  - rewrite (not_closing _ _ _ _ _ _ _ close _ Hes Hc Hclose). by apply Hm.
Qed.

(** * Levels *)

Definition parse_at (l n : nat) : St Parser (option ast) :=
  match l with
  | 1 => parse_or parse_expression n
  | 2 => parse_and parse_expression n
  | 3 => parse_equality parse_expression n
  | 4 => parse_comparison parse_expression n
  | 5 => parse_addition parse_expression n
  | 6 => parse_multiplication parse_expression n
  | 7 => parse_unary parse_expression n
  | 8 => parse_postfix parse_expression n
  | 9 => parse_primary parse_expression n
  | _ => parse_expression
  end.

(** The loop of a level after its first operand [e], with a budget of [n']. *)
Definition loop_at (l n n' : nat) (e : ast) : St Parser (option ast) :=
  match l with
  | 1 | 2 | 3 | 4 | 5 | 6 => binary_loop (level_operator l) (parse_at (S l) n) n' e
  | 8 => postfix_loop parse_expression n' e
  | _ => mret (Some e)
  end.

Lemma parse_at_binary l n :
  1 <= l <= 6 ->
  parse_at l n = bind_null (parse_at (S l) n) (binary_loop (level_operator l) (parse_at (S l) n) n).
Proof. intros [? ?]. do 7 (destruct l as [|l]; [done || lia|]). lia. Qed.

Lemma loop_at_binary l n n' e :
  1 <= l <= 6 -> loop_at l n n' e = binary_loop (level_operator l) (parse_at (S l) n) n' e.
Proof. intros [? ?]. do 7 (destruct l as [|l]; [done || lia|]). lia. Qed.

Lemma loop_ends l n n' e q Q :
  l <= 8 -> ends l (token_type (p_current q)) = true -> 0 < n' ->
  Q (Some e) q -> wp (loop_at (S l) n n' e) q Q.
Proof.
  intros Hl Hend Hn HQ. destruct n' as [|n']; [lia|].
  destruct (decide (l <= 5)) as [Hb|Hb].
  - rewrite loop_at_binary by lia. apply wp_bind, wp_gets. by rewrite ends_operator by done.
  - do 6 (destruct l as [|l]; [lia|]). destruct l as [|[|[|l]]]; [done| |done|lia].
    apply wp_bind, wp_gets. destruct (token_type (p_current q)); done.
Qed.

(** A run at level [l] reads [ts] as [e] and goes on with the loop of the level. *)
Definition reads (l n : nat) (p : Parser) (ts : list lexeme_t) (k : nat) (e : ast) : Prop :=
  forall Q, (forall q n', reached p ts k q -> remaining q < n' -> wp (loop_at l n n' e) q Q) ->
  wp (parse_at l n) p Q.

Definition enough (l n : nat) (p : Parser) : Prop :=
  (if l <=? 7 then S (remaining p) else remaining p) < n.

Lemma enough_low l n p : l <= 7 -> enough l n p <-> S (remaining p) < n.
Proof. intros. unfold enough. by rewrite (proj2 (Nat.leb_le l 7)) by done. Qed.

Lemma enough_high l n p : 8 <= l -> enough l n p <-> remaining p < n.
Proof. intros. unfold enough. by rewrite (proj2 (Nat.leb_gt l 7)) by lia. Qed.

(** What a derivation is to give. *)
Definition completes (l : nat) (ts : list lexeme_t) (e : ast) (k d : nat) : Prop :=
  forall n p v, parser_ok p -> 0 < expression_depth p -> remaining p <= budget ->
  enough l n p -> nesting_failed p = false -> room p k d ->
  consumes ts (view p) v -> ends l (v_type v) = true -> reads l n p ts k e.

Lemma completes_level l ts e k d :
  1 <= l <= 8 -> derives (S l) ts e k d -> completes (S l) ts e k d -> completes l ts e k d.
Proof.
  intros Hl He IH n p v Hok Hdepth Hb Hn Hf Hroom Hc Hend Q HQ.
  assert (ends (S l) (v_type v) = true) as Hend'.
  { destruct (decide (l = 8)) as [->|]; [done|]. apply ends_S; [lia|done]. }
  assert (forall q, reached p ts k q -> token_type (p_current q) = v_type v) as Hv.
  { intros q Hq. by rewrite <- (reached_view _ _ _ _ _ Hq Hc). }
  destruct (decide (l <= 6)) as [Hb6|Hb6]; [|assert (l = 7 \/ l = 8) as [-> | ->] by lia].
  - rewrite parse_at_binary by lia. apply wp_bind_null.
    rewrite enough_low in Hn by lia.
    eapply IH; [done..|by rewrite enough_low by lia|done|done|done|done|].
    intros q n' Hq Hn'. apply loop_ends; [lia|by rewrite Hv|lia|].
    rewrite <- (loop_at_binary l) by lia. apply HQ; [done|]. reach q. lia.
  - rewrite enough_low in Hn by lia. destruct n as [|n]; [lia|]. apply wp_bind, wp_gets.
    pose proof (derives_starts_postfix _ _ _ _ _ He ltac:(lia)) as Hs.
    destruct ts as [|[type text] ts]; [done|].
    pose proof (consumes_current _ _ _ _ _ Hc) as (-> & _).
    assert (unary_operator type = None) as -> by (by destruct type).
    eapply (IH n); [done..|by rewrite enough_high by lia; lia|done|done|done|done|].
    intros q n' Hq Hn'. apply (loop_ends 7); [lia|by rewrite (Hv q)|lia|].
    by apply (HQ q (S (remaining q))); [|lia].
  - apply wp_bind_null. eapply (IH n); [done..|].
    rewrite enough_high in Hn by lia.
    intros q n' Hq Hn'. apply HQ; [done|]. reach q. lia.
Qed.

Lemma completes_binary l ts1 e1 k1 d1 type text operator ts2 e2 k2 d2 :
  level_operator l type = Some operator ->
  completes l ts1 e1 k1 d1 -> completes (S l) ts2 e2 k2 d2 ->
  completes l (ts1 ++ (type, text) :: ts2) (ast_create_binary e1 e2 operator)
    (k1 + S k2) (Nat.max d1 d2).
Proof.
  intros Hop IH1 IH2 n p v Hok Hdepth Hb Hn Hf [Hk Hd] Hc Hend Q HQ.
  assert (1 <= l <= 6) as Hl.
  { destruct l; [done|]. do 6 (destruct l as [|l]; [lia|]). done. }
  apply consumes_app_inv in Hc as (v1 & Hc1 & Hc2).
  assert (v_type v1 = type) as Hv1 by (by destruct Hc2 as (_ & [= ->] & _)).
  eapply (IH1 n p v1); [done..|split; lia|done|rewrite Hv1; by eapply operator_ends|].
  intros q n' Hq Hn'. rewrite loop_at_binary by lia. destruct n' as [|n']; [lia|].
  assert (consumes ((type, text) :: ts2) (view q) v) as Hcq.
  { by rewrite (reached_view _ _ _ _ _ Hq Hc1). }
  reach q. apply wp_bind, wp_gets.
  pose proof (consumes_current _ _ _ _ _ Hcq) as (-> & _). rewrite Hop.
  apply wp_bind. expects.
  apply wp_bind_note_room; [done|congruence|lia|]. intros q1 Hq1. reach q1.
  assert (consumes ts2 (view q1) v) as Hcq1 by (by rewrite (reached_view _ _ _ _ _ Hq1 eq_refl)).
  apply wp_bind_null. rewrite enough_low in Hn by lia.
  eapply (IH2 n q1 v); [done|congruence|lia|rewrite enough_low by lia; lia|congruence|split; lia
    |done| |].
  { apply ends_S; [lia|done]. }
  intros q2 n2 Hq2 Hn2. reach q2. apply loop_ends; [lia| |lia|].
  { change (p_current q2) with (v_current (view q2)).
    by rewrite (reached_view _ _ _ _ _ Hq2 Hcq1). }
  rewrite <- loop_at_binary by lia. apply HQ; [reached_parts|lia].
Qed.

Lemma completes_unary type text operator ts e k d :
  unary_operator type = Some operator -> starts_int64_min operator ts = false ->
  derives 7 ts e k d -> completes 7 ts e k d ->
  completes 7 ((type, text) :: ts) (ast_create_unary e operator) k (S d).
Proof.
  intros Hop Hmin He IH n p v Hok Hdepth Hb Hn Hf [Hk Hd] Hc Hend Q HQ.
  rewrite enough_low in Hn by lia. destruct n as [|n]; [lia|]. apply wp_bind, wp_gets.
  pose proof (consumes_current _ _ _ _ _ Hc) as (-> & _). rewrite Hop.
  apply wp_bind_enter_room; [done|done|lia|]. intros Hok1.
  assert (consumes ((type, text) :: ts) (view (entered p)) v) as Hc1 by done.
  assert (remaining (entered p) = remaining p) as Hr1 by done.
  assert (nesting_depth (entered p) = S (nesting_depth p)) as Hn1 by done.
  assert (expression_depth (entered p) = expression_depth p) as He1 by done.
  assert (expression_operator_count (entered p) = expression_operator_count p) as Ho1 by done.
  assert (nesting_failed (entered p) = false) as Hf1 by done.
  apply wp_bind. expects. apply wp_bind, wp_at_int64_min; [done|].
  assert (starts_int64_min operator [(token_type (p_current q), current_lexeme_text q)] = false)
    as ->.
  { pose proof (derives_nonempty _ _ _ _ _ He).
    destruct ts as [|[t1 x1] ts]; [cbn in *; lia|].
    by pose proof (consumes_current _ _ _ _ _ Hc0) as (-> & -> & _). }
  apply wp_bind. change (parse_unary parse_expression n) with (parse_at 7 n).
  eapply (IH n q v); [done|congruence|lia|rewrite enough_low by lia; lia|congruence|split; lia|done|done|].
  intros q1 n1 Hq1 Hn2. apply wp_ret, wp_bind_leave, wp_ret. reach q1.
  apply (HQ (left_level q1) (S (remaining (left_level q1)))); [|lia].
  apply reached_left_level; [done|]. reached_parts.
Qed.

Lemma completes_int64_min t text :
  starts_int64_min UNARY_NEGATE [(TOKEN_INTEGER, text)] = true ->
  completes 7 [(TOKEN_MINUS, t); (TOKEN_INTEGER, text)] (ast_create_integer INT64_MIN) 0 1.
Proof.
  intros Hmin n p v Hok Hdepth Hb Hn Hf [Hk Hd] Hc Hend Q HQ.
  rewrite enough_low in Hn by lia. destruct n as [|n]; [lia|]. apply wp_bind, wp_gets.
  pose proof (consumes_current _ _ _ _ _ Hc) as (-> & _). cbn [unary_operator].
  apply wp_bind_enter_room; [done|done|lia|]. intros Hok1.
  assert (consumes [(TOKEN_MINUS, t); (TOKEN_INTEGER, text)] (view (entered p)) v) as Hc1 by done.
  assert (remaining (entered p) = remaining p) as Hr1 by done.
  apply wp_bind. expects. apply wp_bind, wp_at_int64_min; [done|].
  pose proof (consumes_current _ _ _ _ _ Hc0) as (-> & -> & _). rewrite Hmin.
  apply wp_bind. expects. apply wp_bind_leave, wp_ret.
  apply (HQ (left_level q0) (S (remaining (left_level q0)))); [|lia].
  apply reached_left_level; [done|]. reached_parts.
Qed.

(** The expression before a postfix operator, and the next round of the loop. *)
Lemma wp_postfix ts1 e1 k1 d1 type text ts2 n p v Q :
  completes 8 ts1 e1 k1 d1 -> type = TOKEN_LEFT_BRACKET \/ type = TOKEN_DOT ->
  parser_ok p -> 0 < expression_depth p -> remaining p <= budget -> enough 8 n p ->
  nesting_failed p = false -> room p k1 d1 ->
  consumes (ts1 ++ (type, text) :: ts2) (view p) v ->
  (forall q n', reached p ts1 k1 q -> remaining q <= n' ->
     consumes ((type, text) :: ts2) (view q) v ->
     wp (bind_null (if bool_decide (type = TOKEN_DOT) then postfix_member parse_expression n' e1
                    else postfix_index parse_expression e1)
           (postfix_loop parse_expression n')) q Q) ->
  wp (parse_at 8 n) p Q.
Proof.
  intros IH Htype Hok Hdepth Hb Hn Hf Hroom Hc HQ.
  apply consumes_app_inv in Hc as (v1 & Hc1 & Hc2).
  assert (v_type v1 = type) as Hv1 by (by destruct Hc2 as (_ & [= ->] & _)).
  eapply (IH n p v1); [done..|by rewrite Hv1; destruct Htype as [-> | ->]|].
  intros q n' Hq Hn'. destruct n' as [|n']; [lia|]. cbn [loop_at].
  assert (consumes ((type, text) :: ts2) (view q) v) as Hcq.
  { by rewrite (reached_view _ _ _ _ _ Hq Hc1). }
  apply wp_bind, wp_gets. pose proof (consumes_current _ _ _ _ _ Hcq) as (-> & _).
  specialize (HQ q n' Hq ltac:(lia) Hcq). by destruct Htype as [-> | ->].
Qed.

Lemma completes_index ts1 e1 k1 d1 t1 ts2 e2 k2 d2 t2 :
  completes 8 ts1 e1 k1 d1 -> derives 0 ts2 e2 k2 d2 ->
  completes 8 (ts1 ++ (TOKEN_LEFT_BRACKET, t1) :: ts2 ++ [(TOKEN_RIGHT_BRACKET, t2)])
    (ast_create_index e1 e2) (k1 + S k2) (Nat.max d1 d2).
Proof.
  intros IH He2 n p v Hok Hdepth Hb Hn Hf [Hk Hd] Hc Hend Q HQ.
  eapply wp_postfix; [done|by left|done..|split; lia|done|]. intros q n' Hq Hn' Hcq.
  reach q. cbn [bool_decide decide_rel]. apply wp_bind_null, wp_bind_note_room; [done|congruence|lia|].
  intros q1 Hq1. pose proof (reached_view _ _ _ _ _ Hq1 eq_refl) as Hv1. rewrite <- Hv1 in Hcq.
  reach q1. apply wp_bind. expects. apply wp_bind_null.
  eapply wp_expression; [done|exact Hc0|done|done|congruence|lia|congruence|split; lia|].
  intros q2 Hq2 Hc2. reach q2. tests. apply wp_bind. expects. apply wp_ret.
  apply HQ; [reached_parts|lia].
Qed.

Lemma completes_member ts e k d t member :
  completes 8 ts e k d ->
  completes 8 (ts ++ [(TOKEN_DOT, t); (TOKEN_IDENTIFIER, member)])
      (ast_create_member e member) (k + 1) d.
Proof.
  intros IH n p v Hok Hdepth Hb Hn Hf [Hk Hd] Hc Hend Q HQ.
  eapply wp_postfix; [done|by right|done..|split; lia|done|]. intros q n' Hq Hn' Hcq.
  reach q. apply wp_bind_null, wp_bind_note_room; [done|congruence|lia|].
  intros q1 Hq1. pose proof (reached_view _ _ _ _ _ Hq1 eq_refl) as Hv1. rewrite <- Hv1 in Hcq.
  reach q1. apply wp_bind. expects. tests. apply wp_bind, wp_gets, wp_bind, wp_current_text; [done|].
  apply wp_bind. expects. apply wp_bind, wp_gets.
  assert (token_type (p_current q2) <> TOKEN_LEFT_PAREN) as Hparen.
  { change (v_type (view q2) <> TOKEN_LEFT_PAREN). rewrite Hc1. intros E. by rewrite E in Hend. }
  rewrite bool_decide_eq_false_2 by done. apply wp_ret.
  match goal with Hx : current_lexeme_text q0 = member |- _ => rewrite Hx end.
  apply HQ; [reached_parts|lia].
Qed.

Lemma completes_qualified_call ts1 module k1 d1 t1 function t2 ts2 es k2 d2 t3 :
  completes 8 ts1 (ast_create_variable module) k1 d1 -> derives_list ts2 es k2 d2 ->
  completes 8 (ts1 ++ (TOKEN_DOT, t1) :: (TOKEN_IDENTIFIER, function)
               :: (TOKEN_LEFT_PAREN, t2) :: ts2 ++ [(TOKEN_RIGHT_PAREN, t3)])
      (ast_create_function_call (qualified_name module function) es (length es))
      (k1 + S k2) (Nat.max d1 d2).
Proof.
  intros IH Hes n p v Hok Hdepth Hb Hn Hf [Hk Hd] Hc Hend Q HQ.
  eapply wp_postfix; [done|by right|done..|split; lia|done|]. intros q n' Hq Hn' Hcq.
  reach q. apply wp_bind_null, wp_bind_note_room; [done|congruence|lia|].
  intros q1 Hq1. pose proof (reached_view _ _ _ _ _ Hq1 eq_refl) as Hv1. rewrite <- Hv1 in Hcq.
  reach q1. apply wp_bind. expects. tests. apply wp_bind, wp_gets, wp_bind, wp_current_text; [done|].
  apply wp_bind. expects. tests. cbn [ast_create_variable].
  match goal with Hx : current_lexeme_text q0 = function |- _ => rewrite Hx end.
  apply wp_bind. expects. apply wp_bind, wp_gets, wp_bind_null.
  assert (forall q4, reached q3 ts2 k2 q4 -> consumes [(TOKEN_RIGHT_PAREN, t3)] (view q4) v ->
    wp (bind_check (parser_consume TOKEN_RIGHT_PAREN "expected ')' after arguments.")
         (mret (Some (ast_create_function_call (qualified_name module function) es (length es)))))
       q4 (fun o p' => match o with
                       | Some a => wp (postfix_loop parse_expression n' a) p' Q
                       | None => Q null p'
                       end)) as Hclose.
  { intros q4 Hq4 Hc4. reach q4. apply wp_bind_check.
    eapply wp_consume_expected; [done|exact Hc4|]. intros q5 Hq5 Hc5. reach q5.
    apply wp_ret, HQ; [reached_parts|lia]. }
  eapply (wp_items _ _ []); [done|by left|done|done|exact Hc2| |].
  - intros Hne. eapply (call_arguments_parses ts2 es); [done|done|done|lia|lia|lia|congruence
      |split; lia|exact Hc2|]. intros q4 Hq4 Hc4. by apply Hclose.
  - intros -> Hr. rewrite app_nil_r in Hr. apply Hclose; [done|].
    by eapply reached_consumes.
Qed.

(** * Primary expressions *)

Lemma completes_integer text value :
  length text < 64 -> integer_literal text = Some value ->
  completes 9 [(TOKEN_INTEGER, text)] (ast_create_integer value) 0 0.
Proof.
  intros Hlen Hval n p v Hok Hdepth Hb Hn Hf Hroom Hc Hend Q HQ.
  pose proof (consumes_current _ _ _ _ _ Hc) as (Ht & Hx & _).
  apply wp_bind, wp_gets. rewrite Ht. unfold primary_integer.
  rewrite <- (current_text_length p Hok) by (by rewrite Ht). rewrite Hx.
  rewrite (proj2 (Nat.leb_gt 64 _)) by done.
  apply wp_bind, wp_current_text; [done|]. rewrite Hx, Hval. apply wp_bind. expects.
  apply wp_ret. apply (HQ q (S (remaining q))); [done|lia].
Qed.

Lemma completes_float text :
  length text < 64 ->
  completes 9 [(TOKEN_FLOAT, text)] (ast_create_float (strtod text)) 0 0.
Proof.
  intros Hlen n p v Hok Hdepth Hb Hn Hf Hroom Hc Hend Q HQ.
  pose proof (consumes_current _ _ _ _ _ Hc) as (Ht & Hx & _).
  apply wp_bind, wp_gets. rewrite Ht. unfold primary_float.
  rewrite <- (current_text_length p Hok) by (by rewrite Ht). rewrite Hx.
  rewrite (proj2 (Nat.leb_gt 64 _)) by done.
  apply wp_bind, wp_current_text; [done|]. rewrite Hx. apply wp_bind. expects.
  apply wp_ret. apply (HQ q (S (remaining q))); [done|lia].
Qed.

Lemma completes_string text :
  completes 9 [(TOKEN_STRING, text)] (ast_create_string (decode_string text)) 0 0.
Proof.
  intros n p v Hok Hdepth Hb Hn Hf Hroom Hc Hend Q HQ.
  pose proof (consumes_current _ _ _ _ _ Hc) as (Ht & Hx & _).
  apply wp_bind, wp_gets. rewrite Ht. apply wp_bind, wp_current_text; [done|].
  rewrite Hx. apply wp_bind. expects.
  apply wp_ret. apply (HQ q (S (remaining q))); [done|lia].
Qed.

Lemma completes_name name :
  completes 9 [(TOKEN_IDENTIFIER, name)] (primary_name name) 0 0.
Proof.
  intros n p v Hok Hdepth Hb Hn Hf Hroom Hc Hend Q HQ.
  pose proof (consumes_current _ _ _ _ _ Hc) as (Ht & Hx & _).
  apply wp_bind, wp_gets. rewrite Ht. apply wp_bind, wp_current_text; [done|].
  rewrite Hx. apply wp_bind. expects. apply wp_bind, wp_gets.
  assert (token_type (p_current q) <> TOKEN_LEFT_PAREN) as Hparen.
  { change (v_type (view q) <> TOKEN_LEFT_PAREN). rewrite Hc0. intros E. by rewrite E in Hend. }
  rewrite bool_decide_eq_false_2 by done.
  apply wp_ret. apply (HQ q (S (remaining q))); [done|lia].
Qed.

(** After the items of a call or of an array: the closing token. *)
Lemma wp_close (close : TokenType) t m (a : ast) p ts k base v (Q : option ast -> Parser -> Prop) :
  parser_ok base -> reached base ts k p -> consumes [(close, t)] (view p) v ->
  (forall q, reached base (ts ++ [(close, t)]) k q -> Q (Some a) q) ->
  wp (close' ← token_is close;
      if (close' : bool) then _ ← parser_advance; mret (Some a) else m) p Q.
Proof.
  intros Hok Hr Hc HQ. reach p. tests. apply wp_bind. expects. apply wp_ret, HQ. reached_parts.
Qed.

Lemma completes_call name t1 ts es k d t2 :
  derives_list ts es k d ->
  completes 9 ((TOKEN_IDENTIFIER, name) :: (TOKEN_LEFT_PAREN, t1) :: ts
               ++ [(TOKEN_RIGHT_PAREN, t2)])
      (ast_create_function_call name es (length es)) k d.
Proof.
  intros Hes n p v Hok Hdepth Hb Hn Hf [Hk Hd] Hc Hend Q HQ. rewrite enough_high in Hn by lia.
  pose proof (consumes_current _ _ _ _ _ Hc) as (Ht & Hx & _).
  apply wp_bind, wp_gets. rewrite Ht. apply wp_bind, wp_current_text; [done|].
  rewrite Hx. apply wp_bind. expects. tests. apply wp_bind. expects.
  apply wp_bind, wp_gets, wp_bind_null.
  eapply (wp_items _ _ []); [done|by left|done|done|exact Hc1| |].
  - intros Hne. eapply (primary_arguments_parses ts es); [done|done|done|lia|lia|lia|congruence
      |split; lia|exact Hc1|]. intros q1 Hq1 Hc2.
    eapply (wp_close _ _ _ _ _ _ _ q0); [done|exact Hq1|exact Hc2|]. intros q2 Hq2.
    apply (HQ q2 (S (remaining q2))); [reached_parts|lia].
  - intros -> Hr. rewrite app_nil_r in Hr. eapply (wp_close _ _ _ _ _ _ _ q0); [done|exact Hr| |].
    + by eapply reached_consumes.
    + intros q2 Hq2. apply (HQ q2 (S (remaining q2))); [reached_parts|lia].
Qed.

Lemma completes_array t1 ts tl es k d t2 :
  derives_list ts es k d -> comma_tail tl -> (es = [] -> tl = []) ->
  completes 9 ((TOKEN_LEFT_BRACKET, t1) :: ts ++ tl ++ [(TOKEN_RIGHT_BRACKET, t2)])
      (ast_create_array es (length es)) k d.
Proof.
  intros Hes Htl Hnil n p v Hok Hdepth Hb Hn Hf [Hk Hd] Hc Hend Q HQ.
  rewrite enough_high in Hn by lia.
  pose proof (consumes_current _ _ _ _ _ Hc) as (Ht & Hx & _).
  apply wp_bind, wp_gets. rewrite Ht. apply wp_bind. expects.
  apply wp_bind, wp_gets, wp_bind_null.
  eapply (wp_items _ _ tl); [done|by right|done|done|exact Hc0| |].
  - intros Hne. eapply (array_elements_parses tl ts es); [done|done|done|done|lia|lia|lia|congruence
      |split; lia|exact Hc0|]. intros q1 Hq1 Hc2.
    eapply (wp_close _ _ _ _ _ _ _ q); [done|exact Hq1|exact Hc2|]. intros q2 Hq2.
    apply (HQ q2 (S (remaining q2))); [reached_parts|lia].
  - intros -> Hr. rewrite app_assoc in Hc0.
    eapply (wp_close _ _ _ _ _ _ _ q); [done|exact Hr| |].
    + by eapply reached_consumes.
    + intros q2 Hq2. apply (HQ q2 (S (remaining q2))); [reached_parts|lia].
Qed.

Lemma completes_parenthesis t1 ts e k d t2 :
  derives 0 ts e k d ->
  completes 9 ((TOKEN_LEFT_PAREN, t1) :: ts ++ [(TOKEN_RIGHT_PAREN, t2)]) e k d.
Proof.
  intros He n p v Hok Hdepth Hb Hn Hf [Hk Hd] Hc Hend Q HQ.
  rewrite enough_high in Hn by lia.
  pose proof (consumes_current _ _ _ _ _ Hc) as (Ht & Hx & _).
  apply wp_bind, wp_gets. rewrite Ht. apply wp_bind. expects. apply wp_bind_null.
  eapply wp_expression; [done|exact Hc0|done|done|lia|lia|congruence|split; lia|].
  intros q1 Hq1 Hc1. reach q1. tests. apply wp_bind. expects. apply wp_ret.
  apply (HQ q0 (S (remaining q0))); [reached_parts|lia].
Qed.

Theorem derives_completes l ts e k d : derives l ts e k d -> 1 <= l -> completes l ts e k d.
Proof.
  intros H. induction H; intros Hl; [lia|..].
  - apply completes_level; auto.
  - eapply completes_binary; eauto.
  - by apply completes_unary; auto.
  - by apply completes_int64_min.
  - apply completes_index; auto.
  - apply completes_member; auto.
  - apply completes_qualified_call; auto.
  - by apply completes_integer.
  - by apply completes_float.
  - apply completes_string.
  - apply completes_name.
  - by apply completes_call.
  - by apply (completes_array t1 ts []); [|left|].
  - apply (completes_array t1 ts [(TOKEN_COMMA, t)]); [done|right; eauto|done].
  - by apply completes_parenthesis.
Qed.
End complete.

(** * A whole expression *)

Lemma derives_expression_inv ts e k d :
  derives 0 ts e k d -> exists d', d = S d' /\ derives 1 ts e k d'.
Proof.
  inversion 1; subst; try lia; eauto.
  all: match goal with H : level_operator 0 _ = _ |- _ => discriminate H end.
Qed.

Lemma parse_expression_parses n : forall p ts e k d v,
  parser_ok p -> remaining p + 3 <= n -> nesting_failed p = false -> room (started p) k d ->
  derives 0 ts e k d -> consumes ts (view p) v -> ends 0 (v_type v) = true ->
  forall Q, (forall q, reached (started p) ts k q -> Q (Some e) q) ->
  wp (parse_expression n) p Q.
Proof.
  induction n as [|n IH]; intros p ts e k d v Hok Hn Hf [Hk Hd] He Hc Hend Q HQ; [lia|].
  apply derives_expression_inv in He as (d' & -> & He).
  apply wp_bind. unfold start_expression. apply wp_modify.
  change (if expression_depth p =? 0 then with_expression 0 0 p else p) with (started p).
  pose proof (started_ok p Hok) as [Hok0 _].
  assert (nesting_failed (started p) = false) as Hf0 by (unfold started; by destruct (_ =? _)).
  assert (view (started p) = view p) as Hv0 by (unfold started; by destruct (_ =? _)).
  assert (remaining (started p) = remaining p) as Hr0 by (unfold remaining; by rewrite Hv0).
  set (q0 := started p) in *.
  apply wp_bind_enter_room; [done|done|lia|]. intros Hok1.
  apply wp_bind. unfold change_expression_depth. apply wp_modify.
  lazymatch goal with |- wp _ ?q _ => change q with (inside_expression q0) end.
  assert (parser_ok (inside_expression q0)) as Hok2 by (destruct Hok1; by constructor).
  assert (remaining (inside_expression q0) = remaining q0) as Hr1 by done.
  assert (nesting_depth (inside_expression q0) = S (nesting_depth q0)) as Hn1 by done.
  apply wp_bind. change (parse_or (parse_expression n) n) with (parse_at (parse_expression n) 1 n).
  eapply (derives_completes (parse_expression n) (n - 2) ltac:(shelve) _ _ _ _ _ He ltac:(lia) n
            (inside_expression q0) v);
    [done| |lia| |done|split; [done|lia]|by rewrite <- Hv0 in Hc| |].
  - cbn. lia.
  - rewrite enough_low by lia. lia.
  - apply ends_S; [lia|done].
  - intros q n' Hq Hn'.
    assert (token_type (p_current q) = v_type v) as Ht.
    { change (v_type (view q) = v_type v).
      by rewrite (reached_view _ _ _ _ _ Hq ltac:(by rewrite <- Hv0 in Hc)). }
    apply (loop_ends _ 0); [lia|by rewrite Ht|lia|].
    apply wp_bind. unfold change_expression_depth. apply wp_modify, wp_bind_leave.
    lazymatch goal with |- wp _ ?r _ => change r with (outside_expression q) end.
    apply wp_bind, wp_gets.
    assert (nesting_failed (outside_expression q) = false) as ->.
    { by destruct (reached_fields _ _ _ _ Hok2 Hq) as (_ & _ & ?). }
    apply wp_ret, HQ. by apply reached_outside.
  Unshelve.
  intros q ts' e' k' d'' v' Hq Hdepth Hb Hf' Hroom He' Hc' Hend' Q' HQ'.
  eapply IH; [done|lia|done|by rewrite started_inner|done|done|done|].
  intros q'. rewrite started_inner by done. apply HQ'.
Qed.
