(* ===== verification/ExpressionsProps.v ===== *)
(** ExpressionsProps: what the expression parser guarantees, from the
    soundness and the completeness of Expressions for the reference grammar:
    totality, exactness, the limits on the size of the trees, their shape. *)

From S2P Require Import Prelude Clib Lexer Ast Parser Expressions ParserFacts Grammar.
From S2P Require Import ExpressionsSound ExpressionsComplete.

(** * Measures of trees *)

Definition maximum (ns : list nat) : nat := foldr Nat.max 0 ns.
Definition total (ns : list nat) : nat := foldr Nat.add 0 ns.

(** The height of an expression: the depth of the recursion of the passes that
    walk it. *)
Fixpoint height (e : ast) : nat :=
  match e with
  | AST_FUNCTION_CALL _ arguments _ => S (maximum (map height arguments))
  | AST_ARRAY_LITERAL elements _ => S (maximum (map height elements))
  | AST_INDEX_EXPRESSION array index => S (Nat.max (height array) (height index))
  | AST_MEMBER_EXPRESSION object _ => S (height object)
  | AST_BINARY_EXPRESSION e1 e2 _ => S (Nat.max (height e1) (height e2))
  | AST_UNARY_EXPRESSION operand _ => S (height operand)
  | _ => 1
  end.

(** The number of binary and postfix operator nodes. *)
Fixpoint operator_nodes (e : ast) : nat :=
  match e with
  | AST_FUNCTION_CALL _ arguments _ => total (map operator_nodes arguments)
  | AST_ARRAY_LITERAL elements _ => total (map operator_nodes elements)
  | AST_INDEX_EXPRESSION array index => S (operator_nodes array + operator_nodes index)
  | AST_MEMBER_EXPRESSION object _ => S (operator_nodes object)
  | AST_BINARY_EXPRESSION e1 e2 _ => S (operator_nodes e1 + operator_nodes e2)
  | AST_UNARY_EXPRESSION operand _ => operator_nodes operand
  | _ => 0
  end.

(** An expression tree as ast.h describes it: expression nodes only, counts
    that are the lengths of their lists, integers of 64 bits. *)
Fixpoint expression_wf (e : ast) : bool :=
  match e with
  | AST_STRING_LITERAL _ | AST_FLOAT_LITERAL _ | AST_BOOLEAN_LITERAL _ | AST_NULL_LITERAL
  | AST_VARIABLE _ => true
  | AST_INTEGER_LITERAL value => in_int64 value
  | AST_FUNCTION_CALL _ arguments count =>
      (count =? length arguments) && forallb expression_wf arguments
  | AST_ARRAY_LITERAL elements count =>
      (count =? length elements) && forallb expression_wf elements
  | AST_INDEX_EXPRESSION array index => expression_wf array && expression_wf index
  | AST_MEMBER_EXPRESSION object _ => expression_wf object
  | AST_BINARY_EXPRESSION e1 e2 _ => expression_wf e1 && expression_wf e2
  | AST_UNARY_EXPRESSION operand _ => expression_wf operand
  | _ => false
  end.

(** * Derivations give such trees *)

Lemma primary_name_leaf name :
  height (primary_name name) = 1 /\ operator_nodes (primary_name name) = 0 /\
  expression_wf (primary_name name) = true.
Proof. unfold primary_name. repeat case_match; done. Qed.

Lemma derives_height :
  (forall l ts e k d, derives l ts e k d -> height e + (if l =? 0 then 1 else 0) <= k + d + 1) /\
  (forall ts es k d, derives_list ts es k d -> maximum (map height es) <= k + d).
Proof.
  apply derives_both; intros; cbn [height map maximum foldr ast_create_binary ast_create_unary
    ast_create_index ast_create_member ast_create_function_call ast_create_array] in *;
    rewrite ?(proj1 (primary_name_leaf _));
    try (match goal with l : nat |- _ => destruct l; [try done; lia|] end); cbn in *; lia.
Qed.

Lemma derives_operator_nodes :
  (forall l ts e k d, derives l ts e k d -> operator_nodes e <= k) /\
  (forall ts es k d, derives_list ts es k d -> total (map operator_nodes es) <= k).
Proof.
  apply derives_both; intros; cbn in *; try lia.
  by rewrite (proj1 (proj2 (primary_name_leaf _))).
Qed.

Lemma integer_literal_range buffer value :
  integer_literal buffer = Some value -> in_int64 value = true.
Proof.
  unfold integer_literal. intros H. case_match eqn:E; [done|]. injection H as <-.
  apply orb_false_elim in E as [[E _]%orb_false_elim _]. unfold strtoll in *.
  destruct (scan_integer buffer (literal_base buffer)) as [[[neg m] rest]|]; [|done].
  destruct (Z.ltb_spec (if neg then (- m)%Z else m) INT64_MIN); [done|].
  destruct (Z.ltb_spec INT64_MAX (if neg then (- m)%Z else m)); [done|]. cbn.
  unfold in_int64. apply andb_true_intro. split; apply Z.leb_le; lia.
Qed.

Lemma derives_wf :
  (forall l ts e k d, derives l ts e k d -> expression_wf e = true) /\
  (forall ts es k d, derives_list ts es k d -> forallb expression_wf es = true).
Proof.
  apply derives_both; intros; cbn in *; rewrite ?Nat.eqb_refl; auto with bool.
  - by eapply integer_literal_range.
  - apply primary_name_leaf.
Qed.

(** * The parser of expressions *)

(** What is reached from the start of an expression is a step of the parser. *)
Lemma yields_step p o p' :
  parser_ok p -> yields_expression p o p' -> step p p'.
Proof.
  intros Hok [Hy _]. pose proof (started_ok p Hok) as [Hok0 Hstep].
  destruct o as [e|]; [|by eapply step_trans].
  destruct Hy as (ts & k & d & _ & Hr & _). eapply step_trans; [exact Hstep|].
  by eapply reached_step.
Qed.

(** The input an expression needs: its tokens, all read. *)
Definition reads_expression (p : Parser) (e : ast) (p' : Parser) (k d : nat) : Prop :=
  exists ts, derives 0 ts e k d /\ consumes ts (view p) (view p') /\
    expression_operator_count p' = expression_operator_count (started p) + k /\
    expression_operator_count p' <= VNT_PARSER_MAX_EXPRESSION_OPERATORS /\
    nesting_depth p + d <= VNT_PARSER_MAX_NESTING /\ nesting_failed p = false /\
    p' = moved_to (view p') k (started p).

Lemma started_view p : view (started p) = view p.
Proof. unfold started. by destruct (_ =? _). Qed.

Lemma started_nesting p : nesting_depth (started p) = nesting_depth p.
Proof. unfold started. by destruct (_ =? _). Qed.

Lemma yields_reads p e p' :
  yields_expression p (Some e) p' -> exists k d, reads_expression p e p' k d.
Proof.
  intros [(ts & k & d & He & (v & Hc & -> & Hk) & Hd) Hf].
  rewrite started_view in Hc. rewrite started_nesting in Hd. specialize (Hf ltac:(done)).
  exists k, d, ts. rewrite view_moved_to. split_and!; done.
Qed.

(** C25: from every valid state parse_expression returns, without reading outside of the
    source, with the invariant and both depth counters kept on success and on failure; on
    success it has moved forward, printed nothing and exceeded no limit. *)
Theorem parse_expression_total n p :
  parser_ok p -> remaining p + 3 <= n ->
  wp (parse_expression n) p (fun o p' =>
    step p p' /\
    (o <> None -> nesting_failed p' = false /\ output p' = output p /\ remaining p' < remaining p)).
Proof.
  intros Hok Hn. eapply wp_mono; [by apply parse_expression_yields|]. intros o p' Hy.
  split; [by eapply yields_step|]. destruct o as [e|]; [intros _|done].
  destruct (yields_reads _ _ _ Hy) as (k & d & ts & He & Hc & _ & _ & _ & Hf & E).
  pose proof (consumes_ok _ _ _ Hc (ok_view _ Hok)) as (_ & _ & Hlt).
  pose proof (derives_nonempty _ _ _ _ _ He). split_and!; [..|unfold remaining; lia].
  - rewrite E. change (nesting_failed (started p) = false). unfold started. by destruct (_ =? _).
  - rewrite E. change (output (started p) = output p). unfold started. by destruct (_ =? _).
Qed.

Lemma parse_expression_total_witness :
  parser_ok (parser_at (str "1 + (2")) /\ remaining (parser_at (str "1 + (2")) + 3 <= 20 /\
  wp (parse_expression 20) (parser_at (str "1 + (2")) (fun o p' => step (parser_at (str "1 + (2")) p').
Proof.
  split; [apply parser_at_ok|]. split; [apply Nat.leb_le; vm_compute; reflexivity|].
  eapply wp_mono.
  - apply (parse_expression_total 20); [apply parser_at_ok|apply Nat.leb_le; vm_compute; reflexivity].
  - intros o p' [H _]. exact H.
Defined.

(** C2: when parse_expression succeeds, the tokens it has consumed derive its result by the
    reference grammar; the operators it has counted and the nesting it has used are those of
    the derivation and are within the limits, and nothing else of the parser has changed. *)
Theorem parse_expression_sound n p e p' :
  parser_ok p -> remaining p + 3 <= n -> parse_expression n p = Done (Some e, p') ->
  exists k d, reads_expression p e p' k d.
Proof.
  intros Hok Hn E. eapply yields_reads, wp_run; [by eapply parse_expression_yields|exact E].
Qed.

(** A sample: the product binds tighter than the sum. *)
Definition sample_text : bytes := str "1 + 2 * x[y].z, 3".
Definition sample_expression : ast :=
  AST_BINARY_EXPRESSION (AST_INTEGER_LITERAL 1)
    (AST_BINARY_EXPRESSION (AST_INTEGER_LITERAL 2)
       (AST_MEMBER_EXPRESSION
          (AST_INDEX_EXPRESSION (AST_VARIABLE (str "x")) (AST_VARIABLE (str "y"))) (str "z"))
       BINARY_MULTIPLY) BINARY_ADD.

Lemma parse_expression_sound_witness :
  parser_ok (parser_at sample_text) /\
  exists p' k d, reads_expression (parser_at sample_text) sample_expression p' k d.
Proof.
  split; [apply parser_at_ok|]. eexists.
  apply (parse_expression_sound 30); [apply parser_at_ok|apply Nat.leb_le; vm_compute; reflexivity|].
  vm_compute. reflexivity.
Defined.

Lemma parse_expression_moves n p ts e k d v :
  parser_ok p -> remaining p + 3 <= n -> nesting_failed p = false ->
  derives 0 ts e k d -> consumes ts (view p) v -> ends 0 (v_type v) = true ->
  expression_operator_count (started p) + k <= VNT_PARSER_MAX_EXPRESSION_OPERATORS ->
  nesting_depth p + d <= VNT_PARSER_MAX_NESTING ->
  parse_expression n p = Done (Some e, moved_to v k (started p)).
Proof.
  intros Hok Hn Hf He Hc Hend Hk Hd.
  assert (wp (parse_expression n) p
            (fun o p' => o = Some e /\ p' = moved_to v k (started p))) as Hw.
  { eapply parse_expression_parses; try done; [split; [done|by rewrite started_nesting]|].
    intros q (v' & Hc' & -> & _). rewrite started_view in Hc'.
    by rewrite (consumes_det _ _ _ _ Hc' Hc). }
  apply wp_done in Hw as (? & ? & E & -> & ->). done.
Qed.

(** C23: conversely, if the next tokens derive an expression by the reference grammar,
    within the limits on operators and nesting, and the token after them cannot go on the
    expression, then parse_expression returns that expression and stops right after those
    tokens. *)
Theorem parse_expression_complete n p ts e k d v :
  parser_ok p -> remaining p + 3 <= n -> nesting_failed p = false ->
  derives 0 ts e k d -> consumes ts (view p) v -> ends 0 (v_type v) = true ->
  expression_operator_count (started p) + k <= VNT_PARSER_MAX_EXPRESSION_OPERATORS ->
  nesting_depth p + d <= VNT_PARSER_MAX_NESTING ->
  parse_expression n p = Done (Some e, moved_to v k (started p)).
Proof. apply parse_expression_moves. Qed.

Lemma parse_expression_complete_witness :
  let p := parser_at (str "7)") in
  derives 0 [(TOKEN_INTEGER, str "7")] (AST_INTEGER_LITERAL 7) 0 1 /\
  parse_expression 10 p = Done (Some (AST_INTEGER_LITERAL 7), moved_to (v_next (view p)) 0 (started p)).
Proof.
  intros p. assert (derives 0 [(TOKEN_INTEGER, str "7")] (AST_INTEGER_LITERAL 7) 0 1) as He.
  { apply derives_expression, (derives_lift 1 9); [lia|lia|].
    apply derives_integer; [apply Nat.ltb_lt; reflexivity|reflexivity]. }
  split; [exact He|].
  apply (parse_expression_complete 10 p [(TOKEN_INTEGER, str "7")] _ 0 1 (v_next (view p)));
    [apply parser_at_ok|apply Nat.leb_le; vm_compute; reflexivity|vm_compute; reflexivity|exact He
    |split; [vm_compute; discriminate|split; [vm_compute; reflexivity|reflexivity]]
    |vm_compute; reflexivity|apply Nat.leb_le; vm_compute; reflexivity..].
Defined.

(** C28: an expression tree has at most 256 binary and postfix operator nodes, and its
    height together with the nesting of the place where it was read is at most 512, which
    bounds the recursion of every later pass over it. *)
Theorem parse_expression_bounded n p e p' :
  parser_ok p -> remaining p + 3 <= n -> parse_expression n p = Done (Some e, p') ->
  operator_nodes e <= VNT_PARSER_MAX_EXPRESSION_OPERATORS /\
  height e + nesting_depth p <= VNT_PARSER_MAX_EXPRESSION_OPERATORS + VNT_PARSER_MAX_NESTING.
Proof.
  intros Hok Hn E.
  destruct (yields_reads p e p') as (k & d & ts & He & _ & Hk & Hk' & Hd & _).
  { eapply wp_run; [by eapply parse_expression_yields|exact E]. }
  pose proof (proj1 derives_height _ _ _ _ _ He). pose proof (proj1 derives_operator_nodes _ _ _ _ _ He).
  cbn [Nat.eqb] in *. lia.
Qed.

Lemma parse_expression_bounded_witness :
  parser_ok (parser_at sample_text) /\ operator_nodes sample_expression <= 256.
Proof.
  split; [apply parser_at_ok|].
  eapply (parse_expression_bounded 30 (parser_at sample_text) sample_expression);
    [apply parser_at_ok|apply Nat.leb_le; vm_compute; reflexivity|vm_compute; reflexivity].
Defined.

(** C29: parse_expression only builds expression nodes, the count stored in every call and
    array literal is the length of its list, and every integer literal fits in 64 bits. *)
Theorem parse_expression_wf n p e p' :
  parser_ok p -> remaining p + 3 <= n -> parse_expression n p = Done (Some e, p') ->
  expression_wf e = true.
Proof.
  intros Hok Hn E. destruct (yields_reads p e p') as (k & d & ts & He & _).
  { eapply wp_run; [by eapply parse_expression_yields|exact E]. }
  by eapply (proj1 derives_wf).
Qed.

Lemma parse_expression_wf_witness :
  parser_ok (parser_at sample_text) /\ expression_wf sample_expression = true.
Proof.
  split; [apply parser_at_ok|].
  eapply (parse_expression_wf 30 (parser_at sample_text) sample_expression);
    [apply parser_at_ok|apply Nat.leb_le; vm_compute; reflexivity|vm_compute; reflexivity].
Defined.
