(* ===== verification/StatementsFacts.v ===== *)
(** StatementsFacts: running the statement parser ends within its budget,
    never reads outside of the source, keeps the invariant of the parser on
    success and on failure, and builds well-formed statements. *)

From S2P Require Import Prelude Clib Lexer Ast Parser Expressions Statements ParserFacts.
From S2P Require Import Grammar ExpressionsSound ExpressionsProps.

(** * Well-formed statements *)

(** The targets an assignment node may have; a plain variable is assigned by a
    declaration. *)
Definition assignable (target : ast) : bool :=
  match target with
  | AST_INDEX_EXPRESSION _ _ | AST_MEMBER_EXPRESSION _ _
  | AST_UNARY_EXPRESSION _ UNARY_DEREFERENCE => expression_wf target
  | _ => false
  end.

Fixpoint statement_wf (s : ast) : bool :=
  match s with
  | AST_PRINT_STATEMENT e => expression_wf e
  | AST_IF_STATEMENT c t e =>
      expression_wf c && forallb statement_wf t && forallb statement_wf e
  | AST_WHILE_STATEMENT c body => expression_wf c && forallb statement_wf body
  | AST_FUNCTION_DECLARATION _ parameters types count _ _ body =>
      (length parameters =? count) && (length types =? count) && forallb statement_wf body
  | AST_STRUCT_DECLARATION _ fields count => length fields =? count
  | AST_FUNCTION_CALL _ _ _ => expression_wf s
  | AST_RETURN_STATEMENT e => match e with Some e => expression_wf e | None => true end
  | AST_BREAK_STATEMENT | AST_CONTINUE_STATEMENT | AST_ASM_STATEMENT _ _ => true
  | AST_VARIABLE_DECLARATION _ _ e is_reassignment => expression_wf e && negb is_reassignment
  | AST_ASSIGNMENT target e => assignable target && expression_wf e
  | AST_UNSAFE_BLOCK statements => forallb statement_wf statements
  | _ => false
  end.

(** How deep statements are nested in a statement, itself included. *)
Fixpoint statement_depth (s : ast) : nat :=
  match s with
  | AST_IF_STATEMENT _ t e =>
      S (Nat.max (maximum (map statement_depth t)) (maximum (map statement_depth e)))
  | AST_WHILE_STATEMENT _ body | AST_FUNCTION_DECLARATION _ _ _ _ _ _ body
  | AST_UNSAFE_BLOCK body => S (maximum (map statement_depth body))
  | _ => 1
  end.

Definition depth_of (ss : list ast) : nat := maximum (map statement_depth ss).

Lemma depth_of_app ss1 ss2 : depth_of (ss1 ++ ss2) = Nat.max (depth_of ss1) (depth_of ss2).
Proof. unfold depth_of, maximum. induction ss1; cbn in *; lia. Qed.

(** A copy is the same tree. *)
Lemma clone_expression_eq : forall e c, clone_expression e = Some c -> c = e.
Proof.
  fix IH 1. intros e c. destruct e; cbn; try discriminate;
    try (intros [= <-]; reflexivity).
  - intros [= <-]. by destruct value.
  - destruct (clone_expression e1) eqn:E1; [|done]. destruct (clone_expression e2) eqn:E2; [|done].
    intros [= <-]. by rewrite (IH _ _ E1), (IH _ _ E2).
  - destruct (clone_expression e) eqn:E; [|done]. intros [= <-]. by rewrite (IH _ _ E).
  - destruct (clone_expression e1) eqn:E1; [|done]. destruct (clone_expression e2) eqn:E2; [|done].
    intros [= <-]. by rewrite (IH _ _ E1), (IH _ _ E2).
  - destruct (clone_expression e) eqn:E; [|done]. intros [= <-]. by rewrite (IH _ _ E).
Qed.

(** * Results *)

(** The innermost statement may be a [for], which is lowered to two levels. *)
Definition max_depth : nat := S VNT_PARSER_MAX_NESTING.

(** The result of a statement function, [limit] bounding its depth. *)
Record chain_ok (limit : nat) (p : Parser) (ss : list ast) (p' : Parser) : Prop := {
  chain_step : step p p';
  chain_wf : forallb statement_wf ss = true;
  chain_depth : depth_of ss + nesting_depth p <= limit;
  chain_progress : ss <> [] -> remaining p' < remaining p
}.

Definition part_ok {A} (P : A -> Prop) (p : Parser) (o : option A) (p' : Parser) : Prop :=
  step p p' /\ match o with Some a => P a | None => True end.

Ltac stepped q :=
  lazymatch goal with
  | Hs : step ?p q |- _ =>
      pose proof (step_ok _ _ Hs); pose proof (step_remaining _ _ Hs);
      pose proof (step_nesting _ _ Hs)
  end.

Lemma chain_null limit p p' :
  parser_ok p -> VNT_PARSER_MAX_NESTING <= limit -> step p p' -> chain_ok limit p null p'.
Proof. intros [? ? ?] Hl Hs. constructor; [done..|cbn; lia|done]. Qed.

Lemma chain_one limit p s p' :
  step p p' -> statement_wf s = true -> statement_depth s + nesting_depth p <= limit ->
  remaining p' < remaining p -> chain_ok limit p [s] p'.
Proof.
  intros Hs Hw Hd Hr. constructor; [done|cbn; by rewrite Hw|unfold depth_of; cbn; lia|done].
Qed.

Section statements.
Context (parse_expression : St Parser (option ast)) (parse_statement : St Parser (list ast)).
Context (budget : nat).
Hypothesis parse_expression_ok : forall p,
  parser_ok p -> remaining p < budget ->
  wp parse_expression p (fun o p' =>
    step p p' /\ match o with Some e => remaining p' < remaining p /\ expression_wf e = true
                 | None => True end).
Hypothesis parse_statement_ok : forall p,
  parser_ok p -> remaining p < budget ->
  wp parse_statement p (chain_ok max_depth p).

(** The limit inside a statement: it counts for one level itself. *)
Definition limit : nat := S max_depth.

Ltac fails := apply chain_null; [done|unfold limit, max_depth in *; lia|steps].
Ltac gives_up := apply wp_give_up; [auto with vnt|intros ?; fails].
Ltac advances type := eapply (wp_advance_reached type); [done|done|done|];
  let q := fresh "q" in let Hq := fresh "Hq" in intros q Hq; reach q.
Ltac consumes_token type :=
  apply wp_bind_check; apply (wp_consume_reached type);
  [done|done|let q := fresh "q" in let Hq := fresh "Hq" in intros q Hq; reach q
  |intros ?; try fails].
Ltac expression e :=
  eapply wp_mono; [apply parse_expression_ok; [done|lia]|];
  let q := fresh "q" in let Hq := fresh "Hq" in
  intros [e|] q; [intros (Hq & ? & ?); stepped q|intros (Hq & _); try fails].
Ltac tests := apply wp_bind, wp_gets; case_bool_decide.
Ltac one := apply wp_ret, chain_one; [steps|cbn; auto with bool|cbn; unfold limit, max_depth in *; lia|lia].

Implicit Types p : Parser.

Lemma previous_text_ok p (Q : bytes -> Parser -> Prop) :
  parser_ok p -> (forall text, Q text p) -> wp previous_text p Q.
Proof.
  intros [[_ _ Hp] _ _] HQ. apply wp_bind, wp_gets, wp_token_text; [exact Hp|done].
Qed.

Lemma current_text_ok p (Q : bytes -> Parser -> Prop) :
  parser_ok p -> (forall text, Q text p) -> wp current_text p Q.
Proof. intros Hok HQ. by apply wp_bind, wp_gets, wp_current_text. Qed.

Lemma current_is_ok text p (Q : bool -> Parser -> Prop) :
  (token_type (p_current p) = TOKEN_IDENTIFIER -> Q true p) -> Q false p ->
  wp (current_is text) p Q.
Proof.
  intros Ht Hf. apply wp_gets. cbv beta zeta.
  destruct (decide (token_type (p_current p) = TOKEN_IDENTIFIER)) as [E|E].
  - destruct (_ && _); auto.
  - by rewrite (bool_decide_eq_false_2 _ E).
Qed.

Lemma parse_print_ok p :
  parser_ok p -> remaining p <= budget -> nesting_depth p <= VNT_PARSER_MAX_NESTING ->
  token_type (p_current p) = TOKEN_IDENTIFIER ->
  wp (parse_print parse_expression) p (chain_ok limit p).
Proof.
  intros Hok Hb Hn Ht. apply wp_bind. advances TOKEN_IDENTIFIER.
  consumes_token TOKEN_LEFT_PAREN. apply wp_bind_null. expression e.
  consumes_token TOKEN_RIGHT_PAREN. one.
Qed.

Lemma parse_return_ok p :
  parser_ok p -> remaining p <= budget -> token_type (p_current p) = TOKEN_IDENTIFIER ->
  wp (parse_return parse_expression) p (chain_ok limit p).
Proof.
  intros Hok Hb Ht. pose proof (ok_nesting _ Hok).
  apply wp_bind. advances TOKEN_IDENTIFIER. apply wp_bind, wp_gets. cbv beta.
  destruct (_ || _); [one|]. apply wp_bind. expression e. one.
Qed.

(** A statement that is one keyword. *)
Lemma keyword_ok s p :
  parser_ok p -> remaining p <= budget -> token_type (p_current p) = TOKEN_IDENTIFIER ->
  statement_wf s = true -> statement_depth s = 1 ->
  wp (_ ← parser_advance; mret [s]) p (chain_ok limit p).
Proof.
  intros Hok Hb Ht Hw Hd. pose proof (ok_nesting _ Hok). apply wp_bind. advances TOKEN_IDENTIFIER.
  apply wp_ret, chain_one; [steps|done|unfold limit, max_depth in *; lia|lia].
Qed.

Lemma parse_let_declaration_ok p :
  parser_ok p -> remaining p <= budget -> token_type (p_current p) = TOKEN_IDENTIFIER ->
  wp (parse_let_declaration parse_expression) p (chain_ok limit p).
Proof.
  intros Hok Hb Ht. pose proof (ok_nesting _ Hok).
  apply wp_bind. advances TOKEN_IDENTIFIER. consumes_token TOKEN_IDENTIFIER.
  apply wp_bind, previous_text_ok; [done|intros name]. consumes_token TOKEN_COLON.
  consumes_token TOKEN_IDENTIFIER. apply wp_bind, previous_text_ok; [done|intros type].
  consumes_token TOKEN_EQUALS. apply wp_bind_null. expression init. one.
Qed.

Lemma parse_asm_statement_ok p :
  parser_ok p -> remaining p <= budget -> token_type (p_current p) = TOKEN_IDENTIFIER ->
  wp parse_asm_statement p (chain_ok limit p).
Proof.
  intros Hok Hb Ht. pose proof (ok_nesting _ Hok).
  apply wp_bind. advances TOKEN_IDENTIFIER. apply wp_bind.
  assert (forall is_volatile r, step q r -> parser_ok r -> remaining r <= remaining q ->
    wp (check parser_consume TOKEN_LEFT_PAREN "expected '(' after asm or asm volatile.";
        check parser_consume TOKEN_STRING "expected an assembly template string.";
        assembly ← previous_text;
        check parser_consume TOKEN_RIGHT_PAREN "expected ')' after assembly template.";
        mret [ast_create_asm_statement assembly is_volatile]) r (chain_ok limit p)) as Hrest.
  { intros is_volatile r Hs Hr Hlt. stepped r.
    consumes_token TOKEN_LEFT_PAREN. consumes_token TOKEN_STRING.
    apply wp_bind, previous_text_ok; [done|intros assembly].
    consumes_token TOKEN_RIGHT_PAREN. one. }
  apply current_is_ok; [intros Hid|]; apply wp_bind.
  - advances TOKEN_IDENTIFIER. apply Hrest; [steps|done|lia].
  - apply wp_ret, Hrest; [by apply step_refl|done|lia].
Qed.

(** * Blocks *)

Lemma parse_block_ok n : forall base p ss,
  parser_ok p -> remaining p < budget -> remaining p < n ->
  step base p -> forallb statement_wf ss = true ->
  depth_of ss + nesting_depth base <= max_depth ->
  wp (parse_block parse_statement n ss) p (fun ss p' =>
    step base p' /\ forallb statement_wf ss = true /\
    depth_of ss + nesting_depth base <= max_depth /\ remaining p' <= remaining p).
Proof.
  induction n as [|n IH]; intros base p ss Hok Hb Hn Hbase Hw Hd; [lia|].
  assert (nesting_depth p = nesting_depth base) as Hnd by by apply step_nesting.
  apply wp_bind, wp_gets, wp_bind, wp_gets.
  destruct (negb _ && negb _) eqn:E.
  - apply wp_bind. eapply wp_mono; [by apply parse_statement_ok|].
    intros s q [Hs Hsw Hsd Hsp]. stepped q.
    destruct s as [|s0 s]; cbn [is_null].
    + apply wp_ret. split_and!; [by eapply step_trans|done|cbn; lia|lia].
    + specialize (Hsp ltac:(done)). eapply wp_mono.
      { apply (IH base q); [done|lia|lia|by eapply step_trans| |].
        - by rewrite forallb_app, Hw.
        - unfold ast_append. rewrite depth_of_app. lia. }
      cbn. intros ss' q' (? & ? & ? & ?). split_and!; done || lia.
  - apply wp_bind_check, (wp_consume_reached TOKEN_RIGHT_BRACE); [done..| |].
    + intros q Hq. reach q. apply wp_ret.
      split_and!; [eapply step_trans; [done|steps]|done|done|lia].
    + intros d. split_and!; [by apply step_print|done|cbn; lia|done].
Qed.

(** A block from the token after its brace. *)
Lemma block_ok n p :
  parser_ok p -> remaining p < budget -> remaining p < n ->
  wp (parse_block parse_statement n []) p (fun ss p' =>
    step p p' /\ forallb statement_wf ss = true /\
    depth_of ss + nesting_depth p <= max_depth).
Proof.
  intros Hok Hb Hn. pose proof (ok_nesting _ Hok). eapply wp_mono.
  { apply (parse_block_ok n p p []); try done; [by apply step_refl|cbn; unfold max_depth; lia]. }
  cbn. intros ss q (? & ? & ? & ?). done.
Qed.

(** * Functions, calls and structures *)

Lemma parameter_type_ok p :
  parser_ok p -> wp parameter_type p (part_ok (fun _ => True) p).
Proof.
  intros Hok. tests; [|apply wp_ret; split; [by apply step_refl|done]].
  apply wp_bind. advances TOKEN_COLON. tests.
  - apply wp_bind, current_text_ok; [done|intros type]. apply wp_bind. advances TOKEN_IDENTIFIER.
    apply wp_ret. split; [steps|done].
  - apply wp_give_up; [auto with vnt|intros d]. split; [steps|done].
Qed.

Lemma function_return_type_ok p :
  parser_ok p -> wp function_return_type p (part_ok (fun _ => True) p).
Proof.
  intros Hok. tests; [|apply wp_ret; split; [by apply step_refl|done]].
  apply wp_bind. advances TOKEN_MINUS. consumes_token TOKEN_GREATER; [|split; [steps|done]]. tests.
  - apply wp_bind, current_text_ok; [done|intros type]. apply wp_bind. advances TOKEN_IDENTIFIER.
    apply wp_ret. split; [steps|done].
  - apply wp_give_up; [auto with vnt|intros d]. split; [steps|done].
Qed.

Definition signature_ok (s : list bytes * list (option bytes) * nat) : Prop :=
  length s.1.1 = s.2 /\ length s.1.2 = s.2.

Lemma function_parameters_ok n : forall p parameters types count,
  parser_ok p -> remaining p < n -> signature_ok (parameters, types, count) ->
  wp (function_parameters n parameters types count) p (part_ok signature_ok p).
Proof.
  induction n as [|n IH]; intros p parameters types count Hok Hn [Hp Ht]; [lia|]. cbn in Hp, Ht.
  tests; [apply wp_ret; split; [by apply step_refl|done]|]. tests.
  - apply wp_bind, current_text_ok; [done|intros parameter].
    apply wp_bind. advances TOKEN_IDENTIFIER. apply wp_bind_null.
    eapply wp_mono; [by apply parameter_type_ok|]. intros [type|] q0 [Hs _]; stepped q0;
      [|split; [steps|done]].
    assert (signature_ok (parameters ++ [parameter], types ++ [type], S count)) as Hsig.
    { split; cbn; rewrite length_app; cbn; lia. }
    tests; [apply wp_ret; split; [steps|done]|].
    consumes_token TOKEN_COMMA; [|split; [steps|done]].
    eapply wp_mono; [apply IH; [done|lia|done]|]. intros o q2 [Hs2 Ho]. split; [steps|done].
  - apply wp_give_up; [auto with vnt|intros d]. split; [steps|done].
Qed.

Lemma struct_fields_ok n : forall p fields count,
  parser_ok p -> remaining p < n -> length fields = count ->
  wp (struct_fields n fields count) p (part_ok (fun f => length f.1 = f.2) p).
Proof.
  induction n as [|n IH]; intros p fields count Hok Hn Hl; [lia|].
  tests; [|apply wp_give_up; [auto with vnt|intros d]; split; [steps|done]].
  apply wp_bind, current_text_ok; [done|intros field].
  apply wp_bind. advances TOKEN_IDENTIFIER.
  assert (length (fields ++ [field]) = S count) as Hl' by (rewrite length_app; cbn; lia).
  tests; [apply wp_ret; split; [steps|done]|].
  consumes_token TOKEN_COMMA; [|split; [steps|done]].
  eapply wp_mono; [apply IH; [done|lia|done]|]. intros o q2 [Hs2 Ho]. split; [steps|done].
Qed.

Definition arguments_ok (s : list ast * nat) : Prop :=
  length s.1 = s.2 /\ forallb expression_wf s.1 = true.

Lemma call_arguments_ok n : forall p arguments count,
  parser_ok p -> remaining p < budget -> remaining p < n -> arguments_ok (arguments, count) ->
  wp (call_arguments parse_expression n arguments count) p (part_ok arguments_ok p).
Proof.
  induction n as [|n IH]; intros p arguments count Hok Hb Hn [Hl Hw]; [lia|]. cbn in Hl, Hw.
  apply wp_bind_null. expression e; [|split; [steps|done]].
  assert (arguments_ok (arguments ++ [e], S count)) as Hargs.
  { split; cbn; [rewrite length_app; cbn; lia|]. rewrite forallb_app, Hw. cbn. auto with bool. }
  tests; [apply wp_ret; split; [steps|done]|].
  consumes_token TOKEN_COMMA; [|split; [steps|done]].
  eapply wp_mono; [apply IH; [done|lia|lia|done]|]. intros o q2 [Hs2 Ho]. split; [steps|done].
Qed.

Lemma parse_function_call_ok n base p name :
  parser_ok p -> remaining p < budget -> remaining p <= n -> step base p ->
  parser_ok base -> remaining p < remaining base ->
  wp (parse_function_call parse_expression n name) p (chain_ok limit base).
Proof.
  intros Hok Hb Hn Hbase Hokb Hrem. pose proof (ok_nesting _ Hokb).
  consumes_token TOKEN_LEFT_PAREN. apply wp_bind, wp_gets, wp_bind_null.
  eapply (wp_mono _ _ (part_ok arguments_ok q)).
  { destruct (bool_decide _); [apply wp_ret; split; [by apply step_refl|done]|].
    apply call_arguments_ok; done || lia. }
  intros [[arguments count]|] q0 [Hs Ha]; stepped q0; [|fails]. destruct Ha as [Hl Hw]. cbn in Hl, Hw.
  consumes_token TOKEN_RIGHT_PAREN. apply wp_ret, chain_one; [steps| |cbn; unfold limit, max_depth in *; lia|lia].
  cbn. by rewrite Hw, Hl, Nat.eqb_refl.
Qed.

Lemma parse_struct_ok n p :
  parser_ok p -> remaining p <= budget -> remaining p <= n ->
  token_type (p_current p) = TOKEN_IDENTIFIER ->
  wp (parse_struct n) p (chain_ok limit p).
Proof.
  intros Hok Hb Hn Ht. pose proof (ok_nesting _ Hok).
  apply wp_bind. advances TOKEN_IDENTIFIER. tests; [|gives_up].
  apply wp_bind, current_text_ok; [done|intros name]. apply wp_bind. advances TOKEN_IDENTIFIER.
  consumes_token TOKEN_LEFT_BRACE. apply wp_bind, wp_gets, wp_bind_null.
  eapply (wp_mono _ _ (part_ok (fun f => length f.1 = f.2) q1)).
  { destruct (bool_decide _); [apply wp_ret; split; [by apply step_refl|done]|].
    apply struct_fields_ok; [done|lia|done]. }
  intros [[fields count]|] q2 [Hs Hl]; stepped q2; [|fails]. cbn in Hl.
  consumes_token TOKEN_RIGHT_BRACE. apply wp_ret, chain_one; [steps| |cbn; unfold limit, max_depth in *; lia|lia].
  cbn. by rewrite Hl, Nat.eqb_refl.
Qed.

Lemma block_failed_ok body p (Q : bool -> Parser -> Prop) :
  (forall b, Q b p) -> wp (block_failed body) p Q.
Proof. intros HQ. by apply wp_bind, wp_gets, wp_ret. Qed.

Ltac block body :=
  apply wp_bind; eapply wp_mono; [apply block_ok; [done|lia|lia]|];
  let q := fresh "q" in let Hs := fresh "Hs" in
  intros body q (Hs & ? & ?); stepped q; cbv beta.

Lemma parse_function_ok n p :
  parser_ok p -> remaining p <= budget -> remaining p <= n ->
  token_type (p_current p) = TOKEN_IDENTIFIER ->
  wp (parse_function parse_statement n) p (chain_ok limit p).
Proof.
  intros Hok Hb Hn Ht. pose proof (ok_nesting _ Hok).
  apply wp_bind. advances TOKEN_IDENTIFIER. tests; [|gives_up].
  apply wp_bind, current_text_ok; [done|intros name]. apply wp_bind. advances TOKEN_IDENTIFIER.
  consumes_token TOKEN_LEFT_PAREN. apply wp_bind_null.
  eapply wp_mono; [apply function_parameters_ok; [done|lia|done]|].
  intros [[[parameters types] count]|] q2 [Hs2 Hsig]; stepped q2; [|fails].
  destruct Hsig as [Hp Hty]. cbn in Hp, Hty.
  consumes_token TOKEN_RIGHT_PAREN. apply wp_bind_null.
  eapply wp_mono; [by apply function_return_type_ok|].
  intros [return_type|] q4 [Hs4 _]; stepped q4; [|fails].
  consumes_token TOKEN_LEFT_BRACE. block body.
  apply wp_bind, block_failed_ok. intros [|]; apply wp_ret; [fails|].
  apply chain_one; [steps| | |lia].
  - cbn. by rewrite Hp, Hty, !Nat.eqb_refl.
  - cbn [statement_depth ast_create_typed_function_declaration]. fold (depth_of body).
    unfold limit, max_depth in *. lia.
Qed.

(** * Control statements *)

Definition branch_ok (p : Parser) (ss : list ast) : Prop :=
  forallb statement_wf ss = true /\ depth_of ss + nesting_depth p <= max_depth.

Lemma else_branch_ok n p :
  parser_ok p -> remaining p < budget -> remaining p <= n ->
  wp (else_branch parse_statement n) p (part_ok (branch_ok p) p).
Proof.
  intros Hok Hb Hn. pose proof (ok_nesting _ Hok).
  apply wp_bind, current_is_ok; [intros Hid|apply wp_ret; split; [by apply step_refl|]; split; [done|cbn; unfold max_depth; lia]].
  apply wp_bind. advances TOKEN_IDENTIFIER. apply wp_bind, current_is_ok; [intros Hif|].
  - apply wp_bind. eapply wp_mono; [apply parse_statement_ok; [done|lia]|].
    intros ss q0 [Hs Hw Hd _]. stepped q0.
    destruct (is_null ss); apply wp_ret; (split; [steps|]); [done|split; [done|lia]].
  - consumes_token TOKEN_LEFT_BRACE; [|split; [steps|done]]. block branch.
    apply wp_bind, block_failed_ok.
    intros [|]; apply wp_ret; (split; [steps|]); [done|split; [done|lia]].
Qed.

Lemma parse_if_ok n p :
  parser_ok p -> remaining p <= budget -> remaining p <= n ->
  token_type (p_current p) = TOKEN_IDENTIFIER ->
  wp (parse_if parse_expression parse_statement n) p (chain_ok limit p).
Proof.
  intros Hok Hb Hn Ht. pose proof (ok_nesting _ Hok).
  apply wp_bind. advances TOKEN_IDENTIFIER. apply wp_bind_null. expression condition.
  consumes_token TOKEN_LEFT_BRACE. block body. apply wp_bind, wp_gets, wp_bind, wp_gets.
  destruct (is_null body && _ && _); [apply wp_ret; fails|].
  apply wp_bind_null. eapply wp_mono; [apply else_branch_ok; [done|lia|lia]|].
  intros [branch|] q3 [Hs3 Hbr]; stepped q3; [|fails]. destruct Hbr as [Hbw Hbd].
  apply wp_ret, chain_one; [steps| | |lia].
  - cbn. by apply andb_true_intro; split; [apply andb_true_intro|].
  - cbn [statement_depth ast_create_if]. fold (depth_of body) (depth_of branch). unfold limit, max_depth in *. lia.
Qed.

Lemma parse_while_ok n p :
  parser_ok p -> remaining p <= budget -> remaining p <= n ->
  token_type (p_current p) = TOKEN_IDENTIFIER ->
  wp (parse_while parse_expression parse_statement n) p (chain_ok limit p).
Proof.
  intros Hok Hb Hn Ht. pose proof (ok_nesting _ Hok).
  apply wp_bind. advances TOKEN_IDENTIFIER. apply wp_bind_null. expression condition.
  consumes_token TOKEN_LEFT_BRACE. block body.
  apply wp_bind, block_failed_ok. intros [|]; apply wp_ret; [fails|].
  apply chain_one; [steps| | |lia].
  - cbn. by apply andb_true_intro.
  - cbn [statement_depth ast_create_while]. fold (depth_of body). unfold limit, max_depth in *. lia.
Qed.

Lemma step_counter_up p : parser_ok p -> step p (with_for_counter (S (for_counter p)) p).
Proof.
  intros [? ? ?]. constructor; try done.
  - cbn [for_counter with_for_counter]. lia.
  - exists []. by rewrite app_nil_r.
Qed.

Lemma for_statements_ok counter x iterable body :
  expression_wf iterable = true -> forallb statement_wf body = true ->
  forallb statement_wf (for_statements counter x iterable body) = true /\
  depth_of (for_statements counter x iterable body) = S (Nat.max 1 (depth_of body)).
Proof.
  intros Hi Hb. split; [cbn; by rewrite Hi, Hb|]. unfold depth_of, maximum in *. cbn. lia.
Qed.

Lemma parse_for_ok n p :
  parser_ok p -> remaining p <= budget -> remaining p <= n ->
  token_type (p_current p) = TOKEN_IDENTIFIER ->
  wp (parse_for parse_expression parse_statement n) p (chain_ok limit p).
Proof.
  intros Hok Hb Hn Ht. pose proof (ok_nesting _ Hok).
  apply wp_bind. advances TOKEN_IDENTIFIER. tests; [|gives_up].
  apply wp_bind, current_text_ok; [done|intros x]. apply wp_bind. advances TOKEN_IDENTIFIER.
  apply wp_bind, current_is_ok; [intros Hin|gives_up].
  apply wp_bind. advances TOKEN_IDENTIFIER. apply wp_bind_null. expression iterable.
  consumes_token TOKEN_LEFT_BRACE. block body.
  apply wp_bind, block_failed_ok. intros [|]; [apply wp_ret; fails|].
  apply wp_bind, wp_modify, wp_bind, wp_gets, wp_ret.
  assert (step q4 (with_for_counter (S (for_counter q4)) q4)) as Hup by by apply step_counter_up.
  set (q5 := with_for_counter _ q4) in *. stepped q5.
  destruct (for_statements_ok (for_counter q5) x iterable body) as [Hw Hd]; [done..|].
  constructor; [steps|done|rewrite Hd; unfold limit, max_depth in *; lia|intros _; lia].
Qed.

(** * Assignments *)

Definition target_ok (target : ast) : bool :=
  match target with AST_VARIABLE _ => true | _ => assignable target end.

Lemma target_wf target : target_ok target = true -> expression_wf target = true.
Proof. destruct target; cbn; try done. by destruct operator. Qed.

Lemma target_loop_ok n : forall p target,
  parser_ok p -> remaining p < budget -> remaining p < n -> target_ok target = true ->
  wp (target_loop parse_expression n target) p (part_ok (fun t => target_ok t = true) p).
Proof.
  induction n as [|n IH]; intros p target Hok Hb Hn Ht; [lia|].
  pose proof (target_wf _ Ht) as Hw. apply wp_bind, wp_gets.
  destruct (token_type (p_current p)) eqn:E;
    try (apply wp_ret; split; [by apply step_refl|done]).
  - apply wp_bind. advances TOKEN_DOT. tests.
    + apply wp_bind, current_text_ok; [done|intros member].
      apply wp_bind. advances TOKEN_IDENTIFIER.
      eapply wp_mono; [apply IH; [done|lia|lia|done]|]. intros o q1 [Hs Ho]. split; [steps|done].
    + apply wp_give_up; [auto with vnt|intros d]. split; [steps|done].
  - apply wp_bind. advances TOKEN_LEFT_BRACKET. apply wp_bind.
    expression index; [|split; [steps|done]].
    consumes_token TOKEN_RIGHT_BRACKET; [|split; [steps|done]].
    eapply wp_mono; [apply IH; [done|lia|lia|cbn; auto with bool]|].
    intros o q2 [Hs Ho]. split; [steps|done].
Qed.

Lemma assignment_node_ok target v :
  target_ok target = true -> expression_wf v = true ->
  statement_wf (assignment_node target v) = true /\ statement_depth (assignment_node target v) = 1.
Proof.
  intros Ht Hv. destruct target; try done; cbn in *; try (by rewrite Hv).
  - by rewrite Ht, Hv.
  - by rewrite Ht, Hv.
  - destruct operator; try done. by rewrite Ht, Hv.
Qed.

Lemma assignment_tail_ok base p target :
  parser_ok p -> remaining p <= budget -> step base p -> parser_ok base ->
  remaining p <= remaining base -> target_ok target = true ->
  wp (assignment_tail parse_expression target) p (chain_ok limit base).
Proof.
  intros Hok Hb Hbase Hokb Hrem Ht. pose proof (ok_nesting _ Hokb).
  apply wp_bind, wp_gets. destruct (assignment_operator _) eqn:Hop.
  2:{ apply wp_bind, wp_gets. gives_up. }
  apply wp_bind. eapply (wp_advance_reached (token_type (p_current p)));
    [done|done|intros E; by rewrite E in Hop|]. intros q Hq. reach q.
  apply wp_bind_null. expression v. case_bool_decide.
  - destruct (assignment_node_ok target v) as [Hw Hd]; [done..|].
    apply wp_ret, chain_one; [steps|done|unfold limit, max_depth in *; lia|lia].
  - unfold compound_assignment. destruct (compound_operator _); [|apply wp_ret; fails].
    unfold clone_assignment_target. destruct (clone_expression target) as [lhs|] eqn:Hc; [|gives_up].
    apply clone_expression_eq in Hc as ->.
    destruct (assignment_node_ok target (ast_create_binary target v b)) as [Hw Hd]; [done| |].
    { cbn. apply andb_true_intro. split; [by apply target_wf|done]. }
    apply wp_ret, chain_one; [steps|done|unfold limit, max_depth in *; lia|lia].
Qed.

Lemma parse_identifier_statement_ok n p :
  parser_ok p -> remaining p <= budget -> remaining p <= n ->
  token_type (p_current p) = TOKEN_IDENTIFIER ->
  wp (parse_identifier_statement parse_expression n) p (chain_ok limit p).
Proof.
  intros Hok Hb Hn Ht. pose proof (ok_nesting _ Hok).
  apply wp_bind, current_text_ok; [done|intros name]. apply wp_bind. advances TOKEN_IDENTIFIER.
  assert (step p q) by steps. tests.
  - by apply parse_function_call_ok; try done; lia.
  - apply wp_bind_null. eapply wp_mono; [apply target_loop_ok; done || lia|].
    intros [target|] q0 [Hs Hw]; stepped q0; [|fails]. apply wp_bind, wp_gets.
    assert (wp (assignment_tail parse_expression target) q0 (chain_ok limit p)) as Htail.
    { apply assignment_tail_ok; try done; [lia|steps|lia]. }
    case_bool_decide; [|done]. destruct target; try exact Htail.
    destruct target; try exact Htail. apply parse_function_call_ok; try done; [lia|lia|steps|lia].
Qed.

Lemma parse_dereference_statement_ok p :
  parser_ok p -> remaining p <= budget -> token_type (p_current p) = TOKEN_STAR ->
  wp (parse_dereference_statement parse_expression) p (chain_ok limit p).
Proof.
  intros Hok Hb Ht. pose proof (ok_nesting _ Hok).
  apply wp_bind. advances TOKEN_STAR. apply wp_bind. expression operand.
  apply wp_bind, wp_gets. destruct (assignment_operator _) eqn:Hop; [|gives_up].
  apply wp_bind. eapply (wp_advance_reached (token_type (p_current q0)));
    [done|done|intros E; by rewrite E in Hop|]. intros q1 Hq1. reach q1.
  apply wp_bind_null. expression v. apply wp_ret. unfold dereference_assignment.
  case_bool_decide.
  { apply chain_one; [steps|cbn; auto with bool|cbn; unfold limit, max_depth in *; lia|lia]. }
  destruct (compound_operator _); [|fails].
  destruct (clone_assignment_target _) as [lhs|] eqn:Hc; [|fails].
  apply clone_expression_eq in Hc as ->.
  apply chain_one; [steps| |cbn; unfold limit, max_depth in *; lia|lia]. cbn.
  by repeat (apply andb_true_intro; split).
Qed.

(** * Dispatch *)

Lemma mark_unsafe_ok p q ss :
  chain_ok limit p ss q -> chain_ok limit p (mark_unsafe ss) q.
Proof.
  intros [Hs Hw Hd Hp]. destruct ss as [|s ss]; [by constructor|].
  destruct s; try by constructor. constructor; try done. intros _. by apply Hp.
Qed.

Lemma parse_unsafe_block_ok n p :
  parser_ok p -> remaining p <= budget -> remaining p <= n ->
  token_type (p_current p) = TOKEN_IDENTIFIER ->
  wp (parse_unsafe_block parse_statement n) p (chain_ok limit p).
Proof.
  intros Hok Hb Hn Ht. pose proof (ok_nesting _ Hok).
  apply wp_bind. advances TOKEN_IDENTIFIER. apply wp_bind, current_is_ok; [intros Hid|].
  - apply wp_bind. eapply wp_mono; [apply parse_function_ok; done || lia|].
    intros ss q0 [Hs Hw Hd Hp]. apply wp_ret, mark_unsafe_ok. constructor; [steps|done|lia|].
    intros Hne. specialize (Hp Hne). lia.
  - consumes_token TOKEN_LEFT_BRACE. block body. apply wp_bind, wp_gets.
    destruct (is_null body && _); apply wp_ret; [fails|].
    apply chain_one; [steps|done| |lia].
    cbn [statement_depth ast_create_unsafe_block]. fold (depth_of body). unfold limit, max_depth in *. lia.
Qed.

Lemma on_keyword_ok text m k p :
  (token_type (p_current p) = TOKEN_IDENTIFIER -> wp m p (chain_ok limit p)) ->
  wp k p (chain_ok limit p) -> wp (on_keyword text m k) p (chain_ok limit p).
Proof. intros Hm Hk. by apply wp_bind, current_is_ok. Qed.

Lemma dispatch_statement_ok n p :
  parser_ok p -> remaining p <= budget -> remaining p <= n ->
  nesting_depth p <= VNT_PARSER_MAX_NESTING ->
  wp (dispatch_statement parse_expression parse_statement n) p (chain_ok limit p).
Proof.
  intros Hok Hb Hn Hnd.
  apply on_keyword_ok; [by intros; apply parse_unsafe_block_ok|].
  apply on_keyword_ok; [by intros; apply parse_asm_statement_ok|].
  apply on_keyword_ok; [by intros; apply parse_let_declaration_ok|].
  apply on_keyword_ok; [by intros; apply parse_print_ok|].
  apply on_keyword_ok; [by intros; apply parse_return_ok|].
  apply on_keyword_ok; [by intros; apply keyword_ok|].
  apply on_keyword_ok; [by intros; apply keyword_ok|].
  apply on_keyword_ok; [by intros; apply parse_if_ok|].
  apply on_keyword_ok; [by intros; apply parse_while_ok|].
  apply on_keyword_ok; [by intros; apply parse_for_ok|].
  apply on_keyword_ok; [by intros; apply parse_function_ok|].
  apply on_keyword_ok; [by intros; apply parse_struct_ok|].
  apply wp_bind, wp_gets.
  destruct (token_type (p_current p)) eqn:Ht; try gives_up.
  - by apply parse_identifier_statement_ok.
  - by apply parse_dereference_statement_ok.
Qed.
End statements.
