(* ===== verification/StatementsProps.v ===== *)
(** StatementsProps: what the statement parser and the parser of whole files
    guarantee, and the places where it accepts or rejects more than it means to. *)

From S2P Require Import Prelude Clib Lexer LexerFacts Ast Parser Expressions Literals.
From S2P Require Import Statements ParserFacts Grammar ExpressionsSound ExpressionsComplete.
From S2P Require Import ExpressionsProps StatementsFacts.

(** A chain returned by [parse_statement]: no limit was exceeded if it is not NULL. *)
Definition statement_ok (p : Parser) (ss : list ast) (p' : Parser) : Prop :=
  chain_ok max_depth p ss p' /\ (ss <> [] -> nesting_failed p' = false).

Lemma parse_statement_chain n : forall p,
  parser_ok p -> remaining p + 3 <= n -> wp (parse_statement n) p (statement_ok p).
Proof.
  induction n as [|n IH]; intros p Hok Hn; [lia|].
  pose proof (ok_nesting _ Hok).
  apply wp_bind_enter; [done| |].
  { intros r Hs. split; [|done]. by apply chain_null; [|unfold max_depth; lia|]. }
  intros Hf Hlt Hok1.
  assert (remaining (entered p) = remaining p) as Hr1 by done.
  assert (nesting_depth (entered p) = S (nesting_depth p)) as Hn1 by done.
  apply wp_bind. eapply wp_mono.
  { apply (dispatch_statement_ok _ _ (remaining p)); [| |done|lia|lia|lia].
    - intros q Hq Hlt'. eapply wp_mono; [apply parse_expression_yields; [done|lia]|].
      intros o q' Hy. split; [by eapply yields_step|]. destruct o as [e|]; [|done].
      destruct (yields_reads _ _ _ Hy) as (k & d & ts & He & Hc & _).
      pose proof (consumes_ok _ _ _ Hc (ok_view _ Hq)) as (_ & _ & ?).
      pose proof (derives_nonempty _ _ _ _ _ He). unfold remaining.
      split; [lia|]. by eapply (proj1 derives_wf).
    - intros q Hq Hlt'. eapply wp_mono; [apply IH; [done|lia]|]. by intros ss q' [? _]. }
  intros ss q [Hs Hw Hd Hp]. cbv beta. apply wp_bind, wp_gets, wp_bind_leave, wp_ret.
  assert (step p (left_level q)) as Hs' by by apply step_left_level.
  destruct (nesting_failed q) eqn:Hfq; (split; [|done]).
  - by apply chain_null; [|unfold max_depth; lia|].
  - constructor; [done|done|unfold limit, max_depth in *; lia|exact Hp].
Qed.

(** * Whole files *)

Record program_ok (p : Parser) (o : option ast) (p' : Parser) : Prop := {
  program_step : step p p';
  program_none : o = None \/ token_type (p_current p') = TOKEN_EOF;
  program_tree : match o with
                 | Some program => exists ss, program = AST_PROGRAM ss /\
                     forallb statement_wf ss = true /\ depth_of ss <= max_depth
                 | None => True
                 end;
  program_limits : o <> None -> nesting_failed p = false -> nesting_failed p' = false
}.

Lemma parse_program_ok n : forall base p ss,
  parser_ok p -> remaining p + 4 <= n -> nesting_depth p = 0 ->
  step base p -> (nesting_failed base = false -> nesting_failed p = false) ->
  forallb statement_wf ss = true -> depth_of ss <= max_depth ->
  wp (parse_program n ss) p (program_ok base).
Proof.
  induction n as [|n IH]; intros base p ss Hok Hn Hnd Hbase Hf Hw Hd; [lia|].
  apply wp_bind, wp_gets. case_bool_decide.
  - apply wp_ret. constructor; [done|by right|by exists ss|done].
  - apply wp_bind. eapply wp_mono; [apply parse_statement_chain; [done|lia]|].
    intros s q [[Hs Hsw Hsd Hsp] Hsf]. pose proof (step_nesting _ _ Hs) as Hq.
    destruct s as [|s0 s]; cbn [is_null].
    + apply wp_ret. constructor; [by eapply step_trans|by left|done|done].
    + specialize (Hsp ltac:(done)). specialize (Hsf ltac:(done)).
      apply IH; [by eapply step_ok|lia|congruence|by eapply step_trans|done| |].
      * by rewrite forallb_app, Hw.
      * unfold ast_append. rewrite depth_of_app. lia.
Qed.

Lemma parse_source_ok counter src :
  exists p o p', parse_source counter src = Done (o, p') /\ program_ok p o p' /\
    nesting_depth p = 0 /\ nesting_failed p = false /\ expression_depth p = 0 /\ p_source p = src.
Proof.
  destruct (parser_init_ok counter src) as (p & E & Hok & Hr & Hn & Hf & He & _ & _ & Hs).
  unfold parse_source. rewrite E.
  assert (wp (parser_parse (parser_fuel src)) p (program_ok p)) as Hw.
  { apply parse_program_ok; try done; [unfold parser_fuel; lia|by apply step_refl|cbn; lia]. }
  apply wp_done in Hw as (o & p' & -> & Hp). by exists p, o, p'.
Qed.

(** C24: on every source text the parser returns a program or NULL: it terminates, never
    reads outside of the source buffer, leaves both of its depth counters at zero, and
    returns a program only at the end of the file. *)
Theorem parse_source_total counter src :
  exists o p, parse_source counter src = Done (o, p) /\ parser_ok p /\
    p_source p = src /\ nesting_depth p = 0 /\ expression_depth p = 0 /\
    (o <> None -> token_type (p_current p) = TOKEN_EOF).
Proof.
  destruct (parse_source_ok counter src) as (p & o & p' & -> & [Hst Hnone _ _] & Hn & Hf & He & Hs).
  destruct Hst as [? Hsrc ? Hn' He' ? ? ?]. exists o, p'. split_and!; try done; try congruence.
  intros Ho. by destruct Hnone.
Qed.

(** C30: a program is returned only if no limit on nesting or on operators was exceeded
    anywhere in the file: no enclosing construct swallows that error. *)
Theorem parse_source_limits counter src program p :
  parse_source counter src = Done (Some program, p) -> nesting_failed p = false.
Proof.
  destruct (parse_source_ok counter src) as (p0 & o & p' & -> & [_ _ _ Hl] & Hn & Hf & _).
  intros [= -> ->]. by apply Hl.
Qed.

(** A sample program. *)
Definition sample_program_source : bytes := str "fun f(a: int, b) -> int { return a } for i in xs { y += f(i, 1) }".
Definition sample_program : ast * Parser :=
  match parse_source 0 sample_program_source with
  | Done (Some program, p) => (program, p)
  | _ => (AST_PROGRAM [], parser_at [])
  end.

Lemma parse_source_limits_witness :
  parse_source 0 sample_program_source = Done (Some sample_program.1, sample_program.2) /\
  nesting_failed sample_program.2 = false.
Proof.
  assert (parse_source 0 sample_program_source = Done (Some sample_program.1, sample_program.2)) as H
    by (vm_compute; reflexivity).
  split; [exact H|]. apply (parse_source_limits _ _ _ _ H).
Defined.

Lemma source_wf counter src program p :
  parse_source counter src = Done (Some program, p) ->
  exists ss, program = AST_PROGRAM ss /\ forallb statement_wf ss = true /\
    depth_of ss <= S VNT_PARSER_MAX_NESTING.
Proof.
  destruct (parse_source_ok counter src) as (p0 & o & p' & -> & [_ _ Ht _] & _).
  by intros [= -> ->].
Qed.

(** C27: a parsed program is well formed: statements and expressions stand where they
    belong, every stored count is the length of its list, integers fit in 64 bits,
    assignment targets are assignable, and statements are nested at most 257 deep (256, and
    one more for the loop a for statement is lowered to). *)
Theorem parse_source_wf counter src program p :
  parse_source counter src = Done (Some program, p) ->
  exists ss, program = AST_PROGRAM ss /\ forallb statement_wf ss = true /\
    depth_of ss <= S VNT_PARSER_MAX_NESTING.
Proof. apply source_wf. Qed.

Lemma parse_source_wf_witness :
  parse_source 0 sample_program_source = Done (Some sample_program.1, sample_program.2) /\
  exists ss, sample_program.1 = AST_PROGRAM ss /\ forallb statement_wf ss = true /\
    depth_of ss <= S VNT_PARSER_MAX_NESTING.
Proof.
  assert (parse_source 0 sample_program_source = Done (Some sample_program.1, sample_program.2)) as H
    by (vm_compute; reflexivity).
  split; [exact H|]. apply (parse_source_wf _ _ _ _ H).
Defined.

(** C26: parse_statement keeps the parser invariant and restores the nesting depth and the
    expression depth on every path, errors included; it never moves backwards, moves forward
    whenever it returns a statement, and returns NULL once a nesting limit was exceeded. *)
Theorem parse_statement_balanced n p :
  parser_ok p -> remaining p + 3 <= n ->
  wp (parse_statement n) p (fun ss p' =>
    nesting_depth p' = nesting_depth p /\ expression_depth p' = expression_depth p /\
    parser_ok p' /\ remaining p' <= remaining p /\
    (nesting_failed p = true -> nesting_failed p' = true) /\
    (nesting_failed p' = true -> ss = []) /\
    (ss <> [] -> remaining p' < remaining p)).
Proof.
  intros Hok Hn. eapply wp_mono; [by apply parse_statement_chain|].
  intros ss p' [[[] _ _ Hp] Hf]. split_and!; try done.
  intros Hfailed. destruct ss; [done|]. specialize (Hf ltac:(done)). congruence.
Qed.

Lemma parse_statement_balanced_witness :
  parser_ok (parser_at (str "if x { y = }")) /\
  wp (parse_statement 30) (parser_at (str "if x { y = }")) (fun ss p' => nesting_depth p' = 0).
Proof.
  split; [apply parser_at_ok|]. eapply wp_mono.
  - apply (parse_statement_balanced 30); [apply parser_at_ok|apply Nat.leb_le; vm_compute; reflexivity].
  - intros ss p' [H _]. rewrite H. vm_compute. reflexivity.
Defined.

(** * Copies and compound assignments *)

(** The expressions that can be copied: no call, array literal or null in them. *)
Fixpoint cloneable (e : ast) : bool :=
  match e with
  | AST_VARIABLE _ | AST_INTEGER_LITERAL _ | AST_BOOLEAN_LITERAL _ | AST_STRING_LITERAL _
  | AST_FLOAT_LITERAL _ => true
  | AST_MEMBER_EXPRESSION object _ => cloneable object
  | AST_INDEX_EXPRESSION array index => cloneable array && cloneable index
  | AST_BINARY_EXPRESSION e1 e2 _ => cloneable e1 && cloneable e2
  | AST_UNARY_EXPRESSION operand _ => cloneable operand
  | _ => false
  end.

Lemma clone_expression_cloneable : forall e,
  clone_expression e = if cloneable e then Some e else None.
Proof.
  fix IH 1. intros e. destruct e; try reflexivity; cbn; rewrite ?IH.
  - by destruct value.
  - by destruct (cloneable e1), (cloneable e2).
  - by destruct (cloneable e).
  - by destruct (cloneable e1), (cloneable e2).
  - by destruct (cloneable e).
Qed.

(** Clone_expression gives back an equal tree for every tree without a call, an array
    literal, null or a statement in it, and NULL for every other. *)
Theorem clone_expression_exact e :
  clone_expression e = if cloneable e then Some e else None.
Proof. apply clone_expression_cloneable. Qed.

(** Target op= value becomes the assignment of target op value to the same target, and
    is rejected exactly when the target contains a call, an array literal or null, which
    cannot be copied; a token that is not a compound operator gives NULL. *)
Theorem compound_assignment_exact type target value p :
  match compound_operator type with
  | Some operator =>
      if cloneable target
      then compound_assignment type target value p =
             Done ([assignment_node target (AST_BINARY_EXPRESSION target value operator)], p)
      else exists d, compound_assignment type target value p = Done ([], with_output d p)
  | None => compound_assignment type target value p = Done ([], p)
  end.
Proof.
  unfold compound_assignment, clone_assignment_target. destruct (compound_operator type); [|done].
  rewrite clone_expression_cloneable. destruct (cloneable target); [done|]. by eexists.
Qed.

(** * The lowering of for *)

Lemma print_nonneg_inj a b : (0 <= a -> 0 <= b -> print_nonneg a = print_nonneg b -> a = b)%Z.
Proof.
  intros Ha Hb E. destruct (print_nonneg_spec a Ha) as (_ & _ & <-).
  destruct (print_nonneg_spec b Hb) as (_ & _ & <-). by rewrite E.
Qed.

Lemma print_counter_inj a b :
  print_Z (Z.of_nat a) = print_Z (Z.of_nat b) -> a = b.
Proof.
  unfold print_Z. rewrite !(proj2 (Z.ltb_ge _ 0)) by lia.
  intros H%print_nonneg_inj; lia.
Qed.

(** The hidden variables of two for loops with different counters are different, the
    two variables of a loop are different from each other and from those of other loops, and
    for every int counter their names fit in the 64-byte buffers, so they are never
    truncated. *)
Theorem for_names_distinct a b :
  (for_items_name a = for_items_name b <-> a = b) /\
  (for_index_name a = for_index_name b <-> a = b) /\
  for_items_name a <> for_index_name b /\
  ((Z.of_nat a < 2 ^ 31)%Z -> length (for_items_name a) < 64 /\ length (for_index_name a) < 64).
Proof.
  unfold for_items_name, for_index_name. split_and!.
  - split; [|by intros ->]. by intros E%app_inv_head%print_counter_inj.
  - split; [|by intros ->]. by intros E%app_inv_head%print_counter_inj.
  - cbn. congruence.
  - intros Ha. rewrite !length_app. unfold print_Z.
    rewrite (proj2 (Z.ltb_ge _ 0)) by lia.
    pose proof (print_nonneg_length (Z.of_nat a) 9) as Hl.
    change (10 ^ Z.of_nat 10)%Z with 10000000000%Z in Hl. cbn [length String.list_ascii_of_string str].
    lia.
Qed.

(** * Empty bodies *)

Lemma bytes_eqb_length a b : bytes_eqb a b = true -> length a = length b.
Proof.
  revert b. induction a as [|x a IH]; intros [|y b]; cbn; try done.
  intros [_ H]%andb_prop. by rewrite (IH b H).
Qed.

(** The keyword test on a known name. *)
Lemma wp_current_is text name rest p v (Q : bool -> Parser -> Prop) :
  parser_ok p -> consumes ((TOKEN_IDENTIFIER, name) :: rest) (view p) v ->
  Q (bytes_eqb name (str text)) p -> wp (current_is text) p Q.
Proof.
  intros Hok Hc HQ. pose proof (consumes_current _ _ _ _ _ Hc) as (Ht & Hx & Hne).
  apply wp_gets. cbv beta zeta. rewrite bool_decide_eq_true_2 by done.
  change (token_text (p_source p) (p_current p)) with (current_lexeme_text p). rewrite Hx.
  rewrite <- current_text_length by (done || by rewrite Ht). rewrite Hx. cbn [andb].
  destruct (bytes_eqb name (str text)) eqn:E; [|by rewrite andb_false_r].
  apply bytes_eqb_length in E. by rewrite E, Nat.eqb_refl.
Qed.

(** The run of a statement that starts with a keyword. *)
Lemma wp_on_keyword text name rest p v m k Q :
  parser_ok p -> consumes ((TOKEN_IDENTIFIER, name) :: rest) (view p) v ->
  wp (if bytes_eqb name (str text) then m else k) p Q -> wp (on_keyword text m k) p Q.
Proof. intros Hok Hc HQ. by apply wp_bind; eapply wp_current_is. Qed.

Ltac keyword Hc :=
  eapply wp_on_keyword; [done|exact Hc|];
  lazymatch goal with
  | |- wp (if ?b then _ else _) _ _ => let c := eval vm_compute in b in change b with c; cbv iota
  end.

(** A while statement with an empty body is rejected without any message, whatever its
    condition, unless it is the last thing in the file, where it is accepted. *)
Theorem while_empty_body_rejected n p ts e k d tl tr v :
  parser_ok p -> remaining p + 3 <= n -> nesting_failed p = false -> expression_depth p = 0 ->
  derives 0 ts e k d -> k <= VNT_PARSER_MAX_EXPRESSION_OPERATORS ->
  nesting_depth p + d < VNT_PARSER_MAX_NESTING ->
  consumes ((TOKEN_IDENTIFIER, str "while") :: ts
            ++ [(TOKEN_LEFT_BRACE, tl); (TOKEN_RIGHT_BRACE, tr)]) (view p) v ->
  wp (parse_statement n) p (fun ss p' =>
    view p' = v /\ output p' = output p /\
    ss = if decide (v_type v = TOKEN_EOF) then [AST_WHILE_STATEMENT e []] else []).
Proof.
  intros Hok Hn Hf Hed He Hk Hd Hc. destruct n as [|n]; [lia|].
  apply wp_bind_enter_room; [done..|lia|]. intros Hok1.
  assert (remaining (entered p) = remaining p) as Hr1 by done.
  assert (nesting_depth (entered p) = S (nesting_depth p)) as Hn1 by done.
  assert (expression_depth (entered p) = 0) as He1 by done.
  assert (nesting_failed (entered p) = false) as Hf1 by done.
  apply wp_bind. unfold dispatch_statement.
  change (view p) with (view (entered p)) in Hc. do 9 (keyword Hc).
  apply wp_bind. eapply wp_advance_expected; [done|exact Hc|]. intros q Hq Hc1. reach q.
  apply consumes_app_inv in Hc1 as (v1 & Hc1 & Hc2).
  assert (ends 0 (v_type v1) = true) as Hend by (by destruct Hc2 as (_ & [= -> _] & _)).
  assert (started q = with_expression 0 0 q) as Hst.
  { unfold started. by rewrite (proj2 (Nat.eqb_eq _ 0)) by congruence. }
  apply wp_bind_null. eapply parse_expression_parses;
    [done|lia|congruence| |exact He|exact Hc1|exact Hend|].
  { rewrite Hst. split; cbn; [done|lia]. }
  intros q1 Hq1. rewrite Hst in Hq1.
  assert (view q1 = v1) as Hv1 by (by eapply reached_view; [exact Hq1|]).
  assert (parser_ok (with_expression 0 0 q)) as Hok2.
  { rewrite <- Hst. by apply started_ok. }
  reach q1. rewrite <- Hv1 in Hc2. apply wp_bind_check.
  eapply wp_consume_expected; [done|exact Hc2|]. intros q2 Hq2 Hc3. reach q2.
  pose proof (consumes_current _ _ _ _ _ Hc3) as (Ht3 & _).
  assert (remaining (with_expression 0 0 q) = remaining q) as Hr2 by done.
  apply wp_bind. destruct n as [|n]; [lia|]. apply wp_bind, wp_gets, wp_bind, wp_gets.
  rewrite Ht3. cbn [negb andb bool_decide decide_rel].
  apply wp_bind_check. eapply wp_consume_expected; [done|exact Hc3|]. intros q3 Hq3 Hc4. reach q3.
  apply wp_ret, wp_bind. apply wp_bind, wp_gets, wp_ret.
  cbn [is_null andb].
  assert (view q3 = v) as Hv3 by exact Hc4.
  assert (output q3 = output p) as Hout.
  { transitivity (output q2); [by eapply reached_output|]. transitivity (output q1);
      [by eapply reached_output|]. transitivity (output (with_expression 0 0 q));
      [by eapply reached_output|]. by apply (reached_output _ _ _ _ Hq). }
  assert (nesting_failed (with_expression 0 0 q) = nesting_failed q) as Hfq by done.
  assert (nesting_failed q3 = false) as Hf3 by congruence.
  change (token_type (p_current q3)) with (v_type (view q3)). rewrite Hv3.
  destruct (decide (v_type v = TOKEN_EOF)) as [Heof|Heof];
    [rewrite (bool_decide_eq_true_2 _ Heof)|rewrite (bool_decide_eq_false_2 _ Heof)];
    cbn [negb]; apply wp_ret, wp_bind, wp_gets; rewrite Hf3; apply wp_bind_leave, wp_ret; done.
Qed.

Lemma while_empty_body_rejected_witness :
  let p := parser_at (str "while 7 { } x = 1") in
  wp (parse_statement 30) p (fun ss p' => output p' = [] /\ ss = []).
Proof.
  intros p. eapply wp_mono.
  - apply (while_empty_body_rejected 30 p [(TOKEN_INTEGER, str "7")] (AST_INTEGER_LITERAL 7) 0 1
             (str "{") (str "}") (v_next (v_next (v_next (v_next (view p))))));
      [apply parser_at_ok|apply Nat.leb_le; vm_compute; reflexivity|vm_compute; reflexivity
      |vm_compute; reflexivity| |apply Nat.leb_le; reflexivity|apply Nat.leb_le; vm_compute; reflexivity|].
    + apply derives_expression, (derives_lift 1 9); [lia|lia|].
      apply derives_integer; [apply Nat.ltb_lt; reflexivity|reflexivity].
    + repeat (split; [vm_compute; discriminate|split; [vm_compute; reflexivity|]]). reflexivity.
  - intros ss p' (_ & -> & ->). split; [vm_compute; reflexivity|vm_compute; reflexivity].
Defined.
