(* ===== verification/RoundTrip.v ===== *)
(** RoundTrip: expression trees are written as source text, with parentheses
    only where the precedence or the associativity asks for them, and read back
    by the lexer and the parser as the same tree. *)

From S2P Require Import Prelude Clib Lexer LexerFacts LexerProps Ast Parser.
From S2P Require Import Expressions Literals Statements ParserFacts Grammar.
From S2P Require Import ExpressionsSound ExpressionsComplete ExpressionsProps.
From S2P Require Import StatementsFacts StatementsProps.

(** * Reading a rendered text *)

(** A lexeme as the grammar reads it: a string without its quotes. *)
Definition grammar_token (l : lexeme_t) : lexeme_t :=
  if decide (l.1 = TOKEN_STRING) then (l.1, take (length l.2 - 2) (drop 1 l.2)) else l.

(** The tokens that [v] is about to read. *)
Definition sees (v : View) (ls : list lexeme_t) : Prop :=
  match ls with
  | [] => v_type v = TOKEN_EOF
  | l :: ls => v_lexeme v = grammar_token l /\ in_source (v_lexer v) /\
               suffix (v_lexer v) = " "%char :: render ls
  end.

Lemma token_text_scan lx type n :
  lexeme (suffix (lexeme_point lx)) = (type, n) ->
  token_text (source lx) (scan lx).1 =
    (if decide (type = TOKEN_STRING)
     then take (n - 2) (drop 1 (suffix (lexeme_point lx))) else take n (suffix (lexeme_point lx))).
Proof.
  intros E. rewrite scan_unfold, E. cbn [fst snd]. unfold token_text, token_of.
  cbn [token_start token_length]. unfold suffix. rewrite drop_drop.
  case_decide; [by rewrite Nat.add_1_r|done].
Qed.

Lemma sees_scan lx ls prev :
  in_source lx -> forallb lexeme_wf ls = true ->
  suffix lx = render ls \/ suffix lx = " "%char :: render ls ->
  sees {| v_lexer := (scan lx).2; v_current := (scan lx).1; v_previous := prev |} ls.
Proof.
  intros Hin Hwf Hs. destruct ls as [|[type text] ls].
  - unfold sees, v_type. cbn [v_current]. rewrite scan_unfold.
    assert (suffix (lexeme_point lx) = []) as ->; [|done].
    unfold lexeme_point. rewrite suffix_mark, suffix_moved. by destruct Hs as [-> | ->].
  - cbn [forallb] in Hwf. apply andb_prop in Hwf as [Hw Hwf].
    destruct (scan_render lx type text ls Hs Hw) as [Hrb Hsuf].
    unfold lexeme_wf in Hw. apply andb_prop in Hw as [Hok Hu%negb_true_iff%bool_decide_eq_false].
    cbn [fst snd] in Hok, Hu. injection Hrb as Hty Htext.
    assert (type <> TOKEN_EOF) as Heof by (by intros ->).
    assert (token_type (scan lx).1 <> TOKEN_EOF) as Heof' by congruence.
    cbn [sees v_lexer v_current]. split_and!; [|by apply scan_scanned|done].
    unfold v_lexeme, v_type, v_text, v_source, grammar_token. cbn [v_lexer v_current fst snd].
    rewrite scan_source, Hty.
    destruct (lexeme (suffix (lexeme_point lx))) as [type' n] eqn:E.
    rewrite (token_text_scan _ _ _ E).
    assert (type' = type) as ->.
    { rewrite scan_unfold, E in Hty. done. }
    assert (text = take n (suffix (lexeme_point lx))) as Ht.
    { rewrite <- Htext. unfold lexeme_text.
      rewrite lexeme_start_scan, lexeme_length_scan by done. by rewrite E. }
    case_decide as Hst; [|by rewrite Ht]. subst type. f_equal.
    pose proof (lexeme_bounds _ _ _ E) as (_ & Hle & _). specialize (Hle ltac:(done)).
    rewrite Ht, length_take, Nat.min_l by done.
    rewrite Hst in E. pose proof (string_lexeme_length _ _ E).
    rewrite skipn_firstn_comm, take_take, Nat.min_l by lia. done.
Qed.

(** A view that sees [ls] consumes them up to the end of the file. *)
Lemma sees_consumes ls : forall v,
  forallb lexeme_wf ls = true -> sees v ls ->
  exists v', consumes (map grammar_token ls) v v' /\ v_type v' = TOKEN_EOF.
Proof.
  induction ls as [|l ls IH]; intros v Hwf Hs; [by exists v|].
  cbn [forallb] in Hwf. apply andb_prop in Hwf as [Hw Hwf]. destruct Hs as (Hl & Hin & Hs).
  destruct (IH (v_next v) Hwf) as (v' & Hc & Hv'); [by apply sees_scan; [| |right]|].
  exists v'. split; [|done]. cbn [map consumes]. split_and!; [|done|done].
  assert (v_type v = l.1) as ->.
  { change (v_type v) with (v_lexeme v).1. rewrite Hl. unfold grammar_token. by case_decide. }
  intros E. unfold lexeme_wf in Hw. apply andb_prop in Hw as [Hok _].
  destruct l as [type text]. cbn in E, Hok. by subst.
Qed.

(** The parser at the start of a rendered text. *)
Lemma parser_init_sees counter ls :
  forallb lexeme_wf ls = true ->
  exists p v, parser_init counter (lexer_init (render ls)) = Done p /\ parser_ok p /\
    remaining p <= S (length (render ls)) /\ nesting_depth p = 0 /\ nesting_failed p = false /\
    expression_depth p = 0 /\ consumes (map grammar_token ls) (view p) v /\ v_type v = TOKEN_EOF.
Proof.
  intros Hwf. set (lx := lexer_init (render ls)).
  destruct (parser_init_ok counter (render ls)) as (p & E & Hok & Hr & Hn & Hf & He & _).
  assert (in_source lx) as Hin by (unfold in_source; cbn; lia).
  assert (sees (view p) ls) as Hs.
  { unfold parser_init, parser_advance in E. cbn [p_lexer] in E. fold lx in E.
    rewrite lexer_next_scan in E by done. destruct (scan lx) as [t lx'] eqn:Es.
    injection E as <-. unfold view. cbn [p_lexer p_current p_previous with_tokens].
    pose proof (sees_scan lx ls unknown_token Hin Hwf) as H. rewrite Es in H. apply H.
    left. unfold suffix. apply drop_0. }
  destruct (sees_consumes ls (view p) Hwf Hs) as (v & Hc & Hv). by exists p, v.
Qed.

(** * Printing *)

Definition level_of (operator : BinaryOperator) : nat :=
  match operator with
  | BINARY_OR => 1
  | BINARY_AND => 2
  | BINARY_EQUAL | BINARY_NOT_EQUAL => 3
  | BINARY_GREATER | BINARY_LESS | BINARY_GREATER_EQUAL | BINARY_LESS_EQUAL => 4
  | BINARY_ADD | BINARY_SUBTRACT => 5
  | BINARY_MULTIPLY | BINARY_DIVIDE | BINARY_MODULO => 6
  end.

Definition binary_lexeme (operator : BinaryOperator) : lexeme_t :=
  match operator with
  | BINARY_ADD => (TOKEN_PLUS, str "+")
  | BINARY_SUBTRACT => (TOKEN_MINUS, str "-")
  | BINARY_MULTIPLY => (TOKEN_STAR, str "*")
  | BINARY_DIVIDE => (TOKEN_SLASH, str "/")
  | BINARY_MODULO => (TOKEN_PERCENT, str "%")
  | BINARY_EQUAL => (TOKEN_EQUAL_EQUAL, str "==")
  | BINARY_NOT_EQUAL => (TOKEN_BANG_EQUAL, str "!=")
  | BINARY_GREATER => (TOKEN_GREATER, str ">")
  | BINARY_LESS => (TOKEN_LESS, str "<")
  | BINARY_GREATER_EQUAL => (TOKEN_GREATER_EQUAL, str ">=")
  | BINARY_LESS_EQUAL => (TOKEN_LESS_EQUAL, str "<=")
  | BINARY_AND => (TOKEN_AND_AND, str "&&")
  | BINARY_OR => (TOKEN_OR_OR, str "||")
  end.

Definition unary_lexeme (operator : UnaryOperator) : lexeme_t :=
  match operator with
  | UNARY_NOT => (TOKEN_BANG, str "!")
  | UNARY_NEGATE => (TOKEN_MINUS, str "-")
  | UNARY_REFERENCE => (TOKEN_AMPERSAND, str "&")
  | UNARY_DEREFERENCE => (TOKEN_STAR, str "*")
  end.

Definition left_paren : lexeme_t := (TOKEN_LEFT_PAREN, str "(").
Definition right_paren : lexeme_t := (TOKEN_RIGHT_PAREN, str ")").
Definition left_bracket : lexeme_t := (TOKEN_LEFT_BRACKET, str "[").
Definition right_bracket : lexeme_t := (TOKEN_RIGHT_BRACKET, str "]").
Definition comma : lexeme_t := (TOKEN_COMMA, str ",").
Definition dot : lexeme_t := (TOKEN_DOT, str ".").
Definition minus : lexeme_t := (TOKEN_MINUS, str "-").

(** Text of level [m] at a place of level [l]: in parentheses if it is looser. *)
Definition wrap (l m : nat) (ts : list lexeme_t) : list lexeme_t :=
  if m <? l then left_paren :: ts ++ [right_paren] else ts.

Fixpoint separate (tss : list (list lexeme_t)) : list lexeme_t :=
  match tss with
  | [] => []
  | [ts] => ts
  | ts :: tss => ts ++ comma :: separate tss
  end.

(** The lexemes of [e] at a place of level [l] (the levels of [derives]). *)
Fixpoint print (l : nat) (e : ast) : list lexeme_t :=
  match e with
  | AST_BINARY_EXPRESSION e1 e2 operator =>
      let m := level_of operator in
      wrap l m (print m e1 ++ binary_lexeme operator :: print (S m) e2)
  | AST_UNARY_EXPRESSION operand operator => wrap l 7 (unary_lexeme operator :: print 7 operand)
  | AST_INDEX_EXPRESSION array index =>
      wrap l 8 (print 8 array ++ left_bracket :: print 0 index ++ [right_bracket])
  | AST_MEMBER_EXPRESSION object member =>
      wrap l 8 (print 8 object ++ [dot; (TOKEN_IDENTIFIER, member)])
  | AST_INTEGER_LITERAL value =>
      if (value <? 0)%Z then wrap l 7 [minus; (TOKEN_INTEGER, print_nonneg (- value))]
      else [(TOKEN_INTEGER, print_nonneg value)]
  | AST_STRING_LITERAL value => [(TOKEN_STRING, string_literal value)]
  | AST_BOOLEAN_LITERAL value =>
      [(TOKEN_IDENTIFIER, if value then str "true" else str "false")]
  | AST_NULL_LITERAL => [(TOKEN_IDENTIFIER, str "null")]
  | AST_VARIABLE name => [(TOKEN_IDENTIFIER, name)]
  | AST_FUNCTION_CALL name arguments _ =>
      (TOKEN_IDENTIFIER, name) :: left_paren :: separate (map (print 0) arguments) ++ [right_paren]
  | AST_ARRAY_LITERAL elements _ =>
      left_bracket :: separate (map (print 0) elements) ++ [right_bracket]
  | _ => []
  end.

(** The nesting the parser needs for text of level [m] at a place of level [l]. *)
Definition wrap_nesting (l m d : nat) : nat := if (l =? 0) || (m <? l) then S d else d.

Fixpoint nesting (l : nat) (e : ast) : nat :=
  match e with
  | AST_BINARY_EXPRESSION e1 e2 operator =>
      let m := level_of operator in
      wrap_nesting l m (Nat.max (nesting m e1) (nesting (S m) e2))
  | AST_UNARY_EXPRESSION operand _ => wrap_nesting l 7 (S (nesting 7 operand))
  | AST_INDEX_EXPRESSION array index =>
      wrap_nesting l 8 (Nat.max (nesting 8 array) (nesting 0 index))
  | AST_MEMBER_EXPRESSION object _ => wrap_nesting l 8 (nesting 8 object)
  | AST_INTEGER_LITERAL value =>
      if (value <? 0)%Z then wrap_nesting l 7 1 else wrap_nesting l 9 0
  | AST_FUNCTION_CALL _ arguments _ => wrap_nesting l 9 (maximum (map (nesting 0) arguments))
  | AST_ARRAY_LITERAL elements _ => wrap_nesting l 9 (maximum (map (nesting 0) elements))
  | _ => wrap_nesting l 9 0
  end.

Definition identifier_ok (name : bytes) : bool := lexeme_ok TOKEN_IDENTIFIER name.

(** Trees that have a spelling: the integers a literal denotes, no floating
    point literal, names that are identifiers. *)
Fixpoint printable (e : ast) : bool :=
  match e with
  | AST_BINARY_EXPRESSION e1 e2 _ => printable e1 && printable e2
  | AST_UNARY_EXPRESSION operand _ => printable operand
  | AST_INDEX_EXPRESSION array index => printable array && printable index
  | AST_MEMBER_EXPRESSION object member => printable object && identifier_ok member
  | AST_INTEGER_LITERAL value =>
      (value =? INT64_MIN)%Z || ((0 <=? value)%Z && (value <=? INT64_MAX)%Z)
  | AST_STRING_LITERAL value => forallb (fun c => negb (c =? NUL)%char) value
  | AST_BOOLEAN_LITERAL _ | AST_NULL_LITERAL => true
  | AST_VARIABLE name =>
      identifier_ok name && negb (bytes_eqb name (str "true")) &&
      negb (bytes_eqb name (str "false")) && negb (bytes_eqb name (str "null"))
  | AST_FUNCTION_CALL name arguments count =>
      identifier_ok name && (count =? length arguments) && forallb printable arguments
  | AST_ARRAY_LITERAL elements count => (count =? length elements) && forallb printable elements
  | _ => false
  end.

(** * Printed text is well formed and derives the tree *)

Lemma wrap_wf l m ts : forallb lexeme_wf ts = true -> forallb lexeme_wf (wrap l m ts) = true.
Proof.
  intros H. unfold wrap. case_match; [|done]. cbn [forallb]. rewrite forallb_app, H. done.
Qed.

Lemma separate_wf tss :
  forallb (forallb lexeme_wf) tss = true -> forallb lexeme_wf (separate tss) = true.
Proof.
  induction tss as [|ts tss IH]; [done|]. cbn [forallb]. intros [Hts Htss]%andb_prop.
  specialize (IH Htss). cbn [separate]. destruct tss; [done|].
  rewrite forallb_app, Hts. cbn [forallb]. by rewrite IH.
Qed.

Lemma identifier_wf name : identifier_ok name = true -> lexeme_wf (TOKEN_IDENTIFIER, name) = true.
Proof. intros H. unfold lexeme_wf, identifier_ok in *. cbn [fst snd]. by rewrite H. Qed.

Lemma integer_wf z : (0 <= z)%Z -> lexeme_wf (TOKEN_INTEGER, print_nonneg z) = true.
Proof. intros H. unfold lexeme_wf. cbn [fst snd]. by rewrite print_nonneg_ok. Qed.

Lemma forallb_map {A B} (f : A -> B) (p : B -> bool) l :
  forallb p (map f l) = forallb (fun x => p (f x)) l.
Proof. induction l as [|x l IH]; [done|]. cbn. by rewrite IH. Qed.

Lemma print_wf : forall e l, printable e = true -> forallb lexeme_wf (print l e) = true.
Proof.
  fix IH 1. intros e l. destruct e; try discriminate; cbn [printable print]; intros H.
  - apply andb_prop in H as [[Hn _]%andb_prop Ha]. cbn [forallb].
    rewrite identifier_wf by done. rewrite forallb_app, separate_wf; [done|].
    rewrite forallb_map. clear Hn. induction arguments as [|a arguments IHa]; [done|]. cbn in Ha |- *.
    apply andb_prop in Ha as [Ha Has]. by rewrite (IH a 0 Ha), (IHa Has).
  - cbn [forallb]. rewrite andb_true_r. unfold lexeme_wf. cbn [fst snd].
    by rewrite string_literal_ok by by apply no_NUL.
  - apply orb_prop in H as [->%Z.eqb_eq|[H1%Z.leb_le H2%Z.leb_le]%andb_prop]; [by apply wrap_wf|].
    rewrite (proj2 (Z.ltb_ge value 0)) by done. cbn [forallb]. by rewrite integer_wf.
  - by destruct value.
  - done.
  - apply andb_prop in H as [_ Ha]. cbn [forallb].
    rewrite forallb_app, separate_wf; [done|].
    rewrite forallb_map. induction elements as [|a elements IHa]; [done|]. cbn in Ha |- *.
    apply andb_prop in Ha as [Ha Has]. by rewrite (IH a 0 Ha), (IHa Has).
  - apply andb_prop in H as [[[Hn _]%andb_prop _]%andb_prop _]. cbn [forallb]. by rewrite identifier_wf.
  - apply andb_prop in H as [H1 H2]. apply wrap_wf. rewrite forallb_app, (IH _ _ H1).
    cbn [forallb]. rewrite forallb_app, (IH _ _ H2). done.
  - apply andb_prop in H as [H1 H2]. apply wrap_wf. rewrite forallb_app, (IH _ _ H1).
    cbn [forallb]. by rewrite identifier_wf.
  - apply andb_prop in H as [H1 H2]. apply wrap_wf. rewrite forallb_app, (IH _ _ H1).
    cbn [forallb]. rewrite (IH _ _ H2). by destruct operator.
  - apply wrap_wf. cbn [forallb]. rewrite (IH _ _ H). by destruct operator.
Qed.

Lemma level_of_operator operator :
  1 <= level_of operator <= 6 /\
  level_operator (level_of operator) (binary_lexeme operator).1 = Some operator.
Proof. destruct operator; cbn; split; done || lia. Qed.

(** The tokens of a list of lexemes. *)
Definition tokens (ls : list lexeme_t) : list lexeme_t := map grammar_token ls.

Lemma derives_wrap l m ts e k d :
  1 <= m <= 9 -> l <= 9 -> derives m (tokens ts) e k d ->
  derives l (tokens (wrap l m ts)) e k (wrap_nesting l m d).
Proof.
  intros Hm Hl H. assert (derives 0 (tokens ts) e k (S d)) as H0.
  { apply derives_expression. apply (derives_lift 1 m); [lia..|done]. }
  unfold wrap, wrap_nesting. destruct (Nat.ltb_spec m l).
  - rewrite orb_true_r. apply (derives_lift l 9); [lia..|].
    unfold tokens. cbn [map]. rewrite map_app. by apply derives_parenthesis.
  - destruct (Nat.eqb_spec l 0) as [->|]; [done|]. cbn [orb]. by apply (derives_lift l m); [lia..|].
Qed.

(** The same without parentheses. *)
Lemma derives_primary l ts e k d :
  l <= 9 -> derives 9 (tokens ts) e k d -> derives l (tokens ts) e k (wrap_nesting l 9 d).
Proof.
  intros Hl H. apply (derives_wrap l 9 ts e k d) in H; [|lia..].
  unfold wrap in H. by rewrite (proj2 (Nat.ltb_ge 9 l)) in H by lia.
Qed.

(** An integer that starts an expression is in the range of literals. *)
Lemma derives_starts_integer l ts e k d :
  derives l ts e k d ->
  match ts with (TOKEN_INTEGER, text) :: _ => is_Some (integer_literal text) | _ => True end.
Proof.
  intros H. induction H; try done;
    try (match goal with
         | Hd : derives _ ?ts1 _ _ _ |- context [?ts1 ++ _] =>
             pose proof (derives_nonempty _ _ _ _ _ Hd);
             destruct ts1 as [|[[] ?] ?]; [cbn in *; lia|done..]
         end).
  - by destruct type.
Qed.

(** A list of printed expressions. *)
Lemma derives_separate (f : ast -> list lexeme_t) (g h : ast -> nat) es :
  (forall e, In e es -> derives 0 (tokens (f e)) e (g e) (h e)) ->
  derives_list (tokens (separate (map f es))) es (total (map g es)) (maximum (map h es)).
Proof.
  unfold total, maximum. induction es as [|e es IH]; intros H; [constructor|].
  assert (derives 0 (tokens (f e)) e (g e) (h e)) as He by (apply H; by left).
  destruct es as [|e' es]; cbn [map foldr separate].
  - rewrite Nat.add_0_r, Nat.max_0_r. by constructor.
  - unfold tokens in *. rewrite map_app. cbn [map]. apply derives_more; [done|].
    apply IH. intros e0 Hin. apply H. by right.
Qed.

(** Names and literals that are one token. *)
Lemma derives_name_print name e :
  primary_name name = e -> derives 9 (tokens [(TOKEN_IDENTIFIER, name)]) e 0 0.
Proof. intros <-. apply derives_name. Qed.

Lemma print_integer value l :
  l <= 9 -> printable (AST_INTEGER_LITERAL value) = true ->
  derives l (tokens (print l (AST_INTEGER_LITERAL value))) (AST_INTEGER_LITERAL value) 0
    (nesting l (AST_INTEGER_LITERAL value)).
Proof.
  intros Hl H. cbn [printable print nesting] in *.
  apply orb_prop in H as [->%Z.eqb_eq|[H1%Z.leb_le H2%Z.leb_le]%andb_prop].
  - apply (derives_wrap l 7 _ (ast_create_integer INT64_MIN)); [lia|done|].
    by apply derives_int64_min.
  - rewrite (proj2 (Z.ltb_ge value 0)) by done. apply derives_primary; [done|].
    destruct (integer_literal_print value [] ltac:(lia)) as (_ & Hlen & Hval).
    by apply derives_integer.
Qed.

Lemma derives_print_string value l :
  l <= 9 -> derives l (tokens [(TOKEN_STRING, string_literal value)]) (AST_STRING_LITERAL value) 0
    (wrap_nesting l 9 0).
Proof.
  intros Hl. apply derives_primary; [done|]. unfold tokens, string_literal. cbn [map].
  unfold grammar_token. cbn [fst snd]. rewrite decide_True by done.
  assert (take (length (quote :: encode_string value ++ [quote]) - 2)
            (drop 1 (quote :: encode_string value ++ [quote])) = encode_string value) as ->.
  { change (drop 1 (quote :: ?l)) with l. cbn [length]. rewrite length_app. cbn [length].
    rewrite Nat.add_1_r. cbn [Nat.sub]. rewrite Nat.sub_0_r. apply take_app_length. }
  pose proof (derives_string (encode_string value)) as Hd. by rewrite decode_encode in Hd.
Qed.

(** The operand of a unary operator does not start with the magnitude of INT64_MIN. *)
Lemma print_not_int64_min operator ls l e k d :
  forallb lexeme_wf ls = true -> derives l (tokens ls) e k d ->
  starts_int64_min operator (tokens ls) = false.
Proof.
  intros Hwf H%derives_starts_integer. destruct ls as [|[type text] ls]; [done|].
  destruct (decide (type = TOKEN_INTEGER)) as [->|Ht].
  2:{ unfold tokens, grammar_token. cbn [map fst snd]. by case_decide; destruct type. }
  unfold tokens, grammar_token in *. cbn [map fst snd] in *.
  rewrite decide_False in H |- * by done. cbn [starts_int64_min forallb] in *.
  apply andb_prop in Hwf as [[Hok _]%andb_prop _]. cbn [fst snd] in Hok.
  assert (is_int64_min_magnitude text = false) as ->; [|by rewrite andb_false_r].
  destruct H as [v Hv]. destruct (integer_literal_values text Hok) as [Hex Hmin].
  apply Hex in Hv as [Hv Hle]. apply not_true_is_false. rewrite Hmin, Hv. intros [= ->].
  by vm_compute in Hle.
Qed.

Lemma derives_print : forall e l, l <= 9 -> printable e = true ->
  derives l (tokens (print l e)) e (operator_nodes e) (nesting l e).
Proof.
  fix IH 1. intros e l Hl H. destruct e; try discriminate.
  - cbn [printable print nesting operator_nodes] in *.
    apply andb_prop in H as [[Hn Hc%Nat.eqb_eq]%andb_prop Ha]. subst argument_count.
    apply derives_primary; [done|]. unfold tokens. cbn [map]. rewrite map_app.
    apply derives_call, derives_separate.
    induction arguments as [|a arguments IHa]; [done|]. cbn in Ha.
    apply andb_prop in Ha as [Ha Has]. intros e [<-|Hin]; [by apply IH; [lia|]|].
    by apply IHa.
  - by apply derives_print_string.
  - by apply print_integer.
  - apply derives_primary; [done|]. destruct value; by apply derives_name_print.
  - apply derives_primary; [done|]. by apply derives_name_print.
  - cbn [printable print nesting operator_nodes] in *.
    apply andb_prop in H as [Hc%Nat.eqb_eq Ha]. subst element_count.
    apply derives_primary; [done|]. unfold tokens. cbn [map]. rewrite map_app.
    apply derives_array, derives_separate.
    induction elements as [|a elements IHa]; [done|]. cbn in Ha.
    apply andb_prop in Ha as [Ha Has]. intros e [<-|Hin]; [by apply IH; [lia|]|].
    by apply IHa.
  - cbn [printable] in H. apply andb_prop in H as [[[Hn H1]%andb_prop H2]%andb_prop H3].
    apply derives_primary; [done|]. apply derives_name_print. unfold primary_name.
    apply negb_true_iff in H1, H2, H3. by rewrite H1, H2, H3.
  - cbn [printable print nesting operator_nodes] in *. apply andb_prop in H as [H1 H2].
    apply derives_wrap; [lia|done|]. unfold tokens. rewrite map_app. cbn [map]. rewrite map_app.
    rewrite <- Nat.add_succ_r. apply derives_index; apply IH; done || lia.
  - cbn [printable print nesting operator_nodes] in *. apply andb_prop in H as [H1 H2].
    apply derives_wrap; [lia|done|]. unfold tokens. rewrite map_app.
    rewrite <- (Nat.add_1_r (operator_nodes e)). apply derives_member, IH; done || lia.
  - cbn [printable print nesting operator_nodes] in *. apply andb_prop in H as [H1 H2].
    destruct (level_of_operator operator) as [Hm Hop].
    apply derives_wrap; [lia|done|]. unfold tokens. rewrite map_app. cbn [map].
    rewrite <- Nat.add_succ_r.
    assert (grammar_token (binary_lexeme operator) = binary_lexeme operator) as -> by (by destruct operator).
    rewrite (surjective_pairing (binary_lexeme operator)).
    apply derives_binary; [done|apply IH; done || lia|apply IH; done || lia].
  - cbn [printable print nesting operator_nodes] in *.
    assert (derives 7 (tokens (print 7 e)) e (operator_nodes e) (nesting 7 e)) as He
      by (apply IH; done || lia).
    apply derives_wrap; [lia|done|]. unfold tokens. cbn [map].
    assert (grammar_token (unary_lexeme operator) = unary_lexeme operator) as -> by (by destruct operator).
    rewrite (surjective_pairing (unary_lexeme operator)).
    apply derives_unary; [by destruct operator| |done].
    by eapply print_not_int64_min; [apply print_wf|].
Qed.

(** * The round trip *)

(** C1: an expression tree written out as text, with parentheses only where precedence or
    associativity needs them, is read back by the lexer and the parser as the same tree, the
    whole text being consumed, as long as it stays within the limits on operators and
    nesting. *)
Theorem print_parse_roundtrip e counter :
  printable e = true ->
  operator_nodes e <= VNT_PARSER_MAX_EXPRESSION_OPERATORS -> nesting 0 e <= VNT_PARSER_MAX_NESTING ->
  exists p p', parser_init counter (lexer_init (render (print 0 e))) = Done p /\
    parse_expression (parser_fuel (render (print 0 e))) p = Done (Some e, p') /\
    token_type (p_current p') = TOKEN_EOF.
Proof.
  intros Hpr Hops Hnest. pose proof (print_wf e 0 Hpr) as Hwf.
  destruct (parser_init_sees counter (print 0 e) Hwf) as (p & v & Hi & Hok & Hr & Hn & Hf & Hd & Hc & Hv).
  pose proof (derives_print e 0 ltac:(lia) Hpr) as He.
  assert (expression_operator_count (started p) = 0) as Hcount.
  { unfold started. by rewrite (proj2 (Nat.eqb_eq _ 0)) by done. }
  exists p, (moved_to v (operator_nodes e) (started p)). split_and!; [done| |done].
  eapply parse_expression_moves; try done; [|by rewrite Hv|lia|lia].
  unfold parser_fuel. lia.
Qed.

Lemma print_parse_roundtrip_witness :
  let e := AST_BINARY_EXPRESSION (AST_VARIABLE (str "a"))
             (AST_UNARY_EXPRESSION
                (AST_BINARY_EXPRESSION (AST_INTEGER_LITERAL INT64_MIN) (AST_STRING_LITERAL [quote])
                   BINARY_SUBTRACT) UNARY_NEGATE) BINARY_SUBTRACT in
  printable e = true /\ render (print 0 e) = str "a - - ( - 9223372036854775808 - " ++ [quote; backslash; quote; quote] ++ str " ) " /\
  exists p p', parser_init 0 (lexer_init (render (print 0 e))) = Done p /\
    parse_expression (parser_fuel (render (print 0 e))) p = Done (Some e, p') /\
    token_type (p_current p') = TOKEN_EOF.
Proof.
  intros e. split; [reflexivity|]. split; [reflexivity|].
  apply (print_parse_roundtrip e 0); [reflexivity|apply Nat.leb_le; reflexivity..].
Defined.

(** The grammar the parser implements is unambiguous: the lexemes of a text derive at
    most one expression within the limits, with one count of operators. *)
Theorem grammar_unambiguous ls e1 k1 d1 e2 k2 d2 :
  forallb lexeme_wf ls = true ->
  derives 0 (tokens ls) e1 k1 d1 -> derives 0 (tokens ls) e2 k2 d2 ->
  Nat.max k1 k2 <= VNT_PARSER_MAX_EXPRESSION_OPERATORS ->
  Nat.max d1 d2 <= VNT_PARSER_MAX_NESTING ->
  e1 = e2 /\ k1 = k2.
Proof.
  intros Hwf H1 H2 Hk Hd.
  destruct (parser_init_sees 0 ls Hwf) as (p & v & Hi & Hok & Hr & Hn & Hf & Hed & Hc & Hv).
  assert (expression_operator_count (started p) = 0) as Hcount.
  { unfold started. by rewrite (proj2 (Nat.eqb_eq _ 0)) by done. }
  assert (forall e k d, derives 0 (tokens ls) e k d -> k <= VNT_PARSER_MAX_EXPRESSION_OPERATORS ->
    d <= VNT_PARSER_MAX_NESTING ->
    parse_expression (remaining p + 3) p = Done (Some e, moved_to v k (started p))) as Hp.
  { intros e k d He Hk' Hd'. eapply parse_expression_moves; try done; [by rewrite Hv|lia|lia]. }
  pose proof (Hp _ _ _ H1 ltac:(lia) ltac:(lia)) as E1.
  rewrite (Hp _ _ _ H2 ltac:(lia) ltac:(lia)) in E1. injection E1 as -> Hs.
  split; [done|]. lia.
Qed.

Lemma grammar_unambiguous_witness :
  let e := AST_BINARY_EXPRESSION (AST_VARIABLE (str "a")) (AST_VARIABLE (str "b")) BINARY_SUBTRACT in
  derives 0 (tokens (print 0 e)) e 1 1 /\ (e = e /\ 1 = 1).
Proof.
  intros e. assert (derives 0 (tokens (print 0 e)) e 1 1) as H by (apply (derives_print e 0); [lia|done]).
  split; [exact H|].
  apply (grammar_unambiguous (print 0 e) e 1 1 e 1 1);
    [reflexivity|exact H|exact H|apply Nat.leb_le; reflexivity..].
Defined.
