(* ===== verification/Findings.v ===== *)
(** Findings: places where the parser does not do what it, or its
    documentation, means to. *)

From S2P Require Import Prelude Clib Lexer LexerFacts LexerProps Ast Parser Expressions.
From S2P Require Import Literals Statements ParserFacts Grammar ExpressionsSound.
From S2P Require Import ExpressionsComplete ExpressionsProps StatementsFacts.
From S2P Require Import StatementsProps RoundTrip.

(** * Errors that are swallowed *)

(** The statements of a block: some are accepted, and then one is rejected, where the
    parser is left. *)
Inductive rejected_block (n : nat) : Parser -> Parser -> Prop :=
  | rejected_statement p q :
      token_type (p_current p) <> TOKEN_RIGHT_BRACE -> token_type (p_current p) <> TOKEN_EOF ->
      parse_statement n p = Done ([], q) -> rejected_block n p q
  | rejected_later p ss q r :
      token_type (p_current p) <> TOKEN_RIGHT_BRACE -> token_type (p_current p) <> TOKEN_EOF ->
      parse_statement n p = Done (ss, q) -> ss <> [] -> rejected_block n q r -> rejected_block n p r.

Lemma rejected_block_null n p q : rejected_block n p q -> parser_ok p -> remaining p + 3 <= n ->
  step p q /\ forall m acc, remaining p < m -> parse_block (parse_statement n) m acc p = Done ([], q).
Proof.
  induction 1 as [p q Hbrace Heof E|p ss q r Hbrace Heof E Hss Hr IH]; intros Hok Hn;
    pose proof (parse_statement_chain n p Hok Hn) as H; unfold wp in H; rewrite E in H; destruct H as [[Hstep _ _ Hp] _].
  - split; [done|]. intros [|m] acc Hm; [lia|]. cbn [parse_block]. unfold parser_check. st_unfold.
    rewrite !bool_decide_eq_false_2 by done. cbn [negb andb]. by rewrite E.
  - specialize (Hp Hss). destruct IH as [Hstep' IH]; [by apply Hstep|lia|]. split; [by eapply step_trans|].
    intros [|m] acc Hm; [lia|]. cbn [parse_block]. unfold parser_check. st_unfold.
    rewrite !bool_decide_eq_false_2 by done. cbn [negb andb]. rewrite E. destruct ss; [done|]. cbn [is_null]. apply IH. lia.
Qed.

(** C37: an unsafe block whose contents are rejected is accepted as an empty block: when,
    after its brace, any number of statements is accepted and the next one is rejected
    before the end of the file, and no limit is exceeded, the statement is an empty unsafe
    block; the accepted statements are dropped, no closing brace is read, nothing more is
    printed, and parsing goes on where the rejected statement stopped. *)
Theorem unsafe_block_swallows_error n p brace v q :
  parser_ok p -> remaining p + 3 <= n -> nesting_failed p = false -> nesting_depth p < VNT_PARSER_MAX_NESTING ->
  consumes [(TOKEN_IDENTIFIER, str "unsafe"); (TOKEN_LEFT_BRACE, brace)] (view p) v ->
  rejected_block n (moved_to v 0 (entered p)) q ->
  token_type (p_current q) <> TOKEN_EOF -> nesting_failed q = false ->
  parse_statement (S n) p = Done ([AST_UNSAFE_BLOCK []], with_nesting (nesting_depth p) false q).
Proof.
  intros Hok Hn Hf Hd Hc Hr Hq Hfq.
  assert (wp (parse_statement (S n)) p (fun ss p' => ss = [AST_UNSAFE_BLOCK []] /\ p' = with_nesting (nesting_depth p) false q)) as H.
  2:{ unfold wp in H. destruct (parse_statement (S n) p) as [[ss p']| |]; [|done..]. by destruct H as [-> ->]. }
  apply wp_bind_enter_room; [done..|lia|]. intros Hok1. apply wp_bind. unfold dispatch_statement.
  change (view p) with (view (entered p)) in Hc. keyword Hc.
  apply wp_bind. eapply wp_advance_expected; [done|exact Hc|]. intros p1 Hp1 Hc1. reach p1.
  pose proof (consumes_current _ _ _ _ _ Hc1) as (Ht1 & _).
  apply wp_bind. apply wp_gets. cbv beta zeta. rewrite bool_decide_eq_false_2 by (by rewrite Ht1). cbn [andb].
  apply wp_bind_check. eapply wp_consume_expected; [done|exact Hc1|]. intros p2 Hp2 Hc2. reach p2.
  assert (p2 = moved_to v 0 (entered p)) as Ep2.
  { pose proof (reached_trans _ _ _ _ _ _ _ Hp1 Hp2) as (v' & Hc' & E & _). cbn [app] in Hc'.
    by rewrite E, (consumes_det _ _ _ _ Hc Hc'). }
  assert (remaining (entered p) = remaining p) as Hrem by done.
  rewrite <- Ep2 in Hr. destruct (rejected_block_null n p2 q Hr) as [Hstep Hnull]; [done|lia|].
  specialize (Hnull n [] ltac:(lia)). apply wp_bind. unfold wp at 1.
  match goal with |- context [parse_block ?statement _ _ _] => change statement with (parse_statement n) end. rewrite Hnull.
  apply wp_bind, wp_gets. rewrite bool_decide_eq_false_2 by done. cbn [is_null andb].
  apply wp_ret, wp_bind, wp_gets. rewrite Hfq. apply wp_bind_leave, wp_ret. split; [done|].
  unfold left_level. rewrite Hfq, (step_nesting _ _ Hstep), Ep2. cbn. by rewrite Nat.sub_0_r.
Qed.

(** The first statement is dropped with the loop, and the next one is after the block. *)
Lemma unsafe_block_swallows_error_witness :
  let p := parser_at (str "unsafe { y = 2 while c { } x = 1") in
  exists q, parse_statement 61 p = Done ([AST_UNSAFE_BLOCK []], q) /\ output q = [] /\ current_lexeme_text q = str "x".
Proof.
  intros p. set (v := v_next (v_next (view p))).
  destruct (parse_statement 60 (moved_to v 0 (entered p))) as [[ss p1]| |] eqn:E1; [|vm_compute in E1; discriminate E1..].
  destruct (parse_statement 60 p1) as [[ss2 q]| |] eqn:E2.
  2,3: vm_compute in E1; injection E1 as <- <-; vm_compute in E2; discriminate E2.
  assert (ss2 = [] /\ ss <> [] /\ token_type (p_current p1) = TOKEN_IDENTIFIER /\ token_type (p_current q) = TOKEN_IDENTIFIER /\
    nesting_failed q = false /\ output q = [] /\ current_lexeme_text q = str "x") as (-> & Hss & Ht1 & Ht & Hf & Ho & Hx).
  { vm_compute in E1. injection E1 as <- <-. vm_compute in E2. injection E2 as <- <-. by vm_compute. }
  exists (with_nesting (nesting_depth p) false q). split; [|split; [exact Ho|exact Hx]].
  apply (unsafe_block_swallows_error 60 p (str "{") v q).
  - apply parser_at_ok.
  - apply Nat.leb_le. vm_compute. reflexivity.
  - vm_compute. reflexivity.
  - apply Nat.ltb_lt. vm_compute. reflexivity.
  - repeat (split; [vm_compute; discriminate|split; [vm_compute; reflexivity|]]). reflexivity.
  - eapply rejected_later; [vm_compute; discriminate|vm_compute; discriminate|exact E1|exact Hss|].
    apply rejected_statement; [rewrite Ht1; discriminate|rewrite Ht1; discriminate|exact E2].
  - rewrite Ht. discriminate.
  - exact Hf.
Defined.

(** The same in a file, whose closing brace is missing too. *)
Lemma unsafe_file_swallows_error :
  exists p, parse_source 0 (str "unsafe { while c { } x = 1") =
    Done (Some (AST_PROGRAM [AST_UNSAFE_BLOCK [];
                             AST_VARIABLE_DECLARATION (str "x") None (AST_INTEGER_LITERAL 1) false]), p) /\
    output p = [].
Proof. eexists. split; [vm_compute; reflexivity|reflexivity]. Qed.

(** A syntax error inside a block is reported but the program is still accepted, with
    an empty block, when the token at the error is a closing brace inside an if statement or
    the end of the file inside a while statement. *)
Theorem error_in_body_accepted :
  exists p q,
    parse_source 0 (str "while c { if x { a }") =
      Done (Some (AST_PROGRAM [AST_WHILE_STATEMENT (AST_VARIABLE (str "c"))
                                 [AST_IF_STATEMENT (AST_VARIABLE (str "x")) [] []]]), p) /\
    output p <> [] /\
    parse_source 0 (str "while true { print(") =
      Done (Some (AST_PROGRAM [AST_WHILE_STATEMENT (AST_BOOLEAN_LITERAL true) []]), q) /\
    output q <> [].
Proof.
  do 2 eexists. split; [vm_compute; reflexivity|]. split; [discriminate|].
  split; [vm_compute; reflexivity|discriminate].
Qed.

(** * Targets of unbounded height *)

(** [x . a . a ... = 1] *)
Definition target_chain (k : nat) : list lexeme_t :=
  concat (repeat [dot; (TOKEN_IDENTIFIER, str "a")] k).
Definition target_source (k : nat) : bytes :=
  render ((TOKEN_IDENTIFIER, str "x") :: target_chain k
          ++ [(TOKEN_EQUALS, str "="); (TOKEN_INTEGER, str "1")]).
Definition member_a (e : ast) : ast := AST_MEMBER_EXPRESSION e (str "a").
Definition target_of (k : nat) : ast :=
  Nat.iter k member_a (AST_VARIABLE (str "x")).

Lemma target_loop_chain parse_expression k : forall n p e rest v Q,
  parser_ok p -> remaining p < n -> v_type v <> TOKEN_LEFT_BRACKET -> v_type v <> TOKEN_DOT ->
  consumes (target_chain k ++ rest) (view p) v ->
  (forall q, reached p (target_chain k) 0 q -> consumes rest (view q) v ->
   wp (target_loop parse_expression (n - k)
         (Nat.iter k member_a e)) q Q) ->
  wp (target_loop parse_expression n e) p Q.
Proof.
  induction k as [|k IH]; intros n p e rest v Q Hok Hn H1 H2 Hc HQ.
  - rewrite Nat.sub_0_r in HQ. apply HQ; [by apply reached_refl|done].
  - destruct n as [|n]; [lia|]. unfold target_chain in Hc. cbn [repeat concat app] in Hc.
    fold (target_chain k) in Hc.
    apply wp_bind, wp_gets. pose proof (consumes_current _ _ _ _ _ Hc) as (-> & _).
    apply wp_bind. eapply wp_advance_expected; [done|exact Hc|]. intros q Hq Hc1. reach q.
    pose proof (consumes_current _ _ _ _ _ Hc1) as (Ht & Hx & _).
    apply wp_bind, wp_gets. rewrite bool_decide_eq_true_2 by done.
    apply wp_bind, wp_bind, wp_gets, wp_current_text; [done|]. rewrite Hx.
    apply wp_bind. eapply wp_advance_expected; [done|exact Hc1|]. intros q1 Hq1 Hc2. reach q1.
    eapply (IH n q1); [done|lia|done|done|exact Hc2|]. intros q2 Hq2 Hc3.
    change (ast_create_member e (str "a")) with (member_a e). rewrite Nat.iter_swap.
    cbn [Nat.sub] in HQ. apply HQ; [|done].
    unfold target_chain. cbn [repeat concat app]. fold (target_chain k). reached_parts.
Qed.

Lemma target_height k : height (target_of k) = S k.
Proof.
  induction k as [|k IH]; [done|].
  change (height (target_of (S k))) with (S (height (target_of k))). by rewrite IH.
Qed.

Lemma target_source_wf k :
  forallb lexeme_wf ((TOKEN_IDENTIFIER, str "x") :: target_chain k
    ++ [(TOKEN_EQUALS, str "="); (TOKEN_INTEGER, str "1")]) = true.
Proof.
  cbn [forallb]. rewrite forallb_app. change (forallb lexeme_wf (target_chain k) && true = true).
  rewrite andb_true_r. induction k as [|k IH]; [done|]. unfold target_chain. cbn. exact IH.
Qed.

Lemma target_chain_tokens k : map grammar_token (target_chain k) = target_chain k.
Proof. induction k as [|k IH]; [done|]. unfold target_chain in *. cbn [repeat concat app map]. by rewrite IH. Qed.

Lemma target_assignment n p k v :
  parser_ok p -> remaining p + 3 <= n -> nesting_failed p = false -> expression_depth p = 0 ->
  nesting_depth p = 0 -> v_type v = TOKEN_EOF ->
  consumes ((TOKEN_IDENTIFIER, str "x") :: target_chain (S k)
            ++ [(TOKEN_EQUALS, str "="); (TOKEN_INTEGER, str "1")]) (view p) v ->
  wp (parse_statement n) p (fun ss q =>
    ss = [AST_ASSIGNMENT (target_of (S k)) (AST_INTEGER_LITERAL 1)] /\ view q = v).
Proof.
  intros Hok Hn Hf Hed Hd Hv Hc. destruct n as [|n]; [lia|].
  apply wp_bind_enter_room; [done|done|rewrite Hd; apply Nat.leb_le; done|]. intros Hok1.
  assert (remaining (entered p) = remaining p) as Hr1 by done.
  assert (nesting_depth (entered p) = 1) as Hn1 by (cbn; by rewrite Hd).
  assert (expression_depth (entered p) = 0) as He1 by done.
  assert (nesting_failed (entered p) = false) as Hf1 by done.
  apply wp_bind. unfold dispatch_statement.
  change (view p) with (view (entered p)) in Hc. do 12 (keyword Hc).
  pose proof (consumes_current _ _ _ _ _ Hc) as (Ht & Hx & _).
  apply wp_bind, wp_gets. rewrite Ht.
  apply wp_bind, wp_bind, wp_gets, wp_current_text; [done|]. rewrite Hx.
  apply wp_bind. eapply wp_advance_expected; [done|exact Hc|]. intros q Hq Hc1. reach q.
  unfold target_chain in Hc1. cbn [repeat concat app] in Hc1. fold (target_chain k) in Hc1.
  pose proof (consumes_current _ _ _ _ _ Hc1) as (Ht1 & _).
  apply wp_bind, wp_gets. rewrite bool_decide_eq_false_2 by (by rewrite Ht1).
  apply wp_bind_null. eapply (target_loop_chain _ (S k)); [done|lia|by rewrite Hv|by rewrite Hv|exact Hc1|].
  intros q1 Hq1 Hc2. reach q1.
  pose proof (consumes_current _ _ _ _ _ Hc2) as (Ht2 & _).
  assert (length (target_chain (S k)) = S (S (2 * k))) as Hlen.
  { clear. induction k as [|k IH]; [done|]. unfold target_chain in *. cbn [repeat concat app length] in *. lia. }
  destruct (n - S k) as [|m] eqn:Em; [lia|]. apply wp_bind, wp_gets. rewrite Ht2. apply wp_ret.
  apply wp_bind, wp_gets. rewrite bool_decide_eq_false_2 by (by rewrite Ht2).
  apply wp_bind, wp_gets. rewrite Ht2. apply wp_bind.
  eapply wp_advance_expected; [done|exact Hc2|]. intros q2 Hq2 Hc3. reach q2.
  assert (derives 0 [(TOKEN_INTEGER, str "1")] (AST_INTEGER_LITERAL 1) 0 1) as He.
  { apply derives_expression, (derives_lift 1 9); [lia|lia|]. by apply derives_integer; [vm_compute; lia|]. }
  apply wp_bind_null. eapply parse_expression_parses;
    [done|lia|congruence| |exact He|exact Hc3|by rewrite Hv|].
  { unfold started. rewrite (proj2 (Nat.eqb_eq _ 0)) by congruence.
    split; [apply Nat.leb_le; done|]. cbn [nesting_depth with_expression].
    replace (nesting_depth q2) with 1 by congruence. by apply Nat.leb_le. }
  intros q3 Hq3. destruct (started_ok q2) as [Hok2 _]; [done|].
  assert (view q3 = v) as Hv3.
  { eapply reached_view; [exact Hq3|]. by rewrite started_view. }
  assert (nesting_failed q3 = false) as Hf3.
  { destruct (reached_fields _ _ _ _ Hok2 Hq3) as (_ & _ & ->). unfold started.
    case_match; cbn; congruence. }
  rewrite bool_decide_eq_true_2 by done. apply wp_ret, wp_bind, wp_gets. rewrite Hf3.
  apply wp_bind_leave, wp_ret. by split.
Qed.

(** The postfix operators of an assignment target are not limited: targets of every
    height are accepted. *)
Theorem assignment_target_unbounded k :
  exists p, parse_source 0 (target_source (S k)) =
      Done (Some (AST_PROGRAM [AST_ASSIGNMENT (target_of (S k)) (AST_INTEGER_LITERAL 1)]), p) /\
    height (target_of (S k)) = S (S k).
Proof.
  pose proof (target_source_wf (S k)) as Hwf.
  destruct (parser_init_sees 0 _ Hwf) as (p & v & Hi & Hok & Hr & Hn & Hf & Hd & Hc & Hv).
  fold (target_source (S k)) in Hi, Hr. cbn [map] in Hc. rewrite map_app, target_chain_tokens in Hc.
  unfold parse_source. rewrite Hi. set (n := parser_fuel (target_source (S k))).
  assert (remaining p + 4 <= n) as Hfuel by (unfold n, parser_fuel; lia).
  pose proof (consumes_current _ _ _ _ _ Hc) as (Ht & _).
  assert (wp (parser_parse n) p (fun o _ =>
    o = Some (AST_PROGRAM [AST_ASSIGNMENT (target_of (S k)) (AST_INTEGER_LITERAL 1)]))) as Hw.
  { destruct n as [|[|n]]; [lia|lia|]. apply wp_bind, wp_gets.
    rewrite bool_decide_eq_false_2 by (by rewrite Ht). apply wp_bind.
    eapply wp_mono; [by apply (target_assignment (S n) p k v); [|lia|..]|].
    intros ss q [-> Hq]. apply wp_bind, wp_gets. rewrite bool_decide_eq_true_2; [done|].
    change (v_type (view q) = TOKEN_EOF). by rewrite Hq. }
  apply wp_done in Hw as (o & p' & -> & ->). exists p'. split; [done|apply target_height].
Qed.
