(* ===== verification/Ir.v ===== *)
(** Ir: include/vnt/ir.h and the parts of src/compiler/ir.c that store and
    check HIR graphs. Nodes are kept in an array and linked by index; the index
    VNT_IR_NO_NODE, (size_t)-1, which no array reaches, is [None]. A read of
    the array outside of it is a [Fault]. The capacity of the array and freeing
    are not modelled, and allocation is assumed to succeed. *)

From S2P Require Import Prelude Clib Ast.

(** * Nodes *)

Inductive VntIrOpcode : Set :=
  | VNT_IR_PROGRAM | VNT_IR_PRINT | VNT_IR_IF | VNT_IR_WHILE | VNT_IR_FUNCTION
  | VNT_IR_STRUCT | VNT_IR_CALL | VNT_IR_RETURN | VNT_IR_BREAK | VNT_IR_CONTINUE
  | VNT_IR_STRING | VNT_IR_INTEGER | VNT_IR_FLOAT | VNT_IR_BOOLEAN | VNT_IR_NULL
  | VNT_IR_ARRAY | VNT_IR_VARIABLE_DECL | VNT_IR_VARIABLE | VNT_IR_INDEX
  | VNT_IR_MEMBER | VNT_IR_ASSIGN | VNT_IR_BINARY | VNT_IR_UNARY | VNT_IR_REASSIGN
  | VNT_IR_ASM.

Inductive VntIrEdgeRole : Set :=
  | VNT_IR_EDGE_ROOT | VNT_IR_EDGE_STATEMENT | VNT_IR_EDGE_CONDITION
  | VNT_IR_EDGE_THEN | VNT_IR_EDGE_ELSE | VNT_IR_EDGE_BODY | VNT_IR_EDGE_VALUE
  | VNT_IR_EDGE_TARGET | VNT_IR_EDGE_ARGUMENT | VNT_IR_EDGE_ELEMENT
  | VNT_IR_EDGE_OBJECT | VNT_IR_EDGE_INDEX | VNT_IR_EDGE_LEFT | VNT_IR_EDGE_RIGHT
  | VNT_IR_EDGE_OPERAND.

#[export] Instance VntIrOpcode_eq_dec : EqDecision VntIrOpcode.
Proof. solve_decision. Defined.
#[export] Instance VntIrEdgeRole_eq_dec : EqDecision VntIrEdgeRole.
Proof. solve_decision. Defined.

(** The union [value], with the member last written; [VAL_NONE] is the zeroed
    union of a new node, whose [text] is NULL. *)
Inductive VntIrValue : Type :=
  | VAL_NONE
  | VAL_INTEGER (integer : Z)
  | VAL_BOOLEAN (boolean : bool)
  | VAL_FLOATING (floating : binary64)
  | VAL_TEXT (text : bytes).

(** [operation] is an int: an operator, or whether an asm node is volatile.
    [names] has [name_count] entries. *)
Record VntIrNode := {
  opcode : VntIrOpcode;
  role : VntIrEdgeRole;
  operation : Z;
  names : list bytes;
  type_name : option bytes;
  first_child : option nat;
  last_child : option nat;
  next_sibling : option nat;
  child_count : nat;
  value : VntIrValue
}.

(** [node_count] is the length of [nodes]. *)
Record VntIrProgram := {
  nodes : list VntIrNode;
  root : option nat;
  optimized_nodes : nat
}.

Definition node_count (ir : VntIrProgram) : nat := length (nodes ir).

(** The enumerators of the operators as ints. *)
Definition binary_operators : list BinaryOperator :=
  [BINARY_ADD; BINARY_SUBTRACT; BINARY_MULTIPLY; BINARY_DIVIDE; BINARY_MODULO;
   BINARY_EQUAL; BINARY_NOT_EQUAL; BINARY_GREATER; BINARY_LESS;
   BINARY_GREATER_EQUAL; BINARY_LESS_EQUAL; BINARY_AND; BINARY_OR].

Definition unary_operators : list UnaryOperator :=
  [UNARY_NOT; UNARY_NEGATE; UNARY_REFERENCE; UNARY_DEREFERENCE].

Definition binary_of_int (op : Z) : option BinaryOperator :=
  if (op <? 0)%Z then None else binary_operators !! Z.to_nat op.
Definition unary_of_int (op : Z) : option UnaryOperator :=
  if (op <? 0)%Z then None else unary_operators !! Z.to_nat op.

Definition int_of_binary (op : BinaryOperator) : Z :=
  match op with
  | BINARY_ADD => 0 | BINARY_SUBTRACT => 1 | BINARY_MULTIPLY => 2 | BINARY_DIVIDE => 3
  | BINARY_MODULO => 4 | BINARY_EQUAL => 5 | BINARY_NOT_EQUAL => 6 | BINARY_GREATER => 7
  | BINARY_LESS => 8 | BINARY_GREATER_EQUAL => 9 | BINARY_LESS_EQUAL => 10
  | BINARY_AND => 11 | BINARY_OR => 12
  end.
Definition int_of_unary (op : UnaryOperator) : Z :=
  match op with
  | UNARY_NOT => 0 | UNARY_NEGATE => 1 | UNARY_REFERENCE => 2 | UNARY_DEREFERENCE => 3
  end.

(** * Storing nodes *)

Definition node_at (ir : VntIrProgram) (i : nat) : outcome VntIrNode :=
  match nodes ir !! i with
  | Some n => Done n
  | None => Fault
  end.

Definition with_nodes (ns : list VntIrNode) (ir : VntIrProgram) : VntIrProgram :=
  {| nodes := ns; root := root ir; optimized_nodes := optimized_nodes ir |}.

(** [ir->nodes[i]] is changed by [f]. *)
Definition update_node (i : nat) (f : VntIrNode -> VntIrNode) : St VntIrProgram unit :=
  fun ir =>
    match nodes ir !! i with
    | Some n => Done (tt, with_nodes (<[i := f n]> (nodes ir)) ir)
    | None => Fault
    end.

(** memset to zero: enumerators of value 0, an empty union. *)
Definition new_node : VntIrNode :=
  {| opcode := VNT_IR_PROGRAM; role := VNT_IR_EDGE_ROOT; operation := 0; names := [];
     type_name := None; first_child := None; last_child := None; next_sibling := None;
     child_count := 0; value := VAL_NONE |}.

Definition reserve_node : St VntIrProgram nat :=
  ir ← get;
  _ ← modify (with_nodes (nodes ir ++ [new_node]));
  mret (node_count ir).

Definition with_links (first last next : option nat) (count : nat) (n : VntIrNode) : VntIrNode :=
  {| opcode := opcode n; role := role n; operation := operation n; names := names n;
     type_name := type_name n; first_child := first; last_child := last;
     next_sibling := next; child_count := count; value := value n |}.

Definition with_children (first last : option nat) (count : nat) (n : VntIrNode) : VntIrNode :=
  with_links first last (next_sibling n) count n.

Definition with_next (next : option nat) (n : VntIrNode) : VntIrNode :=
  with_links (first_child n) (last_child n) next (child_count n) n.

Definition with_role (r : VntIrEdgeRole) (n : VntIrNode) : VntIrNode :=
  {| opcode := opcode n; role := r; operation := operation n; names := names n;
     type_name := type_name n; first_child := first_child n; last_child := last_child n;
     next_sibling := next_sibling n; child_count := child_count n; value := value n |}.

Definition add_child (parent child : nat) : St VntIrProgram bool :=
  ir ← get;
  if (node_count ir <=? parent) || (node_count ir <=? child) then mret false
  else
    n ← asks (fun ir => node_at ir parent);
    _ ← match last_child n with
        | None => update_node parent (fun n =>
            with_children (Some child) (last_child n) (child_count n) n)
        | Some last => update_node last (with_next (Some child))
        end;
    _ ← update_node parent (fun n =>
          with_children (first_child n) (Some child) (S (child_count n)) n);
    mret true.

(** The members of the union, read where they were written. *)
Definition node_integer (n : VntIrNode) : outcome Z :=
  match value n with VAL_INTEGER integer => Done integer | _ => Fault end.
Definition node_boolean (n : VntIrNode) : outcome bool :=
  match value n with VAL_BOOLEAN boolean => Done boolean | _ => Fault end.
Definition node_floating (n : VntIrNode) : outcome binary64 :=
  match value n with VAL_FLOATING floating => Done floating | _ => Fault end.
Definition node_text (n : VntIrNode) : outcome bytes :=
  match value n with VAL_TEXT text => Done text | _ => Fault end.

(** * Walking over children *)

(** A sibling chain has at most one link per node, unless it is a cycle. *)
Definition sibling_fuel (ir : VntIrProgram) : nat := S (node_count ir).

(** [for (c = ...; c != VNT_IR_NO_NODE; c = ir->nodes[c].next_sibling) body];
    the body returns [inr] to leave the loop. *)
Fixpoint each_sibling {A R} (fuel : nat) (ir : VntIrProgram)
    (body : nat -> A -> outcome (A + R)) (c : option nat) (a : A) : outcome (A + R) :=
  match c with
  | None => Done (inl a)
  | Some i =>
      match fuel with
      | O => Stuck
      | S f =>
          next ← body i a;
          match next with
          | inl a =>
              n ← node_at ir i;
              each_sibling f ir body (next_sibling n) a
          | inr r => Done (inr r)
          end
      end
  end.

(** The same for a loop that is not left early. *)
Fixpoint fold_siblings {A} (fuel : nat) (ir : VntIrProgram)
    (body : nat -> A -> outcome A) (c : option nat) (a : A) : outcome A :=
  match c with
  | None => Done a
  | Some i =>
      match fuel with
      | O => Stuck
      | S f =>
          a ← body i a;
          n ← node_at ir i;
          fold_siblings f ir body (next_sibling n) a
      end
  end.

(** The first sibling from [c] on whose role is [r]. *)
Definition find_role (ir : VntIrProgram) (r : VntIrEdgeRole) (c : option nat) : outcome (option nat) :=
  found ← each_sibling (sibling_fuel ir) ir (fun c _ =>
    n ← node_at ir c;
    mret (if decide (role n = r) then inr c else inl tt)) c tt;
  mret (match found with inl _ => None | inr c => Some c end).

Definition role_count (ir : VntIrProgram) (node : VntIrNode) (r : VntIrEdgeRole) : outcome nat :=
  fold_siblings (sibling_fuel ir) ir (fun c count =>
    n ← node_at ir c;
    mret (if decide (role n = r) then S count else count)) (first_child node) 0.

(** * Validation *)

Definition is_zero (n : nat) : bool := n =? 0.

Definition validate_node_shape (ir : VntIrProgram) (node : VntIrNode) : outcome bool :=
  let count := child_count node in
  statements ← role_count ir node VNT_IR_EDGE_STATEMENT;
  conditions ← role_count ir node VNT_IR_EDGE_CONDITION;
  then_edges ← role_count ir node VNT_IR_EDGE_THEN;
  else_edges ← role_count ir node VNT_IR_EDGE_ELSE;
  bodies ← role_count ir node VNT_IR_EDGE_BODY;
  values ← role_count ir node VNT_IR_EDGE_VALUE;
  targets ← role_count ir node VNT_IR_EDGE_TARGET;
  args ← role_count ir node VNT_IR_EDGE_ARGUMENT;
  elements ← role_count ir node VNT_IR_EDGE_ELEMENT;
  objects ← role_count ir node VNT_IR_EDGE_OBJECT;
  indices ← role_count ir node VNT_IR_EDGE_INDEX;
  lefts ← role_count ir node VNT_IR_EDGE_LEFT;
  rights ← role_count ir node VNT_IR_EDGE_RIGHT;
  operands ← role_count ir node VNT_IR_EDGE_OPERAND;
  mret match opcode node with
  | VNT_IR_PROGRAM =>
      (statements =? count) &&
      is_zero conditions && is_zero then_edges && is_zero else_edges && is_zero bodies &&
      is_zero values && is_zero targets && is_zero args && is_zero elements &&
      is_zero objects && is_zero indices && is_zero lefts && is_zero rights && is_zero operands
  | VNT_IR_PRINT | VNT_IR_RETURN => (values =? count) && (values <=? 1)
  | VNT_IR_IF =>
      (conditions =? 1) && (then_edges + else_edges + conditions =? count) &&
      is_zero statements && is_zero bodies && is_zero values &&
      is_zero targets && is_zero args && is_zero elements && is_zero objects &&
      is_zero indices && is_zero lefts && is_zero rights && is_zero operands
  | VNT_IR_WHILE =>
      (conditions =? 1) && (bodies + conditions =? count) &&
      is_zero statements && is_zero then_edges && is_zero else_edges && is_zero values &&
      is_zero targets && is_zero args && is_zero elements && is_zero objects &&
      is_zero indices && is_zero lefts && is_zero rights && is_zero operands
  | VNT_IR_FUNCTION =>
      (bodies =? count) && is_zero conditions && is_zero then_edges &&
      is_zero else_edges && is_zero values && is_zero targets && is_zero args &&
      is_zero elements && is_zero objects && is_zero indices && is_zero lefts &&
      is_zero rights && is_zero operands
  | VNT_IR_STRUCT | VNT_IR_BREAK | VNT_IR_CONTINUE | VNT_IR_STRING | VNT_IR_INTEGER
  | VNT_IR_FLOAT | VNT_IR_BOOLEAN | VNT_IR_NULL | VNT_IR_VARIABLE | VNT_IR_ASM =>
      is_zero count
  | VNT_IR_CALL => args =? count
  | VNT_IR_ARRAY => elements =? count
  | VNT_IR_VARIABLE_DECL => (values =? count) && (values <=? 1)
  | VNT_IR_REASSIGN => (values =? 1) && (count =? 1)
  | VNT_IR_INDEX => (objects =? 1) && (indices =? 1) && (count =? 2)
  | VNT_IR_MEMBER => (objects =? 1) && (count =? 1)
  | VNT_IR_ASSIGN => (targets =? 1) && (values =? 1) && (count =? 2)
  | VNT_IR_BINARY => (lefts =? 1) && (rights =? 1) && (count =? 2)
  | VNT_IR_UNARY => (operands =? 1) && (count =? 1)
  end.

(** The nodes whose payload is [value.text]. *)
Definition has_text (op : VntIrOpcode) : bool :=
  match op with
  | VNT_IR_STRING | VNT_IR_VARIABLE_DECL | VNT_IR_REASSIGN | VNT_IR_VARIABLE | VNT_IR_MEMBER
  | VNT_IR_CALL | VNT_IR_FUNCTION | VNT_IR_STRUCT | VNT_IR_ASM => true
  | _ => false
  end.

(** A union that holds another member holds no pointer, and is taken for NULL. The code tests
    the bits of the union, so that a number other than 0 in a node that needs a text passes
    there; no function of the program builds such a node, and lowering gives each opcode the
    member it needs. *)
Definition text_is_null (v : VntIrValue) : bool :=
  match v with VAL_TEXT _ => false | _ => true end.

Definition is_null {A} (p : option A) : bool := match p with None => true | Some _ => false end.

(** The conditions of vnt_ir_validate on one node alone that hold of a valid
    node. Opcodes and roles are enumerators and names are not NULL by their
    types. *)
Definition node_fields_ok (node : VntIrNode) : bool :=
  negb (
    (has_text (opcode node) && text_is_null (value node)) ||
    (negb (is_zero (length (names node))) &&
     bool_decide (opcode node ≠ VNT_IR_FUNCTION) && bool_decide (opcode node ≠ VNT_IR_STRUCT)) ||
    (negb (is_null (type_name node)) &&
     bool_decide (opcode node ≠ VNT_IR_VARIABLE_DECL) &&
     bool_decide (opcode node ≠ VNT_IR_REASSIGN)) ||
    (bool_decide (opcode node = VNT_IR_BINARY) &&
     ((operation node <? int_of_binary BINARY_ADD)%Z ||
      (int_of_binary BINARY_OR <? operation node)%Z)) ||
    (bool_decide (opcode node = VNT_IR_UNARY) &&
     ((operation node <? int_of_unary UNARY_NOT)%Z ||
      (int_of_unary UNARY_DEREFERENCE <? operation node)%Z)) ||
    negb (Bool.eqb (is_null (first_child node)) (is_zero (child_count node)))).

(** The loop over the children of node [i]: [None] is [return 0]; otherwise
    [seen], [last] and the counts of parents. *)
Fixpoint validate_children (fuel : nat) (ir : VntIrProgram) (i : nat) (child : option nat)
    (seen : nat) (last : option nat) (parents : list nat)
    : outcome (option (nat * option nat * list nat)) :=
  match child with
  | None => Done (Some (seen, last, parents))
  | Some c =>
      match fuel with
      | O => Stuck
      | S f =>
          if (node_count ir <=? c) || (c =? i) || (node_count ir <? S seen) then Done None
          else
            count ← (match parents !! c with Some count => Done count | None => Fault end);
            let parents := <[c := S count]> parents in
            if 1 <? S count then Done None
            else
              n ← node_at ir c;
              validate_children f ir i (next_sibling n) (S seen) (Some c) parents
      end
  end.

Definition validate_node (ir : VntIrProgram) (i : nat) (parents : list nat)
    : outcome (option (list nat)) :=
  node ← node_at ir i;
  if negb (node_fields_ok node) then Done None
  else
    walk ← validate_children (2 + node_count ir) ir i (first_child node) 0 None parents;
    match walk with
    | None => Done None
    | Some (seen, last, parents) =>
        if negb (seen =? child_count node) || negb (bool_decide (last = last_child node))
        then Done None
        else
          ends ← match last_child node with
                 | None => Done true
                 | Some l => n ← node_at ir l; mret (is_null (next_sibling n))
                 end;
          if negb ends then Done None
          else
            shape ← validate_node_shape ir node;
            mret (if (shape : bool) then Some parents else None)
    end.

(** The loop over the nodes from [i]. *)
Fixpoint validate_nodes (todo : nat) (ir : VntIrProgram) (i : nat) (parents : list nat)
    : outcome (option (list nat)) :=
  match todo with
  | O => Done (Some parents)
  | S todo =>
      r ← validate_node ir i parents;
      match r with
      | None => Done None
      | Some parents => validate_nodes todo ir (S i) parents
      end
  end.

(** [valid] after the loop over the counts of parents. *)
Definition parents_ok (r : nat) (parents : list nat) : bool :=
  forallb (fun i => (parents !!! i =? (if i =? r then 0 else 1))) (seq 0 (length parents)).

(** Pushing the children of a node; [None] is [valid = 0]. The stack is a list,
    its top first. *)
Definition push_children (ir : VntIrProgram) (visited : list bool) (stack : list nat)
    (c : option nat) : outcome (list nat + unit) :=
  each_sibling (sibling_fuel ir) ir (fun c stack =>
    if (node_count ir <=? c) then mret (inr tt)
    else
      v ← (match visited !! c with Some v => Done v | None => Fault end);
      if (v : bool) || (node_count ir <=? length stack) then mret (inr tt)
      else mret (inl (c :: stack))) c stack.

Fixpoint walk_from_root (fuel : nat) (ir : VntIrProgram) (visited : list bool)
    (stack : list nat) (reached : nat) : outcome (option nat) :=
  match stack with
  | [] => Done (Some reached)
  | current :: stack =>
      match fuel with
      | O => Stuck
      | S f =>
          if node_count ir <=? current then Done None
          else
            v ← (match visited !! current with Some v => Done v | None => Fault end);
            if (v : bool) then Done None
            else
              let visited := <[current := true]> visited in
              n ← node_at ir current;
              pushed ← push_children ir visited stack (first_child n);
              match pushed with
              | inl stack => walk_from_root f ir visited stack (S reached)
              | inr _ => Done None
              end
      end
  end.

Definition vnt_ir_validate (ir : VntIrProgram) : outcome bool :=
  match root ir with
  | None => Done false
  | Some r =>
      if (node_count ir <=? r) then Done false
      else
        n ← node_at ir r;
        if negb (bool_decide (opcode n = VNT_IR_PROGRAM)) then Done false
        else if negb (bool_decide (role n = VNT_IR_EDGE_ROOT)) ||
                negb (is_null (next_sibling n)) then Done false
        else
          checked ← validate_nodes (node_count ir) ir 0 (replicate (node_count ir) 0);
          match checked with
          | None => Done false
          | Some parents =>
              if negb (parents_ok r parents) then Done false
              else
                reached ← walk_from_root (S (node_count ir)) ir
                            (replicate (node_count ir) false) [r] 0;
                mret (match reached with
                      | Some reached => reached =? node_count ir
                      | None => false
                      end)
          end
  end.
