(* ===== verification/IrTrees.v ===== *)
(** IrTrees: what a HIR array means. The relation [stored] says that the links
    of the array store a tree; [ir_valid] says that the array stores exactly
    one tree, of well-formed nodes. *)

From S2P Require Import Prelude Clib Ast Ir.

(** * Trees *)

(** What a node holds besides its links. *)
Record Label := {
  l_opcode : VntIrOpcode;
  l_role : VntIrEdgeRole;
  l_operation : Z;
  l_names : list bytes;
  l_type_name : option bytes;
  l_value : VntIrValue
}.

Definition label_of (n : VntIrNode) : Label :=
  {| l_opcode := opcode n; l_role := role n; l_operation := operation n;
     l_names := names n; l_type_name := type_name n; l_value := value n |}.

(** A tree, with the index of every node in the array. *)
Unset Elimination Schemes.
Inductive tree : Type := Tree (i : nat) (l : Label) (ts : list tree).
Set Elimination Schemes.

Definition index (t : tree) : nat := let 'Tree i _ _ := t in i.
Definition label (t : tree) : Label := let 'Tree _ l _ := t in l.
Definition subtrees (t : tree) : list tree := let 'Tree _ _ ts := t in ts.

Lemma tree_ind (P : tree -> Prop) :
  (forall i l ts, Forall P ts -> P (Tree i l ts)) -> forall t, P t.
Proof.
  intros H. fix IH 1. intros [i l ts]. apply H.
  induction ts as [|t ts IHts]; constructor; [apply IH|exact IHts].
Qed.

(** The indices, in depth-first order. *)
Fixpoint indices (t : tree) : list nat :=
  match t with Tree i _ ts => i :: concat (map indices ts) end.

Definition forest_indices (ts : list tree) : list nat := concat (map indices ts).

(** The same tree, wherever its nodes are stored. *)
Unset Elimination Schemes.
Inductive hir : Type := Hir (l : Label) (hs : list hir).
Set Elimination Schemes.

Lemma hir_ind (P : hir -> Prop) :
  (forall l hs, Forall P hs -> P (Hir l hs)) -> forall h, P h.
Proof.
  intros H. fix IH 1. intros [l hs]. apply H.
  induction hs as [|h hs IHhs]; constructor; [apply IH|exact IHhs].
Qed.

Definition hir_label (h : hir) : Label := let 'Hir l _ := h in l.
Definition hir_children (h : hir) : list hir := let 'Hir _ hs := h in hs.

Fixpoint erase (t : tree) : hir :=
  match t with Tree _ l ts => Hir l (map erase ts) end.

Fixpoint hir_size (h : hir) : nat :=
  match h with Hir _ hs => S (list_sum (map hir_size hs)) end.

(** * Storing *)

(** The siblings from a link on. *)
Inductive chain (ir : VntIrProgram) : option nat -> list nat -> Prop :=
  | chain_nil : chain ir None []
  | chain_cons i n l :
      nodes ir !! i = Some n -> chain ir (next_sibling n) l -> chain ir (Some i) (i :: l).

(** The three link fields of [n] agree on its children. *)
Record linked (ir : VntIrProgram) (n : VntIrNode) (children : list nat) : Prop := {
  linked_chain : chain ir (first_child n) children;
  linked_last : last_child n = last children;
  linked_count : child_count n = length children
}.

Inductive stored (ir : VntIrProgram) : tree -> Prop :=
  | stored_tree i n ts :
      nodes ir !! i = Some n -> linked ir n (map index ts) -> Forall (stored ir) ts ->
      stored ir (Tree i (label_of n) ts).

(** * Well-formed nodes *)

Definition count_role (r : VntIrEdgeRole) (rs : list VntIrEdgeRole) : nat :=
  length (filter (fun r' => r' = r) rs).

(** Which edges a node of each opcode has: some exactly once, one that is
    optional, or any number of some. *)
Definition roles_ok (op : VntIrOpcode) (rs : list VntIrEdgeRole) : Prop :=
  match op with
  | VNT_IR_PROGRAM => Forall (fun r => r = VNT_IR_EDGE_STATEMENT) rs
  | VNT_IR_PRINT | VNT_IR_RETURN | VNT_IR_VARIABLE_DECL => rs = [] \/ rs = [VNT_IR_EDGE_VALUE]
  | VNT_IR_IF =>
      count_role VNT_IR_EDGE_CONDITION rs = 1 /\
      Forall (fun r => r = VNT_IR_EDGE_CONDITION \/ r = VNT_IR_EDGE_THEN \/ r = VNT_IR_EDGE_ELSE) rs
  | VNT_IR_WHILE =>
      count_role VNT_IR_EDGE_CONDITION rs = 1 /\
      Forall (fun r => r = VNT_IR_EDGE_CONDITION \/ r = VNT_IR_EDGE_BODY) rs
  | VNT_IR_FUNCTION => Forall (fun r => r = VNT_IR_EDGE_BODY) rs
  | VNT_IR_CALL => Forall (fun r => r = VNT_IR_EDGE_ARGUMENT) rs
  | VNT_IR_ARRAY => Forall (fun r => r = VNT_IR_EDGE_ELEMENT) rs
  | VNT_IR_REASSIGN => rs = [VNT_IR_EDGE_VALUE]
  | VNT_IR_MEMBER => rs = [VNT_IR_EDGE_OBJECT]
  | VNT_IR_UNARY => rs = [VNT_IR_EDGE_OPERAND]
  | VNT_IR_INDEX => rs ≡ₚ [VNT_IR_EDGE_OBJECT; VNT_IR_EDGE_INDEX]
  | VNT_IR_ASSIGN => rs ≡ₚ [VNT_IR_EDGE_TARGET; VNT_IR_EDGE_VALUE]
  | VNT_IR_BINARY => rs ≡ₚ [VNT_IR_EDGE_LEFT; VNT_IR_EDGE_RIGHT]
  | _ => rs = []
  end.

(** What the fields of a node must hold for its opcode. *)
Record label_ok (l : Label) : Prop := {
  label_text : has_text (l_opcode l) = true -> exists text, l_value l = VAL_TEXT text;
  label_names : l_names l <> [] -> l_opcode l = VNT_IR_FUNCTION \/ l_opcode l = VNT_IR_STRUCT;
  label_type : l_type_name l <> None ->
    l_opcode l = VNT_IR_VARIABLE_DECL \/ l_opcode l = VNT_IR_REASSIGN;
  label_binary : l_opcode l = VNT_IR_BINARY -> exists op, binary_of_int (l_operation l) = Some op;
  label_unary : l_opcode l = VNT_IR_UNARY -> exists op, unary_of_int (l_operation l) = Some op
}.

Inductive hir_wf : hir -> Prop :=
  | hir_wf_node l hs :
      label_ok l -> roles_ok (l_opcode l) (map (fun h => l_role (hir_label h)) hs) ->
      Forall hir_wf hs -> hir_wf (Hir l hs).

(** The array stores one tree, all of it and nothing else. *)
Record represents (ir : VntIrProgram) (t : tree) : Prop := {
  represents_root : root ir = Some (index t);
  represents_stored : stored ir t;
  represents_all : indices t ≡ₚ seq 0 (node_count ir)
}.

(** A program: a tree of well-formed nodes under a program node that has no
    sibling. *)
Definition ir_valid (ir : VntIrProgram) : Prop :=
  exists t n, represents ir t /\ hir_wf (erase t) /\
    l_opcode (label t) = VNT_IR_PROGRAM /\ l_role (label t) = VNT_IR_EDGE_ROOT /\
    nodes ir !! index t = Some n /\ next_sibling n = None.

(** Literals hold the member of the union of their opcode. *)
Definition literal_ok (l : Label) : Prop :=
  match l_opcode l with
  | VNT_IR_INTEGER => exists x, l_value l = VAL_INTEGER x
  | VNT_IR_BOOLEAN => exists b, l_value l = VAL_BOOLEAN b
  | VNT_IR_FLOAT => exists d, l_value l = VAL_FLOATING d
  | _ => True
  end.

Definition literals_ok (ir : VntIrProgram) : Prop :=
  forall i n, nodes ir !! i = Some n -> literal_ok (label_of n).
