(* ===== verification/IrFacts.v ===== *)
(** IrFacts: walking over the children of a node, and vnt_ir_validate: it
    returns on every array, and accepts exactly those that store a program. *)

From S2P Require Import Prelude Clib Ast Ir IrTrees.

(** * Chains *)

Lemma chain_det ir o l1 : chain ir o l1 -> forall l2, chain ir o l2 -> l1 = l2.
Proof.
  induction 1 as [|i n l1 Hn _ IH]; intros l2 H2; inversion H2 as [|? n2 l2' Hn2 Hc2]; subst; [done|].
  f_equal. apply IH. by simplify_eq.
Qed.

Lemma chain_in_range ir o l i : chain ir o l -> i ∈ l -> i < node_count ir.
Proof.
  induction 1; intros Hi; inversion Hi; subst; [|auto].
  unfold node_count. by eapply lookup_lt_Some.
Qed.

Lemma chain_head ir o l : chain ir o l -> o = head l.
Proof. by destruct 1. Qed.

Lemma chain_last ir o l i : chain ir o l -> last l = Some i ->
  exists n, nodes ir !! i = Some n /\ next_sibling n = None.
Proof.
  induction 1 as [|j n l Hn Hc IH]; [done|].
  inversion Hc as [E|k n' l' ? ? E]; subst; [|exact IH]. intros [= <-]. eauto.
Qed.

Lemma nodup_in_range_length (l : list nat) (n : nat) :
  NoDup l -> Forall (fun i => i < n) l -> length l <= n.
Proof.
  intros Hd Hl. rewrite <- (length_seq n 0). apply submseteq_length, NoDup_submseteq; [done|].
  intros i Hi. rewrite Forall_forall in Hl. apply elem_of_seq. specialize (Hl i Hi). lia.
Qed.

Lemma chain_length ir o l : chain ir o l -> NoDup l -> length l <= node_count ir.
Proof.
  intros Hc Hd. apply nodup_in_range_length; [done|].
  apply Forall_forall. intros i. by apply (chain_in_range ir o).
Qed.

Lemma node_at_done ir i n : nodes ir !! i = Some n -> node_at ir i = Done n.
Proof. unfold node_at. by intros ->. Qed.

Lemma in_range_node ir i : i < node_count ir -> exists n, nodes ir !! i = Some n.
Proof. intros Hi. by apply lookup_lt_is_Some. Qed.

(** A loop over a chain is a fold over its list. *)
Lemma fold_siblings_spec {A} ir (body : nat -> A -> outcome A) o l (I : list nat -> A -> Prop) :
  chain ir o l ->
  (forall i done a, i ∈ l -> I done a -> returns (body i a) (I (done ++ [i]))) ->
  forall done a fuel, I done a -> length l < fuel ->
  returns (fold_siblings fuel ir body o a) (I (done ++ l)).
Proof.
  intros Hc. induction Hc as [|i n l Hn Hc IH]; intros Hbody done a fuel HI Hf.
  - destruct fuel; cbn; by rewrite app_nil_r.
  - destruct fuel as [|f]; [cbn in Hf; lia|]. cbn [fold_siblings].
    apply returns_bind. eapply returns_mono; [apply Hbody; [left|exact HI]|].
    intros a' HI'. cbv beta. apply returns_bind. rewrite (node_at_done _ _ _ Hn). cbn [returns].
    eapply returns_mono.
    + apply (IH (fun j d x Hj => Hbody j d x (list_elem_of_further _ _ _ Hj)) (done ++ [i])); [done|].
      cbn in Hf. lia.
    + intros x. by rewrite <- app_assoc.
Qed.

Definition role_at (ir : VntIrProgram) (i : nat) : VntIrEdgeRole :=
  match nodes ir !! i with Some n => role n | None => VNT_IR_EDGE_ROOT end.

Lemma count_role_app r rs1 rs2 : count_role r (rs1 ++ rs2) = count_role r rs1 + count_role r rs2.
Proof. unfold count_role. by rewrite filter_app, length_app. Qed.

(** * The shape of a node *)

Lemma count_role_cons r r' rs :
  count_role r (r' :: rs) = (if decide (r' = r) then 1 else 0) + count_role r rs.
Proof. unfold count_role. cbn. by case_decide. Qed.

Lemma role_count_spec ir node l r :
  chain ir (first_child node) l -> NoDup l ->
  role_count ir node r = Done (count_role r (map (role_at ir) l)).
Proof.
  intros Hc Hd. unfold role_count.
  enough (returns (fold_siblings (sibling_fuel ir) ir (fun c count =>
    n ← node_at ir c; mret (if decide (role n = r) then S count else count)) (first_child node) 0)
    (fun a => a = count_role r (map (role_at ir) ([] ++ l)))) as H
    by (apply returns_done in H as (a & -> & ->); done).
  apply (fold_siblings_spec ir _ _ _ (fun done a => a = count_role r (map (role_at ir) done)) Hc).
  - intros i done a Hi ->. apply (chain_in_range _ _ _ _ Hc), in_range_node in Hi as [n Hn].
    rewrite (node_at_done _ _ _ Hn), map_app, count_role_app. cbn [map].
    assert (role_at ir i = role n) as -> by (unfold role_at; by rewrite Hn).
    rewrite count_role_cons. change (count_role r []) with 0. cbn. case_decide; lia.
  - done.
  - unfold sibling_fuel. pose proof (chain_length _ _ _ Hc Hd). lia.
Qed.

(** The sum of the counts of some roles. *)
Definition count_roles (set rs : list VntIrEdgeRole) : nat :=
  list_sum (map (fun r => count_role r rs) set).

Lemma count_roles_cons set r rs :
  NoDup set -> count_roles set (r :: rs) = (if decide (r ∈ set) then 1 else 0) + count_roles set rs.
Proof.
  unfold count_roles. induction 1 as [|r' set Hr' _ IH]; [done|].
  cbn [map]. rewrite !(fun a l => eq_refl : list_sum (a :: l) = a + list_sum l).
  rewrite count_role_cons, IH. destruct (decide (r = r')) as [->|Hne].
  - rewrite (decide_True (P := r' ∈ r' :: set)), (decide_False (P := r' ∈ set))
      by (done || by left). lia.
  - destruct (decide (r ∈ set)) as [Hin|Hin].
    + rewrite decide_True by by right. lia.
    + rewrite decide_False by (rewrite elem_of_cons; tauto). lia.
Qed.

Lemma count_roles_spec set rs :
  NoDup set -> count_roles set rs <= length rs /\
  (count_roles set rs = length rs <-> Forall (fun r => r ∈ set) rs).
Proof.
  intros Hs. induction rs as [|r rs [IH1 IH2]].
  - replace (count_roles set []) with 0; [done|].
    unfold count_roles. clear Hs. induction set as [|? ? IH]; [done|exact IH].
  - rewrite (count_roles_cons _ _ _ Hs), Forall_cons. cbn [length]. case_decide.
    + split; [lia|]. rewrite <- IH2. intuition lia.
    + split; [lia|]. split; [lia|by intros [? _]].
Qed.

(** All of the roles of [rs] are in [set]. *)
Lemma all_roles set rs (P : VntIrEdgeRole -> Prop) :
  NoDup set -> (forall r, P r <-> r ∈ set) ->
  Forall P rs <-> count_roles set rs = length rs.
Proof.
  intros Hs HP. rewrite (proj2 (count_roles_spec set rs Hs)).
  split; intros H; (eapply Forall_impl; [exact H|]); intros r; apply HP.
Qed.

Lemma one_role r rs : rs = [r] <-> count_role r rs = 1 /\ length rs = 1.
Proof.
  destruct rs as [|r' [|]]; cbn [length]; split; try (by intros [= ]); try lia; try done.
  - intros [= ->]. by rewrite count_role_cons, decide_True.
  - rewrite count_role_cons. case_decide; [by subst|]. cbn. lia.
Qed.

Lemma two_roles r1 r2 rs : r1 <> r2 ->
  rs ≡ₚ [r1; r2] <-> count_role r1 rs = 1 /\ count_role r2 rs = 1 /\ length rs = 2.
Proof.
  intros Hne. split.
  - intros H. assert (forall r, count_role r rs = count_role r [r1; r2]) as Hc
      by (intros r; unfold count_role; by rewrite H).
    rewrite !Hc, H, !count_role_cons. repeat case_decide; cbn; naive_solver.
  - destruct rs as [|a [|b [|]]]; cbn [length]; try lia. rewrite !count_role_cons.
    change (count_role r1 []) with 0. change (count_role r2 []) with 0.
    intros (H1 & H2 & _). repeat case_decide; subst; try lia; try done. apply Permutation_swap.
Qed.

Lemma optional_role r rs : rs = [] \/ rs = [r] <-> count_role r rs = length rs /\ count_role r rs <= 1.
Proof.
  rewrite one_role. destruct rs as [|a rs]; cbn [length]; [change (count_role r []) with 0; split; [intros _; lia|by left]|].
  split; [intros [?|?]; [done|lia]|]. intros [H ?]. right. lia.
Qed.


Lemma all_one r rs : Forall (fun r' => r' = r) rs <-> count_role r rs = length rs.
Proof.
  rewrite (all_roles [r]).
  - unfold count_roles. cbn -[count_role]. lia.
  - apply NoDup_singleton.
  - intros r'. by rewrite list_elem_of_singleton.
Qed.

Lemma all_two r1 r2 rs : r1 <> r2 ->
  Forall (fun r' => r' = r1 \/ r' = r2) rs <-> count_role r1 rs + count_role r2 rs = length rs.
Proof.
  intros Hne. rewrite (all_roles [r1; r2]).
  - unfold count_roles. cbn -[count_role]. lia.
  - apply NoDup_cons; split; [by rewrite list_elem_of_singleton|apply NoDup_singleton].
  - intros r'. rewrite !elem_of_cons, elem_of_nil. tauto.
Qed.

Lemma all_three r1 r2 r3 rs : r1 <> r2 -> r1 <> r3 -> r2 <> r3 ->
  Forall (fun r' => r' = r1 \/ r' = r2 \/ r' = r3) rs <->
  count_role r1 rs + (count_role r2 rs + count_role r3 rs) = length rs.
Proof.
  intros H12 H13 H23. rewrite (all_roles [r1; r2; r3]).
  - unfold count_roles. cbn -[count_role]. lia.
  - apply NoDup_cons; split; [rewrite !elem_of_cons, elem_of_nil; tauto|].
    apply NoDup_cons; split; [by rewrite list_elem_of_singleton|apply NoDup_singleton].
  - intros r'. rewrite !elem_of_cons, elem_of_nil. tauto.
Qed.

Definition all_edge_roles : list VntIrEdgeRole :=
  [VNT_IR_EDGE_ROOT; VNT_IR_EDGE_STATEMENT; VNT_IR_EDGE_CONDITION; VNT_IR_EDGE_THEN;
   VNT_IR_EDGE_ELSE; VNT_IR_EDGE_BODY; VNT_IR_EDGE_VALUE; VNT_IR_EDGE_TARGET;
   VNT_IR_EDGE_ARGUMENT; VNT_IR_EDGE_ELEMENT; VNT_IR_EDGE_OBJECT; VNT_IR_EDGE_INDEX;
   VNT_IR_EDGE_LEFT; VNT_IR_EDGE_RIGHT; VNT_IR_EDGE_OPERAND].

Ltac by_decision := refine (bool_decide_unpack _ _); vm_compute; exact I.

Lemma all_edge_roles_count rs : count_roles all_edge_roles rs = length rs.
Proof.
  apply count_roles_spec; [by_decision|]. apply Forall_forall. intros r _.
  destruct r; by_decision.
Qed.


Lemma validate_node_shape_spec ir node l :
  chain ir (first_child node) l -> NoDup l -> child_count node = length l ->
  returns (validate_node_shape ir node) (fun b =>
    b = true <-> roles_ok (opcode node) (map (role_at ir) l)).
Proof.
  intros Hc Hd Hl. unfold validate_node_shape.
  rewrite !(fun r => role_count_spec ir node l r Hc Hd). cbn -[count_role role_at].
  set (rs := map (role_at ir) l). replace (child_count node) with (length rs) by (subst rs; by rewrite length_map).
  pose proof (all_edge_roles_count rs) as Hall. unfold all_edge_roles, count_roles in Hall.
  cbn -[count_role] in Hall. unfold is_zero.
  destruct (opcode node); cbn [roles_ok];
    rewrite ?andb_true_iff, ?Nat.eqb_eq, ?Nat.leb_le, ?length_zero_iff_nil, ?two_roles by done;
    rewrite ?optional_role, ?one_role, ?all_one, ?all_two, ?all_three by done; clear - Hall; done || lia.
Qed.

(** * The fields of a node *)

Lemma binary_of_int_some op :
  (0 <= op <= 12)%Z <-> exists o, binary_of_int op = Some o.
Proof.
  unfold binary_of_int. destruct (Z.ltb_spec op 0) as [|Hop].
  - split; [lia|by intros [? ?]].
  - change (exists o, ?l !! Z.to_nat op = Some o) with (is_Some (l !! Z.to_nat op)).
    rewrite lookup_lt_is_Some. unfold binary_operators. cbn [length]. lia.
Qed.

Lemma unary_of_int_some op :
  (0 <= op <= 3)%Z <-> exists o, unary_of_int op = Some o.
Proof.
  unfold unary_of_int. destruct (Z.ltb_spec op 0) as [|Hop].
  - split; [lia|by intros [? ?]].
  - change (exists o, ?l !! Z.to_nat op = Some o) with (is_Some (l !! Z.to_nat op)).
    rewrite lookup_lt_is_Some. unfold unary_operators. cbn [length]. lia.
Qed.

Lemma text_is_null_spec v : text_is_null v = false <-> exists text, v = VAL_TEXT text.
Proof. destruct v; cbn; naive_solver. Qed.

Lemma node_fields_ok_spec n :
  node_fields_ok n = true <->
  label_ok (label_of n) /\ (first_child n = None <-> child_count n = 0).
Proof.
  unfold node_fields_ok. rewrite negb_true_iff, !orb_false_iff, !andb_false_iff, !negb_false_iff.
  rewrite !bool_decide_eq_false, eqb_true_iff.
  assert (is_null (first_child n) = is_zero (child_count n) <->
    (first_child n = None <-> child_count n = 0)) as ->.
  { unfold is_zero. destruct (first_child n), (Nat.eqb_spec (child_count n) 0); cbn; naive_solver. }
  split.
  - intros (((((Ht & Hn) & Hty) & Hb) & Hu) & Hc). split; [|done]. constructor; cbn.
    + intros H. rewrite <- text_is_null_spec. by destruct Ht as [Ht|Ht]; [rewrite H in Ht|].
    + intros H. destruct (names n); [done|]. cbn in Hn. destruct Hn as [[?|?]|?]; try done;
        [left|right]; by apply dec_stable.
    + intros H. destruct (type_name n); [|done]. cbn in Hty. destruct Hty as [[?|?]|?]; try done;
        [left|right]; by apply dec_stable.
    + intros H. apply binary_of_int_some. cbn in Hb. destruct Hb as [Hb|Hb]; [done|].
      apply orb_false_iff in Hb as [?%Z.ltb_ge ?%Z.ltb_ge]. lia.
    + intros H. apply unary_of_int_some. cbn in Hu. destruct Hu as [Hu|Hu]; [done|].
      apply orb_false_iff in Hu as [?%Z.ltb_ge ?%Z.ltb_ge]. lia.
  - intros [[Ht Hn Hty Hb Hu] Hc]. cbn in *. split_and!; [..|done].
    + destruct (has_text (opcode n)); [right|by left]. by apply text_is_null_spec, Ht.
    + destruct (names n) as [|x xs]; [by left; left|].
      destruct Hn as [E|E]; [done|left; right|right]; intros H; by apply H.
    + destruct (type_name n) as [x|]; [|by left; left].
      destruct Hty as [E|E]; [done|left; right|right]; intros H; by apply H.
    + destruct (decide (opcode n = VNT_IR_BINARY)) as [E|E]; [right|by left].
      apply Hb, binary_of_int_some in E. cbn. apply orb_false_iff. rewrite !Z.ltb_ge. lia.
    + destruct (decide (opcode n = VNT_IR_UNARY)) as [E|E]; [right|by left].
      apply Hu, unary_of_int_some in E. cbn. apply orb_false_iff. rewrite !Z.ltb_ge. lia.
Qed.

(** * Claiming children: the counts of parents *)

(** The nodes of [l] get a parent. *)
Definition claim (l : list nat) (parents : list nat) : list nat :=
  fold_left (fun ps c => (<[c := 1]> ps)) l parents.

(** The nodes of [l] are distinct and have no parent yet. *)
Definition unclaimed (parents l : list nat) : Prop :=
  NoDup l /\ Forall (fun c => parents !! c = Some 0) l.

Lemma claim_length l : forall ps, length (claim l ps) = length ps.
Proof. induction l as [|c l IH]; intros ps; cbn; [done|]. by rewrite IH, length_insert. Qed.

Lemma claim_app l1 l2 ps : claim (l1 ++ l2) ps = claim l2 (claim l1 ps).
Proof. apply fold_left_app. Qed.

Lemma claim_other l : forall ps c, c ∉ l -> claim l ps !! c = ps !! c.
Proof.
  induction l as [|d l IH]; intros ps c Hc; cbn; [done|].
  apply not_elem_of_cons in Hc as [Hd Hc]. rewrite IH by done. by apply list_lookup_insert_ne.
Qed.

Lemma claim_in l : forall ps c, c ∈ l -> c < length ps -> claim l ps !! c = Some 1.
Proof.
  induction l as [|d l IH]; intros ps c Hc Hr; cbn; [by apply not_elem_of_nil in Hc|].
  destruct (decide (c ∈ l)) as [Hl|Hl].
  - apply IH; [done|by rewrite length_insert].
  - apply elem_of_cons in Hc as [->|?]; [|done]. rewrite claim_other by done.
    by apply list_lookup_insert_eq.
Qed.

Lemma unclaimed_cons ps c l :
  unclaimed ps (c :: l) <-> ps !! c = Some 0 /\ unclaimed (<[c := 1]> ps) l.
Proof.
  unfold unclaimed. rewrite NoDup_cons, Forall_cons. split.
  - intros [[Hc Hd] [H0 Hl]]. split_and!; [done..|]. rewrite Forall_forall in *. intros d Hin.
    rewrite list_lookup_insert_ne; [by apply Hl|]. intros ->. done.
  - intros (H0 & Hd & Hl). rewrite Forall_forall in Hl. split_and!; try done.
    + intros Hc. specialize (Hl c Hc). rewrite list_lookup_insert_eq in Hl; [done|].
      by eapply lookup_lt_Some.
    + apply Forall_forall. intros d Hin. pose proof (Hl d Hin) as Hd'.
      destruct (decide (d = c)) as [->|Hne]; [done|]. by rewrite list_lookup_insert_ne in Hd'.
Qed.

Lemma unclaimed_app l1 : forall l2 ps,
  unclaimed ps (l1 ++ l2) <-> unclaimed ps l1 /\ unclaimed (claim l1 ps) l2.
Proof.
  induction l1 as [|c l1 IH]; intros l2 ps.
  - cbn. split; [intros H; split; [|done]; split; [apply NoDup_nil_2|constructor]|by intros [_ ?]].
  - cbn [app]. rewrite !unclaimed_cons, IH. cbn. tauto.
Qed.

Lemma unclaimed_in_range ps l c : unclaimed ps l -> c ∈ l -> c < length ps.
Proof. intros [_ H] Hc. rewrite Forall_forall in H. eapply lookup_lt_Some. by apply H. Qed.

Lemma validate_children_spec ir i : forall fuel o seen prev parents,
  length parents = node_count ir -> seen <= node_count ir -> node_count ir - seen < fuel ->
  returns (validate_children fuel ir i o seen prev parents) (fun r =>
    match r with
    | Some (seen', last', parents') => exists l,
        chain ir o l /\ unclaimed parents l /\ i ∉ l /\ seen' = seen + length l /\
        last' = match last l with Some c => Some c | None => prev end /\
        parents' = claim l parents
    | None => forall l, chain ir o l -> unclaimed parents l -> i ∉ l ->
        seen + length l <= node_count ir -> False
    end).
Proof.
  induction fuel as [|f IH]; intros o seen prev parents Hp Hs Hf; [lia|].
  destruct o as [c|]; cbn [validate_children].
  2: { exists []. split_and!; [constructor|split; [apply NoDup_nil_2|constructor]
       |apply not_elem_of_nil|cbn; lia|done..]. }
  destruct (Nat.leb_spec (node_count ir) c) as [Hc|Hc].
  { cbn. intros l Hch. apply (chain_in_range _ _ _ c) in Hch as ?; [lia|]. inversion Hch. by left. }
  destruct (Nat.eqb_spec c i) as [->|Hci].
  { cbn. intros l Hch _ []. inversion Hch. by left. }
  destruct (Nat.ltb_spec (node_count ir) (S seen)) as [Hsn|Hsn].
  { cbn. intros l Hch _ _. inversion Hch; subst. cbn. lia. }
  cbn [orb]. destruct (lookup_lt_is_Some_2 parents c) as [k Hk]; [lia|]. rewrite Hk.
  cbn [mbind outcome_bind]. destruct (Nat.ltb_spec 1 (S k)) as [Hk1|Hk1].
  { cbn. intros l Hch Hu _ _. inversion Hch; subst. apply unclaimed_cons in Hu as [Hu _].
    rewrite Hk in Hu. injection Hu as ->. lia. }
  assert (k = 0) as -> by lia. destruct (in_range_node ir c Hc) as [n Hn].
  rewrite (node_at_done _ _ _ Hn). cbn [mbind outcome_bind].
  eapply returns_mono; [apply IH; [by rewrite length_insert|lia..]|].
  intros [[[seen' last'] parents']|] H.
  - destruct H as (l & Hch & Hu & Hi & -> & -> & ->). exists (c :: l). split_and!.
    + by econstructor.
    + by apply unclaimed_cons.
    + by apply not_elem_of_cons.
    + cbn. lia.
    + rewrite last_cons. by destruct (last l).
    + done.
  - intros l Hch Hu Hi Hl. inversion Hch as [|? n' l' Hn' Hch']; subst. simplify_eq.
    apply unclaimed_cons in Hu as [_ Hu]. apply not_elem_of_cons in Hi as [_ Hi].
    apply (H l'); [done..|]. cbn in Hl. lia.
Qed.

(** * The loop over the nodes *)

(** Node [i] is well formed and [l] are its children. *)
Record node_ok (ir : VntIrProgram) (i : nat) (l : list nat) : Prop := {
  node_ok_links : exists n, nodes ir !! i = Some n /\ label_ok (label_of n) /\ linked ir n l /\
    roles_ok (opcode n) (map (role_at ir) l);
  node_ok_self : i ∉ l
}.

Lemma linked_first ir n l : linked ir n l -> (first_child n = None <-> child_count n = 0).
Proof. intros [Hc _ ->]. destruct Hc; cbn; split; done. Qed.

Lemma linked_det ir n l1 l2 : linked ir n l1 -> linked ir n l2 -> l1 = l2.
Proof. intros [H1 _ _] [H2 _ _]. by eapply chain_det. Qed.

Lemma validate_node_spec ir i parents :
  length parents = node_count ir -> i < node_count ir ->
  returns (validate_node ir i parents) (fun r =>
    match r with
    | Some parents' => exists l, node_ok ir i l /\ unclaimed parents l /\ parents' = claim l parents
    | None => forall l, node_ok ir i l -> unclaimed parents l -> False
    end).
Proof.
  intros Hp Hi. destruct (in_range_node ir i Hi) as [n Hn]. unfold validate_node.
  rewrite (node_at_done _ _ _ Hn). cbn [mbind outcome_bind].
  assert (forall l, node_ok ir i l -> label_ok (label_of n) /\ linked ir n l /\
    roles_ok (opcode n) (map (role_at ir) l)) as Hok
    by (intros l [(n' & Hn' & ?) _]; by simplify_eq).
  destruct (node_fields_ok n) eqn:Hf; cbn [negb].
  2: { intros l Hl _. destruct (Hok l Hl) as (Hlab & Hlink & _).
       assert (node_fields_ok n = true); [|congruence].
       apply node_fields_ok_spec. split; [done|by eapply linked_first]. }
  apply node_fields_ok_spec in Hf as [Hlab Hfirst].
  apply returns_bind. eapply returns_mono; [apply validate_children_spec; [done|lia..]|].
  intros [[[seen last'] parents']|] H; cbv beta iota.
  2: { intros l Hl Hu. destruct (Hok l Hl) as (_ & [Hch _ _] & _). apply (H l); [done..|by destruct Hl|].
       cbn. apply (chain_length _ _ _ Hch), Hu. }
  destruct H as (l & Hch & Hu & Hil & -> & -> & ->). cbn [plus].
  assert (forall l', node_ok ir i l' -> l' = l) as Hdet
    by (intros l' Hl'; destruct (Hok l' Hl') as (_ & [Hch' _ _] & _); by eapply chain_det).
  destruct (Nat.eqb_spec (length l) (child_count n)) as [Hcount|Hcount]; cbn [negb orb].
  2: { intros l' Hl' _. pose proof (Hdet l' Hl') as ->. destruct (Hok l Hl') as (_ & [_ _ ?] & _). done. }
  case_bool_decide as Hlast; cbn [negb].
  2: { intros l' Hl' _. pose proof (Hdet l' Hl') as ->. destruct (Hok l Hl') as (_ & [_ Hl ?] & _).
       rewrite Hl in Hlast. by destruct (last l). }
  assert (last_child n = last l) as Hlast' by (rewrite <- Hlast; by destruct (last l)).
  rewrite Hlast'. clear Hlast.
  assert (match last l with None => Done true | Some l0 => n0 ← node_at ir l0; mret (is_null (next_sibling n0)) end
    = Done true) as ->.
  { destruct (last l) as [k|] eqn:E; [|done].
    destruct (chain_last _ _ _ _ Hch E) as (nk & Hnk & Hnext).
    rewrite (node_at_done _ _ _ Hnk). cbn. by rewrite Hnext. }
  cbn [mbind outcome_bind negb]. apply returns_bind.
  eapply returns_mono; [apply validate_node_shape_spec; [exact Hch|apply Hu|done]|].
  intros [] Hshape; cbn.
  - exists l. split_and!; [|done..]. split; [|done]. exists n. split_and!; [done..|].
    by apply Hshape.
  - intros l' Hl' _. pose proof (Hdet l' Hl') as ->.
    destruct (Hok l Hl') as (_ & _ & Hroles). apply Hshape in Hroles. done.
Qed.

Lemma validate_nodes_spec ir : forall todo i parents,
  length parents = node_count ir -> i + todo = node_count ir ->
  returns (validate_nodes todo ir i parents) (fun r =>
    match r with
    | Some parents' => exists ls, Forall2 (node_ok ir) (seq i todo) ls /\
        unclaimed parents (concat ls) /\ parents' = claim (concat ls) parents
    | None => forall ls, Forall2 (node_ok ir) (seq i todo) ls -> unclaimed parents (concat ls) -> False
    end).
Proof.
  induction todo as [|todo IH]; intros i parents Hp Hi; cbn [validate_nodes].
  { exists []. split_and!; [constructor|split; [apply NoDup_nil_2|constructor]|done]. }
  apply returns_bind. eapply returns_mono; [apply validate_node_spec; [done|lia]|].
  intros [parents1|] H; cbv beta iota.
  - destruct H as (l & Hl & Hu & ->). eapply returns_mono; [apply IH; [by rewrite claim_length|lia]|].
    intros [parents2|] H.
    + destruct H as (ls & Hls & Hus & ->). exists (l :: ls). split_and!.
      * by constructor.
      * cbn. by apply unclaimed_app.
      * cbn. by rewrite claim_app.
    + intros ls' Hls' Hus'. inversion Hls' as [|? l' ? ls'' Hl' Hrest]; subst.
      assert (l' = l) as ->.
      { destruct Hl as [(n & Hn & _ & Hk & _) _], Hl' as [(n' & Hn' & _ & Hk' & _) _].
        simplify_eq. by eapply linked_det. }
      cbn in Hus'. apply unclaimed_app in Hus' as [_ Hus']. by apply (H ls'').
  - intros ls Hls Hus. inversion Hls as [|? l ? ls' Hl Hrest]; subst.
    cbn in Hus. apply unclaimed_app in Hus as [Hu _]. by apply (H l).
Qed.

(** * The walk from the root *)

Lemma push_children_spec ir visited o l :
  chain ir o l -> length visited = node_count ir ->
  forall stack fuel, length l < fuel ->
  returns (each_sibling fuel ir (fun c stack =>
    if (node_count ir <=? c) then mret (inr tt)
    else
      v ← (match visited !! c with Some v => Done v | None => Fault end);
      if (v : bool) || (node_count ir <=? length stack) then mret (inr tt)
      else mret (inl (c :: stack))) o stack) (fun r =>
    match r with
    | inl stack' => stack' = rev l ++ stack
    | inr _ => exists l1 c l2, l = l1 ++ c :: l2 /\
        (visited !! c = Some true \/ node_count ir <= length l1 + length stack)
    end).
Proof.
  intros Hc Hv. induction Hc as [|c n l Hn Hc IH]; intros stack fuel Hf.
  { by destruct fuel. }
  destruct fuel as [|f]; [cbn in Hf; lia|]. cbn [each_sibling].
  assert (c < node_count ir) as Hr by (by eapply lookup_lt_Some).
  destruct (Nat.leb_spec (node_count ir) c) as [|_]; [lia|].
  destruct (lookup_lt_is_Some_2 visited c) as [v Hvc]; [lia|]. rewrite Hvc.
  cbn [mbind outcome_bind]. destruct v; cbn [orb].
  { cbn. exists [], c, l. auto. }
  destruct (Nat.leb_spec (node_count ir) (length stack)) as [Hs|Hs].
  { cbn. exists [], c, l. auto. }
  cbn [mbind outcome_bind mret outcome_ret]. rewrite (node_at_done _ _ _ Hn).
  eapply returns_mono; [apply (IH (c :: stack)); cbn in Hf; lia|].
  intros [stack'|[]].
  - intros ->. cbn. by rewrite <- app_assoc.
  - intros (l1 & d & l2 & -> & H). exists (c :: l1), d, l2. split; [done|].
    cbn in *. destruct H; [by left|right; lia].
Qed.

(** The order in which the walk visits, [K] giving the children of a node. *)
Inductive visits (K : nat -> list nat) : list nat -> list nat -> Prop :=
  | visits_nil : visits K [] []
  | visits_cons i stack vs :
      visits K (rev (K i) ++ stack) vs -> visits K (i :: stack) (i :: vs).

(** The nodes of a tree have the children [K] says. *)
Inductive follows (K : nat -> list nat) : tree -> Prop :=
  | follows_tree i l ts : map index ts = K i -> Forall (follows K) ts -> follows K (Tree i l ts).

Definition unvisited (visited : list bool) (vs : list nat) : Prop :=
  NoDup vs /\ Forall (fun v => visited !! v = Some false) vs.

Definition unvisited_count (visited : list bool) : nat :=
  length (filter (fun v => v = false) visited).

Lemma unvisited_count_insert visited i :
  visited !! i = Some false ->
  S (unvisited_count (<[i := true]> visited)) = unvisited_count visited.
Proof.
  intros Hi. unfold unvisited_count. rewrite insert_take_drop by (by eapply lookup_lt_Some).
  transitivity (length (filter (fun v => v = false) (take i visited ++ false :: drop (S i) visited))).
  - rewrite !filter_app, !filter_cons, decide_False, decide_True, !length_app by done. cbn. lia.
  - by rewrite (take_drop_middle _ _ _ Hi).
Qed.

Lemma unvisited_insert visited i vs :
  visited !! i = Some false ->
  unvisited visited (i :: vs) <-> unvisited (<[i := true]> visited) vs.
Proof.
  intros Hi. unfold unvisited. rewrite NoDup_cons, Forall_cons, !Forall_forall. split.
  - intros [[Hni Hd] [_ H]]. split; [done|]. intros v Hv.
    rewrite list_lookup_insert_ne; [by apply H|]. intros ->. done.
  - intros [Hd H]. split_and!; try done.
    + intros Hin. specialize (H i Hin). rewrite list_lookup_insert_eq in H; [done|].
      by eapply lookup_lt_Some.
    + intros v Hv. specialize (H v Hv). destruct (decide (v = i)) as [->|Hne]; [done|].
      by rewrite list_lookup_insert_ne in H.
Qed.

Lemma unvisited_length visited vs : unvisited visited vs -> length vs <= length visited.
Proof.
  intros [Hd H]. apply nodup_in_range_length; [done|].
  eapply Forall_impl; [exact H|]. intros v Hv. by apply lookup_lt_Some in Hv.
Qed.

Lemma forest_indices_app ts1 ts2 : forest_indices (ts1 ++ ts2) = forest_indices ts1 ++ forest_indices ts2.
Proof. unfold forest_indices. by rewrite map_app, concat_app. Qed.

Lemma forest_indices_rev ts : forest_indices (rev ts) ≡ₚ forest_indices ts.
Proof.
  induction ts as [|t ts IH]; [done|]. cbn [rev]. rewrite forest_indices_app, IH.
  change (forest_indices (t :: ts)) with (indices t ++ forest_indices ts).
  rewrite (Permutation_app_comm (indices t)). apply Permutation_app_head.
  unfold forest_indices. cbn. by rewrite app_nil_r.
Qed.

Lemma forest_index_in ts c : c ∈ map index ts -> c ∈ forest_indices ts.
Proof.
  induction ts as [|[i l us] ts IH]; cbn; [done|]. unfold forest_indices in *. cbn.
  rewrite !elem_of_cons, elem_of_app. intros [->|H]; auto.
Qed.

(** The first nodes of the trees are among their nodes. *)
Lemma forest_index_length ts : length (map index ts) <= length (forest_indices ts).
Proof.
  unfold forest_indices. induction ts as [|[i l us] ts IH]; cbn; [lia|]. rewrite length_app. lia.
Qed.

Section walk.
Context (ir : VntIrProgram) (K : nat -> list nat).
Hypothesis K_ok : forall i, i < node_count ir -> node_ok ir i (K i) /\ NoDup (K i).

(** The walk visits nodes that it has not seen, each once; it gives up only if
    the nodes on its stack are not the roots of disjoint trees. *)
Lemma walk_from_root_spec : forall fuel visited stack reached,
  length visited = node_count ir -> unvisited_count visited < fuel ->
  returns (walk_from_root fuel ir visited stack reached) (fun r =>
    match r with
    | Some reached' => exists vs, visits K stack vs /\ unvisited visited vs /\
        reached' = reached + length vs
    | None => forall ts, map index ts = stack -> Forall (follows K) ts ->
        unvisited visited (forest_indices ts) -> False
    end).
Proof.
  induction fuel as [|f IH]; intros visited stack reached Hv Hf; [lia|].
  destruct stack as [|i stack]; cbn [walk_from_root].
  { exists []. split_and!; [constructor|split; [apply NoDup_nil_2|constructor]|cbn; lia]. }
  destruct (Nat.leb_spec (node_count ir) i) as [Hi|Hi].
  { intros [|[i' l us] ts] Hts Hk [_ Hu]; [done|]. injection Hts as -> _.
    unfold forest_indices in Hu. cbn in Hu. apply Forall_cons in Hu as [Hu _].
    apply lookup_lt_Some in Hu. lia. }
  destruct (lookup_lt_is_Some_2 visited i) as [v Hvi]; [lia|]. rewrite Hvi.
  cbn [mbind outcome_bind]. destruct v.
  { intros [|[i' l us] ts] Hts Hk [_ Hu]; [done|]. injection Hts as -> _.
    unfold forest_indices in Hu. cbn in Hu. apply Forall_cons in Hu as [Hu _]. congruence. }
  destruct (K_ok i Hi) as [[(n & Hn & _ & [Hch _ _] & _) Hself] Hd].
  rewrite (node_at_done _ _ _ Hn). cbn [mbind outcome_bind]. apply returns_bind.
  eapply returns_mono.
  { apply push_children_spec; [exact Hch|by rewrite length_insert|].
    unfold sibling_fuel. pose proof (chain_length _ _ _ Hch Hd). lia. }
  intros [stack'|[]].
  - intros ->. eapply returns_mono.
    { apply IH; [by rewrite length_insert|]. pose proof (unvisited_count_insert _ _ Hvi). lia. }
    intros [reached'|].
    + intros (vs & Hvs & Hu & ->). exists (i :: vs). split_and!; [by constructor| |cbn; lia].
      by apply unvisited_insert.
    + intros H [|[i' l us] ts] Hts Hk Hu; [done|]. injection Hts as -> Hts.
      apply Forall_cons in Hk as [Hk Hks]. inversion Hk as [? ? ? Hus Hkus]; subst.
      apply (H (rev us ++ ts)).
      * by rewrite map_app, map_rev, Hus.
      * apply Forall_app. split; [by apply Forall_rev|done].
      * apply unvisited_insert; [done|]. unfold unvisited in *.
        rewrite forest_indices_app, forest_indices_rev. exact Hu.
  - intros (l1 & c & l2 & HK & Hbad) [|[i' l us] ts] Hts Hk Hu; [done|].
    injection Hts as -> Hts. apply Forall_cons in Hk as [Hk _]. inversion Hk as [? ? ? Hus Hkus]; subst.
    change (unvisited visited (i :: forest_indices us ++ forest_indices ts)) in Hu.
    apply (unvisited_insert _ _ _ Hvi) in Hu. destruct Hbad as [Hbad|Hbad].
    + destruct Hu as [_ Hu]. rewrite Forall_forall in Hu. specialize (Hu c).
      rewrite Hu in Hbad; [done|]. apply elem_of_app. left. apply forest_index_in.
      rewrite Hus, HK, elem_of_app, elem_of_cons. auto.
    + assert (S (length (forest_indices us ++ forest_indices ts)) <= node_count ir) as Hlen.
      { rewrite <- Hv. apply (unvisited_length visited (i :: forest_indices us ++ forest_indices ts)).
        by apply unvisited_insert. }
      rewrite length_app in Hlen. pose proof (forest_index_length us) as Hl1.
      pose proof (forest_index_length ts) as Hl2.
      rewrite Hus, HK, length_app in Hl1. cbn in Hl1. lia.
Qed.

(** A finished walk has followed a forest. *)
Lemma visits_forest stack vs :
  visits K stack vs -> Forall (fun v => v < node_count ir) vs ->
  exists ts, map index ts = stack /\ Forall (stored ir) ts /\
    Forall (fun t => hir_wf (erase t)) ts /\ vs ≡ₚ forest_indices ts.
Proof.
  induction 1 as [|i stack vs Hvs IH]; intros Hr.
  { exists []. split_and!; constructor. }
  apply Forall_cons in Hr as [Hi Hr]. destruct (IH Hr) as (ts & Hts & Hst & Hwf & Hp).
  destruct (K_ok i Hi) as [[(n & Hn & Hlab & Hlink & Hroles) _] _].
  apply map_eq_app in Hts as (ts1 & ts2 & -> & Hts1 & Hts2).
  apply Forall_app in Hst as [Hst1 Hst2]. apply Forall_app in Hwf as [Hwf1 Hwf2].
  assert (map index (rev ts1) = K i) as HK by (by rewrite map_rev, Hts1, rev_involutive).
  exists (Tree i (label_of n) (rev ts1) :: ts2). split_and!.
  - cbn. by rewrite Hts2.
  - constructor; [|done]. constructor; [done| |by apply Forall_rev]. by rewrite HK.
  - constructor; [|done]. cbn. constructor; [done| |].
    + cbn. rewrite map_map. replace (map _ (rev ts1)) with (map (role_at ir) (K i)); [done|].
      rewrite <- HK, map_map. apply map_ext_in. intros t Ht%in_rev.
      rewrite Forall_forall in Hst1. specialize (Hst1 t). rewrite <- list_elem_of_In in Ht.
      destruct (Hst1 Ht) as [j m us Hm _ _]. unfold role_at. cbn. by rewrite Hm.
    + rewrite Forall_map. by apply Forall_rev.
  - rewrite Hp, forest_indices_app. unfold forest_indices. cbn.
    change (concat (map indices (rev ts1))) with (forest_indices (rev ts1)).
    by rewrite forest_indices_rev.
Qed.
End walk.

(** * Parents *)

Lemma claim_replicate l n i : Forall (fun c => c < n) l -> i < n ->
  claim l (replicate n 0) !!! i = if decide (i ∈ l) then 1 else 0.
Proof.
  intros Hl Hi. apply list_lookup_total_correct. case_decide as Hin.
  - apply claim_in; [done|by rewrite length_replicate].
  - rewrite claim_other by done. by apply lookup_replicate_2.
Qed.

Lemma parents_ok_spec r l n : Forall (fun c => c < n) l ->
  parents_ok r (claim l (replicate n 0)) = true <-> forall i, i < n -> (i ∈ l <-> i <> r).
Proof.
  intros Hl. unfold parents_ok. rewrite claim_length, length_replicate, forallb_forall.
  split; intros H i Hi.
  - specialize (H i). rewrite in_seq in H. specialize (H ltac:(lia)).
    rewrite claim_replicate in H by done. apply Nat.eqb_eq in H.
    destruct (Nat.eqb_spec i r), (decide (i ∈ l)); try done; intuition.
  - apply in_seq in Hi. rewrite claim_replicate by (done || lia). apply Nat.eqb_eq.
    specialize (H i ltac:(lia)). destruct (Nat.eqb_spec i r), (decide (i ∈ l)); tauto.
Qed.

Lemma forall_choose {A B} (P : A -> B -> Prop) l :
  Forall (fun a => exists b, P a b) l -> exists l', Forall2 P l l'.
Proof.
  induction 1 as [|a l [b Hb] _ [l' IH]]; [by exists []|]. exists (b :: l'). by constructor.
Qed.

Lemma follows_indices K t : follows K t -> index t :: concat (map K (indices t)) ≡ₚ indices t.
Proof.
  induction t as [i l ts IH] using tree_ind. intros Hf. inversion Hf as [? ? ? Hi Hts]; subst.
  cbn [index indices map concat]. rewrite <- Hi. apply Permutation_skip. clear Hi Hf.
  induction ts as [|t ts IHts]; [done|].
  apply Forall_cons in IH as [IH IHf]. apply Forall_cons in Hts as [Ht Hts].
  cbn [map concat]. rewrite map_app, concat_app. rewrite <- (IH Ht) at 2.
  rewrite <- (IHts IHf Hts) at 2. cbn [app]. apply Permutation_skip. rewrite !app_assoc.
  apply Permutation_app_tail, Permutation_app_comm.
Qed.

Lemma follows_det K t : forall t',
  follows K t -> follows K t' -> index t = index t' -> indices t = indices t'.
Proof.
  induction t as [i l ts IH] using tree_ind. intros [i' l' ts'] Hf Hf' [= <-].
  inversion Hf as [? ? ? H Hts]; subst. inversion Hf' as [? ? ? H' Hts']; subst. cbn. f_equal. f_equal.
  rewrite <- H' in H. clear H' Hf Hf'. revert ts' H Hts'.
  induction ts as [|t ts IHts]; intros [|t' ts'] H Hts'; try done.
  apply Forall_cons in IH as [IH IHf]. apply Forall_cons in Hts as [Ht Hts].
  apply Forall_cons in Hts' as [Ht' Hts']. injection H as Ei E. cbn.
  by rewrite (IH t' Ht Ht' Ei), (IHts IHf Hts ts' E Hts').
Qed.

(** * Stored trees *)

(** What an array says of the nodes of a tree that it stores. *)
Lemma stored_node_ok ir t :
  stored ir t -> hir_wf (erase t) -> NoDup (indices t) ->
  forall i, i ∈ indices t -> exists l, node_ok ir i l.
Proof.
  induction t as [j l ts IH] using tree_ind. intros Hst Hwf Hd i Hi.
  inversion Hst as [? n ? Hn Hlink Hts]; subst. inversion Hwf as [? ? Hlab Hroles Hwfs]; subst.
  cbn [indices] in Hd, Hi. apply NoDup_cons in Hd as [Hj Hd].
  apply elem_of_cons in Hi as [->|Hi].
  - exists (map index ts). split.
    + exists n. split_and!; [done..|]. cbn in Hroles. rewrite map_map in Hroles.
      replace (map (role_at ir) (map index ts)) with (map (fun t => l_role (hir_label (erase t))) ts); [done|].
      rewrite map_map. apply map_ext_in. intros t Ht%list_elem_of_In.
      rewrite Forall_forall in Hts. destruct (Hts t Ht) as [k m us Hm _ _].
      unfold role_at. cbn. by rewrite Hm.
    + intros Hin. by apply Hj, forest_index_in.
  - clear Hn Hlink Hlab Hroles Hst Hwf Hj. apply Forall_map in Hwfs.
    induction ts as [|t ts IHts]; [by apply not_elem_of_nil in Hi|]. cbn in Hd, Hi.
    apply NoDup_app in Hd as (Hd1 & _ & Hd2). apply Forall_cons in IH as [IH IHf].
    apply Forall_cons in Hts as [Ht Hts]. apply Forall_cons in Hwfs as [Hw Hwfs].
    apply elem_of_app in Hi as [Hi|Hi]; [by apply IH|by apply IHts].
Qed.

Lemma stored_follows ir K t :
  stored ir t -> (forall i, i ∈ indices t -> node_ok ir i (K i)) -> follows K t.
Proof.
  induction t as [j l ts IH] using tree_ind. intros Hst HK.
  inversion Hst as [? n ? Hn Hlink Hts]; subst. constructor.
  - destruct (HK j) as [(n' & Hn' & _ & Hlink' & _) _]; [by left|]. simplify_eq.
    by eapply linked_det.
  - assert (forall i, i ∈ forest_indices ts -> node_ok ir i (K i)) as HK'
      by (intros i Hi; apply HK; by right). clear HK Hn Hlink Hst.
    induction ts as [|t ts IHts]; [constructor|]. apply Forall_cons in IH as [IH IHf].
    apply Forall_cons in Hts as [Ht Hts].
    constructor; [apply IH|apply IHts]; try done; intros i Hi; apply HK';
      unfold forest_indices; cbn; apply elem_of_app; [by left|by right].
Qed.

Lemma represents_follows ir K t :
  represents ir t -> (forall i, i < node_count ir -> node_ok ir i (K i)) -> follows K t.
Proof.
  intros [_ Hst Hall] HK. apply (stored_follows ir); [done|]. intros i Hi. apply HK.
  rewrite Hall in Hi. apply elem_of_seq in Hi. lia.
Qed.

Lemma node_ok_range ir i l : node_ok ir i l -> Forall (fun c => c < node_count ir) l.
Proof.
  intros [(n & _ & _ & [Hc _ _] & _) _]. apply Forall_forall. intros c. by eapply chain_in_range.
Qed.

Lemma concat_node_ok_range ir ls ns : Forall2 (node_ok ir) ns ls ->
  Forall (fun c => c < node_count ir) (concat ls).
Proof.
  induction 1 as [|i l ns ls Hl _ IH]; cbn; [constructor|]. apply Forall_app.
  split; [by eapply node_ok_range|done].
Qed.

(** The children lists as a function of the node. *)
Lemma forall2_seq {A} `{Inhabited A} (P : nat -> A -> Prop) n ls :
  Forall2 P (seq 0 n) ls ->
  (forall i, i < n -> P i (ls !!! i)) /\ ls = map (fun i => ls !!! i) (seq 0 n).
Proof.
  intros HP. pose proof (Forall2_length _ _ _ HP) as Hlen. rewrite length_seq in Hlen. split.
  - intros i Hi. destruct (lookup_lt_is_Some_2 ls i) as [l Hl]; [lia|].
    rewrite (list_lookup_total_correct _ _ _ Hl).
    eapply Forall2_lookup_lr in HP; [exact HP| |exact Hl]. by apply lookup_seq_lt.
  - apply list_eq. intros i. rewrite list_lookup_fmap. destruct (decide (i < n)) as [Hi|Hi].
    + rewrite lookup_seq_lt by done. cbn. destruct (lookup_lt_is_Some_2 ls i) as [l Hl]; [lia|].
      by rewrite (list_lookup_total_correct _ _ _ Hl), Hl.
    + rewrite lookup_seq_ge by lia. apply lookup_ge_None. lia.
Qed.

(** * Soundness and completeness *)

Lemma nth_concat_nodup (ls : list (list nat)) l : l ∈ ls -> NoDup (concat ls) -> NoDup l.
Proof.
  intros Hl Hd. apply list_elem_of_split in Hl as (l1 & l2 & ->).
  rewrite concat_app in Hd. cbn in Hd. apply NoDup_app in Hd as (_ & _ & Hd).
  by apply NoDup_app in Hd as (? & _).
Qed.

Lemma children_functional ir ls :
  Forall2 (node_ok ir) (seq 0 (node_count ir)) ls -> NoDup (concat ls) ->
  forall i, i < node_count ir -> node_ok ir i (ls !!! i) /\ NoDup (ls !!! i).
Proof.
  intros Hls Hd i Hi. split; [by apply (forall2_seq _ _ _ Hls)|].
  eapply nth_concat_nodup; [|exact Hd]. apply list_elem_of_lookup_total_2.
  apply Forall2_length in Hls. rewrite length_seq in Hls. lia.
Qed.

Lemma unclaimed_replicate ls n :
  unclaimed (replicate n 0) ls <-> NoDup ls /\ Forall (fun c => c < n) ls.
Proof.
  unfold unclaimed. split; intros [? H]; split; try done; eapply Forall_impl; try exact H; intros c.
  - intros Hc%lookup_lt_Some. by rewrite length_replicate in Hc.
  - intros Hc. by apply lookup_replicate_2.
Qed.

Lemma unvisited_replicate vs n :
  unvisited (replicate n false) vs <-> NoDup vs /\ Forall (fun c => c < n) vs.
Proof.
  unfold unvisited. split; intros [? H]; split; try done; eapply Forall_impl; try exact H; intros c.
  - intros Hc%lookup_lt_Some. by rewrite length_replicate in Hc.
  - intros Hc. by apply lookup_replicate_2.
Qed.

Lemma unvisited_count_replicate n : unvisited_count (replicate n false) = n.
Proof.
  unfold unvisited_count. induction n as [|n IH]; [done|]. cbn [replicate].
  rewrite filter_cons, decide_True by done. cbn. by rewrite IH.
Qed.

Lemma seq_permutation vs n :
  NoDup vs -> Forall (fun c => c < n) vs -> (vs ≡ₚ seq 0 n <-> length vs = n).
Proof.
  intros Hd Hr. split; [intros ->; apply length_seq|]. intros Hlen.
  apply submseteq_length_Permutation; [|rewrite length_seq; lia].
  apply NoDup_submseteq; [done|]. intros i Hi. rewrite Forall_forall in Hr.
  apply elem_of_seq. specialize (Hr i Hi). lia.
Qed.

(** The state of the validation after the loop over the nodes. *)
Lemma checked_valid ir r n ls :
  root ir = Some r -> nodes ir !! r = Some n -> opcode n = VNT_IR_PROGRAM ->
  role n = VNT_IR_EDGE_ROOT -> next_sibling n = None ->
  Forall2 (node_ok ir) (seq 0 (node_count ir)) ls -> NoDup (concat ls) ->
  returns (walk_from_root (S (node_count ir)) ir (replicate (node_count ir) false) [r] 0)
    (fun reached =>
       match reached with Some reached => reached =? node_count ir | None => false end = true <->
       ir_valid ir).
Proof.
  intros Hroot Hn Hop Hrole Hnext Hls Hd. pose (K i := ls !!! i).
  pose proof (children_functional ir ls Hls Hd) as HK.
  eapply returns_mono.
  { apply (walk_from_root_spec ir K HK); [apply length_replicate|].
    rewrite unvisited_count_replicate. lia. }
  intros [reached|]; cbv beta iota.
  - intros (vs & Hvs & Hu & ->). apply unvisited_replicate in Hu as [Hvd Hvr]. cbn [plus].
    destruct (visits_forest ir K HK _ _ Hvs Hvr) as (ts & Hts & Hst & Hwf & Hp).
    destruct ts as [|t [|]]; try done. injection Hts as <-.
    apply Forall_cons in Hst as [Hst _]. apply Forall_cons in Hwf as [Hwf _].
    unfold forest_indices in Hp. cbn in Hp. rewrite app_nil_r in Hp.
    rewrite Nat.eqb_eq, <- (seq_permutation vs _ Hvd Hvr), Hp. split.
    + intros Hall. exists t, n. split; [by constructor|]. split; [done|].
      destruct Hst as [i m us Hm _ _]. cbn in *. simplify_eq. done.
    + intros (t' & _ & Hrep & _ & _ & _ & _). pose proof Hrep as [Hr' _ Hall'].
      assert (follows K t) as Hf.
      { apply (stored_follows ir); [done|]. intros i Hi. apply HK.
        rewrite Forall_forall in Hvr. apply Hvr. by rewrite Hp. }
      assert (follows K t') as Hf' by (apply (represents_follows ir); [done|]; intros i Hi; by apply HK).
      rewrite <- Hall'. rewrite (follows_det K t t'); [done..|congruence].
  - intros Hno. split; [done|]. intros (t & _ & Hrep & _ & _ & _ & _). exfalso.
    pose proof Hrep as [Hr _ Hall]. apply (Hno [t]).
    + cbn. congruence.
    + constructor; [|done]. apply (represents_follows ir); [done|]. intros i Hi. by apply HK.
    + unfold forest_indices. cbn. rewrite app_nil_r. apply unvisited_replicate.
      rewrite Hall. split; [apply NoDup_seq|]. apply Forall_forall. intros i Hi.
      apply elem_of_seq in Hi. lia.
Qed.

(** The children lists of a valid array claim every node but the root, once. *)
Lemma valid_children ir t ls :
  represents ir t -> Forall2 (node_ok ir) (seq 0 (node_count ir)) ls ->
  index t :: concat ls ≡ₚ seq 0 (node_count ir).
Proof.
  intros Hrep Hls. destruct (forall2_seq _ _ _ Hls) as [HK Heq].
  assert (follows (fun i => ls !!! i) t) as Hf by by apply (represents_follows ir).
  destruct Hrep as [_ _ Hall]. apply follows_indices in Hf. rewrite <- Hall at 1. rewrite <- Hf. apply Permutation_skip.
  rewrite Heq at 1. by rewrite Hall.
Qed.

Lemma vnt_ir_validate_returns ir : returns (vnt_ir_validate ir) (fun b => b = true <-> ir_valid ir).
Proof.
  unfold vnt_ir_validate.
  assert (forall (P : Prop), (ir_valid ir -> P) -> ~ P -> false = true <-> ir_valid ir) as no
    by (intros P H1 H2; split; [done|intros H; by destruct H2; apply H1]).
  destruct (root ir) as [r|] eqn:Hr.
  2: { cbn. split; [done|]. intros (t & n & [H _ _] & _). congruence. }
  destruct (Nat.leb_spec (node_count ir) r) as [Hrange|Hrange].
  { cbn. split; [done|]. intros (t & n & [H _ _] & _ & _ & _ & Hn & _).
    apply lookup_lt_Some in Hn. rewrite Hr in H. injection H as ->. unfold node_count in *. lia. }
  destruct (in_range_node ir r Hrange) as [n Hn]. rewrite (node_at_done _ _ _ Hn).
  cbn [mbind outcome_bind].
  assert (ir_valid ir -> opcode n = VNT_IR_PROGRAM /\ role n = VNT_IR_EDGE_ROOT /\
    next_sibling n = None) as Hhead.
  { intros (t & m & [H Hst _] & _ & Hop & Hrole & Hm & Hnext).
    assert (index t = r) as E by congruence. rewrite E in Hm. simplify_eq.
    destruct Hst as [i m us Hm' _ _]. cbn in *. simplify_eq. done. }
  case_bool_decide as Hop; cbn [negb]; [|by apply (no _ Hhead); intros (? & _)].
  case_bool_decide as Hrole; cbn [negb orb]; [|by apply (no _ Hhead); intros (_ & ? & _)].
  destruct (next_sibling n) as [k|] eqn:Hnext; cbn [is_null negb];
    [by apply (no _ Hhead); intros (_ & _ & ?)|]. clear no Hhead.
  apply returns_bind. eapply returns_mono.
  { apply validate_nodes_spec; [apply length_replicate|lia]. }
  intros [parents|]; cbv beta iota.
  - intros (ls & Hls & Hu & ->). apply unclaimed_replicate in Hu as [Hd Hlr].
    destruct (parents_ok r _) eqn:Hp; cbn [negb].
    + apply returns_bind. eapply returns_mono; [by apply (checked_valid ir r n ls)|]. done.
    + cbn. split; [done|]. intros (t & m & Hrep & _). rewrite <- Hp.
      apply parents_ok_spec; [done|]. pose proof (valid_children ir t ls Hrep Hls) as Hperm.
      destruct Hrep as [Hroot _ _]. assert (index t = r) as E by congruence. rewrite E in Hperm.
      intros i Hi. assert (i ∈ r :: concat ls) as Hin.
      { rewrite Hperm. apply elem_of_seq. lia. }
      assert (NoDup (r :: concat ls)) as Hnd by (rewrite Hperm; apply NoDup_seq).
      apply NoDup_cons in Hnd as [Hnr _]. apply elem_of_cons in Hin as [->|Hin].
      * split; [done|]. intros []. done.
      * split; [|done]. intros _ ->. done.
  - intros Hno. cbn. split; [done|]. intros (t & m & Hrep & Hwf & _). exfalso.
    destruct Hrep as [Hroot Hst Hall] eqn:Erep.
    assert (NoDup (indices t)) as Hnd by (rewrite Hall; apply NoDup_seq).
    assert (Forall (fun i => exists l, node_ok ir i l) (seq 0 (node_count ir))) as Hex.
    { apply Forall_forall. intros i Hi. apply (stored_node_ok ir t Hst Hwf Hnd). by rewrite Hall. }
    apply forall_choose in Hex as [ls Hls]. apply (Hno ls Hls). apply unclaimed_replicate.
    pose proof (valid_children ir t ls ltac:(done) Hls) as Hperm.
    split; [|by eapply concat_node_ok_range].
    eapply NoDup_cons_1_2. rewrite Hperm. apply NoDup_seq.
Qed.
