(* ===== verification/IrLayout.v ===== *)
(** IrLayout: the array that a depth-first construction leaves. [layout] writes
    a tree at consecutive indices, every node before its children; lowering and
    compaction both build it, child by child, with reserve_node and add_child. *)

From S2P Require Import Prelude Clib Ast Ir IrTrees IrFacts.

(** * Layouts *)

(** The first indices of trees written one after the other. *)
Fixpoint positions (base : nat) (hs : list hir) : list nat :=
  match hs with
  | [] => []
  | h :: hs => base :: positions (base + hir_size h) hs
  end.

Definition hirs_size (hs : list hir) : nat := list_sum (map hir_size hs).

Definition node_of (l : Label) (first last next : option nat) (count : nat) : VntIrNode :=
  {| opcode := l_opcode l; role := l_role l; operation := l_operation l; names := l_names l;
     type_name := l_type_name l; first_child := first; last_child := last;
     next_sibling := next; child_count := count; value := l_value l |}.

(** The node of [Hir l hs] at [base], with the sibling [next]. *)
Definition head_node (base : nat) (next : option nat) (l : Label) (hs : list hir) : VntIrNode :=
  node_of l (head (positions (S base) hs)) (last (positions (S base) hs)) next (length hs).

Section forest.
Context (layout : nat -> option nat -> hir -> list VntIrNode).

(** Siblings one after the other, the last one followed by [final]. *)
Fixpoint layout_forest_with (base : nat) (hs : list hir) (final : option nat) : list VntIrNode :=
  match hs with
  | [] => []
  | h :: hs =>
      let base' := base + hir_size h in
      layout base (match hs with [] => final | _ => Some base' end) h ++
      layout_forest_with base' hs final
  end.
End forest.

Fixpoint layout (base : nat) (next : option nat) (h : hir) : list VntIrNode :=
  match h with
  | Hir l hs => head_node base next l hs :: layout_forest_with layout (S base) hs None
  end.

Definition layout_forest := layout_forest_with layout.

Lemma positions_app hs1 : forall base hs2,
  positions base (hs1 ++ hs2) = positions base hs1 ++ positions (base + hirs_size hs1) hs2.
Proof.
  induction hs1 as [|h hs1 IH]; intros base hs2; cbn [app positions].
  - cbn. by rewrite Nat.add_0_r.
  - rewrite IH. cbn [app]. unfold hirs_size. cbn. by rewrite Nat.add_assoc.
Qed.

Lemma positions_length hs : forall base, length (positions base hs) = length hs.
Proof. induction hs as [|h hs IH]; intros base; cbn; [done|]. by rewrite IH. Qed.

Lemma hirs_size_app hs1 hs2 : hirs_size (hs1 ++ hs2) = hirs_size hs1 + hirs_size hs2.
Proof. unfold hirs_size. by rewrite map_app, list_sum_app. Qed.

Lemma layout_length h : forall base next, length (layout base next h) = hir_size h.
Proof.
  induction h as [l hs IH] using hir_ind. intros base next. cbn. f_equal.
  generalize (S base) as b. induction IH as [|h hs Hh _ IHhs]; intros b; cbn; [done|].
  by rewrite length_app, Hh, IHhs.
Qed.

Lemma layout_forest_length hs : forall base final,
  length (layout_forest base hs final) = hirs_size hs.
Proof.
  unfold layout_forest. induction hs as [|h hs IH]; intros base final; cbn; [done|].
  by rewrite length_app, layout_length, IH.
Qed.

Lemma layout_forest_snoc hs : forall base h final,
  layout_forest base (hs ++ [h]) final =
  layout_forest base hs (Some (base + hirs_size hs)) ++ layout (base + hirs_size hs) final h.
Proof.
  unfold layout_forest. induction hs as [|h' hs IH]; intros base h final; cbn.
  - by rewrite app_nil_r, Nat.add_0_r.
  - rewrite IH, <- app_assoc. unfold hirs_size. cbn. rewrite !Nat.add_assoc.
    destruct hs; cbn; [|done]. by rewrite Nat.add_0_r.
Qed.

(** * Building a layout *)

(** A node with the children [hs], being built after [pre]. *)
Definition building (pre : list VntIrNode) (l : Label) (hs : list hir) : list VntIrNode :=
  pre ++ layout (length pre) None (Hir l hs).

Lemma building_length pre l hs : length (building pre l hs) = length pre + S (hirs_size hs).
Proof. unfold building. rewrite length_app, layout_length. done. Qed.

Lemma last_position base hs h :
  last (positions base (hs ++ [h])) = Some (base + hirs_size hs).
Proof. rewrite positions_app. cbn. by rewrite last_snoc. Qed.

Lemma head_positions_snoc base hs h :
  head (positions base (hs ++ [h])) =
  match last (positions base hs) with
  | None => Some (base + hirs_size hs)
  | Some _ => head (positions base hs)
  end.
Proof.
  destruct hs as [|h' hs].
  - cbn. by rewrite Nat.add_0_r.
  - cbn [app positions head]. rewrite last_cons. by destruct (last _).
Qed.

(** Hooking the next sibling to the last of the children. *)
Lemma layout_forest_link hs base last_index x :
  last (positions base hs) = Some last_index ->
  exists n, layout_forest base hs None !! (last_index - base) = Some n /\
    <[last_index - base := with_next (Some x) n]> (layout_forest base hs None) =
    layout_forest base hs (Some x) /\ base <= last_index.
Proof.
  destruct (decide (hs = [])) as [->|Hne]; [done|].
  destruct (exists_last Hne) as (hs' & [l us] & ->). rewrite last_position. intros [= <-].
  rewrite !layout_forest_snoc. replace (base + hirs_size hs' - base) with (hirs_size hs') by lia.
  set (A := layout_forest base hs' _).
  assert (length A = hirs_size hs') as HA by apply layout_forest_length.
  exists (head_node (base + hirs_size hs') None l us). split_and!; [| |lia].
  - rewrite lookup_app_r, HA, Nat.sub_diag by lia. done.
  - rewrite insert_app_r_alt, HA, Nat.sub_diag by lia. done.
Qed.

Lemma with_nodes_twice ns1 ns2 ir : with_nodes ns1 (with_nodes ns2 ir) = with_nodes ns1 ir.
Proof. done. Qed.

Lemma update_node_at ir f A n B i :
  nodes ir = A ++ n :: B -> i = length A ->
  update_node i f ir = Done (tt, with_nodes (A ++ f n :: B) ir).
Proof.
  intros E ->. unfold update_node. rewrite E, list_lookup_middle by done.
  by rewrite insert_app_r_alt, Nat.sub_diag.
Qed.

Lemma add_child_building ir pre l hs h :
  nodes ir = building pre l hs ++ layout (length pre + S (hirs_size hs)) None h ->
  add_child (length pre) (length pre + S (hirs_size hs)) ir =
  Done (true, with_nodes (building pre l (hs ++ [h])) ir).
Proof.
  set (b := S (length pre)). intros E.
  replace (length pre + S (hirs_size hs)) with (b + hirs_size hs) in * by (subst b; lia).
  set (H := layout (b + hirs_size hs) None h) in *.
  assert (building pre l (hs ++ [h]) = pre ++ head_node (length pre) None l (hs ++ [h]) ::
    layout_forest b hs (Some (b + hirs_size hs)) ++ H) as ->.
  { unfold building, H. cbn [layout]. by rewrite <- (layout_forest_snoc hs b h None). }
  assert (node_count ir = length pre + S (hirs_size hs) + hir_size h) as Hlen.
  { unfold node_count. rewrite E, length_app, building_length. subst H. by rewrite layout_length. }
  assert (0 < hir_size h) as Hpos by (destruct h; cbn; lia).
  unfold add_child. rewrite (bind_done get _ ir ir ir) by done. cbv beta.
  destruct (Nat.leb_spec (node_count ir) (length pre)); [lia|].
  destruct (Nat.leb_spec (node_count ir) (b + hirs_size hs)); [subst b; lia|].
  cbn [orb]. unfold building in E. cbn [layout] in E. rewrite <- app_assoc in E. cbn [app] in E.
  fold (layout_forest b hs None) in E.
  assert (asks (fun ir => node_at ir (length pre)) ir = Done (head_node (length pre) None l hs, ir))
    as Hparent by (unfold asks, node_at; by rewrite E, list_lookup_middle).
  rewrite (bind_done _ _ _ _ _ Hparent). cbv beta.
  cbn [last_child head_node node_of]. fold b. unfold head_node. fold b.
  rewrite last_position, head_positions_snoc, length_app, Nat.add_1_r.
  destruct (last (positions b hs)) as [k|] eqn:Hlast.
  - destruct (layout_forest_link hs b k (b + hirs_size hs) Hlast) as (n & Hn & Hlink & Hk).
    set (F := layout_forest b hs (Some (b + hirs_size hs)) ++ H).
    assert (update_node k (with_next (Some (b + hirs_size hs))) ir =
      Done (tt, with_nodes (pre ++ head_node (length pre) None l hs :: F) ir)) as Hlinked.
    { unfold update_node. rewrite E. replace k with (length pre + S (k - b)) by (subst b; lia).
      rewrite lookup_app_r by lia.
      replace (length pre + S (k - b) - length pre) with (S (k - b)) by lia.
      change (_ !! S (k - b)) with ((layout_forest b hs None ++ H) !! (k - b)).
      rewrite lookup_app_l, Hn by (by eapply lookup_lt_Some). rewrite insert_app_r.
      change (<[S (k - b) := ?x]> (?n0 :: _)) with (n0 :: <[k - b := x]> (layout_forest b hs None ++ H)).
      rewrite insert_app_l by (by eapply lookup_lt_Some). by rewrite Hlink. }
    rewrite (bind_done _ _ _ _ _ Hlinked). cbv beta.
    erewrite bind_done; [|by eapply update_node_at]. done.
  - destruct hs as [|h' hs]; [|cbn in Hlast; rewrite last_cons in Hlast; by destruct (last _)].
    erewrite bind_done; [|by eapply update_node_at]. cbv beta.
    erewrite bind_done; [|by eapply update_node_at]. done.
Qed.

(** * A layout stores its tree *)

Fixpoint tree_at (base : nat) (h : hir) : tree :=
  match h with
  | Hir l hs =>
      Tree base l ((fix forest base hs :=
        match hs with
        | [] => []
        | h :: hs => tree_at base h :: forest (base + hir_size h) hs
        end) (S base) hs)
  end.

Definition forest_at : nat -> list hir -> list tree :=
  fix forest base hs :=
    match hs with
    | [] => []
    | h :: hs => tree_at base h :: forest (base + hir_size h) hs
    end.

Lemma forest_at_index hs : forall base, map index (forest_at base hs) = positions base hs.
Proof. induction hs as [|[l us] hs IH]; intros base; cbn; [done|]. by rewrite IH. Qed.

Lemma erase_tree_at h : forall base, erase (tree_at base h) = h.
Proof.
  induction h as [l hs IH] using hir_ind. intros base. cbn. f_equal.
  generalize (S base) as b. induction IH as [|h hs Hh _ IHhs]; intros b; cbn; [done|].
  by rewrite Hh, IHhs.
Qed.

Lemma indices_tree_at h : forall base, indices (tree_at base h) = seq base (hir_size h).
Proof.
  induction h as [l hs IH] using hir_ind. intros base. cbn. f_equal.
  generalize (S base) as b. induction IH as [|h hs Hh _ IHhs]; intros b; cbn; [done|].
  by rewrite Hh, IHhs, seq_app.
Qed.

(** The array holds these nodes from [base]. *)
Definition holds (ir : VntIrProgram) (base : nat) (ns : list VntIrNode) : Prop :=
  forall i, i < length ns -> nodes ir !! (base + i) = ns !! i.

Lemma holds_app ir base ns1 ns2 :
  holds ir base (ns1 ++ ns2) <-> holds ir base ns1 /\ holds ir (base + length ns1) ns2.
Proof.
  unfold holds. rewrite length_app. split.
  - intros H. split; intros i Hi.
    + rewrite H by lia. by apply lookup_app_l.
    + rewrite <- Nat.add_assoc, H by lia. rewrite lookup_app_r by lia. f_equal. lia.
  - intros [H1 H2] i Hi. destruct (decide (i < length ns1)) as [Hi1|Hi1].
    + by rewrite H1, lookup_app_l.
    + rewrite lookup_app_r by lia. rewrite <- H2 by lia. f_equal. lia.
Qed.

Lemma holds_head ir base n ns : holds ir base (n :: ns) -> nodes ir !! base = Some n.
Proof. intros H. specialize (H 0 ltac:(cbn; lia)). by rewrite Nat.add_0_r in H. Qed.

Lemma holds_tail ir base n ns : holds ir base (n :: ns) -> holds ir (S base) ns.
Proof. 
  intros H i Hi. specialize (H (S i) ltac:(cbn; lia)).
  replace (base + S i) with (S base + i) in H by lia. exact H.
Qed.

Lemma label_of_node_of l f la n c : label_of (node_of l f la n c) = l.
Proof. by destruct l. Qed.

Lemma layout_stored h : forall ir base next,
  holds ir base (layout base next h) -> stored ir (tree_at base h).
Proof.
  induction h as [l hs IH] using hir_ind. intros ir base next H.
  cbn [layout] in H. pose proof (holds_head _ _ _ _ H) as Hn. apply holds_tail in H.
  cbn [tree_at]. fold forest_at. rewrite <- (label_of_node_of l (head (positions (S base) hs))
    (last (positions (S base) hs)) next (length hs)).
  assert (forall b, holds ir b (layout_forest b hs None) ->
    chain ir (head (positions b hs)) (positions b hs) /\ Forall (stored ir) (forest_at b hs)) as Hf.
  { clear Hn H. induction hs as [|h hs IHhs]; intros b Hb; [split; constructor|].
    apply Forall_cons in IH as [IH IHf]. cbn in Hb. apply holds_app in Hb as [Hh Hb].
    rewrite layout_length in Hb. destruct (IHhs IHf _ Hb) as [Hc Hst].
    destruct h as [l' us]. pose proof (holds_head _ _ _ _ Hh) as Hn'. split.
    - cbn. econstructor; [exact Hn'|]. cbn [next_sibling head_node node_of]. by destruct hs.
    - cbn [forest_at]. constructor; [by eapply IH|done]. }
  destruct (Hf _ H) as [Hc Hst].
  constructor; [exact Hn| |done]. rewrite forest_at_index.
  constructor; [exact Hc|done|]. by rewrite positions_length.
Qed.

(** The array that holds a layout and nothing else stores its tree. *)
Lemma layout_represents h opt :
  represents {| nodes := layout 0 None h; root := Some 0; optimized_nodes := opt |} (tree_at 0 h).
Proof.
  constructor.
  - by destruct h.
  - apply (layout_stored h _ 0 None). intros i _. done.
  - unfold node_count. cbn [nodes]. by rewrite indices_tree_at, layout_length.
Qed.

Lemma layout_valid h opt :
  hir_wf h -> l_opcode (hir_label h) = VNT_IR_PROGRAM -> l_role (hir_label h) = VNT_IR_EDGE_ROOT ->
  ir_valid {| nodes := layout 0 None h; root := Some 0; optimized_nodes := opt |}.
Proof.
  intros Hwf Hop Hrole. destruct h as [l hs].
  exists (tree_at 0 (Hir l hs)), (head_node 0 None l hs).
  split_and!; try done; [apply layout_represents|by rewrite erase_tree_at].
Qed.
