(* ===== verification/IrLower.v ===== *)
(** IrLower: src/compiler/ir_lower.c, from the syntax tree to the HIR, with the
    resolution of the names of variables. *)

From S2P Require Import Prelude Clib Ast Ir.

(** * Lowering *)

Definition opcode_for (a : ast) : VntIrOpcode :=
  match a with
  | AST_PROGRAM _ => VNT_IR_PROGRAM
  | AST_UNSAFE_BLOCK _ => VNT_IR_PROGRAM
  | AST_ASM_STATEMENT _ _ => VNT_IR_ASM
  | AST_PRINT_STATEMENT _ => VNT_IR_PRINT
  | AST_IF_STATEMENT _ _ _ => VNT_IR_IF
  | AST_WHILE_STATEMENT _ _ => VNT_IR_WHILE
  | AST_FUNCTION_DECLARATION _ _ _ _ _ _ _ => VNT_IR_FUNCTION
  | AST_STRUCT_DECLARATION _ _ _ => VNT_IR_STRUCT
  | AST_FUNCTION_CALL _ _ _ => VNT_IR_CALL
  | AST_RETURN_STATEMENT _ => VNT_IR_RETURN
  | AST_BREAK_STATEMENT => VNT_IR_BREAK
  | AST_CONTINUE_STATEMENT => VNT_IR_CONTINUE
  | AST_STRING_LITERAL _ => VNT_IR_STRING
  | AST_INTEGER_LITERAL _ => VNT_IR_INTEGER
  | AST_FLOAT_LITERAL _ => VNT_IR_FLOAT
  | AST_BOOLEAN_LITERAL _ => VNT_IR_BOOLEAN
  | AST_NULL_LITERAL => VNT_IR_NULL
  | AST_ARRAY_LITERAL _ _ => VNT_IR_ARRAY
  | AST_VARIABLE_DECLARATION _ _ _ _ => VNT_IR_VARIABLE_DECL
  | AST_VARIABLE _ => VNT_IR_VARIABLE
  | AST_INDEX_EXPRESSION _ _ => VNT_IR_INDEX
  | AST_MEMBER_EXPRESSION _ _ => VNT_IR_MEMBER
  | AST_ASSIGNMENT _ _ => VNT_IR_ASSIGN
  | AST_BINARY_EXPRESSION _ _ _ => VNT_IR_BINARY
  | AST_UNARY_EXPRESSION _ _ => VNT_IR_UNARY
  end.

(** [op] in lower_node. *)
Definition lowered_opcode (a : ast) : VntIrOpcode :=
  match a with
  | AST_VARIABLE_DECLARATION _ _ _ true => VNT_IR_REASSIGN
  | _ => opcode_for a
  end.

Definition lowered_type_name (a : ast) : option bytes :=
  match a with
  | AST_VARIABLE_DECLARATION _ declared_type _ _ => declared_type
  | _ => None
  end.

Definition lowered_operation (a : ast) : Z :=
  match a with
  | AST_BINARY_EXPRESSION _ _ operator => int_of_binary operator
  | AST_UNARY_EXPRESSION _ operator => int_of_unary operator
  | AST_ASM_STATEMENT _ is_volatile => if is_volatile then 1 else 0
  | _ => 0
  end.

(** The first switch: the payload. *)
Definition lowered_value (a : ast) : VntIrValue :=
  match a with
  | AST_INTEGER_LITERAL value => VAL_INTEGER value
  | AST_BOOLEAN_LITERAL value => VAL_BOOLEAN value
  | AST_FLOAT_LITERAL value => VAL_FLOATING value
  | AST_STRING_LITERAL value => VAL_TEXT value
  | AST_ASM_STATEMENT assembly _ => VAL_TEXT assembly
  | AST_VARIABLE_DECLARATION name _ _ _ => VAL_TEXT name
  | AST_VARIABLE name => VAL_TEXT name
  | AST_MEMBER_EXPRESSION _ member => VAL_TEXT member
  | AST_FUNCTION_CALL name _ _ => VAL_TEXT name
  | AST_FUNCTION_DECLARATION name _ _ _ _ _ _ => VAL_TEXT name
  | AST_STRUCT_DECLARATION name _ _ => VAL_TEXT name
  | _ => VAL_NONE
  end.

(** [count] entries of the array [names] are copied. *)
Definition copy_names (names : list bytes) (count : nat) : outcome (list bytes) :=
  if count <=? length names then Done (take count names) else Fault.

Definition lowered_names (a : ast) : outcome (list bytes) :=
  match a with
  | AST_FUNCTION_DECLARATION _ parameters _ parameter_count _ _ _ =>
      copy_names parameters parameter_count
  | AST_STRUCT_DECLARATION _ fields field_count => copy_names fields field_count
  | _ => Done []
  end.

(** The fields of the new node. *)
Definition fill_node (a : ast) (ns : list bytes) (n : VntIrNode) : VntIrNode :=
  {| opcode := lowered_opcode a; role := VNT_IR_EDGE_ROOT; operation := lowered_operation a;
     names := ns; type_name := lowered_type_name a; first_child := first_child n;
     last_child := last_child n; next_sibling := next_sibling n; child_count := child_count n;
     value := lowered_value a |}.

Definition and_then (m1 m2 : St VntIrProgram bool) : St VntIrProgram bool :=
  ok ← m1;
  if (ok : bool) then m2 else mret false.

Section lower.
Context (lower_node : ast -> St VntIrProgram (option nat)).

(** The item is lowered and hooked under [parent]. *)
Definition lower_child (parent : nat) (item : ast) (r : VntIrEdgeRole) : St VntIrProgram bool :=
  child ← lower_node item;
  match child with
  | None => mret false
  | Some child =>
      _ ← update_node child (with_role r);
      add_child parent child
  end.

Definition lower_one (parent : nat) (item : option ast) (r : VntIrEdgeRole)
    : St VntIrProgram bool :=
  match item with
  | None => mret true
  | Some item => lower_child parent item r
  end.

Definition lower_list (parent : nat) (r : VntIrEdgeRole) : list ast -> St VntIrProgram bool :=
  fix go items :=
    match items with
    | [] => mret true
    | item :: items =>
        ok ← lower_child parent item r;
        if (ok : bool) then go items else mret false
    end.

(** The second switch: the children. *)
Definition lower_children (a : ast) (i : nat) : St VntIrProgram bool :=
  let list := lower_list i in
  let one item r := lower_one i item r in
  match a with
  | AST_PROGRAM statements => list VNT_IR_EDGE_STATEMENT statements
  | AST_UNSAFE_BLOCK statements => list VNT_IR_EDGE_STATEMENT statements
  | AST_PRINT_STATEMENT expression => one (Some expression) VNT_IR_EDGE_VALUE
  | AST_IF_STATEMENT condition then_branch else_branch =>
      and_then (one (Some condition) VNT_IR_EDGE_CONDITION)
        (and_then (list VNT_IR_EDGE_THEN then_branch) (list VNT_IR_EDGE_ELSE else_branch))
  | AST_WHILE_STATEMENT condition body =>
      and_then (one (Some condition) VNT_IR_EDGE_CONDITION) (list VNT_IR_EDGE_BODY body)
  | AST_FUNCTION_DECLARATION _ _ _ _ _ _ body => list VNT_IR_EDGE_BODY body
  | AST_VARIABLE_DECLARATION _ _ value _ => one (Some value) VNT_IR_EDGE_VALUE
  | AST_FUNCTION_CALL _ arguments _ => list VNT_IR_EDGE_ARGUMENT arguments
  | AST_RETURN_STATEMENT (Some expression) => one (Some expression) VNT_IR_EDGE_VALUE
  | AST_RETURN_STATEMENT None => one None VNT_IR_EDGE_VALUE
  | AST_ARRAY_LITERAL elements _ => list VNT_IR_EDGE_ELEMENT elements
  | AST_INDEX_EXPRESSION array index =>
      and_then (one (Some array) VNT_IR_EDGE_OBJECT) (one (Some index) VNT_IR_EDGE_INDEX)
  | AST_MEMBER_EXPRESSION object _ => one (Some object) VNT_IR_EDGE_OBJECT
  | AST_ASSIGNMENT target value =>
      and_then (one (Some target) VNT_IR_EDGE_TARGET) (one (Some value) VNT_IR_EDGE_VALUE)
  | AST_BINARY_EXPRESSION lhs rhs _ =>
      and_then (one (Some lhs) VNT_IR_EDGE_LEFT) (one (Some rhs) VNT_IR_EDGE_RIGHT)
  | AST_UNARY_EXPRESSION operand _ => one (Some operand) VNT_IR_EDGE_OPERAND
  | _ => mret true
  end.
End lower.

(** [None] is [return 0]; otherwise the index of the node. *)
Fixpoint lower_node (a : ast) : St VntIrProgram (option nat) :=
  ns ← asks (fun _ => lowered_names a);
  i ← reserve_node;
  _ ← update_node i (fill_node a ns);
  ok ← lower_children lower_node a i;
  mret (if (ok : bool) then Some i else None).

(** * Resolving the names of variables *)

Record HirSymbol := {
  source_name : bytes;
  storage_key : bytes;
  symbol_depth : nat
}.

(** [symbols] has [count] entries. *)
Record HirResolver := {
  rs_ir : VntIrProgram;
  symbols : list HirSymbol;
  next_id : nat;
  rs_depth : nat;
  rs_error : bool
}.

Definition with_ir (ir : VntIrProgram) (rs : HirResolver) : HirResolver :=
  {| rs_ir := ir; symbols := symbols rs; next_id := next_id rs; rs_depth := rs_depth rs;
     rs_error := rs_error rs |}.

Definition with_symbols (ss : list HirSymbol) (id : nat) (rs : HirResolver) : HirResolver :=
  {| rs_ir := rs_ir rs; symbols := ss; next_id := id; rs_depth := rs_depth rs;
     rs_error := rs_error rs |}.

Definition with_depth (d : nat) (rs : HirResolver) : HirResolver :=
  {| rs_ir := rs_ir rs; symbols := symbols rs; next_id := next_id rs; rs_depth := d;
     rs_error := rs_error rs |}.

Definition with_error (rs : HirResolver) : HirResolver :=
  {| rs_ir := rs_ir rs; symbols := symbols rs; next_id := next_id rs; rs_depth := rs_depth rs;
     rs_error := true |}.

Definition on_ir {A} (m : St VntIrProgram A) : St HirResolver A := fun rs =>
  match m (rs_ir rs) with
  | Done (a, ir) => Done (a, with_ir ir rs)
  | Fault => Fault
  | Stuck => Stuck
  end.

Definition hir_child_role (ir : VntIrProgram) (i : nat) (r : VntIrEdgeRole) : outcome (option nat) :=
  if node_count ir <=? i then Done None
  else
    n ← node_at ir i;
    find_role ir r (first_child n).

Definition hir_next_role (ir : VntIrProgram) (i : nat) (r : VntIrEdgeRole) : outcome (option nat) :=
  if node_count ir <=? i then Done None
  else
    n ← node_at ir i;
    find_role ir r (next_sibling n).

Definition resolver_error : St HirResolver unit := modify with_error.

(** The last symbol of that name. *)
Definition resolver_find (name : bytes) (ss : list HirSymbol) : option HirSymbol :=
  find (fun s => bytes_eqb (source_name s) name) (rev ss).

(** snprintf(suffix, 48, "__vnt_symbol_%zu_", id), followed by the name. *)
Definition symbol_key (id : nat) (name : bytes) : bytes :=
  str "__vnt_symbol_" ++ print_nonneg (Z.of_nat id) ++ str "_" ++ name.

Definition resolver_declare (name : bytes) : St HirResolver HirSymbol :=
  rs ← get;
  let symbol := {| source_name := name; storage_key := symbol_key (next_id rs) name;
                   symbol_depth := rs_depth rs |} in
  _ ← modify (with_symbols (symbols rs ++ [symbol]) (S (next_id rs)));
  mret symbol.

Definition with_text (text : bytes) (n : VntIrNode) : VntIrNode :=
  {| opcode := opcode n; role := role n; operation := operation n; names := names n;
     type_name := type_name n; first_child := first_child n; last_child := last_child n;
     next_sibling := next_sibling n; child_count := child_count n; value := VAL_TEXT text |}.

Definition with_names (ns : list bytes) (n : VntIrNode) : VntIrNode :=
  {| opcode := opcode n; role := role n; operation := operation n; names := ns;
     type_name := type_name n; first_child := first_child n; last_child := last_child n;
     next_sibling := next_sibling n; child_count := child_count n; value := value n |}.

(** [resolver_rename(&node->value.text, symbol->storage_key)], or an error if
    there is no symbol. *)
Definition rename_to (i : nat) (symbol : option HirSymbol) : St HirResolver unit :=
  match symbol with
  | None => resolver_error
  | Some symbol => on_ir (update_node i (with_text (storage_key symbol)))
  end.

(** The symbols at [depth] or deeper on top of the stack are popped. *)
Fixpoint pop_while (depth : nat) (rev_symbols : list HirSymbol) : list HirSymbol :=
  match rev_symbols with
  | s :: rest => if depth <=? symbol_depth s then pop_while depth rest else rev_symbols
  | [] => []
  end.

Definition pop_scope : St HirResolver unit :=
  modify (fun rs =>
    with_symbols (rev (pop_while (rs_depth rs) (rev (symbols rs)))) (next_id rs) rs).

(** Nothing is done after an error. *)
Definition unless_error (m : St HirResolver unit) : St HirResolver unit :=
  rs ← get;
  if rs_error rs then mret tt else m.

(** A loop over siblings that ends at an error. *)
Fixpoint resolver_siblings (fuel : nat) (body : nat -> St HirResolver unit) (c : option nat)
    : St HirResolver unit :=
  match c with
  | None => mret tt
  | Some i =>
      unless_error
        match fuel with
        | O => stuck
        | S f =>
            _ ← body i;
            n ← asks (fun rs => node_at (rs_ir rs) i);
            resolver_siblings f body (next_sibling n)
        end
  end.

Definition resolver_fuel (rs : HirResolver) : nat := sibling_fuel (rs_ir rs).

Section resolver.
Context (resolver_bind_expr : option nat -> St HirResolver unit).

(** [resolver_bind_expr(resolver, hir_child_role(resolver->ir, index, role))] *)
Definition bind_child (i : nat) (r : VntIrEdgeRole) : St HirResolver unit :=
  c ← asks (fun rs => hir_child_role (rs_ir rs) i r);
  resolver_bind_expr c.

Fixpoint bind_role_loop (fuel : nat) (r : VntIrEdgeRole) (c : option nat) : St HirResolver unit :=
  match c with
  | None => mret tt
  | Some i =>
      unless_error
        match fuel with
        | O => stuck
        | S f =>
            _ ← resolver_bind_expr (Some i);
            next ← asks (fun rs => hir_next_role (rs_ir rs) i r);
            bind_role_loop f r next
        end
  end.

Definition resolver_bind_role (i : nat) (r : VntIrEdgeRole) : St HirResolver unit :=
  c ← asks (fun rs => hir_child_role (rs_ir rs) i r);
  fuel ← gets resolver_fuel;
  bind_role_loop fuel r c.

(** The scope of the children in role [r]: one level deeper, and its symbols
    are popped after it. *)
Definition bind_scope (i : nat) (r : VntIrEdgeRole) : St HirResolver unit :=
  _ ← resolver_bind_role i r;
  pop_scope.

(** The switch of resolver_bind_expr. *)
Definition bind_node (i : nat) (node : VntIrNode) : St HirResolver unit :=
  match opcode node with
  | VNT_IR_VARIABLE =>
      text ← asks (fun _ => node_text node);
      ss ← gets symbols;
      rename_to i (resolver_find text ss)
  | VNT_IR_VARIABLE_DECL =>
      _ ← bind_child i VNT_IR_EDGE_VALUE;
      unless_error (
        text ← asks (fun _ => node_text node);
        symbol ← resolver_declare text;
        rename_to i (Some symbol))
  | VNT_IR_REASSIGN =>
      _ ← bind_child i VNT_IR_EDGE_VALUE;
      unless_error (
        text ← asks (fun _ => node_text node);
        ss ← gets symbols;
        rename_to i (resolver_find text ss))
  | VNT_IR_PROGRAM => resolver_bind_role i VNT_IR_EDGE_STATEMENT
  | VNT_IR_PRINT | VNT_IR_RETURN => bind_child i VNT_IR_EDGE_VALUE
  | VNT_IR_IF =>
      _ ← bind_child i VNT_IR_EDGE_CONDITION;
      unless_error (
        _ ← modify (fun rs => with_depth (S (rs_depth rs)) rs);
        _ ← resolver_bind_role i VNT_IR_EDGE_THEN;
        unless_error (
          _ ← pop_scope;
          _ ← bind_scope i VNT_IR_EDGE_ELSE;
          modify (fun rs => with_depth (pred (rs_depth rs)) rs)))
  | VNT_IR_WHILE =>
      _ ← bind_child i VNT_IR_EDGE_CONDITION;
      unless_error (
        _ ← modify (fun rs => with_depth (S (rs_depth rs)) rs);
        _ ← bind_scope i VNT_IR_EDGE_BODY;
        modify (fun rs => with_depth (pred (rs_depth rs)) rs))
  | VNT_IR_ASSIGN =>
      _ ← bind_child i VNT_IR_EDGE_TARGET;
      bind_child i VNT_IR_EDGE_VALUE
  | VNT_IR_CALL | VNT_IR_ARRAY =>
      fuel ← gets resolver_fuel;
      resolver_siblings fuel (fun c => resolver_bind_expr (Some c)) (first_child node)
  | VNT_IR_INDEX =>
      _ ← bind_child i VNT_IR_EDGE_OBJECT;
      bind_child i VNT_IR_EDGE_INDEX
  | VNT_IR_MEMBER => bind_child i VNT_IR_EDGE_OBJECT
  | VNT_IR_BINARY =>
      _ ← bind_child i VNT_IR_EDGE_LEFT;
      bind_child i VNT_IR_EDGE_RIGHT
  | VNT_IR_UNARY => bind_child i VNT_IR_EDGE_OPERAND
  | _ => mret tt
  end.
End resolver.

(** The recursion goes down the tree, so its budget is the number of nodes. *)
Fixpoint resolver_bind_expr (fuel : nat) (index : option nat) : St HirResolver unit :=
  unless_error
    match index with
    | None => mret tt
    | Some i =>
        ir ← gets rs_ir;
        if node_count ir <=? i then mret tt
        else
          match fuel with
          | O => stuck
          | S f =>
              node ← asks (fun rs => node_at (rs_ir rs) i);
              bind_node (resolver_bind_expr f) i node
          end
    end.

(** The loop over the parameters of function [c], [p] the index of the next. *)
Fixpoint declare_parameters (c p : nat) (parameters : list bytes) : St HirResolver unit :=
  match parameters with
  | [] => mret tt
  | name :: parameters =>
      unless_error (
        symbol ← resolver_declare name;
        _ ← on_ir (update_node c (fun n => with_names (<[p := storage_key symbol]> (names n)) n));
        declare_parameters c (S p) parameters)
  end.

(** The body of the second loop of resolve_hir_symbols. *)
Definition resolve_top_level (global_count : nat) (c : nat) : St HirResolver unit :=
  node ← asks (fun rs => node_at (rs_ir rs) c);
  fuel ← gets resolver_fuel;
  match opcode node with
  | VNT_IR_FUNCTION =>
      function_base ← gets (fun rs => length (symbols rs));
      _ ← modify (with_depth 1);
      _ ← declare_parameters c 0 (names node);
      _ ← resolver_bind_role (resolver_bind_expr fuel) c VNT_IR_EDGE_BODY;
      _ ← modify (fun rs => with_symbols (take function_base (symbols rs)) (next_id rs) rs);
      modify (with_depth 0)
  | VNT_IR_VARIABLE_DECL =>
      text ← asks (fun _ => node_text node);
      ss ← gets symbols;
      _ ← rename_to c (find (fun s => bytes_eqb (source_name s) text) (take global_count ss));
      bind_child (resolver_bind_expr fuel) c VNT_IR_EDGE_VALUE
  | _ => resolver_bind_expr fuel (Some c)
  end.

(** The first loop: the global variables are declared. *)
Definition predeclare (c : nat) : St HirResolver unit :=
  node ← asks (fun rs => node_at (rs_ir rs) c);
  match opcode node with
  | VNT_IR_VARIABLE_DECL =>
      text ← asks (fun _ => node_text node);
      _ ← resolver_declare text;
      mret tt
  | _ => mret tt
  end.

Definition resolve_all (r : nat) : St HirResolver unit :=
  root_node ← asks (fun rs => node_at (rs_ir rs) r);
  fuel ← gets resolver_fuel;
  _ ← resolver_siblings fuel predeclare (first_child root_node);
  global_count ← gets (fun rs => length (symbols rs));
  resolver_siblings fuel (resolve_top_level global_count) (first_child root_node).

Definition resolve_hir_symbols (r : nat) : St VntIrProgram bool := fun ir =>
  let rs := {| rs_ir := ir; symbols := []; next_id := 0; rs_depth := 0; rs_error := false |} in
  match resolve_all r rs with
  | Done (_, rs) => Done (negb (rs_error rs), rs_ir rs)
  | Fault => Fault
  | Stuck => Stuck
  end.

(** * The whole lowering *)

Definition empty_program : VntIrProgram := {| nodes := []; root := None; optimized_nodes := 0 |}.

Definition is_program (a : ast) : bool := match a with AST_PROGRAM _ => true | _ => false end.

(** [None] is [return 0]. *)
Definition build_hir (program : ast) : outcome (option VntIrProgram) :=
  if negb (is_program program) then Done None
  else
    match lower_node program empty_program with
    | Done (None, _) => Done None
    | Done (Some r, ir) =>
        let ir := {| nodes := nodes ir; root := Some r; optimized_nodes := optimized_nodes ir |} in
        match resolve_hir_symbols r ir with
        | Done (false, _) => Done None
        | Done (true, ir) =>
            valid ← vnt_ir_validate ir;
            mret (if (valid : bool) then Some ir else None)
        | Fault => Fault
        | Stuck => Stuck
        end
    | Fault => Fault
    | Stuck => Stuck
    end.

Definition vnt_ir_lower (program : ast) : outcome (option VntIrProgram) := build_hir program.
