(* ===== verification/IrAccess.v ===== *)
(** IrAccess: reading a valid HIR array. Every index is the root of a stored
    subtree, and the loops over children return.
    The first part: lowering writes the HIR tree of a syntax tree, [hir_of], as a
    layout at the end of the array. *)

From S2P Require Import Prelude Clib Ast Ir IrTrees IrFacts IrLayout IrLower.

(** * The HIR tree of a syntax tree *)

Definition label_role (r : VntIrEdgeRole) (l : Label) : Label :=
  {| l_opcode := l_opcode l; l_role := r; l_operation := l_operation l; l_names := l_names l;
     l_type_name := l_type_name l; l_value := l_value l |}.

Definition hir_role (r : VntIrEdgeRole) (h : hir) : hir :=
  Hir (label_role r (hir_label h)) (hir_children h).

Definition names_of (a : ast) : list bytes :=
  match lowered_names a with Done ns => ns | _ => [] end.

Definition label_of_ast (a : ast) : Label :=
  {| l_opcode := lowered_opcode a; l_role := VNT_IR_EDGE_ROOT; l_operation := lowered_operation a;
     l_names := names_of a; l_type_name := lowered_type_name a; l_value := lowered_value a |}.

(** The children of a node with the roles of the edges to them. *)
Definition edges (a : ast) : list (VntIrEdgeRole * ast) :=
  let all r := map (pair r) in
  match a with
  | AST_PROGRAM ss | AST_UNSAFE_BLOCK ss => all VNT_IR_EDGE_STATEMENT ss
  | AST_PRINT_STATEMENT e | AST_VARIABLE_DECLARATION _ _ e _ => [(VNT_IR_EDGE_VALUE, e)]
  | AST_RETURN_STATEMENT e => match e with Some e => [(VNT_IR_EDGE_VALUE, e)] | None => [] end
  | AST_IF_STATEMENT c t e =>
      (VNT_IR_EDGE_CONDITION, c) :: all VNT_IR_EDGE_THEN t ++ all VNT_IR_EDGE_ELSE e
  | AST_WHILE_STATEMENT c body => (VNT_IR_EDGE_CONDITION, c) :: all VNT_IR_EDGE_BODY body
  | AST_FUNCTION_DECLARATION _ _ _ _ _ _ body => all VNT_IR_EDGE_BODY body
  | AST_FUNCTION_CALL _ arguments _ => all VNT_IR_EDGE_ARGUMENT arguments
  | AST_ARRAY_LITERAL elements _ => all VNT_IR_EDGE_ELEMENT elements
  | AST_INDEX_EXPRESSION a i => [(VNT_IR_EDGE_OBJECT, a); (VNT_IR_EDGE_INDEX, i)]
  | AST_MEMBER_EXPRESSION o _ => [(VNT_IR_EDGE_OBJECT, o)]
  | AST_ASSIGNMENT t v => [(VNT_IR_EDGE_TARGET, t); (VNT_IR_EDGE_VALUE, v)]
  | AST_BINARY_EXPRESSION l r _ => [(VNT_IR_EDGE_LEFT, l); (VNT_IR_EDGE_RIGHT, r)]
  | AST_UNARY_EXPRESSION o _ => [(VNT_IR_EDGE_OPERAND, o)]
  | _ => []
  end.

Lemma ast_edges_ind (P : ast -> Prop) :
  (forall a, Forall (fun e => P e.2) (edges a) -> P a) -> forall a, P a.
Proof.
  intros H. fix IH 1. intros a. apply H.
  assert (forall r l, Forall (fun e : VntIrEdgeRole * ast => P e.2) (map (pair r) l)) as all.
  { intros r. fix IHl 1. intros [|x l]; constructor; [apply IH|apply IHl]. }
  destruct a; cbn [edges]; try apply all; repeat constructor; try apply IH.
  - apply Forall_app. split; apply all.
  - apply all.
  - destruct expression; repeat constructor. apply IH.
Qed.

Fixpoint hir_of (a : ast) : hir :=
  let one r c := hir_role r (hir_of c) in
  Hir (label_of_ast a)
    match a with
    | AST_PROGRAM ss | AST_UNSAFE_BLOCK ss => map (one VNT_IR_EDGE_STATEMENT) ss
    | AST_PRINT_STATEMENT e | AST_VARIABLE_DECLARATION _ _ e _ => [one VNT_IR_EDGE_VALUE e]
    | AST_RETURN_STATEMENT e => match e with Some e => [one VNT_IR_EDGE_VALUE e] | None => [] end
    | AST_IF_STATEMENT c t e =>
        one VNT_IR_EDGE_CONDITION c :: map (one VNT_IR_EDGE_THEN) t ++ map (one VNT_IR_EDGE_ELSE) e
    | AST_WHILE_STATEMENT c body => one VNT_IR_EDGE_CONDITION c :: map (one VNT_IR_EDGE_BODY) body
    | AST_FUNCTION_DECLARATION _ _ _ _ _ _ body => map (one VNT_IR_EDGE_BODY) body
    | AST_FUNCTION_CALL _ arguments _ => map (one VNT_IR_EDGE_ARGUMENT) arguments
    | AST_ARRAY_LITERAL elements _ => map (one VNT_IR_EDGE_ELEMENT) elements
    | AST_INDEX_EXPRESSION a i => [one VNT_IR_EDGE_OBJECT a; one VNT_IR_EDGE_INDEX i]
    | AST_MEMBER_EXPRESSION o _ => [one VNT_IR_EDGE_OBJECT o]
    | AST_ASSIGNMENT t v => [one VNT_IR_EDGE_TARGET t; one VNT_IR_EDGE_VALUE v]
    | AST_BINARY_EXPRESSION l r _ => [one VNT_IR_EDGE_LEFT l; one VNT_IR_EDGE_RIGHT r]
    | AST_UNARY_EXPRESSION o _ => [one VNT_IR_EDGE_OPERAND o]
    | _ => []
    end.

Definition edge_hir (e : VntIrEdgeRole * ast) : hir := hir_role e.1 (hir_of e.2).

Lemma hir_of_edges a : hir_of a = Hir (label_of_ast a) (map edge_hir (edges a)).
Proof.
  destruct a; cbn [hir_of edges]; f_equal; try by rewrite map_map.
  - cbn. by rewrite map_app, !map_map.
  - cbn. by rewrite map_map.
  - by destruct expression.
Qed.

(** The counts of the names of a declaration do not exceed its arrays. *)
Definition counts_ok (a : ast) : bool :=
  match lowered_names a with Done _ => true | _ => false end.

Inductive lowerable : ast -> Prop :=
  | lowerable_node a :
      counts_ok a = true -> Forall (fun e => lowerable e.2) (edges a) -> lowerable a.

(** * Lowering *)

(** Lowering the children of a node that is being built. *)
Definition lowers_children (m : nat -> St VntIrProgram bool) (es : list (VntIrEdgeRole * ast)) : Prop :=
  forall ir pre l hs, nodes ir = building pre l hs ->
    m (length pre) ir =
    Done (true, with_nodes (building pre l (hs ++ map edge_hir es)) ir).

Definition lowers_node (a : ast) : Prop :=
  forall ir, lower_node a ir =
    Done (Some (node_count ir), with_nodes (nodes ir ++ layout (node_count ir) None (hir_of a)) ir).

Lemma lower_child_spec r a :
  lowers_node a -> lowers_children (fun parent => lower_child lower_node parent a r) [(r, a)].
Proof.
  intros Ha ir pre l hs E. unfold lower_child. rewrite (bind_done _ _ _ _ _ (Ha ir)). cbv beta iota.
  assert (node_count ir = length pre + S (hirs_size hs)) as Hn
    by (unfold node_count; by rewrite E, building_length).
  set (ir1 := with_nodes _ _).
  assert (update_node (node_count ir) (with_role r) ir1 =
    Done (tt, with_nodes (building pre l hs ++ layout (length pre + S (hirs_size hs)) None
                            (edge_hir (r, a))) ir)) as Hrole.
  { subst ir1. unfold edge_hir. cbn [fst snd]. destruct (hir_of a) as [la ha] eqn:Eh.
    erewrite update_node_at; [|cbn [nodes with_nodes layout]; done|done].
    rewrite <- Hn. cbn [with_nodes]. by rewrite E. }
  rewrite (bind_done _ _ _ _ _ Hrole). cbv beta. rewrite Hn.
  by erewrite add_child_building.
Qed.

Lemma lower_list_spec r items :
  Forall lowers_node items ->
  lowers_children (fun parent => lower_list lower_node parent r items) (map (pair r) items).
Proof.
  induction 1 as [|a items Ha _ IH]; intros ir pre l hs E; cbn [lower_list map].
  - rewrite app_nil_r, <- E. by destruct ir.
  - rewrite (bind_done _ _ _ _ _ (lower_child_spec r a Ha ir pre l hs E)). cbv beta iota.
    fold (lower_list lower_node (length pre) r).
    rewrite (IH _ pre l (hs ++ map edge_hir [(r, a)])) by done. by rewrite <- app_assoc.
Qed.

Lemma and_then_spec m1 m2 es1 es2 :
  lowers_children m1 es1 -> lowers_children m2 es2 ->
  lowers_children (fun parent => and_then (m1 parent) (m2 parent)) (es1 ++ es2).
Proof.
  intros H1 H2 ir pre l hs E. unfold and_then.
  rewrite (bind_done _ _ _ _ _ (H1 ir pre l hs E)). cbv beta iota.
  rewrite (H2 _ pre l (hs ++ map edge_hir es1)) by done. by rewrite <- app_assoc, <- map_app.
Qed.

Lemma no_children : lowers_children (fun _ => mret true) [].
Proof. intros ir pre l hs E. rewrite app_nil_r, <- E. by destruct ir. Qed.

(** The items of a list of edges of one role. *)
Lemma forall_edges r items :
  Forall (fun e : VntIrEdgeRole * ast => lowers_node e.2) (map (pair r) items) ->
  Forall lowers_node items.
Proof. by rewrite Forall_map. Qed.

Lemma lower_one_spec r a :
  lowers_node a -> lowers_children (fun parent => lower_one lower_node parent (Some a) r) [(r, a)].
Proof. apply lower_child_spec. Qed.

Lemma lower_children_spec a :
  Forall (fun e => lowers_node e.2) (edges a) ->
  lowers_children (lower_children lower_node a) (edges a).
Proof.
  intros Hch. destruct a; cbn [edges] in *; unfold lower_children; try apply no_children;
    try (by apply lower_list_spec, (forall_edges _ _ Hch));
    try (apply lower_one_spec; exact (Forall_inv Hch));
    try (apply Forall_cons in Hch as [H1 H2%Forall_inv];
         apply (and_then_spec _ _ [_] [_]); by apply lower_one_spec).
  - apply Forall_cons in Hch as [H1 [H2 H3]%Forall_app].
    apply (and_then_spec _ _ [_]); [by apply lower_one_spec|].
    apply and_then_spec; apply lower_list_spec; by eapply forall_edges.
  - apply Forall_cons in Hch as [H1 H2].
    apply (and_then_spec _ _ [_]); [by apply lower_one_spec|].
    apply lower_list_spec; by eapply forall_edges.
  - destruct expression as [e|]; [|apply no_children].
    apply lower_one_spec. exact (Forall_inv Hch).
Qed.

Lemma lower_node_unfold a :
  lower_node a =
    (ns ← asks (fun _ => lowered_names a);
     i ← reserve_node;
     _ ← update_node i (fill_node a ns);
     ok ← lower_children lower_node a i;
     mret (if (ok : bool) then Some i else None)).
Proof. by destruct a. Qed.

Lemma lower_node_spec a : lowerable a -> lowers_node a.
Proof.
  induction a as [a IH] using ast_edges_ind. intros Ha ir. inversion Ha as [? Hc Hes]; subst.
  assert (Forall (fun e => lowers_node e.2) (edges a)) as Hch.
  { rewrite Forall_forall in *. intros e He. by apply IH, Hes. }
  clear IH Hes Ha. rewrite hir_of_edges, lower_node_unfold.
  unfold counts_ok in Hc. destruct (lowered_names a) as [ns| |] eqn:Hns; try done.
  rewrite (bind_done _ _ ir ns ir) by done. cbv beta.
  rewrite (bind_done _ _ ir (node_count ir) (with_nodes (nodes ir ++ [new_node]) ir)) by done. cbv beta.
  set (ir1 := with_nodes (building (nodes ir) (label_of_ast a) []) ir).
  rewrite (bind_done _ _ _ tt ir1).
  2: { erewrite update_node_at; [|done|done]. unfold ir1, building. cbn. unfold head_node, node_of. cbn.
       unfold names_of. by rewrite Hns. }
  cbv beta. change (node_count ir) with (length (nodes ir)).
  by rewrite (bind_done _ _ _ _ _ (lower_children_spec a Hch ir1 _ _ _ eq_refl)).
Qed.

(** * The tree of a program is well formed *)

Lemma hir_role_label r h : l_role (hir_label (hir_role r h)) = r.
Proof. done. Qed.

Lemma edge_hir_role es : map (fun h => l_role (hir_label h)) (map edge_hir es) = map fst es.
Proof. rewrite map_map. by apply map_ext. Qed.

Lemma label_role_ok r l : label_ok l -> label_ok (label_role r l).
Proof. intros [? ? ? ? ?]. by constructor. Qed.

Lemma hir_role_wf r h : hir_wf h -> hir_wf (hir_role r h).
Proof. intros []. constructor; [by apply label_role_ok|done..]. Qed.

Lemma binary_of_int_of op : binary_of_int (int_of_binary op) = Some op.
Proof. by destruct op. Qed.

Lemma unary_of_int_of op : unary_of_int (int_of_unary op) = Some op.
Proof. by destruct op. Qed.

Lemma label_of_ast_ok a : label_ok (label_of_ast a).
Proof.
  constructor; cbn.
  - destruct a; cbn; try done; eauto; by destruct is_reassignment; eauto.
  - unfold names_of. destruct a; cbn; try done; auto.
  - destruct a; cbn; try done. destruct is_reassignment; auto.
  - destruct a; cbn; try done; try by destruct is_reassignment. intros _.
    rewrite binary_of_int_of. eauto.
  - destruct a; cbn; try done; try by destruct is_reassignment. intros _.
    rewrite unary_of_int_of. eauto.
Qed.

Lemma forall_roles r items (P : VntIrEdgeRole -> Prop) :
  P r -> Forall P (map fst (map (pair (B := ast) r) items)).
Proof. intros H. rewrite map_map. apply Forall_map, Forall_forall. done. Qed.

Lemma count_role_all r r' items :
  r' <> r -> count_role r (map fst (map (pair (B := ast) r') items)) = 0.
Proof.
  intros H. induction items as [|a items IH]; [done|]. cbn [map]. by rewrite count_role_cons, decide_False.
Qed.

Lemma edges_roles_ok a : roles_ok (lowered_opcode a) (map fst (edges a)).
Proof.
  destruct a; cbn [edges lowered_opcode opcode_for roles_ok]; try done; try (by apply forall_roles); auto.
  - rewrite map_cons, map_app. cbn [fst]. split.
    + rewrite count_role_cons, count_role_app, !count_role_all by done. done.
    + constructor; [auto|]. apply Forall_app. split; apply forall_roles; auto.
  - rewrite map_cons. cbn [fst]. split.
    + rewrite count_role_cons, count_role_all by done. done.
    + constructor; [auto|]. apply forall_roles; auto.
  - destruct expression; auto.
  - destruct is_reassignment; cbn; auto.
Qed.

Lemma hir_of_wf a : hir_wf (hir_of a).
Proof.
  induction a as [a IH] using ast_edges_ind. rewrite hir_of_edges.
  constructor; [apply label_of_ast_ok| |].
  - rewrite edge_hir_role. apply edges_roles_ok.
  - apply Forall_map. eapply Forall_impl; [exact IH|]. intros e. apply hir_role_wf.
Qed.

(** * Subtrees *)

(** [s] is stored, well formed and has no node twice. *)
Record subtree (ir : VntIrProgram) (s : tree) : Prop := {
  subtree_stored : stored ir s;
  subtree_wf : hir_wf (erase s);
  subtree_nodup : NoDup (indices s)
}.

Lemma forest_indices_in ts t i : t ∈ ts -> i ∈ indices t -> i ∈ forest_indices ts.
Proof.
  intros Ht Hi. apply list_elem_of_split in Ht as (ts1 & ts2 & ->).
  rewrite forest_indices_app. apply elem_of_app. right. unfold forest_indices. cbn.
  apply elem_of_app. by left.
Qed.

Lemma forest_nodup_in ts t : NoDup (forest_indices ts) -> t ∈ ts -> NoDup (indices t).
Proof.
  intros Hd Ht. apply list_elem_of_split in Ht as (ts1 & ts2 & ->).
  rewrite forest_indices_app in Hd. apply NoDup_app in Hd as (_ & _ & Hd).
  unfold forest_indices in Hd. cbn in Hd. by apply NoDup_app in Hd as (? & _).
Qed.

(** The node and the children of a subtree. *)
Lemma subtree_inv ir i l ts : subtree ir (Tree i l ts) ->
  exists n, nodes ir !! i = Some n /\ l = label_of n /\ linked ir n (map index ts) /\
    NoDup (map index ts) /\ label_ok l /\
    roles_ok (opcode n) (map (fun t => l_role (label t)) ts) /\ Forall (subtree ir) ts.
Proof.
  intros [Hst Hwf Hd]. inversion Hst as [? n ? Hn Hlink Hts]; subst.
  inversion Hwf as [? ? Hlab Hroles Hwfs]; subst. exists n. split_and!; try done.
  - cbn in Hd. apply NoDup_cons in Hd as [_ Hd]. clear - Hd.
    change (concat (map indices ts)) with (forest_indices ts) in Hd.
    induction ts as [|[j l us] ts IH]; [apply NoDup_nil_2|]. cbn.
    change (forest_indices (Tree j l us :: ts)) with (indices (Tree j l us) ++ forest_indices ts) in Hd.
    apply NoDup_app in Hd as (_ & Hd1 & Hd2). apply NoDup_cons. split; [|by apply IH].
    intros Hin. apply (Hd1 j); [by left|]. by apply forest_index_in.
  - cbn in Hroles. rewrite map_map in Hroles. erewrite map_ext; [exact Hroles|]. by intros [].
  - apply Forall_forall. intros t Ht. cbn in Hd. apply NoDup_cons in Hd as [_ Hd].
    rewrite Forall_forall in Hts. rewrite Forall_map, Forall_forall in Hwfs.
    constructor; [by apply Hts|by apply Hwfs|by eapply forest_nodup_in].
Qed.

Lemma tree_has_subtree ir t i : subtree ir t -> i ∈ indices t ->
  exists s, subtree ir s /\ index s = i /\ length (indices s) <= length (indices t).
Proof.
  induction t as [j l ts IH] using tree_ind. intros Ht Hi. cbn in Hi.
  apply elem_of_cons in Hi as [->|Hi]; [by eexists|].
  apply subtree_inv in Ht as (n & _ & _ & _ & _ & _ & _ & Hts).
  apply list_elem_of_In, in_concat in Hi as (is_ & Hin & Hi). apply in_map_iff in Hin as (t & <- & Ht).
  apply list_elem_of_In in Ht, Hi. rewrite Forall_forall in IH, Hts.
  destruct (IH t Ht (Hts t Ht) Hi) as (s & Hs & Hidx & Hlen). exists s. split_and!; [done..|].
  cbn. apply list_elem_of_split in Ht as (ts1 & ts2 & ->).
  rewrite map_app, concat_app, length_app. cbn. rewrite length_app. lia.
Qed.

Lemma valid_subtree ir i : ir_valid ir -> i < node_count ir ->
  exists s, subtree ir s /\ index s = i /\ length (indices s) <= node_count ir.
Proof.
  intros (t & n & [_ Hst Hall] & Hwf & _) Hi.
  destruct (tree_has_subtree ir t i) as (s & Hs & Hidx & Hlen).
  - constructor; [done..|]. rewrite Hall. apply NoDup_seq.
  - rewrite Hall. apply elem_of_seq. lia.
  - exists s. split_and!; [done..|]. by rewrite Hall, length_seq in Hlen.
Qed.

Lemma valid_root ir : ir_valid ir -> exists r, root ir = Some r /\ r < node_count ir.
Proof.
  intros (t & n & [Hr _ _] & _ & _ & _ & Hn & _). exists (index t). split; [done|].
  by eapply lookup_lt_Some.
Qed.

Lemma child_subtree_length t ts i l :
  t ∈ ts -> length (indices t) < length (indices (Tree i l ts)).
Proof.
  intros Ht. cbn. apply list_elem_of_split in Ht as (ts1 & ts2 & ->).
  rewrite map_app, concat_app, length_app. cbn. rewrite length_app. lia.
Qed.

(** * Loops over children *)

Lemma chain_fuel ir o l : chain ir o l -> NoDup l -> length l < sibling_fuel ir.
Proof. intros Hc Hd. unfold sibling_fuel. pose proof (chain_length _ _ _ Hc Hd). lia. Qed.

Lemma role_at_node ir i n : nodes ir !! i = Some n -> role_at ir i = role n.
Proof. unfold role_at. by intros ->. Qed.

(** The first child in role [r]. *)
Definition first_in_role (ir : VntIrProgram) (r : VntIrEdgeRole) (l : list nat) : option nat :=
  find (fun c => bool_decide (role_at ir c = r)) l.

Lemma find_role_spec ir r o l :
  chain ir o l -> NoDup l -> find_role ir r o = Done (first_in_role ir r l).
Proof.
  intros Hc Hd. unfold find_role.
  pose proof (chain_fuel _ _ _ Hc Hd) as Hf. revert Hf. generalize (sibling_fuel ir) as fuel. clear Hd.
  induction Hc as [|i n l Hn Hc IH]; intros fuel Hf; [by destruct fuel|].
  destruct fuel as [|f]; [cbn in Hf; lia|]. cbn [each_sibling first_in_role find].
  rewrite (node_at_done _ _ _ Hn), (role_at_node _ _ _ Hn). cbn [mbind outcome_bind mret outcome_ret].
  case_decide as Hr.
  - by rewrite bool_decide_eq_true_2.
  - rewrite bool_decide_eq_false_2 by done. cbn in Hf. apply IH. lia.
Qed.

Lemma first_in_role_in ir r l c : first_in_role ir r l = Some c -> c ∈ l /\ role_at ir c = r.
Proof.
  intros H. apply find_some in H as [Hin Hr]. apply bool_decide_eq_true in Hr.
  by rewrite list_elem_of_In.
Qed.

(** The children of an index of a valid array. *)
Lemma valid_children_list ir i : ir_valid ir -> i < node_count ir ->
  exists n l, nodes ir !! i = Some n /\ label_ok (label_of n) /\ chain ir (first_child n) l /\
    NoDup l /\ roles_ok (opcode n) (map (role_at ir) l) /\ Forall (fun c => c < node_count ir) l.
Proof.
  intros Hv Hi. destruct (valid_subtree ir i Hv Hi) as ([j l ts] & Hs & <- & _).
  apply subtree_inv in Hs as (n & Hn & -> & [Hc _ _] & Hd & Hlab & Hroles & Hts).
  exists n, (map index ts). split_and!; try done.
  - rewrite map_map. erewrite map_ext_in; [exact Hroles|]. intros t Ht%list_elem_of_In. cbn.
    rewrite Forall_forall in Hts. destruct t as [j' l' us].
    apply Hts, subtree_inv in Ht as (m & Hm & -> & _). by apply role_at_node.
  - apply Forall_forall. intros c Hin. by eapply chain_in_range.
Qed.

Lemma valid_text ir i n : ir_valid ir -> nodes ir !! i = Some n -> has_text (opcode n) = true ->
  exists text, node_text n = Done text.
Proof.
  intros Hv Hn Ht. destruct (valid_children_list ir i Hv) as (n' & l & Hn' & [Hlab _ _ _ _] & _).
  { by eapply lookup_lt_Some. }
  simplify_eq. destruct (Hlab Ht) as [text Htext]. exists text. unfold node_text. cbn in Htext.
  by rewrite Htext.
Qed.
