(* ===== verification/IrScopesFacts.v ===== *)
(** IrScopesFacts: the resolver of ir_lower.c computes the specification of
    name resolution by lexical scopes: it fails just when a variable is not in scope, and otherwise makes
    the same renamings.
    The specification comes first. The
    resolver of ir_lower.c walks the array with a stack of symbols that it pops
    by depth; here a scope is an environment that is passed down the tree and
    dropped at the end of a block. *)

From S2P Require Import Prelude Clib Ast Ir IrTrees IrFacts IrLower IrAccess.

(** * Scopes *)

(** The variables in scope with their storage keys, innermost first, and the
    number of keys made so far. *)
Record scope := { sc_env : list (bytes * bytes); sc_id : nat }.

(** What resolution changes in the array. *)
Inductive renaming : Type :=
  | RenameText (i : nat) (key : bytes)
  | RenameName (i p : nat) (key : bytes).

Definition renamed_node (r : renaming) : nat :=
  match r with RenameText i _ | RenameName i _ _ => i end.

Definition rename_node (r : renaming) (n : VntIrNode) : VntIrNode :=
  match r with
  | RenameText _ key => with_text key n
  | RenameName _ p key => with_names (<[p := key]> (names n)) n
  end.

Definition apply_renaming (ir : VntIrProgram) (r : renaming) : VntIrProgram :=
  with_nodes (alter (rename_node r) (renamed_node r) (nodes ir)) ir.

Definition apply_all (rs : list renaming) (ir : VntIrProgram) : VntIrProgram :=
  fold_left apply_renaming rs ir.

(** A piece of resolution: it fails at a variable that is not in scope. *)
Definition Res : Type := scope -> option (scope * list renaming).

Definition skip : Res := fun s => Some (s, []).

Definition seq_res (a b : Res) : Res := fun s =>
  match a s with
  | None => None
  | Some (s1, r1) =>
      match b s1 with
      | None => None
      | Some (s2, r2) => Some (s2, r1 ++ r2)
      end
  end.

Definition seq_all (l : list Res) : Res := foldr seq_res skip l.

(** The variables declared in [a] go out of scope after it; keys are not made
    twice. *)
Definition scoped (a : Res) : Res := fun s =>
  match a s with
  | None => None
  | Some (s1, r) => Some ({| sc_env := sc_env s; sc_id := sc_id s1 |}, r)
  end.

Definition lookup_env (name : bytes) (env : list (bytes * bytes)) : option bytes :=
  snd <$> find (fun p => bytes_eqb p.1 name) env.

(** Node [i] uses a variable. *)
Definition use (i : nat) (name : bytes) : Res := fun s =>
  match lookup_env name (sc_env s) with
  | None => None
  | Some key => Some (s, [RenameText i key])
  end.

Definition extend (name : bytes) (s : scope) : scope :=
  {| sc_env := (name, symbol_key (sc_id s) name) :: sc_env s; sc_id := S (sc_id s) |}.

(** Node [i] declares a variable. *)
Definition declare (i : nat) (name : bytes) : Res := fun s =>
  Some (extend name s, [RenameText i (symbol_key (sc_id s) name)]).

Definition label_text (l : Label) : bytes :=
  match l_value l with VAL_TEXT text => text | _ => [] end.

(** The children in role [r], in order. *)
Definition in_role (r : VntIrEdgeRole) (rs : list (VntIrEdgeRole * Res)) : Res :=
  seq_all (map snd (filter (fun p => p.1 = r) rs)).

(** A statement or an expression. *)
Definition resolve_node (i : nat) (l : Label) (rs : list (VntIrEdgeRole * Res)) : Res :=
  match l_opcode l with
  | VNT_IR_VARIABLE => use i (label_text l)
  | VNT_IR_VARIABLE_DECL => seq_res (in_role VNT_IR_EDGE_VALUE rs) (declare i (label_text l))
  | VNT_IR_REASSIGN => seq_res (in_role VNT_IR_EDGE_VALUE rs) (use i (label_text l))
  | VNT_IR_PROGRAM => in_role VNT_IR_EDGE_STATEMENT rs
  | VNT_IR_PRINT | VNT_IR_RETURN => in_role VNT_IR_EDGE_VALUE rs
  | VNT_IR_IF =>
      seq_res (in_role VNT_IR_EDGE_CONDITION rs)
        (seq_res (scoped (in_role VNT_IR_EDGE_THEN rs)) (scoped (in_role VNT_IR_EDGE_ELSE rs)))
  | VNT_IR_WHILE =>
      seq_res (in_role VNT_IR_EDGE_CONDITION rs) (scoped (in_role VNT_IR_EDGE_BODY rs))
  | VNT_IR_ASSIGN => seq_res (in_role VNT_IR_EDGE_TARGET rs) (in_role VNT_IR_EDGE_VALUE rs)
  | VNT_IR_CALL | VNT_IR_ARRAY => seq_all (map snd rs)
  | VNT_IR_INDEX => seq_res (in_role VNT_IR_EDGE_OBJECT rs) (in_role VNT_IR_EDGE_INDEX rs)
  | VNT_IR_MEMBER => in_role VNT_IR_EDGE_OBJECT rs
  | VNT_IR_BINARY => seq_res (in_role VNT_IR_EDGE_LEFT rs) (in_role VNT_IR_EDGE_RIGHT rs)
  | VNT_IR_UNARY => in_role VNT_IR_EDGE_OPERAND rs
  | _ => skip
  end.

Fixpoint resolve (t : tree) : Res :=
  match t with
  | Tree i l ts => resolve_node i l (map (fun t => (l_role (label t), resolve t)) ts)
  end.

(** * Programs *)

(** The global variables, all in scope everywhere in the program. *)
Definition declared_globals (ts : list tree) : list bytes :=
  map (fun t => label_text (label t)) (filter (fun t => l_opcode (label t) = VNT_IR_VARIABLE_DECL) ts).

Definition global_scope (ts : list tree) : scope :=
  fold_left (fun s name => extend name s) (declared_globals ts) {| sc_env := []; sc_id := 0 |}.

(** The parameters of function [i] from the [p]th on. *)
Fixpoint resolve_parameters (i p : nat) (names : list bytes) : Res :=
  match names with
  | [] => skip
  | name :: names => fun s =>
      match resolve_parameters i (S p) names (extend name s) with
      | None => None
      | Some (s', r) => Some (s', RenameName i p (symbol_key (sc_id s) name) :: r)
      end
  end.

(** A statement of the program. A function has a scope of its own; a declaration
    is the first global of its name. *)
Definition resolve_statement (globals : scope) (t : tree) : Res :=
  let rs := map (fun t => (l_role (label t), resolve t)) (subtrees t) in
  match l_opcode (label t) with
  | VNT_IR_FUNCTION =>
      scoped (seq_res (resolve_parameters (index t) 0 (l_names (label t)))
                      (in_role VNT_IR_EDGE_BODY rs))
  | VNT_IR_VARIABLE_DECL => fun s =>
      match lookup_env (label_text (label t)) (rev (sc_env globals)) with
      | None => None
      | Some key =>
          match in_role VNT_IR_EDGE_VALUE rs s with
          | None => None
          | Some (s', r) => Some (s', RenameText (index t) key :: r)
          end
      end
  | _ => resolve t
  end.

(** A program: [None] if a variable is used that is not in scope. *)
Definition resolve_program (ts : list tree) : option (list renaming) :=
  snd <$> seq_all (map (resolve_statement (global_scope ts)) ts) (global_scope ts).

#[local] Opaque symbol_key.

(** * Renaming keeps the links *)

Record same_links_node (n n' : VntIrNode) : Prop := {
  sn_opcode : opcode n' = opcode n;
  sn_role : role n' = role n;
  sn_first : first_child n' = first_child n;
  sn_last : last_child n' = last_child n;
  sn_next : next_sibling n' = next_sibling n;
  sn_count : child_count n' = child_count n
}.

#[export] Instance same_links_node_preorder : PreOrder same_links_node.
Proof.
  split; [done|]. intros n1 n2 n3 [] []. constructor; congruence.
Qed.

(** The two arrays differ in payloads only. *)
Definition same_links (ir ir' : VntIrProgram) : Prop :=
  root ir' = root ir /\ Forall2 same_links_node (nodes ir) (nodes ir').

#[export] Instance same_links_preorder : PreOrder same_links.
Proof.
  split.
  - intros ir. split; [done|]. by apply Forall_Forall2_diag, Forall_true.
  - intros ir1 ir2 ir3 [R1 H1] [R2 H2]. split; [congruence|]. by etrans.
Qed.

Lemma same_links_at ir ir' i n : same_links ir ir' -> nodes ir !! i = Some n ->
  exists n', nodes ir' !! i = Some n' /\ same_links_node n n'.
Proof. intros [_ H] Hn. by eapply Forall2_lookup_l. Qed.

Lemma same_links_count ir ir' : same_links ir ir' -> node_count ir' = node_count ir.
Proof. intros [_ H]. symmetry. by eapply Forall2_length. Qed.

Lemma same_links_chain ir ir' o l : same_links ir ir' -> chain ir o l -> chain ir' o l.
Proof.
  intros Hs. induction 1 as [|i n l Hn _ IH]; [constructor|].
  destruct (same_links_at _ _ _ _ Hs Hn) as (n' & Hn' & Hl). econstructor; [done|].
  by rewrite (sn_next _ _ Hl).
Qed.

Lemma same_links_role ir ir' i : same_links ir ir' -> i < node_count ir -> role_at ir' i = role_at ir i.
Proof.
  intros Hs Hi. destruct (lookup_lt_is_Some_2 _ _ Hi) as [n Hn].
  destruct (same_links_at _ _ _ _ Hs Hn) as (n' & Hn' & Hl).
  rewrite (role_at_node _ _ _ Hn), (role_at_node _ _ _ Hn'). apply Hl.
Qed.

Lemma rename_node_links r n : same_links_node n (rename_node r n).
Proof. by destruct r. Qed.

Lemma apply_renaming_links ir r : same_links ir (apply_renaming ir r).
Proof.
  split; [done|]. cbn. apply Forall2_same_length_lookup. split; [by rewrite length_alter|].
  intros i n n' Hn Hn'. destruct (decide (i = renamed_node r)) as [->|Hne].
  - rewrite list_lookup_alter_eq, Hn in Hn'. injection Hn' as <-. apply rename_node_links.
  - rewrite list_lookup_alter_ne, Hn in Hn' by done. by injection Hn' as <-.
Qed.

Lemma apply_all_links rs : forall ir, same_links ir (apply_all rs ir).
Proof.
  induction rs as [|r rs IH]; intros ir; cbn; [done|]. etrans; [apply apply_renaming_links|apply IH].
Qed.

Lemma apply_all_app rs1 rs2 ir : apply_all (rs1 ++ rs2) ir = apply_all rs2 (apply_all rs1 ir).
Proof. apply fold_left_app. Qed.

(** ** The nodes that are not renamed *)

Definition agree (I : list nat) (ir ir' : VntIrProgram) : Prop :=
  forall j, j ∈ I -> nodes ir' !! j = nodes ir !! j.

Definition inside (I : list nat) (rs : list renaming) : Prop :=
  Forall (fun r => renamed_node r ∈ I) rs.

Lemma agree_trans I ir1 ir2 ir3 : agree I ir1 ir2 -> agree I ir2 ir3 -> agree I ir1 ir3.
Proof. intros H1 H2 j Hj. by rewrite (H2 j Hj), (H1 j Hj). Qed.

Lemma agree_sub I J ir ir' : (forall j, j ∈ J -> j ∈ I) -> agree I ir ir' -> agree J ir ir'.
Proof. intros HIJ H j Hj. by apply H, HIJ. Qed.

Lemma apply_all_agree I J rs : inside J rs -> (forall j, j ∈ I -> j ∉ J) ->
  forall ir, agree I ir (apply_all rs ir).
Proof.
  intros Hin Hdis. induction Hin as [|r rs Hr _ IH]; intros ir; cbn; [done|].
  eapply agree_trans; [|apply IH]. intros j Hj. cbn. apply list_lookup_alter_ne.
  intros <-. by apply (Hdis (renamed_node r)).
Qed.

Lemma chain_agree I ir ir' o l : agree I ir ir' -> (forall j, j ∈ l -> j ∈ I) ->
  chain ir o l -> chain ir' o l.
Proof.
  intros Ha Hsub Hc. induction Hc as [|i n l Hn _ IH]; [constructor|].
  econstructor; [rewrite Ha; [done|apply Hsub; left]|]. apply IH. intros j Hj. apply Hsub. by right.
Qed.

Lemma stored_agree ir ir' t : agree (indices t) ir ir' -> stored ir t -> stored ir' t.
Proof.
  induction t as [i l ts IH] using tree_ind. intros Ha Hst.
  inversion Hst as [? n ? Hn [Hc Hl Hcount] Hts]; subst. constructor.
  - rewrite Ha; [done|left].
  - constructor; [|done..]. eapply chain_agree; [exact Ha| |done].
    intros j Hj. cbn. right. by apply forest_index_in.
  - rewrite Forall_forall in IH, Hts. apply Forall_forall. intros t Ht. apply IH; [done| |by apply Hts].
    eapply agree_sub; [|exact Ha]. intros j Hj. cbn. right. by eapply forest_indices_in.
Qed.

Lemma subtree_agree ir ir' t : agree (indices t) ir ir' -> subtree ir t -> subtree ir' t.
Proof. intros Ha [Hst Hwf Hd]. constructor; [by eapply stored_agree|done..]. Qed.

(** ** What resolution renames *)

Definition renames_sat (Q : renaming -> Prop) (a : Res) : Prop :=
  forall s s' r, a s = Some (s', r) -> Forall Q r.

Definition renames_inside (I : list nat) : Res -> Prop := renames_sat (fun x => renamed_node x ∈ I).

Section sat.
Context (Q : renaming -> Prop).

Lemma skip_sat : renames_sat Q skip.
Proof. intros s s' r [= <- <-]. constructor. Qed.

Lemma seq_sat a b : renames_sat Q a -> renames_sat Q b -> renames_sat Q (seq_res a b).
Proof.
  intros Ha Hb s s' r. unfold seq_res. destruct (a s) as [[s1 r1]|] eqn:E1; [|done].
  destruct (b s1) as [[s2 r2]|] eqn:E2; [|done]. intros [= <- <-]. apply Forall_app.
  split; [by eapply Ha|by eapply Hb].
Qed.

Lemma seq_all_sat l : Forall (renames_sat Q) l -> renames_sat Q (seq_all l).
Proof. induction 1; [apply skip_sat|by apply seq_sat]. Qed.

Lemma scoped_sat a : renames_sat Q a -> renames_sat Q (scoped a).
Proof.
  intros Ha s s' r. unfold scoped. destruct (a s) as [[s1 r1]|] eqn:E1; [|done].
  intros [= <- <-]. by eapply Ha.
Qed.

Lemma use_sat i name : (forall key, Q (RenameText i key)) -> renames_sat Q (use i name).
Proof.
  intros Hi s s' r. unfold use. destruct (lookup_env _ _); [|done]. intros [= <- <-]. by apply Forall_singleton.
Qed.

Lemma declare_sat i name : (forall key, Q (RenameText i key)) -> renames_sat Q (declare i name).
Proof. intros Hi s s' r [= <- <-]. by apply Forall_singleton. Qed.

Lemma in_role_sat r rs : Forall (fun p => renames_sat Q p.2) rs -> renames_sat Q (in_role r rs).
Proof.
  intros H. apply seq_all_sat. rewrite Forall_map, Forall_forall in *.
  intros p Hp. apply H. by apply list_elem_of_filter in Hp as [_ Hp].
Qed.

(** The nodes that hold a variable. *)
Definition holds_variable (op : VntIrOpcode) : bool :=
  match op with
  | VNT_IR_VARIABLE | VNT_IR_VARIABLE_DECL | VNT_IR_REASSIGN => true
  | _ => false
  end.

Lemma resolve_node_sat i l rs :
  (holds_variable (l_opcode l) = true -> forall key, Q (RenameText i key)) ->
  Forall (fun p => renames_sat Q p.2) rs -> renames_sat Q (resolve_node i l rs).
Proof.
  intros Hi Hrs. unfold resolve_node. destruct (l_opcode l);
    eauto 10 using skip_sat, seq_sat, scoped_sat, use_sat, declare_sat, in_role_sat.
  all: apply seq_all_sat; by rewrite Forall_map.
Qed.
End sat.

(** The nodes of a tree that hold a variable. *)
Fixpoint variable_nodes (t : tree) : list nat :=
  match t with
  | Tree i l ts => (if holds_variable (l_opcode l) then [i] else []) ++ concat (map variable_nodes ts)
  end.

Lemma variable_nodes_child t ts j : t ∈ ts -> j ∈ variable_nodes t -> j ∈ concat (map variable_nodes ts).
Proof.
  intros Ht Hj. apply list_elem_of_In, in_concat. exists (variable_nodes t).
  split; [apply in_map|]; by apply list_elem_of_In.
Qed.

Lemma variable_nodes_indices t j : j ∈ variable_nodes t -> j ∈ indices t.
Proof.
  induction t as [i l ts IH] using tree_ind. cbn. rewrite elem_of_app, elem_of_cons. intros [Hj|Hj].
  - left. destruct (holds_variable (l_opcode l)); [by apply list_elem_of_singleton|by apply not_elem_of_nil in Hj].
  - right. apply list_elem_of_In, in_concat in Hj as (us & Hus & Hj). apply in_map_iff in Hus as (t & <- & Ht).
    apply list_elem_of_In in Ht, Hj. rewrite Forall_forall in IH. eapply forest_indices_in; [exact Ht|by apply IH].
Qed.

Lemma resolve_sat (Q : renaming -> Prop) t :
  (forall j key, j ∈ variable_nodes t -> Q (RenameText j key)) -> renames_sat Q (resolve t).
Proof.
  induction t as [i l ts IH] using tree_ind. intros HQ. cbn [resolve]. apply resolve_node_sat.
  - intros Hop key. apply HQ. cbn. rewrite Hop. left.
  - rewrite Forall_map. rewrite Forall_forall in IH. apply Forall_forall. intros t Ht. apply IH; [done|].
    intros j key Hj. apply HQ. cbn. apply elem_of_app. right. by eapply variable_nodes_child.
Qed.

Lemma inside_mono I J r : (forall j, j ∈ I -> j ∈ J) -> inside I r -> inside J r.
Proof. intros H Hr. eapply Forall_impl; [exact Hr|]. intros x. apply H. Qed.

Lemma renames_mono I J a : (forall j, j ∈ I -> j ∈ J) -> renames_inside I a -> renames_inside J a.
Proof. intros H Ha s s' r E. eapply inside_mono; [exact H|by eapply Ha]. Qed.

Lemma resolve_inside t : renames_inside (indices t) (resolve t).
Proof. apply resolve_sat. intros j key. apply variable_nodes_indices. Qed.

(** * The resolver and the scopes *)

(** The symbols of the resolver are the environment of the scope. *)
Definition env_of (ss : list HirSymbol) : list (bytes * bytes) :=
  map (fun s => (source_name s, storage_key s)) (rev ss).

Record matches (rs : HirResolver) (s : scope) : Prop := {
  mt_ok : rs_error rs = false;
  mt_env : env_of (symbols rs) = sc_env s;
  mt_id : next_id rs = sc_id s;
  mt_depth : Forall (fun x => symbol_depth x <= rs_depth rs) (symbols rs)
}.

Lemma env_of_app ss1 ss2 : env_of (ss1 ++ ss2) = env_of ss2 ++ env_of ss1.
Proof. unfold env_of. by rewrite rev_app_distr, map_app. Qed.

Lemma resolver_find_env name ss : storage_key <$> resolver_find name ss = lookup_env name (env_of ss).
Proof.
  unfold resolver_find, lookup_env, env_of. induction (rev ss) as [|x l IH]; [done|]. cbn.
  by destruct (bytes_eqb (source_name x) name).
Qed.

(** What a piece of the resolver does from a state [rs], by its specification;
    [Q] holds of the symbols it leaves on the stack. *)
Definition resolved_with (Q : HirSymbol -> Prop) (a : option (scope * list renaming))
    (rs rs' : HirResolver) : Prop :=
  same_links (rs_ir rs) (rs_ir rs') /\
  match a with
  | None => rs_error rs' = true
  | Some (s', r) =>
      matches rs' s' /\ rs_depth rs' = rs_depth rs /\ rs_ir rs' = apply_all r (rs_ir rs) /\
      exists new, symbols rs' = symbols rs ++ new /\ Forall Q new
  end.

Definition resolved (a : option (scope * list renaming)) (rs rs' : HirResolver) : Prop :=
  resolved_with (fun x => symbol_depth x = rs_depth rs) a rs rs'.

(** A block leaves no symbols. *)
Definition closed : option (scope * list renaming) -> HirResolver -> HirResolver -> Prop :=
  resolved_with (fun _ => False).

Lemma resolved_with_mono (P Q : HirSymbol -> Prop) a rs rs' :
  (forall x, P x -> Q x) -> resolved_with P a rs rs' -> resolved_with Q a rs rs'.
Proof.
  intros H [Hl Ha]. split; [done|]. destruct a as [[s' r]|]; [|done].
  destruct Ha as (? & ? & ? & new & ? & Hnew). split_and!; [done..|]. exists new. split; [done|].
  by eapply Forall_impl.
Qed.

Lemma resolved_seq Q (a b : Res) s rs rs1 rs2 :
  resolved_with Q (a s) rs rs1 ->
  (a s = None -> rs_error rs1 = true -> same_links (rs_ir rs1) (rs_ir rs2) /\ rs_error rs2 = true) ->
  (forall s1 r1, a s = Some (s1, r1) -> resolved_with Q (b s1) rs1 rs2) ->
  resolved_with Q (seq_res a b s) rs rs2.
Proof.
  intros [Hl1 H1] Herr H2. unfold seq_res. destruct (a s) as [[s1 r1]|].
  - destruct H1 as (Hm1 & Hd1 & Hir1 & new1 & Hs1 & Hn1). destruct (H2 s1 r1 eq_refl) as [Hl2 H3].
    split; [by etrans|]. destruct (b s1) as [[s2 r2]|]; [|done].
    destruct H3 as (Hm2 & Hd2 & Hir2 & new2 & Hs2 & Hn2). split_and!; [done|congruence| |].
    + by rewrite Hir2, Hir1, apply_all_app.
    + exists (new1 ++ new2). rewrite Hs2, Hs1, app_assoc. split; [done|]. by apply Forall_app.
  - destruct (Herr eq_refl H1) as [Hl2 He]. split; [by etrans|done].
Qed.

Lemma resolved_depth rs s' r rs' : resolved_with (fun x => symbol_depth x = rs_depth rs) (Some (s', r)) rs rs' ->
  rs_depth rs' = rs_depth rs.
Proof. by intros (_ & _ & ? & _). Qed.

(** A node of the array being resolved: [ir0] is the array before, [ts] the
    subtrees of the node. *)
Section node.
Context (ir0 : VntIrProgram) (i : nat) (n0 : VntIrNode) (ts : list tree).
Hypothesis Hn0 : nodes ir0 !! i = Some n0.
Hypothesis Hsub : subtree ir0 (Tree i (label_of n0) ts).

Lemma node_chain : chain ir0 (first_child n0) (map index ts).
Proof. destruct (subtree_inv _ _ _ _ Hsub) as (n & Hn & _ & [Hc _ _] & _). by simplify_eq. Qed.

Lemma node_nodup : NoDup (i :: forest_indices ts).
Proof. exact (subtree_nodup _ _ Hsub). Qed.

Lemma subtree_of t : t ∈ ts -> subtree ir0 t.
Proof.
  intros Ht. destruct (subtree_inv _ _ _ _ Hsub) as (n & _ & _ & _ & _ & _ & _ & Hts).
  rewrite Forall_forall in Hts. auto.
Qed.

Lemma node_child_role t : t ∈ ts -> role_at ir0 (index t) = l_role (label t).
Proof.
  intros Ht. pose proof (subtree_of t Ht) as Hs. destruct t as [j l us].
  apply subtree_inv in Hs as (n & Hn & -> & _). by apply role_at_node.
Qed.

(** [m] does what [a] says, for the trees [U], as long as it is run on an array
    where these are as they were; after an error it does nothing. *)
Record does (U : list tree) (m : St HirResolver unit) (a : Res) : Prop := {
  does_run : forall rs s, matches rs s -> same_links ir0 (rs_ir rs) ->
    agree (forest_indices U) ir0 (rs_ir rs) -> wp m rs (fun _ rs' => resolved (a s) rs rs');
  does_inside : forall s s' r, a s = Some (s', r) -> inside (forest_indices U) r;
  does_error : forall rs, same_links ir0 (rs_ir rs) -> rs_error rs = true ->
    wp m rs (fun _ rs' => rs' = rs)
}.

Lemma resolved_refl s rs : matches rs s -> resolved (skip s) rs rs.
Proof. intros H. split; [done|]. split_and!; try done. exists []. by rewrite app_nil_r. Qed.

Lemma does_ext U m a a' : (forall s, a s = a' s) -> does U m a -> does U m a'.
Proof.
  intros E [H1 H2 H3]. constructor; [|by setoid_rewrite <- E|done].
  intros rs s. rewrite <- E. apply H1.
Qed.

Lemma does_asks {A} U (f : HirResolver -> outcome A) x (k : A -> St HirResolver unit) a :
  (forall rs, same_links ir0 (rs_ir rs) -> f rs = Done x) -> does U (k x) a ->
  does U (y ← asks f; k y) a.
Proof.
  intros Hf [H1 H2 H3]. constructor; [|done|].
  - intros rs s Hm Hl Ha. apply wp_bind. eapply wp_asks; [by apply Hf|]. by apply H1.
  - intros rs Hl He. apply wp_bind. eapply wp_asks; [by apply Hf|]. by apply H3.
Qed.

Lemma does_gets {A} U (f : HirResolver -> A) x (k : A -> St HirResolver unit) a :
  (forall rs, same_links ir0 (rs_ir rs) -> f rs = x) -> does U (k x) a -> does U (y ← gets f; k y) a.
Proof.
  intros Hf [H1 H2 H3]. constructor; [|done|].
  - intros rs s Hm Hl Ha. apply wp_bind, wp_gets. rewrite Hf by done. by apply H1.
  - intros rs Hl He. apply wp_bind, wp_gets. rewrite Hf by done. by apply H3.
Qed.

Lemma unless_error_run m rs : rs_error rs = false -> unless_error m rs = m rs.
Proof. intros H. unfold unless_error. st_unfold. by rewrite H. Qed.

Lemma unless_error_skip m rs : rs_error rs = true -> unless_error m rs = Done (tt, rs).
Proof. intros H. unfold unless_error. st_unfold. by rewrite H. Qed.

Lemma does_unless U m a :
  (forall rs s, matches rs s -> same_links ir0 (rs_ir rs) -> agree (forest_indices U) ir0 (rs_ir rs) ->
     wp m rs (fun _ rs' => resolved (a s) rs rs')) ->
  (forall s s' r, a s = Some (s', r) -> inside (forest_indices U) r) ->
  does U (unless_error m) a.
Proof.
  intros H1 H2. constructor; [|done|].
  - intros rs s Hm Hl Ha. unfold wp. rewrite unless_error_run by apply Hm. by apply H1.
  - intros rs Hl He. unfold wp. by rewrite unless_error_skip.
Qed.

Lemma does_skip : does [] (mret tt) skip.
Proof.
  constructor.
  - intros rs s Hm _ _. apply wp_ret. by apply resolved_refl.
  - intros s s' r [= <- <-]. constructor.
  - intros rs _ _. by apply wp_ret.
Qed.

(** One piece after another, on different trees. *)
Lemma does_seq U1 U2 m1 m2 a1 a2 :
  (forall j, j ∈ forest_indices U1 -> j ∉ forest_indices U2) ->
  does U1 m1 a1 -> does U2 m2 a2 -> does (U1 ++ U2) (_ ← m1; m2) (seq_res a1 a2).
Proof.
  intros Hdis H1 H2. constructor.
  - intros rs s Hm Hl Ha. rewrite forest_indices_app in Ha. apply wp_bind.
    eapply wp_mono; [apply (does_run _ _ _ H1); [done..|]|].
    { eapply agree_sub; [|exact Ha]. intros j Hj. apply elem_of_app. by left. }
    intros [] rs1 Hr1.
    assert (same_links ir0 (rs_ir rs1)) as Hl1 by (etrans; [done|apply Hr1]).
    destruct (a1 s) as [[s1 r1]|] eqn:E1.
    + eapply wp_mono; [apply (does_run _ _ _ H2 rs1 s1)|].
      * apply Hr1.
      * done.
      * destruct Hr1 as (_ & _ & _ & Hir & _). rewrite Hir. eapply agree_trans.
        { eapply agree_sub; [|exact Ha]. intros j Hj. apply elem_of_app. by right. }
        apply (apply_all_agree _ (forest_indices U1)); [exact (does_inside _ _ _ H1 _ _ _ E1)|]. intros j Hj Hj'. by apply (Hdis j).
      * intros [] rs2 Hr2. eapply resolved_seq; [by rewrite E1|congruence|].
        intros s1' r1' Heq. rewrite E1 in Heq. injection Heq as <- <-.
        unfold resolved in Hr2. by rewrite (resolved_depth _ _ _ _ Hr1) in Hr2.
    + destruct Hr1 as [Hl' Herr]. eapply wp_mono; [by apply (does_error _ _ _ H2)|].
      intros [] rs2 ->. unfold seq_res. rewrite E1. by split.
  - intros s s' r. unfold seq_res. destruct (a1 s) as [[s1 r1]|] eqn:E1; [|done].
    destruct (a2 s1) as [[s2 r2]|] eqn:E2; [|done]. intros [= <- <-]. rewrite forest_indices_app.
    apply Forall_app. split; (eapply inside_mono;
      [|exact (does_inside _ _ _ H1 _ _ _ E1) || exact (does_inside _ _ _ H2 _ _ _ E2)]);
      intros j Hj; apply elem_of_app; auto.
  - intros rs Hl Herr. apply wp_bind. eapply wp_mono; [by apply (does_error _ _ _ H1)|].
    intros [] rs1 ->. by apply (does_error _ _ _ H2).
Qed.

(** ** The children in a role *)

Section children.
Context (bind : option nat -> St HirResolver unit).
Hypothesis bind_tree : forall t rs s, t ∈ ts -> matches rs s -> subtree (rs_ir rs) t ->
  wp (bind (Some (index t))) rs (fun _ rs' => resolved (resolve t s) rs rs').
Hypothesis bind_error : forall o rs, rs_error rs = true -> bind o rs = Done (tt, rs).
Hypothesis bind_none : forall rs, bind None rs = Done (tt, rs).

Lemma does_bind t : t ∈ ts -> does [t] (bind (Some (index t))) (resolve t).
Proof.
  assert (forest_indices [t] = indices t) as E by (unfold forest_indices; cbn; apply app_nil_r).
  intros Ht. constructor; rewrite ?E.
  - intros rs s Hm Hl Ha. apply bind_tree; [done..|]. eapply subtree_agree; [exact Ha|by apply subtree_of].
  - apply resolve_inside.
  - intros rs _ He. unfold wp. by rewrite bind_error.
Qed.

Definition role_trees (r : VntIrEdgeRole) (us : list tree) : list tree :=
  filter (fun t => l_role (label t) = r) us.

Local Abbreviation roles := (map (fun t => (l_role (label t), resolve t)) ts).

Lemma in_role_trees r us :
  in_role r (map (fun t => (l_role (label t), resolve t)) us) = seq_all (map resolve (role_trees r us)).
Proof.
  unfold in_role, role_trees. f_equal. induction us as [|t us IH]; [done|]. cbn [map].
  rewrite !filter_cons. cbn [fst]. case_decide; cbn; by rewrite IH.
Qed.

Lemma first_in_role_trees r us ir : (forall t, t ∈ us -> t ∈ ts) -> same_links ir0 ir ->
  first_in_role ir r (map index us) = index <$> head (role_trees r us).
Proof.
  intros Hus Hl. induction us as [|t us IH]; [done|]. unfold role_trees. rewrite filter_cons.
  unfold first_in_role. cbn [map find].
  assert (t ∈ ts) as Ht by (apply Hus; left).
  assert (role_at ir (index t) = l_role (label t)) as ->.
  { rewrite (same_links_role _ _ _ Hl); [by apply node_child_role|].
    eapply chain_in_range; [exact node_chain|]. apply list_elem_of_fmap. eauto. }
  case_bool_decide; [by rewrite decide_True|]. rewrite decide_False by done. apply IH.
  intros t' Ht'. apply Hus. by right.
Qed.

Lemma find_role_trees r us ir o : (forall t, t ∈ us -> t ∈ ts) -> NoDup (map index us) ->
  same_links ir0 ir -> chain ir0 o (map index us) ->
  find_role ir r o = Done (index <$> head (role_trees r us)).
Proof.
  intros Hus Hd Hl Hc. rewrite (find_role_spec ir r o (map index us));
    [by rewrite first_in_role_trees|by eapply same_links_chain|done].
Qed.

Lemma children_nodup : NoDup (map index ts).
Proof. by destruct (subtree_inv _ _ _ _ Hsub) as (n & _ & _ & _ & Hd & _). Qed.

Lemma forest_in us j : j ∈ forest_indices us -> exists t, t ∈ us /\ j ∈ indices t.
Proof.
  intros Hj. apply list_elem_of_In, in_concat in Hj as (l & Hl & Hj).
  apply in_map_iff in Hl as (t & <- & Ht). exists t. by rewrite !list_elem_of_In.
Qed.

Lemma trees_disjoint us1 us2 :
  (forall t, t ∈ us1 -> t ∈ ts) -> (forall t, t ∈ us2 -> t ∈ ts) -> (forall t, t ∈ us1 -> t ∉ us2) ->
  forall j, j ∈ forest_indices us1 -> j ∉ forest_indices us2.
Proof.
  intros H1 H2 Hdis j (t1 & Ht1 & Hj1)%forest_in (t2 & Ht2 & Hj2)%forest_in.
  assert (t1 = t2) as ->; [|by apply (Hdis t2)].
  pose proof node_nodup as Hd. apply NoDup_cons in Hd as [_ Hd].
  pose proof (H1 _ Ht1) as Hin1. pose proof (H2 _ Ht2) as Hin2. clear - Hd Hin1 Hin2 Hj1 Hj2.
  induction ts as [|t us IH]; [by apply not_elem_of_nil in Hin1|].
  change (forest_indices (t :: us)) with (indices t ++ forest_indices us) in Hd.
  apply NoDup_app in Hd as (_ & Hd1 & Hd2).
  apply elem_of_cons in Hin1 as [->|Hin1], Hin2 as [->|Hin2]; [done| | |by apply IH].
  - exfalso. apply (Hd1 j Hj1). by eapply forest_indices_in.
  - exfalso. apply (Hd1 j Hj2). by eapply forest_indices_in.
Qed.

Lemma role_trees_in r us t : t ∈ role_trees r us <-> l_role (label t) = r /\ t ∈ us.
Proof. unfold role_trees. by rewrite list_elem_of_filter. Qed.

Lemma roles_disjoint r1 r2 : r1 <> r2 ->
  forall j, j ∈ forest_indices (role_trees r1 ts) -> j ∉ forest_indices (role_trees r2 ts).
Proof.
  intros Hr. apply trees_disjoint; intros t; rewrite !role_trees_in; naive_solver.
Qed.

(** The children that are left when [t] has been done are other trees. *)
Lemma rest_disjoint pre t us : ts = pre ++ t :: us -> forall vs, (forall x, x ∈ vs -> x ∈ us) ->
  forall j, j ∈ forest_indices [t] -> j ∉ forest_indices vs.
Proof.
  intros E vs Hvs. apply trees_disjoint.
  - intros x ->%list_elem_of_singleton. rewrite E. apply elem_of_app. right. left.
  - intros x Hx%Hvs. rewrite E. apply elem_of_app. right. by right.
  - intros x ->%list_elem_of_singleton Hx%Hvs. pose proof children_nodup as Hd.
    rewrite E, map_app in Hd. apply NoDup_app in Hd as (_ & _ & Hd). cbn in Hd.
    apply NoDup_cons in Hd as [Hd _]. apply Hd. apply list_elem_of_fmap. by exists t.
Qed.

(** The siblings after [t], read in an array with the same links. *)
Lemma next_chain pre t us ir : ts = pre ++ t :: us -> same_links ir0 ir ->
  exists n, nodes ir !! index t = Some n /\ chain ir (next_sibling n) (map index us).
Proof.
  intros E Hl. pose proof (same_links_chain _ _ _ _ Hl node_chain) as Hc. rewrite E, map_app in Hc.
  clear E. revert Hc. generalize (first_child n0) as o. induction pre as [|p pre IH]; intros o Hc; inversion Hc; subst.
  - by eexists.
  - by eapply IH.
Qed.

Lemma nodup_suffix pre us : ts = pre ++ us -> NoDup (map index us).
Proof.
  intros E. pose proof children_nodup as Hd. rewrite E, map_app in Hd. by apply NoDup_app in Hd as (_ & _ & ?).
Qed.

Lemma next_role_spec pre t us r : ts = pre ++ t :: us -> forall rs, same_links ir0 (rs_ir rs) ->
  hir_next_role (rs_ir rs) (index t) r = Done (index <$> head (role_trees r us)).
Proof.
  intros E rs Hl. destruct (next_chain pre t us (rs_ir rs) E Hl) as (n & Hn & Hc). unfold hir_next_role.
  destruct (Nat.leb_spec (node_count (rs_ir rs)) (index t)) as [H|_].
  { apply lookup_lt_Some in Hn. unfold node_count in H. lia. }
  rewrite (node_at_done _ _ _ Hn). cbn [mbind outcome_bind].
  rewrite (find_role_spec (rs_ir rs) r (next_sibling n) (map index us) Hc).
  - rewrite first_in_role_trees; [done| |done]. intros x Hx. rewrite E. apply elem_of_app. right. by right.
  - apply (nodup_suffix (pre ++ [t])). by rewrite <- app_assoc.
Qed.

Lemma seq_all_single a s : seq_all [a] s = a s.
Proof. cbn. unfold seq_res. destruct (a s) as [[s1 r1]|]; [|done]. cbn. by rewrite app_nil_r. Qed.

Lemma does_cons U1 U2 m1 m2 a1 a2 :
  (forall j, j ∈ forest_indices U1 -> j ∉ forest_indices U2) ->
  does U1 m1 a1 -> does U2 m2 a2 -> does (U1 ++ U2) (unless_error (_ ← m1; m2)) (seq_res a1 a2).
Proof. intros Hdis H1 H2. destruct (does_seq _ _ _ _ _ _ Hdis H1 H2) as [? ? _]. by apply does_unless. Qed.

Lemma bind_role_loop_does r us : forall pre fuel, ts = pre ++ us -> length us < fuel ->
  does (role_trees r us) (bind_role_loop bind fuel r (index <$> head (role_trees r us)))
    (seq_all (map resolve (role_trees r us))).
Proof.
  induction us as [|t us IH]; intros pre fuel E Hf.
  { unfold role_trees. cbn. destruct fuel; apply does_skip. }
  assert (ts = (pre ++ [t]) ++ us) as E' by (by rewrite <- app_assoc).
  destruct (decide (l_role (label t) = r)) as [Hr|Hr].
  - assert (role_trees r (t :: us) = [t] ++ role_trees r us) as ->
      by (unfold role_trees; by rewrite filter_cons, decide_True).
    destruct fuel as [|f]; [lia|]. cbn [app head fmap option_fmap option_map bind_role_loop map seq_all foldr].
    apply (does_cons [t]).
    + eapply rest_disjoint; [exact E|]. intros x. rewrite role_trees_in. tauto.
    + apply does_bind. rewrite E. apply elem_of_app. right. left.
    + eapply does_asks; [by eapply next_role_spec|]. apply (IH (pre ++ [t])); [done|cbn in Hf; lia].
  - assert (role_trees r (t :: us) = role_trees r us) as ->
      by (unfold role_trees; by rewrite filter_cons, decide_False).
    apply (IH (pre ++ [t])); [done|cbn in Hf; lia].
Qed.

Lemma node_in_range : i < node_count ir0.
Proof. by eapply lookup_lt_Some. Qed.

Lemma child_role_spec r rs : same_links ir0 (rs_ir rs) ->
  hir_child_role (rs_ir rs) i r = Done (index <$> head (role_trees r ts)).
Proof.
  intros Hl. destruct (same_links_at _ _ _ _ Hl Hn0) as (n & Hn & Hln). unfold hir_child_role.
  destruct (Nat.leb_spec (node_count (rs_ir rs)) i) as [H|_].
  { apply lookup_lt_Some in Hn. unfold node_count in H. lia. }
  rewrite (node_at_done _ _ _ Hn). cbn [mbind outcome_bind]. rewrite (sn_first _ _ Hln).
  apply find_role_trees; [done|by apply children_nodup|done|by apply node_chain].
Qed.

Lemma fuel_spec rs : same_links ir0 (rs_ir rs) -> resolver_fuel rs = sibling_fuel ir0.
Proof. intros Hl. unfold resolver_fuel, sibling_fuel. by rewrite (same_links_count _ _ Hl). Qed.

Lemma children_fuel : length ts < sibling_fuel ir0.
Proof. rewrite <- (length_map index ts). eapply chain_fuel; [exact node_chain|apply children_nodup]. Qed.

(** All the children in a role. *)
Lemma bind_role_does r : does (role_trees r ts) (resolver_bind_role bind i r) (in_role r roles).
Proof.
  rewrite in_role_trees. unfold resolver_bind_role. eapply does_asks; [by apply child_role_spec|].
  eapply does_gets; [by apply fuel_spec|]. apply (bind_role_loop_does r ts []); [done|apply children_fuel].
Qed.

(** The only child in a role, if there is one. *)
Lemma bind_child_does r : length (role_trees r ts) <= 1 ->
  does (role_trees r ts) (bind_child bind i r) (in_role r roles).
Proof.
  intros Hr. rewrite in_role_trees. unfold bind_child. eapply does_asks; [by apply child_role_spec|].
  pose proof (role_trees_in r ts) as Hin. destruct (role_trees r ts) as [|t [|? ?]]; [| |cbn in Hr; lia].
  - constructor; [|by apply skip_sat|].
    + intros rs s Hm _ _. unfold wp. cbn. rewrite bind_none. by apply resolved_refl.
    + intros rs _ _. unfold wp. cbn. by rewrite bind_none.
  - cbn [map]. eapply does_ext; [intros s; symmetry; apply seq_all_single|]. apply does_bind.
    by apply (Hin t), list_elem_of_singleton.
Qed.

(** All the children. *)
Lemma siblings_does us : forall pre fuel, ts = pre ++ us -> length us < fuel ->
  does us (resolver_siblings fuel (fun c => bind (Some c)) (index <$> head us)) (seq_all (map resolve us)).
Proof.
  induction us as [|t us IH]; intros pre fuel E Hf.
  { destruct fuel; apply does_skip. }
  destruct fuel as [|f]; [lia|]. cbn [head fmap option_fmap option_map resolver_siblings map seq_all foldr].
  apply (does_cons [t] us).
  - eapply rest_disjoint; [exact E|]. done.
  - apply does_bind. rewrite E. apply elem_of_app. right. left.
  - constructor.
    + intros rs s Hm Hl Ha. destruct (next_chain pre t us (rs_ir rs) E Hl) as (n & Hn & Hc).
      apply wp_bind. eapply wp_asks; [by apply node_at_done|]. rewrite (chain_head _ _ _ Hc).
      replace (head (map index us)) with (index <$> head us) by (by destruct us).
      apply (IH (pre ++ [t])); [by rewrite <- app_assoc|cbn in Hf; lia|done..].
    + eapply does_inside, (IH (pre ++ [t]) (S (length us))); [by rewrite <- app_assoc|lia].
    + intros rs Hl He. destruct (next_chain pre t us (rs_ir rs) E Hl) as (n & Hn & Hc).
      apply wp_bind. eapply wp_asks; [by apply node_at_done|]. rewrite (chain_head _ _ _ Hc).
      replace (head (map index us)) with (index <$> head us) by (by destruct us).
      apply (IH (pre ++ [t])); [by rewrite <- app_assoc|cbn in Hf; lia|done..].
Qed.
End children.

(** ** Blocks *)

Lemma pop_while_app d l1 l2 :
  Forall (fun x => d <= symbol_depth x) l1 -> Forall (fun x => symbol_depth x < d) l2 ->
  pop_while d (l1 ++ l2) = l2.
Proof.
  intros H1 H2. induction H1 as [|x l1 Hx _ IH]; cbn [pop_while app].
  - destruct H2 as [|x l2 Hx]; [done|]. cbn. by destruct (Nat.leb_spec d (symbol_depth x)); [lia|].
  - by destruct (Nat.leb_spec d (symbol_depth x)); [|lia].
Qed.

Definition outer (rs : HirResolver) : Prop := Forall (fun x => symbol_depth x < rs_depth rs) (symbols rs).

(** Popping the scope of a block that has been resolved. *)
Lemma pop_closed rs s a rs1 s1 r1 : matches rs s -> outer rs -> a s = Some (s1, r1) ->
  resolved (a s) rs rs1 ->
  exists rs2, pop_scope rs1 = Done (tt, rs2) /\ closed (scoped a s) rs rs2.
Proof.
  intros Hm Ho E [Hl H]. rewrite E in H. destruct H as (Hm1 & Hd & Hir & new & Hs & Hnew).
  assert (symbols rs = rev (pop_while (rs_depth rs1) (rev (symbols rs1)))) as Hpop.
  { rewrite Hs, rev_app_distr, pop_while_app; [by rewrite rev_involutive| |].
    - apply Forall_rev. rewrite Hd. eapply Forall_impl; [exact Hnew|]. cbn. lia.
    - apply Forall_rev. by rewrite Hd. }
  eexists. split; [reflexivity|]. rewrite <- Hpop. unfold scoped. rewrite E.
  destruct Hm as [_ He Hid Hdep], Hm1 as [Hok1 _ Hid1 _]. split; [done|]. split_and!; try done.
  - constructor; cbn; try done. by rewrite Hd.
  - exists []. by rewrite app_nil_r.
Qed.

Lemma scope_run U m a rs s : does U m a -> matches rs s -> same_links ir0 (rs_ir rs) ->
  agree (forest_indices U) ir0 (rs_ir rs) -> outer rs ->
  wp (_ ← m; pop_scope) rs (fun _ rs' => closed (scoped a s) rs rs').
Proof.
  intros Hd Hm Hl Ha Ho. apply wp_bind. eapply wp_mono; [by apply (does_run _ _ _ Hd)|].
  intros [] rs1 Hr. destruct (a s) as [[s1 r1]|] eqn:E.
  - rewrite <- E in Hr. destruct (pop_closed rs s a rs1 s1 r1 Hm Ho E Hr) as (rs2 & Hpop & Hc).
    unfold wp. by rewrite Hpop.
  - unfold wp, pop_scope, modify. unfold scoped. rewrite E. destruct Hr as [Hl1 Herr]. by split.
Qed.

(** One level up again. *)
Lemma closed_up x rs rs' s : matches rs s -> closed x (with_depth (S (rs_depth rs)) rs) rs' ->
  closed x rs (with_depth (pred (rs_depth rs')) rs').
Proof.
  intros [_ _ _ Hdep] [Hl Hx]. split; [done|]. destruct x as [[s' r]|]; [|done].
  destruct Hx as (Hm & Hd & Hir & new & Hs & Hnew). destruct new; [|by inversion Hnew].
  rewrite app_nil_r in Hs. cbn in Hd, Hs. rewrite Hd. cbn [pred]. split_and!; [|done..|].
  - destruct Hm as [H1 H2 H3 _]. constructor; cbn; try done. by rewrite Hs.
  - exists []. cbn. by rewrite app_nil_r.
Qed.

Lemma closed_resolved x rs rs' : closed x rs rs' -> resolved x rs rs'.
Proof. by apply resolved_with_mono. Qed.

Lemma deeper_outer rs s : matches rs s -> outer (with_depth (S (rs_depth rs)) rs).
Proof. intros [_ _ _ H]. eapply Forall_impl; [exact H|]. cbn. lia. Qed.

Lemma deeper_matches rs s : matches rs s -> matches (with_depth (S (rs_depth rs)) rs) s.
Proof. intros [H1 H2 H3 H4]. constructor; try done. eapply Forall_impl; [exact H4|]. cbn. lia. Qed.

(** ** The node itself *)

Lemma rename_run key rs : same_links ir0 (rs_ir rs) ->
  on_ir (update_node i (with_text key)) rs =
  Done (tt, with_ir (apply_renaming (rs_ir rs) (RenameText i key)) rs).
Proof.
  intros Hl. destruct (same_links_at _ _ _ _ Hl Hn0) as (n & Hn & _). unfold on_ir, update_node.
  rewrite Hn. unfold apply_renaming. cbn [renamed_node rename_node]. do 4 f_equal.
  apply list_eq. intros j. destruct (decide (j = i)) as [->|Hne].
  - rewrite list_lookup_insert_eq by (by eapply lookup_lt_Some). by rewrite list_lookup_alter_eq, Hn.
  - by rewrite list_lookup_insert_ne, list_lookup_alter_ne.
Qed.

Lemma matches_with_ir ir rs s : matches rs s -> matches (with_ir ir rs) s.
Proof. by intros [? ? ? ?]. Qed.

Lemma use_run text rs s : matches rs s -> same_links ir0 (rs_ir rs) ->
  wp (ss ← gets symbols; rename_to i (resolver_find text ss)) rs
    (fun _ rs' => resolved (use i text s) rs rs').
Proof.
  intros Hm Hl. apply wp_bind, wp_gets. pose proof (resolver_find_env text (symbols rs)) as Hfind.
  rewrite (mt_env _ _ Hm) in Hfind. unfold use. rewrite <- Hfind.
  destruct (resolver_find text (symbols rs)) as [x|]; cbn [fmap option_fmap option_map rename_to].
  - unfold wp. rewrite rename_run by done. split; [apply apply_renaming_links|].
    split_and!; [by apply matches_with_ir|done|done|]. exists []. by rewrite app_nil_r.
  - by split.
Qed.

Lemma declare_run text rs s : matches rs s -> same_links ir0 (rs_ir rs) ->
  wp (symbol ← resolver_declare text; rename_to i (Some symbol)) rs
    (fun _ rs' => resolved (declare i text s) rs rs').
Proof.
  intros Hm Hl. apply wp_bind. unfold resolver_declare. apply wp_bind, wp_get, wp_bind, wp_modify, wp_ret.
  unfold rename_to, wp. rewrite rename_run by done. cbn. split; [apply apply_renaming_links|].
  destruct Hm as [H1 H2 H3 H4]. split_and!; [|done|by rewrite <- H3|].
  - constructor; cbn; [done| |by rewrite H3|].
    + unfold env_of. rewrite rev_app_distr, map_app. unfold env_of in H2. rewrite H2. cbn. by rewrite H3.
    + apply Forall_app. split; [done|]. by apply Forall_singleton.
  - eexists. split; [done|]. by apply Forall_singleton.
Qed.

(** A piece on [U], and then one that needs the trees [V]. *)
Lemma seq_run U V m1 m2 a1 (a2 : Res) rs s :
  (forall j, j ∈ forest_indices U -> j ∉ forest_indices V) ->
  does U m1 a1 -> matches rs s -> same_links ir0 (rs_ir rs) ->
  agree (forest_indices U) ir0 (rs_ir rs) -> agree (forest_indices V) ir0 (rs_ir rs) ->
  (forall rs1 s1, matches rs1 s1 -> same_links ir0 (rs_ir rs1) ->
     agree (forest_indices V) ir0 (rs_ir rs1) -> wp m2 rs1 (fun _ rs' => resolved (a2 s1) rs1 rs')) ->
  wp (_ ← m1; unless_error m2) rs (fun _ rs' => resolved (seq_res a1 a2 s) rs rs').
Proof.
  intros Hdis Hd Hm Hl HU HV H2. apply wp_bind. eapply wp_mono; [by apply (does_run _ _ _ Hd)|].
  intros [] rs1 Hr1. assert (same_links ir0 (rs_ir rs1)) as Hl1 by (etrans; [done|apply Hr1]).
  destruct (a1 s) as [[s1 r1]|] eqn:E1.
  - assert (matches rs1 s1) as Hm1 by apply Hr1. unfold wp. rewrite unless_error_run by apply Hm1.
    change (wp m2 rs1 (fun _ rs' => resolved (seq_res a1 a2 s) rs rs')).
    eapply wp_mono; [apply (H2 rs1 s1 Hm1 Hl1)|].
    + destruct Hr1 as (_ & _ & _ & -> & _). eapply agree_trans; [exact HV|].
      apply (apply_all_agree _ (forest_indices U)); [exact (does_inside _ _ _ Hd _ _ _ E1)|].
      intros j Hj Hj'. by apply (Hdis j).
    + intros [] rs2 Hr2. eapply resolved_seq; [by rewrite E1|congruence|].
      intros s1' r1' Heq. rewrite E1 in Heq. injection Heq as <- <-.
      unfold resolved in Hr2. by rewrite (resolved_depth _ _ _ _ Hr1) in Hr2.
  - destruct Hr1 as [Hl' Herr]. unfold wp. rewrite unless_error_skip by done. unfold seq_res. rewrite E1. by split.
Qed.

(** ** Every node *)

Section bind.
Context (bind : option nat -> St HirResolver unit) (rs : HirResolver) (s : scope).
Hypothesis bind_tree : forall t rs s, t ∈ ts -> matches rs s -> subtree (rs_ir rs) t ->
  wp (bind (Some (index t))) rs (fun _ rs' => resolved (resolve t s) rs rs').
Hypothesis bind_error : forall o rs, rs_error rs = true -> bind o rs = Done (tt, rs).
Hypothesis bind_none : forall rs, bind None rs = Done (tt, rs).
Hypothesis Hm : matches rs s.
Hypothesis Hir : rs_ir rs = ir0.

Local Abbreviation roles := (map (fun t => (l_role (label t), resolve t)) ts).
Local Abbreviation Does := (fun a : Res => fun _ : unit => fun rs' => resolved (a s) rs rs').

Lemma start_links : same_links ir0 (rs_ir rs).
Proof. by rewrite Hir. Qed.

Lemma start_agree I : agree I ir0 (rs_ir rs).
Proof. by rewrite Hir. Qed.

Lemma node_roles : roles_ok (opcode n0) (map (fun t => l_role (label t)) ts).
Proof. destruct (subtree_inv _ _ _ _ Hsub) as (n & Hn & _ & _ & _ & _ & Hr & _). by simplify_eq. Qed.

Lemma role_trees_count r us : length (role_trees r us) = count_role r (map (fun t => l_role (label t)) us).
Proof.
  unfold count_role, role_trees. induction us as [|t us IH]; [done|]. cbn [map]. rewrite !filter_cons.
  destruct (decide (l_role (label t) = r)); cbn; by rewrite IH.
Qed.

(** The edges that a node has at most once. *)
Definition single_edge (op : VntIrOpcode) (r : VntIrEdgeRole) : bool :=
  match op, r with
  | (VNT_IR_PRINT | VNT_IR_RETURN | VNT_IR_VARIABLE_DECL | VNT_IR_REASSIGN), VNT_IR_EDGE_VALUE
  | (VNT_IR_IF | VNT_IR_WHILE), VNT_IR_EDGE_CONDITION
  | VNT_IR_ASSIGN, (VNT_IR_EDGE_TARGET | VNT_IR_EDGE_VALUE)
  | VNT_IR_INDEX, (VNT_IR_EDGE_OBJECT | VNT_IR_EDGE_INDEX)
  | VNT_IR_MEMBER, VNT_IR_EDGE_OBJECT
  | VNT_IR_BINARY, (VNT_IR_EDGE_LEFT | VNT_IR_EDGE_RIGHT)
  | VNT_IR_UNARY, VNT_IR_EDGE_OPERAND => true
  | _, _ => false
  end.

Lemma single_edge_count op r rs_ : single_edge op r = true -> roles_ok op rs_ -> count_role r rs_ <= 1.
Proof.
  intros Hs Hr. assert (forall l, rs_ ≡ₚ l -> count_role r rs_ = count_role r l) as Hp.
  { intros l E. unfold count_role. by rewrite E. }
  destruct op, r; try discriminate Hs; cbn in Hr;
    first [destruct Hr as [-> | ->]; vm_compute; lia | destruct Hr as [-> _]; lia
          | rewrite (Hp _ Hr); vm_compute; lia | rewrite Hr; vm_compute; lia].
Qed.

Lemma single_does r : single_edge (opcode n0) r = true ->
  does (role_trees r ts) (bind_child bind i r) (in_role r roles).
Proof.
  intros Hs. apply bind_child_does; [done..|]. rewrite role_trees_count.
  by eapply single_edge_count, node_roles.
Qed.

Lemma does_from U m a : does U m a -> wp m rs (Does a).
Proof. intros H. apply (does_run _ _ _ H); [done|apply start_links|apply start_agree]. Qed.

Lemma two_children r1 r2 : single_edge (opcode n0) r1 = true -> single_edge (opcode n0) r2 = true ->
  r1 <> r2 ->
  wp (_ ← bind_child bind i r1; bind_child bind i r2) rs (Does (seq_res (in_role r1 roles) (in_role r2 roles))).
Proof.
  intros H1 H2 Hr. apply (does_from (role_trees r1 ts ++ role_trees r2 ts)).
  apply does_seq; [by apply roles_disjoint|by apply single_does..].
Qed.

Lemma while_run : opcode n0 = VNT_IR_WHILE ->
  wp (bind_node bind i n0) rs (Does (resolve_node i (label_of n0) roles)).
Proof.
  intros Hop. unfold bind_node, resolve_node. cbn [label_of l_opcode]. rewrite Hop.
  apply (seq_run (role_trees VNT_IR_EDGE_CONDITION ts) (role_trees VNT_IR_EDGE_BODY ts));
    [by apply roles_disjoint|apply single_does; by rewrite Hop|done|apply start_links|apply start_agree..|].
  intros rs1 s1 Hm1 Hl1 Ha1. apply wp_bind, wp_modify, wp_bind.
  eapply wp_mono; [eapply scope_run; [by apply (bind_role_does bind)|by apply deeper_matches|done|done|
    by eapply deeper_outer]|].
  intros [] rs2 Hc. apply wp_modify, closed_resolved. by eapply closed_up.
Qed.

Lemma if_run : opcode n0 = VNT_IR_IF ->
  wp (bind_node bind i n0) rs (Does (resolve_node i (label_of n0) roles)).
Proof.
  intros Hop. unfold bind_node, resolve_node. cbn [label_of l_opcode]. rewrite Hop.
  assert (forall j, j ∈ forest_indices (role_trees VNT_IR_EDGE_CONDITION ts) ->
    j ∉ forest_indices (role_trees VNT_IR_EDGE_THEN ts ++ role_trees VNT_IR_EDGE_ELSE ts)) as Hdis.
  { intros j Hj. rewrite forest_indices_app, elem_of_app. intros [H|H].
    - by apply (roles_disjoint VNT_IR_EDGE_CONDITION VNT_IR_EDGE_THEN ltac:(done) j).
    - by apply (roles_disjoint VNT_IR_EDGE_CONDITION VNT_IR_EDGE_ELSE ltac:(done) j). }
  apply (seq_run _ _ _ _ _ _ _ _ Hdis); [apply single_does; by rewrite Hop|done|apply start_links|apply start_agree..|].
  intros rs1 s1 Hm1 Hl1 Ha1. rewrite forest_indices_app in Ha1. apply wp_bind, wp_modify, wp_bind.
  pose proof (bind_role_does bind bind_tree bind_error VNT_IR_EDGE_THEN) as Hthen.
  pose proof (bind_role_does bind bind_tree bind_error VNT_IR_EDGE_ELSE) as Helse.
  eapply wp_mono; [apply (does_run _ _ _ Hthen); [by apply deeper_matches|done|]|].
  { eapply agree_sub; [|exact Ha1]. intros j Hj. apply elem_of_app. by left. }
  intros [] rs2 Hr2. set (rs1' := with_depth _ rs1) in *.
  set (a := in_role VNT_IR_EDGE_THEN roles) in *. set (b := in_role VNT_IR_EDGE_ELSE roles) in *.
  destruct (a s1) as [[s2 r2]|] eqn:Ea.
  2: { destruct Hr2 as [Hl2 Herr]. unfold wp. rewrite unless_error_skip by done.
       unfold seq_res, scoped. rewrite Ea. by split. }
  unfold wp. rewrite unless_error_run by apply Hr2. rewrite <- Ea in Hr2.
  destruct (pop_closed rs1' s1 a rs2 s2 r2) as (rs3 & Hpop & Hc3);
    [by apply deeper_matches|by eapply deeper_outer|done|done|].
  change (wp (_ ← pop_scope; _ ← bind_scope bind i VNT_IR_EDGE_ELSE;
              modify (fun rs => with_depth (pred (rs_depth rs)) rs)) rs2
            (fun _ rs' => resolved (seq_res (scoped a) (scoped b) s1) rs1 rs')).
  eapply wp_bind_done; [exact Hpop|].
  assert (scoped a s1 = Some ({| sc_env := sc_env s1; sc_id := sc_id s2 |}, r2)) as Esc
    by (unfold scoped; by rewrite Ea).
  assert (same_links ir0 (rs_ir rs3)) as Hl3 by (etrans; [exact Hl1|apply Hc3]).
  pose proof Hc3 as [_ H3]. rewrite Esc in H3. destruct H3 as (Hm3 & Hd3 & Hir3 & new & Hs3 & Hnew).
  destruct new; [|by inversion Hnew]. rewrite app_nil_r in Hs3.
  apply wp_bind. eapply wp_mono; [eapply (scope_run _ _ _ rs3 _ Helse Hm3 Hl3)|].
  - rewrite Hir3. eapply agree_trans.
    { eapply agree_sub; [|exact Ha1]. intros j Hj. apply elem_of_app. by right. }
    apply (apply_all_agree _ (forest_indices (role_trees VNT_IR_EDGE_THEN ts)));
      [exact (does_inside _ _ _ Hthen _ _ _ Ea)|].
    intros j Hj Hj'. by apply (roles_disjoint VNT_IR_EDGE_THEN VNT_IR_EDGE_ELSE ltac:(done) j).
  - unfold outer. rewrite Hs3, Hd3. by eapply deeper_outer.
  - intros [] rs4 Hc4. apply wp_modify, closed_resolved. eapply closed_up; [exact Hm1|].
    eapply resolved_seq; [exact Hc3|by rewrite Esc|]. intros s' r' E. rewrite Esc in E. by injection E as <- <-.
Qed.

Lemma node_label_text : has_text (opcode n0) = true -> value n0 = VAL_TEXT (label_text (label_of n0)).
Proof.
  intros Ht. destruct (subtree_inv _ _ _ _ Hsub) as (n & Hn & _ & _ & _ & [Hlab _ _ _ _] & _).
  destruct (Hlab Ht) as [text Htext]. cbn in Htext. unfold label_text. cbn. by rewrite Htext.
Qed.

Lemma asks_text {B} (k : bytes -> St HirResolver B) rs1 Q : has_text (opcode n0) = true ->
  wp (k (label_text (label_of n0))) rs1 Q -> wp (text ← asks (fun _ => node_text n0); k text) rs1 Q.
Proof.
  intros Ht Hk. apply wp_bind. eapply wp_asks; [|exact Hk]. unfold node_text. by rewrite node_label_text.
Qed.

(** A value is bound, and then the node itself. *)
Lemma value_then m2 a2 : single_edge (opcode n0) VNT_IR_EDGE_VALUE = true ->
  (forall rs1 s1, matches rs1 s1 -> same_links ir0 (rs_ir rs1) ->
     wp m2 rs1 (fun _ rs' => resolved (a2 s1) rs1 rs')) ->
  wp (_ ← bind_child bind i VNT_IR_EDGE_VALUE; unless_error m2) rs
    (Does (seq_res (in_role VNT_IR_EDGE_VALUE roles) a2)).
Proof.
  intros Hs H2. apply (seq_run (role_trees VNT_IR_EDGE_VALUE ts) []); [|by apply single_does|done|
    apply start_links|apply start_agree..|]; [intros j _; apply not_elem_of_nil|]. auto.
Qed.

Lemma siblings_run : wp (fuel ← gets resolver_fuel;
    resolver_siblings fuel (fun c => bind (Some c)) (first_child n0)) rs (Does (seq_all (map snd roles))).
Proof.
  rewrite map_map. cbn [snd]. apply (does_from ts). eapply does_gets; [by apply fuel_spec|].
  rewrite (chain_head _ _ _ node_chain).
  replace (head (map index ts)) with (index <$> head ts) by (by destruct ts).
  apply (siblings_does bind bind_tree bind_error ts []); [done|apply children_fuel].
Qed.

Lemma bind_node_run : wp (bind_node bind i n0) rs (Does (resolve_node i (label_of n0) roles)).
Proof.
  destruct (decide (opcode n0 = VNT_IR_IF)) as [?|Hif]; [by apply if_run|].
  destruct (decide (opcode n0 = VNT_IR_WHILE)) as [?|Hwhile]; [by apply while_run|].
  unfold bind_node, resolve_node. cbn [label_of l_opcode].
  destruct (opcode n0) eqn:Hop; try done; try (apply wp_ret; by apply resolved_refl).
  - apply (does_from (role_trees VNT_IR_EDGE_STATEMENT ts)). by apply (bind_role_does bind).
  - apply (does_from (role_trees VNT_IR_EDGE_VALUE ts)), single_does. by rewrite Hop.
  - apply siblings_run.
  - apply (does_from (role_trees VNT_IR_EDGE_VALUE ts)), single_does. by rewrite Hop.
  - apply siblings_run.
  - apply value_then; [by rewrite Hop|]. intros rs1 s1 Hm1 Hl1. apply asks_text; [by rewrite Hop|].
    by apply declare_run.
  - apply asks_text; [by rewrite Hop|]. apply use_run; [done|apply start_links].
  - apply two_children; by rewrite ?Hop.
  - apply (does_from (role_trees VNT_IR_EDGE_OBJECT ts)), single_does. by rewrite Hop.
  - apply two_children; by rewrite ?Hop.
  - apply two_children; by rewrite ?Hop.
  - apply (does_from (role_trees VNT_IR_EDGE_OPERAND ts)), single_does. by rewrite Hop.
  - apply value_then; [by rewrite Hop|]. intros rs1 s1 Hm1 Hl1. apply asks_text; [by rewrite Hop|].
    by apply use_run.
Qed.
End bind.
End node.

(** * Statements and expressions *)

Lemma bind_expr_error fuel o rs : rs_error rs = true -> resolver_bind_expr fuel o rs = Done (tt, rs).
Proof. intros H. destruct fuel; cbn [resolver_bind_expr]; by apply unless_error_skip. Qed.

Lemma bind_expr_none fuel rs : resolver_bind_expr fuel None rs = Done (tt, rs).
Proof.
  destruct fuel; cbn [resolver_bind_expr]; unfold unless_error; st_unfold; by destruct (rs_error rs).
Qed.

Lemma bind_expr_spec fuel : forall t rs s, length (indices t) <= fuel -> matches rs s ->
  subtree (rs_ir rs) t ->
  wp (resolver_bind_expr fuel (Some (index t))) rs (fun _ rs' => resolved (resolve t s) rs rs').
Proof.
  induction fuel as [|f IH]; intros [i l ts] rs s Hf Hm Hsub; [cbn in Hf; lia|].
  cbn [resolver_bind_expr index]. unfold wp. rewrite unless_error_run by apply Hm.
  destruct (subtree_inv _ _ _ _ Hsub) as (n & Hn & -> & _).
  change (wp (ir ← gets rs_ir;
      if node_count ir <=? i then mret tt
      else (node ← asks (fun rs => node_at (rs_ir rs) i); bind_node (resolver_bind_expr f) i node)) rs
    (fun _ rs' => resolved (resolve (Tree i (label_of n) ts) s) rs rs')).
  apply wp_bind, wp_gets. destruct (Nat.leb_spec (node_count (rs_ir rs)) i) as [H|_].
  { apply lookup_lt_Some in Hn. unfold node_count in H. lia. }
  apply wp_bind. eapply wp_asks; [by apply node_at_done|]. cbn [resolve].
  apply (bind_node_run (rs_ir rs) i n ts); try done.
  - intros t rs1 s1 Ht Hm1 Hsub1. apply IH; [|done..].
    pose proof (child_subtree_length t ts i (label_of n) Ht). lia.
  - intros o rs1. apply bind_expr_error.
  - apply bind_expr_none.
Qed.
