(* ===== verification/IrResolve.v ===== *)
(** IrResolve: resolving the names of a whole program. The result is the
    resolution of IrScopesFacts, and the array stays valid. *)

From S2P Require Import Prelude Clib Ast Ir IrTrees IrFacts IrAccess IrLower IrScopesFacts.

#[local] Opaque symbol_key.

(** * Functions *)

Lemma parameters_sat (Q : renaming -> Prop) i ns : (forall p key, Q (RenameName i p key)) ->
  forall p, renames_sat Q (resolve_parameters i p ns).
Proof.
  intros HQ. induction ns as [|name ns IH]; intros p; [apply skip_sat|]. intros s s' r. cbn.
  destruct (resolve_parameters i (S p) ns (extend name s)) as [[s1 r1]|] eqn:E; [|done].
  intros [= <- <-]. constructor; [done|by eapply IH].
Qed.

Section statement.
Context (ir0 : VntIrProgram) (i : nat) (n0 : VntIrNode) (ts : list tree).
Hypothesis Hn0 : nodes ir0 !! i = Some n0.
Hypothesis Hsub : subtree ir0 (Tree i (label_of n0) ts).

Lemma parameter_run p key rs : same_links ir0 (rs_ir rs) ->
  on_ir (update_node i (fun n => with_names (<[p := key]> (names n)) n)) rs =
  Done (tt, with_ir (apply_renaming (rs_ir rs) (RenameName i p key)) rs).
Proof.
  intros Hl. destruct (same_links_at _ _ _ _ Hl Hn0) as (n & Hn & _). unfold on_ir, update_node.
  rewrite Hn. unfold apply_renaming. cbn [renamed_node rename_node]. do 4 f_equal.
  apply list_eq. intros j. destruct (decide (j = i)) as [->|Hne].
  - rewrite list_lookup_insert_eq by (by eapply lookup_lt_Some). by rewrite list_lookup_alter_eq, Hn.
  - by rewrite list_lookup_insert_ne, list_lookup_alter_ne.
Qed.

Lemma parameters_run ns : forall p rs s, matches rs s -> same_links ir0 (rs_ir rs) ->
  wp (declare_parameters i p ns) rs (fun _ rs' => resolved (resolve_parameters i p ns s) rs rs').
Proof.
  induction ns as [|name ns IH]; intros p rs s Hm Hl; cbn [declare_parameters resolve_parameters].
  { apply wp_ret. by apply resolved_refl. }
  unfold wp. rewrite unless_error_run by apply Hm. cbv beta.
  set (key := symbol_key (sc_id s) name).
  set (sym := {| source_name := name; storage_key := key; symbol_depth := rs_depth rs |}).
  set (rs1 := with_symbols (symbols rs ++ [sym]) (S (next_id rs)) rs).
  set (rs2 := with_ir (apply_renaming (rs_ir rs) (RenameName i p key)) rs1).
  assert (matches rs2 (extend name s)) as Hm2.
  { destruct Hm as [H1 H2 H3 H4]. constructor; cbn; [done| |by rewrite H3|].
    - unfold env_of. rewrite rev_app_distr, map_app. unfold env_of in H2. by rewrite H2.
    - apply Forall_app. split; [done|]. by apply Forall_singleton. }
  assert (same_links ir0 (rs_ir rs2)) as Hl2 by (etrans; [exact Hl|apply apply_renaming_links]).
  change (wp (symbol ← resolver_declare name;
    _ ← on_ir (update_node i (fun n => with_names (<[p := storage_key symbol]> (names n)) n));
    declare_parameters i (S p) ns) rs (fun _ rs' => resolved
      match resolve_parameters i (S p) ns (extend name s) with
      | Some (s', r) => Some (s', RenameName i p key :: r)
      | None => None
      end rs rs')).
  apply (wp_bind_done _ _ _ sym rs1).
  { unfold resolver_declare, rs1, sym, key. by rewrite <- (mt_id _ _ Hm). }
  apply (wp_bind_done _ _ _ tt rs2); [by apply parameter_run|].
  eapply wp_mono; [by apply (IH (S p) rs2 (extend name s))|]. intros [] rs3 [Hl3 H3].
  split; [etrans; [apply (apply_renaming_links _ (RenameName i p key))|exact Hl3]|].
  destruct (resolve_parameters i (S p) ns (extend name s)) as [[s3 r3]|]; [|done].
  destruct H3 as (Hm3 & Hd3 & Hir3 & new & Hs3 & Hnew). split_and!; [done|done|done|].
  exists (sym :: new). rewrite Hs3. cbn. rewrite <- app_assoc. split; [done|]. by constructor.
Qed.

Lemma parameters_total ns : forall p s, exists s' r, resolve_parameters i p ns s = Some (s', r).
Proof.
  induction ns as [|name ns IH]; intros p s; [by eexists _, _|]. cbn.
  destruct (IH (S p) (extend name s)) as (s' & r & ->). eauto.
Qed.

Lemma node_forest_disjoint j : j ∈ [i] -> j ∉ forest_indices ts.
Proof.
  intros ->%list_elem_of_singleton. pose proof (subtree_nodup _ _ Hsub) as Hd.
  by apply NoDup_cons in Hd as [Hd _].
Qed.

(** Only some of the trees are needed. *)
Lemma role_agree r ir : agree (forest_indices ts) ir0 ir -> agree (forest_indices (role_trees r ts)) ir0 ir.
Proof.
  apply agree_sub. intros j (t & Ht & Hj)%forest_in. apply role_trees_in in Ht as [_ Ht].
  by eapply forest_indices_in.
Qed.

Section run.
Context (fuel : nat) (rs : HirResolver) (s : scope).
Hypothesis fuel_enough : length (forest_indices ts) <= fuel.
Hypothesis Hm : matches rs s.
Hypothesis Hir : rs_ir rs = ir0.
Hypothesis Hdepth : rs_depth rs = 0.

Local Abbreviation bind := (resolver_bind_expr fuel).
Local Abbreviation roles := (map (fun t => (l_role (label t), resolve t)) ts).

Lemma bind_trees t rs1 s1 : t ∈ ts -> matches rs1 s1 -> subtree (rs_ir rs1) t ->
  wp (bind (Some (index t))) rs1 (fun _ rs' => resolved (resolve t s1) rs1 rs').
Proof.
  intros Ht Hm1 Hsub1. apply bind_expr_spec; [|done..].
  etrans; [|exact fuel_enough]. apply list_elem_of_split in Ht as (us1 & us2 & ->).
  rewrite forest_indices_app, length_app.
  change (forest_indices (t :: us2)) with (indices t ++ forest_indices us2). rewrite length_app. lia.
Qed.

Lemma function_run :
  wp (function_base ← gets (fun rs => length (symbols rs));
      _ ← modify (with_depth 1);
      _ ← declare_parameters i 0 (names n0);
      _ ← resolver_bind_role bind i VNT_IR_EDGE_BODY;
      _ ← modify (fun rs => with_symbols (take function_base (symbols rs)) (next_id rs) rs);
      modify (with_depth 0)) rs
    (fun _ rs' => resolved (scoped (seq_res (resolve_parameters i 0 (names n0))
                                            (in_role VNT_IR_EDGE_BODY roles)) s) rs rs').
Proof.
  apply wp_bind, wp_gets, wp_bind, wp_modify, wp_bind. set (rs1 := with_depth 1 rs).
  assert (matches rs1 s) as Hm1.
  { destruct Hm as [H1 H2 H3 H4]. constructor; try done. eapply Forall_impl; [exact H4|]. cbn. lia. }
  assert (same_links ir0 (rs_ir rs1)) as Hl1 by (cbn; by rewrite Hir).
  eapply wp_mono; [by apply (parameters_run _ 0 rs1 s)|]. intros [] rs2 Hr2.
  destruct (parameters_total (names n0) 0 s) as (s2 & r2 & Ep).
  pose proof Hr2 as [Hl2 H2]. rewrite Ep in H2. destruct H2 as (Hm2 & Hd2 & Hir2 & new2 & Hs2 & _).
  apply wp_bind. eapply wp_mono.
  { apply (does_run _ _ _ _ (bind_role_does ir0 i n0 ts Hn0 Hsub bind bind_trees
      (bind_expr_error fuel) VNT_IR_EDGE_BODY) rs2 s2 Hm2); [by etrans|]. apply role_agree.
    rewrite Hir2. cbn. rewrite Hir. apply (apply_all_agree _ [i]).
    - eapply (parameters_sat (fun x => renamed_node x ∈ [i])); [intros p key; left|exact Ep].
    - intros j Hj Hj'. by apply (node_forest_disjoint j). }
  intros [] rs3 Hr3. apply wp_bind, wp_modify, wp_modify.
  unfold scoped, seq_res. rewrite Ep. split.
  { cbn. etrans; [|apply Hr3]. etrans; [|apply Hl2]. done. }
  destruct Hr3 as [Hl3 H3]. destruct (in_role VNT_IR_EDGE_BODY roles s2) as [[s3 r3]|]; [|done].
  destruct H3 as (Hm3 & Hd3 & Hir3 & new3 & Hs3 & _). split_and!; cbn.
  - destruct Hm as [H1 H2 H3' H4], Hm3 as [H5 _ H7 _]. constructor; cbn; try done.
    + rewrite Hs3, Hs2. cbn. by rewrite <- app_assoc, take_app_length.
    + rewrite Hs3, Hs2. cbn. rewrite <- app_assoc, take_app_length. by rewrite <- Hdepth.
  - by rewrite Hdepth.
  - by rewrite Hir3, Hir2, apply_all_app.
  - exists []. by rewrite Hs3, Hs2, <- app_assoc, take_app_length, app_nil_r.
Qed.

(** A declaration of a global. *)
Lemma global_find gl text :
  storage_key <$> find (fun x => bytes_eqb (source_name x) text) gl =
  lookup_env text (rev (env_of gl)).
Proof.
  unfold lookup_env, env_of. rewrite <- map_rev, rev_involutive.
  induction gl as [|x l IH]; [done|]. cbn. by destruct (bytes_eqb (source_name x) text).
Qed.

Lemma declaration_run gl gs : opcode n0 = VNT_IR_VARIABLE_DECL -> env_of gl = sc_env gs ->
  take (length gl) (symbols rs) = gl ->
  wp (text ← asks (fun _ => node_text n0);
      ss ← gets symbols;
      _ ← rename_to i (find (fun x => bytes_eqb (source_name x) text) (take (length gl) ss));
      bind_child bind i VNT_IR_EDGE_VALUE) rs
    (fun _ rs' => resolved (resolve_statement gs (Tree i (label_of n0) ts) s) rs rs').
Proof.
  intros Hop Hgl Htake. eapply asks_text; [exact Hsub|by rewrite Hop|].
  apply wp_bind, wp_gets. rewrite Htake. unfold resolve_statement. cbn [label l_opcode label_of index subtrees].
  rewrite Hop, <- Hgl, <- global_find.
  pose proof (single_does ir0 i n0 ts Hn0 Hsub bind rs bind_trees (bind_expr_error fuel)
    (bind_expr_none fuel) Hir VNT_IR_EDGE_VALUE) as Hdoes.
  set (text := label_text (label_of n0)) in *.
  destruct (find (fun x => bytes_eqb (source_name x) text) gl) as [x|]; cbn [fmap option_fmap option_map].
  - apply wp_bind. unfold rename_to. unfold wp at 1. rewrite (rename_run ir0 i n0 Hn0) by (by rewrite Hir).
    set (rs1 := with_ir _ rs).
    eapply wp_mono; [apply (does_run _ _ _ _ (Hdoes ltac:(by rewrite Hop)) rs1 s)|].
    + by apply matches_with_ir.
    + cbn. rewrite Hir. apply apply_renaming_links.
    + apply role_agree. cbn. rewrite Hir.
      apply (apply_all_agree _ [i] [RenameText i (storage_key x)]); [by apply Forall_singleton, list_elem_of_singleton|].
      intros j Hj Hj'. by apply (node_forest_disjoint j).
    + intros [] rs2 [Hl2 H2]. split; [etrans; [apply (apply_renaming_links _ (RenameText i (storage_key x)))|exact Hl2]|].
      by destruct (in_role VNT_IR_EDGE_VALUE roles s) as [[s2 r2]|].
  - apply wp_bind, wp_modify. set (rs1 := with_error rs).
    eapply wp_mono; [apply (does_error _ _ _ _ (Hdoes ltac:(by rewrite Hop)) rs1)|]; [by rewrite <- Hir|done|].
    intros [] rs2 ->. by split.
Qed.

(** A statement of the program. *)
Lemma statement_run gl gs : env_of gl = sc_env gs -> take (length gl) (symbols rs) = gl ->
  sibling_fuel ir0 = fuel -> length (indices (Tree i (label_of n0) ts)) <= fuel ->
  wp (resolve_top_level (length gl) i) rs
    (fun _ rs' => resolved (resolve_statement gs (Tree i (label_of n0) ts) s) rs rs').
Proof.
  intros Hgl Htake Hfuel Hlen. unfold resolve_top_level. apply wp_bind.
  eapply wp_asks; [rewrite Hir; by apply node_at_done|]. apply wp_bind, wp_gets.
  assert (resolver_fuel rs = fuel) as -> by (unfold resolver_fuel; by rewrite Hir).
  destruct (opcode n0) eqn:Hop.
  all: try (unfold resolve_statement; cbn [label l_opcode label_of]; rewrite Hop;
    apply (bind_expr_spec fuel (Tree i (label_of n0) ts)); [done|done|by rewrite Hir]).
  - unfold resolve_statement. cbn [label l_opcode label_of index subtrees l_names]. rewrite Hop.
    apply function_run.
  - by apply declaration_run.
Qed.
End run.
End statement.

Lemma statement_sat (Q : renaming -> Prop) gs t :
  (forall j key, j ∈ variable_nodes t -> Q (RenameText j key)) ->
  (forall p key, Q (RenameName (index t) p key)) -> renames_sat Q (resolve_statement gs t).
Proof.
  intros HQ HQ'. pose proof (resolve_sat Q t HQ) as Hresolve. destruct t as [i l ts].
  assert (forall r, renames_sat Q (in_role r (map (fun t => (l_role (label t), resolve t)) ts))) as Hroles.
  { intros r. apply in_role_sat. rewrite Forall_map. apply Forall_forall. intros t Ht. cbn.
    apply resolve_sat. intros j key Hj. apply HQ. cbn. apply elem_of_app. right.
    by eapply variable_nodes_child. }
  unfold resolve_statement. cbn [label index subtrees]. destruct (l_opcode l) eqn:Hop; try exact Hresolve.
  - apply scoped_sat, seq_sat; [by apply parameters_sat|apply Hroles].
  - intros s s' r. destruct (lookup_env _ _); [|done].
    destruct (in_role VNT_IR_EDGE_VALUE _ s) as [[s1 r1]|] eqn:E; [|done]. intros [= <- <-].
    constructor; [|by eapply Hroles]. apply HQ. cbn. rewrite Hop. left.
Qed.

Lemma statement_inside gs t : renames_inside (indices t) (resolve_statement gs t).
Proof.
  apply statement_sat.
  - intros j key. apply variable_nodes_indices.
  - intros p key. destruct t. left.
Qed.

(** * Programs *)

Section program.
Context (ir0 : VntIrProgram) (r : nat) (n0 : VntIrNode) (ts : list tree).
Hypothesis Hn0 : nodes ir0 !! r = Some n0.
Hypothesis Hsub : subtree ir0 (Tree r (label_of n0) ts).
Hypothesis Hsize : length (indices (Tree r (label_of n0) ts)) <= node_count ir0.

(** The first loop declares the globals. *)
Lemma predeclare_run us : forall pre fuel rs s, ts = pre ++ us -> length us < fuel ->
  matches rs s -> rs_ir rs = ir0 ->
  wp (resolver_siblings fuel predeclare (index <$> head us)) rs (fun _ rs' =>
    matches rs' (fold_left (fun s name => extend name s) (declared_globals us) s) /\
    rs_ir rs' = ir0 /\ rs_depth rs' = rs_depth rs).
Proof.
  induction us as [|t us IH]; intros pre fuel rs s E Hf Hm Hir; [by destruct fuel|].
  destruct fuel as [|f]; [lia|]. cbn [head fmap option_fmap option_map resolver_siblings].
  unfold wp. rewrite unless_error_run by apply Hm. cbv beta.
  destruct (next_chain ir0 r n0 ts Hn0 Hsub pre t us ir0 E ltac:(done)) as (n & Hn & Hc).
  assert (t ∈ ts) as Ht by (rewrite E; apply elem_of_app; right; left).
  pose proof (subtree_of ir0 r n0 ts Hsub t Ht) as Hst. destruct t as [j l us'].
  destruct (subtree_inv _ _ _ _ Hst) as (n' & Hn' & -> & _ & _ & [Hlab _ _ _ _] & _).
  cbn [index] in *. rewrite Hn' in Hn. injection Hn as ->.
  set (s1 := fold_left (fun s name => extend name s) (declared_globals [Tree j (label_of n) us']) s).
  assert (declared_globals (Tree j (label_of n) us' :: us) =
    declared_globals [Tree j (label_of n) us'] ++ declared_globals us) as ->.
  { unfold declared_globals. rewrite <- map_app, <- filter_app. done. }
  rewrite fold_left_app. fold s1.
  assert (wp (predeclare j) rs (fun _ rs' => matches rs' s1 /\ rs_ir rs' = ir0 /\ rs_depth rs' = rs_depth rs)) as Hone.
  { unfold predeclare. apply wp_bind. eapply wp_asks; [rewrite Hir; by apply node_at_done|].
    unfold s1, declared_globals. rewrite filter_cons. cbn [label label_of l_opcode].
    destruct (decide (opcode n = VNT_IR_VARIABLE_DECL)) as [Hop|Hop].
    - rewrite Hop. destruct (Hlab ltac:(cbn; by rewrite Hop)) as [text Htext]. cbn in Htext.
      unfold node_text. rewrite Htext. cbn. unfold label_text. cbn. rewrite Htext.
      destruct Hm as [H1 H2 H3 H4]. split_and!; [|done|done]. constructor; cbn; [done| |by rewrite H3|].
      + unfold env_of. rewrite rev_app_distr, map_app. unfold env_of in H2. rewrite H2. cbn. by rewrite H3.
      + apply Forall_app. split; [done|]. by apply Forall_singleton.
    - destruct (opcode n); try done; by apply wp_ret. }
  change (wp (_ ← predeclare j; n ← asks (fun rs => node_at (rs_ir rs) j);
              resolver_siblings f predeclare (next_sibling n)) rs (fun _ rs' =>
    matches rs' (fold_left (fun s name => extend name s) (declared_globals us) s1) /\
    rs_ir rs' = ir0 /\ rs_depth rs' = rs_depth rs)).
  apply wp_bind. eapply wp_mono; [exact Hone|]. intros [] rs1 (Hm1 & Hir1 & Hd1).
  apply wp_bind. eapply wp_asks; [rewrite Hir1; by apply node_at_done|].
  rewrite (chain_head _ _ _ Hc). replace (head (map index us)) with (index <$> head us) by (by destruct us).
  eapply wp_mono; [apply (IH (pre ++ [Tree j (label_of n) us']) f rs1 s1);
    [by rewrite <- app_assoc|cbn in Hf; lia|done|done]|].
  intros [] rs2 (? & ? & ?). split_and!; congruence.
Qed.

(** The second loop resolves the statements. *)
Lemma statements_run gl gs us : env_of gl = sc_env gs -> forall pre fuel rs s,
  ts = pre ++ us -> length us < fuel -> matches rs s -> rs_depth rs = 0 ->
  same_links ir0 (rs_ir rs) -> agree (forest_indices us) ir0 (rs_ir rs) ->
  take (length gl) (symbols rs) = gl -> length gl <= length (symbols rs) ->
  wp (resolver_siblings fuel (resolve_top_level (length gl)) (index <$> head us)) rs
    (fun _ rs' => resolved (seq_all (map (resolve_statement gs) us) s) rs rs').
Proof.
  intros Hgl. induction us as [|t us IH]; intros pre fuel rs s E Hf Hm Hdep Hl Ha Htake Hlen.
  { destruct fuel; apply wp_ret; by apply resolved_refl. }
  destruct fuel as [|f]; [lia|].
  cbn [head fmap option_fmap option_map resolver_siblings map seq_all foldr].
  unfold wp. rewrite unless_error_run by apply Hm. cbv beta.
  change (wp (_ ← resolve_top_level (length gl) (index t); n ← asks (fun rs => node_at (rs_ir rs) (index t));
              resolver_siblings f (resolve_top_level (length gl)) (next_sibling n)) rs
    (fun _ rs' => resolved (seq_res (resolve_statement gs t) (seq_all (map (resolve_statement gs) us)) s) rs rs')).
  assert (t ∈ ts) as Ht by (rewrite E; apply elem_of_app; right; left).
  change (forest_indices (t :: us)) with (indices t ++ forest_indices us) in Ha.
  assert (subtree (rs_ir rs) t) as Hst.
  { eapply subtree_agree; [|by eapply subtree_of]. eapply agree_sub; [|exact Ha].
    intros j Hj. apply elem_of_app. by left. }
  pose proof (child_subtree_length t ts r (label_of n0) Ht) as Hsmall.
  assert (wp (resolve_top_level (length gl) (index t)) rs
    (fun _ rs' => resolved (resolve_statement gs t s) rs rs')) as Hone.
  { destruct t as [j l us']. destruct (subtree_inv _ _ _ _ Hst) as (n & Hn & -> & _).
    apply (statement_run (rs_ir rs) j n us' Hn Hst (sibling_fuel (rs_ir rs)) rs s); try done.
    - unfold sibling_fuel. rewrite (same_links_count _ _ Hl). cbn in Hsmall, Hsize. unfold forest_indices. lia.
    - unfold sibling_fuel. rewrite (same_links_count _ _ Hl). lia. }
  apply wp_bind. eapply wp_mono; [exact Hone|]. intros [] rs1 Hr1.
  assert (same_links ir0 (rs_ir rs1)) as Hl1 by (etrans; [exact Hl|apply Hr1]).
  destruct (next_chain ir0 r n0 ts Hn0 Hsub pre t us (rs_ir rs1) E Hl1) as (n & Hn & Hc).
  apply wp_bind. eapply wp_asks; [by apply node_at_done|].
  rewrite (chain_head _ _ _ Hc). replace (head (map index us)) with (index <$> head us) by (by destruct us).
  destruct (resolve_statement gs t s) as [[s1 r1]|] eqn:Es.
  - pose proof Hr1 as (_ & Hm1 & Hd1 & Hir1 & new & Hs1 & Hnew).
    eapply wp_mono; [apply (IH (pre ++ [t]) f rs1 s1)|].
    + by rewrite <- app_assoc.
    + cbn in Hf. lia.
    + done.
    + congruence.
    + done.
    + rewrite Hir1. eapply agree_trans.
      { eapply agree_sub; [|exact Ha]. intros j Hj. apply elem_of_app. by right. }
      apply (apply_all_agree _ (forest_indices [t])).
      * unfold forest_indices. cbn. rewrite app_nil_r. by eapply statement_inside.
      * intros j Hj Hj'. by apply (rest_disjoint ir0 r n0 ts Hsub pre t us E us ltac:(done) j).
    + rewrite Hs1. rewrite take_app_le by done. done.
    + rewrite Hs1, length_app. lia.
    + intros [] rs2 Hr2. eapply resolved_seq; [by rewrite Es|congruence|].
      intros s' r' Heq. rewrite Es in Heq. injection Heq as <- <-.
      unfold resolved in Hr2. by rewrite (resolved_depth _ _ _ _ Hr1) in Hr2.
  - destruct Hr1 as [Hl' Herr]. unfold seq_res. rewrite Es.
    assert (resolver_siblings f (resolve_top_level (length gl)) (index <$> head us) rs1 = Done (tt, rs1)) as Hskip.
    { destruct us as [|u us]; [by destruct f|]. destruct f; cbn [head fmap option_fmap option_map resolver_siblings];
        by apply unless_error_skip. }
    unfold wp. rewrite Hskip. by split.
Qed.

Lemma resolve_hir_symbols_spec : root ir0 = Some r ->
  returns (resolve_hir_symbols r ir0) (fun p =>
    match resolve_program ts with
    | None => p.1 = false
    | Some rn => p = (true, apply_all rn ir0)
    end).
Proof.
  intros Hroot. unfold resolve_hir_symbols. set (rs0 := {| rs_ir := ir0; symbols := []; next_id := 0;
    rs_depth := 0; rs_error := false |}). set (s0 := {| sc_env := []; sc_id := 0 |}).
  assert (matches rs0 s0) as Hm0 by done. set (gs := global_scope ts).
  pose proof (node_chain ir0 r n0 ts Hn0 Hsub) as Hc.
  assert (length ts < sibling_fuel ir0) as Hfuel by by eapply children_fuel.
  assert (wp (resolve_all r) rs0 (fun _ rs' => match resolve_program ts with
    | None => rs_error rs' = true
    | Some rn => rs_error rs' = false /\ rs_ir rs' = apply_all rn ir0 end)) as H.
  { unfold resolve_all. apply wp_bind. eapply wp_asks; [by apply node_at_done|].
    apply wp_bind, wp_gets. change (resolver_fuel rs0) with (sibling_fuel ir0).
    rewrite (chain_head _ _ _ Hc). replace (head (map index ts)) with (index <$> head ts) by (by destruct ts).
    apply wp_bind. eapply wp_mono; [by apply (predeclare_run ts [] _ rs0 s0)|].
    intros [] rs1 (Hm1 & Hir1 & Hd1). apply wp_bind, wp_gets.
    change (fold_left _ _ s0) with gs in Hm1.
    eapply wp_mono; [apply (statements_run (symbols rs1) gs ts ltac:(apply Hm1) [] _ rs1 gs); try done|].
    - by rewrite Hir1.
    - by rewrite Hir1.
    - by rewrite firstn_all.
    - intros [] rs2 [_ H2]. unfold resolve_program. fold gs.
      destruct (seq_all (map (resolve_statement gs) ts) gs) as [[s2 rn]|]; cbn; [|done].
      destruct H2 as ([Hok _ _ _] & _ & Hir & _). by rewrite Hir, Hir1. }
  unfold wp in H. destruct (resolve_all r rs0) as [[[] rs']| |]; [|done..]. cbn.
  destruct (resolve_program ts) as [rn|]; [destruct H as [-> ->]|rewrite H]; done.
Qed.
End program.

(** * Renaming keeps a program valid *)

Lemma with_text_ok n text : label_ok (label_of n) -> label_ok (label_of (with_text text n)).
Proof. intros [H1 H2 H3 H4 H5]. constructor; cbn; [by eexists|done..]. Qed.

Lemma with_names_ok n p key :
  label_ok (label_of n) -> label_ok (label_of (with_names (<[p := key]> (names n)) n)).
Proof.
  intros [H1 H2 H3 H4 H5]. constructor; cbn; try done. cbn in H2. intros Hne. apply H2. intros E.
  apply Hne. by rewrite E.
Qed.

Lemma rename_node_ok r n : label_ok (label_of n) -> label_ok (label_of (rename_node r n)).
Proof. destruct r; [apply with_text_ok|apply with_names_ok]. Qed.

(** The same tree with the labels it has in [ir']. *)
Fixpoint retree (ir' : VntIrProgram) (t : tree) : tree :=
  match t with
  | Tree i l ts => Tree i (match nodes ir' !! i with Some n => label_of n | None => l end) (map (retree ir') ts)
  end.

Lemma retree_index ir' t : index (retree ir' t) = index t.
Proof. by destruct t. Qed.

Lemma retree_indices ir' t : indices (retree ir' t) = indices t.
Proof.
  induction t as [i l ts IH] using tree_ind. cbn. f_equal. rewrite map_map. f_equal.
  apply map_ext_in. intros t Ht. rewrite Forall_forall in IH. by apply IH, list_elem_of_In.
Qed.

Section relabel.
Context (ir ir' : VntIrProgram).
Hypothesis links : same_links ir ir'.
Hypothesis labels : forall i n n', nodes ir !! i = Some n -> nodes ir' !! i = Some n' ->
  label_ok (label_of n) -> label_ok (label_of n').

Lemma retree_stored t : stored ir t -> stored ir' (retree ir' t).
Proof.
  induction t as [i l ts IH] using tree_ind. intros Hst.
  inversion Hst as [? n ? Hn [Hc Hl Hcount] Hts]; subst.
  destruct (same_links_at _ _ _ _ links Hn) as (n' & Hn' & Hln). cbn. rewrite Hn'. constructor; [done| |].
  - rewrite map_map. erewrite map_ext; [|apply retree_index]. constructor.
    + rewrite (sn_first _ _ Hln). by eapply same_links_chain.
    + by rewrite (sn_last _ _ Hln).
    + by rewrite (sn_count _ _ Hln).
  - rewrite Forall_map. rewrite Forall_forall in IH, Hts. apply Forall_forall. auto.
Qed.

Lemma retree_root t : stored ir t ->
  l_role (label (retree ir' t)) = l_role (label t) /\ l_opcode (label (retree ir' t)) = l_opcode (label t).
Proof.
  intros Hst. destruct Hst as [i n ts Hn _ _]. destruct (same_links_at _ _ _ _ links Hn) as (n' & Hn' & Hln).
  cbn. rewrite Hn'. cbn. by rewrite (sn_role _ _ Hln), (sn_opcode _ _ Hln).
Qed.

Lemma retree_wf t : stored ir t -> hir_wf (erase t) -> hir_wf (erase (retree ir' t)).
Proof.
  induction t as [i l ts IH] using tree_ind. intros Hst Hwf.
  inversion Hst as [? n ? Hn _ Hts]; subst. inversion Hwf as [? ? Hlab Hroles Hwfs]; subst.
  destruct (same_links_at _ _ _ _ links Hn) as (n' & Hn' & Hln). cbn. rewrite Hn'. constructor.
  - by eapply labels.
  - rewrite !map_map. cbn in Hroles. rewrite map_map in Hroles. cbn. rewrite (sn_opcode _ _ Hln).
    erewrite map_ext_in; [exact Hroles|]. intros t Ht%list_elem_of_In. rewrite Forall_forall in Hts.
    destruct (retree_root t (Hts t Ht)) as [E _]. destruct t, (retree ir' _) eqn:Er; cbn in *. done.
  - rewrite map_map, Forall_map. rewrite Forall_map in Hwfs. rewrite Forall_forall in *. auto.
Qed.

Lemma relabel_represents t : represents ir t -> represents ir' (retree ir' t).
Proof.
  intros [Hroot Hst Hall]. constructor.
  - destruct links as [-> _]. by rewrite retree_index.
  - by apply retree_stored.
  - by rewrite retree_indices, (same_links_count _ _ links).
Qed.

Lemma relabel_valid : ir_valid ir -> ir_valid ir'.
Proof.
  intros (t & n & Hrep & Hwf & Hop & Hrole & Hn & Hnext). pose proof (represents_stored _ _ Hrep) as Hst.
  destruct (same_links_at _ _ _ _ links Hn) as (n' & Hn' & Hln).
  destruct (retree_root t Hst) as [E1 E2]. exists (retree ir' t), n'. rewrite retree_index, E1, E2.
  split_and!; [by apply relabel_represents|by apply retree_wf|done..|by rewrite (sn_next _ _ Hln)].
Qed.
End relabel.

Lemma apply_all_labels rn : forall ir i n n', nodes ir !! i = Some n -> nodes (apply_all rn ir) !! i = Some n' ->
  label_ok (label_of n) -> label_ok (label_of n').
Proof.
  induction rn as [|x rn IH]; intros ir i n n' Hn Hn' Hok; cbn in Hn'; [by simplify_eq|].
  assert (exists m, nodes (apply_renaming ir x) !! i = Some m /\ label_ok (label_of m)) as (m & Hm & Hmok).
  { cbn. destruct (decide (i = renamed_node x)) as [->|Hne].
    - exists (rename_node x n). rewrite list_lookup_alter_eq, Hn. split; [done|by apply rename_node_ok].
    - exists n. by rewrite list_lookup_alter_ne. }
  by eapply IH.
Qed.

Lemma apply_all_valid rn ir : ir_valid ir -> ir_valid (apply_all rn ir).
Proof. apply relabel_valid; [apply apply_all_links|apply apply_all_labels]. Qed.
