(* ===== verification/Cfg.v ===== *)
(** Cfg: src/compiler/cfg.c and include/vnt/cfg.h, the control-flow graph of a
    HIR program and its dataflow analyses. A row-major matrix of bytes, one row
    per block and one column per variable, is a list of rows of booleans. *)

From S2P Require Import Prelude Clib Ast Ir.

(** * Graphs *)

Inductive VntCfgTerminator : Set :=
  | VNT_CFG_FALLTHROUGH | VNT_CFG_BRANCH | VNT_CFG_JUMP | VNT_CFG_RETURN | VNT_CFG_EXIT.

#[export] Instance VntCfgTerminator_eq_dec : EqDecision VntCfgTerminator.
Proof. solve_decision. Defined.

Record VntCfgBlock := {
  instruction : option nat;
  condition : option nat;
  true_successor : option nat;
  false_successor : option nat;
  terminator : VntCfgTerminator
}.

Record VntCfg := {
  blocks : list VntCfgBlock;
  entries : list nat;
  exit_block : nat
}.

Definition block_count (cfg : VntCfg) : nat := length (blocks cfg).

Definition with_blocks (bs : list VntCfgBlock) (cfg : VntCfg) : VntCfg :=
  {| blocks := bs; entries := entries cfg; exit_block := exit_block cfg |}.

(** * Building *)

(** [static size_t child_role]: the first child with that role. *)
Definition child_role (ir : VntIrProgram) (parent : nat) (r : VntIrEdgeRole) : outcome (option nat) :=
  if node_count ir <=? parent then Done None
  else
    n ← node_at ir parent;
    find_role ir r (first_child n).

Record Builder := { b_cfg : VntCfg; b_failed : bool }.

Definition new_block (term : VntCfgTerminator) (inst cond yes no : option nat) : St Builder nat :=
  b ← get;
  let block := {| instruction := inst; condition := cond; true_successor := yes;
                  false_successor := no; terminator := term |} in
  _ ← modify (fun b => {| b_cfg := with_blocks (blocks (b_cfg b) ++ [block]) (b_cfg b);
                          b_failed := b_failed b |});
  mret (block_count (b_cfg b)).

(** [b->failed = 1; return VNT_IR_NO_NODE;] *)
Definition build_fails : St Builder (option nat) :=
  _ ← modify (fun b => {| b_cfg := b_cfg b; b_failed := true |});
  mret None.

Definition with_true_successor (s : option nat) (block : VntCfgBlock) : VntCfgBlock :=
  {| instruction := instruction block; condition := condition block; true_successor := s;
     false_successor := false_successor block; terminator := terminator block |}.

(** [b->cfg->blocks[test].true_successor = body] *)
Definition set_true_successor (test : nat) (body : option nat) : St Builder unit := fun b =>
  match blocks (b_cfg b) !! test with
  | Some block =>
      Done (tt, {| b_cfg := with_blocks (<[test := with_true_successor body block]>
                                           (blocks (b_cfg b))) (b_cfg b);
                   b_failed := b_failed b |})
  | None => Fault
  end.

Definition is_definition (op : VntIrOpcode) : bool :=
  match op with VNT_IR_FUNCTION | VNT_IR_STRUCT => true | _ => false end.

(** The array [items] of build_sequence. *)
Definition sequence_items (ir : VntIrProgram) (parent : nat) (r : VntIrEdgeRole)
    (skip_definitions : bool) : outcome (list nat) :=
  n ← node_at ir parent;
  fold_siblings (sibling_fuel ir) ir (fun c items =>
    child ← node_at ir c;
    mret (if negb (bool_decide (role child = r)) then items
          else if skip_definitions && is_definition (opcode child) then items
          else items ++ [c])) (first_child n) [].

Section build.
Context (ir : VntIrProgram).

Section sequence.
Context (build_statement : nat -> option nat -> option nat -> option nat -> St Builder (option nat)).

(** [while (count && !b->failed) entry = build_statement(b, items[--count], entry, ...)];
    the items come last first. *)
Fixpoint build_items (items : list nat) (entry break_target continue_target : option nat)
    : St Builder (option nat) :=
  match items with
  | [] => mret entry
  | item :: items =>
      failed ← gets b_failed;
      if (failed : bool) then mret entry
      else
        entry ← build_statement item entry break_target continue_target;
        build_items items entry break_target continue_target
  end.

Definition build_sequence (parent : nat) (r : VntIrEdgeRole)
    (next break_target continue_target : option nat) (skip_definitions : bool)
    : St Builder (option nat) :=
  if node_count ir <=? parent then build_fails
  else
    items ← asks (fun _ => sequence_items ir parent r skip_definitions);
    match items with
    | [] => mret next
    | _ =>
        entry ← build_items (rev items) next break_target continue_target;
        failed ← gets b_failed;
        mret (if (failed : bool) then None else entry)
    end.
End sequence.

(** The recursion goes down the tree: its budget is the number of nodes. *)
Fixpoint build_statement (fuel : nat) (index : nat)
    (next break_target continue_target : option nat) : St Builder (option nat) :=
  failed ← gets b_failed;
  if (failed : bool) || (node_count ir <=? index) then mret None
  else
    match fuel with
    | O => stuck
    | S f =>
        let sequence := build_sequence (build_statement f) in
        n ← asks (fun _ => node_at ir index);
        match opcode n with
        | VNT_IR_PROGRAM =>
            sequence index VNT_IR_EDGE_STATEMENT next break_target continue_target false
        | VNT_IR_IF =>
            cond ← asks (fun _ => child_role ir index VNT_IR_EDGE_CONDITION);
            if is_null cond then build_fails
            else
              yes ← sequence index VNT_IR_EDGE_THEN next break_target continue_target false;
              no ← sequence index VNT_IR_EDGE_ELSE next break_target continue_target false;
              block ← new_block VNT_CFG_BRANCH None cond yes no;
              mret (Some block)
        | VNT_IR_WHILE =>
            cond ← asks (fun _ => child_role ir index VNT_IR_EDGE_CONDITION);
            if is_null cond then build_fails
            else
              test ← new_block VNT_CFG_BRANCH None cond None next;
              body ← sequence index VNT_IR_EDGE_BODY (Some test) next (Some test) false;
              if is_null body then build_fails
              else
                _ ← set_true_successor test body;
                mret (Some test)
        | VNT_IR_RETURN =>
            exit ← gets (fun b => exit_block (b_cfg b));
            block ← new_block VNT_CFG_RETURN (Some index) None (Some exit) None;
            mret (Some block)
        | VNT_IR_BREAK =>
            if is_null break_target then build_fails
            else
              block ← new_block VNT_CFG_JUMP (Some index) None break_target None;
              mret (Some block)
        | VNT_IR_CONTINUE =>
            if is_null continue_target then build_fails
            else
              block ← new_block VNT_CFG_JUMP (Some index) None continue_target None;
              mret (Some block)
        | VNT_IR_FUNCTION | VNT_IR_STRUCT => mret next
        | _ =>
            block ← new_block VNT_CFG_FALLTHROUGH (Some index) None next None;
            mret (Some block)
        end
    end.

Definition build_fuel : nat := S (node_count ir).

(** [!b.failed && add_entry(cfg, entry)] *)
Definition add_entry (entry : option nat) : St Builder bool :=
  failed ← gets b_failed;
  match entry with
  | Some e =>
      if (failed : bool) then mret false
      else
        _ ← modify (fun b =>
              {| b_cfg := {| blocks := blocks (b_cfg b); entries := entries (b_cfg b) ++ [e];
                             exit_block := exit_block (b_cfg b) |};
                 b_failed := b_failed b |});
        mret true
  | None => mret false
  end.

(** The loop over the nodes: every function body is an entry. *)
Fixpoint build_functions (todo : nat) (i : nat) : St Builder bool :=
  match todo with
  | O => mret true
  | S todo =>
      n ← asks (fun _ => node_at ir i);
      if bool_decide (opcode n = VNT_IR_FUNCTION) then
        exit ← gets (fun b => exit_block (b_cfg b));
        entry ← build_sequence (build_statement build_fuel) i VNT_IR_EDGE_BODY (Some exit)
                  None None false;
        ok ← add_entry entry;
        if (ok : bool) then build_functions todo (S i) else mret false
      else build_functions todo (S i)
  end.
End build.

(** * Simplification *)

Definition jump_to (selected : option nat) : VntCfgBlock :=
  {| instruction := None; condition := None; true_successor := selected;
     false_successor := None; terminator := VNT_CFG_JUMP |}.

Definition simplify_block (ir : VntIrProgram) (block : VntCfgBlock) : outcome VntCfgBlock :=
  match terminator block, condition block with
  | VNT_CFG_BRANCH, Some c =>
      if node_count ir <=? c then Done block
      else
        n ← node_at ir c;
        if bool_decide (opcode n = VNT_IR_BOOLEAN) then
          b ← node_boolean n;
          mret (jump_to (if (b : bool) then true_successor block else false_successor block))
        else Done block
  | _, _ => Done block
  end.

Fixpoint simplify_blocks (ir : VntIrProgram) (bs : list VntCfgBlock) : outcome (list VntCfgBlock) :=
  match bs with
  | [] => Done []
  | block :: bs =>
      block ← simplify_block ir block;
      bs ← simplify_blocks ir bs;
      mret (block :: bs)
  end.

Definition simplify_constant_branches (ir : VntIrProgram) (cfg : VntCfg) : outcome VntCfg :=
  bs ← simplify_blocks ir (blocks cfg);
  mret (with_blocks bs cfg).

(** * Pruning *)

Definition read_bit (row : list bool) (i : nat) : outcome bool :=
  match row !! i with Some b => Done b | None => Fault end.

(** A block to visit: [None] is [return 0]; a block that is marked already is
    not pushed again. *)
Definition mark (reachable : list bool) (stack : list nat) (i : nat)
    : outcome (option (list bool * list nat)) :=
  if length reachable <=? i then Done None
  else
    seen ← read_bit reachable i;
    mret (Some (if (seen : bool) then (reachable, stack) else (<[i := true]> reachable, i :: stack))).

(** The blocks of a list are marked in order, the links that are not there left
    out. *)
Fixpoint mark_all (reachable : list bool) (stack : list nat) (links : list (option nat))
    : outcome (option (list bool * list nat)) :=
  match links with
  | [] => Done (Some (reachable, stack))
  | None :: links => mark_all reachable stack links
  | Some i :: links =>
      r ← mark reachable stack i;
      match r with
      | None => Done None
      | Some (reachable, stack) => mark_all reachable stack links
      end
  end.

Definition successors (block : VntCfgBlock) : list (option nat) :=
  [true_successor block; false_successor block].

(** [while (top)]: every block is pushed at most once. *)
Fixpoint mark_reachable (fuel : nat) (bs : list VntCfgBlock) (reachable : list bool)
    (stack : list nat) : outcome (option (list bool)) :=
  match stack with
  | [] => Done (Some reachable)
  | at_ :: stack =>
      match fuel with
      | O => Stuck
      | S f =>
          block ← (match bs !! at_ with Some block => Done block | None => Fault end);
          r ← mark_all reachable stack (successors block);
          match r with
          | None => Done None
          | Some (reachable, stack) => mark_reachable f bs reachable stack
          end
      end
  end.

(** The array [map]: the kept blocks are numbered from [kept]. *)
Fixpoint number_kept (reachable : list bool) (kept : nat) : list (option nat) :=
  match reachable with
  | [] => []
  | true :: reachable => Some kept :: number_kept reachable (S kept)
  | false :: reachable => None :: number_kept reachable kept
  end.

Definition read_map (m : list (option nat)) (i : nat) : outcome (option nat) :=
  match m !! i with Some j => Done j | None => Fault end.

(** [if (s != VNT_IR_NO_NODE) s = map[s]] *)
Definition remap (m : list (option nat)) (s : option nat) : outcome (option nat) :=
  match s with
  | None => Done None
  | Some s => read_map m s
  end.

(** The reachable blocks with their successors renumbered. *)
Fixpoint keep_blocks (m : list (option nat)) (reachable : list bool) (bs : list VntCfgBlock)
    : outcome (list VntCfgBlock) :=
  match reachable, bs with
  | r :: reachable, block :: bs =>
      if (r : bool) then
        yes ← remap m (true_successor block);
        no ← remap m (false_successor block);
        bs ← keep_blocks m reachable bs;
        mret ({| instruction := instruction block; condition := condition block;
                 true_successor := yes; false_successor := no;
                 terminator := terminator block |} :: bs)
      else keep_blocks m reachable bs
  | _, _ => Done []
  end.

(** [cfg->entries[i] = map[cfg->entries[i]]]. An entry is always kept; no value of the
    model stands for one that is not. *)
Fixpoint map_entries (m : list (option nat)) (es : list nat) : outcome (list nat) :=
  match es with
  | [] => Done []
  | e :: es =>
      j ← read_map m e;
      match j with
      | None => Fault
      | Some j =>
          es ← map_entries m es;
          mret (j :: es)
      end
  end.

Definition prune_unreachable_blocks (cfg : VntCfg) : outcome (option VntCfg) :=
  let count := block_count cfg in
  started ← mark_all (replicate count false) [] (map Some (entries cfg));
  match started with
  | None => Done None
  | Some (reachable, stack) =>
      marked ← mark_reachable (S count) (blocks cfg) reachable stack;
      match marked with
      | None => Done None
      | Some reachable =>
          let m := number_kept reachable 0 in
          if forallb negb reachable then Done None
          else
            exit ← read_map m (exit_block cfg);
            match exit with
            | None => Done None
            | Some exit =>
                bs ← keep_blocks m reachable (blocks cfg);
                es ← map_entries m (entries cfg);
                mret (Some {| blocks := bs; entries := es; exit_block := exit |})
            end
      end
  end.

(** * Validation *)

Definition link_ok (count : nat) (s : option nat) : bool :=
  match s with None => true | Some s => s <? count end.

Definition terminator_ok (exit i : nat) (b : VntCfgBlock) : bool :=
  match terminator b with
  | VNT_CFG_BRANCH =>
      negb (is_null (condition b)) && negb (is_null (true_successor b)) &&
      negb (is_null (false_successor b)) && is_null (instruction b)
  | VNT_CFG_EXIT =>
      (i =? exit) && is_null (instruction b) && is_null (condition b) &&
      is_null (true_successor b) && is_null (false_successor b)
  | VNT_CFG_RETURN =>
      negb (is_null (instruction b)) && is_null (condition b) &&
      bool_decide (true_successor b = Some exit) && is_null (false_successor b)
  | VNT_CFG_JUMP =>
      is_null (condition b) && negb (is_null (true_successor b)) && is_null (false_successor b)
  | VNT_CFG_FALLTHROUGH =>
      negb (is_null (instruction b)) && is_null (condition b) &&
      negb (is_null (true_successor b)) && is_null (false_successor b)
  end.

Definition validate_block (cfg : VntCfg) (i : nat) (b : VntCfgBlock) : bool :=
  link_ok (block_count cfg) (true_successor b) && link_ok (block_count cfg) (false_successor b) &&
  terminator_ok (exit_block cfg) i b.

Fixpoint validate_blocks (cfg : VntCfg) (i : nat) (bs : list VntCfgBlock) : bool :=
  match bs with
  | [] => true
  | b :: bs => validate_block cfg i b && validate_blocks cfg (S i) bs
  end.

Definition vnt_cfg_validate (cfg : VntCfg) : bool :=
  negb (block_count cfg =? 0) && (exit_block cfg <? block_count cfg) &&
  negb (length (entries cfg) =? 0) &&
  forallb (fun e => e <? block_count cfg) (entries cfg) &&
  validate_blocks cfg 0 (blocks cfg).

(** * The whole construction *)

Definition empty_cfg : VntCfg := {| blocks := []; entries := []; exit_block := 0 |}.

(** The part of vnt_cfg_build before the simplification: [None] is [goto fail]. *)
Definition build_graph (ir : VntIrProgram) (r : nat) : outcome (option VntCfg) :=
  let m : St Builder bool :=
    exit ← new_block VNT_CFG_EXIT None None None None;
    _ ← modify (fun b => {| b_cfg := {| blocks := blocks (b_cfg b); entries := entries (b_cfg b);
                                        exit_block := exit |};
                            b_failed := b_failed b |});
    main_entry ← build_sequence ir (build_statement ir (build_fuel ir)) r VNT_IR_EDGE_STATEMENT
                   (Some exit) None None true;
    ok ← add_entry main_entry;
    if (ok : bool) then build_functions ir (node_count ir) 0 else mret false in
  match m {| b_cfg := empty_cfg; b_failed := false |} with
  | Done (ok, b) => Done (if (ok : bool) then Some (b_cfg b) else None)
  | Fault => Fault
  | Stuck => Stuck
  end.

Definition vnt_cfg_build (ir : VntIrProgram) : outcome (option VntCfg) :=
  valid ← vnt_ir_validate ir;
  match root ir with
  | Some r =>
      if negb valid then Done None
      else
        built ← build_graph ir r;
        match built with
        | None => Done None
        | Some cfg =>
            cfg ← simplify_constant_branches ir cfg;
            pruned ← prune_unreachable_blocks cfg;
            mret (match pruned with
                  | Some cfg => if vnt_cfg_validate cfg then Some cfg else None
                  | None => None
                  end)
        end
  | None => Done None
  end.
