(* ===== verification/CfgTraces.v ===== *)
(** CfgTraces: what the statements of a HIR program do, as traces of the
    instructions executed and the conditions tested, and how the blocks of a
    graph encode a sequence of statements. The paths of the graph from the entry
    of a sequence to the exit block are the runs of the sequence.
    The first part: what vnt_cfg_validate accepts, and the edges of a graph. *)

From S2P Require Import Prelude Clib Ast Ir IrTrees IrFacts IrAccess Cfg.

(** * Edges *)

Definition edge (bs : list VntCfgBlock) (b s : nat) : Prop :=
  exists block, bs !! b = Some block /\ Some s ∈ successors block.

Definition edges_ok (bs : list VntCfgBlock) : Prop :=
  forall b s, edge bs b s -> s < length bs.

Lemma edge_source bs b s : edge bs b s -> b < length bs.
Proof. intros (block & Hb & _). by eapply lookup_lt_Some. Qed.

Lemma successors_in block s :
  Some s ∈ successors block <-> true_successor block = Some s \/ false_successor block = Some s.
Proof. unfold successors. rewrite elem_of_cons, list_elem_of_singleton. naive_solver. Qed.

(** * Validation *)

(** What a block may hold, by its terminator. *)
Definition terminates_ok (exit i : nat) (b : VntCfgBlock) : Prop :=
  match terminator b with
  | VNT_CFG_BRANCH =>
      (exists c, condition b = Some c) /\ (exists yes, true_successor b = Some yes) /\
      (exists no, false_successor b = Some no) /\ instruction b = None
  | VNT_CFG_EXIT =>
      i = exit /\ instruction b = None /\ condition b = None /\
      true_successor b = None /\ false_successor b = None
  | VNT_CFG_RETURN =>
      (exists r, instruction b = Some r) /\ condition b = None /\
      true_successor b = Some exit /\ false_successor b = None
  | VNT_CFG_JUMP =>
      condition b = None /\ (exists s, true_successor b = Some s) /\ false_successor b = None
  | VNT_CFG_FALLTHROUGH =>
      (exists r, instruction b = Some r) /\ condition b = None /\
      (exists s, true_successor b = Some s) /\ false_successor b = None
  end.

(** The block refers to nodes of the HIR. *)
Definition reference_ok (ir : VntIrProgram) (b : VntCfgBlock) : Prop :=
  (forall i, instruction b = Some i -> i < node_count ir) /\
  (forall c, condition b = Some c -> c < node_count ir).

Record cfg_valid (cfg : VntCfg) : Prop := {
  cv_exit : exit_block cfg < block_count cfg;
  cv_entry : entries cfg <> [];
  cv_entries : Forall (fun e => e < block_count cfg) (entries cfg);
  cv_edges : edges_ok (blocks cfg);
  cv_blocks : forall i b, blocks cfg !! i = Some b -> terminates_ok (exit_block cfg) i b
}.

Lemma is_null_true {A} (o : option A) : is_null o = true <-> o = None.
Proof. by destruct o. Qed.

Lemma is_null_false {A} (o : option A) : negb (is_null o) = true <-> exists a, o = Some a.
Proof. destruct o; cbn; naive_solver. Qed.

Lemma link_ok_spec count o : link_ok count o = true <-> forall i, o = Some i -> i < count.
Proof. unfold link_ok. destruct o as [i|]; [rewrite Nat.ltb_lt|]; naive_solver. Qed.

Lemma terminator_ok_spec exit i b : terminator_ok exit i b = true <-> terminates_ok exit i b.
Proof.
  unfold terminator_ok, terminates_ok. destruct (terminator b);
    rewrite ?andb_true_iff, ?is_null_true, ?is_null_false, ?bool_decide_eq_true, ?Nat.eqb_eq; tauto.
Qed.

Lemma validate_blocks_spec cfg bs : forall i,
  validate_blocks cfg i bs = true <-> forall k b, bs !! k = Some b -> validate_block cfg (i + k) b = true.
Proof.
  induction bs as [|b bs IH]; intros i; cbn [validate_blocks].
  - split; [|done]. intros _ k b. by rewrite lookup_nil.
  - rewrite andb_true_iff, IH. split.
    + intros [Hb Hbs] [|k] b' Hk; [injection Hk as <-; by rewrite Nat.add_0_r|].
      rewrite <- Nat.add_succ_comm. by apply Hbs.
    + intros H. split; [specialize (H 0 b eq_refl); by rewrite Nat.add_0_r in H|].
      intros k b' Hk. rewrite Nat.add_succ_comm. by apply (H (S k)).
Qed.

Lemma validate_block_spec cfg i b :
  validate_block cfg i b = true <->
  (forall s, Some s ∈ successors b -> s < block_count cfg) /\ terminates_ok (exit_block cfg) i b.
Proof.
  unfold validate_block. rewrite !andb_true_iff, !link_ok_spec, terminator_ok_spec.
  setoid_rewrite successors_in. naive_solver.
Qed.

Lemma vnt_cfg_validate_spec cfg : vnt_cfg_validate cfg = true <-> cfg_valid cfg.
Proof.
  unfold vnt_cfg_validate. rewrite !andb_true_iff, !negb_true_iff, !Nat.eqb_neq, Nat.ltb_lt.
  rewrite forallb_forall, validate_blocks_spec. setoid_rewrite validate_block_spec.
  setoid_rewrite Nat.ltb_lt. split.
  - intros [[[[H1 H2] H3] H4] H5]. constructor; [done| | | |].
    + intros E; by rewrite E in H3.
    + apply Forall_forall. intros e He. by apply H4, list_elem_of_In.
    + intros i s (b & Hb & Hs). by apply (H5 i b Hb).
    + intros i b Hb. by apply (H5 i b Hb).
  - intros [H1 H2 H3 H4 H5]. split_and!; [lia|done|by destruct (entries cfg)| |].
    + intros e He. rewrite Forall_forall in H3. by apply H3, list_elem_of_In.
    + intros i b Hb. split; [|by apply H5]. intros s Hs. apply (H4 i). by exists b.
Qed.

(** * Runs of statements *)

(** Instruction [i] is executed, or the condition [c] is tested with result [b]. *)
Inductive event : Type :=
  | Executes (i : nat)
  | Tests (c : nat) (b : bool).

(** How a run of a statement ends. *)
Inductive ending : Set := Falls | Breaks | Continues | Returns.

#[export] Instance ending_eq_dec : EqDecision ending.
Proof. solve_decision. Defined.

(** A statement that is one instruction. *)
Definition ending_of (op : VntIrOpcode) : option ending :=
  match op with
  | VNT_IR_PROGRAM | VNT_IR_IF | VNT_IR_WHILE | VNT_IR_FUNCTION | VNT_IR_STRUCT => None
  | VNT_IR_RETURN => Some Returns
  | VNT_IR_BREAK => Some Breaks
  | VNT_IR_CONTINUE => Some Continues
  | _ => Some Falls
  end.

(** The children of node [i] in role [r], in order. *)
Definition children_in (ir : VntIrProgram) (i : nat) (r : VntIrEdgeRole) (l : list nat) : Prop :=
  exists n cs, nodes ir !! i = Some n /\ chain ir (first_child n) cs /\
    l = filter (fun c => role_at ir c = r) cs.

Definition opcode_at (ir : VntIrProgram) (i : nat) (op : VntIrOpcode) : Prop :=
  exists n, nodes ir !! i = Some n /\ opcode n = op.

(** The runs of a statement and of a sequence. Either branch may be taken: the
    values of conditions are not part of this semantics. *)
Inductive runs (ir : VntIrProgram) : nat -> list event -> ending -> Prop :=
  | runs_one i op o :
      opcode_at ir i op -> ending_of op = Some o -> runs ir i [Executes i] o
  | runs_definition i op : opcode_at ir i op -> is_definition op = true -> runs ir i [] Falls
  | runs_program i l t o :
      opcode_at ir i VNT_IR_PROGRAM -> children_in ir i VNT_IR_EDGE_STATEMENT l ->
      runs_all ir l t o -> runs ir i t o
  | runs_if i c (b : bool) l t o :
      opcode_at ir i VNT_IR_IF -> children_in ir i VNT_IR_EDGE_CONDITION [c] ->
      children_in ir i (if b then VNT_IR_EDGE_THEN else VNT_IR_EDGE_ELSE) l ->
      runs_all ir l t o -> runs ir i (Tests c b :: t) o
  | runs_while_end i c :
      opcode_at ir i VNT_IR_WHILE -> children_in ir i VNT_IR_EDGE_CONDITION [c] ->
      runs ir i [Tests c false] Falls
  | runs_while_again i c l t t' o o' :
      opcode_at ir i VNT_IR_WHILE -> children_in ir i VNT_IR_EDGE_CONDITION [c] ->
      children_in ir i VNT_IR_EDGE_BODY l -> runs_all ir l t o -> o = Falls \/ o = Continues ->
      runs ir i t' o' -> runs ir i (Tests c true :: t ++ t') o'
  | runs_while_left i c l t o :
      opcode_at ir i VNT_IR_WHILE -> children_in ir i VNT_IR_EDGE_CONDITION [c] ->
      children_in ir i VNT_IR_EDGE_BODY l -> runs_all ir l t o -> o = Breaks \/ o = Returns ->
      runs ir i (Tests c true :: t) (if decide (o = Breaks) then Falls else o)
with runs_all (ir : VntIrProgram) : list nat -> list event -> ending -> Prop :=
  | runs_nil : runs_all ir [] [] Falls
  | runs_cons i l t t' o :
      runs ir i t Falls -> runs_all ir l t' o -> runs_all ir (i :: l) (t ++ t') o
  | runs_stop i l t o : runs ir i t o -> o <> Falls -> runs_all ir (i :: l) t o.

Scheme runs_min := Minimality for runs Sort Prop
  with runs_all_min := Minimality for runs_all Sort Prop.
Combined Scheme runs_mutual from runs_min, runs_all_min.

(** * Paths of a graph *)

(** What passing through a block to [s] does. *)
Definition emits (block : VntCfgBlock) (s : nat) (es : list event) : Prop :=
  match condition block with
  | Some c => exists b : bool,
      (if b then true_successor block else false_successor block) = Some s /\ es = [Tests c b]
  | None => true_successor block = Some s /\
      es = match instruction block with Some i => [Executes i] | None => [] end
  end.

(** A path of [k] steps. *)
Inductive path (bs : list VntCfgBlock) : nat -> nat -> list event -> nat -> Prop :=
  | path_here b : path bs 0 b [] b
  | path_step k b block es s t b' :
      bs !! b = Some block -> emits block s es -> path bs k s t b' ->
      path bs (S k) b (es ++ t) b'.

Lemma path_one bs b block es s : bs !! b = Some block -> emits block s es -> path bs 1 b es s.
Proof.
  intros Hb He. rewrite <- (app_nil_r es). eapply path_step; [done..|]. apply path_here.
Qed.

Lemma path_app bs k1 k2 b t1 m t2 b' :
  path bs k1 b t1 m -> path bs k2 m t2 b' -> path bs (k1 + k2) b (t1 ++ t2) b'.
Proof.
  induction 1 as [|k b block es s t m Hb He _ IH]; intros H2; [done|].
  rewrite <- app_assoc. cbn. eapply path_step; eauto.
Qed.

(** * Encoding *)

(** Where control goes after a statement: [loop] has the targets of break and of
    continue, if there is a loop. *)
Definition target (exit next : nat) (loop : option (nat * nat)) (o : ending) : option nat :=
  match o with
  | Falls => Some next
  | Breaks => fst <$> loop
  | Continues => snd <$> loop
  | Returns => Some exit
  end.

(** The blocks of [bs] from [lo] on, with entry [e], encode statement [i] that is
    followed by [next]. *)
Inductive encodes (ir : VntIrProgram) (bs : list VntCfgBlock) (exit : nat) :
    nat -> nat -> nat -> nat -> option (nat * nat) -> Prop :=
  | encodes_one lo i op o e block next loop s :
      opcode_at ir i op -> ending_of op = Some o -> target exit next loop o = Some s ->
      lo <= e -> bs !! e = Some block -> instruction block = Some i -> condition block = None ->
      true_successor block = Some s -> encodes ir bs exit lo i e next loop
  | encodes_definition lo i op next loop :
      opcode_at ir i op -> is_definition op = true -> encodes ir bs exit lo i next next loop
  | encodes_program lo i l e next loop :
      opcode_at ir i VNT_IR_PROGRAM -> children_in ir i VNT_IR_EDGE_STATEMENT l ->
      encodes_all ir bs exit lo l e next loop -> encodes ir bs exit lo i e next loop
  | encodes_if lo i c yes no l1 l2 e block next loop :
      opcode_at ir i VNT_IR_IF -> children_in ir i VNT_IR_EDGE_CONDITION [c] ->
      lo <= e -> bs !! e = Some block -> condition block = Some c ->
      true_successor block = Some yes -> false_successor block = Some no ->
      children_in ir i VNT_IR_EDGE_THEN l1 -> encodes_all ir bs exit lo l1 yes next loop ->
      children_in ir i VNT_IR_EDGE_ELSE l2 -> encodes_all ir bs exit lo l2 no next loop ->
      encodes ir bs exit lo i e next loop
  | encodes_while lo i c body l e block next loop :
      opcode_at ir i VNT_IR_WHILE -> children_in ir i VNT_IR_EDGE_CONDITION [c] ->
      lo <= e -> bs !! e = Some block -> condition block = Some c ->
      true_successor block = Some body -> false_successor block = Some next ->
      children_in ir i VNT_IR_EDGE_BODY l ->
      encodes_all ir bs exit (S e) l body e (Some (next, e)) ->
      encodes ir bs exit lo i e next loop
with encodes_all (ir : VntIrProgram) (bs : list VntCfgBlock) (exit : nat) :
    nat -> list nat -> nat -> nat -> option (nat * nat) -> Prop :=
  | encodes_nil lo next loop : encodes_all ir bs exit lo [] next next loop
  | encodes_cons lo i l e m next loop :
      encodes ir bs exit lo i e m loop -> encodes_all ir bs exit lo l m next loop ->
      encodes_all ir bs exit lo (i :: l) e next loop.

Scheme encodes_min := Minimality for encodes Sort Prop
  with encodes_all_min := Minimality for encodes_all Sort Prop.
Combined Scheme encodes_mutual from encodes_min, encodes_all_min.

Lemma children_det ir i r l1 l2 : children_in ir i r l1 -> children_in ir i r l2 -> l1 = l2.
Proof.
  intros (n1 & c1 & H1 & Hc1 & ->) (n2 & c2 & H2 & Hc2 & ->). rewrite H1 in H2. injection H2 as <-.
  by rewrite (chain_det _ _ _ Hc1 _ Hc2).
Qed.

Lemma opcode_det ir i op1 op2 : opcode_at ir i op1 -> opcode_at ir i op2 -> op1 = op2.
Proof. intros (n1 & H1 & <-) (n2 & H2 & <-). congruence. Qed.

(** The encoding is in the blocks from [lo] on only. *)
Lemma encodes_agree ir bs bs' exit :
  (forall lo i e next loop, encodes ir bs exit lo i e next loop -> forall lo', lo' <= lo ->
    (forall j block, lo <= j -> bs !! j = Some block -> bs' !! j = Some block) ->
    encodes ir bs' exit lo' i e next loop) /\
  (forall lo l e next loop, encodes_all ir bs exit lo l e next loop -> forall lo', lo' <= lo ->
    (forall j block, lo <= j -> bs !! j = Some block -> bs' !! j = Some block) ->
    encodes_all ir bs' exit lo' l e next loop).
Proof.
  apply (encodes_mutual ir bs exit); intros.
  - eapply encodes_one; eauto with lia.
  - by eapply encodes_definition.
  - eapply encodes_program; eauto.
  - eapply encodes_if; eauto with lia.
  - eapply encodes_while; eauto with lia.
  - apply encodes_nil.
  - eapply encodes_cons; eauto.
Qed.

(** * Runs are paths *)

Section simulation.
Context (ir : VntIrProgram) (bs : list VntCfgBlock) (exit : nat).
Local Abbreviation Path := (fun e t s => exists k, path bs k e t s).

(** From the entry to the target of the ending. *)
Definition leads (e next : nat) (loop : option (nat * nat)) (t : list event) (o : ending) : Prop :=
  exists s k, target exit next loop o = Some s /\ path bs k e t s.

Lemma leads_step e block s es next loop t o :
  bs !! e = Some block -> emits block s es -> leads s next loop t o -> leads e next loop (es ++ t) o.
Proof. intros Hb He (s' & k & Ht & Hp). exists s', (S k). split; [done|]. by eapply path_step. Qed.

Lemma leads_app e m next loop loop' t t' o o' :
  target exit m loop o = Some m -> leads e m loop t o -> leads m next loop' t' o' ->
  leads e next loop' (t ++ t') o'.
Proof.
  intros Hm (s & k & Hs & Hp) (s' & k' & Hs' & Hp'). rewrite Hm in Hs. injection Hs as <-.
  exists s', (k + k'). split; [done|]. by eapply path_app.
Qed.

Lemma emits_test block c (b : bool) s :
  condition block = Some c -> (if b then true_successor block else false_successor block) = Some s ->
  emits block s [Tests c b].
Proof. intros Hc Hs. unfold emits. rewrite Hc. by exists b. Qed.

Ltac same_opcode :=
  repeat match goal with
  | H1 : opcode_at ir ?i ?op1, H2 : opcode_at ir ?i ?op2 |- _ =>
      pose proof (opcode_det _ _ _ _ H1 H2); clear H2; try subst op1; try subst op2; try discriminate
  | H1 : children_in ir ?i ?r ?l1, H2 : children_in ir ?i ?r ?l2 |- _ =>
      pose proof (children_det _ _ _ _ _ H1 H2); clear H2; simplify_eq
  end.

Ltac no_definition := try match goal with H : is_definition ?op = true |- _ => by destruct op end.

Lemma runs_lead :
  (forall i t o, runs ir i t o -> forall lo e next loop,
    encodes ir bs exit lo i e next loop -> leads e next loop t o) /\
  (forall l t o, runs_all ir l t o -> forall lo e next loop,
    encodes_all ir bs exit lo l e next loop -> leads e next loop t o).
Proof.
  apply (runs_mutual ir).
  - intros i op o Hop Ho lo e next loop He. inversion He; subst; same_opcode; simplify_eq; no_definition.
    eexists _, 1. split; [done|]. eapply path_one; [done|]. unfold emits. by simplify_option_eq.
  - intros i op Hop Hd lo e next loop He. inversion He; subst; same_opcode; no_definition.
    eexists _, 0. split; [done|]. constructor.
  - intros i l t o Hop Hl _ IH lo e next loop He. inversion He; subst; same_opcode. by eapply IH.
  - intros i c b l t o Hop Hc Hl _ IH lo e next loop He. inversion He; subst; same_opcode.
    destruct b; same_opcode; (eapply (leads_step _ _ _ [_]); [done|by eapply emits_test|by eapply IH]).
  - intros i c Hop Hc lo e next loop He. inversion He; subst; same_opcode.
    eexists _, 1. split; [done|]. eapply path_one; [done|]. by eapply emits_test.
  - intros i c l t t' o o' Hop Hc Hl _ IH Ho _ IH' lo e next loop He.
    pose proof (IH' _ _ _ _ He) as Hlead. inversion He; subst; same_opcode.
    eapply (leads_step _ _ _ [_]); [done|by eapply emits_test|].
    eapply leads_app; [|by eapply IH|done]. by destruct Ho as [-> | ->].
  - intros i c l t o Hop Hc Hl _ IH Ho lo e next loop He. inversion He; subst; same_opcode.
    eapply (leads_step _ _ _ [_]); [done|by eapply emits_test|].
    edestruct IH as (s & k & Hs & Hp); [done|]. exists s, k. split; [|done].
    by destruct Ho as [-> | ->].
  - intros lo e next loop He. inversion He; subst. eexists _, 0. split; [done|constructor].
  - intros i l t t' o _ IH _ IH' lo e next loop He. inversion He; subst.
    eapply leads_app; [|by eapply IH|by eapply IH']. done.
  - intros i l t o _ IH Ho lo e next loop He. inversion He; subst.
    edestruct IH as (s & k & Hs & Hp); [done|]. exists s, k. split; [|done]. by destruct o.
Qed.
End simulation.

(** * Paths are runs *)

Section inversion.
Context (ir : VntIrProgram) (bs : list VntCfgBlock) (exit : nat).
Hypothesis exit_stops : forall block s es, bs !! exit = Some block -> ~ emits block s es.

(** A path to the exit block starts with a run that leads to its target. *)
Definition splits (k next : nat) (loop : option (nat * nat)) (t : list event)
    (run : list event -> ending -> Prop) : Prop :=
  exists t1 t2 o s k', t = t1 ++ t2 /\ run t1 o /\ target exit next loop o = Some s /\
    path bs k' s t2 exit /\ k' <= k.

Lemma path_inv k e block t :
  bs !! e = Some block -> (exists s es, emits block s es) -> path bs k e t exit ->
  exists k' es s t', k = S k' /\ emits block s es /\ t = es ++ t' /\ path bs k' s t' exit.
Proof.
  intros Hb (s0 & es0 & He) Hp. inversion Hp as [|k' ? block' es s t' ? Hb' He' Hp']; subst.
  - by destruct (exit_stops block s0 es0).
  - rewrite Hb in Hb'. injection Hb' as <-. eauto 10.
Qed.

(** The case of a loop: its body, and the loop again on a shorter path. *)
Lemma splits_while j t i c body l e block next loop :
  opcode_at ir i VNT_IR_WHILE -> children_in ir i VNT_IR_EDGE_CONDITION [c] ->
  bs !! e = Some block -> condition block = Some c -> true_successor block = Some body ->
  false_successor block = Some next -> children_in ir i VNT_IR_EDGE_BODY l ->
  (forall k t, k < j -> path bs k body t exit -> splits k e (Some (next, e)) t (runs_all ir l)) ->
  (forall k t, k < j -> path bs k e t exit -> splits k next loop t (runs ir i)) ->
  path bs j e t exit -> splits j next loop t (runs ir i).
Proof.
  intros Hop Hc Hb Hcond Hy Hn Hl IH Hagain Hp.
  destruct (path_inv j e block t Hb) as (j' & es & s' & t' & -> & He' & -> & Hp'); [|done|].
  { exists body, [Tests c true]. by apply emits_test. }
  unfold emits in He'. rewrite Hcond in He'. destruct He' as ([] & Hs & ->).
  - rewrite Hy in Hs. injection Hs as <-.
    destruct (IH j' t') as (t1 & t2 & o & s & k' & -> & Hr & Ht & Hp2 & Hk); [lia|done|].
    assert ((o = Falls \/ o = Continues) \/ (o = Breaks \/ o = Returns)) as [Ho|Ho]
      by (destruct o; tauto).
    + assert (s = e) as -> by (destruct Ho as [-> | ->]; by injection Ht as <-).
      destruct (Hagain k' t2) as (t3 & t4 & o' & s' & k2 & -> & Hr' & Ht' & Hp3 & Hk2); [lia|done|].
      exists (Tests c true :: t1 ++ t3), t4, o', s', k2. cbn. rewrite <- app_assoc.
      split_and!; [done|by eapply runs_while_again|done|done|lia].
    + exists (Tests c true :: t1), t2, (if decide (o = Breaks) then Falls else o), s, k'.
      split_and!; [done|by eapply runs_while_left| |done|lia]. by destruct Ho as [-> | ->].
  - rewrite Hn in Hs. injection Hs as <-.
    exists [Tests c false], t', Falls, next, j'. split_and!; [done| |done|done|lia].
    by apply runs_while_end.
Qed.

Lemma paths_run_step k :
  (forall k', k' < k -> forall lo i e next loop, encodes ir bs exit lo i e next loop ->
     forall t, path bs k' e t exit -> splits k' next loop t (runs ir i)) ->
  (forall lo i e next loop, encodes ir bs exit lo i e next loop ->
     forall j t, j <= k -> path bs j e t exit -> splits j next loop t (runs ir i)) /\
  (forall lo l e next loop, encodes_all ir bs exit lo l e next loop ->
     forall j t, j <= k -> path bs j e t exit -> splits j next loop t (runs_all ir l)).
Proof.
  intros Hind. apply (encodes_mutual ir bs exit).
  - intros lo i op o e block next loop s Hop Ho Ht Hlo Hb Hi Hc Hs j t Hj Hp.
    assert (emits block s [Executes i]) as He by (unfold emits; by rewrite Hc, Hi).
    destruct (path_inv _ _ _ _ Hb (ex_intro _ _ (ex_intro _ _ He)) Hp)
      as (j' & es & s' & t' & -> & He' & -> & Hp').
    unfold emits in He'. rewrite Hc, Hi, Hs in He'. destruct He' as [[= <-] ->].
    exists [Executes i], t', o, s, j'. split_and!; [done|by eapply runs_one|done|done|lia].
  - intros lo i op next loop Hop Hd j t Hj Hp. exists [], t, Falls, next, j.
    split_and!; [done|by eapply runs_definition|done|done|lia].
  - intros lo i l e next loop Hop Hl _ IH j t Hj Hp.
    destruct (IH j t Hj Hp) as (t1 & t2 & o & s & k' & ? & ? & ?).
    exists t1, t2, o, s, k'. split; [done|]. split; [by eapply runs_program|done].
  - intros lo i c yes no l1 l2 e block next loop Hop Hc Hlo Hb Hcond Hy Hn Hl1 _ IH1 Hl2 _ IH2 j t Hj Hp.
    destruct (path_inv j e block t Hb) as (j' & es & s' & t' & -> & He' & -> & Hp'); [|done|].
    { exists yes, [Tests c true]. by apply emits_test. }
    unfold emits in He'. rewrite Hcond in He'. destruct He' as (b & Hs & ->).
    assert (splits j' next loop t' (runs_all ir (if b then l1 else l2))) as Hsplit.
    { destruct b; [rewrite Hy in Hs|rewrite Hn in Hs]; injection Hs as ->.
      - apply IH1; [lia|done].
      - apply IH2; [lia|done]. }
    destruct Hsplit as (t1 & t2 & o & s & k' & -> & Hr & Ht & Hp2 & Hk).
    exists (Tests c b :: t1), t2, o, s, k'. split_and!; [done| |done|done|lia].
    eapply runs_if; [done..| |done]. by destruct b.
  - intros lo i c body l e block next loop Hop Hc Hlo Hb Hcond Hy Hn Hl Hbody IH j t Hj Hp.
    assert (encodes ir bs exit lo i e next loop) as Henc by (by eapply encodes_while).
    eapply (splits_while j); try done.
    + intros k' t' Hk'. apply IH. lia.
    + intros k' t' Hk' Hp'. eapply Hind; [|exact Henc|exact Hp']. lia.
  - intros lo next loop j t Hj Hp. exists [], t, Falls, next, j.
    split_and!; [done|constructor|done|done|lia].
  - intros lo i l e m next loop _ IH _ IHl j t Hj Hp.
    destruct (IH j t Hj Hp) as (t1 & t2 & o & s & k' & -> & Hr & Ht & Hp2 & Hk).
    destruct (decide (o = Falls)) as [->|Ho].
    + injection Ht as <-. destruct (IHl k' t2) as (t3 & t4 & o & s & k2 & -> & Hr2 & Ht2 & Hp3 & Hk2); [lia|done|].
      exists (t1 ++ t3), t4, o, s, k2. rewrite app_assoc. split_and!; [done|by eapply runs_cons|done|done|lia].
    + exists t1, t2, o, s, k'. split_and!; [done|by apply runs_stop| |done|done]. by destruct o.
Qed.

Lemma paths_run lo l e next loop k t :
  encodes_all ir bs exit lo l e next loop -> path bs k e t exit -> splits k next loop t (runs_all ir l).
Proof.
  intros He Hp. enough (forall k', k' < S k -> forall lo i e next loop, encodes ir bs exit lo i e next loop ->
    forall t, path bs k' e t exit -> splits k' next loop t (runs ir i)) as H.
  { eapply (paths_run_step k) with (j := k); [|exact He|lia|done]. eauto with lia. }
  induction (S k) as [|n IH]; intros k' Hk; [lia|]. intros lo' i e' next' loop' Henc t' Hp'.
  eapply (paths_run_step k') with (j := k'); [|exact Henc|lia|done]. intros k2 Hk2. apply IH. lia.
Qed.
End inversion.

(** The body of a function, or the statements of the program: the paths from the
    entry to the exit block are the runs that end. *)
Definition ends (o : ending) : Prop := o = Falls \/ o = Returns.

Lemma encodes_paths ir bs exit lo l e t :
  (forall block s es, bs !! exit = Some block -> ~ emits block s es) ->
  encodes_all ir bs exit lo l e exit None ->
  (exists k, path bs k e t exit) <-> exists o, ends o /\ runs_all ir l t o.
Proof.
  intros Hexit He. split.
  - intros (k & Hp). destruct (paths_run ir bs exit Hexit _ _ _ _ _ _ _ He Hp)
      as (t1 & t2 & o & s & k' & -> & Hr & Ht & Hp2 & _). exists o.
    assert (s = exit /\ ends o) as [-> Ho] by (destruct o; cbn in Ht; simplify_eq; unfold ends; auto).
    inversion Hp2 as [|? ? block es s t ? Hb Hem]; subst; [by rewrite app_nil_r|].
    by destruct (Hexit block s es).
  - intros (o & Ho & Hr). destruct (proj2 (runs_lead ir bs exit) _ _ _ Hr _ _ _ _ He) as (s & k & Hs & Hp).
    exists k. by destruct Ho as [-> | ->]; injection Hs as ->.
Qed.
