(* ===== verification/CfgBuild.v ===== *)
(** CfgBuild: the construction of control-flow graphs. Building a statement adds
    blocks that encode it, and fails exactly when it has a break or a continue
    that no loop encloses. *)

From S2P Require Import Prelude Clib Ast Ir IrTrees IrFacts IrAccess Cfg CfgTraces.

(** * Children *)

Lemma children_of ir i n l r : nodes ir !! i = Some n -> chain ir (first_child n) l ->
  children_in ir i r (filter (fun c => role_at ir c = r) l).
Proof. intros Hn Hc. by exists n, l. Qed.

Lemma first_in_role_head ir r l : first_in_role ir r l = head (filter (fun c => role_at ir c = r) l).
Proof.
  unfold first_in_role. induction l as [|c l IH]; [done|]. rewrite filter_cons. cbn [find].
  case_bool_decide; [by rewrite decide_True|by rewrite decide_False].
Qed.

Lemma count_role_filter ir r l :
  count_role r (map (role_at ir) l) = length (filter (fun c => role_at ir c = r) l).
Proof.
  unfold count_role. induction l as [|c l IH]; [done|]. rewrite filter_cons. cbn [map].
  rewrite filter_cons. destruct (decide (role_at ir c = r)); cbn; by rewrite ?IH.
Qed.

(** The condition of an if or a while. *)
Lemma condition_child ir i n l : nodes ir !! i = Some n -> chain ir (first_child n) l -> NoDup l ->
  roles_ok (opcode n) (map (role_at ir) l) -> opcode n = VNT_IR_IF \/ opcode n = VNT_IR_WHILE ->
  exists c, children_in ir i VNT_IR_EDGE_CONDITION [c] /\ c < node_count ir /\
    child_role ir i VNT_IR_EDGE_CONDITION = Done (Some c).
Proof.
  intros Hn Hc Hd Hr Hop.
  assert (count_role VNT_IR_EDGE_CONDITION (map (role_at ir) l) = 1) as H1
    by (destruct Hop as [E|E]; rewrite E in Hr; by destruct Hr).
  rewrite count_role_filter in H1. pose proof (children_of ir i n l VNT_IR_EDGE_CONDITION Hn Hc) as Hch.
  destruct (filter _ l) as [|c [|? ?]] eqn:E; try done. exists c. split_and!; [done| |].
  - eapply chain_in_range; [done|]. assert (c ∈ filter (fun c => role_at ir c = VNT_IR_EDGE_CONDITION) l) as Hin
      by (rewrite E; left). by apply list_elem_of_filter in Hin as [_ Hin].
  - unfold child_role. destruct (Nat.leb_spec (node_count ir) i) as [H|_].
    { apply lookup_lt_Some in Hn. unfold node_count in H. lia. }
    rewrite (node_at_done _ _ _ Hn). cbn [mbind outcome_bind].
    by rewrite (find_role_spec _ _ _ _ Hc Hd), first_in_role_head, E.
Qed.

(** The items that build_sequence collects. *)
Definition kept (ir : VntIrProgram) (skip : bool) (c : nat) : bool :=
  negb (skip && match nodes ir !! c with Some n => is_definition (opcode n) | None => false end).

Lemma sequence_items_spec ir i n l r skip : nodes ir !! i = Some n -> chain ir (first_child n) l ->
  NoDup l ->
  sequence_items ir i r skip =
  Done (filter (fun c => kept ir skip c = true) (filter (fun c => role_at ir c = r) l)).
Proof.
  intros Hn Hc Hd. unfold sequence_items. rewrite (node_at_done _ _ _ Hn). cbn [mbind outcome_bind].
  assert (returns (fold_siblings (sibling_fuel ir) ir (fun c items =>
    child ← node_at ir c;
    mret (if negb (bool_decide (role child = r)) then items
          else if skip && is_definition (opcode child) then items
          else items ++ [c])) (first_child n) [])
    (fun items => items =
       filter (fun c => kept ir skip c = true) (filter (fun c => role_at ir c = r) ([] ++ l)))) as H.
  { apply (fold_siblings_spec ir _ _ _ (fun done items => items =
      filter (fun c => kept ir skip c = true) (filter (fun c => role_at ir c = r) done)) Hc).
    - intros c done items Hin ->. pose proof (chain_in_range _ _ _ _ Hc Hin) as Hcr.
      destruct (lookup_lt_is_Some_2 _ _ Hcr) as [m Hm]. rewrite (node_at_done _ _ _ Hm).
      cbn [mbind outcome_bind mret outcome_ret returns]. rewrite filter_app, filter_app.
      rewrite filter_cons, (role_at_node _ _ _ Hm). case_bool_decide as Hr; cbn [negb].
      + rewrite decide_True by done. rewrite filter_cons.
        assert (kept ir skip c = negb (skip && is_definition (opcode m))) as Hk
          by (unfold kept; by rewrite Hm).
        destruct (skip && is_definition (opcode m)); cbn [negb] in Hk; rewrite Hk.
        * by rewrite decide_False, filter_nil, app_nil_r.
        * by rewrite decide_True.
      + rewrite decide_False by done. by rewrite !filter_nil, app_nil_r.
    - done.
    - by eapply chain_fuel. }
  apply returns_done in H as (items & -> & ->). done.
Qed.

(** * What building gives *)

Section build.
Context (ir : VntIrProgram).

(** A break or a continue in the statement that no loop of it encloses. *)
Inductive stray : nat -> Prop :=
  | stray_jump i op :
      opcode_at ir i op -> op = VNT_IR_BREAK \/ op = VNT_IR_CONTINUE -> stray i
  | stray_inside i op r l c :
      opcode_at ir i op ->
      (op = VNT_IR_PROGRAM /\ r = VNT_IR_EDGE_STATEMENT) \/
      (op = VNT_IR_IF /\ (r = VNT_IR_EDGE_THEN \/ r = VNT_IR_EDGE_ELSE)) ->
      children_in ir i r l -> c ∈ l -> stray c -> stray i.

(** The blocks from [lo] on are as vnt_cfg_validate wants them. *)
Definition new_ok (exit lo : nat) (bs : list VntCfgBlock) : Prop :=
  forall j block, lo <= j -> bs !! j = Some block ->
    (forall s, Some s ∈ successors block -> s < length bs) /\
    terminates_ok exit j block /\ reference_ok ir block.

(** Blocks are only added. *)
Record grows (b b' : Builder) : Prop := {
  grows_exit : exit_block (b_cfg b') = exit_block (b_cfg b);
  grows_entries : entries (b_cfg b') = entries (b_cfg b);
  grows_count : length (blocks (b_cfg b)) <= length (blocks (b_cfg b'));
  grows_blocks : forall j block,
    blocks (b_cfg b) !! j = Some block -> blocks (b_cfg b') !! j = Some block
}.

Lemma grows_refl b : grows b b.
Proof. by constructor. Qed.

Lemma grows_trans b1 b2 b3 : grows b1 b2 -> grows b2 b3 -> grows b1 b3.
Proof. intros [? ? ? H1] [? ? ? H2]. constructor; [congruence|congruence|lia|eauto]. Qed.

Lemma new_ok_trans exit lo b1 b2 : grows b1 b2 ->
  new_ok exit lo (blocks (b_cfg b1)) ->
  new_ok exit (length (blocks (b_cfg b1))) (blocks (b_cfg b2)) ->
  new_ok exit lo (blocks (b_cfg b2)).
Proof.
  intros [_ _ Hlen Hblocks] H1 H2 j block Hj Hb.
  destruct (decide (j < length (blocks (b_cfg b1)))) as [Hlt|Hge]; [|apply H2; [lia|done]].
  destruct (lookup_lt_is_Some_2 _ _ Hlt) as [block' Hb']. pose proof (Hblocks _ _ Hb'). simplify_eq.
  destruct (H1 j block Hj Hb') as (Hs & Ht & Hr). split_and!; [|done..].
  intros s Hin. pose proof (Hs s Hin). lia.
Qed.

Lemma new_ok_none exit bs : new_ok exit (length bs) bs.
Proof. intros j block Hj Hb. apply lookup_lt_Some in Hb. lia. Qed.

Lemma grows_encodes b b' exit lo i e next loop : grows b b' ->
  encodes ir (blocks (b_cfg b)) exit lo i e next loop ->
  encodes ir (blocks (b_cfg b')) exit lo i e next loop.
Proof. intros Hg He. eapply encodes_agree; [exact He|done|]. intros j block _. apply Hg. Qed.

Lemma grows_encodes_all b b' exit lo l e next loop : grows b b' ->
  encodes_all ir (blocks (b_cfg b)) exit lo l e next loop ->
  encodes_all ir (blocks (b_cfg b')) exit lo l e next loop.
Proof. intros Hg He. eapply encodes_agree; [exact He|done|]. intros j block _. apply Hg. Qed.

Lemma encodes_all_lower bs exit lo lo' l e next loop : lo' <= lo ->
  encodes_all ir bs exit lo l e next loop -> encodes_all ir bs exit lo' l e next loop.
Proof. intros Hlo He. by eapply encodes_agree. Qed.

Lemma encodes_lower bs exit lo lo' i e next loop : lo' <= lo ->
  encodes ir bs exit lo i e next loop -> encodes ir bs exit lo' i e next loop.
Proof. intros Hlo He. by eapply encodes_agree. Qed.

Lemma encodes_all_app bs exit lo l1 l2 e m next loop :
  encodes_all ir bs exit lo l1 e m loop -> encodes_all ir bs exit lo l2 m next loop ->
  encodes_all ir bs exit lo (l1 ++ l2) e next loop.
Proof.
  revert e. induction l1 as [|i l1 IH]; intros e H1 H2; inversion H1; subst; [done|].
  eapply encodes_cons; eauto.
Qed.

(** Leaving out definitions does not matter. *)
Lemma encodes_all_skip bs exit lo l skip e next loop :
  encodes_all ir bs exit lo (filter (fun c => kept ir skip c = true) l) e next loop ->
  encodes_all ir bs exit lo l e next loop.
Proof.
  revert e. induction l as [|c l IH]; intros e; [done|]. rewrite filter_cons. case_decide as Hk.
  - intros H. inversion H; subst. eapply encodes_cons; eauto.
  - intros H. eapply encodes_cons; [|by apply IH]. unfold kept in Hk.
    destruct (nodes ir !! c) as [n|] eqn:Hn; [|by rewrite andb_false_r in Hk].
    destruct (is_definition (opcode n)) eqn:Hd; [|by rewrite andb_false_r in Hk].
    eapply encodes_definition; [by exists n|done].
Qed.

(** The post-conditions of building a statement and a sequence. *)
Definition built (is_stray : Prop) (encoding : list VntCfgBlock -> nat -> Prop)
    (b : Builder) (loop : option (nat * nat)) (r : option nat) (b' : Builder) : Prop :=
  (b_failed b' = true /\ loop = None /\ is_stray) \/
  (b_failed b' = false /\ ~ (loop = None /\ is_stray) /\ grows b b' /\
   new_ok (exit_block (b_cfg b)) (length (blocks (b_cfg b))) (blocks (b_cfg b')) /\
   exists e, r = Some e /\ e < length (blocks (b_cfg b')) /\ encoding (blocks (b_cfg b')) e).

(** The numbers of blocks that a statement may continue at. *)
Record in_range (b : Builder) (next : nat) (loop : option (nat * nat)) : Prop := {
  ir_next : next < length (blocks (b_cfg b));
  ir_exit : exit_block (b_cfg b) < length (blocks (b_cfg b));
  ir_loop : forall p, loop = Some p ->
    p.1 < length (blocks (b_cfg b)) /\ p.2 < length (blocks (b_cfg b))
}.

Lemma in_range_grows b b' next next' loop : in_range b next loop -> grows b b' ->
  next' < length (blocks (b_cfg b')) -> in_range b' next' loop.
Proof.
  intros [H1 H2 H3] [E _ Hl _] Hn. constructor; [done|rewrite E; lia|].
  intros p Hp. destruct (H3 p Hp). lia.
Qed.

Definition builds_statement (m : nat -> option nat -> option nat -> option nat -> St Builder (option nat))
    (i : nat) : Prop :=
  forall b next loop, b_failed b = false -> in_range b next loop ->
  wp (m i (Some next) (fst <$> loop) (snd <$> loop)) b
    (built (stray i) (fun bs e =>
       encodes ir bs (exit_block (b_cfg b)) (length (blocks (b_cfg b))) i e next loop) b loop).

Definition builds_all (m : option nat -> option nat -> option nat -> St Builder (option nat))
    (l : list nat) : Prop :=
  forall b next loop, b_failed b = false -> in_range b next loop ->
  wp (m (Some next) (fst <$> loop) (snd <$> loop)) b
    (built (Exists stray l) (fun bs e =>
       encodes_all ir bs (exit_block (b_cfg b)) (length (blocks (b_cfg b))) l e next loop) b loop).
(** ** Sequences *)

Lemma build_items_failed m items entry brk cont b : b_failed b = true ->
  build_items m items entry brk cont b = Done (entry, b).
Proof. intros Hf. destruct items; cbn [build_items]; [done|]. st_unfold. by rewrite Hf. Qed.

(** One statement in front of a sequence. *)
Lemma built_cons b b1 x l next loop r1 e1 r2 b2 :
  built (stray x) (fun bs e =>
    encodes ir bs (exit_block (b_cfg b)) (length (blocks (b_cfg b))) x e next loop) b loop r1 b1 ->
  b_failed b1 = false -> r1 = Some e1 ->
  built (Exists stray l) (fun bs e =>
    encodes_all ir bs (exit_block (b_cfg b1)) (length (blocks (b_cfg b1))) l e e1 loop) b1 loop r2 b2 ->
  built (Exists stray (l ++ [x])) (fun bs e =>
    encodes_all ir bs (exit_block (b_cfg b)) (length (blocks (b_cfg b))) (l ++ [x]) e next loop) b loop r2 b2.
Proof.
  intros [(Hf & _)|(_ & Hns & Hg & Hok & e & -> & He & Henc)] Hf1 [= ->]; [congruence|].
  pose proof (grows_exit _ _ Hg) as Hexit. pose proof (grows_count _ _ Hg) as Hcount.
  intros [(Hf & Hl & Hs)|(Hf & Hns2 & Hg2 & Hok2 & e2 & -> & He2 & Henc2)].
  - left. rewrite Exists_app. auto.
  - right. rewrite Hexit in *. split_and!; [done| |by eapply grows_trans|by eapply new_ok_trans|].
    + rewrite Exists_app, Exists_cons, Exists_nil. tauto.
    + exists e2. split_and!; [done..|]. eapply encodes_all_app; [by eapply encodes_all_lower|].
      eapply encodes_cons; [by eapply grows_encodes|apply encodes_nil].
Qed.

Lemma build_items_spec m items : Forall (builds_statement m) items ->
  builds_all (build_items m items) (rev items).
Proof.
  induction 1 as [|x items Hx _ IH]; intros b next loop Hf Hr; cbn [build_items].
  - right. split_and!; [done| |apply grows_refl|apply new_ok_none|].
    + cbn. by rewrite Exists_nil; intros [_ ?].
    + exists next. split_and!; [done|by destruct Hr|apply encodes_nil].
  - apply wp_bind, wp_gets. rewrite Hf. apply wp_bind. eapply wp_mono; [by apply Hx|].
    intros r1 b1 Hb1. destruct (b_failed b1) eqn:Hf1.
    + unfold wp. rewrite build_items_failed by done. left. split; [done|].
      destruct Hb1 as [(_ & Hl & Hs)|(? & _)]; [|congruence]. split; [done|].
      cbn. rewrite Exists_app, Exists_cons. auto.
    + pose proof Hb1 as [(? & _)|(_ & _ & Hg & _ & e1 & -> & He1 & _)]; [congruence|].
      eapply wp_mono; [apply (IH b1 e1 loop Hf1); by eapply in_range_grows|].
      intros r2 b2. cbn. by eapply built_cons.
Qed.

Lemma stray_kept skip c : stray c -> kept ir skip c = true.
Proof.
  unfold kept. destruct skip; [|done].
  intros [i op (n & Hn & <-) Hop|i op r l c' (n & Hn & <-) Hop _ _ _]; rewrite Hn.
  - by destruct Hop as [-> | ->].
  - by destruct Hop as [[-> _]|[-> _]].
Qed.

Lemma built_skip b loop l skip next r' b' :
  built (Exists stray (filter (fun c => kept ir skip c = true) l)) (fun bs e =>
    encodes_all ir bs (exit_block (b_cfg b)) (length (blocks (b_cfg b)))
      (filter (fun c => kept ir skip c = true) l) e next loop) b loop r' b' ->
  built (Exists stray l) (fun bs e =>
    encodes_all ir bs (exit_block (b_cfg b)) (length (blocks (b_cfg b))) l e next loop) b loop r' b'.
Proof.
  assert (Exists stray (filter (fun c => kept ir skip c = true) l) <-> Exists stray l) as Hiff.
  { rewrite !Exists_exists. split; intros (c & Hin & Hs); exists c; (split; [|done]).
    - by apply list_elem_of_filter in Hin as [_ Hin].
    - apply list_elem_of_filter. split; [by apply stray_kept|done]. }
  unfold built. rewrite Hiff. intros [?|(? & ? & ? & ? & e & ? & ? & He)]; [by left|right].
  split_and!; [done..|]. exists e. split_and!; [done..|]. by eapply encodes_all_skip.
Qed.

Lemma build_sequence_spec m parent n cs r skip :
  nodes ir !! parent = Some n -> chain ir (first_child n) cs -> NoDup cs ->
  Forall (builds_statement m) (filter (fun c => role_at ir c = r) cs) ->
  builds_all (fun next brk cont => build_sequence ir m parent r next brk cont skip)
    (filter (fun c => role_at ir c = r) cs).
Proof.
  intros Hn Hc Hd Hm b next loop Hf Hr. unfold build_sequence.
  destruct (Nat.leb_spec (node_count ir) parent) as [H|_].
  { apply lookup_lt_Some in Hn. unfold node_count in H. lia. }
  set (l := filter (fun c => role_at ir c = r) cs) in *.
  set (items := filter (fun c => kept ir skip c = true) l).
  assert (Forall (builds_statement m) (rev items)) as Hitems.
  { apply Forall_rev. rewrite Forall_forall in *. intros c Hin. apply Hm.
    by apply list_elem_of_filter in Hin as [_ Hin]. }
  apply wp_bind. eapply wp_asks; [by eapply (sequence_items_spec ir parent n cs)|]. fold l items.
  pose proof (built_skip b loop l skip) as Hskip. fold items in Hskip.
  pose proof (build_items_spec m (rev items) Hitems b next loop Hf Hr) as Hspec.
  rewrite rev_involutive in Hspec. destruct items as [|x items'] eqn:E.
  - eapply wp_mono; [exact Hspec|]. intros r' b'. by apply Hskip.
  - apply wp_bind. eapply wp_mono; [exact Hspec|]. intros r' b' Hb'. apply wp_bind, wp_gets.
    destruct (b_failed b') eqn:Hf'; apply wp_ret, Hskip; [|done].
    destruct Hb' as [Hb'|(? & _)]; [by left|congruence].
Qed.
(** ** Blocks *)

Definition add_block (b : Builder) (block : VntCfgBlock) : Builder :=
  {| b_cfg := with_blocks (blocks (b_cfg b) ++ [block]) (b_cfg b); b_failed := b_failed b |}.

Lemma new_block_run term inst cond yes no b :
  new_block term inst cond yes no b =
  Done (length (blocks (b_cfg b)),
        add_block b {| instruction := inst; condition := cond; true_successor := yes;
                       false_successor := no; terminator := term |}).
Proof. done. Qed.

Lemma grows_add b block : grows b (add_block b block).
Proof.
  constructor; cbn; [done|done|rewrite length_app; cbn; lia|]. intros j block' Hj.
  by apply lookup_app_l_Some.
Qed.

Lemma add_block_count b block : length (blocks (b_cfg (add_block b block))) = S (length (blocks (b_cfg b))).
Proof. cbn. rewrite length_app. cbn. lia. Qed.

Lemma add_block_lookup b block : blocks (b_cfg (add_block b block)) !! length (blocks (b_cfg b)) = Some block.
Proof. cbn. by apply list_lookup_middle. Qed.

Lemma new_ok_add b block :
  (forall s, Some s ∈ successors block -> s < length (blocks (b_cfg b))) ->
  terminates_ok (exit_block (b_cfg b)) (length (blocks (b_cfg b))) block -> reference_ok ir block ->
  new_ok (exit_block (b_cfg b)) (length (blocks (b_cfg b))) (blocks (b_cfg (add_block b block))).
Proof.
  intros Hs Ht Hr j block' Hj Hb. pose proof (lookup_lt_Some _ _ _ Hb) as Hlt.
  rewrite add_block_count in Hlt |- *. replace j with (length (blocks (b_cfg b))) in * by lia.
  rewrite add_block_lookup in Hb. injection Hb as <-. split_and!; [|done..].
  intros s Hin. pose proof (Hs s Hin). lia.
Qed.

(** ** Statements *)

Section statement.
Context (i : nat) (n : VntIrNode) (cs : list nat) (m : nat -> option nat -> option nat -> option nat -> St Builder (option nat)).
Context (b : Builder) (next : nat) (loop : option (nat * nat)).
Hypothesis Hn : nodes ir !! i = Some n.
Hypothesis Hc : chain ir (first_child n) cs.
Hypothesis Hnd : NoDup cs.
Hypothesis Hm : forall c, c ∈ cs -> builds_statement m c.
Hypothesis Hf : b_failed b = false.
Hypothesis Hr : in_range b next loop.
Local Abbreviation Built := (built (stray i) (fun bs e =>
  encodes ir bs (exit_block (b_cfg b)) (length (blocks (b_cfg b))) i e next loop) b loop).
Local Abbreviation items r := (filter (fun c => role_at ir c = r) cs).

Lemma at_opcode op : opcode n = op -> opcode_at ir i op.
Proof. intros H. by exists n. Qed.

Lemma index_in_range : i < node_count ir.
Proof. by eapply lookup_lt_Some. Qed.

Lemma items_build r : Forall (builds_statement m) (items r).
Proof. apply Forall_forall. intros c Hin. apply Hm. by apply list_elem_of_filter in Hin as [_ Hin]. Qed.

Lemma not_stray op : opcode n = op ->
  match op with VNT_IR_PROGRAM | VNT_IR_IF | VNT_IR_BREAK | VNT_IR_CONTINUE => False | _ => True end ->
  ~ stray i.
Proof.
  intros Hop Hop' Hs. pose proof (at_opcode op Hop) as Hat.
  destruct Hs as [? op1 H1 Hj|? op1 ? ? ? H1 Hj _ _ _]; pose proof (opcode_det _ _ _ _ Hat H1) as ->;
    by destruct op1, Hj as [?|?]; intuition.
Qed.

(** A statement of one block. *)
Lemma built_one o s term :
  ending_of (opcode n) = Some o -> target (exit_block (b_cfg b)) next loop o = Some s ->
  match o with
  | Falls => term = VNT_CFG_FALLTHROUGH
  | Returns => term = VNT_CFG_RETURN
  | Breaks | Continues => term = VNT_CFG_JUMP
  end ->
  ~ (loop = None /\ stray i) ->
  Built (Some (length (blocks (b_cfg b))))
    (add_block b {| instruction := Some i; condition := None; true_successor := Some s;
                    false_successor := None; terminator := term |}).
Proof.
  intros Ho Ht Hterm Hs. right. split_and!; [done|done|apply grows_add| |].
  - apply new_ok_add.
    + intros s' Hin. apply successors_in in Hin as [[= <-]|[=]].
      destruct Hr as [H1 H2 H3]. destruct o; cbn in Ht; simplify_eq; [done| | |done];
        destruct loop as [p|]; try done; destruct (H3 p eq_refl); cbn in Ht; by simplify_eq.
    + unfold terminates_ok. destruct o; subst term; cbn; split_and!; eauto.
    + split; cbn; [|done]. intros i' [= <-]. apply index_in_range.
  - eexists. split; [done|]. rewrite add_block_count. split; [lia|].
    eapply encodes_one; [by apply at_opcode|done|done|done|apply add_block_lookup|done..].
Qed.

Lemma built_definition : is_definition (opcode n) = true -> Built (Some next) b.
Proof.
  intros Hd. right. split_and!; [done| |apply grows_refl|apply new_ok_none|].
  - intros [_ Hs]. eapply (not_stray (opcode n)); [done| |done]. by destruct (opcode n).
  - exists next. split_and!; [done|by destruct Hr|]. by eapply encodes_definition; [apply at_opcode|].
Qed.

Local Abbreviation sequence r := (fun next brk cont => build_sequence ir m i r next brk cont false).

Lemma sequence_builds r : builds_all (sequence r) (items r).
Proof. apply (build_sequence_spec m i n cs r false Hn Hc Hnd). apply items_build. Qed.

Lemma sequence_failed r b1 e1 brk cont : b_failed b1 = true ->
  wp (build_sequence ir m i r e1 brk cont false) b1 (fun _ b2 => b2 = b1).
Proof.
  intros Hf1. unfold build_sequence. destruct (Nat.leb_spec (node_count ir) i) as [H|_].
  { pose proof index_in_range. lia. }
  apply wp_bind. eapply wp_asks; [by eapply (sequence_items_spec ir i n cs)|].
  destruct (filter _ (items r)) as [|x l]; [done|]. apply wp_bind. unfold wp at 1.
  rewrite build_items_failed by done. apply wp_bind, wp_gets. by rewrite Hf1.
Qed.

Lemma program_builds : opcode n = VNT_IR_PROGRAM ->
  wp (sequence VNT_IR_EDGE_STATEMENT (Some next) (fst <$> loop) (snd <$> loop)) b Built.
Proof.
  intros Hop. pose proof (at_opcode _ Hop) as Hat.
  pose proof (children_of ir i n cs VNT_IR_EDGE_STATEMENT Hn Hc) as Hch.
  eapply wp_mono; [by apply sequence_builds|]. intros r b'.
  intros [(? & ? & Hs)|(? & Hs & ? & ? & e & ? & ? & He)]; [left|right]; split_and!; try done.
  - apply Exists_exists in Hs as (c & Hin & Hs). eapply stray_inside; eauto.
  - intros [Hl Hst]. apply Hs. split; [done|].
    inversion Hst as [? op Hat' Hj|? op r' l c Hat' Hj Hl' Hin Hs']; subst;
      pose proof (opcode_det _ _ _ _ Hat Hat') as <-; [by destruct Hj|].
    destruct Hj as [[_ ->]|[? _]]; [|done]. rewrite (children_det _ _ _ _ _ Hch Hl').
    apply Exists_exists. eauto.
  - exists e. split_and!; [done..|]. by eapply encodes_program.
Qed.

(** Whether an if has a stray jump. *)
Lemma if_stray : opcode n = VNT_IR_IF ->
  (stray i <-> Exists stray (items VNT_IR_EDGE_THEN) \/ Exists stray (items VNT_IR_EDGE_ELSE)).
Proof.
  intros Hop. pose proof (at_opcode _ Hop) as Hat.
  pose proof (fun r => children_of ir i n cs r Hn Hc) as Hch. rewrite !Exists_exists. split.
  - intros Hst. inversion Hst as [? op Hat' Hj|? op r' l c Hat' Hj Hl' Hin Hs']; subst;
      pose proof (opcode_det _ _ _ _ Hat Hat') as <-; [by destruct Hj|].
    destruct Hj as [[? _]|[_ [-> | ->]]]; [done|left|right];
      rewrite (children_det _ _ _ _ _ (Hch _) Hl'); eauto.
  - intros [(c & Hin & Hs)|(c & Hin & Hs)]; (eapply stray_inside; [exact Hat| |apply Hch|exact Hin|done]);
      right; auto.
Qed.

Lemma if_builds c : opcode n = VNT_IR_IF -> children_in ir i VNT_IR_EDGE_CONDITION [c] ->
  c < node_count ir ->
  wp (yes ← sequence VNT_IR_EDGE_THEN (Some next) (fst <$> loop) (snd <$> loop);
      no ← sequence VNT_IR_EDGE_ELSE (Some next) (fst <$> loop) (snd <$> loop);
      block ← new_block VNT_CFG_BRANCH None (Some c) yes no;
      mret (Some block)) b Built.
Proof.
  intros Hop Hcond Hcr. pose proof (if_stray Hop) as Hstray.
  apply wp_bind. eapply wp_mono; [by apply sequence_builds|]. intros r1 b1.
  intros [(Hf1 & Hl & Hs)|(Hf1 & Hns1 & Hg1 & Hok1 & yes & -> & Hy & Henc1)].
  { apply wp_bind. eapply wp_mono; [by apply sequence_failed|]. intros r2 b2 ->.
    left. cbn. split_and!; [done..|]. apply Hstray. by left. }
  apply wp_bind. eapply wp_mono; [apply sequence_builds; [done|by eapply in_range_grows; [| |destruct Hr, Hg1; lia]]|].
  intros r2 b2 [(Hf2 & Hl & Hs)|(Hf2 & Hns2 & Hg2 & Hok2 & no & -> & Hno & Henc2)].
  { left. cbn. split_and!; [done..|]. apply Hstray. by right. }
  rewrite (grows_exit _ _ Hg1) in Hok2, Henc2. pose proof (grows_trans _ _ _ Hg1 Hg2) as Hg.
  pose proof (new_ok_trans _ _ _ _ Hg2 Hok1 Hok2) as Hok. pose proof (grows_count _ _ Hg2) as Hcount.
  set (block := {| instruction := None; condition := Some c; true_successor := Some yes;
                   false_successor := Some no; terminator := VNT_CFG_BRANCH |}).
  pose proof (grows_add b2 block) as Hadd. right. split_and!; [done|tauto|by eapply grows_trans| |].
  - eapply new_ok_trans; [exact Hadd|done|]. rewrite <- (grows_exit _ _ Hg). apply new_ok_add.
    + intros s Hin. apply successors_in in Hin as [[= <-]|[= <-]]; lia.
    + cbn. eauto 10.
    + split; [done|]. by intros c' [= <-].
  - exists (length (blocks (b_cfg b2))). split; [done|]. split; [cbn; rewrite length_app; cbn; lia|].
    pose proof (grows_count _ _ Hg). pose proof (grows_count _ _ Hg1).
    eapply encodes_if with (block := block);
      [by apply at_opcode|done|lia|apply add_block_lookup|done..|by eapply children_of| |by eapply children_of|].
    + eapply grows_encodes_all; [|exact Henc1]. by eapply grows_trans.
    + eapply encodes_all_lower; [|by eapply grows_encodes_all]. lia.
Qed.

(** The test of a loop, before its body is known and after. *)
Definition test_block (c : nat) (body : option nat) : VntCfgBlock :=
  {| instruction := None; condition := Some c; true_successor := body;
     false_successor := Some next; terminator := VNT_CFG_BRANCH |}.

Lemma while_closes c test body b2 :
  opcode n = VNT_IR_WHILE -> children_in ir i VNT_IR_EDGE_CONDITION [c] -> c < node_count ir ->
  test = length (blocks (b_cfg b)) ->
  let b1 := add_block b (test_block c None) in
  b_failed b2 = false -> grows b1 b2 ->
  new_ok (exit_block (b_cfg b)) (S test) (blocks (b_cfg b2)) -> body < length (blocks (b_cfg b2)) ->
  encodes_all ir (blocks (b_cfg b2)) (exit_block (b_cfg b)) (S test) (items VNT_IR_EDGE_BODY) body
    test (Some (next, test)) ->
  wp (_ ← set_true_successor test (Some body); mret (Some test)) b2 Built.
Proof.
  intros Hop Hcond Hcr Htest b1 Hf2 Hg Hok Hbody Henc.
  assert (blocks (b_cfg b2) !! test = Some (test_block c None)) as Hlook.
  { apply Hg. subst test. apply add_block_lookup. }
  eapply wp_bind_done; [unfold set_true_successor; by rewrite Hlook|]. apply wp_ret.
  change (with_true_successor (Some body) (test_block c None)) with (test_block c (Some body)).
  set (bs := <[test := _]> (blocks (b_cfg b2))). pose proof (grows_count _ _ Hg) as Hcount.
  unfold b1 in Hcount. rewrite add_block_count in Hcount.
  assert (bs !! test = Some (test_block c (Some body))) as Hlook'.
  { apply list_lookup_insert_eq. by eapply lookup_lt_Some. }
  assert (forall j, j <> test -> bs !! j = blocks (b_cfg b2) !! j) as Hother.
  { intros j Hj. by apply list_lookup_insert_ne. }
  assert (length bs = length (blocks (b_cfg b2))) as Hlen by apply length_insert.
  right. split_and!; [done| |constructor| |].
  - intros [_ Hs]. by apply (not_stray _ Hop).
  - apply Hg.
  - apply Hg.
  - cbn. rewrite Hlen. lia.
  - intros j block Hj. cbn. pose proof (lookup_lt_Some _ _ _ Hj). rewrite Hother by lia.
    apply Hg. by apply (grows_blocks _ _ (grows_add b (test_block c None))).
  - intros j block Hj Hb. cbn in Hb |- *. fold bs in Hb. rewrite Hlen. destruct (decide (j = test)) as [->|Hne].
    + rewrite Hlook' in Hb. injection Hb as <-. split_and!; [|cbn; eauto 10|split; [done|by intros ? [= <-]]].
      intros s Hin. apply successors_in in Hin as [[= <-]|[= <-]]; [done|]. destruct Hr as [H _ _]. lia.
    + rewrite Hother in Hb by done. apply Hok; [lia|done].
  - exists test. split; [done|]. cbn. fold bs. rewrite Hlen. split; [lia|].
    eapply encodes_while; [by apply at_opcode|done|lia|exact Hlook'|done..|by eapply children_of|].
    eapply encodes_agree; [exact Henc|done|]. intros j block Hj Hb. by rewrite Hother by lia.
Qed.

Lemma while_builds c : opcode n = VNT_IR_WHILE -> children_in ir i VNT_IR_EDGE_CONDITION [c] ->
  c < node_count ir ->
  wp (test ← new_block VNT_CFG_BRANCH None (Some c) None (Some next);
      body ← build_sequence ir m i VNT_IR_EDGE_BODY (Some test) (Some next) (Some test) false;
      if is_null body then build_fails
      else
        _ ← set_true_successor test body;
        mret (Some test)) b Built.
Proof.
  intros Hop Hcond Hcr. eapply wp_bind_done; [apply new_block_run|].
  set (test := length (blocks (b_cfg b))). fold (test_block c None).
  assert (in_range (add_block b (test_block c None)) test (Some (next, test))) as Hr1.
  { destruct Hr as [H1 H2 H3]. constructor; rewrite ?add_block_count; [lia|cbn -[length]; lia|].
    intros p [= <-]. cbn [fst snd]. lia. }
  apply wp_bind. eapply wp_mono; [apply (sequence_builds VNT_IR_EDGE_BODY (add_block b (test_block c None)) _ _ Hf Hr1)|].
  rewrite add_block_count. cbn [exit_block b_cfg add_block with_blocks]. intros r b2.
  intros [(_ & [=] & _)|(Hf2 & _ & Hg & Hok & body & -> & Hbody & Henc)].
  rewrite add_block_count in Hok. cbn [is_null]. by apply (while_closes c test body b2).
Qed.

(** A break or a continue. *)
Lemma jump_builds o (t : option nat) :
  ending_of (opcode n) = Some o -> o = Breaks \/ o = Continues ->
  t = target (exit_block (b_cfg b)) next loop o ->
  wp (if is_null t then build_fails
      else
        block ← new_block VNT_CFG_JUMP (Some i) None t None;
        mret (Some block)) b Built.
Proof.
  intros Ho Hj Ht. destruct t as [s|]; cbn [is_null].
  - eapply wp_bind_done; [apply new_block_run|]. apply wp_ret.
    apply (built_one o); [done..|by destruct Hj as [-> | ->]|].
    intros [-> _]. by destruct Hj as [-> | ->].
  - left. cbn. split; [done|]. split; [by destruct Hj as [-> | ->], loop|].
    apply (stray_jump i (opcode n)); [by apply at_opcode|].
    destruct Hj as [-> | ->]; destruct (opcode n); cbn in Ho; try discriminate; tauto.
Qed.

Lemma falls_builds : ending_of (opcode n) = Some Falls ->
  wp (block ← new_block VNT_CFG_FALLTHROUGH (Some i) None (Some next) None; mret (Some block)) b Built.
Proof.
  intros Ho. eapply wp_bind_done; [apply new_block_run|]. apply wp_ret.
  apply (built_one Falls); [done..|]. intros [_ Hs]. apply (not_stray _ eq_refl); [|done].
  by destruct (opcode n).
Qed.

Lemma return_builds : ending_of (opcode n) = Some Returns ->
  wp (exit ← gets (fun b => exit_block (b_cfg b));
      block ← new_block VNT_CFG_RETURN (Some i) None (Some exit) None;
      mret (Some block)) b Built.
Proof.
  intros Ho. apply wp_bind, wp_gets. eapply wp_bind_done; [apply new_block_run|]. apply wp_ret.
  apply (built_one Returns); [done..|]. intros [_ Hs]. apply (not_stray _ eq_refl); [|done].
  by destruct (opcode n).
Qed.
End statement.

Lemma build_statement_spec s : subtree ir s -> forall fuel, length (indices s) <= fuel ->
  builds_statement (build_statement ir fuel) (index s).
Proof.
  induction s as [i l ts IH] using tree_ind. intros Hs fuel Hfuel b next loop Hf Hr.
  destruct (subtree_inv _ _ _ _ Hs) as (n & Hn & -> & [Hc _ _] & Hnd & Hlab & Hroles & Hts).
  destruct fuel as [|f]; [cbn in Hfuel; lia|]. cbn [build_statement index].
  apply wp_bind, wp_gets. rewrite Hf. cbn [orb].
  destruct (Nat.leb_spec (node_count ir) i) as [H|_].
  { apply lookup_lt_Some in Hn. unfold node_count in H. lia. }
  apply wp_bind. eapply wp_asks; [by apply node_at_done|].
  assert (forall c, c ∈ map index ts -> builds_statement (build_statement ir f) c) as Hm.
  { intros c Hin. apply list_elem_of_fmap in Hin as (t & -> & Ht). rewrite Forall_forall in IH, Hts.
    apply IH; [done|by apply Hts|]. pose proof (child_subtree_length t ts i (label_of n) Ht). lia. }
  assert (map (role_at ir) (map index ts) = map (fun t => l_role (label t)) ts) as Hmap.
  { rewrite map_map. apply map_ext_in. intros t Ht%list_elem_of_In. rewrite Forall_forall in Hts.
    destruct t as [j l us]. apply Hts, subtree_inv in Ht as (k & Hk & -> & _). by apply role_at_node. }
  rewrite <- Hmap in Hroles.
  pose proof (condition_child ir i n _ Hn Hc Hnd Hroles) as Hcond.
  destruct (opcode n) eqn:Hop.
  1: by eapply program_builds.
  2: { destruct Hcond as (c & Hcc & Hcr & Hrole); [by left|]. apply wp_bind.
       eapply wp_asks; [exact Hrole|]. cbn [is_null]. by eapply if_builds. }
  2: { destruct Hcond as (c & Hcc & Hcr & Hrole); [by right|]. apply wp_bind.
       eapply wp_asks; [exact Hrole|]. cbn [is_null]. by eapply while_builds. }
  all: try (eapply jump_builds; [done..|by rewrite Hop|tauto|done]).
  all: try (apply wp_ret; eapply built_definition; [done..|by rewrite Hop]).
  all: first [eapply return_builds|eapply falls_builds]; [done..|by rewrite Hop].
Qed.

End build.
