(* ===== verification/CfgPrune.v ===== *)
(** CfgPrune: pruning keeps exactly the blocks that can be reached from an
    entry, in their order, and renumbers every link to them.
    The first part: the graph of a whole program, before it is simplified: one entry
    for the statements of the program and one for the body of every function. *)

From S2P Require Import Prelude Clib Ast Ir IrTrees IrFacts IrAccess Cfg CfgTraces CfgBuild.

(** The nodes whose children are the entries of the graph, in order. *)
Definition function_at (ir : VntIrProgram) (i : nat) : bool :=
  match nodes ir !! i with
  | Some n => bool_decide (opcode n = VNT_IR_FUNCTION)
  | None => false
  end.

Definition function_entries (ir : VntIrProgram) (is_ : list nat) : list (nat * VntIrEdgeRole) :=
  map (fun i => (i, VNT_IR_EDGE_BODY)) (filter (fun i => function_at ir i = true) is_).

Definition entry_nodes (ir : VntIrProgram) (r : nat) : list (nat * VntIrEdgeRole) :=
  (r, VNT_IR_EDGE_STATEMENT) :: function_entries ir (seq 0 (node_count ir)).

Definition entry_items (ir : VntIrProgram) (p : nat * VntIrEdgeRole) (l : list nat) : Prop :=
  children_in ir p.1 p.2 l.

Definition has_stray (ir : VntIrProgram) (p : nat * VntIrEdgeRole) : Prop :=
  exists l, entry_items ir p l /\ Exists (stray ir) l.

Definition exit_only : VntCfgBlock :=
  {| instruction := None; condition := None; true_successor := None; false_successor := None;
     terminator := VNT_CFG_EXIT |}.

(** Block [e] is the entry for [p]: its blocks encode the items, up to the exit. *)
Definition is_entry_for (ir : VntIrProgram) (bs : list VntCfgBlock) (exit : nat)
    (p : nat * VntIrEdgeRole) (e : nat) : Prop :=
  e < length bs /\ exists l lo, entry_items ir p l /\ encodes_all ir bs exit lo l e exit None.

(** The graph so far. *)
Record graph_of (ir : VntIrProgram) (ps : list (nat * VntIrEdgeRole)) (cfg : VntCfg) : Prop := {
  go_exit : blocks cfg !! exit_block cfg = Some exit_only;
  go_blocks : new_ok ir (exit_block cfg) 0 (blocks cfg);
  go_stray : Forall (fun p => ~ has_stray ir p) ps;
  go_entries : Forall2 (is_entry_for ir (blocks cfg) (exit_block cfg)) ps (entries cfg)
}.

Lemma wp_bind_assoc {S A B C} (m : St S A) (k : A -> St S B) (h : B -> St S C) s Q :
  wp (m ≫= k) s (fun b s' => wp (h b) s' Q) -> wp (m ≫= fun a => k a ≫= h) s Q.
Proof.
  unfold wp, mbind, St_bind. destruct (m s) as [[a s1]| |]; [|done..].
  by destruct (k a s1) as [[b s2]| |].
Qed.

Section graph.
Context (ir : VntIrProgram).
Hypothesis valid : ir_valid ir.

Lemma node_builds c : c < node_count ir ->
  builds_statement ir (build_statement ir (build_fuel ir)) c.
Proof.
  intros Hc. destruct (valid_subtree ir c valid Hc) as (s & Hs & <- & Hlen).
  apply build_statement_spec; [done|]. unfold build_fuel. lia.
Qed.

(** One entry. *)
Lemma build_entry i r skip b ps : i < node_count ir -> b_failed b = false -> graph_of ir ps (b_cfg b) ->
  wp (entry ← build_sequence ir (build_statement ir (build_fuel ir)) i r
                (Some (exit_block (b_cfg b))) None None skip;
      add_entry entry) b
    (fun ok b' => (ok = false /\ has_stray ir (i, r)) \/
                  (ok = true /\ b_failed b' = false /\ graph_of ir (ps ++ [(i, r)]) (b_cfg b'))).
Proof.
  intros Hi Hf [Hexit Hblocks Hstray Hentries].
  destruct (valid_children_list ir i valid Hi) as (n & cs & Hn & _ & Hc & Hnd & _ & Hrange).
  pose proof (children_of ir i n cs r Hn Hc) as Hch. pose proof (lookup_lt_Some _ _ _ Hexit) as Hlt.
  apply wp_bind. eapply wp_mono.
  { apply (build_sequence_spec ir (build_statement ir (build_fuel ir)) i n cs r skip Hn Hc Hnd)
      with (next := exit_block (b_cfg b)) (loop := None); [|done|by constructor].
    apply Forall_forall. intros c Hin. apply node_builds. rewrite Forall_forall in Hrange.
    apply Hrange. by apply list_elem_of_filter in Hin as [_ Hin]. }
  intros entry b1 [(Hf1 & _ & Hs)|(Hf1 & Hns & Hg & Hok & e & -> & He & Henc)].
  - unfold add_entry. apply wp_bind, wp_gets. rewrite Hf1.
    assert (has_stray ir (i, r)) by (by eexists). destruct entry; apply wp_ret; auto.
  - unfold add_entry. apply wp_bind, wp_gets. rewrite Hf1. apply wp_bind, wp_modify, wp_ret. right.
    split; [done|]. split; [done|]. rewrite <- (grows_exit _ _ Hg) in *. constructor; cbn.
    + by apply Hg.
    + eapply new_ok_trans; [exact Hg|done|done].
    + apply Forall_app. split; [done|]. apply Forall_singleton. intros (l & Hl & Hs). apply Hns.
      split; [done|]. unfold entry_items in Hl. cbn in Hl. by rewrite (children_det _ _ _ _ _ Hch Hl).
    + rewrite (grows_entries _ _ Hg). apply Forall2_app.
      * eapply Forall2_impl; [exact Hentries|]. intros p e' (He' & l & lo & Hl & Henc').
        pose proof (grows_count _ _ Hg). split; [lia|]. exists l, lo. split; [done|].
        by eapply grows_encodes_all.
      * constructor; [|done]. split; [done|]. by eexists _, _.
Qed.

Lemma build_functions_spec todo : forall i b ps, i + todo <= node_count ir -> b_failed b = false ->
  graph_of ir ps (b_cfg b) ->
  wp (build_functions ir todo i) b
    (fun ok b' => (ok = false /\ Exists (has_stray ir) (function_entries ir (seq i todo))) \/
                  (ok = true /\ graph_of ir (ps ++ function_entries ir (seq i todo)) (b_cfg b'))).
Proof.
  induction todo as [|todo IH]; intros i b ps Hi Hf Hg; cbn [build_functions].
  - apply wp_ret. right. by rewrite app_nil_r.
  - assert (i < node_count ir) as Hlt by lia. destruct (lookup_lt_is_Some_2 _ _ Hlt) as [n Hn].
    apply wp_bind. eapply wp_asks; [by apply node_at_done|].
    assert (function_entries ir (seq i (S todo)) =
      (if bool_decide (opcode n = VNT_IR_FUNCTION) then [(i, VNT_IR_EDGE_BODY)] else []) ++
      function_entries ir (seq (S i) todo)) as ->.
    { unfold function_entries. cbn [seq]. rewrite filter_cons.
      assert (function_at ir i = bool_decide (opcode n = VNT_IR_FUNCTION)) as -> by (unfold function_at; by rewrite Hn).
      by case_bool_decide. }
    case_bool_decide as Hop; [|apply IH; [lia|done|done]].
    apply wp_bind, wp_gets. pose proof (build_entry i VNT_IR_EDGE_BODY false b ps Hlt Hf Hg) as Hentry.
    eapply wp_bind_assoc, wp_mono; [exact Hentry|].
    intros ok b1 [[-> Hs]|(-> & Hf1 & Hg1)].
    + apply wp_ret. left. split; [done|]. apply Exists_app. left. by apply Exists_cons_hd.
    + eapply wp_mono; [apply (IH (S i) b1 _ ltac:(lia) Hf1 Hg1)|]. intros ok b2 [[-> Hs]|[-> Hg2]].
      * left. split; [done|]. apply Exists_app. by right.
      * right. split; [done|]. by rewrite app_assoc.
Qed.

Lemma empty_graph cfg : cfg = {| blocks := [exit_only]; entries := []; exit_block := 0 |} ->
  graph_of ir [] cfg.
Proof.
  intros ->. constructor; [done| |done|constructor].
  intros [|j] block _ Hb; [|done]. injection Hb as <-. split; [|by repeat constructor].
  cbn. intros s Hs. apply elem_of_cons in Hs as [|Hs]; [done|].
  apply elem_of_cons in Hs as [|Hs]; [done|]. by apply not_elem_of_nil in Hs.
Qed.

(** The whole graph: it is built unless an entry has a stray break or continue. *)
Lemma build_graph_spec r : root ir = Some r ->
  returns (build_graph ir r) (fun g =>
    match g with
    | None => Exists (has_stray ir) (entry_nodes ir r)
    | Some cfg => graph_of ir (entry_nodes ir r) cfg
    end).
Proof.
  intros Hr. destruct (valid_root ir valid) as (r' & Hr' & Hlt). rewrite Hr in Hr'. injection Hr' as <-.
  unfold build_graph. cbv zeta.
  match goal with |- context [match ?m ?b with _ => _ end] => set (run := m); set (b0 := b) end.
  set (b1 := {| b_cfg := {| blocks := [exit_only]; entries := []; exit_block := 0 |}; b_failed := false |}).
  assert (wp run b0 (fun ok b' => (ok = false /\ Exists (has_stray ir) (entry_nodes ir r)) \/
                  (ok = true /\ graph_of ir (entry_nodes ir r) (b_cfg b')))) as H.
  { apply (wp_bind_done _ _ _ 0 {| b_cfg := {| blocks := [exit_only]; entries := []; exit_block := exit_block empty_cfg |};
      b_failed := false |}); [done|].
    apply (wp_bind_done _ _ _ tt b1); [done|].
    eapply wp_bind_assoc, wp_mono;
      [exact (build_entry r VNT_IR_EDGE_STATEMENT true b1 [] Hlt eq_refl (empty_graph _ eq_refl))|].
    intros ok b2 [[-> Hs]|(-> & Hf & Hg)].
    - apply wp_ret. left. split; [done|]. by apply Exists_cons_hd.
    - eapply wp_mono; [by apply (build_functions_spec (node_count ir) 0 b2 _ ltac:(lia) Hf Hg)|].
      intros ok b3 [[-> Hs]|[-> Hg3]]; [left|by right]. split; [done|]. by apply Exists_cons_tl. }
  unfold wp in H. destruct (run b0) as [[ok b']| |]; [|done..]. cbn.
  by destruct H as [[-> H]|[-> H]].
Qed.
End graph.

(** * Marking *)

Inductive reachable (bs : list VntCfgBlock) (es : list nat) : nat -> Prop :=
  | reachable_entry e : e ∈ es -> reachable bs es e
  | reachable_edge b s : reachable bs es b -> edge bs b s -> reachable bs es s.

Definition marked (r : list bool) (b : nat) : Prop := r !! b = Some true.

Definition unmarked (r : list bool) : nat := length (filter (fun x => x = false) r).

Lemma unmarked_insert r i : r !! i = Some false -> unmarked r = S (unmarked (<[i := true]> r)).
Proof.
  intros Hi. unfold unmarked. rewrite insert_take_drop by (by eapply lookup_lt_Some).
  transitivity (length (filter (fun x => x = false) (take i r ++ false :: drop (S i) r))).
  - by rewrite (take_drop_middle _ _ _ Hi).
  - rewrite !filter_app, !filter_cons, decide_True, decide_False, !length_app by done. cbn. lia.
Qed.

Lemma marked_insert r i b : i < length r -> (marked (<[i := true]> r) b <-> marked r b \/ b = i).
Proof.
  intros Hi. unfold marked. destruct (decide (b = i)) as [->|Hne].
  - rewrite list_lookup_insert_eq by done. tauto.
  - rewrite list_lookup_insert_ne by done. tauto.
Qed.

(** What marking a list of links does to the marks and to the stack. *)
Record marks (links : list nat) (r : list bool) (stack : list nat) (r' : list bool) (stack' : list nat)
    : Prop := {
  ms_length : length r' = length r;
  ms_marked : forall b, marked r' b <-> marked r b \/ b ∈ links;
  ms_new : forall b, marked r' b -> marked r b \/ b ∈ stack';
  ms_stack : forall b, b ∈ stack' -> b ∈ stack \/ marked r' b;
  ms_kept : forall b, b ∈ stack -> b ∈ stack';
  ms_measure : unmarked r' + length stack' = unmarked r + length stack
}.

Lemma marks_refl r stack : marks [] r stack r stack.
Proof. constructor; try done; intros b; rewrite ?elem_of_nil; tauto. Qed.

Lemma mark_spec r stack i : i < length r ->
  exists r' stack', mark r stack i = Done (Some (r', stack')) /\ marks [i] r stack r' stack'.
Proof.
  intros Hi. unfold mark, read_bit. destruct (Nat.leb_spec (length r) i) as [?|_]; [lia|].
  destruct (lookup_lt_is_Some_2 r i Hi) as [[|] Hb]; rewrite Hb; cbn [mbind outcome_bind mret outcome_ret].
  - exists r, stack. split; [done|]. constructor; try done; try tauto.
    intros b. rewrite list_elem_of_singleton. split; [by left|]. by intros [?| ->].
  - exists (<[i := true]> r), (i :: stack). split; [done|]. constructor.
    + apply length_insert.
    + intros b. by rewrite marked_insert, list_elem_of_singleton.
    + intros b. rewrite marked_insert, elem_of_cons by done. tauto.
    + intros b. rewrite marked_insert, elem_of_cons by done. tauto.
    + intros b. by right.
    + rewrite (unmarked_insert r i Hb). cbn. lia.
Qed.

Lemma marks_trans l1 l2 r1 s1 r2 s2 r3 s3 :
  marks l1 r1 s1 r2 s2 -> marks l2 r2 s2 r3 s3 -> marks (l1 ++ l2) r1 s1 r3 s3.
Proof.
  intros [A1 B1 C1 D1 E1 F1] [A2 B2 C2 D2 E2 F2]. constructor; [congruence| | | | |lia].
  - intros b. rewrite B2, B1, elem_of_app. tauto.
  - intros b H. apply C2 in H as [H|?]; [|by right]. apply C1 in H as [?|?]; auto.
  - intros b H. apply D2 in H as [H|?]; [|by right]. apply D1 in H as [?|?]; [by left|right].
    apply B2. by left.
  - auto.
Qed.

Definition some_links (links : list (option nat)) : list nat := omap id links.

Lemma mark_all_spec links : forall r stack,
  (forall i, Some i ∈ links -> i < length r) ->
  exists r' stack', mark_all r stack links = Done (Some (r', stack')) /\
    marks (some_links links) r stack r' stack'.
Proof.
  induction links as [|[i|] links IH]; intros r stack Hl; cbn [mark_all].
  - exists r, stack. split; [done|apply marks_refl].
  - destruct (mark_spec r stack i) as (r1 & s1 & -> & H1); [apply Hl; left|].
    cbn [mbind outcome_bind]. destruct (IH r1 s1) as (r2 & s2 & -> & H2).
    { intros j Hj. rewrite (ms_length _ _ _ _ _ H1). apply Hl. by right. }
    exists r2, s2. split; [done|]. apply (marks_trans [i] _ _ _ _ _ _ _ H1 H2).
  - apply IH. intros i Hi. apply Hl. by right.
Qed.

Lemma some_links_in links b : b ∈ some_links links <-> Some b ∈ links.
Proof.
  unfold some_links. rewrite list_elem_of_omap. split.
  - by intros (x & Hx & E); cbn in E; subst.
  - intros H. by exists (Some b).
Qed.

Section mark.
Context (bs : list VntCfgBlock) (es : list nat).
Hypothesis bs_ok : edges_ok bs.
Hypothesis es_ok : Forall (fun e => e < length bs) es.

Record marking (r : list bool) (stack : list nat) : Prop := {
  mk_length : length r = length bs;
  mk_reachable : forall b, marked r b -> reachable bs es b;
  mk_entries : forall e, e ∈ es -> marked r e;
  mk_stack : forall b, b ∈ stack -> marked r b;
  mk_closed : forall b s, marked r b -> edge bs b s -> b ∈ stack \/ marked r s
}.

Lemma marked_in_range r stack b : marking r stack -> marked r b -> b < length bs.
Proof. intros H Hb. rewrite <- (mk_length _ _ H). by eapply lookup_lt_Some. Qed.

Lemma mark_reachable_spec fuel : forall r stack, marking r stack -> unmarked r + length stack <= fuel ->
  exists r', mark_reachable fuel bs r stack = Done (Some r') /\ marking r' [].
Proof.
  induction fuel as [|fuel IH]; intros r [|at_ stack] H Hfuel; try (cbn in Hfuel; lia);
    cbn [mark_reachable]; [by eauto..|].
  pose proof (marked_in_range _ _ _ H (mk_stack _ _ H at_ ltac:(left))) as Hr.
  destruct (lookup_lt_is_Some_2 bs at_ Hr) as [block Hblock]. rewrite Hblock. cbn [mbind outcome_bind].
  destruct (mark_all_spec (successors block) r stack) as (r' & stack' & -> & Hm).
  { intros i Hi. rewrite (mk_length _ _ H). apply (bs_ok at_). by exists block. }
  cbn [mbind outcome_bind]. apply IH; [|destruct Hm as [_ _ _ _ _ E]; cbn in Hfuel; lia].
  destruct H as [H1 H2 H3 H4 H5], Hm as [M1 M2 M3 M4 M5 _]. constructor.
  - congruence.
  - intros b [Hb|Hb]%M2; [auto|]. apply some_links_in in Hb.
    eapply reachable_edge; [|by exists block]. apply H2, H4. left.
  - intros e He. apply M2. auto.
  - intros b [Hb|Hb]%M4; [|done]. apply M2. left. apply H4. by right.
  - intros b s Hb Hs. apply M3 in Hb as [Hb|Hb]; [|by left].
    destruct (H5 b s Hb Hs) as [Hin|Hin]; [|right; apply M2; by left].
    apply elem_of_cons in Hin as [->|Hin]; [right|left; by apply M5].
    destruct Hs as (block' & Hb' & Hs). rewrite Hblock in Hb'. injection Hb' as <-.
    apply M2. right. by apply some_links_in.
Qed.

Lemma marking_exact r b : marking r [] -> (marked r b <-> reachable bs es b).
Proof.
  intros H. split; [apply H|]. induction 1 as [e He|c s _ IH Hs]; [by apply H|].
  destruct (mk_closed _ _ H c s IH Hs) as [Hin|?]; [|done]. by apply not_elem_of_nil in Hin.
Qed.
End mark.

(** * Renumbering *)

(** How many blocks are kept before [i]. *)
Definition rank (r : list bool) (i : nat) : nat := length (filter (fun x => x = true) (take i r)).

Lemma rank_cons x r i : rank (x :: r) (S i) = (if x then 1 else 0) + rank r i.
Proof. unfold rank. cbn [take]. rewrite filter_cons. by destruct x. Qed.

Lemma number_lookup r : forall k i,
  number_kept r k !! i = (fun x : bool => if x then Some (k + rank r i) else None) <$> r !! i.
Proof.
  induction r as [|x r IH]; intros k i; [done|]. destruct i as [|i].
  - destruct x; cbn; [|done]. do 2 f_equal. unfold rank. cbn. lia.
  - rewrite rank_cons. destruct x; cbn [number_kept lookup list_lookup]; rewrite IH; destruct (r !! i) as [[]|];
      cbn; repeat f_equal; lia.
Qed.

Lemma rank_lt r i j : marked r i -> i < j -> rank r i < rank r j.
Proof.
  revert i j. induction r as [|x r IH]; intros i j Hi Hlt; [done|].
  destruct j as [|j]; [lia|]. rewrite rank_cons. destruct i as [|i].
  - injection Hi as ->. unfold rank. cbn. lia.
  - rewrite rank_cons. pose proof (IH i j Hi ltac:(lia)). lia.
Qed.

Lemma rank_inj r i j : marked r i -> marked r j -> rank r i = rank r j -> i = j.
Proof.
  intros Hi Hj E. destruct (Nat.lt_trichotomy i j) as [H|[H|H]]; [|done|].
  - pose proof (rank_lt r i j Hi H). lia.
  - pose proof (rank_lt r j i Hj H). lia.
Qed.

Definition renamed (r : list bool) (block : VntCfgBlock) : VntCfgBlock :=
  {| instruction := instruction block; condition := condition block;
     true_successor := rank r <$> true_successor block;
     false_successor := rank r <$> false_successor block; terminator := terminator block |}.

Lemma remap_spec r s : (forall i, s = Some i -> marked r i) -> remap (number_kept r 0) s = Done (rank r <$> s).
Proof.
  intros H. destruct s as [i|]; [|done]. unfold remap, read_map.
  rewrite number_lookup, (H i eq_refl). done.
Qed.

(** The kept blocks. *)
Definition kept_blocks (r : list bool) (m : list bool) (bs : list VntCfgBlock) : list VntCfgBlock :=
  renamed m <$> omap (fun p : bool * VntCfgBlock => if p.1 then Some p.2 else None) (combine r bs).

Lemma keep_blocks_spec m r : forall bs,
  (forall i block, r !! i = Some true -> bs !! i = Some block ->
     forall s, Some s ∈ successors block -> marked m s) ->
  keep_blocks (number_kept m 0) r bs = Done (kept_blocks r m bs).
Proof.
  unfold kept_blocks. induction r as [|x r IH]; intros [|block bs] H; cbn; try done.
  destruct x.
  - rewrite !remap_spec by (intros i Hi; apply (H 0 block eq_refl eq_refl), successors_in; auto).
    cbn. rewrite IH; [done|]. intros i b. apply (H (S i)).
  - rewrite IH; [done|]. intros i b. apply (H (S i)).
Qed.

(** Where a kept block goes. *)
Lemma kept_lookup m r : forall bs, length r = length bs ->
  (forall i block, marked r i -> bs !! i = Some block ->
     kept_blocks r m bs !! rank r i = Some (renamed m block)) /\
  (forall j block', kept_blocks r m bs !! j = Some block' ->
     exists i block, marked r i /\ rank r i = j /\ bs !! i = Some block /\ block' = renamed m block).
Proof.
  unfold kept_blocks. induction r as [|x r IH]; intros [|block bs] Hl; try done.
  injection Hl as Hl. destruct (IH bs Hl) as [IH1 IH2]. split.
  - intros [|i] block' Hi Hb.
    + injection Hi as ->. by injection Hb as ->.
    + rewrite rank_cons. destruct x; cbn; by apply IH1.
  - intros j block' Hj. destruct x; cbn in Hj.
    + destruct j as [|j]; [injection Hj as <-; by exists 0, block|].
      destruct (IH2 j block' Hj) as (i & b & ? & E & ? & ?). exists (S i), b. rewrite rank_cons, E. done.
    + destruct (IH2 j block' Hj) as (i & b & ? & E & ? & ?). exists (S i), b. by rewrite rank_cons.
Qed.

Lemma map_entries_spec r es : (forall e, e ∈ es -> marked r e) ->
  map_entries (number_kept r 0) es = Done (map (rank r) es).
Proof.
  induction es as [|e es IH]; intros H; cbn [map_entries]; [done|].
  unfold read_map. rewrite number_lookup, (H e) by left. cbn. rewrite IH; [done|].
  intros e' He'. apply H. by right.
Qed.

(** The marks, and the graph that pruning makes with them. *)
Definition pruned (r : list bool) (cfg : VntCfg) : VntCfg :=
  {| blocks := kept_blocks r r (blocks cfg); entries := map (rank r) (entries cfg);
     exit_block := rank r (exit_block cfg) |}.

(** Pruning fails just when the exit block cannot be reached. *)
Lemma prune_spec cfg :
  edges_ok (blocks cfg) -> entries cfg <> [] -> exit_block cfg < block_count cfg ->
  Forall (fun e => e < block_count cfg) (entries cfg) ->
  returns (prune_unreachable_blocks cfg) (fun r =>
    match r with
    | None => ~ reachable (blocks cfg) (entries cfg) (exit_block cfg)
    | Some cfg' => exists r, length r = block_count cfg /\ cfg' = pruned r cfg /\
        marked r (exit_block cfg) /\
        forall b, marked r b <-> reachable (blocks cfg) (entries cfg) b
    end).
Proof.
  intros Hedges Hne Hexit Hes. unfold prune_unreachable_blocks.
  destruct (mark_all_spec (map Some (entries cfg)) (replicate (block_count cfg) false) [])
    as (r1 & stack & -> & Hm).
  { intros i Hi. apply list_elem_of_fmap in Hi as (e & [= ->] & He). rewrite length_replicate.
    rewrite Forall_forall in Hes. by apply Hes. }
  cbn [mbind outcome_bind].
  assert (forall b, b ∈ some_links (map Some (entries cfg)) <-> b ∈ entries cfg) as Hin.
  { intros b. rewrite some_links_in, list_elem_of_fmap. split; [by intros (e & [= ->] & He)|by exists b]. }
  assert (forall b, ~ marked (replicate (block_count cfg) false) b) as Hnone.
  { intros b Hb. unfold marked in Hb. by apply lookup_replicate in Hb as [? _]. }
  assert (marking (blocks cfg) (entries cfg) r1 stack) as Hmk.
  { destruct Hm as [M1 M2 M3 M4 M5 _]. constructor.
    - rewrite M1. apply length_replicate.
    - intros b [Hb|Hb]%M2; [by destruct (Hnone b)|]. by apply reachable_entry, Hin.
    - intros e He. apply M2. right. by apply Hin.
    - intros b [Hb|Hb]%M4; [|done]. by apply not_elem_of_nil in Hb.
    - intros b s Hb _. left. by apply M3 in Hb as [Hb|Hb]; [destruct (Hnone b)|]. }
  destruct (mark_reachable_spec (blocks cfg) (entries cfg) Hedges (S (block_count cfg)) r1 stack Hmk)
    as (r & -> & Hr).
  { destruct Hm as [_ _ _ _ _ E]. pose proof (length_filter (fun x => x = false) (replicate (block_count cfg) false)) as H.
    rewrite length_replicate in H. unfold unmarked in E at 2. cbn in E. lia. }
  cbn [mbind outcome_bind]. pose proof (mk_length _ _ _ _ Hr) as Hl.
  destruct (forallb negb r) eqn:Hall.
  { exfalso. destruct (entries cfg) as [|e es] eqn:E; [done|]. rewrite forallb_forall in Hall.
    pose proof (mk_entries _ _ _ _ Hr e ltac:(left)) as He.
    assert (In true r) as Htrue by (apply list_elem_of_In; by eapply list_elem_of_lookup_2).
    by apply Hall in Htrue. }
  unfold read_map. rewrite number_lookup.
  destruct (lookup_lt_is_Some_2 r (exit_block cfg)) as [x Hx]; [by rewrite Hl|].
  rewrite Hx. cbn. destruct x.
  - rewrite keep_blocks_spec.
    2: { intros i block Hi Hb s Hs. destruct (mk_closed _ _ _ _ Hr i s Hi) as [H|?]; [by exists block| |done].
         by apply not_elem_of_nil in H. }
    cbn. rewrite map_entries_spec by (intros e He; by apply Hr). cbn.
    exists r. split_and!; [done..|]. intros b. by apply marking_exact.
  - cbn. rewrite <- (marking_exact _ _ _ _ Hr). unfold marked. by rewrite Hx.
Qed.
