(* ===== verification/CfgProps.v ===== *)
(** CfgProps: vnt_cfg_build. Construction, the folding of constant branches and
    pruning together give a graph whose paths are the runs of the program. *)

From S2P Require Import Prelude Clib Ast Ir IrTrees IrFacts IrAccess Cfg CfgTraces CfgBuild.
From S2P Require Import CfgPrune IrLayout.

(** * Constant branches *)

(** Literals hold the value of their opcode. *)
Definition booleans_typed (ir : VntIrProgram) : Prop :=
  forall i n, nodes ir !! i = Some n -> opcode n = VNT_IR_BOOLEAN -> exists b, value n = VAL_BOOLEAN b.

(** The value of a condition that is a literal. *)
Definition constant_at (ir : VntIrProgram) (c : nat) : option bool :=
  match nodes ir !! c with
  | Some n => if decide (opcode n = VNT_IR_BOOLEAN)
              then match value n with VAL_BOOLEAN b => Some b | _ => None end
              else None
  | None => None
  end.

(** A run takes the branch of a literal, which is not observed. *)
Definition event_feasible (ir : VntIrProgram) (e : event) : Prop :=
  match e with
  | Executes _ => True
  | Tests c b => constant_at ir c <> Some (negb b)
  end.
Definition feasible (ir : VntIrProgram) (t : list event) : Prop := Forall (event_feasible ir) t.

Definition observed (ir : VntIrProgram) (e : event) : bool :=
  match e with
  | Executes _ => true
  | Tests c _ => match constant_at ir c with Some _ => false | None => true end
  end.
Definition observable (ir : VntIrProgram) (t : list event) : list event :=
  filter (fun e => observed ir e = true) t.

Definition simplified (ir : VntIrProgram) (block : VntCfgBlock) : VntCfgBlock :=
  match terminator block, condition block with
  | VNT_CFG_BRANCH, Some c =>
      match constant_at ir c with
      | Some b => jump_to (if b then true_successor block else false_successor block)
      | None => block
      end
  | _, _ => block
  end.

Lemma simplify_block_spec ir block : booleans_typed ir ->
  simplify_block ir block = Done (simplified ir block).
Proof.
  intros Ht. unfold simplify_block, simplified, constant_at, node_at.
  destruct (terminator block); try done. destruct (condition block) as [c|]; [|done].
  destruct (Nat.leb_spec (node_count ir) c) as [Hc|Hc].
  - by rewrite lookup_ge_None_2.
  - destruct (lookup_lt_is_Some_2 (nodes ir) c Hc) as [n Hn]. rewrite Hn. cbn.
    destruct (decide (opcode n = VNT_IR_BOOLEAN)) as [Hop|Hop].
    + rewrite bool_decide_eq_true_2 by done. destruct (Ht c n Hn Hop) as [b Hb].
      unfold node_boolean. by rewrite Hb.
    + by rewrite bool_decide_eq_false_2.
Qed.

Lemma simplify_blocks_spec ir bs : booleans_typed ir -> simplify_blocks ir bs = Done (map (simplified ir) bs).
Proof.
  intros Ht. induction bs as [|block bs IH]; cbn [simplify_blocks]; [done|].
  rewrite (simplify_block_spec ir block Ht). cbn. by rewrite IH.
Qed.

(** Only branches have conditions. *)
Definition branches_ok (bs : list VntCfgBlock) : Prop :=
  forall b block, bs !! b = Some block -> condition block <> None -> terminator block = VNT_CFG_BRANCH.

Lemma emits_simplified ir block s es' :
  (condition block <> None -> terminator block = VNT_CFG_BRANCH) ->
  emits (simplified ir block) s es' <->
  exists es, emits block s es /\ feasible ir es /\ es' = observable ir es.
Proof.
  intros Hbr. unfold simplified, emits, feasible, observable.
  destruct (condition block) as [c|] eqn:Hc.
  - rewrite Hbr by done. destruct (constant_at ir c) as [v|] eqn:Hv; cbn [condition jump_to].
    + split.
      * intros [Hs ->]. exists [Tests c v]. split; [by exists v|]. rewrite filter_cons. cbn.
        rewrite Hv. split; [|done]. apply Forall_singleton. cbn. rewrite Hv. by destruct v.
      * intros (es & (b & Hs & ->) & Hf & ->). apply Forall_inv in Hf. cbn in Hf. rewrite Hv in Hf.
        assert (b = v) as -> by (destruct b, v; try done; by destruct Hf).
        split; [done|]. rewrite filter_cons. cbn. by rewrite Hv.
    + rewrite Hc. split.
      * intros (b & Hs & ->). exists [Tests c b]. split; [by exists b|]. rewrite filter_cons. cbn.
        rewrite Hv. split; [|done]. apply Forall_singleton. cbn. by rewrite Hv.
      * intros (es & (b & Hs & ->) & _ & ->). exists b. split; [done|]. rewrite filter_cons. cbn. by rewrite Hv.
  - assert (emits block s es' <-> exists es, emits block s es /\ feasible ir es /\ es' = observable ir es) as H.
    { unfold emits. rewrite Hc. split.
      - intros [Hs ->]. eexists. split; [done|]. destruct (instruction block); (split; [repeat constructor|done]).
      - intros (es & [Hs ->] & _ & ->). split; [done|]. by destruct (instruction block). }
    unfold emits, feasible, observable in H. rewrite Hc in H. by destruct (terminator block); rewrite Hc.
Qed.

Lemma path_simplified ir bs k e t' x : branches_ok bs ->
  path (map (simplified ir) bs) k e t' x <->
  exists t, path bs k e t x /\ feasible ir t /\ t' = observable ir t.
Proof.
  intros Hbr. split.
  - induction 1 as [b|k b block es s t b' Hb He _ (t0 & Hp & Hf & ->)].
    { exists []. split; [constructor|]. by split; [constructor|]. }
    rewrite list_lookup_fmap in Hb. destruct (bs !! b) as [block0|] eqn:Hb0; [|done]. injection Hb as <-.
    apply emits_simplified in He as (es0 & He & Hfe & ->); [|by eapply Hbr].
    exists (es0 ++ t0). split; [by eapply path_step|]. split; [by apply Forall_app|].
    unfold observable. by rewrite filter_app.
  - intros (t & Hp & Hf & ->). induction Hp as [b|k b block es s t b' Hb He _ IH]; [constructor|].
    apply Forall_app in Hf as [Hfe Hf]. unfold observable. rewrite filter_app.
    eapply path_step; [by rewrite list_lookup_fmap, Hb| |by apply IH].
    apply emits_simplified; [by eapply Hbr|]. by exists es.
Qed.

(** * Pruned graphs *)

Lemma emits_renamed r block s es : emits block s es -> emits (renamed r block) (rank r s) es.
Proof.
  unfold emits. cbn. destruct (condition block) as [c|].
  - intros (b & Hs & ->). exists b. by destruct b; rewrite Hs.
  - intros [-> ->]. done.
Qed.

Lemma emits_renamed_inv r block s' es : emits (renamed r block) s' es ->
  exists s, s' = rank r s /\ emits block s es.
Proof.
  unfold emits. cbn. destruct (condition block) as [c|].
  - intros (b & Hs & ->). destruct b; apply fmap_Some in Hs as (s & Hs & ->); exists s;
      (split; [done|]); [by exists true|by exists false].
  - intros [Hs ->]. apply fmap_Some in Hs as (s & Hs & ->). by exists s.
Qed.

Lemma emits_edge bs b block s es : bs !! b = Some block -> emits block s es -> edge bs b s.
Proof.
  intros Hb He. exists block. split; [done|]. apply successors_in. unfold emits in He.
  destruct (condition block); [destruct He as ([] & Hs & _)|destruct He as [Hs _]]; auto.
Qed.

Section pruned.
Context (cfg : VntCfg) (r : list bool).
Hypothesis r_length : length r = block_count cfg.
Hypothesis r_closed : forall b s, marked r b -> edge (blocks cfg) b s -> marked r s.

Lemma path_pruned k e t x : marked r e ->
  (path (blocks cfg) k e t x -> path (blocks (pruned r cfg)) k (rank r e) t (rank r x)).
Proof.
  intros He Hp. induction Hp as [b|k b block es s t b' Hb Hes _ IH]; [constructor|].
  destruct (kept_lookup r r (blocks cfg) r_length) as [H _].
  eapply path_step; [by apply H|by apply emits_renamed|]. apply IH. eapply r_closed; [done|].
  by eapply emits_edge.
Qed.

Lemma path_pruned_inv k e' t x' : path (blocks (pruned r cfg)) k e' t x' -> forall e, marked r e ->
  e' = rank r e -> exists x, marked r x /\ x' = rank r x /\ path (blocks cfg) k e t x.
Proof.
  induction 1 as [b|k b block es s t b' Hb Hes _ IH]; intros e He ->.
  { exists e. split; [done|]. split; [done|constructor]. }
  destruct (kept_lookup r r (blocks cfg) r_length) as [_ H].
  destruct (H _ _ Hb) as (i & block0 & Hi & Heq & Hb0 & ->). apply rank_inj in Heq as ->; [|done..].
  apply emits_renamed_inv in Hes as (s0 & -> & Hes).
  destruct (IH s0) as (x & Hx & -> & Hp); [|done|].
  { eapply r_closed; [done|]. by eapply emits_edge. }
  exists x. split; [done|]. split; [done|]. by eapply path_step.
Qed.

Lemma path_pruned_iff k e t x : marked r e -> marked r x ->
  path (blocks (pruned r cfg)) k (rank r e) t (rank r x) <-> path (blocks cfg) k e t x.
Proof.
  intros He Hx. split; [|by apply path_pruned]. intros Hp.
  destruct (path_pruned_inv _ _ _ _ Hp e He eq_refl) as (x' & Hx' & Heq & Hp').
  by apply rank_inj in Heq as ->.
Qed.
End pruned.

(** * Graphs that are kept *)

Record graph_ok (ir : VntIrProgram) (cfg : VntCfg) : Prop := {
  gk_exit : exit_block cfg < block_count cfg;
  gk_entry : entries cfg <> [];
  gk_entries : Forall (fun e => e < block_count cfg) (entries cfg);
  gk_blocks : new_ok ir (exit_block cfg) 0 (blocks cfg)
}.

Lemma graph_ok_edges ir cfg : graph_ok ir cfg -> edges_ok (blocks cfg).
Proof. intros [_ _ _ H] b s (block & Hb & Hs). by eapply (H b); [lia|..]. Qed.

Lemma graph_ok_valid ir cfg :
  graph_ok ir cfg -> cfg_valid cfg /\ Forall (reference_ok ir) (blocks cfg).
Proof.
  intros Hg. pose proof (graph_ok_edges _ _ Hg). destruct Hg as [H1 H2 H3 H4]. split.
  - constructor; [done..|]. intros i b Hb. by destruct (H4 i b ltac:(lia) Hb) as (_ & ? & _).
  - apply Forall_forall. intros b Hb. apply list_elem_of_lookup in Hb as [i Hi].
    by destruct (H4 i b ltac:(lia) Hi) as (_ & _ & ?).
Qed.

Lemma graph_ok_branches ir cfg : graph_ok ir cfg -> branches_ok (blocks cfg).
Proof.
  intros [_ _ _ H4] i b Hb Hc. destruct (H4 i b ltac:(lia) Hb) as (_ & Ht & _).
  unfold terminates_ok in Ht. destruct (terminator b); try done; naive_solver.
Qed.

(** An edge of such a graph can be taken. *)
Lemma edge_emits ir cfg b s : graph_ok ir cfg -> edge (blocks cfg) b s ->
  exists block es, blocks cfg !! b = Some block /\ emits block s es.
Proof.
  intros [_ _ _ H4] (block & Hb & Hs). exists block.
  destruct (H4 b block ltac:(lia) Hb) as (_ & Ht & _). apply successors_in in Hs.
  unfold terminates_ok in Ht. unfold emits. destruct (terminator block).
  - destruct Ht as (_ & -> & _ & Hf). rewrite Hf in Hs. destruct Hs as [Hs|[=]]. by eexists.
  - destruct Ht as ((c & ->) & _). destruct Hs as [Hs|Hs]; eexists; (split; [done|]);
      [by exists true|by exists false].
  - destruct Ht as (-> & _ & Hf). rewrite Hf in Hs. destruct Hs as [Hs|[=]]. by eexists.
  - destruct Ht as (_ & -> & _ & Hf). rewrite Hf in Hs. destruct Hs as [Hs|[=]]. by eexists.
  - destruct Ht as (_ & _ & _ & Hy & Hf). rewrite Hy, Hf in Hs. by destruct Hs.
Qed.

Lemma reachable_path ir cfg x : graph_ok ir cfg -> reachable (blocks cfg) (entries cfg) x <->
  exists e k t, e ∈ entries cfg /\ path (blocks cfg) k e t x.
Proof.
  intros Hg. split.
  - induction 1 as [e He|b s _ (e & k & t & He & Hp) Hs]; [by exists e, 0, []; split; [|constructor]|].
    destruct (edge_emits _ _ _ _ Hg Hs) as (block & es & Hb & Hem).
    exists e, (k + 1), (t ++ es). split; [done|]. eapply path_app; [done|by eapply path_one].
  - intros (e & k & t & He & Hp). assert (reachable (blocks cfg) (entries cfg) e) as Hr by by constructor.
    clear He. induction Hp as [b|k b block es s t b' Hb Hes _ IH]; [done|]. apply IH.
    eapply reachable_edge; [done|]. by eapply emits_edge.
Qed.

Lemma simplified_successors ir block s : Some s ∈ successors (simplified ir block) -> Some s ∈ successors block.
Proof.
  rewrite !successors_in. unfold simplified. destruct (terminator block), (condition block) as [c|]; try done.
  destruct (constant_at ir c) as [[]|]; [..|done]; cbn; intros [?|[=]]; auto.
Qed.

Lemma simplified_ok ir cfg : graph_ok ir cfg ->
  graph_ok ir (with_blocks (map (simplified ir) (blocks cfg)) cfg).
Proof.
  intros [H1 H2 H3 H4]. unfold block_count in *. constructor; unfold block_count; cbn; rewrite ?length_map; try done.
  intros j block _ Hj. rewrite list_lookup_fmap in Hj. destruct (blocks cfg !! j) as [block0|] eqn:Hb; [|done].
  injection Hj as <-. destruct (H4 j block0 ltac:(lia) Hb) as (Hs & Ht & Hr). rewrite length_map. split_and!.
  - intros s Hin. by apply Hs, (simplified_successors ir).
  - unfold simplified. destruct (terminator block0) eqn:E, (condition block0) as [c|] eqn:Ec; try done.
    destruct (constant_at ir c) as [b|]; [|done]. unfold terminates_ok in *. rewrite E in Ht. cbn.
    destruct Ht as (_ & (y & Hy) & (z & Hz) & _). split_and!; [done| |done]. destruct b; eauto.
  - unfold simplified. destruct (terminator block0), (condition block0) as [c|]; try done.
    by destruct (constant_at ir c).
Qed.

Section keep.
Context (ir : VntIrProgram) (cfg : VntCfg) (r : list bool).
Hypothesis ok : graph_ok ir cfg.
Hypothesis r_length : length r = block_count cfg.
Hypothesis r_exit : marked r (exit_block cfg).
Hypothesis r_marks : forall b, marked r b <-> reachable (blocks cfg) (entries cfg) b.

Lemma marks_closed b s : marked r b -> edge (blocks cfg) b s -> marked r s.
Proof. rewrite !r_marks. apply reachable_edge. Qed.

Lemma rank_in_range i : marked r i -> rank r i < length (kept_blocks r r (blocks cfg)).
Proof.
  intros Hi. assert (i < length (blocks cfg)) as Hl.
  { change (length (blocks cfg)) with (block_count cfg). rewrite <- r_length. by eapply lookup_lt_Some. }
  destruct (lookup_lt_is_Some_2 _ _ Hl) as [block Hb].
  eapply lookup_lt_Some. by apply (proj1 (kept_lookup r r (blocks cfg) r_length)).
Qed.

Lemma pruned_ok : graph_ok ir (pruned r cfg).
Proof.
  destruct ok as [H1 H2 H3 H4]. constructor; unfold block_count; cbn.
  - by apply rank_in_range.
  - by destruct (entries cfg).
  - rewrite Forall_map. apply Forall_forall. intros e He. apply rank_in_range, r_marks. by constructor.
  - intros j block' _ Hj. destruct (proj2 (kept_lookup r r (blocks cfg) r_length) _ _ Hj)
      as (i & block & Hi & <- & Hb & ->). destruct (H4 i block ltac:(lia) Hb) as (Hs & Ht & Hr). split_and!.
    + intros s Hin. apply successors_in in Hin. cbn in Hin. rewrite !fmap_Some in Hin.
      destruct Hin as [(s0 & Hs0 & ->)|(s0 & Hs0 & ->)]; apply rank_in_range;
        (eapply marks_closed; [done|]); exists block; (split; [done|]); apply successors_in; auto.
    + unfold terminates_ok in *. cbn. destruct (terminator block).
      * destruct Ht as (? & ? & (s & ->) & ->). cbn. eauto 8.
      * destruct Ht as (? & (y & ->) & (z & ->) & ?). cbn. eauto 8.
      * destruct Ht as (? & (s & ->) & ->). cbn. eauto 8.
      * destruct Ht as (? & ? & -> & ->). cbn. eauto 8.
      * destruct Ht as (-> & ? & ? & -> & ->). cbn. eauto 8.
    + done.
Qed.

(** Every block that is left can be reached. *)
Lemma pruned_reachable j : j < block_count (pruned r cfg) ->
  reachable (blocks (pruned r cfg)) (entries (pruned r cfg)) j.
Proof.
  intros Hj. destruct (lookup_lt_is_Some_2 _ _ Hj) as [block' Hb'].
  destruct (proj2 (kept_lookup r r (blocks cfg) r_length) _ _ Hb') as (i & block & Hi & <- & _ & _).
  apply r_marks in Hi. clear Hj Hb'. induction Hi as [e He|b s Hb IH Hs].
  - constructor. cbn. apply list_elem_of_fmap. by exists e.
  - eapply reachable_edge; [exact IH|]. destruct Hs as (blk & Hblk & Hs). exists (renamed r blk).
    split; [apply (proj1 (kept_lookup r r (blocks cfg) r_length)); [by apply r_marks|done]|].
    apply successors_in in Hs. apply successors_in. cbn. destruct Hs as [-> | ->]; auto.
Qed.
End keep.

(** * The construction *)

(** The items of entry [p] have a run to the end with these observable events. *)
Definition finishes (ir : VntIrProgram) (p : nat * VntIrEdgeRole) (t' : list event) : Prop :=
  exists l t o, entry_items ir p l /\ runs_all ir l t o /\ ends o /\ feasible ir t /\ t' = observable ir t.

Lemma graph_of_ok ir ps cfg : ps <> [] -> graph_of ir ps cfg -> graph_ok ir cfg.
Proof.
  intros Hps [H1 H2 _ H4]. constructor; [by eapply lookup_lt_Some| | |done].
  - intros E. rewrite E in H4. by inversion H4.
  - clear Hps H2. induction H4 as [|p e ps es [He _] _ IH]; constructor; [done|]. apply IH.
Qed.

(** The paths of the simplified graph from the entry for [p]. *)
Lemma entry_paths ir ps cfg p e t' : ps <> [] -> graph_of ir ps cfg ->
  is_entry_for ir (blocks cfg) (exit_block cfg) p e ->
  (exists k, path (map (simplified ir) (blocks cfg)) k e t' (exit_block cfg)) <-> finishes ir p t'.
Proof.
  intros Hps Hg (He & l & lo & Hl & Henc).
  pose proof (graph_ok_branches _ _ (graph_of_ok _ _ _ Hps Hg)) as Hbr.
  assert (forall t, (exists k, path (blocks cfg) k e t (exit_block cfg)) <->
    exists o, ends o /\ runs_all ir l t o) as Hpaths.
  { intros t. eapply encodes_paths; [|exact Henc]. intros block s es Hb Hem.
    rewrite (go_exit _ _ _ Hg) in Hb. injection Hb as <-. by destruct Hem as [Hs _]. }
  setoid_rewrite (path_simplified ir (blocks cfg)); [|done]. split.
  - intros (k & t & Hp & Hf & ->). destruct (proj1 (Hpaths t)) as (o & Ho & Hr); [by exists k|].
    exists l, t, o. done.
  - intros (l' & t & o & Hl' & Hr & Ho & Hf & ->). unfold entry_items in *.
    rewrite (children_det _ _ _ _ _ Hl' Hl) in Hr.
    destruct (proj2 (Hpaths t)) as (k & Hp); [by exists o|]. by exists k, t.
Qed.

(** What vnt_cfg_build does on a valid program, step by step. *)
Lemma vnt_cfg_build_steps ir r : booleans_typed ir -> ir_valid ir -> root ir = Some r ->
  returns (vnt_cfg_build ir) (fun g =>
    match g with
    | None => Exists (has_stray ir) (entry_nodes ir r) \/
              forall p t, p ∈ entry_nodes ir r -> ~ finishes ir p t
    | Some cfg => exists cfg0 marks, graph_of ir (entry_nodes ir r) cfg0 /\
        let cfg1 := with_blocks (map (simplified ir) (blocks cfg0)) cfg0 in
        graph_ok ir cfg1 /\ cfg = pruned marks cfg1 /\ length marks = block_count cfg1 /\
        marked marks (exit_block cfg1) /\
        forall b, marked marks b <-> reachable (blocks cfg1) (entries cfg1) b
    end).
Proof.
  intros Htyped Hv Hr. unfold vnt_cfg_build. apply returns_bind.
  eapply returns_mono; [apply vnt_ir_validate_returns|]. intros valid [_ Hvalid].
  rewrite (Hvalid Hv), Hr. cbn [negb]. apply returns_bind.
  eapply returns_mono; [by apply build_graph_spec|]. intros [cfg0|]; [|by left]. intros Hg.
  unfold simplify_constant_branches. rewrite (simplify_blocks_spec ir _ Htyped).
  cbn [mbind outcome_bind mret outcome_ret]. set (cfg1 := with_blocks _ cfg0).
  assert (entry_nodes ir r <> []) as Hne by done.
  pose proof (simplified_ok ir cfg0 (graph_of_ok _ _ _ Hne Hg)) as Hok. fold cfg1 in Hok.
  apply returns_bind. eapply returns_mono.
  { apply prune_spec; [by eapply graph_ok_edges|by destruct Hok..]. }
  intros [cfg|].
  - intros (marks & Hl & -> & Hexit & Hmarks). pose proof (pruned_ok ir cfg1 marks Hok Hl Hexit Hmarks) as Hp.
    apply graph_ok_valid in Hp as [Hp _]. apply vnt_cfg_validate_spec in Hp. rewrite Hp.
    exists cfg0, marks. done.
  - intros Hunreach. right. intros p t Hp Hfin. apply Hunreach.
    apply list_elem_of_lookup in Hp as [k Hp].
    destruct (Forall2_lookup_l _ _ _ _ _ (go_entries _ _ _ Hg) Hp) as (e & He & Hfor).
    destruct (proj2 (entry_paths ir _ cfg0 p e t Hne Hg Hfor) Hfin) as (n & Hpath).
    apply (reachable_path ir cfg1 _ Hok). exists e, n, t. split; [by eapply list_elem_of_lookup_2|done].
Qed.

Lemma build_returns ir :
  booleans_typed ir ->
  returns (vnt_cfg_build ir) (fun g =>
    match g with
    | None => ~ ir_valid ir \/ exists r, root ir = Some r /\
        (Exists (has_stray ir) (entry_nodes ir r) \/
         forall p t, p ∈ entry_nodes ir r -> ~ finishes ir p t)
    | Some cfg => ir_valid ir /\ cfg_valid cfg /\ Forall (reference_ok ir) (blocks cfg) /\
        (forall b, b < block_count cfg -> reachable (blocks cfg) (entries cfg) b) /\
        exists r, root ir = Some r /\ Forall (fun p => ~ has_stray ir p) (entry_nodes ir r) /\
          exists p t, p ∈ entry_nodes ir r /\ finishes ir p t
    end).
Proof.
  intros Htyped. destruct (vnt_ir_validate ir) as [valid| |] eqn:E;
    pose proof (vnt_ir_validate_returns ir) as Hspec; rewrite E in Hspec; [|done..].
  destruct valid.
  2: { unfold vnt_cfg_build. rewrite E. cbn. destruct (root ir); left; naive_solver. }
  assert (ir_valid ir) as Hv by naive_solver. destruct (valid_root ir Hv) as (r & Hr & _).
  eapply returns_mono; [by apply (vnt_cfg_build_steps ir r)|].
  intros [cfg|]; [|right; eauto]. intros (cfg0 & marks & Hg & Hok & -> & Hl & Hexit & Hmarks).
  pose proof (pruned_ok ir _ marks Hok Hl Hexit Hmarks) as Hp.
  pose proof (graph_ok_valid _ _ Hp) as [Hcv Hrefs]. split_and!; [done..| |].
  - intros b. by apply pruned_reachable.
  - exists r. split; [done|]. split; [by destruct Hg|]. apply Hmarks, (reachable_path ir _ _ Hok) in Hexit.
    destruct Hexit as (e & k & t & He & Hpath). apply list_elem_of_lookup in He as [j He].
    destruct (Forall2_lookup_r _ _ _ _ _ (go_entries _ _ _ Hg) He) as (p & Hj & Hfor).
    exists p, t. split; [by eapply list_elem_of_lookup_2|].
    eapply entry_paths; [|exact Hg|exact Hfor|by exists k]. done.
Qed.

(** C21: building a graph returns, without reading outside of an array, on every HIR whose
    boolean literals hold booleans; a graph that is returned is valid, refers to nodes of
    the HIR, and all of its blocks are reachable; it is refused just when the HIR is not
    valid, when a break or continue is outside of a loop, or when no run reaches the end of
    the program or of a function. *)
Theorem vnt_cfg_build_returns ir :
  booleans_typed ir ->
  returns (vnt_cfg_build ir) (fun g =>
    match g with
    | None => ~ ir_valid ir \/ exists r, root ir = Some r /\
        (Exists (has_stray ir) (entry_nodes ir r) \/
         forall p t, p ∈ entry_nodes ir r -> ~ finishes ir p t)
    | Some cfg => ir_valid ir /\ cfg_valid cfg /\ Forall (reference_ok ir) (blocks cfg) /\
        (forall b, b < block_count cfg -> reachable (blocks cfg) (entries cfg) b) /\
        exists r, root ir = Some r /\ Forall (fun p => ~ has_stray ir p) (entry_nodes ir r) /\
          exists p t, p ∈ entry_nodes ir r /\ finishes ir p t
    end).
Proof. apply build_returns. Qed.

(** C14: the graph built from a program has the runs of the program and no others: for the
    statements of the program and for the body of every function, the sequences of
    statements executed and tests made along the paths from its entry to the exit are
    exactly the runs of its statements, with break, continue and return, in which the
    branches of literal conditions are taken as the literal says. *)
Theorem vnt_cfg_build_traces ir r cfg :
  booleans_typed ir -> root ir = Some r -> vnt_cfg_build ir = Done (Some cfg) ->
  Forall2 (fun p e => forall t,
    (exists k, path (blocks cfg) k e t (exit_block cfg)) <-> finishes ir p t)
    (entry_nodes ir r) (entries cfg).
Proof.
  intros Htyped Hr Hbuild.
  assert (ir_valid ir) as Hv.
  { pose proof (build_returns ir Htyped) as H. rewrite Hbuild in H. apply H. }
  pose proof (vnt_cfg_build_steps ir r Htyped Hv Hr) as H. rewrite Hbuild in H.
  destruct H as (cfg0 & marks & Hg & Hok & -> & Hl & Hexit & Hmarks). cbn [entries exit_block pruned].
  assert (Forall (marked marks) (entries cfg0)) as Hes.
  { apply Forall_forall. intros e He. apply Hmarks. by constructor. }
  assert (forall p e, is_entry_for ir (blocks cfg0) (exit_block cfg0) p e -> marked marks e -> forall t,
    (exists k, path (blocks (pruned marks (with_blocks (map (simplified ir) (blocks cfg0)) cfg0))) k
       (rank marks e) t (rank marks (exit_block cfg0))) <-> finishes ir p t) as Hentry.
  { intros p e Hfor He t. assert (entry_nodes ir r <> []) as Hne by done.
    rewrite <- (entry_paths ir _ cfg0 p e t Hne Hg Hfor).
    by setoid_rewrite (path_pruned_iff _ _ Hl (marks_closed _ marks Hmarks) _ _ _ _ He Hexit). }
  clear Hok Hl Hexit Hmarks Hbuild. destruct Hg as [_ _ _ Hentries].
  cbn [entries exit_block with_blocks]. revert Hes Hentries.
  generalize (entry_nodes ir r) as ps, (entries cfg0) as es. intros ps es Hes Hentries.
  revert Hes. induction Hentries as [|p e ps es Hfor _ IH]; intros Hes; [constructor|].
  apply Forall_cons in Hes as [He Hes]. constructor; [by apply Hentry|by apply IH].
Qed.

(** * A sample: [while true { if c { break } print(1) }] *)

Definition sample_node (op : VntIrOpcode) (r : VntIrEdgeRole) (v : VntIrValue) (hs : list hir) : hir :=
  Hir {| l_opcode := op; l_role := r; l_operation := 0; l_names := []; l_type_name := None;
         l_value := v |} hs.

Definition sample : VntIrProgram :=
  {| nodes := layout 0 None
       (sample_node VNT_IR_PROGRAM VNT_IR_EDGE_ROOT VAL_NONE
          [sample_node VNT_IR_WHILE VNT_IR_EDGE_STATEMENT VAL_NONE
             [sample_node VNT_IR_BOOLEAN VNT_IR_EDGE_CONDITION (VAL_BOOLEAN true) [];
              sample_node VNT_IR_IF VNT_IR_EDGE_BODY VAL_NONE
                [sample_node VNT_IR_VARIABLE VNT_IR_EDGE_CONDITION (VAL_TEXT (str "c")) [];
                 sample_node VNT_IR_BREAK VNT_IR_EDGE_THEN VAL_NONE []];
              sample_node VNT_IR_PRINT VNT_IR_EDGE_BODY VAL_NONE
                [sample_node VNT_IR_INTEGER VNT_IR_EDGE_VALUE (VAL_INTEGER 1) []]]]);
     root := Some 0; optimized_nodes := 0 |}.

Lemma sample_typed : booleans_typed sample.
Proof.
  intros i n Hn Hop. do 8 (destruct i as [|i]; [injection Hn as <-; (discriminate Hop || by eexists)|]).
  discriminate Hn.
Defined.

Lemma vnt_cfg_build_returns_witness :
  exists cfg, vnt_cfg_build sample = Done (Some cfg) /\ cfg_valid cfg /\ block_count cfg = 5.
Proof.
  pose proof (vnt_cfg_build_returns sample sample_typed) as H.
  destruct (vnt_cfg_build sample) as [[cfg|]| |] eqn:E; vm_compute in E; try discriminate E.
  exists cfg. injection E as <-. split; [reflexivity|]. split; [apply H|reflexivity].
Defined.

(** The run that tests [c] once and leaves the loop. *)
Lemma vnt_cfg_build_traces_witness :
  exists cfg, vnt_cfg_build sample = Done (Some cfg) /\
    finishes sample (0, VNT_IR_EDGE_STATEMENT) [Tests 4 true; Executes 5].
Proof.
  destruct (vnt_cfg_build sample) as [[cfg|]| |] eqn:E; vm_compute in E; try discriminate E.
  pose proof (vnt_cfg_build_traces sample 0 cfg sample_typed eq_refl) as H.
  exists cfg. split; [reflexivity|]. injection E as <-.
  specialize (H ltac:(vm_compute; reflexivity)). apply Forall2_cons in H as [H _].
  apply H. exists 3. cbn [blocks exit_block].
  eapply (path_step _ 2 1 _ [] 4); [reflexivity|by split|].
  eapply (path_step _ 1 4 _ [Tests 4 true] 3); [reflexivity|by exists true|].
  eapply (path_step _ 0 3 _ [Executes 5] 0); [reflexivity|by split|]. constructor.
Defined.
