(* ===== verification/IrProps.v ===== *)
(** IrProps: validation of HIR arrays is exact, and lowering a program gives the
    layout of its tree with the names of its variables resolved. *)

From S2P Require Import Prelude Clib Ast Ir IrTrees IrFacts IrLayout IrAccess IrLower.
From S2P Require Import IrScopesFacts IrResolve Expressions ExpressionsProps StatementsFacts.
From S2P Require Import Parser ParserFacts Statements StatementsProps CfgProps.

#[local] Opaque symbol_key.

(** * Validation *)

(** C22: validation of an HIR array returns on every array, whatever its links, and accepts
    exactly the arrays that store one tree of well-formed nodes under a program node: every
    node once, with the children in the roles its opcode has. *)
Theorem vnt_ir_validate_exact ir :
  exists b, vnt_ir_validate ir = Done b /\ (b = true <-> ir_valid ir).
Proof.
  pose proof (vnt_ir_validate_returns ir) as H. destruct (vnt_ir_validate ir) as [b| |]; [|done..].
  by exists b.
Qed.

(** * Lowering *)

(** The array lowering builds, before names are resolved. *)
Definition lowered (a : ast) : VntIrProgram :=
  {| nodes := layout 0 None (hir_of a); root := Some 0; optimized_nodes := 0 |}.

Lemma lowered_valid a : is_program a = true -> ir_valid (lowered a).
Proof.
  intros Ha. apply layout_valid; [apply hir_of_wf|by destruct a..].
Qed.

Lemma resolve_lowered a : returns (resolve_hir_symbols 0 (lowered a)) (fun p =>
  match resolve_program (subtrees (tree_at 0 (hir_of a))) with
  | None => p.1 = false
  | Some rn => p = (true, apply_all rn (lowered a))
  end).
Proof.
  pose proof (layout_represents (hir_of a) 0) as [_ Hst Hall]. fold (lowered a) in *.
  pose proof (erase_tree_at (hir_of a) 0) as He. pose proof (hir_of_wf a) as Hwf.
  destruct (tree_at 0 (hir_of a)) as [i l ts] eqn:Et.
  assert (i = 0) as -> by (destruct (hir_of a); by injection Et).
  inversion Hst as [? n ? Hn _ _]; subst. cbn [subtrees].
  apply (resolve_hir_symbols_spec (lowered a) 0 n ts Hn); [|by rewrite Hall, length_seq|done].
  constructor; [done|by rewrite He|]. rewrite Hall. apply NoDup_seq.
Qed.

Lemma lower_exact a :
  lowerable a ->
  vnt_ir_lower a = Done (
    if is_program a
    then (fun rn => apply_all rn (lowered a)) <$> resolve_program (subtrees (tree_at 0 (hir_of a)))
    else None) /\
  (is_program a = true -> forall rn, ir_valid (apply_all rn (lowered a))).
Proof.
  intros Ha. split; [|by intros Hp rn; apply apply_all_valid, lowered_valid].
  unfold vnt_ir_lower, build_hir. destruct (is_program a) eqn:Hp; [|done]. cbn [negb].
  rewrite (lower_node_spec a Ha). change (node_count empty_program) with 0.
  change {| nodes := _; root := _; optimized_nodes := _ |} with (lowered a).
  pose proof (resolve_lowered a) as H.
  destruct (resolve_hir_symbols 0 (lowered a)) as [[ok ir]| |]; [|done..]. cbn in H.
  destruct (resolve_program _) as [rn|]; cbn [fmap option_fmap option_map].
  - injection H as -> ->. pose proof (vnt_ir_validate_returns (apply_all rn (lowered a))) as Hv.
    destruct (vnt_ir_validate _) as [b| |]; [|done..].
    by rewrite (proj2 Hv (apply_all_valid rn _ (lowered_valid a Hp))).
  - by rewrite H.
Qed.

(** C19: lowering a program whose counts are right writes its tree node by node into the
    array, in depth-first order, with the name of every variable replaced by the key of the
    declaration that lexical scoping gives it; it fails exactly when a variable is used that
    is in no scope, and the final validation never refuses the result. *)
Theorem vnt_ir_lower_exact a :
  lowerable a ->
  vnt_ir_lower a = Done (
    if is_program a
    then (fun rn => apply_all rn (lowered a)) <$> resolve_program (subtrees (tree_at 0 (hir_of a)))
    else None) /\
  (is_program a = true -> forall rn, ir_valid (apply_all rn (lowered a))).
Proof. apply lower_exact. Qed.

(** * What the parser gives can be lowered *)

Ltac each_edge := repeat (apply Forall_nil_2 || apply Forall_cons_2); cbn [snd].

Lemma forallb_edges (f : ast -> bool) r l (P : ast -> Prop) :
  Forall (fun e : VntIrEdgeRole * ast => f e.2 = true -> P e.2) (map (pair r) l) ->
  forallb f l = true -> Forall (fun e : VntIrEdgeRole * ast => P e.2) (map (pair r) l).
Proof.
  rewrite !Forall_map. intros H Hf. apply Forall_forall. intros a Ha. rewrite Forall_forall in H.
  apply H; [done|]. rewrite forallb_forall in Hf. by apply Hf, list_elem_of_In.
Qed.

Lemma expression_lowerable a : expression_wf a = true -> lowerable a.
Proof.
  induction a as [a IH] using ast_edges_ind. intros Hw. constructor; [by destruct a|].
  destruct a; try discriminate Hw; cbn [edges expression_wf] in *; try constructor;
    try (apply (forallb_edges expression_wf); [done|by apply andb_prop in Hw as [_ Hw]]);
    repeat match goal with
    | H : _ && _ = true |- _ => apply andb_prop in H as [? ?]
    | H : Forall _ (_ :: _) |- _ => apply Forall_cons in H as [? ?]
    end; each_edge; cbn in *; auto.
Qed.

Lemma statement_lowerable a : statement_wf a = true -> lowerable a.
Proof.
  induction a as [a IH] using ast_edges_ind. intros Hw.
  assert (forall r l, Forall (fun e => statement_wf e.2 = true -> lowerable e.2) (map (pair r) l) ->
    forallb statement_wf l = true ->
    Forall (fun e : VntIrEdgeRole * ast => lowerable e.2) (map (pair r) l)) as all
    by (intros r l; apply (forallb_edges statement_wf)).
  destruct a; try discriminate Hw; cbn [edges statement_wf] in *;
    repeat match goal with H : _ && _ = true |- _ => apply andb_prop in H as [? ?] end;
    try (by apply expression_lowerable); constructor; try done; try (by apply all).
  all: try (each_edge; by apply expression_lowerable).
  - apply Forall_cons in IH as [_ [H2 H3]%Forall_app].
    constructor; [by apply expression_lowerable|]. apply Forall_app. split; by apply all.
  - apply Forall_cons in IH as [_ H2]. constructor; [by apply expression_lowerable|]. by apply all.
  - unfold counts_ok. cbn. unfold copy_names.
    match goal with H : (length parameters =? _) = true |- _ => apply Nat.eqb_eq in H as -> end.
    by rewrite Nat.leb_refl.
  - unfold counts_ok. cbn. unfold copy_names. apply Nat.eqb_eq in Hw as ->. by rewrite Nat.leb_refl.
  - destruct expression; each_edge. by apply expression_lowerable.
  - each_edge; apply expression_lowerable; [|done].
    apply target_wf. match goal with H : assignable ?t = true |- _ => revert H; by destruct t end.
Qed.

Lemma program_lowerable ss : forallb statement_wf ss = true -> lowerable (AST_PROGRAM ss).
Proof.
  intros Hw. constructor; [done|]. cbn [edges]. rewrite Forall_map. apply Forall_forall. intros a Ha.
  apply statement_lowerable. rewrite forallb_forall in Hw. by apply Hw, list_elem_of_In.
Qed.

(** * The literals of a lowered program *)

(** A renaming changes the text of variables only. *)
Definition renames_variable (ir : VntIrProgram) (r : renaming) : Prop :=
  match r with
  | RenameText i _ => exists n, nodes ir !! i = Some n /\ holds_variable (opcode n) = true
  | RenameName _ _ _ => True
  end.

Lemma renames_variable_links ir ir' r : same_links ir ir' -> renames_variable ir r -> renames_variable ir' r.
Proof.
  intros Hl. destruct r as [i key|]; [|done]. intros (n & Hn & Hv).
  destruct (same_links_at _ _ _ _ Hl Hn) as (n' & Hn' & E). exists n'. split; [done|].
  by rewrite (sn_opcode _ _ E).
Qed.

Lemma variable_literal l : holds_variable (l_opcode l) = true -> literal_ok l.
Proof. unfold literal_ok. by destruct (l_opcode l). Qed.

Lemma renaming_typed ir r : renames_variable ir r -> literals_ok ir -> literals_ok (apply_renaming ir r).
Proof.
  intros Hr Ht i n Hn. cbn in Hn. destruct (decide (i = renamed_node r)) as [->|Hne].
  - rewrite list_lookup_alter_eq in Hn. destruct (nodes ir !! renamed_node r) as [m|] eqn:Hm; [|done].
    injection Hn as <-. destruct r as [i key|i p key]; cbn in *.
    + destruct Hr as (m' & Hm' & Hv). simplify_eq. by apply variable_literal.
    + by apply (Ht i m).
  - rewrite list_lookup_alter_ne in Hn by done. by eapply Ht.
Qed.

Lemma apply_all_typed rn : forall ir, Forall (renames_variable ir) rn -> literals_ok ir ->
  literals_ok (apply_all rn ir).
Proof.
  induction rn as [|r rn IH]; intros ir Hall Ht; [done|]. apply Forall_cons in Hall as [Hr Hall]. cbn.
  apply IH; [|by apply renaming_typed]. eapply Forall_impl; [exact Hall|]. intros r'.
  apply renames_variable_links, apply_renaming_links.
Qed.

Lemma stored_variable ir t j : stored ir t -> j ∈ variable_nodes t ->
  exists n, nodes ir !! j = Some n /\ holds_variable (opcode n) = true.
Proof.
  induction t as [i l ts IH] using tree_ind. intros Hst Hj.
  inversion Hst as [? n ? Hn _ Hts]; subst. cbn in Hj. apply elem_of_app in Hj as [Hj|Hj].
  - destruct (holds_variable (opcode n)) eqn:E; [|by apply not_elem_of_nil in Hj].
    apply list_elem_of_singleton in Hj as ->. by exists n.
  - apply list_elem_of_In, in_concat in Hj as (us & Hus & Hj). apply in_map_iff in Hus as (t & <- & Ht).
    apply list_elem_of_In in Ht, Hj. rewrite Forall_forall in IH, Hts. apply (IH t); [done|by apply Hts|done].
Qed.

Lemma program_renamings ir ts rn : Forall (stored ir) ts -> resolve_program ts = Some rn ->
  Forall (renames_variable ir) rn.
Proof.
  intros Hts H. unfold resolve_program in H.
  destruct (seq_all _ (global_scope ts)) as [[s r]|] eqn:E; [|done]. injection H as <-.
  revert E. apply (seq_all_sat (renames_variable ir)). rewrite Forall_map. apply Forall_forall.
  intros t Ht. apply statement_sat; [|done]. intros j key Hj. rewrite Forall_forall in Hts.
  by eapply stored_variable; [apply Hts|].
Qed.

Inductive literals_typed : hir -> Prop :=
  | literals_typed_node l hs : literal_ok l -> Forall literals_typed hs -> literals_typed (Hir l hs).

Lemma hir_of_typed a : literals_typed (hir_of a).
Proof.
  induction a as [a IH] using ast_edges_ind. rewrite hir_of_edges. constructor.
  - unfold literal_ok. destruct a; cbn; try done; try (by eexists). by destruct is_reassignment.
  - apply Forall_map. eapply Forall_impl; [exact IH|]. intros e H. unfold edge_hir. by destruct H.
Qed.

Lemma layout_typed h : literals_typed h -> forall base next,
  Forall (fun n => literal_ok (label_of n)) (layout base next h).
Proof.
  induction h as [l hs IH] using hir_ind. intros Ht base next. inversion Ht as [? ? Hl Hhs]; subst. cbn.
  constructor; [by unfold head_node; rewrite label_of_node_of|]. generalize (S base) as b.
  induction hs as [|h hs IHhs]; intros b; cbn; [done|]. apply Forall_cons in IH as [IH IHf].
  apply Forall_cons in Hhs as [Hh Hhs]. apply Forall_app. split; [by apply IH|].
  apply IHhs; [done|by constructor|done].
Qed.

Lemma lowered_typed a : literals_ok (lowered a).
Proof.
  intros i n Hn. pose proof (layout_typed _ (hir_of_typed a) 0 None) as H.
  apply list_elem_of_lookup_2 in Hn. rewrite Forall_forall in H. by apply (H n Hn).
Qed.

(** What building a control-flow graph needs. *)
Lemma literals_booleans ir : literals_ok ir -> booleans_typed ir.
Proof. intros H i n Hn Hop. specialize (H i n Hn). unfold literal_ok in H. cbn in H. by rewrite Hop in H. Qed.

Lemma lower_typed a ir : lowerable a -> vnt_ir_lower a = Done (Some ir) -> ir_valid ir /\ literals_ok ir.
Proof.
  intros Ha E. destruct (lower_exact a Ha) as [E' Hv]. rewrite E in E'. injection E' as Hir.
  destruct (is_program a); [|done]. destruct (resolve_program _) as [rn|] eqn:Hrn; [|done].
  injection Hir as ->. split; [by apply Hv|]. apply apply_all_typed; [|apply lowered_typed].
  eapply program_renamings; [|exact Hrn].
  pose proof (represents_stored _ _ (layout_represents (hir_of a) 0)) as Hst.
  by inversion Hst as [? ? ? ? ? Hts].
Qed.

(** * Parsing and lowering *)

(** Every program the parser returns can be lowered: lowering it returns, and gives
    either nothing, when a variable is not in scope, or a valid HIR whose boolean literals
    hold booleans. *)
Theorem parsed_program_lowers counter src program p :
  parse_source counter src = Done (Some program, p) ->
  exists o, vnt_ir_lower program = Done o /\
    (o = None <-> resolve_program (subtrees (tree_at 0 (hir_of program))) = None) /\
    forall ir, o = Some ir -> ir_valid ir /\ booleans_typed ir /\ nodes ir <> [].
Proof.
  intros E. destruct (parse_source_ok counter src) as (p0 & o & p' & E' & [_ _ Ht _] & _).
  rewrite E in E'. injection E' as <- <-. destruct Ht as (ss & -> & Hw & _).
  pose proof (program_lowerable ss Hw) as Hl. destruct (lower_exact _ Hl) as [Hlow _].
  eexists. split; [exact Hlow|]. cbn [is_program]. split.
  - by destruct (resolve_program _).
  - intros ir Hir. rewrite Hir in Hlow. destruct (lower_typed _ _ Hl Hlow) as [Hv Hb]. split_and!; [done|by apply literals_booleans|].
    destruct (valid_root _ Hv) as (r & _ & Hr). intros En. unfold node_count in Hr. rewrite En in Hr.
    cbn in Hr. lia.
Qed.

Definition lower_sample : bytes := str "fun f(a) { b = a return b } y = 1 if y { x = f(y) print(x) } print(y)".
Definition lower_sample_ast : ast * Parser :=
  match parse_source 0 lower_sample with
  | Done (Some program, p) => (program, p)
  | _ => (AST_PROGRAM [], parser_at [])
  end.

Lemma lower_sample_parses : parse_source 0 lower_sample = Done (Some lower_sample_ast.1, lower_sample_ast.2).
Proof. vm_compute. reflexivity. Defined.

Lemma parsed_program_lowers_witness :
  exists ir, vnt_ir_lower lower_sample_ast.1 = Done (Some ir) /\ ir_valid ir /\ node_count ir = 17.
Proof.
  destruct (parsed_program_lowers 0 lower_sample _ _ lower_sample_parses) as (o & Ho & _ & Hv).
  destruct o as [ir|]; [|vm_compute in Ho; discriminate Ho].
  exists ir. split; [exact Ho|]. split; [by apply Hv|].
  vm_compute in Ho. injection Ho as <-. reflexivity.
Defined.

Lemma lower_sample_lowerable : lowerable lower_sample_ast.1.
Proof. destruct (source_wf _ _ _ _ lower_sample_parses) as (ss & -> & Hw & _). by apply program_lowerable. Qed.

Lemma vnt_ir_lower_exact_witness :
  lowerable lower_sample_ast.1 /\
  exists ir, vnt_ir_lower lower_sample_ast.1 = Done (Some ir) /\
    (value <$> nodes ir !! 3) = Some (VAL_TEXT (str "__vnt_symbol_1_a")).
Proof.
  split; [apply lower_sample_lowerable|]. destruct (vnt_ir_lower_exact _ lower_sample_lowerable) as [H _].
  eexists. split; [rewrite H; vm_compute; reflexivity|]. vm_compute. reflexivity.
Defined.
