(* ===== verification/IrOptimize.v ===== *)
(** IrOptimize: the optimizer of src/compiler/ir.c: constant folding, constant
    propagation, the removal of code that cannot be reached, and the copy of what
    is left to a new array. The passes rewrite the array in place; nodes that are
    no longer linked stay in it until the copy. *)

From S2P Require Import Prelude Clib Ast Ir.
From Stdlib Require Import SpecFloat.

(** * Constants *)

(** [kind] and the member of the union it says. *)
Inductive HirConstant : Type :=
  | CONST_INTEGER (integer : Z)
  | CONST_BOOLEAN (boolean : bool)
  | CONST_FLOAT (floating : binary64).

(** The program and the counter [changed]. *)
Record Rewriter := { rw_ir : VntIrProgram; rw_changed : nat }.

Definition rewrite_ir (ir : VntIrProgram) (rw : Rewriter) : Rewriter :=
  {| rw_ir := ir; rw_changed := rw_changed rw |}.

(** [++*changed] *)
Definition note_change : St Rewriter unit :=
  modify (fun rw => {| rw_ir := rw_ir rw; rw_changed := S (rw_changed rw) |}).

Definition on_nodes {A} (m : St VntIrProgram A) : St Rewriter A := fun rw =>
  match m (rw_ir rw) with
  | Done (a, ir) => Done (a, rewrite_ir ir rw)
  | Fault => Fault
  | Stuck => Stuck
  end.

Definition get_node (i : nat) : St Rewriter VntIrNode := asks (fun rw => node_at (rw_ir rw) i).
Definition set_node (i : nat) (f : VntIrNode -> VntIrNode) : St Rewriter unit := on_nodes (update_node i f).

Definition hir_constant (ir : VntIrProgram) (index : nat) : outcome (option HirConstant) :=
  if node_count ir <=? index then Done None
  else
    n ← node_at ir index;
    match opcode n with
    | VNT_IR_INTEGER => x ← node_integer n; mret (Some (CONST_INTEGER x))
    | VNT_IR_BOOLEAN => b ← node_boolean n; mret (Some (CONST_BOOLEAN b))
    | VNT_IR_FLOAT => d ← node_floating n; mret (Some (CONST_FLOAT d))
    | _ => Done None
    end.

Definition constant_opcode (c : HirConstant) : VntIrOpcode :=
  match c with
  | CONST_INTEGER _ => VNT_IR_INTEGER
  | CONST_BOOLEAN _ => VNT_IR_BOOLEAN
  | CONST_FLOAT _ => VNT_IR_FLOAT
  end.

Definition constant_value (c : HirConstant) : VntIrValue :=
  match c with
  | CONST_INTEGER x => VAL_INTEGER x
  | CONST_BOOLEAN b => VAL_BOOLEAN b
  | CONST_FLOAT d => VAL_FLOATING d
  end.

(** The opcode and the payload of a node. *)
Definition with_payload (op : VntIrOpcode) (v : VntIrValue) (n : VntIrNode) : VntIrNode :=
  {| opcode := op; role := role n; operation := operation n; names := names n;
     type_name := type_name n; first_child := first_child n; last_child := last_child n;
     next_sibling := next_sibling n; child_count := child_count n; value := v |}.

Definition with_constant (c : HirConstant) (n : VntIrNode) : VntIrNode :=
  with_payload (constant_opcode c) (constant_value c) n.

(** The node becomes a literal, without children. *)
Definition literal_node (c : HirConstant) (n : VntIrNode) : VntIrNode :=
  with_children None None 0 (with_constant c n).

(** * Loops over siblings *)

(** [if (!m) return 0;] *)
Definition or_fail {A B} (m : St Rewriter (option A)) (k : A -> St Rewriter (option B))
    : St Rewriter (option B) :=
  o ← m;
  match o with
  | Some a => k a
  | None => mret None
  end.

Definition rw_fuel (rw : Rewriter) : nat := sibling_fuel (rw_ir rw).

(** [for (c = ...; c != VNT_IR_NO_NODE; c = ir->nodes[c].next_sibling)]: the link
    is read after the body. [None] is [return 0]. *)
Fixpoint loop_siblings {A} (fuel : nat) (body : nat -> A -> St Rewriter (option A))
    (c : option nat) (a : A) : St Rewriter (option A) :=
  match c with
  | None => mret (Some a)
  | Some i =>
      match fuel with
      | O => stuck
      | S f =>
          or_fail (body i a) (fun a =>
            n ← get_node i;
            loop_siblings f body (next_sibling n) a)
      end
  end.

(** The same where [next] is read before the body. *)
Fixpoint loop_siblings_saved {A} (fuel : nat) (body : nat -> A -> St Rewriter (option A))
    (c : option nat) (a : A) : St Rewriter (option A) :=
  match c with
  | None => mret (Some a)
  | Some i =>
      match fuel with
      | O => stuck
      | S f =>
          n ← get_node i;
          or_fail (body i a) (loop_siblings_saved f body (next_sibling n))
      end
  end.

(** * Folding *)

Definition isfinite (d : binary64) : bool :=
  match d with S754_infinity _ | S754_nan => false | _ => true end.

(** A result that is finite. *)
Definition finite (d : binary64) : option HirConstant :=
  if isfinite d then Some (CONST_FLOAT d) else None.

(** A result that does not overflow. *)
Definition no_overflow (z : Z) : option HirConstant :=
  if in_int64 z then Some (CONST_INTEGER z) else None.

Definition fold_unary (op : UnaryOperator) (a : HirConstant) : option HirConstant :=
  match op, a with
  | UNARY_NOT, CONST_BOOLEAN b => Some (CONST_BOOLEAN (negb b))
  | UNARY_NEGATE, CONST_INTEGER x => if (x =? INT64_MIN)%Z then None else Some (CONST_INTEGER (- x))
  | UNARY_NEGATE, CONST_FLOAT d => finite (SFopp d)
  | _, _ => None
  end.

Definition fold_integers (op : BinaryOperator) (x y : Z) : option HirConstant :=
  let defined := negb (y =? 0)%Z && negb ((x =? INT64_MIN)%Z && (y =? -1)%Z) in
  match op with
  | BINARY_ADD => no_overflow (x + y)
  | BINARY_SUBTRACT => no_overflow (x - y)
  | BINARY_MULTIPLY => no_overflow (x * y)
  | BINARY_DIVIDE => if defined then Some (CONST_INTEGER (Z.quot x y)) else None
  | BINARY_MODULO => if defined then Some (CONST_INTEGER (Z.rem x y)) else None
  | BINARY_EQUAL => Some (CONST_BOOLEAN (x =? y)%Z)
  | BINARY_NOT_EQUAL => Some (CONST_BOOLEAN (negb (x =? y)%Z))
  | BINARY_GREATER => Some (CONST_BOOLEAN (y <? x)%Z)
  | BINARY_LESS => Some (CONST_BOOLEAN (x <? y)%Z)
  | BINARY_GREATER_EQUAL => Some (CONST_BOOLEAN (y <=? x)%Z)
  | BINARY_LESS_EQUAL => Some (CONST_BOOLEAN (x <=? y)%Z)
  | BINARY_AND | BINARY_OR => None
  end.

Definition fold_booleans (op : BinaryOperator) (x y : bool) : option HirConstant :=
  match op with
  | BINARY_AND => Some (CONST_BOOLEAN (x && y))
  | BINARY_OR => Some (CONST_BOOLEAN (x || y))
  | BINARY_EQUAL => Some (CONST_BOOLEAN (Bool.eqb x y))
  | BINARY_NOT_EQUAL => Some (CONST_BOOLEAN (negb (Bool.eqb x y)))
  | _ => None
  end.

Definition fold_floats (op : BinaryOperator) (x y : binary64) : option HirConstant :=
  match op with
  | BINARY_ADD => finite (SFadd 53 1024 x y)
  | BINARY_SUBTRACT => finite (SFsub 53 1024 x y)
  | BINARY_MULTIPLY => finite (SFmul 53 1024 x y)
  | BINARY_DIVIDE => if SFeqb y (S754_zero false) then None else finite (SFdiv 53 1024 x y)
  | BINARY_EQUAL => Some (CONST_BOOLEAN (SFeqb x y))
  | BINARY_NOT_EQUAL => Some (CONST_BOOLEAN (negb (SFeqb x y)))
  | BINARY_GREATER => Some (CONST_BOOLEAN (SFltb y x))
  | BINARY_LESS => Some (CONST_BOOLEAN (SFltb x y))
  | BINARY_GREATER_EQUAL => Some (CONST_BOOLEAN (SFleb y x))
  | BINARY_LESS_EQUAL => Some (CONST_BOOLEAN (SFleb x y))
  | _ => None
  end.

(** [None] unless both constants have the same kind and the operation is folded. *)
Definition fold_binary (op : BinaryOperator) (a b : HirConstant) : option HirConstant :=
  match a, b with
  | CONST_INTEGER x, CONST_INTEGER y => fold_integers op x y
  | CONST_BOOLEAN x, CONST_BOOLEAN y => fold_booleans op x y
  | CONST_FLOAT x, CONST_FLOAT y => fold_floats op x y
  | _, _ => None
  end.

(** The node is replaced by a folded constant, if there is one. *)
Definition replace_folded (index : nat) (folded : option HirConstant) : St Rewriter bool :=
  match folded with
  | None => mret true
  | Some c =>
      _ ← set_node index (literal_node c);
      _ ← note_change;
      mret true
  end.

Definition operand_constant (index : option nat) : St Rewriter (option HirConstant) :=
  match index with
  | None => mret None
  | Some i => asks (fun rw => hir_constant (rw_ir rw) i)
  end.

Definition fold_unary_node (index : nat) : St Rewriter bool :=
  n ← get_node index;
  operand ← asks (fun rw => find_role (rw_ir rw) VNT_IR_EDGE_OPERAND (first_child n));
  value ← operand_constant operand;
  replace_folded index
    match value, unary_of_int (operation n) with
    | Some value, Some op => fold_unary op value
    | _, _ => None
    end.

Definition fold_binary_node (index : nat) (lhs rhs : option nat) : St Rewriter bool :=
  n ← get_node index;
  match lhs, rhs with
  | Some _, Some _ =>
      a ← operand_constant lhs;
      match a with
      | None => mret true
      | Some a =>
          b ← operand_constant rhs;
          replace_folded index
            match b, binary_of_int (operation n) with
            | Some b, Some op => fold_binary op a b
            | _, _ => None
            end
      end
  | _, _ => mret true
  end.

(** The recursion goes down the tree: its budget is the number of nodes. *)
Fixpoint hir_fold_node (fuel : nat) (index : nat) : St Rewriter bool :=
  match fuel with
  | O => stuck
  | S f =>
      n ← get_node index;
      siblings ← gets rw_fuel;
      operands ← loop_siblings siblings (fun c operands =>
        child ← get_node c;
        let operands := match role child with
                        | VNT_IR_EDGE_LEFT => (Some c, operands.2)
                        | VNT_IR_EDGE_RIGHT => (operands.1, Some c)
                        | _ => operands
                        end in
        ok ← hir_fold_node f c;
        mret (if (ok : bool) then Some operands else None)) (first_child n) (None, None);
      match operands with
      | None => mret false
      | Some (lhs, rhs) =>
          n ← get_node index;
          match opcode n with
          | VNT_IR_UNARY => fold_unary_node index
          | VNT_IR_BINARY => fold_binary_node index lhs rhs
          | _ => mret true
          end
      end
  end.

(** * Control flow *)

(** As in ir.c, where the index of the parent is not checked. *)
Definition hir_child_role (parent : nat) (r : VntIrEdgeRole) : St Rewriter (option nat) :=
  n ← get_node parent;
  asks (fun rw => find_role (rw_ir rw) r (first_child n)).

Definition statement_role (r : VntIrEdgeRole) : bool :=
  match r with
  | VNT_IR_EDGE_STATEMENT | VNT_IR_EDGE_THEN | VNT_IR_EDGE_ELSE | VNT_IR_EDGE_BODY => true
  | _ => false
  end.

Definition is_terminator (op : VntIrOpcode) : bool :=
  match op with VNT_IR_RETURN | VNT_IR_BREAK | VNT_IR_CONTINUE => true | _ => false end.

(** The variables of the loop of hir_prune_sequence; [k_terminated] has the roles
    whose flag is set. *)
Record Kept := {
  k_first : option nat;
  k_last : option nat;
  k_count : nat;
  k_terminated : list VntIrEdgeRole
}.

Definition is_terminated (k : Kept) (r : VntIrEdgeRole) : bool :=
  bool_decide (r ∈ k_terminated k).

(** [ir->nodes[last].next_sibling = next], out of the array if [last] is
    VNT_IR_NO_NODE. *)
Definition set_next (last next : option nat) : St Rewriter unit :=
  match last with
  | None => fault
  | Some last => set_node last (with_next next)
  end.

Definition keep (k : Kept) (current : nat) (child : VntIrNode) : Kept :=
  {| k_first := match k_first k with None => Some current | Some first => Some first end;
     k_last := Some current; k_count := S (k_count k);
     k_terminated := if statement_role (role child) && is_terminator (opcode child)
                     then role child :: k_terminated k else k_terminated k |}.

Fixpoint prune_loop (fuel : nat) (old : option nat) (k : Kept) : St Rewriter Kept :=
  match old with
  | None => mret k
  | Some current =>
      match fuel with
      | O => stuck
      | S f =>
          child ← get_node current;
          if statement_role (role child) && is_terminated k (role child) then
            _ ← note_change;
            prune_loop f (next_sibling child) k
          else
            _ ← (match k_first k with
                 | None => mret tt
                 | Some _ => set_next (k_last k) (Some current)
                 end);
            prune_loop f (next_sibling child) (keep k current child)
      end
  end.

Definition hir_prune_sequence (parent : nat) : St Rewriter unit :=
  p ← get_node parent;
  fuel ← gets rw_fuel;
  k ← prune_loop fuel (first_child p)
        {| k_first := None; k_last := None; k_count := 0; k_terminated := [] |};
  _ ← (match k_last k with
       | None => mret tt
       | Some last => set_next (Some last) None
       end);
  set_node parent (with_children (k_first k) (k_last k) (k_count k)).

(** The first and the last child with the chosen role, and their number. *)
Definition chosen_children (ir : VntIrProgram) (chosen : VntIrEdgeRole) (c : option nat)
    : outcome (option nat * option nat * nat) :=
  fold_siblings (sibling_fuel ir) ir (fun c found =>
    n ← node_at ir c;
    mret (if negb (bool_decide (role n = chosen)) then found
          else let '(first, _, count) := found in
               (match first with None => Some c | Some first => Some first end, Some c, S count)))
    c (None, None, 0).

(** The children that are kept become statements. *)
Definition mark_statements (first : option nat) : St Rewriter unit :=
  fuel ← gets rw_fuel;
  _ ← loop_siblings fuel (fun c _ =>
        _ ← set_node c (with_role VNT_IR_EDGE_STATEMENT);
        mret (Some tt)) first tt;
  mret tt.

(** The node becomes a block of the given children. *)
Definition become_block (index : nat) (first last : option nat) (count : nat) : St Rewriter unit :=
  _ ← set_node index (fun n => with_children first last count
                                 (with_payload VNT_IR_PROGRAM (value n) n));
  note_change.

(** The value of the condition, if it is a literal. *)
Definition constant_condition (index : nat) : St Rewriter (option bool) :=
  cond ← hir_child_role index VNT_IR_EDGE_CONDITION;
  match cond with
  | None => mret None
  | Some cond =>
      c ← get_node cond;
      if bool_decide (opcode c = VNT_IR_BOOLEAN) then
        b ← asks (fun _ => node_boolean c);
        mret (Some b)
      else mret None
  end.

Definition select_branch (index : nat) (b : bool) : St Rewriter unit :=
  n ← get_node index;
  found ← asks (fun rw => chosen_children (rw_ir rw)
                            (if b then VNT_IR_EDGE_THEN else VNT_IR_EDGE_ELSE) (first_child n));
  let '(first, last, count) := found in
  _ ← (match last with
       | None => mret tt
       | Some last =>
           _ ← set_next (Some last) None;
           mark_statements first
       end);
  become_block index first last count.

Fixpoint hir_simplify_control_flow (fuel : nat) (index : nat) : St Rewriter unit :=
  match fuel with
  | O => stuck
  | S f =>
      n ← get_node index;
      siblings ← gets rw_fuel;
      _ ← loop_siblings_saved siblings (fun c _ =>
            _ ← hir_simplify_control_flow f c;
            mret (Some tt)) (first_child n) tt;
      n ← get_node index;
      _ ← (match opcode n with
           | VNT_IR_IF =>
               cond ← constant_condition index;
               match cond with
               | Some b => select_branch index b
               | None => mret tt
               end
           | VNT_IR_WHILE =>
               cond ← constant_condition index;
               match cond with
               | Some false => become_block index None None 0
               | _ => mret tt
               end
           | _ => mret tt
           end);
      hir_prune_sequence index
  end.

(** * Propagation *)

(** The constants known of variables; the array [items] of the environment. *)
Definition HirConstantEnvironment : Type := list (bytes * HirConstant).

Definition hir_constant_find (env : HirConstantEnvironment) (name : bytes) : option nat :=
  fst <$> list_find (fun item => item.1 = name) env.

(** [env->items[index] = env->items[--env->count]] *)
Definition hir_constant_invalidate (env : HirConstantEnvironment) (name : bytes)
    : HirConstantEnvironment :=
  match hir_constant_find env name with
  | None => env
  | Some index =>
      match last env with
      | None => env
      | Some item => take (pred (length env)) (<[index := item]> env)
      end
  end.

Definition hir_constant_remember (env : HirConstantEnvironment) (name : bytes)
    (constant : HirConstant) : HirConstantEnvironment :=
  match hir_constant_find env name with
  | None => env ++ [(name, constant)]
  | Some index => <[index := (name, constant)]> env
  end.

Definition hir_constants_copy (source : HirConstantEnvironment) : HirConstantEnvironment :=
  fold_left (fun env item => hir_constant_remember env item.1 item.2) source [].

(** Left at the first call. *)
Fixpoint hir_contains_call (fuel : nat) (ir : VntIrProgram) (index : nat) : outcome bool :=
  if node_count ir <=? index then Done false
  else
    match fuel with
    | O => Stuck
    | S f =>
        node ← node_at ir index;
        if bool_decide (opcode node = VNT_IR_CALL) then Done true
        else
          found ← each_sibling (sibling_fuel ir) ir (fun child _ =>
            b ← hir_contains_call f ir child;
            mret (if (b : bool) then inr tt else inl tt)) (first_child node) tt;
          mret (match found with inl _ => false | inr _ => true end)
    end.

Definition hir_replace_variable_with_constant (index : nat) (c : HirConstant) : St Rewriter unit :=
  _ ← set_node index (with_constant c);
  note_change.

(** The effect of an assignment on what is known. *)
Definition forget_target (index : nat) (env : HirConstantEnvironment)
    : St Rewriter HirConstantEnvironment :=
  target ← hir_child_role index VNT_IR_EDGE_TARGET;
  match target with
  | None => mret []
  | Some target =>
      t ← get_node target;
      if bool_decide (opcode t = VNT_IR_VARIABLE) then
        text ← asks (fun _ => node_text t);
        mret (hir_constant_invalidate env text)
      else mret []
  end.

Definition substitute_variable (index : nat) (node : VntIrNode) (env : HirConstantEnvironment)
    : St Rewriter unit :=
  text ← asks (fun _ => node_text node);
  match hir_constant_find env text with
  | None => mret tt
  | Some known =>
      match env !! known with
      | None => fault
      | Some item => hir_replace_variable_with_constant index item.2
      end
  end.

Fixpoint hir_substitute_expression (fuel : nat) (index : option nat) (env : HirConstantEnvironment)
    : St Rewriter HirConstantEnvironment :=
  count ← gets (fun rw => node_count (rw_ir rw));
  match index with
  | None => mret env
  | Some index =>
      if count <=? index then mret env
      else
        match fuel with
        | O => stuck
        | S f =>
            node ← get_node index;
            siblings ← gets rw_fuel;
            let children :=
              env' ← loop_siblings siblings (fun child env =>
                       env ← hir_substitute_expression f (Some child) env;
                       mret (Some env)) (first_child node) env;
              mret (default [] env') in
            match opcode node with
            | VNT_IR_VARIABLE =>
                _ ← substitute_variable index node env;
                mret env
            | VNT_IR_CALL =>
                _ ← children;
                mret []
            | VNT_IR_ASSIGN => forget_target index env
            | VNT_IR_UNARY =>
                if bool_decide (unary_of_int (operation node) = Some UNARY_REFERENCE) then mret env
                else children
            | _ => children
            end
        end
  end.

(** [None] is [return 0]. *)
Section propagate.
Context (hir_propagate_statement :
  nat -> HirConstantEnvironment -> St Rewriter (option HirConstantEnvironment)).

Definition hir_propagate_sequence (parent : nat) (r : VntIrEdgeRole) (env : HirConstantEnvironment)
    : St Rewriter (option HirConstantEnvironment) :=
  count ← gets (fun rw => node_count (rw_ir rw));
  if count <=? parent then mret None
  else
    p ← get_node parent;
    fuel ← gets rw_fuel;
    loop_siblings_saved fuel (fun child env =>
      n ← get_node child;
      if bool_decide (role n = r) then hir_propagate_statement child env else mret (Some env))
      (first_child p) env.

(** A child of an if statement; a branch has an environment of its own. *)
Definition propagate_branch (env : HirConstantEnvironment) (child : nat)
    : St Rewriter (option unit) :=
  n ← get_node child;
  match role n, opcode n with
  | (VNT_IR_EDGE_THEN | VNT_IR_EDGE_ELSE), VNT_IR_PROGRAM =>
      or_fail (hir_propagate_sequence child VNT_IR_EDGE_STATEMENT (hir_constants_copy env))
        (fun _ => mret (Some tt))
  | _, _ => mret (Some tt)
  end.

Definition propagate_if (index : nat) (fuel : nat) (env : HirConstantEnvironment)
    : St Rewriter (option HirConstantEnvironment) :=
  condition ← hir_child_role index VNT_IR_EDGE_CONDITION;
  env ← hir_substitute_expression fuel condition env;
  n ← get_node index;
  siblings ← gets rw_fuel;
  or_fail (loop_siblings_saved siblings (fun child _ => propagate_branch env child) (first_child n) tt)
    (fun _ => mret (Some [])).

Definition propagate_function (index : nat) (env : HirConstantEnvironment)
    : St Rewriter (option HirConstantEnvironment) :=
  body ← hir_child_role index VNT_IR_EDGE_BODY;
  match body with
  | None => mret (Some env)
  | Some body =>
      b ← get_node body;
      if bool_decide (opcode b = VNT_IR_PROGRAM) then
        or_fail (hir_propagate_sequence body VNT_IR_EDGE_STATEMENT []) (fun _ => mret (Some env))
      else mret (Some env)
  end.

Definition propagate_assignment (index : nat) (fuel : nat) (env : HirConstantEnvironment)
    : St Rewriter (option HirConstantEnvironment) :=
  v ← hir_child_role index VNT_IR_EDGE_VALUE;
  env ← (match v with
         | None => mret env
         | Some _ => hir_substitute_expression fuel v env
         end);
  node ← get_node index;
  constant ← operand_constant v;
  text ← asks (fun _ => node_text node);
  mret (Some (match constant with
              | Some c => hir_constant_remember env text c
              | None => hir_constant_invalidate env text
              end)).

(** The other statements: their expressions, in order. *)
Definition propagate_expressions (index : nat) (fuel : nat) (env : HirConstantEnvironment)
    : St Rewriter (option HirConstantEnvironment) :=
  node ← get_node index;
  siblings ← gets rw_fuel;
  loop_siblings siblings (fun child env =>
    env ← hir_substitute_expression fuel (Some child) env;
    mret (Some env)) (first_child node) env.

(** A statement, without the last test for calls; [inl] leaves the function. *)
Definition propagate_node (index : nat) (fuel : nat) (env : HirConstantEnvironment)
    : St Rewriter (option (HirConstantEnvironment + HirConstantEnvironment)) :=
  node ← get_node index;
  let go_on m := or_fail m (fun env => mret (Some (inr env))) in
  match opcode node with
  | VNT_IR_IF => go_on (propagate_if index fuel env)
  | VNT_IR_WHILE | VNT_IR_ASM => mret (Some (inl []))
  | VNT_IR_FUNCTION => go_on (propagate_function index env)
  | VNT_IR_PROGRAM => go_on (hir_propagate_sequence index VNT_IR_EDGE_STATEMENT env)
  | VNT_IR_VARIABLE_DECL | VNT_IR_REASSIGN => go_on (propagate_assignment index fuel env)
  | VNT_IR_ASSIGN => go_on (env ← forget_target index env; mret (Some env))
  | _ => go_on (propagate_expressions index fuel env)
  end.
End propagate.

Fixpoint hir_propagate_statement (fuel : nat) (index : nat) (env : HirConstantEnvironment)
    : St Rewriter (option HirConstantEnvironment) :=
  match fuel with
  | O => stuck
  | S f =>
      or_fail (propagate_node (hir_propagate_statement f) index fuel env) (fun result =>
        match result with
        | inl env => mret (Some env)
        | inr env =>
            call ← asks (fun rw => hir_contains_call fuel (rw_ir rw) index);
            mret (Some (if (call : bool) then [] else env))
        end)
  end.

(** * Compaction *)

(** copy_text: a NULL text is copied as an empty one. *)
Definition copied_value (n : VntIrNode) : outcome VntIrValue :=
  if has_text (opcode n) then
    match value n with
    | VAL_TEXT text => Done (VAL_TEXT text)
    | VAL_NONE => Done (VAL_TEXT [])
    | _ => Fault
    end
  else Done (value n).

Definition copied_node (src : VntIrNode) (v : VntIrValue) (dst : VntIrNode) : VntIrNode :=
  {| opcode := opcode src; role := role src; operation := operation src; names := names src;
     type_name := type_name src; first_child := first_child dst; last_child := last_child dst;
     next_sibling := next_sibling dst; child_count := child_count dst; value := v |}.

(** The new index; [None] is [return 0]. The state is the program [out]. *)
Section copy.
Context (old : VntIrProgram).

Fixpoint copy_children (fuel : nat) (hir_copy_node : nat -> St VntIrProgram (option nat))
    (child : option nat) (new_index : nat) : St VntIrProgram (option nat) :=
  match child with
  | None => mret (Some new_index)
  | Some c =>
      match fuel with
      | O => stuck
      | S f =>
          copied ← hir_copy_node c;
          match copied with
          | None => mret None
          | Some copied =>
              ok ← add_child new_index copied;
              if (ok : bool) then
                n ← asks (fun _ => node_at old c);
                copy_children f hir_copy_node (next_sibling n) new_index
              else mret None
          end
      end
  end.

Fixpoint hir_copy_node (fuel : nat) (old_index : nat) : St VntIrProgram (option nat) :=
  if node_count old <=? old_index then mret None
  else
    match fuel with
    | O => stuck
    | S f =>
        new_index ← reserve_node;
        src ← asks (fun _ => node_at old old_index);
        v ← asks (fun _ => copied_value src);
        _ ← update_node new_index (copied_node src v);
        copy_children (sibling_fuel old) (hir_copy_node f) (first_child src) new_index
    end.
End copy.

(** * The whole optimizer *)

(** One iteration: what it has changed is added to the counter. *)
Definition optimize_round (r : nat) : St Rewriter bool :=
  fuel ← gets rw_fuel;
  ok ← hir_fold_node fuel r;
  if negb ok then mret false
  else
    env ← hir_propagate_sequence (hir_propagate_statement fuel) r VNT_IR_EDGE_STATEMENT [];
    match env with
    | None => mret false
    | Some _ =>
        ok ← hir_fold_node fuel r;
        if negb ok then mret false
        else
          _ ← hir_simplify_control_flow fuel r;
          mret true
    end.

(** At most [rounds] iterations, until one changes nothing. *)
Fixpoint optimize_rounds (rounds : nat) (r : nat) : St Rewriter bool :=
  match rounds with
  | O => mret true
  | S rounds =>
      before ← gets rw_changed;
      ok ← optimize_round r;
      if negb ok then mret false
      else
        after ← gets rw_changed;
        if after =? before then mret true else optimize_rounds rounds r
  end.

Definition VNT_IR_ROUNDS : nat := 8.

(** The result is the program after the call, or [None] for [return 0]. *)
Definition vnt_ir_optimize (ir : VntIrProgram) : outcome (option VntIrProgram) :=
  valid ← vnt_ir_validate ir;
  match root ir with
  | Some r =>
      if negb valid then Done None
      else
        match optimize_rounds VNT_IR_ROUNDS r {| rw_ir := ir; rw_changed := 0 |} with
        | Done (false, _) => Done None
        | Done (true, rw) =>
            let compact := {| nodes := []; root := None;
                              optimized_nodes := optimized_nodes ir + rw_changed rw |} in
            match hir_copy_node (rw_ir rw) (sibling_fuel (rw_ir rw)) r compact with
            | Done (None, _) => Done None
            | Done (Some r, out) =>
                let out := {| nodes := nodes out; root := Some r;
                              optimized_nodes := optimized_nodes out |} in
                valid ← vnt_ir_validate out;
                mret (if (valid : bool) then Some out else None)
            | Fault => Fault
            | Stuck => Stuck
            end
        | Fault => Fault
        | Stuck => Stuck
        end
  | None => Done None
  end.
