(* ===== verification/IrPasses.v ===== *)
(** IrPasses: the passes of the optimizer as functions on trees, the reference for
    the code that rewrites the array in place (IrOptimize). *)

From S2P Require Import Prelude Clib Ast Ir IrTrees IrAccess IrOptimize.

(** * Trees that passes work on *)

(** The order of the children, where it matters. Validation accepts them in any
    order, and declarations without a value; lowering gives this one. *)
Definition in_order (op : VntIrOpcode) (rs : list VntIrEdgeRole) : Prop :=
  match op with
  | VNT_IR_IF => exists n m, rs =
      VNT_IR_EDGE_CONDITION :: replicate n VNT_IR_EDGE_THEN ++ replicate m VNT_IR_EDGE_ELSE
  | VNT_IR_WHILE => exists n, rs = VNT_IR_EDGE_CONDITION :: replicate n VNT_IR_EDGE_BODY
  | VNT_IR_BINARY => rs = [VNT_IR_EDGE_LEFT; VNT_IR_EDGE_RIGHT]
  | VNT_IR_INDEX => rs = [VNT_IR_EDGE_OBJECT; VNT_IR_EDGE_INDEX]
  | VNT_IR_ASSIGN => rs = [VNT_IR_EDGE_TARGET; VNT_IR_EDGE_VALUE]
  | VNT_IR_VARIABLE_DECL => rs = [VNT_IR_EDGE_VALUE]
  | _ => True
  end.

Definition roles_of (hs : list hir) : list VntIrEdgeRole := map (fun h => l_role (hir_label h)) hs.

Inductive tidy : hir -> Prop :=
  | tidy_node l hs :
      literal_ok l -> in_order (l_opcode l) (roles_of hs) -> Forall tidy hs -> tidy (Hir l hs).

(** * Visiting children *)

Definition label_constant (l : Label) : option HirConstant :=
  match l_opcode l, l_value l with
  | VNT_IR_INTEGER, VAL_INTEGER x => Some (CONST_INTEGER x)
  | VNT_IR_BOOLEAN, VAL_BOOLEAN b => Some (CONST_BOOLEAN b)
  | VNT_IR_FLOAT, VAL_FLOATING d => Some (CONST_FLOAT d)
  | _, _ => None
  end.

Definition constant_of (h : hir) : option HirConstant := label_constant (hir_label h).

Definition payload_label (op : VntIrOpcode) (v : VntIrValue) (l : Label) : Label :=
  {| l_opcode := op; l_role := l_role l; l_operation := l_operation l; l_names := l_names l;
     l_type_name := l_type_name l; l_value := v |}.

Definition constant_label (c : HirConstant) (l : Label) : Label :=
  payload_label (constant_opcode c) (constant_value c) l.

Definition literal (c : HirConstant) (l : Label) : hir := Hir (constant_label c l) [].

Definition text_of (l : Label) : bytes := match l_value l with VAL_TEXT text => text | _ => [] end.

(** The children from left to right, with a state. *)
Definition visit {A} (f : hir -> A -> hir * A) : list hir -> A -> list hir * A :=
  fix go hs a :=
    match hs with
    | [] => ([], a)
    | h :: hs =>
        let (h', a) := f h a in
        let (hs', a) := go hs a in
        (h' :: hs', a)
    end.

(** * Folding *)

Definition fold_here (l : Label) (hs : list hir) : option HirConstant :=
  match l_opcode l, hs with
  | VNT_IR_UNARY, [a] =>
      match unary_of_int (l_operation l), constant_of a with
      | Some op, Some a => fold_unary op a
      | _, _ => None
      end
  | VNT_IR_BINARY, [a; b] =>
      match binary_of_int (l_operation l), constant_of a, constant_of b with
      | Some op, Some a, Some b => fold_binary op a b
      | _, _, _ => None
      end
  | _, _ => None
  end.

(** The state is the counter [changed]. *)
Fixpoint fold_hir (h : hir) (k : nat) : hir * nat :=
  match h with
  | Hir l hs =>
      let (hs, k) := visit fold_hir hs k in
      match fold_here l hs with
      | Some c => (literal c l, S k)
      | None => (Hir l hs, k)
      end
  end.

(** * Control flow *)

Fixpoint prune_children (terminated : list VntIrEdgeRole) (hs : list hir) (k : nat) : list hir * nat :=
  match hs with
  | [] => ([], k)
  | h :: hs =>
      let r := l_role (hir_label h) in
      if statement_role r && bool_decide (r ∈ terminated) then prune_children terminated hs (S k)
      else
        let (hs, k) := prune_children
          (if statement_role r && is_terminator (l_opcode (hir_label h)) then r :: terminated
           else terminated) hs k in
        (h :: hs, k)
  end.

Definition block_label (l : Label) : Label := payload_label VNT_IR_PROGRAM (l_value l) l.

(** The children in role [r], as statements. *)
Definition branch (r : VntIrEdgeRole) (hs : list hir) : list hir :=
  map (hir_role VNT_IR_EDGE_STATEMENT) (filter (fun h => l_role (hir_label h) = r) hs).

Definition boolean_of (h : hir) : option bool :=
  match constant_of h with Some (CONST_BOOLEAN b) => Some b | _ => None end.

(** A constant condition is replaced by the code it selects. *)
Definition select (l : Label) (hs : list hir) (k : nat) : Label * list hir * nat :=
  match l_opcode l, head hs with
  | VNT_IR_IF, Some c =>
      match boolean_of c with
      | Some b => (block_label l, branch (if b then VNT_IR_EDGE_THEN else VNT_IR_EDGE_ELSE) hs, S k)
      | None => (l, hs, k)
      end
  | VNT_IR_WHILE, Some c =>
      match boolean_of c with
      | Some false => (block_label l, [], S k)
      | _ => (l, hs, k)
      end
  | _, _ => (l, hs, k)
  end.

Fixpoint simplify_hir (h : hir) (k : nat) : hir * nat :=
  match h with
  | Hir l hs =>
      let (hs, k) := visit simplify_hir hs k in
      let '(l, hs, k) := select l hs k in
      let (hs, k) := prune_children [] hs k in
      (Hir l hs, k)
  end.

(** * Propagation *)

(** The constants known, and the counter. *)
Definition Known : Type := HirConstantEnvironment * nat.

Definition known_constant (env : HirConstantEnvironment) (name : bytes) : option HirConstant :=
  i ← hir_constant_find env name;
  snd <$> env !! i.

Definition forget (hs : list hir) (env : HirConstantEnvironment) : HirConstantEnvironment :=
  match head hs with
  | Some t => match l_opcode (hir_label t) with
              | VNT_IR_VARIABLE => hir_constant_invalidate env (text_of (hir_label t))
              | _ => []
              end
  | None => []
  end.

Definition is_reference (l : Label) : bool :=
  bool_decide (unary_of_int (l_operation l) = Some UNARY_REFERENCE).

Fixpoint subst_hir (h : hir) (s : Known) : hir * Known :=
  match h with
  | Hir l hs =>
      match l_opcode l with
      | VNT_IR_VARIABLE =>
          match known_constant s.1 (text_of l) with
          | Some c => (Hir (constant_label c l) hs, (s.1, S s.2))
          | None => (h, s)
          end
      | VNT_IR_CALL =>
          let (hs, s) := visit subst_hir hs s in
          (Hir l hs, ([], s.2))
      | VNT_IR_ASSIGN => (h, (forget hs s.1, s.2))
      | VNT_IR_UNARY =>
          if is_reference l then (h, s)
          else let (hs, s) := visit subst_hir hs s in (Hir l hs, s)
      | _ => let (hs, s) := visit subst_hir hs s in (Hir l hs, s)
      end
  end.

Fixpoint contains_call (h : hir) : bool :=
  match h with
  | Hir l hs => bool_decide (l_opcode l = VNT_IR_CALL) || existsb contains_call hs
  end.

(** Calls may change every variable. *)
Definition after_calls (h : hir * Known) : hir * Known :=
  (h.1, (if contains_call h.1 then [] else h.2.1, h.2.2)).

Definition is_block (h : hir) : bool := bool_decide (l_opcode (hir_label h) = VNT_IR_PROGRAM).

Definition is_branch (h : hir) : bool :=
  match l_role (hir_label h) with VNT_IR_EDGE_THEN | VNT_IR_EDGE_ELSE => is_block h | _ => false end.

(** What is known of the variable that [v] is assigned to. *)
Definition learn (l : Label) (v : option HirConstant) (env : HirConstantEnvironment)
    : HirConstantEnvironment :=
  match v with
  | Some c => hir_constant_remember env (text_of l) c
  | None => hir_constant_invalidate env (text_of l)
  end.

Fixpoint propagate_hir (h : hir) (s : Known) : hir * Known :=
  match h with
  | Hir l hs =>
      match l_opcode l with
      | VNT_IR_IF =>
          match hs with
          | [] => (h, ([], s.2))
          | c :: rest =>
              let (c, s) := subst_hir c s in
              let (rest, k) := visit (fun b k =>
                if is_branch b
                then let (b, s') := propagate_hir b (hir_constants_copy s.1, k) in (b, s'.2)
                else (b, k)) rest s.2 in
              (Hir l (c :: rest), ([], k))
          end
      | VNT_IR_WHILE | VNT_IR_ASM => (h, ([], s.2))
      | VNT_IR_FUNCTION =>
          match hs with
          | b :: rest =>
              if is_block b
              then let (b, s') := propagate_hir b ([], s.2) in
                   after_calls (Hir l (b :: rest), (s.1, s'.2))
              else after_calls (h, s)
          | [] => after_calls (h, s)
          end
      | VNT_IR_PROGRAM =>
          let (hs, s) := visit propagate_hir hs s in
          after_calls (Hir l hs, s)
      | VNT_IR_VARIABLE_DECL | VNT_IR_REASSIGN =>
          let (hs, s) := visit subst_hir hs s in
          after_calls (Hir l hs, (learn l (head hs ≫= constant_of) s.1, s.2))
      | VNT_IR_ASSIGN => after_calls (h, (forget hs s.1, s.2))
      | _ =>
          let (hs, s) := visit subst_hir hs s in
          after_calls (Hir l hs, s)
      end
  end.

(** * The whole optimizer *)

(** The statements of a block, from nothing known. *)
Definition propagate_block (h : hir) (k : nat) : hir * nat :=
  match h with
  | Hir l hs => let (hs, s) := visit propagate_hir hs ([], k) in (Hir l hs, s.2)
  end.

Definition round_hir (h : hir) (k : nat) : hir * nat :=
  let (h, k) := fold_hir h k in
  let (h, k) := propagate_block h k in
  let (h, k) := fold_hir h k in
  simplify_hir h k.

Fixpoint rounds_hir (rounds : nat) (h : hir) (k : nat) : hir * nat :=
  match rounds with
  | O => (h, k)
  | S rounds =>
      let (h', k') := round_hir h k in
      if k' =? k then (h', k') else rounds_hir rounds h' k'
  end.

Definition optimize_hir (h : hir) : hir * nat := rounds_hir VNT_IR_ROUNDS h 0.
