(* ===== verification/IrPassesFacts.v ===== *)
(** IrPassesFacts: the passes on trees give well-formed trees, whose root keeps its
    role. *)

From S2P Require Import Prelude Clib Ast Ir IrTrees IrFacts IrAccess IrOptimize IrPasses.

(** * Visiting *)

Section visit.
Context {A : Type} (f : hir -> A -> hir * A).

Lemma visit_cons h hs a :
  visit f (h :: hs) a =
    ((f h a).1 :: (visit f hs (f h a).2).1, (visit f hs (f h a).2).2).
Proof. cbn. destruct (f h a) as [h' a']. cbn. by destruct (visit f hs a'). Qed.

Lemma visit_forall (P Q : hir -> Prop) hs :
  Forall (fun h => P h -> forall a, Q (f h a).1) hs -> Forall P hs -> forall a, Forall Q (visit f hs a).1.
Proof.
  intros H HP. revert H. induction HP as [|h hs Hh _ IH]; intros H a; [done|].
  apply Forall_cons in H as [H1 H2]. rewrite visit_cons. constructor; [by apply H1|by apply IH].
Qed.

Lemma visit_roles hs :
  Forall (fun h => forall a, l_role (hir_label (f h a).1) = l_role (hir_label h)) hs ->
  forall a, roles_of (visit f hs a).1 = roles_of hs.
Proof.
  induction 1 as [|h hs Hh _ IH]; intros a; [done|]. rewrite visit_cons. cbn. by rewrite Hh, IH.
Qed.
End visit.

(** * Good trees *)

Definition good (h : hir) : Prop := hir_wf h /\ tidy h.

Lemma good_node l hs : good (Hir l hs) <->
  label_ok l /\ literal_ok l /\ roles_ok (l_opcode l) (roles_of hs) /\
  in_order (l_opcode l) (roles_of hs) /\ Forall good hs.
Proof.
  unfold good. split.
  - intros [H1 H2]. inversion H1; inversion H2; subst. split_and!; try done.
    by apply Forall_and.
  - intros (? & ? & ? & ? & H). apply Forall_and in H as [? ?]. split; by constructor.
Qed.

(** The opcodes whose labels hold nothing but the opcode and the payload. *)
Definition bare (op : VntIrOpcode) : bool :=
  match op with
  | VNT_IR_FUNCTION | VNT_IR_STRUCT | VNT_IR_VARIABLE_DECL | VNT_IR_REASSIGN => false
  | _ => true
  end.

Lemma bare_label l : label_ok l -> bare (l_opcode l) = true -> l_names l = [] /\ l_type_name l = None.
Proof.
  intros [_ Hn Ht _ _] Hb. split.
  - destruct (l_names l); [done|]. destruct Hn as [E|E]; [done|by rewrite E in Hb..].
  - destruct (l_type_name l); [|done]. destruct Ht as [E|E]; [done|by rewrite E in Hb..].
Qed.

Lemma payload_ok op v l : label_ok l -> bare (l_opcode l) = true -> has_text op = false ->
  op <> VNT_IR_BINARY -> op <> VNT_IR_UNARY -> label_ok (payload_label op v l).
Proof.
  intros Hl Hb Ht H1 H2. destruct (bare_label l Hl Hb) as [En Et].
  constructor; cbn; try done; rewrite ?En, ?Et, ?Ht; done.
Qed.

Lemma constant_label_ok c l : label_ok l -> bare (l_opcode l) = true ->
  label_ok (constant_label c l) /\ literal_ok (constant_label c l).
Proof.
  intros Hl Hb. split; [by apply payload_ok; destruct c|]. destruct c; cbn; by eexists.
Qed.

Lemma literal_good c l : label_ok l -> bare (l_opcode l) = true -> good (literal c l).
Proof.
  intros Hl Hb. destruct (constant_label_ok c l Hl Hb). apply good_node.
  split_and!; try done; by destruct c.
Qed.

Lemma hir_role_good r h : good h -> good (hir_role r h).
Proof.
  destruct h as [l hs]. intros (H1 & H2 & H3 & H4 & H5)%good_node. apply good_node.
  split_and!; try done. by apply label_role_ok.
Qed.

(** * Folding *)

Definition keeps_role {A} (f : hir -> A -> hir * A) (h : hir) : Prop :=
  forall a, l_role (hir_label (f h a).1) = l_role (hir_label h).

Lemma fold_hir_role h : keeps_role fold_hir h.
Proof.
  intros k. destruct h as [l hs]. cbn. destruct (visit fold_hir hs k) as [hs' k'].
  by destruct (fold_here l hs').
Qed.

Lemma fold_here_opcode l hs c : fold_here l hs = Some c -> bare (l_opcode l) = true.
Proof. unfold fold_here. by destruct (l_opcode l). Qed.

Lemma fold_hir_good h : good h -> forall k, good (fold_hir h k).1.
Proof.
  induction h as [l hs IH] using hir_ind. intros (H1 & H2 & H3 & H4 & H5)%good_node k. cbn.
  pose proof (visit_forall fold_hir good good hs IH H5 k) as Hv.
  pose proof (visit_roles fold_hir hs (Forall_true _ _ fold_hir_role) k) as Hr.
  destruct (visit fold_hir hs k) as [hs' k']. cbn [fst] in Hv, Hr.
  destruct (fold_here l hs') as [c|] eqn:E; cbn.
  - by apply literal_good; [|eapply fold_here_opcode].
  - apply good_node. by rewrite Hr.
Qed.

(** * Pruning *)

Lemma prune_sublist hs : forall term k, (prune_children term hs k).1 `sublist_of` hs.
Proof.
  induction hs as [|h hs IH]; intros term k; [done|]. cbn.
  destruct (statement_role _ && bool_decide _); [by apply sublist_cons|].
  specialize (IH (if statement_role (l_role (hir_label h)) && is_terminator (l_opcode (hir_label h))
    then l_role (hir_label h) :: term else term) k).
  destruct (prune_children _ hs k) as [hs' k']. by apply sublist_skip.
Qed.

Lemma prune_other hs : Forall (fun r => statement_role r = false) (roles_of hs) -> forall term k,
  prune_children term hs k = (hs, k).
Proof.
  induction hs as [|h hs IH]; intros Hr term k; [done|]. apply Forall_cons in Hr as [H1 H2]. cbn.
  rewrite H1. cbn. by rewrite IH.
Qed.

Lemma sublist_forall {A} (P : A -> Prop) l k : l `sublist_of` k -> Forall P k -> Forall P l.
Proof.
  induction 1 as [|x l k _ IH|x l k _ IH]; intros HP; [done| |]; apply Forall_cons in HP as [? ?]; auto.
Qed.

Lemma sublist_in {A} (l k : list A) x : l `sublist_of` k -> x ∈ l -> x ∈ k.
Proof.
  intros Hs. revert x. apply (Forall_forall (fun y => y ∈ k)).
  eapply sublist_forall; [exact Hs|]. by apply Forall_forall.
Qed.

Lemma sublist_roles hs hs' : hs `sublist_of` hs' -> roles_of hs `sublist_of` roles_of hs'.
Proof. apply (fmap_sublist (fun h => l_role (hir_label h))). Qed.

Lemma sublist_replicate {A} (x : A) n l : l `sublist_of` replicate n x -> exists n', l = replicate n' x.
Proof.
  intros H. exists (length l). symmetry. apply replicate_as_Forall. split; [done|].
  eapply sublist_forall; [exact H|]. by apply Forall_replicate.
Qed.

(** A node whose children are not in statement roles. *)
Lemma roles_not_statements op rs : roles_ok op rs ->
  match op with
  | VNT_IR_PROGRAM | VNT_IR_IF | VNT_IR_WHILE | VNT_IR_FUNCTION => True
  | _ => Forall (fun r => statement_role r = false) rs
  end.
Proof.
  destruct op; cbn; try done; intros H;
    try (by rewrite H; repeat constructor); try (destruct H as [-> | ->]; by repeat constructor).
  all: eapply Forall_impl; [exact H|]; by intros r ->.
Qed.

(** The order of the children of an if or a while implies their roles. *)
Lemma count_replicate r r' n : r <> r' -> count_role r (replicate n r') = 0.
Proof.
  intros H. induction n as [|n IH]; [done|]. cbn [replicate]. rewrite count_role_cons, decide_False by done. exact IH.
Qed.

Lemma if_roles rs : in_order VNT_IR_IF rs -> roles_ok VNT_IR_IF rs.
Proof.
  intros (n & m & ->). cbn [roles_ok]. rewrite count_role_cons, count_role_app, !count_replicate by done. split; [done|].
  constructor; [by left|]. apply Forall_app. split; apply Forall_replicate; auto.
Qed.

Lemma while_roles rs : in_order VNT_IR_WHILE rs -> roles_ok VNT_IR_WHILE rs.
Proof.
  intros (n & ->). cbn [roles_ok]. rewrite count_role_cons, count_replicate by done. split; [done|].
  constructor; [by left|]. apply Forall_replicate; auto.
Qed.

(** The condition stays, and some of the statements after it. *)
Lemma prune_condition hs rs k : roles_of hs = VNT_IR_EDGE_CONDITION :: rs ->
  exists rs', roles_of (prune_children [] hs k).1 = VNT_IR_EDGE_CONDITION :: rs' /\ rs' `sublist_of` rs.
Proof.
  destruct hs as [|c hs]; [done|]. intros [= Ec <-]. cbn. rewrite Ec. cbn.
  pose proof (sublist_roles _ _ (prune_sublist hs [] k)) as Hs.
  destruct (prune_children [] hs k) as [hs' k']. cbn in *. rewrite Ec. eauto.
Qed.

Lemma prune_in_order op hs k : roles_ok op (roles_of hs) -> in_order op (roles_of hs) ->
  roles_ok op (roles_of (prune_children [] hs k).1) /\ in_order op (roles_of (prune_children [] hs k).1).
Proof.
  intros Hr Ho. pose proof (roles_not_statements _ _ Hr) as Hns.
  pose proof (sublist_roles _ _ (prune_sublist hs [] k)) as Hs.
  destruct op; try (by rewrite prune_other).
  - split; [|done]. by eapply sublist_forall.
  - enough (in_order VNT_IR_IF (roles_of (prune_children [] hs k).1)) by auto using if_roles.
    destruct Ho as (n & m & E). destruct (prune_condition hs _ k E) as (rs' & -> & H).
    apply sublist_app_r in H as (l1 & l2 & -> & [n' ->]%sublist_replicate & [m' ->]%sublist_replicate).
    by exists n', m'.
  - enough (in_order VNT_IR_WHILE (roles_of (prune_children [] hs k).1)) by auto using while_roles.
    destruct Ho as (n & E). destruct (prune_condition hs _ k E) as (rs' & -> & [n' ->]%sublist_replicate).
    by exists n'.
  - split; [|done]. by eapply sublist_forall.
Qed.

Lemma prune_good l hs k : good (Hir l hs) -> good (Hir l (prune_children [] hs k).1).
Proof.
  intros (H1 & H2 & H3 & H4 & H5)%good_node. apply good_node.
  destruct (prune_in_order _ hs k H3 H4). split_and!; try done.
  by eapply sublist_forall; [apply prune_sublist|].
Qed.

(** * Control flow *)

Lemma branch_good l r hs : label_ok l -> bare (l_opcode l) = true -> Forall good hs ->
  good (Hir (block_label l) (branch r hs)).
Proof.
  intros Hl Hb Hhs. apply good_node. split_and!; try done.
  - by apply payload_ok.
  - unfold roles_of, branch. cbn. rewrite map_map. apply Forall_map, Forall_true. done.
  - apply Forall_map. apply Forall_forall. intros h Hh%list_elem_of_filter.
    rewrite Forall_forall in Hhs. apply hir_role_good, Hhs, Hh.
Qed.

Lemma select_good l hs k : good (Hir l hs) -> let '(l', hs', _) := select l hs k in
  good (Hir l' hs') /\ l_role l' = l_role l.
Proof.
  intros H. unfold select. destruct (l_opcode l) eqn:Hop; try done; destruct (head hs) as [c|]; try done.
  - destruct (boolean_of c) as [b|]; [|done]. apply good_node in H as (H1 & _ & _ & _ & H5).
    split; [|done]. apply branch_good; [done|by rewrite Hop|done].
  - destruct (boolean_of c) as [[]|]; try done. apply good_node in H as (H1 & _ & _ & _ & H5).
    split; [|done]. apply (branch_good _ VNT_IR_EDGE_ROOT []); [done|by rewrite Hop|done].
Qed.

Lemma simplify_hir_role h : keeps_role simplify_hir h.
Proof.
  intros k. destruct h as [l hs]. cbn. destruct (visit simplify_hir hs k) as [hs1 k1].
  assert (forall l' hs' k', select l hs1 k1 = (l', hs', k') -> l_role l' = l_role l) as H.
  { intros l' hs' k'. unfold select. destruct (l_opcode l), (head hs1) as [c|]; try (by intros [= <- _ _]);
      destruct (boolean_of c) as [[]|]; by intros [= <- _ _]. }
  destruct (select l hs1 k1) as [[l2 hs2] k2]. specialize (H _ _ _ eq_refl).
  by destruct (prune_children [] hs2 k2).
Qed.

Lemma simplify_hir_good h : good h -> forall k, good (simplify_hir h k).1.
Proof.
  induction h as [l hs IH] using hir_ind. intros (H1 & H2 & H3 & H4 & H5)%good_node k. cbn.
  pose proof (visit_forall simplify_hir good good hs IH H5 k) as Hv.
  pose proof (visit_roles simplify_hir hs (Forall_true _ _ simplify_hir_role) k) as Hr.
  destruct (visit simplify_hir hs k) as [hs1 k1]. cbn [fst] in Hv, Hr.
  assert (good (Hir l hs1)) as Hg by (apply good_node; by rewrite Hr).
  pose proof (select_good l hs1 k1 Hg) as Hs. destruct (select l hs1 k1) as [[l2 hs2] k2].
  destruct Hs as [Hs _]. pose proof (prune_good l2 hs2 k2 Hs) as Hp.
  by destruct (prune_children [] hs2 k2).
Qed.

(** * Propagation *)

Lemma subst_hir_role h : keeps_role subst_hir h.
Proof.
  intros s. destruct h as [l hs]. cbn. destruct (visit subst_hir hs s) as [hs' s'].
  destruct (l_opcode l); try done; [by destruct (known_constant _ _)|by destruct (is_reference l)].
Qed.

Lemma subst_hir_good h : good h -> forall s, good (subst_hir h s).1.
Proof.
  induction h as [l hs IH] using hir_ind. intros Hg s.
  pose proof Hg as (H1 & H2 & H3 & H4 & H5)%good_node. cbn.
  pose proof (visit_forall subst_hir good good hs IH H5 s) as Hv.
  pose proof (visit_roles subst_hir hs (Forall_true _ _ subst_hir_role) s) as Hr.
  destruct (visit subst_hir hs s) as [hs' s']. cbn [fst] in Hv, Hr.
  assert (good (Hir l hs')) as Hg' by (apply good_node; by rewrite Hr).
  destruct (l_opcode l) eqn:Hop; try done; [|by destruct (is_reference l)].
  destruct (known_constant _ _) as [c|]; [|done]. cbn in H3.
  apply map_eq_nil in H3 as ->. apply literal_good; [done|by rewrite Hop].
Qed.

Lemma after_calls_tree x : (after_calls x).1 = x.1.
Proof. done. Qed.

Lemma propagate_hir_role h : keeps_role propagate_hir h.
Proof.
  intros s. destruct h as [l hs]. cbn. destruct (l_opcode l); try done;
    try (by destruct (visit subst_hir hs s)); try (by destruct (visit propagate_hir hs s)).
  - destruct hs as [|c rest]; [done|]. destruct (subst_hir c s) as [c' s']. by destruct (visit _ rest _).
  - destruct hs as [|b rest]; [done|]. destruct (is_block b); [|done]. by destruct (propagate_hir b _).
Qed.

(** A branch of an if statement. *)
Definition propagate_branch_hir (env : HirConstantEnvironment) (b : hir) (k : nat) : hir * nat :=
  if is_branch b
  then let (b, s') := propagate_hir b (hir_constants_copy env, k) in (b, s'.2)
  else (b, k).

Lemma propagate_branch_role env b : keeps_role (propagate_branch_hir env) b.
Proof.
  intros k. unfold propagate_branch_hir. destruct (is_branch b); [|done].
  pose proof (propagate_hir_role b (hir_constants_copy env, k)) as H. by destruct (propagate_hir b _).
Qed.

Lemma propagate_hir_good h : good h -> forall s, good (propagate_hir h s).1.
Proof.
  induction h as [l hs IH] using hir_ind. intros Hg s.
  pose proof Hg as (H1 & H2 & H3 & H4 & H5)%good_node.
  assert (forall hs', roles_of hs' = roles_of hs -> Forall good hs' -> good (Hir l hs')) as Hsame
    by (intros hs' Hr Hf; apply good_node; by rewrite Hr).
  assert (Forall good (visit subst_hir hs s).1) as Hsubst.
  { apply (visit_forall _ good); [|done]. apply Forall_true. intros h Hh. by apply subst_hir_good. }
  pose proof (visit_roles subst_hir hs (Forall_true _ _ subst_hir_role) s) as Hsr.
  cbn. destruct (l_opcode l) eqn:Hop; rewrite ?after_calls_tree; try done;
    try (destruct (visit subst_hir hs s) as [hs' s']; by apply Hsame).
  - pose proof (visit_forall propagate_hir good good hs IH H5 s) as Hv.
    pose proof (visit_roles propagate_hir hs (Forall_true _ _ propagate_hir_role) s) as Hr.
    destruct (visit propagate_hir hs s) as [hs' s']. by apply Hsame.
  - destruct hs as [|c rest]; [done|].
    pose proof (subst_hir_role c s) as Hcr. apply Forall_cons in H5 as [Hc H5].
    pose proof (subst_hir_good c Hc s) as Hc'. destruct (subst_hir c s) as [c' s']. cbn [fst] in *.
    change (visit _ rest s'.2) with (visit (propagate_branch_hir s'.1) rest s'.2).
    pose proof (visit_roles _ rest (Forall_true _ _ (propagate_branch_role s'.1)) s'.2) as Hr.
    assert (Forall good (visit (propagate_branch_hir s'.1) rest s'.2).1) as Hv.
    { apply (visit_forall _ good); [|done]. apply Forall_cons in IH as [_ IH].
      eapply Forall_impl; [exact IH|]. intros b Hb Hgb k. unfold propagate_branch_hir.
      destruct (is_branch b); [|done]. specialize (Hb Hgb (hir_constants_copy s'.1, k)).
      by destruct (propagate_hir b _). }
    destruct (visit (propagate_branch_hir s'.1) rest s'.2) as [rest' k']. apply Hsame; [|by constructor].
    unfold roles_of in *. cbn in *. congruence.
  - destruct hs as [|b rest]; [done|]. destruct (is_block b); [|done].
    pose proof (propagate_hir_role b ([], s.2)) as Hbr. apply Forall_cons in IH as [IH _].
    apply Forall_cons in H5 as [Hb H5]. specialize (IH Hb ([], s.2)).
    destruct (propagate_hir b ([], s.2)) as [b' s']. rewrite after_calls_tree. apply Hsame; [|by constructor].
    unfold roles_of in *. cbn in *. congruence.
Qed.

(** * The whole optimizer *)

Definition is_root (h : hir) : Prop :=
  good h /\ l_opcode (hir_label h) = VNT_IR_PROGRAM /\ l_role (hir_label h) = VNT_IR_EDGE_ROOT.

Lemma fold_hir_root h k : is_root h -> is_root (fold_hir h k).1.
Proof.
  intros (Hg & Hop & Hr). split; [by apply fold_hir_good|]. split; [|by rewrite fold_hir_role].
  destruct h as [l hs]. cbn in *. destruct (visit fold_hir hs k). unfold fold_here. by rewrite Hop.
Qed.

Lemma propagate_block_root h k : is_root h -> is_root (propagate_block h k).1.
Proof.
  destruct h as [l hs]. intros (Hg & Hop & Hr). cbn in *.
  pose proof Hg as (H1 & H2 & H3 & H4 & H5)%good_node.
  assert (Forall good (visit propagate_hir hs ([], k)).1) as Hv.
  { apply (visit_forall _ good); [|done]. apply Forall_true. intros h Hh. by apply propagate_hir_good. }
  pose proof (visit_roles propagate_hir hs (Forall_true _ _ propagate_hir_role) ([], k)) as Hvr.
  destruct (visit propagate_hir hs ([], k)) as [hs' s']. cbn [fst] in *. split; [|done].
  apply good_node. by rewrite Hvr.
Qed.

Lemma simplify_hir_root h k : is_root h -> is_root (simplify_hir h k).1.
Proof.
  intros (Hg & Hop & Hr). split; [by apply simplify_hir_good|]. split; [|by rewrite simplify_hir_role].
  destruct h as [l hs]. cbn in *. destruct (visit simplify_hir hs k). unfold select. rewrite Hop.
  by destruct (prune_children _ _ _).
Qed.

Lemma round_hir_root h k : is_root h -> is_root (round_hir h k).1.
Proof.
  intros H. unfold round_hir. apply (fold_hir_root _ k) in H. destruct (fold_hir h k) as [h1 k1].
  apply (propagate_block_root _ k1) in H. cbn [fst] in H. destruct (propagate_block h1 k1) as [h2 k2].
  apply (fold_hir_root _ k2) in H. cbn [fst] in H. destruct (fold_hir h2 k2) as [h3 k3].
  by apply simplify_hir_root.
Qed.

Lemma rounds_hir_root n : forall h k, is_root h -> is_root (rounds_hir n h k).1.
Proof.
  induction n as [|n IH]; intros h k H; [done|]. cbn. apply (round_hir_root _ k) in H.
  destruct (round_hir h k) as [h' k']. destruct (k' =? k); [done|by apply IH].
Qed.
