(* ===== verification/IrRewrite.v ===== *)
(** IrRewrite: rewriting a stored tree in place. Nodes are dropped by leaving them
    unlinked, so a pass is described by the tree stored before, the tree stored
    after, and what it leaves as it was. *)

From S2P Require Import Prelude Clib Ast Ir IrTrees IrFacts IrAccess IrOptimize IrPasses IrPassesFacts.

(** * Frames *)

(** Only the nodes of [I] have changed. *)
Record frame (I : list nat) (ir ir' : VntIrProgram) : Prop := {
  fr_root : root ir' = root ir;
  fr_optimized : optimized_nodes ir' = optimized_nodes ir;
  fr_count : node_count ir' = node_count ir;
  fr_nodes : forall j, j ∉ I -> nodes ir' !! j = nodes ir !! j
}.

Lemma frame_refl I ir : frame I ir ir.
Proof. by split. Qed.

Lemma frame_trans I J ir1 ir2 ir3 : (forall j, j ∈ J -> j ∈ I) ->
  frame I ir1 ir2 -> frame J ir2 ir3 -> frame I ir1 ir3.
Proof.
  intros HJ [R1 O1 C1 N1] [R2 O2 C2 N2]. split; [congruence..|]. intros j Hj. rewrite N2, N1; auto.
Qed.

Lemma frame_mono I J ir ir' : (forall j, j ∈ I -> j ∈ J) -> frame I ir ir' -> frame J ir ir'.
Proof. intros H [R O C N]. split; [done..|]. intros j Hj. apply N. auto. Qed.

Lemma chain_frame I ir ir' o l : frame I ir ir' -> (forall j, j ∈ l -> j ∉ I) ->
  chain ir o l -> chain ir' o l.
Proof.
  intros Hf Hd. induction 1 as [|i n l Hn _ IH]; [constructor|]. econstructor.
  - rewrite (fr_nodes _ _ _ Hf); [exact Hn|]. apply Hd. left.
  - apply IH. intros j Hj. apply Hd. by right.
Qed.

Lemma stored_frame I ir ir' t : frame I ir ir' -> (forall j, j ∈ indices t -> j ∉ I) ->
  stored ir t -> stored ir' t.
Proof.
  intros Hf. induction t as [i l ts IH] using tree_ind. intros Hd Hst.
  inversion Hst as [? n ? Hn [Hc Hl Hcount] Hts]; subst. constructor.
  - rewrite (fr_nodes _ _ _ Hf); [done|]. apply Hd. left.
  - constructor; [|done..]. eapply chain_frame; [exact Hf| |done].
    intros j Hj. apply Hd. cbn. right. by apply forest_index_in.
  - rewrite Forall_forall in IH, Hts. apply Forall_forall. intros t Ht. apply IH; [done| |by apply Hts].
    intros j Hj. apply Hd. cbn. right. by eapply forest_indices_in.
Qed.

(** The link to the next sibling is kept. *)
Definition keeps_next (ir ir' : VntIrProgram) (i : nat) : Prop :=
  forall n, nodes ir !! i = Some n -> exists n', nodes ir' !! i = Some n' /\ next_sibling n' = next_sibling n.

Lemma keeps_next_refl ir i : keeps_next ir ir i.
Proof. intros n Hn. by exists n. Qed.

Lemma keeps_next_trans ir1 ir2 ir3 i : keeps_next ir1 ir2 i -> keeps_next ir2 ir3 i -> keeps_next ir1 ir3 i.
Proof.
  intros H1 H2 n Hn. destruct (H1 n Hn) as (n1 & Hn1 & E1). destruct (H2 n1 Hn1) as (n2 & Hn2 & E2).
  exists n2. split; [done|congruence].
Qed.

Lemma keeps_next_frame I ir ir' i : frame I ir ir' -> i ∉ I -> keeps_next ir ir' i.
Proof. intros Hf Hi n Hn. exists n. split; [|done]. by rewrite (fr_nodes _ _ _ Hf). Qed.

Lemma chain_keeps ir ir' o l : (forall i, i ∈ l -> keeps_next ir ir' i) -> chain ir o l -> chain ir' o l.
Proof.
  intros H. induction 1 as [|i n l Hn _ IH]; [constructor|].
  destruct (H i ltac:(left) n Hn) as (n' & Hn' & E). econstructor; [exact Hn'|]. rewrite E.
  apply IH. intros j Hj. apply H. by right.
Qed.

(** * Rewriting a tree *)

(** A tree that a pass may work on. *)
Record live (ir : VntIrProgram) (t : tree) : Prop := {
  lv_stored : stored ir t;
  lv_good : good (erase t);
  lv_nodup : NoDup (indices t)
}.

Lemma live_subtree ir t : live ir t -> subtree ir t.
Proof. by intros [? [? _] ?]. Qed.

(** [t] has become [t']. *)
Record rewritten (ir ir' : VntIrProgram) (t t' : tree) : Prop := {
  rn_frame : frame (indices t) ir ir';
  rn_index : index t' = index t;
  rn_stored : stored ir' t';
  rn_in : forall j, j ∈ indices t' -> j ∈ indices t;
  rn_nodup : NoDup (indices t');
  rn_next : keeps_next ir ir' (index t)
}.

Lemma rewritten_refl ir t : stored ir t -> NoDup (indices t) -> rewritten ir ir t t.
Proof. intros Hs Hd. split; auto using frame_refl, keeps_next_refl. Qed.

Lemma rewritten_trans ir1 ir2 ir3 t1 t2 t3 :
  rewritten ir1 ir2 t1 t2 -> rewritten ir2 ir3 t2 t3 -> rewritten ir1 ir3 t1 t3.
Proof.
  intros [F1 I1 S1 J1 D1 N1] [F2 I2 S2 J2 D2 N2]. split; try done; auto.
  - by eapply frame_trans.
  - congruence.
  - eapply keeps_next_trans; [exact N1|]. by rewrite <- I1.
Qed.

Lemma rewritten_live ir ir' t t' : rewritten ir ir' t t' -> good (erase t') -> live ir' t'.
Proof. by intros []. Qed.

(** The same for siblings. *)
Record rewritten_all (ir ir' : VntIrProgram) (ts ts' : list tree) : Prop := {
  ra_frame : frame (forest_indices ts) ir ir';
  ra_index : map index ts' = map index ts;
  ra_stored : Forall (stored ir') ts';
  ra_in : forall j, j ∈ forest_indices ts' -> j ∈ forest_indices ts;
  ra_nodup : NoDup (forest_indices ts');
  ra_next : forall i, i ∈ map index ts -> keeps_next ir ir' i
}.

Lemma forest_cons t ts : forest_indices (t :: ts) = indices t ++ forest_indices ts.
Proof. done. Qed.

Lemma index_in t : index t ∈ indices t.
Proof. destruct t. left. Qed.

Lemma rewritten_all_nil ir : rewritten_all ir ir [] [].
Proof.
  split; [apply frame_refl|done|constructor|done|apply NoDup_nil_2|].
  intros i Hi. by apply not_elem_of_nil in Hi.
Qed.

(** One sibling, and then the others. *)
Lemma rewritten_all_cons ir ir1 ir2 t t' ts ts' :
  NoDup (forest_indices (t :: ts)) ->
  rewritten ir ir1 t t' -> rewritten_all ir1 ir2 ts ts' -> rewritten_all ir ir2 (t :: ts) (t' :: ts').
Proof.
  rewrite forest_cons. intros (Hd1 & Hdis & Hd2)%NoDup_app [F1 I1 S1 J1 D1 N1] [F2 I2 S2 J2 D2 N2]. split.
  - rewrite forest_cons. eapply frame_trans; [|eapply frame_mono; [|exact F1]|exact F2];
      intros j Hj; apply elem_of_app; auto.
  - cbn. congruence.
  - constructor; [|done]. eapply stored_frame; [exact F2| |done]. auto.
  - intros j. rewrite !forest_cons, !elem_of_app. intros [?|?]; auto.
  - rewrite forest_cons. apply NoDup_app. split_and!; try done. intros j Hj Hj'. apply (Hdis j); auto.
  - cbn. intros i [-> |Hi]%elem_of_cons.
    + eapply keeps_next_trans; [exact N1|]. eapply keeps_next_frame; [exact F2|].
      apply Hdis, index_in.
    + eapply keeps_next_trans; [|by apply N2]. eapply keeps_next_frame; [exact F1|].
      intros Hj. apply (Hdis i Hj). by apply forest_index_in.
Qed.

(** A node whose children were rewritten. *)
Lemma rewritten_children ir ir' i n ts ts' :
  nodes ir !! i = Some n -> linked ir n (map index ts) -> NoDup (i :: forest_indices ts) ->
  rewritten_all ir ir' ts ts' ->
  nodes ir' !! i = Some n /\ rewritten ir ir' (Tree i (label_of n) ts) (Tree i (label_of n) ts').
Proof.
  intros Hn [Hc Hl Hcount] (Hi & Hd)%NoDup_cons [F I S J D N].
  assert (nodes ir' !! i = Some n) as Hn' by (by rewrite (fr_nodes _ _ _ F)). split; [done|]. split.
  - eapply frame_mono; [|exact F]. intros j Hj. by right.
  - done.
  - constructor; [done| |done]. rewrite I. constructor; [|done..]. by eapply chain_keeps.
  - cbn. intros j [-> |Hj]%elem_of_cons; [left|right]. by apply J.
  - cbn. constructor; [|done]. intros Hj. apply Hi, J, Hj.
  - eapply keeps_next_frame; [exact F|done].
Qed.

(** * One node *)

Definition changed_node (i : nat) (n : VntIrNode) (ir : VntIrProgram) : VntIrProgram :=
  with_nodes (<[i := n]> (nodes ir)) ir.

Lemma set_node_run i f rw n : nodes (rw_ir rw) !! i = Some n ->
  set_node i f rw = Done (tt, rewrite_ir (changed_node i (f n) (rw_ir rw)) rw).
Proof. intros Hn. unfold set_node, on_nodes, update_node. by rewrite Hn. Qed.

Lemma get_node_run i rw n : nodes (rw_ir rw) !! i = Some n -> get_node i rw = Done (n, rw).
Proof. intros Hn. unfold get_node, asks. by rewrite (node_at_done _ _ _ Hn). Qed.

Lemma wp_get_node {A} i n (k : VntIrNode -> St Rewriter A) rw Q : nodes (rw_ir rw) !! i = Some n ->
  wp (k n) rw Q -> wp (n ← get_node i; k n) rw Q.
Proof. intros Hn H. eapply wp_bind_done; [by apply get_node_run|done]. Qed.

Lemma wp_set_node {A} i f n (k : unit -> St Rewriter A) rw Q : nodes (rw_ir rw) !! i = Some n ->
  wp (k tt) (rewrite_ir (changed_node i (f n) (rw_ir rw)) rw) Q -> wp (u ← set_node i f; k u) rw Q.
Proof. intros Hn H. eapply wp_bind_done; [by apply set_node_run|done]. Qed.

Lemma changed_node_frame i n ir : i < node_count ir -> frame [i] ir (changed_node i n ir).
Proof.
  intros Hi. split; try done.
  - unfold node_count. cbn. by rewrite length_insert.
  - cbn. intros j Hj. apply list_lookup_insert_ne. intros ->. apply Hj. left.
Qed.

Lemma changed_node_at i n ir : i < node_count ir -> nodes (changed_node i n ir) !! i = Some n.
Proof. intros Hi. cbn. by apply list_lookup_insert_eq. Qed.

(** * Loops over children *)

Section loop.
Context {A : Type}.

(** What the loop does to a child and to its state; [changed] is part of it. *)
Context (step : tree -> A * nat -> tree -> A * nat -> Prop).

Inductive steps : list tree -> A * nat -> list tree -> A * nat -> Prop :=
  | steps_nil s : steps [] s [] s
  | steps_cons t ts s t' s1 ts' s2 :
      step t s t' s1 -> steps ts s1 ts' s2 -> steps (t :: ts) s (t' :: ts') s2.

Context (body : nat -> A -> St Rewriter (option A)).

Definition body_does (t : tree) : Prop := forall rw a, live (rw_ir rw) t ->
  wp (body (index t) a) rw (fun o rw' => exists t' a', o = Some a' /\
    rewritten (rw_ir rw) (rw_ir rw') t t' /\ step t (a, rw_changed rw) t' (a', rw_changed rw')).

Definition loop_does (rw : Rewriter) (a : A) (ts : list tree) : option A -> Rewriter -> Prop := fun o rw' =>
  exists ts' a', o = Some a' /\ rewritten_all (rw_ir rw) (rw_ir rw') ts ts' /\
    steps ts (a, rw_changed rw) ts' (a', rw_changed rw').

(** The rest of a loop after its first child. *)
Lemma loop_rest (saved : bool) (loop : nat -> option nat -> A -> St Rewriter (option A)) t ts f rw a n :
  (forall rw a, chain (rw_ir rw) (next_sibling n) (map index ts) -> Forall (live (rw_ir rw)) ts ->
     wp (loop f (next_sibling n) a) rw (loop_does rw a ts)) ->
  body_does t -> nodes (rw_ir rw) !! index t = Some n ->
  chain (rw_ir rw) (next_sibling n) (map index ts) ->
  Forall (live (rw_ir rw)) (t :: ts) -> NoDup (forest_indices (t :: ts)) ->
  wp (or_fail (body (index t) a) (fun a =>
        if saved then loop f (next_sibling n) a
        else n ← get_node (index t); loop f (next_sibling n) a)) rw (loop_does rw a (t :: ts)).
Proof.
  intros Hrest Hbody Hn Hc [Ht Hts]%Forall_cons Hd. unfold or_fail. apply wp_bind.
  eapply wp_mono; [by apply Hbody|]. intros o rw1 (t' & a' & -> & Hr & Hstep).
  pose proof Hd as Hd'. rewrite forest_cons in Hd'. apply NoDup_app in Hd' as (_ & Hdis & _).
  pose proof (rn_frame _ _ _ _ Hr) as Hf.
  assert (forall j, j ∈ forest_indices ts -> j ∉ indices t) as Hdis' by (intros j H1 H2; by apply (Hdis j)).
  assert (wp (loop f (next_sibling n) a') rw1 (loop_does rw a (t :: ts))) as Hloop.
  { eapply wp_mono; [apply Hrest|].
    - eapply chain_frame; [exact Hf| |done]. intros j Hj. by apply Hdis', forest_index_in.
    - apply Forall_forall. intros u Hu. rewrite Forall_forall in Hts. destruct (Hts u Hu) as [Hs Hg Hdu].
      split; [|done..]. eapply stored_frame; [exact Hf| |done]. intros j Hj. apply Hdis'.
      by eapply forest_indices_in.
    - intros o rw2 (ts' & a2 & -> & Hra & Hsteps). exists (t' :: ts'), a2. split; [done|].
      split; [by eapply rewritten_all_cons|]. by econstructor. }
  destruct saved; [done|]. destruct (rn_next _ _ _ _ Hr n Hn) as (n' & Hn' & E).
  eapply wp_get_node; [exact Hn'|]. by rewrite E.
Qed.

Lemma loop_siblings_spec ts : Forall body_does ts -> forall fuel rw o a,
  length ts < fuel -> chain (rw_ir rw) o (map index ts) -> Forall (live (rw_ir rw)) ts ->
  NoDup (forest_indices ts) -> wp (loop_siblings fuel body o a) rw (loop_does rw a ts).
Proof.
  induction 1 as [|t ts Ht _ IH]; intros fuel rw o a Hf Hc Hl Hd; (destruct fuel as [|f]; [cbn in Hf; lia|]).
  - inversion Hc; subst. apply wp_ret. exists [], a. split_and!; [done|apply rewritten_all_nil|constructor].
  - inversion Hc as [|i n l Hn Hc' Ho E]; subst. cbn [loop_siblings].
    apply (loop_rest false (fun f => loop_siblings f body) t ts f rw a n); try done.
    intros rw1 a1 Hc1 Hl1. apply IH; [cbn in Hf; lia|done..|]. by apply NoDup_app in Hd as (_ & _ & ?).
Qed.

Lemma loop_saved_spec ts : Forall body_does ts -> forall fuel rw o a,
  length ts < fuel -> chain (rw_ir rw) o (map index ts) -> Forall (live (rw_ir rw)) ts ->
  NoDup (forest_indices ts) -> wp (loop_siblings_saved fuel body o a) rw (loop_does rw a ts).
Proof.
  induction 1 as [|t ts Ht _ IH]; intros fuel rw o a Hf Hc Hl Hd; (destruct fuel as [|f]; [cbn in Hf; lia|]).
  - inversion Hc; subst. apply wp_ret. exists [], a. split_and!; [done|apply rewritten_all_nil|constructor].
  - inversion Hc as [|i n l Hn Hc' Ho E]; subst. cbn [loop_siblings_saved].
    eapply wp_get_node; [exact Hn|].
    apply (loop_rest true (fun f => loop_siblings_saved f body) t ts f rw a n); try done.
    intros rw1 a1 Hc1 Hl1. apply IH; [cbn in Hf; lia|done..|]. by apply NoDup_app in Hd as (_ & _ & ?).
Qed.

(** The steps of a loop as a visit of the children. *)
Lemma steps_visit {B} (f : hir -> B -> hir * B) (state : A * nat -> B) ts s ts' s' :
  (forall t s t' s', step t s t' s' -> f (erase t) (state s) = (erase t', state s')) ->
  steps ts s ts' s' -> visit f (map erase ts) (state s) = (map erase ts', state s').
Proof.
  intros Hf. induction 1 as [|t ts s t' s1 ts' s2 H1 _ IH]; [done|].
  cbn [map]. rewrite visit_cons, (Hf _ _ _ _ H1). cbn [fst snd]. by rewrite IH.
Qed.
End loop.

(** * The children of a live node *)

Record live_at (ir : VntIrProgram) (i : nat) (n : VntIrNode) (ts : list tree) : Prop := {
  la_node : nodes ir !! i = Some n;
  la_linked : linked ir n (map index ts);
  la_live : Forall (live ir) ts;
  la_nodup : NoDup (i :: forest_indices ts);
  la_good : good (Hir (label_of n) (map erase ts))
}.

Lemma live_node ir i n ts : live_at ir i n ts -> live ir (Tree i (label_of n) ts).
Proof.
  intros [Hn Hl Hts Hd Hg]. split; [|exact Hg|exact Hd]. constructor; [done..|].
  eapply Forall_impl; [exact Hts|]. by intros t [].
Qed.

Lemma live_inv ir i l ts : live ir (Tree i l ts) -> exists n, l = label_of n /\ live_at ir i n ts.
Proof.
  intros [Hst Hg Hd]. inversion Hst as [? n ? Hn Hl Hts]; subst. exists n. split; [done|].
  split; try done. apply good_node in Hg as (_ & _ & _ & _ & Hg). rewrite Forall_map in Hg.
  cbn in Hd. apply NoDup_cons in Hd as [_ Hd]. rewrite Forall_forall in *.
  intros t Ht. split; [by apply Hts|by apply Hg|]. by eapply forest_nodup_in.
Qed.

Lemma live_at_range ir i n ts : live_at ir i n ts -> i < node_count ir.
Proof. intros [Hn _ _ _ _]. by eapply lookup_lt_Some. Qed.

Lemma live_at_fuel ir i n ts : live_at ir i n ts -> length ts < sibling_fuel ir.
Proof.
  intros Hla. pose proof (live_subtree _ _ (live_node _ _ _ _ Hla)) as Hs.
  apply subtree_inv in Hs as (n' & _ & _ & [Hc _ _] & Hd & _).
  rewrite <- (length_map index ts). by eapply chain_fuel.
Qed.

Lemma live_at_chain ir i n ts : live_at ir i n ts -> chain ir (first_child n) (map index ts).
Proof. intros [_ [Hc _ _] _ _ _]. exact Hc. Qed.

Lemma live_at_forest ir i n ts : live_at ir i n ts -> NoDup (forest_indices ts) /\ i ∉ forest_indices ts.
Proof. intros [_ _ _ Hd _]. by apply NoDup_cons in Hd as [? ?]. Qed.

Lemma child_fuel i l ts t f : t ∈ ts -> length (indices (Tree i l ts)) <= S f -> length (indices t) <= f.
Proof. intros Ht H. pose proof (child_subtree_length t ts i l Ht). lia. Qed.

(** The children of a live node are visited by a loop. *)
Section children.
Context {A : Type} (step : tree -> A * nat -> tree -> A * nat -> Prop).
Context (body : nat -> A -> St Rewriter (option A)).
Context (rw : Rewriter) (i : nat) (n : VntIrNode) (ts : list tree).

Definition children_done (a : A) : option A -> Rewriter -> Prop := fun o rw' =>
  exists ts' a', o = Some a' /\ nodes (rw_ir rw') !! i = Some n /\
    rewritten (rw_ir rw) (rw_ir rw') (Tree i (label_of n) ts) (Tree i (label_of n) ts') /\
    map index ts' = map index ts /\ steps step ts (a, rw_changed rw) ts' (a', rw_changed rw').

Hypothesis Hla : live_at (rw_ir rw) i n ts.
Hypothesis Hbody : Forall (body_does step body) ts.

Lemma loop_children_done a o rw' : loop_does step rw a ts o rw' -> children_done a o rw'.
Proof.
  intros (ts' & a' & -> & Hra & Hsteps). exists ts', a'. destruct Hla as [Hn Hl _ Hd _].
  destruct (rewritten_children _ _ i n ts ts' Hn Hl Hd Hra). split_and!; try done. by destruct Hra.
Qed.

Lemma children_loop a :
  wp (loop_siblings (rw_fuel rw) body (first_child n) a) rw (children_done a).
Proof.
  eapply wp_mono; [|exact (loop_children_done a)]. apply (loop_siblings_spec step body ts Hbody);
    [by eapply live_at_fuel|by eapply live_at_chain|apply Hla|by eapply live_at_forest].
Qed.

Lemma children_loop_saved a :
  wp (loop_siblings_saved (rw_fuel rw) body (first_child n) a) rw (children_done a).
Proof.
  eapply wp_mono; [|exact (loop_children_done a)]. apply (loop_saved_spec step body ts Hbody);
    [by eapply live_at_fuel|by eapply live_at_chain|apply Hla|by eapply live_at_forest].
Qed.
End children.

Lemma stored_node ir t : stored ir t -> exists n, nodes ir !! index t = Some n /\ label t = label_of n.
Proof. intros Hst. destruct Hst as [i n ts Hn _ _]. by exists n. Qed.

(** Rewriting the children keeps the node as it is. *)
Lemma rewritten_live_at ir ir' i n ts ts' :
  nodes ir' !! i = Some n -> rewritten ir ir' (Tree i (label_of n) ts) (Tree i (label_of n) ts') ->
  good (Hir (label_of n) (map erase ts')) -> live_at ir' i n ts'.
Proof.
  intros Hn Hr Hg. pose proof (rewritten_live _ _ _ _ Hr Hg) as Hlive.
  destruct (live_inv _ _ _ _ Hlive) as (n' & _ & Hla). destruct Hla as [Hn' ? ? ? ?]. by simplify_eq.
Qed.

(** The first child in a role. *)
Definition child_in (r : VntIrEdgeRole) (ts : list tree) : option tree :=
  find (fun t => bool_decide (l_role (label t) = r)) ts.

Lemma stored_role ir t : stored ir t -> role_at ir (index t) = l_role (label t).
Proof. intros Hst. destruct Hst as [i n ts Hn _ _]. by apply role_at_node. Qed.

Lemma first_in_role_children ir r ts : Forall (stored ir) ts ->
  first_in_role ir r (map index ts) = index <$> child_in r ts.
Proof.
  unfold first_in_role, child_in. induction 1 as [|t ts Ht _ IH]; [done|]. cbn.
  rewrite (stored_role _ _ Ht), IH. by case_bool_decide.
Qed.

Lemma find_child ir i n ts r : live_at ir i n ts ->
  find_role ir r (first_child n) = Done (index <$> child_in r ts).
Proof.
  intros Hla. pose proof (live_subtree _ _ (live_node _ _ _ _ Hla)) as Hs.
  apply subtree_inv in Hs as (n' & Hn' & _ & [Hc _ _] & Hd & _).
  assert (n' = n) as -> by (destruct Hla; congruence).
  rewrite (find_role_spec ir r _ _ Hc Hd). f_equal. apply first_in_role_children.
  eapply Forall_impl; [apply Hla|]. by intros t [].
Qed.

Lemma child_in_elem r ts t : child_in r ts = Some t -> t ∈ ts /\ l_role (label t) = r.
Proof.
  intros [Hin Hr]%find_some. split; [by apply list_elem_of_In|]. by apply bool_decide_eq_true in Hr.
Qed.

Lemma erase_label t : hir_label (erase t) = label t.
Proof. by destruct t. Qed.

Lemma erase_role t : l_role (hir_label (erase t)) = l_role (label t).
Proof. by destruct t. Qed.

(** * Changing the node itself *)

(** The node becomes a leaf or keeps its children; its payload may change. *)
Lemma rewritten_node ir i n n' ts ts' :
  nodes ir !! i = Some n -> stored ir (Tree i (label_of n) ts) -> NoDup (indices (Tree i (label_of n) ts)) ->
  next_sibling n' = next_sibling n -> (ts' = ts /\ first_child n' = first_child n /\
    last_child n' = last_child n /\ child_count n' = child_count n \/
    ts' = [] /\ first_child n' = None /\ last_child n' = None /\ child_count n' = 0) ->
  rewritten ir (changed_node i n' ir) (Tree i (label_of n) ts) (Tree i (label_of n') ts').
Proof.
  intros Hn Hst Hd Hnext Hch. pose proof (lookup_lt_Some _ _ _ Hn) as Hi.
  inversion Hst as [? m ? Hm [Hc Hl Hcount] Hts]; subst. simplify_eq.
  cbn in Hd. pose proof Hd as (Hni & Hd')%NoDup_cons.
  pose proof (changed_node_frame i n' ir Hi) as Hf.
  assert (forall j, j ∈ forest_indices ts -> j ∉ [i]) as Hdis
    by (intros j Hj ->%list_elem_of_singleton; done).
  split.
  - eapply frame_mono; [|exact Hf]. intros j ->%list_elem_of_singleton. left.
  - done.
  - destruct Hch as [(-> & E1 & E2 & E3)|(-> & E1 & E2 & E3)].
    + constructor; [by apply changed_node_at| |].
      * constructor; rewrite ?E1, ?E2, ?E3; [|congruence..].
        eapply chain_frame; [exact Hf| |congruence]. intros j Hj. by apply Hdis, forest_index_in.
      * rewrite Forall_forall in *. intros t Ht. eapply stored_frame; [exact Hf| |by apply Hts].
        intros j Hj. apply Hdis. by eapply forest_indices_in.
    + constructor; [by apply changed_node_at| |done]. constructor; [rewrite E1; constructor|done|done].
  - destruct Hch as [(-> & _)|(-> & _)]; [done|]. intros j Hj. cbn in *.
    apply list_elem_of_singleton in Hj as ->. left.
  - destruct Hch as [(-> & _)|(-> & _)]; [done|]. apply NoDup_singleton.
  - intros m Hm'. cbn [index] in *. rewrite Hn in Hm'. injection Hm' as <-. exists n'.
    split; [by apply changed_node_at|done].
Qed.
