(* ===== verification/IrPruning.v ===== *)
(** IrPruning: hir_prune_sequence drops the children that [prune_children] drops,
    by linking the ones that are kept.
    The first part: hir_fold_node computes [fold_hir]. *)

From S2P Require Import Prelude Clib Ast Ir IrTrees IrFacts IrAccess IrOptimize IrPasses.
From S2P Require Import IrPassesFacts IrRewrite.

(** * Constants *)

(** Reading the constant of a literal. *)
Lemma hir_constant_spec ir i n : nodes ir !! i = Some n -> literal_ok (label_of n) ->
  hir_constant ir i = Done (label_constant (label_of n)).
Proof.
  intros Hn Hlit. unfold hir_constant. destruct (Nat.leb_spec (node_count ir) i) as [H|_].
  { apply lookup_lt_Some in Hn. unfold node_count in H. lia. }
  rewrite (node_at_done _ _ _ Hn). cbn. unfold label_constant, literal_ok in *. cbn in *.
  unfold node_integer, node_boolean, node_floating.
  destruct (opcode n); try done; destruct Hlit as [x ->]; done.
Qed.

Lemma stored_constant ir t : stored ir t -> good (erase t) ->
  hir_constant ir (index t) = Done (constant_of (erase t)).
Proof.
  intros Hst Hg. destruct Hst as [i n ts Hn _ _]. apply good_node in Hg as (_ & Hlit & _).
  by apply hir_constant_spec.
Qed.

(** A node becomes a literal. *)
Lemma replace_folded_spec rw i n ts c :
  nodes (rw_ir rw) !! i = Some n -> stored (rw_ir rw) (Tree i (label_of n) ts) ->
  NoDup (indices (Tree i (label_of n) ts)) ->
  wp (replace_folded i c) rw (fun ok rw' => ok = true /\ exists t',
    rewritten (rw_ir rw) (rw_ir rw') (Tree i (label_of n) ts) t' /\
    (erase t', rw_changed rw') =
      match c with
      | Some c => (literal c (label_of n), S (rw_changed rw))
      | None => (Hir (label_of n) (map erase ts), rw_changed rw)
      end).
Proof.
  intros Hn Hst Hd. destruct c as [c|]; cbn [replace_folded].
  - eapply wp_set_node; [exact Hn|]. apply wp_bind, wp_modify, wp_ret. split; [done|].
    exists (Tree i (label_of (literal_node c n)) []). split; [|done]. cbn [rw_ir rewrite_ir].
    apply rewritten_node; auto 10.
  - apply wp_ret. split; [done|]. exists (Tree i (label_of n) ts). split; [|done]. by apply rewritten_refl.
Qed.

(** * The pass *)

Definition operands_step (t : tree) (o : option nat * option nat) : option nat * option nat :=
  match l_role (label t) with
  | VNT_IR_EDGE_LEFT => (Some (index t), o.2)
  | VNT_IR_EDGE_RIGHT => (o.1, Some (index t))
  | _ => o
  end.

Definition fold_step (t : tree) (s : option nat * option nat * nat) (t' : tree)
    (s' : option nat * option nat * nat) : Prop :=
  fold_hir (erase t) s.2 = (erase t', s'.2) /\ s'.1 = operands_step t s.1.

Lemma fold_steps_operands ts s ts' s' : steps fold_step ts s ts' s' ->
  s'.1 = fold_left (fun o t => operands_step t o) ts s.1.
Proof. induction 1 as [|t ts s t' s1 ts' s2 [_ H] _ IH]; [done|]. cbn. by rewrite IH, H. Qed.

Lemma operands_same ts : forall ts' o, map index ts' = map index ts ->
  roles_of (map erase ts') = roles_of (map erase ts) ->
  fold_left (fun o t => operands_step t o) ts' o = fold_left (fun o t => operands_step t o) ts o.
Proof.
  induction ts as [|t ts IH]; intros [|t' ts'] o Hi Hr; try done.
  injection Hi as E1 Hi. injection Hr as E2 Hr. rewrite !erase_role in E2. cbn.
  assert (operands_step t' o = operands_step t o) as -> by (unfold operands_step; by rewrite E1, E2).
  by apply IH.
Qed.

Lemma wp_operand_constant {B} ir t (k : option HirConstant -> St Rewriter B) rw Q :
  rw_ir rw = ir -> stored ir t -> good (erase t) ->
  wp (k (constant_of (erase t))) rw Q -> wp (c ← operand_constant (Some (index t)); k c) rw Q.
Proof.
  intros <- Hst Hg Hk. cbn [operand_constant]. apply wp_bind.
  eapply wp_asks; [by apply stored_constant|exact Hk].
Qed.

Lemma roles_one (ts : list tree) r : roles_of (map erase ts) = [r] ->
  exists t, ts = [t] /\ l_role (label t) = r.
Proof.
  destruct ts as [|t [|]]; try done. intros [= E]. exists t. split; [done|]. by rewrite <- erase_role.
Qed.

Lemma roles_two (ts : list tree) r1 r2 : roles_of (map erase ts) = [r1; r2] ->
  exists t1 t2, ts = [t1; t2] /\ l_role (label t1) = r1 /\ l_role (label t2) = r2.
Proof.
  destruct ts as [|t1 [|t2 [|]]]; try done. intros [= E1 E2]. exists t1, t2.
  by rewrite <- !erase_role.
Qed.

Lemma condition_first op (ts : list tree) : op = VNT_IR_IF \/ op = VNT_IR_WHILE ->
  in_order op (roles_of (map erase ts)) ->
  exists c us, ts = c :: us /\ l_role (label c) = VNT_IR_EDGE_CONDITION.
Proof.
  intros Hop Ho. assert (exists rs, roles_of (map erase ts) = VNT_IR_EDGE_CONDITION :: rs) as [rs E]
    by (destruct Hop as [-> | ->]; [destruct Ho as (? & ? & E)|destruct Ho as (? & E)]; by eexists).
  destruct ts as [|c us]; [done|]. exists c, us. split; [done|]. injection E as E _.
  by rewrite <- erase_role.
Qed.

(** The node itself, after its children. *)
Section node.
Context (rw : Rewriter) (i : nat) (n : VntIrNode) (ts : list tree).
Hypothesis Hla : live_at (rw_ir rw) i n ts.

Definition node_folded (ok : bool) (rw' : Rewriter) : Prop := ok = true /\ exists t',
  rewritten (rw_ir rw) (rw_ir rw') (Tree i (label_of n) ts) t' /\
  (erase t', rw_changed rw') =
    match fold_here (label_of n) (map erase ts) with
    | Some c => (literal c (label_of n), S (rw_changed rw))
    | None => (Hir (label_of n) (map erase ts), rw_changed rw)
    end.

Lemma replace_spec : wp (replace_folded i (fold_here (label_of n) (map erase ts))) rw node_folded.
Proof.
  pose proof (live_node _ _ _ _ Hla) as [Hst _ Hd]. apply replace_folded_spec; [apply Hla|done..].
Qed.

Lemma unary_spec : opcode n = VNT_IR_UNARY -> wp (fold_unary_node i) rw node_folded.
Proof.
  pose proof replace_spec as H. intros Hop. unfold fold_unary_node. eapply wp_get_node; [apply Hla|].
  apply wp_bind. eapply wp_asks; [by eapply find_child|].
  pose proof (la_good _ _ _ _ Hla) as (_ & _ & Hro & _)%good_node. cbn [label_of l_opcode] in Hro.
  rewrite Hop in Hro. destruct (roles_one _ _ Hro) as (a & -> & Ha).
  unfold child_in. cbn [find]. rewrite bool_decide_eq_true_2 by done.
  pose proof (la_live _ _ _ _ Hla) as Hl. apply Forall_inv in Hl as [Hsa Hga _].
  eapply wp_operand_constant; [done|exact Hsa|exact Hga|].
  unfold fold_here in H. cbn [label_of l_opcode l_operation map] in H.
  rewrite Hop in H. replace (match constant_of (erase a) with
    | Some value => match unary_of_int (operation n) with Some op => fold_unary op value | None => None end
    | None => None end) with (match unary_of_int (operation n) with
    | Some op => match constant_of (erase a) with Some a0 => fold_unary op a0 | None => None end
    | None => None end); [exact H|].
  by destruct (unary_of_int _), (constant_of _).
Qed.

Lemma binary_spec operands : opcode n = VNT_IR_BINARY ->
  operands = fold_left (fun o t => operands_step t o) ts (None, None) ->
  wp (fold_binary_node i operands.1 operands.2) rw node_folded.
Proof.
  pose proof replace_spec as H. intros Hop ->. unfold fold_binary_node. eapply wp_get_node; [apply Hla|].
  pose proof (la_good _ _ _ _ Hla) as (_ & _ & _ & Hio & _)%good_node. cbn [label_of l_opcode] in Hio.
  rewrite Hop in Hio. destruct (roles_two _ _ _ Hio) as (a & b & -> & Ha & Hb).
  unfold operands_step. cbn [fold_left]. rewrite Ha, Hb. cbn [fst snd].
  pose proof (la_live _ _ _ _ Hla) as Hl. apply Forall_cons in Hl as [[Hsa Hga _] [Hsb Hgb _]%Forall_inv].
  eapply wp_operand_constant; [done|exact Hsa|exact Hga|].
  unfold fold_here in H. cbn [label_of l_opcode l_operation map] in H.
  rewrite Hop in H. destruct (constant_of (erase a)) as [ca|].
  - eapply wp_operand_constant; [done|exact Hsb|exact Hgb|].
    destruct (binary_of_int (operation n)), (constant_of (erase b)); exact H.
  - assert (forall (o : option BinaryOperator), match o with Some _ => @None HirConstant | None => None end = None)
      as E by (by intros []).
    rewrite E in H. exact H.
Qed.

Lemma here_spec operands : operands = fold_left (fun o t => operands_step t o) ts (None, None) ->
  wp (n ← get_node i;
      match opcode n with
      | VNT_IR_UNARY => fold_unary_node i
      | VNT_IR_BINARY => fold_binary_node i operands.1 operands.2
      | _ => mret true
      end) rw node_folded.
Proof.
  intros Hops. eapply wp_get_node; [apply Hla|]. pose proof replace_spec as H. unfold fold_here in H.
  cbn [label_of l_opcode] in H. destruct (opcode n) eqn:Hop; try exact H.
  - by apply binary_spec.
  - by apply unary_spec.
Qed.
End node.

(** Folding the children keeps the node good. *)
Lemma visited_good {A} (f : hir -> A -> hir * A) l hs a :
  (forall h, keeps_role f h) -> (forall h a, good h -> good (f h a).1) ->
  good (Hir l hs) -> good (Hir l (visit f hs a).1).
Proof.
  intros Hrole Hgood (H1 & H2 & H3 & H4 & H5)%good_node. apply good_node.
  rewrite (visit_roles f hs (Forall_true _ _ Hrole) a). split_and!; try done.
  apply (visit_forall _ good); [|done]. apply Forall_true. auto.
Qed.

Lemma fold_loop_body f ts :
  (forall t rw, live (rw_ir rw) t -> t ∈ ts ->
     wp (hir_fold_node f (index t)) rw (fun ok rw' => ok = true /\ exists t',
       rewritten (rw_ir rw) (rw_ir rw') t t' /\ (erase t', rw_changed rw') = fold_hir (erase t) (rw_changed rw))) ->
  Forall (body_does fold_step (fun c operands =>
    child ← get_node c;
    let operands := match role child with
                    | VNT_IR_EDGE_LEFT => (Some c, operands.2)
                    | VNT_IR_EDGE_RIGHT => (operands.1, Some c)
                    | _ => operands
                    end in
    ok ← hir_fold_node f c;
    mret (if (ok : bool) then Some operands else None))) ts.
Proof.
  intros H. apply Forall_forall. intros t Ht rw o Hl.
  destruct (stored_node _ _ (lv_stored _ _ Hl)) as (m & Hm & Hlab). eapply wp_get_node; [exact Hm|].
  apply wp_bind. eapply wp_mono; [by apply H|]. intros ok rw' (-> & t' & Hr & E). apply wp_ret.
  exists t', (operands_step t o). unfold operands_step. rewrite Hlab. cbn [label_of l_role].
  split; [by destruct (role m)|]. split; [done|]. split; [done|].
  unfold operands_step. rewrite Hlab. done.
Qed.

Lemma hir_fold_node_spec fuel : forall t rw, live (rw_ir rw) t -> length (indices t) <= fuel ->
  wp (hir_fold_node fuel (index t)) rw (fun ok rw' => ok = true /\ exists t',
    rewritten (rw_ir rw) (rw_ir rw') t t' /\ (erase t', rw_changed rw') = fold_hir (erase t) (rw_changed rw)).
Proof.
  induction fuel as [|f IH]; intros [i l ts] rw Hlive Hf; [cbn in Hf; lia|].
  destruct (live_inv _ _ _ _ Hlive) as (n & -> & Hla). cbn [hir_fold_node index].
  eapply wp_get_node; [apply Hla|]. apply wp_bind, wp_gets, wp_bind.
  eapply wp_mono; [apply (children_loop fold_step _ rw i n ts Hla)|].
  { apply fold_loop_body. intros t rw1 Hl1 Ht. apply IH; [done|]. by eapply child_fuel. }
  intros o rw1 (ts' & operands & -> & Hn1 & Hr1 & Hidx & Hsteps).
  pose proof (steps_visit fold_step fold_hir snd _ _ _ _ (fun _ _ _ _ H => proj1 H) Hsteps) as Hv.
  pose proof (fold_steps_operands _ _ _ _ Hsteps) as Hops. cbn [fst snd] in Hv, Hops.
  pose proof (visited_good fold_hir (label_of n) (map erase ts) (rw_changed rw) fold_hir_role
    (fun h k Hg => fold_hir_good h Hg k) (la_good _ _ _ _ Hla)) as Hg1.
  pose proof (visit_roles fold_hir (map erase ts) (Forall_true _ _ fold_hir_role) (rw_changed rw)) as Hro.
  rewrite Hv in Hg1, Hro. cbn [fst] in Hg1, Hro.
  pose proof (rewritten_live_at _ _ _ _ _ _ Hn1 Hr1 Hg1) as Hla1.
  cbn [erase fold_hir]. rewrite Hv. destruct operands as [lhs rhs]. cbv beta iota.
  eapply wp_mono; [apply (here_spec rw1 i n ts' Hla1 (lhs, rhs))|].
  - rewrite Hops. symmetry. by apply operands_same.
  - intros ok rw2 (-> & t2 & Hr2 & E). split; [done|]. exists t2. split; [by eapply rewritten_trans|].
    rewrite E. by destruct (fold_here _ _).
Qed.

(** * Relinking siblings *)

(** Only links to siblings have changed, of the nodes of [I]. *)
Record relinked (I : list nat) (ir ir' : VntIrProgram) : Prop := {
  rl_frame : frame I ir ir';
  rl_next : forall j n, nodes ir !! j = Some n -> exists o, nodes ir' !! j = Some (with_next o n)
}.

Lemma with_next_same n : with_next (next_sibling n) n = n.
Proof. by destruct n. Qed.

Lemma relinked_refl I ir : relinked I ir ir.
Proof.
  split; [apply frame_refl|]. intros j n Hn. exists (next_sibling n). by rewrite with_next_same.
Qed.

Lemma relinked_trans I ir1 ir2 ir3 : relinked I ir1 ir2 -> relinked I ir2 ir3 -> relinked I ir1 ir3.
Proof.
  intros [F1 N1] [F2 N2]. split; [by eapply frame_trans|]. intros j n Hn.
  destruct (N1 j n Hn) as [o1 H1]. destruct (N2 _ _ H1) as [o2 H2]. exists o2. by rewrite H2.
Qed.

Lemma relinked_mono I J ir ir' : (forall j, j ∈ I -> j ∈ J) -> relinked I ir ir' -> relinked J ir ir'.
Proof. intros H [F N]. split; [by eapply frame_mono|done]. Qed.

Lemma relinked_set j o n ir : nodes ir !! j = Some n -> relinked [j] ir (changed_node j (with_next o n) ir).
Proof.
  intros Hn. pose proof (lookup_lt_Some _ _ _ Hn) as Hj. split; [by apply changed_node_frame|].
  intros i m Hm. destruct (decide (i = j)) as [->|Hne].
  - exists o. rewrite Hn in Hm. injection Hm as <-. by apply changed_node_at.
  - exists (next_sibling m). rewrite with_next_same. cbn. by rewrite list_lookup_insert_ne.
Qed.

(** The trees are still there, if only their roots were relinked. *)
Lemma relinked_stored I ir ir' t : relinked I ir ir' ->
  (forall j, j ∈ indices t -> j <> index t -> j ∉ I) -> NoDup (indices t) -> stored ir t -> stored ir' t.
Proof.
  intros [F N] Hd Hnd Hst. destruct Hst as [i n ts Hn [Hc Hl Hcount] Hts].
  destruct (N i n Hn) as [o Hn']. change (label_of n) with (label_of (with_next o n)).
  cbn in Hnd. apply NoDup_cons in Hnd as [Hi Hnd].
  assert (forall j, j ∈ forest_indices ts -> j ∉ I) as Hdis.
  { intros j Hj. apply Hd; [by right|]. intros ->. by apply Hi. }
  constructor; [done| |].
  - constructor; [|done..]. cbn. eapply chain_frame; [exact F| |done].
    intros j Hj. by apply Hdis, forest_index_in.
  - rewrite Forall_forall in *. intros t Ht. eapply stored_frame; [exact F| |by apply Hts].
    intros j Hj. apply Hdis. by eapply forest_indices_in.
Qed.

(** Roots of different trees. *)
Lemma forest_roots ts t : NoDup (forest_indices ts) -> t ∈ ts ->
  forall j, j ∈ indices t -> j <> index t -> j ∉ map index ts.
Proof.
  intros Hd Ht j Hj Hne Hin. apply list_elem_of_fmap in Hin as (u & Eu & Hu). subst j.
  apply list_elem_of_split in Ht as (ts1 & ts2 & ->). rewrite forest_indices_app, forest_cons in Hd.
  apply NoDup_app in Hd as (_ & Hd1 & (_ & Hd2 & _)%NoDup_app).
  apply elem_of_app in Hu as [Hu|[->|Hu]%elem_of_cons]; [|done|].
  - apply (Hd1 (index u)); [by eapply forest_indices_in; [|apply index_in]|]. apply elem_of_app. by left.
  - apply (Hd2 (index u)); [done|]. by eapply forest_indices_in; [|apply index_in].
Qed.

Lemma relinked_live I ir ir' ts : relinked I ir ir' -> (forall j, j ∈ I -> j ∈ map index ts) ->
  NoDup (forest_indices ts) -> Forall (live ir) ts -> Forall (live ir') ts.
Proof.
  intros Hr HI Hd Hl. rewrite Forall_forall in *. intros t Ht. destruct (Hl t Ht) as [Hs Hg Hn].
  split; [|done..]. eapply relinked_stored; [exact Hr| |done..]. intros j Hj Hne Hin.
  exact (forest_roots ts t Hd Ht j Hj Hne (HI j Hin)).
Qed.

(** * Segments *)

Definition links_to (ir : VntIrProgram) (a : nat) (o : option nat) : Prop :=
  exists n, nodes ir !! a = Some n /\ next_sibling n = o.

(** Every node of [l] is linked to the one after it. *)
Definition segment (ir : VntIrProgram) (l : list nat) : Prop :=
  forall l1 a b l2, l = l1 ++ a :: b :: l2 -> links_to ir a (Some b).

Lemma segment_one ir a : segment ir [a].
Proof. intros l1 x y l2 E. by destruct l1 as [|? [|]]. Qed.

Lemma segment_tail ir a l : segment ir (a :: l) -> segment ir l.
Proof. intros H l1 x y l2 ->. by apply (H (a :: l1) x y l2). Qed.

Lemma snoc_cases {A} (l : list A) : l = [] \/ exists l' z, l = l' ++ [z].
Proof. induction l as [|z l' _] using rev_ind; [by left|right; by exists l', z]. Qed.

Lemma segment_snoc ir l a b : segment ir (l ++ [a]) -> links_to ir a (Some b) -> segment ir (l ++ [a; b]).
Proof.
  intros H Hab l1 x y l2 E. destruct (snoc_cases l2) as [->|(l3 & z & ->)].
  - change (l ++ [a; b]) with (l ++ [a] ++ [b]) in E. rewrite app_assoc in E.
    change (l1 ++ [x; y]) with (l1 ++ [x] ++ [y]) in E. rewrite app_assoc in E.
    apply app_inj_tail in E as [E <-]. by apply app_inj_tail in E as [_ <-].
  - change (l ++ [a; b]) with (l ++ [a] ++ [b]) in E. rewrite app_assoc in E.
    change (l1 ++ x :: y :: l3 ++ [z]) with (l1 ++ (x :: y :: l3) ++ [z]) in E. rewrite app_assoc in E.
    apply app_inj_tail in E as [E _]. by eapply H.
Qed.

Lemma segment_chain ir l : segment ir l -> (forall a, last l = Some a -> links_to ir a None) ->
  chain ir (head l) l.
Proof.
  induction l as [|a l IH]; intros Hs Hl; [constructor|]. destruct l as [|b l].
  - destruct (Hl a eq_refl) as (n & Hn & E). econstructor; [exact Hn|]. rewrite E. constructor.
  - destruct (Hs [] a b l eq_refl) as (n & Hn & E). econstructor; [exact Hn|]. rewrite E.
    apply IH; [by eapply segment_tail|]. intros c Hc. by apply Hl.
Qed.

Lemma chain_inv ir o a l : chain ir o (a :: l) ->
  exists n, o = Some a /\ nodes ir !! a = Some n /\ chain ir (next_sibling n) l.
Proof. inversion 1; subst. by eexists. Qed.

Lemma chain_segment ir o l1 l2 : chain ir o (l1 ++ l2) -> segment ir l1.
Proof.
  intros Hc k1 a b k2 ->. revert o Hc. induction k1 as [|x k1 IH]; intros o Hc.
  - apply chain_inv in Hc as (n & _ & Hn & (m & E & _)%chain_inv). by exists n.
  - apply chain_inv in Hc as (n & _ & _ & Hc). by eapply IH.
Qed.

(** Links of other nodes do not matter. *)
Lemma links_to_frame I ir ir' a o : frame I ir ir' -> a ∉ I -> links_to ir a o -> links_to ir' a o.
Proof. intros F Ha (n & Hn & E). exists n. by rewrite (fr_nodes _ _ _ F). Qed.

(** * Pruning *)

(** [prune_children] on trees. *)
Fixpoint prune_trees (terminated : list VntIrEdgeRole) (ts : list tree) (k : nat) : list tree * nat :=
  match ts with
  | [] => ([], k)
  | t :: ts =>
      let r := l_role (label t) in
      if statement_role r && bool_decide (r ∈ terminated) then prune_trees terminated ts (S k)
      else
        let (ts, k) := prune_trees
          (if statement_role r && is_terminator (l_opcode (label t)) then r :: terminated
           else terminated) ts k in
        (t :: ts, k)
  end.

Lemma prune_trees_erase ts : forall term k,
  prune_children term (map erase ts) k = (map erase (prune_trees term ts k).1, (prune_trees term ts k).2).
Proof.
  induction ts as [|t ts IH]; intros term k; [done|]. cbn [map prune_children prune_trees].
  rewrite erase_label. destruct (statement_role _ && bool_decide _); [apply IH|].
  rewrite IH. by destruct (prune_trees _ ts k).
Qed.

Lemma prune_trees_sublist ts : forall term k, (prune_trees term ts k).1 `sublist_of` ts.
Proof.
  induction ts as [|t ts IH]; intros term k; [done|]. cbn [prune_trees].
  destruct (statement_role _ && bool_decide _); [by apply sublist_cons|].
  specialize (IH (if statement_role (l_role (label t)) && is_terminator (l_opcode (label t))
    then l_role (label t) :: term else term) k).
  destruct (prune_trees _ ts k) as [ts' k']. by apply sublist_skip.
Qed.

(** The variables of the loop after the trees [ts] were kept. *)
Definition kept (ts : list tree) (k : Kept) : Prop :=
  k_first k = head (map index ts) /\ k_last k = last (map index ts) /\ k_count k = length ts.

Definition labelled (ir : VntIrProgram) (t : tree) : Prop :=
  exists n, nodes ir !! index t = Some n /\ label t = label_of n.

Lemma labelled_relinked I ir ir' t : relinked I ir ir' -> labelled ir t -> labelled ir' t.
Proof.
  intros [_ N] (m & Hm & E). destruct (N _ _ Hm) as [o Hm']. by exists (with_next o m).
Qed.

(** The last of a segment is linked to another node. *)
Lemma segment_set ir l a b n : NoDup (l ++ [a]) -> nodes ir !! a = Some n ->
  segment ir (l ++ [a]) -> segment (changed_node a (with_next (Some b) n) ir) (l ++ [a; b]).
Proof.
  intros Hd Hn Hs. pose proof (lookup_lt_Some _ _ _ Hn) as Hr.
  pose proof (changed_node_frame a (with_next (Some b) n) ir Hr) as Hf. apply segment_snoc.
  - intros l1 x y l2 E. eapply links_to_frame; [exact Hf| |by eapply Hs].
    intros ->%list_elem_of_singleton. rewrite E in Hd. apply NoDup_app in Hd as (_ & _ & [Hd _]%NoDup_cons).
    apply Hd. destruct (snoc_cases (y :: l2)) as [|(l3 & z & E')]; [done|].
    rewrite E' in E |- *. change (l1 ++ a :: l3 ++ [z]) with (l1 ++ (a :: l3) ++ [z]) in E.
    rewrite app_assoc in E. apply app_inj_tail in E as [_ ->]. apply elem_of_app. right. left.
  - exists (with_next (Some b) n). split; [by apply changed_node_at|done].
Qed.

Definition pruned (I : list nat) (rw : Rewriter) (ts : list tree) (c : nat) (k : Kept) (rw' : Rewriter) : Prop :=
  relinked I (rw_ir rw) (rw_ir rw') /\ rw_changed rw' = c /\ kept ts k /\
  segment (rw_ir rw') (map index ts).

Lemma kept_keep K k t n : kept K k -> kept (K ++ [t]) (keep k (index t) n).
Proof.
  intros (E1 & E2 & E3). unfold kept, keep. cbn. rewrite map_app. cbn. rewrite last_snoc, length_app, E1, E3.
  split_and!; [by destruct K|done|cbn; lia].
Qed.

Lemma prune_loop_spec I R : forall fuel o k rw K, length R < fuel ->
  chain (rw_ir rw) o (map index R) -> kept K k -> segment (rw_ir rw) (map index K) ->
  NoDup (map index (K ++ R)) -> (forall j, j ∈ map index (K ++ R) -> j ∈ I) ->
  Forall (labelled (rw_ir rw)) (K ++ R) ->
  wp (prune_loop fuel o k) rw (pruned I rw (K ++ (prune_trees (k_terminated k) R (rw_changed rw)).1)
                                 (prune_trees (k_terminated k) R (rw_changed rw)).2).
Proof.
  induction R as [|t R IH]; intros fuel o k rw K Hf Hc Hk Hs Hd HI Hlab;
    (destruct fuel as [|f]; [cbn in Hf; lia|]).
  { inversion Hc; subst. apply wp_ret. rewrite app_nil_r. split_and!; auto using relinked_refl. }
  cbn in Hf. pose proof Hlab as [HlabK [(m & Hm & E) HlabR]%Forall_cons]%Forall_app.
  apply chain_inv in Hc as (m' & -> & Hm' & Hc). rewrite Hm in Hm'. injection Hm' as <-.
  cbn [prune_loop prune_trees]. eapply wp_get_node; [exact Hm|]. rewrite E. cbn [label_of l_role l_opcode].
  change (is_terminated k (role m)) with (bool_decide (role m ∈ k_terminated k)).
  assert (NoDup (map index (K ++ R)) /\ forall j, j ∈ map index (K ++ R) -> j ∈ I) as [Hd' HI'].
  { rewrite !map_app in *. cbn in *. split.
    - apply NoDup_app in Hd as (H1 & H2 & [_ H3]%NoDup_cons). apply NoDup_app. split_and!; try done.
      intros j Hj Hj'. apply (H2 j Hj). by right.
    - intros j Hj. apply HI. rewrite elem_of_app, elem_of_cons in *. tauto. }
  destruct (statement_role (role m) && _).
  { apply wp_bind, wp_modify.
    apply (IH f (next_sibling m) k {| rw_ir := rw_ir rw; rw_changed := S (rw_changed rw) |} K);
      try done; [lia|]. by apply Forall_app. }
  assert (K ++ t :: R = (K ++ [t]) ++ R) as EK by (by rewrite <- app_assoc).
  rewrite EK in Hd, HI, Hlab.
  assert (forall rw', rw_changed rw' = rw_changed rw -> relinked I (rw_ir rw) (rw_ir rw') ->
    chain (rw_ir rw') (next_sibling m) (map index R) -> segment (rw_ir rw') (map index (K ++ [t])) ->
    Forall (labelled (rw_ir rw')) ((K ++ [t]) ++ R) ->
    wp (prune_loop f (next_sibling m) (keep k (index t) m)) rw'
      (let (ts, c) := prune_trees (if statement_role (role m) && is_terminator (opcode m)
         then role m :: k_terminated k else k_terminated k) R (rw_changed rw) in
       pruned I rw (K ++ t :: ts) c)) as Hnext.
  { intros rw' Ec Hr Hc' Hs' Hl'. eapply wp_mono.
    - apply (IH f _ (keep k (index t) m) rw' (K ++ [t])); try done; [lia|]. by apply kept_keep.
    - intros k' rw'' (Hr' & Ec' & Hk' & Hs''). rewrite Ec in *. cbn [keep k_terminated] in *.
      destruct (prune_trees _ R (rw_changed rw)) as [ts c]. cbn [fst snd] in *.
      rewrite <- app_assoc in Hk', Hs''. split_and!; try done. by eapply relinked_trans. }
  destruct (prune_trees _ R (rw_changed rw)) as [ts c]. cbn [fst snd].
  destruct Hk as (E1 & E2 & E3). rewrite E1, E2.
  destruct (snoc_cases K) as [->|(K' & z & ->)].
  - cbn [map head]. apply wp_bind, wp_ret. apply Hnext; auto using relinked_refl. apply segment_one.
  - assert (exists x, head (map index (K' ++ [z])) = Some x) as [x ->]
      by (destruct K' as [|y K']; cbn; by eexists).
    rewrite map_app. cbn [map]. rewrite last_snoc. cbn [set_next].
    apply Forall_app in HlabK as [_ (nz & Hnz & _)%Forall_inv].
    eapply wp_set_node; [exact Hnz|].
    assert (forall u, u ∈ t :: R -> index z <> index u) as Hz.
    { intros u Hu Ez. rewrite <- EK, <- app_assoc, map_app in Hd. apply NoDup_app in Hd as (_ & _ & Hd).
      cbn in Hd. apply NoDup_cons in Hd as [Hd _]. apply Hd. rewrite Ez.
      apply (list_elem_of_fmap_2 index (t :: R)), Hu. }
    apply Hnext; [done| | | |].
    + cbn. eapply relinked_mono; [|by apply relinked_set].
      intros j ->%list_elem_of_singleton. apply HI. rewrite !map_app. cbn.
      rewrite !elem_of_app, !list_elem_of_singleton. tauto.
    + cbn. eapply chain_frame; [apply changed_node_frame; by eapply lookup_lt_Some| |done].
      intros j Hj ->%list_elem_of_singleton. apply list_elem_of_fmap in Hj as (u & Eu & Hu).
      apply (Hz u); [by right|done].
    + cbn. rewrite !map_app in *. cbn in *. rewrite <- app_assoc. apply segment_set; [|done..].
      rewrite <- !app_assoc in Hd. cbn in Hd.
      change (map index K' ++ index z :: index t :: map index R) with
        (map index K' ++ [index z] ++ index t :: map index R) in Hd.
      rewrite app_assoc in Hd. by apply NoDup_app in Hd as [Hd _].
    + eapply Forall_impl; [exact Hlab|]. intros u. by eapply labelled_relinked, relinked_set.
Qed.

(** * New children of a node *)

Lemma rewritten_all_refl ir ts : Forall (stored ir) ts -> NoDup (forest_indices ts) -> rewritten_all ir ir ts ts.
Proof. intros Hs Hd. split; auto using frame_refl, keeps_next_refl. Qed.

Lemma forest_sublist ts ts' : ts' `sublist_of` ts -> forest_indices ts' `sublist_of` forest_indices ts.
Proof.
  induction 1 as [|t ts' ts _ IH|t ts' ts _ IH]; [done| |]; rewrite ?forest_cons.
  - by apply sublist_app.
  - by apply sublist_inserts_l.
Qed.

Lemma sublist_index ts ts' : ts' `sublist_of` ts -> map index ts' `sublist_of` map index ts.
Proof. apply (fmap_sublist index). Qed.

(** The node gets some of its children, relinked and then rewritten. *)
Lemma adopt ir ir1 ir2 i n n' ts us us' :
  live_at ir i n ts -> relinked (map index ts) ir ir1 -> us `sublist_of` ts ->
  chain ir1 (head (map index us)) (map index us) -> rewritten_all ir1 ir2 us us' ->
  next_sibling n' = next_sibling n -> first_child n' = head (map index us) ->
  last_child n' = last (map index us) -> child_count n' = length us ->
  rewritten ir (changed_node i n' ir2) (Tree i (label_of n) ts) (Tree i (label_of n') us').
Proof.
  intros Hla [F1 _] Hsub Hc [F2 I2 S2 J2 D2 N2] En Ef El Ec.
  destruct (live_at_forest _ _ _ _ Hla) as [Hd Hi].
  assert (forall j, j ∈ forest_indices us -> j ∈ forest_indices ts) as Hin
    by (intros j; by apply sublist_in, forest_sublist).
  pose proof (live_at_range _ _ _ _ Hla) as Hr.
  assert (i < node_count ir2) as Hr2 by (by rewrite (fr_count _ _ _ F2), (fr_count _ _ _ F1)).
  pose proof (changed_node_frame i n' ir2 Hr2) as F3.
  assert (forall j, j ∈ forest_indices us' -> j ∉ [i]) as Hdis
    by (intros j Hj ->%list_elem_of_singleton; by apply Hi, Hin, J2).
  split.
  - eapply frame_trans; [|eapply frame_trans; [|eapply frame_mono; [|exact F1]|exact F2]|exact F3].
    + intros j ->%list_elem_of_singleton. left.
    + intros j Hj. right. by apply Hin.
    + intros j Hj. right. by apply forest_index_in.
  - done.
  - constructor; [by apply changed_node_at| |].
    + constructor; rewrite ?Ef, ?El, ?Ec, ?I2; [|done|by rewrite length_map].
      eapply chain_frame; [exact F3| |by eapply chain_keeps].
      intros j Hj. apply Hdis. rewrite <- I2 in Hj. by apply forest_index_in.
    + rewrite Forall_forall in *. intros t Ht. eapply stored_frame; [exact F3| |by apply S2].
      intros j Hj. apply Hdis. by eapply forest_indices_in.
  - cbn. intros j [->|Hj]%elem_of_cons; [left|right]. by apply Hin, J2.
  - cbn. constructor; [|done]. intros Hj. by apply Hi, Hin, J2.
  - intros m Hm. cbn in Hm. destruct Hla as [Hn _ _ _ _]. rewrite Hn in Hm. injection Hm as <-.
    exists n'. split; [by apply changed_node_at|done].
Qed.

(** Ending a segment makes it a chain. *)
Lemma segment_end ir us us' z n : us = us' ++ [z] -> NoDup us -> segment ir us ->
  nodes ir !! z = Some n -> chain (changed_node z (with_next None n) ir) (head us) us.
Proof.
  intros -> Hd Hs Hn. pose proof (lookup_lt_Some _ _ _ Hn) as Hr. apply segment_chain.
  - intros l1 x y l2 E. eapply links_to_frame; [by apply changed_node_frame| |by eapply Hs].
    intros ->%list_elem_of_singleton. rewrite E in Hd.
    destruct (snoc_cases (y :: l2)) as [|(l3 & w & E')]; [done|]. rewrite E' in E, Hd.
    change (l1 ++ z :: l3 ++ [w]) with (l1 ++ (z :: l3) ++ [w]) in E. rewrite app_assoc in E.
    apply app_inj_tail in E as [_ ->]. apply NoDup_app in Hd as (_ & _ & [Hd _]%NoDup_cons).
    apply Hd, elem_of_app. right. left.
  - intros a. rewrite last_snoc. intros [= <-]. exists (with_next None n).
    split; [by apply changed_node_at|done].
Qed.

Lemma sublist_nodup {A} (l k : list A) : l `sublist_of` k -> NoDup k -> NoDup l.
Proof.
  induction 1 as [|x l k Hs IH|x l k _ IH]; intros Hd; [done| |]; apply NoDup_cons in Hd as [Hx Hd]; auto.
  constructor; [|auto]. intros Hin. apply Hx. by eapply sublist_in.
Qed.

(** Ending the links of the children that were kept. *)
Lemma end_links_spec I rw us : segment (rw_ir rw) (map index us) -> NoDup (map index us) ->
  Forall (labelled (rw_ir rw)) us -> (forall j, j ∈ map index us -> j ∈ I) ->
  wp (match last (map index us) with
      | None => mret tt
      | Some last => set_next (Some last) None
      end) rw (fun _ rw' => relinked I (rw_ir rw) (rw_ir rw') /\ rw_changed rw' = rw_changed rw /\
        chain (rw_ir rw') (head (map index us)) (map index us)).
Proof.
  intros Hs Hd Hl HI. destruct (snoc_cases us) as [->|(us' & z & ->)].
  { apply wp_ret. split_and!; auto using relinked_refl. constructor. }
  rewrite map_app in *. cbn [map] in *. rewrite last_snoc. cbn [set_next].
  apply Forall_app in Hl as [_ (nz & Hnz & _)%Forall_inv]. unfold wp.
  rewrite (set_node_run _ _ _ _ Hnz). cbn [rw_ir rw_changed rewrite_ir]. split_and!; [|done|].
  - eapply relinked_mono; [|by apply relinked_set]. intros j ->%list_elem_of_singleton.
    apply HI, elem_of_app. right. left.
  - by eapply segment_end.
Qed.

Lemma live_labelled ir ts : Forall (live ir) ts -> Forall (labelled ir) ts.
Proof.
  intros H. eapply Forall_impl; [exact H|]. intros t [Hs _ _]. by apply stored_node.
Qed.

Lemma live_at_indices ir i n ts : live_at ir i n ts -> NoDup (map index ts).
Proof.
  intros Hla. pose proof (live_subtree _ _ (live_node _ _ _ _ Hla)) as Hs.
  by apply subtree_inv in Hs as (_ & _ & _ & _ & Hd & _).
Qed.

Lemma live_at_root ir i n ts : live_at ir i n ts -> i ∉ map index ts.
Proof. intros Hla Hin. apply (live_at_forest _ _ _ _ Hla). by apply forest_index_in. Qed.

(** The children that are kept are a rewriting of themselves. *)
Lemma kept_rewritten I ir ir' i n ts us : live_at ir i n ts -> relinked I ir ir' ->
  (forall j, j ∈ I -> j ∈ map index ts) -> us `sublist_of` ts ->
  Forall (live ir') us /\ NoDup (forest_indices us).
Proof.
  intros Hla Hr HI Hsub. destruct (live_at_forest _ _ _ _ Hla) as [Hd _]. split.
  - eapply sublist_forall; [exact Hsub|]. eapply relinked_live; [exact Hr|done..|apply Hla].
  - eapply sublist_nodup; [by apply forest_sublist|done].
Qed.

Lemma live_stored ir ts : Forall (live ir) ts -> Forall (stored ir) ts.
Proof. intros H. eapply Forall_impl; [exact H|]. by intros t []. Qed.

Lemma hir_prune_sequence_spec rw i n ts : live_at (rw_ir rw) i n ts ->
  wp (hir_prune_sequence i) rw (fun _ rw' => exists ts',
    rewritten (rw_ir rw) (rw_ir rw') (Tree i (label_of n) ts) (Tree i (label_of n) ts') /\
    prune_children [] (map erase ts) (rw_changed rw) = (map erase ts', rw_changed rw')).
Proof.
  intros Hla. unfold hir_prune_sequence. eapply wp_get_node; [apply Hla|]. apply wp_bind, wp_gets, wp_bind.
  pose proof (live_at_indices _ _ _ _ Hla) as Hd. pose proof (live_labelled _ _ (la_live _ _ _ _ Hla)) as Hlab.
  rewrite prune_trees_erase. pose proof (prune_trees_sublist ts [] (rw_changed rw)) as Hsub.
  pose proof (sublist_index _ _ Hsub) as Hsubi.
  eapply wp_mono; [apply (prune_loop_spec (map index ts) ts _ _ _ rw [])|]; cbn [app]; auto.
  { by eapply live_at_fuel. } { by eapply live_at_chain. } { done. } { by intros [|? ?] ? ? ?. }
  intros k rw1 (Hr1 & Ec1 & (E1 & E2 & E3) & Hs1). cbn [k_terminated] in *.
  destruct (prune_trees [] ts (rw_changed rw)) as [us c]. cbn [fst snd app] in *.
  rewrite E1, E2, E3. apply wp_bind.
  assert (forall j, j ∈ map index us -> j ∈ map index ts) as HI by (intros j; by apply sublist_in).
  eapply wp_mono; [apply (end_links_spec (map index ts)); [done|by eapply sublist_nodup| |done]|].
  { eapply sublist_forall; [exact Hsub|]. eapply Forall_impl; [exact Hlab|].
    intros t. by eapply labelled_relinked. }
  intros _ rw2 (Hr2 & Ec2 & Hc2). pose proof (relinked_trans _ _ _ _ Hr1 Hr2) as Hr.
  assert (nodes (rw_ir rw2) !! i = Some n) as Hn.
  { rewrite (fr_nodes _ _ _ (rl_frame _ _ _ Hr)); [apply Hla|by eapply live_at_root]. }
  unfold wp. rewrite (set_node_run _ _ _ _ Hn). exists us. cbn [rw_ir rw_changed rewrite_ir].
  split; [|congruence].
  destruct (kept_rewritten _ _ _ _ _ _ us Hla Hr (fun j H => H) Hsub) as [Hl Hdu].
  change (label_of n) with (label_of (with_children (head (map index us)) (last (map index us)) (length us) n)) at 2.
  by eapply adopt; [exact Hla|exact Hr|exact Hsub|exact Hc2|apply rewritten_all_refl; [by apply live_stored|]|..].
Qed.
