(* ===== verification/IrSimplify.v ===== *)
(** IrSimplify: hir_simplify_control_flow computes [simplify_hir]. *)

From S2P Require Import Prelude Clib Ast Ir IrTrees IrFacts IrAccess IrOptimize IrPasses.
From S2P Require Import IrPassesFacts IrRewrite IrPruning.

(** * The condition *)

Lemma constant_condition_spec {B} rw i n ts c us (k : option bool -> St Rewriter B) Q :
  live_at (rw_ir rw) i n ts -> ts = c :: us -> l_role (label c) = VNT_IR_EDGE_CONDITION ->
  wp (k (boolean_of (erase c))) rw Q -> wp (b ← constant_condition i; k b) rw Q.
Proof.
  intros Hla -> Hr Hk. pose proof (la_live _ _ _ _ Hla) as [[Hst Hg _] _]%Forall_cons.
  unfold constant_condition, hir_child_role. apply wp_bind. apply wp_bind. eapply wp_get_node; [apply Hla|].
  eapply wp_asks; [by eapply find_child|]. unfold child_in. cbn [find].
  rewrite bool_decide_eq_true_2 by done. cbn [fmap option_fmap option_map].
  destruct (stored_node _ _ Hst) as (m & Hm & E). eapply wp_get_node; [exact Hm|].
  assert (boolean_of (erase c) = match opcode m, value m with
                                 | VNT_IR_BOOLEAN, VAL_BOOLEAN b => Some b
                                 | _, _ => None
                                 end) as Eb.
  { unfold boolean_of, constant_of, label_constant. rewrite erase_label, E. cbn.
    by destruct (opcode m), (value m). }
  destruct Hg as [_ Ht]. assert (literal_ok (label_of m)) as Hlit
    by (rewrite <- E, <- erase_label; by destruct Ht).
  case_bool_decide as Hop.
  - unfold literal_ok in Hlit. cbn in Hlit. rewrite Hop in Hlit. destruct Hlit as [b Hv].
    apply wp_bind. eapply wp_asks; [unfold node_boolean; by rewrite Hv|]. apply wp_ret.
    by rewrite Eb, Hop, Hv in Hk.
  - apply wp_ret. rewrite Eb in Hk. by destruct (opcode m).
Qed.

(** * The chosen children *)

Lemma chain_suffix ir l1 : forall o l2, chain ir o (l1 ++ l2) -> exists o', chain ir o' l2.
Proof.
  induction l1 as [|a l1 IH]; intros o l2 Hc; [by exists o|]. apply chain_inv in Hc as (n & _ & _ & Hc).
  by eapply IH.
Qed.

Definition in_role (r : VntIrEdgeRole) (ts : list tree) : list tree :=
  filter (fun t => l_role (label t) = r) ts.

Definition ends (l : list nat) : option nat * option nat * nat := (head l, last l, length l).

Lemma ends_snoc l i :
  (let '(first, _, count) := ends l in
   (match first with None => Some i | Some first => Some first end, Some i, S count)) = ends (l ++ [i]).
Proof. unfold ends. rewrite last_snoc, length_app. cbn. rewrite Nat.add_1_r. by destruct l. Qed.

Lemma chosen_loop ir r ts : Forall (labelled ir) ts -> forall done o fuel, chain ir o (map index ts) ->
  length ts < fuel ->
  fold_siblings fuel ir (fun c found =>
    n ← node_at ir c;
    mret (if negb (bool_decide (role n = r)) then found
          else let '(first, _, count) := found in
               (match first with None => Some c | Some first => Some first end, Some c, S count)))
    o (ends done) = Done (ends (done ++ map index (in_role r ts))).
Proof.
  induction 1 as [|t ts (m & Hm & E) _ IH]; intros done o fuel Hc Hf;
    (destruct fuel as [|f]; [cbn in Hf; lia|]).
  { inversion Hc; subst. cbn. by rewrite app_nil_r. }
  apply chain_inv in Hc as (m' & -> & Hm' & Hc). rewrite Hm in Hm'. injection Hm' as <-.
  cbn [fold_siblings]. rewrite (node_at_done _ _ _ Hm). cbn [mbind outcome_bind mret outcome_ret].
  unfold in_role. rewrite filter_cons, E. cbn [label_of l_role] in *. cbn in Hf.
  destruct (decide (role m = r)) as [Hr|Hr].
  - rewrite bool_decide_eq_true_2 by done. cbn [negb map].
    rewrite ends_snoc. etransitivity; [apply (IH (done ++ [index t])); [done|lia]|].
    by rewrite <- app_assoc.
  - rewrite bool_decide_eq_false_2 by done. cbn [negb]. apply IH; [done|lia].
Qed.

Lemma chosen_children_spec ir i n ts r : live_at ir i n ts ->
  chosen_children ir r (first_child n) = Done (ends (map index (in_role r ts))).
Proof.
  intros Hla. unfold chosen_children. apply (chosen_loop ir r ts) with (done := []).
  - apply live_labelled, Hla.
  - by eapply live_at_chain.
  - by eapply live_at_fuel.
Qed.

(** The branches of an if are contiguous. *)
Lemma in_role_other r r' ts n : r <> r' -> map (fun t => l_role (label t)) ts = replicate n r' -> in_role r ts = [].
Proof.
  intros Hr E. unfold in_role. induction ts as [|t ts IH] in n, E |- *; [done|]. destruct n; [done|].
  injection E as E1 E2. rewrite filter_cons_False by congruence. by eapply IH.
Qed.

Lemma in_role_same r ts n : map (fun t => l_role (label t)) ts = replicate n r -> in_role r ts = ts.
Proof.
  intros E. unfold in_role. induction ts as [|t ts IH] in n, E |- *; [done|]. destruct n; [done|].
  injection E as E1 E2. rewrite filter_cons_True by congruence. f_equal. by eapply IH.
Qed.

Lemma branch_contiguous (ts : list tree) r : r = VNT_IR_EDGE_THEN \/ r = VNT_IR_EDGE_ELSE ->
  in_order VNT_IR_IF (roles_of (map erase ts)) -> exists ts1 ts2, ts = ts1 ++ in_role r ts ++ ts2.
Proof.
  intros Hr (n & m & E). unfold roles_of in E. rewrite map_map in E.
  rewrite (map_ext _ (fun t => l_role (label t))) in E by (intros; by rewrite erase_label).
  destruct ts as [|c us]; [done|]. injection E as Ec E.
  apply map_eq_app in E as (A & B & -> & EA & EB). exists (c :: if bool_decide (r = VNT_IR_EDGE_THEN) then [] else A).
  unfold in_role. rewrite filter_cons_False by (rewrite Ec; by destruct Hr as [-> | ->]).
  rewrite filter_app. fold (in_role r A) (in_role r B). destruct Hr as [-> | ->].
  - exists B. rewrite bool_decide_eq_true_2 by done. cbn.
    by rewrite (in_role_same _ A n), (in_role_other VNT_IR_EDGE_THEN VNT_IR_EDGE_ELSE B m), app_nil_r.
  - exists []. rewrite bool_decide_eq_false_2 by done. cbn.
    by rewrite (in_role_same _ B m), (in_role_other VNT_IR_EDGE_ELSE VNT_IR_EDGE_THEN A n), app_nil_r.
Qed.

(** * Marking the statements *)

Definition mark_step (t : tree) (s : unit * nat) (t' : tree) (s' : unit * nat) : Prop :=
  erase t' = hir_role VNT_IR_EDGE_STATEMENT (erase t) /\ s' = s.

Lemma mark_steps us s us' s' : steps mark_step us s us' s' ->
  map erase us' = map (fun t => hir_role VNT_IR_EDGE_STATEMENT (erase t)) us /\ s' = s.
Proof.
  induction 1 as [|t ts s t' s1 ts' s2 [E1 ->] _ [E2 ->]]; [done|]. cbn. by rewrite E1, E2.
Qed.

Lemma mark_body us : Forall (body_does mark_step (fun c _ =>
  _ ← set_node c (with_role VNT_IR_EDGE_STATEMENT);
  mret (Some tt))) us.
Proof.
  apply Forall_forall. intros t _ rw [] [Hst _ Hd]. destruct t as [i l ts]. inversion Hst; subst.
  eapply wp_set_node; [done|]. apply wp_ret.
  exists (Tree i (label_of (with_role VNT_IR_EDGE_STATEMENT n)) ts), tt. split; [done|]. split; [|done].
  cbn [rw_ir rewrite_ir]. apply rewritten_node; auto.
Qed.

Lemma mark_statements_spec rw us : Forall (live (rw_ir rw)) us -> NoDup (forest_indices us) ->
  length us < rw_fuel rw -> chain (rw_ir rw) (head (map index us)) (map index us) ->
  wp (mark_statements (head (map index us))) rw (fun _ rw' => exists us',
    rewritten_all (rw_ir rw) (rw_ir rw') us us' /\ rw_changed rw' = rw_changed rw /\
    map erase us' = map (fun t => hir_role VNT_IR_EDGE_STATEMENT (erase t)) us).
Proof.
  intros Hl Hd Hf Hc. unfold mark_statements. apply wp_bind, wp_gets, wp_bind.
  eapply wp_mono; [by apply (loop_siblings_spec mark_step _ us (mark_body us))|].
  intros o rw' (us' & [] & -> & Hr & Hs). apply wp_ret. apply mark_steps in Hs as [E1 E2]. exists us'.
  split; [done|]. split; [|done]. by injection E2.
Qed.

(** * Selecting the code of a constant condition *)

Section select.
Context (rw : Rewriter) (i : nat) (n : VntIrNode) (ts : list tree).
Hypothesis Hla : live_at (rw_ir rw) i n ts.

Definition selected_as (l : Label) (hs : list hir) (k : nat) (rw' : Rewriter) : Prop := exists ts',
  rewritten (rw_ir rw) (rw_ir rw') (Tree i (label_of n) ts) (Tree i l ts') /\
  map erase ts' = hs /\ rw_changed rw' = k.

Definition block_node (first last : option nat) (count : nat) (m : VntIrNode) : VntIrNode :=
  with_children first last count (with_payload VNT_IR_PROGRAM (value m) m).

Lemma become_block_spec rw1 rw2 us us' : rw_changed rw2 = rw_changed rw ->
  relinked (map index ts) (rw_ir rw) (rw_ir rw1) -> us `sublist_of` ts ->
  chain (rw_ir rw1) (head (map index us)) (map index us) -> rewritten_all (rw_ir rw1) (rw_ir rw2) us us' ->
  wp (become_block i (head (map index us)) (last (map index us)) (length us)) rw2
    (fun _ => selected_as (block_label (label_of n)) (map erase us') (S (rw_changed rw))).
Proof.
  intros Ec Hr Hsub Hc Hra. unfold become_block.
  assert (nodes (rw_ir rw2) !! i = Some n) as Hn.
  { rewrite (fr_nodes _ _ _ (ra_frame _ _ _ _ Hra)), (fr_nodes _ _ _ (rl_frame _ _ _ Hr)); [apply Hla| |].
    - by eapply live_at_root.
    - intros Hin. apply (live_at_forest _ _ _ _ Hla).
      by apply (sublist_in (forest_indices us)); [apply forest_sublist|]. }
  eapply wp_set_node; [exact Hn|]. apply wp_modify. exists us'. cbn [rw_ir rw_changed rewrite_ir].
  split_and!; [|done|by rewrite Ec].
  change (block_label (label_of n)) with (label_of
    (block_node (head (map index us)) (last (map index us)) (length us) n)).
  by eapply adopt; [exact Hla|exact Hr|exact Hsub|exact Hc|exact Hra|..].
Qed.

Lemma branch_in_role r : branch r (map erase ts) =
  map (fun t => hir_role VNT_IR_EDGE_STATEMENT (erase t)) (in_role r ts).
Proof.
  unfold branch, in_role. clear Hla. induction ts as [|t us IH]; [done|]. cbn [map]. rewrite !filter_cons, erase_role.
  destruct (decide _); cbn [map]; by rewrite IH.
Qed.

Lemma select_branch_spec b : opcode n = VNT_IR_IF ->
  wp (select_branch i b) rw (fun _ => selected_as (block_label (label_of n))
    (branch (if b then VNT_IR_EDGE_THEN else VNT_IR_EDGE_ELSE) (map erase ts)) (S (rw_changed rw))).
Proof.
  intros Hop. unfold select_branch. set (r := if b then VNT_IR_EDGE_THEN else VNT_IR_EDGE_ELSE).
  eapply wp_get_node; [apply Hla|]. apply wp_bind. eapply wp_asks; [by eapply chosen_children_spec|].
  unfold ends. cbv beta iota. pose proof (la_good _ _ _ _ Hla) as (_ & _ & _ & Ho & _)%good_node.
  cbn [label_of l_opcode] in Ho. rewrite Hop in Ho.
  destruct (branch_contiguous ts r) as (ts1 & ts2 & E); [by destruct b; [left|right]|done|].
  rewrite branch_in_role, length_map. set (us := in_role r ts) in *.
  assert (us `sublist_of` ts) as Hsub.
  { rewrite E. by apply sublist_inserts_l, sublist_inserts_r. }
  pose proof (live_at_chain _ _ _ _ Hla) as Hc. rewrite E, !map_app in Hc.
  apply chain_suffix in Hc as [o Hc]. apply chain_segment in Hc.
  assert (forall j, j ∈ map index us -> j ∈ map index ts) as HI
    by (intros j; apply sublist_in; by apply sublist_index).
  pose proof (end_links_spec (map index ts) rw us Hc) as Hend.
  assert (last (map index us) = None -> us = []) as Hnil.
  { intros Hl. destruct (snoc_cases us) as [->|(l & z & ->)]; [done|].
    rewrite map_app in Hl. cbn [map] in Hl. by rewrite last_snoc in Hl. }
  destruct (kept_rewritten (map index ts) (rw_ir rw) (rw_ir rw) i n ts us) as [_ Hdu];
    [done|apply relinked_refl|done|done|].
  destruct (last (map index us)) as [z|] eqn:Hlast.
  - apply wp_bind, wp_bind. eapply wp_mono; [apply Hend|].
    { eapply sublist_nodup; [by apply sublist_index|by eapply live_at_indices]. }
    { eapply sublist_forall; [exact Hsub|]. apply live_labelled, Hla. } { done. }
    intros _ rw1 (Hr1 & Ec1 & Hc1).
    destruct (kept_rewritten (map index ts) (rw_ir rw) (rw_ir rw1) i n ts us) as [Hl _]; try done.
    assert (length us < rw_fuel rw1) as Hf.
    { pose proof (live_at_fuel _ _ _ _ Hla). pose proof (sublist_length _ _ Hsub).
      unfold rw_fuel, sibling_fuel in *. rewrite (fr_count _ _ _ (rl_frame _ _ _ Hr1)). lia. }
    eapply wp_mono; [by apply (mark_statements_spec rw1 us)|]. intros _ rw2 (us' & Hra & Ec2 & <-).
    rewrite <- Hlast. apply (become_block_spec rw1); try done. congruence.
  - specialize (Hnil eq_refl). rewrite Hnil. apply wp_bind, wp_ret.
    apply (become_block_spec rw rw [] []); auto using relinked_refl, rewritten_all_nil.
    + apply sublist_nil_l.
    + constructor.
Qed.

Lemma nothing_selected : selected_as (label_of n) (map erase ts) (rw_changed rw) rw.
Proof.
  pose proof (live_node _ _ _ _ Hla) as [Hst _ Hd]. exists ts. split; [by apply rewritten_refl|done].
Qed.

(** The code between the loop and hir_prune_sequence. *)
Definition select_code : St Rewriter unit :=
  match opcode n with
  | VNT_IR_IF =>
      cond ← constant_condition i;
      match cond with
      | Some b => select_branch i b
      | None => mret tt
      end
  | VNT_IR_WHILE =>
      cond ← constant_condition i;
      match cond with
      | Some false => become_block i None None 0
      | _ => mret tt
      end
  | _ => mret tt
  end.

Lemma select_code_spec : wp select_code rw (fun _ rw' =>
  let '(l, hs, k) := select (label_of n) (map erase ts) (rw_changed rw) in selected_as l hs k rw').
Proof.
  pose proof nothing_selected as Hnone. pose proof (la_good _ _ _ _ Hla) as (_ & _ & _ & Ho & _)%good_node.
  cbn [label_of l_opcode] in Ho. unfold select_code, select. cbn [label_of l_opcode].
  destruct (opcode n) eqn:Hop; try (by apply wp_ret).
  - destruct (condition_first VNT_IR_IF ts) as (c & us & E & Hc); [by left|done|].
    eapply constant_condition_spec; [exact Hla|exact E|exact Hc|].
    assert (head (map erase ts) = Some (erase c)) as -> by (by rewrite E).
    destruct (boolean_of (erase c)) as [b|]; [|by apply wp_ret].
    by apply select_branch_spec.
  - destruct (condition_first VNT_IR_WHILE ts) as (c & us & E & Hc); [by right|done|].
    eapply constant_condition_spec; [exact Hla|exact E|exact Hc|].
    assert (head (map erase ts) = Some (erase c)) as -> by (by rewrite E).
    destruct (boolean_of (erase c)) as [[]|]; [by apply wp_ret| |by apply wp_ret].
    apply (become_block_spec rw rw [] []); auto using relinked_refl, rewritten_all_nil.
    + apply sublist_nil_l.
    + constructor.
Qed.
End select.

(** * The pass *)

Definition simplify_step (t : tree) (s : unit * nat) (t' : tree) (s' : unit * nat) : Prop :=
  simplify_hir (erase t) s.2 = (erase t', s'.2).

Definition simplified (t : tree) (rw rw' : Rewriter) : Prop := exists t',
  rewritten (rw_ir rw) (rw_ir rw') t t' /\ (erase t', rw_changed rw') = simplify_hir (erase t) (rw_changed rw).

Lemma simplify_body f ts :
  (forall t rw, live (rw_ir rw) t -> t ∈ ts ->
     wp (hir_simplify_control_flow f (index t)) rw (fun _ => simplified t rw)) ->
  Forall (body_does simplify_step (fun c _ =>
    _ ← hir_simplify_control_flow f c;
    mret (Some tt))) ts.
Proof.
  intros H. apply Forall_forall. intros t Ht rw [] Hl. apply wp_bind. eapply wp_mono; [by apply H|].
  intros _ rw' (t' & Hr & E). apply wp_ret. by exists t', tt.
Qed.

Lemma hir_simplify_control_flow_spec fuel : forall t rw, live (rw_ir rw) t -> length (indices t) <= fuel ->
  wp (hir_simplify_control_flow fuel (index t)) rw (fun _ => simplified t rw).
Proof.
  induction fuel as [|f IH]; intros [i l ts] rw Hlive Hf; [cbn in Hf; lia|].
  destruct (live_inv _ _ _ _ Hlive) as (n & -> & Hla). cbn [hir_simplify_control_flow index].
  eapply wp_get_node; [apply Hla|]. apply wp_bind, wp_gets, wp_bind.
  eapply wp_mono; [apply (children_loop_saved simplify_step _ rw i n ts Hla)|].
  { apply simplify_body. intros t rw1 Hl1 Ht. apply IH; [done|]. by eapply child_fuel. }
  intros o rw1 (ts1 & [] & -> & Hn1 & Hr1 & Hidx & Hsteps).
  pose proof (steps_visit simplify_step simplify_hir snd _ _ _ _ (fun _ _ _ _ H => H) Hsteps) as Hv.
  cbn [fst snd] in Hv.
  pose proof (visited_good simplify_hir (label_of n) (map erase ts) (rw_changed rw) simplify_hir_role
    (fun h k Hg => simplify_hir_good h Hg k) (la_good _ _ _ _ Hla)) as Hg1.
  rewrite Hv in Hg1. cbn [fst] in Hg1.
  pose proof (rewritten_live_at _ _ _ _ _ _ Hn1 Hr1 Hg1) as Hla1.
  eapply wp_get_node; [exact Hn1|]. apply wp_bind.
  eapply wp_mono; [apply (select_code_spec rw1 i n ts1 Hla1)|]. intros u rw2.
  pose proof (select_good (label_of n) (map erase ts1) (rw_changed rw1) Hg1) as Hg2.
  unfold simplified. cbn [erase simplify_hir]. rewrite Hv.
  destruct (select (label_of n) (map erase ts1) (rw_changed rw1)) as [[l2 hs2] k2].
  destruct Hg2 as [Hg2 _]. intros (ts2 & Hr2 & <- & <-).
  pose proof (rewritten_live _ _ _ _ Hr2 Hg2) as Hlive2.
  destruct (live_inv _ _ _ _ Hlive2) as (n2 & -> & Hla2).
  eapply wp_mono; [apply (hir_prune_sequence_spec rw2 i n2 ts2 Hla2)|]. intros _ rw3 (ts3 & Hr3 & E3).
  rewrite E3. exists (Tree i (label_of n2) ts3). split; [|done].
  eapply rewritten_trans; [exact Hr1|]. by eapply rewritten_trans.
Qed.
