(* ===== verification/IrPropagate.v ===== *)
(** IrPropagate: hir_propagate_statement computes [propagate_hir], and
    hir_propagate_sequence visits the statements of a block.
    The first part: hir_substitute_expression computes [subst_hir]. *)

From S2P Require Import Prelude Clib Ast Ir IrTrees IrFacts IrAccess IrOptimize.
From S2P Require Import IrPasses IrPassesFacts IrRewrite IrPruning.

(** * The environment *)

Lemma find_known env name i : hir_constant_find env name = Some i ->
  exists item, env !! i = Some item /\ item.1 = name.
Proof.
  unfold hir_constant_find. intros H. apply fmap_Some in H as ([j item] & H & ->).
  apply list_find_Some in H as (H1 & H2 & _). by exists item.
Qed.

(** * Calls *)

(** A search of the children. *)
Lemma any_sibling ir ts (b : tree -> bool) (body : nat -> outcome bool) :
  Forall (fun t => body (index t) = Done (b t)) ts -> forall o fuel,
  chain ir o (map index ts) -> length ts < fuel ->
  each_sibling fuel ir (fun child _ =>
    b ← body child;
    mret (if (b : bool) then inr tt else inl tt)) o tt = Done (if existsb b ts then inr tt else inl tt).
Proof.
  induction 1 as [|t ts Ht _ IH]; intros o fuel Hc Hf; (destruct fuel as [|f]; [cbn in Hf; lia|]).
  { by inversion Hc; subst. }
  inversion Hc as [|i n l Hn Hc' E1 E2]; subst. cbn [each_sibling existsb]. rewrite Ht.
  cbn [mbind outcome_bind mret outcome_ret]. destruct (b t); [done|].
  rewrite (node_at_done _ _ _ Hn). cbn [mbind outcome_bind orb]. apply IH; [done|cbn in Hf; lia].
Qed.

Lemma existsb_map {A B} (f : A -> B) (p : B -> bool) l : existsb p (map f l) = existsb (fun x => p (f x)) l.
Proof. induction l as [|x l IH]; [done|]. cbn. by rewrite IH. Qed.

Lemma hir_contains_call_spec fuel : forall ir t, live ir t -> length (indices t) <= fuel ->
  hir_contains_call fuel ir (index t) = Done (contains_call (erase t)).
Proof.
  induction fuel as [|f IH]; intros ir [i l ts] Hlive Hf; [cbn in Hf; lia|].
  destruct (live_inv _ _ _ _ Hlive) as (n & -> & Hla). pose proof (live_at_range _ _ _ _ Hla) as Hr.
  cbn [hir_contains_call index erase contains_call]. destruct (Nat.leb_spec (node_count ir) i); [lia|].
  pose proof (la_live _ _ _ _ Hla) as Hts. rewrite (node_at_done _ _ _ (la_node _ _ _ _ Hla)).
  cbn [mbind outcome_bind label_of l_opcode]. case_bool_decide; [done|]. cbn [orb].
  rewrite (any_sibling ir ts (fun t => contains_call (erase t))); [|..].
  - rewrite existsb_map. by destruct (existsb _ ts).
  - rewrite Forall_forall in *. intros t Ht. apply IH; [by apply Hts|]. by eapply child_fuel.
  - by eapply live_at_chain.
  - by eapply live_at_fuel.
Qed.

(** * Assignments *)

Lemma wp_node_text {B} n (k : bytes -> St Rewriter B) rw Q : label_ok (label_of n) ->
  has_text (opcode n) = true -> wp (k (text_of (label_of n))) rw Q ->
  wp (text ← asks (fun _ => node_text n); k text) rw Q.
Proof.
  intros [Ht _ _ _ _] Hop Hk. destruct (Ht Hop) as [text E]. cbn in E. apply wp_bind.
  eapply wp_asks; [unfold node_text; by rewrite E|]. unfold text_of in Hk. cbn in Hk. by rewrite E in Hk.
Qed.

Lemma wp_child_role {B} rw i n ts r (k : option nat -> St Rewriter B) Q : live_at (rw_ir rw) i n ts ->
  wp (k (index <$> child_in r ts)) rw Q -> wp (c ← hir_child_role i r; k c) rw Q.
Proof.
  intros Hla Hk. unfold hir_child_role. apply wp_bind. eapply wp_get_node; [apply Hla|].
  eapply wp_asks; [by eapply find_child|done].
Qed.

Lemma forget_target_spec rw i n ts env : live_at (rw_ir rw) i n ts -> opcode n = VNT_IR_ASSIGN ->
  wp (forget_target i env) rw (fun env' rw' => rw' = rw /\ env' = forget (map erase ts) env).
Proof.
  intros Hla Hop. unfold forget_target. eapply wp_child_role; [exact Hla|].
  pose proof (la_good _ _ _ _ Hla) as (_ & _ & _ & Ho & _)%good_node. cbn [label_of l_opcode] in Ho.
  rewrite Hop in Ho. destruct (roles_two _ _ _ Ho) as (t & v & -> & Ht & _).
  unfold child_in. cbn [find]. rewrite bool_decide_eq_true_2 by done. cbn [fmap option_fmap option_map].
  pose proof (la_live _ _ _ _ Hla) as [[Hst Hg _] _]%Forall_cons.
  destruct (stored_node _ _ Hst) as (m & Hm & E). eapply wp_get_node; [exact Hm|].
  unfold forget. cbn [map head]. rewrite erase_label, E. cbn [label_of l_opcode].
  destruct t as [j l us]. cbn in E. subst l. apply good_node in Hg as (Hlab & _). case_bool_decide as Hv.
  - eapply wp_node_text; [exact Hlab|by rewrite Hv|]. apply wp_ret. by rewrite Hv.
  - apply wp_ret. split; [done|]. by destruct (opcode m).
Qed.

(** * Expressions *)

Definition subst_step (t : tree) (s : Known) (t' : tree) (s' : Known) : Prop :=
  subst_hir (erase t) s = (erase t', s').

Definition substituted (t : tree) (rw : Rewriter) (env : HirConstantEnvironment)
    (env' : HirConstantEnvironment) (rw' : Rewriter) : Prop := exists t',
  rewritten (rw_ir rw) (rw_ir rw') t t' /\
  subst_hir (erase t) (env, rw_changed rw) = (erase t', (env', rw_changed rw')).

Definition substitutes (fuel : nat) (t : tree) : Prop := forall rw env, live (rw_ir rw) t ->
  wp (hir_substitute_expression fuel (Some (index t)) env) rw (substituted t rw env).

Definition subst_body (f : nat) (child : nat) (env : HirConstantEnvironment)
    : St Rewriter (option HirConstantEnvironment) :=
  env ← hir_substitute_expression f (Some child) env;
  mret (Some env).

Lemma subst_body_does f ts : Forall (substitutes f) ts -> Forall (body_does subst_step (subst_body f)) ts.
Proof.
  intros H. eapply Forall_impl; [exact H|]. intros t Ht rw env Hl. apply wp_bind.
  eapply wp_mono; [by apply Ht|]. intros env' rw' (t' & Hr & E). apply wp_ret. by exists t', env'.
Qed.

(** The loop over the children, which other statements have too. *)
Lemma subst_children rw i n ts f env : live_at (rw_ir rw) i n ts -> Forall (substitutes f) ts ->
  wp (loop_siblings (rw_fuel rw) (subst_body f) (first_child n) env) rw (fun o rw' => exists ts' env',
    o = Some env' /\ live_at (rw_ir rw') i n ts' /\
    rewritten (rw_ir rw) (rw_ir rw') (Tree i (label_of n) ts) (Tree i (label_of n) ts') /\
    map index ts' = map index ts /\
    visit subst_hir (map erase ts) (env, rw_changed rw) = (map erase ts', (env', rw_changed rw'))).
Proof.
  intros Hla Hts. eapply wp_mono; [apply (children_loop subst_step _ rw i n ts Hla)|].
  { by apply subst_body_does. }
  intros o rw' (ts' & env' & -> & Hn & Hr & Hidx & Hs). exists ts', env'.
  pose proof (steps_visit subst_step subst_hir id _ _ _ _ (fun _ _ _ _ H => H) Hs) as Hv.
  pose proof (visited_good subst_hir (label_of n) (map erase ts) (env, rw_changed rw) subst_hir_role
    (fun h s Hg => subst_hir_good h Hg s) (la_good _ _ _ _ Hla)) as Hg.
  unfold id in Hv. rewrite Hv in Hg. cbn [fst] in Hg. split; [done|].
  split; [by eapply rewritten_live_at|done].
Qed.

(** ** Variables *)

Lemma label_leaf i n ts ir : live_at ir i n ts -> opcode n = VNT_IR_VARIABLE -> ts = [].
Proof.
  intros Hla Hop. pose proof (la_good _ _ _ _ Hla) as (_ & _ & Hr & _)%good_node. cbn [label_of l_opcode] in Hr.
  rewrite Hop in Hr. cbn in Hr. by destruct ts.
Qed.

Lemma unchanged ir i n ts : live_at ir i n ts -> rewritten ir ir (Tree i (label_of n) ts) (Tree i (label_of n) ts).
Proof. intros Hla. pose proof (live_node _ _ _ _ Hla) as [Hst _ Hd]. by apply rewritten_refl. Qed.

Lemma substitute_variable_spec rw i n ts env : live_at (rw_ir rw) i n ts -> opcode n = VNT_IR_VARIABLE ->
  wp (substitute_variable i n env) rw (fun _ rw' => substituted (Tree i (label_of n) ts) rw env env rw').
Proof.
  intros Hla Hop. unfold substitute_variable, substituted. pose proof (label_leaf _ _ _ _ Hla Hop) as ->.
  pose proof (la_good _ _ _ _ Hla) as (Hlab & _)%good_node.
  eapply wp_node_text; [done|by rewrite Hop|]. cbn [erase subst_hir map]. cbn [label_of l_opcode]. rewrite Hop.
  change (text_of _) with (text_of (label_of n)). unfold known_constant. cbn [fst snd].
  destruct (hir_constant_find env (text_of (label_of n))) as [known|] eqn:E; cbn [mbind option_bind].
  - destruct (find_known _ _ _ E) as (item & Hi & _). rewrite Hi. cbn [fmap option_fmap option_map].
    unfold hir_replace_variable_with_constant. eapply wp_set_node; [apply Hla|]. apply wp_modify.
    exists (Tree i (label_of (with_constant item.2 n)) []). cbn [rw_ir rw_changed rewrite_ir]. split; [|done].
    pose proof (live_node _ _ _ _ Hla) as [Hst _ Hd]. apply rewritten_node; auto. apply Hla.
  - apply wp_ret. exists (Tree i (label_of n) []). split; [by apply unchanged|done].
Qed.

(** ** All of them *)

Lemma live_range ir t : live ir t -> index t < node_count ir.
Proof.
  intros [Hst _ _]. destruct (stored_node _ _ Hst) as (n & Hn & _). by eapply lookup_lt_Some.
Qed.

Lemma hir_substitute_expression_spec fuel : forall t, length (indices t) <= fuel -> substitutes fuel t.
Proof.
  induction fuel as [|f IH]; intros [i l ts] Hf rw env Hlive; [cbn in Hf; lia|].
  destruct (live_inv _ _ _ _ Hlive) as (n & -> & Hla). pose proof (live_at_range _ _ _ _ Hla) as Hr.
  cbn [hir_substitute_expression index]. apply wp_bind, wp_gets. cbn [rw_ir].
  destruct (Nat.leb_spec (node_count (rw_ir rw)) i); [lia|].
  eapply wp_get_node; [apply Hla|]. apply wp_bind, wp_gets.
  assert (Forall (substitutes f) ts) as Hts.
  { apply Forall_forall. intros t Ht. apply IH. by eapply child_fuel. }
  set (children := env' ← loop_siblings _ _ _ _; _).
  assert (wp children rw (fun env' rw' => exists ts',
    rewritten (rw_ir rw) (rw_ir rw') (Tree i (label_of n) ts) (Tree i (label_of n) ts') /\
    visit subst_hir (map erase ts) (env, rw_changed rw) = (map erase ts', (env', rw_changed rw')))) as Hch.
  { apply wp_bind. eapply wp_mono; [apply (subst_children rw i n ts f env Hla Hts)|].
    intros o rw' (ts' & env' & -> & _ & Hr' & _ & Hv). apply wp_ret. by exists ts'. }
  assert (subst_hir (Hir (label_of n) (map erase ts)) (env, rw_changed rw) =
      (let (hs, s) := visit subst_hir (map erase ts) (env, rw_changed rw) in (Hir (label_of n) hs, s)) ->
    wp children rw (substituted (Tree i (label_of n) ts) rw env)) as Hall.
  { intros E. eapply wp_mono; [exact Hch|]. intros env' rw' (ts' & Hr' & Hv).
    exists (Tree i (label_of n) ts'). split; [done|]. cbn [erase]. by rewrite E, Hv. }
  clearbody children. pose proof (fun E => substitute_variable_spec rw i n ts env Hla E) as Hvar.
  pose proof (fun E => forget_target_spec rw i n ts env Hla E) as Hassign.
  unfold substituted in *. cbn [erase subst_hir] in *. cbn [label_of l_opcode l_operation] in *.
  destruct (opcode n) eqn:Hop; try (by apply Hall).
  - apply wp_bind. eapply wp_mono; [exact Hch|]. intros env' rw' (ts' & Hr' & Hv). apply wp_ret.
    exists (Tree i (label_of n) ts'). rewrite Hv. by split.
  - apply wp_bind. eapply wp_mono; [by apply Hvar|]. intros u rw' H'. by apply wp_ret.
  - eapply wp_mono; [by apply Hassign|]. intros env' rw' [-> ->].
    exists (Tree i (label_of n) ts). split; [by apply unchanged|done].
  - change (is_reference (label_of n)) with (bool_decide (unary_of_int (operation n) = Some UNARY_REFERENCE)) in *.
    destruct (bool_decide _); [|by apply Hall]. apply wp_ret.
    exists (Tree i (label_of n) ts). split; [by apply unchanged|done].
Qed.

(** * The first child *)

Lemma list_cases {A} (l : list A) : l = [] \/ exists a k, l = a :: k.
Proof. destruct l as [|a k]; [by left|right; by exists a, k]. Qed.

(** The first child of a node was rewritten. *)
Lemma first_child_rewritten ir ir' i n t t' ts : live_at ir i n (t :: ts) -> rewritten ir ir' t t' ->
  good (erase t') -> l_role (label t') = l_role (label t) ->
  live_at ir' i n (t' :: ts) /\
  rewritten ir ir' (Tree i (label_of n) (t :: ts)) (Tree i (label_of n) (t' :: ts)).
Proof.
  intros Hla Hr Hg Hrole. destruct (live_at_forest _ _ _ _ Hla) as [Hd Hi].
  pose proof (la_live _ _ _ _ Hla) as [_ Hl]%Forall_cons.
  pose proof Hd as Hd'. rewrite forest_cons in Hd'. apply NoDup_app in Hd' as (_ & Hdis & Hdts).
  assert (rewritten_all ir' ir' ts ts) as Hrest.
  { split; auto using frame_refl, keeps_next_refl. rewrite Forall_forall in *. intros u Hu.
    eapply stored_frame; [apply (rn_frame _ _ _ _ Hr)| |by apply Hl].
    intros j Hj Hj'. apply (Hdis j Hj'). by eapply forest_indices_in. }
  pose proof (rewritten_all_cons _ _ _ _ _ _ _ Hd Hr Hrest) as Hall.
  destruct (rewritten_children _ _ i n _ _ (la_node _ _ _ _ Hla) (la_linked _ _ _ _ Hla)
    (la_nodup _ _ _ _ Hla) Hall) as [Hn Hw].
  split; [|done]. eapply rewritten_live_at; [exact Hn|exact Hw|].
  pose proof (la_good _ _ _ _ Hla) as (H1 & H2 & H3 & H4 & H5)%good_node. apply good_node.
  cbn [map] in *. unfold roles_of in *. cbn [map] in *. rewrite !erase_role in *. rewrite Hrole.
  split_and!; try done. apply Forall_cons in H5 as [_ H5]. by constructor.
Qed.

(** * Sequences *)

Definition propagated (t : tree) (rw : Rewriter) (env : HirConstantEnvironment)
    (o : option HirConstantEnvironment) (rw' : Rewriter) : Prop := exists env' t',
  o = Some env' /\ rewritten (rw_ir rw) (rw_ir rw') t t' /\
  propagate_hir (erase t) (env, rw_changed rw) = (erase t', (env', rw_changed rw')).

Definition propagates (self : nat -> HirConstantEnvironment -> St Rewriter (option HirConstantEnvironment))
    (t : tree) : Prop := forall rw env, live (rw_ir rw) t -> wp (self (index t) env) rw (propagated t rw env).

Definition propagate_step (t : tree) (s : Known) (t' : tree) (s' : Known) : Prop :=
  propagate_hir (erase t) s = (erase t', s').

(** The roles of the children of a block. *)
Lemma block_roles ir i n ts t : live_at ir i n ts -> opcode n = VNT_IR_PROGRAM -> t ∈ ts ->
  l_role (label t) = VNT_IR_EDGE_STATEMENT.
Proof.
  intros Hla Hop Ht. pose proof (la_good _ _ _ _ Hla) as (_ & _ & Hr & _)%good_node.
  cbn [label_of l_opcode] in Hr. rewrite Hop in Hr. cbn in Hr. unfold roles_of in Hr.
  rewrite map_map, Forall_map, Forall_forall in Hr. rewrite <- erase_role. by apply Hr.
Qed.

Section sequence.
Context (self : nat -> HirConstantEnvironment -> St Rewriter (option HirConstantEnvironment)).
Context (rw : Rewriter) (i : nat) (n : VntIrNode) (ts : list tree).
Hypothesis Hla : live_at (rw_ir rw) i n ts.

Lemma hir_propagate_sequence_spec env : opcode n = VNT_IR_PROGRAM -> Forall (propagates self) ts ->
  wp (hir_propagate_sequence self i VNT_IR_EDGE_STATEMENT env) rw (fun o rw' => exists env' ts',
    o = Some env' /\ rewritten (rw_ir rw) (rw_ir rw') (Tree i (label_of n) ts) (Tree i (label_of n) ts') /\
    live_at (rw_ir rw') i n ts' /\
    visit propagate_hir (map erase ts) (env, rw_changed rw) = (map erase ts', (env', rw_changed rw'))).
Proof.
  intros Hop Hts. unfold hir_propagate_sequence. pose proof (live_at_range _ _ _ _ Hla) as Hr.
  apply wp_bind, wp_gets. destruct (Nat.leb_spec (node_count (rw_ir rw)) i); [lia|].
  eapply wp_get_node; [apply Hla|]. apply wp_bind, wp_gets.
  eapply wp_mono; [apply (children_loop_saved propagate_step _ rw i n ts Hla)|].
  - rewrite Forall_forall in *. intros t Ht rw1 env1 Hl1.
    destruct (stored_node _ _ (lv_stored _ _ Hl1)) as (m & Hm & E). eapply wp_get_node; [exact Hm|].
    pose proof (block_roles _ _ _ _ _ Hla Hop Ht) as Hrole. rewrite E in Hrole. cbn in Hrole.
    rewrite bool_decide_eq_true_2 by done.
    eapply wp_mono; [by apply Hts|]. intros o rw' (env' & t' & -> & Hw & E'). by exists t', env'.
  - intros o rw' (ts' & env' & -> & Hn & Hw & _ & Hs). exists env', ts'. split; [done|].
    pose proof (steps_visit propagate_step propagate_hir id _ _ _ _ (fun _ _ _ _ H => H) Hs) as Hv.
    pose proof (visited_good propagate_hir (label_of n) (map erase ts) (env, rw_changed rw)
      propagate_hir_role (fun h s Hg => propagate_hir_good h Hg s) (la_good _ _ _ _ Hla)) as Hg.
    unfold id in Hv. rewrite Hv in Hg. cbn [fst] in Hg.
    split; [done|]. split; [|done]. by eapply rewritten_live_at.
Qed.
End sequence.

(** A block inside of a statement. *)
Lemma block_spec self rw t env : live (rw_ir rw) t -> l_opcode (label t) = VNT_IR_PROGRAM ->
  Forall (propagates self) (subtrees t) ->
  wp (hir_propagate_sequence self (index t) VNT_IR_EDGE_STATEMENT env) rw (fun o rw' => exists env' t' s',
    o = Some env' /\ rewritten (rw_ir rw) (rw_ir rw') t t' /\
    propagate_hir (erase t) (env, rw_changed rw) = (erase t', s') /\ s'.2 = rw_changed rw').
Proof.
  destruct t as [i l ts]. intros Hlive Hop Hts. destruct (live_inv _ _ _ _ Hlive) as (n & -> & Hla).
  eapply wp_mono; [apply (hir_propagate_sequence_spec self rw i n ts Hla); [done|exact Hts]|].
  intros o rw' (env' & ts' & -> & Hw & _ & Hv).
  exists env', (Tree i (label_of n) ts'), (after_calls (Hir (label_of n) (map erase ts'), (env', rw_changed rw'))).2.
  split_and!; try done. cbn [erase propagate_hir]. cbn in Hop. cbn [label_of l_opcode]. rewrite Hop.
  rewrite Hv. done.
Qed.

(** * The statements *)

Section statement.
Context (self : nat -> HirConstantEnvironment -> St Rewriter (option HirConstantEnvironment)).
Context (rw : Rewriter) (i : nat) (n : VntIrNode) (ts : list tree).
Hypothesis Hla : live_at (rw_ir rw) i n ts.

(** The array after the statement, before the test for calls. *)
Definition statement_done (hs : list hir) (s : Known) (env' : HirConstantEnvironment) (rw' : Rewriter)
    : Prop := exists ts',
  live_at (rw_ir rw') i n ts' /\ map erase ts' = hs /\
  rewritten (rw_ir rw) (rw_ir rw') (Tree i (label_of n) ts) (Tree i (label_of n) ts') /\
  s = (env', rw_changed rw').

Lemma statement_same env : statement_done (map erase ts) (env, rw_changed rw) env rw.
Proof. exists ts. split_and!; try done. by apply unchanged. Qed.

(** ** If *)

Definition branches_propagate (us : list tree) : Prop :=
  Forall (fun t => is_branch (erase t) = true -> Forall (propagates self) (subtrees t)) us.

Definition branch_step (env : HirConstantEnvironment) (t : tree) (s : unit * nat) (t' : tree)
    (s' : unit * nat) : Prop := propagate_branch_hir env (erase t) s.2 = (erase t', s'.2).

Lemma is_branch_spec t m : label t = label_of m ->
  is_branch (erase t) = match role m, opcode m with
                        | (VNT_IR_EDGE_THEN | VNT_IR_EDGE_ELSE), VNT_IR_PROGRAM => true
                        | _, _ => false
                        end.
Proof.
  intros E. unfold is_branch, is_block. rewrite erase_label, E. cbn. by destruct (role m), (opcode m).
Qed.

Lemma propagate_branch_good env h k : good h -> good (propagate_branch_hir env h k).1.
Proof.
  intros Hg. unfold propagate_branch_hir. destruct (is_branch h); [|done].
  pose proof (propagate_hir_good h Hg (hir_constants_copy env, k)) as H. by destruct (propagate_hir h _).
Qed.

Lemma propagate_branch_body env us : branches_propagate us ->
  Forall (body_does (branch_step env) (fun child _ => propagate_branch self env child)) us.
Proof.
  intros H. eapply Forall_impl; [exact H|]. intros t Ht rw1 [] Hl.
  destruct (stored_node _ _ (lv_stored _ _ Hl)) as (m & Hm & E). unfold propagate_branch, branch_step, propagate_branch_hir.
  eapply wp_get_node; [exact Hm|]. cbv beta in Ht. rewrite (is_branch_spec t m E) in *.
  assert (wp (mret (Some ())) rw1 (fun o rw' => exists t' a', o = Some a' /\
    rewritten (rw_ir rw1) (rw_ir rw') t t' /\ (erase t, rw_changed rw1) = (erase t', rw_changed rw'))) as Hsame.
  { apply wp_ret. exists t, tt. split; [done|]. split; [|done]. destruct Hl. by apply rewritten_refl. }
  assert (opcode m = VNT_IR_PROGRAM -> Forall (propagates self) (subtrees t) -> wp (or_fail (hir_propagate_sequence self (index t)
      VNT_IR_EDGE_STATEMENT (hir_constants_copy env)) (fun _ => mret (Some ()))) rw1
    (fun o rw' => exists t' a', o = Some a' /\ rewritten (rw_ir rw1) (rw_ir rw') t t' /\
      (let (b, s') := propagate_hir (erase t) (hir_constants_copy env, rw_changed rw1) in (b, s'.2)) =
        (erase t', rw_changed rw'))) as Hblock.
  { intros Hop Hus. unfold or_fail. apply wp_bind.
    eapply wp_mono; [apply block_spec; [done|by rewrite E|done]|].
    intros o rw' (env' & t' & s' & -> & Hw & -> & Es). apply wp_ret. exists t', tt. by rewrite Es. }
  destruct (role m), (opcode m); try exact Hsame; exact (Hblock eq_refl (Ht eq_refl)).
Qed.

Lemma if_spec fuel env : opcode n = VNT_IR_IF -> Forall (substitutes fuel) ts ->
  branches_propagate ts ->
  wp (propagate_if self i fuel env) rw (fun o rw' => o = Some [] /\
    exists hs k, statement_done hs ([], k) [] rw' /\
      propagate_hir (Hir (label_of n) (map erase ts)) (env, rw_changed rw) = (Hir (label_of n) hs, ([], k))).
Proof.
  intros Hop Hsub Hblk. unfold propagate_if. eapply wp_child_role; [exact Hla|].
  pose proof (la_good _ _ _ _ Hla) as (_ & _ & _ & Ho & _)%good_node. cbn [label_of l_opcode] in Ho.
  rewrite Hop in Ho. destruct (condition_first VNT_IR_IF ts) as (c & us & E & Hc); [by left|done|].
  pose proof Hla as Hla0. unfold statement_done. rewrite E in Hla0, Hsub, Hblk |- *.
  unfold child_in. cbn [find]. rewrite bool_decide_eq_true_2 by done.
  cbn [fmap option_fmap option_map]. pose proof (la_live _ _ _ _ Hla0) as [Hlc _]%Forall_cons.
  apply Forall_cons in Hsub as [Hsc _]. apply wp_bind. eapply wp_mono; [by apply Hsc|].
  intros env1 rw1 (c' & Hw & Esub).
  assert (good (erase c')) as Hgc
    by (pose proof (subst_hir_good (erase c) (lv_good _ _ Hlc) (env, rw_changed rw)) as Hg; by rewrite Esub in Hg).
  assert (l_role (label c') = l_role (label c)) as Hrole.
  { pose proof (subst_hir_role (erase c) (env, rw_changed rw)) as Hr. rewrite Esub in Hr.
    cbn [fst] in Hr. by rewrite !erase_role in Hr. }
  destruct (first_child_rewritten _ _ _ _ _ _ _ Hla0 Hw Hgc Hrole) as [Hla1 Hw1].
  eapply wp_get_node; [apply Hla1|]. apply wp_bind, wp_gets. unfold or_fail. apply wp_bind.
  assert (branches_propagate (c' :: us)) as Hblk'.
  { apply Forall_cons in Hblk as [_ Hblk]. constructor; [|done]. unfold is_branch.
    by rewrite erase_role, Hrole, Hc. }
  eapply wp_mono; [apply (children_loop_saved (branch_step env1) _ rw1 i n (c' :: us) Hla1)|].
  { by apply propagate_branch_body. }
  intros o rw2 (ts2 & [] & -> & Hn2 & Hw2 & _ & Hs). apply wp_ret. split; [done|].
  pose proof (steps_visit (branch_step env1) (propagate_branch_hir env1) snd _ _ _ _ (fun _ _ _ _ H => H) Hs) as Hv.
  pose proof (visited_good (propagate_branch_hir env1) (label_of n) (map erase (c' :: us)) (rw_changed rw1)
    (propagate_branch_role env1) (propagate_branch_good env1) (la_good _ _ _ _ Hla1)) as Hg.
  cbn [snd] in Hv. rewrite Hv in Hg. cbn [fst] in Hg. exists (map erase ts2), (rw_changed rw2). split.
  - exists ts2. split_and!; try done; [by eapply rewritten_live_at|by eapply rewritten_trans].
  - cbn [map propagate_hir]. cbn [label_of l_opcode]. rewrite Hop, Esub. cbn [fst snd].
    change (visit _ (map erase us) (rw_changed rw1)) with
      (visit (propagate_branch_hir env1) (map erase us) (rw_changed rw1)).
    cbn [map] in Hv. rewrite visit_cons in Hv.
    assert (propagate_branch_hir env1 (erase c') (rw_changed rw1) = (erase c', rw_changed rw1)) as Ec'.
    { unfold propagate_branch_hir, is_branch. by rewrite erase_role, Hrole, Hc. }
    rewrite Ec' in Hv. cbn [fst snd] in Hv.
    destruct (visit (propagate_branch_hir env1) (map erase us) (rw_changed rw1)) as [rest k].
    cbn [fst snd] in Hv. by injection Hv as <- <-.
Qed.

(** ** The others *)

(** The result of a statement whose last test is for calls. *)
Definition calls_done (env : HirConstantEnvironment) (o : option HirConstantEnvironment) (rw' : Rewriter) : Prop :=
  exists hs env' k, o = Some env' /\ statement_done hs (env', k) env' rw' /\
    propagate_hir (Hir (label_of n) (map erase ts)) (env, rw_changed rw) =
      after_calls (Hir (label_of n) hs, (env', k)).

Lemma function_spec env : opcode n = VNT_IR_FUNCTION ->
  Forall (fun t => is_block (erase t) = true -> Forall (propagates self) (subtrees t)) ts ->
  wp (propagate_function self i env) rw (calls_done env).
Proof.
  intros Hop Hblk. unfold propagate_function, calls_done. eapply wp_child_role; [exact Hla|].
  pose proof (la_good _ _ _ _ Hla) as (_ & _ & Ho & _)%good_node. cbn [label_of l_opcode] in Ho.
  rewrite Hop in Ho. cbn [roles_ok] in Ho.
  assert (wp (mret (Some env)) rw (fun o rw' => o = Some env /\ statement_done (map erase ts) (env, rw_changed rw) env rw'))
    as Hsame by (apply wp_ret; split; [done|apply statement_same]).
  assert (forall hs', propagate_hir (Hir (label_of n) hs') (env, rw_changed rw) =
    match hs' with
    | b :: rest => if is_block b
                   then let (b, s') := propagate_hir b ([], rw_changed rw) in
                        after_calls (Hir (label_of n) (b :: rest), (env, s'.2))
                   else after_calls (Hir (label_of n) hs', (env, rw_changed rw))
    | [] => after_calls (Hir (label_of n) hs', (env, rw_changed rw))
    end) as Ep by (intros hs'; cbn [propagate_hir]; cbn [label_of l_opcode]; by rewrite Hop).
  rewrite Ep. clear Ep. destruct (list_cases ts) as [E|(b & us & E)].
  { rewrite E in Hsame |- *. eapply wp_mono; [exact Hsame|]. intros o rw' [-> H]. by eexists _, _, _. }
  pose proof Hla as Hla0. unfold statement_done in *. rewrite E in Hla0, Hblk, Ho, Hsame |- *.
  apply Forall_cons in Ho as [Hrb _]. rewrite erase_role in Hrb.
  unfold child_in. cbn [find]. rewrite bool_decide_eq_true_2 by done. cbn [fmap option_fmap option_map].
  pose proof (la_live _ _ _ _ Hla0) as [Hlb _]%Forall_cons. apply Forall_cons in Hblk as [Hblk _].
  destruct (stored_node _ _ (lv_stored _ _ Hlb)) as (m & Hm & Em). eapply wp_get_node; [exact Hm|].
  cbn [map]. unfold is_block in *. rewrite erase_label, Em in *. cbn [label_of l_opcode] in *.
  case_bool_decide as Hb; [|eapply wp_mono; [exact Hsame|]; intros o rw' [-> H]; by eexists _, _, _].
  unfold or_fail. apply wp_bind.
  eapply wp_mono; [apply block_spec; [done|by rewrite Em|by apply Hblk]|].
  intros o rw' (env' & b' & s' & -> & Hw & Epb & Es). apply wp_ret.
  change (propagate_hir (erase b) ([], rw_changed rw)) with
    (propagate_hir (erase b) (@pair HirConstantEnvironment nat [] (rw_changed rw))).
  rewrite Epb.
  assert (good (erase b')) as Hgb
    by (pose proof (propagate_hir_good (erase b) (lv_good _ _ Hlb) (@pair HirConstantEnvironment nat [] (rw_changed rw))) as Hg;
      by rewrite Epb in Hg).
  assert (l_role (label b') = l_role (label b)) as Hrole.
  { pose proof (propagate_hir_role (erase b) (@pair HirConstantEnvironment nat [] (rw_changed rw))) as Hr. rewrite Epb in Hr.
    cbn [fst] in Hr. by rewrite !erase_role in Hr. }
  destruct (first_child_rewritten _ _ _ _ _ _ _ Hla0 Hw Hgb Hrole) as [Hla1 Hw1].
  exists (erase b' :: map erase us), env, s'.2. split_and!; [done| |done].
  exists (b' :: us). rewrite Es. by split_and!.
Qed.

Lemma expressions_spec fuel env : Forall (substitutes fuel) ts ->
  (propagate_hir (Hir (label_of n) (map erase ts)) (env, rw_changed rw) =
    let (hs, s) := visit subst_hir (map erase ts) (env, rw_changed rw) in
    after_calls (Hir (label_of n) hs, s)) ->
  wp (propagate_expressions i fuel env) rw (calls_done env).
Proof.
  intros Hsub E. unfold propagate_expressions, calls_done. eapply wp_get_node; [apply Hla|].
  apply wp_bind, wp_gets. eapply wp_mono; [apply (subst_children rw i n ts fuel env Hla Hsub)|].
  intros o rw' (ts' & env' & -> & Hla' & Hw & _ & Hv). rewrite E, Hv.
  eexists (map erase ts'), env', (rw_changed rw'). split; [done|]. split; [|done]. exists ts'. by split_and!.
Qed.

(** The value of a declaration. *)
Lemma assignment_spec fuel env : opcode n = VNT_IR_VARIABLE_DECL \/ opcode n = VNT_IR_REASSIGN ->
  Forall (substitutes fuel) ts -> wp (propagate_assignment i fuel env) rw (calls_done env).
Proof.
  intros Hop Hsub. unfold propagate_assignment, calls_done. eapply wp_child_role; [exact Hla|].
  pose proof (la_good _ _ _ _ Hla) as (Hlab & _ & Ho & _)%good_node. cbn [label_of l_opcode] in Ho.
  assert (roles_of (map erase ts) = [] \/ roles_of (map erase ts) = [VNT_IR_EDGE_VALUE]) as Hro
    by (destruct Hop as [Hop|Hop]; rewrite Hop in Ho; [done|by right]).
  assert (has_text (opcode n) = true) as Htext by (by destruct Hop as [-> | ->]).
  assert (forall hs', propagate_hir (Hir (label_of n) hs') (env, rw_changed rw) =
    let (hs, s) := visit subst_hir hs' (env, rw_changed rw) in
    after_calls (Hir (label_of n) hs, (learn (label_of n) (head hs ≫= constant_of) s.1, s.2))) as Ep
    by (intros hs'; cbn [propagate_hir]; cbn [label_of l_opcode]; by destruct Hop as [-> | ->]).
  rewrite Ep. clear Ep Ho. pose proof Hla as Hla0. unfold statement_done.
  destruct Hro as [E|E].
  - assert (ts = []) as Ets by (by apply map_eq_nil in E; apply map_eq_nil in E).
    rewrite Ets in Hla0 |- *. unfold child_in. cbn [find fmap option_fmap option_map].
    apply wp_bind, wp_ret. eapply wp_get_node; [apply Hla|]. cbn [operand_constant]. apply wp_bind, wp_ret.
    eapply wp_node_text; [done|done|]. apply wp_ret. cbn [map visit head].
    eexists [], _, (rw_changed rw). split; [done|]. split; [|done].
    exists []. split_and!; try done. by apply unchanged.
  - destruct (roles_one _ _ E) as (v & Ets & Hv). rewrite Ets in Hla0, Hsub |- *.
    unfold child_in. cbn [find]. rewrite bool_decide_eq_true_2 by done. cbn [fmap option_fmap option_map].
    pose proof (la_live _ _ _ _ Hla0) as [Hlv _]%Forall_cons. apply Forall_cons in Hsub as [Hsub _].
    apply wp_bind. eapply wp_mono; [by apply Hsub|]. intros env1 rw1 (v' & Hw & Es).
    assert (good (erase v')) as Hgv
      by (pose proof (subst_hir_good (erase v) (lv_good _ _ Hlv) (env, rw_changed rw)) as Hg; by rewrite Es in Hg).
    assert (l_role (label v') = l_role (label v)) as Hrole.
    { pose proof (subst_hir_role (erase v) (env, rw_changed rw)) as Hr. rewrite Es in Hr.
      cbn [fst] in Hr. by rewrite !erase_role in Hr. }
    destruct (first_child_rewritten _ _ _ _ _ _ _ Hla0 Hw Hgv Hrole) as [Hla1 Hw1].
    eapply wp_get_node; [apply Hla1|]. rewrite <- (rn_index _ _ _ _ Hw).
    eapply wp_operand_constant; [done|by apply (rn_stored _ _ _ _ Hw)|done|].
    eapply wp_node_text; [done|done|]. apply wp_ret.
    cbn [map]. rewrite visit_cons, Es. cbn [fst snd visit head mbind option_bind].
    eexists [erase v'], _, (rw_changed rw1). split; [done|]. split; [|done].
    exists [v']. by split_and!.
Qed.

(** ** Any statement *)

Definition node_done (env : HirConstantEnvironment)
    (o : option (HirConstantEnvironment + HirConstantEnvironment)) (rw' : Rewriter) : Prop :=
  (exists env', o = Some (inr env') /\ calls_done env (Some env') rw') \/
  (o = Some (inl []) /\ rw' = rw /\
   propagate_hir (Hir (label_of n) (map erase ts)) (env, rw_changed rw) =
     (Hir (label_of n) (map erase ts), ([], rw_changed rw))).

Lemma go_on_spec env m : wp m rw (calls_done env) ->
  wp (or_fail m (fun env => mret (Some (inr env)))) rw (node_done env).
Proof.
  intros H. unfold or_fail. apply wp_bind. eapply wp_mono; [exact H|]. intros o rw' Hd.
  pose proof Hd as (hs & env' & k & -> & _). apply wp_ret. left. by exists env'.
Qed.

Lemma propagate_node_spec fuel env : Forall (propagates self) ts -> Forall (substitutes fuel) ts ->
  Forall (fun t => Forall (propagates self) (subtrees t)) ts ->
  wp (propagate_node self i fuel env) rw (node_done env).
Proof.
  intros Hself Hsub Hblk. unfold propagate_node. eapply wp_get_node; [apply Hla|].
  pose proof (fun E => go_on_spec env _ (expressions_spec fuel env Hsub E)) as Hexp.
  pose proof (fun E => if_spec fuel env E Hsub) as Hif.
  pose proof (fun E => function_spec env E) as Hfun.
  pose proof (fun E => go_on_spec env _ (assignment_spec fuel env E Hsub)) as Hassign.
  pose proof (fun E => hir_propagate_sequence_spec self rw i n ts Hla env E Hself) as Hseq.
  pose proof (fun E => forget_target_spec rw i n ts env Hla E) as Hforget.
  assert (propagate_hir (Hir (label_of n) (map erase ts)) (env, rw_changed rw) =
    (Hir (label_of n) (map erase ts), ([], rw_changed rw)) ->
    wp (mret (Some (inl []))) rw (node_done env)) as Hleave.
  { intros E. apply wp_ret. right. by split_and!. }
  unfold calls_done in *. cbn [propagate_hir] in *. cbn [label_of l_opcode] in *.
  destruct (opcode n) eqn:Hop; try (by apply Hexp); try (by apply Hleave); try (by apply Hassign; auto).
  - apply go_on_spec. unfold calls_done. cbn [propagate_hir]. cbn [label_of l_opcode]. rewrite Hop.
    eapply wp_mono; [by apply Hseq|]. intros o rw' (env' & ts' & -> & Hw & Hla' & Hv). rewrite Hv.
    eexists (map erase ts'), env', (rw_changed rw'). split; [done|]. split; [|done]. exists ts'. by split_and!.
  - apply go_on_spec. unfold calls_done. cbn [propagate_hir]. cbn [label_of l_opcode]. rewrite Hop.
    eapply wp_mono; [apply Hif; [done|]|].
    + eapply Forall_impl; [exact Hblk|]. auto.
    + intros o rw' (-> & hs & k & Hd & E). exists hs, [], k. split; [done|]. split; [done|]. rewrite E.
      unfold after_calls. cbn [fst snd]. by destruct (contains_call _).
  - apply go_on_spec. unfold calls_done. cbn [propagate_hir]. cbn [label_of l_opcode]. rewrite Hop.
    apply Hfun; [done|]. eapply Forall_impl; [exact Hblk|]. auto.
  - apply go_on_spec. unfold calls_done. cbn [propagate_hir]. cbn [label_of l_opcode]. rewrite Hop.
    apply wp_bind. eapply wp_mono; [by apply Hforget|]. intros env' rw' [-> ->]. apply wp_ret.
    exists (map erase ts), (forget (map erase ts) env), (rw_changed rw). split; [done|]. split; [|done].
    apply statement_same.
Qed.
End statement.

(** A rewritten tree has not grown. *)
Lemma rewritten_length ir ir' t t' : rewritten ir ir' t t' -> length (indices t') <= length (indices t).
Proof. intros [_ _ _ Hin Hd _]. by apply submseteq_length, NoDup_submseteq. Qed.

Lemma subtree_fuel i l ts t u f : t ∈ ts -> u ∈ subtrees t -> length (indices (Tree i l ts)) <= S f ->
  length (indices u) <= f.
Proof.
  intros Ht Hu Hf. pose proof (child_fuel i l ts t f Ht Hf) as H. destruct t as [j l' us].
  pose proof (child_subtree_length u us j l' Hu). lia.
Qed.

Lemma hir_propagate_statement_spec fuel : forall t, length (indices t) <= fuel ->
  propagates (hir_propagate_statement fuel) t.
Proof.
  induction fuel as [|f IH]; intros [i l ts] Hf rw env Hlive; [cbn in Hf; lia|].
  destruct (live_inv _ _ _ _ Hlive) as (n & -> & Hla). cbn [hir_propagate_statement index].
  unfold or_fail at 1. apply wp_bind.
  eapply wp_mono; [apply (propagate_node_spec (hir_propagate_statement f) rw i n ts Hla)|].
  - apply Forall_forall. intros t Ht. apply IH. by eapply child_fuel.
  - apply Forall_forall. intros t Ht. apply hir_substitute_expression_spec.
    pose proof (child_fuel i (label_of n) ts t f Ht Hf). lia.
  - apply Forall_forall. intros t Ht. apply Forall_forall. intros u Hu. apply IH.
    exact (subtree_fuel i (label_of n) ts t u f Ht Hu Hf).
  - intros o rw' [(env' & -> & hs & env2 & k & [= ->] & Hd & E)|(-> & -> & E)].
    + destruct Hd as (ts' & Hla' & <- & Hw & [= ->]).
      pose proof (live_node _ _ _ _ Hla') as Hl'. apply wp_bind. eapply wp_asks.
      { apply (hir_contains_call_spec (S f) _ (Tree i (label_of n) ts') Hl').
        pose proof (rewritten_length _ _ _ _ Hw). lia. }
      apply wp_ret. exists (if contains_call (erase (Tree i (label_of n) ts')) then [] else env2), (Tree i (label_of n) ts').
      split; [done|]. split; [done|]. cbn [erase]. rewrite E. unfold after_calls. cbn [fst snd].
      by destruct (contains_call _).
    + apply wp_ret. exists [], (Tree i (label_of n) ts). split_and!; [done|by apply unchanged|done].
Qed.
