(* ===== verification/IrOptimizeProps.v ===== *)
(** IrOptimizeProps: the optimizer as a whole. On the array it computes the
    function [optimize_hir] of trees, and it never fails on what lowering gives.
    The first part: hir_copy_node writes the tree that is left to a new array, in the
    depth-first order of a program that was just lowered. *)

From S2P Require Import Prelude Clib Ast Parser Statements ParserFacts StatementsProps Ir IrTrees.
From S2P Require Import IrFacts IrLayout IrLower IrAccess IrScopesFacts IrResolve.
From S2P Require Import CfgProps IrProps IrOptimize IrPasses IrPassesFacts IrRewrite IrPruning.
From S2P Require Import IrSimplify IrPropagate.

Section copy.
Context (old : VntIrProgram).

Definition copies (copy : nat -> St VntIrProgram (option nat)) (t : tree) : Prop := forall out,
  copy (index t) out =
    Done (Some (node_count out), with_nodes (nodes out ++ layout (node_count out) None (erase t)) out).

(** The texts that are copied are there. *)
Lemma copied_value_spec n : label_ok (label_of n) -> copied_value n = Done (value n).
Proof.
  intros [Ht _ _ _ _]. unfold copied_value. destruct (has_text (opcode n)) eqn:E; [|done].
  destruct (Ht E) as [text Ev]. cbn in Ev. by rewrite Ev.
Qed.

Lemma copy_children_spec copy ts : Forall (copies copy) ts -> forall fuel o out pre l hs,
  length ts < fuel -> chain old o (map index ts) -> nodes out = building pre l hs ->
  copy_children old fuel copy o (length pre) out =
    Done (Some (length pre), with_nodes (building pre l (hs ++ map erase ts)) out).
Proof.
  induction 1 as [|t ts Ht _ IH]; intros fuel o out pre l hs Hf Hc E;
    (destruct fuel as [|f]; [cbn in Hf; lia|]).
  - inversion Hc; subst. cbn. rewrite app_nil_r, <- E. by destruct out.
  - apply chain_inv in Hc as (n & -> & Hn & Hc). cbn [copy_children].
    rewrite (bind_done _ _ _ _ _ (Ht out)). cbv beta iota.
    assert (node_count out = length pre + S (hirs_size hs)) as Hcount
      by (unfold node_count; by rewrite E, building_length).
    set (out1 := with_nodes _ _).
    assert (add_child (length pre) (node_count out) out1 =
      Done (true, with_nodes (building pre l (hs ++ [erase t])) out)) as Hadd.
    { rewrite Hcount. erewrite (add_child_building out1 pre l hs (erase t)); [done|].
      subst out1. cbn [nodes with_nodes]. by rewrite E, Hcount. }
    rewrite (bind_done _ _ _ _ _ Hadd). cbv beta iota.
    erewrite bind_done; [|unfold asks; by rewrite (node_at_done _ _ _ Hn)]. cbv beta.
    rewrite (IH f (next_sibling n) _ pre l (hs ++ [erase t])); [|cbn in Hf; lia|done|done].
    by rewrite <- app_assoc.
Qed.

Lemma hir_copy_node_spec fuel : forall t, live old t -> length (indices t) <= fuel ->
  copies (hir_copy_node old fuel) t.
Proof.
  induction fuel as [|f IH]; intros [i l ts] Hlive Hf out; [cbn in Hf; lia|].
  destruct (live_inv _ _ _ _ Hlive) as (n & -> & Hla). pose proof (live_at_range _ _ _ _ Hla) as Hr.
  pose proof (la_good _ _ _ _ Hla) as (Hlab & _)%good_node. pose proof (la_node _ _ _ _ Hla) as Hn.
  cbn [hir_copy_node index]. destruct (Nat.leb_spec (node_count old) i); [lia|].
  rewrite (bind_done _ _ out (node_count out) (with_nodes (nodes out ++ [new_node]) out)) by done. cbv beta.
  erewrite bind_done; [|unfold asks; by rewrite (node_at_done _ _ _ Hn)]. cbv beta.
  erewrite bind_done; [|unfold asks; by rewrite (copied_value_spec _ Hlab)]. cbv beta.
  rewrite (bind_done _ _ _ tt (with_nodes (building (nodes out) (label_of n) []) out)).
  2: { erewrite update_node_at; [|done|done]. by unfold building. }
  cbv beta. change (node_count out) with (length (nodes out)).
  rewrite (copy_children_spec _ ts) with (l := label_of n) (hs := []); [done|..|done].
  - pose proof (la_live _ _ _ _ Hla) as Hts. rewrite Forall_forall in *. intros t Ht.
    apply IH; [by apply Hts|]. by eapply child_fuel.
  - by eapply live_at_fuel.
  - by eapply live_at_chain.
Qed.
End copy.

(** * One round *)

(** The whole program in the array. *)
Record at_root (rw : Rewriter) (t : tree) : Prop := {
  ar_live : live (rw_ir rw) t;
  ar_root : is_root (erase t);
  ar_fuel : length (indices t) <= rw_fuel rw
}.

(** A pass that rewrites the program and counts its changes. *)
Definition passes (f : hir -> nat -> hir * nat) (rw : Rewriter) (t : tree) (rw' : Rewriter) : Prop :=
  exists t', rewritten (rw_ir rw) (rw_ir rw') t t' /\ at_root rw' t' /\
    f (erase t) (rw_changed rw) = (erase t', rw_changed rw').

Lemma rewritten_root rw rw' t t' : at_root rw t -> rewritten (rw_ir rw) (rw_ir rw') t t' ->
  is_root (erase t') -> at_root rw' t'.
Proof.
  intros [Hl _ Hf] Hr Hroot. pose proof Hroot as [Hg _]. split; [by eapply rewritten_live|done|].
  pose proof (rewritten_length _ _ _ _ Hr). unfold rw_fuel, sibling_fuel in *.
  rewrite (fr_count _ _ _ (rn_frame _ _ _ _ Hr)). lia.
Qed.

Lemma rewritten_fuel ir ir' t t' : rewritten ir ir' t t' -> sibling_fuel ir' = sibling_fuel ir.
Proof. intros Hr. unfold sibling_fuel. by rewrite (fr_count _ _ _ (rn_frame _ _ _ _ Hr)). Qed.

Lemma fold_pass rw t fuel : at_root rw t -> length (indices t) <= fuel ->
  wp (hir_fold_node fuel (index t)) rw (fun ok rw' => ok = true /\ passes fold_hir rw t rw').
Proof.
  intros Hroot Hf. eapply wp_mono; [apply hir_fold_node_spec; [apply Hroot|done]|].
  intros ok rw' (-> & t' & Hr & E). split; [done|]. exists t'. split; [done|]. split; [|done].
  eapply rewritten_root; [done..|]. assert (erase t' = (fold_hir (erase t) (rw_changed rw)).1) as -> by (by rewrite <- E).
  by apply fold_hir_root, Hroot.
Qed.

Lemma propagate_pass rw t fuel : at_root rw t -> length (indices t) <= fuel ->
  wp (hir_propagate_sequence (hir_propagate_statement fuel) (index t) VNT_IR_EDGE_STATEMENT []) rw
    (fun o rw' => (exists env, o = Some env) /\ passes propagate_block rw t rw').
Proof.
  intros Hroot Hf. pose proof Hroot as [Hl (Hg & Hop & _) _]. destruct t as [i l ts].
  destruct (live_inv _ _ _ _ Hl) as (n & -> & Hla).
  eapply wp_mono; [apply (hir_propagate_sequence_spec _ rw i n ts Hla); [done|]|].
  - apply Forall_forall. intros t Ht. apply hir_propagate_statement_spec.
    pose proof (child_subtree_length t ts i (label_of n) Ht). lia.
  - intros o rw' (env' & ts' & -> & Hr & _ & Hv). split; [by eexists|].
    exists (Tree i (label_of n) ts'). split; [done|].
    assert (propagate_block (Hir (label_of n) (map erase ts)) (rw_changed rw) =
      (Hir (label_of n) (map erase ts'), rw_changed rw')) as E.
    { cbn [propagate_block].
      change (visit propagate_hir (map erase ts) ([], rw_changed rw)) with
        (visit propagate_hir (map erase ts) (@pair HirConstantEnvironment nat [] (rw_changed rw))).
      by rewrite Hv. }
    split; [|done]. eapply rewritten_root; [done..|]. cbn [erase].
    change (Hir (label_of n) (map erase ts')) with (Hir (label_of n) (map erase ts'), rw_changed rw').1.
    rewrite <- E. apply propagate_block_root, Hroot.
Qed.

Lemma simplify_pass rw t fuel : at_root rw t -> length (indices t) <= fuel ->
  wp (hir_simplify_control_flow fuel (index t)) rw (fun _ rw' => passes simplify_hir rw t rw').
Proof.
  intros Hroot Hf. eapply wp_mono; [apply hir_simplify_control_flow_spec; [apply Hroot|done]|].
  intros _ rw' (t' & Hr & E). exists t'. split; [done|]. split; [|done].
  eapply rewritten_root; [done..|]. assert (erase t' = (simplify_hir (erase t) (rw_changed rw)).1) as -> by (by rewrite <- E).
  by apply simplify_hir_root, Hroot.
Qed.

(** A pass after a pass. *)
Lemma passes_trans f g rw1 rw2 rw3 t1 : passes f rw1 t1 rw2 ->
  (forall t2, rewritten (rw_ir rw1) (rw_ir rw2) t1 t2 -> at_root rw2 t2 -> passes g rw2 t2 rw3) ->
  passes (fun h k => let (h, k) := f h k in g h k) rw1 t1 rw3.
Proof.
  intros (t2 & Hr1 & Ha & E1) H. destruct (H t2 Hr1 Ha) as (t3 & Hr2 & Ha3 & E2). exists t3.
  split; [by eapply rewritten_trans|]. split; [done|]. by rewrite E1.
Qed.

Lemma optimize_round_spec rw t : at_root rw t ->
  wp (optimize_round (index t)) rw (fun ok rw' => ok = true /\ passes round_hir rw t rw').
Proof.
  intros H0. unfold optimize_round. apply wp_bind, wp_gets. pose proof (ar_fuel _ _ H0) as Hf.
  apply wp_bind. eapply wp_mono; [by apply fold_pass|]. intros ok rw1 (-> & t1 & R1 & H1 & E1). cbn [negb].
  pose proof (rewritten_length _ _ _ _ R1) as L1. rewrite <- (rn_index _ _ _ _ R1).
  apply wp_bind. eapply wp_mono; [apply propagate_pass; [done|lia]|].
  intros o rw2 ((env & ->) & t2 & R2 & H2 & E2). pose proof (rewritten_length _ _ _ _ R2) as L2.
  rewrite <- (rn_index _ _ _ _ R2). apply wp_bind. eapply wp_mono; [apply fold_pass; [done|lia]|].
  intros ok rw3 (-> & t3 & R3 & H3 & E3). cbn [negb]. pose proof (rewritten_length _ _ _ _ R3) as L3.
  rewrite <- (rn_index _ _ _ _ R3). apply wp_bind. eapply wp_mono; [apply simplify_pass; [done|lia]|].
  intros _ rw4 (t4 & R4 & H4 & E4). apply wp_ret. split; [done|]. exists t4. split.
  - eapply rewritten_trans; [exact R1|]. eapply rewritten_trans; [exact R2|].
    by eapply rewritten_trans.
  - split; [done|]. unfold round_hir. by rewrite E1, E2, E3.
Qed.

Lemma optimize_rounds_spec rounds : forall rw t, at_root rw t ->
  wp (optimize_rounds rounds (index t)) rw (fun ok rw' => ok = true /\ passes (rounds_hir rounds) rw t rw').
Proof.
  induction rounds as [|rounds IH]; intros rw t Ha.
  - apply wp_ret. split; [done|]. exists t. split; [|done]. destruct (ar_live _ _ Ha). by apply rewritten_refl.
  - cbn [optimize_rounds]. apply wp_bind, wp_gets, wp_bind. eapply wp_mono; [by apply optimize_round_spec|].
    intros ok rw1 (-> & t1 & R1 & H1 & E1). cbn [negb]. apply wp_bind, wp_gets.
    unfold passes. cbn [rounds_hir]. rewrite E1. destruct (rw_changed rw1 =? rw_changed rw).
    + apply wp_ret. split; [done|]. by exists t1.
    + rewrite <- (rn_index _ _ _ _ R1). eapply wp_mono; [by apply IH|].
      intros ok rw2 (-> & t2 & R2 & H2 & E2). split; [done|]. exists t2.
      split; [by eapply rewritten_trans|done].
Qed.

(** * The whole optimizer *)

(** A valid array that stores the tree [h] of a program, tidy as lowering leaves it. *)
Definition stores (ir : VntIrProgram) (h : hir) : Prop :=
  exists t n, represents ir t /\ erase t = h /\ is_root h /\ nodes ir !! index t = Some n /\ next_sibling n = None.

Lemma stores_valid ir h : stores ir h -> ir_valid ir.
Proof.
  intros (t & n & Hr & <- & ([Hwf _] & Hop & Hrole) & Hn & Hnext). exists t, n.
  rewrite <- erase_label. by split_and!.
Qed.

Lemma valid_done ir : ir_valid ir -> vnt_ir_validate ir = Done true.
Proof.
  intros Hv. pose proof (vnt_ir_validate_returns ir) as H. destruct (vnt_ir_validate ir) as [b| |]; [|done..].
  f_equal. by apply H.
Qed.

Definition laid_out (h : hir) (optimized : nat) : VntIrProgram :=
  {| nodes := layout 0 None h; root := Some 0; optimized_nodes := optimized |}.

Lemma laid_out_stores h k : is_root h -> stores (laid_out h k) h.
Proof.
  intros Hr. destruct h as [l hs]. exists (tree_at 0 (Hir l hs)), (head_node 0 None l hs).
  split; [apply layout_represents|]. split; [apply erase_tree_at|]. by split_and!.
Qed.

Lemma represents_root_live ir t : represents ir t -> good (erase t) ->
  live ir t /\ length (indices t) <= sibling_fuel ir.
Proof.
  intros [_ Hst Hall] Hg. split; [split; [done..|]|].
  - rewrite Hall. apply NoDup_seq.
  - unfold sibling_fuel. rewrite Hall, length_seq. lia.
Qed.

Lemma optimize_stored ir t n : represents ir t -> is_root (erase t) ->
  nodes ir !! index t = Some n -> next_sibling n = None ->
  vnt_ir_optimize ir = Done (Some (laid_out (optimize_hir (erase t)).1
                                     (optimized_nodes ir + (optimize_hir (erase t)).2))).
Proof.
  intros Hrep Hroot Hn Hnext. destruct (represents_root_live ir t Hrep (proj1 Hroot)) as [Hl Hf].
  unfold vnt_ir_optimize. rewrite (valid_done ir) by (eapply stores_valid; by exists t, n).
  cbn [mbind outcome_bind]. rewrite (represents_root _ _ Hrep). cbn [negb].
  set (rw := {| rw_ir := ir; rw_changed := 0 |}).
  assert (at_root rw t) as Ha by (by split).
  pose proof (optimize_rounds_spec VNT_IR_ROUNDS rw t Ha) as H. unfold wp in H.
  destruct (optimize_rounds VNT_IR_ROUNDS (index t) rw) as [[ok rw']| |]; [|done..].
  destruct H as (-> & t' & Hr & Ha' & E). change (rounds_hir _ _ _) with (optimize_hir (erase t)) in E.
  rewrite E. cbn [fst snd]. rewrite <- (rn_index _ _ _ _ Hr).
  rewrite (hir_copy_node_spec (rw_ir rw') (sibling_fuel (rw_ir rw')) t'); [|apply Ha'|apply (ar_fuel _ _ Ha')].
  cbn [node_count nodes length app with_nodes root optimized_nodes]. change (node_count _) with 0.
  change {| nodes := _; root := _; optimized_nodes := _ |} with
    (laid_out (erase t') (optimized_nodes ir + rw_changed rw')).
  rewrite valid_done; [done|]. eapply stores_valid, laid_out_stores, Ha'.
Qed.

(** * Lowered programs are tidy *)

(** The edges of a lowered node are in the order the passes rely on. *)
Lemma edges_in_order a : in_order (lowered_opcode a) (map fst (edges a)).
Proof.
  assert (forall (r : VntIrEdgeRole) (items : list ast),
    map fst (map (pair r) items) = replicate (length items) r) as all.
  { intros r items. induction items as [|x items IH]; [done|]. cbn in *. by rewrite IH. }
  destruct a; cbn; try done.
  - eexists _, _. by rewrite map_app, !all.
  - eexists. by rewrite all.
  - by destruct is_reassignment.
Qed.

Inductive ordered : hir -> Prop :=
  | ordered_node l hs : in_order (l_opcode l) (roles_of hs) -> Forall ordered hs -> ordered (Hir l hs).

Lemma hir_of_ordered a : ordered (hir_of a).
Proof.
  induction a as [a IH] using ast_edges_ind. rewrite hir_of_edges. constructor.
  - unfold roles_of. rewrite edge_hir_role. apply edges_in_order.
  - apply Forall_map. eapply Forall_impl; [exact IH|]. intros e H. unfold edge_hir. by destruct H.
Qed.

Lemma retree_tidy ir ir' t : same_links ir ir' -> literals_ok ir' -> stored ir t -> ordered (erase t) ->
  tidy (erase (retree ir' t)).
Proof.
  intros Hlinks Hlit. induction t as [i l ts IH] using tree_ind. intros Hst Ho.
  inversion Hst as [? n ? Hn _ Hts]; subst. inversion Ho as [? ? Hio Hos]; subst.
  destruct (same_links_at _ _ _ _ Hlinks Hn) as (n' & Hn' & Hln). cbn. rewrite Hn'. constructor.
  - by eapply Hlit.
  - cbn [label_of l_opcode] in *. rewrite (sn_opcode _ _ Hln). unfold roles_of in *. rewrite !map_map in *.
    erewrite map_ext_in; [exact Hio|]. intros t Ht%list_elem_of_In. rewrite Forall_forall in Hts.
    destruct (retree_root ir ir' Hlinks t (Hts t Ht)) as [E _]. by rewrite !erase_role.
  - rewrite map_map, Forall_map. rewrite Forall_map in Hos. rewrite Forall_forall in *. auto.
Qed.

(** The tree of a lowered program, its variables renamed. *)
Definition renamed_tree (rn : list renaming) (a : ast) : hir :=
  erase (retree (apply_all rn (lowered a)) (tree_at 0 (hir_of a))).

Lemma apply_all_optimized rn : forall ir, optimized_nodes (apply_all rn ir) = optimized_nodes ir.
Proof. induction rn as [|r rn IH]; intros ir; [done|]. cbn. by rewrite IH. Qed.

Lemma lowered_stores a ir : lowerable a -> vnt_ir_lower a = Done (Some ir) ->
  exists rn, resolve_program (subtrees (tree_at 0 (hir_of a))) = Some rn /\ stores ir (renamed_tree rn a) /\
    optimized_nodes ir = 0.
Proof.
  intros Ha E. destruct (lower_typed a ir Ha E) as [Hv Hlit]. destruct (lower_exact a Ha) as [E' _].
  rewrite E in E'. injection E' as Hir. destruct (is_program a) eqn:Hp; [|done].
  destruct (resolve_program _) as [rn|]; [|done]. injection Hir as ->. exists rn. split; [done|].
  split; [|by rewrite apply_all_optimized]. unfold renamed_tree.
  pose proof (apply_all_links rn (lowered a)) as Hl. pose proof (apply_all_labels rn (lowered a)) as Hlab.
  pose proof (layout_represents (hir_of a) 0) as Hrep. fold (lowered a) in Hrep.
  pose proof (represents_stored _ _ Hrep) as Hst. set (t := tree_at 0 (hir_of a)) in *.
  assert (erase t = hir_of a) as He by apply erase_tree_at.
  assert (nodes (lowered a) !! index t = Some (head_node 0 None (label_of_ast a) (map edge_hir (edges a)))) as Hn.
  { subst t. cbn [nodes lowered]. rewrite hir_of_edges. done. }
  destruct (same_links_at _ _ _ _ Hl Hn) as (n' & Hn' & Hln).
  destruct (retree_root _ _ Hl t Hst) as [E1 E2].
  exists (retree (apply_all rn (lowered a)) t), n'. split; [by apply (relabel_represents (lowered a))|].
  split; [done|]. split; [|by rewrite retree_index, (sn_next _ _ Hln)]. unfold is_root.
  rewrite erase_label, E1, E2, <- erase_label, He. split; [split|].
  - eapply retree_wf; [exact Hl|exact Hlab|exact Hst|]. rewrite He. apply hir_of_wf.
  - eapply retree_tidy; [exact Hl|exact Hlit|exact Hst|]. rewrite He. apply hir_of_ordered.
  - by destruct a.
Qed.

Lemma optimize_stores ir h : stores ir h ->
  vnt_ir_optimize ir =
    Done (Some (laid_out (optimize_hir h).1 (optimized_nodes ir + (optimize_hir h).2))) /\
  stores (laid_out (optimize_hir h).1 (optimized_nodes ir + (optimize_hir h).2)) (optimize_hir h).1.
Proof.
  intros (t & n & Hrep & <- & Hroot & Hn & Hnext). split; [by apply (optimize_stored ir t n)|].
  by apply laid_out_stores, rounds_hir_root.
Qed.

(** C16: the optimizer, which rewrites the links and payloads of the array in place and then
    copies what is still linked, computes exactly a function of trees: at most eight rounds
    of folding, propagation, folding again and control-flow simplification, until a round
    changes nothing. On every valid program laid out as lowering does it returns, never
    fails, adds the number of changes to the counter, and gives a valid array again. *)
Theorem vnt_ir_optimize_exact ir h :
  stores ir h ->
  vnt_ir_optimize ir =
    Done (Some (laid_out (optimize_hir h).1 (optimized_nodes ir + (optimize_hir h).2))) /\
  stores (laid_out (optimize_hir h).1 (optimized_nodes ir + (optimize_hir h).2)) (optimize_hir h).1.
Proof. apply optimize_stores. Qed.

(** A tree, from its layout, holds the literals of the array. *)
Lemma tidy_typed h : tidy h -> literals_typed h.
Proof.
  induction h as [l hs IH] using hir_ind. intros Ht. inversion Ht as [? ? Hl _ Hhs]; subst.
  constructor; [done|]. rewrite Forall_forall in *. auto.
Qed.

Lemma laid_out_literals h k : is_root h -> literals_ok (laid_out h k).
Proof.
  intros [[_ Ht] _] i n Hn. pose proof (layout_typed _ (tidy_typed _ Ht) 0 None) as H.
  apply list_elem_of_lookup_2 in Hn. rewrite Forall_forall in H. by apply H.
Qed.

(** Every program that the parser returns and whose names are resolved is optimized:
    the optimizer returns, never fails, and gives a valid HIR whose literals hold what their
    opcodes say, the layout of the optimized tree of the program, from which the control-
    flow graph can be built. *)
Theorem parsed_program_optimizes counter src program p ir :
  parse_source counter src = Done (Some program, p) ->
  vnt_ir_lower program = Done (Some ir) ->
  exists rn out, resolve_program (subtrees (tree_at 0 (hir_of program))) = Some rn /\
    vnt_ir_optimize ir = Done (Some out) /\
    nodes out = layout 0 None (optimize_hir (renamed_tree rn program)).1 /\
    ir_valid out /\ literals_ok out /\ booleans_typed out.
Proof.
  intros E Hlow. destruct (source_wf _ _ _ _ E) as (ss & -> & Hw & _).
  destruct (lowered_stores _ _ (program_lowerable ss Hw) Hlow) as (rn & Hrn & Hst & _).
  destruct (optimize_stores ir _ Hst) as [Hopt Hout].
  pose proof Hst as (_ & _ & _ & _ & Hroot & _).
  pose proof (laid_out_literals _ (optimized_nodes ir + (optimize_hir (renamed_tree rn (AST_PROGRAM ss))).2)
    (rounds_hir_root VNT_IR_ROUNDS _ 0 Hroot)) as Hlit.
  eexists rn, _. split; [done|]. split; [exact Hopt|]. split; [done|].
  split; [by eapply stores_valid|]. split; [exact Hlit|by apply literals_booleans].
Qed.

Definition optimize_sample : bytes :=
  str "x = 2 + 3 * 4 while false { print(1) } print(x - 4) if 1 < 2 { print(-(5)) } else { print(0) }".

Definition optimize_sample_ast : ast * Parser :=
  match parse_source 0 optimize_sample with
  | Done (Some program, p) => (program, p)
  | _ => (AST_PROGRAM [], parser_at [])
  end.

Definition optimize_sample_ir : VntIrProgram :=
  match vnt_ir_lower optimize_sample_ast.1 with
  | Done (Some ir) => ir
  | _ => lowered (AST_PROGRAM [])
  end.

Lemma optimize_sample_parses :
  parse_source 0 optimize_sample = Done (Some optimize_sample_ast.1, optimize_sample_ast.2).
Proof. vm_compute. reflexivity. Defined.

Lemma optimize_sample_lowers : vnt_ir_lower optimize_sample_ast.1 = Done (Some optimize_sample_ir).
Proof. vm_compute. reflexivity. Defined.

Lemma optimize_sample_stores : exists h, stores optimize_sample_ir h.
Proof.
  destruct (source_wf _ _ _ _ optimize_sample_parses) as (ss & E & Hw & _).
  pose proof optimize_sample_lowers as Hlow. rewrite E in Hlow.
  destruct (lowered_stores _ _ (program_lowerable ss Hw) Hlow) as (rn & _ & Hst & _). by eexists.
Defined.

(** The statements that are left print 10 and -5. *)
Definition optimize_sample_result : list (VntIrOpcode * VntIrValue) :=
  [(VNT_IR_PROGRAM, VAL_NONE); (VNT_IR_VARIABLE_DECL, VAL_TEXT (str "__vnt_symbol_0_x"));
   (VNT_IR_INTEGER, VAL_INTEGER 14); (VNT_IR_PROGRAM, VAL_NONE); (VNT_IR_PRINT, VAL_NONE);
   (VNT_IR_INTEGER, VAL_INTEGER 10); (VNT_IR_PROGRAM, VAL_NONE); (VNT_IR_PRINT, VAL_NONE);
   (VNT_IR_INTEGER, VAL_INTEGER (-5))].

Definition contents (ir : VntIrProgram) : list (VntIrOpcode * VntIrValue) :=
  map (fun n => (opcode n, value n)) (nodes ir).

Lemma parsed_program_optimizes_witness :
  exists out, vnt_ir_optimize optimize_sample_ir = Done (Some out) /\ ir_valid out /\
    node_count optimize_sample_ir = 24 /\ contents out = optimize_sample_result.
Proof.
  destruct (parsed_program_optimizes _ _ _ _ _ optimize_sample_parses optimize_sample_lowers)
    as (rn & out & _ & Hopt & _ & Hv & _).
  exists out. split; [exact Hopt|]. split; [exact Hv|]. vm_compute in Hopt. injection Hopt as <-.
  vm_compute. split; reflexivity.
Defined.

Lemma optimize_sample_result_ok :
  match vnt_ir_optimize optimize_sample_ir with
  | Done (Some out) => contents out = optimize_sample_result /\ optimized_nodes out = 8
  | _ => False
  end.
Proof. vm_compute. split; reflexivity. Qed.

Lemma vnt_ir_optimize_exact_witness :
  exists h, stores optimize_sample_ir h /\
    contents (laid_out (optimize_hir h).1 0) = optimize_sample_result /\ (optimize_hir h).2 = 8.
Proof.
  destruct optimize_sample_stores as [h Hst]. exists h. split; [exact Hst|].
  destruct (vnt_ir_optimize_exact _ _ Hst) as [Hopt _].
  pose proof optimize_sample_result_ok as H. rewrite Hopt in H. exact H.
Defined.
