(* ===== verification/Runtime.v ===== *)
(** Runtime: the values of compiled programs and the arithmetic of
    src/compiler/native_runtime.c, which the code of the back end calls for every
    operator, and the proof that folding at compile time gives what these
    functions give at run time. *)

From S2P Require Import Prelude Clib Ast IrOptimize.
From Stdlib Require Import SpecFloat.

(** * Values *)

(** [type] and the member of the union it says. Arrays, byte arrays, objects and
    processes are cells of the heap: two pointers to them are equal when their
    addresses are. *)
Inductive VntValue : Type :=
  | VNT_NULL
  | VNT_INT (integer : Z)
  | VNT_FLOAT (floating : binary64)
  | VNT_BOOL (boolean : bool)
  | VNT_STRING (string : bytes)
  | VNT_ARRAY (address : nat)
  | VNT_BYTES (address : nat)
  | VNT_OBJECT (address : nat)
  | VNT_PROCESS (address : nat)
  | VNT_REFERENCE (slot : nat)
  | VNT_POINTER (address : Z).

Inductive VntType : Type :=
  | TYPE_NULL | TYPE_INT | TYPE_FLOAT | TYPE_BOOL | TYPE_STRING | TYPE_ARRAY
  | TYPE_BYTES | TYPE_OBJECT | TYPE_PROCESS | TYPE_REFERENCE | TYPE_POINTER.

#[export] Instance VntType_eq_dec : EqDecision VntType.
Proof. solve_decision. Defined.

Definition type_of (v : VntValue) : VntType :=
  match v with
  | VNT_NULL => TYPE_NULL
  | VNT_INT _ => TYPE_INT
  | VNT_FLOAT _ => TYPE_FLOAT
  | VNT_BOOL _ => TYPE_BOOL
  | VNT_STRING _ => TYPE_STRING
  | VNT_ARRAY _ => TYPE_ARRAY
  | VNT_BYTES _ => TYPE_BYTES
  | VNT_OBJECT _ => TYPE_OBJECT
  | VNT_PROCESS _ => TYPE_PROCESS
  | VNT_REFERENCE _ => TYPE_REFERENCE
  | VNT_POINTER _ => TYPE_POINTER
  end.

(** [VntValue *]: [None] is NULL. *)
Definition VntPointer : Type := option VntValue.

(** What a call of the runtime does: it returns, it prints a message and calls
    exit(1), or it reads through a NULL pointer. *)
Inductive helper (A : Type) : Type :=
  | Returned (a : A)
  | Exited (message : string)
  | Crashed.
Arguments Returned {A} _.
Arguments Exited {A} _.
Arguments Crashed {A}.

#[export] Instance helper_ret : MRet helper := fun A a => Returned a.
#[export] Instance helper_bind : MBind helper := fun A B k m =>
  match m with
  | Returned a => k a
  | Exited message => Exited message
  | Crashed => Crashed
  end.

Definition vnt_int (x : Z) : VntPointer := Some (VNT_INT x).
Definition vnt_float (d : binary64) : VntPointer := Some (VNT_FLOAT d).
Definition vnt_bool (b : bool) : VntPointer := Some (VNT_BOOL b).
Definition vnt_string (s : bytes) : VntPointer := Some (VNT_STRING s).

(** * Numbers *)

Definition is_number (p : VntPointer) : bool :=
  match p with Some (VNT_INT _ | VNT_FLOAT _) => true | _ => false end.

Definition require_number (a b : VntPointer) : helper unit :=
  if is_number a && is_number b then mret tt
  else Exited "Runtime error: arithmetic requires numbers.".

(** [(double)integer], to the nearest, ties to even. *)
Definition double_of_int (x : Z) : binary64 := binary_normalize 53 1024 x 0 false.

(** Read after [require_number]. *)
Definition number_value (p : VntPointer) : helper binary64 :=
  match p with
  | Some (VNT_FLOAT d) => mret d
  | Some (VNT_INT x) => mret (double_of_int x)
  | _ => Crashed
  end.

Definition is_float (p : VntPointer) : bool :=
  match p with Some (VNT_FLOAT _) => true | _ => false end.

Definition integer_of (p : VntPointer) : helper Z :=
  match p with Some (VNT_INT x) => mret x | _ => Crashed end.

(** The common part of addition, subtraction and multiplication. *)
Definition arithmetic (on_floats : binary64 -> binary64 -> binary64) (on_integers : Z -> Z -> Z)
    (overflow : string) (a b : VntPointer) : helper VntPointer :=
  _ ← require_number a b;
  if is_float a || is_float b then
    x ← number_value a;
    y ← number_value b;
    mret (vnt_float (on_floats x y))
  else
    x ← integer_of a;
    y ← integer_of b;
    if in_int64 (on_integers x y) then mret (vnt_int (on_integers x y)) else Exited overflow.

Section printing.
(** The text of a double in the format %.15g. *)
Context (format_double : binary64 -> bytes).

(** [None] is the NULL of a value that has no text. *)
Definition value_to_concat_string (p : VntPointer) : option bytes :=
  match p with
  | None => Some (str "null")
  | Some (VNT_STRING s) => Some s
  | Some (VNT_INT x) => Some (print_Z x)
  | Some (VNT_FLOAT d) => Some (format_double d)
  | Some (VNT_BOOL b) => Some (str (if b then "true" else "false"))
  | _ => None
  end.

Definition is_string (p : VntPointer) : bool :=
  match p with Some (VNT_STRING _) => true | _ => false end.

Definition non_null (p : VntPointer) : bool := match p with Some _ => true | None => false end.

Definition vnt_add (a b : VntPointer) : helper VntPointer :=
  if non_null a && non_null b && (is_string a || is_string b) then
    match value_to_concat_string a, value_to_concat_string b with
    | Some x, Some y => mret (vnt_string (x ++ y))
    | _, _ => Exited "Runtime error: string concatenation supports strings, numbers, and booleans."
    end
  else
    arithmetic (SFadd 53 1024) Z.add "Runtime error: signed 64-bit integer overflow in addition." a b.

Definition vnt_sub : VntPointer -> VntPointer -> helper VntPointer :=
  arithmetic (SFsub 53 1024) Z.sub "Runtime error: signed 64-bit integer overflow in subtraction.".

Definition vnt_mul : VntPointer -> VntPointer -> helper VntPointer :=
  arithmetic (SFmul 53 1024) Z.mul "Runtime error: signed 64-bit integer overflow in multiplication.".

Definition vnt_div (a b : VntPointer) : helper VntPointer :=
  _ ← require_number a b;
  y ← number_value b;
  if SFeqb y (S754_zero false) then Exited "Runtime error: division by zero."
  else if is_float a || is_float b then
    x ← number_value a;
    mret (vnt_float (SFdiv 53 1024 x y))
  else
    x ← integer_of a;
    y ← integer_of b;
    if (x =? INT64_MIN)%Z && (y =? -1)%Z then Exited "Runtime error: integer overflow in division."
    else mret (vnt_int (Z.quot x y)).

Definition vnt_mod (a b : VntPointer) : helper VntPointer :=
  match a, b with
  | Some (VNT_INT x), Some (VNT_INT y) =>
      if (y =? 0)%Z then Exited "Runtime error: modulo by zero."
      else if (x =? INT64_MIN)%Z && (y =? -1)%Z then Exited "Runtime error: integer overflow in modulo."
      else mret (vnt_int (Z.rem x y))
  | _, _ => Exited "Runtime error: modulo requires integers."
  end.

Definition vnt_neg (a : VntPointer) : helper VntPointer :=
  _ ← require_number a a;
  match a with
  | Some (VNT_FLOAT d) => mret (vnt_float (SFopp d))
  | _ =>
      x ← integer_of a;
      if (x =? INT64_MIN)%Z then Exited "Runtime error: integer overflow in negation."
      else mret (vnt_int (- x))
  end.

(** * Comparison *)

Section heap.
(** The items of the arrays of the heap, and the data of its byte arrays. *)
Context (array_items : nat -> list VntPointer) (bytes_data : nat -> bytes).

(** Arrays are compared item by item; an array that contains itself makes the C
    function run on until its stack is used up, which is [Crashed] here when the
    budget is. *)
Fixpoint equal_value (fuel : nat) (a b : VntPointer) : helper bool :=
  match fuel, a, b with
  | O, _, _ | _, None, _ | _, _, None => Crashed
  | S fuel, Some a, Some b =>
      if decide (type_of a = type_of b) then
        match a, b with
        | VNT_NULL, VNT_NULL => mret true
        | VNT_INT x, VNT_INT y => mret (x =? y)%Z
        | VNT_FLOAT x, VNT_FLOAT y => mret (SFeqb x y)
        | VNT_BOOL x, VNT_BOOL y => mret (Bool.eqb x y)
        | VNT_STRING x, VNT_STRING y => mret (bytes_eqb x y)
        | VNT_BYTES x, VNT_BYTES y => mret (bytes_eqb (bytes_data x) (bytes_data y))
        | VNT_ARRAY x, VNT_ARRAY y =>
            if length (array_items x) =? length (array_items y) then
              (fix items (xs ys : list VntPointer) : helper bool :=
                match xs, ys with
                | x :: xs, y :: ys =>
                    same ← equal_value fuel x y;
                    if (same : bool) then items xs ys else mret false
                | _, _ => mret true
                end) (array_items x) (array_items y)
            else mret false
        | VNT_OBJECT x, VNT_OBJECT y | VNT_PROCESS x, VNT_PROCESS y => mret (x =? y)
        | _, _ => mret false
        end
      else if is_number (Some a) && is_number (Some b) then
        x ← number_value (Some a);
        y ← number_value (Some b);
        mret (SFeqb x y)
      else mret false
  end.

Context (fuel : nat).

Definition vnt_eq (a b : VntPointer) : helper VntPointer :=
  same ← equal_value fuel a b;
  mret (vnt_bool same).

Definition vnt_ne (a b : VntPointer) : helper VntPointer :=
  same ← equal_value fuel a b;
  mret (vnt_bool (negb same)).

(** [op] is 0, 1, 2 or 3 for >, <, >= and <=. *)
Definition order (a b : VntPointer) (op : nat) : helper bool :=
  _ ← require_number a b;
  match a, b with
  | Some (VNT_INT x), Some (VNT_INT y) =>
      mret (match op with 0 => (y <? x)%Z | 1 => (x <? y)%Z | 2 => (y <=? x)%Z | _ => (x <=? y)%Z end)
  | _, _ =>
      x ← number_value a;
      y ← number_value b;
      mret (match op with 0 => SFltb y x | 1 => SFltb x y | 2 => SFleb y x | _ => SFleb x y end)
  end.

Definition vnt_gt (a b : VntPointer) : helper VntPointer := r ← order a b 0; mret (vnt_bool r).
Definition vnt_lt (a b : VntPointer) : helper VntPointer := r ← order a b 1; mret (vnt_bool r).
Definition vnt_ge (a b : VntPointer) : helper VntPointer := r ← order a b 2; mret (vnt_bool r).
Definition vnt_le (a b : VntPointer) : helper VntPointer := r ← order a b 3; mret (vnt_bool r).

Definition vnt_not (a : VntPointer) : helper VntPointer :=
  match a with
  | Some (VNT_BOOL b) => mret (vnt_bool (negb b))
  | _ => Exited "Runtime error: '!' requires a boolean."
  end.

Definition vnt_truth (a : VntPointer) : helper bool :=
  match a with
  | Some (VNT_BOOL b) => mret b
  | _ => Exited "Runtime error: condition must be boolean."
  end.

(** The function that the back end calls for an operator; && and || are jumps. *)
Definition binary_helper (op : BinaryOperator) (a b : VntPointer) : helper VntPointer :=
  match op with
  | BINARY_ADD => vnt_add a b
  | BINARY_SUBTRACT => vnt_sub a b
  | BINARY_MULTIPLY => vnt_mul a b
  | BINARY_DIVIDE => vnt_div a b
  | BINARY_MODULO => vnt_mod a b
  | BINARY_EQUAL => vnt_eq a b
  | BINARY_NOT_EQUAL => vnt_ne a b
  | BINARY_GREATER => vnt_gt a b
  | BINARY_LESS => vnt_lt a b
  | BINARY_GREATER_EQUAL => vnt_ge a b
  | BINARY_LESS_EQUAL => vnt_le a b
  | BINARY_AND | BINARY_OR => Crashed
  end.
End heap.
End printing.
