(* ===== verification/RuntimeFacts.v ===== *)
(** RuntimeFacts: what is folded at compile time is what the functions of the
    runtime return, and nothing that they return is missed except doubles that are
    not finite. *)

From S2P Require Import Prelude Clib Ast IrOptimize Runtime.
From Stdlib Require Import SpecFloat.

(** * The double of an integer *)

Lemma iter_shr_1 p : forall r, (0 <= shr_m r)%Z ->
  shr_m (iter_pos shr_1 p r) = (shr_m r / 2 ^ Z.pos p)%Z.
Proof.
  assert (forall r, (0 <= shr_m r)%Z -> shr_m (shr_1 r) = (shr_m r / 2)%Z) as step.
  { intros [m r s] Hm. destruct m as [|[m|m|]|]; cbn in *; try done; try lia.
    - change (Z.pos m~1) with (2 * Z.pos m + 1)%Z. apply Z.div_unique with 1%Z; lia.
    - change (Z.pos m~0) with (2 * Z.pos m)%Z. apply Z.div_unique with 0%Z; lia. }
  assert (forall a b, (0 <= a)%Z -> (0 < b)%Z -> (0 <= a / b)%Z) as pos by (intros; by apply Z.div_pos).
  induction p as [p IH|p IH|]; intros r Hr; cbn [iter_pos]; [| |by rewrite step].
  - pose proof (step r Hr) as E1. pose proof (pos (shr_m r) 2%Z Hr ltac:(lia)) as P1. rewrite <- E1 in P1.
    pose proof (IH _ P1) as E2. pose proof (pos _ (2 ^ Z.pos p)%Z P1 ltac:(lia)) as P2. rewrite <- E2 in P2.
    rewrite (IH _ P2), E2, E1, !Z.div_div by lia. f_equal.
    change (Z.pos p~1) with (2 * Z.pos p + 1)%Z. rewrite Z.pow_add_r, Z.pow_mul_r by lia.
    change (2 ^ 2)%Z with (2 * 2)%Z. rewrite Z.pow_mul_l. lia.
  - pose proof (IH _ Hr) as E1. pose proof (pos _ (2 ^ Z.pos p)%Z Hr ltac:(lia)) as P1. rewrite <- E1 in P1.
    rewrite (IH _ P1), E1, Z.div_div by lia. f_equal. change (Z.pos p~0) with (2 * Z.pos p)%Z.
    rewrite Z.pow_mul_r by lia. change (2 ^ 2)%Z with (2 * 2)%Z. by rewrite Z.pow_mul_l.
Qed.

Lemma digits_low p : (2 ^ (Z.pos (digits2_pos p) - 1) <= Z.pos p)%Z.
Proof.
  induction p as [p IH|p IH|]; cbn [digits2_pos]; [| |done].
  all: replace (Z.pos (Pos.succ (digits2_pos p)) - 1)%Z with (1 + (Z.pos (digits2_pos p) - 1))%Z by lia.
  all: rewrite Z.pow_add_r by lia; lia.
Qed.

Definition emin64 : Z := -1074.

Lemma shr_fexp_pos m e l : (0 < m)%Z -> (emin64 <= e)%Z ->
  (0 < shr_m (shr_fexp 53 1024 m e l).1)%Z /\ (emin64 <= (shr_fexp 53 1024 m e l).2)%Z.
Proof.
  intros Hm He. destruct m as [|p|]; try lia. unfold shr_fexp.
  assert (forall r, shr_m (shr_record_of_loc r l) = r) as Hrec by (intros r; by destruct l as [|[]]).
  set (n := (fexp 53 1024 (Zdigits2 (Z.pos p) + e) - e)%Z). unfold shr.
  destruct n as [|k|k] eqn:En; cbn [fst snd]; rewrite ?Hrec; [lia| |lia].
  split; [|unfold emin64 in *; lia]. rewrite iter_shr_1, Hrec by (rewrite Hrec; lia).
  apply Z.div_str_pos. split; [lia|]. unfold fexp, SpecFloat.emin in n. cbn [Zdigits2] in n.
  pose proof (digits_low p) as Hd. etrans; [|exact Hd]. apply Z.pow_le_mono_r; [lia|].
  unfold emin64 in He. lia.
Qed.

Lemma round_even_pos m l : (0 < m)%Z -> (0 < round_nearest_even m l)%Z.
Proof. intros H. destruct l as [|[]]; cbn; try destruct (Z.even m); lia. Qed.

Lemma double_of_int_zero x : SFeqb (double_of_int x) (S754_zero false) = (x =? 0)%Z.
Proof.
  destruct (Z.eqb_spec x 0) as [->|Hx]; [done|].
  assert (forall s p, SFeqb (binary_round 53 1024 s p 0) (S754_zero false) = false) as H.
  { intros s p. unfold binary_round.
    set (e := fexp 53 1024 _). assert (emin64 <= (shl_align p 0 e).2)%Z as He.
    { unfold shl_align. destruct (e - 0)%Z eqn:E; cbn; unfold emin64; try lia.
      unfold e, fexp, SpecFloat.emin in *. lia. }
    destruct (shl_align p 0 e) as [mz ez]. cbn [snd] in He. unfold binary_round_aux.
    destruct (shr_fexp_pos (Z.pos mz) ez loc_Exact ltac:(lia) He) as [H1 H2].
    destruct (shr_fexp 53 1024 (Z.pos mz) ez loc_Exact) as [r1 e1]. cbn [fst snd] in *.
    pose proof (round_even_pos _ (loc_of_shr_record r1) H1) as H3.
    destruct (shr_fexp_pos _ e1 loc_Exact H3 H2) as [H4 _].
    destruct (shr_fexp 53 1024 _ e1 loc_Exact) as [r2 e2]. cbn [fst] in H4.
    destruct (shr_m r2); [lia| |lia]. by destruct (e2 <=? _)%Z, s. }
  unfold double_of_int, binary_normalize. destruct x; [done|apply H|apply H].
Qed.

(** * Folding *)

(** A literal at run time. *)
Definition boxed (c : HirConstant) : VntPointer :=
  match c with
  | CONST_INTEGER x => vnt_int x
  | CONST_BOOLEAN b => vnt_bool b
  | CONST_FLOAT d => vnt_float d
  end.

Definition same_kind (a b : HirConstant) : bool :=
  match a, b with
  | CONST_INTEGER _, CONST_INTEGER _ | CONST_BOOLEAN _, CONST_BOOLEAN _ | CONST_FLOAT _, CONST_FLOAT _ => true
  | _, _ => false
  end.

(** The results that are not folded: an error exit, or a double that is not finite. *)
Definition not_constant (r : helper VntPointer) : Prop :=
  (exists message, r = Exited message) \/ (exists d, r = Returned (vnt_float d) /\ isfinite d = false).

Definition logical (op : BinaryOperator) : bool :=
  match op with BINARY_AND | BINARY_OR => true | _ => false end.

Section agree.
Context (format_double : binary64 -> bytes) (array_items : nat -> list VntPointer).
Context (bytes_data : nat -> bytes) (fuel : nat).

Notation call := (binary_helper format_double array_items bytes_data (S fuel)).

Definition agrees (o : option HirConstant) (r : helper VntPointer) : Prop :=
  match o with
  | Some c => r = Returned (boxed c)
  | None => not_constant r
  end.

Lemma exited_not_constant message : not_constant (Exited message).
Proof. left. by eexists. Qed.

Lemma finite_agrees d : agrees (finite d) (Returned (vnt_float d)).
Proof. unfold finite. destruct (isfinite d) eqn:E; [done|]. right. by exists d. Qed.

Lemma overflow_agrees z message :
  agrees (no_overflow z) (if in_int64 z then Returned (vnt_int z) else Exited message).
Proof. unfold no_overflow. destruct (in_int64 z); [done|apply exited_not_constant]. Qed.

Lemma fold_integers_agrees op x y : logical op = false ->
  agrees (fold_integers op x y) (call op (vnt_int x) (vnt_int y)).
Proof.
  intros Hop. destruct op; try done; cbn; try apply overflow_agrees.
  - rewrite double_of_int_zero.
    destruct (y =? 0)%Z, ((x =? INT64_MIN)%Z && (y =? -1)%Z); done || apply exited_not_constant.
  - destruct (y =? 0)%Z, ((x =? INT64_MIN)%Z && (y =? -1)%Z); done || apply exited_not_constant.
Qed.

Lemma fold_booleans_agrees op x y : logical op = false ->
  agrees (fold_booleans op x y) (call op (vnt_bool x) (vnt_bool y)).
Proof. intros Hop. destruct op; try done; by apply exited_not_constant. Qed.

Lemma fold_floats_agrees op x y : logical op = false ->
  agrees (fold_floats op x y) (call op (vnt_float x) (vnt_float y)).
Proof.
  intros Hop. destruct op; try done; try apply finite_agrees; try apply exited_not_constant.
  cbn. destruct (SFeqb y (S754_zero false)); [apply exited_not_constant|apply finite_agrees].
Qed.

Lemma fold_binary_agrees op a b : logical op = false -> same_kind a b = true ->
  agrees (fold_binary op a b) (call op (boxed a) (boxed b)).
Proof.
  intros Hop Hk. destruct a, b; try done.
  - by apply fold_integers_agrees.
  - by apply fold_booleans_agrees.
  - by apply fold_floats_agrees.
Qed.

Lemma fold_binary_kind op a b c : fold_binary op a b = Some c -> same_kind a b = true.
Proof. by destruct a, b. Qed.

(** The operators with one operand. *)
Definition unary_helper (op : UnaryOperator) (a : VntPointer) : helper VntPointer :=
  match op with
  | UNARY_NOT => vnt_not a
  | UNARY_NEGATE => vnt_neg a
  | _ => Crashed
  end.

Lemma fold_unary_returns op a c : fold_unary op a = Some c -> unary_helper op (boxed a) = Returned (boxed c).
Proof.
  destruct op, a; try done; cbn.
  - by intros [= <-].
  - destruct (_ =? _)%Z; [done|]. by intros [= <-].
  - unfold finite. destruct (isfinite _); [|done]. by intros [= <-].
Qed.
End agree.
