(* ===== verification/HirSemantics.v ===== *)
(** HirSemantics: a meaning of HIR programs, the specification that the optimizer
    is proved against: the operands of a node are evaluated from left to right and
    given to the function of the runtime that the back end (x86_backend.c) calls
    for it. What the optimizer does not look into (arrays, objects, output, the
    functions of the library, inline assembly, the frames of calls) is an
    interface, the class [Machine]. *)

From S2P Require Import Prelude Clib Ast Ir IrTrees IrAccess IrOptimize IrPasses Runtime RuntimeFacts.

(** * Runs *)

(** How a piece of code ends: it goes on with a value, it ends the process with a
    message, it reads or jumps where it must not, or it is not done within the
    budget of the definitions below. *)
Inductive run (M A : Type) : Type :=
  | Goes (a : A) (s : M)
  | Halts (message : string) (s : M)
  | Crashes
  | Unfinished.
Arguments Goes {M A} _ _.
Arguments Halts {M A} _ _.
Arguments Crashes {M A}.
Arguments Unfinished {M A}.

Definition Exec (M A : Type) : Type := M -> run M A.

#[export] Instance Exec_ret {M} : MRet (Exec M) := fun A a s => Goes a s.
#[export] Instance Exec_bind {M} : MBind (Exec M) := fun A B k m s =>
  match m s with
  | Goes a s' => k a s'
  | Halts message s' => Halts message s'
  | Crashes => Crashes
  | Unfinished => Unfinished
  end.

Definition crash {M A} : Exec M A := fun _ => Crashes.
Definition unfinished {M A} : Exec M A := fun _ => Unfinished.
Definition reads {M A} (f : M -> A) : Exec M A := fun s => Goes (f s) s.
Definition writes {M} (f : M -> M) : Exec M unit := fun s => Goes tt (f s).

(** A call of a function of the runtime that does not change the state. *)
Definition calls {M A} (f : M -> helper A) : Exec M A := fun s =>
  match f s with
  | Returned a => Goes a s
  | Exited message => Halts message s
  | Crashed => Crashes
  end.

(** * The machine *)

Class Machine (M : Type) := {
  variable : bytes -> M -> VntPointer;
  set_variable : bytes -> VntPointer -> M -> M;
  array_items : M -> nat -> list VntPointer;
  bytes_data : M -> nat -> bytes;
  comparison_depth : M -> nat;
  format_double : binary64 -> bytes;
  (* strings, arrays, items and members *)
  expression_helper : VntIrOpcode -> bytes -> list VntPointer -> Exec M VntPointer;
  reference : bytes -> Exec M VntPointer;
  dereference : VntPointer -> Exec M VntPointer;
  (* assignments to items, members and through references *)
  store_helper : VntIrOpcode -> bytes -> list VntPointer -> VntPointer -> Exec M unit;
  print_helper : VntPointer -> Exec M unit;
  inline_asm : bytes -> Exec M unit;
  is_builtin : bytes -> bool;
  builtin_call : bytes -> list VntPointer -> Exec M VntPointer;
  enter : list bytes -> list VntPointer -> M -> M;
  leave : M -> M -> M
}.

(** Only assignments, calls and inline assembly change variables. *)
Class MachineLaws (M : Type) `{Machine M} := {
  variable_set x y v s : variable x (set_variable y v s) = if decide (x = y) then v else variable x s;
  expression_keeps op text vs s v s' x :
    expression_helper op text vs s = Goes v s' -> variable x s' = variable x s;
  reference_keeps text s v s' x : reference text s = Goes v s' -> variable x s' = variable x s;
  dereference_keeps p s v s' x : dereference p s = Goes v s' -> variable x s' = variable x s;
  print_keeps p s u s' x : print_helper p s = Goes u s' -> variable x s' = variable x s
}.

Section semantics.
Context {M : Type} `{Machine M}.

Definition run_binary (op : BinaryOperator) (a b : VntPointer) : Exec M VntPointer :=
  calls (fun s => binary_helper format_double (array_items s) (bytes_data s)
                    (S (comparison_depth s)) op a b).

Definition run_unary (op : UnaryOperator) (a : VntPointer) : Exec M VntPointer :=
  match op with
  | UNARY_DEREFERENCE => dereference a
  | _ => calls (fun _ => unary_helper op a)
  end.

Definition truth (a : VntPointer) : Exec M bool := calls (fun _ => vnt_truth a).

(** && and ||. *)
Definition run_logical (op : BinaryOperator) (a b : Exec M VntPointer) : Exec M VntPointer :=
  x ← a;
  x ← truth x;
  if Bool.eqb x (match op with BINARY_AND => false | _ => true end) then mret (vnt_bool x)
  else
    y ← b;
    y ← truth y;
    mret (vnt_bool y).

Fixpoint in_turn (ms : list (Exec M VntPointer)) : Exec M (list VntPointer) :=
  match ms with
  | [] => mret []
  | m :: ms =>
      v ← m;
      vs ← in_turn ms;
      mret (v :: vs)
  end.

(** The variable that & is applied to. *)
Definition variable_name (h : hir) : option bytes :=
  match l_opcode (hir_label h) with
  | VNT_IR_VARIABLE => Some (text_of (hir_label h))
  | _ => None
  end.

(** The call of a function, with its name and its arguments. *)
Section body.
Context (call : bytes -> list VntPointer -> Exec M VntPointer).

(** A node whose operands are evaluated first. *)
Definition apply (l : Label) (vs : list VntPointer) : Exec M VntPointer :=
  match l_opcode l with
  | VNT_IR_INTEGER | VNT_IR_BOOLEAN | VNT_IR_FLOAT =>
      match label_constant l with
      | Some c => mret (boxed c)
      | None => crash
      end
  | VNT_IR_NULL => mret None
  | VNT_IR_VARIABLE => reads (variable (text_of l))
  | VNT_IR_STRING | VNT_IR_ARRAY | VNT_IR_INDEX | VNT_IR_MEMBER =>
      expression_helper (l_opcode l) (text_of l) vs
  | VNT_IR_UNARY =>
      match unary_of_int (l_operation l), vs with
      | Some op, [v] => run_unary op v
      | _, _ => crash
      end
  | VNT_IR_BINARY =>
      match binary_of_int (l_operation l), vs with
      | Some op, [x; y] => run_binary op x y
      | _, _ => crash
      end
  | VNT_IR_CALL => call (text_of l) vs
  | _ => crash
  end.

(** Statements have no value. *)
Definition is_expression (op : VntIrOpcode) : bool :=
  match op with
  | VNT_IR_CALL | VNT_IR_STRING | VNT_IR_INTEGER | VNT_IR_FLOAT | VNT_IR_BOOLEAN | VNT_IR_NULL
  | VNT_IR_ARRAY | VNT_IR_VARIABLE | VNT_IR_INDEX | VNT_IR_MEMBER | VNT_IR_BINARY | VNT_IR_UNARY => true
  | _ => false
  end.

Fixpoint eval (h : hir) : Exec M VntPointer :=
  match h with
  | Hir l hs =>
      let operands := map eval hs in
      if negb (is_expression (l_opcode l)) then crash
      else match l_opcode l, operands with
      | VNT_IR_BINARY, [a; b] =>
          match binary_of_int (l_operation l) with
          | Some op => if logical op then run_logical op a b
                       else vs ← in_turn operands; apply l vs
          | None => crash
          end
      | VNT_IR_UNARY, _ =>
          if is_reference l then
            match hs with
            | [v] => match variable_name v with
                     | Some name => reference name
                     | None => crash
                     end
            | _ => crash
            end
          else vs ← in_turn operands; apply l vs
      | _, _ => vs ← in_turn operands; apply l vs
      end
  end.

(** How statements end. *)
Inductive completion : Type :=
  | Normal
  | Broke
  | Continued
  | Left_with (v : VntPointer).

Fixpoint sequence (ms : list (Exec M completion)) : Exec M completion :=
  match ms with
  | [] => mret Normal
  | m :: ms =>
      c ← m;
      match c with
      | Normal => sequence ms
      | _ => mret c
      end
  end.

(** At most [n] iterations. *)
Fixpoint while_loop (n : nat) (condition : Exec M bool) (body : Exec M completion) : Exec M completion :=
  b ← condition;
  if (b : bool) then
    match n with
    | O => unfinished
    | S n =>
        c ← body;
        match c with
        | Normal | Continued => while_loop n condition body
        | Broke => mret Normal
        | Left_with v => mret (Left_with v)
        end
    end
  else mret Normal.

(** An assignment to what [target] denotes. *)
Definition assign (target : hir) (value : Exec M VntPointer) : Exec M unit :=
  match target with
  | Hir l hs =>
      let operands := map eval hs in
      let store :=
        vs ← in_turn operands;
        v ← value;
        store_helper (l_opcode l) (text_of l) vs v in
      match l_opcode l with
      | VNT_IR_VARIABLE =>
          v ← value;
          writes (set_variable (text_of l) v)
      | VNT_IR_INDEX | VNT_IR_MEMBER => store
      | VNT_IR_UNARY =>
          if bool_decide (unary_of_int (l_operation l) = Some UNARY_DEREFERENCE) then store else crash
      | _ => crash
      end
  end.

(** The children in one role. *)
Definition in_edge {A} (r : VntIrEdgeRole) (ms : list (VntIrEdgeRole * A)) : list A :=
  map snd (filter (fun m => m.1 = r) ms).

Fixpoint exec (loops : nat) (h : hir) : Exec M completion :=
  match h with
  | Hir l hs =>
      let statements r :=
        sequence (in_edge r (map (fun h => (l_role (hir_label h), exec loops h)) hs)) in
      match l_opcode l, hs with
      | VNT_IR_PROGRAM, _ => statements VNT_IR_EDGE_STATEMENT
      | VNT_IR_PRINT, [e] =>
          v ← eval e;
          _ ← print_helper v;
          mret Normal
      | (VNT_IR_VARIABLE_DECL | VNT_IR_REASSIGN), [e] =>
          v ← eval e;
          _ ← writes (set_variable (text_of l) v);
          mret Normal
      | VNT_IR_ASSIGN, [target; e] =>
          _ ← assign target (eval e);
          mret Normal
      | VNT_IR_IF, c :: _ =>
          v ← eval c;
          b ← truth v;
          statements (if (b : bool) then VNT_IR_EDGE_THEN else VNT_IR_EDGE_ELSE)
      | VNT_IR_WHILE, c :: _ =>
          while_loop loops (v ← eval c; truth v) (statements VNT_IR_EDGE_BODY)
      | VNT_IR_BREAK, _ => mret Broke
      | VNT_IR_CONTINUE, _ => mret Continued
      | VNT_IR_RETURN, [] => mret (Left_with None)
      | VNT_IR_RETURN, [e] =>
          v ← eval e;
          mret (Left_with v)
      | VNT_IR_CALL, _ =>
          _ ← eval h;
          mret Normal
      | VNT_IR_ASM, _ =>
          _ ← inline_asm (text_of l);
          mret Normal
      | (VNT_IR_FUNCTION | VNT_IR_STRUCT), _ => mret Normal
      | _, _ => crash
      end
  end.

(** The statements of the body of a function. *)
Definition exec_body (loops : nat) (hs : list hir) : Exec M completion :=
  sequence (in_edge VNT_IR_EDGE_BODY (map (fun h => (l_role (hir_label h), exec loops h)) hs)).
End body.

(** ** Programs *)

Definition is_function (name : bytes) (h : hir) : bool :=
  match l_opcode (hir_label h) with
  | VNT_IR_FUNCTION => bytes_eqb (text_of (hir_label h)) name
  | _ => false
  end.

(** The functions of a program are the declarations among its statements. *)
Definition find_function (h : hir) (name : bytes) : option hir :=
  find (is_function name) (hir_children h).

Definition run_function (call : bytes -> list VntPointer -> Exec M VntPointer) (loops : nat)
    (f : hir) (vs : list VntPointer) : Exec M VntPointer :=
  before ← reads id;
  _ ← writes (enter (l_names (hir_label f)) vs);
  c ← exec_body call loops (hir_children f);
  match c with
  | Normal => _ ← writes (leave before); mret None
  | Left_with v => _ ← writes (leave before); mret v
  | _ => crash
  end.

(** Calls, at most [n] deep. *)
Fixpoint program_call (program : hir) (n : nat) (name : bytes) (vs : list VntPointer)
    : Exec M VntPointer :=
  if is_builtin name then builtin_call name vs
  else
    match find_function program name with
    | None => crash
    | Some f =>
        match n with
        | O => unfinished
        | S n => run_function (program_call program n) n f vs
        end
    end.

(** A program, with at most [n] calls inside of each other and [n] iterations of
    every loop. *)
Definition run_program (n : nat) (program : hir) : Exec M completion :=
  exec (program_call program n) n program.
End semantics.
