(* ===== verification/HirFolding.v ===== *)
(** HirFolding: folding constants keeps the meaning of programs.
    The first part: programs with the same meaning. Runs are compared from every
    state, and nodes by all they can be used for: as an expression, as a statement,
    as the target of an assignment and as the operand of &. *)

From Stdlib Require Import Setoid Morphisms.
From S2P Require Import Prelude Clib Ast Ir IrTrees IrAccess IrOptimize IrPasses IrPassesFacts.
From S2P Require Import Runtime RuntimeFacts HirSemantics.

(** * Runs *)

Section runs.
Context {M : Type}.

Definition same {A} (m' m : Exec M A) : Prop := forall s, m' s = m s.

#[global] Instance same_equivalence {A} : Equivalence (@same A).
Proof. split; [by intros m s|by intros m1 m2 H s|]. intros m1 m2 m3 H1 H2 s. by rewrite H1. Qed.

#[global] Instance bind_same {A B} :
  Proper (pointwise_relation A same ==> same ==> same) (mbind (M := Exec M) (A := A) (B := B)).
Proof.
  intros k' k Hk m' m Hm s. unfold mbind, Exec_bind. rewrite Hm. destruct (m s); try done. apply Hk.
Qed.

(** A run followed by runs that are the same on the results it can have. *)
Lemma bind_same_on {A B} (m' m : Exec M A) (k' k : A -> Exec M B) s :
  m' s = m s -> (forall a s', m s = Goes a s' -> k' a s' = k a s') ->
  mbind (M := Exec M) k' m' s = mbind (M := Exec M) k m s.
Proof.
  intros Hm Hk. unfold mbind, Exec_bind. rewrite Hm. destruct (m s) as [a s'| | |] eqn:E; try done. by apply Hk.
Qed.

Lemma bind_goes {A B} (m : Exec M A) (k : A -> Exec M B) s a s' :
  m s = Goes a s' -> mbind (M := Exec M) k m s = k a s'.
Proof. intros E. unfold mbind, Exec_bind. by rewrite E. Qed.

Lemma bind_goes_inv {A B} (m : Exec M A) (k : A -> Exec M B) s b s' :
  mbind (M := Exec M) k m s = Goes b s' -> exists a s1, m s = Goes a s1 /\ k a s1 = Goes b s'.
Proof. unfold mbind, Exec_bind. destruct (m s) as [a s1| | |]; try done. intros E. by exists a, s1. Qed.
End runs.

Section programs.
Context {M : Type} `{Machine M}.

#[global] Instance in_turn_same : Proper (Forall2 same ==> same) (in_turn (M := M)).
Proof.
  intros ms' ms. induction 1 as [|m' m ms' ms Hm _ IH]; [done|]. cbn.
  apply bind_same; [|done]. intros v. by apply bind_same; [|done].
Qed.

#[global] Instance sequence_same : Proper (Forall2 same ==> same) (sequence (M := M)).
Proof.
  intros ms' ms. induction 1 as [|m' m ms' ms Hm _ IH]; [done|]. cbn.
  apply bind_same; [|done]. by intros [].
Qed.

#[global] Instance while_loop_same n : Proper (same ==> same ==> same) (while_loop (M := M) n).
Proof.
  intros c' c Hc b' b Hb. induction n as [|n IH]; cbn; (apply bind_same; [|done]); intros []; try done.
  apply bind_same; [|done]. intros []; done.
Qed.

Lemma run_logical_same op (a' a b' b : Exec M VntPointer) : same a' a -> same b' b ->
  same (run_logical op a' b') (run_logical op a b).
Proof.
  intros Ha Hb. unfold run_logical. apply bind_same; [|done]. intros x. apply bind_same; [|done].
  intros y. destruct (Bool.eqb _ _); [done|]. by apply bind_same.
Qed.

Lemma in_edge_same {A} (R : A -> A -> Prop) r ms' ms :
  Forall2 (fun p' p => p'.1 = p.1 /\ R p'.2 p.2) ms' ms -> Forall2 R (in_edge r ms') (in_edge r ms).
Proof.
  unfold in_edge. induction 1 as [|p' p ms' ms [E Hp] _ IH]; [constructor|]. rewrite !filter_cons, E.
  destruct (decide _); [by constructor|done].
Qed.

(** * Nodes *)

Definition same_calls (call' call : bytes -> list VntPointer -> Exec M VntPointer) : Prop :=
  forall name vs, same (call' name vs) (call name vs).

Section nodes.
Context (call' call : bytes -> list VntPointer -> Exec M VntPointer) (loops : nat).

Record same_node (h' h : hir) : Prop := {
  sn_role : l_role (hir_label h') = l_role (hir_label h);
  sn_name : variable_name h' = variable_name h;
  sn_eval : same (eval call' h') (eval call h);
  sn_assign : forall value' value, same value' value -> same (assign call' h' value') (assign call h value);
  sn_exec : same (exec call' loops h') (exec call loops h)
}.

Hypothesis Hcalls : same_calls call' call.

Lemma apply_same l vs : same (apply call' l vs) (apply call l vs).
Proof. unfold apply. by destruct (l_opcode l). Qed.

Lemma evals_same hs' hs : Forall2 same_node hs' hs -> Forall2 same (map (eval call') hs') (map (eval call) hs).
Proof. induction 1 as [|h' h hs' hs Hh _ IH]; [done|]. constructor; [apply Hh|done]. Qed.

Lemma operands_apply_same hs' hs l : Forall2 same_node hs' hs ->
  same (vs ← in_turn (map (eval call') hs'); apply call' l vs) (vs ← in_turn (map (eval call) hs); apply call l vs).
Proof.
  intros Hhs. apply bind_same; [intros vs; apply apply_same|]. by apply in_turn_same, evals_same.
Qed.

Lemma eval_same l hs' hs : Forall2 same_node hs' hs -> same (eval call' (Hir l hs')) (eval call (Hir l hs)).
Proof.
  intros Hhs. pose proof (operands_apply_same hs' hs l Hhs) as Hops. cbn [eval].
  destruct (is_expression _); cbn [negb]; [|done]. destruct (l_opcode l); try exact Hops.
  - destruct Hhs as [|a' a ? ? Ha [|b' b ? ? Hb [|]]]; try exact Hops. cbn [map].
    destruct (binary_of_int _) as [op|]; [|done]. destruct (logical op); [|exact Hops].
    apply run_logical_same; [apply Ha|apply Hb].
  - destruct (is_reference l); [|exact Hops].
    destruct Hhs as [|a' a ? ? Ha [|]]; try done. by rewrite (sn_name _ _ Ha).
Qed.

Lemma assign_same l hs' hs value' value : Forall2 same_node hs' hs -> same value' value ->
  same (assign call' (Hir l hs') value') (assign call (Hir l hs) value).
Proof.
  intros Hhs Hv. cbn [assign].
  assert (same (vs ← in_turn (map (eval call') hs'); v ← value'; store_helper (l_opcode l) (text_of l) vs v)
               (vs ← in_turn (map (eval call) hs); v ← value; store_helper (l_opcode l) (text_of l) vs v)) as Hs.
  { apply bind_same; [|by apply in_turn_same, evals_same]. intros vs. by apply bind_same. }
  destruct (l_opcode l); try done; try exact Hs; [by apply bind_same|by destruct (bool_decide _)].
Qed.

Definition statements_of (call : bytes -> list VntPointer -> Exec M VntPointer) (loops : nat)
    (hs : list hir) (r : VntIrEdgeRole) : Exec M completion :=
  sequence (in_edge r (map (fun h => (l_role (hir_label h), exec call loops h)) hs)).

Lemma statements_same hs' hs r : Forall2 same_node hs' hs ->
  same (statements_of call' loops hs' r) (statements_of call loops hs r).
Proof.
  intros Hhs. apply sequence_same, in_edge_same. induction Hhs as [|h' h hs' hs Hh _ IH]; [done|].
  constructor; [split; apply Hh|done].
Qed.

Lemma exec_same l hs' hs : Forall2 same_node hs' hs ->
  same (exec call' loops (Hir l hs')) (exec call loops (Hir l hs)).
Proof.
  intros Hhs. pose proof (fun r => statements_same hs' hs r Hhs) as Hst. unfold statements_of in Hst.
  pose proof (eval_same l hs' hs Hhs) as Heval. cbn [exec]. destruct (l_opcode l); try done.
  - destruct Hhs as [|e' e ? ? He [|]]; try done. by apply bind_same; [|apply He].
  - destruct Hhs as [|c' c ? ? Hc ?]; [done|]. apply bind_same; [|apply Hc]. intros v.
    apply bind_same; [|done]. intros b. apply Hst.
  - destruct Hhs as [|c' c ? ? Hc ?]; [done|]. apply while_loop_same; [|apply Hst].
    by apply bind_same; [|apply Hc].
  - by apply bind_same; [|apply Heval].
  - destruct Hhs as [|e' e ? ? He [|]]; try done. by apply bind_same; [|apply He].
  - destruct Hhs as [|e' e ? ? He [|]]; try done. by apply bind_same; [|apply He].
  - destruct Hhs as [|t' t ? ? Ht [|e' e ? ? He [|]]]; try done. apply bind_same; [done|].
    apply Ht, He.
  - destruct Hhs as [|e' e ? ? He [|]]; try done. by apply bind_same; [|apply He].
Qed.

Lemma same_node_children l hs' hs : Forall2 same_node hs' hs -> same_node (Hir l hs') (Hir l hs).
Proof.
  intros Hhs. split; [done|done|by apply eval_same|intros; by apply assign_same|by apply exec_same].
Qed.
End nodes.

Lemma same_node_refl call' call loops h : same_calls call' call -> same_node call' call loops h h.
Proof.
  intros Hc. induction h as [l hs IH] using hir_ind. apply same_node_children; [done|].
  induction IH; by constructor.
Qed.

Lemma same_calls_refl call : same_calls call call.
Proof. done. Qed.

Lemma same_node_trans call' call loops h1 h2 h3 :
  same_node call' call' loops h1 h2 -> same_node call' call loops h2 h3 -> same_node call' call loops h1 h3.
Proof.
  intros [R1 N1 E1 A1 X1] [R2 N2 E2 A2 X2]. split; try (etrans; eassumption).
  intros value' value Hv. etrans; [by apply A1|by apply A2].
Qed.

(** * Programs *)

Record same_function (f' f : hir) : Prop := {
  sf_names : l_names (hir_label f') = l_names (hir_label f);
  sf_body call' call loops : same_calls call' call ->
    same (exec_body call' loops (hir_children f')) (exec_body call loops (hir_children f))
}.

Record same_program (h' h : hir) : Prop := {
  sp_functions name : option_Forall2 same_function (find_function h' name) (find_function h name);
  sp_exec call' call loops : same_calls call' call -> same (exec call' loops h') (exec call loops h)
}.

Lemma run_function_same call' call loops f' f vs : same_calls call' call -> same_function f' f ->
  same (run_function call' loops f' vs) (run_function call loops f vs).
Proof.
  intros Hc [Hn Hb]. unfold run_function. rewrite Hn. apply bind_same; [|done]. intros before.
  apply bind_same; [|done]. intros u. apply bind_same; [|by apply Hb]. by intros [].
Qed.

Lemma program_call_same h' h n : same_program h' h ->
  same_calls (program_call h' n) (program_call h n).
Proof.
  intros [Hf _]. induction n as [|n IH]; intros name vs; cbn [program_call];
    (destruct (is_builtin name); [done|]); destruct (Hf name) as [f' f Hff|]; try done.
  by apply run_function_same.
Qed.

Lemma same_program_run h' h n : same_program h' h -> same (run_program n h') (run_program n h).
Proof. intros Hp. apply Hp. by apply program_call_same. Qed.

(** Functions are found at the same place. *)
Lemma find_same hs' hs name :
  Forall2 (fun f' f => is_function name f' = is_function name f /\
                       (is_function name f = true -> same_function f' f)) hs' hs ->
  option_Forall2 same_function (find (is_function name) hs') (find (is_function name) hs).
Proof.
  induction 1 as [|f' f hs' hs [E Hf] _ IH]; [constructor|]. cbn. rewrite E.
  destruct (is_function name f); [constructor; by apply Hf|done].
Qed.

Lemma body_same call' call loops hs' hs : Forall2 (same_node call' call loops) hs' hs ->
  same (exec_body call' loops hs') (exec_body call loops hs).
Proof. intros Hhs. exact (statements_same call' call loops hs' hs VNT_IR_EDGE_BODY Hhs). Qed.
End programs.

(** The results of a pass over siblings. *)
Lemma visit_related {A} (f : hir -> A -> hir * A) (R : hir -> hir -> Prop) hs :
  Forall (fun h => forall a, R (f h a).1 h) hs -> forall a, Forall2 R (visit f hs a).1 hs.
Proof.
  induction 1 as [|h hs Hh _ IH]; intros a; [constructor|]. rewrite visit_cons. constructor; [apply Hh|apply IH].
Qed.

Section folding.
Context {M : Type} `{Machine M}.
Context (call' call : bytes -> list VntPointer -> Exec M VntPointer) (loops : nat).

Lemma eval_constant f l c : label_constant l = Some c -> eval (M := M) f (Hir l []) = mret (boxed c).
Proof. intros E. cbn. unfold apply. rewrite E. unfold label_constant in E. by destruct (l_opcode l). Qed.

(** A literal has no children. *)
Lemma literal_shape h c : good h -> constant_of h = Some c -> exists l, h = Hir l [] /\ label_constant l = Some c.
Proof.
  destruct h as [l hs]. intros (_ & _ & Hr & _)%good_node E. exists l. split; [|done]. f_equal.
  unfold constant_of, label_constant in E. cbn in E. apply (map_eq_nil (fun h => l_role (hir_label h))).
  by destruct (l_opcode l).
Qed.

Lemma eval_literal h c f : good h -> constant_of h = Some c -> eval (M := M) f h = mret (boxed c).
Proof. intros Hg E. destruct (literal_shape h c Hg E) as (l & -> & El). by apply eval_constant. Qed.

Lemma label_constant_label c l : label_constant (constant_label c l) = Some c.
Proof. by destruct c. Qed.

(** A node whose value is a constant, and that is used for nothing but its value. *)
Lemma literal_same c l hs :
  l_opcode l = VNT_IR_BINARY \/
    l_opcode l = VNT_IR_UNARY /\ unary_of_int (l_operation l) <> Some UNARY_DEREFERENCE ->
  same (eval call (Hir l hs)) (mret (boxed c)) -> same_node call' call loops (literal c l) (Hir l hs).
Proof.
  intros Hop E. unfold literal. split.
  - done.
  - unfold variable_name. cbn. by destruct c; destruct Hop as [-> | [-> _]].
  - intros s. rewrite E, (eval_constant _ _ c); [done|apply label_constant_label].
  - intros value' value _ s. cbn [assign].
    destruct Hop as [-> | [-> Hd]]; [by destruct c|].
    destruct c; cbn; by rewrite bool_decide_eq_false_2.
  - intros s. cbn [exec]. by destruct c; destruct Hop as [-> | [-> _]].
Qed.

Lemma fold_here_sound l hs c : Forall good hs -> fold_here l hs = Some c ->
  same_node call' call loops (literal c l) (Hir l hs).
Proof.
  intros Hg E. unfold fold_here in E. destruct (l_opcode l) eqn:Hop; try done.
  - destruct hs as [|a [|b [|]]]; try done. destruct (binary_of_int (l_operation l)) as [op|] eqn:Eop; [|done].
    destruct (constant_of a) as [ca|] eqn:Ea; [|done]. destruct (constant_of b) as [cb|] eqn:Eb; [|done].
    apply Forall_cons in Hg as [Ha [Hb _]%Forall_cons]. apply literal_same; [by left|].
    cbn [eval map]. rewrite Hop, Eop, (eval_literal a ca), (eval_literal b cb) by done. cbn [is_expression negb].
    pose proof (fold_binary_kind _ _ _ _ E) as Hk. destruct (logical op) eqn:Hl.
    + destruct op, ca as [|x|], cb as [|y|]; try done; cbn in E; injection E as <-; by destruct x, y.
    + intros s. cbn. unfold apply. rewrite Hop, Eop. unfold run_binary, calls.
      pose proof (fold_binary_agrees format_double (array_items s) (bytes_data s) (comparison_depth s)
        op ca cb Hl Hk) as Hag.
      rewrite E in Hag. unfold mbind, Exec_bind, mret, Exec_ret. cbn. by rewrite Hag.
  - destruct hs as [|a [|]]; try done. destruct (unary_of_int (l_operation l)) as [op|] eqn:Eop; [|done].
    destruct (constant_of a) as [ca|] eqn:Ea; [|done].
    apply Forall_cons in Hg as [Ha _]. apply literal_same; [right; split; [done|]; rewrite Eop; by destruct op|].
    pose proof (fold_unary_returns _ _ _ E) as Hr.
    cbn [eval map]. unfold is_reference. rewrite Hop, Eop, (eval_literal a ca) by done. cbn [is_expression negb].
    rewrite bool_decide_eq_false_2 by (by destruct op). intros s. cbn. unfold apply. rewrite Hop, Eop.
    unfold run_unary, calls, mbind, Exec_bind, mret, Exec_ret. by destruct op; cbn in *; rewrite ?Hr.
Qed.

End folding.

Section folded.
Context {M : Type} `{Machine M}.

Lemma fold_hir_sound call' call loops h : same_calls call' call -> good h ->
  forall k, same_node call' call loops (fold_hir h k).1 h.
Proof.
  intros Hcalls. induction h as [l hs IH] using hir_ind. intros (H1 & H2 & H3 & H4 & H5)%good_node k. cbn.
  pose proof (visit_forall fold_hir good good hs) as Hv.
  specialize (Hv ltac:(apply Forall_true; intros; by apply fold_hir_good) H5 k).
  assert (Forall2 (same_node call' call loops) (visit fold_hir hs k).1 hs) as Hs.
  { apply visit_related. rewrite Forall_forall in *. auto. }
  destruct (visit fold_hir hs k) as [hs' k']. cbn [fst] in *.
  pose proof (same_node_children call' call loops Hcalls l hs' hs Hs) as Hnode.
  destruct (fold_here l hs') as [c|] eqn:E; [|done]. cbn.
  eapply same_node_trans; [|exact Hnode]. by apply fold_here_sound.
Qed.

(** The children of a node that is not folded itself. *)
Lemma fold_hir_children l hs k : l_opcode l <> VNT_IR_UNARY -> l_opcode l <> VNT_IR_BINARY ->
  (fold_hir (Hir l hs) k).1 = Hir l (visit fold_hir hs k).1.
Proof.
  intros H1 H2. cbn. destruct (visit fold_hir hs k) as [hs' k']. unfold fold_here. by destruct (l_opcode l).
Qed.

Lemma fold_hir_function name h k : is_function name (fold_hir h k).1 = is_function name h.
Proof.
  destruct h as [l hs]. unfold is_function. cbn. destruct (visit fold_hir hs k) as [hs' k']. unfold fold_here.
  destruct (l_opcode l) eqn:E; cbn; rewrite ?E; try done.
  - destruct hs' as [|a [|b [|]]]; cbn; rewrite ?E; try done.
    destruct (binary_of_int _), (constant_of a), (constant_of b); cbn; rewrite ?E; try done.
    destruct (fold_binary _ _ _) as [c|]; cbn; rewrite ?E; [by destruct c|done].
  - destruct hs' as [|a [|]]; cbn; rewrite ?E; try done.
    destruct (unary_of_int _), (constant_of a); cbn; rewrite ?E; try done.
    destruct (fold_unary _ _) as [c|]; cbn; rewrite ?E; [by destruct c|done].
Qed.

Lemma is_function_opcode name h : is_function name h = true -> l_opcode (hir_label h) = VNT_IR_FUNCTION.
Proof. unfold is_function. by destruct (l_opcode (hir_label h)). Qed.

Lemma fold_hir_same_function name h k : good h -> is_function name h = true -> same_function (fold_hir h k).1 h.
Proof.
  intros Hg Hop%is_function_opcode. destruct h as [l hs]. apply good_node in Hg as (_ & _ & _ & _ & Hg).
  cbn in Hop. rewrite fold_hir_children by (by rewrite Hop). split; [done|].
  intros call' call loops Hc. apply body_same, visit_related. eapply Forall_impl; [exact Hg|].
  intros h Hh k'. by apply fold_hir_sound.
Qed.

Lemma fold_hir_program h k : is_root h -> same_program (fold_hir h k).1 h.
Proof.
  intros (Hg & Hop & _). split; [|intros; by apply fold_hir_sound].
  destruct h as [l hs]. cbn [hir_label] in Hop. apply good_node in Hg as (_ & _ & _ & _ & Hg).
  intros name. rewrite fold_hir_children by (by rewrite Hop). unfold find_function. cbn [hir_children].
  apply find_same, visit_related. eapply Forall_impl; [exact Hg|]. intros h Hh k'.
  split; [apply fold_hir_function|by apply (fold_hir_same_function name)].
Qed.
End folded.
