(* ===== verification/Dataflow.v ===== *)
(** Dataflow: the analyses of src/compiler/cfg.c on a control-flow graph, the
    definite assignment of variables (forward) and their liveness (backward).
    A matrix of bytes is a list of rows, one per block, with one boolean per
    variable; both analyses update it in place. *)

From S2P Require Import Prelude Clib Ast Ir Cfg.

(** * Variables *)

Definition variable_set_add (names : list bytes) (name : bytes) : list bytes :=
  if existsb (bytes_eqb name) names then names else names ++ [name].

Fixpoint index_from (i : nat) (names : list bytes) (name : bytes) : option nat :=
  match names with
  | [] => None
  | n :: names => if bytes_eqb n name then Some i else index_from (S i) names name
  end.

(** The first index of that name. *)
Definition variable_index (names : list bytes) (name : bytes) : option nat := index_from 0 names name.

(** The body of the loop over the nodes. *)
Definition collect_node (set : list bytes) (n : VntIrNode) : outcome (list bytes) :=
  match opcode n with
  | VNT_IR_VARIABLE | VNT_IR_VARIABLE_DECL | VNT_IR_REASSIGN =>
      text ← node_text n;
      mret (variable_set_add set text)
  | VNT_IR_FUNCTION => Done (fold_left variable_set_add (names n) set)
  | _ => Done set
  end.

Fixpoint collect_nodes (ns : list VntIrNode) (set : list bytes) : outcome (list bytes) :=
  match ns with
  | [] => Done set
  | n :: ns =>
      set ← collect_node set n;
      collect_nodes ns set
  end.

Definition collect_variables (ir : VntIrProgram) : outcome (list bytes) :=
  collect_nodes (nodes ir) [].

Definition mark_variable (bits : list bool) (set : list bytes) (name : bytes) : list bool :=
  match variable_index set name with
  | None => bits
  | Some i => <[i := true]> bits
  end.

(** The variables an expression reads; the budget bounds the depth of the tree. *)
Fixpoint collect_expression_reads (fuel : nat) (ir : VntIrProgram) (node : option nat)
    (set : list bytes) (uses : list bool) : outcome (list bool) :=
  match node with
  | None => Done uses
  | Some i =>
      if node_count ir <=? i then Done uses
      else
        match fuel with
        | O => Stuck
        | S f =>
            n ← node_at ir i;
            if bool_decide (opcode n = VNT_IR_VARIABLE) then
              text ← node_text n;
              mret (mark_variable uses set text)
            else
              fold_siblings (sibling_fuel ir) ir (fun c uses =>
                collect_expression_reads f ir (Some c) set uses) (first_child n) uses
        end
  end.

Definition reads_fuel (ir : VntIrProgram) : nat := S (node_count ir).

(** The part of collect_block_effects for an instruction: the two rows. *)
Definition collect_instruction_effects (ir : VntIrProgram) (i : nat) (set : list bytes)
    (uses defs : list bool) : outcome (list bool * list bool) :=
  let reads := fun node uses => collect_expression_reads (reads_fuel ir) ir node set uses in
  n ← node_at ir i;
  match opcode n with
  | VNT_IR_VARIABLE_DECL =>
      v ← child_role ir i VNT_IR_EDGE_VALUE;
      match v with
      | None => Done (uses, defs)
      | Some v =>
          uses ← reads (Some v) uses;
          text ← node_text n;
          mret (uses, mark_variable defs set text)
      end
  | VNT_IR_REASSIGN =>
      v ← child_role ir i VNT_IR_EDGE_VALUE;
      uses ← reads v uses;
      text ← node_text n;
      mret (uses, mark_variable defs set text)
  | VNT_IR_PRINT | VNT_IR_RETURN =>
      v ← child_role ir i VNT_IR_EDGE_VALUE;
      uses ← reads v uses;
      mret (uses, defs)
  | VNT_IR_ASSIGN =>
      target ← child_role ir i VNT_IR_EDGE_TARGET;
      target_node ← (match target with
                     | None => Done None
                     | Some t => n ← node_at ir t; mret (Some n)
                     end);
      v ← child_role ir i VNT_IR_EDGE_VALUE;
      match target_node with
      | Some t =>
          if bool_decide (opcode t = VNT_IR_VARIABLE) then
            text ← node_text t;
            uses ← reads v uses;
            mret (uses, mark_variable defs set text)
          else
            uses ← reads target uses;
            uses ← reads v uses;
            mret (uses, defs)
      | None =>
          uses ← reads target uses;
          uses ← reads v uses;
          mret (uses, defs)
      end
  | _ =>
      uses ← reads (Some i) uses;
      mret (uses, defs)
  end.

(** What a block uses and defines. *)
Definition collect_block_effects (ir : VntIrProgram) (block : VntCfgBlock) (set : list bytes)
    (uses defs : list bool) : outcome (list bool * list bool) :=
  uses ← (match condition block with
          | None => Done uses
          | Some c => collect_expression_reads (reads_fuel ir) ir (Some c) set uses
          end);
  match instruction block with
  | None => Done (uses, defs)
  | Some i => collect_instruction_effects ir i set uses defs
  end.

Definition row (vars : nat) : list bool := replicate vars false.

(** The loop over the blocks that fills [uses] and [defs]. *)
Fixpoint collect_effects (ir : VntIrProgram) (set : list bytes) (bs : list VntCfgBlock)
    : outcome (list (list bool) * list (list bool)) :=
  match bs with
  | [] => Done ([], [])
  | b :: bs =>
      e ← collect_block_effects ir b set (row (length set)) (row (length set));
      rest ← collect_effects ir set bs;
      mret (e.1 :: rest.1, e.2 :: rest.2)
  end.

(** * Matrices *)

Definition cell (m : list (list bool)) (b v : nat) : outcome bool :=
  match m !! b with
  | Some r => match r !! v with Some x => Done x | None => Fault end
  | None => Fault
  end.

Definition set_cell (m : list (list bool)) (b v : nat) (x : bool) : list (list bool) :=
  alter (fun r => <[v := x]> r) b m.

(** A cell is updated, and the change noted. *)
Definition put (m : list (list bool)) (b v : nat) (x : bool) (changed : bool)
    : outcome (list (list bool) * bool) :=
  old ← cell m b v;
  mret (if Bool.eqb old x then (m, changed) else (set_cell m b v x, true)).

(** Both analyses keep the matrices [in] and [out], and whether something has
    changed in this round. *)
Record Flow := { f_in : list (list bool); f_out : list (list bool); f_changed : bool }.

Definition flow_in (b v : nat) (x : bool) (f : Flow) : outcome Flow :=
  r ← put (f_in f) b v x (f_changed f);
  mret {| f_in := r.1; f_out := f_out f; f_changed := r.2 |}.

Definition flow_out (b v : nat) (x : bool) (f : Flow) : outcome Flow :=
  r ← put (f_out f) b v x (f_changed f);
  mret {| f_in := f_in f; f_out := r.1; f_changed := r.2 |}.

(** A loop over indices whose body updates the flow. *)
Fixpoint flow_loop (body : nat -> Flow -> outcome Flow) (todo : list nat) (f : Flow) : outcome Flow :=
  match todo with
  | [] => Done f
  | i :: todo =>
      f ← body i f;
      flow_loop body todo f
  end.

(** [do { changed = 0; round } while (changed);] *)
Fixpoint flow_iterate (fuel : nat) (round : Flow -> outcome Flow) (f : Flow) : outcome Flow :=
  match fuel with
  | O => Stuck
  | S fuel =>
      f ← round {| f_in := f_in f; f_out := f_out f; f_changed := false |};
      if f_changed f then flow_iterate fuel round f else Done f
  end.

(** Every round but the last changes a cell, and cells only change one way: the
    number of cells bounds the rounds. *)
Definition flow_fuel (blocks vars : nat) : nat := 2 * (blocks * vars) + 2.

(** Whether every block refers to nodes of the HIR. *)
Definition references_ok (ir : VntIrProgram) (cfg : VntCfg) : bool :=
  forallb (fun b => link_ok (node_count ir) (instruction b) && link_ok (node_count ir) (condition b))
    (blocks cfg).

Definition zeros (blocks vars : nat) : list (list bool) := replicate blocks (row vars).
Definition ones (blocks vars : nat) : list (list bool) := replicate blocks (replicate vars true).

(** * Liveness *)

(** OR of [in[s][v]] over the successors. *)
Fixpoint or_successors (m : list (list bool)) (v : nat) (links : list (option nat)) (x : bool)
    : outcome bool :=
  match links with
  | [] => Done x
  | None :: links => or_successors m v links x
  | Some s :: links =>
      y ← cell m s v;
      or_successors m v links (x || y)
  end.

Section liveness.
Context (bs : list VntCfgBlock) (uses defs : list (list bool)) (vars : nat).

Definition liveness_cell (b v : nat) (f : Flow) : outcome Flow :=
  block ← (match bs !! b with Some block => Done block | None => Fault end);
  next_out ← or_successors (f_in f) v (successors block) false;
  u ← cell uses b v;
  d ← cell defs b v;
  f ← flow_out b v next_out f;
  flow_in b v (u || (next_out && negb d)) f.

Definition liveness_round (f : Flow) : outcome Flow :=
  flow_loop (fun b => flow_loop (liveness_cell b) (seq 0 vars)) (rev (seq 0 (length bs))) f.
End liveness.

Record VntCfgLiveness := {
  l_variables : list bytes;
  live_in : list (list bool);
  live_out : list (list bool)
}.

(** [None] is [return 0]. *)
Definition vnt_cfg_compute_liveness (ir : VntIrProgram) (cfg : VntCfg)
    : outcome (option VntCfgLiveness) :=
  valid ← vnt_ir_validate ir;
  if negb valid || negb (vnt_cfg_validate cfg) then Done None
  else
    variables ← collect_variables ir;
    if negb (references_ok ir cfg) then Done None
    else
      e ← collect_effects ir variables (blocks cfg);
      let bs := block_count cfg in
      let vars := length variables in
      f ← flow_iterate (flow_fuel bs vars) (liveness_round (blocks cfg) e.1 e.2 vars)
            {| f_in := zeros bs vars; f_out := zeros bs vars; f_changed := false |};
      mret (Some {| l_variables := variables; live_in := f_in f; live_out := f_out f |}).

(** vnt_cfg_variable_live_in and vnt_cfg_variable_live_out. *)
Definition live_at (m : list (list bool)) (names : list bytes) (block : nat) (name : bytes) : bool :=
  match m !! block, variable_index names name with
  | Some r, Some v => nth v r false
  | _, _ => false
  end.

Definition vnt_cfg_variable_live_in (a : VntCfgLiveness) (block : nat) (name : bytes) : bool :=
  live_at (live_in a) (l_variables a) block name.
Definition vnt_cfg_variable_live_out (a : VntCfgLiveness) (block : nat) (name : bytes) : bool :=
  live_at (live_out a) (l_variables a) block name.

(** * Definite assignment *)

Definition block_has_predecessor (bs : list VntCfgBlock) (predecessor target : nat) : bool :=
  match bs !! predecessor with
  | Some b => bool_decide (Some target ∈ successors b)
  | None => false
  end.

(** AND of [out[p][v]] over the predecessors of [b], and whether there is one. *)
Fixpoint and_predecessors (bs : list VntCfgBlock) (m : list (list bool)) (b v : nat)
    (ps : list nat) (x has : bool) : outcome (bool * bool) :=
  match ps with
  | [] => Done (x, has)
  | p :: ps =>
      if block_has_predecessor bs p b then
        y ← cell m p v;
        and_predecessors bs m b v ps (x && y) true
      else and_predecessors bs m b v ps x has
  end.

Section assignment.
Context (bs : list VntCfgBlock) (defs seed : list (list bool)) (is_entry : list bool) (vars : nat).

(** The new value of [in[b][v]]; the row of an entry is copied from its seed. *)
Definition assigned_in (b v : nat) (f : Flow) : outcome Flow :=
  entry ← read_bit is_entry b;
  if (entry : bool) then
    s ← cell seed b v;
    flow_in b v s f
  else
    r ← and_predecessors bs (f_out f) b v (seq 0 (length bs)) true false;
    flow_in b v ((r : bool * bool).2 && r.1) f.

Definition assigned_out (b v : nat) (f : Flow) : outcome Flow :=
  i ← cell (f_in f) b v;
  d ← cell defs b v;
  flow_out b v (i || d) f.

Definition assignment_round (f : Flow) : outcome Flow :=
  flow_loop (fun b f =>
    f ← flow_loop (assigned_in b) (seq 0 vars) f;
    flow_loop (assigned_out b) (seq 0 vars) f) (seq 0 (length bs)) f.
End assignment.

(** The global variables: root declarations with a value. *)
Definition collect_globals (ir : VntIrProgram) (r : nat) (set : list bytes) : outcome (list bool) :=
  n ← node_at ir r;
  fold_siblings (sibling_fuel ir) ir (fun c globals =>
    n ← node_at ir c;
    v ← child_role ir c VNT_IR_EDGE_VALUE;
    if bool_decide (role n = VNT_IR_EDGE_STATEMENT) &&
       bool_decide (opcode n = VNT_IR_VARIABLE_DECL) && negb (is_null v)
    then
      text ← node_text n;
      mret (mark_variable globals set text)
    else Done globals) (first_child n) (row (length set)).

(** [is_entry] and [seed] after the loop over the entries: [memcpy] of the
    globals to the seeds of all entries but the first. *)
Fixpoint seed_entries (globals : list bool) (es : list nat) (main : bool)
    (is_entry : list bool) (seed : list (list bool)) : list bool * list (list bool) :=
  match es with
  | [] => (is_entry, seed)
  | e :: es =>
      seed_entries globals es false (<[e := true]> is_entry)
        (if main then seed else <[e := globals]> seed)
  end.

(** The loop over the functions: the parameters are initialized at the entries
    after the first, in order. *)
Fixpoint seed_parameters (ns : list VntIrNode) (es : list nat) (set : list bytes)
    (seed : list (list bool)) : list (list bool) :=
  match ns, es with
  | n :: ns, e :: es' =>
      if bool_decide (opcode n = VNT_IR_FUNCTION) then
        seed_parameters ns es' set
          (alter (fun r => fold_left (fun r p => mark_variable r set p) (names n) r) e seed)
      else seed_parameters ns es set seed
  | _, _ => seed
  end.

(** [strstr(s, marker)] as the rest of the string after the marker. *)
Fixpoint after_prefix (marker s : bytes) : option bytes :=
  match marker, s with
  | [], _ => Some s
  | m :: marker, c :: s => if (m =? c)%char then after_prefix marker s else None
  | _ :: _, [] => None
  end.

Fixpoint after_first (marker s : bytes) : option bytes :=
  match after_prefix marker s with
  | Some rest => Some rest
  | None => match s with
            | [] => None
            | _ :: s => after_first marker s
            end
  end.

Definition source_name_for_diagnostic (key : bytes) : bytes :=
  match after_first (str "__vnt_symbol_") key with
  | None => key
  | Some rest => match after_first (str "_") rest with
                 | None => key
                 | Some name => name
                 end
  end.

(** What the check returns: 1, or 0 with a diagnostic. *)
Inductive assignment_result : Type :=
  | ASSIGNED
  | INVALID_HIR_OR_CFG
  | INVALID_NODE
  | READ_BEFORE_INITIALIZATION (name : bytes).

(** The first cell, row by row, that is used and not initialized. *)
Fixpoint find_unassigned (uses in_ : list (list bool)) : option nat :=
  match uses, in_ with
  | u :: uses, i :: in_ =>
      match list_find (fun p : bool * bool => p = (true, false)) (combine u i) with
      | Some (v, _) => Some v
      | None => find_unassigned uses in_
      end
  | _, _ => None
  end.

Definition vnt_cfg_check_definite_assignment (ir : VntIrProgram) (cfg : VntCfg)
    : outcome assignment_result :=
  valid ← vnt_ir_validate ir;
  match root ir with
  | None => Done INVALID_HIR_OR_CFG
  | Some r =>
      if negb valid || negb (vnt_cfg_validate cfg) then Done INVALID_HIR_OR_CFG
      else if negb (references_ok ir cfg) then Done INVALID_NODE
      else
        variables ← collect_variables ir;
        let bs := block_count cfg in
        let vars := length variables in
        e ← collect_effects ir variables (blocks cfg);
        globals ← collect_globals ir r variables;
        let s := seed_entries globals (entries cfg) true (replicate bs false) (zeros bs vars) in
        let seed := seed_parameters (nodes ir) (tail (entries cfg)) variables s.2 in
        f ← flow_iterate (flow_fuel bs vars) (assignment_round (blocks cfg) e.2 seed s.1 vars)
              {| f_in := ones bs vars; f_out := ones bs vars; f_changed := false |};
        mret (match find_unassigned e.1 (f_in f) with
              | None => ASSIGNED
              | Some v => READ_BEFORE_INITIALIZATION (source_name_for_diagnostic (variables !!! v))
              end)
  end.
