(* ===== verification/DataflowFacts.v ===== *)
(** DataflowFacts: the fixed points the two analyses of Dataflow reach. A round
    either changes nothing, and the equations hold, or moves at least one cell
    towards the bound; so the iteration ends, at the extreme fixed point. *)

From S2P Require Import Prelude Clib Ast Ir Cfg CfgTraces Dataflow.

(** * Matrices *)

Record shaped (blocks vars : nat) (m : list (list bool)) : Prop := {
  shaped_rows : length m = blocks;
  shaped_row : forall b r, m !! b = Some r -> length r = vars
}.

(** The value of a cell. *)
Definition at_ (m : list (list bool)) (b v : nat) : bool := (m !!! b) !!! v.

(** How many cells hold [t]. *)
Definition count_row (t : bool) (r : list bool) : nat := length (filter (fun x => x = t) r).
Definition count_cells (t : bool) (m : list (list bool)) : nat := list_sum (map (count_row t) m).

Lemma list_lookup_total_lt {A} `{Inhabited A} (l : list A) i :
  i < length l -> l !! i = Some (l !!! i).
Proof. intros Hi. by apply list_lookup_lookup_total_lt. Qed.

Section matrix.
Context {blocks vars : nat}.

Lemma shaped_lookup m b : shaped blocks vars m -> b < blocks -> m !! b = Some (m !!! b).
Proof. intros [H _] Hb. apply list_lookup_total_lt. lia. Qed.

Lemma shaped_row_length m b : shaped blocks vars m -> b < blocks -> length (m !!! b) = vars.
Proof. intros Hm Hb. eapply shaped_row; [exact Hm|]. by apply shaped_lookup. Qed.

Lemma cell_done m b v : shaped blocks vars m -> b < blocks -> v < vars -> cell m b v = Done (at_ m b v).
Proof.
  intros Hm Hb Hv. unfold cell. rewrite (shaped_lookup m b Hm Hb).
  rewrite list_lookup_total_lt; [done|]. by rewrite (shaped_row_length m b Hm Hb).
Qed.

Lemma set_cell_shaped m b v x : shaped blocks vars m -> shaped blocks vars (set_cell m b v x).
Proof.
  intros [H1 H2]. constructor; unfold set_cell.
  - by rewrite length_alter.
  - intros c r. destruct (decide (c = b)) as [->|Hne].
    + rewrite list_lookup_alter_eq. destruct (m !! b) as [r'|] eqn:E; [|done]. intros [= <-].
      rewrite length_insert. eauto.
    + rewrite list_lookup_alter_ne by done. apply H2.
Qed.

Lemma at_set_cell m b v x c w : shaped blocks vars m -> b < blocks -> v < vars ->
  at_ (set_cell m b v x) c w = if decide (c = b /\ w = v) then x else at_ m c w.
Proof.
  intros Hm Hb Hv. unfold at_, set_cell. destruct (decide (c = b)) as [->|Hne].
  - rewrite (list_lookup_total_correct (alter _ _ _) b (<[v := x]> (m !!! b))).
    2: { by rewrite list_lookup_alter_eq, (shaped_lookup m b Hm Hb). }
    destruct (decide (w = v)) as [->|Hnw].
    + rewrite decide_True by done. apply list_lookup_total_insert_eq.
      by rewrite (shaped_row_length m b Hm Hb).
    + rewrite decide_False by tauto. by apply list_lookup_total_insert_ne.
  - rewrite decide_False by tauto. by rewrite list_lookup_total_alter_ne.
Qed.

Lemma count_row_insert t r v : r !! v = Some (negb t) -> count_row t (<[v := t]> r) = S (count_row t r).
Proof.
  intros Hv. unfold count_row. rewrite insert_take_drop by (by eapply lookup_lt_Some).
  transitivity (S (length (filter (fun x => x = t) (take v r ++ negb t :: drop (S v) r)))).
  - rewrite !filter_app, !filter_cons, decide_True, decide_False, !length_app by (done || by destruct t).
    cbn. lia.
  - by rewrite (take_drop_middle _ _ _ Hv).
Qed.

Lemma count_row_le t r : count_row t r <= length r.
Proof. apply length_filter. Qed.

Lemma count_cells_set t m b v : shaped blocks vars m -> b < blocks -> v < vars ->
  at_ m b v = negb t -> count_cells t (set_cell m b v t) = S (count_cells t m).
Proof.
  intros Hm Hb Hv Hat. unfold count_cells, set_cell.
  pose proof (shaped_lookup m b Hm Hb) as Hr.
  assert ((m !!! b) !! v = Some (negb t)) as Hc.
  { rewrite list_lookup_total_lt by (by rewrite (shaped_row_length m b Hm Hb)). by f_equal. }
  rewrite <- (take_drop_middle _ _ _ Hr) at 1.
  assert (length (take b m) = b) as Hlen by (rewrite length_take; apply shaped_rows in Hm; lia).
  rewrite alter_app_r_alt, Hlen, Nat.sub_diag by lia. cbn [alter list_alter].
  transitivity (S (list_sum (map (count_row t) (take b m ++ (m !!! b) :: drop (S b) m)))).
  - rewrite !map_app, !list_sum_app. cbn [map]. cbn -[count_row].
    rewrite (count_row_insert _ _ _ Hc). lia.
  - by rewrite (take_drop_middle _ _ _ Hr).
Qed.

Lemma count_cells_le t m : shaped blocks vars m -> count_cells t m <= blocks * vars.
Proof.
  intros [<- Hr]. unfold count_cells. induction m as [|r m IH]; cbn; [lia|].
  pose proof (count_row_le t r). rewrite (Hr 0 r eq_refl) in H.
  specialize (IH (fun b => Hr (S b))).
  change (count_row t r + list_sum (map (count_row t) m) <= vars + length m * vars). lia.
Qed.

Lemma replicate_shaped x : shaped blocks vars (replicate blocks (replicate vars x)).
Proof.
  constructor; [apply length_replicate|]. intros b r [-> _]%lookup_replicate. apply length_replicate.
Qed.

Lemma at_replicate x b v : b < blocks -> v < vars -> at_ (replicate blocks (replicate vars x)) b v = x.
Proof. intros Hb Hv. unfold at_. by rewrite !lookup_total_replicate_2. Qed.
End matrix.

(** * Iterating to a fixed point *)

Section iterate.
Context (P : Flow -> Prop) (rank : Flow -> nat) (bound : nat).
Hypothesis P_reset : forall f, P f -> P {| f_in := f_in f; f_out := f_out f; f_changed := false |}.
Hypothesis rank_reset : forall f,
  rank {| f_in := f_in f; f_out := f_out f; f_changed := false |} = rank f.
Hypothesis rank_bound : forall f, P f -> rank f <= bound.

(** From [f] to [f']: the invariant is kept, every change raises the rank, and
    [Q] holds if nothing has changed. *)
Record progress (Q : Flow -> Prop) (f f' : Flow) : Prop := {
  progress_inv : P f';
  progress_rank : rank f <= rank f';
  progress_keep : f_changed f = true -> f_changed f' = true;
  progress_changed : f_changed f' = true -> f_changed f = true \/ rank f < rank f';
  progress_same : f_changed f' = false -> f' = f /\ Q f
}.

Lemma progress_refl (Q : Flow -> Prop) f : P f -> Q f -> progress Q f f.
Proof. intros HP HQ. constructor; auto. Qed.

Lemma progress_weaken (Q R : Flow -> Prop) f f' : (Q f -> R f) -> progress Q f f' -> progress R f f'.
Proof. intros H [? ? ? ? Hs]. constructor; [done..|]. intros E. destruct (Hs E). auto. Qed.

Lemma progress_trans (Q R : Flow -> Prop) f1 f2 f3 :
  progress Q f1 f2 -> progress R f2 f3 -> progress (fun f => Q f /\ R f) f1 f3.
Proof.
  intros [P1 R1 K1 C1 S1] [P2 R2 K2 C2 S2]. constructor; [done|lia|auto| |].
  - intros E. destruct (C2 E) as [E1|]; [|right; lia]. destruct (C1 E1); [auto|right; lia].
  - intros E. destruct (S2 E) as [-> HR]. destruct (S1 E) as [-> HQ]. done.
Qed.

Lemma progress_bind (m : outcome Flow) (k : Flow -> outcome Flow) (Q R : Flow -> Prop) f :
  returns m (progress Q f) -> (forall f', P f' -> returns (k f') (progress R f')) ->
  returns (m ≫= k) (progress (fun f => Q f /\ R f) f).
Proof.
  intros Hm Hk. apply returns_bind. eapply returns_mono; [exact Hm|]. intros f' Hf'.
  eapply returns_mono; [apply Hk, Hf'|]. intros f'' Hf''. by eapply progress_trans.
Qed.

Lemma flow_loop_progress (body : nat -> Flow -> outcome Flow) (Q : nat -> Flow -> Prop) todo :
  (forall i f, i ∈ todo -> P f -> returns (body i f) (progress (Q i) f)) ->
  forall f, P f -> returns (flow_loop body todo f) (progress (fun f => forall i, i ∈ todo -> Q i f) f).
Proof.
  induction todo as [|i todo IH]; intros Hbody f Hf; cbn [flow_loop].
  - apply progress_refl; [done|]. intros i Hi. by apply not_elem_of_nil in Hi.
  - eapply returns_mono; [apply progress_bind; [apply Hbody; [left|exact Hf]|]|].
    + intros f' Hf'. apply IH; [|done]. intros j g Hj. apply Hbody. by right.
    + intros f'. apply progress_weaken. intros [Hi Hrest] j Hj.
      apply elem_of_cons in Hj as [->|Hj]; auto.
Qed.

Lemma flow_iterate_fixed (round : Flow -> outcome Flow) (Q : Flow -> Prop) :
  (forall f, P f -> returns (round f) (progress Q f)) ->
  forall fuel f, P f -> bound - rank f < fuel ->
  returns (flow_iterate fuel round f) (fun f' => P f' /\ Q f').
Proof.
  intros Hround. induction fuel as [|fuel IH]; intros f Hf Hfuel; [lia|]. cbn [flow_iterate].
  set (f0 := {| f_in := f_in f; f_out := f_out f; f_changed := false |}).
  apply returns_bind. eapply returns_mono; [apply Hround, P_reset, Hf|]. fold f0.
  intros f' [Hp Hr Hk Hc Hs]. destruct (f_changed f') eqn:E.
  - apply IH; [done|]. destruct (Hc eq_refl) as [|Hlt]; [done|].
    pose proof (rank_bound f' Hp). pose proof (rank_reset f). fold f0 in H0. lia.
  - destruct (Hs eq_refl) as [-> HQ]. done.
Qed.
End iterate.

(** * Updating one cell *)

(** Updating a cell of a matrix can only move it to [t]. *)
Lemma put_spec blocks vars t m b v x changed :
  shaped blocks vars m -> b < blocks -> v < vars ->
  (at_ m b v = t -> x = t) ->
  exists m' changed', put m b v x changed = Done (m', changed') /\ shaped blocks vars m' /\
    (forall c w, at_ m' c w = if decide (c = b /\ w = v) then x else at_ m c w) /\
    ((m' = m /\ at_ m b v = x /\ changed' = changed) \/
     (changed' = true /\ at_ m b v = negb t /\ x = t /\
      count_cells t m' = S (count_cells t m))).
Proof.
  intros Hm Hb Hv Hx. unfold put. rewrite (cell_done m b v Hm Hb Hv). cbn [mbind outcome_bind].
  destruct (Bool.eqb (at_ m b v) x) eqn:E.
  - apply eqb_prop in E. exists m, changed. split_and!; [done..| |by left].
    intros c w. case_decide as Hcw; [|done]. by destruct Hcw as [-> ->].
  - apply eqb_false_iff in E.
    assert (at_ m b v = negb t /\ x = t) as [Hold ->].
    { destruct (at_ m b v), x, t; try done; naive_solver. }
    exists (set_cell m b v t), true. split_and!; [done| | |right; split_and!; try done].
    + by apply set_cell_shaped.
    + intros c w. by apply (at_set_cell (blocks := blocks) (vars := vars)).
    + by apply (count_cells_set (blocks := blocks) (vars := vars)).
Qed.

(** * Liveness *)

(** Variable [v] is live at the start of block [b]: some path from it reads
    [v] before a block that defines it. *)
Inductive live (bs : list VntCfgBlock) (uses defs : list (list bool)) (v : nat) : nat -> Prop :=
  | live_use b : b < length bs -> at_ uses b v = true -> live bs uses defs v b
  | live_later b s :
      edge bs b s -> at_ defs b v = false -> live bs uses defs v s -> live bs uses defs v b.

Definition live_after (bs : list VntCfgBlock) (uses defs : list (list bool)) (v b : nat) : Prop :=
  exists s, edge bs b s /\ live bs uses defs v s.

Section liveness.
Context (bs : list VntCfgBlock) (uses defs : list (list bool)) (vars : nat).
Hypothesis uses_shaped : shaped (length bs) vars uses.
Hypothesis defs_shaped : shaped (length bs) vars defs.
Hypothesis bs_ok : edges_ok bs.
Local Abbreviation n := (length bs).
Local Abbreviation Live := (live bs uses defs).

(** The right-hand sides of the two equations. *)
Definition out_of (m : list (list bool)) (b v : nat) : bool :=
  match bs !! b with
  | Some block => existsb (fun l => match l with Some s => at_ m s v | None => false end) (successors block)
  | None => false
  end.
Definition in_of (out : bool) (b v : nat) : bool := at_ uses b v || (out && negb (at_ defs b v)).

Lemma out_of_spec m b v : out_of m b v = true <-> exists s, edge bs b s /\ at_ m s v = true.
Proof.
  unfold out_of, edge. destruct (bs !! b) as [block|]; [|naive_solver].
  rewrite existsb_exists. split.
  - intros ([s|] & Hs & Hv); [|done]. exists s. split; [|done]. exists block.
    by rewrite list_elem_of_In.
  - intros (s & (block' & [= <-] & Hs) & Hv). exists (Some s). by rewrite <- list_elem_of_In.
Qed.

(** The invariant: every true cell is justified by a path, and by its equation. *)
Record liveness_inv (f : Flow) : Prop := {
  li_in : shaped n vars (f_in f);
  li_out : shaped n vars (f_out f);
  li_in_live : forall b v, b < n -> v < vars -> at_ (f_in f) b v = true -> Live v b;
  li_out_live : forall b v, b < n -> v < vars -> at_ (f_out f) b v = true ->
    live_after bs uses defs v b;
  li_out_eq : forall b v, b < n -> v < vars -> at_ (f_out f) b v = true ->
    out_of (f_in f) b v = true;
  li_in_eq : forall b v, b < n -> v < vars -> at_ (f_in f) b v = true ->
    in_of (at_ (f_out f) b v) b v = true
}.

Definition liveness_rank (f : Flow) : nat := count_cells true (f_in f) + count_cells true (f_out f).

Definition liveness_eqs (b v : nat) (f : Flow) : Prop :=
  at_ (f_out f) b v = out_of (f_in f) b v /\
  at_ (f_in f) b v = in_of (at_ (f_out f) b v) b v.

Lemma or_successors_spec m v links x :
  shaped n vars m -> v < vars -> (forall s, Some s ∈ links -> s < n) ->
  or_successors m v links x =
  Done (x || existsb (fun l => match l with Some s => at_ m s v | None => false end) links).
Proof.
  intros Hm Hv. revert x. induction links as [|[s|] links IH]; intros x Hl; cbn [or_successors existsb].
  - by rewrite orb_false_r.
  - rewrite (cell_done m s v Hm) by (done || apply Hl; left). cbn [mbind outcome_bind].
    rewrite IH by (intros s' Hs'; apply Hl; by right). by rewrite orb_assoc.
  - apply IH. intros s' Hs'. apply Hl. by right.
Qed.

Lemma out_of_mono m m' b v : b < n ->
  (forall s, s < n -> at_ m s v = true -> at_ m' s v = true) ->
  out_of m b v = true -> out_of m' b v = true.
Proof.
  intros Hb H. rewrite !out_of_spec. intros (s & Hs & Hv). exists s. split; [done|].
  apply H; [by eapply bs_ok|done].
Qed.

Lemma liveness_cell_progress b v f :
  b < n -> v < vars -> liveness_inv f ->
  returns (liveness_cell bs uses defs b v f)
    (progress liveness_inv liveness_rank (liveness_eqs b v) f).
Proof.
  intros Hb Hv [Hin Hout Hil Hol Hoe Hie]. unfold liveness_cell.
  destruct (lookup_lt_is_Some_2 bs b Hb) as [block Hblock]. rewrite Hblock. cbn [mbind outcome_bind].
  rewrite or_successors_spec by (try done; intros s Hs; apply (bs_ok b); by exists block).
  assert (existsb (fun l => match l with Some s => at_ (f_in f) s v | None => false end)
    (successors block) = out_of (f_in f) b v) as -> by (unfold out_of; by rewrite Hblock).
  cbn [orb mbind outcome_bind].
  rewrite (cell_done uses b v uses_shaped Hb Hv), (cell_done defs b v defs_shaped Hb Hv).
  cbn [mbind outcome_bind]. fold (in_of (out_of (f_in f) b v) b v). unfold flow_out.
  destruct (put_spec n vars true (f_out f) b v (out_of (f_in f) b v) (f_changed f))
    as (m1 & c1 & -> & Hm1 & Hat1 & Hc1); [done..|by apply Hoe|].
  cbn [mbind outcome_bind mret outcome_ret]. unfold flow_in. cbn [f_in f_out f_changed fst snd].
  destruct (put_spec n vars true (f_in f) b v (in_of (out_of (f_in f) b v) b v) c1)
    as (m2 & c2 & -> & Hm2 & Hat2 & Hc2); [done..| |].
  { intros H. pose proof (Hie b v Hb Hv H) as Hi. unfold in_of in *.
    apply orb_true_iff in Hi as [->|Hi]; [done|]. apply andb_true_iff in Hi as [Ho ->].
    by rewrite (Hoe b v Hb Hv Ho), orb_true_r. }
  cbn [mbind outcome_bind mret outcome_ret returns f_in f_out f_changed fst snd].
  assert (out_of (f_in f) b v = true -> live_after bs uses defs v b) as Hout_live.
  { rewrite out_of_spec. intros (s & Hs & Hlive). exists s. split; [done|].
    apply Hil; [by eapply bs_ok|done|done]. }
  assert (forall s w, s < n -> w < vars -> at_ (f_in f) s w = true -> at_ m2 s w = true) as Hgrow.
  { intros s w Hs Hw H. rewrite Hat2. case_decide as Hsw; [|done]. destruct Hsw as [-> ->].
    destruct Hc2 as [(_ & <- & _)|(_ & Hf & -> & _)]; [done|by rewrite H in Hf]. }
  constructor; cbn [f_in f_out f_changed].
  - constructor; cbn [f_in f_out f_changed]; [done|done|..]; intros c w Hc Hw.
    + rewrite Hat2. case_decide as Hcw; [|by apply Hil]. destruct Hcw as [-> ->].
      unfold in_of. intros [Hu|[Ho Hd]%andb_true_iff]%orb_true_iff; [by apply live_use|].
      destruct (Hout_live Ho) as (s & Hs & Hlive). apply negb_true_iff in Hd.
      by eapply live_later.
    + rewrite Hat1. case_decide as Hcw; [|by apply Hol]. destruct Hcw as [-> ->]. done.
    + rewrite Hat1. case_decide as Hcw.
      * destruct Hcw as [-> ->]. apply out_of_mono; [done|]. intros s Hs. by apply Hgrow.
      * intros H. apply (out_of_mono (f_in f)); [done|by intros s Hs; apply Hgrow|by apply Hoe].
    + rewrite Hat2, Hat1. case_decide as Hcw; [by destruct Hcw as [-> ->]|]. by apply Hie.
  - unfold liveness_rank. cbn [f_in f_out].
    destruct Hc1 as [(-> & _)|(_ & _ & _ & ->)], Hc2 as [(-> & _)|(_ & _ & _ & ->)]; lia.
  - intros E. destruct Hc1 as [(_ & _ & ->)|(-> & _)], Hc2 as [(_ & _ & ->)|(-> & _)]; done.
  - intros E. unfold liveness_rank. cbn [f_in f_out].
    destruct Hc1 as [(-> & _ & ->)|(-> & _ & _ & ->)], Hc2 as [(-> & _ & ->)|(-> & _ & _ & ->)];
      (by left) || (right; lia).
  - intros E. destruct Hc1 as [(-> & Ho & ->)|(-> & _)], Hc2 as [(-> & Hi & ->)|(-> & _)]; try done.
    split; [by destruct f; cbn in *; subst|]. unfold liveness_eqs. by rewrite Ho, Hi.
Qed.

Lemma liveness_rank_bound f : liveness_inv f -> liveness_rank f <= 2 * (n * vars).
Proof.
  intros [H1 H2 _ _ _ _]. unfold liveness_rank.
  pose proof (count_cells_le true _ H1). pose proof (count_cells_le true _ H2). lia.
Qed.

Lemma liveness_round_progress f : liveness_inv f ->
  returns (liveness_round bs uses defs vars f)
    (progress liveness_inv liveness_rank
       (fun f => forall b v, b < n -> v < vars -> liveness_eqs b v f) f).
Proof.
  intros Hf. unfold liveness_round.
  eapply returns_mono.
  { apply (flow_loop_progress liveness_inv liveness_rank _
      (fun b f => forall v, v ∈ seq 0 vars -> liveness_eqs b v f)); [|exact Hf].
    intros b g Hb Hg. apply flow_loop_progress; [|done]. intros v h Hv Hh.
    apply liveness_cell_progress; [|apply elem_of_seq in Hv; lia|done].
    apply list_elem_of_In, in_rev, in_seq in Hb. lia. }
  intros f'. apply progress_weaken. intros H b v Hb Hv. apply H.
  - apply list_elem_of_In. rewrite <- in_rev. apply in_seq. lia.
  - apply elem_of_seq. lia.
Qed.

(** The iteration ends, and its result is exact. *)
Lemma liveness_exact c :
  returns (flow_iterate (flow_fuel n vars) (liveness_round bs uses defs vars)
             {| f_in := zeros n vars; f_out := zeros n vars; f_changed := c |})
    (fun f => shaped n vars (f_in f) /\ shaped n vars (f_out f) /\
       forall b v, b < n -> v < vars ->
       (at_ (f_in f) b v = true <-> Live v b) /\
       (at_ (f_out f) b v = true <-> live_after bs uses defs v b)).
Proof.
  eapply returns_mono.
  { apply (flow_iterate_fixed liveness_inv liveness_rank (2 * (n * vars))).
    - by intros f [? ? ? ? ? ?].
    - done.
    - apply liveness_rank_bound.
    - apply liveness_round_progress.
    - constructor; cbn [f_in f_out]; try apply replicate_shaped; intros b v Hb Hv;
        unfold zeros, row; by rewrite at_replicate.
    - unfold flow_fuel. lia. }
  intros f [[Hin Hout Hil Hol _ _] Heqs]. split; [done|]. split; [done|].
  assert (forall b v, Live v b -> b < n -> v < vars -> at_ (f_in f) b v = true) as Hcomplete.
  { intros b v H. induction H as [b Hb Hu|b s Hs Hd _ IH]; intros Hbn Hv;
      destruct (Heqs b v Hbn Hv) as [Ho Hi]; rewrite Hi; unfold in_of.
    - by rewrite Hu.
    - rewrite Ho, Hd. replace (out_of (f_in f) b v) with true; [by rewrite orb_true_r|].
      symmetry. apply out_of_spec. exists s. split; [done|]. apply IH; [by eapply bs_ok|done]. }
  intros b v Hb Hv. split; split; intros H.
  - by apply Hil.
  - by apply Hcomplete.
  - by apply Hol.
  - destruct (Heqs b v Hb Hv) as [-> _]. apply out_of_spec. destruct H as (s & Hs & Hlive).
    exists s. split; [done|]. apply Hcomplete; [done|by eapply bs_ok|done].
Qed.
End liveness.

(** * Definite assignment *)

(** Variable [v] may be unassigned at the start of block [b]: [b] is an entry
    whose seed does not have [v], or a block that no edge leads to, or some edge
    leads to it from a block that does not define [v] and where [v] may be
    unassigned. *)
Inductive unassigned (bs : list VntCfgBlock) (defs seed : list (list bool)) (is_entry : list bool)
    (v : nat) : nat -> Prop :=
  | unassigned_entry b :
      b < length bs -> is_entry !!! b = true -> at_ seed b v = false ->
      unassigned bs defs seed is_entry v b
  | unassigned_alone b :
      b < length bs -> is_entry !!! b = false -> (forall p, ~ edge bs p b) ->
      unassigned bs defs seed is_entry v b
  | unassigned_later p b :
      edge bs p b -> is_entry !!! b = false -> at_ defs p v = false ->
      unassigned bs defs seed is_entry v p -> unassigned bs defs seed is_entry v b.

Lemma block_has_predecessor_spec bs p b : block_has_predecessor bs p b = true <-> edge bs p b.
Proof.
  unfold block_has_predecessor, edge. destruct (bs !! p) as [block|].
  - rewrite bool_decide_eq_true. split; [eauto|]. by intros (? & [= <-] & ?).
  - split; [done|]. by intros (? & ? & _).
Qed.

Section assignment.
Context (bs : list VntCfgBlock) (defs seed : list (list bool)) (is_entry : list bool) (vars : nat).
Hypothesis defs_shaped : shaped (length bs) vars defs.
Hypothesis seed_shaped : shaped (length bs) vars seed.
Hypothesis is_entry_length : length is_entry = length bs.
Hypothesis bs_ok : edges_ok bs.
Local Abbreviation n := (length bs).
Local Abbreviation Unassigned := (unassigned bs defs seed is_entry).

(** The right-hand sides of the two equations. *)
Definition meet (m : list (list bool)) (b v : nat) : bool :=
  existsb (fun p => block_has_predecessor bs p b) (seq 0 n) &&
  forallb (fun p => if block_has_predecessor bs p b then at_ m p v else true) (seq 0 n).
Definition assigned_of (m : list (list bool)) (b v : nat) : bool :=
  if (is_entry !!! b : bool) then at_ seed b v else meet m b v.

Lemma meet_false m b v : meet m b v = false <->
  (forall p, ~ edge bs p b) \/ exists p, edge bs p b /\ at_ m p v = false.
Proof.
  unfold meet. rewrite andb_false_iff, existsb_false, forallb_false. split.
  - intros [H|(p & _ & Hp)].
    + left. intros p Hp. pose proof (edge_source _ _ _ Hp) as Hr.
      apply block_has_predecessor_spec in Hp. rewrite H in Hp; [done|]. apply in_seq. lia.
    + right. exists p. destruct (block_has_predecessor bs p b) eqn:E; [|done].
      by apply block_has_predecessor_spec in E.
  - intros [H|(p & Hp & Hm)].
    + left. intros p _. apply not_true_iff_false. by rewrite block_has_predecessor_spec.
    + right. exists p. pose proof (edge_source _ _ _ Hp) as Hr.
      apply block_has_predecessor_spec in Hp as ->. rewrite in_seq. auto with lia.
Qed.

Lemma and_predecessors_spec m b v : shaped n vars m -> v < vars -> forall ps x has,
  Forall (fun p => p < n) ps ->
  and_predecessors bs m b v ps x has =
  Done (x && forallb (fun p => if block_has_predecessor bs p b then at_ m p v else true) ps,
        has || existsb (fun p => block_has_predecessor bs p b) ps).
Proof.
  intros Hm Hv ps. induction ps as [|p ps IH]; intros x has Hps; cbn [and_predecessors forallb existsb].
  - by rewrite andb_true_r, orb_false_r.
  - apply Forall_cons in Hps as [Hp Hps]. destruct (block_has_predecessor bs p b).
    + rewrite (cell_done m p v Hm Hp Hv). cbn [mbind outcome_bind]. rewrite IH by done.
      by rewrite andb_assoc, orb_true_r.
    + rewrite IH by done. by rewrite orb_false_l.
Qed.

Lemma assigned_of_mono m m' b v :
  (forall p, p < n -> at_ m p v = false -> at_ m' p v = false) ->
  assigned_of m b v = false -> assigned_of m' b v = false.
Proof.
  intros H. unfold assigned_of. destruct (is_entry !!! b); [done|]. rewrite !meet_false.
  intros [Hno|(p & Hp & Hm)]; [by left|right]. exists p. split; [done|].
  apply H; [by eapply edge_source|done].
Qed.

(** The invariant: every false cell is justified by a path, and by its equation. *)
Record assignment_inv (f : Flow) : Prop := {
  ai_in : shaped n vars (f_in f);
  ai_out : shaped n vars (f_out f);
  ai_in_path : forall b v, b < n -> v < vars -> at_ (f_in f) b v = false -> Unassigned v b;
  ai_out_path : forall b v, b < n -> v < vars -> at_ (f_out f) b v = false ->
    Unassigned v b /\ at_ defs b v = false;
  ai_in_eq : forall b v, b < n -> v < vars -> at_ (f_in f) b v = false ->
    assigned_of (f_out f) b v = false;
  ai_out_eq : forall b v, b < n -> v < vars -> at_ (f_out f) b v = false ->
    at_ (f_in f) b v = false
}.

Definition assignment_rank (f : Flow) : nat := count_cells false (f_in f) + count_cells false (f_out f).

Definition in_eq (b v : nat) (f : Flow) : Prop := at_ (f_in f) b v = assigned_of (f_out f) b v.
Definition out_eq (b v : nat) (f : Flow) : Prop :=
  at_ (f_out f) b v = at_ (f_in f) b v || at_ defs b v.

Lemma flow_in_progress b v f :
  b < n -> v < vars -> assignment_inv f ->
  returns (flow_in b v (assigned_of (f_out f) b v) f)
    (progress assignment_inv assignment_rank (in_eq b v) f).
Proof.
  intros Hb Hv [Hin Hout Hip Hop Hie Hoe]. unfold flow_in.
  destruct (put_spec n vars false (f_in f) b v (assigned_of (f_out f) b v) (f_changed f))
    as (m & c & -> & Hm & Hat & Hc); [done..|by apply Hie|].
  cbn [mbind outcome_bind mret outcome_ret returns fst snd].
  constructor; cbn [f_in f_out f_changed].
  - constructor; cbn [f_in f_out f_changed]; [done|done|..]; intros b' v' Hb' Hv'.
    + rewrite Hat. case_decide as Hcw; [|by apply Hip]. destruct Hcw as [-> ->].
      unfold assigned_of. destruct (is_entry !!! b) eqn:Ee; [by apply unassigned_entry|].
      rewrite meet_false. intros [Hno|(p & Hp & Hpm)]; [by apply unassigned_alone|].
      destruct (Hop p v (edge_source _ _ _ Hp) Hv Hpm). by eapply unassigned_later.
    + by apply Hop.
    + rewrite Hat. case_decide as Hcw; [by destruct Hcw as [-> ->]|by apply Hie].
    + intros H. pose proof (Hoe b' v' Hb' Hv' H) as Hold. rewrite Hat.
      case_decide as Hcw; [|done]. destruct Hcw as [-> ->]. by apply Hie.
  - unfold assignment_rank. cbn [f_in f_out]. destruct Hc as [(-> & _)|(_ & _ & _ & ->)]; lia.
  - intros E. by destruct Hc as [(_ & _ & ->)|(-> & _)].
  - intros E. unfold assignment_rank. cbn [f_in f_out].
    destruct Hc as [(-> & _ & ->)|(-> & _ & _ & ->)]; [by left|right; lia].
  - intros E. destruct Hc as [(-> & Ho & ->)|(-> & _)]; [|done].
    split; [by destruct f; cbn in *; subst|]. done.
Qed.

Lemma flow_out_progress b v f :
  b < n -> v < vars -> assignment_inv f ->
  returns (flow_out b v (at_ (f_in f) b v || at_ defs b v) f)
    (progress assignment_inv assignment_rank (out_eq b v) f).
Proof.
  intros Hb Hv [Hin Hout Hip Hop Hie Hoe]. unfold flow_out.
  destruct (put_spec n vars false (f_out f) b v (at_ (f_in f) b v || at_ defs b v) (f_changed f))
    as (m & c & -> & Hm & Hat & Hc); [done..| |].
  { intros H. rewrite (Hoe b v Hb Hv H). by destruct (Hop b v Hb Hv H) as [_ ->]. }
  cbn [mbind outcome_bind mret outcome_ret returns fst snd].
  constructor; cbn [f_in f_out f_changed].
  - constructor; cbn [f_in f_out f_changed]; [done|done|..]; intros b' v' Hb' Hv'.
    + by apply Hip.
    + rewrite Hat. case_decide as Hcw; [|by apply Hop]. destruct Hcw as [-> ->].
      rewrite orb_false_iff. intros [Hi Hd]. split; [by apply Hip|done].
    + intros H. apply (assigned_of_mono (f_out f)); [|by apply Hie].
      intros p Hp Hpm. rewrite Hat. case_decide as Hcw; [|done]. destruct Hcw as [-> ->].
      rewrite (Hoe b v Hb Hv Hpm). by destruct (Hop b v Hb Hv Hpm) as [_ ->].
    + rewrite Hat. case_decide as Hcw; [|by apply Hoe]. destruct Hcw as [-> ->].
      rewrite orb_false_iff. by intros [? _].
  - unfold assignment_rank. cbn [f_in f_out]. destruct Hc as [(-> & _)|(_ & _ & _ & ->)]; lia.
  - intros E. by destruct Hc as [(_ & _ & ->)|(-> & _)].
  - intros E. unfold assignment_rank. cbn [f_in f_out].
    destruct Hc as [(-> & _ & ->)|(-> & _ & _ & ->)]; [by left|right; lia].
  - intros E. destruct Hc as [(-> & Ho & ->)|(-> & _)]; [|done].
    split; [by destruct f; cbn in *; subst|]. done.
Qed.

Lemma assigned_in_progress b v f :
  b < n -> v < vars -> assignment_inv f ->
  returns (assigned_in bs seed is_entry b v f)
    (progress assignment_inv assignment_rank (in_eq b v) f).
Proof.
  intros Hb Hv Hf. unfold assigned_in, read_bit.
  rewrite list_lookup_total_lt by (by rewrite is_entry_length). cbn [mbind outcome_bind].
  pose proof (flow_in_progress b v f Hb Hv Hf) as H. unfold assigned_of in H.
  destruct (is_entry !!! b).
  - by rewrite (cell_done seed b v seed_shaped Hb Hv).
  - rewrite and_predecessors_spec; [exact H|by destruct Hf|done|].
    apply Forall_forall. intros p Hp. apply elem_of_seq in Hp. lia.
Qed.

Lemma assigned_out_progress b v f :
  b < n -> v < vars -> assignment_inv f ->
  returns (assigned_out defs b v f) (progress assignment_inv assignment_rank (out_eq b v) f).
Proof.
  intros Hb Hv Hf. unfold assigned_out.
  rewrite (cell_done (f_in f) b v) by (by destruct Hf).
  rewrite (cell_done defs b v defs_shaped Hb Hv). by apply flow_out_progress.
Qed.

Lemma assignment_rank_bound f : assignment_inv f -> assignment_rank f <= 2 * (n * vars).
Proof.
  intros [H1 H2 _ _ _ _]. unfold assignment_rank.
  pose proof (count_cells_le false _ H1). pose proof (count_cells_le false _ H2). lia.
Qed.

Lemma assignment_round_progress f : assignment_inv f ->
  returns (assignment_round bs defs seed is_entry vars f)
    (progress assignment_inv assignment_rank
       (fun f => forall b v, b < n -> v < vars -> in_eq b v f /\ out_eq b v f) f).
Proof.
  intros Hf. unfold assignment_round.
  eapply returns_mono.
  { apply (flow_loop_progress assignment_inv assignment_rank _
      (fun b f => (forall v, v ∈ seq 0 vars -> in_eq b v f) /\
                  (forall v, v ∈ seq 0 vars -> out_eq b v f))); [|exact Hf].
    intros b g Hb Hg. apply elem_of_seq in Hb. apply progress_bind.
    - apply flow_loop_progress; [|done]. intros v h Hv Hh. apply elem_of_seq in Hv.
      apply assigned_in_progress; [lia..|done].
    - intros g' Hg'. apply flow_loop_progress; [|done]. intros v h Hv Hh. apply elem_of_seq in Hv.
      apply assigned_out_progress; [lia..|done]. }
  intros f'. apply progress_weaken. intros H b v Hb Hv.
  destruct (H b) as [H1 H2]; [apply elem_of_seq; lia|].
  split; [apply H1|apply H2]; apply elem_of_seq; lia.
Qed.

(** The iteration ends, and its result is exact. *)
Lemma assignment_exact c :
  returns (flow_iterate (flow_fuel n vars) (assignment_round bs defs seed is_entry vars)
             {| f_in := ones n vars; f_out := ones n vars; f_changed := c |})
    (fun f => shaped n vars (f_in f) /\
       forall b v, b < n -> v < vars -> (at_ (f_in f) b v = false <-> Unassigned v b)).
Proof.
  eapply returns_mono.
  { apply (flow_iterate_fixed assignment_inv assignment_rank (2 * (n * vars))).
    - by intros f [? ? ? ? ? ?].
    - done.
    - apply assignment_rank_bound.
    - apply assignment_round_progress.
    - constructor; cbn [f_in f_out]; try apply replicate_shaped; intros b v Hb Hv;
        unfold ones; by rewrite at_replicate.
    - unfold flow_fuel. lia. }
  intros f [[Hin Hout Hip Hop _ _] Heqs]. split; [done|]. intros b v Hb Hv.
  split; [by apply Hip|]. intros H.
  induction H as [b _ He Hs|b _ He Hno|p b Hp He Hd _ IH];
    destruct (Heqs b v Hb Hv) as [Hi _]; rewrite Hi; unfold assigned_of; rewrite He.
  - done.
  - apply meet_false. by left.
  - apply meet_false. right. exists p. split; [done|].
    pose proof (edge_source _ _ _ Hp) as Hpr.
    destruct (Heqs p v Hpr Hv) as [_ ->]. rewrite Hd, IH by done. done.
Qed.
End assignment.
