(* ===== verification/DataflowEffects.v ===== *)
(** DataflowEffects: what a block uses and defines. It is read off the tree of
    its instruction, and the rows of the analyses hold exactly that. *)

From S2P Require Import Prelude Clib Ast Ir IrTrees IrFacts IrAccess Cfg CfgTraces Dataflow.
From S2P Require Import DataflowFacts.

(** * The set of variables *)

Lemma index_from_some names : forall i name v, index_from i names name = Some v ->
  exists k, v = i + k /\ names !! k = Some name.
Proof.
  induction names as [|n names IH]; intros i name v; cbn; [done|].
  destruct (bytes_eqb n name) eqn:E.
  - intros [= <-]. apply bytes_eqb_spec in E as ->. exists 0. by rewrite Nat.add_0_r.
  - intros H. apply IH in H as (k & -> & Hk). exists (S k). split; [lia|done].
Qed.

Lemma variable_index_some names name v :
  variable_index names name = Some v -> names !! v = Some name.
Proof. intros H. by apply index_from_some in H as (k & -> & Hk). Qed.

Lemma index_from_nodup names : NoDup names -> forall i k name,
  names !! k = Some name -> index_from i names name = Some (i + k).
Proof.
  induction 1 as [|n names Hn _ IH]; intros i k name Hk; [done|]. cbn.
  destruct k as [|k].
  - injection Hk as ->. replace (bytes_eqb name name) with true by (symmetry; by apply bytes_eqb_spec).
    f_equal. lia.
  - cbn in Hk. destruct (bytes_eqb n name) eqn:E.
    + apply bytes_eqb_spec in E as ->. exfalso. apply Hn. by eapply list_elem_of_lookup_2.
    + rewrite (IH _ _ _ Hk). f_equal. lia.
Qed.

Lemma variable_index_nodup names name v :
  NoDup names -> (variable_index names name = Some v <-> names !! v = Some name).
Proof.
  intros Hd. split; [apply variable_index_some|]. by apply index_from_nodup.
Qed.

Lemma variable_set_add_in names name n : n ∈ variable_set_add names name <-> n ∈ names \/ n = name.
Proof.
  unfold variable_set_add. destruct (existsb (bytes_eqb name) names) eqn:E.
  - split; [by left|]. intros [?| ->]; [done|]. apply existsb_exists in E as (m & Hm & E).
    apply bytes_eqb_spec in E as ->. by apply list_elem_of_In.
  - by rewrite elem_of_app, list_elem_of_singleton.
Qed.

Lemma variable_set_add_nodup names name : NoDup names -> NoDup (variable_set_add names name).
Proof.
  intros Hd. unfold variable_set_add. destruct (existsb (bytes_eqb name) names) eqn:E; [done|].
  apply NoDup_app. split_and!; [done| |apply NoDup_singleton].
  intros m Hm ->%list_elem_of_singleton. rewrite existsb_false in E.
  specialize (E name). rewrite <- list_elem_of_In in E. specialize (E Hm).
  by rewrite (proj2 (bytes_eqb_spec name name)) in E.
Qed.

(** The variables a node mentions. *)
Definition mentions (n : VntIrNode) (name : bytes) : Prop :=
  match opcode n with
  | VNT_IR_VARIABLE | VNT_IR_VARIABLE_DECL | VNT_IR_REASSIGN => value n = VAL_TEXT name
  | VNT_IR_FUNCTION => name ∈ names n
  | _ => False
  end.

Lemma add_all_nodup ns : forall set, NoDup set -> NoDup (fold_left variable_set_add ns set).
Proof. induction ns as [|n ns IH]; intros set Hd; cbn; [done|]. by apply IH, variable_set_add_nodup. Qed.

Lemma add_all_in ns : forall set m, m ∈ fold_left variable_set_add ns set <-> m ∈ set \/ m ∈ ns.
Proof.
  induction ns as [|n ns IH]; intros set m; cbn.
  - rewrite elem_of_nil. tauto.
  - rewrite IH, variable_set_add_in, elem_of_cons. tauto.
Qed.

Lemma collect_node_spec n set : NoDup set -> label_ok (label_of n) ->
  returns (collect_node set n) (fun set' =>
    NoDup set' /\ forall m, m ∈ set' <-> m ∈ set \/ mentions n m).
Proof.
  intros Hd [Ht _ _ _ _]. unfold collect_node, mentions, node_text. cbn in Ht.
  destruct (opcode n); try (cbn; split; [done|]; tauto).
  1: { cbn. split; [by apply add_all_nodup|]. intros m. apply add_all_in. }
  all: destruct (Ht eq_refl) as [text ->]; cbn; split; [by apply variable_set_add_nodup|];
    intros m; rewrite variable_set_add_in; naive_solver.
Qed.

Lemma collect_nodes_spec ns : Forall (fun n => label_ok (label_of n)) ns -> forall set, NoDup set ->
  returns (collect_nodes ns set) (fun set' =>
    NoDup set' /\ forall m, m ∈ set' <-> m ∈ set \/ exists n, n ∈ ns /\ mentions n m).
Proof.
  induction 1 as [|n ns Hn _ IH]; intros set Hd; cbn [collect_nodes].
  - split; [done|]. intros m. split; [by left|]. by intros [?|(n & []%not_elem_of_nil & _)].
  - apply returns_bind. eapply returns_mono; [by apply collect_node_spec|]. intros set1 [Hd1 Hin1].
    eapply returns_mono; [by apply IH|]. intros set2 [Hd2 Hin2]. split; [done|]. intros m.
    rewrite Hin2, Hin1. split.
    + intros [[?|?]|(k & Hk & ?)]; [by left|right; exists n; split; [left|done]|].
      right. exists k. split; [by right|done].
    + intros [?|(k & [->|Hk]%elem_of_cons & ?)]; eauto.
Qed.

Lemma collect_variables_spec ir : ir_valid ir ->
  returns (collect_variables ir) (fun set =>
    NoDup set /\ forall m, m ∈ set <-> exists n, n ∈ nodes ir /\ mentions n m).
Proof.
  intros Hv. eapply returns_mono.
  { apply collect_nodes_spec; [|apply NoDup_nil_2]. apply Forall_forall. intros n Hn.
    apply list_elem_of_lookup in Hn as [i Hi].
    destruct (valid_children_list ir i Hv) as (n' & l & Hn' & Hlab & _).
    { by eapply lookup_lt_Some. } by simplify_eq. }
  intros set [Hd Hin]. split; [done|]. intros m. rewrite Hin.
  split; [|by right]. intros [[]%not_elem_of_nil|?]; done.
Qed.

(** * Reads *)

(** The variables in the tree at a node. *)
Inductive reads (ir : VntIrProgram) (name : bytes) : nat -> Prop :=
  | reads_variable i n :
      nodes ir !! i = Some n -> opcode n = VNT_IR_VARIABLE -> value n = VAL_TEXT name ->
      reads ir name i
  | reads_child i n l c :
      nodes ir !! i = Some n -> chain ir (first_child n) l -> c ∈ l ->
      opcode n <> VNT_IR_VARIABLE -> reads ir name c -> reads ir name i.

(** [row'] is [row] with the variables that satisfy [P] marked. *)
Definition marked (set : list bytes) (P : bytes -> Prop) (row row' : list bool) : Prop :=
  length row' = length row /\
  forall v, v < length row ->
    (row' !!! v = true <-> row !!! v = true \/ exists name, P name /\ variable_index set name = Some v).

Lemma marked_refl set (P : bytes -> Prop) row : (forall name, ~ P name) -> marked set P row row.
Proof. intros H. split; [done|]. intros v _. split; [by left|]. intros [?|(n & Hn & _)]; [done|by destruct (H n)]. Qed.

Lemma marked_trans set P Q r1 r2 r3 :
  marked set P r1 r2 -> marked set Q r2 r3 -> marked set (fun name => P name \/ Q name) r1 r3.
Proof.
  intros [L1 H1] [L2 H2]. split; [lia|]. intros v Hv. rewrite H2, H1 by lia. naive_solver.
Qed.

Lemma marked_iff set (P Q : bytes -> Prop) r1 r2 :
  (forall name, P name <-> Q name) -> marked set P r1 r2 -> marked set Q r1 r2.
Proof. intros HPQ [L H]. split; [done|]. intros v Hv. rewrite H by done. naive_solver. Qed.

Lemma mark_variable_marked set row name : length row = length set ->
  marked set (fun n => n = name) row (mark_variable row set name).
Proof.
  intros Hl. unfold mark_variable. destruct (variable_index set name) as [i|] eqn:E.
  - pose proof (variable_index_some _ _ _ E) as Hi%lookup_lt_Some.
    split; [apply length_insert|]. intros v Hv. destruct (decide (v = i)) as [->|Hne].
    + rewrite list_lookup_total_insert_eq by lia. naive_solver.
    + rewrite list_lookup_total_insert_ne by done. naive_solver.
  - split; [done|]. intros v Hv. naive_solver.
Qed.

Lemma collect_expression_reads_spec ir set s : subtree ir s -> forall fuel row,
  length row = length set -> length (indices s) <= fuel ->
  returns (collect_expression_reads fuel ir (Some (index s)) set row)
    (marked set (fun name => reads ir name (index s)) row).
Proof.
  induction s as [i l ts IH] using tree_ind. intros Hs fuel row Hrow Hfuel.
  destruct (subtree_inv _ _ _ _ Hs) as (n & Hn & -> & [Hc _ _] & Hd & Hlab & _ & Hts).
  destruct fuel as [|f]; [cbn in Hfuel; lia|]. cbn [collect_expression_reads index].
  assert (i < node_count ir) as Hi by (by eapply lookup_lt_Some).
  destruct (Nat.leb_spec (node_count ir) i) as [|_]; [lia|].
  rewrite (node_at_done _ _ _ Hn). cbn [mbind outcome_bind]. case_bool_decide as Hop.
  - destruct Hlab as [Ht _ _ _ _]. cbn in Ht. rewrite Hop in Ht. destruct (Ht eq_refl) as [text Htext].
    unfold node_text. rewrite Htext. cbn. eapply marked_iff; [|by apply mark_variable_marked].
    intros name. split; [intros ->; by eapply reads_variable|].
    intros H. inversion H; simplify_eq; congruence.
  - eapply returns_mono.
    { apply (fold_siblings_spec ir _ _ _ (fun done => marked set (fun name => exists c, c ∈ done /\ reads ir name c) row) Hc)
        with (done := []).
      - intros c done r Hcin Hr. apply list_elem_of_fmap in Hcin as (t & -> & Ht).
        rewrite Forall_forall in IH, Hts.
        eapply returns_mono; [apply (IH t Ht (Hts t Ht))|].
        + destruct Hr as [Hr _]. congruence.
        + pose proof (child_subtree_length t ts i (label_of n) Ht). lia.
        + intros r' Hr'. eapply marked_iff; [|by eapply marked_trans].
          intros name. setoid_rewrite elem_of_app. setoid_rewrite list_elem_of_singleton. naive_solver.
      - apply marked_refl. intros name (c & []%not_elem_of_nil & _).
      - by apply (chain_fuel _ _ _ Hc). }
    intros row'. apply marked_iff. intros name. cbn [app]. split.
    + intros (c & Hcin & Hr). by eapply reads_child.
    + intros H. inversion H as [? n' Hn' Hop' _|? n' l' c Hn' Hc' Hcin' _ Hr]; simplify_eq.
      pose proof (chain_det _ _ _ Hc _ Hc') as <-. eauto.
Qed.

Lemma reads_valid ir set i row : ir_valid ir -> i < node_count ir -> length row = length set ->
  returns (collect_expression_reads (reads_fuel ir) ir (Some i) set row)
    (marked set (fun name => reads ir name i) row).
Proof.
  intros Hv Hi Hrow. destruct (valid_subtree ir i Hv Hi) as (s & Hs & <- & Hlen).
  apply collect_expression_reads_spec; [done|done|]. unfold reads_fuel. lia.
Qed.

(** * What a block uses and defines *)

Definition is_child (ir : VntIrProgram) (i c : nat) : Prop :=
  exists n l, nodes ir !! i = Some n /\ chain ir (first_child n) l /\ c ∈ l.

(** Child [c] of [i] is the variable that an assignment writes. *)
Definition assigned_variable (ir : VntIrProgram) (c : nat) : Prop :=
  exists m, nodes ir !! c = Some m /\ role m = VNT_IR_EDGE_TARGET /\ opcode m = VNT_IR_VARIABLE.

(** The instruction at [i] reads the variable: it is in the tree, and not just
    as the variable assigned. *)
Definition instruction_uses (ir : VntIrProgram) (i : nat) (name : bytes) : Prop :=
  exists n, nodes ir !! i = Some n /\
    if decide (opcode n = VNT_IR_ASSIGN)
    then exists c, is_child ir i c /\ ~ assigned_variable ir c /\ reads ir name c
    else reads ir name i.

Definition instruction_defines (ir : VntIrProgram) (i : nat) (name : bytes) : Prop :=
  exists n, nodes ir !! i = Some n /\
    match opcode n with
    | VNT_IR_VARIABLE_DECL => first_child n <> None /\ value n = VAL_TEXT name
    | VNT_IR_REASSIGN => value n = VAL_TEXT name
    | VNT_IR_ASSIGN => exists c m, is_child ir i c /\ assigned_variable ir c /\
        nodes ir !! c = Some m /\ value m = VAL_TEXT name
    | _ => False
    end.

Definition block_uses (ir : VntIrProgram) (b : VntCfgBlock) (name : bytes) : Prop :=
  (exists c, condition b = Some c /\ reads ir name c) \/
  (exists i, instruction b = Some i /\ instruction_uses ir i name).

Definition block_defines (ir : VntIrProgram) (b : VntCfgBlock) (name : bytes) : Prop :=
  exists i, instruction b = Some i /\ instruction_defines ir i name.

Lemma is_child_of ir i n l : nodes ir !! i = Some n -> chain ir (first_child n) l ->
  forall c, is_child ir i c <-> c ∈ l.
Proof.
  intros Hn Hc c. split; [|by exists n, l].
  intros (n' & l' & Hn' & Hc' & Hin). simplify_eq. by rewrite (chain_det _ _ _ Hc _ Hc').
Qed.

Lemma reads_children ir name i n : nodes ir !! i = Some n -> opcode n <> VNT_IR_VARIABLE ->
  (reads ir name i <-> exists c, is_child ir i c /\ reads ir name c).
Proof.
  intros Hn Hop. split.
  - intros H. inversion H; simplify_eq. eexists. split; [by do 2 eexists|done].
  - intros (c & (n' & l & Hn' & Hc & Hin) & Hr). simplify_eq. by eapply reads_child.
Qed.

(** The rows of a block after reading one node more. *)
Lemma marked_step set P row0 row1 : marked set P row0 row1 -> length row0 = length set ->
  length row1 = length set.
Proof. intros [-> _]. done. Qed.

Lemma option_reads ir set (o : option nat) row : ir_valid ir -> length row = length set ->
  (forall i, o = Some i -> i < node_count ir) ->
  returns (collect_expression_reads (reads_fuel ir) ir o set row)
    (marked set (fun name => exists i, o = Some i /\ reads ir name i) row).
Proof.
  intros Hv Hrow Ho. destruct o as [i|].
  - eapply returns_mono; [apply reads_valid; auto|]. intros row'. apply marked_iff. naive_solver.
  - cbn. apply marked_refl. intros name (i & [=] & _).
Qed.

Lemma child_role_valid ir i n l r : nodes ir !! i = Some n -> chain ir (first_child n) l -> NoDup l ->
  child_role ir i r = Done (first_in_role ir r l).
Proof.
  intros Hn Hc Hd. unfold child_role.
  destruct (Nat.leb_spec (node_count ir) i) as [H|_].
  { apply lookup_lt_Some in Hn. unfold node_count in H. lia. }
  rewrite (node_at_done _ _ _ Hn). by apply find_role_spec.
Qed.

Lemma at_most_value ir l :
  map (role_at ir) l = [] \/ map (role_at ir) l = [VNT_IR_EDGE_VALUE] ->
  first_in_role ir VNT_IR_EDGE_VALUE l = head l /\ forall c, c ∈ l <-> head l = Some c.
Proof.
  destruct l as [|c [|d l]]; cbn.
  - intros _. split; [done|]. intros c. rewrite elem_of_nil. naive_solver.
  - intros [?|[= H]]; [done|]. rewrite H. split; [done|].
    intros d. rewrite list_elem_of_singleton. naive_solver.
  - naive_solver.
Qed.

Lemma target_and_value ir l :
  map (role_at ir) l ≡ₚ [VNT_IR_EDGE_TARGET; VNT_IR_EDGE_VALUE] ->
  exists t v, first_in_role ir VNT_IR_EDGE_TARGET l = Some t /\
    first_in_role ir VNT_IR_EDGE_VALUE l = Some v /\
    role_at ir t = VNT_IR_EDGE_TARGET /\ role_at ir v = VNT_IR_EDGE_VALUE /\
    forall c, c ∈ l <-> c = t \/ c = v.
Proof.
  intros H. pose proof (Permutation_length H) as Hl.
  destruct l as [|a [|b [|? l]]]; try done. cbn in H.
  assert (forall c : nat, c ∈ [a; b] <-> c = a \/ c = b) as Hin.
  { intros c. by rewrite elem_of_cons, list_elem_of_singleton. }
  apply Permutation_length_2_inv in H as [[= Ha Hb]|[= Hb Ha]].
  - exists a, b. cbn. rewrite <- Ha, <- Hb. split_and!; try done.
  - exists b, a. cbn. rewrite <- Ha, <- Hb. split_and!; try done. intros c. rewrite Hin. tauto.
Qed.

Section effects.
Context (ir : VntIrProgram) (set : list bytes) (uses defs : list bool).
Hypothesis valid : ir_valid ir.
Hypothesis uses_length : length uses = length set.
Hypothesis defs_length : length defs = length set.

(** The rows of the block, after those of the instruction. *)
Definition effects_are (U D : bytes -> Prop) (e : list bool * list bool) : Prop :=
  marked set U uses e.1 /\ marked set D defs e.2.

Lemma read_then (o : option nat) (U : bytes -> Prop) (k : list bool -> outcome (list bool * list bool)) D :
  (forall c, o = Some c -> c < node_count ir) ->
  (forall name, U name <-> exists c, o = Some c /\ reads ir name c) ->
  (forall uses', marked set U uses uses' -> returns (k uses') (effects_are U D)) ->
  returns (collect_expression_reads (reads_fuel ir) ir o set uses ≫= k) (effects_are U D).
Proof.
  intros Ho HU Hk. apply returns_bind.
  eapply returns_mono; [by apply option_reads|]. intros uses' Hm. apply Hk.
  eapply marked_iff; [|exact Hm]. intros name. by rewrite HU.
Qed.

Lemma no_definitions D : (forall name, ~ D name) -> marked set D defs defs.
Proof. apply marked_refl. Qed.

Lemma one_definition D text : (forall name, D name <-> name = text) ->
  marked set D defs (mark_variable defs set text).
Proof. intros H. eapply marked_iff; [|by apply mark_variable_marked]. intros name. by rewrite H. Qed.
End effects.

Section instruction.
Context (ir : VntIrProgram) (i : nat) (n : VntIrNode) (l : list nat).
Hypothesis valid : ir_valid ir.
Hypothesis Hn : nodes ir !! i = Some n.
Hypothesis Hc : chain ir (first_child n) l.
Hypothesis Hnd : NoDup l.

Lemma child_in_range c : c ∈ l -> c < node_count ir.
Proof. intros H. by eapply chain_in_range. Qed.

Lemma uses_at name :
  instruction_uses ir i name <->
  if decide (opcode n = VNT_IR_ASSIGN)
  then exists c, is_child ir i c /\ ~ assigned_variable ir c /\ reads ir name c
  else reads ir name i.
Proof.
  split; [|by exists n]. intros (n' & Hn' & H). by simplify_eq.
Qed.

Lemma defines_at name :
  instruction_defines ir i name <->
  match opcode n with
  | VNT_IR_VARIABLE_DECL => first_child n <> None /\ value n = VAL_TEXT name
  | VNT_IR_REASSIGN => value n = VAL_TEXT name
  | VNT_IR_ASSIGN => exists c m, is_child ir i c /\ assigned_variable ir c /\
      nodes ir !! c = Some m /\ value m = VAL_TEXT name
  | _ => False
  end.
Proof. split; [|by exists n]. intros (n' & Hn' & H). by simplify_eq. Qed.

(** Instructions whose only child is a value. *)
Lemma value_instruction :
  map (role_at ir) l = [] \/ map (role_at ir) l = [VNT_IR_EDGE_VALUE] ->
  opcode n <> VNT_IR_VARIABLE -> opcode n <> VNT_IR_ASSIGN ->
  child_role ir i VNT_IR_EDGE_VALUE = Done (head l) /\
  (forall c, head l = Some c -> c < node_count ir) /\
  forall name, instruction_uses ir i name <-> exists c, head l = Some c /\ reads ir name c.
Proof.
  intros Hr Hvar Hassign. destruct (at_most_value ir l Hr) as [Hf Hin].
  rewrite (child_role_valid _ _ _ _ _ Hn Hc Hnd), Hf. split_and!; [done| |].
  - intros c H. by apply child_in_range, Hin.
  - intros name. rewrite uses_at, decide_False, (reads_children ir name i n Hn Hvar) by done.
    setoid_rewrite (is_child_of _ _ _ _ Hn Hc). by setoid_rewrite Hin.
Qed.

Lemma text_of text m name : value m = VAL_TEXT text -> (value m = VAL_TEXT name <-> name = text).
Proof. intros ->. split; [by intros [= ->]|by intros ->]. Qed.

(** Assignments. *)
Lemma assign_instruction :
  map (role_at ir) l ≡ₚ [VNT_IR_EDGE_TARGET; VNT_IR_EDGE_VALUE] -> opcode n = VNT_IR_ASSIGN ->
  exists t m v, child_role ir i VNT_IR_EDGE_TARGET = Done (Some t) /\ nodes ir !! t = Some m /\
    child_role ir i VNT_IR_EDGE_VALUE = Done (Some v) /\ v < node_count ir /\
    (forall name, instruction_uses ir i name <->
       (opcode m <> VNT_IR_VARIABLE /\ reads ir name t) \/ reads ir name v) /\
    (forall name, instruction_defines ir i name <->
       opcode m = VNT_IR_VARIABLE /\ value m = VAL_TEXT name).
Proof.
  intros Hr Hop. destruct (target_and_value ir l Hr) as (t & v & Ht & Hv & Hrt & Hrv & Hin).
  pose proof (is_child_of _ _ _ _ Hn Hc) as Hchild. setoid_rewrite Hin in Hchild.
  assert (t < node_count ir /\ v < node_count ir) as [Hti Hvi].
  { split; apply child_in_range, Hin; auto. }
  destruct (lookup_lt_is_Some_2 _ _ Hti) as [m Hm].
  assert (assigned_variable ir t <-> opcode m = VNT_IR_VARIABLE) as Hat.
  { rewrite (role_at_node _ _ _ Hm) in Hrt. unfold assigned_variable. naive_solver. }
  assert (~ assigned_variable ir v) as Hav.
  { intros (m' & Hm' & Hr' & _). rewrite (role_at_node _ _ _ Hm') in Hrv. congruence. }
  exists t, m, v. rewrite !(child_role_valid _ _ _ _ _ Hn Hc Hnd), Ht, Hv.
  split_and!; try done; intros name.
  - rewrite uses_at, decide_True by done. split.
    + intros (c & [-> | ->]%Hchild & Hca & Hread); [left|by right]. by rewrite <- Hat.
    + intros [[Hnot Hread]|Hread]; [exists t|exists v]; rewrite Hchild; split_and!; auto.
      by rewrite Hat.
  - rewrite defines_at, Hop. split.
    + intros (c & m' & [-> | ->]%Hchild & Hca & Hm' & Hval); [|done]. simplify_eq. by rewrite <- Hat.
    + intros [Hvar Hval]. exists t, m. rewrite Hchild, Hat. auto.
Qed.
End instruction.

(** The cases that only read a value, and those that also define a variable. *)
Lemma reads_only ir set uses defs o (U D : bytes -> Prop) :
  ir_valid ir -> length uses = length set ->
  (forall c, o = Some c -> c < node_count ir) ->
  (forall name, U name <-> exists c, o = Some c /\ reads ir name c) -> (forall name, ~ D name) ->
  returns (uses ← collect_expression_reads (reads_fuel ir) ir o set uses; mret (uses, defs))
    (effects_are set uses defs U D).
Proof.
  intros Hv Hu Ho HU HD. eapply read_then; [done..|]. intros uses' Hm. split; [done|].
  by apply no_definitions.
Qed.

Lemma reads_and_defines ir set uses defs o n text (U D : bytes -> Prop) :
  ir_valid ir -> length uses = length set -> length defs = length set ->
  (forall c, o = Some c -> c < node_count ir) ->
  (forall name, U name <-> exists c, o = Some c /\ reads ir name c) ->
  value n = VAL_TEXT text -> (forall name, D name <-> name = text) ->
  returns (uses ← collect_expression_reads (reads_fuel ir) ir o set uses;
           text ← node_text n;
           mret (uses, mark_variable defs set text))
    (effects_are set uses defs U D).
Proof.
  intros Hv Hu Hd Ho HU Ht HD. eapply read_then; [done..|]. intros uses' Hm.
  unfold node_text. rewrite Ht. split; [done|]. by apply one_definition.
Qed.

Lemma assign_effects ir set uses defs i n t m v :
  ir_valid ir -> length uses = length set -> length defs = length set ->
  nodes ir !! i = Some n -> opcode n = VNT_IR_ASSIGN ->
  child_role ir i VNT_IR_EDGE_TARGET = Done (Some t) -> nodes ir !! t = Some m ->
  child_role ir i VNT_IR_EDGE_VALUE = Done (Some v) -> v < node_count ir ->
  (forall name, instruction_uses ir i name <->
     (opcode m <> VNT_IR_VARIABLE /\ reads ir name t) \/ reads ir name v) ->
  (forall name, instruction_defines ir i name <-> opcode m = VNT_IR_VARIABLE /\ value m = VAL_TEXT name) ->
  returns (collect_instruction_effects ir i set uses defs)
    (effects_are set uses defs (instruction_uses ir i) (instruction_defines ir i)).
Proof.
  intros Hv Hu Hd Hn Hop Ht Hm Hval Hvi HU HD. unfold collect_instruction_effects.
  rewrite (node_at_done _ _ _ Hn). cbn [mbind outcome_bind]. rewrite Hop, Ht. cbn [mbind outcome_bind].
  rewrite (node_at_done _ _ _ Hm). cbn [mbind outcome_bind mret outcome_ret]. rewrite Hval.
  cbn [mbind outcome_bind]. case_bool_decide as Hvar.
  - destruct (valid_text ir t m Hv Hm) as [text Htext]; [by rewrite Hvar|]. rewrite Htext.
    cbn [mbind outcome_bind]. eapply read_then; [done..|by intros c [= <-]| |].
    + intros name. rewrite HU. naive_solver.
    + intros uses' Hr. split; [done|]. apply one_definition; [done|]. intros name. rewrite HD.
      unfold node_text in Htext. destruct (value m); try done. naive_solver.
  - apply returns_bind. eapply returns_mono; [apply option_reads; [done..|]|].
    { intros c [= <-]. by eapply lookup_lt_Some. }
    intros uses1 Hr1. apply returns_bind.
    eapply returns_mono; [apply option_reads; [done|by eapply marked_step|by intros c [= <-]]|].
    intros uses2 Hr2. split; [|apply no_definitions; intros name; rewrite HD; naive_solver].
    eapply marked_iff; [|by eapply marked_trans]. intros name. rewrite HU. naive_solver.
Qed.

Lemma read_some ir i name : reads ir name i <-> exists c, Some i = Some c /\ reads ir name c.
Proof. split; [by exists i|]. by intros (c & [= <-] & H). Qed.

Lemma collect_instruction_effects_spec ir set uses defs i :
  ir_valid ir -> length uses = length set -> length defs = length set -> i < node_count ir ->
  returns (collect_instruction_effects ir i set uses defs)
    (effects_are set uses defs (instruction_uses ir i) (instruction_defines ir i)).
Proof.
  intros Hv Hu Hd Hi.
  destruct (valid_children_list ir i Hv Hi) as (n & l & Hn & Hlab & Hc & Hnd & Hroles & _).
  pose proof (defines_at ir i n Hn) as Hdef. pose proof (uses_at ir i n Hn) as Huse.
  destruct (decide (opcode n = VNT_IR_ASSIGN)) as [Hop|Hassign].
  { rewrite Hop in Hroles. destruct (assign_instruction ir i n l Hn Hc Hnd Hroles Hop)
      as (t & m & v & ? & ? & ? & ? & ? & ?). by eapply assign_effects. }
  pose proof (value_instruction ir i n l Hn Hc Hnd) as Hvalue. pose proof (chain_head _ _ _ Hc) as Hhead.
  unfold collect_instruction_effects. rewrite (node_at_done _ _ _ Hn). cbn [mbind outcome_bind].
  destruct (opcode n) eqn:Hop; try done.
  all: try (eapply reads_only; [done|done|by intros c [= <-]| |];
    [intros name; rewrite Huse; apply read_some|by intros name ?%Hdef]).
  all: destruct Hvalue as (Hrole & Hrange & Hval); [cbn in Hroles; auto|done|done|]; rewrite ?Hrole; cbn [mbind outcome_bind].
  - apply reads_only; [done..|]. by intros name ?%Hdef.
  - apply reads_only; [done..|]. by intros name ?%Hdef.
  - destruct Hlab as [Htext _ _ _ _]. destruct Htext as [text Htext]; [cbn; by rewrite Hop|].
    cbn in Htext. destruct (head l) as [v|] eqn:Ehead.
    + eapply reads_and_defines; [done..|]. intros name. rewrite Hdef, Htext, Hhead. naive_solver.
    + split; apply marked_refl; intros name; [rewrite Hval|rewrite Hdef, Hhead]; naive_solver.
  - destruct Hlab as [Htext _ _ _ _]. destruct Htext as [text Htext]; [cbn; by rewrite Hop|].
    eapply reads_and_defines; [done..|]. intros name. rewrite Hdef. by eapply text_of.
Qed.

(** * All blocks *)

Lemma references_ok_spec ir cfg :
  references_ok ir cfg = true <-> Forall (reference_ok ir) (blocks cfg).
Proof.
  unfold references_ok. rewrite forallb_forall, Forall_forall.
  setoid_rewrite andb_true_iff. setoid_rewrite link_ok_spec. by setoid_rewrite list_elem_of_In.
Qed.

Lemma collect_block_effects_spec ir set b uses defs :
  ir_valid ir -> length uses = length set -> length defs = length set -> reference_ok ir b ->
  returns (collect_block_effects ir b set uses defs)
    (effects_are set uses defs (block_uses ir b) (block_defines ir b)).
Proof.
  intros Hv Hu Hd [Hi Hc]. unfold collect_block_effects. apply returns_bind.
  assert (returns (match condition b with
    | None => Done uses
    | Some c => collect_expression_reads (reads_fuel ir) ir (Some c) set uses end)
    (marked set (fun name => exists c, condition b = Some c /\ reads ir name c) uses)) as Hcond.
  { pose proof (option_reads ir set (condition b) uses Hv Hu Hc) as H. by destruct (condition b). }
  eapply returns_mono; [exact Hcond|]. intros uses1 Hm. unfold block_uses, block_defines.
  destruct (instruction b) as [i|] eqn:Ei.
  - eapply returns_mono; [apply collect_instruction_effects_spec; auto; by eapply marked_step|].
    intros e [H1 H2]. split.
    + eapply marked_iff; [|by eapply marked_trans]. intros name. cbn. naive_solver.
    + eapply marked_iff; [|exact H2]. naive_solver.
  - split.
    + eapply marked_iff; [|exact Hm]. intros name. naive_solver.
    + apply marked_refl. intros name (i & [=] & _).
Qed.

(** Rows that start empty. *)
Lemma marked_row set P r v name : NoDup set -> marked set P (row (length set)) r ->
  set !! v = Some name -> (r !!! v = true <-> P name).
Proof.
  intros Hd [_ H] Hv. pose proof (lookup_lt_Some _ _ _ Hv) as Hl. unfold row in H.
  rewrite H by (by rewrite length_replicate). rewrite lookup_total_replicate_2 by done. split.
  - intros [?|(name' & HP & Hi)]; [done|]. apply variable_index_some in Hi. by simplify_eq.
  - intros HP. right. exists name. by rewrite variable_index_nodup.
Qed.

(** What the matrices [uses] and [defs] hold. *)
Record effects_of (ir : VntIrProgram) (set : list bytes) (bs : list VntCfgBlock)
    (e : list (list bool) * list (list bool)) : Prop := {
  eo_uses : shaped (length bs) (length set) e.1;
  eo_defs : shaped (length bs) (length set) e.2;
  eo_uses_at : forall b block v name, bs !! b = Some block -> set !! v = Some name ->
    (at_ e.1 b v = true <-> block_uses ir block name);
  eo_defs_at : forall b block v name, bs !! b = Some block -> set !! v = Some name ->
    (at_ e.2 b v = true <-> block_defines ir block name)
}.

Lemma shaped_cons blocks vars r m :
  length r = vars -> shaped blocks vars m -> shaped (S blocks) vars (r :: m).
Proof.
  intros Hr [H1 H2]. constructor; [cbn; by f_equal|]. intros [|b] r'; cbn; [by intros [= <-]|apply H2].
Qed.

Lemma collect_effects_spec ir set bs : ir_valid ir -> NoDup set -> Forall (reference_ok ir) bs ->
  returns (collect_effects ir set bs) (effects_of ir set bs).
Proof.
  intros Hv Hd. assert (length (row (length set)) = length set) as Hrow by apply length_replicate.
  induction 1 as [|b bs Hb _ IH]; cbn [collect_effects].
  { constructor; cbn; try done; by constructor. }
  apply returns_bind. eapply returns_mono; [by apply collect_block_effects_spec|].
  intros e [Hu Hdef]. apply returns_bind. eapply returns_mono; [exact IH|].
  intros rest [S1 S2 A1 A2]. constructor; cbn [fst snd].
  - apply shaped_cons; [destruct Hu as [-> _]|]; done.
  - apply shaped_cons; [destruct Hdef as [-> _]|]; done.
  - intros [|k] block v name Hk Hname; [|by apply A1]. injection Hk as <-. by eapply marked_row.
  - intros [|k] block v name Hk Hname; [|by apply A2]. injection Hk as <-. by eapply marked_row.
Qed.
