(* ===== verification/DataflowProps.v ===== *)
(** DataflowProps: the analyses of control-flow graphs are exact. Liveness and
    definite assignment both return on every input, and what they report holds
    along paths of the graph, no more and no less. *)

From S2P Require Import Prelude Clib Ast Ir IrTrees IrFacts IrAccess Cfg CfgTraces Dataflow.
From S2P Require Import DataflowFacts DataflowEffects.

(** * The common part of the analyses *)

(** Every variable a block uses or defines has a column. *)
Lemma reads_mentioned ir name i : reads ir name i -> exists n, n ∈ nodes ir /\ mentions n name.
Proof.
  induction 1 as [i n Hn Hop Hval|]; [|done]. exists n. split; [by eapply list_elem_of_lookup_2|].
  unfold mentions. by rewrite Hop.
Qed.

Lemma uses_mentioned ir b name : block_uses ir b name -> exists n, n ∈ nodes ir /\ mentions n name.
Proof.
  intros [(c & _ & H)|(i & _ & n & Hn & H)]; [by eapply reads_mentioned|].
  case_decide; [destruct H as (c & _ & _ & H)|]; by eapply reads_mentioned.
Qed.

Lemma uses_in_set ir (set : list bytes) b name :
  (forall m, m ∈ set <-> exists n, n ∈ nodes ir /\ mentions n m) ->
  block_uses ir b name -> exists v, set !! v = Some name.
Proof. intros Hset H. by apply uses_mentioned, Hset, list_elem_of_lookup in H. Qed.

(** * Liveness *)

(** The value of the variable at the start of block [b] may be needed: a path
    from [b] reaches a block that uses it, through blocks that do not define it. *)
Inductive needed (ir : VntIrProgram) (bs : list VntCfgBlock) (name : bytes) : nat -> Prop :=
  | needed_here b block :
      bs !! b = Some block -> block_uses ir block name -> needed ir bs name b
  | needed_later b block s :
      bs !! b = Some block -> Some s ∈ successors block -> ~ block_defines ir block name ->
      needed ir bs name s -> needed ir bs name b.

Definition needed_after (ir : VntIrProgram) (bs : list VntCfgBlock) (name : bytes) (b : nat) : Prop :=
  exists s, edge bs b s /\ needed ir bs name s.

Section columns.
Context (ir : VntIrProgram) (set : list bytes) (bs : list VntCfgBlock).
Context (e : list (list bool) * list (list bool)) (v : nat) (name : bytes).
Hypothesis Heffects : effects_of ir set bs e.
Hypothesis Hname : set !! v = Some name.

Lemma live_needed b : live bs e.1 e.2 v b <-> needed ir bs name b.
Proof.
  destruct Heffects as [_ _ Huses Hdefs]. split.
  - induction 1 as [b Hb Hu|b s (block & Hb & Hs) Hd _ IH].
    + destruct (lookup_lt_is_Some_2 bs b Hb) as [block Hblock].
      eapply needed_here; [done|]. by eapply Huses.
    + eapply needed_later; [done..| |done]. by rewrite <- (Hdefs b block v name Hb Hname), Hd.
  - induction 1 as [b block Hb Hu|b block s Hb Hs Hd _ IH].
    + apply live_use; [by eapply lookup_lt_Some|]. by eapply Huses.
    + eapply live_later; [by exists block| |done].
      apply not_true_iff_false. by rewrite (Hdefs b block v name Hb Hname).
Qed.
End columns.

Lemma needed_mentioned ir bs (set : list bytes) name b :
  (forall m, m ∈ set <-> exists n, n ∈ nodes ir /\ mentions n m) ->
  needed ir bs name b -> exists v, set !! v = Some name.
Proof. intros Hset. induction 1; [by eapply uses_in_set|done]. Qed.

Lemma needed_in_range ir bs name b : needed ir bs name b -> b < length bs.
Proof. induction 1; by eapply lookup_lt_Some. Qed.

(** Reading a cell by name. *)
Lemma live_at_spec blocks set m b name : NoDup set -> shaped blocks (length set) m ->
  (live_at m set b name = true <->
   exists v, b < blocks /\ set !! v = Some name /\ at_ m b v = true).
Proof.
  intros Hd Hm. unfold live_at. destruct (m !! b) as [r|] eqn:Hr.
  - assert (b < blocks) as Hb by (rewrite <- (shaped_rows _ _ _ Hm); by eapply lookup_lt_Some).
    assert (m !!! b = r) as Hat by (by apply list_lookup_total_correct).
    destruct (variable_index set name) as [v|] eqn:Hv.
    + apply variable_index_nodup in Hv; [|done]. rewrite nth_lookup. unfold at_. rewrite Hat.
      assert (v < length r) as Hl.
      { rewrite (shaped_row _ _ _ Hm _ _ Hr). by eapply lookup_lt_Some. }
      rewrite (list_lookup_total_lt r v Hl). cbn. split; [by eauto|].
      intros (v' & _ & Hv' & H). by rewrite (NoDup_lookup _ _ _ _ Hd Hv Hv').
    + split; [done|]. intros (v & _ & Hv' & _). by rewrite (proj2 (variable_index_nodup _ _ _ Hd) Hv') in Hv.
  - split; [done|]. intros (v & Hb & _). rewrite <- (shaped_rows _ _ _ Hm) in Hb.
    by apply lookup_lt_is_Some_2 in Hb as [? Hb]; rewrite Hr in Hb.
Qed.

(** The input that the analyses accept. *)
Definition analysable (ir : VntIrProgram) (cfg : VntCfg) : Prop :=
  ir_valid ir /\ cfg_valid cfg /\ Forall (reference_ok ir) (blocks cfg).

Lemma analysable_spec ir cfg valid : (valid = true <-> ir_valid ir) ->
  (analysable ir cfg <-> valid = true /\ vnt_cfg_validate cfg = true /\ references_ok ir cfg = true).
Proof. intros ->. unfold analysable. by rewrite vnt_cfg_validate_spec, references_ok_spec. Qed.

(** C20: the liveness analysis returns on every input, refuses just the inputs that are not
    a valid HIR and a graph over its nodes, and reports a variable as live at the start or
    the end of a block exactly when a path from there reaches a block that reads it, through
    blocks that do not define it. *)
Theorem vnt_cfg_compute_liveness_exact ir cfg :
  returns (vnt_cfg_compute_liveness ir cfg) (fun r =>
    match r with
    | None => ~ analysable ir cfg
    | Some a => analysable ir cfg /\ forall b name,
        (vnt_cfg_variable_live_in a b name = true <-> needed ir (blocks cfg) name b) /\
        (vnt_cfg_variable_live_out a b name = true <-> needed_after ir (blocks cfg) name b)
    end).
Proof.
  unfold vnt_cfg_compute_liveness. apply returns_bind.
  eapply returns_mono; [apply vnt_ir_validate_returns|]. intros valid Hv.
  pose proof (analysable_spec ir cfg valid Hv) as Hok.
  destruct valid; [|cbn; naive_solver]. destruct (vnt_cfg_validate cfg) eqn:Hcfg; [|cbn; naive_solver].
  cbn [negb orb]. pose proof (proj1 Hv eq_refl) as Hvalid.
  apply returns_bind. eapply returns_mono; [by apply collect_variables_spec|]. intros set [Hd Hset].
  destruct (references_ok ir cfg) eqn:Href; [|cbn; naive_solver]. cbn [negb].
  apply vnt_cfg_validate_spec in Hcfg. pose proof (proj1 (references_ok_spec _ _) Href) as Hrefs.
  apply returns_bind. eapply returns_mono; [by apply collect_effects_spec|]. intros e He.
  apply returns_bind. eapply returns_mono.
  { apply liveness_exact; [apply He|apply He|by destruct Hcfg]. }
  intros f (Hin & Hout & Hlive). split; [by apply Hok|]. intros b name.
  unfold vnt_cfg_variable_live_in, vnt_cfg_variable_live_out. cbn [live_in live_out l_variables].
  rewrite !(live_at_spec (block_count cfg)) by done. split; split.
  - intros (v & Hb & Hname & H). apply (Hlive b v) in H; [|done|by eapply lookup_lt_Some].
    by eapply live_needed.
  - intros H. destruct (needed_mentioned _ _ set _ _ Hset H) as [v Hname]. exists v.
    pose proof (needed_in_range _ _ _ _ H). split_and!; [done..|].
    apply (Hlive b v); [done|by eapply lookup_lt_Some|]. by eapply live_needed.
  - intros (v & Hb & Hname & H). apply (Hlive b v) in H; [|done|by eapply lookup_lt_Some].
    destruct H as (s & Hs & H). exists s. split; [done|]. by eapply live_needed.
  - intros (s & Hs & H). destruct (needed_mentioned _ _ set _ _ Hset H) as [v Hname]. exists v.
    pose proof (edge_source _ _ _ Hs). split_and!; [done..|].
    apply (Hlive b v); [done|by eapply lookup_lt_Some|]. exists s. split; [done|]. by eapply live_needed.
Qed.

(** * Definite assignment *)

(** A global: a declaration with a value under the root. *)
Definition is_global (ir : VntIrProgram) (name : bytes) : Prop :=
  exists r c m, root ir = Some r /\ is_child ir r c /\ nodes ir !! c = Some m /\
    opcode m = VNT_IR_VARIABLE_DECL /\ instruction_defines ir c name.

Definition functions (ir : VntIrProgram) : list VntIrNode :=
  filter (fun n => opcode n = VNT_IR_FUNCTION) (nodes ir).

(** What is initialized at an entry: nothing at the first; the globals and the
    parameters at the entry of a function. The entries of the functions are the
    others, in order. *)
Definition initialized_at (ir : VntIrProgram) (cfg : VntCfg) (b : nat) (name : bytes) : Prop :=
  (b ∈ tail (entries cfg) /\ is_global ir name) \/
  exists n, (n, b) ∈ combine (functions ir) (tail (entries cfg)) /\ name ∈ names n.

(** The variable may not be assigned at the start of block [b]: some path leads
    to [b], from an entry where it is not initialized or from a block that has
    no predecessor, through blocks that do not define it. *)
Inductive unset (ir : VntIrProgram) (cfg : VntCfg) (name : bytes) : nat -> Prop :=
  | unset_entry b : b ∈ entries cfg -> ~ initialized_at ir cfg b name -> unset ir cfg name b
  | unset_alone b :
      b < block_count cfg -> b ∉ entries cfg -> (forall p, ~ edge (blocks cfg) p b) ->
      unset ir cfg name b
  | unset_later p block b :
      blocks cfg !! p = Some block -> Some b ∈ successors block -> b ∉ entries cfg ->
      ~ block_defines ir block name -> unset ir cfg name p -> unset ir cfg name b.

(** One child of the root. *)
Lemma collect_global_child ir set c row0 : ir_valid ir -> c < node_count ir ->
  role_at ir c = VNT_IR_EDGE_STATEMENT -> length row0 = length set ->
  returns (n ← node_at ir c;
           v ← child_role ir c VNT_IR_EDGE_VALUE;
           if bool_decide (role n = VNT_IR_EDGE_STATEMENT) &&
              bool_decide (opcode n = VNT_IR_VARIABLE_DECL) && negb (is_null v)
           then
             text ← node_text n;
             mret (mark_variable row0 set text)
           else Done row0)
    (marked set (fun name => exists m, nodes ir !! c = Some m /\ opcode m = VNT_IR_VARIABLE_DECL /\
       instruction_defines ir c name) row0).
Proof.
  intros Hv Hi Hrole Hrow.
  destruct (valid_children_list ir c Hv Hi) as (m & l & Hm & Hlab & Hc & Hnd & Hroles & _).
  rewrite (node_at_done _ _ _ Hm). cbn [mbind outcome_bind].
  rewrite (child_role_valid _ _ _ _ _ Hm Hc Hnd). cbn [mbind outcome_bind].
  rewrite (role_at_node _ _ _ Hm) in Hrole. rewrite bool_decide_eq_true_2 by done. cbn [andb].
  pose proof (defines_at ir c m Hm) as Hdef. case_bool_decide as Hop; cbn [andb].
  - rewrite Hop in *. destruct (at_most_value ir l Hroles) as [-> _]. rewrite <- (chain_head _ _ _ Hc).
    destruct Hlab as [Htext _ _ _ _]. destruct Htext as [text Htext]; [cbn; by rewrite Hop|].
    cbn in Htext. unfold node_text. rewrite Htext.
    destruct (first_child m) as [f|] eqn:Hf; cbn.
    + eapply marked_iff; [|by apply mark_variable_marked]. intros name. split.
      * intros ->. exists m. by rewrite Hdef.
      * intros (m' & Hm' & _ & H). apply Hdef in H as [_ H]. congruence.
    + apply marked_refl. intros name (m' & Hm' & _ & H). by apply Hdef in H as [? _].
  - apply marked_refl. intros name (m' & Hm' & Hop' & _). by simplify_eq.
Qed.

Lemma valid_root_opcode ir r n : ir_valid ir -> root ir = Some r -> nodes ir !! r = Some n ->
  opcode n = VNT_IR_PROGRAM.
Proof.
  intros (t & n' & [Hroot Hst _] & _ & Hop & _) Hr Hn. rewrite Hr in Hroot. injection Hroot as ->.
  destruct Hst as [i n'' ts Hn'' _ _]. cbn in Hn, Hop. congruence.
Qed.

Lemma collect_globals_spec ir r set : ir_valid ir -> root ir = Some r ->
  returns (collect_globals ir r set) (marked set (is_global ir) (row (length set))).
Proof.
  intros Hv Hr. destruct (valid_root ir Hv) as (r' & Hr' & Hri). simplify_eq.
  destruct (valid_children_list ir r Hv Hri) as (n & l & Hn & _ & Hc & Hnd & Hroles & Hrange).
  rewrite (valid_root_opcode ir r n Hv Hr Hn) in Hroles. cbn in Hroles. unfold collect_globals.
  rewrite (node_at_done _ _ _ Hn). cbn [mbind outcome_bind].
  eapply returns_mono.
  { apply (fold_siblings_spec ir _ _ _ (fun done => marked set
      (fun name => exists c, c ∈ done /\ exists m, nodes ir !! c = Some m /\
         opcode m = VNT_IR_VARIABLE_DECL /\ instruction_defines ir c name) (row (length set))) Hc)
      with (done := []).
    - intros c done r0 Hcin Hr0. rewrite Forall_forall in Hrange. rewrite Forall_map, Forall_forall in Hroles.
      eapply returns_mono; [apply collect_global_child; auto|].
      + destruct Hr0 as [-> _]. apply length_replicate.
      + intros r1 Hr1. eapply marked_iff; [|by eapply marked_trans]. intros name.
        by rewrite exists_snoc.
    - apply marked_refl. intros name (c & []%not_elem_of_nil & _).
    - by apply (chain_fuel _ _ _ Hc). }
  intros row'. apply marked_iff. intros name. cbn [app]. unfold is_global.
  setoid_rewrite <- (is_child_of _ _ _ _ Hn Hc). split.
  - intros (c & Hcin & m & ? & ? & ?). by exists r, c, m.
  - intros (r' & c & m & Hr'' & ? & ? & ? & ?). rewrite Hr in Hr''. injection Hr'' as <-.
    exists c. split; [done|]. by exists m.
Qed.

(** ** The seeds *)

Lemma seed_entries_marks globals es : forall main is_entry seed,
  Forall (fun e => e < length is_entry) es ->
  length (seed_entries globals es main is_entry seed).1 = length is_entry /\
  forall b, b < length is_entry ->
  ((seed_entries globals es main is_entry seed).1 !!! b = true <-> is_entry !!! b = true \/ b ∈ es).
Proof.
  induction es as [|e es IH]; intros main is_entry seed Hes; cbn [seed_entries].
  - split; [done|]. intros b _. rewrite elem_of_nil. tauto.
  - apply Forall_cons in Hes as [He Hes].
    destruct (IH false (<[e := true]> is_entry) (if main then seed else <[e := globals]> seed)) as [Hl H].
    { by rewrite length_insert. }
    rewrite length_insert in Hl, H. split; [done|]. intros b Hb. rewrite (H b Hb), elem_of_cons.
    destruct (decide (b = e)) as [->|Hne].
    + rewrite list_lookup_total_insert_eq by done. tauto.
    + rewrite list_lookup_total_insert_ne by done. tauto.
Qed.

Lemma insert_row_shaped blocks vars m b r :
  shaped blocks vars m -> length r = vars -> shaped blocks vars (<[b := r]> m).
Proof.
  intros [H1 H2] Hr. constructor; [by rewrite length_insert|]. intros c r'.
  destruct (decide (c = b)) as [->|Hne].
  - intros H. pose proof (lookup_lt_Some _ _ _ H) as Hl. rewrite length_insert in Hl.
    rewrite list_lookup_insert_eq in H by done. congruence.
  - rewrite list_lookup_insert_ne by done. apply H2.
Qed.

Lemma at_insert_row blocks vars m b c r v : shaped blocks vars m -> b < blocks ->
  at_ (<[b := r]> m) c v = if decide (c = b) then r !!! v else at_ m c v.
Proof.
  intros [H1 _] Hb. unfold at_. case_decide as Hc.
  - subst. by rewrite list_lookup_total_insert_eq.
  - by rewrite list_lookup_total_insert_ne.
Qed.

Lemma seed_entries_seed blocks vars globals es : forall main is_entry seed,
  length globals = vars -> Forall (fun e => e < blocks) es -> shaped blocks vars seed ->
  shaped blocks vars (seed_entries globals es main is_entry seed).2 /\
  forall b v, b < blocks ->
  at_ (seed_entries globals es main is_entry seed).2 b v =
  if decide (b ∈ (if main then tail es else es)) then globals !!! v else at_ seed b v.
Proof.
  induction es as [|e es IH]; intros main is_entry seed Hg Hes Hs; cbn [seed_entries].
  - split; [done|]. intros b v _. rewrite decide_False; [done|]. by destruct main; apply not_elem_of_nil.
  - apply Forall_cons in Hes as [He Hes].
    destruct (IH false (<[e := true]> is_entry) (if main then seed else <[e := globals]> seed))
      as [Hsh Hat]; [done|done| |].
    { destruct main; [done|]. by apply insert_row_shaped. }
    split; [done|]. intros b v Hb. rewrite (Hat b v Hb). destruct main; cbn [tail]; [done|].
    rewrite (at_insert_row blocks vars) by done.
    destruct (decide (b = e)) as [->|Hne].
    + rewrite (decide_True (P := e ∈ e :: es)) by left. by case_decide.
    + destruct (decide (b ∈ es)).
      * by rewrite decide_True by (by right).
      * by rewrite decide_False by (rewrite elem_of_cons; tauto).
Qed.

Lemma mark_variables_marked set ps : forall r, length r = length set ->
  marked set (fun name => name ∈ ps) r (fold_left (fun r p => mark_variable r set p) ps r).
Proof.
  induction ps as [|p ps IH]; intros r Hr; cbn [fold_left].
  - apply marked_refl. intros name. apply not_elem_of_nil.
  - pose proof (mark_variable_marked set r p Hr) as Hm.
    eapply marked_iff; [|eapply marked_trans; [exact Hm|apply IH; by eapply marked_step]].
    intros name. rewrite elem_of_cons. tauto.
Qed.

Lemma seed_parameters_spec blocks set ns : forall es seed,
  Forall (fun e => e < blocks) es -> shaped blocks (length set) seed ->
  shaped blocks (length set) (seed_parameters ns es set seed) /\
  forall b v, b < blocks -> v < length set ->
  (at_ (seed_parameters ns es set seed) b v = true <->
   at_ seed b v = true \/
   exists name, (exists n, (n, b) ∈ combine (filter (fun n => opcode n = VNT_IR_FUNCTION) ns) es /\
     name ∈ names n) /\ variable_index set name = Some v).
Proof.
  induction ns as [|n ns IH]; intros es seed Hes Hs; cbn [seed_parameters].
  { split; [done|]. intros b v _ _. cbn. setoid_rewrite elem_of_nil. naive_solver. }
  destruct es as [|e es].
  { split; [done|]. intros b v _ _. rewrite combine_nil. setoid_rewrite elem_of_nil. naive_solver. }
  rewrite filter_cons. case_bool_decide as Hop; [|rewrite decide_False by done; by apply IH].
  rewrite decide_True by done. apply Forall_cons in Hes as [He Hes].
  set (mark := fun r => fold_left (fun r p => mark_variable r set p) (names n) r).
  pose proof (shaped_lookup _ _ Hs He) as Hlook.
  assert (alter mark e seed = <[e := mark (seed !!! e)]> seed) as ->.
  { apply list_eq. intros c. destruct (decide (c = e)) as [->|Hne].
    - rewrite list_lookup_alter_eq, Hlook, list_lookup_insert_eq; [done|by eapply lookup_lt_Some].
    - by rewrite list_lookup_alter_ne, list_lookup_insert_ne. }
  pose proof (mark_variables_marked set (names n) (seed !!! e) (shaped_row_length _ _ Hs He)) as [Hml Hmat].
  destruct (IH es (<[e := mark (seed !!! e)]> seed) Hes) as [Hsh Hat].
  { apply insert_row_shaped; [done|]. unfold mark. rewrite Hml. by apply (shaped_row_length _ _ Hs He). }
  split; [done|]. intros b v Hb Hv. rewrite (Hat b v Hb Hv). cbn [combine].
  setoid_rewrite elem_of_cons. rewrite (at_insert_row _ _ _ _ _ _ _ Hs He). case_decide as Hbe.
  - subst b. unfold mark. rewrite Hmat by (by rewrite (shaped_row_length _ _ Hs He)).
    fold (at_ seed e v). split.
    + intros [[?|(name & Hp & Hi)]|(name & (m & Hin & Hp) & Hi)]; [by left|..]; right; exists name.
      * split; [|done]. exists n. auto.
      * split; [|done]. exists m. auto.
    + intros [?|(name & (m & [[= ->]|Hin] & Hp) & Hi)]; [by left; left| |].
      * left. right. by exists name.
      * right. exists name. split; [|done]. by exists m.
  - split.
    + intros [?|(name & (m & Hin & Hp) & Hi)]; [by left|right]. exists name. split; [|done].
      exists m. auto.
    + intros [?|(name & (m & [[= -> ->]|Hin] & Hp) & Hi)]; [by left|done|right].
      exists name. split; [|done]. by exists m.
Qed.

(** ** The first use that is not assigned *)

Lemma lookup_combine {A B} (l : list A) (k : list B) i a b :
  combine l k !! i = Some (a, b) <-> l !! i = Some a /\ k !! i = Some b.
Proof.
  revert k i. induction l as [|x l IH]; intros [|y k] [|i]; cbn; try naive_solver.
Qed.

Lemma find_unassigned_spec blocks vars : forall uses in_,
  shaped blocks vars uses -> shaped blocks vars in_ ->
  match find_unassigned uses in_ with
  | Some v => v < vars /\ exists b, b < blocks /\ at_ uses b v = true /\ at_ in_ b v = false
  | None => forall b v, b < blocks -> v < vars -> at_ uses b v = true -> at_ in_ b v = true
  end.
Proof.
  induction blocks as [|blocks IH]; intros uses in_ [Hl1 Hr1] [Hl2 Hr2].
  { destruct uses, in_; try done. }
  destruct uses as [|u uses], in_ as [|i in_]; try done. cbn [find_unassigned].
  pose proof (Hr1 0 u eq_refl) as Hu. pose proof (Hr2 0 i eq_refl) as Hi.
  destruct (list_find _ (combine u i)) as [[v [x y]]|] eqn:E.
  - apply list_find_Some in E as (Hv & [= -> ->] & _). apply lookup_combine in Hv as [Hv1 Hv2].
    split; [apply lookup_lt_Some in Hv1; lia|]. exists 0. split; [lia|]. unfold at_. cbn.
    by rewrite (list_lookup_total_correct _ _ _ Hv1), (list_lookup_total_correct _ _ _ Hv2).
  - assert (shaped blocks vars uses /\ shaped blocks vars in_) as [Hs1 Hs2].
    { split; constructor; try (cbn in *; lia).
      - intros b. apply (Hr1 (S b)).
      - intros b. apply (Hr2 (S b)). }
    specialize (IH uses in_ Hs1 Hs2). destruct (find_unassigned uses in_) as [v|].
    + destruct IH as (Hv & b & Hb & H). split; [done|]. exists (S b). split; [lia|]. exact H.
    + intros [|b] v Hb Hv; [|intros H; apply (IH b v); [lia|done|exact H]].
      unfold at_. cbn. intros Hat. apply list_find_None in E. rewrite Forall_forall in E.
      destruct (i !!! v) eqn:Ei; [done|]. destruct (E (true, false)); [|done].
      apply list_elem_of_lookup. exists v. apply lookup_combine.
      by rewrite !list_lookup_total_lt, Hat, Ei by lia.
Qed.

(** ** The analysis *)

(** What the seeds hold. *)
Record seeds_of (ir : VntIrProgram) (cfg : VntCfg) (set : list bytes) (is_entry : list bool)
    (seed : list (list bool)) : Prop := {
  so_length : length is_entry = block_count cfg;
  so_shaped : shaped (block_count cfg) (length set) seed;
  so_entry : forall b, b < block_count cfg -> (is_entry !!! b = true <-> b ∈ entries cfg);
  so_seed : forall b v name, b < block_count cfg -> set !! v = Some name ->
    (at_ seed b v = true <-> initialized_at ir cfg b name)
}.

Lemma seeds_are ir cfg set globals :
  NoDup set -> Forall (fun e => e < block_count cfg) (entries cfg) ->
  marked set (is_global ir) (row (length set)) globals ->
  let s := seed_entries globals (entries cfg) true (replicate (block_count cfg) false)
             (zeros (block_count cfg) (length set)) in
  seeds_of ir cfg set s.1 (seed_parameters (nodes ir) (tail (entries cfg)) set s.2).
Proof.
  intros Hd Hes Hg s.
  destruct (seed_entries_marks globals (entries cfg) true (replicate (block_count cfg) false)
    (zeros (block_count cfg) (length set))) as [Hl1 Hm1].
  { by rewrite length_replicate. }
  rewrite length_replicate in Hl1, Hm1.
  assert (length globals = length set) as Hgl by (destruct Hg as [-> _]; apply length_replicate).
  destruct (seed_entries_seed (block_count cfg) (length set) globals (entries cfg) true
    (replicate (block_count cfg) false) (zeros (block_count cfg) (length set))) as [Hs2 Hat2];
    [done|done|apply replicate_shaped|].
  destruct (seed_parameters_spec (block_count cfg) set (nodes ir) (tail (entries cfg)) s.2)
    as [Hs3 Hat3]; [by destruct Hes|done|].
  constructor; [done|done| |].
  - intros b Hb. unfold s. rewrite Hm1 by done. rewrite lookup_total_replicate_2 by done. naive_solver.
  - intros b v name Hb Hname. pose proof (lookup_lt_Some _ _ _ Hname) as Hv.
    rewrite (Hat3 b v Hb Hv). unfold s. rewrite (Hat2 b v Hb).
    assert (forall name', variable_index set name' = Some v <-> name' = name) as Hidx.
    { intros name'. rewrite variable_index_nodup by done. naive_solver. }
    setoid_rewrite Hidx. unfold initialized_at, functions. case_decide as Htail.
    + rewrite (marked_row set (is_global ir) globals v name Hd Hg Hname). naive_solver.
    + unfold zeros, row. rewrite at_replicate by done. naive_solver.
Qed.

Section columns.
Context (ir : VntIrProgram) (cfg : VntCfg) (set : list bytes).
Context (e : list (list bool) * list (list bool)) (is_entry : list bool) (seed : list (list bool)).
Context (v : nat) (name : bytes).
Hypothesis Heffects : effects_of ir set (blocks cfg) e.
Hypothesis Hseeds : seeds_of ir cfg set is_entry seed.
Hypothesis Hentries : Forall (fun e => e < block_count cfg) (entries cfg).
Hypothesis Hedges : edges_ok (blocks cfg).
Hypothesis Hname : set !! v = Some name.

Lemma not_entry b : b < block_count cfg -> (is_entry !!! b = false <-> b ∉ entries cfg).
Proof. intros Hb. by rewrite <- not_true_iff_false, (so_entry _ _ _ _ _ Hseeds b Hb). Qed.

Lemma unassigned_unset b : unassigned (blocks cfg) e.2 seed is_entry v b <-> unset ir cfg name b.
Proof.
  split.
  - induction 1 as [b Hb He Hs|b Hb He Hp|p b Hp He Hd _ IH].
    + apply unset_entry; [by apply (so_entry _ _ _ _ _ Hseeds)|].
      by rewrite <- (so_seed _ _ _ _ _ Hseeds b v name Hb Hname), Hs.
    + by apply unset_alone; [|apply not_entry|].
    + pose proof (Hedges _ _ Hp) as Hb. destruct Hp as (block & Hpb & Hs).
      eapply unset_later; [done..|by apply not_entry| |done].
      by rewrite <- (eo_defs_at _ _ _ _ Heffects p block v name Hpb Hname), Hd.
  - induction 1 as [b Hb Hs|b Hb He Hp|p block b Hpb Hs He Hd _ IH].
    + rewrite Forall_forall in Hentries. pose proof (Hentries b Hb) as Hr.
      apply unassigned_entry; [done|by apply (so_entry _ _ _ _ _ Hseeds)|].
      apply not_true_iff_false. by rewrite (so_seed _ _ _ _ _ Hseeds b v name Hr Hname).
    + by apply unassigned_alone; [|apply not_entry|].
    + assert (edge (blocks cfg) p b) as Hedge by (by exists block).
      eapply unassigned_later; [done|by apply not_entry; [apply (Hedges p)|]| |done].
      apply not_true_iff_false. by rewrite (eo_defs_at _ _ _ _ Heffects p block v name Hpb Hname).
Qed.
End columns.

Lemma definite_assignment_exact ir cfg :
  returns (vnt_cfg_check_definite_assignment ir cfg) (fun r =>
    match r with
    | INVALID_HIR_OR_CFG => ~ (ir_valid ir /\ cfg_valid cfg)
    | INVALID_NODE => ir_valid ir /\ cfg_valid cfg /\ ~ Forall (reference_ok ir) (blocks cfg)
    | ASSIGNED => analysable ir cfg /\ forall b block name,
        blocks cfg !! b = Some block -> block_uses ir block name -> ~ unset ir cfg name b
    | READ_BEFORE_INITIALIZATION text => analysable ir cfg /\ exists b block name,
        text = source_name_for_diagnostic name /\ blocks cfg !! b = Some block /\
        block_uses ir block name /\ unset ir cfg name b
    end).
Proof.
  unfold vnt_cfg_check_definite_assignment. apply returns_bind.
  eapply returns_mono; [apply vnt_ir_validate_returns|]. intros valid Hv.
  pose proof (analysable_spec ir cfg valid Hv) as Hok.
  pose proof (vnt_cfg_validate_spec cfg) as Hcv. pose proof (references_ok_spec ir cfg) as Hrv.
  destruct (root ir) as [r|] eqn:Hroot.
  2: { intros [Hvalid _]. destruct (valid_root ir Hvalid) as (r & Hr & _). congruence. }
  destruct valid; [|by intros [?%Hv _]].
  destruct (vnt_cfg_validate cfg) eqn:Hcfg; [|by intros [_ ?%Hcv]]. cbn [negb orb].
  pose proof (proj1 Hv eq_refl) as Hvalid.
  destruct (references_ok ir cfg) eqn:Href.
  2: { split; [done|]. split; [by apply Hcv|]. by intros ?%Hrv. }
  cbn [negb]. pose proof (proj1 (vnt_cfg_validate_spec _) Hcfg) as [_ _ Hes Hedges _].
  pose proof (proj1 (references_ok_spec _ _) Href) as Hrefs.
  apply returns_bind. eapply returns_mono; [by apply collect_variables_spec|]. intros set [Hd Hset].
  apply returns_bind. eapply returns_mono; [by apply collect_effects_spec|]. intros e He.
  apply returns_bind. eapply returns_mono; [by apply collect_globals_spec|]. intros globals Hg.
  pose proof (seeds_are ir cfg set globals Hd Hes Hg) as Hs.
  apply returns_bind. eapply returns_mono.
  { apply assignment_exact; [apply He|apply Hs|apply Hs]. }
  intros f (Hin & Hexact). cbn. pose proof (find_unassigned_spec _ _ _ _ (eo_uses _ _ _ _ He) Hin) as Hfind.
  destruct (find_unassigned e.1 (f_in f)) as [v|].
  - destruct Hfind as (Hvr & b & Hb & Hu & Hi). split; [by apply Hok|].
    destruct (lookup_lt_is_Some_2 _ _ Hb) as [block Hblock].
    pose proof (list_lookup_total_lt set v Hvr) as Hname.
    exists b, block, (set !!! v). split_and!; [done..| |].
    + by eapply (eo_uses_at _ _ _ _ He b block v).
    + eapply unassigned_unset; [done..|]. by apply Hexact.
  - split; [by apply Hok|]. intros b block name Hblock Huses Hunset.
    destruct (uses_in_set ir set block name Hset Huses) as [v Hname].
    pose proof (lookup_lt_Some _ _ _ Hname) as Hvr. pose proof (lookup_lt_Some _ _ _ Hblock) as Hb.
    eapply (eo_uses_at _ _ _ _ He b block v) in Huses; [|done..].
    pose proof (Hfind b v Hb Hvr Huses) as Htrue.
    eapply unassigned_unset, Hexact in Hunset; [|done..]. congruence.
Qed.

(** C18: the definite-assignment check returns on every input; it refuses just the inputs
    that are not a valid HIR and a graph over its nodes, and otherwise it reports a variable
    exactly when a block that reads it can be reached with the variable not initialized:
    from an entry that does not initialize it, through blocks that do not define it. *)
Theorem vnt_cfg_check_definite_assignment_exact ir cfg :
  returns (vnt_cfg_check_definite_assignment ir cfg) (fun r =>
    match r with
    | INVALID_HIR_OR_CFG => ~ (ir_valid ir /\ cfg_valid cfg)
    | INVALID_NODE => ir_valid ir /\ cfg_valid cfg /\ ~ Forall (reference_ok ir) (blocks cfg)
    | ASSIGNED => analysable ir cfg /\ forall b block name,
        blocks cfg !! b = Some block -> block_uses ir block name -> ~ unset ir cfg name b
    | READ_BEFORE_INITIALIZATION text => analysable ir cfg /\ exists b block name,
        text = source_name_for_diagnostic name /\ blocks cfg !! b = Some block /\
        block_uses ir block name /\ unset ir cfg name b
    end).
Proof. apply definite_assignment_exact. Qed.
