(* ===== verification/HirKnown.v ===== *)
(** HirKnown: what the environment of constant propagation says of the variables of
    a run, and substitution of known constants into expressions.
    The first part: replacing constant conditions by the code they select, and dropping
    what follows a statement that leaves a block, keeps the meaning of programs. *)

From S2P Require Import Prelude Clib Ast Ir IrTrees IrAccess IrOptimize IrPasses IrPassesFacts.
From S2P Require Import Runtime RuntimeFacts HirSemantics HirFolding.

Section simplify.
Context {M : Type} `{Machine M}.

(** * Pruning *)

Notation runs call loops hs := (map (fun h => (l_role (hir_label h), exec (M := M) call loops h)) hs).

Lemma in_edge_cons {A} r r' (m : A) ms :
  in_edge r ((r', m) :: ms) = if decide (r' = r) then m :: in_edge r ms else in_edge r ms.
Proof. unfold in_edge. rewrite filter_cons. cbn. by destruct (decide (r' = r)). Qed.

Lemma terminator_leaves call loops h s c s' :
  is_terminator (l_opcode (hir_label h)) = true -> exec (M := M) call loops h s = Goes c s' -> c <> Normal.
Proof.
  destruct h as [l hs]. cbn [hir_label exec]. destruct (l_opcode l); try done; intros _ E.
  - destruct hs as [|e [|]]; try done; [by injection E as <- _|].
    apply bind_goes_inv in E as (v & s1 & _ & E). by injection E as <- _.
  - by injection E as <- _.
  - by injection E as <- _.
Qed.

Lemma sequence_leaves (m : Exec M completion) ms :
  (forall s c s', m s = Goes c s' -> c <> Normal) -> same (sequence (m :: ms)) (sequence [m]).
Proof.
  intros Hm s. cbn. apply bind_same_on; [done|]. intros c s' E%Hm. by destruct c.
Qed.

Lemma prune_none call loops (r : VntIrEdgeRole) (hs : list hir) : statement_role r = true -> forall term k, r ∈ term ->
  in_edge r (runs call loops (prune_children term hs k).1) = [].
Proof.
  intros Hr. induction hs as [|h hs IH]; intros term k Ht; [done|]. cbn [prune_children].
  set (role := l_role (hir_label h)). destruct (statement_role role && bool_decide (role ∈ term)) eqn:Ed.
  - by apply IH.
  - set (term' := if statement_role role && _ then role :: term else term).
    assert (r ∈ term') as Ht' by (unfold term'; destruct (statement_role role && is_terminator _); [by right|done]).
    specialize (IH term' k Ht'). destruct (prune_children term' hs k) as [hs' k']. cbn [fst map] in *.
    fold role. rewrite in_edge_cons, IH, decide_False; [done|]. intros E. unfold role in *. rewrite E, Hr in Ed.
    by apply bool_decide_eq_false in Ed.
Qed.

Lemma prune_runs call loops (r : VntIrEdgeRole) (hs : list hir) : statement_role r = true -> forall term k, r ∉ term ->
  same (sequence (in_edge r (runs call loops (prune_children term hs k).1)))
       (sequence (in_edge r (runs call loops hs))).
Proof.
  intros Hr. induction hs as [|h hs IH]; intros term k Ht; [done|]. cbn [prune_children].
  set (role := l_role (hir_label h)). destruct (statement_role role && bool_decide (role ∈ term)) eqn:Ed.
  - apply andb_true_iff in Ed as [_ Hin%bool_decide_eq_true]. cbn [map]. fold role. rewrite in_edge_cons.
    rewrite decide_False by (intros E; by rewrite E in Hin). by apply IH.
  - destruct (decide (role = r /\ is_terminator (l_opcode (hir_label h)) = true)) as [[E Hterm]|Hn].
    + pose proof (prune_none call loops r hs Hr (r :: term) k (list_elem_of_here _ _)) as Hnone.
      rewrite E, Hr, Hterm. cbn [andb].
      destruct (prune_children (r :: term) hs k) as [hs' k']. cbn [fst map] in *. fold role.
      rewrite !in_edge_cons, !decide_True, Hnone by done. symmetry. apply sequence_leaves.
      intros s c s'. by apply terminator_leaves.
    + set (term' := if statement_role role && _ then role :: term else term).
      assert (r ∉ term') as Ht'.
      { unfold term'. destruct (statement_role role && is_terminator _) eqn:E2; [|done].
        apply andb_true_iff in E2 as [_ E2]. rewrite not_elem_of_cons. split; [|done]. intros ->. by apply Hn. }
      specialize (IH term' k Ht'). destruct (prune_children term' hs k) as [hs' k']. cbn [fst map] in *.
      fold role. rewrite !in_edge_cons. destruct (decide (role = r)); [|done].
      cbn. apply bind_same; [|done]. by intros [].
Qed.
Lemma prune_after_condition c hs k : l_role (hir_label c) = VNT_IR_EDGE_CONDITION ->
  (prune_children [] (c :: hs) k).1 = c :: (prune_children [] hs k).1.
Proof. intros E. cbn. rewrite E. cbn. by destruct (prune_children [] hs k). Qed.

Lemma prune_exec call loops l hs k : good (Hir l hs) ->
  same (exec (M := M) call loops (Hir l (prune_children [] hs k).1)) (exec call loops (Hir l hs)).
Proof.
  intros (_ & _ & Hr & Ho & _)%good_node. pose proof (roles_not_statements _ _ Hr) as Hns.
  pose proof (fun r Hs => prune_runs call loops r hs Hs [] k (not_elem_of_nil _)) as Hruns.
  destruct (l_opcode l) eqn:Hop; try (by rewrite (prune_other hs Hns)); cbn [exec]; rewrite Hop.
  - by apply Hruns.
  - destruct Ho as (n & m & E). destruct hs as [|c hs]; [done|]. injection E as E _.
    rewrite prune_after_condition in Hruns |- * by done. apply bind_same; [|done]. intros v.
    apply bind_same; [|done]. intros []; by apply Hruns.
  - destruct Ho as (n & E). destruct hs as [|c hs]; [done|]. injection E as E _.
    rewrite prune_after_condition in Hruns |- * by done. apply while_loop_same; [done|]. by apply Hruns.
  - done.
Qed.

(** Two statements with a role in common, when neither is an expression. *)
Lemma same_statement call loops l' hs' l hs : l_role l' = l_role l ->
  is_expression (l_opcode l') = false -> is_expression (l_opcode l) = false ->
  same (exec call loops (Hir l' hs')) (exec call loops (Hir l hs)) ->
  same_node (M := M) call call loops (Hir l' hs') (Hir l hs).
Proof.
  intros Hr H1 H2 Hx. split; [done| | | |done].
  - unfold variable_name. cbn. by destruct (l_opcode l'), (l_opcode l).
  - cbn [eval]. by rewrite H1, H2.
  - intros value' value _. cbn [assign]. by destruct (l_opcode l'), (l_opcode l).
Qed.

Lemma prune_node call loops l hs k : good (Hir l hs) ->
  same_node (M := M) call call loops (Hir l (prune_children [] hs k).1) (Hir l hs).
Proof.
  intros Hg. pose proof (prune_exec call loops l hs k Hg) as Hx.
  apply good_node in Hg as (_ & _ & Hr & _ & _). pose proof (roles_not_statements _ _ Hr) as Hns.
  destruct (l_opcode l) eqn:Hop; try (apply same_statement; by rewrite ?Hop);
    rewrite (prune_other hs Hns); apply same_node_refl, same_calls_refl.
Qed.

(** * Constant conditions *)

Lemma exec_role call loops r h : exec (M := M) call loops (hir_role r h) = exec call loops h.
Proof. by destruct h. Qed.

Lemma branch_runs call loops r hs :
  in_edge VNT_IR_EDGE_STATEMENT (runs call loops (branch r hs)) = in_edge r (runs call loops hs).
Proof.
  unfold branch. induction hs as [|h hs IH]; [done|]. rewrite filter_cons. cbn [map].
  rewrite in_edge_cons. destruct (decide _) as [E|E]; [|done]. cbn [map].
  rewrite in_edge_cons, decide_True, exec_role by apply hir_role_label. by rewrite IH.
Qed.

Lemma boolean_shape h b : good h -> boolean_of h = Some b ->
  forall call, eval (M := M) call h = mret (vnt_bool b).
Proof.
  intros Hg E call. unfold boolean_of in E. destruct (constant_of h) as [c|] eqn:Ec; [|done].
  rewrite (eval_literal h c) by done. destruct c; try done. by injection E as ->.
Qed.

Lemma select_node call loops l hs k : good (Hir l hs) ->
  same_node (M := M) call call loops (Hir (select l hs k).1.1 (select l hs k).1.2) (Hir l hs).
Proof.
  intros (_ & _ & _ & _ & Hg)%good_node.
  pose proof (same_node_refl call call loops (Hir l hs) (same_calls_refl call)) as Hrefl.
  unfold select. destruct (l_opcode l) eqn:Hop; try done; destruct hs as [|c hs]; try done; cbn [head].
  - destruct (boolean_of c) as [b|] eqn:E; [|done]. apply Forall_cons in Hg as [Hc _].
    apply same_statement; cbn [fst snd]; try done; [by rewrite Hop|]. cbn [exec]. rewrite Hop.
    cbn [block_label payload_label l_opcode]. rewrite branch_runs, (boolean_shape c b) by done. by destruct b.
  - destruct (boolean_of c) as [[]|] eqn:E; try done. apply Forall_cons in Hg as [Hc _].
    apply same_statement; cbn [fst snd]; try done; [by rewrite Hop|]. cbn [exec]. rewrite Hop.
    cbn [block_label payload_label l_opcode]. rewrite (boolean_shape c false) by done. by destruct loops.
Qed.
(** * The pass *)

Lemma simplify_hir_node l hs k : (simplify_hir (Hir l hs) k).1 =
  let '(l', hs', k') := select l (visit simplify_hir hs k).1 (visit simplify_hir hs k).2 in
  Hir l' (prune_children [] hs' k').1.
Proof.
  cbn. destruct (visit simplify_hir hs k) as [hs1 k1]. cbn [fst snd]. destruct (select l hs1 k1) as [[l2 hs2] k2].
  by destruct (prune_children [] hs2 k2).
Qed.

Lemma visit_simplify_good l hs k : good (Hir l hs) -> good (Hir l (visit simplify_hir hs k).1).
Proof.
  intros (H1 & H2 & H3 & H4 & H5)%good_node. apply good_node.
  rewrite (visit_roles simplify_hir hs (Forall_true _ _ simplify_hir_role) k). split_and!; try done.
  apply (visit_forall _ good); [|done]. apply Forall_true. intros. by apply simplify_hir_good.
Qed.

Lemma simplify_hir_sound call' call loops h : same_calls call' call -> good h ->
  forall k, same_node (M := M) call' call loops (simplify_hir h k).1 h.
Proof.
  intros Hcalls. induction h as [l hs IH] using hir_ind. intros Hg k.
  pose proof (visit_simplify_good l hs k Hg) as Hg1. rewrite simplify_hir_node.
  assert (Forall2 (same_node call' call loops) (visit simplify_hir hs k).1 hs) as Hs.
  { apply visit_related. apply good_node in Hg as (_ & _ & _ & _ & Hg). rewrite Forall_forall in *. auto. }
  destruct (visit simplify_hir hs k) as [hs1 k1]. cbn [fst snd] in *.
  pose proof (select_good l hs1 k1 Hg1) as Hg2. pose proof (select_node call' loops l hs1 k1 Hg1) as Hsel.
  destruct (select l hs1 k1) as [[l2 hs2] k2]. cbn [fst snd] in *.
  eapply same_node_trans; [apply prune_node, Hg2|]. eapply same_node_trans; [exact Hsel|].
  by apply same_node_children.
Qed.

Lemma select_other l hs k : l_opcode l <> VNT_IR_IF -> l_opcode l <> VNT_IR_WHILE -> select l hs k = (l, hs, k).
Proof. intros H1 H2. unfold select. by destruct (l_opcode l). Qed.

(** A program whose own statements do not leave it: declarations after a return
    would be dropped. *)
Definition stays (h : hir) : bool := negb (is_terminator (l_opcode (hir_label h))).

(** Only the opcodes of conditions and loops change. *)
Lemma simplify_hir_opcode h k : l_opcode (hir_label (simplify_hir h k).1) = l_opcode (hir_label h) \/
  l_opcode (hir_label (simplify_hir h k).1) = VNT_IR_PROGRAM /\
    (l_opcode (hir_label h) = VNT_IR_IF \/ l_opcode (hir_label h) = VNT_IR_WHILE).
Proof.
  destruct h as [l hs]. rewrite simplify_hir_node. set (hs1 := (visit simplify_hir hs k).1).
  set (k1 := (visit simplify_hir hs k).2). unfold select.
  destruct (l_opcode l) eqn:E, (head hs1) as [c|]; auto; destruct (boolean_of c) as [[]|]; cbn; auto.
Qed.

Lemma simplify_hir_function name h k : is_function name (simplify_hir h k).1 = is_function name h.
Proof.
  destruct (decide (l_opcode (hir_label h) = VNT_IR_FUNCTION)) as [E|E].
  - destruct h as [l hs]. cbn in E. by rewrite simplify_hir_node, select_other by (by rewrite E).
  - unfold is_function. destruct (simplify_hir_opcode h k) as [-> | [-> [E'|E']]]; try rewrite E'; try done.
    by destruct (l_opcode (hir_label h)).
Qed.

Lemma simplify_hir_stays h k : stays (simplify_hir h k).1 = stays h.
Proof. unfold stays. by destruct (simplify_hir_opcode h k) as [-> | [-> [-> | ->]]]. Qed.

Lemma simplify_hir_same_function name h k : good h -> is_function name h = true ->
  same_function (M := M) (simplify_hir h k).1 h.
Proof.
  intros Hg Hop%is_function_opcode. destruct h as [l hs]. cbn in Hop. rewrite simplify_hir_node, select_other by (by rewrite Hop).
  split; [done|]. intros call' call loops Hc. cbn [hir_children].
  assert (Forall2 (same_node call' call loops) (visit simplify_hir hs k).1 hs) as Hs.
  { apply visit_related. apply good_node in Hg as (_ & _ & _ & _ & Hg). eapply Forall_impl; [exact Hg|].
    intros h Hh k'. by apply simplify_hir_sound. }
  etrans; [|exact (body_same call' call loops _ _ Hs)].
  apply prune_runs; [done|apply not_elem_of_nil].
Qed.

Lemma prune_stays hs : forallb stays hs = true -> forall k, prune_children [] hs k = (hs, k).
Proof.
  induction hs as [|h hs IH]; intros Hs k; [done|]. cbn in *. apply andb_true_iff in Hs as [H1 H2].
  unfold stays in H1. destruct (is_terminator _); [done|]. rewrite !andb_false_r. by rewrite IH.
Qed.

Lemma simplify_hir_program h k : is_root h -> forallb stays (hir_children h) = true ->
  same_program (M := M) (simplify_hir h k).1 h.
Proof.
  intros (Hg & Hop & _) Hs. split; [|intros; by apply simplify_hir_sound].
  destruct h as [l hs]. cbn in Hop, Hs. intros name. rewrite simplify_hir_node, select_other by (by rewrite Hop).
  rewrite prune_stays.
  - unfold find_function. cbn [hir_children fst]. apply find_same, visit_related.
    apply good_node in Hg as (_ & _ & _ & _ & Hg). eapply Forall_impl; [exact Hg|]. intros h Hh k'.
    split; [apply simplify_hir_function|by apply (simplify_hir_same_function name)].
  - revert k Hs. clear. induction hs as [|h hs IH]; intros k Hs; [done|]. rewrite visit_cons. cbn in *.
    apply andb_true_iff in Hs as [Hh Hs]. by rewrite simplify_hir_stays, Hh, IH.
Qed.
End simplify.

(** * Environments *)

Lemma find_in (env : HirConstantEnvironment) name i : hir_constant_find env name = Some i ->
  exists c, env !! i = Some (name, c).
Proof.
  unfold hir_constant_find. intros ([j [x c]] & E & ->)%fmap_Some. apply list_find_Some in E as (E & Hx & _).
  cbn in *. subst. by exists c.
Qed.

Lemma find_none (env : HirConstantEnvironment) name : hir_constant_find env name = None -> name ∉ env.*1.
Proof.
  unfold hir_constant_find. intros E%fmap_None. rewrite list_find_None, Forall_forall in E.
  intros (p & -> & Hp)%list_elem_of_fmap. by apply (E p).
Qed.

Lemma known_in env x c : known_constant env x = Some c -> (x, c) ∈ env.
Proof.
  unfold known_constant. intros (i & Hi & E)%bind_Some. apply find_in in Hi as [c' Hc].
  rewrite Hc in E. injection E as ->. by eapply list_elem_of_lookup_2.
Qed.

Lemma name_at (env : HirConstantEnvironment) i x c : env !! i = Some (x, c) -> env.*1 !! i = Some x.
Proof. intros E. etrans; [apply list_lookup_fmap|]. exact (f_equal (fmap fst) E). Qed.

(** The order of the constants does not matter, and a name is there once. *)
Lemma swap_remove {A} (l : list A) i x y : l !! i = Some x -> last l = Some y ->
  x :: take (pred (length l)) (<[i := y]> l) ≡ₚ l.
Proof.
  intros Hi Hl. destruct (last_Some l y) as [[l' ->] _]; [done|]. rewrite length_app, Nat.add_1_r. cbn [pred].
  destruct (decide (i < length l')) as [H|H].
  - rewrite insert_app_l, take_app_length' by (by rewrite ?length_insert).
    rewrite lookup_app_l in Hi by done. rewrite (Permutation_app_comm l'). cbn.
    rewrite <- (take_drop_middle l' i x) at 2 by done. rewrite insert_take_drop by done.
    rewrite <- !Permutation_middle. apply perm_swap.
  - apply lookup_lt_Some in Hi as Hlt. rewrite length_app in Hlt. cbn in Hlt.
    assert (i = length l') as -> by lia. rewrite lookup_app_r, Nat.sub_diag in Hi by lia. injection Hi as ->.
    rewrite insert_app_r_alt, Nat.sub_diag by lia. cbn. rewrite take_app_length. by rewrite Permutation_app_comm.
Qed.

Lemma invalidate_in env x : NoDup env.*1 ->
  NoDup (hir_constant_invalidate env x).*1 /\
  forall y c, (y, c) ∈ hir_constant_invalidate env x -> (y, c) ∈ env /\ y <> x.
Proof.
  intros Hd. unfold hir_constant_invalidate. destruct (hir_constant_find env x) as [i|] eqn:E.
  - destruct (find_in _ _ _ E) as [c Hc]. destruct (last env) as [item|] eqn:El.
    + pose proof (swap_remove env i (x, c) item Hc El) as Hp. set (env' := take _ _) in *.
      rewrite <- Hp in Hd. cbn in Hd. apply NoDup_cons in Hd as [Hx Hd]. split; [done|].
      intros y c' Hy. split; [rewrite <- Hp; by right|]. intros ->. apply Hx.
      apply list_elem_of_fmap. by exists (x, c').
    + apply last_None in El. by subst.
  - split; [done|]. intros y c Hy. split; [done|]. intros ->. apply (find_none _ _ E), list_elem_of_fmap.
    by exists (x, c).
Qed.

Lemma insert_cases {A} (l : list A) i j (p q x : A) : l !! i = Some x -> <[i := p]> l !! j = Some q ->
  i = j /\ q = p \/ i <> j /\ l !! j = Some q.
Proof.
  intros Hi Hj. destruct (decide (i = j)) as [->|Hij].
  - rewrite list_lookup_insert_eq in Hj by (by eapply lookup_lt_Some). injection Hj as <-. by left.
  - rewrite list_lookup_insert_ne in Hj by done. by right.
Qed.

Lemma remember_in env x c : NoDup env.*1 ->
  NoDup (hir_constant_remember env x c).*1 /\
  forall y c', (y, c') ∈ hir_constant_remember env x c -> (y, c') ∈ env /\ y <> x \/ y = x /\ c' = c.
Proof.
  intros Hd. unfold hir_constant_remember. destruct (hir_constant_find env x) as [i|] eqn:E.
  - destruct (find_in _ _ _ E) as [c0 Hc].
    assert ((<[i:=(x, c)]> env).*1 = env.*1) as Ex.
    { etrans; [apply list_fmap_insert|]. apply list_insert_id. by eapply name_at. }
    split; [exact (eq_ind_r (fun l => NoDup l) Hd Ex)|]. intros y c' (j & Hj)%list_elem_of_lookup.
    destruct (insert_cases _ _ _ _ _ _ Hc Hj) as [[_ E']|[Hij Hj']]; [right; by injection E' as -> ->|].
    left. split; [by eapply list_elem_of_lookup_2|]. intros ->.
    by apply Hij; eapply (NoDup_lookup env.*1); [done|eapply name_at..].
  - apply find_none in E. rewrite fmap_app. split.
    + apply NoDup_app. split_and!; [done| |apply NoDup_singleton]. cbn. intros y Hy ->%list_elem_of_singleton. done.
    + intros y c' [Hy|Hy%list_elem_of_singleton]%elem_of_app; [left|right; by injection Hy as -> ->].
      split; [done|]. intros ->. apply E, list_elem_of_fmap. by exists (x, c').
Qed.

(** A copy has the constants of the original, in the same order. *)
Lemma copy_same env : NoDup env.*1 -> hir_constants_copy env = env.
Proof.
  unfold hir_constants_copy. intros Hd.
  enough (forall done, NoDup (done ++ env).*1 ->
    fold_left (fun env item => hir_constant_remember env item.1 item.2) env done = done ++ env) as H by by apply H.
  clear Hd. induction env as [|[x c] env IH]; intros done Hd; [by rewrite app_nil_r|]. cbn.
  assert (hir_constant_remember done x c = done ++ [(x, c)]) as ->.
  { unfold hir_constant_remember. destruct (hir_constant_find done x) as [i|] eqn:E; [|done].
    destruct (find_in _ _ _ E) as [c0 Hc]. rewrite fmap_app in Hd. apply NoDup_app in Hd as (_ & Hd & _).
    exfalso. apply (Hd x); [|by left]. eapply list_elem_of_lookup_2. by eapply name_at. }
  by rewrite IH, <- app_assoc by (by rewrite <- app_assoc).
Qed.

(** * Substitution *)

Section known.
Context {M : Type} `{HM : MachineLaws M}.

(** The variables have the values that the environment says. *)
Record knows (env : HirConstantEnvironment) (s : M) : Prop := {
  knows_names : NoDup env.*1;
  knows_values x c : (x, c) ∈ env -> variable x s = boxed c
}.

Lemma knows_nothing s : knows [] s.
Proof. split; [apply NoDup_nil_2|]. intros x c []%elem_of_nil. Qed.

Lemma knows_known env s x c : knows env s -> known_constant env x = Some c -> variable x s = boxed c.
Proof. intros [_ Hv] E. by apply Hv, known_in. Qed.

(** The same values for all variables. *)
Definition keeps (s s' : M) : Prop := forall x, variable x s' = variable x s.

Lemma knows_keeps env s s' : keeps s s' -> knows env s -> knows env s'.
Proof. intros Hs [Hd Hv]. split; [done|]. intros x c Hx. rewrite Hs. by apply Hv. Qed.

Lemma knows_invalidate env s x : knows env s -> knows (hir_constant_invalidate env x) s.
Proof.
  intros [Hd Hv]. destruct (invalidate_in env x Hd) as [Hd' Hin]. split; [done|].
  intros y c [Hy _]%Hin. by apply Hv.
Qed.

Lemma knows_forget env s hs : knows env s -> knows (forget hs env) s.
Proof.
  intros Hs. unfold forget. destruct (head hs) as [t|]; [|apply knows_nothing].
  destruct (l_opcode _); try apply knows_nothing. by apply knows_invalidate.
Qed.

(** An assignment to [x]. *)
Lemma knows_set_other env s x v : knows env s -> knows (hir_constant_invalidate env x) (set_variable x v s).
Proof.
  intros [Hd Hv]. destruct (invalidate_in env x Hd) as [Hd' Hin]. split; [done|].
  intros y c [Hy Hxy]%Hin. rewrite variable_set, decide_False by done. by apply Hv.
Qed.

Lemma knows_set env s x c : knows env s -> knows (hir_constant_remember env x c) (set_variable x (boxed c) s).
Proof.
  intros [Hd Hv]. destruct (remember_in env x c Hd) as [Hd' Hin]. split; [done|].
  intros y c' [[Hy Hxy]|[-> ->]]%Hin; rewrite variable_set; [rewrite decide_False by done; by apply Hv|].
  by rewrite decide_True.
Qed.

(** ** Expressions *)

Context (call : bytes -> list VntPointer -> Exec M VntPointer).

(** Evaluation without calls keeps the variables. *)
Definition eval_keeps (h : hir) : Prop := forall s v s', eval call h s = Goes v s' -> keeps s s'.

Lemma in_turn_keeps hs s vs s' : Forall eval_keeps hs -> in_turn (map (eval call) hs) s = Goes vs s' -> keeps s s'.
Proof.
  intros Hk. revert s vs s'. induction Hk as [|h hs Hh _ IH]; intros s vs s' E; [by injection E as _ <-|].
  cbn in E. apply bind_goes_inv in E as (v & s1 & E1%Hh & E). apply bind_goes_inv in E as (vs' & s2 & E2%IH & E).
  injection E as _ <-. intros x. by rewrite E2.
Qed.

Lemma calls_keeps {A} (f : M -> helper A) s a s' : calls f s = Goes a s' -> s' = s.
Proof. unfold calls. destruct (f s); try done. by intros [= _ ->]. Qed.

Lemma run_unary_keeps op a s v s' : run_unary op a s = Goes v s' -> keeps s s'.
Proof.
  unfold run_unary. intros E. destruct op; try (by apply calls_keeps in E as ->). intros x. by eapply dereference_keeps.
Qed.

Lemma apply_keeps l vs s v s' : l_opcode l <> VNT_IR_CALL -> apply call l vs s = Goes v s' -> keeps s s'.
Proof.
  intros Hc E x. unfold apply in E. destruct (l_opcode l); try done; try (by eapply expression_keeps);
    try (destruct (label_constant l); [|done]); try (by injection E as _ <-).
  - destruct (binary_of_int _) as [op|]; [|done]. destruct vs as [|a [|b [|]]]; try done. unfold run_binary in E. by apply calls_keeps in E as ->.
  - destruct (unary_of_int _) as [op|]; [|done]. destruct vs as [|a [|]]; try done. by eapply run_unary_keeps.
Qed.

Lemma truth_keeps a (s : M) b s' : truth a s = Goes b s' -> s' = s.
Proof. unfold truth. apply calls_keeps. Qed.

Lemma run_logical_keeps op (a b : Exec M VntPointer) s v s' :
  (forall s v s', a s = Goes v s' -> keeps s s') -> (forall s v s', b s = Goes v s' -> keeps s s') ->
  run_logical op a b s = Goes v s' -> keeps s s'.
Proof.
  intros Ha Hb E. unfold run_logical in E. apply bind_goes_inv in E as (x & s1 & Ex%Ha & E).
  apply bind_goes_inv in E as (y & s2 & ->%truth_keeps & E). destruct (Bool.eqb _ _); [by injection E as _ <-|].
  apply bind_goes_inv in E as (z & s3 & Ez%Hb & E). apply bind_goes_inv in E as (t & s4 & ->%truth_keeps & E).
  injection E as _ <-. intros n. by rewrite Ez.
Qed.

Lemma no_call_keeps h : contains_call h = false -> eval_keeps h.
Proof.
  induction h as [l hs IH] using hir_ind. cbn [contains_call]. intros [Hc Hhs]%orb_false_iff s v s' E.
  apply bool_decide_eq_false in Hc.
  assert (Forall eval_keeps hs) as Hk.
  { clear E. induction IH as [|h hs Hh _ IH']; [done|]. cbn in Hhs. apply orb_false_iff in Hhs as [H1 H2]. auto. }
  assert ((vs ← in_turn (map (eval call) hs); apply call l vs) s = Goes v s' -> keeps s s') as Hop.
  { intros (vs & s1 & E1 & E2)%bind_goes_inv. apply in_turn_keeps in E1; [|done].
    apply apply_keeps in E2; [|done]. intros x. by rewrite E2. }
  cbn [eval] in E. destruct (is_expression _); [|done]. cbn [negb] in E. destruct (l_opcode l); auto.
  - destruct hs as [|a [|b [|]]]; auto. cbn [map] in E. destruct (binary_of_int _) as [op|]; [|done].
    destruct (logical _); auto. apply Forall_cons in Hk as [Ha [Hb _]%Forall_cons]. by apply (run_logical_keeps op (eval call a) (eval call b) s v).
  - destruct (is_reference l); auto. destruct hs as [|a [|]]; try done.
    destruct (variable_name a); [|done]. intros x. by eapply reference_keeps.
Qed.

(** ** Substitution *)

Lemma visit_knows hs s : Forall (fun h => forall st, knows st.1 s -> knows (subst_hir h st).2.1 s) hs ->
  forall st, knows st.1 s -> knows (visit subst_hir hs st).2.1 s.
Proof.
  induction 1 as [|h hs Hh _ IH]; intros st Hst; [done|]. rewrite visit_cons. apply IH. by apply Hh.
Qed.

(** What is known before an expression is known where its evaluation is cut short. *)
Lemma subst_knows s h : forall st, knows st.1 s -> knows (subst_hir h st).2.1 s.
Proof.
  induction h as [l hs IH] using hir_ind. intros st Hst. pose proof (visit_knows hs s IH st Hst) as Hv.
  cbn. destruct (visit subst_hir hs st) as [hs' st']. cbn [fst snd] in Hv.
  destruct (l_opcode l); try done.
  - apply knows_nothing.
  - by destruct (known_constant _ _).
  - by apply knows_forget.
  - by destruct (is_reference l).
Qed.

(** The new expression has the value of the old one, and what is known after it
    holds. *)
Definition subst_sound (h : hir) : Prop := forall st s, knows st.1 s ->
  eval call (subst_hir h st).1 s = eval call h s /\
  forall v s', eval call h s = Goes v s' -> knows (subst_hir h st).2.1 s'.

Lemma in_turn_subst hs : Forall subst_sound hs -> forall st s, knows st.1 s ->
  in_turn (map (eval call) (visit subst_hir hs st).1) s = in_turn (map (eval call) hs) s /\
  forall vs s', in_turn (map (eval call) hs) s = Goes vs s' -> knows (visit subst_hir hs st).2.1 s'.
Proof.
  induction 1 as [|h hs Hh _ IH]; intros st s Hst; [split; [done|]; by intros vs s' [= _ <-]|].
  rewrite visit_cons. cbn [map in_turn fst snd]. destruct (Hh st s Hst) as [E1 Hk]. split.
  - apply bind_same_on; [done|]. intros v s1 Hv. apply bind_same_on; [|done].
    by apply IH, (Hk v).
  - intros vs s' (v & s1 & Ev & (vs' & s2 & Evs & [= _ <-])%bind_goes_inv)%bind_goes_inv.
    destruct (IH (subst_hir h st).2 s1 (Hk v s1 Ev)) as [_ Hk']. by apply (Hk' vs').
Qed.

Lemma operands_subst l hs st s : Forall subst_sound hs -> knows st.1 s -> l_opcode l <> VNT_IR_CALL ->
  let m hs := vs ← in_turn (map (eval call) hs); apply call l vs in
  m (visit subst_hir hs st).1 s = m hs s /\
  forall v s', m hs s = Goes v s' -> knows (visit subst_hir hs st).2.1 s'.
Proof.
  intros Hhs Hst Hc m. destruct (in_turn_subst hs Hhs st s Hst) as [E Hk]. split.
  - by apply bind_same_on.
  - intros v s' (vs & s1 & Evs & Ev)%bind_goes_inv. eapply knows_keeps; [by eapply apply_keeps|]. by apply (Hk vs).
Qed.

Lemma logical_subst op a b st s : subst_sound a -> subst_sound b -> knows st.1 s ->
  let a' := subst_hir a st in
  let b' := subst_hir b a'.2 in
  run_logical op (eval call a'.1) (eval call b'.1) s = run_logical op (eval call a) (eval call b) s /\
  forall v s', run_logical op (eval call a) (eval call b) s = Goes v s' -> knows b'.2.1 s'.
Proof.
  intros Ha Hb Hst a' b'. destruct (Ha st s Hst) as [Ea Hka]. split.
  - apply bind_same_on; [done|]. intros x s1 Hx. apply bind_same_on; [done|].
    intros y s2 ->%truth_keeps. destruct (Bool.eqb _ _); [done|]. apply bind_same_on; [|done].
    by apply Hb, (Hka x).
  - intros v s' (x & s1 & Hx & (y & s2 & ->%truth_keeps & Ev)%bind_goes_inv)%bind_goes_inv.
    apply Hka in Hx. destruct (Bool.eqb _ _); [injection Ev as _ <-; by apply subst_knows|].
    apply bind_goes_inv in Ev as (z & s3 & Hz & (t & s4 & ->%truth_keeps & [= _ <-])%bind_goes_inv).
    by apply (Hb _ _ Hx) in Hz.
Qed.

Lemma subst_hir_sound h : good h -> subst_sound h.
Proof.
  induction h as [l hs IH] using hir_ind. intros (H1 & H2 & Hr & H4 & Hg)%good_node st s Hst.
  assert (Forall subst_sound hs) as Hhs by (rewrite Forall_forall in *; auto).
  pose proof (operands_subst l hs st s Hhs Hst) as Hops. cbn zeta in Hops.
  pose proof (in_turn_subst hs Hhs st s Hst) as [Ei _].
  destruct (is_expression (l_opcode l)) eqn:Hex.
  2:{ split.
    - cbn [subst_hir]. destruct (visit subst_hir hs st) as [hs' st']. by destruct (l_opcode l) eqn:Hop; cbn [eval fst]; rewrite ?Hop.
    - intros v s'. cbn [eval]. by rewrite Hex. }
  destruct (l_opcode l) eqn:Hop; try done; cbn [subst_hir eval]; rewrite Hop; cbn [is_expression negb];
    try (destruct (visit subst_hir hs st) as [hs' st']; cbn [fst snd eval] in *; rewrite Hop; by apply Hops).
  - destruct (visit subst_hir hs st) as [hs' st']. cbn [fst snd eval] in *. rewrite Hop. cbn [is_expression negb].
    split; [by apply bind_same_on|]. intros v s' _. apply knows_nothing.
  - apply (map_eq_nil (fun h => l_role (hir_label h))) in Hr as ->. cbn [map in_turn].
    assert ((vs ← mret []; apply call l vs) s = Goes (variable (text_of l) s) s) as ->.
    { change (apply call l [] s = Goes (variable (text_of l) s) s). unfold apply. by rewrite Hop. }
    destruct (known_constant st.1 (text_of l)) as [c|] eqn:Ec; cbn [fst snd].
    + rewrite (eval_constant _ _ c) by apply label_constant_label.
      rewrite (knows_known _ _ _ _ Hst Ec). split; [done|]. by intros v s' [= _ <-].
    + split; [|by intros v s' [= _ <-]]. cbn [eval]. rewrite Hop.
      change (apply call l [] s = Goes (variable (text_of l) s) s). unfold apply. by rewrite Hop.
  - destruct hs as [|a [|b [|]]]; try done. apply Forall_cons in Hhs as [Ha [Hb _]%Forall_cons].
    pose proof (fun op => logical_subst op a b st s Ha Hb Hst) as Hl. cbn zeta in Hl.
    rewrite !visit_cons in *. cbn [visit fst snd map eval] in *. rewrite Hop. cbn [is_expression negb].
    destruct (binary_of_int _) as [op|]; [|done]. destruct (logical op); [by apply Hl|by apply Hops].
  - destruct (is_reference l) eqn:Hre; cbn [fst snd].
    + split; [cbn [eval]; by rewrite Hop, Hre|]. intros v s'. destruct hs as [|a [|]]; try done.
      destruct (variable_name a) as [x|]; [|done]. intros E. eapply knows_keeps; [|done].
      intros y. by eapply reference_keeps.
    + destruct (visit subst_hir hs st) as [hs' st']. cbn [fst snd eval] in *. rewrite Hop, Hre. by apply Hops.
Qed.
End known.
