(* ===== verification/HirPropagate.v ===== *)
(** HirPropagate: constant propagation keeps the meaning of programs whose branches
    are [orderly]. *)

From S2P Require Import Prelude Clib Ast Ir IrTrees IrAccess IrOptimize IrPasses IrPassesFacts.
From S2P Require Import Runtime RuntimeFacts HirSemantics HirFolding HirKnown.

(** * Orderly programs *)

(** A statement that changes no variable. *)
Fixpoint quiet (h : hir) : bool :=
  match h with
  | Hir l hs =>
      match l_opcode l with
      | VNT_IR_FUNCTION | VNT_IR_STRUCT => true
      | VNT_IR_VARIABLE_DECL | VNT_IR_REASSIGN | VNT_IR_ASSIGN | VNT_IR_ASM => false
      | VNT_IR_PROGRAM | VNT_IR_IF | VNT_IR_WHILE => forallb quiet hs
      | _ => negb (contains_call h)
      end
  end.

(** An expression of literals, which folding may turn into one. *)
Fixpoint closed (h : hir) : bool :=
  match h with
  | Hir l hs =>
      match l_opcode l with
      | VNT_IR_INTEGER | VNT_IR_FLOAT | VNT_IR_BOOLEAN => true
      | VNT_IR_UNARY | VNT_IR_BINARY => forallb closed hs
      | _ => false
      end
  end.

(** A block, or what the optimizer may make one. *)
Definition may_be_block (h : hir) : bool :=
  match h with
  | Hir l hs =>
      match l_opcode l with
      | VNT_IR_PROGRAM => true
      | VNT_IR_IF | VNT_IR_WHILE => match hs with c :: _ => closed c | [] => false end
      | _ => false
      end
  end.

(** The statements of a branch: those before a block change no variable, because
    the optimizer propagates into the block what is known at the start of the
    branch. *)
Fixpoint orderly_branch (hs : list hir) : bool :=
  match hs with
  | [] => true
  | h :: hs => (quiet h || negb (existsb may_be_block hs)) && orderly_branch hs
  end.

Definition in_branch (r : VntIrEdgeRole) (hs : list hir) : list hir :=
  filter (fun h => l_role (hir_label h) = r) hs.

Definition orderly_if (hs : list hir) : bool :=
  orderly_branch (in_branch VNT_IR_EDGE_THEN hs) && orderly_branch (in_branch VNT_IR_EDGE_ELSE hs).

(** Every condition among the statements is orderly. *)
Fixpoint orderly (h : hir) : bool :=
  match h with
  | Hir l hs =>
      match l_opcode l with
      | VNT_IR_PROGRAM | VNT_IR_FUNCTION => forallb orderly hs
      | VNT_IR_IF => orderly_if hs && match hs with _ :: rest => forallb orderly rest | [] => true end
      | VNT_IR_WHILE => match hs with _ :: rest => forallb orderly rest | [] => true end
      | _ => true
      end
  end.

(** The children of a node that are statements. *)
Definition statements_in (l : Label) (hs : list hir) : list hir :=
  match l_opcode l with
  | VNT_IR_PROGRAM | VNT_IR_FUNCTION => hs
  | VNT_IR_IF | VNT_IR_WHILE => tail hs
  | _ => []
  end.

Lemma orderly_children l hs : orderly (Hir l hs) = true <->
  (l_opcode l = VNT_IR_IF -> orderly_if hs = true) /\ Forall (fun h => orderly h = true) (statements_in l hs).
Proof.
  assert (forall hs, forallb orderly hs = true <-> Forall (fun h => orderly h = true) hs) as E.
  { intros hs'. rewrite List.forallb_forall, Forall_forall. by setoid_rewrite list_elem_of_In. }
  unfold statements_in. cbn. destruct (l_opcode l); rewrite ?andb_true_iff, ?E; try naive_solver;
    destruct hs; cbn; rewrite ?E; naive_solver.
Qed.

Section propagate.
Context {M : Type} `{HM : MachineLaws M}.
Context (call : bytes -> list VntPointer -> Exec M VntPointer) (loops : nat).

Notation run := (exec call loops).
Notation runs hs := (map (fun h => (l_role (hir_label h), run h)) hs).

(** * Quiet statements *)

Definition exec_keeps (m : Exec M completion) : Prop := forall s c s', m s = Goes c s' -> keeps s s'.

Lemma sequence_keeps ms : Forall exec_keeps ms -> exec_keeps (sequence ms).
Proof.
  induction 1 as [|m ms Hm _ IH]; intros s c s' E; [by injection E as _ <-|]. cbn in E.
  apply bind_goes_inv in E as (c1 & s1 & E1%Hm & E). destruct c1; try (by injection E as _ <-).
  apply IH in E. intros x. by rewrite E.
Qed.

Lemma while_keeps n condition body :
  (forall s (b : bool) s', condition s = Goes b s' -> keeps s s') -> exec_keeps body ->
  exec_keeps (while_loop n condition body).
Proof.
  intros Hc Hb. induction n as [|n IH]; intros s c s' E; cbn in E;
    apply bind_goes_inv in E as ([] & s1 & E1%Hc & E); try done; try (by injection E as _ <-).
  apply bind_goes_inv in E as (c2 & s2 & E2%Hb & E).
  assert (keeps s s2) as Hs by (intros x; by rewrite E2).
  destruct c2; try (by injection E as _ <-); apply IH in E; intros x; by rewrite E.
Qed.

Lemma runs_keeps r hs : Forall (fun h => exec_keeps (run h)) hs -> exec_keeps (sequence (in_edge r (runs hs))).
Proof.
  intros Hhs. apply sequence_keeps. induction Hhs as [|h hs Hh _ IH]; [constructor|]. cbn [map].
  rewrite in_edge_cons. destruct (decide _); [by constructor|done].
Qed.

Lemma condition_keeps e : eval_keeps call e -> forall s b s',
  (v ← eval call e; truth v) s = Goes b s' -> keeps s s'.
Proof. intros He s b s' (v & s1 & E & ->%truth_keeps)%bind_goes_inv. by eapply He. Qed.

Lemma quiet_eval h : quiet h = true -> eval_keeps call h.
Proof.
  intros Hq. destruct (is_expression (l_opcode (hir_label h))) eqn:E.
  - apply no_call_keeps. destruct h as [l hs]. cbn [quiet hir_label] in *.
    destruct (l_opcode l); try done; by apply negb_true_iff in Hq.
  - destruct h as [l hs]. cbn in E. intros s v s'. cbn [eval]. by rewrite E.
Qed.

Lemma print_keep e : eval_keeps call e ->
  exec_keeps (v ← eval call e; _ ← print_helper v; mret Normal).
Proof.
  intros He s c s' (v & s1 & E1%He & (u & s2 & E2 & [= _ <-])%bind_goes_inv)%bind_goes_inv x.
  by rewrite (print_keeps _ _ _ _ _ E2).
Qed.

Lemma return_keep e : eval_keeps call e -> exec_keeps (v ← eval call e; mret (Left_with v)).
Proof. intros He s c s' (v & s1 & E1%He & [= _ <-])%bind_goes_inv. done. Qed.

Lemma no_call_child e hs : negb (contains_call (Hir hs [e])) = true -> eval_keeps call e.
Proof.
  intros Hq%negb_true_iff. cbn in Hq. apply orb_false_iff in Hq as [_ Hq].
  rewrite orb_false_r in Hq. by apply no_call_keeps.
Qed.

Lemma quiet_keeps h : quiet h = true -> exec_keeps (run h).
Proof.
  induction h as [l hs IH] using hir_ind. intros Hq s c s' E. cbn [quiet] in Hq.
  assert (forallb quiet hs = true -> forall r, exec_keeps (sequence (in_edge r (runs hs)))) as Hruns.
  { intros Hhs r. apply runs_keeps. rewrite List.forallb_forall in Hhs.
    rewrite Forall_forall in *. intros h Hh. apply IH; [done|]. by apply Hhs, list_elem_of_In. }
  assert (forall hs', forallb quiet (hs') = true -> forall c hs'', hs' = c :: hs'' -> eval_keeps call c) as Hcond.
  { intros hs' Hhs' e hs'' ->. cbn in Hhs'. apply andb_true_iff in Hhs' as [He _]. by apply quiet_eval. }
  cbn [exec] in E. destruct (l_opcode l) eqn:Hop; try done; try (by injection E as _ <-).
  - by eapply Hruns.
  - destruct hs as [|e [|]]; try done. by eapply print_keep; [eapply no_call_child|].
  - destruct hs as [|e hs']; [done|]. apply bind_goes_inv in E as (v & s1 & E1 & E).
    apply bind_goes_inv in E as (b & s2 & ->%truth_keeps & E). apply (Hcond _ Hq e hs' eq_refl) in E1.
    assert (keeps s1 s') as E2 by (by destruct b; apply Hruns in E). intros x. by rewrite E2.
  - destruct hs as [|e hs']; [done|].
    eapply while_keeps; [apply condition_keeps, (Hcond _ Hq e hs' eq_refl)|by apply Hruns|exact E].
  - cbn in Hq. by rewrite Hop in Hq.
  - destruct hs as [|e [|]]; try done; [by injection E as _ <-|].
    by eapply return_keep; [eapply no_call_child|].
Qed.

(** * Sequences *)

Definition propagate_sound (h : hir) : Prop := forall st s, knows st.1 s ->
  run (propagate_hir h st).1 s = run h s /\
  forall s', run h s = Goes Normal s' -> knows (propagate_hir h st).2.1 s'.

Lemma in_edge_all r hs : Forall (fun r' => r' = r) (roles_of hs) -> in_edge r (runs hs) = map run hs.
Proof.
  induction hs as [|h hs IH]; intros Hr; [done|]. apply Forall_cons in Hr as [H1 H2]. cbn [map].
  by rewrite in_edge_cons, decide_True, IH.
Qed.

Lemma sequence_sound hs : Forall propagate_sound hs -> forall st s, knows st.1 s ->
  sequence (map run (visit propagate_hir hs st).1) s = sequence (map run hs) s /\
  forall s', sequence (map run hs) s = Goes Normal s' -> knows (visit propagate_hir hs st).2.1 s'.
Proof.
  induction 1 as [|h hs Hh _ IH]; intros st s Hst; [split; [done|]; by intros s' [= <-]|].
  rewrite visit_cons. cbn [map sequence fst snd]. destruct (Hh st s Hst) as [E1 Hk]. split.
  - apply bind_same_on; [done|]. intros [] s1 E; try done. by apply IH, Hk.
  - intros s' (c & s1 & Ec & E)%bind_goes_inv. destruct c; try done.
    destruct (IH (propagate_hir h st).2 s1 (Hk s1 Ec)) as [_ Hk']. by apply Hk'.
Qed.

(** The blocks of a branch start with what is known at the start of the branch. *)
Definition propagated_branch (env : HirConstantEnvironment) (b' b : hir) : Prop :=
  exists k, b' = (propagate_branch_hir env b k).1.

Lemma propagated_other env b' b : may_be_block b = false -> propagated_branch env b' b -> b' = b.
Proof.
  intros Hb [k ->]. unfold propagate_branch_hir, is_branch.
  assert (is_block b = false) as ->; [|by destruct (l_role _)].
  apply bool_decide_eq_false. intros E. destruct b as [l hs]. cbn in *. by rewrite E in Hb.
Qed.

Lemma propagated_others env bs' bs : Forall2 (propagated_branch env) bs' bs ->
  existsb may_be_block bs = false -> bs' = bs.
Proof.
  induction 1 as [|b' b bs' bs Hb _ IH]; intros E; [done|]. cbn in E. apply orb_false_iff in E as [E1 E2].
  f_equal; [by eapply propagated_other|by apply IH].
Qed.

Lemma propagated_run env b' b s : NoDup env.*1 -> propagate_sound b -> propagated_branch env b' b -> knows env s -> run b' s = run b s.
Proof.
  intros Hd Hb [k ->] Hs. unfold propagate_branch_hir. destruct (is_branch b); [|done].
  assert (run (propagate_hir b (hir_constants_copy env, k)).1 s = run b s) as E
    by (apply Hb; cbn [fst]; by rewrite copy_same).
  by destruct (propagate_hir b (hir_constants_copy env, k)).
Qed.

Lemma branch_sound env bs' bs s : Forall2 (propagated_branch env) bs' bs -> Forall propagate_sound bs ->
  orderly_branch bs = true -> knows env s -> sequence (map run bs') s = sequence (map run bs) s.
Proof.
  intros Hbs. revert s. induction Hbs as [|b' b bs' bs Hb Hbs IH]; intros s Hsound Ho Hs; [done|].
  apply Forall_cons in Hsound as [Hb1 Hsound]. cbn [orderly_branch] in Ho. apply andb_true_iff in Ho as [Hq Ho].
  cbn [map sequence]. apply bind_same_on; [by eapply propagated_run; [apply Hs|..]|].
  intros [] s1 E; try done. apply orb_true_iff in Hq as [Hq|Hq].
  - apply IH; [done..|]. eapply knows_keeps; [|done]. by eapply quiet_keeps.
  - apply negb_true_iff in Hq. by rewrite (propagated_others _ _ _ Hbs Hq).
Qed.

Lemma in_edge_branch r hs : in_edge r (runs hs) = map run (in_branch r hs).
Proof.
  unfold in_branch. induction hs as [|h hs IH]; [done|]. cbn [map]. rewrite in_edge_cons, filter_cons.
  destruct (decide _); [cbn; by f_equal|done].
Qed.

Lemma in_branch_related (R : hir -> hir -> Prop) r hs' hs :
  Forall2 (fun h' h => l_role (hir_label h') = l_role (hir_label h) /\ R h' h) hs' hs ->
  Forall2 R (in_branch r hs') (in_branch r hs).
Proof.
  unfold in_branch. induction 1 as [|h' h hs' hs [E Hh] _ IH]; [constructor|]. rewrite !filter_cons, E.
  destruct (decide _); [by constructor|done].
Qed.

Lemma rest_related env rest k : Forall2 (fun h' h => l_role (hir_label h') = l_role (hir_label h) /\
  propagated_branch env h' h) (visit (propagate_branch_hir env) rest k).1 rest.
Proof.
  revert k. induction rest as [|b rest IH]; intros k; [constructor|]. rewrite visit_cons.
  constructor; [|apply IH]. split; [apply propagate_branch_role|by exists k].
Qed.

Lemma if_sound l c rest : l_opcode l = VNT_IR_IF -> good c -> l_role (hir_label c) = VNT_IR_EDGE_CONDITION ->
  Forall propagate_sound rest -> orderly_if rest = true -> propagate_sound (Hir l (c :: rest)).
Proof.
  intros Hop Hc Hrole Hrest Ho st' s Hst. split.
  2:{ intros s' _. cbn [propagate_hir]. rewrite Hop. destruct (subst_hir c st') as [c' st1].
      destruct (visit _ rest _) as [rest' k']. apply knows_nothing. }
  destruct (subst_hir_sound call c Hc st' s Hst) as [Ec Hk]. pose proof (subst_hir_role c st') as Hcr.
  cbn [propagate_hir]. rewrite Hop. destruct (subst_hir c st') as [c' st1]. cbn [fst snd] in *.
  change (visit _ rest st1.2) with (visit (propagate_branch_hir st1.1) rest st1.2).
  pose proof (rest_related st1.1 rest st1.2) as Hrel.
  destruct (visit (propagate_branch_hir st1.1) rest st1.2) as [rest' k']. cbn [fst exec] in *. rewrite Hop.
  apply bind_same_on; [done|]. intros v s1 Ev. apply bind_same_on; [done|]. intros b s2 ->%truth_keeps.
  set (r := if b then _ else _). cbn [map].
  assert (l_role (hir_label c) <> r) as Hn by (rewrite Hrole; by destruct b).
  rewrite !in_edge_cons, Hcr, !decide_False, !in_edge_branch by done.
  apply (branch_sound st1.1); [by apply in_branch_related| | |by apply (Hk v)].
  - unfold in_branch. rewrite Forall_forall in *. intros h [_ Hh]%list_elem_of_filter. auto.
  - apply andb_true_iff in Ho as [H1 H2]. by destruct b.
Qed.

(** * Statements *)

Lemma after_calls_knows x s : knows x.2.1 s -> knows (after_calls x).2.1 s.
Proof.
  destruct x as [h st]. intros Hs. unfold after_calls. cbn in *. destruct (contains_call h); [apply knows_nothing|done].
Qed.

Lemma declaration_sound l hs : l_opcode l = VNT_IR_VARIABLE_DECL \/ l_opcode l = VNT_IR_REASSIGN ->
  Forall good hs -> propagate_sound (Hir l hs).
Proof.
  intros Hop Hg st s Hst. destruct hs as [|e [|]].
  - split; [destruct Hop as [Hop|Hop]; cbn; rewrite Hop; cbn; by rewrite Hop|].
    intros s'. cbn [exec]. by destruct Hop as [-> | ->].
  - apply Forall_cons in Hg as [He _]. destruct (subst_hir_sound call e He st s Hst) as [Ee Hk].
    pose proof (subst_hir_good e He st) as He'.
    assert (propagate_hir (Hir l [e]) st = after_calls (Hir l [(subst_hir e st).1],
      (learn l (constant_of (subst_hir e st).1) (subst_hir e st).2.1, (subst_hir e st).2.2))) as ->.
    { cbn. destruct (subst_hir e st) as [e' st']. by destruct Hop as [-> | ->]. }
    destruct (subst_hir e st) as [e' st']. cbn [fst snd] in *. rewrite after_calls_tree. cbn [fst].
    assert (forall e, run (Hir l [e]) =
      (v ← eval call e; _ ← writes (set_variable (text_of l) v); mret Normal)) as Hrun.
    { intros e0. cbn [exec]. by destruct Hop as [-> | ->]. }
    rewrite !Hrun. split; [by apply bind_same_on|].
    intros s' (v & s1 & Ev & (u & s2 & [= _ <-] & [= <-])%bind_goes_inv)%bind_goes_inv.
    apply after_calls_knows. cbn [fst snd]. pose proof (Hk v s1 Ev) as Hs1. unfold learn.
    destruct (constant_of e') as [c|] eqn:Ec; [|by apply knows_set_other].
    rewrite (eval_literal e' c) in Ee by done. rewrite Ev in Ee. injection Ee as <- <-. by apply knows_set.
  - split; [destruct Hop as [Hop|Hop]; cbn [propagate_hir exec]; rewrite Hop|].
    + rewrite !visit_cons. destruct (visit subst_hir _ _). cbn. by rewrite Hop.
    + rewrite !visit_cons. destruct (visit subst_hir _ _). cbn. by rewrite Hop.
    + intros s'. cbn [exec]. by destruct Hop as [-> | ->].
Qed.

Lemma assign_knows target e st s u s' : knows st s -> contains_call target = false -> contains_call e = false ->
  assign call target (eval call e) s = Goes u s' -> knows (forget [target; e] st) s'.
Proof.
  intros Hs _ Hc E. unfold forget. cbn [head]. destruct target as [l hs]. cbn [hir_label].
  destruct (l_opcode l) eqn:Hop; try apply knows_nothing. cbn [assign] in E. rewrite Hop in E.
  apply bind_goes_inv in E as (v & s1 & Ev & [= _ <-]). apply knows_set_other.
  eapply knows_keeps; [by eapply no_call_keeps|done].
Qed.

Lemma assign_sound l hs : l_opcode l = VNT_IR_ASSIGN -> propagate_sound (Hir l hs).
Proof.
  intros Hop st s Hst. cbn [propagate_hir]. rewrite Hop. split; [done|]. intros s' E. unfold after_calls. cbn [fst snd].
  destruct (contains_call (Hir l hs)) eqn:Hc; [apply knows_nothing|].
  cbn [exec] in E. rewrite Hop in E. destruct hs as [|t [|e [|]]]; try done.
  apply bind_goes_inv in E as (u & s1 & E & [= <-]). cbn in Hc. rewrite Hop in Hc. cbn in Hc.
  apply orb_false_iff in Hc as [_ [Ht [He _]%orb_false_iff]%orb_false_iff]. by eapply assign_knows.
Qed.

(** The other statements: their expressions are the operands. *)
Definition plain (op : VntIrOpcode) : bool :=
  match op with
  | VNT_IR_PROGRAM | VNT_IR_IF | VNT_IR_WHILE | VNT_IR_FUNCTION | VNT_IR_ASM
  | VNT_IR_VARIABLE_DECL | VNT_IR_REASSIGN | VNT_IR_ASSIGN => false
  | _ => true
  end.

Lemma propagate_plain l hs st : plain (l_opcode l) = true ->
  propagate_hir (Hir l hs) st = after_calls (Hir l (visit subst_hir hs st).1, (visit subst_hir hs st).2).
Proof. intros Hp. cbn. destruct (visit subst_hir hs st) as [hs' st']. by destruct (l_opcode l). Qed.

Lemma plain_sound l hs : plain (l_opcode l) = true -> good (Hir l hs) -> propagate_sound (Hir l hs).
Proof.
  intros Hp Hgood st s Hst. rewrite propagate_plain by done. rewrite after_calls_tree. cbn [fst].
  pose proof Hgood as (_ & _ & Hr & _ & Hg)%good_node.
  assert (Forall (subst_sound call) hs) as Hhs by (eapply Forall_impl; [exact Hg|]; apply subst_hir_sound).
  pose proof (in_turn_subst call hs Hhs st s Hst) as [Ei Hk].
  destruct (l_opcode l) eqn:Hop; try done; cbn [exec]; rewrite Hop; try done.
  - destruct hs as [|e [|e2 hs]]; [done| |by destruct Hr]. apply Forall_cons in Hhs as [He _].
    destruct (He st s Hst) as [Ee Hke]. rewrite visit_cons. cbn [visit fst snd]. split; [by apply bind_same_on|].
    intros s' (v & s1 & Ev%Hke & (u & s2 & Eu & [= <-])%bind_goes_inv)%bind_goes_inv.
    apply after_calls_knows. eapply knows_keeps; [|exact Ev]. intros x. by eapply print_keeps.
  - apply (map_eq_nil (fun h => l_role (hir_label h))) in Hr as ->. split; [done|]. intros s' [= <-].
    by apply after_calls_knows.
  - split.
    + apply bind_same_on; [|done]. cbn [eval]. rewrite Hop. by apply bind_same_on.
    + intros s' _. unfold after_calls. cbn. rewrite Hop. apply knows_nothing.
  - destruct hs as [|e [|e2 hs]]; [done| |by destruct Hr]. apply Forall_cons in Hhs as [He _].
    destruct (He st s Hst) as [Ee Hke]. rewrite visit_cons. cbn [visit fst snd]. split; [by apply bind_same_on|].
    by intros s' (v & s1 & Ev & [= ])%bind_goes_inv.
Qed.

Lemma function_sound l hs : l_opcode l = VNT_IR_FUNCTION -> propagate_sound (Hir l hs).
Proof.
  intros Hop st s Hst. cbn [propagate_hir]. rewrite Hop. split.
  - destruct hs as [|b rest]; [done|]. destruct (is_block b); [|done].
    destruct (propagate_hir b ([], st.2)) as [b' st']. rewrite after_calls_tree. cbn [fst exec]. by rewrite Hop.
  - cbn [exec]. rewrite Hop. intros s' [= <-]. destruct hs as [|b rest]; [by apply after_calls_knows|].
    destruct (is_block b); [|by apply after_calls_knows].
    destruct (propagate_hir b ([], st.2)) as [b' st']. by apply after_calls_knows.
Qed.

Lemma program_sound l hs : l_opcode l = VNT_IR_PROGRAM -> Forall (fun r => r = VNT_IR_EDGE_STATEMENT) (roles_of hs) ->
  Forall propagate_sound hs -> propagate_sound (Hir l hs).
Proof.
  intros Hop Hr Hhs st s Hst. destruct (sequence_sound hs Hhs st s Hst) as [E Hk].
  cbn [propagate_hir]. rewrite Hop.
  pose proof (visit_roles propagate_hir hs (Forall_true _ _ propagate_hir_role) st) as Hr'.
  destruct (visit propagate_hir hs st) as [hs' st']. rewrite after_calls_tree. cbn [fst snd exec] in *. rewrite Hop.
  rewrite !(in_edge_all VNT_IR_EDGE_STATEMENT) by (by rewrite ?Hr'). split; [done|].
  intros s' E'. by apply after_calls_knows, Hk.
Qed.

Lemma propagate_hir_sound h : good h -> orderly h = true -> propagate_sound h.
Proof.
  induction h as [l hs IH] using hir_ind. intros Hgood Ho.
  pose proof Hgood as (_ & _ & Hr & Hio & Hg)%good_node.
  apply orderly_children in Ho as [Hif Hos].
  assert (Forall propagate_sound (statements_in l hs)) as Hhs.
  { unfold statements_in in *. rewrite !Forall_forall in *.
    destruct (l_opcode l); try (by intros h ?%elem_of_nil); try (destruct hs as [|c rest]; [by intros h ?%elem_of_nil|]);
      cbn [tail] in *; intros h Hh; apply IH; auto; try (apply Hg); by right. }
  destruct (plain (l_opcode l)) eqn:Hp; [by apply plain_sound|].
  destruct (l_opcode l) eqn:Hop; try done.
  - apply program_sound; [done..|]. unfold statements_in in Hhs. by rewrite Hop in Hhs.
  - destruct Hio as (n & m & E). destruct hs as [|c rest]; [done|]. injection E as Ec _.
    apply Forall_cons in Hg as [Hc _]. unfold statements_in in Hhs. rewrite Hop in Hhs. cbn [tail] in Hhs.
    apply if_sound; try done. specialize (Hif eq_refl).
    unfold orderly_if, in_branch in *. by rewrite !filter_cons, Ec, !decide_False in Hif by done.
  - intros st s Hst. cbn [propagate_hir]. rewrite Hop. split; [done|]. intros; apply knows_nothing.
  - by apply function_sound.
  - by apply declaration_sound; [left|].
  - by apply assign_sound.
  - by apply declaration_sound; [right|].
  - intros st s Hst. cbn [propagate_hir]. rewrite Hop. split; [done|]. intros; apply knows_nothing.
Qed.
End propagate.
