(* ===== verification/HirOptimize.v ===== *)
(** HirOptimize: the optimizer keeps the meaning of orderly programs. *)

From S2P Require Import Prelude Clib Ast Ir IrTrees IrAccess IrOptimize IrPasses IrPassesFacts.
From S2P Require Import Runtime RuntimeFacts HirSemantics HirFolding HirKnown HirPropagate.

(** * Propagation in programs *)

Section programs.
Context {M : Type} `{HM : MachineLaws M}.

Lemma propagate_hir_label h st : hir_label (propagate_hir h st).1 = hir_label h.
Proof.
  destruct h as [l hs]. cbn. destruct (l_opcode l); try done;
    try (by destruct (visit subst_hir hs st)); try (by destruct (visit propagate_hir hs st)).
  - destruct hs as [|c rest]; [done|]. destruct (subst_hir c st) as [c' st']. by destruct (visit _ rest _).
  - destruct hs as [|b rest]; [done|]. destruct (is_block b); [|done]. by destruct (propagate_hir b _).
Qed.

Lemma propagate_hir_function name h st : is_function name (propagate_hir h st).1 = is_function name h.
Proof. unfold is_function. by rewrite propagate_hir_label. Qed.

Lemma exec_calls call' call loops h : same_calls call' call -> same (exec (M := M) call' loops h) (exec call loops h).
Proof. intros Hc. by apply same_node_refl. Qed.

Lemma propagate_hir_same_function name h st : good h -> orderly h = true -> is_function name h = true ->
  same_function (M := M) (propagate_hir h st).1 h.
Proof.
  intros Hg Ho Hop%is_function_opcode. split; [by rewrite propagate_hir_label|]. intros call' call loops Hc.
  destruct h as [l hs]. cbn in Hop. apply good_node in Hg as (_ & _ & Hr & _ & Hg).
  apply orderly_children in Ho as [_ Ho]. unfold statements_in in Ho.
  rewrite Hop in Ho, Hr. cbn [propagate_hir]. rewrite Hop.
  assert (same (exec_body call' loops hs) (exec_body call loops hs)) as Hsame.
  { apply body_same. clear Hr Hg Ho. induction hs; constructor; [by apply same_node_refl|done]. }
  destruct hs as [|b rest]; [done|]. destruct (is_block b); [|done].
  apply Forall_cons in Hg as [Hb _]. apply Forall_cons in Ho as [Ho _].
  pose proof (propagate_hir_sound call' loops b Hb Ho ([], st.2)) as Hs.
  pose proof (propagate_hir_role b ([], st.2)) as Hrole.
  destruct (propagate_hir b ([], st.2)) as [b' st']. rewrite after_calls_tree. cbn [fst hir_children] in *.
  etrans; [|exact Hsame]. intros s. unfold exec_body. cbn [map]. rewrite !in_edge_cons, Hrole.
  apply Forall_cons in Hr as [-> _]. cbn. apply bind_same_on; [|done]. by apply Hs, knows_nothing.
Qed.

Lemma propagate_block_visit l hs k : (propagate_block (Hir l hs) k).1 = Hir l (visit propagate_hir hs ([], k)).1.
Proof. cbn. by destruct (visit propagate_hir hs ([], k)). Qed.

Lemma propagate_block_program h k : is_root h -> orderly h = true -> same_program (M := M) (propagate_block h k).1 h.
Proof.
  destruct h as [l hs]. intros (Hgood & Hop & _) Ho. cbn in Hop. rewrite propagate_block_visit.
  pose proof Hgood as (_ & _ & Hr & _ & Hg)%good_node. rewrite Hop in Hr. apply orderly_children in Ho as [_ Ho].
  unfold statements_in in Ho. rewrite Hop in Ho. rewrite Forall_forall in Hg, Ho. split.
  - intros name. unfold find_function. cbn [hir_children]. apply find_same, visit_related, Forall_forall.
    intros h Hh st. split; [apply propagate_hir_function|]. apply propagate_hir_same_function; [by apply Hg|by apply Ho].
  - intros call' call loops Hc. etrans; [|by apply exec_calls]. intros s.
    assert (Forall (propagate_sound call' loops) hs) as Hhs.
    { apply Forall_forall. intros h Hh. apply propagate_hir_sound; [by apply Hg|by apply Ho]. }
    pose proof (visit_roles propagate_hir hs (Forall_true _ _ propagate_hir_role) ([], k)) as Hr'.
    destruct (sequence_sound call' loops hs Hhs ([], k) s (knows_nothing s)) as [E _].
    cbn [exec]. rewrite Hop, !(in_edge_all _ _ VNT_IR_EDGE_STATEMENT) by (by rewrite ?Hr'). done.
Qed.
End programs.

(** * The passes keep programs orderly *)

(** What the passes do to a statement of a branch. *)
Record tamer (h' h : hir) : Prop := {
  tamer_role : l_role (hir_label h') = l_role (hir_label h);
  tamer_quiet : quiet h = true -> quiet h' = true;
  tamer_block : may_be_block h' = true -> may_be_block h = true
}.

Lemma tamer_refl h : tamer h h.
Proof. done. Qed.

Lemma orderly_branch_tamer hs' hs : Forall2 tamer hs' hs -> orderly_branch hs = true -> orderly_branch hs' = true.
Proof.
  induction 1 as [|h' h hs' hs Hh Hhs IH]; intros Ho; [done|]. cbn in *.
  apply andb_true_iff in Ho as [Hq Ho]. rewrite IH, andb_true_r by done. apply orb_true_iff in Hq as [Hq|Hq].
  - by rewrite (tamer_quiet _ _ Hh Hq).
  - assert (existsb may_be_block hs' = false) as ->; [|by rewrite orb_true_r]. apply negb_true_iff in Hq.
    clear IH Ho. induction Hhs as [|x' x hs' hs Hx _ IH]; [done|]. cbn in *. apply orb_false_iff in Hq as [H1 H2].
    rewrite IH, orb_false_r by done. destruct (may_be_block x') eqn:E; [|done]. apply Hx in E. congruence.
Qed.

Lemma orderly_if_tamer hs' hs : Forall2 tamer hs' hs -> orderly_if hs = true -> orderly_if hs' = true.
Proof.
  intros Hhs [H1 H2]%andb_true_iff. apply andb_true_iff.
  assert (forall r, Forall2 tamer (in_branch r hs') (in_branch r hs)) as Hr.
  { intros r. apply in_branch_related. eapply Forall2_impl; [exact Hhs|]. intros h' h Hh. by split; [apply Hh|]. }
  by split; eapply orderly_branch_tamer.
Qed.

Lemma orderly_node l hs' hs : Forall2 tamer hs' hs -> Forall (fun h => orderly h = true) (statements_in l hs') ->
  orderly (Hir l hs) = true -> orderly (Hir l hs') = true.
Proof.
  intros Ht Ho' [Hif _]%orderly_children. apply orderly_children. split; [|done]. intros Hop.
  by eapply orderly_if_tamer, Hif.
Qed.

(** The statements of a node whose children are visited. *)
Lemma visit_statements {A} (f : hir -> A -> hir * A) (P Q : hir -> Prop) l hs a :
  Forall (fun h => P h -> forall a, Q (f h a).1) hs -> Forall P (statements_in l hs) ->
  Forall Q (statements_in l (visit f hs a).1).
Proof.
  unfold statements_in. intros Hf HP. destruct (l_opcode l); try done; try (by apply (visit_forall _ P)).
  all: destruct hs as [|c rest]; [done|]; rewrite visit_cons; cbn [tail fst] in *;
    apply Forall_cons in Hf as [_ Hf]; by apply (visit_forall _ P).
Qed.

Lemma statements_sublist l hs' hs : hs' `sublist_of` hs -> statements_in l hs' `sublist_of` statements_in l hs.
Proof.
  unfold statements_in. intros Hs. destruct (l_opcode l); try done.
  all: destruct Hs as [|h hs' hs Hs|h hs' hs Hs]; [done..|]; cbn [tail]; destruct hs'; [apply sublist_nil_l|];
    cbn [tail]; by apply sublist_cons_l in Hs as (k1 & k2 & -> & Hs); apply sublist_inserts_l, sublist_cons.
Qed.

(** ** Calls and assignments *)

Record calmer (h' h : hir) : Prop := {
  calmer_quiet : quiet h = true -> quiet h' = true;
  calmer_calls : contains_call h = false -> contains_call h' = false
}.

Lemma calmer_refl h : calmer h h.
Proof. done. Qed.

Lemma calmer_trans h1 h2 h3 : calmer h1 h2 -> calmer h2 h3 -> calmer h1 h3.
Proof. intros [Q1 C1] [Q2 C2]. split; auto. Qed.

(** Every child of the new node comes from one of the old. *)
Definition calmer_all (hs' hs : list hir) : Prop := forall h', h' ∈ hs' -> exists h, h ∈ hs /\ calmer h' h.

Lemma calmer_forall2 hs' hs : Forall2 calmer hs' hs -> calmer_all hs' hs.
Proof.
  induction 1 as [|h' h hs' hs Hh _ IH]; intros x Hx; [by apply elem_of_nil in Hx|].
  apply elem_of_cons in Hx as [->|Hx]; [exists h; split; [by left|done]|].
  destruct (IH x Hx) as (y & Hy & Hxy). exists y. split; [by right|done].
Qed.

Lemma calmer_sublist hs' hs : hs' `sublist_of` hs -> calmer_all hs' hs.
Proof. intros Hs h Hh. exists h. split; [|done]. by eapply sublist_in. Qed.

Lemma calmer_all_trans hs1 hs2 hs3 : calmer_all hs1 hs2 -> calmer_all hs2 hs3 -> calmer_all hs1 hs3.
Proof.
  intros H1 H2 h Hh. destruct (H1 h Hh) as (h2 & Hh2 & Hc). destruct (H2 h2 Hh2) as (h3 & Hh3 & Hc').
  exists h3. split; [done|]. by eapply calmer_trans.
Qed.

Lemma calmer_all_quiet hs' hs : calmer_all hs' hs -> forallb quiet hs = true -> forallb quiet hs' = true.
Proof.
  intros Hc. rewrite !List.forallb_forall. intros Hq h' Hh'%list_elem_of_In.
  destruct (Hc h' Hh') as (h & Hh & Hcalm). by apply Hcalm, Hq, list_elem_of_In.
Qed.

Lemma calmer_all_calls hs' hs : calmer_all hs' hs -> existsb contains_call hs = false -> existsb contains_call hs' = false.
Proof.
  intros Hc. rewrite !existsb_false. intros Hq h' Hh'%list_elem_of_In. destruct (Hc h' Hh') as (h & Hh & Hcalm).
  by apply Hcalm, Hq, list_elem_of_In.
Qed.

Lemma calmer_node l hs' hs : calmer_all hs' hs -> calmer (Hir l hs') (Hir l hs).
Proof.
  intros Hc. pose proof (calmer_all_quiet _ _ Hc) as Hq. pose proof (calmer_all_calls _ _ Hc) as Hcalls.
  assert (contains_call (Hir l hs) = false -> contains_call (Hir l hs') = false) as Hcc.
  { cbn. rewrite !orb_false_iff. naive_solver. }
  split; [|done]. cbn [quiet]. destruct (l_opcode l); try done; auto; by intros ->%negb_true_iff%Hcc.
Qed.

(** A block instead of a condition or a loop. *)
Lemma calmer_block l hs' hs : l_opcode l = VNT_IR_IF \/ l_opcode l = VNT_IR_WHILE -> calmer_all hs' hs ->
  calmer (Hir (block_label l) hs') (Hir l hs).
Proof.
  intros Hop Hc. pose proof (calmer_all_quiet _ _ Hc) as Hq. pose proof (calmer_all_calls _ _ Hc) as Hcalls.
  split; cbn; destruct Hop as [-> | ->]; auto; rewrite !orb_false_iff; naive_solver.
Qed.

Lemma calmer_literal c l h : calmer (literal c l) h.
Proof. by destruct c. Qed.

Lemma calmer_role r h : calmer (hir_role r h) h.
Proof. by destruct h. Qed.

(** ** Folding *)

Lemma fold_hir_calmer h k : calmer (fold_hir h k).1 h.
Proof.
  revert k. induction h as [l hs IH] using hir_ind. intros k. cbn.
  pose proof (calmer_forall2 _ _ (visit_related fold_hir calmer hs IH k)) as Hc.
  destruct (visit fold_hir hs k) as [hs' k']. destruct (fold_here l hs'); [apply calmer_literal|by apply calmer_node].
Qed.

Definition shuts (h' h : hir) : Prop := closed h' = true -> closed h = true.

Lemma shuts_all hs' hs : Forall2 shuts hs' hs -> forallb closed hs' = true -> forallb closed hs = true.
Proof.
  induction 1 as [|h' h hs' hs Hh _ IH]; [done|]. cbn. rewrite !andb_true_iff. intros [H1 H2]. auto.
Qed.

Lemma constant_closed h c : constant_of h = Some c -> closed h = true.
Proof. destruct h as [l hs]. unfold constant_of, label_constant. cbn. by destruct (l_opcode l). Qed.

Lemma fold_here_closed l hs c : fold_here l hs = Some c ->
  (l_opcode l = VNT_IR_UNARY \/ l_opcode l = VNT_IR_BINARY) /\ forallb closed hs = true.
Proof.
  unfold fold_here. destruct (l_opcode l); try done.
  - destruct hs as [|a [|b [|]]]; try done. destruct (binary_of_int _), (constant_of a) eqn:Ea, (constant_of b) eqn:Eb; try done.
    intros _. cbn. rewrite (constant_closed _ _ Ea), (constant_closed _ _ Eb). auto.
  - destruct hs as [|a [|]]; try done. destruct (unary_of_int _), (constant_of a) eqn:Ea; try done.
    intros _. cbn. rewrite (constant_closed _ _ Ea). auto.
Qed.

Lemma fold_hir_closed h k : shuts (fold_hir h k).1 h.
Proof.
  revert k. induction h as [l hs IH] using hir_ind. intros k. cbn.
  pose proof (shuts_all _ _ (visit_related fold_hir shuts hs IH k)) as Hs.
  destruct (visit fold_hir hs k) as [hs' k']. destruct (fold_here l hs') as [c|] eqn:E; intros H; cbn [closed].
  - apply fold_here_closed in E as [[-> | ->] Hc]; by apply Hs.
  - cbn in H. destruct (l_opcode l); auto.
Qed.

Lemma shuts_block l hs' hs : Forall2 shuts hs' hs -> may_be_block (Hir l hs') = true -> may_be_block (Hir l hs) = true.
Proof. intros [|c' c rest' rest Hc _]; [done|]. cbn. destruct (l_opcode l); auto. Qed.

Lemma fold_hir_tamer h k : tamer (fold_hir h k).1 h.
Proof.
  split; [apply fold_hir_role|apply fold_hir_calmer|]. destruct h as [l hs]. cbn [fold_hir].
  pose proof (visit_related fold_hir shuts hs (Forall_true _ _ fold_hir_closed) k) as Hs.
  destruct (visit fold_hir hs k) as [hs' k']. destruct (fold_here l hs') as [c|]; [by destruct c|].
  by apply shuts_block.
Qed.

Lemma fold_hir_orderly h k : orderly h = true -> orderly (fold_hir h k).1 = true.
Proof.
  revert k. induction h as [l hs IH] using hir_ind. intros k Ho. pose proof Ho as [_ Hos]%orderly_children. cbn.
  assert (Forall2 tamer (visit fold_hir hs k).1 hs) as Ht.
  { apply visit_related, Forall_true. intros; apply fold_hir_tamer. }
  assert (Forall (fun h => orderly h = true) (statements_in l (visit fold_hir hs k).1)) as Hv.
  { eapply visit_statements; [|exact Hos]. rewrite Forall_forall in *. auto. }
  destruct (visit fold_hir hs k) as [hs' k']. destruct (fold_here l hs') as [c|]; [by destruct c|].
  by eapply orderly_node.
Qed.

(** ** Control flow *)

Lemma branch_calmer r hs : calmer_all (branch r hs) hs.
Proof.
  intros h' (h & -> & [_ Hh]%list_elem_of_filter)%list_elem_of_fmap. exists h. split; [done|]. apply calmer_role.
Qed.

Lemma select_calmer l hs k : calmer (Hir (select l hs k).1.1 (select l hs k).1.2) (Hir l hs).
Proof.
  unfold select. destruct (l_opcode l) eqn:Hop; try done; destruct (head hs) as [c|]; try done.
  - destruct (boolean_of c); [|done]. apply calmer_block; [by left|apply branch_calmer].
  - by destruct (boolean_of c) as [[]|].
Qed.

Lemma simplify_hir_calmer h k : calmer (simplify_hir h k).1 h.
Proof.
  revert k. induction h as [l hs IH] using hir_ind. intros k. rewrite simplify_hir_node.
  pose proof (calmer_forall2 _ _ (visit_related simplify_hir calmer hs IH k)) as Hc.
  destruct (visit simplify_hir hs k) as [hs1 k1]. cbn [fst snd].
  pose proof (select_calmer l hs1 k1) as Hs. destruct (select l hs1 k1) as [[l2 hs2] k2]. cbn [fst snd] in Hs.
  eapply calmer_trans; [apply calmer_node, calmer_sublist, prune_sublist|].
  eapply calmer_trans; [exact Hs|]. by apply calmer_node.
Qed.

Lemma simplify_hir_closed h k : good h -> shuts (simplify_hir h k).1 h.
Proof.
  revert k. induction h as [l hs IH] using hir_ind. intros k Hgood. pose proof (visit_simplify_good l hs k Hgood) as Hg1.
  apply good_node in Hgood as (_ & _ & Hr & _ & Hg).
  assert (Forall2 shuts (visit simplify_hir hs k).1 hs) as Hs.
  { apply visit_related. rewrite Forall_forall in *. auto. }
  pose proof (shuts_all _ _ Hs) as Hs'. clear Hs. apply good_node in Hg1 as (_ & _ & Hr1 & _). rewrite simplify_hir_node.
  destruct (visit simplify_hir hs k) as [hs1 k1]. cbn [fst snd] in *. unfold shuts, select. cbn [closed].
  pose proof (roles_not_statements _ _ Hr1) as Hns.
  destruct (l_opcode l) eqn:Hop; try done; rewrite ?(prune_other _ Hns); cbn [fst snd closed]; rewrite ?Hop; try done.
  - destruct (head hs1) as [c|]; [destruct (boolean_of c)|]; cbn; by rewrite ?Hop.
  - destruct (head hs1) as [c|]; [destruct (boolean_of c) as [[]|]|]; cbn; by rewrite ?Hop.
Qed.

Lemma boolean_closed h b : boolean_of h = Some b -> closed h = true.
Proof.
  unfold boolean_of. destruct (constant_of h) as [c|] eqn:E; [|done]. intros _. by eapply constant_closed.
Qed.

Lemma condition_role l hs : good (Hir l hs) -> l_opcode l = VNT_IR_IF \/ l_opcode l = VNT_IR_WHILE ->
  exists c rest, hs = c :: rest /\ l_role (hir_label c) = VNT_IR_EDGE_CONDITION /\ good c.
Proof.
  intros (_ & _ & _ & Ho & Hg)%good_node Hop. destruct hs as [|c rest].
  - destruct Hop as [Hop|Hop]; rewrite Hop in Ho; [by destruct Ho as (n & m & E)|by destruct Ho as (n & E)].
  - exists c, rest. apply Forall_cons in Hg as [Hc _]. split; [done|]. split; [|done].
    destruct Hop as [Hop|Hop]; rewrite Hop in Ho; [destruct Ho as (n & m & E)|destruct Ho as (n & E)]; by injection E.
Qed.

Lemma simplify_hir_tamer h k : good h -> tamer (simplify_hir h k).1 h.
Proof.
  intros Hgood. split; [apply simplify_hir_role|apply simplify_hir_calmer|]. destruct h as [l hs].
  destruct (decide (l_opcode l = VNT_IR_IF \/ l_opcode l = VNT_IR_WHILE)) as [Hop|Hop].
  - destruct (condition_role l hs Hgood Hop) as (c & rest & -> & Hrole & Hc).
    pose proof (simplify_hir_closed c k Hc) as Hshut. pose proof (simplify_hir_role c k) as Hr'.
    rewrite simplify_hir_node, visit_cons. cbn [fst snd]. set (c' := (simplify_hir c k).1) in *.
    set (rest' := (visit simplify_hir rest _).1). set (k' := (visit simplify_hir rest _).2). intros Hm.
    enough (closed c' = true) as E%Hshut by (cbn; by destruct Hop as [-> | ->]).
    unfold select in Hm. cbn [head] in Hm.
    assert (may_be_block (Hir l (prune_children [] (c' :: rest') k').1) = true -> closed c' = true) as Hsame.
    { rewrite prune_after_condition by congruence. cbn. by destruct Hop as [-> | ->]. }
    destruct Hop as [Hop|Hop]; rewrite Hop in Hm; destruct (boolean_of c') as [b|] eqn:Eb; auto;
      by eapply boolean_closed.
  - rewrite simplify_hir_node, select_other by naive_solver. cbn. destruct (l_opcode l); naive_solver.
Qed.

Lemma in_branch_sublist r hs' hs : hs' `sublist_of` hs -> in_branch r hs' `sublist_of` in_branch r hs.
Proof.
  unfold in_branch. induction 1 as [|h hs' hs _ IH|h hs' hs _ IH]; [done| |]; rewrite !filter_cons; destruct (decide _);
    by try constructor.
Qed.

Lemma orderly_branch_sublist hs' hs : hs' `sublist_of` hs -> orderly_branch hs = true -> orderly_branch hs' = true.
Proof.
  induction 1 as [|h hs' hs Hs IH|h hs' hs _ IH]; [done| |]; cbn; intros [Hq Ho]%andb_true_iff; [|auto].
  rewrite IH, andb_true_r by done. apply orb_true_iff in Hq as [->|Hq]; [done|]. apply negb_true_iff in Hq.
  assert (existsb may_be_block hs' = false) as ->; [|by rewrite orb_true_r].
  apply existsb_false. intros x Hx%list_elem_of_In. rewrite existsb_false in Hq.
  apply Hq, list_elem_of_In. by eapply sublist_in.
Qed.

Lemma orderly_prune l hs k : orderly (Hir l hs) = true -> orderly (Hir l (prune_children [] hs k).1) = true.
Proof.
  intros [Hif Hos]%orderly_children. pose proof (prune_sublist hs [] k) as Hsub. apply orderly_children. split.
  - intros Hop%Hif. apply andb_true_iff in Hop as [H1 H2]. apply andb_true_iff.
    split; (eapply orderly_branch_sublist; [by apply in_branch_sublist|done]).
  - eapply sublist_forall; [by apply statements_sublist|done].
Qed.

Lemma orderly_role r h : orderly (hir_role r h) = orderly h.
Proof. by destruct h. Qed.

Lemma orderly_select l hs k : good (Hir l hs) -> orderly (Hir l hs) = true ->
  orderly (Hir (select l hs k).1.1 (select l hs k).1.2) = true.
Proof.
  intros Hg Ho. pose proof Ho as [_ Hos]%orderly_children. unfold select.
  destruct (l_opcode l) eqn:Hop; try done; destruct (head hs) as [c0|]; try done.
  - destruct (boolean_of c0) as [b|]; [|done]. cbn [fst snd]. apply orderly_children. split; [done|].
    destruct (condition_role l hs Hg ltac:(by left)) as (c & rest & -> & Hc & _).
    unfold statements_in in *. rewrite Hop in Hos. cbn [tail block_label payload_label l_opcode] in *.
    unfold branch. rewrite filter_cons, Hc, decide_False by (by destruct b).
    apply Forall_map. rewrite Forall_forall in *. intros h [_ Hh]%list_elem_of_filter.
    rewrite orderly_role. by apply Hos.
  - by destruct (boolean_of c0) as [[]|].
Qed.

Lemma simplify_hir_orderly h k : good h -> orderly h = true -> orderly (simplify_hir h k).1 = true.
Proof.
  revert k. induction h as [l hs IH] using hir_ind. intros k Hgood Ho.
  pose proof (visit_simplify_good l hs k Hgood) as Hg1. apply good_node in Hgood as (_ & _ & _ & _ & Hg).
  pose proof Ho as [_ Hos]%orderly_children. rewrite simplify_hir_node.
  assert (Forall2 tamer (visit simplify_hir hs k).1 hs) as Ht.
  { apply visit_related. eapply Forall_impl; [exact Hg|]. intros; by apply simplify_hir_tamer. }
  assert (Forall (fun h => orderly h = true) (statements_in l (visit simplify_hir hs k).1)) as Hv.
  { eapply visit_statements; [|exact Hos]. rewrite Forall_forall in *. auto. }
  pose proof (orderly_node l _ _ Ht Hv Ho) as Ho1. destruct (visit simplify_hir hs k) as [hs1 k1]. cbn [fst snd] in *.
  pose proof (orderly_select l hs1 k1 Hg1 Ho1) as Ho2. destruct (select l hs1 k1) as [[l2 hs2] k2]. by apply orderly_prune.
Qed.

(** ** Propagation *)

Lemma subst_hir_calmer h st : calmer (subst_hir h st).1 h.
Proof.
  revert st. induction h as [l hs IH] using hir_ind. intros st. cbn.
  pose proof (calmer_node l _ _ (calmer_forall2 _ _ (visit_related subst_hir calmer hs IH st))) as Hc.
  destruct (visit subst_hir hs st) as [hs' st']. destruct (l_opcode l) eqn:Hop; try done.
  - destruct (known_constant _ _) as [c|]; [|done]. split; cbn; rewrite Hop; by destruct c.
  - by destruct (is_reference l).
Qed.

Lemma propagate_hir_calmer h st : calmer (propagate_hir h st).1 h.
Proof.
  revert st. induction h as [l hs IH] using hir_ind. intros st.
  pose proof (calmer_node l _ _ (calmer_forall2 _ _ (visit_related subst_hir calmer hs (Forall_true _ _ subst_hir_calmer) st))) as Hs.
  pose proof (calmer_node l _ _ (calmer_forall2 _ _ (visit_related propagate_hir calmer hs IH st))) as Hp.
  cbn. destruct (l_opcode l) eqn:Hop; try done; try (by destruct (visit subst_hir hs st)); try (by destruct (visit propagate_hir hs st)).
  - destruct hs as [|c rest]; [done|]. pose proof (subst_hir_calmer c st) as Hc.
    destruct (subst_hir c st) as [c' st1]. change (visit _ rest st1.2) with (visit (propagate_branch_hir st1.1) rest st1.2).
    assert (Forall2 calmer (visit (propagate_branch_hir st1.1) rest st1.2).1 rest) as Hr.
    { apply visit_related. apply Forall_cons in IH as [_ IH]. eapply Forall_impl; [exact IH|]. intros b Hb k.
      unfold propagate_branch_hir. destruct (is_branch b); [|done]. specialize (Hb (hir_constants_copy st1.1, k)).
      by destruct (propagate_hir b _). }
    destruct (visit (propagate_branch_hir st1.1) rest st1.2) as [rest' k']. apply calmer_node, calmer_forall2. by constructor.
  - destruct hs as [|b rest]; [done|]. destruct (is_block b); [|done]. apply Forall_cons in IH as [IH _].
    specialize (IH ([], st.2)). destruct (propagate_hir b ([], st.2)) as [b' st']. rewrite after_calls_tree.
    apply calmer_node, calmer_forall2. constructor; [done|]. apply Forall2_same_length_lookup_2; [done|].
    intros i x y E1 E2. rewrite E1 in E2. by injection E2 as ->.
Qed.

Lemma propagate_branch_tamer env b k : tamer (propagate_branch_hir env b k).1 b.
Proof.
  split; [apply propagate_branch_role| |]; unfold propagate_branch_hir.
  - destruct (is_branch b); [|done]. pose proof (propagate_hir_calmer b (hir_constants_copy env, k)) as [Hq _].
    by destruct (propagate_hir b _).
  - destruct (is_branch b) eqn:E; [|done]. intros _. unfold is_branch, is_block in E. destruct b as [l hs]. cbn in *.
    destruct (l_role l); try done; apply bool_decide_eq_true in E; by rewrite E.
Qed.

(** The branches do not look at the condition. *)
Lemma orderly_if_condition c rest : l_role (hir_label c) = VNT_IR_EDGE_CONDITION -> orderly_if (c :: rest) = orderly_if rest.
Proof. intros E. unfold orderly_if, in_branch. by rewrite !filter_cons, E, !decide_False by done. Qed.

Lemma propagate_hir_orderly h : good h -> orderly h = true -> forall st, orderly (propagate_hir h st).1 = true.
Proof.
  induction h as [l hs IH] using hir_ind. intros Hgood Ho st. pose proof Hgood as (_ & _ & _ & _ & Hg)%good_node. pose proof Ho as [Hif Hos]%orderly_children.
  destruct (plain (l_opcode l)) eqn:Hp.
  { rewrite propagate_plain by done. rewrite after_calls_tree. apply orderly_children. unfold statements_in.
    by destruct (l_opcode l). }
  unfold statements_in in Hos. cbn [propagate_hir]. destruct (l_opcode l) eqn:Hop; try done.
  - assert (Forall (fun h => orderly h = true) (visit propagate_hir hs st).1) as Hv.
    { apply (visit_forall _ (fun h => orderly h = true)); [|done]. rewrite Forall_forall in *. auto. }
    destruct (visit propagate_hir hs st) as [hs' st']. rewrite after_calls_tree. apply orderly_children.
    unfold statements_in. by rewrite Hop.
  - destruct (condition_role l hs Hgood ltac:(by left)) as (c & rest & -> & Hc & _). cbn [tail] in Hos.
    apply Forall_cons in Hg as [_ Hg]. pose proof (subst_hir_role c st) as Hr.
    destruct (subst_hir c st) as [c' st1]. change (visit _ rest st1.2) with (visit (propagate_branch_hir st1.1) rest st1.2).
    assert (Forall2 tamer (visit (propagate_branch_hir st1.1) rest st1.2).1 rest) as Ht.
    { apply visit_related, Forall_true. intros; apply propagate_branch_tamer. }
    assert (Forall (fun h => orderly h = true) (visit (propagate_branch_hir st1.1) rest st1.2).1) as Hv.
    { apply (visit_forall _ (fun h => orderly h = true)); [|done]. apply Forall_cons in IH as [_ IH].
      rewrite Forall_forall in *. intros b Hb Hob k. unfold propagate_branch_hir. destruct (is_branch b); [|done].
      specialize (IH b Hb (Hg b Hb) Hob (hir_constants_copy st1.1, k)). by destruct (propagate_hir b _). }
    destruct (visit (propagate_branch_hir st1.1) rest st1.2) as [rest' k']. cbn [fst] in *.
    apply orderly_children. unfold statements_in. rewrite Hop. split; [|done]. intros _. specialize (Hif eq_refl).
    rewrite orderly_if_condition in * by congruence. by eapply orderly_if_tamer.
  - destruct hs as [|b rest]; [done|]. destruct (is_block b); [|done]. apply Forall_cons in IH as [IH _].
    apply Forall_cons in Hos as [Hob Hos]. apply Forall_cons in Hg as [Hgb _]. specialize (IH Hgb Hob ([], st.2)).
    destruct (propagate_hir b ([], st.2)) as [b' st']. rewrite after_calls_tree. apply orderly_children.
    unfold statements_in. rewrite Hop. split; [done|]. by constructor.
  - destruct (visit subst_hir hs st). rewrite after_calls_tree. apply orderly_children. unfold statements_in. by rewrite Hop.
  - destruct (visit subst_hir hs st). rewrite after_calls_tree. apply orderly_children. unfold statements_in. by rewrite Hop.
Qed.

Lemma propagate_block_orderly h k : is_root h -> orderly h = true -> orderly (propagate_block h k).1 = true.
Proof.
  destruct h as [l hs]. intros (Hgood & Hop & _) Ho. cbn in Hop. rewrite propagate_block_visit.
  apply good_node in Hgood as (_ & _ & _ & _ & Hg). apply orderly_children in Ho as [_ Ho]. unfold statements_in in Ho.
  rewrite Hop in Ho. apply orderly_children. unfold statements_in. rewrite Hop. split; [done|].
  apply (visit_forall _ (fun h => orderly h = true)); [|done]. rewrite Forall_forall in *.
  intros h Hh Hoh st. by apply propagate_hir_orderly; [apply Hg|].
Qed.

(** * The whole optimizer *)

(** Programs whose meaning is kept: the root keeps its declarations, and the
    branches are orderly. *)
Record optimizable (h : hir) : Prop := {
  optimizable_root : is_root h;
  optimizable_stays : forallb stays (hir_children h) = true;
  optimizable_orderly : orderly h = true
}.

Lemma visit_stays {A} (f : hir -> A -> hir * A) hs a : (forall h a, stays h = true -> stays (f h a).1 = true) ->
  forallb stays hs = true -> forallb stays (visit f hs a).1 = true.
Proof.
  intros Hf. revert a. induction hs as [|h hs IH]; intros a; [done|]. rewrite visit_cons. cbn.
  rewrite !andb_true_iff. intros [H1 H2]. auto.
Qed.

Lemma fold_hir_stays h k : stays h = true -> stays (fold_hir h k).1 = true.
Proof.
  destruct h as [l hs]. unfold stays. cbn. destruct (visit fold_hir hs k) as [hs' k'].
  destruct (fold_here l hs') as [c|]; [by destruct c|done].
Qed.

Lemma fold_optimizable h k : optimizable h -> optimizable (fold_hir h k).1.
Proof.
  intros [Hr Hs Ho]. split; [by apply fold_hir_root| |by apply fold_hir_orderly].
  destruct h as [l hs], Hr as (_ & Hop & _). cbn in Hop. rewrite fold_hir_children by (by rewrite Hop).
  cbn [hir_children] in *. apply visit_stays; [apply fold_hir_stays|done].
Qed.

Lemma propagate_optimizable h k : optimizable h -> optimizable (propagate_block h k).1.
Proof.
  intros [Hr Hs Ho]. split; [by apply propagate_block_root| |by apply propagate_block_orderly].
  destruct h as [l hs]. rewrite propagate_block_visit. cbn [hir_children] in *. apply visit_stays; [|done].
  intros h st. unfold stays. by rewrite propagate_hir_label.
Qed.

Lemma simplify_optimizable h k : optimizable h -> optimizable (simplify_hir h k).1.
Proof.
  intros [Hr Hs Ho]. split; [by apply simplify_hir_root| |by apply simplify_hir_orderly; [apply Hr|]].
  destruct h as [l hs], Hr as (_ & Hop & _). cbn in Hop. rewrite simplify_hir_node, select_other by (by rewrite Hop).
  assert (forallb stays (visit simplify_hir hs k).1 = true) as Hv.
  { apply visit_stays; [|done]. intros h a. by rewrite simplify_hir_stays. }
  by rewrite prune_stays.
Qed.

Section optimize.
Context {M : Type} `{HM : MachineLaws M}.

Lemma same_function_trans f1 f2 f3 : same_function (M := M) f1 f2 -> same_function (M := M) f2 f3 -> same_function (M := M) f1 f3.
Proof.
  intros [N1 B1] [N2 B2]. split; [congruence|]. intros call' call loops Hc.
  etrans; [by apply (B1 call')|by apply B2].
Qed.

Lemma same_program_trans h1 h2 h3 : same_program (M := M) h1 h2 -> same_program (M := M) h2 h3 -> same_program (M := M) h1 h3.
Proof.
  intros [F1 E1] [F2 E2]. split.
  - intros name. pose proof (F2 name) as H23. revert H23. destruct (F1 name) as [f1 f2 H12|]; intros H23;
      inversion H23; subst; constructor. by eapply same_function_trans.
  - intros call' call loops Hc. etrans; [by apply (E1 call')|by apply E2].
Qed.

Lemma same_program_refl h : same_program (M := M) h h.
Proof.
  split; [|intros; by apply exec_calls]. intros name. destruct (find_function h name) as [f|]; constructor.
  split; [done|]. intros call' call loops Hc. apply body_same. induction (hir_children f); constructor; [by apply same_node_refl|done].
Qed.

Lemma round_hir_sound h k : optimizable h -> optimizable (round_hir h k).1 /\ same_program (M := M) (round_hir h k).1 h.
Proof.
  intros H0. unfold round_hir.
  pose proof (fold_optimizable h k H0) as H1. pose proof (fold_hir_program (M := M) h k (optimizable_root _ H0)) as P1.
  destruct (fold_hir h k) as [h1 k1]. cbn [fst] in *.
  pose proof (propagate_optimizable h1 k1 H1) as H2.
  pose proof (propagate_block_program (M := M) h1 k1 (optimizable_root _ H1) (optimizable_orderly _ H1)) as P2.
  destruct (propagate_block h1 k1) as [h2 k2]. cbn [fst] in *.
  pose proof (fold_optimizable h2 k2 H2) as H3. pose proof (fold_hir_program (M := M) h2 k2 (optimizable_root _ H2)) as P3.
  destruct (fold_hir h2 k2) as [h3 k3]. cbn [fst] in *.
  split; [by apply simplify_optimizable|].
  eapply same_program_trans; [apply simplify_hir_program; apply H3|].
  eapply same_program_trans; [exact P3|]. by eapply same_program_trans.
Qed.

Lemma rounds_hir_sound n : forall h k, optimizable h -> same_program (M := M) (rounds_hir n h k).1 h.
Proof.
  induction n as [|n IH]; intros h k Hh; [apply same_program_refl|]. cbn.
  destruct (round_hir_sound h k Hh) as [Hh' P]. destruct (round_hir h k) as [h' k']. cbn [fst] in *.
  destruct (k' =? k); [done|]. eapply same_program_trans; [|exact P]. by apply IH.
Qed.

Lemma optimize_hir_run n h : optimizable h -> same (run_program (M := M) n (optimize_hir h).1) (run_program n h).
Proof. intros Hh. by apply same_program_run, rounds_hir_sound. Qed.
End optimize.
