(* ===== verification/HirProps.v ===== *)
(** HirProps: folding agrees with the runtime, and the optimizer keeps the meaning
    of programs. *)

From S2P Require Import Prelude Clib Ast Parser Statements StatementsProps Ir IrTrees IrLower IrAccess IrScopesFacts.
From S2P Require Import IrLayout IrResolve IrProps IrOptimize IrPasses IrPassesFacts IrOptimizeProps.
From S2P Require Import Runtime RuntimeFacts HirSemantics HirFolding HirKnown HirPropagate HirOptimize.

(** C17: what the optimizer folds is what the functions of the runtime return, and operands
    of one type are folded unless the runtime ends the process with an error or returns a
    double that is not finite; the folded value of && and || is the one that testing the
    left operand, and then the right one if it decides, gives (run_logical). *)
Theorem folding_agrees_with_runtime format_double array_items bytes_data fuel :
  (forall op a b, logical op = false -> same_kind a b = true ->
    agrees (fold_binary op a b)
      (binary_helper format_double array_items bytes_data (S fuel) op (boxed a) (boxed b))) /\
  (forall op a b c, fold_binary op a b = Some c -> logical op = false ->
    binary_helper format_double array_items bytes_data (S fuel) op (boxed a) (boxed b) = Returned (boxed c)) /\
  (forall op a c, fold_unary op a = Some c -> unary_helper op (boxed a) = Returned (boxed c)) /\
  (forall (M : Type) (m : Machine M) op a b c (s : M), fold_binary op a b = Some c -> logical op = true ->
    run_logical op (mret (boxed a)) (mret (boxed b)) s = Goes (boxed c) s) /\
  (forall x y, fold_binary BINARY_AND (CONST_BOOLEAN x) (CONST_BOOLEAN y) = Some (CONST_BOOLEAN (x && y)) /\
               fold_binary BINARY_OR (CONST_BOOLEAN x) (CONST_BOOLEAN y) = Some (CONST_BOOLEAN (x || y))).
Proof.
  split_and!.
  - intros op a b. apply fold_binary_agrees.
  - intros op a b c E Hop.
    pose proof (fold_binary_agrees format_double array_items bytes_data fuel op a b Hop (fold_binary_kind _ _ _ _ E)) as H.
    by rewrite E in H.
  - apply fold_unary_returns.
  - intros M m op a b c s E Hop. destruct op, a as [|x|], b as [|y|]; try done; cbn in E; injection E as <-; by destruct x, y.
  - done.
Qed.

(** C15: the optimized program does what the program did, from every state of every machine
    and for every bound on calls and iterations: it prints the same, it ends with the same
    error, it stops at the same statement, and it does not end when the program does not.
    The program must keep its declarations (none of its own statements is a return, a break
    or a continue) and be orderly: in no branch of an if, a statement that may change a
    variable comes before a block of the same branch, or before an if or a while of the same
    branch whose condition is made of literals only, so that it may become a block. *)
Theorem vnt_ir_optimize_preserves ir h : stores ir h ->
  forallb stays (hir_children h) = true -> orderly h = true ->
  exists out h', vnt_ir_optimize ir = Done (Some out) /\ stores out h' /\
    forall (M : Type) (m : Machine M) (laws : MachineLaws M) n (s : M), run_program n h' s = run_program n h s.
Proof.
  intros Hst Hs Ho. pose proof Hst as (_ & _ & _ & _ & Hroot & _).
  destruct (optimize_stores ir h Hst) as [Hopt Hout]. eexists _, _. split; [exact Hopt|]. split; [exact Hout|].
  intros M m laws n s. by apply optimize_hir_run.
Qed.

(** * A machine *)

(** The state is the values of variables and what has been printed. *)
Record memory := {
  variables : list (bytes * VntPointer);
  printed : list VntPointer
}.

Definition memory_get (x : bytes) (s : memory) : VntPointer :=
  match list_find (fun p => p.1 = x) (variables s) with
  | Some (_, (_, v)) => v
  | None => None
  end.

Definition memory_set (x : bytes) (v : VntPointer) (s : memory) : memory :=
  {| variables := (x, v) :: variables s; printed := printed s |}.

Definition memory_print (v : VntPointer) (s : memory) : memory :=
  {| variables := variables s; printed := printed s ++ [v] |}.

#[export] Instance memory_machine : Machine memory := {
  variable := memory_get;
  set_variable := memory_set;
  array_items _ _ := [];
  bytes_data _ _ := [];
  comparison_depth _ := 0;
  format_double _ := [];
  expression_helper op text _ := match op with VNT_IR_STRING => mret (vnt_string text) | _ => crash end;
  reference _ := crash;
  dereference _ := crash;
  store_helper _ _ _ _ := crash;
  print_helper v := writes (memory_print v);
  inline_asm _ := crash;
  is_builtin _ := false;
  builtin_call _ _ := crash;
  enter names vs s := fold_left (fun s p => memory_set p.1 p.2 s) (zip names vs) s;
  leave _ s := s
}.

#[export] Instance memory_laws : MachineLaws memory.
Proof.
  split.
  - intros x y v s. cbn. unfold memory_get, memory_set. cbn.
    destruct (decide (x = y)) as [->|Hxy]; [by rewrite decide_True|]. rewrite decide_False by done.
    by destruct (list_find _ (variables s)) as [[i [z w]]|].
  - intros op text vs s v s' x. cbn. by destruct op; try done; intros [= _ <-].
  - done.
  - done.
  - by intros p s u s' x [= _ <-].
Defined.

Definition memory_start : memory := {| variables := []; printed := [] |}.

Definition output {A} (r : run memory A) : option (list VntPointer) :=
  match r with Goes _ s | Halts _ s => Some (printed s) | _ => None end.

(** * The sample program *)

Definition optimize_sample_names : list renaming :=
  match resolve_program (subtrees (tree_at 0 (hir_of optimize_sample_ast.1))) with
  | Some rn => rn
  | None => []
  end.

Definition optimize_sample_tree : hir := renamed_tree optimize_sample_names optimize_sample_ast.1.

Lemma optimize_sample_tree_stores : stores optimize_sample_ir optimize_sample_tree.
Proof.
  destruct (source_wf _ _ _ _ optimize_sample_parses) as (ss & E & Hw & _).
  pose proof optimize_sample_lowers as Hlow. unfold optimize_sample_tree, optimize_sample_names. rewrite E in *.
  destruct (lowered_stores _ _ (program_lowerable ss Hw) Hlow) as (rn & Hrn & Hst & _). by rewrite Hrn.
Qed.

Lemma vnt_ir_optimize_preserves_witness : exists out h',
  vnt_ir_optimize optimize_sample_ir = Done (Some out) /\ stores out h' /\
  output (run_program 5 h' memory_start) = Some [vnt_int 10; vnt_int (-5)].
Proof.
  destruct (vnt_ir_optimize_preserves optimize_sample_ir optimize_sample_tree optimize_sample_tree_stores
    ltac:(vm_compute; reflexivity) ltac:(vm_compute; reflexivity)) as (out & h' & Hopt & Hst & Hrun).
  exists out, h'. split; [exact Hopt|]. split; [exact Hst|].
  rewrite (Hrun memory memory_machine memory_laws 5 memory_start). vm_compute. reflexivity.
Defined.

Lemma folding_agrees_with_runtime_witness :
  fold_binary BINARY_MULTIPLY (CONST_INTEGER (2 ^ 62)) (CONST_INTEGER 2) = None /\
  not_constant (binary_helper (fun _ => []) (fun _ => []) (fun _ => []) 1 BINARY_MULTIPLY
    (vnt_int (2 ^ 62)) (vnt_int 2)).
Proof.
  destruct (folding_agrees_with_runtime (fun _ => []) (fun _ => []) (fun _ => []) 0) as [H _].
  split; [vm_compute; reflexivity|].
  exact (H BINARY_MULTIPLY (CONST_INTEGER (2 ^ 62)) (CONST_INTEGER 2) eq_refl eq_refl).
Defined.
