(* ===== verification/TypeNames.v ===== *)
(** TypeNames: the types of src/compiler/typecheck.c, its messages, and the names and
    types of the functions that the compiler knows. *)

From S2P Require Import Prelude Clib Ast.

(** * Types *)

Inductive TypeKind : Set :=
  | TY_UNDECLARED | TY_UNKNOWN | TY_INT | TY_I64 | TY_FLOAT | TY_BOOL | TY_STRING
  | TY_ARRAY | TY_OBJECT | TY_REFERENCE | TY_POINTER | TY_VOID.

#[export] Instance TypeKind_eq_dec : EqDecision TypeKind.
Proof. solve_decision. Defined.

Definition type_eqb (a b : TypeKind) : bool := bool_decide (a = b).

Definition numeric (t : TypeKind) : bool :=
  match t with TY_INT | TY_I64 | TY_FLOAT => true | _ => false end.

(** One value for each name, looked up with strcmp from the first on. *)
Definition lookup_name {A} (table : list (string * A)) (name : bytes) : option A :=
  snd <$> find (fun entry => bytes_eqb name (str entry.1)) table.

Definition types : list (string * TypeKind) := [
  ("int", TY_INT); ("i64", TY_I64); ("float", TY_FLOAT); ("bool", TY_BOOL); ("string", TY_STRING);
  ("array", TY_ARRAY); ("object", TY_OBJECT); ("reference", TY_REFERENCE); ("ptr", TY_POINTER);
  ("void", TY_VOID)]%string.

Definition type_from_name (name : bytes) : TypeKind := default TY_UNDECLARED (lookup_name types name).

Definition type_name (type : TypeKind) : bytes :=
  str match type with
      | TY_UNDECLARED => "undeclared"
      | TY_UNKNOWN => "unknown"
      | TY_INT => "int"
      | TY_I64 => "i64"
      | TY_FLOAT => "float"
      | TY_BOOL => "bool"
      | TY_STRING => "string"
      | TY_ARRAY => "array"
      | TY_OBJECT => "object"
      | TY_REFERENCE => "reference"
      | TY_POINTER => "ptr"
      | TY_VOID => "void"
      end.

(** Numbers mix, and what is unknown is checked at run time. *)
Definition type_compatible (expected actual : TypeKind) : bool :=
  type_eqb expected TY_UNKNOWN || type_eqb actual TY_UNKNOWN ||
  type_eqb expected actual || (numeric expected && numeric actual).

(** * Functions of the compiler *)

(** How many arguments they take, at least and at most. *)
Definition repeated {A} (names : list string) (a : A) : list (string * A) := map (fun x => (x, a)) names.

Definition builtins : list (string * (nat * nat)) :=
  repeated ["symbol_address"] (1, 1) ++ repeated ["cpu_read_cr2"] (0, 0) ++
  repeated ["cpu_read_msr"] (1, 1) ++ repeated ["cpu_write_msr"] (2, 2) ++
  repeated ["cpu_invlpg"] (1, 1) ++ repeated ["cpu_atomic_exchange_u64"] (2, 2) ++
  repeated ["mem_alloc"; "mem_free"; "mem_is_null"] (1, 1) ++
  repeated ["mem_read_u8"; "mem_read_u32"; "mem_read_u64"] (2, 2) ++
  repeated ["mem_realloc"; "mem_ptr_add"] (2, 2) ++
  repeated ["mem_write_u8"; "mem_write_u32"; "mem_write_u64"; "mem_copy"; "mem_set"] (3, 3) ++
  repeated ["range"] (1, 3) ++
  repeated ["sqrt"; "sin"; "cos"; "tan"; "abs"; "floor"; "ceil"; "len"; "input"] (1, 1) ++
  repeated ["min"; "max"; "mod"] (2, 2) ++ repeated ["object"] (0, 0) ++
  repeated ["ffi_int"] (2, 8) ++ repeated ["cwd"; "time_ms"] (0, 0) ++
  repeated ["fs_exists"; "fs_read"; "fs_delete"; "fs_is_file"; "fs_is_dir"; "fs_list"; "dir_create";
            "env_get"; "env_has"; "sleep_ms"; "process_poll"; "process_pid"; "process_terminate";
            "process_stdout"; "process_stderr"; "process_exit_code"; "process_exit"; "process_launch";
            "io_write"; "io_write_error"] (1, 1) ++
  repeated ["process_wait"; "process_start"] (2, 2) ++ repeated ["net_stream_start"] (4, 4) ++
  repeated ["net_stream_read"] (2, 2) ++
  repeated ["net_stream_done"; "net_stream_status"; "net_stream_cancel"; "net_stream_release"] (1, 1) ++
  repeated ["net_async_start"] (4, 4) ++
  repeated ["net_async_poll"; "net_async_cancel"; "net_async_result"; "net_async_status";
            "net_async_release"] (1, 1) ++
  repeated ["net_async_wait"] (2, 2) ++ repeated ["net_request"; "net_request_bytes"] (4, 4) ++
  repeated ["net_status"; "net_download"] (3, 3) ++ repeated ["net_url_encode"; "utf8_len"] (1, 1) ++
  repeated ["time_local_parts"; "time_utc_parts"] (1, 1) ++ repeated ["crypto_sha256"] (1, 1) ++
  repeated ["crypto_constant_time_equal"] (2, 2) ++
  repeated ["bigint_add"; "bigint_sub"; "bigint_mul"; "bigint_compare"] (2, 2) ++
  repeated ["utf8_slice"] (3, 3) ++ repeated ["fs_write_atomic"] (2, 2) ++
  repeated ["fs_write"; "fs_append"; "fs_rename"; "env_set"] (2, 2) ++ repeated ["gui_css"] (1, 1) ++
  repeated ["gui_button"; "gui_text_at"; "gui_title"; "gui_input_set"; "gui_textarea_set";
            "json_value_at"] (3, 3) ++
  repeated ["gui_panel"; "gui_input"; "gui_checkbox"; "gui_progress"] (4, 4) ++
  repeated ["gui_button_sized"; "gui_textarea"; "gui_panel_color"; "gui_text_style"] (5, 5) ++
  repeated ["gui_separator"] (3, 3) ++ repeated ["gui_size"] (2, 2) ++
  repeated ["gui_open"; "gui_text"; "gui_fill"; "gui_rect"] (1, 1) ++
  repeated ["gui_poll"; "gui_key"; "gui_close"; "gui_present"] (0, 0).

(** [None] is -1, for a name that is not in the list. *)
Definition builtin_arity (name : bytes) (argc : nat) : option bool :=
  (fun range => (range.1 <=? argc) && (argc <=? range.2)) <$> lookup_name builtins name.

Definition unsafe_only : list string :=
  ["mem_alloc"; "mem_free"; "mem_is_null"; "mem_realloc"; "mem_ptr_add"; "mem_read_u8"; "mem_read_u32";
   "mem_read_u64"; "mem_write_u8"; "mem_write_u32"; "mem_write_u64"; "mem_copy"; "mem_set"; "cpu_read_cr2";
   "cpu_invlpg"; "cpu_atomic_exchange_u64"; "symbol_address"]%string.

Definition is_unsafe_only (name : bytes) : bool := existsb (fun x => bytes_eqb name (str x)) unsafe_only.

Definition builtin_results : list (string * TypeKind) :=
  repeated ["len"; "utf8_len"; "mod"; "ffi_int"] TY_INT ++
  repeated ["sqrt"; "sin"; "cos"; "tan"; "abs"; "floor"; "ceil"] TY_FLOAT ++
  repeated ["mem_alloc"; "mem_realloc"; "mem_ptr_add"] TY_POINTER ++
  repeated ["mem_read_u8"; "mem_read_u32"] TY_INT ++ repeated ["mem_read_u64"; "cpu_read_cr2"] TY_I64 ++
  repeated ["cpu_invlpg"] TY_BOOL ++ repeated ["cpu_atomic_exchange_u64"] TY_I64 ++
  repeated ["cpu_write_msr"] TY_INT ++ repeated ["symbol_address"] TY_I64 ++
  repeated ["mem_free"; "mem_is_null"; "mem_write_u8"; "mem_write_u32"; "mem_write_u64"; "mem_copy";
            "mem_set"] TY_BOOL ++
  repeated ["crypto_sha256"] TY_STRING ++ repeated ["crypto_constant_time_equal"] TY_BOOL ++
  repeated ["bigint_add"; "bigint_sub"; "bigint_mul"; "utf8_slice"] TY_STRING ++
  repeated ["bigint_compare"] TY_INT ++ repeated ["fs_write_atomic"] TY_BOOL ++
  repeated ["time_local_parts"; "time_utc_parts"] TY_ARRAY ++ repeated ["process_start"] TY_OBJECT ++
  repeated ["process_launch"] TY_BOOL ++ repeated ["process_stdout"; "process_stderr"] TY_STRING ++
  repeated ["input"; "fs_read"; "cwd"] TY_STRING ++
  repeated ["fs_exists"; "fs_write"; "fs_append"; "fs_delete"; "fs_rename"; "fs_is_file"; "fs_is_dir";
            "io_write"; "io_write_error"; "dir_create"; "env_has"; "env_set"] TY_BOOL ++
  repeated ["fs_list"] TY_ARRAY ++ repeated ["time_ms"] TY_FLOAT ++
  repeated ["process_pid"; "process_exit_code"] TY_INT ++
  repeated ["process_poll"; "process_wait"; "process_terminate"] TY_BOOL ++
  repeated ["object"] TY_OBJECT ++
  repeated ["gui_open"; "gui_poll"; "gui_css"; "gui_button"; "gui_button_sized"; "gui_text_at"; "gui_title";
            "gui_panel"; "gui_panel_color"; "gui_text_style"; "gui_input_set"; "gui_checkbox"; "gui_progress";
            "gui_separator"; "gui_present"] TY_BOOL ++
  repeated ["gui_key"] TY_INT ++ repeated ["gui_input"; "gui_textarea"] TY_STRING ++
  repeated ["gui_textarea_set"] TY_BOOL ++ repeated ["json_value_at"] TY_STRING ++
  repeated ["gui_size"; "gui_text"; "gui_fill"; "gui_rect"; "gui_close"] TY_BOOL.

Definition builtin_result (name : bytes) : option TypeKind := lookup_name builtin_results name.

(** * Errors *)

(** One constructor for each call of error, with what is printed in it. *)
Inductive TypeError : Type :=
  | TypeChanged
  | VoidArgument
  | BuiltinArguments (name : bytes) (argc : nat)
  | ConstructorArguments (name : bytes)
  | UndeclaredFunction (name : bytes)
  | FunctionArguments (name : bytes) (arity argc : nat)
  | InvalidParameterType
  | ArgumentType (i : nat) (parameter name : bytes) (expected actual : TypeKind)
  | VoidElement
  | UndeclaredVariable (name : bytes)
  | IndexType (index : TypeKind) (expression : bytes)
  | NotIndexable
  | VoidMember
  | UnsafeCall
  | RawMemory
  | StructArguments
  | VoidUnary
  | NotBoolean
  | NotNumber
  | NotReference
  | VoidBinary
  | LogicalOperands
  | EqualityOperands
  | OrderedOperands
  | ConcatenationOperands
  | ArithmeticOperands
  | DuplicateFunction
  | DuplicateField
  | DuplicateStruct
  | VoidInitializer
  | AssignmentType (target value : TypeKind)
  | UnknownType (name : bytes)
  | Redeclared
  | InitializerType (name : bytes) (declared value : TypeKind)
  | VoidAssigned
  | VoidPrinted
  | VoidCondition
  | IfCondition
  | WhileCondition
  | ReturnOutside
  | ReturnInVoid
  | ReturnMissing
  | VoidReturned
  | ReturnType (expected actual : TypeKind)
  | AsmOutside
  | UnknownReturnType
  | DuplicateParameter
  | InvalidParameter
  | NotEveryPath (name : bytes) (expected : TypeKind)
  | BreakOutside
  | ContinueOutside.

(** snprintf into a buffer of [size] bytes. *)
Definition printed_in (size : nat) (parts : list bytes) : bytes := take (pred size) (concat parts).

Definition print_nat (n : nat) : bytes := print_Z (Z.of_nat n).

Definition plural (n : nat) : bytes := if n =? 1 then [] else str "s".

(** What is printed after "Type error: ". *)
Definition message (e : TypeError) : bytes :=
  match e with
  | TypeChanged => str "variable type changed incompatibly."
  | VoidArgument => str "void function call cannot be used as an argument."
  | BuiltinArguments name argc =>
      printed_in 256 [str "builtin '"; name; str "' does not accept "; print_nat argc; str " argument";
                      plural argc; str "."]
  | ConstructorArguments name =>
      printed_in 256 [str "struct constructor '"; name; str "' currently takes no arguments."]
  | UndeclaredFunction name => printed_in 256 [str "call to undeclared function '"; name; str "'."]
  | FunctionArguments name arity argc =>
      printed_in 256 [str "function '"; name; str "' expects "; print_nat arity; str " argument";
                      plural arity; str " but received "; print_nat argc; str "."]
  | InvalidParameterType => str "function parameter uses an invalid type."
  | ArgumentType i parameter name expected actual =>
      printed_in 320 [str "argument "; print_nat (S i); str " ('"; parameter; str "') to function '"; name;
                      str "' expects "; type_name expected; str " but received "; type_name actual; str "."]
  | VoidElement => str "void function call cannot be stored in an array."
  | UndeclaredVariable name => printed_in 256 [str "use of undeclared variable '"; name; str "'."]
  | IndexType index expression =>
      printed_in 256 [str "array/string index must be an integer (received "; type_name index;
                      str " from "; expression; str ")."]
  | NotIndexable => str "indexing requires an array, string, or object."
  | VoidMember => str "void function call cannot be used for member access."
  | UnsafeCall => str "unsafe function calls must be inside an unsafe block."
  | RawMemory => str "raw memory builtins may only be called inside an unsafe block."
  | StructArguments => str "struct constructors currently take no arguments."
  | VoidUnary => str "void function call cannot be used in a unary expression."
  | NotBoolean => str "'!' requires a boolean."
  | NotNumber => str "unary '-' requires a number."
  | NotReference => str "dereference requires a reference."
  | VoidBinary => str "void function call cannot be used in a binary expression."
  | LogicalOperands => str "logical operators require booleans."
  | EqualityOperands => str "equality operands must have compatible types."
  | OrderedOperands => str "ordered comparisons require numeric operands."
  | ConcatenationOperands => str "string concatenation requires string, number, or boolean values."
  | ArithmeticOperands => str "arithmetic requires compatible numeric values."
  | DuplicateFunction => str "duplicate function definition."
  | DuplicateField => str "duplicate struct field name."
  | DuplicateStruct => str "duplicate struct definition."
  | VoidInitializer => str "void function call cannot initialize a variable."
  | AssignmentType target value =>
      printed_in 192 [str "assignment target has type "; type_name target;
                      str " but assigned value has type "; type_name value; str "."]
  | UnknownType name => printed_in 256 [str "unknown type '"; name; str "'."]
  | Redeclared => str "'let' cannot redeclare a variable in the same scope."
  | InitializerType name declared value =>
      printed_in 256 [str "initializer for '"; name; str "' expects "; type_name declared;
                      str " but received "; type_name value; str "."]
  | VoidAssigned => str "void function call cannot be assigned as a value."
  | VoidPrinted => str "void function call cannot be printed as a value."
  | VoidCondition => str "void function call cannot be used as a control-flow condition."
  | IfCondition => str "if condition must be boolean."
  | WhileCondition => str "while condition must be boolean."
  | ReturnOutside => str "return used outside a function."
  | ReturnInVoid => str "void function cannot return a value."
  | ReturnMissing => str "non-void function must return a value."
  | VoidReturned => str "void function call cannot be returned as a value."
  | ReturnType expected actual =>
      printed_in 192 [str "function return type mismatch: expected "; type_name expected;
                      str " but returned "; type_name actual; str "."]
  | AsmOutside => str "inline assembly may only be used inside an unsafe block."
  | UnknownReturnType => str "function declares an unknown return type."
  | DuplicateParameter => str "duplicate function parameter name."
  | InvalidParameter => str "function declares an invalid parameter type."
  | NotEveryPath name expected =>
      printed_in 320 [str "typed function '"; name; str "' returning "; type_name expected;
                      str " does not return a value on every path."]
  | BreakOutside => str "break used outside a loop."
  | ContinueOutside => str "continue used outside a loop."
  end.

#[global] Arguments builtin_arity : simpl never.
#[global] Arguments builtin_result : simpl never.
#[global] Arguments is_unsafe_only : simpl never.
#[global] Arguments type_from_name : simpl never.
