(* ===== verification/TypeCheck.v ===== *)
(** TypeCheck: src/compiler/typecheck.c. The state is the struct TypeChecker; the
    arrays of symbols, functions and structs are lists in the order of the array.
    The checker writes into the tree: it says whether an assignment is the first
    one of its variable, and gives calls of functions of the same module their
    full names. So what visits a node returns the node as it is afterwards. *)

From S2P Require Import Prelude Clib Ast TypeNames.

(** * State *)

Record Symbol := {
  symbol_name : bytes;
  symbol_type : TypeKind;
  explicit_type : bool;
  dynamic : bool;
  symbol_depth : nat
}.

(** [node] is the declaration; what is read of it is here. *)
Record FunctionDef := {
  function_name : bytes;
  arity : nat;
  declared_parameters : list bytes;
  declared_types : list (option bytes);
  declared_return : option bytes;
  declared_unsafe : bool
}.

Record StructDef := {
  struct_name : bytes;
  struct_fields : nat
}.

(** [error] is the message printed first, which is the only one. *)
Record TypeChecker := {
  symbols : list Symbol;
  functions : list FunctionDef;
  structs : list StructDef;
  error : option TypeError;
  expected_return : TypeKind;
  in_function : bool;
  scope_depth : nat;
  unsafe_depth : nat;
  loop_depth : nat;
  function_namespace : option bytes
}.

Definition TC (A : Type) : Type := St TypeChecker A.

Definition with_symbols (l : list Symbol) (tc : TypeChecker) : TypeChecker :=
  {| symbols := l; functions := functions tc; structs := structs tc; error := error tc;
     expected_return := expected_return tc; in_function := in_function tc; scope_depth := scope_depth tc;
     unsafe_depth := unsafe_depth tc; loop_depth := loop_depth tc;
     function_namespace := function_namespace tc |}.

Definition with_declarations (fs : list FunctionDef) (ss : list StructDef) (tc : TypeChecker) : TypeChecker :=
  {| symbols := symbols tc; functions := fs; structs := ss; error := error tc;
     expected_return := expected_return tc; in_function := in_function tc; scope_depth := scope_depth tc;
     unsafe_depth := unsafe_depth tc; loop_depth := loop_depth tc;
     function_namespace := function_namespace tc |}.

Definition with_error (e : TypeError) (tc : TypeChecker) : TypeChecker :=
  {| symbols := symbols tc; functions := functions tc; structs := structs tc;
     error := match error tc with Some first => Some first | None => Some e end;
     expected_return := expected_return tc; in_function := in_function tc; scope_depth := scope_depth tc;
     unsafe_depth := unsafe_depth tc; loop_depth := loop_depth tc;
     function_namespace := function_namespace tc |}.

(** The depths of scopes, unsafe blocks and loops. *)
Definition with_depths (scope unsafe loop : nat) (tc : TypeChecker) : TypeChecker :=
  {| symbols := symbols tc; functions := functions tc; structs := structs tc; error := error tc;
     expected_return := expected_return tc; in_function := in_function tc; scope_depth := scope;
     unsafe_depth := unsafe; loop_depth := loop; function_namespace := function_namespace tc |}.

Definition with_function (return_type : TypeKind) (inside : bool) (namespace : option bytes)
    (tc : TypeChecker) : TypeChecker :=
  {| symbols := symbols tc; functions := functions tc; structs := structs tc; error := error tc;
     expected_return := return_type; in_function := inside; scope_depth := scope_depth tc;
     unsafe_depth := unsafe_depth tc; loop_depth := loop_depth tc; function_namespace := namespace |}.

Definition fail (e : TypeError) : TC unit := modify (with_error e).

(** [if (condition) error(tc, message);] *)
Definition fail_if (condition : bool) (e : TypeError) : TC unit :=
  if condition then fail e else mret tt.

(** * Symbols *)

(** The last symbol with the name. *)
Fixpoint last_index (name : bytes) (l : list Symbol) (i : nat) : option nat :=
  match l with
  | [] => None
  | symbol :: l =>
      match last_index name l (S i) with
      | Some j => Some j
      | None => if bytes_eqb (symbol_name symbol) name then Some i else None
      end
  end.

Definition find_symbol_index (name : bytes) : TC (option nat) :=
  gets (fun tc => last_index name (symbols tc) 0).

Definition symbol_at (i : nat) : TC Symbol := fun tc =>
  match symbols tc !! i with
  | Some symbol => Done (symbol, tc)
  | None => Fault
  end.

Definition find_symbol (name : bytes) : TC TypeKind :=
  index ← find_symbol_index name;
  match index with
  | None => mret TY_UNDECLARED
  | Some i => symbol ← symbol_at i; mret (symbol_type symbol)
  end.

Definition add_symbol (name : bytes) (type : TypeKind) (explicit : bool) : TC unit :=
  modify (fun tc => with_symbols (symbols tc ++
    [{| symbol_name := name; symbol_type := type; explicit_type := explicit; dynamic := false;
        symbol_depth := scope_depth tc |}]) tc).

Definition with_state (type : TypeKind) (dyn : bool) (symbol : Symbol) : Symbol :=
  {| symbol_name := symbol_name symbol; symbol_type := type; explicit_type := explicit_type symbol;
     dynamic := dyn; symbol_depth := symbol_depth symbol |}.

Definition with_explicit (explicit : bool) (symbol : Symbol) : Symbol :=
  {| symbol_name := symbol_name symbol; symbol_type := symbol_type symbol;
     explicit_type := explicit_type symbol || explicit; dynamic := dynamic symbol;
     symbol_depth := symbol_depth symbol |}.

Definition set_at (i : nat) (symbol : Symbol) : TC unit :=
  modify (fun tc => with_symbols (<[i := symbol]> (symbols tc)) tc).

(** An assignment to a symbol that exists. *)
Definition update_symbol (i : nat) (type : TypeKind) (explicit : bool) : TC unit :=
  symbol ← symbol_at i;
  let old := symbol_type symbol in
  if negb (type_eqb old TY_UNKNOWN) && negb (type_eqb type TY_UNKNOWN) && negb (type_eqb old type) &&
     negb (numeric old && numeric type) then
    if explicit_type symbol || explicit then fail TypeChanged
    else set_at i (with_state TY_UNKNOWN true symbol)
  else
    let symbol := if type_eqb old TY_UNKNOWN && negb (dynamic symbol)
                  then with_state type (dynamic symbol) symbol else symbol in
    set_at i (with_explicit explicit symbol).

Definition set_symbol (name : bytes) (type : TypeKind) (explicit : bool) : TC unit :=
  index ← find_symbol_index name;
  match index with
  | Some i => update_symbol i type explicit
  | None => add_symbol name type explicit
  end.

Definition discard_symbols_to (count : nat) : TC unit :=
  modify (fun tc => with_symbols (take count (symbols tc)) tc).

(** ** Branches *)

Record SymbolState := {
  state_type : TypeKind;
  state_dynamic : bool
}.

Definition state_of (symbol : Symbol) : SymbolState :=
  {| state_type := symbol_type symbol; state_dynamic := dynamic symbol |}.

(** The first [count] symbols, which must be there. *)
Definition snapshot_symbols (count : nat) : TC (list SymbolState) := fun tc =>
  if count <=? length (symbols tc) then Done (map state_of (take count (symbols tc)), tc) else Fault.

Fixpoint restored (states : list SymbolState) (l : list Symbol) : outcome (list Symbol) :=
  match states, l with
  | [], _ => Done l
  | state :: states, symbol :: l =>
      l ← restored states l;
      mret (with_state (state_type state) (state_dynamic state) symbol :: l)
  | _, [] => Fault
  end.

Definition restore_symbols (states : list SymbolState) : TC unit :=
  l ← asks (fun tc => restored states (symbols tc));
  modify (with_symbols l).

(** One symbol after the two branches. *)
Definition merged (before then_state : SymbolState) (symbol : Symbol) : Symbol :=
  let a := state_type then_state in
  let b := symbol_type symbol in
  if state_dynamic then_state || dynamic symbol ||
     (negb (type_eqb a b) && negb (type_eqb a TY_UNKNOWN) && negb (type_eqb b TY_UNKNOWN)) then
    if explicit_type symbol then with_state (state_type before) (state_dynamic before) symbol
    else with_state TY_UNKNOWN true symbol
  else if type_eqb a TY_UNKNOWN || type_eqb b TY_UNKNOWN then
    with_state TY_UNKNOWN (state_dynamic then_state || dynamic symbol) symbol
  else with_state a (dynamic symbol) symbol.

Fixpoint merged_all (before then_states : list SymbolState) (l : list Symbol) : outcome (list Symbol) :=
  match before, then_states, l with
  | [], [], _ => Done l
  | b :: before, t :: then_states, symbol :: l =>
      l ← merged_all before then_states l;
      mret (merged b t symbol :: l)
  | _, _, _ => Fault
  end.

Definition merge_branch_symbols (before then_states : list SymbolState) : TC unit :=
  l ← asks (fun tc => merged_all before then_states (symbols tc));
  modify (with_symbols l).

(** * Functions and structs *)

Definition find_function (name : bytes) : TC (option FunctionDef) :=
  gets (fun tc => find (fun f => bytes_eqb (function_name f) name) (functions tc)).

Definition find_struct (name : bytes) : TC (option StructDef) :=
  gets (fun tc => find (fun s => bytes_eqb (struct_name s) name) (structs tc)).

Definition is_struct (name : bytes) : TC bool :=
  found ← find_struct name;
  mret (bool_decide (is_Some found)).

(** [strstr(name, "__")]: how long the text before the first "__" is. *)
Fixpoint separator (name : bytes) : option nat :=
  match name with
  | a :: ((b :: _) as rest) =>
      if ((a =? "_")%char && (b =? "_")%char) then Some 0 else S <$> separator rest
  | _ => None
  end.

(** The function that is called, and the name of the call afterwards. *)
Definition resolve_function_call (name : bytes) (argument_count : nat)
    : TC (option FunctionDef * bytes) :=
  struct ← is_struct name;
  namespace ← gets function_namespace;
  let as_written := fn ← find_function name; mret (fn, name) in
  match namespace with
  | Some namespace =>
      if bool_decide (is_Some (builtin_arity name argument_count)) || struct ||
         bool_decide (is_Some (separator name)) then as_written
      else
        let qualified := namespace ++ str "__" ++ name in
        fn ← find_function qualified;
        match fn with
        | Some fn => mret (Some fn, qualified)
        | None => as_written
        end
  | None => as_written
  end.

(** * Expressions *)

(** How deep the recursion of expr_type goes. *)
Definition maximum (l : list nat) : nat := fold_right max 0 l.

Fixpoint expression_depth (n : ast) : nat :=
  S match n with
    | AST_ARRAY_LITERAL elements _ => maximum (map expression_depth elements)
    | AST_INDEX_EXPRESSION array index => max (expression_depth array) (expression_depth index)
    | AST_MEMBER_EXPRESSION object _ => expression_depth object
    | AST_FUNCTION_CALL _ arguments _ => maximum (map expression_depth arguments)
    | AST_UNARY_EXPRESSION operand _ => expression_depth operand
    | AST_BINARY_EXPRESSION lhs rhs _ => max (expression_depth lhs) (expression_depth rhs)
    | _ => 0
    end.

Definition in_int32 (z : Z) : bool := (- 2 ^ 31 <=? z)%Z && (z <=? 2 ^ 31 - 1)%Z.

Section expr_type.
Context (expr_type : ast -> TC (TypeKind * ast)).

(** The nodes of a chain, none of which may be void. *)
Fixpoint no_void (e : TypeError) (ns : list ast) : TC (list ast) :=
  match ns with
  | [] => mret []
  | n :: ns =>
      '(type, n) ← expr_type n;
      _ ← fail_if (type_eqb type TY_VOID) e;
      ns ← no_void e ns;
      mret (n :: ns)
  end.

(** The first part of [c && is_string_index_expr(tc, n)] is the caller's. *)
Definition is_string_index_expr (n : ast) : TC (bool * ast) :=
  match n with
  | AST_INDEX_EXPRESSION array index =>
      '(type, array) ← expr_type array;
      mret (type_eqb type TY_STRING, AST_INDEX_EXPRESSION array index)
  | _ => mret (false, n)
  end.

Definition is_string_index_when (condition : bool) (n : ast) : TC (bool * ast) :=
  if condition then is_string_index_expr n else mret (false, n).

(** One argument against the declared type of its parameter. *)
Definition check_argument (fn : FunctionDef) (name : bytes) (i : nat) (type : bytes) (arg : ast) : TC ast :=
  let expected := type_from_name type in
  '(actual, arg) ← expr_type arg;
  if type_eqb expected TY_UNDECLARED || type_eqb expected TY_VOID then
    _ ← fail InvalidParameterType;
    mret arg
  else if type_compatible expected actual then mret arg
  else
    '(character, arg) ← is_string_index_when (type_eqb expected TY_INT && type_eqb actual TY_STRING) arg;
    if (character : bool) then mret arg
    else
      match declared_parameters fn !! i with
      | Some parameter => _ ← fail (ArgumentType i parameter name expected actual); mret arg
      | None => fault
      end.

(** The arguments from the one with the index [i], as long as it is under [argc].
    A parameter that has no type takes everything. *)
Fixpoint check_arguments (fn : FunctionDef) (name : bytes) (argc i : nat) (args : list ast)
    : TC (list ast) :=
  match args with
  | [] => mret []
  | arg :: args =>
      if argc <=? i then mret (arg :: args)
      else
        arg ← match declared_types fn !! i with
              | Some (Some type) => check_argument fn name i type arg
              | _ => mret arg
              end;
        args ← check_arguments fn name argc (S i) args;
        mret (arg :: args)
  end.

(** The arguments afterwards. [argument_count] is their number. *)
Definition check_call (name : bytes) (args : list ast) (argc : nat) : TC (list ast) :=
  args ← no_void VoidArgument args;
  struct ← is_struct name;
  match builtin_arity name argc with
  | Some accepted => _ ← fail_if (negb accepted) (BuiltinArguments name argc); mret args
  | None =>
      if (struct : bool) then
        _ ← fail_if (negb (argc =? 0)) (ConstructorArguments name);
        mret args
      else
        fn ← find_function name;
        match fn with
        | None => _ ← fail (UndeclaredFunction name); mret args
        | Some fn =>
            if negb (arity fn =? argc) then _ ← fail (FunctionArguments name (arity fn) argc); mret args
            else check_arguments fn name argc 0 args
        end
  end.

(** The type of a call. *)
Definition call_result (name : bytes) : TC TypeKind :=
  match builtin_result name with
  | Some type => mret type
  | None =>
      struct ← is_struct name;
      if (struct : bool) then mret TY_OBJECT
      else
        fn ← find_function name;
        mret (match fn ≫= declared_return with
              | Some type =>
                  let result := type_from_name type in
                  if type_eqb result TY_UNDECLARED then TY_UNKNOWN else result
              | None => TY_UNKNOWN
              end)
  end.

Definition call_type (name : bytes) (args : list ast) (argc : nat) : TC (TypeKind * ast) :=
  '(called, name) ← resolve_function_call name argc;
  unsafe ← gets (fun tc => 0 <? unsafe_depth tc);
  _ ← fail_if (match called with Some fn => declared_unsafe fn && negb unsafe | None => false end) UnsafeCall;
  _ ← fail_if (is_unsafe_only name && negb unsafe) RawMemory;
  args ← check_call name args argc;
  struct ← is_struct name;
  _ ← fail_if (struct && negb (argc =? 0)) StructArguments;
  type ← call_result name;
  mret (type, AST_FUNCTION_CALL name args argc).

(** What an index is called in the message. *)
Definition index_text (n : ast) : bytes :=
  match n with
  | AST_VARIABLE name => name
  | AST_INTEGER_LITERAL _ => str "integer literal"
  | _ => str "nontrivial expression"
  end.

Definition index_type (array index : ast) : TC (TypeKind * ast) :=
  '(container, array) ← expr_type array;
  '(type, index) ← expr_type index;
  _ ← fail_if (negb (type_eqb type TY_INT) && negb (type_eqb type TY_UNKNOWN))
        (IndexType type (index_text index));
  _ ← fail_if (negb (type_eqb container TY_ARRAY) && negb (type_eqb container TY_STRING) &&
               negb (type_eqb container TY_UNKNOWN) && negb (type_eqb container TY_OBJECT)) NotIndexable;
  mret (if type_eqb container TY_STRING then TY_STRING else TY_UNKNOWN, AST_INDEX_EXPRESSION array index).

Definition unary_type (operand : ast) (operator : UnaryOperator) : TC (TypeKind * ast) :=
  '(t, operand) ← expr_type operand;
  let node := AST_UNARY_EXPRESSION operand operator in
  if type_eqb t TY_VOID then _ ← fail VoidUnary; mret (TY_UNKNOWN, node)
  else
    match operator with
    | UNARY_NOT =>
        _ ← fail_if (negb (type_eqb t TY_BOOL) && negb (type_eqb t TY_UNKNOWN)) NotBoolean;
        mret (TY_BOOL, node)
    | UNARY_NEGATE =>
        _ ← fail_if (negb (numeric t) && negb (type_eqb t TY_UNKNOWN)) NotNumber;
        mret (t, node)
    | UNARY_REFERENCE => mret (TY_REFERENCE, node)
    | UNARY_DEREFERENCE =>
        _ ← fail_if (negb (type_eqb t TY_REFERENCE) && negb (type_eqb t TY_UNKNOWN)) NotReference;
        mret (TY_UNKNOWN, node)
    end.

Definition is_equality (op : BinaryOperator) : bool :=
  match op with BINARY_EQUAL | BINARY_NOT_EQUAL => true | _ => false end.

Definition is_order (op : BinaryOperator) : bool :=
  match op with
  | BINARY_GREATER | BINARY_LESS | BINARY_GREATER_EQUAL | BINARY_LESS_EQUAL => true
  | _ => false
  end.

Definition is_logical (op : BinaryOperator) : bool :=
  match op with BINARY_AND | BINARY_OR => true | _ => false end.

Definition concatenates (t : TypeKind) : bool :=
  match t with TY_STRING | TY_INT | TY_FLOAT | TY_BOOL | TY_UNKNOWN => true | _ => false end.

(** == and !=: the types must be the same, or both numbers; a character of a string
    may be compared with a number. *)
Definition equality_type (l r : TypeKind) (lhs rhs : ast) : TC (ast * ast) :=
  '(character, lhs) ← is_string_index_when (type_eqb l TY_STRING && type_eqb r TY_INT) lhs;
  '(character, rhs) ←
    if (character : bool) then mret (true, rhs)
    else is_string_index_when (type_eqb l TY_INT && type_eqb r TY_STRING) rhs;
  _ ← fail_if (negb (type_eqb l TY_UNKNOWN) && negb (type_eqb r TY_UNKNOWN) && negb (type_eqb l r) &&
               negb (numeric l && numeric r) && negb character) EqualityOperands;
  mret (lhs, rhs).

(** Addition of a string, and arithmetic. *)
Definition arithmetic_type (left right : TypeKind) (op : BinaryOperator) : TC TypeKind :=
  if bool_decide (op = BINARY_ADD) && (type_eqb left TY_STRING || type_eqb right TY_STRING) then
    if concatenates (if type_eqb left TY_STRING then right else left) then mret TY_STRING
    else _ ← fail ConcatenationOperands; mret TY_UNKNOWN
  else if negb (numeric left) || negb (numeric right) then
    _ ← fail_if (negb (type_eqb left TY_UNKNOWN) && negb (type_eqb right TY_UNKNOWN)) ArithmeticOperands;
    mret TY_UNKNOWN
  else
    mret (if type_eqb left TY_FLOAT || type_eqb right TY_FLOAT then TY_FLOAT
          else if type_eqb left TY_I64 || type_eqb right TY_I64 then TY_I64 else TY_INT).

(** What the operator says of the types of its operands. *)
Definition binary_result_type (l r : TypeKind) (lhs rhs : ast) (op : BinaryOperator) : TC (TypeKind * ast) :=
  let node := AST_BINARY_EXPRESSION lhs rhs op in
  if type_eqb l TY_VOID || type_eqb r TY_VOID then _ ← fail VoidBinary; mret (TY_UNKNOWN, node)
  else if is_logical op then
    _ ← fail_if ((negb (type_eqb l TY_BOOL) && negb (type_eqb l TY_UNKNOWN)) ||
                 (negb (type_eqb r TY_BOOL) && negb (type_eqb r TY_UNKNOWN))) LogicalOperands;
    mret (TY_BOOL, node)
  else if is_equality op then
    '(lhs, rhs) ← equality_type l r lhs rhs;
    mret (TY_BOOL, AST_BINARY_EXPRESSION lhs rhs op)
  else if is_order op then
    _ ← fail_if ((negb (numeric l) && negb (type_eqb l TY_UNKNOWN)) ||
                 (negb (numeric r) && negb (type_eqb r TY_UNKNOWN))) OrderedOperands;
    mret (TY_BOOL, node)
  else
    type ← arithmetic_type l r op;
    mret (type, node).

Definition binary_type (lhs rhs : ast) (op : BinaryOperator) : TC (TypeKind * ast) :=
  '(l, lhs) ← expr_type lhs;
  '(r, rhs) ← expr_type rhs;
  binary_result_type l r lhs rhs op.

Definition variable_type (name : bytes) : TC (TypeKind * ast) :=
  t ← find_symbol name;
  _ ← fail_if (type_eqb t TY_UNDECLARED) (UndeclaredVariable name);
  mret (if type_eqb t TY_UNDECLARED then TY_UNKNOWN else t, AST_VARIABLE name).

Definition expr_type_body (n : ast) : TC (TypeKind * ast) :=
  match n with
  | AST_INTEGER_LITERAL value => mret (if in_int32 value then TY_INT else TY_I64, n)
  | AST_FLOAT_LITERAL _ => mret (TY_FLOAT, n)
  | AST_BOOLEAN_LITERAL _ => mret (TY_BOOL, n)
  | AST_NULL_LITERAL => mret (TY_POINTER, n)
  | AST_STRING_LITERAL _ => mret (TY_STRING, n)
  | AST_ARRAY_LITERAL elements count =>
      elements ← no_void VoidElement elements;
      mret (TY_ARRAY, AST_ARRAY_LITERAL elements count)
  | AST_VARIABLE name => variable_type name
  | AST_INDEX_EXPRESSION array index => index_type array index
  | AST_MEMBER_EXPRESSION object member =>
      '(type, object) ← expr_type object;
      _ ← fail_if (type_eqb type TY_VOID) VoidMember;
      mret (TY_UNKNOWN, AST_MEMBER_EXPRESSION object member)
  | AST_FUNCTION_CALL name arguments argument_count => call_type name arguments argument_count
  | AST_UNARY_EXPRESSION operand operator => unary_type operand operator
  | AST_BINARY_EXPRESSION lhs rhs operator => binary_type lhs rhs operator
  | _ => mret (TY_UNKNOWN, n)
  end.
End expr_type.

Fixpoint expr_type_in (fuel : nat) (n : ast) : TC (TypeKind * ast) :=
  match fuel with
  | O => stuck
  | S fuel => expr_type_body (expr_type_in fuel) n
  end.

Definition expr_type (n : ast) : TC (TypeKind * ast) := expr_type_in (expression_depth n) n.

(** * Declarations *)

(** The first [count] cells of an array. *)
Definition cells {A} (l : list A) (count : nat) : TC (list A) := fun tc =>
  if count <=? length l then Done (take count l, tc) else Fault.

(** Stops at the first error, whoever made it. *)
Fixpoint check_fields (seen fields : list bytes) : TC unit :=
  match fields with
  | [] => mret tt
  | field :: fields =>
      _ ← fail_if (existsb (bytes_eqb field) seen) DuplicateField;
      failed ← gets (fun tc => bool_decide (is_Some (error tc)));
      if (failed : bool) then mret tt else check_fields (seen ++ [field]) fields
  end.

Definition collect_function (name : bytes) (parameters : list bytes) (parameter_types : list (option bytes))
    (parameter_count : nat) (return_type : option bytes) (is_unsafe : bool) : TC unit :=
  found ← find_function name;
  match found with
  | Some _ => fail DuplicateFunction
  | None =>
      modify (fun tc => with_declarations (functions tc ++
        [{| function_name := name; arity := parameter_count; declared_parameters := parameters;
            declared_types := parameter_types; declared_return := return_type;
            declared_unsafe := is_unsafe |}]) (structs tc) tc)
  end.

Definition collect_struct (name : bytes) (fields : list bytes) (field_count : nat) : TC unit :=
  fields ← cells fields field_count;
  _ ← check_fields [] fields;
  failed ← gets (fun tc => bool_decide (is_Some (error tc)));
  if (failed : bool) then mret tt
  else
    struct ← is_struct name;
    if (struct : bool) then fail DuplicateStruct
    else
      modify (fun tc => with_declarations (functions tc)
        (structs tc ++ [{| struct_name := name; struct_fields := field_count |}]) tc).

Fixpoint collect_declarations (ns : list ast) : TC unit :=
  match ns with
  | [] => mret tt
  | n :: ns =>
      _ ← match n with
          | AST_FUNCTION_DECLARATION name parameters parameter_types parameter_count return_type is_unsafe _ =>
              collect_function name parameters parameter_types parameter_count return_type is_unsafe
          | AST_STRUCT_DECLARATION name fields field_count => collect_struct name fields field_count
          | _ => mret tt
          end;
      collect_declarations ns
  end.

(** * Statements *)

(** Whether control never reaches the end of a list. *)
Fixpoint statement_returns (n : ast) : bool :=
  match n with
  | AST_RETURN_STATEMENT _ => true
  | AST_UNSAFE_BLOCK statements => existsb statement_returns statements
  | AST_IF_STATEMENT _ then_branch else_branch =>
      existsb statement_returns then_branch && existsb statement_returns else_branch
  | _ => false
  end.

Definition statement_list_returns (ns : list ast) : bool := existsb statement_returns ns.

(** What is known of the name when it is assigned to. *)
Definition shadows_outer (declared_type : option bytes) (existing : option nat) : TC bool :=
  match declared_type, existing with
  | Some _, Some i =>
      symbol ← symbol_at i;
      gets (fun tc => symbol_depth symbol <? scope_depth tc)
  | _, _ => mret false
  end.

(** [let name : type = value]. *)
Definition check_typed (name type : bytes) (value_type : TypeKind) (exists_here shadows : bool) : TC unit :=
  let declared := type_from_name type in
  if type_eqb declared TY_UNDECLARED || type_eqb declared TY_VOID then fail (UnknownType type)
  else if exists_here then fail Redeclared
  else if negb (type_compatible declared value_type) then fail (InitializerType name declared value_type)
  else if shadows then add_symbol name declared true
  else set_symbol name declared true.

(** [name = value]. *)
Definition check_untyped (name : bytes) (value_type : TypeKind) (existing : option nat) : TC unit :=
  ok ← match existing with
       | Some i =>
           symbol ← symbol_at i;
           if explicit_type symbol && negb (type_compatible (symbol_type symbol) value_type) then
             _ ← fail (AssignmentType (symbol_type symbol) value_type);
             mret false
           else mret true
       | None => mret true
       end;
  if (ok : bool) then set_symbol name value_type false else mret tt.

Definition check_variable_declaration (name : bytes) (declared_type : option bytes) (value : ast) : TC ast :=
  existing ← find_symbol_index name;
  shadows ← shadows_outer declared_type existing;
  let reassignment := bool_decide (is_Some existing) && negb shadows in
  '(value_type, value) ← expr_type value;
  _ ← if type_eqb value_type TY_VOID then fail VoidInitializer
      else
        match declared_type with
        | Some type => check_typed name type value_type reassignment shadows
        | None => check_untyped name value_type existing
        end;
  mret (AST_VARIABLE_DECLARATION name declared_type value reassignment).

Definition check_assignment (target value : ast) : TC ast :=
  '(t, target) ← expr_type target;
  '(v, value) ← expr_type value;
  if type_eqb v TY_VOID then
    _ ← fail VoidAssigned;
    mret (AST_ASSIGNMENT target value)
  else
    '(character, target) ← is_string_index_expr expr_type target;
    _ ← fail_if (negb (type_eqb t TY_UNKNOWN) && negb (type_eqb t TY_UNDECLARED) &&
                 negb (type_compatible t v) && negb (character && type_eqb v TY_INT)) (AssignmentType t v);
    mret (AST_ASSIGNMENT target value).

Definition check_condition (e : TypeError) (condition : ast) : TC ast :=
  '(t, condition) ← expr_type condition;
  _ ← if type_eqb t TY_VOID then fail VoidCondition
      else fail_if (negb (type_eqb t TY_BOOL) && negb (type_eqb t TY_UNKNOWN)) e;
  mret condition.

(** More scopes, unsafe blocks and loops than now. *)
Definition deeper (scope unsafe loop : nat) : TC unit :=
  modify (fun tc => with_depths (scope_depth tc + scope) (unsafe_depth tc + unsafe) (loop_depth tc + loop) tc).

Definition shallower (scope unsafe loop : nat) : TC unit :=
  modify (fun tc => with_depths (scope_depth tc - scope) (unsafe_depth tc - unsafe) (loop_depth tc - loop) tc).

Definition symbol_count : TC nat := gets (fun tc => length (symbols tc)).

Section statements.
Context (check_statements : list ast -> TC (list ast)).

(** A block with a scope of its own. *)
Definition check_block (unsafe loop : nat) (ns : list ast) : TC (list ast) :=
  outer_count ← symbol_count;
  _ ← deeper 1 unsafe loop;
  ns ← check_statements ns;
  _ ← discard_symbols_to outer_count;
  _ ← shallower 1 unsafe loop;
  mret ns.

Definition check_if (condition : ast) (then_branch else_branch : list ast) : TC ast :=
  condition ← check_condition IfCondition condition;
  outer_count ← symbol_count;
  before ← snapshot_symbols outer_count;
  _ ← deeper 1 0 0;
  then_branch ← check_statements then_branch;
  then_states ← snapshot_symbols outer_count;
  _ ← discard_symbols_to outer_count;
  _ ← shallower 1 0 0;
  _ ← restore_symbols before;
  failed ← gets (fun tc => bool_decide (is_Some (error tc)));
  if (failed : bool) then mret (AST_IF_STATEMENT condition then_branch else_branch)
  else
    else_branch ← check_block 0 0 else_branch;
    _ ← merge_branch_symbols before then_states;
    mret (AST_IF_STATEMENT condition then_branch else_branch).

Definition check_return (expression : option ast) : TC ast :=
  inside ← gets in_function;
  if negb inside then
    _ ← fail ReturnOutside;
    mret (AST_RETURN_STATEMENT expression)
  else
    '(actual, expression) ←
      match expression with
      | Some e => '(t, e) ← expr_type e; mret (t, Some e)
      | None => mret (TY_UNKNOWN, None)
      end;
    expected ← gets expected_return;
    _ ← if type_eqb expected TY_VOID then fail_if (bool_decide (is_Some expression)) ReturnInVoid
        else if bool_decide (expression = None) then fail ReturnMissing
        else if type_eqb actual TY_VOID then fail VoidReturned
        else fail_if (negb (type_eqb expected TY_UNKNOWN) && negb (type_compatible expected actual))
               (ReturnType expected actual);
    mret (AST_RETURN_STATEMENT expression).

(** The parameters become symbols, up to the first error. The code reads parameter_types[i]
    for every parameter; the parser gives a list of the same length, or NULL for no types at
    all, which is the empty list here. *)
Fixpoint check_parameters (seen parameters : list bytes) (parameter_types : list (option bytes)) : TC unit :=
  match parameters with
  | [] => mret tt
  | parameter :: parameters =>
      _ ← fail_if (existsb (bytes_eqb parameter) seen) DuplicateParameter;
      failed ← gets (fun tc => bool_decide (is_Some (error tc)));
      if (failed : bool) then mret tt
      else
        let pt := match mjoin (head parameter_types) with
                  | Some type => type_from_name type
                  | None => TY_UNKNOWN
                  end in
        if bool_decide (is_Some (mjoin (head parameter_types))) &&
           (type_eqb pt TY_UNDECLARED || type_eqb pt TY_VOID) then fail InvalidParameter
        else
          _ ← add_symbol parameter pt (negb (type_eqb pt TY_UNKNOWN));
          check_parameters (seen ++ [parameter]) parameters (tail parameter_types)
  end.

(** The namespace of the functions named alias__name is alias. *)
Definition namespace_of (name : bytes) (outer : option bytes) : option bytes :=
  match separator name with
  | Some length => Some (take length name)
  | None => outer
  end.

Definition returned_type (return_type : option bytes) : TypeKind :=
  match return_type with Some type => type_from_name type | None => TY_UNKNOWN end.

(** What is checked with the return type, the namespace and the depths of the function. *)
Definition check_function_body (name : bytes) (parameters : list bytes) (parameter_types : list (option bytes))
    (parameter_count : nat) (return_type : option bytes) (body : list ast) : TC (list ast) :=
  let expected := returned_type return_type in
  _ ← fail_if (bool_decide (is_Some return_type) && type_eqb expected TY_UNDECLARED) UnknownReturnType;
  parameters ← cells parameters parameter_count;
  _ ← check_parameters [] parameters parameter_types;
  body ← check_statements body;
  _ ← fail_if (negb (type_eqb expected TY_UNKNOWN) && negb (type_eqb expected TY_VOID) &&
               negb (statement_list_returns body)) (NotEveryPath name expected);
  mret body.

Definition check_function (name : bytes) (parameters : list bytes) (parameter_types : list (option bytes))
    (parameter_count : nat) (return_type : option bytes) (body : list ast) : TC (list ast) :=
  old ← get;
  _ ← modify (with_function (returned_type return_type) true (namespace_of name (function_namespace old)));
  _ ← modify (with_depths (S (scope_depth old)) (unsafe_depth old) 0);
  body ← check_function_body name parameters parameter_types parameter_count return_type body;
  _ ← discard_symbols_to (length (symbols old));
  _ ← modify (with_function (expected_return old) (in_function old) (function_namespace old));
  tc ← get;
  _ ← modify (with_depths (scope_depth old) (unsafe_depth tc) (loop_depth old));
  mret body.
End statements.

(** As long as there is no error. *)
Definition statement_loop (check_statement : ast -> TC ast) : list ast -> TC (list ast) :=
  fix loop ns :=
    match ns with
    | [] => mret []
    | n :: ns =>
        failed ← gets (fun tc => bool_decide (is_Some (error tc)));
        if (failed : bool) then mret (n :: ns)
        else
          n ← check_statement n;
          ns ← loop ns;
          mret (n :: ns)
    end.

Fixpoint check_statement (n : ast) : TC ast :=
  let check_statements := statement_loop check_statement in
  match n with
  | AST_VARIABLE_DECLARATION name declared_type value _ => check_variable_declaration name declared_type value
  | AST_ASSIGNMENT target value => check_assignment target value
  | AST_PRINT_STATEMENT expression =>
      '(t, expression) ← expr_type expression;
      _ ← fail_if (type_eqb t TY_VOID) VoidPrinted;
      mret (AST_PRINT_STATEMENT expression)
  | AST_IF_STATEMENT condition then_branch else_branch =>
      check_if check_statements condition then_branch else_branch
  | AST_WHILE_STATEMENT condition body =>
      condition ← check_condition WhileCondition condition;
      body ← check_block check_statements 0 1 body;
      mret (AST_WHILE_STATEMENT condition body)
  | AST_RETURN_STATEMENT expression => check_return expression
  | AST_FUNCTION_CALL _ _ _ =>
      '(_, n) ← expr_type n;
      mret n
  | AST_ASM_STATEMENT _ _ =>
      outside ← gets (fun tc => unsafe_depth tc =? 0);
      _ ← fail_if outside AsmOutside;
      mret n
  | AST_UNSAFE_BLOCK statements =>
      statements ← check_block check_statements 1 0 statements;
      mret (AST_UNSAFE_BLOCK statements)
  | AST_FUNCTION_DECLARATION name parameters parameter_types parameter_count return_type is_unsafe body =>
      body ← check_function check_statements name parameters parameter_types parameter_count return_type body;
      mret (AST_FUNCTION_DECLARATION name parameters parameter_types parameter_count return_type is_unsafe body)
  | AST_BREAK_STATEMENT =>
      outside ← gets (fun tc => loop_depth tc =? 0);
      _ ← fail_if outside BreakOutside;
      mret n
  | AST_CONTINUE_STATEMENT =>
      outside ← gets (fun tc => loop_depth tc =? 0);
      _ ← fail_if outside ContinueOutside;
      mret n
  | _ => mret n
  end.

Definition check_statements : list ast -> TC (list ast) := statement_loop check_statement.

Definition checker : TypeChecker :=
  {| symbols := []; functions := []; structs := []; error := None; expected_return := TY_UNDECLARED;
     in_function := false; scope_depth := 0; unsafe_depth := 0; loop_depth := 0; function_namespace := None |}.

Definition check_program (statements : list ast) : TC (list ast) :=
  _ ← collect_declarations statements;
  failed ← gets (fun tc => bool_decide (is_Some (error tc)));
  if (failed : bool) then mret statements else check_statements statements.

(** The result, the tree afterwards and the message, if there is one. *)
Definition vnt_typecheck (program : ast) : outcome (bool * ast * option TypeError) :=
  match program with
  | AST_PROGRAM statements =>
      match check_program statements checker with
      | Done (statements, tc) => Done (negb (bool_decide (is_Some (error tc))), AST_PROGRAM statements, error tc)
      | Fault => Fault
      | Stuck => Stuck
      end
  | _ => Done (false, program, None)
  end.
