(* ===== verification/TypeSystem.v ===== *)
(** TypeSystem: what the checker accepts, without its state: an expression has a type
    and a full form in a list of symbols, a statement takes a list of symbols to
    another, and a program is accepted or not. Nothing is computed twice, nothing
    is undone, and there is no error to carry along. *)

From S2P Require Import Prelude Clib Ast TypeNames TypeCheck.

(** * Context *)

(** What does not change in a block. *)
Record Context := {
  cx_functions : list FunctionDef;
  cx_structs : list StructDef;
  cx_return : option TypeKind;
  cx_depth : nat;
  cx_unsafe : nat;
  cx_loop : nat;
  cx_namespace : option bytes
}.

Definition lookup_symbol (G : list Symbol) (x : bytes) : option Symbol :=
  i ← last_index x G 0;
  G !! i.

Definition lookup_function (cx : Context) (name : bytes) : option FunctionDef :=
  find (fun f => bytes_eqb (function_name f) name) (cx_functions cx).

Definition has_struct (cx : Context) (name : bytes) : bool :=
  bool_decide (is_Some (find (fun s => bytes_eqb (struct_name s) name) (cx_structs cx))).

(** * Expressions *)

Fixpoint collect {A} (l : list (option A)) : option (list A) :=
  match l with
  | [] => Some []
  | o :: l =>
      a ← o;
      l ← collect l;
      Some (a :: l)
  end.

Definition not_void (v : TypeKind * ast) : bool := negb (type_eqb v.1 TY_VOID).

Definition is_index (n : ast) : bool := match n with AST_INDEX_EXPRESSION _ _ => true | _ => false end.

(** A function of the same module, when there is one. *)
Definition resolved (cx : Context) (name : bytes) (argc : nat) : option FunctionDef * bytes :=
  let as_written := (lookup_function cx name, name) in
  match cx_namespace cx with
  | Some namespace =>
      if bool_decide (is_Some (builtin_arity name argc)) || has_struct cx name ||
         bool_decide (is_Some (separator name)) then as_written
      else
        match lookup_function cx (namespace ++ str "__" ++ name) with
        | Some fn => (Some fn, namespace ++ str "__" ++ name)
        | None => as_written
        end
  | None => as_written
  end.

(** Unsafe functions and functions on memory are called in unsafe blocks only. *)
Definition allowed (cx : Context) (fn : option FunctionDef) (name : bytes) : bool :=
  (0 <? cx_unsafe cx) ||
  negb (match fn with Some fn => declared_unsafe fn | None => false end) && negb (is_unsafe_only name).

(** A character of a string is taken for a number. *)
Definition accepts (type : bytes) (v : TypeKind * ast) : bool :=
  let expected := type_from_name type in
  negb (type_eqb expected TY_UNDECLARED) && negb (type_eqb expected TY_VOID) &&
  (type_compatible expected v.1 || type_eqb expected TY_INT && type_eqb v.1 TY_STRING && is_index v.2).

Fixpoint accepts_all (fn : FunctionDef) (i : nat) (args : list (TypeKind * ast)) : bool :=
  match args with
  | [] => true
  | v :: args =>
      match declared_types fn !! i with Some (Some type) => accepts type v | _ => true end &&
      accepts_all fn (S i) args
  end.

Definition signature (cx : Context) (name : bytes) (argc : nat) (args : list (TypeKind * ast)) : bool :=
  match builtin_arity name argc with
  | Some accepted => accepted && negb (has_struct cx name && negb (argc =? 0))
  | None =>
      if has_struct cx name then argc =? 0
      else
        match lookup_function cx name with
        | Some fn => (arity fn =? argc) && accepts_all fn 0 (take argc args)
        | None => false
        end
  end.

Definition result_of (cx : Context) (name : bytes) : TypeKind :=
  match builtin_result name with
  | Some type => type
  | None =>
      if has_struct cx name then TY_OBJECT
      else
        match lookup_function cx name ≫= declared_return with
        | Some type => if type_eqb (type_from_name type) TY_UNDECLARED then TY_UNKNOWN else type_from_name type
        | None => TY_UNKNOWN
        end
  end.

Definition known_or (t u : TypeKind) : bool := type_eqb t u || type_eqb t TY_UNKNOWN.

Definition index_result (container index : TypeKind) : option TypeKind :=
  if known_or index TY_INT &&
     (known_or container TY_ARRAY || type_eqb container TY_STRING || type_eqb container TY_OBJECT)
  then Some (if type_eqb container TY_STRING then TY_STRING else TY_UNKNOWN)
  else None.

Definition unary_result (op : UnaryOperator) (t : TypeKind) : option TypeKind :=
  if type_eqb t TY_VOID then None
  else
    match op with
    | UNARY_NOT => if known_or t TY_BOOL then Some TY_BOOL else None
    | UNARY_NEGATE => if numeric t || type_eqb t TY_UNKNOWN then Some t else None
    | UNARY_REFERENCE => Some TY_REFERENCE
    | UNARY_DEREFERENCE => if known_or t TY_REFERENCE then Some TY_UNKNOWN else None
    end.

(** [lc] and [rc]: the operands are items of arrays or strings. *)
Definition binary_result (op : BinaryOperator) (l r : TypeKind) (lc rc : bool) : option TypeKind :=
  if type_eqb l TY_VOID || type_eqb r TY_VOID then None
  else if is_logical op then
    if known_or l TY_BOOL && known_or r TY_BOOL then Some TY_BOOL else None
  else if is_equality op then
    if type_compatible l r || type_eqb l TY_STRING && type_eqb r TY_INT && lc ||
       type_eqb l TY_INT && type_eqb r TY_STRING && rc then Some TY_BOOL else None
  else if is_order op then
    if (numeric l || type_eqb l TY_UNKNOWN) && (numeric r || type_eqb r TY_UNKNOWN) then Some TY_BOOL else None
  else if bool_decide (op = BINARY_ADD) && (type_eqb l TY_STRING || type_eqb r TY_STRING) then
    if concatenates (if type_eqb l TY_STRING then r else l) then Some TY_STRING else None
  else if numeric l && numeric r then
    Some (if type_eqb l TY_FLOAT || type_eqb r TY_FLOAT then TY_FLOAT
          else if type_eqb l TY_I64 || type_eqb r TY_I64 then TY_I64 else TY_INT)
  else if type_eqb l TY_UNKNOWN || type_eqb r TY_UNKNOWN then Some TY_UNKNOWN
  else None.

Section type_of.
Context (cx : Context) (G : list Symbol).

(** The type and the full form of an expression; [None] when it is not accepted. *)
Fixpoint type_of (n : ast) : option (TypeKind * ast) :=
  match n with
  | AST_INTEGER_LITERAL value => Some (if in_int32 value then TY_INT else TY_I64, n)
  | AST_FLOAT_LITERAL _ => Some (TY_FLOAT, n)
  | AST_BOOLEAN_LITERAL _ => Some (TY_BOOL, n)
  | AST_NULL_LITERAL => Some (TY_POINTER, n)
  | AST_STRING_LITERAL _ => Some (TY_STRING, n)
  | AST_ARRAY_LITERAL elements count =>
      vs ← collect (map type_of elements);
      if forallb not_void vs then Some (TY_ARRAY, AST_ARRAY_LITERAL (map snd vs) count) else None
  | AST_VARIABLE name =>
      symbol ← lookup_symbol G name;
      if type_eqb (symbol_type symbol) TY_UNDECLARED then None else Some (symbol_type symbol, n)
  | AST_INDEX_EXPRESSION array index =>
      '(container, array) ← type_of array;
      '(type, index) ← type_of index;
      t ← index_result container type;
      Some (t, AST_INDEX_EXPRESSION array index)
  | AST_MEMBER_EXPRESSION object member =>
      '(type, object) ← type_of object;
      if type_eqb type TY_VOID then None else Some (TY_UNKNOWN, AST_MEMBER_EXPRESSION object member)
  | AST_FUNCTION_CALL name arguments argc =>
      vs ← collect (map type_of arguments);
      let full := resolved cx name argc in
      if allowed cx full.1 full.2 && forallb not_void vs && signature cx full.2 argc vs
      then Some (result_of cx full.2, AST_FUNCTION_CALL full.2 (map snd vs) argc) else None
  | AST_UNARY_EXPRESSION operand operator =>
      '(t, operand) ← type_of operand;
      t ← unary_result operator t;
      Some (t, AST_UNARY_EXPRESSION operand operator)
  | AST_BINARY_EXPRESSION lhs rhs operator =>
      '(l, lhs) ← type_of lhs;
      '(r, rhs) ← type_of rhs;
      t ← binary_result operator l r (is_index lhs) (is_index rhs);
      Some (t, AST_BINARY_EXPRESSION lhs rhs operator)
  | _ => Some (TY_UNKNOWN, n)
  end.
End type_of.

(** * Symbols *)

Definition new_symbol (name : bytes) (type : TypeKind) (explicit : bool) (depth : nat) : Symbol :=
  {| symbol_name := name; symbol_type := type; explicit_type := explicit; dynamic := false;
     symbol_depth := depth |}.

Definition clashes (old type : TypeKind) : bool :=
  negb (type_compatible old type).

(** A symbol that is assigned a value of another type: an annotated one keeps its
    type, and the others have no known type from then on. *)
Definition retyped (symbol : Symbol) (type : TypeKind) : option Symbol :=
  if clashes (symbol_type symbol) type then
    if explicit_type symbol then None else Some (with_state TY_UNKNOWN true symbol)
  else if type_eqb (symbol_type symbol) TY_UNKNOWN && negb (dynamic symbol)
  then Some (with_state type (dynamic symbol) symbol)
  else Some symbol.

(** [name = value]. *)
Definition assigned (cx : Context) (G : list Symbol) (name : bytes) (type : TypeKind) : option (list Symbol) :=
  match last_index name G 0 with
  | None => Some (G ++ [new_symbol name type false (cx_depth cx)])
  | Some i =>
      symbol ← G !! i;
      if explicit_type symbol && clashes (symbol_type symbol) type then None
      else
        symbol ← retyped symbol type;
        Some (<[i := symbol]> G)
  end.

(** Whether a declaration of [name] is in an outer scope only. *)
Definition is_outer (cx : Context) (G : list Symbol) (name : bytes) : bool :=
  match lookup_symbol G name with
  | Some symbol => symbol_depth symbol <? cx_depth cx
  | None => false
  end.

Definition is_declared (G : list Symbol) (name : bytes) : bool := bool_decide (is_Some (last_index name G 0)).

(** [let name : type = value]. *)
Definition annotated (cx : Context) (G : list Symbol) (name type : bytes) (value : TypeKind)
    : option (list Symbol) :=
  let declared := type_from_name type in
  if negb (type_eqb declared TY_UNDECLARED) && negb (type_eqb declared TY_VOID) &&
     (negb (is_declared G name) || is_outer cx G name) && type_compatible declared value
  then Some (G ++ [new_symbol name declared true (cx_depth cx)])
  else None.

(** One symbol after two branches from the same list. *)
Definition joined (before then_symbol else_symbol : Symbol) : Symbol :=
  merged (state_of before) (state_of then_symbol) else_symbol.

Fixpoint zip3_with {A B C D} (f : A -> B -> C -> D) (l1 : list A) (l2 : list B) (l3 : list C) : list D :=
  match l1, l2, l3 with
  | a :: l1, b :: l2, c :: l3 => f a b c :: zip3_with f l1 l2 l3
  | _, _, _ => []
  end.

(** * Statements *)

Definition cx_deeper (scope unsafe loop : nat) (cx : Context) : Context :=
  {| cx_functions := cx_functions cx; cx_structs := cx_structs cx; cx_return := cx_return cx;
     cx_depth := cx_depth cx + scope; cx_unsafe := cx_unsafe cx + unsafe; cx_loop := cx_loop cx + loop;
     cx_namespace := cx_namespace cx |}.

Definition cx_function (name : bytes) (return_type : option bytes) (cx : Context) : Context :=
  {| cx_functions := cx_functions cx; cx_structs := cx_structs cx; cx_return := Some (returned_type return_type);
     cx_depth := S (cx_depth cx); cx_unsafe := cx_unsafe cx; cx_loop := 0;
     cx_namespace := namespace_of name (cx_namespace cx) |}.

(** The statements after each other, in a context, from a list of symbols. *)
Definition in_sequence (f : ast -> Context -> list Symbol -> option (list Symbol * ast))
    : list ast -> Context -> list Symbol -> option (list Symbol * list ast) :=
  fix go ns cx G :=
    match ns with
    | [] => Some (G, [])
    | n :: ns =>
        '(G, n) ← f n cx G;
        '(G, ns) ← go ns cx G;
        Some (G, n :: ns)
    end.

(** A condition. *)
Definition condition_of (cx : Context) (G : list Symbol) (n : ast) : option ast :=
  '(t, n) ← type_of cx G n;
  if known_or t TY_BOOL then Some n else None.

(** A parameter without a type, or with a type that values can have. *)
Definition parameter_ok (type : option bytes) : bool :=
  match type with
  | Some type => negb (type_eqb (type_from_name type) TY_UNDECLARED) && negb (type_eqb (type_from_name type) TY_VOID)
  | None => true
  end.

Definition parameter_symbol (depth : nat) (parameter : bytes) (type : option bytes) : Symbol :=
  new_symbol parameter (returned_type type) (negb (type_eqb (returned_type type) TY_UNKNOWN)) depth.

(** The symbols of the parameters. *)
Fixpoint parameters_of (depth : nat) (seen parameters : list bytes) (types : list (option bytes))
    : option (list Symbol) :=
  match parameters with
  | [] => Some []
  | parameter :: parameters =>
      if negb (existsb (bytes_eqb parameter) seen) && parameter_ok (mjoin (head types)) then
        l ← parameters_of depth (seen ++ [parameter]) parameters (tail types);
        Some (parameter_symbol depth parameter (mjoin (head types)) :: l)
      else None
  end.

(** A return statement: its value, if the function has one. *)
Definition return_ok (expected : TypeKind) (value : option TypeKind) : bool :=
  match value with
  | None => type_eqb expected TY_VOID
  | Some t => negb (type_eqb expected TY_VOID) && negb (type_eqb t TY_VOID) && type_compatible expected t
  end.

Definition returned (cx : Context) (G : list Symbol) (value : option ast) : option (option ast) :=
  expected ← cx_return cx;
  match value with
  | None => if return_ok expected None then Some None else None
  | Some e =>
      '(t, e) ← type_of cx G e;
      if return_ok expected (Some t) then Some (Some e) else None
  end.

Definition declaration (cx : Context) (G : list Symbol) (name : bytes) (declared_type : option bytes) (value : ast)
    : option (list Symbol * ast) :=
  '(t, value) ← type_of cx G value;
  if type_eqb t TY_VOID then None
  else
    match declared_type with
    | Some type =>
        G' ← annotated cx G name type t;
        Some (G', AST_VARIABLE_DECLARATION name declared_type value false)
    | None =>
        G' ← assigned cx G name t;
        Some (G', AST_VARIABLE_DECLARATION name declared_type value (is_declared G name))
    end.

Definition assignment (cx : Context) (G : list Symbol) (target value : ast) : option ast :=
  '(t, target) ← type_of cx G target;
  '(v, value) ← type_of cx G value;
  if negb (type_eqb v TY_VOID) &&
     (type_compatible t v || type_eqb t TY_STRING && is_index target && type_eqb v TY_INT)
  then Some (AST_ASSIGNMENT target value) else None.

(** A body with symbols of its own. *)
Definition block (go : list ast -> Context -> list Symbol -> option (list Symbol * list ast))
    (ns : list ast) (cx : Context) (G : list Symbol) : option (list Symbol * list ast) :=
  '(G', ns) ← go ns cx G;
  Some (take (length G) G', ns).

Fixpoint checked (n : ast) (cx : Context) (G : list Symbol) : option (list Symbol * ast) :=
  let go := in_sequence checked in
  match n with
  | AST_VARIABLE_DECLARATION name declared_type value _ => declaration cx G name declared_type value
  | AST_ASSIGNMENT target value => n ← assignment cx G target value; Some (G, n)
  | AST_PRINT_STATEMENT expression =>
      v ← type_of cx G expression;
      if not_void v then Some (G, AST_PRINT_STATEMENT v.2) else None
  | AST_IF_STATEMENT condition then_branch else_branch =>
      condition ← condition_of cx G condition;
      '(G1, then_branch) ← block go then_branch (cx_deeper 1 0 0 cx) G;
      '(G2, else_branch) ← block go else_branch (cx_deeper 1 0 0 cx) G;
      Some (zip3_with joined G G1 G2, AST_IF_STATEMENT condition then_branch else_branch)
  | AST_WHILE_STATEMENT condition body =>
      condition ← condition_of cx G condition;
      '(G, body) ← block go body (cx_deeper 1 0 1 cx) G;
      Some (G, AST_WHILE_STATEMENT condition body)
  | AST_RETURN_STATEMENT expression =>
      expression ← returned cx G expression;
      Some (G, AST_RETURN_STATEMENT expression)
  | AST_FUNCTION_CALL _ _ _ => '(_, n) ← type_of cx G n; Some (G, n)
  | AST_ASM_STATEMENT _ _ => if 0 <? cx_unsafe cx then Some (G, n) else None
  | AST_UNSAFE_BLOCK statements =>
      '(G, statements) ← block go statements (cx_deeper 1 1 0 cx) G;
      Some (G, AST_UNSAFE_BLOCK statements)
  | AST_FUNCTION_DECLARATION name parameters types count return_type is_unsafe body =>
      ps ← parameters_of (S (cx_depth cx)) [] (take count parameters) types;
      '(G', body) ← go body (cx_function name return_type cx) (G ++ ps);
      let expected := returned_type return_type in
      if negb (bool_decide (is_Some return_type) && type_eqb expected TY_UNDECLARED) &&
         (type_eqb expected TY_UNKNOWN || type_eqb expected TY_VOID || statement_list_returns body)
      then Some (take (length G) G', AST_FUNCTION_DECLARATION name parameters types count return_type is_unsafe body)
      else None
  | AST_BREAK_STATEMENT | AST_CONTINUE_STATEMENT => if 0 <? cx_loop cx then Some (G, n) else None
  | _ => Some (G, n)
  end.

(** * Programs *)

(** Declared once. *)
Fixpoint unique (l : list bytes) : bool :=
  match l with
  | [] => true
  | x :: l => negb (existsb (bytes_eqb x) l) && unique l
  end.

Definition function_of (n : ast) : list FunctionDef :=
  match n with
  | AST_FUNCTION_DECLARATION name parameters types count return_type is_unsafe _ =>
      [{| function_name := name; arity := count; declared_parameters := parameters;
          declared_types := types; declared_return := return_type; declared_unsafe := is_unsafe |}]
  | _ => []
  end.

Definition struct_of (n : ast) : list StructDef :=
  match n with
  | AST_STRUCT_DECLARATION name _ field_count => [{| struct_name := name; struct_fields := field_count |}]
  | _ => []
  end.

Definition fields_ok (n : ast) : bool :=
  match n with AST_STRUCT_DECLARATION _ fields count => unique (take count fields) | _ => true end.

Definition functions_of (ns : list ast) : list FunctionDef := concat (map function_of ns).
Definition structs_of (ns : list ast) : list StructDef := concat (map struct_of ns).

Definition declarations_ok (ns : list ast) : bool :=
  unique (map function_name (functions_of ns)) && unique (map struct_name (structs_of ns)) &&
  forallb fields_ok ns.

Definition program_context (ns : list ast) : Context :=
  {| cx_functions := functions_of ns; cx_structs := structs_of ns; cx_return := None;
     cx_depth := 0; cx_unsafe := 0; cx_loop := 0; cx_namespace := None |}.

(** The statements of an accepted program, in full. *)
Definition accepted (ns : list ast) : option (list ast) :=
  if declarations_ok ns then snd <$> in_sequence checked ns (program_context ns) [] else None.
