(* ===== verification/TypeCheckFacts.v ===== *)
(** TypeCheckFacts: checking an expression only notes an error, and gives the type and
    the full form of the type system when it notes none. *)

From S2P Require Import Prelude Clib Ast Ir IrTrees IrLower IrAccess TypeNames TypeCheck TypeSystem.

(** * Trees up to names and marks *)

(** Without what the checker writes into the tree. *)
Fixpoint unmarked (n : ast) : ast :=
  match n with
  | AST_PROGRAM statements => AST_PROGRAM (map unmarked statements)
  | AST_PRINT_STATEMENT expression => AST_PRINT_STATEMENT (unmarked expression)
  | AST_IF_STATEMENT condition then_branch else_branch =>
      AST_IF_STATEMENT (unmarked condition) (map unmarked then_branch) (map unmarked else_branch)
  | AST_WHILE_STATEMENT condition body => AST_WHILE_STATEMENT (unmarked condition) (map unmarked body)
  | AST_FUNCTION_DECLARATION name parameters types count return_type is_unsafe body =>
      AST_FUNCTION_DECLARATION name parameters types count return_type is_unsafe (map unmarked body)
  | AST_FUNCTION_CALL _ arguments count => AST_FUNCTION_CALL [] (map unmarked arguments) count
  | AST_RETURN_STATEMENT expression => AST_RETURN_STATEMENT (option_map unmarked expression)
  | AST_ARRAY_LITERAL elements count => AST_ARRAY_LITERAL (map unmarked elements) count
  | AST_VARIABLE_DECLARATION name type value _ => AST_VARIABLE_DECLARATION name type (unmarked value) false
  | AST_INDEX_EXPRESSION array index => AST_INDEX_EXPRESSION (unmarked array) (unmarked index)
  | AST_MEMBER_EXPRESSION object member => AST_MEMBER_EXPRESSION (unmarked object) member
  | AST_ASSIGNMENT target value => AST_ASSIGNMENT (unmarked target) (unmarked value)
  | AST_BINARY_EXPRESSION lhs rhs operator => AST_BINARY_EXPRESSION (unmarked lhs) (unmarked rhs) operator
  | AST_UNARY_EXPRESSION operand operator => AST_UNARY_EXPRESSION (unmarked operand) operator
  | AST_UNSAFE_BLOCK statements => AST_UNSAFE_BLOCK (map unmarked statements)
  | _ => n
  end.

Definition alike (n' n : ast) : Prop := unmarked n' = unmarked n.
Definition all_alike (ns' ns : list ast) : Prop := map unmarked ns' = map unmarked ns.

(** The children are what the edges of lowering lead to. *)
Lemma edges_forall (Q : VntIrEdgeRole * ast -> Prop) r (ns : list ast) :
  Forall Q (map (pair r) ns) -> Forall (fun n => Q (r, n)) ns.
Proof. induction ns as [|n ns IH]; [done|]. intros [H1 H2]%Forall_cons. constructor; auto. Qed.

Ltac by_edges H :=
  repeat match type of H with
  | Forall _ (_ :: _) => let H1 := fresh H in apply Forall_cons in H as [H1 H]; cbn [fst snd] in H1
  | Forall _ (_ ++ _) => let H1 := fresh H in apply Forall_app in H as [H1 H]; apply edges_forall in H1; cbn [fst snd] in H1
  | Forall _ (map (pair _) _) => apply edges_forall in H; cbn [fst snd] in H
  end.

Lemma map_same {A} (f g : ast -> A) ns : Forall (fun n => f n = g n) ns -> map f ns = map g ns.
Proof. induction 1 as [|n l E _ IH]; [done|]. cbn. by rewrite E, IH. Qed.

Lemma depth_unmarked n : expression_depth (unmarked n) = expression_depth n.
Proof.
  induction n as [n IH] using ast_edges_ind. destruct n; cbn [edges] in IH; try done; by_edges IH; cbn;
    try done; f_equal; rewrite ?map_map; try congruence; f_equal; by apply map_same.
Qed.

Lemma alike_depth n' n : alike n' n -> expression_depth n' = expression_depth n.
Proof. unfold alike. intros E. by rewrite <- (depth_unmarked n'), <- (depth_unmarked n), E. Qed.

(** * Noting an error *)

(** The first error stays. *)
Definition noted (o : option TypeError) (tc : TypeChecker) : TypeChecker :=
  {| symbols := symbols tc; functions := functions tc; structs := structs tc;
     error := match error tc with Some first => Some first | None => o end;
     expected_return := expected_return tc; in_function := in_function tc; scope_depth := scope_depth tc;
     unsafe_depth := unsafe_depth tc; loop_depth := loop_depth tc;
     function_namespace := function_namespace tc |}.

Definition first_of (o1 o2 : option TypeError) : option TypeError :=
  match o1 with Some e => Some e | None => o2 end.

Lemma noted_none tc : noted None tc = tc.
Proof. unfold noted. destruct tc as [? ? ? e]. by destruct e. Qed.

Lemma noted_twice o1 o2 tc : noted o2 (noted o1 tc) =
  noted (first_of o1 o2) tc.
Proof. unfold noted. destruct tc as [? ? ? e]. cbn. f_equal. by destruct e, o1. Qed.

Definition context_of (tc : TypeChecker) : Context :=
  {| cx_functions := functions tc; cx_structs := structs tc;
     cx_return := if in_function tc then Some (expected_return tc) else None;
     cx_depth := scope_depth tc; cx_unsafe := unsafe_depth tc; cx_loop := loop_depth tc;
     cx_namespace := function_namespace tc |}.

(** The names of the parameters are there. *)
Definition sane (cx : Context) : Prop :=
  Forall (fun fn => arity fn <= length (declared_parameters fn)) (cx_functions cx).

(** The checker reaches the end, with nothing changed but the error. *)
Definition notes {A} (m : TC A) (tc : TypeChecker) (Q : option TypeError -> A -> Prop) : Prop :=
  exists a o, m tc = Done (a, noted o tc) /\ Q o a.

Lemma notes_bind {A B} (m : TC A) (k : A -> TC B) tc (Q : option TypeError -> B -> Prop) :
  notes m tc (fun o a => notes (k a) (noted o tc) (fun o' b => Q (first_of o o') b)) ->
  notes (m ≫= k) tc Q.
Proof.
  intros (a & o & E & b & o' & E' & HQ). exists b, (first_of o o').
  split; [|done]. rewrite (bind_done _ _ _ _ _ E), E'. by rewrite noted_twice.
Qed.

Lemma notes_ret {A} (a : A) tc (Q : option TypeError -> A -> Prop) : Q None a -> notes (mret a) tc Q.
Proof. intros HQ. exists a, None. by rewrite noted_none. Qed.

Lemma notes_gets {A} (f : TypeChecker -> A) tc (Q : option TypeError -> A -> Prop) : Q None (f tc) -> notes (gets f) tc Q.
Proof. intros HQ. exists (f tc), None. by rewrite noted_none. Qed.

Lemma notes_fail e tc (Q : option TypeError -> unit -> Prop) : Q (Some e) tt -> notes (fail e) tc Q.
Proof. intros HQ. exists tt, (Some e). split; [|done]. unfold fail, modify, with_error, noted. done. Qed.

Lemma notes_fail_if (b : bool) e tc (Q : option TypeError -> unit -> Prop) :
  Q (if b then Some e else None) tt -> notes (fail_if b e) tc Q.
Proof. destruct b; [apply notes_fail|apply notes_ret]. Qed.

Lemma notes_mono {A} (m : TC A) tc (P Q : option TypeError -> A -> Prop) :
  notes m tc P -> (forall o a, P o a -> Q o a) -> notes m tc Q.
Proof. intros (a & o & E & HP) H. exists a, o. auto. Qed.

(** A result that only counts when there is no error, and the node that is given back
    in any case. *)
Definition notes_value {A} (m : TC A) (tc : TypeChecker) (r : option A) (P : A -> Prop) : Prop :=
  notes m tc (fun o a => P a /\ match r with Some a' => o = None /\ a = a' | None => o <> None end).

Lemma value_bind {A B} (m : TC A) (k : A -> TC B) tc r (r' : option B) P Q :
  notes_value m tc r P ->
  (r = None -> r' = None) ->
  (forall a, r = Some a -> P a -> notes_value (k a) tc r' Q) ->
  (forall a o, P a -> notes (k a) (noted o tc) (fun _ => Q)) ->
  notes_value (m ≫= k) tc r' Q.
Proof.
  intros (a & o & E & HP & Hr) Hnone Hk Ht. destruct r as [a'|].
  - destruct Hr as [-> ->]. rewrite noted_none in E. destruct (Hk a' eq_refl HP) as (b & o' & E' & Hb).
    exists b, o'. by rewrite (bind_done _ _ _ _ _ E).
  - destruct (Ht a o HP) as (b & o' & E' & Hb). exists b, (first_of o o').
    rewrite (bind_done _ _ _ _ _ E), E', noted_twice, Hnone by done. split; [done|]. split; [done|]. by destruct o.
Qed.

(** What is done before or after without an effect on the value. *)
Lemma value_notes {A} (m : TC A) tc r P : notes_value m tc r P -> notes m tc (fun _ => P).
Proof. intros H. eapply notes_mono; [exact H|]. by intros o a [? _]. Qed.

Lemma value_ret {A} (a : A) tc (P : A -> Prop) : P a -> notes_value (mret a) tc (Some a) P.
Proof. intros HP. by apply notes_ret. Qed.

Lemma value_gets {A B} (f : TypeChecker -> A) (k : A -> TC B) tc r P :
  notes_value (k (f tc)) tc r P -> notes_value (gets f ≫= k) tc r P.
Proof. intros (b & o & E & H). exists b, o. by rewrite (bind_done _ _ _ (f tc) tc). Qed.

(** A test: an error when it holds. *)
Lemma value_test {A} (b : bool) e (m : TC A) tc r P :
  (b = true -> r = None) -> (b = false -> notes_value m tc r P) -> notes m (noted (Some e) tc) (fun _ => P) ->
  notes_value (fail_if b e ≫= fun _ => m) tc r P.
Proof.
  intros Hnone Hm Hn. destruct b; [|by apply Hm].
  destruct Hn as (a & o & E & HP). exists a, (Some e). rewrite Hnone by done. cbn [fail_if]. split; [|done].
  rewrite (bind_done _ _ tc tt (noted (Some e) tc)) by done. by rewrite E, noted_twice.
Qed.

Lemma value_fail {A} e (a : A) tc (P : A -> Prop) : P a -> notes_value (fail e ≫= fun _ => mret a) tc None P.
Proof. intros HP. exists a, (Some e). done. Qed.

Lemma sane_noted o tc : sane (context_of tc) -> sane (context_of (noted o tc)).
Proof. done. Qed.

#[export] Hint Resolve sane_noted : vnt.

(** One step of a computation that only notes errors. *)
Ltac notes_step :=
  match goal with
  | |- notes (_ ≫= _) _ _ => apply notes_bind
  | |- notes (mret _) _ _ => apply notes_ret
  | |- notes (gets _) _ _ => apply notes_gets
  | |- notes (fail _) _ _ => apply notes_fail
  | |- notes (fail_if _ _) _ _ => apply notes_fail_if
  | |- notes (if ?b then _ else _) _ _ => destruct b
  | |- notes (let (_, _) := ?p in _) _ _ => destruct p as [? ?]
  end; cbv beta.

(** Code that only reads. *)
Lemma notes_run {A} (m : TC A) tc a (Q : option TypeError -> A -> Prop) : m tc = Done (a, tc) -> Q None a -> notes m tc Q.
Proof. intros E HQ. exists a, None. by rewrite noted_none. Qed.

Lemma value_run {A B} (m : TC A) (k : A -> TC B) tc a r P :
  m tc = Done (a, tc) -> notes_value (k a) tc r P -> notes_value (m ≫= k) tc r P.
Proof. intros E (b & o & E' & H). exists b, o. by rewrite (bind_done _ _ _ _ _ E). Qed.

Lemma is_struct_run name tc : is_struct name tc = Done (has_struct (context_of tc) name, tc).
Proof. done. Qed.

Lemma find_function_run name tc : find_function name tc = Done (lookup_function (context_of tc) name, tc).
Proof. done. Qed.

Lemma lookup_function_sane cx name fn : sane cx -> lookup_function cx name = Some fn ->
  arity fn <= length (declared_parameters fn).
Proof.
  intros Hs E. apply find_some in E as [Hin _]. unfold sane in Hs. rewrite Forall_forall in Hs.
  by apply Hs, list_elem_of_In.
Qed.

Lemma last_index_some x l : forall i j, last_index x l i = Some j -> i <= j /\ is_Some (l !! (j - i)).
Proof.
  induction l as [|s l IH]; intros i j; cbn; [done|].
  destruct (last_index x l (S i)) as [k|] eqn:E.
  - intros [= <-]. apply IH in E as [H1 H2]. split; [lia|]. by replace (k - i) with (S (k - S i)) by lia.
  - destruct (bytes_eqb _ _); [|done]. intros [= <-]. by rewrite Nat.sub_diag.
Qed.

Lemma last_index_lookup x G i : last_index x G 0 = Some i -> exists s, G !! i = Some s.
Proof. intros E. apply last_index_some in E as [_ [s Hs]]. rewrite Nat.sub_0_r in Hs. by exists s. Qed.

Definition type_in (G : list Symbol) (x : bytes) : TypeKind :=
  match lookup_symbol G x with Some s => symbol_type s | None => TY_UNDECLARED end.

Lemma find_symbol_run x tc : find_symbol x tc = Done (type_in (symbols tc) x, tc).
Proof.
  unfold find_symbol, type_in, lookup_symbol, find_symbol_index.
  rewrite (bind_done _ _ _ (last_index x (symbols tc) 0) tc) by done.
  destruct (last_index x (symbols tc) 0) as [i|] eqn:E; [|done]. destruct (last_index_lookup _ _ _ E) as [s Hs].
  rewrite (bind_done _ _ tc s tc) by (unfold symbol_at; by rewrite Hs). cbn. by rewrite Hs.
Qed.

(** * Expressions *)

Section expressions.
Context (rec : ast -> TC (TypeKind * ast)) (d : nat).

(** What the recursive calls do. *)
Hypothesis Hrec : forall n tc, expression_depth n <= d -> sane (context_of tc) ->
  notes (rec n) tc (fun _ v => alike v.2 n).

Lemma no_void_notes e ns tc : Forall (fun n => expression_depth n <= d) ns -> sane (context_of tc) ->
  notes (no_void rec e ns) tc (fun _ ns' => all_alike ns' ns).
Proof.
  intros H. revert tc. induction H as [|n ns Hn _ IH]; intros tc Hs; cbn; [by apply notes_ret|].
  apply notes_bind. eapply notes_mono; [by apply Hrec|]. cbn. intros o [t n'] Ha.
  repeat notes_step. eapply notes_mono; [by apply IH|]. cbn. intros o' ns' Hns. apply notes_ret.
  unfold all_alike, alike in *. cbn in *. congruence.
Qed.

Lemma string_index_notes n tc : expression_depth n <= S d -> sane (context_of tc) ->
  notes (is_string_index_expr rec n) tc (fun _ v => alike v.2 n).
Proof.
  intros Hn Hs. unfold is_string_index_expr. destruct n; try (by apply notes_ret). cbn in Hn.
  apply notes_bind. eapply notes_mono; [apply Hrec; [lia|done]|]. cbn. intros o [t a] Ha. apply notes_ret.
  unfold alike in *. cbn in *. congruence.
Qed.

Lemma string_index_when_notes b n tc : expression_depth n <= S d -> sane (context_of tc) ->
  notes (is_string_index_when rec b n) tc (fun _ v => alike v.2 n).
Proof. intros Hn Hs. unfold is_string_index_when. destruct b; [by apply string_index_notes|by apply notes_ret]. Qed.

Lemma alike_trans n1 n2 n3 : alike n1 n2 -> alike n2 n3 -> alike n1 n3.
Proof. unfold alike. congruence. Qed.

Lemma check_argument_notes fn name i type arg tc : expression_depth arg <= d -> sane (context_of tc) ->
  i < length (declared_parameters fn) -> notes (check_argument rec fn name i type arg) tc (fun _ arg' => alike arg' arg).
Proof.
  intros Ha Hs Hi. unfold check_argument. apply notes_bind. eapply notes_mono; [by apply Hrec|]. cbn. intros o [t arg'] Harg.
  repeat notes_step; try done. eapply notes_mono.
  { apply string_index_when_notes; [rewrite (alike_depth arg' arg) by done; lia|done]. }
  cbn. intros o' [c arg''] Harg'. pose proof (alike_trans _ _ _ Harg' Harg) as Hall. destruct c; [by apply notes_ret|].
  destruct (lookup_lt_is_Some_2 (declared_parameters fn) i Hi) as [p ->]. by repeat notes_step.
Qed.

Lemma check_arguments_notes fn name argc args : argc <= length (declared_parameters fn) ->
  Forall (fun n => expression_depth n <= d) args -> forall i tc, sane (context_of tc) ->
  notes (check_arguments rec fn name argc i args) tc (fun _ args' => all_alike args' args).
Proof.
  intros Hargc. induction 1 as [|arg args Ha _ IH]; intros i tc Hs; cbn; [by apply notes_ret|].
  destruct (argc <=? i) eqn:Hi; [by apply notes_ret|]. apply Nat.leb_gt in Hi. apply notes_bind.
  assert (notes match declared_types fn !! i with Some (Some type) => check_argument rec fn name i type arg | _ => mret arg end
    tc (fun _ arg' => alike arg' arg)) as Harg.
  { destruct (declared_types fn !! i) as [[type|]|]; try (by apply notes_ret). apply check_argument_notes; [done|done|lia]. }
  eapply notes_mono; [exact Harg|]. cbn. intros o arg' Ha'. apply notes_bind.
  eapply notes_mono; [by apply IH|]. cbn. intros o' args' Hargs. apply notes_ret. unfold all_alike, alike in *. cbn in *. congruence.
Qed.

Lemma all_alike_depth ns' ns : all_alike ns' ns ->
  Forall (fun n => expression_depth n <= d) ns -> Forall (fun n => expression_depth n <= d) ns'.
Proof.
  unfold all_alike. revert ns. induction ns' as [|n' ns' IH]; intros [|n ns]; try done. intros [= E1 E2] [H1 H2]%Forall_cons.
  constructor; [by rewrite (alike_depth n' n)|by eapply IH].
Qed.

Lemma all_alike_trans n1 n2 n3 : all_alike n1 n2 -> all_alike n2 n3 -> all_alike n1 n3.
Proof. unfold all_alike. congruence. Qed.

Lemma check_call_notes name args argc tc : Forall (fun n => expression_depth n <= d) args -> sane (context_of tc) ->
  notes (check_call rec name args argc) tc (fun _ args' => all_alike args' args).
Proof.
  intros Hd Hs. unfold check_call. apply notes_bind. eapply notes_mono; [by apply no_void_notes|]. cbn. intros o args' Ha.
  apply notes_bind. eapply notes_run; [apply is_struct_run|].
  destruct (builtin_arity name argc); [by repeat notes_step|]. notes_step; [by repeat notes_step|].
  apply notes_bind. eapply notes_run; [apply find_function_run|].
  destruct (lookup_function _ name) as [fn|] eqn:E; [|by repeat notes_step].
  destruct (arity fn =? argc) eqn:Harity; cbn [negb]; [|by repeat notes_step].
  apply Nat.eqb_eq in Harity. apply lookup_function_sane in E; [|done].
  eapply notes_mono; [apply check_arguments_notes; [lia|by eapply all_alike_depth|done]|].
  intros o' args'' Ha'. exact (all_alike_trans _ _ _ Ha' Ha).
Qed.

Lemma call_result_run name tc : call_result name tc = Done (result_of (context_of tc) name, tc).
Proof.
  unfold call_result, result_of. destruct (builtin_result name); [done|].
  rewrite (bind_done _ _ _ _ _ (is_struct_run name tc)). destruct (has_struct _ name); [done|].
  by rewrite (bind_done _ _ _ _ _ (find_function_run name tc)).
Qed.

Lemma resolve_run name argc tc : resolve_function_call name argc tc = Done (resolved (context_of tc) name argc, tc).
Proof.
  unfold resolve_function_call, resolved. rewrite (bind_done _ _ _ _ _ (is_struct_run name tc)).
  rewrite (bind_done _ _ _ (function_namespace tc) tc) by done. cbn [cx_namespace context_of].
  destruct (function_namespace tc) as [ns|]; [|by rewrite (bind_done _ _ _ _ _ (find_function_run name tc))].
  destruct (_ || _); [by rewrite (bind_done _ _ _ _ _ (find_function_run name tc))|].
  rewrite (bind_done _ _ _ _ _ (find_function_run _ tc)). cbn [context_of].
  destruct (lookup_function _ (ns ++ _)); [done|]. by rewrite (bind_done _ _ _ _ _ (find_function_run name tc)).
Qed.

Lemma maximum_le l n : maximum l <= n <-> Forall (fun x => x <= n) l.
Proof.
  induction l as [|x l IH]; cbn; [split; [by constructor|lia]|]. rewrite Forall_cons, <- IH. apply Nat.max_lub_iff.
Qed.

Lemma children_depth ns : maximum (map expression_depth ns) <= d -> Forall (fun n => expression_depth n <= d) ns.
Proof. intros H%maximum_le. by apply Forall_map in H. Qed.

Lemma call_type_notes name args argc tc : Forall (fun n => expression_depth n <= d) args -> sane (context_of tc) ->
  notes (call_type rec name args argc) tc (fun _ v => alike v.2 (AST_FUNCTION_CALL name args argc)).
Proof.
  intros Hd Hs. unfold call_type. apply notes_bind. eapply notes_run; [apply resolve_run|].
  destruct (resolved _ name argc) as [called full]. repeat notes_step.
  eapply notes_mono; [apply check_call_notes; [done|by auto with vnt]|]. cbn. intros o args' Ha.
  apply notes_bind. eapply notes_run; [apply is_struct_run|]. repeat notes_step.
  eapply notes_run; [apply call_result_run|]. repeat notes_step. unfold alike, all_alike in *. cbn. by rewrite Ha.
Qed.

Lemma equality_notes l r lhs rhs tc : expression_depth lhs <= d -> expression_depth rhs <= d -> sane (context_of tc) ->
  notes (equality_type rec l r lhs rhs) tc (fun _ v => alike v.1 lhs /\ alike v.2 rhs).
Proof.
  intros Hl Hr Hs. unfold equality_type. apply notes_bind.
  eapply notes_mono; [apply string_index_when_notes; [lia|done]|]. cbn. intros o [c lhs'] Ha.
  assert (notes (if c then mret (true, rhs) else
    is_string_index_when rec (type_eqb l TY_INT && type_eqb r TY_STRING) rhs) (noted o tc) (fun _ v => alike v.2 rhs)) as H.
  { destruct c; [by apply notes_ret|]. apply string_index_when_notes; [lia|by auto with vnt]. }
  apply notes_bind. eapply notes_mono; [exact H|]. cbn. intros o' [c' rhs'] Hb. by repeat notes_step.
Qed.

Lemma arithmetic_notes l r op tc : notes (arithmetic_type l r op) tc (fun _ _ => True).
Proof. unfold arithmetic_type. by repeat notes_step. Qed.

Lemma binary_rest_notes l r a b lhs rhs op tc : expression_depth lhs <= d -> expression_depth rhs <= d ->
  alike a lhs -> alike b rhs -> sane (context_of tc) ->
  notes (binary_result_type rec l r a b op) tc (fun _ v => alike v.2 (AST_BINARY_EXPRESSION lhs rhs op)).
Proof.
  intros Hl Hr Ha Hb Hs. unfold binary_result_type.
  assert (forall a' b', alike a' a -> alike b' b ->
    alike (AST_BINARY_EXPRESSION a' b' op) (AST_BINARY_EXPRESSION lhs rhs op)) as Hall
    by (unfold alike in *; cbn in *; congruence).
  assert (alike (AST_BINARY_EXPRESSION a b op) (AST_BINARY_EXPRESSION lhs rhs op)) as Hsame by by apply Hall.
  repeat notes_step; try done.
  - eapply notes_mono.
    { apply equality_notes; [by rewrite (alike_depth a lhs)|by rewrite (alike_depth b rhs)|by auto with vnt]. }
    cbn. intros o1 [a' b'] [Ha' Hb']. apply notes_ret. by apply Hall.
  - eapply notes_mono; [apply arithmetic_notes|]. cbn. intros o1 t1 _. by apply notes_ret.
Qed.

Lemma binary_right_notes l a lhs rhs op tc : expression_depth lhs <= d -> expression_depth rhs <= d ->
  alike a lhs -> sane (context_of tc) ->
  notes ('(r, b) ← rec rhs; binary_result_type rec l r a b op) tc (fun _ v => alike v.2 (AST_BINARY_EXPRESSION lhs rhs op)).
Proof.
  intros Hl Hr Ha Hs. apply notes_bind. eapply notes_mono; [by apply Hrec|]. cbn. intros o [t b] Hb.
  apply binary_rest_notes; auto with vnt.
Qed.

Lemma binary_notes lhs rhs op tc : expression_depth lhs <= d -> expression_depth rhs <= d -> sane (context_of tc) ->
  notes (binary_type rec lhs rhs op) tc (fun _ v => alike v.2 (AST_BINARY_EXPRESSION lhs rhs op)).
Proof.
  intros Hl Hr Hs. unfold binary_type. apply notes_bind. eapply notes_mono; [by apply Hrec|]. cbn. intros o [t a] Ha.
  apply binary_right_notes; auto with vnt.
Qed.

Lemma expr_body_notes n tc : expression_depth n <= S d -> sane (context_of tc) ->
  notes (expr_type_body rec n) tc (fun _ v => alike v.2 n).
Proof.
  intros Hn Hs. destruct n; cbn [expr_type_body]; try (by apply notes_ret); cbn in Hn; apply le_S_n in Hn.
  - apply call_type_notes; [by apply children_depth|done].
  - apply notes_bind. eapply notes_mono; [apply no_void_notes; [by apply children_depth|done]|]. cbn. intros o es He.
    repeat notes_step. unfold alike, all_alike in *. cbn. by rewrite He.
  - unfold variable_type. apply notes_bind. eapply notes_run; [apply find_symbol_run|]. by repeat notes_step.
  - unfold index_type. apply notes_bind. eapply notes_mono; [apply Hrec; [lia|done]|]. cbn. intros o [t a] Ha.
    apply notes_bind. eapply notes_mono; [apply Hrec; [lia|by auto with vnt]|]. cbn. intros o' [t' i] Hi.
    repeat notes_step. unfold alike in *. cbn in *. congruence.
  - apply notes_bind. eapply notes_mono; [apply Hrec; [lia|done]|]. cbn. intros o [t a] Ha.
    repeat notes_step. unfold alike in *. cbn in *. congruence.
  - apply binary_notes; [lia|lia|done].
  - unfold unary_type. apply notes_bind. eapply notes_mono; [apply Hrec; [lia|done]|]. cbn. intros o [t a] Ha.
    assert (alike (AST_UNARY_EXPRESSION a operator) (AST_UNARY_EXPRESSION n operator)) as H
      by (unfold alike in *; cbn in *; congruence).
    notes_step; [by repeat notes_step|]. destruct operator; by repeat notes_step.
Qed.
End expressions.

Lemma expr_type_notes fuel n tc : expression_depth n <= fuel -> sane (context_of tc) ->
  notes (expr_type_in fuel n) tc (fun _ v => alike v.2 n).
Proof.
  revert n tc. induction fuel as [|fuel IH]; intros n tc Hn Hs; [by destruct n; cbn in Hn; lia|].
  by apply (expr_body_notes _ fuel).
Qed.
