(* ===== verification/TypeCheckExpr.v ===== *)
(** TypeCheckExpr: expr_type computes the type and the full form of the type system. *)

From S2P Require Import Prelude Clib Ast Ir IrTrees IrLower IrAccess TypeNames TypeCheck TypeSystem TypeCheckFacts.

Section again.
Context (cx : Context) (G : list Symbol).

(** A full form has the same type, and is its own full form. *)
Definition settled (v : TypeKind * ast) : Prop := type_of cx G v.2 = Some v.

Lemma collect_forall {A B} (f : A -> option B) (P : B -> Prop) l vs :
  Forall (fun a => forall b, f a = Some b -> P b) l -> collect (map f l) = Some vs -> Forall P vs.
Proof.
  intros H. revert vs. induction H as [|a l Ha _ IH]; intros vs; cbn; [intros [= <-]; constructor|].
  destruct (f a) as [b|]; [|done]. cbn. destruct (collect _) as [l'|]; [|done]. intros [= <-].
  constructor; [by apply Ha|by apply IH].
Qed.

Lemma collect_settled vs : Forall settled vs -> collect (map (type_of cx G) (map snd vs)) = Some vs.
Proof. induction 1 as [|v vs Hv _ IH]; [done|]. cbn. unfold settled in Hv. rewrite Hv. cbn. by rewrite IH. Qed.

Lemma separator_app ns name : is_Some (separator (ns ++ str "__" ++ name)).
Proof.
  induction ns as [|c ns IH]; [by eexists|]. cbn [app separator].
  destruct (ns ++ str "__" ++ name) as [|c' l] eqn:E; [by destruct ns|].
  destruct (_ && _); [by eexists|]. destruct IH as [n ->]. by eexists.
Qed.

Lemma resolved_again name argc : resolved cx (resolved cx name argc).2 argc = resolved cx name argc.
Proof.
  unfold resolved. destruct (cx_namespace cx) as [ns|] eqn:En; [|done].
  destruct (bool_decide (is_Some (builtin_arity name argc)) || has_struct cx name ||
    bool_decide (is_Some (separator name))) eqn:E; cbn [snd]; [by rewrite E|].
  destruct (lookup_function cx (ns ++ str "__" ++ name)) as [fn|] eqn:Ef; cbn [snd]; [|by rewrite E, Ef].
  rewrite (bool_decide_eq_true_2 (is_Some (separator _))) by apply separator_app. by rewrite orb_true_r, Ef.
Qed.

Lemma type_of_again n : forall v, type_of cx G n = Some v -> settled v.
Proof.
  unfold settled. induction n as [n IH] using ast_edges_ind. intros v.
  destruct n; cbn [type_of edges] in *; try (by intros [= <-]); by_edges IH.
  - destruct (collect _) as [vs|] eqn:E; [|done]. cbn.
    destruct (allowed _ _ _ && _ && _) eqn:Hok; [|done]. intros [= <-]. cbn [snd type_of].
    rewrite collect_settled by (by eapply collect_forall). cbn. by rewrite resolved_again, Hok.
  - destruct (collect _) as [vs|] eqn:E; [|done]. cbn. destruct (forallb _ _) eqn:Hok; [|done].
    intros [= <-]. cbn [snd type_of]. rewrite collect_settled by (by eapply collect_forall). cbn. by rewrite Hok.
  - destruct (lookup_symbol G name) as [s|] eqn:E; [|done]. cbn. destruct (type_eqb _ _) eqn:Ht; [done|].
    intros [= <-]. cbn. rewrite E. cbn. by rewrite Ht.
  - destruct (type_of cx G n1) as [[ta a]|]; [|done]. cbn. destruct (type_of cx G n2) as [[ti i]|]; [|done]. cbn.
    destruct (index_result ta ti) as [t|] eqn:Et; [|done]. intros [= <-]. cbn [snd type_of].
    pose proof (IH0 _ eq_refl) as H1. pose proof (IH1 _ eq_refl) as H2. cbn [snd] in H1, H2. rewrite H1. cbn.
    rewrite H2. cbn. by rewrite Et.
  - destruct (type_of cx G n) as [[t o]|]; [|done]. cbn. destruct (type_eqb _ _) eqn:Ht; [done|].
    intros [= <-]. cbn [snd type_of]. pose proof (IH0 _ eq_refl) as H1. cbn [snd] in H1. rewrite H1. cbn. by rewrite Ht.
  - destruct (type_of cx G n1) as [[tl l]|]; [|done]. cbn. destruct (type_of cx G n2) as [[tr r]|]; [|done]. cbn.
    destruct (binary_result _ _ _ _ _) as [t|] eqn:Et; [|done]. intros [= <-]. cbn [snd type_of].
    pose proof (IH0 _ eq_refl) as H1. pose proof (IH1 _ eq_refl) as H2. cbn [snd] in H1, H2. rewrite H1. cbn.
    rewrite H2. cbn. by rewrite Et.
  - destruct (type_of cx G n) as [[t o]|]; [|done]. cbn. destruct (unary_result _ _) as [t'|] eqn:Ht; [|done].
    intros [= <-]. cbn [snd type_of]. pose proof (IH0 _ eq_refl) as H1. cbn [snd] in H1. rewrite H1. cbn. by rewrite Ht.
Qed.

(** An index expression has the type string when what is indexed has. *)
Lemma index_settled t a i : settled (t, AST_INDEX_EXPRESSION a i) ->
  exists ta, type_of cx G a = Some (ta, a) /\ type_eqb ta TY_STRING = type_eqb t TY_STRING.
Proof.
  unfold settled. cbn [snd type_of]. destruct (type_of cx G a) as [[ta a']|] eqn:Ea; [|done]. cbn.
  destruct (type_of cx G i) as [[ti i']|]; [|done]. cbn. destruct (index_result ta ti) as [t'|] eqn:Et; [|done].
  intros [= <- <- <-]. exists ta. split; [done|]. unfold index_result in Et. destruct (_ && _); [|done].
  injection Et as <-. by destruct ta.
Qed.
End again.

(** * One level of the recursion *)

Section exact.
Context (rec : ast -> TC (TypeKind * ast)) (d : nat).

Hypothesis Hnotes : forall n tc, expression_depth n <= d -> sane (context_of tc) ->
  notes (rec n) tc (fun _ v => alike v.2 n).
Hypothesis Hexact : forall n tc, expression_depth n <= d -> sane (context_of tc) ->
  notes_value (rec n) tc (type_of (context_of tc) (symbols tc) n) (fun v => alike v.2 n).

Notation has tc := (type_of (context_of tc) (symbols tc)).
Notation agreed tc := (settled (context_of tc) (symbols tc)).

Lemma no_void_value e ns tc : Forall (fun n => expression_depth n <= d) ns -> sane (context_of tc) ->
  notes_value (no_void rec e ns) tc
    (vs ← collect (map (has tc) ns); if forallb not_void vs then Some (map snd vs) else None)
    (fun ns' => all_alike ns' ns).
Proof.
  intros H Hs. induction H as [|n ns Hn Hns IH]; [by apply value_ret|]. cbn [no_void map collect].
  eapply value_bind; [by apply Hexact| | |].
  - intros E. by rewrite E.
  - intros [t n'] E Ha. rewrite E. cbn [mbind option_bind snd] in *.
    apply value_test.
    + intros Ht. destruct (collect _); cbn; [|done]. unfold not_void at 1. cbn. by rewrite Ht.
    + intros Ht. eapply value_bind; [exact IH| | |].
      * intros E'. destruct (collect _) as [vs|]; cbn in *; [|done]. unfold not_void at 1. cbn. rewrite Ht. cbn.
        by destruct (forallb _ vs).
      * intros ns' E' Hns'. destruct (collect _) as [vs|]; [|done]. cbn in *. unfold not_void at 1. cbn. rewrite Ht. cbn.
        destruct (forallb _ vs); [|done]. injection E' as <-. apply value_ret. unfold all_alike, alike in *. cbn in *. congruence.
      * intros ns' o Hns'. apply notes_ret. unfold all_alike, alike in *. cbn in *. congruence.
    + apply notes_bind. eapply notes_mono; [by apply (no_void_notes rec d Hnotes)|].
      cbn. intros o' ns' Hns'. apply notes_ret. unfold all_alike, alike in *. cbn in *. congruence.
  - intros [t n'] o Ha. cbn in Ha. repeat notes_step. eapply notes_mono; [by apply (no_void_notes rec d Hnotes)|].
    cbn. intros o' ns' Hns'. apply notes_ret. unfold all_alike, alike in *. cbn. congruence.
Qed.

(** ** What was typed before *)

Lemma string_index_value v tc : agreed tc v -> expression_depth v.2 <= S d -> sane (context_of tc) ->
  notes_value (is_string_index_expr rec v.2) tc (Some (is_index v.2 && type_eqb v.1 TY_STRING, v.2)) (fun w => alike w.2 v.2).
Proof.
  destruct v as [t n]. cbn [fst snd]. intros Hv Hd Hs. unfold is_string_index_expr.
  destruct n; cbn [is_index andb]; try (by apply value_ret). cbn in Hd.
  destruct (index_settled _ _ _ _ _ Hv) as (ta & Ea & Et). 
  eapply value_bind; [apply Hexact; [lia|done]|by rewrite Ea| |].
  - intros [t' a]. rewrite Ea. intros [= <- <-] _. rewrite Et. by apply value_ret.
  - intros [t' a] o Ha. apply notes_ret. unfold alike in *. cbn in *. congruence.
Qed.

Lemma string_index_when_value b v tc : agreed tc v -> expression_depth v.2 <= S d -> sane (context_of tc) ->
  notes_value (is_string_index_when rec b v.2) tc (Some (b && is_index v.2 && type_eqb v.1 TY_STRING, v.2))
    (fun w => alike w.2 v.2).
Proof.
  intros Hv Hd Hs. unfold is_string_index_when. destruct b; [by apply string_index_value|by apply value_ret].
Qed.

Lemma check_argument_value fn name i type v tc : agreed tc v -> expression_depth v.2 <= d -> sane (context_of tc) ->
  i < length (declared_parameters fn) ->
  notes_value (check_argument rec fn name i type v.2) tc (if accepts type v then Some v.2 else None) (fun arg => alike arg v.2).
Proof.
  intros Hv Hd Hs Hi. unfold check_argument, accepts.
  eapply value_bind; [by apply Hexact| | |].
  - intros E. unfold settled in Hv. congruence.
  - intros w E _. unfold settled in Hv. rewrite Hv in E. injection E as <-. destruct v as [t n]. cbn [fst snd] in *.
    destruct (type_eqb (type_from_name type) TY_UNDECLARED); cbn [negb orb andb]; [by apply value_fail|].
    destruct (type_eqb (type_from_name type) TY_VOID); cbn [negb orb andb]; [by apply value_fail|].
    destruct (type_compatible _ t); cbn [orb]; [by apply value_ret|].
    eapply value_bind; [apply (string_index_when_value _ (t, n)); [done|cbn; lia|done]|done| |].
    + intros [c arg] [= <- <-] _. cbn [fst snd].
      destruct (type_eqb (type_from_name type) TY_INT), (type_eqb t TY_STRING), (is_index n); cbn [andb];
        try (by apply value_ret); destruct (lookup_lt_is_Some_2 (declared_parameters fn) i Hi) as [p ->]; by apply value_fail.
    + intros [c arg] o Ha. cbn in Ha. destruct c; [by apply notes_ret|].
      destruct (lookup_lt_is_Some_2 (declared_parameters fn) i Hi) as [p ->]. by repeat notes_step.
  - intros [t n] o Ha. cbn [snd] in *. repeat notes_step; try done.
    eapply notes_mono; [apply (string_index_when_notes rec d Hnotes); [rewrite (alike_depth n v.2) by done; lia|done]|].
    cbn. intros o' [c arg] Harg. pose proof (alike_trans _ _ _ Harg Ha) as Hall. destruct c; [by apply notes_ret|].
    destruct (lookup_lt_is_Some_2 (declared_parameters fn) i Hi) as [p ->]. by repeat notes_step.
Qed.

Lemma check_arguments_value fn name argc tc vs : argc <= length (declared_parameters fn) -> sane (context_of tc) ->
  Forall (agreed tc) vs -> Forall (fun v => expression_depth v.2 <= d) vs -> forall i,
  notes_value (check_arguments rec fn name argc i (map snd vs)) tc
    (if accepts_all fn i (take (argc - i) vs) then Some (map snd vs) else None) (fun args => all_alike args (map snd vs)).
Proof.
  intros Hargc Hs Hvs. induction Hvs as [|v vs Hv _ IH]; intros Hd i; [rewrite take_nil; by apply value_ret|].
  apply Forall_cons in Hd as [Hdv Hd]. specialize (IH Hd (S i)). cbn [map check_arguments].
  destruct (argc <=? i) eqn:Hi.
  { apply Nat.leb_le in Hi. replace (argc - i) with 0 by lia. by apply value_ret. }
  apply Nat.leb_gt in Hi. replace (argc - i) with (S (argc - S i)) by lia. cbn [take accepts_all].
  assert (notes_value match declared_types fn !! i with
    | Some (Some type) => check_argument rec fn name i type v.2 | _ => mret v.2 end tc
    (if match declared_types fn !! i with Some (Some type) => accepts type v | _ => true end then Some v.2 else None)
    (fun arg => alike arg v.2)) as Harg.
  { destruct (declared_types fn !! i) as [[type|]|]; try (by apply value_ret). apply check_argument_value; [done..|lia]. }
  set (ok := match declared_types fn !! i with Some (Some type) => accepts type v | _ => true end) in *.
  eapply value_bind; [exact Harg| | |].
  - by destruct ok.
  - intros arg E Ha. destruct ok; [|done]. injection E as <-. cbn [andb].
    eapply value_bind; [exact IH| | |].
    + by destruct (accepts_all _ _ _).
    + intros args E' Hargs. destruct (accepts_all _ _ _); [|done]. injection E' as <-. by apply value_ret.
    + intros args o Hargs. apply notes_ret. unfold all_alike in *. cbn. by rewrite Hargs.
  - intros arg o Ha. apply notes_bind.
    eapply notes_mono; [apply (check_arguments_notes rec d Hnotes); [done|by apply Forall_map|done]|].
    cbn. intros o' args Hargs. apply notes_ret. unfold all_alike, alike in *. cbn. congruence.
Qed.

(** The arguments and the types they have. *)
Lemma collect_depth ns vs tc : Forall (fun n => expression_depth n <= d) ns -> sane (context_of tc) ->
  collect (map (has tc) ns) = Some vs ->
  Forall (fun v => expression_depth v.2 <= d) vs /\ all_alike (map snd vs) ns.
Proof.
  intros H Hs. revert vs. induction H as [|n ns Hn _ IH]; intros vs; cbn; [intros [= <-]; by split|].
  pose proof (Hexact n tc Hn Hs) as (a & o & _ & Ha & Hr). destruct (has tc n) as [v|]; [|done].
  destruct Hr as [_ ->]. cbn. destruct (collect _) as [vs'|]; [|done]. intros [= <-]. destruct (IH _ eq_refl) as [H1 H2].
  split; [constructor; [by rewrite (alike_depth v.2 n)|done]|]. unfold all_alike, alike in *. cbn. congruence.
Qed.

(** The part of check_call after the first look at the arguments. *)
Lemma check_call_value name args argc tc : Forall (fun n => expression_depth n <= d) args -> sane (context_of tc) ->
  notes_value (check_call rec name args argc) tc
    (vs ← collect (map (has tc) args);
     if forallb not_void vs && match builtin_arity name argc with
        | Some accepted => accepted
        | None => signature (context_of tc) name argc vs
        end then Some (map snd vs) else None)
    (fun args' => all_alike args' args).
Proof.
  intros Hd Hs. unfold check_call. eapply value_bind; [by apply no_void_value| | |].
  - destruct (collect _) as [vs|]; [|done]. cbn. by destruct (forallb _ vs).
  - intros args' E Ha. destruct (collect _) as [vs|] eqn:Evs; [|done]. cbn in *.
    destruct (forallb _ vs); [|done]. injection E as <-. cbn [andb].
    destruct (collect_depth _ _ _ Hd Hs Evs) as [Hvd _].
    assert (Forall (agreed tc) vs) as Hvs.
    { eapply collect_forall; [|exact Evs]. apply Forall_true. intros n v. apply type_of_again. }
    eapply value_run; [apply is_struct_run|]. unfold signature. destruct (builtin_arity name argc) as [ok|].
    { eapply value_test; [by destruct ok| |by repeat notes_step]. intros Hok. apply negb_false_iff in Hok as ->. by apply value_ret. }
    destruct (has_struct _ name).
    { eapply value_test; [by destruct (argc =? 0)| |by repeat notes_step].
      intros Hok. apply negb_false_iff in Hok as ->. by apply value_ret. }
    eapply value_run; [apply find_function_run|]. destruct (lookup_function _ name) as [fn|] eqn:Ef; [|by apply value_fail].
    destruct (arity fn =? argc) eqn:Harity; cbn [negb andb]; [|by apply value_fail].
    apply Nat.eqb_eq in Harity. apply lookup_function_sane in Ef; [|done].
    pose proof (check_arguments_value fn name argc tc vs ltac:(lia) Hs Hvs Hvd 0) as Hc. rewrite Nat.sub_0_r in Hc.
    destruct Hc as (a & o & E & Ha' & Hr). exists a, o. split; [done|]. split; [by eapply all_alike_trans|done].
  - intros args' o Ha. cbv beta in Ha. apply notes_bind. eapply notes_run; [apply is_struct_run|].
    destruct (builtin_arity name argc); [by repeat notes_step|]. notes_step; [by repeat notes_step|].
    apply notes_bind. eapply notes_run; [apply find_function_run|].
    destruct (lookup_function _ name) as [fn|] eqn:Ef; [|by repeat notes_step].
    destruct (arity fn =? argc) eqn:Harity; cbn [negb]; [|by repeat notes_step].
    apply Nat.eqb_eq in Harity. apply lookup_function_sane in Ef; [|done].
    eapply notes_mono; [apply (check_arguments_notes rec d Hnotes); [lia|by eapply all_alike_depth|done]|].
    intros o' args'' Ha'. exact (all_alike_trans _ _ _ Ha' Ha).
Qed.

Lemma call_type_value name args argc tc : Forall (fun n => expression_depth n <= d) args -> sane (context_of tc) ->
  notes_value (call_type rec name args argc) tc (has tc (AST_FUNCTION_CALL name args argc))
    (fun v => alike v.2 (AST_FUNCTION_CALL name args argc)).
Proof.
  intros Hd Hs. unfold call_type. cbn [type_of]. eapply value_run; [apply resolve_run|].
  destruct (resolved (context_of tc) name argc) as [called full]. cbn [fst snd]. apply value_gets.
  set (cx := context_of tc). change (0 <? unsafe_depth tc) with (0 <? cx_unsafe cx).
  set (unsafe := 0 <? cx_unsafe cx).
  assert (forall tc', sane (context_of tc') -> notes (args ← check_call rec full args argc;
    struct ← is_struct full; _ ← fail_if (struct && negb (argc =? 0)) StructArguments;
    type ← call_result full; mret (type, AST_FUNCTION_CALL full args argc)) tc'
    (fun _ v => alike v.2 (AST_FUNCTION_CALL name args argc))) as Hrest.
  { intros tc' Hs'. apply notes_bind. eapply notes_mono; [by apply (check_call_notes rec d Hnotes)|]. cbn. intros o args' Ha.
    apply notes_bind. eapply notes_run; [apply is_struct_run|]. repeat notes_step.
    eapply notes_run; [apply call_result_run|]. repeat notes_step. unfold alike, all_alike in *. cbn. by rewrite Ha. }
  set (uncalled := match called with Some fn => declared_unsafe fn | None => false end).
  assert (allowed cx called full = unsafe || negb uncalled && negb (is_unsafe_only full)) as Hallowed by done.
  assert (match called with Some fn => declared_unsafe fn && negb unsafe | None => false end = uncalled && negb unsafe) as -> by by destruct called.
  apply value_test.
  { intros [Hu Hn]%andb_true_iff. rewrite Hallowed, Hu. apply negb_true_iff in Hn as ->. by destruct (collect _). }
  2:{ apply notes_bind, notes_fail_if. by apply Hrest. }
  intros H1. apply value_test.
  { intros [Hu Hn]%andb_true_iff. rewrite Hallowed, Hu. apply negb_true_iff in Hn as ->. rewrite andb_false_r. by destruct (collect _). }
  2:{ by apply Hrest. }
  intros H2. assert (allowed cx called full = true) as ->.
  { rewrite Hallowed. destruct unsafe; [done|]. rewrite andb_true_r in H1, H2. by rewrite H1, H2. }
  eapply value_bind; [by apply check_call_value| | |].
  - destruct (collect _) as [vs|]; [|done]. cbn. destruct (forallb _ vs); [|done]. cbn [andb].
    destruct (signature cx full argc vs) eqn:Esig; [|done]. unfold signature in Esig.
    fold cx. destruct (builtin_arity full argc) as [[]|] eqn:Eb; [done|done|].
    unfold signature. rewrite Eb. by rewrite Esig.
  - intros args' E Ha. destruct (collect _) as [vs|]; [|done]. cbn in *.
    destruct (forallb _ vs); [|done]. cbn [andb] in *. eapply value_run; [apply is_struct_run|]. fold cx. fold cx in E.
    destruct (match builtin_arity full argc with Some ok => ok | None => signature cx full argc vs end) eqn:Hok; [|done].
    injection E as <-. eapply value_test; [| |].
    + intros Hst. unfold signature. destruct (builtin_arity full argc); [by rewrite Hst, andb_false_r|].
      apply andb_true_iff in Hst as [-> Hz]. apply negb_true_iff in Hz. by rewrite Hz.
    + intros Hst. assert (signature cx full argc vs = true) as ->.
      { unfold signature in *. destruct (builtin_arity full argc) as [ok|]; [by rewrite Hok, Hst|done]. }
      eapply value_run; [apply call_result_run|]. apply value_ret. unfold alike, all_alike in *. cbn. by rewrite Ha.
    + apply notes_bind. eapply notes_run; [apply call_result_run|]. repeat notes_step. unfold alike, all_alike in *. cbn. by rewrite Ha.
  - intros args' o Ha. apply notes_bind. eapply notes_run; [apply is_struct_run|]. repeat notes_step.
    eapply notes_run; [apply call_result_run|]. repeat notes_step. unfold alike, all_alike in *. cbn. by rewrite Ha.
Qed.

Lemma type_eqb_spec a b : type_eqb a b = true <-> a = b.
Proof. apply bool_decide_eq_true. Qed.

Lemma index_value array index tc : expression_depth array <= d -> expression_depth index <= d -> sane (context_of tc) ->
  notes_value (index_type rec array index) tc (has tc (AST_INDEX_EXPRESSION array index))
    (fun v => alike v.2 (AST_INDEX_EXPRESSION array index)).
Proof.
  intros Ha Hi Hs. unfold index_type. cbn [type_of]. eapply value_bind; [by apply Hexact|by intros ->| |].
  - intros [ta a] -> Haa. cbn [mbind option_bind snd] in *. eapply value_bind; [by apply Hexact|by intros ->| |].
    + intros [ti i] -> Hii. cbn [mbind option_bind snd] in *.
      assert (alike (AST_INDEX_EXPRESSION a i) (AST_INDEX_EXPRESSION array index)) as Hall
        by (unfold alike in *; cbn in *; congruence).
      apply value_test; [by destruct ti| |by repeat notes_step]. intros Hti.
      apply value_test; [by destruct ta, ti| |by repeat notes_step]. intros Hta.
      assert (index_result ta ti = Some (if type_eqb ta TY_STRING then TY_STRING else TY_UNKNOWN)) as ->
        by (by destruct ta, ti). by apply value_ret.
    + intros [ti i] o Hii. cbn in *. repeat notes_step. unfold alike in *. cbn in *. congruence.
  - intros [ta a] o Haa. cbn in *. apply notes_bind. eapply notes_mono; [apply Hnotes; [done|by auto with vnt]|].
    cbn. intros o' [ti i] Hii. repeat notes_step. unfold alike in *. cbn in *. congruence.
Qed.

Lemma unary_value operand op tc : expression_depth operand <= d -> sane (context_of tc) ->
  notes_value (unary_type rec operand op) tc (has tc (AST_UNARY_EXPRESSION operand op))
    (fun v => alike v.2 (AST_UNARY_EXPRESSION operand op)).
Proof.
  intros Ha Hs. unfold unary_type. cbn [type_of]. eapply value_bind; [by apply Hexact|by intros ->| |].
  - intros [t a] -> Haa. cbn [mbind option_bind snd] in *.
    assert (alike (AST_UNARY_EXPRESSION a op) (AST_UNARY_EXPRESSION operand op)) as Hall
      by (unfold alike in *; cbn in *; congruence).
    destruct (type_eqb t TY_VOID) eqn:Hv; [apply type_eqb_spec in Hv as ->; by apply value_fail|].
    destruct op; try (apply value_test; [by destruct t| |by repeat notes_step]; intros Ht).
    + assert (unary_result UNARY_NOT t = Some TY_BOOL) as -> by by destruct t. by apply value_ret.
    + assert (unary_result UNARY_NEGATE t = Some t) as -> by by destruct t. by apply value_ret.
    + assert (unary_result UNARY_REFERENCE t = Some TY_REFERENCE) as -> by by destruct t. by apply value_ret.
    + assert (unary_result UNARY_DEREFERENCE t = Some TY_UNKNOWN) as -> by by destruct t. by apply value_ret.
  - intros [t a] o Haa. cbn in Haa.
    assert (alike (AST_UNARY_EXPRESSION a op) (AST_UNARY_EXPRESSION operand op)) as Hall
      by (unfold alike in *; cbn in *; congruence).
    notes_step; [by repeat notes_step|]. destruct op; by repeat notes_step.
Qed.

Lemma equality_test l r a b :
  negb (type_eqb l TY_UNKNOWN) && negb (type_eqb r TY_UNKNOWN) && negb (type_eqb l r) && negb (numeric l && numeric r) &&
  negb (type_eqb l TY_STRING && type_eqb r TY_INT && a && type_eqb l TY_STRING ||
        type_eqb l TY_INT && type_eqb r TY_STRING && b && type_eqb r TY_STRING) =
  negb (type_compatible l r || type_eqb l TY_STRING && type_eqb r TY_INT && a || type_eqb l TY_INT && type_eqb r TY_STRING && b).
Proof. by destruct l, r, a, b. Qed.

Lemma equality_value l r tc : agreed tc l -> agreed tc r -> expression_depth l.2 <= d -> expression_depth r.2 <= d ->
  sane (context_of tc) ->
  notes_value (equality_type rec l.1 r.1 l.2 r.2) tc
    (if type_compatible l.1 r.1 || type_eqb l.1 TY_STRING && type_eqb r.1 TY_INT && is_index l.2 ||
        type_eqb l.1 TY_INT && type_eqb r.1 TY_STRING && is_index r.2 then Some (l.2, r.2) else None)
    (fun v => alike v.1 l.2 /\ alike v.2 r.2).
Proof.
  intros Hl Hr Hdl Hdr Hs. unfold equality_type. pose proof (equality_test l.1 r.1 (is_index l.2) (is_index r.2)) as Htest.
  revert Htest. set (c1 := type_eqb l.1 TY_STRING && type_eqb r.1 TY_INT && is_index l.2 && type_eqb l.1 TY_STRING).
  set (ok := type_compatible l.1 r.1 || _ || _). intros Htest.
  eapply value_bind; [apply string_index_when_value; [done|lia|done]|done| |].
  - intros [c lhs] [= <- <-] _. cbn [fst snd]. fold c1.
    assert (notes_value (if c1 then mret (true, r.2) else is_string_index_when rec (type_eqb l.1 TY_INT && type_eqb r.1 TY_STRING) r.2) tc
      (Some (c1 || type_eqb l.1 TY_INT && type_eqb r.1 TY_STRING && is_index r.2 && type_eqb r.1 TY_STRING, r.2)) (fun w => alike w.2 r.2)) as H.
    { destruct c1; [by apply value_ret|]. apply string_index_when_value; [done|lia|done]. }
    eapply value_bind; [exact H|done| |].
    + intros [c rhs] [= <- <-] _. rewrite Htest. apply value_test; [by destruct ok| |by repeat notes_step].
      intros Hok. apply negb_false_iff in Hok as ->. by apply value_ret.
    + intros [c' rhs] o Ha. cbn in Ha. by repeat notes_step.
  - intros [c lhs] o Ha. cbn in Ha.
    assert (notes (if c then mret (true, r.2) else
      is_string_index_when rec (type_eqb l.1 TY_INT && type_eqb r.1 TY_STRING) r.2) (noted o tc) (fun _ v => alike v.2 r.2)) as H.
    { destruct c; [by apply notes_ret|]. apply (string_index_when_notes rec d Hnotes); [lia|by auto with vnt]. }
    apply notes_bind. eapply notes_mono; [exact H|]. cbn. intros o' [c' rhs] Hb. by repeat notes_step.
Qed.

Lemma arithmetic_value l r op tc : is_logical op = false -> is_equality op = false -> is_order op = false ->
  type_eqb l TY_VOID = false -> type_eqb r TY_VOID = false ->
  notes_value (arithmetic_type l r op) tc (binary_result op l r false false) (fun _ => True).
Proof.
  intros H1 H2 H3 Hl Hr. unfold arithmetic_type, binary_result. rewrite H1, H2, H3, Hl, Hr. cbn [orb].
  destruct (bool_decide _ && _); [destruct (concatenates _); [by apply value_ret|by apply value_fail]|].
  destruct (numeric l) eqn:Hnl, (numeric r) eqn:Hnr; cbn [negb orb andb]; try (by apply value_ret);
    (apply value_test; [by destruct l, r| |by repeat notes_step]; intros Hu);
    (assert (type_eqb l TY_UNKNOWN || type_eqb r TY_UNKNOWN = true) as -> by (by destruct l, r)); by apply value_ret.
Qed.

Lemma binary_value lhs rhs op tc : expression_depth lhs <= d -> expression_depth rhs <= d -> sane (context_of tc) ->
  notes_value (binary_type rec lhs rhs op) tc (has tc (AST_BINARY_EXPRESSION lhs rhs op))
    (fun v => alike v.2 (AST_BINARY_EXPRESSION lhs rhs op)).
Proof.
  intros Hl Hr Hs. unfold binary_type. cbn [type_of]. eapply value_bind; [by apply Hexact|by intros ->| |].
  - intros [tl l] El Hal. rewrite El. cbn [mbind option_bind snd] in *. eapply value_bind; [by apply Hexact|by intros ->| |].
    + intros [tr r] Er Har. rewrite Er. cbn [mbind option_bind snd] in *.
      assert (forall l' r', alike l' l -> alike r' r -> alike (AST_BINARY_EXPRESSION l' r' op) (AST_BINARY_EXPRESSION lhs rhs op)) as Hall
        by (unfold alike in *; cbn in *; congruence).
      unfold binary_result_type.
      assert (alike (AST_BINARY_EXPRESSION l r op) (AST_BINARY_EXPRESSION lhs rhs op)) as Hsame by by apply Hall.
      destruct (type_eqb tl TY_VOID || type_eqb tr TY_VOID) eqn:Hv.
      { unfold binary_result. rewrite Hv. by apply value_fail. }
      apply orb_false_iff in Hv as [Hvl Hvr].
      destruct (is_logical op) eqn:Hlog.
      { apply value_test; [| |by repeat notes_step]; unfold binary_result; rewrite Hvl, Hvr, Hlog.
        - by destruct tl, tr.
        - intros Hok. assert (known_or tl TY_BOOL && known_or tr TY_BOOL = true) as -> by (by destruct tl, tr). by apply value_ret. }
      destruct (is_equality op) eqn:Heq.
      { assert (agreed tc (tl, l)) as Hsl by by eapply type_of_again.
        assert (agreed tc (tr, r)) as Hsr by by eapply type_of_again.
        eapply value_bind; [apply (equality_value (tl, l) (tr, r)); cbn [snd]; try done|..].
        - by rewrite (alike_depth l lhs).
        - by rewrite (alike_depth r rhs).
        - cbn [fst snd]. unfold binary_result. rewrite Hvl, Hvr, Hlog, Heq. by destruct (_ || _ || _).
        - intros [l' r'] E [Hl' Hr']. cbn [fst snd] in E. unfold binary_result. rewrite Hvl, Hvr, Hlog, Heq. cbn [orb].
          destruct (_ || _ || _); [|done]. injection E as <- <-. by apply value_ret.
        - intros [l' r'] o [Hl' Hr']. apply notes_ret. by apply Hall. }
      destruct (is_order op) eqn:Hord.
      { apply value_test; [| |by repeat notes_step]; unfold binary_result; rewrite Hvl, Hvr, Hlog, Heq, Hord; cbn [orb].
        - by destruct tl, tr.
        - intros Hok. assert ((numeric tl || type_eqb tl TY_UNKNOWN) && (numeric tr || type_eqb tr TY_UNKNOWN) = true) as ->
            by (by destruct tl, tr). by apply value_ret. }
      assert (binary_result op tl tr (is_index l) (is_index r) = binary_result op tl tr false false) as ->
        by (unfold binary_result; by rewrite Hlog, Heq).
      eapply value_bind; [by apply arithmetic_value|by intros ->| |].
      * intros t -> _. by apply value_ret.
      * intros t o _. by apply notes_ret.
    + intros [tr r] o Har. cbn [snd] in *. by apply (binary_rest_notes rec d Hnotes); auto with vnt.
  - intros [tl l] o Hal. cbn [snd] in *. by apply (binary_right_notes rec d Hnotes); auto with vnt.
Qed.

Lemma variable_value name tc :
  notes_value (variable_type name) tc (has tc (AST_VARIABLE name)) (fun v => alike v.2 (AST_VARIABLE name)).
Proof.
  unfold variable_type. cbn [type_of]. eapply value_run; [apply find_symbol_run|]. unfold type_in.
  destruct (lookup_symbol (symbols tc) name) as [s|] eqn:E; cbn [mbind option_bind]; rewrite ?E.
  - apply value_test; [by intros ->| |by apply notes_ret]. intros ->. by apply value_ret.
  - by apply value_fail.
Qed.

Lemma expr_body_value n tc : expression_depth n <= S d -> sane (context_of tc) ->
  notes_value (expr_type_body rec n) tc (has tc n) (fun v => alike v.2 n).
Proof.
  intros Hn Hs. destruct n; cbn [expr_type_body]; try (by apply value_ret); cbn [expression_depth] in Hn; apply le_S_n in Hn.
  - apply call_type_value; [by apply children_depth|done].
  - cbn [type_of]. eapply value_bind; [apply no_void_value; [by apply children_depth|done]| | |].
    + destruct (collect _) as [vs|]; [|done]. cbn. by destruct (forallb _ vs).
    + intros es E He. destruct (collect _) as [vs|]; [|done]. cbn in *. destruct (forallb _ vs); [|done].
      injection E as <-. apply value_ret. unfold alike, all_alike in *. cbn. by rewrite He.
    + intros es o He. apply notes_ret. unfold alike, all_alike in *. cbn. by rewrite He.
  - apply variable_value.
  - apply index_value; [lia|lia|done].
  - cbn [type_of]. eapply value_bind; [by apply Hexact|by intros ->| |].
    + intros [t o] -> Ha. cbn [mbind option_bind snd] in *. unfold alike in Ha. cbn in Ha.
      apply value_test; [by intros ->| |apply notes_ret; unfold alike; cbn; by rewrite Ha].
      intros ->. apply value_ret. unfold alike. cbn. by rewrite Ha.
    + intros [t o] o' Ha. repeat notes_step. unfold alike in *. cbn in *. by rewrite Ha.
  - apply binary_value; [lia|lia|done].
  - apply unary_value; [lia|done].
Qed.
End exact.

Lemma expr_type_exact fuel n tc : expression_depth n <= fuel -> sane (context_of tc) ->
  notes_value (expr_type_in fuel n) tc (type_of (context_of tc) (symbols tc) n) (fun v => alike v.2 n).
Proof.
  revert n tc. induction fuel as [|fuel IH]; intros n tc Hn Hs; [by destruct n; cbn in Hn; lia|].
  apply (expr_body_value _ fuel); [|done|done|done]. intros n' tc' Hn' Hs'. by apply expr_type_notes.
Qed.

Lemma expr_type_value n tc : sane (context_of tc) ->
  notes_value (expr_type n) tc (type_of (context_of tc) (symbols tc) n) (fun v => alike v.2 n).
Proof. intros Hs. by apply expr_type_exact. Qed.
