(* ===== verification/TypeCheckStmt.v ===== *)
(** TypeCheckStmt: checking statements reaches the end, and leaves the symbols and the
    full forms that the type system gives, or an error when there are none. *)

From stdpp Require Import list.
From S2P Require Import Prelude Clib Ast Ir IrTrees IrLower IrAccess TypeNames TypeCheck.
From S2P Require Import TypeSystem TypeCheckFacts TypeCheckExpr.

(** * Symbols keep their names *)

(** What is never changed of a symbol. *)
Definition identity_of (s : Symbol) : bytes * bool * nat := (symbol_name s, explicit_type s, symbol_depth s).

(** The symbols of [G] are the first ones of [G']. *)
Definition kept (G G' : list Symbol) : Prop := map identity_of G `prefix_of` map identity_of G'.
Definition same_symbols (G G' : list Symbol) : Prop := map identity_of G = map identity_of G'.

#[export] Instance kept_preorder : PreOrder kept.
Proof. split; [intros G; by unfold kept|intros G1 G2 G3; unfold kept; by transitivity (map identity_of G2)]. Qed.

Lemma kept_length G G' : kept G G' -> length G <= length G'.
Proof. intros H%prefix_length. by rewrite !length_map in H. Qed.

Lemma kept_app G l : kept G (G ++ l).
Proof. unfold kept. rewrite map_app. by apply prefix_app_r. Qed.

Lemma same_kept G G' : same_symbols G G' -> kept G G'.
Proof. unfold same_symbols, kept. by intros ->. Qed.

Lemma kept_take G G' : kept G G' -> same_symbols G (take (length G) G').
Proof.
  intros [l E]. unfold same_symbols. rewrite <- firstn_map, E, take_app_le by (by rewrite length_map).
  by rewrite <- (length_map identity_of G), take_ge by done.
Qed.

Lemma same_length G G' : same_symbols G G' -> length G = length G'.
Proof. intros E%(f_equal length). by rewrite !length_map in E. Qed.

Lemma set_kept G i s s' : G !! i = Some s -> identity_of s' = identity_of s -> same_symbols G (<[i := s']> G).
Proof.
  unfold same_symbols. intros H E. revert i H. induction G as [|a G IH]; intros [|i]; cbn; try done.
  - by intros [= ->]; rewrite E.
  - intros H. f_equal. by apply IH.
Qed.

Lemma joined_identity b t e : identity_of (joined b t e) = identity_of e.
Proof. unfold joined, merged. by repeat case_match. Qed.

Lemma zip3_joined G G1 G2 : same_symbols G G1 -> same_symbols G G2 -> same_symbols G (zip3_with joined G G1 G2).
Proof.
  unfold same_symbols. revert G1 G2. induction G as [|s G IH]; intros [|s1 G1] [|s2 G2]; try done.
  intros E1 E2. cbn [map zip3_with] in *. injection E1 as _ _ _ E1. injection E2 as H1 H2 H3 E2.
  rewrite joined_identity, (IH G1 G2) by done. unfold identity_of at 1 3. congruence.
Qed.

(** The states that were saved are put back. *)
Lemma restored_states G G' : same_symbols G G' -> restored (map state_of G) G' = Done G.
Proof.
  unfold same_symbols. revert G'. induction G as [|s G IH]; intros [|s' G']; try done. intros E.
  cbn [map restored] in *. injection E as E1 E2 E3 E4. rewrite IH by done. cbn. do 2 f_equal.
  destruct s, s'. cbn in *. by subst.
Qed.

Lemma merged_states G G1 G2 : same_symbols G G1 -> same_symbols G G2 ->
  merged_all (map state_of G) (map state_of G1) G2 = Done (zip3_with joined G G1 G2).
Proof.
  unfold same_symbols. revert G1 G2. induction G as [|s G IH]; intros [|s1 G1] [|s2 G2]; try done.
  intros E1 E2. cbn [map merged_all zip3_with] in *. injection E1 as _ _ _ E1. injection E2 as _ _ _ E2.
  by rewrite IH.
Qed.

(** With any symbols there are enough. *)
Lemma restored_long states G : length states <= length G -> exists G', restored states G = Done G' /\ length G' = length G.
Proof.
  revert G. induction states as [|a states IH]; intros G; cbn; [by exists G|]. destruct G as [|s G]; cbn; [lia|].
  intros H. destruct (IH G) as (G' & -> & E); [lia|]. cbn. eexists. split; [done|]. cbn. lia.
Qed.

Lemma merged_long b t G : length b = length t -> length b <= length G ->
  exists G', merged_all b t G = Done G' /\ length G' = length G.
Proof.
  revert t G. induction b as [|a b IH]; intros [|a' t] G; cbn; try lia; [by exists G|]. destruct G as [|s G]; cbn; [lia|].
  intros E H. destruct (IH t G) as (G' & -> & E'); [lia..|]. cbn. eexists. split; [done|]. cbn. lia.
Qed.

(** ** The type system keeps them *)

Section kept.
Context (f : ast -> Context -> list Symbol -> option (list Symbol * ast)).

Lemma sequence_kept ns : Forall (fun n => forall cx G G' n', f n cx G = Some (G', n') -> kept G G') ns ->
  forall cx G G' ns', in_sequence f ns cx G = Some (G', ns') -> kept G G'.
Proof.
  induction 1 as [|n ns Hn _ IH]; intros cx G G' ns'; cbn; [by intros [= <- _]|].
  destruct (f n cx G) as [[G1 n1]|] eqn:E1; [|done]. cbn. destruct (in_sequence f ns cx G1) as [[G2 ns2]|] eqn:E2; [|done].
  intros [= <- _]. transitivity G1; eauto.
Qed.

Lemma block_same ns : Forall (fun n => forall cx G G' n', f n cx G = Some (G', n') -> kept G G') ns ->
  forall cx G G' ns', block (in_sequence f) ns cx G = Some (G', ns') -> same_symbols G G'.
Proof.
  intros H cx G G' ns'. unfold block. destruct (in_sequence f ns cx G) as [[G1 ns1]|] eqn:E; [|done].
  intros [= <- _]. by eapply kept_take, sequence_kept.
Qed.
End kept.

Lemma assigned_kept cx G x t G' : assigned cx G x t = Some G' -> kept G G'.
Proof.
  unfold assigned. destruct (last_index x G 0) as [i|]; [|intros [= <-]; apply kept_app].
  destruct (G !! i) as [s|] eqn:E; [|done]. cbn. destruct (_ && _); [done|].
  destruct (retyped s t) as [s'|] eqn:Er; [|done]. intros [= <-]. eapply same_kept, set_kept; [done|].
  unfold retyped in Er. destruct (clashes _ _); [destruct (explicit_type s); [done|]|destruct (_ && _)]; by injection Er as <-.
Qed.

Lemma checked_kept n : forall cx G G' n', checked n cx G = Some (G', n') -> kept G G'.
Proof.
  induction n as [n IH] using ast_edges_ind. intros cx G G' n'.
  destruct n; cbn [checked edges] in *; try (by intros [= <- _]); by_edges IH.
  - destruct (type_of _ _ _) as [v|]; [|done]. cbn. destruct (not_void v); [|done]. by intros [= <- _].
  - destruct (condition_of _ _ _); [|done]. cbn.
    destruct (block _ then_branch _ _) as [[G1 b1]|] eqn:E1; [|done]. cbn.
    destruct (block _ else_branch _ _) as [[G2 b2]|] eqn:E2; [|done]. intros [= <- _].
    apply same_kept, zip3_joined; (eapply block_same; [|eassumption]); done.
  - destruct (condition_of _ _ _); [|done]. cbn. destruct (block _ body _ _) as [[G1 b1]|] eqn:E1; [|done].
    intros [= <- _]. apply same_kept. by eapply block_same; [|exact E1].
  - destruct (parameters_of _ _ _ _) as [ps|]; [|done]. cbn.
    destruct (in_sequence _ body _ _) as [[G1 b1]|] eqn:E1; [|done]. cbn. destruct (_ && _); [|done]. intros [= <- _].
    apply same_kept, kept_take. transitivity (G ++ ps); [apply kept_app|]. by eapply sequence_kept; [|exact E1].
  - destruct (type_of _ _ _) as [[t v]|]; [|done]. by intros [= <- _].
  - destruct (returned _ _ _); [|done]. by intros [= <- _].
  - destruct (_ <? _); [|done]. by intros [= <- _].
  - destruct (_ <? _); [|done]. by intros [= <- _].
  - unfold declaration. destruct (type_of _ _ _) as [[t v]|]; [|done]. cbn. destruct (type_eqb _ _); [done|].
    destruct declared_type as [type|].
    + unfold annotated. destruct (_ && _); [|done]. intros [= <- _]. apply kept_app.
    + destruct (assigned _ _ _ _) as [G1|] eqn:E; [|done]. intros [= <- _]. by eapply assigned_kept.
  - destruct (assignment _ _ _ _); [|done]. by intros [= <- _].
  - destruct (block _ statements _ _) as [[G1 b1]|] eqn:E1; [|done]. intros [= <- _]. apply same_kept.
    by eapply block_same; [|exact E1].
  - destruct (_ <? _); [|done]. by intros [= <- _].
Qed.

Lemma statements_kept ns cx G G' ns' : in_sequence checked ns cx G = Some (G', ns') -> kept G G'.
Proof. apply sequence_kept, Forall_true. intros n. apply checked_kept. Qed.

Lemma checked_block_same ns cx G G' ns' : block (in_sequence checked) ns cx G = Some (G', ns') -> same_symbols G G'.
Proof. apply block_same, Forall_true. intros n. apply checked_kept. Qed.

(** * Reaching the end *)

Definition failing (tc : TypeChecker) : Prop := is_Some (error tc).

(** Statements declare no functions, and outer symbols stay. *)
Record grows (tc tc' : TypeChecker) : Prop := {
  grows_functions : functions tc' = functions tc;
  grows_structs : structs tc' = structs tc;
  grows_symbols : length (symbols tc) <= length (symbols tc')
}.

#[export] Instance grows_preorder : PreOrder grows.
Proof.
  split; [by split|]. intros a b c [H1 H2 H3] [H4 H5 H6]. split; [congruence|congruence|lia].
Qed.

Lemma grows_sane tc tc' : grows tc tc' -> sane (context_of tc) -> sane (context_of tc').
Proof. intros [H1 _ _]. unfold sane. cbn. by rewrite H1. Qed.

#[export] Hint Resolve grows_sane : vnt.

(** Either the result is there and only the symbols are other ones, or there is an error. *)
Definition checks {A} (m : TC A) (tc : TypeChecker) (r : option (list Symbol * A)) (P : A -> Prop) : Prop :=
  exists a tc', m tc = Done (a, tc') /\ P a /\ grows tc tc' /\
    match r with Some (G, a') => tc' = with_symbols G tc /\ a = a' | None => failing tc' end.

Lemma with_same tc : with_symbols (symbols tc) tc = tc.
Proof. by destruct tc. Qed.

Lemma checks_bind {A B} (m : TC A) (k : A -> TC B) tc r (r' : option (list Symbol * B)) P Q :
  checks m tc r P ->
  (r = None -> r' = None) ->
  (forall G a, r = Some (G, a) -> P a -> length (symbols tc) <= length G -> checks (k a) (with_symbols G tc) r' Q) ->
  (forall a tc', P a -> grows tc tc' -> failing tc' -> checks (k a) tc' None Q) ->
  checks (m ≫= k) tc r' Q.
Proof.
  intros (a & tc' & E & HP & Hg & Hr) Hnone Hk Hf. unfold checks. rewrite (bind_done _ _ _ _ _ E).
  destruct r as [[G a']|].
  - destruct Hr as [-> ->]. destruct (Hk G a' eq_refl HP (grows_symbols _ _ Hg)) as (b & tc' & E' & HQ & Hg' & Hr').
    exists b, tc'. split; [done|]. split; [done|]. split; [by etransitivity|]. by destruct r' as [[]|].
  - destruct (Hf a tc' HP Hg Hr) as (b & tc'' & E' & HQ & Hg' & Hr'). exists b, tc''. rewrite Hnone by done.
    split; [done|]. split; [done|]. split; [by etransitivity|done].
Qed.

Lemma checks_mono {A} (m : TC A) tc r (P Q : A -> Prop) : checks m tc r P -> (forall a, P a -> Q a) -> checks m tc r Q.
Proof. intros (a & tc' & E & HP & H) HPQ. exists a, tc'. auto. Qed.

Lemma checks_ret {A} (a : A) tc (P : A -> Prop) : P a -> checks (mret a) tc (Some (symbols tc, a)) P.
Proof. intros HP. exists a, tc. by rewrite with_same. Qed.

Lemma checks_after {A} (a : A) tc (P : A -> Prop) : P a -> failing tc -> checks (mret a) tc None P.
Proof. intros HP Hf. by exists a, tc. Qed.

(** Code that only reads. *)
Lemma checks_run {A B} (m : TC A) (k : A -> TC B) tc a r P :
  m tc = Done (a, tc) -> checks (k a) tc r P -> checks (m ≫= k) tc r P.
Proof. intros E H. unfold checks. by rewrite (bind_done _ _ _ _ _ E). Qed.

(** One step that changes the state, with what comes after it. *)
Lemma checks_gets {A B} (f : TypeChecker -> A) (k : A -> TC B) tc r P :
  checks (k (f tc)) tc r P -> checks (gets f ≫= k) tc r P.
Proof. by apply checks_run. Qed.

Lemma checks_value {A} (m : TC A) tc r P : notes_value m tc r P -> checks m tc ((symbols tc,.) <$> r) P.
Proof.
  intros (a & o & E & HP & Hr). exists a, (noted o tc). split; [done|]. split; [done|]. split; [by split|].
  destruct r as [a'|]; cbn.
  - destruct Hr as [-> ->]. by rewrite noted_none, with_same.
  - unfold failing. cbn. destruct (error tc); [done|]. by destruct o.
Qed.

Lemma checks_notes {A} (m : TC A) tc (P : A -> Prop) : notes m tc (fun _ => P) -> failing tc -> checks m tc None P.
Proof.
  intros (a & o & E & HP) [e He]. exists a, (noted o tc). split; [done|]. split; [done|]. split; [by split|].
  unfold failing. cbn. by rewrite He.
Qed.

Lemma checks_fail e tc (P : unit -> Prop) : P tt -> checks (fail e) tc None P.
Proof.
  intros HP. exists tt, (with_error e tc). split; [done|]. split; [done|]. split; [by split|].
  unfold failing. cbn. by destruct (error tc).
Qed.

Lemma checks_fail_if (b : bool) e tc (P : unit -> Prop) : P tt ->
  checks (fail_if b e) tc (if b then None else Some (symbols tc, tt)) P.
Proof. destruct b; [by apply checks_fail|by apply checks_ret]. Qed.

(** In a state with an error the result does not matter. *)
Lemma checks_weaken {A} (m : TC A) tc r P : checks m tc r P -> failing tc -> checks m tc None P.
Proof.
  intros (a & tc' & E & HP & Hg & Hr) Hf. exists a, tc'. split; [done|]. split; [done|]. split; [done|].
  destruct r as [[G a']|]; [|done]. by destruct Hr as [-> _].
Qed.

(** The test of an error that there is, or is not. *)
Lemma checks_failed {B} (k : bool -> TC B) tc r P : failing tc ->
  checks (k true) tc r P -> checks (gets (fun tc => bool_decide (is_Some (error tc))) ≫= k) tc r P.
Proof. intros Hf H. apply checks_gets. by rewrite bool_decide_eq_true_2. Qed.

Lemma checks_passed {B} (k : bool -> TC B) tc r P : error tc = None ->
  checks (k false) tc r P -> checks (gets (fun tc => bool_decide (is_Some (error tc))) ≫= k) tc r P.
Proof. intros Hf H. apply checks_gets. by rewrite Hf. Qed.

(** After an expression. *)
Definition after (tc tc' : TypeChecker) : Prop := exists o, tc' = noted o tc.

Lemma after_sane tc tc' : after tc tc' -> sane (context_of tc) -> sane (context_of tc').
Proof. by intros [o ->]. Qed.

#[export] Hint Resolve after_sane : vnt.

Lemma checks_expr {A B} (m : TC A) (k : A -> TC B) tc r r' P Q :
  notes_value m tc r P -> (r = None -> r' = None) ->
  (forall a, r = Some a -> P a -> checks (k a) tc r' Q) ->
  (forall a tc', P a -> after tc tc' -> failing tc' -> checks (k a) tc' None Q) ->
  checks (m ≫= k) tc r' Q.
Proof.
  intros (a & o & E & HP & Hr) Hnone Hk Hf. unfold checks. rewrite (bind_done _ _ _ _ _ E). destruct r as [a'|].
  - destruct Hr as [-> ->]. rewrite noted_none. by apply Hk.
  - rewrite Hnone by done. destruct (Hf a (noted o tc) HP) as (b & tc' & E' & HQ & Hg & Hf'); [by exists o| |].
    + unfold failing. cbn. destruct (error tc); [done|]. by destruct o.
    + exists b, tc'. split; [done|]. split; [done|]. split; [|done]. etransitivity; [|exact Hg]. by split.
Qed.

Lemma checks_test {A} (b : bool) e (m : TC A) tc r P :
  (b = true -> r = None) -> (b = false -> checks m tc r P) ->
  (forall tc', grows tc tc' -> failing tc' -> checks m tc' None P) ->
  checks (fail_if b e ≫= fun _ => m) tc r P.
Proof.
  intros Hnone Hm Hf. eapply checks_bind; [apply (checks_fail_if b e tc (fun _ => True) I)|destruct b; [auto|done]|..].
  - intros G a E _ _. destruct b; [done|]. injection E as <- <-. rewrite with_same. by apply Hm.
  - intros a tc' _ Hg Hfl. by apply Hf.
Qed.

Ltac liken := unfold alike, all_alike in *; cbn in *; congruence.

(** What is left notes errors only. *)
Ltac only_notes := apply checks_notes; [by repeat notes_step|done].

(** * Statements without statements *)

(** The second look at the target of an assignment. *)
Lemma string_index_again v tc : sane (context_of tc) -> settled (context_of tc) (symbols tc) v ->
  notes_value (is_string_index_expr expr_type v.2) tc (Some (is_index v.2 && type_eqb v.1 TY_STRING, v.2)) (fun w => alike w.2 v.2).
Proof.
  intros Hs Hv. unfold is_string_index_expr. pose proof Hv as Hv'. destruct v as [t n]. cbn [fst snd] in *.
  destruct n; try (by apply value_ret). destruct (index_settled _ _ _ _ _ Hv) as (ta & Ea & Et). cbn [is_index andb].
  eapply value_bind; [by apply expr_type_value|by rewrite Ea| |].
  - intros [t' a] E _. rewrite Ea in E. injection E as <- <-. rewrite Et. by apply value_ret.
  - intros [t' a] o Ha. apply notes_ret. liken.
Qed.

Lemma string_index_again_notes n tc : sane (context_of tc) ->
  notes (is_string_index_expr expr_type n) tc (fun _ v => alike v.2 n).
Proof.
  intros Hs. unfold is_string_index_expr. destruct n; try (by apply notes_ret).
  apply notes_bind. eapply notes_mono; [by apply expr_type_notes|]. cbn. intros o [t a] Ha. apply notes_ret. liken.
Qed.

Lemma assignment_tail_notes t v a b target value tc : alike a target -> alike b value -> sane (context_of tc) ->
  notes (if type_eqb v TY_VOID then _ ← fail VoidAssigned; mret (AST_ASSIGNMENT a b)
         else
           '(character, a) ← is_string_index_expr expr_type a;
           _ ← fail_if (negb (type_eqb t TY_UNKNOWN) && negb (type_eqb t TY_UNDECLARED) &&
                        negb (type_compatible t v) && negb (character && type_eqb v TY_INT)) (AssignmentType t v);
           mret (AST_ASSIGNMENT a b)) tc (fun _ n => alike n (AST_ASSIGNMENT target value)).
Proof.
  intros Ha Hb Hs. notes_step; [repeat notes_step; liken|]. apply notes_bind.
  eapply notes_mono; [by apply string_index_again_notes|]. cbn. intros o [c a'] Ha'. repeat notes_step. liken.
Qed.

(** No expression has the type of what is not declared. *)
Lemma builtin_result_declared name : builtin_result name <> Some TY_UNDECLARED.
Proof.
  unfold builtin_result, lookup_name.
  assert (Forall (fun p => p.2 <> TY_UNDECLARED) builtin_results) as H.
  { apply Forall_forall. intros p Hp. apply list_elem_of_In in Hp.
    assert (forallb (fun p : string * TypeKind => negb (type_eqb p.2 TY_UNDECLARED)) builtin_results = true) as Hall by done.
    rewrite forallb_forall in Hall. specialize (Hall _ Hp). intros E. by rewrite E in Hall. }
  destruct (find _ _) as [[x t]|] eqn:E; [|done]. apply find_some in E as [Hin _]. rewrite Forall_forall in H.
  apply list_elem_of_In, H in Hin. cbn in *. congruence.
Qed.

Lemma type_of_declared cx G n : forall v, type_of cx G n = Some v -> type_eqb v.1 TY_UNDECLARED = false.
Proof.
  induction n as [n IH] using ast_edges_ind. intros v. destruct n; cbn [type_of edges] in *; try (by intros [= <-]); by_edges IH.
  - destruct (collect _) as [vs|]; [|done]. cbn. destruct (_ && _); [|done]. intros [= <-]. cbn [fst]. unfold result_of.
    pose proof (builtin_result_declared (resolved cx name argument_count).2) as H.
    destruct (builtin_result _) as [t|]; [by destruct t|]. destruct (has_struct _ _); [done|].
    destruct (_ ≫= _) as [type|]; [|done]. by destruct (type_eqb (type_from_name type) TY_UNDECLARED) eqn:E.
  - intros [= <-]. cbn. by destruct (in_int32 value).
  - destruct (collect _) as [vs|]; [|done]. cbn. destruct (forallb _ _); [|done]. by intros [= <-].
  - destruct (lookup_symbol G name) as [s|]; [|done]. cbn. destruct (type_eqb _ _) eqn:Ht; [done|]. by intros [= <-].
  - destruct (type_of cx G n1) as [[ta a]|]; [|done]. cbn. destruct (type_of cx G n2) as [[ti i]|]; [|done]. cbn.
    unfold index_result. destruct (_ && _); [|done]. intros [= <-]. cbn. by destruct ta.
  - destruct (type_of cx G n) as [[t o]|]; [|done]. cbn. destruct (type_eqb _ _); [done|]. by intros [= <-].
  - destruct (type_of cx G n1) as [[tl l]|]; [|done]. cbn. destruct (type_of cx G n2) as [[tr r]|]; [|done]. cbn.
    unfold binary_result. repeat case_match; try done; by intros [= <-].
  - destruct (type_of cx G n) as [[t o]|]; [|done]. cbn. specialize (IH0 _ eq_refl). cbn in IH0.
    unfold unary_result. repeat case_match; try done; by intros [= <-].
Qed.

Lemma assignment_test t v c : type_eqb t TY_UNDECLARED = false ->
  negb (type_eqb t TY_UNKNOWN) && negb (type_eqb t TY_UNDECLARED) && negb (type_compatible t v) &&
  negb (c && type_eqb t TY_STRING && type_eqb v TY_INT) =
  negb (type_compatible t v || type_eqb t TY_STRING && c && type_eqb v TY_INT).
Proof. by destruct t, v, c. Qed.

Section statements.
Context (tc : TypeChecker) (Hs : sane (context_of tc)).

Notation cx := (context_of tc).
Notation G := (symbols tc).

Lemma assignment_checks target value :
  checks (check_assignment target value) tc ((G,.) <$> assignment cx G target value)
    (fun n => alike n (AST_ASSIGNMENT target value)).
Proof.
  unfold check_assignment, assignment. eapply checks_expr; [by apply expr_type_value|by intros ->| |].
  - intros [t a] E Ha. rewrite E. cbn [mbind option_bind snd] in *.
    eapply checks_expr; [by apply expr_type_value|by intros ->| |].
    + intros [v b] E' Hb. rewrite E'. cbn [mbind option_bind snd] in *.
      assert (alike (AST_ASSIGNMENT a b) (AST_ASSIGNMENT target value)) as Hall by liken.
      destruct (type_eqb v TY_VOID); cbn [negb andb]; [by apply (checks_value _ _ None), value_fail|].
      eapply checks_expr; [apply (string_index_again (t, a)); [done|by eapply type_of_again]|done| |].
      * intros [c a'] [= <- <-] _. cbn [fst snd]. apply type_of_declared in E. rewrite assignment_test by done.
        apply checks_test.
        -- intros Hf%negb_true_iff. by rewrite Hf.
        -- intros Hf%negb_false_iff. rewrite Hf. by apply checks_ret.
        -- intros tc' _ Hf. by apply checks_after.
      * intros [c a'] tc' Ha' _ Hf. cbn [snd] in Ha'. apply checks_notes; [|done]. repeat notes_step. liken.
    + intros [v b] tc' Hb Hg Hf. apply checks_notes; [|done]. apply assignment_tail_notes; eauto with vnt.
  - intros [t a] tc' Ha Hg Hf. apply checks_notes; [|done]. apply notes_bind.
    eapply notes_mono; [by apply expr_type_notes; eauto with vnt|]. cbn. intros o [v b] Hb.
    apply assignment_tail_notes; eauto with vnt.
Qed.

Lemma print_checks e :
  checks ('(t, e) ← expr_type e; _ ← fail_if (type_eqb t TY_VOID) VoidPrinted; mret (AST_PRINT_STATEMENT e)) tc
    (v ← type_of cx G e; if not_void v then Some (G, AST_PRINT_STATEMENT v.2) else None)
    (fun n => alike n (AST_PRINT_STATEMENT e)).
Proof.
  eapply checks_expr; [by apply expr_type_value|by intros ->| |].
  - intros [t a] E Ha. rewrite E. cbn in *. unfold not_void. cbn. apply checks_test; [by intros ->| |].
    + intros ->. apply checks_ret. liken.
    + intros tc' _ Hf. apply checks_after; [liken|done].
  - intros [t a] tc' Ha _ Hf. apply checks_notes; [|done]. repeat notes_step. liken.
Qed.

Lemma condition_checks e condition :
  checks (check_condition e condition) tc ((G,.) <$> condition_of cx G condition) (fun n => alike n condition).
Proof.
  unfold check_condition, condition_of. eapply checks_expr; [by apply expr_type_value|by intros ->| |].
  - intros [t a] E Ha. rewrite E. cbn [mbind option_bind snd] in *.
    destruct (type_eqb t TY_VOID) eqn:Hv.
    { assert (known_or t TY_BOOL = false) as -> by by destruct t. by apply (checks_value _ _ None), value_fail. }
    apply checks_test.
    + intros Ht. by destruct t.
    + intros Ht. assert (known_or t TY_BOOL = true) as -> by by destruct t. by apply checks_ret.
    + intros tc' _ Hf. by apply checks_after.
  - intros [t a] tc' Ha _ Hf. apply checks_notes; [|done]. destruct (type_eqb t TY_VOID); by repeat notes_step.
Qed.

Definition return_tail (actual : TypeKind) (expression : option ast) : TC ast :=
  expected ← gets expected_return;
  _ ← if type_eqb expected TY_VOID then fail_if (bool_decide (is_Some expression)) ReturnInVoid
      else if bool_decide (expression = None) then fail ReturnMissing
      else if type_eqb actual TY_VOID then fail VoidReturned
      else fail_if (negb (type_eqb expected TY_UNKNOWN) && negb (type_compatible expected actual))
             (ReturnType expected actual);
  mret (AST_RETURN_STATEMENT expression).

Lemma return_some tc' t a :
  notes_value (return_tail t (Some a)) tc'
    (if return_ok (expected_return tc') (Some t) then Some (AST_RETURN_STATEMENT (Some a)) else None)
    (fun n => n = AST_RETURN_STATEMENT (Some a)).
Proof.
  unfold return_tail. apply value_gets. cbn [return_ok]. destruct (type_eqb (expected_return tc') TY_VOID); cbn [negb andb].
  - rewrite bool_decide_eq_true_2 by done. by apply value_fail.
  - rewrite bool_decide_eq_false_2 by done. destruct (type_eqb t TY_VOID); cbn [negb andb]; [by apply value_fail|].
    apply value_test; [|intros Hc|by apply notes_ret].
    + intros [_ Hc]%andb_true_iff. apply negb_true_iff in Hc. by rewrite Hc.
    + assert (type_compatible (expected_return tc') t = true) as ->; [|by apply value_ret].
      destruct (expected_return tc'), t; done.
Qed.

Lemma return_none tc' :
  notes_value (return_tail TY_UNKNOWN None) tc'
    (if return_ok (expected_return tc') None then Some (AST_RETURN_STATEMENT None) else None)
    (fun n => n = AST_RETURN_STATEMENT None).
Proof.
  unfold return_tail. apply value_gets. cbn [return_ok]. destruct (type_eqb (expected_return tc') TY_VOID).
  - rewrite bool_decide_eq_false_2 by (by intros [? ?]). by apply value_ret.
  - rewrite bool_decide_eq_true_2 by done. by apply value_fail.
Qed.

Lemma return_value expression :
  notes_value (check_return expression) tc (AST_RETURN_STATEMENT <$> returned cx G expression)
    (fun n => alike n (AST_RETURN_STATEMENT expression)).
Proof.
  unfold check_return, returned. apply value_gets. cbn [cx_return context_of].
  destruct (in_function tc); cbn [negb mbind option_bind]; [|by apply value_fail]. destruct expression as [e|].
  - eapply (value_bind _ _ _ ('(t, e) ← type_of cx G e; Some (t, Some e)) _
      (fun v => exists a, v.2 = Some a /\ alike a e)).
    + eapply value_bind; [by apply expr_type_value|by intros ->|..].
      * intros [t a] -> Ha. apply value_ret. by exists a.
      * intros [t a] o Ha. apply notes_ret. by exists a.
    + by destruct (type_of cx G e) as [[t a]|].
    + intros [t e'] E (a & Hea & Ha). cbn [snd] in Hea. subst e'. destruct (type_of cx G e) as [[t' a']|]; [|done].
      cbn [mbind option_bind] in *. injection E as -> ->.
      destruct (return_some tc t a) as (n & o & En & -> & Hr). exists (AST_RETURN_STATEMENT (Some a)), o. split; [exact En|].
      split; [liken|]. cbn [context_of]. by destruct (return_ok _ _).
    + intros [t e'] o (a & Hea & Ha). cbn [snd] in Hea. subst e'.
      destruct (return_some (noted o tc) t a) as (n & o' & En & -> & Hr). exists (AST_RETURN_STATEMENT (Some a)), o'.
      split; [exact En|]. liken.
  - destruct (return_none tc) as (n & o & En & -> & Hr). exists (AST_RETURN_STATEMENT None), o. split; [exact En|].
    split; [done|]. by destruct (return_ok _ _).
Qed.

Lemma call_checks name args argc :
  checks ('(_, n) ← expr_type (AST_FUNCTION_CALL name args argc); mret n) tc
    ('(_, n) ← type_of cx G (AST_FUNCTION_CALL name args argc); Some (G, n))
    (fun n => alike n (AST_FUNCTION_CALL name args argc)).
Proof.
  eapply checks_expr; [by apply expr_type_value|by intros ->| |].
  - intros [t n] -> Hn. by apply checks_ret.
  - intros [t n] tc' Hn _ Hf. by apply checks_after.
Qed.

(** ** Declarations *)

Lemma clashes_test old t :
  negb (type_eqb old TY_UNKNOWN) && negb (type_eqb t TY_UNKNOWN) && negb (type_eqb old t) && negb (numeric old && numeric t)
  = clashes old t.
Proof. by destruct old, t. Qed.

Lemma explicit_same s : with_explicit false s = s.
Proof. unfold with_explicit. rewrite orb_false_r. by destruct s. Qed.

Lemma add_symbol_checks x t e :
  checks (add_symbol x t e) tc (Some (G ++ [new_symbol x t e (cx_depth cx)], tt)) (fun _ => True).
Proof.
  eexists tt, _. split; [done|]. split; [done|]. split; [|done]. split; [done|done|]. cbn. rewrite length_app. lia.
Qed.

Lemma set_at_checks i s : checks (set_at i s) tc (Some (<[i := s]> G, tt)) (fun _ => True).
Proof.
  eexists tt, _. split; [done|]. split; [done|]. split; [|done]. split; [done|done|]. cbn. by rewrite length_insert.
Qed.

Lemma update_symbol_checks i s t : G !! i = Some s ->
  checks (update_symbol i t false) tc (s' ← retyped s t; Some (<[i := s']> G, tt)) (fun _ => True).
Proof.
  intros E. unfold update_symbol. apply (checks_run _ _ _ s); [unfold symbol_at; by rewrite E|].
  rewrite clashes_test. unfold retyped. destruct (clashes (symbol_type s) t).
  - rewrite orb_false_r. destruct (explicit_type s); [by apply checks_fail|]. apply set_at_checks.
  - rewrite explicit_same. destruct (_ && _); apply set_at_checks.
Qed.

Lemma set_symbol_checks x t :
  checks (set_symbol x t false) tc
    match last_index x G 0 with
    | None => Some (G ++ [new_symbol x t false (cx_depth cx)], tt)
    | Some i => s ← G !! i; s' ← retyped s t; Some (<[i := s']> G, tt)
    end (fun _ => True).
Proof.
  unfold set_symbol. apply checks_gets. destruct (last_index x G 0) as [i|] eqn:E; [|apply add_symbol_checks].
  destruct (last_index_lookup _ _ _ E) as [s Es]. rewrite Es. by apply update_symbol_checks.
Qed.

Lemma check_untyped_checks x t :
  checks (check_untyped x t (last_index x G 0)) tc ((., tt) <$> assigned cx G x t) (fun _ => True).
Proof.
  assert (forall r, checks (set_symbol x t false) tc r (fun _ => True) ->
    checks (check_untyped x t None) tc r (fun _ => True)) as Hnone by (intros r H; by eapply checks_run).
  pose proof (set_symbol_checks x t) as Hset. unfold assigned.
  destruct (last_index x G 0) as [i|] eqn:E; [|by apply Hnone]. clear Hnone. unfold check_untyped.
  destruct (last_index_lookup _ _ _ E) as [s Es]. rewrite Es in *. cbn [mbind option_bind] in *.
  assert (symbol_at i tc = Done (s, tc)) as Hat by (unfold symbol_at; by rewrite Es).
  unfold clashes. destruct (explicit_type s && negb (type_compatible (symbol_type s) t)) eqn:Hc.
  - eapply (checks_bind _ _ _ None _ (fun ok => ok = false)); [|done|done|].
    + eapply checks_run; [exact Hat|]. rewrite Hc. by apply (checks_value _ _ None), value_fail.
    + intros ok tc' -> Hg Hf. by apply checks_after.
  - eapply checks_run; [eapply (eq_trans (bind_done _ _ _ _ _ Hat)); by rewrite Hc|].
    by destruct (retyped s t).
Qed.

Lemma add_typed x t shadows : (shadows = false -> last_index x G 0 = None) ->
  checks (if shadows then add_symbol x t true else set_symbol x t true) tc
    (Some (G ++ [new_symbol x t true (cx_depth cx)], tt)) (fun _ => True).
Proof.
  intros H. destruct shadows; [apply add_symbol_checks|]. unfold set_symbol. apply checks_gets.
  rewrite H by done. apply add_symbol_checks.
Qed.

Lemma check_typed_checks x type t (here shadows : bool) :
  here = is_declared G x && negb (is_outer cx G x) -> shadows = is_outer cx G x -> 
  checks (check_typed x type t here shadows) tc ((., tt) <$> annotated cx G x type t) (fun _ => True).
Proof.
  intros -> ->. unfold check_typed, annotated.
  destruct (type_eqb (type_from_name type) TY_UNDECLARED); cbn [orb negb andb]; [by apply checks_fail|].
  destruct (type_eqb (type_from_name type) TY_VOID); cbn [orb negb andb]; [by apply checks_fail|].
  destruct (is_declared G x) eqn:Hd, (is_outer cx G x) eqn:Ho; cbn [orb negb andb]; try (by apply checks_fail);
    (destruct (type_compatible _ _); cbn [negb]; [|by apply checks_fail]);
    [apply (add_typed x _ true)|apply (add_typed x _ true)|apply (add_typed x _ false)]; try done.
  intros _. unfold is_declared in Hd. apply bool_decide_eq_false in Hd. by apply eq_None_not_Some.
Qed.

Lemma shadows_run x declared_type :
  shadows_outer declared_type (last_index x G 0) tc =
    Done (match declared_type with Some _ => is_outer cx G x | None => false end, tc).
Proof.
  unfold shadows_outer, is_outer, lookup_symbol. destruct declared_type as [type|]; [|done].
  destruct (last_index x G 0) as [i|] eqn:E; [|done]. destruct (last_index_lookup _ _ _ E) as [s Es].
  cbn [mbind option_bind]. rewrite Es. by rewrite (bind_done _ _ tc s tc) by (unfold symbol_at; by rewrite Es).
Qed.

End statements.

Lemma annotated_fresh cx G x type t G' : annotated cx G x type t = Some G' -> is_declared G x && negb (is_outer cx G x) = false.
Proof. unfold annotated. destruct (is_declared G x), (is_outer cx G x); try done. cbn [negb orb]. by rewrite andb_false_r. Qed.

(** What is done with the value. *)
Definition declare_value (x : bytes) (declared_type : option bytes) (t : TypeKind) (cx : Context) (G : list Symbol) : TC unit :=
  let shadows := match declared_type with Some _ => is_outer cx G x | None => false end in
  if type_eqb t TY_VOID then fail VoidInitializer
  else
    match declared_type with
    | Some type => check_typed x type t (is_declared G x && negb shadows) shadows
    | None => check_untyped x t (last_index x G 0)
    end.

Lemma declare_checks x declared_type t tc :
  checks (declare_value x declared_type t (context_of tc) (symbols tc)) tc
    ((., tt) <$> if type_eqb t TY_VOID then None else
       match declared_type with
       | Some type => annotated (context_of tc) (symbols tc) x type t
       | None => assigned (context_of tc) (symbols tc) x t
       end) (fun _ => True).
Proof.
  unfold declare_value. destruct (type_eqb t TY_VOID); [by apply checks_fail|].
  destruct declared_type as [type|]; [by apply check_typed_checks|apply check_untyped_checks].
Qed.

Lemma declaration_checks x declared_type value tc : sane (context_of tc) ->
  checks (check_variable_declaration x declared_type value) tc (declaration (context_of tc) (symbols tc) x declared_type value)
    (fun n => alike n (AST_VARIABLE_DECLARATION x declared_type value false)).
Proof.
  intros Hs. unfold check_variable_declaration, declaration. apply checks_gets. eapply checks_run; [apply shadows_run|].
  set (shadows := match declared_type with Some _ => _ | None => false end).
  change (bool_decide (is_Some (last_index x (symbols tc) 0))) with (is_declared (symbols tc) x).
  eapply checks_expr; [by apply expr_type_value|by intros ->| |].
  - intros [t v] E Hv. rewrite E. cbn [mbind option_bind snd] in *.
    eapply checks_bind; [apply (declare_checks x declared_type t)|..].
    + destruct (type_eqb t TY_VOID); [done|].
      destruct declared_type; [destruct (annotated _ _ _ _ _)|destruct (assigned _ _ _ _)]; done.
    + intros G' [] E' _ _. destruct (type_eqb t TY_VOID); [done|].
      assert (G' = symbols (with_symbols G' tc)) as HG by done.
      destruct declared_type as [type|].
      * destruct (annotated _ _ _ _ _) as [G1|] eqn:Ea; [|done]. injection E' as <-. cbn [mbind option_bind].
        assert (is_declared (symbols tc) x && negb shadows = false) as -> by by eapply annotated_fresh.
        rewrite HG at 2. apply checks_ret. liken.
      * destruct (assigned _ _ _ _) as [G1|] eqn:Ea; [|done]. injection E' as <-. cbn [mbind option_bind].
        unfold shadows. rewrite andb_true_r. rewrite HG at 2. apply checks_ret. liken.
    + intros [] tc' _ _ Hf. apply checks_after; [liken|done].
  - intros [t v] tc' Hv [o ->] Hf. cbn [snd] in Hv.
    eapply checks_bind; [eapply checks_weaken; [apply (declare_checks x declared_type t (noted o tc))|done]|done|done|].
    intros [] tc' _ _ Hf'. apply checks_after; [liken|done].
Qed.
