(* ===== verification/TypeCheckBlocks.v ===== *)
(** TypeCheckBlocks: the checker and the type system agree on statements with statements
    in them: bodies, branches and functions. *)

From stdpp Require Import list.
From S2P Require Import Prelude Clib Ast Ir IrTrees IrLower IrAccess TypeNames TypeCheck.
From S2P Require Import TypeSystem TypeCheckFacts TypeCheckExpr TypeCheckStmt.

Lemma with_error_none G tc : error (with_symbols G tc) = error tc.
Proof. done. Qed.

(** * Bodies *)

Section bodies.
Context (go : list ast -> TC (list ast)) (ns : list ast).

(** Checking the body gives what the type system says, or there is an error already. *)
Hypothesis Hgo : forall tc, error tc = None -> sane (context_of tc) ->
  checks (go ns) tc (in_sequence checked ns (context_of tc) (symbols tc)) (fun ns' => all_alike ns' ns).
Hypothesis Hstop : forall tc, failing tc -> go ns tc = Done (ns, tc).

Lemma body_checks tc : sane (context_of tc) ->
  checks (go ns) tc (match error tc with None => in_sequence checked ns (context_of tc) (symbols tc) | Some _ => None end)
    (fun ns' => all_alike ns' ns).
Proof.
  intros Hs. destruct (error tc) as [e|] eqn:E; [|by apply Hgo].
  exists ns, tc. split; [apply Hstop; by eexists|]. split; [done|]. split; [done|by eexists].
Qed.

Lemma block_checks unsafe loop tc : sane (context_of tc) ->
  checks (check_block go unsafe loop ns) tc
    (match error tc with
     | None => block (in_sequence checked) ns (cx_deeper 1 unsafe loop (context_of tc)) (symbols tc)
     | Some _ => None
     end) (fun ns' => all_alike ns' ns).
Proof.
  intros Hs. unfold check_block. apply checks_gets. unfold block.
  set (tc1 := with_depths (scope_depth tc + 1) (unsafe_depth tc + unsafe) (loop_depth tc + loop) tc).
  destruct (body_checks tc1 Hs) as (ns' & tc2 & E & Ha & [Hg1 Hg2 Hg3] & Hr).
  eexists ns', _. split.
  { rewrite (bind_done _ _ _ tt tc1) by done. rewrite (bind_done _ _ _ _ _ E). reflexivity. }
  split; [done|]. split.
  { split; [done|done|]. cbn in *. rewrite length_take. lia. }
  change (error tc1) with (error tc) in Hr. change (symbols tc1) with (symbols tc) in Hr.
  change (context_of tc1) with (cx_deeper 1 unsafe loop (context_of tc)) in Hr.
  destruct (error tc) as [e|] eqn:Ee; [done|].
  destruct (in_sequence _ _ _ _) as [[G' ns'']|]; cbn [mbind option_bind]; [|done].
  destruct Hr as [-> ->]. split; [|done]. unfold with_symbols, with_depths. cbn. f_equal; lia.
Qed.
End bodies.

(** * Branches *)

Section branches.
Context (go : list ast -> TC (list ast)) (then_branch else_branch : list ast).

Hypothesis Hthen : forall tc, error tc = None -> sane (context_of tc) ->
  checks (go then_branch) tc (in_sequence checked then_branch (context_of tc) (symbols tc))
    (fun ns' => all_alike ns' then_branch).
Hypothesis Helse : forall tc, error tc = None -> sane (context_of tc) ->
  checks (go else_branch) tc (in_sequence checked else_branch (context_of tc) (symbols tc))
    (fun ns' => all_alike ns' else_branch).
Hypothesis Hstop : forall ns tc, failing tc -> go ns tc = Done (ns, tc).

Lemma snapshot_run count tc : count <= length (symbols tc) ->
  snapshot_symbols count tc = Done (map state_of (take count (symbols tc)), tc).
Proof. intros H. unfold snapshot_symbols. by rewrite (proj2 (Nat.leb_le _ _) H). Qed.

Lemma restore_run states tc G : restored states (symbols tc) = Done G ->
  restore_symbols states tc = Done (tt, with_symbols G tc).
Proof. intros E. unfold restore_symbols, asks. unfold mbind, St_bind. by rewrite E. Qed.

Lemma merge_run before then_states tc G : merged_all before then_states (symbols tc) = Done G ->
  merge_branch_symbols before then_states tc = Done (tt, with_symbols G tc).
Proof. intros E. unfold merge_branch_symbols, asks. unfold mbind, St_bind. by rewrite E. Qed.

(** What follows the then branch. *)
Definition after_then (condition : ast) (then_branch' : list ast) (before then_states : list SymbolState) : TC ast :=
  failed ← gets (fun tc => bool_decide (is_Some (error tc)));
  if (failed : bool) then mret (AST_IF_STATEMENT condition then_branch' else_branch)
  else
    else_branch ← check_block go 0 0 else_branch;
    _ ← merge_branch_symbols before then_states;
    mret (AST_IF_STATEMENT condition then_branch' else_branch).

Lemma after_then_checks condition then_branch' G1 tc : sane (context_of tc) -> error tc = None ->
  same_symbols (symbols tc) G1 ->
  checks (after_then condition then_branch' (map state_of (symbols tc)) (map state_of G1)) tc
    ('(G2, e) ← block (in_sequence checked) else_branch (cx_deeper 1 0 0 (context_of tc)) (symbols tc);
     Some (zip3_with joined (symbols tc) G1 G2, AST_IF_STATEMENT condition then_branch' e))
    (fun n => exists e', n = AST_IF_STATEMENT condition then_branch' e' /\ all_alike e' else_branch).
Proof.
  intros Hs He H1. unfold after_then. apply checks_passed; [done|].
  pose proof (block_checks go else_branch Helse (Hstop _) 0 0 tc Hs) as Hblock. rewrite He in Hblock.
  eapply checks_bind; [exact Hblock|by intros ->|..].
  - intros G2 e E Ha _. rewrite E. cbn [mbind option_bind].
    assert (same_symbols (symbols tc) G2) as H2 by by eapply checked_block_same.
    exists (AST_IF_STATEMENT condition then_branch' e), (with_symbols (zip3_with joined (symbols tc) G1 G2) tc).
    split; [by erewrite (bind_done _ _ _ _ _ (merge_run _ _ (with_symbols G2 tc) _ (merged_states _ _ _ H1 H2)))|].
    split; [by exists e|]. split; [|done]. split; [done|done|]. cbn.
    pose proof (same_length _ _ (zip3_joined _ _ _ H1 H2)). pose proof (same_length _ _ H2). lia.
  - intros e tc' Ha Hg Hf. destruct (merged_long (map state_of (symbols tc)) (map state_of G1) (symbols tc')) as (G2 & E & Hl).
    + rewrite !length_map. by apply same_length.
    + rewrite length_map. apply Hg.
    + exists (AST_IF_STATEMENT condition then_branch' e), (with_symbols G2 tc').
      split; [by rewrite (bind_done _ _ _ _ _ (merge_run _ _ _ _ E))|]. split; [by exists e|]. split; [|done].
      split; [done|done|]. cbn. lia.
Qed.

(** The then branch, and going back to the symbols before it. *)
Lemma then_checks tc condition : sane (context_of tc) ->
  checks (outer_count ← symbol_count;
     before ← snapshot_symbols outer_count;
     _ ← deeper 1 0 0;
     then_branch ← go then_branch;
     then_states ← snapshot_symbols outer_count;
     _ ← discard_symbols_to outer_count;
     _ ← shallower 1 0 0;
     _ ← restore_symbols before;
     after_then condition then_branch before then_states) tc
    match error tc with
    | None =>
        '(G1, t) ← block (in_sequence checked) then_branch (cx_deeper 1 0 0 (context_of tc)) (symbols tc);
        '(G2, e) ← block (in_sequence checked) else_branch (cx_deeper 1 0 0 (context_of tc)) (symbols tc);
        Some (zip3_with joined (symbols tc) G1 G2, AST_IF_STATEMENT condition t e)
    | Some _ => None
    end (fun n => alike n (AST_IF_STATEMENT condition then_branch else_branch)).
Proof.
  intros Hs. apply checks_gets. eapply checks_run; [by apply snapshot_run|]. rewrite take_ge by done.
  set (tc1 := with_depths (scope_depth tc + 1) (unsafe_depth tc + 0) (loop_depth tc + 0) tc).
  destruct (body_checks go then_branch Hthen (Hstop _) tc1 Hs) as (t & tc2 & E & Ha & [Hg1 Hg2 Hg3] & Hr).
  change (error tc1) with (error tc) in Hr. change (symbols tc1) with (symbols tc) in Hr, Hg3.
  change (context_of tc1) with (cx_deeper 1 0 0 (context_of tc)) in Hr.
  set (n := length (symbols tc)) in *. set (G1 := take n (symbols tc2)).
  destruct (restored_long (map state_of (symbols tc)) G1) as (G0 & Hrest & Hlen).
  { unfold G1. rewrite length_map, length_take. fold n. lia. }
  set (tc3 := with_symbols G0 (with_depths (scope_depth tc2 - 1) (unsafe_depth tc2 - 0) (loop_depth tc2 - 0) tc2)).
  set (rest := after_then condition).
  assert ((_ ← deeper 1 0 0;
     then_branch ← go then_branch;
     then_states ← snapshot_symbols n;
     _ ← discard_symbols_to n;
     _ ← shallower 1 0 0;
     _ ← restore_symbols (map state_of (symbols tc));
     rest then_branch (map state_of (symbols tc)) then_states) tc = rest t (map state_of (symbols tc)) (map state_of G1) tc3)
    as Hrun.
  { rewrite (bind_done _ _ tc tt tc1) by done. rewrite (bind_done _ _ _ _ _ E).
    rewrite (bind_done _ _ _ _ _ (snapshot_run n tc2 Hg3)). fold G1.
    rewrite (bind_done _ _ tc2 tt (with_symbols G1 tc2)) by done.
    rewrite (bind_done _ _ _ tt (with_symbols G1 (with_depths (scope_depth tc2 - 1) (unsafe_depth tc2 - 0) (loop_depth tc2 - 0) tc2))) by done.
    by rewrite (bind_done _ _ _ _ _ (restore_run _ (with_symbols G1 _) _ Hrest)). }
  assert (failing tc2 -> checks (rest t (map state_of (symbols tc)) (map state_of G1)) tc3 None
    (fun n => alike n (AST_IF_STATEMENT condition then_branch else_branch))) as Hfail.
  { intros Hf. apply checks_failed; [done|]. apply checks_after; [liken|done]. }
  assert (grows tc tc3) as Hg.
  { split; [done|done|]. cbn. rewrite Hlen. unfold G1. rewrite length_take. fold n. lia. }
  unfold checks. rewrite Hrun. clear Hrun.
  assert (failing tc2 -> exists a tc', rest t (map state_of (symbols tc)) (map state_of G1) tc3 = Done (a, tc') /\
    alike a (AST_IF_STATEMENT condition then_branch else_branch) /\ grows tc tc' /\ failing tc') as Hend.
  { intros Hf. destruct (Hfail Hf) as (a & tc' & E' & Hal & Hg' & Hr'). exists a, tc'. split; [done|]. split; [done|]. split; [by etransitivity|done]. }
  destruct (error tc) as [e|] eqn:He; [by apply Hend|].
  pose proof (eq_refl (block (in_sequence checked) then_branch (cx_deeper 1 0 0 (context_of tc)) (symbols tc))) as Hb.
  unfold block at 2 in Hb.
  destruct (in_sequence checked then_branch _ _) as [[G' t']|] eqn:Et; cbn [mbind option_bind] in Hb; rewrite Hb; [|by apply Hend].
  cbn [mbind option_bind].
  destruct Hr as [-> ->]. clear Hend Hfail. apply statements_kept, kept_take in Et. cbn [symbols with_symbols] in G1.
  fold n in Et. fold G1 in Et. rewrite (restored_states _ _ Et) in Hrest. injection Hrest as <-.
  assert (tc3 = tc) as -> by (unfold tc3, with_symbols, with_depths; destruct tc; cbn; f_equal; lia).
  destruct (after_then_checks condition t' G1 tc Hs He Et) as (a & tc' & E' & (e' & -> & He') & Hg' & Hr').
  exists (AST_IF_STATEMENT condition t' e'), tc'. split; [exact E'|]. split; [liken|]. split; [done|]. exact Hr'.
Qed.

Lemma if_checks condition tc : error tc = None -> sane (context_of tc) ->
  checks (check_if go condition then_branch else_branch) tc
    (condition ← condition_of (context_of tc) (symbols tc) condition;
     '(G1, t) ← block (in_sequence checked) then_branch (cx_deeper 1 0 0 (context_of tc)) (symbols tc);
     '(G2, e) ← block (in_sequence checked) else_branch (cx_deeper 1 0 0 (context_of tc)) (symbols tc);
     Some (zip3_with joined (symbols tc) G1 G2, AST_IF_STATEMENT condition t e))
    (fun n => alike n (AST_IF_STATEMENT condition then_branch else_branch)).
Proof.
  intros He Hs. unfold check_if. eapply checks_bind; [by apply condition_checks|by destruct (condition_of _ _ _)|..].
  - intros G c E Hc _. destruct (condition_of _ _ _) as [c'|]; [|done]. injection E as <- <-. cbn [mbind option_bind].
    rewrite with_same. pose proof (then_checks tc c' Hs) as H. rewrite He in H.
    eapply checks_mono; [exact H|]. intros n Hn. cbv beta in Hn. liken.
  - intros c tc' Hc Hg Hf. pose proof (then_checks tc' c (grows_sane _ _ Hg Hs)) as H.
    destruct Hf as [e E]. rewrite E in H. eapply checks_mono; [exact H|]. intros n Hn. cbv beta in Hn. liken.
Qed.
End branches.

(** * Functions *)

Lemma parameters_checks ps : forall seen types tc,
  checks (check_parameters seen ps types) tc
    match error tc with
    | None => (fun l => (symbols tc ++ l, tt)) <$> parameters_of (scope_depth tc) seen ps types
    | Some _ => None
    end (fun _ => True).
Proof.
  induction ps as [|p ps IH]; intros seen types tc; cbn [check_parameters parameters_of].
  { destruct (error tc) as [e|] eqn:E; [apply checks_after; [done|by eexists]|]. cbn. rewrite app_nil_r. by apply checks_ret. }
  assert (forall tc', failing tc' -> checks (failed ← gets (fun tc => bool_decide (is_Some (error tc)));
    if (failed : bool) then mret tt
    else
      let pt := match mjoin (head types) with Some type => type_from_name type | None => TY_UNKNOWN end in
      if bool_decide (is_Some (mjoin (head types))) && (type_eqb pt TY_UNDECLARED || type_eqb pt TY_VOID) then fail InvalidParameter
      else _ ← add_symbol p pt (negb (type_eqb pt TY_UNKNOWN)); check_parameters (seen ++ [p]) ps (tail types)) tc' None (fun _ => True))
    as Hstop.
  { intros tc' Hf. apply checks_failed; [done|]. by apply checks_after. }
  destruct (error tc) as [e|] eqn:E.
  { eapply checks_bind; [eapply checks_weaken; [by apply (checks_fail_if _ _ _ (fun _ => True))|by eexists]|done|done|].
    intros _ tc' _ _ Hf. by apply Hstop. }
  apply checks_test; [by intros ->| |intros tc' _ Hf; by apply Hstop]. intros ->. cbn [negb andb].
  apply checks_passed; [done|]. clear Hstop. cbv zeta.
  assert (bool_decide (is_Some (mjoin (head types))) &&
    (type_eqb (returned_type (mjoin (head types))) TY_UNDECLARED || type_eqb (returned_type (mjoin (head types))) TY_VOID) =
    negb (parameter_ok (mjoin (head types)))) as Hok.
  { unfold parameter_ok, returned_type. destruct (mjoin (head types)) as [type|]; [|done].
    rewrite bool_decide_eq_true_2 by done. by destruct (type_from_name type). }
  unfold returned_type in Hok. rewrite Hok. clear Hok. destruct (parameter_ok _); cbn [negb]; [|by apply checks_fail].
  eapply checks_bind; [apply add_symbol_checks|done|..].
  - intros G [] [= <-] _ _. set (tc1 := with_symbols _ tc). specialize (IH (seen ++ [p]) (tail types) tc1).
    change (error tc1) with (error tc) in IH. rewrite E in IH. change (scope_depth tc1) with (scope_depth tc) in IH.
    destruct (parameters_of _ _ _ _) as [l|]; [|done]. cbn in IH |- *. by rewrite <- app_assoc in IH.
  - intros [] tc' _ _ Hf. specialize (IH (seen ++ [p]) (tail types) tc'). destruct Hf as [e E']. by rewrite E' in IH.
Qed.

Section functions.
Context (go : list ast -> TC (list ast)) (body : list ast).

Hypothesis Hgo : forall tc, error tc = None -> sane (context_of tc) ->
  checks (go body) tc (in_sequence checked body (context_of tc) (symbols tc)) (fun ns' => all_alike ns' body).
Hypothesis Hstop : forall tc, failing tc -> go body tc = Done (body, tc).

Lemma function_body_checks name parameters types count return_type tc :
  error tc = None -> sane (context_of tc) -> count <= length parameters ->
  checks (check_function_body go name parameters types count return_type body) tc
    (let expected := returned_type return_type in
     ps ← parameters_of (scope_depth tc) [] (take count parameters) types;
     '(G', body) ← in_sequence checked body (context_of tc) (symbols tc ++ ps);
     if negb (bool_decide (is_Some return_type) && type_eqb expected TY_UNDECLARED) &&
        (type_eqb expected TY_UNKNOWN || type_eqb expected TY_VOID || statement_list_returns body)
     then Some (G', body) else None) (fun ns' => all_alike ns' body).
Proof.
  intros He Hs Hc. unfold check_function_body. cbv zeta. set (expected := returned_type return_type).
  assert (forall tc, cells parameters count tc = Done (take count parameters, tc)) as Hcells.
  { intros tc'. unfold cells. by rewrite (proj2 (Nat.leb_le _ _) Hc). }
  assert (forall tc', failing tc' -> sane (context_of tc') -> checks (parameters ← cells parameters count;
    _ ← check_parameters [] parameters types; body ← go body;
    _ ← fail_if (negb (type_eqb expected TY_UNKNOWN) && negb (type_eqb expected TY_VOID) && negb (statement_list_returns body))
      (NotEveryPath name expected); mret body) tc' None (fun ns' => all_alike ns' body)) as Hrest.
  { intros tc' Hf Hs'. eapply checks_run; [apply Hcells|].
    eapply checks_bind; [eapply checks_weaken; [apply parameters_checks|done]|done|done|].
    intros [] tc2 _ Hg Hf2. eapply checks_run; [by apply Hstop|]. apply checks_notes; [|done]. by repeat notes_step. }
  apply checks_test; [| |intros tc' Hg Hf; apply Hrest; [done|by eauto with vnt]].
  { intros ->. destruct (parameters_of _ _ _ _); [|done]. cbn. by destruct (in_sequence _ _ _ _) as [[]|]. }
  intros ->. clear Hrest. cbn [negb andb]. eapply checks_run; [apply Hcells|].
  pose proof (parameters_checks (take count parameters) [] types tc) as Hp. rewrite He in Hp.
  eapply checks_bind; [exact Hp|by destruct (parameters_of _ _ _ _)|..].
  - intros G [] E _ Hlen. destruct (parameters_of _ _ _ _) as [ps|]; [|done]. injection E as <-. cbn [mbind option_bind].
    set (tc1 := with_symbols _ tc).
    change (in_sequence checked body (context_of tc) (symbols tc ++ ps)) with (in_sequence checked body (context_of tc1) (symbols tc1)).
    eapply checks_bind; [by apply Hgo|by intros ->|..].
    + intros G' body' E' Hb _. rewrite E'. cbn [mbind option_bind]. apply checks_test.
      * intros Hr. apply andb_true_iff in Hr as [[H1 H2]%andb_true_iff H3]. apply negb_true_iff in H1, H2, H3. by rewrite H1, H2, H3.
      * intros Hr. assert (type_eqb expected TY_UNKNOWN || type_eqb expected TY_VOID || statement_list_returns body' = true) as ->.
        { destruct (type_eqb expected TY_UNKNOWN), (type_eqb expected TY_VOID), (statement_list_returns body'); done. }
        by apply (checks_ret _ (with_symbols G' tc1)).
      * intros tc' _ Hf. by apply checks_after.
    + intros body' tc' Hb _ Hf. apply checks_notes; [|done]. by repeat notes_step.
  - intros [] tc' _ _ Hf. eapply checks_run; [by apply Hstop|]. apply checks_notes; [|done]. by repeat notes_step.
Qed.

Lemma function_checks name parameters types count return_type tc :
  error tc = None -> sane (context_of tc) -> count <= length parameters ->
  checks (check_function go name parameters types count return_type body) tc
    (ps ← parameters_of (S (scope_depth tc)) [] (take count parameters) types;
     '(G', body) ← in_sequence checked body (cx_function name return_type (context_of tc)) (symbols tc ++ ps);
     let expected := returned_type return_type in
     if negb (bool_decide (is_Some return_type) && type_eqb expected TY_UNDECLARED) &&
        (type_eqb expected TY_UNKNOWN || type_eqb expected TY_VOID || statement_list_returns body)
     then Some (take (length (symbols tc)) G', body) else None) (fun ns' => all_alike ns' body).
Proof.
  intros He Hs Hc. unfold check_function. eapply checks_run; [done|].
  set (tc1 := with_depths (S (scope_depth tc)) (unsafe_depth tc) 0
    (with_function (returned_type return_type) true (namespace_of name (function_namespace tc)) tc)).
  destruct (function_body_checks name parameters types count return_type tc1 He Hs Hc) as (body' & tc2 & E & Ha & [Hg1 Hg2 Hg3] & Hr).
  eexists body', _. split.
  { rewrite (bind_done _ _ tc tt (with_function (returned_type return_type) true (namespace_of name (function_namespace tc)) tc)) by done.
    rewrite (bind_done _ _ _ tt tc1) by done. rewrite (bind_done _ _ _ _ _ E). reflexivity. }
  split; [done|]. split.
  { split; [done|done|]. cbn in *. rewrite length_take. lia. }
  change (context_of tc1) with (cx_function name return_type (context_of tc)) in Hr.
  change (symbols tc1) with (symbols tc) in Hr. change (scope_depth tc1) with (S (scope_depth tc)) in Hr. cbv zeta in *.
  destruct (parameters_of _ _ _ _) as [ps|]; [|done]. cbn [mbind option_bind] in *.
  destruct (in_sequence _ _ _ _) as [[G' ns']|]; [|done]. cbn [mbind option_bind] in *.
  destruct (_ && _); [|done]. destruct Hr as [-> ->]. split; [|done]. by destruct tc.
Qed.
End functions.

(** * Statements *)

Lemma loop_stops f ns tc : failing tc -> statement_loop f ns tc = Done (ns, tc).
Proof.
  intros Hf. destruct ns as [|n ns]; [done|]. cbn.
  rewrite (bind_done _ _ tc (bool_decide (is_Some (error tc))) tc) by done. by rewrite bool_decide_eq_true_2.
Qed.

(** The statement is checked as the type system says. *)
Definition statement_agrees (n : ast) : Prop := forall tc, error tc = None -> sane (context_of tc) ->
  checks (check_statement n) tc (checked n (context_of tc) (symbols tc)) (fun n' => alike n' n).

Lemma loop_checks ns : Forall statement_agrees ns -> forall tc, error tc = None -> sane (context_of tc) ->
  checks (statement_loop check_statement ns) tc (in_sequence checked ns (context_of tc) (symbols tc))
    (fun ns' => all_alike ns' ns).
Proof.
  induction 1 as [|n ns Hn _ IH]; intros tc He Hs; cbn [statement_loop in_sequence]; [by apply checks_ret|].
  apply checks_passed; [done|]. eapply checks_bind; [by apply Hn|by intros ->|..].
  - intros G n' E Ha _. rewrite E. cbn [mbind option_bind]. specialize (IH (with_symbols G tc) He Hs).
    change (context_of (with_symbols G tc)) with (context_of tc) in IH. cbn [symbols with_symbols] in IH.
    eapply checks_bind; [exact IH|by intros ->|..].
    + intros G' ns' E' Hns _. rewrite E'. apply (checks_ret _ (with_symbols G' tc)). liken.
    + intros ns' tc' Hns _ Hf. apply checks_after; [liken|done].
  - intros n' tc' Ha _ Hf.
    eapply checks_run; [by apply (loop_stops check_statement)|]. apply checks_after; [liken|done].
Qed.

(** The result in another node. *)
Lemma checks_map {A B} (m : TC A) (f : A -> B) tc r (P : A -> Prop) (Q : B -> Prop) : checks m tc r P ->
  (forall a, P a -> Q (f a)) -> checks (a ← m; mret (f a)) tc ('(G, a) ← r; Some (G, f a)) Q.
Proof.
  intros Hm HPQ. eapply checks_bind; [exact Hm|by intros ->|..].
  - intros G a -> HP _. apply (checks_ret _ (with_symbols G tc)). by apply HPQ.
  - intros a tc' HP _ Hf. apply checks_after; [by apply HPQ|done].
Qed.

(** What is only allowed inside of something. *)
Lemma inside_checks (depth : TypeChecker -> nat) e n tc :
  checks (outside ← gets (fun tc => depth tc =? 0); _ ← fail_if outside e; mret n) tc
    (if 0 <? depth tc then Some (symbols tc, n) else None) (fun n' => alike n' n).
Proof.
  apply checks_gets. destruct (depth tc) as [|k]; cbn [Nat.eqb Nat.ltb Nat.leb fail_if].
  - by apply (checks_value _ _ None), value_fail.
  - eapply checks_run; [done|]. by apply checks_ret.
Qed.

Lemma counts_function name parameters types count return_type is_unsafe body :
  counts_ok (AST_FUNCTION_DECLARATION name parameters types count return_type is_unsafe body) = true ->
  count <= length parameters.
Proof. unfold counts_ok, lowered_names, copy_names. destruct (count <=? _) eqn:E; [|done]. intros _. by apply Nat.leb_le. Qed.

Lemma counts_struct name fields count : counts_ok (AST_STRUCT_DECLARATION name fields count) = true -> count <= length fields.
Proof. unfold counts_ok, lowered_names, copy_names. destruct (count <=? _) eqn:E; [|done]. intros _. by apply Nat.leb_le. Qed.

Lemma statement_checks n : lowerable n -> statement_agrees n.
Proof.
  induction n as [n IH] using ast_edges_ind. intros Hl. inversion Hl as [? Hcount Hedges]; subst.
  assert (Forall (fun e => statement_agrees e.2) (edges n)) as Hall.
  { clear Hl Hcount. induction IH; [done|]. apply Forall_cons in Hedges as [H1 H2]. constructor; auto. }
  clear IH Hedges Hl. rename Hall into IH. intros tc He Hs.
  destruct n; cbn [check_statement checked edges] in *; try (by apply checks_ret); by_edges IH.
  - by apply print_checks.
  - apply if_checks; try done; [by apply loop_checks|by apply loop_checks|]. intros ns tc'. apply loop_stops.
  - eapply checks_bind; [by apply condition_checks|by destruct (condition_of _ _ _)|..].
    + intros G c E Hc _. destruct (condition_of _ _ _) as [c'|]; [|done]. injection E as <- <-. rewrite with_same.
      cbn [mbind option_bind].
      pose proof (block_checks _ body (loop_checks _ IH) (loop_stops _ _) 0 1 tc Hs) as H. rewrite He in H.
      eapply checks_map; [exact H|]. intros b Hb. cbv beta in Hb. liken.
    + intros c tc' Hc Hg Hf.
      pose proof (block_checks _ body (loop_checks _ IH) (loop_stops _ _) 0 1 tc' (grows_sane _ _ Hg Hs)) as H.
      destruct Hf as [e Ee]. rewrite Ee in H. apply (checks_map _ (AST_WHILE_STATEMENT c) _ None _ _ H). intros b Hb. liken.
  - assert (parameter_count <= length parameters) as Hc.
    { by apply counts_function in Hcount. }
    pose proof (function_checks _ body (loop_checks _ IH) (loop_stops _ _) name parameters parameter_types parameter_count
      return_type tc He Hs Hc) as H.
    pose proof (checks_map _ (AST_FUNCTION_DECLARATION name parameters parameter_types parameter_count return_type is_unsafe)
      tc _ _ (fun n' => alike n' (AST_FUNCTION_DECLARATION name parameters parameter_types parameter_count return_type is_unsafe body)) H) as Hm.
    cbn [cx_depth context_of]. destruct (parameters_of _ _ _ _) as [ps|]; [|apply Hm; intros b Hb; liken].
    cbn [mbind option_bind] in *. destruct (in_sequence _ _ _ _) as [[G' b']|]; [|apply Hm; intros b Hb; liken].
    cbn [mbind option_bind] in *. destruct (_ && _); apply Hm; intros b Hb; liken.
  - by apply call_checks.
  - pose proof (checks_value _ _ _ _ (return_value tc Hs expression)) as H. destruct (returned _ _ _); exact H.
  - apply (inside_checks loop_depth).
  - apply (inside_checks loop_depth).
  - eapply checks_mono; [by apply declaration_checks|]. intros n' Hn. cbv beta in Hn. liken.
  - pose proof (assignment_checks tc Hs n1 n2) as H. destruct (assignment _ _ _ _); exact H.
  - pose proof (block_checks _ statements (loop_checks _ IH) (loop_stops _ _) 1 0 tc Hs) as H. rewrite He in H.
    eapply checks_map; [exact H|]. intros b Hb. cbv beta in Hb. liken.
  - apply (inside_checks unsafe_depth).
Qed.
