(* ===== verification/TypeResolve.v ===== *)
(** TypeResolve: the resolver of names finds every name of a program that the type checker
    accepts: the scopes of the checker and those of the resolver agree.
    The first part: collecting the declarations of a program, and checking it. *)

From stdpp Require Import list.
From S2P Require Import Prelude Clib Ast ExpressionsProps StatementsFacts Ir IrTrees IrFacts.
From S2P Require Import IrLayout IrLower IrAccess IrScopesFacts TypeNames TypeCheck TypeSystem.
From S2P Require Import TypeCheckFacts TypeCheckExpr TypeCheckStmt TypeCheckBlocks.

(** * Declarations *)

Lemma unique_spec l : unique l = true <-> NoDup l.
Proof.
  induction l as [|x l IH]; cbn [unique]; [split; [constructor|done]|].
  rewrite andb_true_iff, negb_true_iff, <- not_true_iff_false, exists_in, IH, NoDup_cons. done.
Qed.

Lemma find_named {A} (f : A -> bytes) name l :
  find (fun a => bytes_eqb (f a) name) l = None <-> name ∉ map f l.
Proof.
  induction l as [|a l IH]; cbn; [split; [intros _; apply not_elem_of_nil|done]|]. rewrite not_elem_of_cons.
  destruct (bytes_eqb (f a) name) eqn:E.
  - apply bytes_eqb_spec in E. split; [done|]. intros [H _]. by symmetry in E.
  - rewrite IH. split; [intros H; split; [|done]; intros ->; by rewrite (proj2 (bytes_eqb_spec _ _) eq_refl) in E|by intros [_ H]].
Qed.

Lemma fields_run fields : forall seen tc, NoDup seen ->
  exists tc', check_fields seen fields tc = Done (tt, tc') /\
    ((error tc = None /\ NoDup (seen ++ fields) /\ tc' = tc) \/ (~ (error tc = None /\ NoDup (seen ++ fields)) /\ failing tc')).
Proof.
  induction fields as [|x fields IH]; intros seen tc Hseen; cbn [check_fields].
  - exists tc. split; [done|]. rewrite app_nil_r. destruct (error tc) eqn:E; [right|by left]. split; [by intros []|by eexists].
  - assert (NoDup (seen ++ x :: fields) <-> x ∉ seen /\ NoDup ((seen ++ [x]) ++ fields)) as Hdup.
    { rewrite <- app_assoc. cbn. split; [|by intros []]. intros H. split; [|done]. apply NoDup_app in H as (_ & H & _).
      intros Hx. apply (H x Hx). by left. }
    destruct (existsb (bytes_eqb x) seen) eqn:Ex.
    + apply exists_in in Ex. exists (with_error DuplicateField tc).
      assert (failing (with_error DuplicateField tc)) as Hf by (unfold failing; cbn; by destruct (error tc)).
      split; [|right; split; [|done]; intros [_ [H _]%Hdup]; done].
      rewrite (bind_done _ _ tc tt (with_error DuplicateField tc)) by done.
      erewrite (bind_done _ _ (with_error DuplicateField tc)) by done. by rewrite bool_decide_eq_true_2.
    + assert (x ∉ seen) as Hx by (rewrite <- exists_in; by rewrite Ex).
      rewrite (bind_done _ _ tc tt tc) by done. erewrite (bind_done _ _ tc) by done.
      destruct (error tc) as [e|] eqn:Ee.
      * exists tc. split; [done|]. right. split; [by intros []|by eexists].
      * cbn [bool_decide]. destruct (IH (seen ++ [x]) tc) as (tc' & E & H).
        { apply NoDup_app. split; [done|]. split; [|apply NoDup_singleton]. intros y Hy ->%list_elem_of_singleton. done. }
        exists tc'. split; [done|]. rewrite Ee in H. rewrite Hdup. tauto.
Qed.

Lemma with_error_fails e tc : failing (with_error e tc).
Proof. unfold failing. cbn. by destruct (error tc). Qed.

(** One declaration: either it is new and well formed and was added, or there is an error. *)
Definition collected (m : TC unit) (tc : TypeChecker) (ok : Prop) (fs : list FunctionDef) (ss : list StructDef) : Prop :=
  exists tc', m tc = Done (tt, tc') /\
    ((error tc = None /\ ok /\ tc' = with_declarations fs ss tc) \/ (~ (error tc = None /\ ok) /\ failing tc')).

Definition names_ok (fs : list FunctionDef) (ss : list StructDef) : Prop :=
  NoDup (map function_name fs) /\ NoDup (map struct_name ss).

Lemma nodup_snoc (l : list bytes) x : NoDup l -> (NoDup (l ++ [x]) <-> x ∉ l).
Proof.
  intros Hl. rewrite NoDup_app. split.
  - intros (_ & H & _) Hx. apply (H x Hx). by left.
  - intros Hx. split; [done|]. split; [|apply NoDup_singleton]. by intros y Hy ->%list_elem_of_singleton.
Qed.

Lemma collect_function_run name parameters types count return_type is_unsafe tc :
  names_ok (functions tc) (structs tc) ->
  let f := {| function_name := name; arity := count; declared_parameters := parameters;
              declared_types := types; declared_return := return_type; declared_unsafe := is_unsafe |} in
  error tc = None ->
  collected (collect_function name parameters types count return_type is_unsafe) tc
    (names_ok (functions tc ++ [f]) (structs tc)) (functions tc ++ [f]) (structs tc).
Proof.
  intros [Hf Hs] f He. unfold collected, collect_function, names_ok. rewrite (bind_done _ _ _ _ _ (find_function_run name tc)).
  rewrite map_app. cbn [map]. change (function_name f) with name. setoid_rewrite (nodup_snoc _ _ Hf).
  destruct (lookup_function (context_of tc) name) as [g|] eqn:E.
  - exists (with_error DuplicateFunction tc). split; [done|]. right. split; [|apply with_error_fails].
    intros (_ & H & _). apply (find_named function_name) in H. unfold lookup_function in E. cbn in E. congruence.
  - apply (find_named function_name) in E. eexists. split; [done|]. by left.
Qed.

Lemma collect_struct_run name fields count tc : names_ok (functions tc) (structs tc) -> count <= length fields ->
  let s := {| struct_name := name; struct_fields := count |} in
  error tc = None ->
  collected (collect_struct name fields count) tc
    (names_ok (functions tc) (structs tc ++ [s]) /\ unique (take count fields) = true) (functions tc) (structs tc ++ [s]).
Proof.
  intros [Hf Hs] Hc s He. unfold collected, collect_struct, names_ok.
  rewrite (bind_done _ _ tc (take count fields) tc) by (unfold cells; by rewrite (proj2 (Nat.leb_le _ _) Hc)).
  setoid_rewrite unique_spec. rewrite map_app. cbn [map]. change (struct_name s) with name. setoid_rewrite (nodup_snoc _ _ Hs).
  destruct (fields_run (take count fields) [] tc (NoDup_nil_2)) as (tc' & E & Hor). cbn [app] in Hor.
  rewrite (bind_done _ _ _ _ _ E). destruct Hor as [(_ & Hdup & ->)|[Hn Hfail]].
  - erewrite (bind_done _ _ tc) by done. rewrite He. change (bool_decide (is_Some (@None TypeError))) with false. cbv iota.
    rewrite (bind_done _ _ _ _ _ (is_struct_run name tc)). unfold has_struct.
    destruct (find (fun s => bytes_eqb (struct_name s) name) (cx_structs (context_of tc))) as [g|] eqn:Ef.
    + rewrite bool_decide_eq_true_2 by by eexists. exists (with_error DuplicateStruct tc). split; [done|].
      right. split; [|apply with_error_fails]. intros (_ & (_ & H) & _). apply (find_named struct_name) in H.
      cbn in Ef. congruence.
    + rewrite (bool_decide_eq_false_2 (is_Some None)) by (by intros []). apply (find_named struct_name) in Ef. eexists. split; [done|]. by left.
  - erewrite (bind_done _ _ tc') by done. rewrite bool_decide_eq_true_2 by done. exists tc'. split; [done|]. right.
    split; [tauto|done].
Qed.

Definition collect_one (n : ast) : TC unit :=
  match n with
  | AST_FUNCTION_DECLARATION name parameters parameter_types parameter_count return_type is_unsafe _ =>
      collect_function name parameters parameter_types parameter_count return_type is_unsafe
  | AST_STRUCT_DECLARATION name fields field_count => collect_struct name fields field_count
  | _ => mret tt
  end.

Lemma collect_one_run n tc : counts_ok n = true -> names_ok (functions tc) (structs tc) -> error tc = None ->
  collected (collect_one n) tc
    (names_ok (functions tc ++ function_of n) (structs tc ++ struct_of n) /\ fields_ok n = true)
    (functions tc ++ function_of n) (structs tc ++ struct_of n).
Proof.
  intros Hc Hn He.
  destruct n; try (by exists tc; rewrite !app_nil_r; split; [|left; destruct tc]); cbn [collect_one function_of struct_of fields_ok];
    rewrite app_nil_r.
  - destruct (collect_function_run name parameters parameter_types parameter_count return_type is_unsafe tc Hn He)
      as (tc' & E & H). exists tc'. split; [exact E|]. tauto.
  - apply counts_struct in Hc. destruct (collect_struct_run name fields field_count tc Hn Hc He) as (tc' & E & H).
    exists tc'. split; [exact E|]. tauto.
Qed.

Lemma collect_one_failing n tc : counts_ok n = true -> failing tc -> exists tc', collect_one n tc = Done (tt, tc') /\ failing tc'.
Proof.
  intros Hc Hf. destruct n; try (by exists tc); cbn [collect_one].
  - unfold collect_function. rewrite (bind_done _ _ _ _ _ (find_function_run name tc)).
    destruct (lookup_function _ _); eexists; (split; [done|]); [apply with_error_fails|done].
  - apply counts_struct in Hc. unfold collect_struct.
    rewrite (bind_done _ _ tc (take field_count fields) tc) by (unfold cells; by rewrite (proj2 (Nat.leb_le _ _) Hc)).
    destruct (fields_run (take field_count fields) [] tc (NoDup_nil_2)) as (tc' & E & [(Hn & _)|[_ Hf']]).
    { by destruct Hf as [e He]; rewrite He in Hn. }
    exists tc'. split; [|done]. rewrite (bind_done _ _ _ _ _ E). erewrite (bind_done _ _ tc') by done.
    by rewrite bool_decide_eq_true_2.
Qed.

Lemma collect_failing ns : Forall (fun n => counts_ok n = true) ns -> forall tc, failing tc ->
  exists tc', collect_declarations ns tc = Done (tt, tc') /\ failing tc'.
Proof.
  induction 1 as [|n ns Hn _ IH]; intros tc Hf; [by exists tc|]. cbn [collect_declarations].
  destruct (collect_one_failing n tc Hn Hf) as (tc1 & E1 & Hf1). destruct (IH tc1 Hf1) as (tc2 & E2 & Hf2).
  exists tc2. split; [|done]. by rewrite (bind_done _ _ _ _ _ E1).
Qed.

Lemma names_app fs fs' ss ss' : names_ok (fs ++ fs') (ss ++ ss') -> names_ok fs ss.
Proof. unfold names_ok. rewrite !map_app, !NoDup_app. tauto. Qed.

Lemma collect_run ns : Forall (fun n => counts_ok n = true) ns -> forall tc, names_ok (functions tc) (structs tc) -> error tc = None ->
  collected (collect_declarations ns) tc
    (names_ok (functions tc ++ functions_of ns) (structs tc ++ structs_of ns) /\ forallb fields_ok ns = true)
    (functions tc ++ functions_of ns) (structs tc ++ structs_of ns).
Proof.
  induction 1 as [|n ns Hn Hns IH]; intros tc Hok He.
  { exists tc. split; [done|]. left. cbn. rewrite !app_nil_r. by destruct tc. }
  cbn [collect_declarations]. unfold functions_of, structs_of. cbn [map concat forallb].
  fold (functions_of ns) (structs_of ns). rewrite !app_assoc. pose proof (andb_true_iff (fields_ok n) (forallb fields_ok ns)) as Hand.
  destruct (collect_one_run n tc Hn Hok He) as (tc1 & E1 & [(_ & [Hok1 Hf1] & ->)|[Hbad Hfail]]).
  - set (tc1 := with_declarations (functions tc ++ function_of n) (structs tc ++ struct_of n) tc) in *. destruct (IH tc1 Hok1 He) as (tc2 & E2 & H). exists tc2.
    split; [by rewrite (bind_done _ _ _ _ _ E1)|]. cbn [functions structs tc1 with_declarations] in H. tauto.
  - destruct (collect_failing ns Hns tc1 Hfail) as (tc2 & E2 & Hf2). exists tc2.
    split; [by rewrite (bind_done _ _ _ _ _ E1)|]. right. split; [|done]. intros (_ & H1 & H2). apply Hbad.
    apply names_app in H1. tauto.
Qed.

Lemma declarations_spec ns : declarations_ok ns = true <->
  names_ok (functions_of ns) (structs_of ns) /\ forallb fields_ok ns = true.
Proof. unfold declarations_ok, names_ok. by rewrite !andb_true_iff, !unique_spec. Qed.

(** * Programs *)

Lemma functions_sane ns : Forall (fun n => counts_ok n = true) ns -> sane (program_context ns).
Proof.
  unfold sane. cbn [cx_functions program_context]. unfold functions_of. induction 1 as [|n ns Hn _ IH]; [constructor|].
  cbn [map concat]. apply Forall_app. split; [|done]. destruct n; try constructor; [|constructor]. by apply counts_function in Hn.
Qed.

Lemma check_program_run ss : Forall lowerable ss ->
  exists ss' tc, check_program ss checker = Done (ss', tc) /\ all_alike ss' ss /\
    match accepted ss with Some ss'' => error tc = None /\ ss' = ss'' | None => failing tc end.
Proof.
  intros Hl. assert (Forall (fun n => counts_ok n = true) ss) as Hc by (eapply Forall_impl; [exact Hl|]; by intros n []).
  unfold check_program, accepted.
  destruct (collect_run ss Hc checker) as (tc1 & E1 & H); [split; constructor|done|].
  cbn [functions structs checker app] in H. rewrite <- declarations_spec in H. rewrite (bind_done _ _ _ _ _ E1).
  destruct H as [(_ & Hok & ->)|[Hbad Hf]].
  - rewrite Hok. set (tc1 := with_declarations (functions_of ss) (structs_of ss) checker). erewrite (bind_done _ _ tc1) by done.
    change (bool_decide (is_Some (error tc1))) with false. cbv iota.
    destruct (loop_checks ss) with (tc := tc1) as (ss' & tc2 & E2 & Ha & _ & Hr); [|done|by apply functions_sane|].
    { eapply Forall_impl; [exact Hl|]. intros n. apply statement_checks. }
    exists ss', tc2. split; [exact E2|]. split; [done|].
    change (in_sequence checked ss (context_of tc1) (symbols tc1)) with (in_sequence checked ss (program_context ss) []) in Hr.
    destruct (in_sequence _ _ _ _) as [[G ss'']|]; [|done]. destruct Hr as [-> ->]. done.
  - erewrite (bind_done _ _ tc1) by done. rewrite bool_decide_eq_true_2 by done. exists ss, tc1. split; [done|]. split; [done|].
    destruct (declarations_ok ss); [|done]. by destruct Hbad.
Qed.

(** * Names in scope *)

Definition covers (xs : list bytes) (s : scope) : Prop :=
  forall x, x ∈ xs -> is_Some (lookup_env x (sc_env s)).

(** Where [xs] are in scope nothing is missing, and [ys] are in scope afterwards. *)
Definition succeeds (f : Res) (xs ys : list bytes) : Prop :=
  forall s, covers xs s -> exists s' r, f s = Some (s', r) /\ covers ys s'.

Lemma succeeds_skip xs ys : ys ⊆ xs -> succeeds skip xs ys.
Proof. intros H s Hs. exists s, []. split; [done|]. intros x Hx. by apply Hs, H. Qed.

Lemma succeeds_seq a b xs ys zs : succeeds a xs ys -> succeeds b ys zs -> succeeds (seq_res a b) xs zs.
Proof.
  intros Ha Hb s Hs. unfold seq_res. destruct (Ha s Hs) as (s1 & r1 & -> & H1).
  destruct (Hb s1 H1) as (s2 & r2 & -> & H2). eauto.
Qed.

Lemma succeeds_scoped a xs ys zs : succeeds a xs ys -> zs ⊆ xs -> succeeds (scoped a) xs zs.
Proof.
  intros Ha Hz s Hs. unfold scoped. destruct (Ha s Hs) as (s1 & r1 & -> & H1). eexists _, _. split; [done|].
  intros x Hx. by apply Hs, Hz.
Qed.

Lemma succeeds_weaken a xs ys zs : succeeds a xs ys -> zs ⊆ ys -> succeeds a xs zs.
Proof. intros Ha Hz s Hs. destruct (Ha s Hs) as (s1 & r1 & E & H1). exists s1, r1. split; [done|]. intros x Hx. by apply H1, Hz. Qed.

Lemma succeeds_all l xs : Forall (fun f => succeeds f xs xs) l -> succeeds (seq_all l) xs xs.
Proof. induction 1; [by apply succeeds_skip|]. by eapply succeeds_seq. Qed.

Lemma succeeds_use i x xs : x ∈ xs -> succeeds (use i x) xs xs.
Proof. intros H s Hs. unfold use. destruct (Hs x H) as [key ->]. eauto. Qed.

Lemma lookup_extend x y s : lookup_env x (sc_env (extend y s)) =
  if bytes_eqb y x then Some (symbol_key (sc_id s) y) else lookup_env x (sc_env s).
Proof. unfold lookup_env. cbn. by destruct (bytes_eqb y x). Qed.

Lemma covers_extend xs x s : covers xs s -> covers (xs ++ [x]) (extend x s).
Proof.
  intros H y Hy. rewrite lookup_extend. destruct (bytes_eqb x y) eqn:E; [by eexists|]. apply H.
  apply elem_of_app in Hy as [Hy|Hy%list_elem_of_singleton]; [done|]. subst. by rewrite (proj2 (bytes_eqb_spec x x) eq_refl) in E.
Qed.

Lemma succeeds_declare i x xs : succeeds (declare i x) xs (xs ++ [x]).
Proof. intros s Hs. unfold declare. eexists _, _. split; [done|]. by apply covers_extend. Qed.

(** * Trees of syntax trees *)

Definition stands (e : VntIrEdgeRole * ast) (t : tree) : Prop := erase t = edge_hir e.

Lemma stands_inv r n t : stands (r, n) t ->
  exists i ts, t = Tree i (label_role r (label_of_ast n)) ts /\ Forall2 stands (edges n) ts.
Proof.
  unfold stands, edge_hir, hir_role. cbn [fst snd]. rewrite hir_of_edges. cbn [hir_label hir_children].
  destruct t as [i l ts]. cbn [erase]. intros Eq. pose proof (f_equal hir_label Eq) as El.
  apply (f_equal hir_children) in Eq. cbn [hir_label hir_children] in El, Eq. subst l. exists i, ts. split; [done|].
  revert Eq. generalize (edges n) as es. induction ts as [|t ts IH]; intros [|e es] Eq; try done. cbn [map] in Eq.
  pose proof (f_equal head Eq) as E1. apply (f_equal tail) in Eq. cbn in E1, Eq.
  constructor; [by apply (inj Some)|by apply IH].
Qed.

Lemma stands_role e t : stands e t -> l_role (label t) = e.1.
Proof. destruct e as [r n]. intros H. by apply stands_inv in H as (i & ts & -> & _). Qed.

Definition roles_of (ts : list tree) : list (VntIrEdgeRole * Res) := map (fun t => (l_role (label t), resolve t)) ts.

Lemma resolve_tree i l ts : resolve (Tree i l ts) = resolve_node i l (roles_of ts).
Proof. done. Qed.

(** The children in a role. *)
Lemma in_role_edges r es ts : Forall2 stands es ts ->
  exists us, in_role r (roles_of ts) = seq_all (map resolve us) /\ Forall2 stands (filter (fun e => e.1 = r) es) us.
Proof.
  intros H. exists (role_trees r ts). split; [apply in_role_trees|]. unfold role_trees.
  induction H as [|e t es ts He _ IH]; [constructor|]. rewrite !filter_cons. pose proof (stands_role _ _ He) as Hr.
  rewrite Hr. case_decide; [by constructor|done].
Qed.

Lemma filter_same (r : VntIrEdgeRole) (ns : list ast) : filter (fun e => e.1 = r) (map (pair r) ns) = map (pair r) ns.
Proof. induction ns as [|n ns IH]; [done|]. cbn [map]. by rewrite filter_cons, decide_True, IH. Qed.

Lemma filter_other (r r' : VntIrEdgeRole) (ns : list ast) : r' <> r -> filter (fun e => e.1 = r) (map (pair r') ns) = [].
Proof. intros H. induction ns as [|n ns IH]; [done|]. cbn [map]. by rewrite filter_cons, decide_False. Qed.

(** * Expressions *)

Lemma node_succeeds i l ts xs : Forall (fun t => succeeds (resolve t) xs xs) ts ->
  l_opcode l <> VNT_IR_VARIABLE -> l_opcode l <> VNT_IR_VARIABLE_DECL -> l_opcode l <> VNT_IR_REASSIGN ->
  succeeds (resolve (Tree i l ts)) xs xs.
Proof.
  intros H H1 H2 H3. rewrite resolve_tree. unfold resolve_node.
  assert (forall r, succeeds (in_role r (roles_of ts)) xs xs) as Hr.
  { intros r. unfold roles_of. rewrite in_role_trees. apply succeeds_all, Forall_map. rewrite Forall_forall in *. unfold role_trees.
    intros t [_ Ht]%list_elem_of_filter. by apply H. }
  assert (succeeds (seq_all (map snd (roles_of ts))) xs xs) as Hall.
  { unfold roles_of. rewrite map_map. by apply succeeds_all, Forall_map. }
  destruct (l_opcode l); try done; eauto using succeeds_seq, succeeds_skip, succeeds_scoped.
Qed.

(** The children of a node, one by one. *)
Ltac each_child H :=
  repeat match type of H with
  | Forall2 stands (_ :: _) _ => let H1 := fresh "Hu" in apply Forall2_cons_inv_l in H as (? & ? & H1 & H & ->)
  | Forall2 stands [] _ => apply Forall2_nil_inv_l in H as ->
  end.

Section expressions.
Context (cx : Context) (G : list Symbol) (xs : list bytes).
Hypothesis HG : forall x, is_declared G x = true -> x ∈ xs.

(** The full form of the expression is resolved. *)
Definition bound (n : ast) : Prop := forall v r t,
  type_of cx G n = Some v -> expression_wf n = true -> stands (r, v.2) t -> succeeds (resolve t) xs xs.

Lemma bound_all ns : Forall bound ns -> forall vs ts r, forallb expression_wf ns = true ->
  collect (map (type_of cx G) ns) = Some vs -> Forall2 stands (map (pair r) (map snd vs)) ts ->
  Forall (fun t => succeeds (resolve t) xs xs) ts.
Proof.
  induction 1 as [|m ns Hm _ IH]; intros vs ts r Hwf E Hts; cbn in E.
  { injection E as <-. by inversion Hts. }
  apply andb_true_iff in Hwf as [Hwm Hwf]. destruct (type_of cx G m) as [w|] eqn:Em; [|done]. cbn in E.
  destruct (collect _) as [ws|]; [|done]. injection E as <-. inversion Hts as [|? t0 ? ts0 Ht0 Hts0]; subst.
  constructor; [by eapply Hm|by eapply IH].
Qed.

Lemma bound_node n r t : stands (r, n) t ->
  (forall ts, Forall2 stands (edges n) ts -> Forall (fun t => succeeds (resolve t) xs xs) ts) ->
  lowered_opcode n <> VNT_IR_VARIABLE -> lowered_opcode n <> VNT_IR_VARIABLE_DECL -> lowered_opcode n <> VNT_IR_REASSIGN ->
  succeeds (resolve t) xs xs.
Proof. intros Ht Hts H1 H2 H3. apply stands_inv in Ht as (i & ts & -> & H). by apply node_succeeds; [apply Hts|..]. Qed.

Lemma expression_bound n : bound n.
Proof.
  induction n as [n IH] using ast_edges_ind. intros v r t Hv Hw Ht.
  destruct n; cbn [type_of edges expression_wf] in *; try done;
    try (injection Hv as <-; apply (bound_node _ _ _ Ht); try done; intros ts Hts; cbn [edges snd] in Hts; by each_child Hts);
    by_edges IH.
  - destruct (collect _) as [vs|] eqn:E; [|done]. cbn in Hv. destruct (_ && _); [|done]. injection Hv as <-.
    apply andb_true_iff in Hw as [_ Hw]. apply (bound_node _ _ _ Ht); try done. intros ts Hts. cbn [edges snd] in Hts. by eapply bound_all.
  - destruct (collect _) as [vs|] eqn:E; [|done]. cbn in Hv. destruct (forallb _ _); [|done]. injection Hv as <-.
    apply andb_true_iff in Hw as [_ Hw]. apply (bound_node _ _ _ Ht); try done. intros ts Hts. cbn [edges snd] in Hts. by eapply bound_all.
  - destruct (lookup_symbol G name) as [s|] eqn:E; [|done]. cbn in Hv. destruct (type_eqb _ _); [done|]. injection Hv as <-.
    apply stands_inv in Ht as (i & ts & -> & Hts). rewrite resolve_tree. apply (succeeds_use _ name), HG.
    unfold is_declared, lookup_symbol in *. by destruct (last_index name G 0).
  - apply andb_true_iff in Hw as [Hw1 Hw2].
    destruct (type_of cx G n1) as [[t1 e1]|] eqn:E1; [|done]. cbn in Hv.
    destruct (type_of cx G n2) as [[t2 e2]|] eqn:E2; [|done]. cbn in Hv. destruct (index_result _ _); [|done]. injection Hv as <-.
    apply (bound_node _ _ _ Ht); try done. intros ts Hts. cbn [edges snd] in Hts. each_child Hts. repeat constructor; eauto.
  - destruct (type_of cx G n) as [[t1 e1]|] eqn:E1; [|done]. cbn in Hv. destruct (type_eqb _ _); [done|]. injection Hv as <-.
    apply (bound_node _ _ _ Ht); try done. intros ts Hts. cbn [edges snd] in Hts. each_child Hts. repeat constructor; eauto.
  - apply andb_true_iff in Hw as [Hw1 Hw2].
    destruct (type_of cx G n1) as [[t1 e1]|] eqn:E1; [|done]. cbn in Hv.
    destruct (type_of cx G n2) as [[t2 e2]|] eqn:E2; [|done]. cbn in Hv. destruct (binary_result _ _ _ _ _); [|done]. injection Hv as <-.
    apply (bound_node _ _ _ Ht); try done. intros ts Hts. cbn [edges snd] in Hts. each_child Hts. repeat constructor; eauto.
  - destruct (type_of cx G n) as [[t1 e1]|] eqn:E1; [|done]. cbn in Hv. destruct (unary_result _ _); [|done]. injection Hv as <-.
    apply (bound_node _ _ _ Ht); try done. intros ts Hts. cbn [edges snd] in Hts. each_child Hts. repeat constructor; eauto.
Qed.
End expressions.

(** * Statements *)

Notation names_in := (map symbol_name).

Lemma last_index_none x G : forall i, last_index x G i = None <-> x ∉ names_in G.
Proof.
  induction G as [|s G IH]; intros i; cbn; [split; [intros _; apply not_elem_of_nil|done]|].
  rewrite not_elem_of_cons, <- (IH (S i)). destruct (last_index x G (S i)) as [k|]; [by split; [|intros []]|].
  destruct (bytes_eqb (symbol_name s) x) eqn:E.
  - apply bytes_eqb_spec in E. split; [done|]. by intros [H _].
  - split; [|done]. intros _. split; [|done]. intros ->. by rewrite (proj2 (bytes_eqb_spec _ _) eq_refl) in E.
Qed.

Lemma declared_in x G : is_declared G x = true <-> x ∈ names_in G.
Proof.
  unfold is_declared. rewrite bool_decide_eq_true. pose proof (last_index_none x G 0) as H.
  destruct (last_index x G 0) as [i|]; [|split; [by intros []|intros Hx; by destruct (proj1 H eq_refl)]].
  split; [|by eexists]. intros _. destruct (decide (x ∈ names_in G)) as [?|Hx]; [done|by apply H in Hx].
Qed.

Lemma same_names G G' : same_symbols G G' -> names_in G' = names_in G.
Proof.
  unfold same_symbols. intros E. apply (f_equal (map (fun p => p.1.1))) in E. rewrite !map_map in E. symmetry. exact E.
Qed.

Lemma kept_names G G' : kept G G' -> names_in G ⊆ names_in G'.
Proof.
  unfold kept. intros [l E]. apply (f_equal (map (fun p => p.1.1))) in E. rewrite map_app, !map_map in E.
  intros x Hx. change (x ∈ map (fun s => (identity_of s).1.1) G') . rewrite E. apply elem_of_app. by left.
Qed.

(** Resolution of the statement goes along with its check, whatever else is in scope. *)
Definition follows (n : ast) : Prop := forall cx G G' n' r t E,
  checked n cx G = Some (G', n') -> statement_wf n = true -> stands (r, n') t ->
  succeeds (resolve t) (E ++ names_in G) (E ++ names_in G').

Lemma sequence_follows ns : Forall follows ns -> forall cx G G' ns' r us E,
  in_sequence checked ns cx G = Some (G', ns') -> forallb statement_wf ns = true ->
  Forall2 stands (map (pair r) ns') us ->
  succeeds (seq_all (map resolve us)) (E ++ names_in G) (E ++ names_in G').
Proof.
  induction 1 as [|n ns Hn _ IH]; intros cx G G' ns' r us E Hc Hw Hus; cbn [in_sequence] in Hc.
  { injection Hc as <- <-. inversion Hus; subst. by apply succeeds_skip. }
  apply andb_true_iff in Hw as [Hwn Hw]. destruct (checked n cx G) as [[G1 n1]|] eqn:E1; [|done]. cbn [mbind option_bind] in Hc.
  destruct (in_sequence checked ns cx G1) as [[G2 ns2]|] eqn:E2; [|done]. injection Hc as <- <-.
  cbn [map] in Hus. each_child Hus. cbn [map seq_all foldr]. eapply succeeds_seq; [by eapply Hn|by eapply IH].
Qed.

Lemma block_follows ns cx G G' ns' r us E : Forall follows ns ->
  block (in_sequence checked) ns cx G = Some (G', ns') -> forallb statement_wf ns = true ->
  Forall2 stands (map (pair r) ns') us ->
  exists ys, succeeds (seq_all (map resolve us)) (E ++ names_in G) (E ++ ys) /\ names_in G ⊆ ys /\ names_in G' = names_in G.
Proof.
  intros HF Hb Hw Hus. pose proof (same_names _ _ (checked_block_same _ _ _ _ _ Hb)) as Hsame. unfold block in Hb.
  destruct (in_sequence _ _ _ _) as [[G1 ns1]|] eqn:E1; [|done]. injection Hb as <- <-.
  exists (names_in G1). split; [by eapply sequence_follows|]. split; [|done].
  by apply kept_names, (statements_kept _ _ _ _ _ E1).
Qed.

(** A body with symbols of its own, in a scope of its own or not. *)
Lemma block_scoped ns cx G G' ns' r us E : Forall follows ns ->
  block (in_sequence checked) ns cx G = Some (G', ns') -> forallb statement_wf ns = true ->
  Forall2 stands (map (pair r) ns') us ->
  succeeds (scoped (seq_all (map resolve us))) (E ++ names_in G) (E ++ names_in G).
Proof.
  intros HF Hb Hw Hus. destruct (block_follows ns cx G G' ns' r us E HF Hb Hw Hus) as (ys & H & _ & _).
  by eapply succeeds_scoped.
Qed.

Lemma block_open ns cx G G' ns' r us E : Forall follows ns ->
  block (in_sequence checked) ns cx G = Some (G', ns') -> forallb statement_wf ns = true ->
  Forall2 stands (map (pair r) ns') us ->
  succeeds (seq_all (map resolve us)) (E ++ names_in G) (E ++ names_in G').
Proof.
  intros HF Hb Hw Hus. destruct (block_follows ns cx G G' ns' r us E HF Hb Hw Hus) as (ys & H & Hsub & ->).
  eapply succeeds_weaken; [exact H|]. intros x. rewrite !elem_of_app. intros [?|?]; [by left|right; by apply Hsub].
Qed.

(** The children in one role, in order. *)
Ltac of_role H :=
  repeat (first [rewrite filter_cons in H; cbn [fst] in H | rewrite filter_app in H
                |rewrite decide_True in H by done | rewrite decide_False in H by done
                |rewrite filter_same in H | rewrite filter_other in H by done | rewrite filter_nil in H]);
  cbn [app] in H; rewrite ?app_nil_r in H.

(** The only child in the role is an expression. *)
Lemma role_expression cx G E e v r es ts : type_of cx G e = Some v -> expression_wf e = true ->
  Forall2 stands es ts -> filter (fun e => e.1 = r) es = [(r, v.2)] ->
  succeeds (in_role r (roles_of ts)) (E ++ names_in G) (E ++ names_in G).
Proof.
  intros Hv Hw Hts Hf. destruct (in_role_edges r _ _ Hts) as (us & -> & Hus). rewrite Hf in Hus.
  each_child Hus. cbn [map seq_all foldr]. eapply succeeds_seq; [|by apply succeeds_skip].
  eapply expression_bound; [|done..]. intros y Hy%declared_in. apply elem_of_app. by right.
Qed.

Lemma names_snoc G x type explicit depth : names_in (G ++ [new_symbol x type explicit depth]) = names_in G ++ [x].
Proof. by rewrite map_app. Qed.

Lemma insert_names G i s s' : G !! i = Some s -> symbol_name s' = symbol_name s -> names_in (<[i := s']> G) = names_in G.
Proof.
  intros H E. revert i H. induction G as [|a G IH]; intros [|i]; cbn; try done.
  - intros [= ->]. by rewrite E.
  - intros H. f_equal. by apply IH.
Qed.

(** A declaration marked as the checker marks it. *)
Lemma declaration_follows x declared_type value cx G G' n' r t E :
  declaration cx G x declared_type value = Some (G', n') -> expression_wf value = true -> stands (r, n') t ->
  succeeds (resolve t) (E ++ names_in G) (E ++ names_in G').
Proof.
  unfold declaration. intros Hd Hw Ht. destruct (type_of cx G value) as [[tv v]|] eqn:Ev; [|done]. cbn [mbind option_bind] in Hd.
  destruct (type_eqb tv TY_VOID); [done|].
  assert (forall flag ts, Forall2 stands (edges (AST_VARIABLE_DECLARATION x declared_type v flag)) ts ->
    succeeds (in_role VNT_IR_EDGE_VALUE (roles_of ts)) (E ++ names_in G) (E ++ names_in G)) as Hvalue.
  { intros flag ts Hts. eapply role_expression; [exact Ev|done|exact Hts|]. done. }
  assert (forall flag, stands (r, AST_VARIABLE_DECLARATION x declared_type v flag) t -> flag = false ->
    succeeds (resolve t) (E ++ names_in G) (E ++ names_in G ++ [x])) as Hnew.
  { intros flag Hst ->. apply stands_inv in Hst as (i & ts & -> & Hts). rewrite resolve_tree.
    eapply succeeds_seq; [by apply (Hvalue false)|]. rewrite app_assoc. apply succeeds_declare. }
  destruct declared_type as [type|].
  - unfold annotated in Hd. destruct (_ && _); [|done]. injection Hd as <- <-. rewrite names_snoc. by apply (Hnew false).
  - unfold assigned in Hd. destruct (last_index x G 0) as [k|] eqn:Ek.
    + destruct (last_index_lookup _ _ _ Ek) as [s Hs]. rewrite Hs in Hd. cbn [mbind option_bind] in Hd.
      destruct (_ && _); [done|]. destruct (retyped s tv) as [s'|] eqn:Er; [|done]. injection Hd as <- <-.
      assert (symbol_name s' = symbol_name s) as Hname.
      { unfold retyped in Er. repeat case_match; try done; by injection Er as <-. }
      rewrite (insert_names _ _ _ _ Hs Hname). unfold is_declared in Ht. rewrite Ek in Ht.
      apply stands_inv in Ht as (i & ts & -> & Hts). rewrite resolve_tree. eapply succeeds_seq; [by apply (Hvalue true)|].
      apply (succeeds_use _ x). apply elem_of_app. right. apply declared_in. unfold is_declared. by rewrite Ek.
    + injection Hd as <- <-. rewrite names_snoc. apply (Hnew _ Ht). unfold is_declared. by rewrite Ek.
Qed.

Lemma condition_full cx G n c : condition_of cx G n = Some c -> exists t, type_of cx G n = Some (t, c).
Proof.
  unfold condition_of. destruct (type_of cx G n) as [[t e]|]; [|done]. cbn. destruct (known_or t TY_BOOL); [|done].
  intros [= ->]. by exists t.
Qed.

Lemma covers_declared cx G E e v r t : type_of cx G e = Some v -> expression_wf e = true -> stands (r, v.2) t ->
  succeeds (resolve t) (E ++ names_in G) (E ++ names_in G).
Proof. intros Hv Hw Ht. eapply expression_bound; [|done..]. intros y Hy%declared_in. apply elem_of_app. by right. Qed.

Lemma assignable_wf n : assignable n = true -> expression_wf n = true.
Proof. destruct n; try done. by destruct operator. Qed.

Lemma statement_follows n : follows n.
Proof.
  induction n as [n IH] using ast_edges_ind. intros cx G G' n' r t E Hc Hw Ht.
  destruct n; cbn [checked statement_wf edges] in *; try done; by_edges IH.
  - destruct (type_of cx G n) as [v|] eqn:Ev; [|done]. cbn [mbind option_bind] in Hc. destruct (not_void v); [|done].
    injection Hc as <- <-. apply (bound_node _ _ _ _ Ht); try done. intros ts Hts. cbn [edges] in Hts. each_child Hts.
    repeat constructor. by eapply covers_declared.
  - apply andb_true_iff in Hw as [[Hw1 Hw2]%andb_true_iff Hw3].
    destruct (condition_of cx G n) as [c|] eqn:Ecnd; [|done]. cbn [mbind option_bind] in Hc. apply condition_full in Ecnd as [tc Ec].
    destruct (block _ then_branch _ _) as [[G1 b1]|] eqn:E1; [|done]. cbn [mbind option_bind] in Hc.
    destruct (block _ else_branch _ _) as [[G2 b2]|] eqn:E2; [|done]. injection Hc as <- <-.
    rewrite (same_names _ _ (zip3_joined G G1 G2 (checked_block_same _ _ _ _ _ E1) (checked_block_same _ _ _ _ _ E2))).
    apply stands_inv in Ht as (i & ts & -> & Hts). rewrite resolve_tree. cbn [edges] in Hts.
    eapply succeeds_seq; [eapply role_expression; [exact Ec|done|exact Hts|]|].
    { rewrite filter_cons, filter_app, decide_True, !filter_other by done. done. }
    eapply succeeds_seq.
    + destruct (in_role_edges VNT_IR_EDGE_THEN _ _ Hts) as (us & -> & Hus). of_role Hus. exact (block_scoped _ _ _ _ _ _ _ E IH1 E1 Hw2 Hus).
    + destruct (in_role_edges VNT_IR_EDGE_ELSE _ _ Hts) as (us & -> & Hus). of_role Hus. exact (block_scoped _ _ _ _ _ _ _ E IH E2 Hw3 Hus).
  - apply andb_true_iff in Hw as [Hw1 Hw2].
    destruct (condition_of cx G n) as [c|] eqn:Ecnd; [|done]. cbn [mbind option_bind] in Hc. apply condition_full in Ecnd as [tc Ec].
    destruct (block _ body _ _) as [[G1 b1]|] eqn:E1; [|done]. injection Hc as <- <-.
    rewrite (same_names _ _ (checked_block_same _ _ _ _ _ E1)).
    apply stands_inv in Ht as (i & ts & -> & Hts). rewrite resolve_tree. cbn [edges] in Hts.
    eapply succeeds_seq; [eapply role_expression; [exact Ec|done|exact Hts|]|].
    { rewrite filter_cons, decide_True, filter_other by done. done. }
    destruct (in_role_edges VNT_IR_EDGE_BODY _ _ Hts) as (us & -> & Hus). of_role Hus. exact (block_scoped _ _ _ _ _ _ _ E IH E1 Hw2 Hus).
  - destruct (parameters_of _ _ _ _) as [ps|]; [|done]. cbn [mbind option_bind] in Hc.
    destruct (in_sequence _ _ _ _) as [[G1 b1]|] eqn:E1; [|done]. cbn [mbind option_bind] in Hc. destruct (_ && _); [|done].
    injection Hc as <- <-. apply statements_kept in E1.
    rewrite (same_names _ _ (kept_take G G1 (transitivity (kept_app G ps) E1))).
    apply stands_inv in Ht as (i & ts & -> & _). rewrite resolve_tree. by apply succeeds_skip.
  - injection Hc as <- <-. apply (bound_node _ _ _ _ Ht); [intros ts Hts; cbn [edges] in Hts; by each_child Hts|done..].
  - destruct (type_of cx G (AST_FUNCTION_CALL name arguments argument_count)) as [[tv e]|] eqn:Ev; [|done]. cbn [mbind option_bind] in Hc. injection Hc as <- <-.
    by eapply (covers_declared cx G E _ (tv, e)).
  - unfold returned in Hc. destruct (cx_return cx) as [expected|]; [|done]. cbn [mbind option_bind] in Hc.
    destruct expression as [e|].
    + destruct (type_of cx G e) as [[tv v]|] eqn:Ev; [|done]. cbn [mbind option_bind] in Hc. destruct (return_ok _ _); [|done].
      injection Hc as <- <-. apply (bound_node _ _ _ _ Ht); try done. intros ts Hts. cbn [edges] in Hts. each_child Hts.
      repeat constructor. by eapply (covers_declared cx G E _ (tv, v)).
    + destruct (return_ok _ _); [|done]. injection Hc as <- <-.
      apply (bound_node _ _ _ _ Ht); [intros ts Hts; cbn [edges] in Hts; by each_child Hts|done..].
  - destruct (0 <? cx_loop cx); [|done]. injection Hc as <- <-.
    apply (bound_node _ _ _ _ Ht); [intros ts Hts; cbn [edges] in Hts; by each_child Hts|done..].
  - destruct (0 <? cx_loop cx); [|done]. injection Hc as <- <-.
    apply (bound_node _ _ _ _ Ht); [intros ts Hts; cbn [edges] in Hts; by each_child Hts|done..].
  - apply andb_true_iff in Hw as [Hw _]. by eapply declaration_follows.
  - apply andb_true_iff in Hw as [Hw1 Hw2]. unfold assignment in Hc.
    destruct (type_of cx G n1) as [[t1 e1]|] eqn:Ev1; [|done]. cbn [mbind option_bind] in Hc.
    destruct (type_of cx G n2) as [[t2 e2]|] eqn:Ev2; [|done]. cbn [mbind option_bind] in Hc. destruct (_ && _); [|done].
    injection Hc as <- <-. apply (bound_node _ _ _ _ Ht); try done. intros ts Hts. cbn [edges] in Hts. each_child Hts.
    repeat constructor; [eapply (covers_declared cx G E _ (t1, e1)); [exact Ev1|by apply assignable_wf|exact Hu]|by eapply (covers_declared cx G E _ (t2, e2))].
  - destruct (block _ statements _ _) as [[G1 b1]|] eqn:E1; [|done]. injection Hc as <- <-.
    apply stands_inv in Ht as (i & ts & -> & Hts). rewrite resolve_tree. cbn [edges] in Hts.
    change (succeeds (in_role VNT_IR_EDGE_STATEMENT (roles_of ts)) (E ++ names_in G) (E ++ names_in G1)).
    destruct (in_role_edges VNT_IR_EDGE_STATEMENT _ _ Hts) as (us & -> & Hus). of_role Hus.
    exact (block_open _ _ _ _ _ _ _ E IH E1 Hw Hus).
  - destruct (0 <? cx_unsafe cx); [|done]. injection Hc as <- <-.
    apply (bound_node _ _ _ _ Ht); [intros ts Hts; cbn [edges] in Hts; by each_child Hts|done..].
Qed.

(** * Programs *)

Lemma parameters_succeed i ns : forall p xs, succeeds (resolve_parameters i p ns) xs (xs ++ ns).
Proof.
  induction ns as [|x ns IH]; intros p xs; [rewrite app_nil_r; by apply succeeds_skip|].
  intros s Hs. cbn [resolve_parameters]. destruct (IH (S p) (xs ++ [x]) (extend x s)) as (s' & r & -> & H).
  { by apply covers_extend. }
  eexists _, _. split; [done|]. by rewrite <- app_assoc in H.
Qed.

Lemma parameters_names depth ps : forall seen types l, parameters_of depth seen ps types = Some l -> names_in l = ps.
Proof.
  induction ps as [|p ps IH]; intros seen types l; cbn [parameters_of]; [by intros [= <-]|].
  destruct (_ && _); [|done]. destruct (parameters_of _ _ ps _) as [l'|] eqn:E; [|done]. intros [= <-]. cbn.
  by rewrite (IH _ _ _ E).
Qed.

Lemma lookup_rev x env : is_Some (lookup_env x env) -> is_Some (lookup_env x (rev env)).
Proof.
  unfold lookup_env. destruct (find _ env) as [p|] eqn:E; [|by intros []]. intros _. apply find_some in E as [Hin Hp].
  destruct (find _ (rev env)) as [q|] eqn:E'; [by eexists|].
  pose proof (find_none _ _ E' p (proj1 (in_rev _ _) Hin)) as H. cbn in H. congruence.
Qed.

Lemma declaration_names cx G x declared_type value G' n' : declaration cx G x declared_type value = Some (G', n') ->
  names_in G' ⊆ names_in G ++ [x] /\ exists tv v flag, type_of cx G value = Some (tv, v) /\
    n' = AST_VARIABLE_DECLARATION x declared_type v flag.
Proof.
  unfold declaration. destruct (type_of cx G value) as [[tv v]|]; [|done]. cbn [mbind option_bind].
  destruct (type_eqb tv TY_VOID); [done|]. destruct declared_type as [type|].
  - unfold annotated. destruct (_ && _); [|done]. intros [= <- <-]. rewrite names_snoc. eauto 10.
  - unfold assigned. destruct (last_index x G 0) as [k|] eqn:Ek.
    + destruct (last_index_lookup _ _ _ Ek) as [s Hs]. rewrite Hs. cbn [mbind option_bind].
      destruct (_ && _); [done|]. destruct (retyped s tv) as [s'|] eqn:Er; [|done]. intros [= <- <-].
      assert (symbol_name s' = symbol_name s) as Hname by (unfold retyped in Er; repeat case_match; try done; by injection Er as <-).
      rewrite (insert_names _ _ _ _ Hs Hname). split; [|eauto 10]. intros y Hy. apply elem_of_app. by left.
    + intros [= <- <-]. rewrite names_snoc. eauto 10.
Qed.

Section programs.
Context (ts : list tree).

Notation gs := (global_scope ts).
Notation globals := (declared_globals ts).

Lemma globals_covered : covers globals gs.
Proof.
  unfold global_scope. assert (forall xs ys s, covers ys s -> covers (ys ++ xs) (fold_left (fun s name => extend name s) xs s)) as H.
  { induction xs as [|x xs IH]; intros ys s Hs; cbn [fold_left]; [by rewrite app_nil_r|].
    specialize (IH (ys ++ [x]) (extend x s)). rewrite <- app_assoc in IH. apply IH. by apply covers_extend. }
  apply (H globals []). intros x Hx. by apply not_elem_of_nil in Hx.
Qed.

Lemma global_declared t : t ∈ ts -> l_opcode (label t) = VNT_IR_VARIABLE_DECL -> label_text (label t) ∈ globals.
Proof.
  intros Ht Hop. unfold declared_globals. apply list_elem_of_fmap. exists t. split; [done|]. by apply list_elem_of_filter.
Qed.

(** Only functions and declarations are treated differently at the top level. *)
Definition is_ordinary (n : ast) : bool :=
  match n with AST_FUNCTION_DECLARATION _ _ _ _ _ _ _ | AST_VARIABLE_DECLARATION _ _ _ _ => false | _ => true end.

Lemma checked_ordinary n cx G G' n' : checked n cx G = Some (G', n') -> is_ordinary n = true ->
  lowered_opcode n' <> VNT_IR_FUNCTION /\ lowered_opcode n' <> VNT_IR_VARIABLE_DECL \/ n' = n.
Proof.
  intros Hc Ho. destruct n; cbn [checked] in Hc; try done; try (right; congruence); try (case_match; [right; congruence|done]).
  - destruct (type_of cx G n) as [v|]; [|done]. cbn in Hc. destruct (not_void v); [|done]. injection Hc as <- <-. by left.
  - destruct (condition_of _ _ _); [|done]. cbn in Hc. destruct (block _ then_branch _ _) as [[]|]; [|done]. cbn in Hc.
    destruct (block _ else_branch _ _) as [[]|]; [|done]. injection Hc as <- <-. by left.
  - destruct (condition_of _ _ _); [|done]. cbn in Hc. destruct (block _ body _ _) as [[]|]; [|done].
    injection Hc as <- <-. by left.
  - cbn [type_of] in Hc. destruct (collect (map (type_of cx G) arguments)) as [vs|]; [|done]. cbn in Hc.
    destruct (_ && _); [|done]. injection Hc as <- <-. by left.
  - destruct (returned _ _ _); [|done]. injection Hc as <- <-. by left.
  - unfold assignment in Hc. destruct (type_of cx G n1) as [[]|]; [|done]. cbn in Hc. destruct (type_of cx G n2) as [[]|]; [|done].
    cbn in Hc. destruct (_ && _); [|done]. injection Hc as <- <-. by left.
  - destruct (block _ statements _ _) as [[]|]; [|done]. injection Hc as <- <-. by left.
Qed.

Lemma ordinary_follows n cx G G' n' r t : checked n cx G = Some (G', n') -> statement_wf n = true -> is_ordinary n = true ->
  stands (r, n') t -> succeeds (resolve_statement gs t) (globals ++ names_in G) (globals ++ names_in G').
Proof.
  intros Hc Hw Ho Ht. pose proof (statement_follows n cx G G' n' r t globals Hc Hw Ht) as H.
  apply stands_inv in Ht as (i & us & -> & Hus).
  assert (lowered_opcode n' <> VNT_IR_FUNCTION /\ lowered_opcode n' <> VNT_IR_VARIABLE_DECL) as [H1 H2].
  { destruct (checked_ordinary n cx G G' n' Hc Ho) as [?| ->]; [done|]. by destruct n. }
  unfold resolve_statement. cbn [label label_role label_of_ast l_opcode]. by destruct (lowered_opcode n').
Qed.

Lemma global_follows x declared_type value flag cx G G' n' r t :
  checked (AST_VARIABLE_DECLARATION x declared_type value flag) cx G = Some (G', n') ->
  statement_wf (AST_VARIABLE_DECLARATION x declared_type value flag) = true ->
  stands (r, n') t -> t ∈ ts -> succeeds (resolve_statement gs t) (globals ++ names_in G) (globals ++ names_in G').
Proof.
  intros Hc Hw Ht Hin. pose proof (statement_follows _ cx G G' n' r t globals Hc Hw Ht) as Hdefault.
  pose proof (global_declared t Hin) as Hglobal. cbn [checked statement_wf] in Hc, Hw. apply andb_true_iff in Hw as [Hw _].
  destruct (declaration_names _ _ _ _ _ _ _ Hc) as (Hsub & tv & v & mark & Hv & ->). apply stands_inv in Ht as (i & us & -> & Hus).
  destruct mark; [exact Hdefault|]. specialize (Hglobal eq_refl). cbn [edges] in Hus.
  change (label_text _) with x in Hglobal. intros s Hs.
  unfold resolve_statement. cbn [label label_role label_of_ast l_opcode lowered_opcode opcode_for subtrees index].
  change (label_text _) with x. destruct (lookup_rev x (sc_env gs) (globals_covered x Hglobal)) as [key ->].
  assert (succeeds (in_role VNT_IR_EDGE_VALUE (roles_of us)) (globals ++ names_in G) (globals ++ names_in G)) as Hvalue
    by (by eapply role_expression).
  destruct (Hvalue s Hs) as (s' & rn & Eq & Hcov). unfold roles_of in Eq. rewrite Eq. eexists _, _. split; [done|].
  intros y Hy. apply Hcov. apply elem_of_app in Hy as [Hy|Hy]; apply elem_of_app; [by left|].
  apply Hsub, elem_of_app in Hy as [Hy|Hy%list_elem_of_singleton]; [by right|]. subst. by left.
Qed.

Lemma function_follows name parameters types count return_type is_unsafe body cx G G' n' r t :
  let n := AST_FUNCTION_DECLARATION name parameters types count return_type is_unsafe body in
  checked n cx G = Some (G', n') -> statement_wf n = true ->
  stands (r, n') t -> succeeds (resolve_statement gs t) (globals ++ names_in G) (globals ++ names_in G').
Proof.
  intros n Hc Hw Ht. subst n. cbn [checked statement_wf] in Hc, Hw. apply andb_true_iff in Hw as [[Hlen _]%andb_true_iff Hw].
  apply Nat.eqb_eq in Hlen. destruct (parameters_of _ _ _ _) as [ps|] eqn:Eps; [|done]. cbn [mbind option_bind] in Hc.
  destruct (in_sequence _ _ _ _) as [[G1 b1]|] eqn:E1; [|done]. cbn [mbind option_bind] in Hc. destruct (_ && _); [|done].
  injection Hc as <- <-. pose proof (statements_kept _ _ _ _ _ E1) as Hk.
  rewrite (same_names _ _ (kept_take G G1 (transitivity (kept_app G ps) Hk))).
  apply stands_inv in Ht as (i & us & -> & Hus). cbn [edges] in Hus.
  unfold resolve_statement. cbn [label label_role label_of_ast l_opcode lowered_opcode opcode_for subtrees index l_names].
  fold (roles_of us). apply parameters_names in Eps.
  assert (names_of (AST_FUNCTION_DECLARATION name parameters types count return_type is_unsafe b1) = names_in ps) as ->.
  { rewrite Eps. unfold names_of, lowered_names, copy_names. by rewrite Hlen, Nat.leb_refl. }
  destruct (in_role_edges VNT_IR_EDGE_BODY _ _ Hus) as (vs & Hrole & Hvs). rewrite Hrole. of_role Hvs.
  apply (succeeds_scoped _ _ (globals ++ names_in G1)); [|done].
  eapply succeeds_seq; [apply parameters_succeed|]. rewrite <- app_assoc, <- map_app.
  eapply sequence_follows; [|exact E1|done|exact Hvs]. apply Forall_true. intros n. apply statement_follows.
Qed.

Lemma program_follows ns : forall cx G G' ns' r us, in_sequence checked ns cx G = Some (G', ns') ->
  forallb statement_wf ns = true -> Forall2 stands (map (pair r) ns') us -> us ⊆ ts ->
  succeeds (seq_all (map (resolve_statement gs) us)) (globals ++ names_in G) (globals ++ names_in G').
Proof.
  induction ns as [|n ns IH]; intros cx G G' ns' r us Hc Hw Hus Hin; cbn [in_sequence] in Hc.
  { injection Hc as <- <-. inversion Hus; subst. by apply succeeds_skip. }
  apply andb_true_iff in Hw as [Hwn Hw]. destruct (checked n cx G) as [[G1 n1]|] eqn:E1; [|done]. cbn [mbind option_bind] in Hc.
  destruct (in_sequence checked ns cx G1) as [[G2 ns2]|] eqn:E2; [|done]. injection Hc as <- <-.
  cbn [map] in Hus. each_child Hus. cbn [map seq_all foldr]. apply (succeeds_seq _ _ _ (globals ++ names_in G1)).
  - destruct (is_ordinary n) eqn:Ho; [by eapply ordinary_follows|]. destruct n; try done.
    + by eapply function_follows.
    + eapply global_follows; [done..|]. apply Hin. by left.
  - eapply IH; [done..|]. intros u Hu'. apply Hin. by right.
Qed.
End programs.

(** The names of an accepted program are all found. *)
Lemma accepted_resolves ss ss' : accepted ss = Some ss' -> forallb statement_wf ss = true ->
  is_Some (resolve_program (subtrees (tree_at 0 (hir_of (AST_PROGRAM ss'))))).
Proof.
  unfold accepted. destruct (declarations_ok ss); [|done].
  destruct (in_sequence checked ss (program_context ss) []) as [[G' ss1]|] eqn:E; [|done]. intros [= <-] Hw.
  assert (stands (VNT_IR_EDGE_ROOT, AST_PROGRAM ss1) (tree_at 0 (hir_of (AST_PROGRAM ss1)))) as Ht.
  { unfold stands. by rewrite erase_tree_at. }
  apply stands_inv in Ht as (i & ts & -> & Hts). cbn [subtrees edges] in *. unfold resolve_program.
  destruct (program_follows ts ss (program_context ss) [] G' ss1 _ ts E Hw Hts) with (s := global_scope ts) as (s' & rn & -> & _).
  - done.
  - rewrite app_nil_r. apply globals_covered.
  - by eexists.
Qed.
