(* ===== verification/Compiler.v ===== *)
(** Compiler: src/compiler/compiler.c. The stages of a compilation up to the emission of
    assembly text, in their order. *)

From S2P Require Import Prelude Clib Ast Ir IrLower IrOptimize Cfg Dataflow TypeNames TypeCheck.

(** Why there is no assembly. *)
Inductive CompileFailure : Type :=
  | TypeCheckingFailed (message : option TypeError)
  | LoweringFailed
  | OptimizationFailed
  | GraphFailed
  | NotAssigned (diagnostic : assignment_result).

(** The program that is handed to the back end. *)
Definition compile_mode (program : ast) : outcome (CompileFailure + VntIrProgram) :=
  '(ok, program, message) ← vnt_typecheck program;
  if negb ok then Done (inl (TypeCheckingFailed message))
  else
    lowered ← vnt_ir_lower program;
    match lowered with
    | None => Done (inl LoweringFailed)
    | Some ir =>
        optimized ← vnt_ir_optimize ir;
        match optimized with
        | None => Done (inl OptimizationFailed)
        | Some ir =>
            valid ← vnt_ir_validate ir;
            if negb valid then Done (inl OptimizationFailed)
            else
              built ← vnt_cfg_build ir;
              match built with
              | None => Done (inl GraphFailed)
              | Some cfg =>
                  if negb (vnt_cfg_validate cfg) then Done (inl GraphFailed)
                  else
                    assigned ← vnt_cfg_check_definite_assignment ir cfg;
                    match assigned with
                    | ASSIGNED => Done (inr ir)
                    | diagnostic => Done (inl (NotAssigned diagnostic))
                    end
              end
        end
    end.
