(* ===== verification/TypeCheckProps.v ===== *)
(** TypeCheckProps: the type checker decides the type system, and what it accepts is safe.
    The first part: in a program that the type checker accepts, every statement and every call
    is where it may be. *)

From stdpp Require Import list.
From S2P Require Import Prelude Clib Ast Parser Statements ExpressionsProps StatementsFacts.
From S2P Require Import StatementsProps Ir IrTrees IrLower IrAccess IrProps TypeNames TypeCheck.
From S2P Require Import TypeSystem TypeCheckFacts TypeCheckExpr TypeCheckStmt TypeResolve.

(** * Places *)

(** A function that is called in unsafe blocks only. *)
Definition needs_unsafe (fs : list FunctionDef) (name : bytes) : bool :=
  is_unsafe_only name ||
  match find (fun f => bytes_eqb (function_name f) name) fs with Some f => declared_unsafe f | None => false end.

(** break and continue are in loops, return is in functions, assembly and the calls that need it
    are in unsafe blocks; a loop around a function is not a loop of the function. *)
Fixpoint placed (fs : list FunctionDef) (inside in_loop unsafe : bool) (n : ast) : bool :=
  match n with
  | AST_BREAK_STATEMENT | AST_CONTINUE_STATEMENT => in_loop
  | AST_RETURN_STATEMENT e => inside && match e with Some e => placed fs inside in_loop unsafe e | None => true end
  | AST_ASM_STATEMENT _ _ => unsafe
  | AST_FUNCTION_CALL name arguments _ =>
      (unsafe || negb (needs_unsafe fs name)) && forallb (placed fs inside in_loop unsafe) arguments
  | AST_WHILE_STATEMENT condition body =>
      placed fs inside in_loop unsafe condition && forallb (placed fs inside true unsafe) body
  | AST_UNSAFE_BLOCK body => forallb (placed fs inside in_loop true) body
  | AST_FUNCTION_DECLARATION _ _ _ _ _ _ body => forallb (placed fs true false unsafe) body
  | AST_IF_STATEMENT condition then_branch else_branch =>
      placed fs inside in_loop unsafe condition && forallb (placed fs inside in_loop unsafe) then_branch &&
      forallb (placed fs inside in_loop unsafe) else_branch
  | AST_PROGRAM ns | AST_ARRAY_LITERAL ns _ => forallb (placed fs inside in_loop unsafe) ns
  | AST_PRINT_STATEMENT e | AST_VARIABLE_DECLARATION _ _ e _ | AST_MEMBER_EXPRESSION e _ | AST_UNARY_EXPRESSION e _ =>
      placed fs inside in_loop unsafe e
  | AST_ASSIGNMENT a b | AST_INDEX_EXPRESSION a b | AST_BINARY_EXPRESSION a b _ =>
      placed fs inside in_loop unsafe a && placed fs inside in_loop unsafe b
  | _ => true
  end.

Definition placed_in (cx : Context) : ast -> bool :=
  placed (cx_functions cx) (bool_decide (is_Some (cx_return cx))) (0 <? cx_loop cx) (0 <? cx_unsafe cx).

(** * Expressions *)

Lemma resolved_lookup cx name argc : (resolved cx name argc).1 = lookup_function cx (resolved cx name argc).2.
Proof.
  unfold resolved. destruct (cx_namespace cx) as [ns|]; [|done]. destruct (_ || _); [done|].
  by destruct (lookup_function cx (ns ++ str "__" ++ name)) eqn:E.
Qed.

Lemma allowed_call cx name argc : allowed cx (resolved cx name argc).1 (resolved cx name argc).2 = true ->
  (0 <? cx_unsafe cx) || negb (needs_unsafe (cx_functions cx) (resolved cx name argc).2) = true.
Proof.
  rewrite resolved_lookup. unfold allowed, needs_unsafe, lookup_function. destruct (0 <? cx_unsafe cx); [done|]. cbn [orb].
  rewrite negb_orb, !andb_true_iff. by intros [].
Qed.

Lemma collect_placed cx G ns : Forall (fun n => forall v, type_of cx G n = Some v -> expression_wf n = true ->
    placed_in cx v.2 = true) ns -> forall vs, collect (map (type_of cx G) ns) = Some vs -> forallb expression_wf ns = true ->
  forallb (placed_in cx) (map snd vs) = true.
Proof.
  induction 1 as [|n ns Hn _ IH]; intros vs E Hw; cbn in E; [by injection E as <-|].
  apply andb_true_iff in Hw as [Hw1 Hw2]. destruct (type_of cx G n) as [v|]; [|done]. cbn in E.
  destruct (collect _) as [ws|]; [|done]. injection E as <-. cbn [map forallb]. by rewrite Hn, IH.
Qed.

Lemma expression_placed cx G n : forall v, type_of cx G n = Some v -> expression_wf n = true -> placed_in cx v.2 = true.
Proof.
  induction n as [n IH] using ast_edges_ind. intros v Hv Hw.
  destruct n; cbn [type_of edges expression_wf] in *; try done; try (by injection Hv as <-); by_edges IH.
  - destruct (collect _) as [vs|] eqn:E; [|done]. cbn in Hv. destruct (_ && _) eqn:Hok; [|done]. injection Hv as <-.
    apply andb_true_iff in Hok as [[Hok _]%andb_true_iff _]. apply andb_true_iff in Hw as [_ Hw].
    unfold placed_in. cbn [snd placed]. rewrite (allowed_call _ _ _ Hok). cbn [andb]. by eapply collect_placed.
  - destruct (collect _) as [vs|] eqn:E; [|done]. cbn in Hv. destruct (forallb _ _); [|done]. injection Hv as <-.
    apply andb_true_iff in Hw as [_ Hw]. unfold placed_in. cbn [snd placed]. by eapply collect_placed.
  - destruct (lookup_symbol G name) as [s|]; [|done]. cbn in Hv. destruct (type_eqb _ _); [done|]. by injection Hv as <-.
  - apply andb_true_iff in Hw as [Hw1 Hw2].
    destruct (type_of cx G n1) as [[t1 e1]|]; [|done]. cbn in Hv. destruct (type_of cx G n2) as [[t2 e2]|]; [|done]. cbn in Hv.
    destruct (index_result _ _); [|done]. injection Hv as <-. unfold placed_in. cbn [snd placed].
    rewrite andb_true_iff. split; [by apply (IH0 _ eq_refl)|by apply (IH1 _ eq_refl)].
  - destruct (type_of cx G n) as [[t1 e1]|]; [|done]. cbn in Hv. destruct (type_eqb _ _); [done|]. injection Hv as <-.
    by apply (IH0 _ eq_refl).
  - apply andb_true_iff in Hw as [Hw1 Hw2].
    destruct (type_of cx G n1) as [[t1 e1]|]; [|done]. cbn in Hv. destruct (type_of cx G n2) as [[t2 e2]|]; [|done]. cbn in Hv.
    destruct (binary_result _ _ _ _ _); [|done]. injection Hv as <-. unfold placed_in. cbn [snd placed].
    rewrite andb_true_iff. split; [by apply (IH0 _ eq_refl)|by apply (IH1 _ eq_refl)].
  - destruct (type_of cx G n) as [[t1 e1]|]; [|done]. cbn in Hv. destruct (unary_result _ _); [|done]. injection Hv as <-.
    by apply (IH0 _ eq_refl).
Qed.

(** * Statements *)

Definition statement_placed (n : ast) : Prop := forall cx G G' n',
  checked n cx G = Some (G', n') -> statement_wf n = true -> placed_in cx n' = true.

Lemma sequence_placed ns : Forall statement_placed ns -> forall cx G G' ns',
  in_sequence checked ns cx G = Some (G', ns') -> forallb statement_wf ns = true -> forallb (placed_in cx) ns' = true.
Proof.
  induction 1 as [|n ns Hn _ IH]; intros cx G G' ns' Hc Hw; cbn [in_sequence] in Hc; [by injection Hc as <- <-|].
  apply andb_true_iff in Hw as [Hwn Hw]. destruct (checked n cx G) as [[G1 n1]|] eqn:E1; [|done]. cbn [mbind option_bind] in Hc.
  destruct (in_sequence checked ns cx G1) as [[G2 ns2]|] eqn:E2; [|done]. injection Hc as <- <-.
  cbn [forallb]. rewrite andb_true_iff. split; [by eapply Hn|by eapply IH].
Qed.

Lemma block_placed ns cx G G' ns' : Forall statement_placed ns -> block (in_sequence checked) ns cx G = Some (G', ns') ->
  forallb statement_wf ns = true -> forallb (placed_in cx) ns' = true.
Proof.
  unfold block. intros HF Hb Hw. destruct (in_sequence _ _ _ _) as [[G1 ns1]|] eqn:E; [|done]. injection Hb as <- <-.
  by eapply sequence_placed.
Qed.

Lemma condition_placed cx G n c : condition_of cx G n = Some c -> expression_wf n = true -> placed_in cx c = true.
Proof. intros [t H]%condition_full Hw. by eapply (expression_placed cx G n (t, c)). Qed.

(** The context of a block. *)
Lemma branch_place cx : placed_in (cx_deeper 1 0 0 cx) = placed_in cx.
Proof. unfold placed_in. cbn [cx_deeper cx_functions cx_return cx_loop cx_unsafe]. by rewrite !Nat.add_0_r. Qed.

Lemma loop_place cx : placed_in (cx_deeper 1 0 1 cx) =
  placed (cx_functions cx) (bool_decide (is_Some (cx_return cx))) true (0 <? cx_unsafe cx).
Proof.
  unfold placed_in. cbn [cx_deeper cx_functions cx_return cx_loop cx_unsafe]. rewrite Nat.add_0_r.
  by rewrite (proj2 (Nat.ltb_lt 0 (cx_loop cx + 1))) by lia.
Qed.

Lemma unsafe_place cx : placed_in (cx_deeper 1 1 0 cx) =
  placed (cx_functions cx) (bool_decide (is_Some (cx_return cx))) (0 <? cx_loop cx) true.
Proof.
  unfold placed_in. cbn [cx_deeper cx_functions cx_return cx_loop cx_unsafe]. rewrite Nat.add_0_r.
  by rewrite (proj2 (Nat.ltb_lt 0 (cx_unsafe cx + 1))) by lia.
Qed.

Lemma checked_placed n : statement_placed n.
Proof.
  induction n as [n IH] using ast_edges_ind. intros cx G G' n' Hc Hw.
  destruct n; cbn [checked statement_wf edges] in *; try done; by_edges IH.
  - destruct (type_of cx G n) as [v|] eqn:Ev; [|done]. cbn [mbind option_bind] in Hc. destruct (not_void v); [|done].
    injection Hc as <- <-. by eapply (expression_placed cx G n v).
  - apply andb_true_iff in Hw as [[Hw1 Hw2]%andb_true_iff Hw3].
    destruct (condition_of cx G n) as [c|] eqn:Ec; [|done]. cbn [mbind option_bind] in Hc.
    destruct (block _ then_branch _ _) as [[G1 b1]|] eqn:E1; [|done]. cbn [mbind option_bind] in Hc.
    destruct (block _ else_branch _ _) as [[G2 b2]|] eqn:E2; [|done]. injection Hc as <- <-.
    change (placed_in cx c && forallb (placed_in cx) b1 && forallb (placed_in cx) b2 = true).
    rewrite !andb_true_iff. split; [split|]; [by eapply condition_placed| |]; rewrite <- branch_place;
      [exact (block_placed _ _ _ _ _ IH1 E1 Hw2)|exact (block_placed _ _ _ _ _ IH E2 Hw3)].
  - apply andb_true_iff in Hw as [Hw1 Hw2].
    destruct (condition_of cx G n) as [c|] eqn:Ec; [|done]. cbn [mbind option_bind] in Hc.
    destruct (block _ body _ _) as [[G1 b1]|] eqn:E1; [|done]. injection Hc as <- <-.
    unfold placed_in. cbn [placed]. rewrite <- loop_place, andb_true_iff. split; [by eapply condition_placed|exact (block_placed _ _ _ _ _ IH E1 Hw2)].
  - destruct (parameters_of _ _ _ _) as [ps|]; [|done]. cbn [mbind option_bind] in Hc.
    destruct (in_sequence _ _ _ _) as [[G1 b1]|] eqn:E1; [|done]. cbn [mbind option_bind] in Hc. destruct (_ && _); [|done].
    injection Hc as <- <-. apply andb_true_iff in Hw as [_ Hw]. exact (sequence_placed _ IH _ _ _ _ E1 Hw).
  - by injection Hc as <- <-.
  - destruct (type_of cx G (AST_FUNCTION_CALL name arguments argument_count)) as [[tv e]|] eqn:Ev; [|done].
    cbn [mbind option_bind] in Hc. injection Hc as <- <-. by eapply (expression_placed cx G _ (tv, e)).
  - unfold returned in Hc. unfold placed_in. destruct (cx_return cx) as [expected|] eqn:Er; [|done]. cbn [mbind option_bind] in Hc.
    destruct expression as [e|].
    + destruct (type_of cx G e) as [[tv v]|] eqn:Ev; [|done]. cbn [mbind option_bind] in Hc. destruct (return_ok _ _); [|done].
      injection Hc as <- <-. pose proof (expression_placed cx G e _ Ev Hw) as H. unfold placed_in in H. rewrite Er in H. exact H.
    + destruct (return_ok _ _); [|done]. by injection Hc as <- <-.
  - destruct (0 <? cx_loop cx) eqn:El; [|done]. by injection Hc as <- <-.
  - destruct (0 <? cx_loop cx) eqn:El; [|done]. by injection Hc as <- <-.
  - apply andb_true_iff in Hw as [Hw _]. destruct (declaration_names _ _ _ _ _ _ _ Hc) as (_ & tv & v & mark & Hv & ->).
    exact (expression_placed cx G n (tv, v) Hv Hw).
  - apply andb_true_iff in Hw as [Hw1 Hw2]. apply assignable_wf in Hw1. unfold assignment in Hc.
    destruct (type_of cx G n1) as [[t1 e1]|] eqn:Ev1; [|done]. cbn [mbind option_bind] in Hc.
    destruct (type_of cx G n2) as [[t2 e2]|] eqn:Ev2; [|done]. cbn [mbind option_bind] in Hc. destruct (_ && _); [|done].
    injection Hc as <- <-. unfold placed_in. cbn [placed]. rewrite andb_true_iff.
    split; [exact (expression_placed cx G _ _ Ev1 Hw1)|exact (expression_placed cx G _ _ Ev2 Hw2)].
  - destruct (block _ statements _ _) as [[G1 b1]|] eqn:E1; [|done]. injection Hc as <- <-.
    unfold placed_in. cbn [placed]. rewrite <- unsafe_place. exact (block_placed _ _ _ _ _ IH E1 Hw).
  - destruct (0 <? cx_unsafe cx) eqn:El; [|done]. by injection Hc as <- <-.
Qed.

(** * Programs *)

Lemma accepted_placed ss ss' : accepted ss = Some ss' -> forallb statement_wf ss = true ->
  forallb (placed (functions_of ss) false false false) ss' = true.
Proof.
  unfold accepted. destruct (declarations_ok ss); [|done].
  destruct (in_sequence checked ss (program_context ss) []) as [[G' ss1]|] eqn:E; [|done]. intros [= <-] Hw.
  exact (sequence_placed ss (Forall_true _ _ checked_placed) _ _ _ _ E Hw).
Qed.

Lemma statements_lowerable ss : forallb statement_wf ss = true -> Forall lowerable ss.
Proof.
  intros H. apply Forall_forall. intros n Hn. apply statement_lowerable. rewrite forallb_forall in H.
  by apply H, list_elem_of_In.
Qed.

(** C11: checking a program returns, without reading outside of an array and within the
    recursion of its expressions, whatever the program is; it accepts exactly the programs
    that the type system gives a full form, and leaves this form in the tree: every
    assignment marked as the first of its variable or not, every call of a function of the
    same module with its full name. A program that is refused has a message, and its tree is
    the same but for such marks and names. *)
Theorem vnt_typecheck_exact ss : Forall lowerable ss ->
  match accepted ss with
  | Some ss' => vnt_typecheck (AST_PROGRAM ss) = Done (true, AST_PROGRAM ss', None) /\ all_alike ss' ss
  | None => exists ss' e, vnt_typecheck (AST_PROGRAM ss) = Done (false, AST_PROGRAM ss', Some e) /\ all_alike ss' ss
  end.
Proof.
  intros Hl. destruct (check_program_run ss Hl) as (ss' & tc & E & Ha & Hr). unfold vnt_typecheck. rewrite E.
  destruct (accepted ss) as [ss''|].
  - destruct Hr as [-> ->]. done.
  - destruct Hr as [e ->]. by exists ss', e.
Qed.

(** C12: in a program that the checker accepts, break and continue are inside of loops of
    their function, return is inside of a function, and assembly, the calls of functions
    declared unsafe and the calls of the builtins on memory that the checker lists are
    inside of unsafe blocks. *)
Theorem accepted_program_safe ss ss' e : Forall lowerable ss -> forallb statement_wf ss = true ->
  vnt_typecheck (AST_PROGRAM ss) = Done (true, AST_PROGRAM ss', e) ->
  forallb (placed (functions_of ss) false false false) ss' = true.
Proof.
  intros Hl Hw E. destruct (check_program_run ss Hl) as (ss1 & tc & Er & _ & Hr). unfold vnt_typecheck in E. rewrite Er in E.
  destruct (accepted ss) as [ss2|] eqn:Ha.
  - destruct Hr as [_ ->]. assert (ss' = ss2) as -> by congruence. by eapply accepted_placed.
  - destruct Hr as [e' He]. rewrite He in E. by rewrite (bool_decide_eq_true_2 (is_Some (Some e'))) in E by done.
Qed.

(** * A sample *)

Definition typed_sample : bytes :=
  str "fun m__next(n: int) -> int { return twice(n) + 1 } fun m__twice(n: int) -> int { return n * 2 } let i: int = 1 while i < 9 { i = m__next(i) if i == 7 { break } } print(i)".

Definition typed_sample_ast : list ast :=
  match parse_source 0 typed_sample with
  | Done (Some (AST_PROGRAM ss), _) => ss
  | _ => []
  end.

Lemma typed_sample_parses : exists p, parse_source 0 typed_sample = Done (Some (AST_PROGRAM typed_sample_ast), p).
Proof. eexists. vm_compute. reflexivity. Defined.

Lemma typed_sample_wf : forallb statement_wf typed_sample_ast = true.
Proof. vm_compute. reflexivity. Defined.

Lemma typed_sample_lowerable : Forall lowerable typed_sample_ast.
Proof. apply statements_lowerable, typed_sample_wf. Defined.

Definition typed_sample_full : list ast := default [] (accepted typed_sample_ast).

(** The variable is declared once, and the call has the name of the module. *)
Lemma vnt_typecheck_exact_witness :
  vnt_typecheck (AST_PROGRAM typed_sample_ast) = Done (true, AST_PROGRAM typed_sample_full, None) /\
  typed_sample_full <> typed_sample_ast.
Proof.
  pose proof (vnt_typecheck_exact typed_sample_ast typed_sample_lowerable) as H.
  destruct (accepted typed_sample_ast) as [ss'|] eqn:E; [|vm_compute in E; discriminate E].
  unfold typed_sample_full. rewrite E. split; [exact (proj1 H)|]. vm_compute in E. injection E as <-. cbn.
  intros Heq. vm_compute in Heq. discriminate Heq.
Defined.

Lemma accepted_program_safe_witness :
  forallb (placed (functions_of typed_sample_ast) false false false) typed_sample_full = true.
Proof.
  apply (accepted_program_safe typed_sample_ast typed_sample_full None typed_sample_lowerable typed_sample_wf).
  vm_compute. reflexivity.
Defined.
