(* ===== verification/CompilerProps.v ===== *)
(** CompilerProps: what the stages of a compilation give each other. A parsed program that
    the type system accepts is lowered and optimized, and only the control-flow graph or
    the definite-assignment check can refuse it afterwards: the graph never for a break or
    a continue, because those of an accepted program stay in their loops. *)

From stdpp Require Import list.
From S2P Require Import Prelude Clib Ast Parser Statements StatementsProps ExpressionsProps StatementsFacts.
From S2P Require Import Ir IrTrees IrFacts IrLayout IrLower IrAccess IrProps IrScopesFacts IrResolve.
From S2P Require Import IrOptimize IrPasses IrPassesFacts IrRewrite IrOptimizeProps Cfg CfgTraces CfgBuild CfgPrune CfgProps.
From S2P Require Import Dataflow DataflowEffects DataflowProps Runtime HirSemantics HirFolding HirKnown HirPropagate HirOptimize HirProps.
From S2P Require Import TypeNames TypeCheck TypeSystem TypeCheckFacts TypeResolve TypeCheckProps Compiler.

(** * The tree that is lowered *)

(** What the checker writes does not matter for lowering. *)
Lemma edges_unmarked n : edges (unmarked n) = map (fun e => (e.1, unmarked e.2)) (edges n).
Proof.
  destruct n; cbn; rewrite ?map_app, ?map_map; try done. by destruct expression.
Qed.

Lemma counts_unmarked n : counts_ok (unmarked n) = counts_ok n.
Proof. by destruct n. Qed.

Lemma lowerable_unmarked n : lowerable (unmarked n) <-> lowerable n.
Proof.
  induction n as [n IH] using ast_edges_ind. split; intros H; inversion H as [? Hc He]; subst; constructor.
  - by rewrite counts_unmarked in Hc.
  - rewrite edges_unmarked, Forall_map in He. rewrite Forall_forall in *. intros e Hin. by apply IH, He.
  - by rewrite counts_unmarked.
  - rewrite edges_unmarked, Forall_map. rewrite Forall_forall in *. intros e Hin. by apply IH, He.
Qed.

Lemma alike_lowerable n' n : alike n' n -> lowerable n -> lowerable n'.
Proof. unfold alike. intros E H. apply lowerable_unmarked. rewrite E. by apply lowerable_unmarked. Qed.

(** The statements of a program keep their opcodes when variables are renamed. *)
Lemma renamed_children rn a : map (fun h => l_opcode (hir_label h)) (hir_children (renamed_tree rn a)) =
  map (fun e => lowered_opcode e.2) (edges a).
Proof.
  unfold renamed_tree. pose proof (apply_all_links rn (lowered a)) as Hl.
  pose proof (represents_stored _ _ (layout_represents (hir_of a) 0)) as Hst. fold (lowered a) in Hst.
  pose proof (erase_tree_at (hir_of a) 0) as He. set (t := tree_at 0 (hir_of a)) in *. clearbody t.
  destruct t as [i l ts]. cbn [erase retree hir_children] in *. rewrite map_map.
  inversion Hst as [? n ? _ _ Hts]; subst. rewrite hir_of_edges in He. apply (f_equal hir_children) in He. cbn [hir_children] in He.
  assert (map (fun t => l_opcode (label t)) ts = map (fun e => lowered_opcode e.2) (edges a)) as <-.
  { apply (f_equal (map (fun h => l_opcode (hir_label h)))) in He. rewrite !map_map in He.
    rewrite (map_ext (fun t => l_opcode (label t)) (fun t => l_opcode (hir_label (erase t)))) by (intros t; by rewrite erase_label).
    rewrite He. apply map_ext. intros e.
    unfold edge_hir. cbn. by destruct e.2. }
  rewrite map_map. apply map_ext_in. intros t Ht%list_elem_of_In. rewrite Forall_forall in Hts.
  destruct (retree_root _ _ Hl t (Hts t Ht)) as [_ E]. rewrite <- E. by rewrite erase_label.
Qed.

(** * Break and continue *)

(** Every break and continue is in a loop of its function. *)
Fixpoint in_loops (in_loop : bool) (h : hir) : bool :=
  match h with
  | Hir l hs =>
      match l_opcode l with
      | VNT_IR_BREAK | VNT_IR_CONTINUE => in_loop && forallb (in_loops in_loop) hs
      | VNT_IR_WHILE => forallb (in_loops true) hs
      | VNT_IR_FUNCTION => forallb (in_loops false) hs
      | _ => forallb (in_loops in_loop) hs
      end
  end.

(** The passes keep it so. *)
Definition keeps_jumps {A} (f : hir -> A -> hir * A) (h : hir) : Prop :=
  forall b a, in_loops b h = true -> in_loops b (f h a).1 = true.

Lemma visit_jumps {A} (f : hir -> A -> hir * A) b hs a : Forall (keeps_jumps f) hs ->
  forallb (in_loops b) hs = true -> forallb (in_loops b) (visit f hs a).1 = true.
Proof.
  intros H. revert a. induction H as [|h hs Hh _ IH]; intros a; [done|]. rewrite visit_cons. cbn.
  rewrite !andb_true_iff. intros [H1 H2]. split; [by apply Hh|by apply IH].
Qed.

(** A node is fine if its children are. *)
Lemma node_jumps b l hs hs' : (forall b, forallb (in_loops b) hs = true -> forallb (in_loops b) hs' = true) ->
  in_loops b (Hir l hs) = true -> in_loops b (Hir l hs') = true.
Proof. intros H. cbn. destruct (l_opcode l); rewrite ?andb_true_iff; intuition auto. Qed.

Lemma fold_jumps h : keeps_jumps fold_hir h.
Proof.
  induction h as [l hs IH] using hir_ind. intros b k H. cbn.
  assert (in_loops b (Hir l (visit fold_hir hs k).1) = true) as Hv.
  { revert H. apply node_jumps. intros b'. by apply visit_jumps. }
  destruct (visit fold_hir hs k) as [hs' k']. destruct (fold_here l hs') as [c|]; [by destruct c|exact Hv].
Qed.

Lemma sublist_jumps b hs' hs : hs' `sublist_of` hs -> forallb (in_loops b) hs = true -> forallb (in_loops b) hs' = true.
Proof.
  intros Hs. rewrite !forallb_forall. intros H h Hh%list_elem_of_In. apply H, list_elem_of_In. by eapply elem_of_sublist.
Qed.

Lemma role_jumps b r h : in_loops b (hir_role r h) = in_loops b h.
Proof. by destruct h. Qed.

Lemma branch_jumps b r hs : forallb (in_loops b) hs = true -> forallb (in_loops b) (branch r hs) = true.
Proof.
  rewrite !forallb_forall. intros H h (h' & <- & Hh)%in_map_iff. rewrite role_jumps. apply H.
  apply list_elem_of_In, list_elem_of_filter in Hh as [_ Hh]. by apply list_elem_of_In.
Qed.

Lemma select_jumps b l hs k : in_loops b (Hir l hs) = true ->
  in_loops b (Hir (select l hs k).1.1 (select l hs k).1.2) = true.
Proof.
  intros H. unfold select. destruct (l_opcode l) eqn:Hop; try done; (destruct (head hs) as [c|]; [|done]);
    (destruct (boolean_of c) as [v|]; [|done]).
  - cbn in H. rewrite Hop in H. by apply branch_jumps.
  - by destruct v.
Qed.

Lemma simplify_jumps h : keeps_jumps simplify_hir h.
Proof.
  induction h as [l hs IH] using hir_ind. intros b k H. rewrite simplify_hir_node.
  assert (in_loops b (Hir l (visit simplify_hir hs k).1) = true) as Hv.
  { revert H. apply node_jumps. intros b'. by apply visit_jumps. }
  destruct (visit simplify_hir hs k) as [hs1 k1]. cbn [fst snd] in *. apply (select_jumps _ _ _ k1) in Hv.
  destruct (select l hs1 k1) as [[l2 hs2] k2]. revert Hv. apply node_jumps. intros b'. apply sublist_jumps, prune_sublist.
Qed.

Lemma subst_jumps h : keeps_jumps subst_hir h.
Proof.
  induction h as [l hs IH] using hir_ind. intros b st H.
  assert (in_loops b (Hir l (visit subst_hir hs st).1) = true) as Hv.
  { revert H. apply node_jumps. intros b'. by apply visit_jumps. }
  cbn [subst_hir]. destruct (visit subst_hir hs st) as [hs' st']. destruct (l_opcode l) eqn:Hop; try done.
  - destruct (known_constant _ _) as [c|]; [|done]. cbn in H. rewrite Hop in H. by destruct c.
  - by destruct (is_reference l).
Qed.

Lemma propagate_jumps h : keeps_jumps propagate_hir h.
Proof.
  induction h as [l hs IH] using hir_ind. intros b st H.
  assert (in_loops b (Hir l (visit subst_hir hs st).1) = true) as Hs.
  { revert H. apply node_jumps. intros b'. apply visit_jumps, Forall_true. intros; apply subst_jumps. }
  assert (in_loops b (Hir l (visit propagate_hir hs st).1) = true) as Hp.
  { revert H. apply node_jumps. intros b'. by apply visit_jumps. }
  cbn [propagate_hir]. destruct (visit subst_hir hs st) as [hs1 st1]. destruct (visit propagate_hir hs st) as [hs2 st2].
  destruct (l_opcode l) eqn:Hop; try done.
  - destruct hs as [|c rest]; [done|]. apply Forall_cons in IH as [_ IH]. cbn in H. rewrite Hop in H.
    apply andb_true_iff in H as [Hc Hr]. apply (subst_jumps c b st) in Hc. destruct (subst_hir c st) as [c' st'].
    change (visit _ rest st'.2) with (visit (propagate_branch_hir st'.1) rest st'.2).
    apply (visit_jumps (propagate_branch_hir st'.1) b rest st'.2) in Hr.
    + destruct (visit _ rest _) as [rest' k']. cbn. rewrite Hop. cbn [fst forallb] in *. by rewrite Hc.
    + rewrite Forall_forall in *. intros h Hh b' k Hb. unfold propagate_branch_hir. destruct (is_branch h); [|done].
      pose proof (IH h Hh b' (hir_constants_copy st'.1, k) Hb). by destruct (propagate_hir h _).
  - destruct hs as [|h rest]; [done|]. destruct (is_block h); [|done]. apply Forall_cons in IH as [IH _].
    cbn in H. rewrite Hop in H. apply andb_true_iff in H as [Hh Hr]. apply (IH false ([], st.2)) in Hh.
    destruct (propagate_hir h ([], st.2)) as [h' st']. cbn. rewrite Hop. cbn [fst forallb] in *. by rewrite Hh.
Qed.

Lemma round_jumps h k : in_loops false h = true -> in_loops false (round_hir h k).1 = true.
Proof.
  intros H. unfold round_hir. apply (fold_jumps h false k) in H. destruct (fold_hir h k) as [h1 k1]. cbn [fst] in H.
  assert (in_loops false (propagate_block h1 k1).1 = true) as H2.
  { destruct h1 as [l hs]. rewrite propagate_block_visit. revert H. apply node_jumps. intros b.
    apply visit_jumps, Forall_true. intros; apply propagate_jumps. }
  destruct (propagate_block h1 k1) as [h2 k2]. apply (fold_jumps h2 false k2) in H2. destruct (fold_hir h2 k2) as [h3 k3].
  by apply simplify_jumps.
Qed.

Lemma optimize_jumps h : in_loops false h = true -> in_loops false (optimize_hir h).1 = true.
Proof.
  unfold optimize_hir. generalize VNT_IR_ROUNDS as n, 0 as k. intros n. revert h.
  induction n as [|n IH]; intros h k H; [done|]. cbn. apply (round_jumps _ k) in H. destruct (round_hir h k) as [h' k'].
  destruct (k' =? k); [done|]. by apply IH.
Qed.

(** ** The lowered program *)

Lemma in_loops_more b h : in_loops b h = true -> in_loops true h = true.
Proof.
  induction h as [l hs IH] using hir_ind. intros H.
  assert (forallb (in_loops b) hs = true -> forallb (in_loops true) hs = true) as Hm.
  { rewrite !forallb_forall. rewrite Forall_forall in IH. intros Hb x Hx. apply IH; [by apply list_elem_of_In|auto]. }
  cbn in *. destruct (l_opcode l); rewrite ?andb_true_iff in *; intuition auto.
Qed.

Lemma edges_jumps b es : Forall (fun e => in_loops b (hir_of e.2) = true) es -> forallb (in_loops b) (map edge_hir es) = true.
Proof.
  induction 1 as [|e es He _ IH]; [done|]. cbn [map forallb]. unfold edge_hir at 1. by rewrite role_jumps, He.
Qed.

Lemma placed_jumps fs a : forall inside b unsafe, placed fs inside b unsafe a = true -> in_loops b (hir_of a) = true.
Proof.
  induction a as [a IH] using ast_edges_ind. intros inside b unsafe H. rewrite hir_of_edges. cbn [in_loops].
  assert (forall inside b unsafe (es : list (VntIrEdgeRole * ast)), es ⊆ edges a ->
    forallb (placed fs inside b unsafe) (map snd es) = true -> forallb (in_loops b) (map edge_hir es) = true) as Hall.
  { intros inside' b' unsafe' es Hes Hp. apply edges_jumps, Forall_forall. intros e He. rewrite Forall_forall in IH.
    apply (IH e (Hes e He) inside' b' unsafe'). rewrite forallb_forall in Hp. apply Hp, in_map, list_elem_of_In, He. }
  assert (forall r ns, map snd (map (pair r) ns : list (VntIrEdgeRole * ast)) = ns) as Hsnd
    by (intros r ns; rewrite map_map; apply map_id).
  destruct a; cbn [placed edges label_of_ast l_opcode lowered_opcode] in *; rewrite ?andb_true_iff in H; try done;
    try (by (eapply Hall; [done|]; rewrite ?Hsnd; cbn; rewrite ?andb_true_iff; intuition eauto)); try (by cbn; rewrite H).
  - change (forallb (in_loops b) (map edge_hir (edges (AST_IF_STATEMENT a then_branch else_branch))) = true).
    apply (Hall inside b unsafe); [done|]. cbn [edges map snd]. rewrite map_app, !Hsnd. cbn [forallb]. rewrite forallb_app, !andb_true_iff. tauto.
  - destruct H as [Hc Hb]. apply Forall_cons in IH as [Hcond _]. apply Hcond, in_loops_more in Hc. cbn [opcode_for map forallb].
    unfold edge_hir at 1. rewrite role_jumps. cbn [snd] in *. rewrite Hc. cbn [andb]. eapply (Hall inside true unsafe); [by intros e He; right|].
    by rewrite Hsnd.
  - destruct expression as [e|]; [|done]. eapply (Hall inside b unsafe); [done|]. cbn. rewrite andb_true_iff. tauto.
  - destruct is_reassignment; (eapply (Hall inside b unsafe); [done|]); cbn; by rewrite andb_true_iff.
Qed.

(** Renaming keeps the opcodes. *)
Lemma retree_jumps ir ir' b t : same_links ir ir' -> stored ir t ->
  in_loops b (erase (retree ir' t)) = in_loops b (erase t).
Proof.
  intros Hl. revert b. induction t as [i l ts IH] using tree_ind. intros b Hst. inversion Hst as [? n ? Hn _ Hts]; subst.
  destruct (same_links_at _ _ _ _ Hl Hn) as (n' & Hn' & Hln). cbn. rewrite Hn'. cbn [label_of l_opcode].
  rewrite (sn_opcode _ _ Hln), map_map.
  assert (forall b, forallb (in_loops b) (map (fun t => erase (retree ir' t)) ts) = forallb (in_loops b) (map erase ts)) as E.
  { intros b'. clear Hst. induction ts as [|t ts IHts]; [done|]. apply Forall_cons in IH as [IH1 IH2], Hts as [H1 H2].
    cbn. by rewrite IH1, IHts. }
  by rewrite !E.
Qed.

Lemma renamed_jumps rn a : in_loops false (hir_of a) = true -> in_loops false (renamed_tree rn a) = true.
Proof.
  intros H. unfold renamed_tree. erewrite retree_jumps; [by rewrite erase_tree_at|apply apply_all_links|].
  apply represents_stored, layout_represents.
Qed.

(** ** The array *)

Lemma stored_children ir i l ts r cs : stored ir (Tree i l ts) -> children_in ir i r cs -> cs ⊆ map index ts.
Proof.
  intros Hst (n & all & Hn & Hc & ->). inversion Hst as [? n' ? Hn' [Hchain _ _] _]; subst. assert (n' = n) as -> by congruence.
  rewrite (chain_det _ _ _ Hchain _ Hc). intros c [_ Hin]%list_elem_of_filter. done.
Qed.

Lemma not_stray_jumps ir i : stray ir i -> forall t, stored ir t -> index t = i -> in_loops false (erase t) = false.
Proof.
  induction 1 as [i op (n & Hn & <-) Hop|i op r l c (n & Hn & <-) Hop Hch Hin _ IH]; intros [j lab ts] Hst <-; cbn [index] in *.
  - inversion Hst as [? n' ? Hn' _ _]; subst. assert (n' = n) as -> by congruence. cbn [erase in_loops label_of l_opcode].
    by destruct Hop as [E|E]; rewrite E.
  - pose proof (stored_children _ _ _ _ _ _ Hst Hch _ Hin) as Hc. inversion Hst as [? n' ? Hn' _ Hts]; subst.
    assert (n' = n) as -> by congruence. apply list_elem_of_In, in_map_iff in Hc as (t & Ht & Hmem). cbn [erase in_loops label_of l_opcode].
    apply not_true_iff_false. intros H. rewrite Forall_forall in Hts. specialize (Hts t ltac:(by apply list_elem_of_In)).
    assert (forallb (in_loops false) (map erase ts) = true) as Hf by (by destruct Hop as [[E _]|[E _]]; rewrite E in H).
    rewrite forallb_forall in Hf. specialize (Hf _ (in_map erase _ _ Hmem)). by rewrite (IH t Hts Ht) in Hf.
Qed.

(** No entry of a program in which every jump has its loop is refused. *)
Lemma subtree_jumps ir t b i : stored ir t -> in_loops b (erase t) = true -> i ∈ indices t ->
  exists s b', stored ir s /\ index s = i /\ in_loops b' (erase s) = true.
Proof.
  revert b. induction t as [j l ts IH] using tree_ind. intros b Hst H Hi. cbn in Hi.
  apply elem_of_cons in Hi as [->|Hi]; [by exists (Tree j l ts), b|].
  assert (exists b', forallb (in_loops b') (map erase ts) = true) as [b' Hb].
  { cbn in H. clear - H. destruct (l_opcode l); rewrite ?andb_true_iff in H; first [by eexists|destruct H; by eexists]. }
  apply list_elem_of_In, in_concat in Hi as (is_ & Hin & Hi). apply in_map_iff in Hin as (t & <- & Ht).
  inversion Hst as [? n ? _ _ Hts]; subst. rewrite Forall_forall in IH, Hts. rewrite forallb_forall in Hb.
  apply list_elem_of_In in Hi. apply (IH t ltac:(by apply list_elem_of_In) b'); [by apply Hts, list_elem_of_In|by apply Hb, in_map|done].
Qed.

Lemma entry_jumps ir t r role : stored ir t -> index t = r -> in_loops false (erase t) = true ->
  l_opcode (label t) = VNT_IR_PROGRAM \/ l_opcode (label t) = VNT_IR_FUNCTION -> ~ has_stray ir (r, role).
Proof.
  intros Hst <- H Hop (l & Hl & (c & Hin & Hs)%Exists_exists). destruct t as [i lab ts]. cbn [index label erase] in *.
  pose proof (stored_children _ _ _ _ _ _ Hst Hl _ Hin) as Hc. apply list_elem_of_In, in_map_iff in Hc as (t & Ht & Hmem).
  inversion Hst as [? n ? _ _ Hts]; subst. rewrite Forall_forall in Hts.
  assert (forallb (in_loops false) (map erase ts) = true) as Hf by (cbn in H; by destruct Hop as [E|E]; cbn in E; rewrite E in H).
  rewrite forallb_forall in Hf. specialize (Hf _ (in_map erase _ _ Hmem)).
  by rewrite (not_stray_jumps _ _ Hs t (Hts t ltac:(by apply list_elem_of_In)) eq_refl) in Hf.
Qed.

Lemma in_loops_function b h : l_opcode (hir_label h) = VNT_IR_FUNCTION -> in_loops b h = in_loops false h.
Proof. destruct h as [l hs]. cbn. by intros ->. Qed.

Lemma stores_jumps ir h r : stores ir h -> in_loops false h = true -> root ir = Some r ->
  Forall (fun p => ~ has_stray ir p) (entry_nodes ir r).
Proof.
  intros (t & n & Hrep & <- & (_ & Hop & _) & _ & _) H Hr. pose proof (represents_stored _ _ Hrep) as Hst.
  rewrite erase_label in Hop. pose proof (represents_root _ _ Hrep) as Hroot. unfold entry_nodes. constructor.
  - assert (r = index t) as -> by congruence. by apply (entry_jumps ir t); [done..|left].
  - unfold function_entries. apply Forall_map, Forall_forall. intros i [Hf Hi]%list_elem_of_filter.
    rewrite <- (represents_all _ _ Hrep) in Hi. destruct (subtree_jumps _ _ _ _ Hst H Hi) as (s & b & Hs & <- & Hb).
    unfold function_at in Hf. destruct s as [j l ts]. cbn [index] in *. inversion Hs as [? m ? Hm _ _]; subst.
    rewrite Hm in Hf. apply bool_decide_eq_true in Hf. rewrite in_loops_function in Hb by done.
    by apply (entry_jumps ir (Tree j (label_of m) ts)); [done..|right].
Qed.

(** * The result of a compilation *)

(** The tree that the back end gets for a program in its full form. *)
Definition back_end_tree (rn : list renaming) (ss : list ast) : hir := (optimize_hir (renamed_tree rn (AST_PROGRAM ss))).1.

(** No block reads a variable that may not be initialized. *)
Definition initialized (ir : VntIrProgram) (cfg : VntCfg) : Prop :=
  forall b block name, blocks cfg !! b = Some block -> block_uses ir block name -> ~ unset ir cfg name b.

(** What the stages make of the full form. *)
Definition compiled (ir : VntIrProgram) (r : CompileFailure + VntIrProgram) : Prop :=
  match r with
  | inr out => out = ir /\ exists cfg, vnt_cfg_build ir = Done (Some cfg) /\ initialized ir cfg
  | inl GraphFailed => exists root_node, root ir = Some root_node /\
      forall p t, p ∈ entry_nodes ir root_node -> ~ finishes ir p t
  | inl (NotAssigned diagnostic) => exists cfg b block name, vnt_cfg_build ir = Done (Some cfg) /\
      diagnostic = READ_BEFORE_INITIALIZATION (source_name_for_diagnostic name) /\
      blocks cfg !! b = Some block /\ block_uses ir block name /\ unset ir cfg name b
  | inl _ => False
  end.

Lemma graph_stage ir h : stores ir h -> in_loops false h = true -> booleans_typed ir -> returns
  (built ← vnt_cfg_build ir;
   match built with
   | None => Done (inl GraphFailed)
   | Some cfg =>
       if negb (vnt_cfg_validate cfg) then Done (inl GraphFailed)
       else
         assigned ← vnt_cfg_check_definite_assignment ir cfg;
         match assigned with
         | ASSIGNED => Done (inr ir)
         | diagnostic => Done (inl (NotAssigned diagnostic))
         end
   end) (compiled ir).
Proof.
  intros Hst Hjumps Hb. pose proof (stores_valid _ _ Hst) as Hv. pose proof (build_returns ir Hb) as Hbuild. apply returns_done in Hbuild as (g & Eg & Hg). rewrite Eg.
  cbn [mbind outcome_bind]. destruct g as [cfg|].
  - destruct Hg as (_ & Hcv & Hrefs & _). rewrite (proj2 (vnt_cfg_validate_spec cfg) Hcv). cbn [negb].
    pose proof (definite_assignment_exact ir cfg) as Hd. apply returns_done in Hd as (d & Ed & Hd). rewrite Ed.
    cbn [mbind outcome_bind]. destruct d as [| | |text]; cbn [returns compiled].
    + split; [done|]. exists cfg. split; [done|]. exact (proj2 Hd).
    + by destruct Hd.
    + destruct Hd as (_ & _ & H). done.
    + destruct Hd as (_ & b & block & name & -> & H). by exists cfg, b, block, name.
  - destruct Hg as [?|(r & Hr & [H|H])]; [done| |by exists r]. exfalso.
    pose proof (stores_jumps _ _ _ Hst Hjumps Hr) as Hno. rewrite Forall_forall in Hno. apply Exists_exists in H as (p & Hp & H).
    by apply (Hno p).
Qed.

Lemma lowering_stage ss' : lowerable (AST_PROGRAM ss') ->
  is_Some (resolve_program (subtrees (tree_at 0 (hir_of (AST_PROGRAM ss'))))) ->
  exists rn ir out, resolve_program (subtrees (tree_at 0 (hir_of (AST_PROGRAM ss')))) = Some rn /\
    vnt_ir_lower (AST_PROGRAM ss') = Done (Some ir) /\ vnt_ir_optimize ir = Done (Some out) /\
    stores out (back_end_tree rn ss') /\ ir_valid out /\ booleans_typed out.
Proof.
  intros Hl [rn Hrn]. destruct (lower_exact _ Hl) as [Hlow _]. cbn [is_program] in Hlow. rewrite Hrn in Hlow. cbn [fmap option_fmap option_map] in Hlow.
  destruct (lowered_stores _ _ Hl Hlow) as (rn' & Hrn' & Hst & _). rewrite Hrn in Hrn'. injection Hrn' as <-.
  destruct (optimize_stores _ _ Hst) as [Hopt Hout]. pose proof Hst as (_ & _ & _ & _ & Hroot & _).
  eexists rn, _, _. split; [done|]. split; [exact Hlow|]. split; [exact Hopt|]. split; [exact Hout|].
  split; [by eapply stores_valid|]. by apply literals_booleans, laid_out_literals, rounds_hir_root.
Qed.

Lemma accepted_jumps ss ss' : accepted ss = Some ss' -> forallb statement_wf ss = true ->
  in_loops false (hir_of (AST_PROGRAM ss')) = true.
Proof. intros Ha Hw. by apply (placed_jumps (functions_of ss) _ false false false), (accepted_placed ss). Qed.

Lemma compile_mode_returns ss : forallb statement_wf ss = true ->
  returns (compile_mode (AST_PROGRAM ss)) (fun r =>
    match accepted ss with
    | None => exists e, r = inl (TypeCheckingFailed (Some e))
    | Some ss' => exists rn ir, resolve_program (subtrees (tree_at 0 (hir_of (AST_PROGRAM ss')))) = Some rn /\
        stores ir (back_end_tree rn ss') /\ compiled ir r
    end).
Proof.
  intros Hw. destruct (check_program_run ss (statements_lowerable ss Hw)) as (ss' & tc & E & Ha & Hr).
  unfold compile_mode, vnt_typecheck. rewrite E. cbn [mbind outcome_bind].
  destruct (accepted ss) as [ss''|] eqn:Eacc.
  - destruct Hr as [-> ->]. cbn [negb]. pose proof (accepted_resolves _ _ Eacc Hw) as Hres.
    assert (lowerable (AST_PROGRAM ss'')) as Hl.
    { eapply (alike_lowerable _ (AST_PROGRAM ss)); [|by apply program_lowerable]. unfold alike. cbn. by rewrite Ha. }
    destruct (lowering_stage ss'' Hl Hres) as (rn & ir & out & Hrn & -> & Hopt & Hst & Hv & Hb). cbn [mbind outcome_bind].
    rewrite Hopt. cbn [mbind outcome_bind]. rewrite (valid_done out Hv). cbn [mbind outcome_bind negb].
    assert (in_loops false (back_end_tree rn ss'') = true) as Hjumps by (by apply optimize_jumps, renamed_jumps, (accepted_jumps ss)).
    eapply returns_mono; [by apply (graph_stage _ (back_end_tree rn ss''))|]. intros r Hr. by exists rn, out.
  - destruct Hr as [e He]. rewrite He. rewrite (bool_decide_eq_true_2 (is_Some (Some e))) by done. cbn. by exists e.
Qed.

(** C10: compiling a parsed program returns, whatever the program is: the type checker
    refuses just what the type system does not accept; for what it accepts the names are all
    resolved, the optimizer succeeds, and its result is a valid HIR of the optimized tree;
    every break and continue still has its loop; what remains are the programs of which no
    part can reach its end, and those in which a variable can be read before it is
    initialized. *)
Theorem compile_mode_exact counter src program p :
  parse_source counter src = Done (Some program, p) ->
  exists ss, program = AST_PROGRAM ss /\ returns (compile_mode program) (fun r =>
    match accepted ss with
    | None => exists e, r = inl (TypeCheckingFailed (Some e))
    | Some ss' => exists rn ir, resolve_program (subtrees (tree_at 0 (hir_of (AST_PROGRAM ss')))) = Some rn /\
        stores ir (back_end_tree rn ss') /\ compiled ir r
    end).
Proof. intros E. destruct (source_wf _ _ _ _ E) as (ss & -> & Hw & _). exists ss. split; [done|]. by apply compile_mode_returns. Qed.

Lemma accepted_stays ss ss' rn : accepted ss = Some ss' -> forallb statement_wf ss = true ->
  forallb stays (hir_children (renamed_tree rn (AST_PROGRAM ss'))) = true.
Proof.
  intros Ha Hw. pose proof (accepted_placed _ _ Ha Hw) as Hp. pose proof (renamed_children rn (AST_PROGRAM ss')) as Hop.
  cbn [edges] in Hop. rewrite map_map in Hop. cbn [snd] in Hop. revert Hop Hp.
  generalize (hir_children (renamed_tree rn (AST_PROGRAM ss'))) as hs. clear. intros hs. revert hs.
  induction ss' as [|n ss' IH]; intros [|h hs]; try done. cbn [map forallb]. intros [= Hh Hop] [Hn Hp]%andb_true_iff.
  rewrite IH by done. unfold stays. rewrite Hh. by destruct n; try destruct is_reassignment.
Qed.

(** C13: a program that is compiled means what its source means: what the back end is handed
    runs like the program in its full form, on every machine, if the program is orderly: in
    no branch of an if, a statement that may change a variable comes before a block of the
    same branch, or before an if or a while of the same branch whose condition is made of
    literals only, so that it may become a block. *)
Theorem compiled_program_runs counter src program p ir :
  parse_source counter src = Done (Some program, p) -> compile_mode program = Done (inr ir) ->
  exists ss ss' rn, program = AST_PROGRAM ss /\ accepted ss = Some ss' /\
    resolve_program (subtrees (tree_at 0 (hir_of (AST_PROGRAM ss')))) = Some rn /\ stores ir (back_end_tree rn ss') /\
    (orderly (renamed_tree rn (AST_PROGRAM ss')) = true ->
     forall (M : Type) (m : Machine M) (laws : MachineLaws M) n (s : M),
       run_program n (back_end_tree rn ss') s = run_program n (renamed_tree rn (AST_PROGRAM ss')) s).
Proof.
  intros E Hc. destruct (source_wf _ _ _ _ E) as (ss & -> & Hw & _). pose proof (compile_mode_returns ss Hw) as H.
  rewrite Hc in H. cbn [returns] in H. destruct (accepted ss) as [ss'|] eqn:Ha; [|by destruct H].
  destruct H as (rn & out & Hrn & Hst & -> & _). exists ss, ss', rn. split; [done|]. split; [done|]. split; [done|]. split; [done|].
  intros Ho M m laws n s.
  assert (lowerable (AST_PROGRAM ss')) as Hl.
  { destruct (check_program_run ss (statements_lowerable ss Hw)) as (ss1 & tc & _ & Hal & Hr). rewrite Ha in Hr.
    destruct Hr as [_ ->]. eapply (alike_lowerable _ (AST_PROGRAM ss)); [|by apply program_lowerable].
    unfold alike. cbn. by rewrite Hal. }
  destruct (lower_exact _ Hl) as [Hlow _]. cbn [is_program] in Hlow. rewrite Hrn in Hlow.
  destruct (lowered_stores _ _ Hl Hlow) as (rn' & Hrn' & Hsource & _). rewrite Hrn in Hrn'. injection Hrn' as <-.
  pose proof Hsource as (_ & _ & _ & _ & Hroot & _). apply optimize_hir_run. split; [done| |done]. by apply (accepted_stays ss).
Qed.

(** * Samples *)

Definition compile_sample : bytes :=
  str "let n: int = 2 + 1 fun f(a: int) -> int { if a > 1 { return a * 2 } return a } x = n while x < 5 { x = x + 1 } print(f(x)) if 1 < 2 { print(n) }".

Definition program_of (src : bytes) : ast :=
  match parse_source 0 src with
  | Done (Some program, _) => program
  | _ => AST_PROGRAM []
  end.

Definition statements_of (program : ast) : list ast := match program with AST_PROGRAM ss => ss | _ => [] end.

Definition names_for (ss : list ast) : list renaming :=
  default [] (resolve_program (subtrees (tree_at 0 (hir_of (AST_PROGRAM ss))))).

Definition source_tree (src : bytes) : hir :=
  let ss := default [] (accepted (statements_of (program_of src))) in renamed_tree (names_for ss) (AST_PROGRAM ss).

Definition compiled_tree (src : bytes) : hir := (optimize_hir (source_tree src)).1.

Definition compiled_ir (src : bytes) : VntIrProgram :=
  match compile_mode (program_of src) with
  | Done (inr ir) => ir
  | _ => lowered (AST_PROGRAM [])
  end.

Lemma compile_sample_parses : exists p, parse_source 0 compile_sample = Done (Some (program_of compile_sample), p).
Proof. eexists. vm_compute. reflexivity. Defined.

Lemma compile_sample_compiles : compile_mode (program_of compile_sample) = Done (inr (compiled_ir compile_sample)).
Proof. vm_compute. reflexivity. Defined.

Lemma compile_mode_exact_witness :
  exists ss, program_of compile_sample = AST_PROGRAM ss /\ is_Some (accepted ss) /\
    exists cfg, vnt_cfg_build (compiled_ir compile_sample) = Done (Some cfg) /\ initialized (compiled_ir compile_sample) cfg.
Proof.
  destruct compile_sample_parses as [p Hp]. destruct (compile_mode_exact 0 compile_sample _ p Hp) as (ss & E & H).
  rewrite compile_sample_compiles in H. cbn [returns] in H. exists ss. split; [exact E|].
  destruct (accepted ss) as [ss'|]; [|by destruct H]. destruct H as (rn & ir & _ & _ & <- & Hcfg). split; [by eexists|exact Hcfg].
Defined.

(** The compiled program prints what the source says. *)
Lemma compiled_program_runs_witness : exists rn ss',
  stores (compiled_ir compile_sample) (back_end_tree rn ss') /\
  output (run_program 30 (back_end_tree rn ss') memory_start) = Some [vnt_int 10; vnt_int 3].
Proof.
  destruct compile_sample_parses as [p Hp].
  destruct (compiled_program_runs 0 compile_sample _ p _ Hp compile_sample_compiles) as (ss & ss' & rn & E & Ha & Hrn & Hst & Hrun).
  exists rn, ss'. split; [exact Hst|].
  assert (ss = statements_of (program_of compile_sample)) as Hss by (by rewrite E). rewrite Hss in Ha.
  assert (ss' = default [] (accepted (statements_of (program_of compile_sample)))) as Hss' by (by rewrite Ha).
  assert (rn = names_for ss') as Hrn' by (unfold names_for; by rewrite Hrn).
  assert (renamed_tree rn (AST_PROGRAM ss') = source_tree compile_sample) as Htree by (unfold source_tree; by rewrite <- Hss', Hrn').
  rewrite Htree in Hrun. rewrite (Hrun ltac:(vm_compute; reflexivity) memory memory_machine memory_laws 30 memory_start).
  vm_compute. reflexivity.
Defined.

(** * An error of the optimizer *)

(** [x] is 1 before the branch, and 2 where it is printed. *)
Definition stale_sample : bytes :=
  str "c = f() x = 1 if c { x = 2 unsafe { print(x) } } fun f() { return true }".

(** C38: the optimizer changes what this program prints: a block inside of a branch is
    propagated with the constants that were known before the branch, although the branch has
    assigned the variable since (hir_propagate_statement, ir.c:751). The program is accepted
    and compiled; its source prints 2, and what the back end is handed prints 1. *)
Theorem stale_constant_propagated :
  compile_mode (program_of stale_sample) = Done (inr (compiled_ir stale_sample)) /\
  stores (compiled_ir stale_sample) (compiled_tree stale_sample) /\
  output (run_program 30 (source_tree stale_sample) memory_start) = Some [vnt_int 2] /\
  output (run_program 30 (compiled_tree stale_sample) memory_start) = Some [vnt_int 1].
Proof.
  assert (exists p, parse_source 0 stale_sample = Done (Some (program_of stale_sample), p)) as [p Hp]
    by (eexists; vm_compute; reflexivity).
  assert (compile_mode (program_of stale_sample) = Done (inr (compiled_ir stale_sample))) as Hc by (vm_compute; reflexivity).
  split; [exact Hc|]. split; [|by split; vm_compute].
  destruct (source_wf _ _ _ _ Hp) as (ss & E & Hw & _). pose proof (compile_mode_returns ss Hw) as H. rewrite <- E, Hc in H.
  cbn [returns] in H. unfold compiled_tree, source_tree, statements_of. rewrite E.
  destruct (accepted ss) as [ss'|]; [|by destruct H]. destruct H as (rn & ir & Hrn & Hst & -> & _).
  cbn [default from_option id]. unfold names_for. rewrite Hrn. exact Hst.
Qed.

(** The same with a condition that becomes a block when it is folded: neither program is
    orderly. *)
Definition folded_sample : bytes :=
  str "c = f() x = 1 if c { x = 2 if true { print(x) } } fun f() { return true }".

Lemma stale_constant_after_folding :
  output (run_program 30 (source_tree folded_sample) memory_start) = Some [vnt_int 2] /\
  output (run_program 30 (compiled_tree folded_sample) memory_start) = Some [vnt_int 1] /\
  orderly (source_tree stale_sample) = false /\ orderly (source_tree folded_sample) = false.
Proof. by vm_compute. Qed.
