(* ===== verification/Modules.v ===== *)
(** Modules: modules.c. The text of a project: a file with the files that it imports spliced
    in. The files are those of a [Host], the only thing here that is not the program. *)

From stdpp Require Import list.
From S2P Require Import Prelude Clib.

(** * The host *)

(** What the loader asks the system for. [fopen p] is [None] if the file cannot be opened
    for reading; else it is what [fseek], [ftell], [malloc] and [fread] give: the bytes
    read, or [None] if there is no size or no memory of this size. *)
Record Host := {
  fopen : bytes -> option (option bytes);
  realpath : bytes -> option bytes;
  getenv_module_path : option bytes
}.

Definition VNT_MODULE_MAX_IMPORT_DEPTH : nat := 64.

(** The sizes of the buffers on the stack. *)
Definition path_size : Z := 4096.
Definition alias_size : Z := 256.

(** What is printed after "Module error: ". *)
Inductive ModuleError : Type :=
  | CouldNotOpen (path : bytes)
  | CircularImport (path : bytes)
  | NestingExceeded (path : bytes)
  | PathTooLong
  | MalformedImport (path : bytes)
  | ExpectedExportedName (path : bytes)
  | OnlyFunctionsExported (path : bytes).

(** * Text *)

(** A buffer as a C string: up to its first NUL. *)
Fixpoint c_string (s : bytes) : bytes :=
  match s with
  | c :: s' => if (c =? NUL)%char then [] else c :: c_string s'
  | [] => []
  end.

(** The character that a pointer is at. *)
Definition first (s : bytes) : ascii := match s with c :: _ => c | [] => NUL end.

(** [strncmp(s, prefix, strlen(prefix)) == 0], and what is after the prefix then. *)
Fixpoint strip_prefix (prefix s : bytes) : option bytes :=
  match prefix, s with
  | [], _ => Some s
  | p :: prefix', c :: s' => if (p =? c)%char then strip_prefix prefix' s' else None
  | _ :: _, [] => None
  end.

(** The pieces of a text that a loop with [strchr(cursor, separator)] goes through: there
    is none after a separator at the end. *)
Fixpoint pieces (separator : ascii) (s : bytes) : list bytes :=
  match s with
  | [] => []
  | c :: s' =>
      if (c =? separator)%char then [] :: pieces separator s'
      else match pieces separator s' with
           | piece :: rest => (c :: piece) :: rest
           | [] => [[c]]
           end
  end.

(** The characters in [p] at the front, as they are copied to a buffer with [room] bytes
    left: one is kept for the NUL. *)
Fixpoint copy_while (p : ascii -> bool) (room : Z) (s : bytes) : option (bytes * bytes) :=
  match s with
  | c :: s' =>
      if p c then
        if (room <=? 1)%Z then None
        else '(copied, rest) ← copy_while p (room - 1) s'; Some (c :: copied, rest)
      else Some ([], s)
  | [] => Some ([], s)
  end.

(** The longest prefix with characters in [p]. *)
Fixpoint span (p : ascii -> bool) (s : bytes) : bytes * bytes :=
  match s with
  | c :: s' => if p c then let (a, b) := span p s' in (c :: a, b) else ([], s)
  | [] => ([], s)
  end.

Definition starts_name (c : ascii) : bool := isalpha c || (c =? "_")%char.
Definition in_name (c : ascii) : bool := isalnum c || (c =? "_")%char.

(** * Import lines *)

Definition ends_directive (s : bytes) : bool := (first s =? NUL)%char || (first s =? "#")%char.

Definition begins_import_directive (line : bytes) : bool :=
  match strip_prefix (str "import") (drop_space line) with
  | Some rest => (first rest =? NUL)%char || isspace (first rest)
  | None => false
  end.

(** What follows the name of the module: the alias, empty if there is none. *)
Definition import_alias (alias_size : Z) (s : bytes) : option bytes :=
  let s := drop_space s in
  if ends_directive s then Some []
  else
    match strip_prefix (str "as") s with
    | Some rest =>
        if negb (isspace (first rest)) then None
        else
          let rest := drop_space rest in
          if negb (starts_name (first rest)) then None
          else
            '(alias, rest) ← copy_while in_name alias_size rest;
            if ends_directive (drop_space rest) then Some alias else None
    | None => None
    end.

(** The module and the alias, if this is an import line. *)
Definition is_import_line (module_size alias_size : Z) (line : bytes) : option (bytes * bytes) :=
  match strip_prefix (str "import") (drop_space line) with
  | Some rest =>
      if negb (isspace (first rest) || (first rest =? quote)%char) then None
      else
        match drop_space rest with
        | c :: rest =>
            if negb (c =? quote)%char then None
            else
              '(module, rest) ← copy_while (fun c => negb (c =? quote)%char) module_size rest;
              match rest with
              | _ :: rest => alias ← import_alias alias_size rest; Some (module, alias)
              | [] => None
              end
        | [] => None
        end
  | None => None
  end.

(** * Exported functions *)

(** The line with the declaration of an exported function: the name gets the namespace. *)
Definition rewrite_declaration (path : bytes) (declaration_prefix : bytes)
    (namespace_name : option bytes) (declaration : bytes) : ModuleError + bytes :=
  if negb (starts_name (first declaration)) then inl (ExpectedExportedName path)
  else
    let (name, tail) := span in_name declaration in
    inr (declaration_prefix ++
         match namespace_name with Some namespace => namespace ++ str "__" | None => [] end ++
         name ++ tail).

(** What is written for a line that is not an import. *)
Definition emitted_line (path : bytes) (namespace_name : option bytes) (line : bytes)
    : ModuleError + bytes :=
  let emit_line := drop_space line in
  match strip_prefix (str "export unsafe fun ") emit_line with
  | Some declaration => rewrite_declaration path (str "unsafe fun ") namespace_name declaration
  | None =>
      match strip_prefix (str "export fun ") emit_line with
      | Some declaration => rewrite_declaration path (str "fun ") namespace_name declaration
      | None =>
          match strip_prefix (str "export ") emit_line with
          | Some _ => inl (OnlyFunctionsExported path)
          | None => inr emit_line
          end
      end
  end.

(** * Paths *)

Definition is_slash (c : ascii) : bool := (c =? "/")%char || (c =? backslash)%char.

(** The characters before the last slash of either kind. *)
Fixpoint before_slash (path : bytes) : option bytes :=
  match path with
  | c :: path' =>
      match before_slash path' with
      | Some directory => Some (c :: directory)
      | None => if is_slash c then Some [] else None
      end
  | [] => None
  end.

Definition directory_of (path : bytes) (size : Z) : option bytes :=
  match before_slash path with
  | None => Some (str ".")
  | Some directory => if (size <=? Z.of_nat (length directory))%Z then None else Some directory
  end.

Definition join_path (directory name : bytes) : bytes :=
  match last directory with
  | Some c => if is_slash c then directory ++ name else directory ++ str "/" ++ name
  | None => name
  end.

Section host.
Context (host : Host).

Definition normalize_path (path : bytes) : bytes := default path (realpath host path).

Definition file_exists (path : bytes) : bool := bool_decide (is_Some (fopen host path)).

(** The first entry of VNT_MODULE_PATH that has the module. *)
Fixpoint search_path (module : bytes) (entries : list bytes) : bytes :=
  match entries with
  | [] => normalize_path module
  | root :: entries =>
      let candidate := join_path root module in
      if (0 <? Z.of_nat (length root))%Z && (Z.of_nat (length root) <? path_size)%Z &&
         file_exists candidate
      then normalize_path candidate
      else search_path module entries
  end.

Definition resolve_module_path (directory module : bytes) : bytes :=
  let candidate := join_path directory module in
  if file_exists candidate then normalize_path candidate
  else
    match getenv_module_path host with
    | None => normalize_path module
    | Some search => search_path module (pieces ":"%char search)
    end.

(** * The loader *)

(** [output] is the text so far, [None] before the first line; [errors] is what has been
    printed. *)
Record Loader := {
  paths : list bytes;
  active_paths : list bytes;
  output : option bytes;
  errors : list ModuleError
}.

Definition with_paths (p a : list bytes) (l : Loader) : Loader :=
  {| paths := p; active_paths := a; output := output l; errors := errors l |}.

Definition seen (loader : Loader) (path : bytes) : bool := existsb (bytes_eqb path) (paths loader).
Definition is_active (loader : Loader) (path : bytes) : bool :=
  existsb (bytes_eqb path) (active_paths loader).

Definition remember (path : bytes) (l : Loader) : Loader :=
  if seen l path then l else with_paths (paths l ++ [path]) (active_paths l) l.
Definition push_active (path : bytes) (l : Loader) : Loader :=
  with_paths (paths l) (active_paths l ++ [path]) l.
Definition pop_active (l : Loader) : Loader :=
  with_paths (paths l) (removelast (active_paths l)) l.

Definition append_text (text : bytes) (l : Loader) : Loader :=
  {| paths := paths l; active_paths := active_paths l;
     output := Some (default [] (output l) ++ text); errors := errors l |}.

Definition report (e : ModuleError) : St Loader bool := fun l =>
  Done (false, {| paths := paths l; active_paths := active_paths l; output := output l;
                  errors := errors l ++ [e] |}).

(** The text of a file, up to a NUL. *)
Definition read_file (path : bytes) : St Loader (option bytes) :=
  match fopen host path with
  | None => _ ← report (CouldNotOpen path); mret None
  | Some contents => mret (c_string <$> contents)
  end.

Section lines.
Variable load : bytes -> option bytes -> St Loader bool.
Variables (path directory : bytes) (namespace_name : option bytes).

Definition load_line (line : bytes) : St Loader bool :=
  match is_import_line path_size alias_size line with
  | Some (module, alias) =>
      load (resolve_module_path directory module) (match alias with [] => None | _ => Some alias end)
  | None =>
      if begins_import_directive line then report (MalformedImport path)
      else
        match emitted_line path namespace_name line with
        | inl error => report error
        | inr emit_line =>
            _ ← modify (append_text emit_line);
            _ ← modify (append_text [newline]);
            mret true
        end
  end.

Fixpoint load_lines (lines : list bytes) : St Loader bool :=
  match lines with
  | [] => mret true
  | line :: lines =>
      ok ← load_line line;
      if ok : bool then load_lines lines else mret false
  end.

End lines.

(** Between push_active and pop_active. *)
Definition load_file (load : bytes -> option bytes -> St Loader bool)
    (path : bytes) (namespace_name : option bytes) : St Loader bool :=
  source ← read_file path;
  match source with
  | None => mret false
  | Some source =>
      match directory_of path path_size with
      | None => report PathTooLong
      | Some directory => load_lines load path directory namespace_name (pieces newline source)
      end
  end.

Fixpoint load_recursive (fuel : nat) (path : bytes) (namespace_name : option bytes)
    : St Loader bool :=
  match fuel with
  | O => stuck
  | S fuel =>
      loader ← get;
      if is_active loader path then report (CircularImport path)
      else if seen loader path then mret true
      else if VNT_MODULE_MAX_IMPORT_DEPTH <=? length (active_paths loader)
      then report (NestingExceeded path)
      else
        _ ← modify (remember path);
        _ ← modify (push_active path);
        ok ← load_file (load_recursive fuel) path namespace_name;
        _ ← modify pop_active;
        mret ok
  end.

Definition empty_loader : Loader :=
  {| paths := []; active_paths := []; output := None; errors := [] |}.

(** One level for each file that can be active, and one for the call that is refused. *)
Definition load_fuel : nat := S VNT_MODULE_MAX_IMPORT_DEPTH.

(** The text, [None] for NULL, and the loader at the end. *)
Definition vnt_load_project_source (entry_path : bytes) : outcome (option bytes * Loader) :=
  '(ok, loader) ← load_recursive load_fuel (normalize_path entry_path) None empty_loader;
  Done (if ok : bool then output loader else None, loader).

End host.
