(* ===== verification/ModulesFacts.v ===== *)
(** ModulesFacts: what the text of a project is, without a loader, and that the loader
    computes it. [expands n done p ns text done'] is the relation: reading [p] under the
    namespace [ns], with the files [done] written already, within [n] levels, gives the
    lines [text] and finishes the files that [done'] has more than [done], in this order. *)

From stdpp Require Import list.
From S2P Require Import Prelude Clib Modules.

(** * Lines and files *)

Inductive Line : Type :=
  | ImportLine (path : bytes) (namespace_name : option bytes)
  | TextLine (text : bytes)
  | BadLine (error : ModuleError).

Section host.
Context (host : Host).
Implicit Types (D : list bytes) (p q : bytes) (l : Loader).

Definition classify p (directory : bytes) (ns : option bytes) (line : bytes) : Line :=
  match is_import_line path_size alias_size line with
  | Some (module, alias) =>
      ImportLine (resolve_module_path host directory module) (match alias with [] => None | _ => Some alias end)
  | None =>
      if begins_import_directive line then BadLine (MalformedImport p)
      else match emitted_line p ns line with inl e => BadLine e | inr text => TextLine text end
  end.

(** The directory and the lines of a file that can be read. *)
Definition file_parts p : option (bytes * list bytes) :=
  file ← fopen host p;
  contents ← file;
  directory ← directory_of p path_size;
  Some (directory, pieces newline (c_string contents)).

(** * The text of a project *)

(** A file that has been written is not written again. *)
Definition called (R : list bytes -> bytes -> option bytes -> list bytes -> list bytes -> Prop)
    D q ns (text : list bytes) D' : Prop :=
  (q ∈ D /\ text = [] /\ D' = D) \/ (q ∉ D /\ R D q ns text D').

Section lines.
Context (R : list bytes -> bytes -> option bytes -> list bytes -> list bytes -> Prop).
Context (p directory : bytes) (ns : option bytes).

Inductive expands_lines : list bytes -> list bytes -> list bytes -> list bytes -> Prop :=
  | expands_end D : expands_lines [] D [] D
  | expands_text line text lines D texts D' :
      classify p directory ns line = TextLine text ->
      expands_lines lines D texts D' ->
      expands_lines (line :: lines) D (text :: texts) D'
  | expands_import line q ns' lines D texts1 D1 texts D' :
      classify p directory ns line = ImportLine q ns' ->
      called R D q ns' texts1 D1 ->
      expands_lines lines D1 texts D' ->
      expands_lines (line :: lines) D (texts1 ++ texts) D'.

End lines.

(** A file must not be among those that are written while it is read. *)
Fixpoint expands (n : nat) D p (ns : option bytes) (text : list bytes) D' : Prop :=
  match n with
  | O => False
  | S n =>
      exists directory lines D1,
        file_parts p = Some (directory, lines) /\
        expands_lines (expands n) p directory ns lines D text D1 /\
        p ∉ D1 /\ D' = D1 ++ [p]
  end.

(** ** Files only ever get finished *)

Lemma expands_lines_mono R p directory ns lines D texts D' :
  (forall D q ns' texts1 D1, R D q ns' texts1 D1 -> D `prefix_of` D1) ->
  expands_lines R p directory ns lines D texts D' -> D `prefix_of` D'.
Proof.
  intros HR. induction 1 as [|line text lines D texts D' _ _ IH|line q ns' lines D t1 D1 ts D' _ Hc _ IH]; [done|done|].
  destruct Hc as [(_ & _ & ->)|[_ Hc]]; [done|]. etrans; [by eapply HR|done].
Qed.

Lemma expands_prefix n D p ns text D' : expands n D p ns text D' -> D `prefix_of` D'.
Proof.
  revert D p ns text D'. induction n as [|n IH]; intros D p ns text D'; [done|].
  intros (dir & lines & D1 & _ & Hl & _ & ->). apply prefix_app_r. by eapply expands_lines_mono.
Qed.

Lemma expands_self n D p ns text D' : expands n D p ns text D' -> p ∈ D'.
Proof. destruct n; [done|]. intros (dir & lines & D1 & _ & _ & _ & ->). apply elem_of_app. right. by apply list_elem_of_singleton. Qed.

Lemma called_prefix n D p ns text D' : called (expands n) D p ns text D' -> D `prefix_of` D'.
Proof. intros [(_ & _ & ->)|[_ H]]; [done|by eapply expands_prefix]. Qed.

Lemma called_self n D p ns text D' : called (expands n) D p ns text D' -> p ∈ D'.
Proof. intros [(? & _ & ->)|[_ H]]; [done|by eapply expands_self]. Qed.

Ltac same_class :=
  match goal with H1 : classify _ _ _ _ = _, H2 : classify _ _ _ _ = _ |- _ =>
    rewrite H1 in H2; simplify_eq end.

(** ** The text is a function of the files *)

Definition functional (R : list bytes -> bytes -> option bytes -> list bytes -> list bytes -> Prop) : Prop :=
  forall D q ns t1 D1 t2 D2, R D q ns t1 D1 -> R D q ns t2 D2 -> t1 = t2 /\ D1 = D2.

Lemma called_functional R : functional R -> functional (called R).
Proof.
  intros HR D q ns t1 D1 t2 D2 [(Hq & -> & ->)|[Hq H1]] [(Hq' & -> & ->)|[Hq' H2]]; try done.
  by eapply HR.
Qed.

Lemma expands_lines_functional R p directory ns lines D t1 D1 t2 D2 : functional R ->
  expands_lines R p directory ns lines D t1 D1 -> expands_lines R p directory ns lines D t2 D2 ->
  t1 = t2 /\ D1 = D2.
Proof.
  intros HR%called_functional H1. revert t2 D2.
  induction H1 as [D|line text lines D ts D' E H IH|line q ns' lines D u1 E1 ts D' E Hc H IH];
    intros t2 D2 H2; inversion H2; subst; clear H2; try clear H; try done; same_class.
  - destruct (IH _ _ ltac:(eassumption)) as [-> ->]. split; congruence.
  - destruct (HR _ _ _ _ _ _ _ Hc ltac:(clear Hc; eassumption)) as [-> ->].
    by destruct (IH _ _ ltac:(eassumption)) as [-> ->].
Qed.

Lemma expands_functional n : functional (expands n).
Proof.
  induction n as [|n IH]; intros D p ns t1 D1 t2 D2; [done|].
  intros (dir & lines & E1 & F1 & H1 & _ & ->) (dir' & lines' & E2 & F2 & H2 & _ & ->).
  simplify_eq. destruct (expands_lines_functional _ _ _ _ _ _ _ _ _ _ IH H1 H2) as [-> ->]. done.
Qed.

(** * The loader *)

(** The files that the loader has seen are those that are written and those it is in. *)
Record tracks l D : Prop := {
  tracks_paths : paths l ≡ₚ D ++ active_paths l;
  tracks_once : NoDup (paths l)
}.

Definition unlines (text : list bytes) : bytes := concat (map (fun line => line ++ [newline]) text).

Definition appended (o : option bytes) (text : list bytes) : option bytes :=
  match text with [] => o | _ => Some (default [] o ++ unlines text) end.

(** One message, or a file without a size. *)
Definition complained l l' : Prop :=
  (exists e, errors l' = errors l ++ [e]) \/
  (errors l' = errors l /\ exists q, fopen host q = Some None).

(** What running the loader from [l] does, if the relation [G] says which texts and files
    it may give. *)
Definition loaded D (G : list bytes -> list bytes -> Prop) l (ok : bool) l' : Prop :=
  active_paths l' = active_paths l /\
  if ok then exists text D', G text D' /\ tracks l' D' /\
               output l' = appended (output l) text /\ errors l' = errors l
  else complained l l' /\
       forall text D', G text D' -> exists q, q ∈ active_paths l /\ q ∈ D'.

Lemma appended_app o text1 text2 : appended (appended o text1) text2 = appended o (text1 ++ text2).
Proof.
  destruct text1 as [|t1 text1]; [done|]. destruct text2 as [|t2 text2]; [by rewrite app_nil_r|].
  cbn [appended app from_option id]. f_equal. rewrite <- app_assoc. f_equal. unfold unlines.
  by rewrite (app_comm_cons text1), map_app, concat_app. Qed.

Lemma complained_from l l1 l' : errors l1 = errors l -> complained l1 l' -> complained l l'.
Proof. unfold complained. intros ->. done. Qed.

Lemma seen_spec l q : seen l q = true <-> q ∈ paths l.
Proof. apply exists_in. Qed.

Lemma is_active_spec l q : is_active l q = true <-> q ∈ active_paths l.
Proof. apply exists_in. Qed.

(** ** One line and all lines *)

Section lines.
Context (R : list bytes -> bytes -> option bytes -> list bytes -> list bytes -> Prop).
Context (load : bytes -> option bytes -> St Loader bool).
Context (active : list bytes).
Hypothesis R_functional : functional R.
Hypothesis R_prefix : forall D q ns text D', R D q ns text D' -> D `prefix_of` D'.
Hypothesis load_ok : forall D q ns l, tracks l D -> active_paths l = active ->
  wp (load q ns) l (loaded D (called R D q ns) l).

Lemma load_lines_ok p directory ns lines : forall D l, tracks l D -> active_paths l = active ->
  wp (load_lines host load p directory ns lines) l (loaded D (expands_lines R p directory ns lines D) l).
Proof.
  induction lines as [|line lines IH]; intros D l Ht Ha.
  { apply wp_ret. split; [done|]. exists [], D. split_and!; try done. constructor. }
  cbn [load_lines]. apply wp_bind. unfold load_line.
  assert (classify p directory ns line = classify p directory ns line) as E by done.
  unfold classify at 2 in E. destruct (is_import_line _ _ line) as [[module alias]|].
  - apply (wp_mono _ _ _ _ (load_ok _ _ _ _ Ht Ha)). intros ok l1 [Ha1 H1]. rewrite <- Ha1 in Ha.
    destruct ok; cbn beta iota.
    + destruct H1 as (text & D1 & Hc & Ht1 & Ho & He).
      apply (wp_mono _ _ _ _ (IH _ _ Ht1 Ha)). intros ok l2 [Ha2 H2]. split; [congruence|].
      destruct ok.
      * destruct H2 as (texts & D2 & Hl & Ht2 & Ho2 & He2). exists (text ++ texts), D2.
        split_and!; [by eapply expands_import|done| |congruence]. by rewrite Ho2, Ho, appended_app.
      * destruct H2 as [Hc2 Hno]. split; [by eapply complained_from|].
        intros ts D' Hl. inversion Hl; subst; same_class.
        destruct (called_functional _ R_functional _ _ _ _ _ _ _ Hc ltac:(clear Hc; eassumption)) as [_ ->].
        rewrite <- Ha1. by eapply Hno.
    + apply wp_ret. split; [done|]. destruct H1 as [Hc Hno]. split; [done|].
      intros ts D' Hl. inversion Hl; subst; same_class.
      destruct (Hno _ _ ltac:(eassumption)) as (q & Hq & Hin). exists q. split; [done|].
      match goal with H : expands_lines _ _ _ _ _ _ _ _ |- _ => apply expands_lines_mono in H as [k ->] end.
      * apply elem_of_app. by left.
      * exact R_prefix.
  - assert (forall e texts D', classify p directory ns line = BadLine e ->
      ~ expands_lines R p directory ns (line :: lines) D texts D') as Hbad.
    { intros e ts D' Eb Hl. inversion Hl; subst; same_class. }
    destruct (begins_import_directive line).
    { split; [done|]. split; [left; eauto|]. intros ts D' Hl. by destruct (Hbad _ _ _ E Hl). }
    destruct (emitted_line p ns line) as [e|text].
    { split; [done|]. split; [left; eauto|]. intros ts D' Hl. by destruct (Hbad _ _ _ E Hl). }
    repeat (apply wp_bind; apply wp_modify). apply wp_ret. cbn beta iota.
    set (l1 := append_text [newline] (append_text text l)).
    assert (tracks l1 D) as Ht1 by by destruct Ht.
    apply (wp_mono _ _ _ _ (IH _ l1 Ht1 Ha)). intros ok l2 [Ha2 H2]. split; [done|].
    assert (output l1 = appended (output l) [text]) as Ho1.
    { cbn [appended from_option id unlines map concat]. unfold l1, append_text. cbn.
      by rewrite app_nil_r, <- app_assoc. }
    destruct ok.
    + destruct H2 as (texts & D2 & Hl & Ht2 & Ho2 & He2). exists (text :: texts), D2.
      split_and!; [by eapply expands_text|done| |done]. by rewrite Ho2, Ho1, appended_app.
    + destruct H2 as [Hc2 Hno]. split; [done|].
      intros ts D' Hl. inversion Hl; subst; same_class. by eapply Hno.
Qed.
End lines.

(** ** One file *)

Lemma tracks_disjoint l D q : tracks l D -> q ∈ active_paths l -> q ∉ D.
Proof.
  intros [Hp Hn] Ha Hd. rewrite Hp in Hn. apply NoDup_app in Hn as (_ & Hn & _). by apply (Hn q).
Qed.

Lemma tracks_entered l D q : tracks l D -> q ∉ paths l ->
  tracks (push_active q (remember q l)) D.
Proof.
  intros [Hp Hn] Hq. unfold remember. destruct (seen l q) eqn:E; [by apply seen_spec in E|].
  split; cbn.
  - by rewrite Hp, <- app_assoc.
  - apply NoDup_app. split_and!; [done| |apply NoDup_singleton].
    intros x Hx ->%list_elem_of_singleton. done.
Qed.

Lemma tracks_left l D q active : tracks l D -> active_paths l = active ++ [q] ->
  tracks (pop_active l) (D ++ [q]) /\ active_paths (pop_active l) = active.
Proof.
  intros [Hp Hn] Ha. unfold pop_active, with_paths. cbn. rewrite Ha, removelast_last. split; [|done].
  split; cbn; [|done]. rewrite Hp, Ha. solve_Permutation.
Qed.

(** What the lines of a file give. *)
Definition expands_body n D q ns (text : list bytes) (D1 : list bytes) : Prop :=
  exists directory lines, file_parts q = Some (directory, lines) /\
    expands_lines (expands n) q directory ns lines D text D1.

Lemma load_file_ok n load q ns D l : tracks l D ->
  (forall D q ns l', tracks l' D -> active_paths l' = active_paths l ->
     wp (load q ns) l' (loaded D (called (expands n) D q ns) l')) ->
  wp (load_file host load q ns) l (loaded D (expands_body n D q ns) l).
Proof.
  intros Ht Hload. unfold load_file. apply wp_bind. unfold read_file, expands_body.
  destruct (fopen host q) as [contents|] eqn:Eo.
  2:{ split; [done|]. split; [left; eauto|]. intros text D' (dir & lines & E & _).
      unfold file_parts in E. by rewrite Eo in E. }
  apply wp_ret. destruct contents as [contents|]; cbn [fmap option_fmap option_map].
  2:{ split; [done|]. split; [right; eauto|]. intros text D' (dir & lines & E & _).
      unfold file_parts in E. by rewrite Eo in E. }
  destruct (directory_of q path_size) as [directory|] eqn:Ed.
  2:{ split; [done|]. split; [left; eauto|]. intros text D' (dir & lines & E & _).
      unfold file_parts in E. rewrite Eo in E. cbn in E. by rewrite Ed in E. }
  assert (file_parts q = Some (directory, pieces newline (c_string contents))) as E.
  { unfold file_parts. rewrite Eo. cbn. by rewrite Ed. }
  eapply wp_mono.
  { eapply (load_lines_ok (expands n)); [apply expands_functional|apply expands_prefix|apply Hload|done|done]. }
  intros ok l' [Ha H]. split; [done|]. destruct ok.
  - destruct H as (text & D1 & Hl & H). exists text, D1. split; [by eexists _, _|done].
  - destruct H as [Hc Hno]. split; [done|]. intros text D' (dir & lines & E' & Hl).
    simplify_eq. by eapply Hno.
Qed.

(** With a level of fuel for each file that may still become active, and one more. *)
Lemma load_recursive_ok fuel : forall n q ns D l, tracks l D ->
  length (active_paths l) + n = VNT_MODULE_MAX_IMPORT_DEPTH -> n < fuel ->
  wp (load_recursive host fuel q ns) l (loaded D (called (expands n) D q ns) l).
Proof.
  induction fuel as [|fuel IH]; intros n q ns D l Ht Hn Hf; [lia|]. cbn [load_recursive].
  apply wp_bind, wp_get. destruct (is_active l q) eqn:Eact.
  { apply is_active_spec in Eact. split; [done|]. split; [left; eauto|].
    intros text D' Hc. exists q. split; [done|]. by eapply called_self. }
  destruct (seen l q) eqn:Es.
  { apply seen_spec in Es. apply wp_ret. split; [done|]. exists [], D. split_and!; try done.
    left. split_and!; try done. destruct Ht as [Hp _]. rewrite Hp in Es.
    apply elem_of_app in Es as [?|Ha]; [done|]. apply is_active_spec in Ha. congruence. }
  assert (q ∉ paths l) as Hq by (rewrite <- seen_spec; congruence).
  assert (q ∉ D) as HqD.
  { destruct Ht as [Hp _]. rewrite Hp in Hq. intros H. apply Hq. apply elem_of_app. by left. }
  destruct (VNT_MODULE_MAX_IMPORT_DEPTH <=? length (active_paths l)) eqn:Ed.
  { apply Nat.leb_le in Ed. split; [done|]. split; [left; eauto|].
    intros text D' [(? & _)|[_ Hc]]; [done|]. assert (n = 0) as -> by lia. done. }
  apply Nat.leb_gt in Ed. destruct n as [|n]; [lia|].
  apply wp_bind, wp_modify, wp_bind, wp_modify. set (l1 := push_active q (remember q l)).
  assert (active_paths l1 = active_paths l ++ [q]) as Ha1.
  { unfold l1, remember. by destruct (seen l q). }
  assert (output l1 = output l /\ errors l1 = errors l) as [Ho1 He1].
  { unfold l1, remember. by destruct (seen l q). }
  apply wp_bind. eapply wp_mono.
  { apply (load_file_ok n); [by apply tracks_entered|]. intros D' q' ns' l' Ht' Ha'.
    apply IH; [done| |lia]. rewrite Ha', Ha1, length_app. cbn. lia. }
  intros ok l2 [Ha2 H2]. rewrite Ha1 in Ha2. apply wp_bind, wp_modify, wp_ret.
  split; [cbn; by rewrite Ha2, removelast_last|]. destruct ok.
  - destruct H2 as (text & D1 & (dir & lines & Ef & Hl) & Ht2 & Ho2 & He2).
    exists text, (D1 ++ [q]). split_and!; [|by eapply tracks_left|by rewrite <- Ho1|by rewrite <- He1].
    right. split; [done|]. exists dir, lines, D1. split_and!; try done.
    apply (tracks_disjoint _ _ _ Ht2). rewrite Ha2. apply elem_of_app. right. by apply list_elem_of_singleton.
  - destruct H2 as [Hc Hno]. split; [by eapply (complained_from _ l1)|].
    intros text D' [(? & _)|[_ Hx]]; [done|]. destruct Hx as (dir & lines & D1 & Ef & Hl & Hq1 & ->).
    destruct (Hno text D1 ltac:(by eexists _, _)) as (q' & Hq' & Hin). rewrite Ha1 in Hq'.
    apply elem_of_app in Hq' as [?| ->%list_elem_of_singleton]; [|done].
    exists q'. split; [done|]. apply elem_of_app. by left.
Qed.

End host.
