(* ===== verification/ModulesProps.v ===== *)
(** ModulesProps: which projects are loaded, what their text is, and in which order their
    files come. *)

From stdpp Require Import list relations.
From S2P Require Import Prelude Clib Modules ModulesFacts.

Section host.
Context (host : Host).
Implicit Types (D : list bytes) (p q : bytes).

(** * Projects as graphs *)

(** A line of [p] imports [q]. *)
Definition imports p q : Prop :=
  exists directory lines line module alias,
    file_parts host p = Some (directory, lines) /\ line ∈ lines /\
    is_import_line path_size alias_size line = Some (module, alias) /\
    q = resolve_module_path host directory module.

(** What is left of a file without its imports. *)
Definition own_line p directory ns line : option bytes :=
  match classify host p directory ns line with TextLine text => Some text | _ => None end.

Definition own_lines (file : bytes * option bytes) : list bytes :=
  match file_parts host file.1 with
  | Some (directory, lines) => omap (own_line file.1 directory file.2) lines
  | None => []
  end.

(** The imports of a file come before it. *)
Definition ordered D : Prop :=
  forall i p q, D !! i = Some p -> imports p q -> exists j, j < i /\ D !! j = Some q.

Lemma classify_import p directory ns line q ns' : classify host p directory ns line = ImportLine q ns' ->
  exists module alias, is_import_line path_size alias_size line = Some (module, alias) /\
    q = resolve_module_path host directory module.
Proof.
  unfold classify. destruct (is_import_line _ _ line) as [[module alias]|].
  - intros [= <- _]. by eexists _, _.
  - destruct (begins_import_directive line); [done|]. by destruct (emitted_line p ns line).
Qed.

(** * The files of a project *)

(** What a run adds to the files: each of them once, after its imports. *)
Record grown (from : bytes -> Prop) D (text : list bytes) D' (files : list (bytes * option bytes)) : Prop := {
  grown_files : D' = D ++ files.*1;
  grown_once : NoDup D';
  grown_ordered : ordered D';
  grown_from : Forall from files.*1;
  grown_text : text ≡ₚ files ≫= own_lines
}.

Lemma lookup_weaken D files j q : D !! j = Some q -> (D ++ files) !! j = Some q.
Proof. apply lookup_app_l_Some. Qed.

Lemma expands_lines_grown R p directory ns lines D text D' :
  (forall D q ns text D', NoDup D -> ordered D -> R D q ns text D' ->
     q ∈ D' /\ exists files, grown (rtc imports q) D text D' files) ->
  NoDup D -> ordered D -> expands_lines host R p directory ns lines D text D' ->
  (forall line m a, line ∈ lines -> is_import_line path_size alias_size line = Some (m, a) ->
     resolve_module_path host directory m ∈ D') /\
  exists files own, D' = D ++ files.*1 /\ NoDup D' /\ ordered D' /\
    Forall (fun r => exists q, (exists line m a, line ∈ lines /\
      is_import_line path_size alias_size line = Some (m, a) /\
      q = resolve_module_path host directory m) /\ rtc imports q r) files.*1 /\
    text ≡ₚ own ++ (files ≫= own_lines) /\ own = omap (own_line p directory ns) lines.
Proof.
  intros HR Hn Ho H. revert Hn Ho.
  induction H as [D|line t lines D texts D' E H IH|line q ns' lines D t1 D1 texts D' E Hc H IH]; intros Hn Ho.
  - split; [by intros ? ? ? ?%elem_of_nil|]. exists [], []. by rewrite app_nil_r.
  - destruct (IH Hn Ho) as (Hin & files & own & -> & Hn' & Ho' & Hf & Ht & ->). split.
    + intros l m a [->|Hl]%elem_of_cons Hi; [|by eapply Hin].
      unfold classify in E. by rewrite Hi in E.
    + exists files, (omap (own_line p directory ns) (line :: lines)). split_and!; try done.
      * eapply Forall_impl; [exact Hf|]. intros r (q & (l & m & a & Hl & Hi) & Hr).
        exists q. split; [|done]. exists l, m, a. split; [by right|done].
      * cbn. unfold own_line at 1. rewrite E. cbn. by rewrite Ht.
  - assert (exists files1, q ∈ D1 /\ grown (rtc imports q) D t1 D1 files1) as (files1 & Hq & [-> Hn1 Ho1 Hf1 Ht1]).
    { destruct Hc as [(Hq & -> & ->)|[Hq Hc]].
      - exists []. split; [done|]. split; [by rewrite app_nil_r|done|done|constructor|done].
      - destruct (HR _ _ _ _ _ Hn Ho Hc) as (? & files & ?). by exists files. }
    destruct (IH Hn1 Ho1) as (Hin & files & own & -> & Hn' & Ho' & Hf & Ht & ->).
    destruct (classify_import _ _ _ _ _ _ E) as (m0 & a0 & Hi0 & ->). split.
    + intros l m a [->|Hl]%elem_of_cons Hi; [|by eapply Hin]. simplify_eq.
      apply elem_of_app. by left.
    + exists (files1 ++ files), (omap (own_line p directory ns) (line :: lines)). split_and!.
      * by rewrite fmap_app, app_assoc.
      * done.
      * done.
      * rewrite fmap_app. apply Forall_app. split.
        -- eapply Forall_impl; [exact Hf1|]. intros r Hr. eexists. split; [|exact Hr].
           exists line, m0, a0. split_and!; [left|done|done].
        -- eapply Forall_impl; [exact Hf|]. intros r (q & (l & m & a & Hl & Hi) & Hr).
           exists q. split; [|done]. exists l, m, a. split; [by right|done].
      * cbn. unfold own_line at 1. rewrite E. cbn. rewrite Ht, Ht1, bind_app. solve_Permutation.
      * done.
Qed.

Lemma expands_grown n : forall D p ns text D', NoDup D -> ordered D ->
  expands host n D p ns text D' -> exists files, grown (rtc imports p) D text D' (files ++ [(p, ns)]).
Proof.
  induction n as [|n IH]; intros D p ns text D' Hn Ho; [done|].
  intros (directory & lines & D1 & Ef & Hl & Hp & ->).
  apply expands_lines_grown in Hl as (Hin & files & own & -> & Hn1 & Ho1 & Hf & Ht & ->); [|clear Hp|done|done].
  - exists files. split.
    + by rewrite fmap_app, app_assoc.
    + apply NoDup_app. split_and!; [done| |apply NoDup_singleton]. by intros x Hx ->%list_elem_of_singleton.
    + intros i r q Hi Him. apply lookup_snoc_Some in Hi as [[Hlt Hi]|[-> <-]].
      * destruct (Ho1 _ _ _ Hi Him) as (j & ? & ?). exists j. split; [done|]. by apply lookup_weaken.
      * destruct Him as (dir & ls & line & m & a & Ef' & Hline & Hi & ->). simplify_eq.
        specialize (Hin _ _ _ Hline Hi). apply list_elem_of_lookup in Hin as [j Hj]. exists j.
        split; [by eapply lookup_lt_Some|by apply lookup_weaken].
    + rewrite fmap_app. apply Forall_app. split; [|repeat constructor].
      eapply Forall_impl; [exact Hf|]. intros r (q & (line & m & a & Hline & Hi & ->) & Hr).
      eapply rtc_l; [|exact Hr]. by exists directory, lines, line, m, a.
    + rewrite bind_app. cbn. unfold own_lines at 2. cbn. rewrite Ef, app_nil_r, Ht. solve_Permutation.
  - intros D2 q ns' t D3 Hn2 Ho2 Hx. split; [by eapply expands_self|].
    destruct (IH _ _ _ _ _ Hn2 Ho2 Hx) as [fs ?]. by eexists.
Qed.

Lemma ordered_nil : ordered [].
Proof. intros i p q Hi. by rewrite lookup_nil in Hi. Qed.

Lemma ordered_closed D p q : ordered D -> p ∈ D -> rtc imports p q -> q ∈ D.
Proof.
  intros Ho Hp Hr. induction Hr as [|p q r Him _ IH]; [done|]. apply IH.
  apply list_elem_of_lookup in Hp as [i Hi]. destruct (Ho _ _ _ Hi Him) as (j & _ & Hj).
  by eapply list_elem_of_lookup_2.
Qed.

(** * Projects that are loaded *)

(** The file can be read, and each of its lines is an import, a text, or an export of a
    function. *)
Definition well_formed_file p : Prop :=
  exists directory lines, file_parts host p = Some (directory, lines) /\
    Forall (fun line => forall e, classify host p directory None line <> BadLine e) lines.

Lemma classify_bad p directory ns line e : classify host p directory ns line = BadLine e ->
  exists e', classify host p directory None line = BadLine e'.
Proof.
  unfold classify. destruct (is_import_line _ _ line) as [[m a]|]; [done|].
  destruct (begins_import_directive line); [eauto|]. unfold emitted_line, rewrite_declaration.
  repeat case_match; intros; simplify_eq; eauto.
Qed.

Section ranked.
Context (rank : bytes -> nat) (entry : bytes).
Hypothesis files_ok : forall p, rtc imports entry p -> well_formed_file p.
Hypothesis rank_import : forall p q, rtc imports entry p -> imports p q -> rank q < rank p.

Lemma rank_reachable p q : rtc imports entry p -> rtc imports p q -> rank q <= rank p.
Proof.
  intros Hp Hr. induction Hr as [|p q r Him _ IH]; [done|].
  specialize (rank_import _ _ Hp Him). specialize (IH ltac:(by eapply rtc_r)). lia.
Qed.

Lemma ranked_lines n p directory ns lines : rtc imports entry p ->
  (forall q D ns', rtc imports entry q -> rank q < rank p -> q ∉ D -> NoDup D -> ordered D ->
     exists text D', expands host n D q ns' text D') ->
  Forall (fun line => forall e, classify host p directory None line <> BadLine e) lines ->
  (forall line m a, line ∈ lines -> is_import_line path_size alias_size line = Some (m, a) ->
     imports p (resolve_module_path host directory m)) ->
  forall D, NoDup D -> ordered D -> exists text D', expands_lines host (expands host n) p directory ns lines D text D'.
Proof.
  intros Hp Hn Hf Hi. induction Hf as [|line lines Hline _ IH]; intros D HD Ho.
  { exists [], D. constructor. }
  specialize (IH ltac:(intros l m a Hl; apply Hi; by right)).
  destruct (classify host p directory ns line) as [q ns'|text|e] eqn:E.
  - destruct (classify_import _ _ _ _ _ _ E) as (m & a & Hm & Hq).
    assert (imports p q) as Him by (subst q; eapply Hi; [left|exact Hm]).
    destruct (decide (q ∈ D)) as [Hin|Hin].
    + destruct (IH D HD Ho) as (text & D' & ?). exists ([] ++ text), D'.
      eapply expands_import; [done|by left|done].
    + assert (rtc imports entry q) as Hrq by by eapply rtc_r.
      destruct (Hn q D ns' Hrq (rank_import _ _ Hp Him) Hin HD Ho) as (t1 & D1 & H1).
      destruct (expands_grown _ _ _ _ _ _ HD Ho H1) as [fs [_ HD1 Ho1 _ _]].
      destruct (IH D1 HD1 Ho1) as (text & D' & ?). exists (t1 ++ text), D'.
      eapply expands_import; [done|by right|done].
  - destruct (IH D HD Ho) as (texts & D' & ?). exists (text :: texts), D'. by eapply expands_text.
  - destruct (classify_bad _ _ _ _ _ E) as [e' E']. by destruct (Hline e').
Qed.

Lemma ranked_expands n : forall p D ns, rtc imports entry p -> rank p < n -> p ∉ D -> NoDup D -> ordered D ->
  exists text D', expands host n D p ns text D'.
Proof.
  induction n as [|n IH]; intros p D ns Hp Hr HpD HD Ho; [lia|].
  destruct (files_ok p Hp) as (directory & lines & Ef & Hf).
  assert (forall line m a, line ∈ lines -> is_import_line path_size alias_size line = Some (m, a) ->
    imports p (resolve_module_path host directory m)) as Him.
  { intros line m a Hl Hi. by exists directory, lines, line, m, a. }
  destruct (ranked_lines n p directory ns lines Hp) with (D := D) as (text & D1 & Hl); try done.
  { intros q D' ns' Hq Hrq. apply IH; [done|lia]. }
  exists text, (D1 ++ [p]), directory, lines, D1. split_and!; try done.
  apply expands_lines_grown in Hl as (_ & files & own & -> & _ & _ & Hfs & _); [|clear Hl|done|done].
  - rewrite elem_of_app. intros [?|Hin]; [done|]. rewrite Forall_forall in Hfs.
    destruct (Hfs p Hin) as (q & (line & m & a & Hline & Hi & ->) & Hqr).
    specialize (Him _ _ _ Hline Hi). pose proof (rank_import _ _ Hp Him).
    enough (rank p <= rank (resolve_module_path host directory m)) by lia.
    apply rank_reachable; [by eapply rtc_r|done].
  - intros D2 q ns' t D3 Hn2 Ho2 Hx. split; [by eapply expands_self|].
    destruct (expands_grown _ _ _ _ _ _ Hn2 Ho2 Hx) as [fs ?]. by eexists.
Qed.

End ranked.

(** * The result *)

Lemma project_loaded entry : let start := normalize_path host entry in
  exists result loader, vnt_load_project_source host entry = Done (result, loader) /\ active_paths loader = [] /\
  ((exists text D, expands host VNT_MODULE_MAX_IMPORT_DEPTH [] start None text D /\ paths loader ≡ₚ D /\
      result = appended None text /\ errors loader = []) \/
   ((forall text D, ~ expands host VNT_MODULE_MAX_IMPORT_DEPTH [] start None text D) /\ result = None /\
      complained host empty_loader loader)).
Proof.
  intros start. assert (tracks empty_loader []) as Ht by (split; [done|constructor]).
  pose proof (load_recursive_ok host load_fuel VNT_MODULE_MAX_IMPORT_DEPTH start None [] empty_loader Ht eq_refl
    (Nat.lt_succ_diag_r _)) as H.
  apply wp_done in H as (ok & loader & E & Ha & H). unfold vnt_load_project_source. fold start.
  rewrite E. eexists _, loader. split; [done|]. split; [done|]. destruct ok.
  - left. destruct H as (text & D & [(Hin & _)|[_ Hx]] & Htr & Ho & He); [by apply elem_of_nil in Hin|].
    exists text, D. split_and!; [done| |done|done]. destruct Htr as [Hp _]. rewrite Ha in Hp. by rewrite app_nil_r in Hp.
  - right. destruct H as [Hc Hno]. split_and!; [|done|done]. intros text D Hx.
    destruct (Hno text D) as (q & Hq & _); [|by apply elem_of_nil in Hq]. right. split; [apply not_elem_of_nil|done].
Qed.

End host.

(** ** Its text *)

(** C7: loading a project returns, for every set of files, with no file left active; its
    result is a text just if the project has an expansion within 64 levels with at least one
    line, and then it is this text. If there is none, a message has been printed, apart from
    a project without lines and a file without a size. *)
Theorem vnt_load_project_source_exact host entry :
  exists result loader, vnt_load_project_source host entry = Done (result, loader) /\
  active_paths loader = [] /\
  (forall text, result = Some text <->
    exists lines D, expands host VNT_MODULE_MAX_IMPORT_DEPTH [] (normalize_path host entry) None lines D /\
      lines <> [] /\ text = unlines lines) /\
  (result = None ->
    (exists D, expands host VNT_MODULE_MAX_IMPORT_DEPTH [] (normalize_path host entry) None [] D) \/
    (exists e, errors loader = [e]) \/ exists q, fopen host q = Some None).
Proof.
  destruct (project_loaded host entry) as (result & loader & E & Ha & H). exists result, loader.
  split; [done|]. split; [done|]. destruct H as [(text & D & Hx & _ & -> & He)|(Hno & -> & Hc)].
  - split.
    + intros t. split.
      * destruct text as [|l text]; [done|]. cbn. intros [= <-]. exists (l :: text), D. done.
      * intros (lines & D' & Hx' & Hne & ->).
        destruct (expands_functional host _ _ _ _ _ _ _ _ Hx Hx') as [-> _]. by destruct lines.
    + destruct text; [|done]. intros _. left. eauto.
  - split.
    + intros t. split; [done|]. intros (lines & D & Hx & _). by destruct (Hno lines D).
    + intros _. right. destruct Hc as [[e Hc]|[_ Hc]]; [left; by exists e|by right].
Qed.

(** ** The order of its files *)

(** C8: a project that is loaded consists of the files that can be reached by imports, each
    of them once, in an order in which the imports of a file come before it and the first
    file last; its text has the lines of each of these files, apart from imports, once. *)
Theorem loaded_files_ordered host entry text loader :
  vnt_load_project_source host entry = Done (Some text, loader) ->
  exists files lines, text = unlines lines /\
    lines ≡ₚ files ≫= own_lines host /\ paths loader ≡ₚ files.*1 /\
    NoDup files.*1 /\ ordered host files.*1 /\
    last files = Some (normalize_path host entry, None) /\
    forall p, p ∈ files.*1 <-> rtc (imports host) (normalize_path host entry) p.
Proof.
  intros E. destruct (project_loaded host entry) as (result & loader' & E' & _ & H).
  rewrite E in E'. injection E' as <- <-.
  destruct H as [(lines & D & Hx & Hp & Ht & _)|(_ & [=] & _)].
  destruct (expands_grown host _ _ _ _ _ _ NoDup_nil_2 (ordered_nil host) Hx) as [files [-> Hn Ho Hf Hl]].
  set (start := normalize_path host entry) in *.
  exists (files ++ [(start, None)]), lines. cbn [app] in *. split_and!; try done.
  - destruct lines; [done|]. by injection Ht.
  - apply last_snoc.
  - intros p. split.
    + rewrite Forall_forall in Hf. apply Hf.
    + apply (ordered_closed host _ _ _ Ho). rewrite fmap_app. apply elem_of_app. right. by left.
Qed.

(** ** Projects without cycles *)

(** C9: a project is loaded if all its files can be read and have only imports, lines of
    text and exports of functions, if its imports go down in a rank that is less than 64 at
    the first file, and if this file has a line of its own. *)
Theorem acyclic_project_loads host entry (rank : bytes -> nat) :
  let start := normalize_path host entry in
  (forall p, rtc (imports host) start p -> well_formed_file host p) ->
  (forall p q, rtc (imports host) start p -> imports host p q -> rank q < rank p) ->
  rank start < VNT_MODULE_MAX_IMPORT_DEPTH ->
  own_lines host (start, None) <> [] ->
  exists text loader, vnt_load_project_source host entry = Done (Some text, loader).
Proof.
  intros start Hok Hrank Hdepth Hown.
  destruct (ranked_expands host rank start Hok Hrank VNT_MODULE_MAX_IMPORT_DEPTH start [] None) as (lines & D & Hx);
    [done|done|apply not_elem_of_nil|constructor|apply ordered_nil|].
  destruct (project_loaded host entry) as (result & loader & E & _ & H). fold start in H.
  destruct H as [(lines' & D' & Hx' & _ & -> & _)|(Hno & _)]; [|by destruct (Hno lines D)].
  destruct (expands_grown host _ _ _ _ _ _ NoDup_nil_2 (ordered_nil host) Hx') as [files [_ _ _ _ Hl]].
  destruct lines' as [|l lines']; [|cbn in E; eauto].
  exfalso. apply Hown. rewrite bind_app in Hl. apply Permutation_nil_l in Hl. symmetry in Hl.
  apply app_nil in Hl as [_ Hl]. cbn in Hl. by rewrite app_nil_r in Hl.
Qed.

(** * A project *)

(** Two modules: one in the directory of the file, and one in the search path. *)
Definition sample_files : list (bytes * bytes) :=
  [(str "project/main.vnt",
    str "import " ++ [quote] ++ str "geometry.vnt" ++ [quote] ++ str " as g # areas" ++ [newline] ++
    str "import " ++ [quote] ++ str "numbers.vnt" ++ [quote] ++ [newline] ++
    str "print(g__area(3) + one())" ++ [newline]);
   (str "project/geometry.vnt",
    str "import " ++ [quote] ++ str "numbers.vnt" ++ [quote] ++ [newline] ++
    str "fun g__double(n: int) -> int { return n * 2 }" ++ [newline] ++
    str "export fun area(n: int) -> int { return double(n) }");
   (str "lib/numbers.vnt", str "export fun one() -> int { return 1 }" ++ [newline])].

Definition files_host (files : list (bytes * bytes)) (search : option bytes) : Host :=
  {| fopen := fun path => option_map (fun file => Some file.2) (find (fun file => bytes_eqb path file.1) files);
     realpath := fun path => None;
     getenv_module_path := search |}.

Definition sample_host : Host := files_host sample_files (Some (str "missing:lib")).

Example sample_text : vnt_load_project_source sample_host (str "project/main.vnt") =
  Done (Some (str "fun one() -> int { return 1 }" ++ [newline] ++
    str "fun g__double(n: int) -> int { return n * 2 }" ++ [newline] ++
    str "fun g__area(n: int) -> int { return double(n) }" ++ [newline] ++
    str "print(g__area(3) + one())" ++ [newline]),
   {| paths := [str "project/main.vnt"; str "project/geometry.vnt"; str "lib/numbers.vnt"];
      active_paths := [];
      output := Some (str "fun one() -> int { return 1 }" ++ [newline] ++
    str "fun g__double(n: int) -> int { return n * 2 }" ++ [newline] ++
    str "fun g__area(n: int) -> int { return double(n) }" ++ [newline] ++
    str "print(g__area(3) + one())" ++ [newline]);
      errors := [] |}).
Proof. vm_compute. reflexivity. Qed.

(** * Witnesses *)

Lemma sample_loads : exists text loader,
  vnt_load_project_source sample_host (str "project/main.vnt") = Done (Some text, loader) /\
  paths loader = [str "project/main.vnt"; str "project/geometry.vnt"; str "lib/numbers.vnt"].
Proof. eexists _, _. split; [vm_compute; reflexivity|reflexivity]. Qed.

(** The files are finished from the leaves to the root. *)
Lemma loaded_files_ordered_witness : exists files : list (bytes * option bytes),
  length files = 3 /\ NoDup files.*1 /\ ordered sample_host files.*1 /\
  last files = Some (str "project/main.vnt", None).
Proof.
  destruct sample_loads as (text & loader & E & Hp).
  destruct (loaded_files_ordered sample_host (str "project/main.vnt") text loader E)
    as (files & lines & _ & _ & Hf & Hn & Ho & Hl & _).
  exists files. split; [|split; [exact Hn|split; [exact Ho|exact Hl]]].
  rewrite <- (length_fmap fst files), <- Hf, Hp. reflexivity.
Defined.

(** A file without imports. *)
Definition single_host : Host := files_host [(str "a", str "print(1)")] None.

Lemma single_imports p q : imports single_host p q -> False.
Proof.
  intros (directory & lines & line & module & alias & Ef & Hl & Hi & _).
  unfold file_parts, single_host, files_host in Ef. cbn [fopen find fst] in Ef.
  destruct (bytes_eqb p (str "a")); cbn in Ef; [|done]. destruct (directory_of p path_size); [|done].
  cbn in Ef. injection Ef as _ <-. apply list_elem_of_singleton in Hl as ->. by vm_compute in Hi.
Qed.

Lemma acyclic_project_loads_witness : exists text loader,
  vnt_load_project_source single_host (str "a") = Done (Some text, loader).
Proof.
  apply (acyclic_project_loads single_host (str "a") (fun _ => 0)).
  - intros p Hr. inversion Hr as [|? q ? Hi]; subst; [|by destruct (single_imports _ _ Hi)].
    exists (str "."), [str "print(1)"]. split; [vm_compute; reflexivity|].
    repeat constructor. intros e H. vm_compute in H. discriminate H.
  - intros p q _ Hi. by destruct (single_imports _ _ Hi).
  - vm_compute. lia.
  - vm_compute. discriminate.
Defined.
