(* ===== verification/ModuleLines.v ===== *)
(** ModuleLines: the lines that the module loader takes for imports, and the names that it
    gives to exported functions. *)

From stdpp Require Import list.
From S2P Require Import Prelude Clib Modules TypeNames TypeCheck.

(** * Scanning *)

Definition blanks (w : bytes) : Prop := Forall (fun c => isspace c = true) w.

Lemma drop_space_blanks w s : blanks w -> drop_space (w ++ s) = drop_space s.
Proof. induction 1 as [|c w Hc _ IH]; [done|]. cbn. by rewrite Hc. Qed.

Lemma drop_space_id s : isspace (first s) = false -> drop_space s = s.
Proof. destruct s as [|c s]; [done|]. cbn. by intros ->. Qed.

Lemma drop_space_split s : exists w, blanks w /\ s = w ++ drop_space s.
Proof.
  induction s as [|c s (w & Hw & E)]; [by exists []; split; [constructor|]|]. cbn. destruct (isspace c) eqn:Ec.
  - exists (c :: w). split; [by constructor|]. cbn. by rewrite <- E.
  - exists []. by split; [constructor|].
Qed.

Lemma strip_prefix_app prefix s : strip_prefix prefix (prefix ++ s) = Some s.
Proof. induction prefix as [|c prefix IH]; [done|]. cbn. by rewrite Ascii.eqb_refl. Qed.

Lemma strip_prefix_some prefix s rest : strip_prefix prefix s = Some rest -> s = prefix ++ rest.
Proof.
  revert s. induction prefix as [|p prefix IH]; intros s; cbn; [congruence|].
  destruct s as [|c s]; [done|]. destruct (p =? c)%char eqn:E; [|done].
  apply Ascii.eqb_eq in E as ->. by intros ->%IH.
Qed.

(** The copy fits with its NUL, and stops where it has to. *)
Lemma copy_while_spec p room s copied rest :
  copy_while p room s = Some (copied, rest) <->
  s = copied ++ rest /\ Forall (fun c => p c = true) copied /\
  (copied = [] \/ Z.of_nat (length copied) < room)%Z /\
  match rest with c :: _ => p c = false | [] => True end.
Proof.
  revert room copied. induction s as [|c s IH]; intros room copied; cbn [copy_while].
  - split.
    + intros [= <- <-]. split_and!; auto.
    + intros (E & _ & _ & _). symmetry in E. by apply app_nil in E as [-> ->].
  - destruct (p c) eqn:Ec.
    + destruct (Z.leb_spec room 1) as [Hr|Hr].
      * split; [done|]. intros (E & _ & [->|Hl] & Hrest); [by cbn in E; subst rest; congruence|].
        destruct copied; [cbn in E; subst rest; congruence|]. cbn in Hl. lia.
      * split.
        -- destruct (copy_while p (room - 1) s) as [[copied' rest']|] eqn:E; [|done].
           cbn. intros [= <- <-]. apply IH in E as (-> & Hf & Hl & Hrest).
           split_and!; [done|by constructor| |done]. right. destruct Hl as [->|Hl]; cbn; lia.
        -- intros (E & Hf & Hl & Hrest). destruct copied as [|c' copied].
           { cbn in E. subst rest. congruence. }
           injection E as <- E. inversion Hf; subst.
           assert (copy_while p (room - 1) (copied ++ rest) = Some (copied, rest)) as ->; [|done].
           apply IH. split_and!; try done. destruct Hl as [|Hl]; [done|]. right. cbn in Hl. lia.
    + split.
      * intros [= <- <-]. split_and!; auto.
      * intros (E & Hf & _ & _). destruct copied as [|c' copied]; [cbn in E; by subst|].
        injection E as <- E. inversion Hf. congruence.
Qed.

(** * Import lines *)

(** The end of a directive: the alias, if there is one, and a comment. *)
Inductive directive_end : bytes -> bytes -> Prop :=
  | no_alias w tail : blanks w -> ends_directive tail = true -> directive_end (w ++ tail) []
  | with_alias w1 w2 alias w3 tail :
      blanks w1 -> blanks w2 -> w2 <> [] -> blanks w3 ->
      starts_name (first alias) = true -> Forall (fun c => in_name c = true) alias ->
      (Z.of_nat (length alias) < alias_size)%Z -> ends_directive tail = true ->
      directive_end (w1 ++ str "as" ++ w2 ++ alias ++ w3 ++ tail) alias.

(** An import of [module] under the name [alias], which is empty if there is none. *)
Inductive import_directive : bytes -> bytes -> bytes -> Prop :=
  | import_line w1 w2 module tail alias :
      blanks w1 -> blanks w2 -> quote ∉ module ->
      (Z.of_nat (length module) < path_size)%Z -> directive_end tail alias ->
      import_directive (w1 ++ str "import" ++ w2 ++ quote :: module ++ quote :: tail) module alias.

Lemma ends_not_space s : ends_directive s = true -> isspace (first s) = false /\ in_name (first s) = false.
Proof.
  unfold ends_directive. intros [E%Ascii.eqb_eq|E%Ascii.eqb_eq]%orb_true_iff; rewrite E; done.
Qed.

Lemma starts_not_space c : starts_name c = true -> isspace c = false /\ in_name c = true.
Proof.
  intros H. unfold starts_name in H. apply orb_true_iff in H as [H|H%Ascii.eqb_eq]; [|by subst].
  split; [|unfold in_name, isalnum; by rewrite H].
  unfold isspace, isalpha, between in *. lia.
Qed.

Lemma directive_end_exact tail alias : import_alias alias_size tail = Some alias <-> directive_end tail alias.
Proof.
  unfold import_alias. split.
  - destruct (drop_space_split tail) as (w & Hw & E).
    destruct (ends_directive (drop_space tail)) eqn:Ee.
    { intros [= <-]. rewrite E. by constructor. }
    destruct (strip_prefix _ (drop_space tail)) as [rest|] eqn:Es; [|done].
    apply strip_prefix_some in Es. destruct (isspace (first rest)) eqn:E1; cbn [negb]; [|done].
    destruct (drop_space_split rest) as (w2 & Hw2 & E2).
    destruct (starts_name (first (drop_space rest))) eqn:E3; cbn [negb]; [|done].
    destruct (copy_while in_name alias_size (drop_space rest)) as [[copied after]|] eqn:Ec; [|done]. cbn.
    destruct (ends_directive (drop_space after)) eqn:E4; [|done]. intros [= <-].
    apply copy_while_spec in Ec as (Ec & Hf & Hl & Hrest).
    destruct (drop_space_split after) as (w3 & Hw3 & E5).
    rewrite E, Es, E2, Ec, E5. apply with_alias; try done.
    + intros ->. cbn in E2. rewrite <- E2 in E3. apply starts_not_space in E3 as [E3 _]. congruence.
    + rewrite Ec in E3. destruct copied as [|c copied]; [|done]. exfalso. cbn in E3.
      apply starts_not_space in E3 as [_ E3]. destruct after as [|c after]; [done|]. cbn in E3. congruence.
    + by destruct Hl as [->|].
  - destruct 1 as [w tail Hw He|w1 w2 alias w3 tail H1 H2 Hne H3 Hs Hf Hl He].
    + rewrite (drop_space_blanks _ _ Hw), drop_space_id by by apply ends_not_space. by rewrite He.
    + rewrite (drop_space_blanks _ _ H1).
      rewrite (drop_space_id (str "as" ++ _)) by done.
      change (ends_directive (str "as" ++ w2 ++ alias ++ w3 ++ tail)) with false. cbn iota.
      rewrite strip_prefix_app. destruct w2 as [|c w2]; [done|]. inversion H2 as [|? ? Hc _]; subst.
      cbn [app first]. rewrite Hc. cbn [negb]. rewrite app_comm_cons, (drop_space_blanks _ _ H2).
      destruct alias as [|a alias]; [done|]. cbn [first] in Hs.
      rewrite drop_space_id by by apply starts_not_space. cbn [app first]. rewrite Hs. cbn [negb].
      assert (copy_while in_name alias_size ((a :: alias) ++ w3 ++ tail) = Some (a :: alias, w3 ++ tail)) as E.
      { apply copy_while_spec. split_and!; [done|done|by right|].
        destruct w3 as [|c' w3]; cbn [app].
        - apply ends_not_space in He as [_ He]. by destruct tail.
        - inversion H3; subst. unfold in_name, isalnum, isspace, isalpha, isdigit, between in *.
          destruct (Ascii.eqb_spec c' "_"); [by subst|]. lia. }
      cbn [app] in E. rewrite E. cbn. rewrite (drop_space_blanks _ _ H3), drop_space_id by by apply ends_not_space.
      by rewrite He.
Qed.

Lemma quote_not_space : isspace quote = false.
Proof. done. Qed.

Lemma not_quotes module : quote ∉ module <-> Forall (fun c => negb (c =? quote)%char = true) module.
Proof.
  rewrite Forall_forall. split.
  - intros H c Hc. apply negb_true_iff, Ascii.eqb_neq. by intros ->.
  - intros H Hc. specialize (H _ Hc). by rewrite Ascii.eqb_refl in H.
Qed.

(** C39: a line is taken for an import of a module under an alias just if it is one: blanks,
    import, blanks, the module in quotes, and then either nothing, or as, blanks and a name,
    with a comment or the end of the line after it; the module fits in 4095 characters and
    the alias in 255. *)
Theorem is_import_line_exact line module alias :
  is_import_line path_size alias_size line = Some (module, alias) <-> import_directive line module alias.
Proof.
  unfold is_import_line. split.
  - destruct (drop_space_split line) as (w1 & Hw1 & E1).
    destruct (strip_prefix _ (drop_space line)) as [rest|] eqn:Es; [|done].
    apply strip_prefix_some in Es. destruct (negb _); [done|].
    destruct (drop_space_split rest) as (w2 & Hw2 & E2).
    destruct (drop_space rest) as [|c rest'] eqn:Er; [done|].
    destruct (c =? quote)%char eqn:Eq; cbn [negb]; [|done]. apply Ascii.eqb_eq in Eq as ->.
    destruct (copy_while _ path_size rest') as [[copied after]|] eqn:Ec; [|done]. cbn.
    apply copy_while_spec in Ec as (-> & Hf & Hl & Hrest). destruct after as [|c tail]; [done|].
    apply negb_false_iff, Ascii.eqb_eq in Hrest as ->.
    destruct (import_alias alias_size tail) as [a|] eqn:Ea; [|done]. intros [= <- <-].
    rewrite E1, Es, E2. constructor; try done; [by apply not_quotes|by destruct Hl as [->|]|by apply directive_end_exact].
  - destruct 1 as [w1 w2 module tail alias H1 H2 Hq Hl He].
    rewrite (drop_space_blanks _ _ H1), drop_space_id, strip_prefix_app by done.
    assert (negb (isspace (first (w2 ++ quote :: module ++ quote :: tail)) ||
      (first (w2 ++ quote :: module ++ quote :: tail) =? quote)%char) = false) as ->.
    { destruct w2 as [|c w2]; [done|]. inversion H2 as [|? ? Hc _]; subst. cbn [app first]. by rewrite Hc. }
    rewrite (drop_space_blanks _ _ H2), drop_space_id by done. rewrite Ascii.eqb_refl. cbn [negb].
    assert (copy_while (fun c => negb (c =? quote)%char) path_size (module ++ quote :: tail) =
      Some (module, quote :: tail)) as ->.
    { apply copy_while_spec. split_and!; [done|by apply not_quotes|by right|]. by rewrite Ascii.eqb_refl. }
    cbn. apply directive_end_exact in He. by rewrite He.
Qed.

(** * Namespaces *)

Lemma separator_cons a b r :
  separator (a :: b :: r) = if ((a =? "_")%char && (b =? "_")%char) then Some 0 else S <$> separator (b :: r).
Proof. done. Qed.

Lemma separator_after alias name : separator (alias ++ str "_") = None ->
  separator (alias ++ str "__" ++ name) = Some (length alias).
Proof.
  induction alias as [|a alias IH]; [done|].
  assert (exists b r, alias ++ str "_" = b :: r /\ exists r', alias ++ str "__" ++ name = b :: r') as (b & r & E & r' & E')
    by (destruct alias; eauto).
  cbn [app]. rewrite E, E', !separator_cons. destruct (_ && _); [done|]. rewrite <- E, <- E'.
  destruct (separator (alias ++ str "_")); [done|]. intros _. by rewrite IH.
Qed.

Lemma separator_inside alias name k : separator (alias ++ str "_") = Some k ->
  separator (alias ++ str "__" ++ name) = Some k /\ k < length alias.
Proof.
  revert k. induction alias as [|a alias IH]; intros k; [done|].
  assert (exists b r, alias ++ str "_" = b :: r /\ exists r', alias ++ str "__" ++ name = b :: r') as (b & r & E & r' & E')
    by (destruct alias; eauto).
  cbn [app]. rewrite E, E', !separator_cons. destruct (_ && _); [intros [= <-]; cbn; split; [done|lia]|].
  rewrite <- E, <- E'. destruct (separator (alias ++ str "_")) as [k'|]; [|done]. intros [= <-].
  destruct (IH k' eq_refl) as [-> ?]. cbn. split; [done|lia].
Qed.

Lemma span_name name tail : Forall (fun c => in_name c = true) name ->
  match tail with c :: _ => in_name c = false | [] => True end -> span in_name (name ++ tail) = (name, tail).
Proof.
  intros Hn Ht. induction Hn as [|c name Hc _ IH]; cbn.
  - destruct tail as [|c tail]; [done|]. cbn. by rewrite Ht.
  - by rewrite Hc, IH.
Qed.

(** A name in the namespace of a module that is imported with an alias. *)
Definition qualified (namespace_name : option bytes) (name : bytes) : bytes :=
  match namespace_name with Some alias => alias ++ str "__" ++ name | None => name end.

(** C40: a line that exports a function, unsafe or not and after any blanks, is emitted
    without the export, and with the alias of the import and two underscores before the name
    of the function if there is an alias; the type checker takes this alias for the
    namespace of the function just if the alias has no two underscores in a row and does not
    end with one. *)
Theorem exported_name_namespace path namespace_name (is_unsafe : bool) spaces name tail outer :
  blanks spaces ->
  starts_name (first name) = true -> Forall (fun c => in_name c = true) name ->
  match tail with c :: _ => in_name c = false | [] => True end ->
  emitted_line path namespace_name
      (spaces ++ str (if is_unsafe then "export unsafe fun " else "export fun ") ++ name ++ tail) =
    inr (str (if is_unsafe then "unsafe fun " else "fun ") ++ qualified namespace_name name ++ tail) /\
  forall alias, namespace_name = Some alias ->
    (namespace_of (qualified namespace_name name) outer = Some alias <-> separator (alias ++ str "_") = None).
Proof.
  intros Hspaces Hs Hn Ht. split.
  - unfold emitted_line. rewrite drop_space_blanks by done. rewrite drop_space_id by by destruct is_unsafe.
    assert (forall prefix, rewrite_declaration path prefix namespace_name (name ++ tail) =
      inr (prefix ++ qualified namespace_name name ++ tail)) as Hrewrite.
    { intros prefix. unfold rewrite_declaration. rewrite (span_name _ _ Hn Ht).
      destruct name as [|c name]; [done|]. cbn [app first] in *. rewrite Hs. cbn [negb].
      destruct namespace_name; cbn [qualified]; by rewrite <- ?app_assoc. }
    destruct is_unsafe.
    + by rewrite strip_prefix_app, Hrewrite.
    + change (strip_prefix (str "export unsafe fun ") (str "export fun " ++ name ++ tail)) with (@None bytes).
      by rewrite strip_prefix_app, Hrewrite.
  - intros alias ->. cbn [qualified]. unfold namespace_of. destruct (separator (alias ++ str "_")) as [k|] eqn:E.
    + destruct (separator_inside _ name _ E) as [-> Hk]. split; [|done]. intros [= H].
      apply (f_equal length) in H. rewrite length_take, length_app in H. lia.
    + rewrite (separator_after _ _ E). by rewrite take_app_length.
Qed.

Lemma exported_name_namespace_witness :
  emitted_line [] (Some (str "g")) (str "  export unsafe fun area(n)") = inr (str "unsafe fun g__area(n)") /\
  namespace_of (str "g__area") None = Some (str "g").
Proof.
  destruct (exported_name_namespace [] (Some (str "g")) true (str "  ") (str "area") (str "(n)") None) as [H1 H2];
    [repeat constructor|reflexivity|repeat constructor|reflexivity|].
  split; [exact H1|]. apply H2; reflexivity.
Defined.
