(* ===== verification/Driver.v ===== *)
(** Driver: main.c, from the name of a file to what the back end is handed; and that this
    returns for every project. *)

From stdpp Require Import list relations.
From S2P Require Import Prelude Clib Lexer Ast Parser Statements StatementsProps.
From S2P Require Import Ir IrTrees IrLayout IrLower IrAccess IrScopesFacts IrResolve IrOptimize IrPasses IrPassesFacts IrRewrite IrOptimizeProps Cfg Dataflow.
From S2P Require Import Modules ModulesFacts ModulesProps ModuleLines.
From S2P Require Import HirSemantics HirFolding TypeNames TypeCheck TypeSystem Compiler CompilerProps.

(** Why there is no program for the back end; with what has been printed. *)
Inductive Failure : Type :=
  | NotLoaded (printed : list ModuleError)
  | NotParsed (parser : Parser)
  | NotCompiled (failure : CompileFailure).

(** The part of main that the options share, with the stages of the compiler. *)
Definition vnt_main (host : Host) (path : bytes) : outcome (Failure + VntIrProgram) :=
  '(source, loader) ← vnt_load_project_source host path;
  match source with
  | None => Done (inl (NotLoaded (errors loader)))
  | Some source =>
      '(program, parser) ← parse_source 0 source;
      match program with
      | None => Done (inl (NotParsed parser))
      | Some program =>
          compiled ← compile_mode program;
          Done (match compiled with inl failure => inl (NotCompiled failure) | inr ir => inr ir end)
      end
  end.

(** * What the whole chain does *)

(** C3: from the name of a file to what the back end is handed: for every set of files this
    returns, without reading outside of a buffer. Each failure has its reason: a message of
    the loader, a file without a size or a project without lines; a text that the parser
    rejects; a program that the type system does not accept, or which the graph or the
    definite assignment refuses. What the back end is handed is the valid HIR of the
    optimized full form of the program in the expanded text, in which no variable is read
    before it is initialized. *)
Theorem vnt_main_exact host path :
  let start := normalize_path host path in
  returns (vnt_main host path) (fun r =>
    match r with
    | inl (NotLoaded printed) =>
        (exists e, printed = [e]) \/ (exists q, fopen host q = Some None) \/
        exists D, expands host VNT_MODULE_MAX_IMPORT_DEPTH [] start None [] D
    | inl (NotParsed parser) => exists lines D,
        expands host VNT_MODULE_MAX_IMPORT_DEPTH [] start None lines D /\
        parse_source 0 (unlines lines) = Done (None, parser)
    | inl (NotCompiled failure) => exists lines D ss parser,
        expands host VNT_MODULE_MAX_IMPORT_DEPTH [] start None lines D /\
        parse_source 0 (unlines lines) = Done (Some (AST_PROGRAM ss), parser) /\
        match accepted ss with
        | None => exists e, failure = TypeCheckingFailed (Some e)
        | Some ss' => exists rn ir, stores ir (back_end_tree rn ss') /\ compiled ir (inl failure)
        end
    | inr ir => exists lines D ss parser ss' rn cfg,
        expands host VNT_MODULE_MAX_IMPORT_DEPTH [] start None lines D /\
        parse_source 0 (unlines lines) = Done (Some (AST_PROGRAM ss), parser) /\
        accepted ss = Some ss' /\
        resolve_program (subtrees (tree_at 0 (hir_of (AST_PROGRAM ss')))) = Some rn /\
        stores ir (back_end_tree rn ss') /\
        vnt_cfg_build ir = Done (Some cfg) /\ initialized ir cfg
    end).
Proof.
  intros start. unfold vnt_main. destruct (project_loaded host path) as (result & loader & E & _ & H).
  rewrite E. cbn [mbind outcome_bind]. destruct H as [(lines & D & Hx & _ & -> & _)|(_ & -> & Hc)].
  2:{ cbn. destruct Hc as [[e Hc]|[_ Hc]]; [left; by exists e|by right; left]. }
  destruct lines as [|line lines]; cbn [appended]; [right; right; by exists D|].
  set (text := line :: lines) in *. cbn [from_option id app].
  destruct (parse_source_ok 0 (unlines text)) as (parser0 & o & parser & Ep & _). rewrite Ep. cbn [mbind outcome_bind].
  destruct o as [program|]; [|cbn; by exists text, D].
  destruct (source_wf _ _ _ _ Ep) as (ss & -> & Hw & _).
  apply returns_bind. eapply returns_mono; [by apply compile_mode_returns|]. intros r Hr. cbn [returns].
  destruct r as [failure|ir].
  - exists text, D, ss, parser. split_and!; try done. destruct (accepted ss) as [ss'|].
    + destruct Hr as (rn & ir & _ & Hst & Hc). by exists rn, ir.
    + destruct Hr as (e & [= ->]). by exists e.
  - destruct (accepted ss) as [ss'|] eqn:Ha; [|by destruct Hr].
    destruct Hr as (rn & out & Hrn & Hst & -> & cfg & Hcfg & Hi).
    by exists text, D, ss, parser, ss', rn, cfg.
Qed.

(** * Modules and names *)

(** The sample project compiles: the call of [double] finds [g__double]. *)
Example sample_project_compiles : match vnt_main sample_host (str "project/main.vnt") with
  | Done (inr _) => true | _ => false end = true.
Proof. vm_compute. reflexivity. Qed.

Definition import_of (module alias : string) : bytes :=
  str "import " ++ [quote] ++ str module ++ [quote] ++ str " as " ++ str alias ++ [newline].

(** The file and the module [m.vnt] that it imports. *)
Definition two_files (main module : bytes) : Host :=
  files_host [(str "main.vnt", main); (str "./m.vnt", module)] None.

Definition undeclared (name : string) : outcome (Failure + VntIrProgram) :=
  Done (inl (NotCompiled (TypeCheckingFailed (Some (UndeclaredFunction (str name)))))).

(** A file is written once, with the first alias: the names of a second alias do not exist. *)
Theorem second_alias_ignored :
  vnt_main (two_files (import_of "m.vnt" "a" ++ import_of "m.vnt" "b" ++ str "print(b__one())")
                      (str "export fun one() -> int { return 1 }"))
           (str "main.vnt") = undeclared "b__one".
Proof. vm_compute. reflexivity. Qed.

(** The loader takes any name for an alias, but the checker ends the namespace of a function
    at the first two underscores: functions of this module do not find each other. *)
Theorem nested_alias_rejected :
  vnt_main (two_files (import_of "m.vnt" "a__b" ++ str "print(a__b__two())")
                      (str "export fun one() -> int { return 1 }" ++ [newline] ++
                       str "export fun two() -> int { return one() + 1 }"))
           (str "main.vnt") = undeclared "one".
Proof. vm_compute. reflexivity. Qed.

(** A string literal may go on over lines; the loader takes the blanks in front of each line
    away all the same. *)
Theorem string_lines_stripped :
  let source := str "print(" ++ [quote] ++ str "a" ++ [newline] ++ str "  b" ++ [quote] ++ str ")" in
  let stripped := str "print(" ++ [quote] ++ str "a" ++ [newline] ++ str "b" ++ [quote] ++ str ")" ++ [newline] in
  (exists loader, vnt_load_project_source (two_files source []) (str "main.vnt") = Done (Some stripped, loader)) /\
  program_of source = AST_PROGRAM [AST_PRINT_STATEMENT (AST_STRING_LITERAL (str "a" ++ [newline] ++ str "  b"))] /\
  program_of stripped = AST_PROGRAM [AST_PRINT_STATEMENT (AST_STRING_LITERAL (str "a" ++ [newline] ++ str "b"))].
Proof. split; [eexists; vm_compute; reflexivity|]. split; vm_compute; reflexivity. Qed.

(** The directory of a file in the root is the empty path, which is the working directory. *)
Example root_directory : directory_of (str "/main.vnt") path_size = Some [] /\
  join_path [] (str "m.vnt") = str "m.vnt".
Proof. done. Qed.
