(* ===== verification/Asm.v ===== *)
(** Asm: the assembly language that freestanding_x86.c writes: its lines, the text of each
    line, and what a processor does with them. The processor is the part of x86-64 that the
    instructions of a program need which is compiled without inline assembly and without
    the instructions for model-specific registers, the control register CR2 and the
    translation caches: those are [Unmodelled]. *)

From S2P Require Import Prelude Clib.
Local Open Scope Z_scope.

(** * Lines *)

Inductive register : Set := RAX | RCX | RDX | RDI | RSI | R8 | R9 | RSP | RBP.
Inductive width : Set := W8 | W32 | W64.

Inductive symbol : Type :=
  | LocalLabel (n : nat)
  | StringLabel (i : nat)
  | ArithmeticFault
  | HaltForever
  | Start
  | StackTop
  | FunctionSymbol (name : bytes)
  | External (name : bytes).

Inductive operand : Type :=
  | Imm (z : Z)
  | Reg (w : width) (r : register)
  | Cr2
  | Mem (displacement : option Z) (base : register) (index : option register)
  | Rip (s : symbol)
  | Target (s : symbol).

Inductive mnemonic : Set :=
  | MOVQ | MOVL | MOVB | MOVABSQ | MOVZBL | LEA | LEAQ | PUSHQ | POPQ | XCHGQ
  | ADDQ | SUBQ | IMULQ | NEGQ | ANDQ | ORQ | SHLQ | SHRQ | CQTO | IDIVQ
  | CMPQ | TESTQ | TESTL | SETE | SETNE | SETG | SETL | SETGE | SETLE
  | JMP | JE | JNE | JZ | JNZ | JO | CALL | RET | LEAVE | UD2 | CLI | HLT
  | RDMSR | WRMSR | INVLPG.

(** [Verbatim] is inline assembly. *)
Inductive Line : Type :=
  | Ins (m : mnemonic) (operands : list operand)
  | LabelLine (s : symbol)
  | Directive (text : bytes)
  | Verbatim (text : bytes).

(** * Text *)

Definition register_text (w : width) (r : register) : bytes :=
  str (match w, r with
       | W64, RAX => "%rax" | W64, RCX => "%rcx" | W64, RDX => "%rdx" | W64, RDI => "%rdi"
       | W64, RSI => "%rsi" | W64, R8 => "%r8" | W64, R9 => "%r9" | W64, RSP => "%rsp"
       | W64, RBP => "%rbp"
       | W32, RAX => "%eax" | W32, RCX => "%ecx" | W32, RDX => "%edx" | W32, RDI => "%edi"
       | W32, RSI => "%esi" | W32, R8 => "%r8d" | W32, R9 => "%r9d" | W32, RSP => "%esp"
       | W32, RBP => "%ebp"
       | W8, RAX => "%al" | W8, RCX => "%cl" | W8, RDX => "%dl" | W8, RDI => "%dil"
       | W8, RSI => "%sil" | W8, R8 => "%r8b" | W8, R9 => "%r9b" | W8, RSP => "%spl"
       | W8, RBP => "%bpl"
       end)%string.

(** emit_symbol: what is not in a name is written as an underscore. *)
Definition emit_symbol (name : bytes) : bytes :=
  map (fun c => if isalnum c || (c =? "_")%char then c else "_"%char) name.

Definition print_nat (n : nat) : bytes := print_Z (Z.of_nat n).

Definition symbol_text (s : symbol) : bytes :=
  match s with
  | LocalLabel n => str ".Lvnt_free_" ++ print_nat n
  | StringLabel i => str ".Lvnt_str_" ++ print_nat i
  | ArithmeticFault => str ".Lvnt_arithmetic_fault"
  | HaltForever => str ".Lvnt_halt_forever"
  | Start => str "_start"
  | StackTop => str "freestanding_stack_top"
  | FunctionSymbol name => str "vnt_fn_" ++ emit_symbol name
  | External name => name
  end.

Definition operand_text (o : operand) : bytes :=
  match o with
  | Imm z => str "$" ++ print_Z z
  | Reg w r => register_text w r
  | Cr2 => str "%cr2"
  | Mem displacement base index =>
      match displacement with Some d => print_Z d | None => [] end ++
      str "(" ++ register_text W64 base ++
      match index with Some i => str "," ++ register_text W64 i | None => [] end ++ str ")"
  | Rip s => symbol_text s ++ str "(%rip)"
  | Target s => symbol_text s
  end.

Definition mnemonic_text (m : mnemonic) : bytes :=
  str (match m with
       | MOVQ => "movq" | MOVL => "movl" | MOVB => "movb" | MOVABSQ => "movabsq"
       | MOVZBL => "movzbl" | LEA => "lea" | LEAQ => "leaq" | PUSHQ => "pushq" | POPQ => "popq"
       | XCHGQ => "xchgq" | ADDQ => "addq" | SUBQ => "subq" | IMULQ => "imulq" | NEGQ => "negq"
       | ANDQ => "andq" | ORQ => "orq" | SHLQ => "shlq" | SHRQ => "shrq" | CQTO => "cqto"
       | IDIVQ => "idivq" | CMPQ => "cmpq" | TESTQ => "testq" | TESTL => "testl"
       | SETE => "sete" | SETNE => "setne" | SETG => "setg" | SETL => "setl" | SETGE => "setge"
       | SETLE => "setle" | JMP => "jmp" | JE => "je" | JNE => "jne" | JZ => "jz" | JNZ => "jnz"
       | JO => "jo" | CALL => "call" | RET => "ret" | LEAVE => "leave" | UD2 => "ud2"
       | CLI => "cli" | HLT => "hlt" | RDMSR => "rdmsr" | WRMSR => "wrmsr" | INVLPG => "invlpg"
       end)%string.

Fixpoint joined (separator : bytes) (texts : list bytes) : bytes :=
  match texts with
  | [] => []
  | [text] => text
  | text :: texts => text ++ separator ++ joined separator texts
  end.

Definition line_text (line : Line) : bytes :=
  match line with
  | Ins m operands =>
      str "    " ++ mnemonic_text m ++
      match operands with [] => [] | _ => str " " ++ joined (str ", ") (map operand_text operands) end
  | LabelLine s => symbol_text s ++ str ":"
  | Directive text => text
  | Verbatim text => str "    " ++ text
  end ++ [newline].

Definition program_text (lines : list Line) : bytes := concat (map line_text lines).

(** * Words and memory *)

(** Registers hold signed 64-bit integers; memory holds bytes. *)
Definition wrap64 (z : Z) : Z := (z + 2 ^ 63) mod 2 ^ 64 - 2 ^ 63.
Definition low32 (z : Z) : Z := z mod 2 ^ 32.

Definition Memory : Type := Z -> Z.

Definition set_byte (a v : Z) (m : Memory) : Memory := fun a' => if a' =? a then v else m a'.

(** Little-endian. *)
Fixpoint load (n : nat) (m : Memory) (a : Z) : Z :=
  match n with
  | O => 0
  | S n => m a mod 256 + 256 * load n m (a + 1)
  end.

Fixpoint store (n : nat) (v a : Z) (m : Memory) : Memory :=
  match n with
  | O => m
  | S n => store n (v / 256) (a + 1) (set_byte a (v mod 256) m)
  end.

Definition width_bytes (w : width) : nat := match w with W8 => 1 | W32 => 4 | W64 => 8 end.

(** What a value of this width becomes in a register: 64 bits are signed, the others are
    extended with zeros. *)
Definition extended (w : width) (v : Z) : Z :=
  match w with W8 => v mod 2 ^ 8 | W32 => low32 v | W64 => wrap64 v end.

(** * The processor *)

Definition register_eqb (a b : register) : bool :=
  match a, b with
  | RAX, RAX | RCX, RCX | RDX, RDX | RDI, RDI | RSI, RSI | R8, R8 | R9, R9 | RSP, RSP | RBP, RBP => true
  | _, _ => false
  end.

(** A flag that an instruction leaves undefined is [None]. *)
Record Flags := { ZF : option bool; SF : option bool; OF : option bool }.

Record Cpu := {
  registers : register -> Z;
  flags : Flags;
  memory : Memory;
  pc : nat
}.

Definition set_register (r : register) (v : Z) (s : Cpu) : Cpu :=
  {| registers := fun r' => if register_eqb r' r then v else registers s r';
     flags := flags s; memory := memory s; pc := pc s |}.
Definition set_flags (f : Flags) (s : Cpu) : Cpu :=
  {| registers := registers s; flags := f; memory := memory s; pc := pc s |}.
Definition set_memory (m : Memory) (s : Cpu) : Cpu :=
  {| registers := registers s; flags := flags s; memory := m; pc := pc s |}.
Definition set_pc (n : nat) (s : Cpu) : Cpu :=
  {| registers := registers s; flags := flags s; memory := memory s; pc := n |}.

(** What a step does: it goes on, it raises an exception (an invalid opcode, a division
    error), it halts with interrupts off, or it is outside of this model. *)
Inductive Step : Type :=
  | Next (s : Cpu)
  | Exception (s : Cpu)
  | Halted (s : Cpu)
  | Unmodelled.

Section processor.
(** The addresses of the symbols and of the instructions are up to the assembler. *)
Context (address : symbol -> Z) (code_address : nat -> Z) (code_index : Z -> option nat).

Definition effective_address (displacement : option Z) (base : register) (index : option register)
    (s : Cpu) : Z :=
  wrap64 (default 0 displacement + registers s base +
          match index with Some i => registers s i | None => 0 end).

(** The bits of an operand of width [w], as they are extended to a register. *)
Definition read_operand (w : width) (o : operand) (s : Cpu) : option Z :=
  match o with
  | Imm z => Some (extended w z)
  | Reg w' r => match w, w' with
                | W8, W8 | W32, W32 | W64, W64 => Some (extended w (registers s r))
                | _, _ => None
                end
  | Mem d b i => Some (extended w (load (width_bytes w) (memory s) (effective_address d b i s)))
  | _ => None
  end.

(** Writing 32 bits of a register clears the others; writing 8 keeps them. *)
Definition write_operand (w : width) (o : operand) (v : Z) (s : Cpu) : option Cpu :=
  match o with
  | Reg w' r => match w, w' with
                | W8, W8 => Some (set_register r (registers s r - registers s r mod 2 ^ 8 + v mod 2 ^ 8) s)
                | W32, W32 | W64, W64 => Some (set_register r (extended w v) s)
                | _, _ => None
                end
  | Mem d b i => Some (set_memory (store (width_bytes w) v (effective_address d b i s) (memory s)) s)
  | _ => None
  end.

Definition advanced (s : Cpu) : Cpu := set_pc (S (pc s)) s.

Definition next (s : option Cpu) : Step :=
  match s with Some s => Next (advanced s) | None => Unmodelled end.

Definition result_flags (v : Z) (overflow : option bool) : Flags :=
  {| ZF := Some (v =? 0); SF := Some (v <? 0); OF := overflow |}.

Definition overflows (v : Z) : bool := negb (in_int64 v).

(** An instruction that computes [v] from its operands, and sets the flags. *)
Definition arithmetic (o : operand) (v : Z) (s : Cpu) : option Cpu :=
  s ← write_operand W64 o v s;
  Some (set_flags (result_flags (wrap64 v) (Some (overflows v))) s).

Definition push (v : Z) (s : Cpu) : Cpu :=
  let top := wrap64 (registers s RSP - 8) in
  set_memory (store 8 v top (memory s)) (set_register RSP top s).

Definition top_of_stack (s : Cpu) : Z := wrap64 (load 8 (memory s) (registers s RSP)).

Definition pop (s : Cpu) : Cpu := set_register RSP (wrap64 (registers s RSP + 8)) s.

(** The conditions of jumps and of set instructions. *)
Definition condition_of (m : mnemonic) (f : Flags) : option bool :=
  match m with
  | JE | JZ | SETE => ZF f
  | JNE | JNZ | SETNE => negb <$> ZF f
  | JO => OF f
  | SETL => sign ← SF f; overflow ← OF f; Some (xorb sign overflow)
  | SETGE => sign ← SF f; overflow ← OF f; Some (negb (xorb sign overflow))
  | SETG => zero ← ZF f; sign ← SF f; overflow ← OF f; Some (negb zero && negb (xorb sign overflow))
  | SETLE => zero ← ZF f; sign ← SF f; overflow ← OF f; Some (zero || xorb sign overflow)
  | _ => None
  end.

Definition symbol_eqb (a b : symbol) : bool :=
  match a, b with
  | LocalLabel n, LocalLabel n' | StringLabel n, StringLabel n' => Nat.eqb n n'
  | ArithmeticFault, ArithmeticFault | HaltForever, HaltForever | Start, Start | StackTop, StackTop => true
  | FunctionSymbol n, FunctionSymbol n' | External n, External n' => bytes_eqb n n'
  | _, _ => false
  end.

Definition is_label (s : symbol) (line : Line) : bool :=
  match line with LabelLine s' => symbol_eqb s s' | _ => false end.

Definition label_position (code : list Line) (s : symbol) : option nat :=
  fst <$> list_find (fun line => is_label s line = true) code.

Definition jump (code : list Line) (target : symbol) (s : Cpu) : Step :=
  match label_position code target with
  | Some n => Next (set_pc n s)
  | None => Unmodelled
  end.

(** [idivq]: the dividend is in RDX and RAX. *)
Definition divide (divisor : Z) (s : Cpu) : Step :=
  let dividend := registers s RDX * 2 ^ 64 + registers s RAX mod 2 ^ 64 in
  let quotient := Z.quot dividend divisor in
  if (divisor =? 0) || negb (in_int64 quotient) then Exception s
  else
    Next (advanced (set_flags {| ZF := None; SF := None; OF := None |}
           (set_register RDX (Z.rem dividend divisor) (set_register RAX quotient s)))).

Definition instruction (code : list Line) (m : mnemonic) (operands : list operand) (s : Cpu) : Step :=
  match m, operands with
  | MOVQ, [a; b] => next (v ← read_operand W64 a s; write_operand W64 b v s)
  | MOVABSQ, [Imm z; b] => next (write_operand W64 b z s)
  | MOVL, [a; b] => next (v ← read_operand W32 a s; write_operand W32 b v s)
  | MOVB, [a; b] => next (v ← read_operand W8 a s; write_operand W8 b v s)
  | MOVZBL, [a; b] => next (v ← read_operand W8 a s; write_operand W32 b v s)
  | (LEA | LEAQ), [Rip t; b] => next (write_operand W64 b (address t) s)
  | PUSHQ, [a] => next (v ← read_operand W64 a s; Some (push v s))
  | POPQ, [b] => next (write_operand W64 b (top_of_stack s) (pop s))
  | XCHGQ, [Reg W64 r; Mem d base i] =>
      let a := effective_address d base i s in
      next (Some (set_register r (wrap64 (load 8 (memory s) a))
                   (set_memory (store 8 (registers s r) a (memory s)) s)))
  | ADDQ, [a; b] =>
      next (x ← read_operand W64 a s; y ← read_operand W64 b s; arithmetic b (y + x) s)
  | SUBQ, [a; b] =>
      next (x ← read_operand W64 a s; y ← read_operand W64 b s; arithmetic b (y - x) s)
  | IMULQ, [a; b] =>
      next (x ← read_operand W64 a s; y ← read_operand W64 b s;
            s ← write_operand W64 b (y * x) s;
            Some (set_flags {| ZF := None; SF := None; OF := Some (overflows (y * x)) |} s))
  | NEGQ, [b] => next (y ← read_operand W64 b s; arithmetic b (- y) s)
  | ANDQ, [a; b] =>
      next (x ← read_operand W64 a s; y ← read_operand W64 b s;
            s ← write_operand W64 b (Z.land y x) s;
            Some (set_flags (result_flags (Z.land y x) (Some false)) s))
  | TESTQ, [a; b] =>
      next (x ← read_operand W64 a s; y ← read_operand W64 b s;
            Some (set_flags (result_flags (Z.land y x) (Some false)) s))
  | TESTL, [a; b] =>
      next (x ← read_operand W32 a s; y ← read_operand W32 b s;
            Some (set_flags {| ZF := Some (Z.land y x =? 0);
                               SF := Some (Z.testbit (Z.land y x) 31); OF := Some false |} s))
  | CMPQ, [a; b] =>
      next (x ← read_operand W64 a s; y ← read_operand W64 b s;
            Some (set_flags (result_flags (wrap64 (y - x)) (Some (overflows (y - x)))) s))
  | CQTO, [] => next (Some (set_register RDX (if registers s RAX <? 0 then -1 else 0) s))
  | IDIVQ, [a] => match read_operand W64 a s with Some x => divide x s | None => Unmodelled end
  | (SETE | SETNE | SETG | SETL | SETGE | SETLE), [b] =>
      next (c ← condition_of m (flags s); write_operand W8 b (Z.b2z c) s)
  | JMP, [Target t] => jump code t s
  | (JE | JNE | JZ | JNZ | JO), [Target t] =>
      match condition_of m (flags s) with
      | Some c => if c then jump code t s else Next (advanced s)
      | None => Unmodelled
      end
  | CALL, [Target t] => jump code t (push (code_address (S (pc s))) s)
  | RET, [] =>
      match code_index (top_of_stack s) with
      | Some n => Next (set_pc n (pop s))
      | None => Unmodelled
      end
  | LEAVE, [] =>
      let s := set_register RSP (registers s RBP) s in
      next (Some (set_register RBP (top_of_stack s) (pop s)))
  | UD2, [] => Exception s
  | CLI, [] => next (Some s)
  | HLT, [] => Halted s
  | _, _ => Unmodelled
  end.

Definition step (code : list Line) (s : Cpu) : Step :=
  match code !! pc s with
  | Some (Ins m operands) => instruction code m operands s
  | Some (LabelLine _) | Some (Directive _) => Next (advanced s)
  | Some (Verbatim _) | None => Unmodelled
  end.

(** At most [n] steps. *)
Fixpoint steps (n : nat) (code : list Line) (s : Cpu) : Step :=
  match n with
  | O => Next s
  | S n =>
      match step code s with
      | Next s => steps n code s
      | other => other
      end
  end.

End processor.
