(* ===== verification/Freestanding.v ===== *)
(** Freestanding: compiler/freestanding_x86.c, which writes the assembly of a program for a
    machine without an operating system. What it writes is a list of lines of Asm;
    [program_text] gives the text. Memory is assumed not to run out, and the file to be
    written. *)

From S2P Require Import Prelude Clib Ast Ir Cfg Asm.

(** * The generator *)

(** [g_variables] has the names with their types, in the order of their slots; [g_loops] the
    labels of the start and the end of the loops, innermost first, so that loop_depth is its
    length; [g_message] is what fail has printed. *)
Record FreestandingGen := {
  g_variables : list (bytes * bytes);
  g_next_label : nat;
  g_loops : list (nat * nat);
  g_failed : bool;
  g_message : option bytes;
  g_out : list Line
}.

Abbreviation Gen := (St FreestandingGen).

Definition with_variables (vs : list (bytes * bytes)) (g : FreestandingGen) : FreestandingGen :=
  {| g_variables := vs; g_next_label := g_next_label g; g_loops := g_loops g;
     g_failed := g_failed g; g_message := g_message g; g_out := g_out g |}.
Definition with_loops (ls : list (nat * nat)) (g : FreestandingGen) : FreestandingGen :=
  {| g_variables := g_variables g; g_next_label := g_next_label g; g_loops := ls;
     g_failed := g_failed g; g_message := g_message g; g_out := g_out g |}.

Definition write (lines : list Line) : Gen unit := modify (fun g =>
  {| g_variables := g_variables g; g_next_label := g_next_label g; g_loops := g_loops g;
     g_failed := g_failed g; g_message := g_message g; g_out := g_out g ++ lines |}).

(** [fail(g, message); return 0;]: the first message is printed. *)
Definition fail (message : string) : Gen bool := fun g =>
  Done (false,
    {| g_variables := g_variables g; g_next_label := g_next_label g; g_loops := g_loops g;
       g_failed := true;
       g_message := if g_failed g then g_message g else Some (str message); g_out := g_out g |}).

Definition label_new : Gen nat := fun g =>
  Done (g_next_label g,
    {| g_variables := g_variables g; g_next_label := S (g_next_label g); g_loops := g_loops g;
       g_failed := g_failed g; g_message := g_message g; g_out := g_out g |}).

Definition label_emit (label : nat) : Gen unit := write [LabelLine (LocalLabel label)].

(** [if (!m) return 0;] *)
Notation "'require' m ; k" := (ok ← m; if (ok : bool) then k else mret false)
  (at level 200, m at level 100, k at level 200) : vnt_scope.
Local Open Scope vnt_scope.

(** * Variables *)

Fixpoint index_of (name : bytes) (vs : list (bytes * bytes)) : option nat :=
  match vs with
  | [] => None
  | v :: vs => if bytes_eqb v.1 name then Some 0 else S <$> index_of name vs
  end.

Definition variable_index (name : bytes) (g : FreestandingGen) : option nat :=
  index_of name (g_variables g).

Definition max_variables : Z := (2 ^ 31 - 1) / 8 - 1.

Definition add_variable (name : option bytes) : Gen bool :=
  match name with
  | None => mret false
  | Some name =>
      found ← gets (variable_index name);
      match found with
      | Some _ => mret true
      | None =>
          vs ← gets g_variables;
          if (max_variables <=? Z.of_nat (length vs))%Z then mret false
          else
            _ ← modify (with_variables (vs ++ [(name, str "int")]));
            mret true
      end
  end.

Definition set_failed (g : FreestandingGen) : FreestandingGen :=
  {| g_variables := g_variables g; g_next_label := g_next_label g; g_loops := g_loops g;
     g_failed := true; g_message := g_message g; g_out := g_out g |}.

(** A message that is printed whether there was one before or not. *)
Definition print_message (message : string) (g : FreestandingGen) : FreestandingGen :=
  {| g_variables := g_variables g; g_next_label := g_next_label g; g_loops := g_loops g;
     g_failed := g_failed g; g_message := Some (default [] (g_message g) ++ str message);
     g_out := g_out g |}.

(** The member [text] of the union, which may be NULL. *)
Definition text_pointer (n : VntIrNode) : outcome (option bytes) :=
  match value n with
  | VAL_TEXT text => Done (Some text)
  | VAL_NONE => Done None
  | _ => Fault
  end.

(** The children of a node, in their order. *)
Definition child_list (ir : VntIrProgram) (n : VntIrNode) : outcome (list nat) :=
  fold_siblings (sibling_fuel ir) ir (fun c l => mret (l ++ [c])) (first_child n) [].

(** The loop of a function over the children of a node. *)
Fixpoint for_each {A} (body : A -> Gen unit) (l : list A) : Gen unit :=
  match l with
  | [] => mret tt
  | c :: l => _ ← body c; for_each body l
  end.

Fixpoint for_all {A} (body : A -> Gen bool) (l : list A) : Gen bool :=
  match l with
  | [] => mret true
  | c :: l => require body c; for_all body l
  end.

Definition is_variable (op : VntIrOpcode) : bool :=
  match op with VNT_IR_VARIABLE_DECL | VNT_IR_REASSIGN | VNT_IR_VARIABLE => true | _ => false end.

Section ir.
Context (ir : VntIrProgram).

Fixpoint collect_variables (fuel index : nat) : Gen unit :=
  match fuel with
  | O => stuck
  | S fuel =>
      failed ← gets g_failed;
      if (node_count ir <=? index) || failed then mret tt
      else
        n ← asks (fun _ => node_at ir index);
        let declared := bool_decide (opcode n = VNT_IR_VARIABLE_DECL) in
        added ← (if is_variable (opcode n)
                 then name ← asks (fun _ => text_pointer n); add_variable name
                 else mret true);
        if negb added
        then modify (fun g => set_failed (print_message "out of memory collecting locals." g))
        else
          _ ← (match type_name n with
               | Some type =>
                   if declared then
                     name ← asks (fun _ => node_text n);
                     modify (fun g =>
                       match variable_index name g with
                       | Some vi => with_variables (<[vi := (name, type)]> (g_variables g)) g
                       | None => g
                       end)
                   else mret tt
               | None => mret tt
               end);
          children ← asks (fun _ => child_list ir n);
          for_each (collect_variables fuel) children
  end.

Definition variable_is_64 (g : FreestandingGen) (vi : nat) : bool :=
  match g_variables g !! vi with
  | Some (_, type) =>
      bytes_eqb type (str "int") || bytes_eqb type (str "i64") || bytes_eqb type (str "string")
  | None => false
  end.

(** * Expressions *)

Definition rax : operand := Reg W64 RAX.
Definition eax : operand := Reg W32 RAX.
Definition al : operand := Reg W8 RAX.
Definition rcx : operand := Reg W64 RCX.
Definition rdx : operand := Reg W64 RDX.
Definition rsp : operand := Reg W64 RSP.
Definition rbp : operand := Reg W64 RBP.

(** [d(%rsp)] and [(%rsp)]. *)
Definition on_stack (d : Z) : operand := Mem (Some d) RSP None.
Definition stack_top : operand := Mem None RSP None.

(** The slot of a variable. *)
Definition slot (vi : nat) : operand := Mem (Some (- (Z.of_nat vi + 1) * 8))%Z RBP None.

Definition find_function (name : bytes) : outcome (option VntIrNode) :=
  match root ir with
  | None => Done None
  | Some r =>
      if node_count ir <=? r then Done None
      else
        root ← node_at ir r;
        found ← each_sibling (sibling_fuel ir) ir (fun c _ =>
          n ← node_at ir c;
          mret (if bool_decide (opcode n = VNT_IR_FUNCTION) &&
                   match value n with VAL_TEXT text => bytes_eqb text name | _ => false end
                then inr n else inl tt)) (first_child root) tt;
        mret (match found with inl _ => None | inr n => Some n end)
  end.

(** The bytes that are reserved for [argc] arguments. *)
Definition argument_area (argc : nat) : Z := Z.of_nat ((argc + 1) / 2) * 16.

Definition reserve (area : Z) : list Line :=
  if (area =? 0)%Z then [] else [Ins SUBQ [Imm area; rsp]].
Definition release (area : Z) : list Line :=
  if (area =? 0)%Z then [] else [Ins ADDQ [Imm area; rsp]].

Section expression.
Variable emit_expression : nat -> Gen bool.

Definition emit_child (child : option nat) : Gen bool :=
  match child with Some c => emit_expression c | None => mret false end.

(** Each argument is evaluated and stored in its place; the number of arguments. *)
Fixpoint store_arguments (at_most : option nat) (children : list nat) (ai : nat) : Gen (option nat) :=
  match children with
  | [] => mret (Some ai)
  | c :: children =>
      n ← asks (fun _ => node_at ir c);
      if negb (bool_decide (role n = VNT_IR_EDGE_ARGUMENT)) then store_arguments at_most children ai
      else if match at_most with Some limit => limit <=? ai | None => false end then mret None
      else
        ok ← emit_expression c;
        if negb ok then mret None
        else
          _ ← write [Ins MOVQ [rax; on_stack (Z.of_nat ai * 8)]];
          store_arguments at_most children (S ai)
  end.

Definition emit_arguments (at_most : option nat) (n : VntIrNode) : Gen (option nat) :=
  children ← asks (fun _ => child_list ir n);
  store_arguments at_most children 0.

Definition in_symbol (c : ascii) : bool := isalnum c || (c =? "_")%char.

Definition emit_symbol_address (index : nat) (n : VntIrNode) : Gen bool :=
  arg ← asks (fun _ => child_role ir index VNT_IR_EDGE_ARGUMENT);
  name ← asks (fun _ =>
    match arg with
    | Some c =>
        a ← node_at ir c;
        if bool_decide (opcode a = VNT_IR_STRING) then text_pointer a else Done None
    | None => Done None
    end);
  match name with
  | Some ((_ :: _) as name) =>
      if negb (child_count n =? 1)
      then fail "symbol_address requires one literal linker-symbol name."
      else if negb (forallb in_symbol name)
      then fail "symbol_address accepts only identifier characters."
      else
        _ ← write [Ins LEAQ [Rip (External name); rax]];
        mret true
  | _ => fail "symbol_address requires one literal linker-symbol name."
  end.

Definition emit_msr (write_msr : bool) (n : VntIrNode) : Gen bool :=
  let argc := if write_msr then 2 else 1 in
  if negb (child_count n =? argc) then fail "MSR intrinsic has incorrect arity."
  else
    let area := argument_area argc in
    _ ← write (reserve area);
    stored ← emit_arguments None n;
    match stored with
    | None => mret false
    | Some _ =>
        _ ← write [Ins MOVL [on_stack 0; Reg W32 RCX]];
        _ ← write (if write_msr
                   then [Ins MOVQ [on_stack 8; rdx]; Ins MOVL [Reg W32 RDX; eax];
                         Ins SHRQ [Imm 32; rdx]; Ins WRMSR []; Ins MOVL [Imm 1; eax]]
                   else [Ins RDMSR []; Ins SHLQ [Imm 32; rdx]; Ins ORQ [rdx; rax]]);
        _ ← write (release area);
        mret true
    end.

Definition emit_atomic_exchange (n : VntIrNode) : Gen bool :=
  if negb (child_count n =? 2) then fail "cpu_atomic_exchange_u64 requires an address and a value."
  else
    _ ← write [Ins SUBQ [Imm 16; rsp]];
    stored ← emit_arguments (Some 2) n;
    match stored with
    | None => mret false
    | Some 2 =>
        _ ← write [Ins MOVQ [on_stack 0; Reg W64 RDI]; Ins MOVQ [on_stack 8; rax];
                   Ins XCHGQ [rax; Mem None RDI None]; Ins ADDQ [Imm 16; rsp]];
        mret true
    | Some _ => fail "cpu_atomic_exchange_u64 requires exactly two arguments."
    end.

(** The other instructions that have a name of their own. *)
Inductive RawOperation : Set :=
  | ReadMemory (w : width)
  | WriteMemory (w : width)
  | ReadCr2
  | InvalidatePage.

Definition raw_operation (name : bytes) : option RawOperation :=
  let named s := bytes_eqb name (str s) in
  if named "mem_read_u8" then Some (ReadMemory W8)
  else if named "mem_read_u32" then Some (ReadMemory W32)
  else if named "mem_read_u64" then Some (ReadMemory W64)
  else if named "mem_write_u8" then Some (WriteMemory W8)
  else if named "mem_write_u32" then Some (WriteMemory W32)
  else if named "mem_write_u64" then Some (WriteMemory W64)
  else if named "cpu_read_cr2" then Some ReadCr2
  else if named "cpu_invlpg" then Some InvalidatePage
  else None.

Definition raw_argc (raw : RawOperation) : nat :=
  match raw with ReadCr2 => 0 | InvalidatePage => 1 | ReadMemory _ => 2 | WriteMemory _ => 3 end.

(** [(%rdi,%rsi)] *)
Definition raw_place : operand := Mem None RDI (Some RSI).

Definition raw_instructions (raw : RawOperation) : list Line :=
  match raw with
  | ReadCr2 => []
  | InvalidatePage => [Ins INVLPG [Mem None RDI None]; Ins MOVL [Imm 1; eax]]
  | ReadMemory W8 => [Ins MOVZBL [raw_place; eax]]
  | ReadMemory W32 => [Ins MOVL [raw_place; eax]]
  | ReadMemory W64 => [Ins MOVQ [raw_place; rax]]
  | WriteMemory W8 => [Ins MOVB [Reg W8 RDX; raw_place]; Ins MOVL [Imm 1; eax]]
  | WriteMemory W32 => [Ins MOVL [Reg W32 RDX; raw_place]; Ins MOVL [Imm 1; eax]]
  | WriteMemory W64 => [Ins MOVQ [rdx; raw_place]; Ins MOVL [Imm 1; eax]]
  end.

(** The arguments are loaded into these registers, in this order. *)
Definition load_arguments (regs : list register) (argc : nat) : list Line :=
  imap (fun i r => Ins MOVQ [on_stack (Z.of_nat i * 8); Reg W64 r]) (take argc regs).

Definition emit_raw (raw : RawOperation) (n : VntIrNode) : Gen bool :=
  let argc := raw_argc raw in
  if negb (child_count n =? argc) then fail "raw-memory intrinsic has incorrect arity."
  else
    match raw with
    | ReadCr2 =>
        _ ← write [Ins MOVQ [Cr2; rax]];
        mret true
    | _ =>
        let area := argument_area argc in
        _ ← write (reserve area);
        stored ← emit_arguments None n;
        match stored with
        | None => mret false
        | Some _ =>
            _ ← write (load_arguments [RDI; RSI; RDX] argc);
            _ ← write (raw_instructions raw);
            _ ← write (release area);
            mret true
        end
    end.

Definition argument_registers : list register := [RDI; RSI; RDX; RCX; R8; R9].

Definition emit_function_call (name : bytes) (n : VntIrNode) : Gen bool :=
  target ← asks (fun _ => find_function name);
  match target with
  | None => fail "call to unknown freestanding function."
  | Some target =>
      let argc := length (names target) in
      if negb (child_count n =? argc) || (6 <? argc)
      then fail "freestanding calls require matching arity and at most six register arguments."
      else
        let area := argument_area argc in
        _ ← write (reserve area);
        stored ← emit_arguments None n;
        match stored with
        | None => mret false
        | Some _ =>
            _ ← write (load_arguments argument_registers argc);
            _ ← write [Ins CALL [Target (FunctionSymbol name)]];
            _ ← write (release area);
            mret true
        end
  end.

Definition emit_call (index : nat) (n : VntIrNode) : Gen bool :=
  text ← asks (fun _ => text_pointer n);
  match text with
  | None => fail "call has no function name."
  | Some name =>
      if bytes_eqb name (str "symbol_address") then emit_symbol_address index n
      else if bytes_eqb name (str "cpu_read_msr") then emit_msr false n
      else if bytes_eqb name (str "cpu_write_msr") then emit_msr true n
      else if bytes_eqb name (str "cpu_atomic_exchange_u64") then emit_atomic_exchange n
      else
        match raw_operation name with
        | Some raw => emit_raw raw n
        | None => emit_function_call name n
        end
  end.

(** The value on the left is kept on the stack; then it is in RAX, and the other in RCX. *)
Definition keep_left : list Line := [Ins SUBQ [Imm 16; rsp]; Ins MOVQ [rax; stack_top]].
Definition take_left : list Line :=
  [Ins MOVQ [rax; rcx]; Ins MOVQ [stack_top; rax]; Ins ADDQ [Imm 16; rsp]].

Definition emit_index (index : nat) : Gen bool :=
  base ← asks (fun _ => child_role ir index VNT_IR_EDGE_OBJECT);
  offset ← asks (fun _ => child_role ir index VNT_IR_EDGE_INDEX);
  match base, offset with
  | Some base, Some offset =>
      require emit_expression base;
      _ ← write keep_left;
      require emit_expression offset;
      _ ← write (take_left ++ [Ins MOVZBL [Mem None RAX (Some RCX); eax]]);
      mret true
  | _, _ => fail "malformed byte-index expression."
  end.

Definition emit_variable (n : VntIrNode) : Gen bool :=
  name ← asks (fun _ => node_text n);
  g ← get;
  match variable_index name g with
  | None => fail "unknown local variable."
  | Some vi =>
      _ ← write (if variable_is_64 g vi then [Ins MOVQ [slot vi; rax]] else [Ins MOVL [slot vi; eax]]);
      mret true
  end.

Definition jump_to_fault : Line := Ins JO [Target ArithmeticFault].

Definition emit_unary (index : nat) (n : VntIrNode) : Gen bool :=
  operand ← asks (fun _ => child_role ir index VNT_IR_EDGE_OPERAND);
  require emit_child operand;
  match unary_of_int (operation n) with
  | Some UNARY_NEGATE =>
      _ ← write [Ins NEGQ [rax]; jump_to_fault];
      mret true
  | Some UNARY_NOT =>
      _ ← write [Ins TESTL [eax; eax]; Ins SETE [al]; Ins MOVZBL [al; eax]];
      mret true
  | _ => fail "pointers and references are not yet supported by this freestanding subset."
  end.

Definition local (label : nat) : operand := Target (LocalLabel label).

Definition emit_logical (is_and : bool) (li ri : nat) : Gen bool :=
  short_label ← label_new;
  done_label ← label_new;
  require emit_expression li;
  _ ← write [Ins TESTL [eax; eax]; Ins (if is_and then JZ else JNZ) [local short_label]];
  require emit_expression ri;
  _ ← write [Ins TESTL [eax; eax]; Ins SETNE [al]; Ins MOVZBL [al; eax]; Ins JMP [local done_label]];
  _ ← label_emit short_label;
  _ ← write [Ins MOVL [Imm (if is_and then 0 else 1); eax]];
  _ ← label_emit done_label;
  mret true.

Definition emit_division (modulo : bool) : Gen bool :=
  safe_label ← label_new;
  _ ← write [Ins TESTQ [rcx; rcx]; Ins JZ [Target ArithmeticFault]; Ins CMPQ [Imm (-1); rcx];
             Ins JNE [local safe_label]; Ins MOVABSQ [Imm INT64_MIN; rdx]; Ins CMPQ [rdx; rax];
             Ins JE [Target ArithmeticFault]];
  _ ← label_emit safe_label;
  _ ← write [Ins CQTO []; Ins IDIVQ [rcx]];
  _ ← write (if modulo then [Ins MOVQ [rdx; rax]] else []);
  mret true.

Definition emit_comparison (set : mnemonic) : Gen bool :=
  _ ← write [Ins CMPQ [rcx; rax]; Ins set [al]];
  _ ← write [Ins MOVZBL [al; eax]];
  mret true.

Definition emit_overflowing (m : mnemonic) : Gen bool :=
  _ ← write [Ins m [rcx; rax]; jump_to_fault];
  mret true.

Definition emit_operation (op : option BinaryOperator) : Gen bool :=
  match op with
  | Some BINARY_ADD => emit_overflowing ADDQ
  | Some BINARY_SUBTRACT => emit_overflowing SUBQ
  | Some BINARY_MULTIPLY => emit_overflowing IMULQ
  | Some BINARY_DIVIDE => emit_division false
  | Some BINARY_MODULO => emit_division true
  | Some BINARY_EQUAL => emit_comparison SETE
  | Some BINARY_NOT_EQUAL => emit_comparison SETNE
  | Some BINARY_GREATER => emit_comparison SETG
  | Some BINARY_LESS => emit_comparison SETL
  | Some BINARY_GREATER_EQUAL => emit_comparison SETGE
  | Some BINARY_LESS_EQUAL => emit_comparison SETLE
  | _ => fail "unsupported binary operator."
  end.

Definition emit_binary (index : nat) (n : VntIrNode) : Gen bool :=
  left ← asks (fun _ => child_role ir index VNT_IR_EDGE_LEFT);
  right ← asks (fun _ => child_role ir index VNT_IR_EDGE_RIGHT);
  match left, right with
  | Some li, Some ri =>
      match binary_of_int (operation n) with
      | Some BINARY_AND => emit_logical true li ri
      | Some BINARY_OR => emit_logical false li ri
      | op =>
          require emit_expression li;
          _ ← write keep_left;
          require emit_expression ri;
          _ ← write take_left;
          emit_operation op
      end
  | _, _ => fail "malformed binary expression."
  end.

Definition in_int32 (z : Z) : bool := (- 2 ^ 31 <=? z)%Z && (z <=? 2 ^ 31 - 1)%Z.

Definition emit_node (index : nat) (n : VntIrNode) : Gen bool :=
  match opcode n with
  | VNT_IR_CALL => emit_call index n
  | VNT_IR_STRING =>
      _ ← write [Ins LEAQ [Rip (StringLabel index); rax]];
      mret true
  | VNT_IR_INDEX => emit_index index
  | VNT_IR_INTEGER =>
      z ← asks (fun _ => node_integer n);
      _ ← write [Ins (if in_int32 z then MOVQ else MOVABSQ) [Imm z; rax]];
      mret true
  | VNT_IR_BOOLEAN =>
      b ← asks (fun _ => node_boolean n);
      _ ← write [Ins MOVL [Imm (Z.b2z b); eax]];
      mret true
  | VNT_IR_NULL => fail "null pointers are not supported by the freestanding value subset."
  | VNT_IR_VARIABLE => emit_variable n
  | VNT_IR_UNARY => emit_unary index n
  | VNT_IR_BINARY => emit_binary index n
  | _ => fail "only integer/boolean expressions and local variables are supported; hosted values are rejected."
  end.

End expression.

Fixpoint emit_expression (fuel index : nat) : Gen bool :=
  match fuel with
  | O => stuck
  | S fuel =>
      if node_count ir <=? index then fail "missing expression."
      else
        n ← asks (fun _ => node_at ir index);
        emit_node (emit_expression fuel) index n
  end.

(** * Statements *)

(** The types that a local variable may have. *)
Definition local_types : list bytes := [str "int"; str "bool"; str "i64"; str "string"].

(** RAX to the variable. *)
Definition store_variable (g : FreestandingGen) (vi : nat) : list Line :=
  if variable_is_64 g vi then [Ins MOVQ [rax; slot vi]] else [Ins MOVL [eax; slot vi]].

(** [if (!value || vi < 0 || !emit_expression(g, value)) return 0;] and the store. *)
Definition emit_to_variable (fuel : nat) (value : option nat) (name : bytes) : Gen bool :=
  g ← get;
  match value, variable_index name g with
  | Some value, Some vi =>
      require emit_expression fuel value;
      _ ← write (store_variable g vi);
      mret true
  | _, _ => mret false
  end.

Definition emit_declaration (fuel index : nat) (n : VntIrNode) : Gen bool :=
  if match type_name n with
     | Some type => negb (existsb (bytes_eqb type) local_types)
     | None => false
     end
  then fail "freestanding locals support int, bool, and i64."
  else
    value ← asks (fun _ => child_role ir index VNT_IR_EDGE_VALUE);
    name ← asks (fun _ => node_text n);
    emit_to_variable fuel value name.

Definition emit_assignment (fuel index : nat) : Gen bool :=
  target ← asks (fun _ => child_role ir index VNT_IR_EDGE_TARGET);
  value ← asks (fun _ => child_role ir index VNT_IR_EDGE_VALUE);
  match target, value with
  | Some target, Some value =>
      t ← asks (fun _ => node_at ir target);
      match opcode t with
      | VNT_IR_INDEX =>
          base ← asks (fun _ => child_role ir target VNT_IR_EDGE_OBJECT);
          offset ← asks (fun _ => child_role ir target VNT_IR_EDGE_INDEX);
          match base, offset with
          | Some base, Some offset =>
              require emit_expression fuel base;
              _ ← write [Ins PUSHQ [rax]; Ins PUSHQ [Imm 0]];
              require emit_expression fuel offset;
              _ ← write [Ins MOVQ [rax; stack_top]];
              require emit_expression fuel value;
              _ ← write [Ins MOVQ [rax; Reg W64 R8]; Ins POPQ [rcx]; Ins POPQ [rdx];
                         Ins MOVB [Reg W8 R8; Mem None RDX (Some RCX)]];
              mret true
          | _, _ => mret false
          end
      | VNT_IR_VARIABLE =>
          name ← asks (fun _ => node_text t);
          emit_to_variable fuel (Some value) name
      | _ => fail "assignment target must be a local variable or byte index."
      end
  | _, _ => fail "malformed assignment."
  end.

Definition max_loop_depth : nat := 64.

Section statement.
Variable emit_statement : nat -> Gen bool.

(** The statements under a node in one role, until one is not emitted. *)
Definition emit_statements (n : VntIrNode) (r : VntIrEdgeRole) : Gen bool :=
  children ← asks (fun _ => child_list ir n);
  for_all (fun c =>
    child ← asks (fun _ => node_at ir c);
    if bool_decide (role child = r) then emit_statement c else mret true) children.

(** [if (!condition || !emit_expression(g, condition)) return 0;] *)
Definition emit_condition (fuel index : nat) : Gen bool :=
  condition ← asks (fun _ => child_role ir index VNT_IR_EDGE_CONDITION);
  emit_child (emit_expression fuel) condition.

Definition test_false (label : nat) : list Line := [Ins TESTL [eax; eax]; Ins JZ [local label]].

Definition emit_if (fuel index : nat) (n : VntIrNode) : Gen bool :=
  require emit_condition fuel index;
  else_label ← label_new;
  done_label ← label_new;
  _ ← write (test_false else_label);
  require emit_statements n VNT_IR_EDGE_THEN;
  _ ← write [Ins JMP [local done_label]];
  _ ← label_emit else_label;
  require emit_statements n VNT_IR_EDGE_ELSE;
  _ ← label_emit done_label;
  mret true.

Definition emit_while (fuel index : nat) (n : VntIrNode) : Gen bool :=
  loops ← gets g_loops;
  if max_loop_depth <=? length loops then fail "loop nesting exceeds 64."
  else
    start ← label_new;
    done ← label_new;
    _ ← modify (with_loops ((start, done) :: loops));
    _ ← label_emit start;
    require emit_condition fuel index;
    _ ← write (test_false done);
    require emit_statements n VNT_IR_EDGE_BODY;
    _ ← write [Ins JMP [local start]];
    _ ← label_emit done;
    _ ← modify (with_loops loops);
    mret true.

Definition emit_jump (is_break : bool) : Gen bool :=
  loops ← gets g_loops;
  match loops with
  | [] => fail "break/continue used outside a loop."
  | (start, done) :: _ =>
      _ ← write [Ins JMP [local (if is_break then done else start)]];
      mret true
  end.

Definition emit_return (fuel index : nat) : Gen bool :=
  value ← asks (fun _ => child_role ir index VNT_IR_EDGE_VALUE);
  require (match value with Some v => emit_expression fuel v | None => mret true end);
  _ ← write [Ins LEAVE []; Ins RET []];
  mret true.

Definition emit_asm (n : VntIrNode) : Gen bool :=
  text ← asks (fun _ => text_pointer n);
  _ ← write [Directive (str "    # VNT inline assembly follows"); Verbatim (default [] text)];
  mret true.

Definition emit_statement_node (fuel index : nat) (n : VntIrNode) : Gen bool :=
  match opcode n with
  | VNT_IR_PROGRAM => emit_statements n VNT_IR_EDGE_STATEMENT
  | VNT_IR_CALL => emit_expression fuel index
  | VNT_IR_ASM => emit_asm n
  | VNT_IR_VARIABLE_DECL | VNT_IR_REASSIGN => emit_declaration fuel index n
  | VNT_IR_ASSIGN => emit_assignment fuel index
  | VNT_IR_RETURN => emit_return fuel index
  | VNT_IR_IF => emit_if fuel index n
  | VNT_IR_WHILE => emit_while fuel index n
  | VNT_IR_BREAK => emit_jump true
  | VNT_IR_CONTINUE => emit_jump false
  | _ => fail "unsupported statement in freestanding target; no hosted fallback is allowed."
  end.
End statement.

Fixpoint emit_statement (fuel index : nat) : Gen bool :=
  match fuel with
  | O => stuck
  | S fuel =>
      if node_count ir <=? index then fail "missing statement."
      else
        n ← asks (fun _ => node_at ir index);
        emit_statement_node (emit_statement fuel) (S fuel) index n
  end.

(** * Functions *)

(** A budget for every recursion: a node for each level. *)
Definition emit_fuel : nat := S (node_count ir).

Fixpoint add_parameters (parameters : list bytes) : Gen bool :=
  match parameters with
  | [] => mret true
  | p :: parameters =>
      added ← add_variable (Some p);
      if (added : bool) then add_parameters parameters
      else fail "out of memory collecting function parameters."
  end.

(** [(frame + 15) & ~15], of 8 bytes for each variable. *)
Definition frame_size (count : nat) : Z := argument_area count.

Definition directive (text : bytes) : Line := Directive text.

Definition function_text (name : bytes) : bytes := symbol_text (FunctionSymbol name).

Definition emit_function (index : nat) : Gen unit :=
  n ← asks (fun _ => node_at ir index);
  if 6 <? length (names n)
  then _ ← fail "freestanding functions support at most six parameters."; mret tt
  else
    _ ← modify (with_variables []);
    added ← add_parameters (names n);
    if negb added then mret tt
    else
      _ ← collect_variables emit_fuel index;
      failed ← gets g_failed;
      if (failed : bool) then mret tt
      else
        name ← asks (fun _ => node_text n);
        count ← gets (fun g => length (g_variables g));
        _ ← write [Directive (str ".globl " ++ function_text name);
                   Directive (str ".type " ++ function_text name ++ str ", @function");
                   LabelLine (FunctionSymbol name); Ins PUSHQ [rbp]; Ins MOVQ [rsp; rbp]];
        _ ← write (reserve (frame_size count));
        _ ← write (imap (fun p r => Ins MOVQ [Reg W64 r; slot p]) (take (length (names n)) argument_registers));
        _ ← emit_statements (emit_statement emit_fuel) n VNT_IR_EDGE_BODY;
        failed ← gets g_failed;
        _ ← write (if (failed : bool) then [] else [Ins LEAVE []; Ins RET []]);
        write [Directive (str ".size " ++ function_text name ++ str ", .-" ++ function_text name)].

(** The functions of the program, until one fails. *)
Fixpoint emit_functions (l : list nat) : Gen unit :=
  match l with
  | [] => mret tt
  | c :: l =>
      n ← asks (fun _ => node_at ir c);
      _ ← (if bool_decide (opcode n = VNT_IR_FUNCTION) then emit_function c else mret tt);
      failed ← gets g_failed;
      if (failed : bool) then mret tt else emit_functions l
  end.

(** * Programs *)

(** What is wrong with the declarations at the top level, if something is. *)
Fixpoint check_declarations (l : list nat) (kernel_main : bool) : outcome (option string) :=
  match l with
  | [] => Done (if kernel_main then None
                else Some "define fun kernel_main() as the entry routine."%string)
  | c :: l =>
      n ← node_at ir c;
      match opcode n, value n with
      | VNT_IR_FUNCTION, VAL_TEXT name =>
          let is_main := bytes_eqb name (str "kernel_main") in
          if is_main && negb (is_zero (length (names n)))
          then Done (Some "kernel_main must take zero arguments."%string)
          else if is_main && kernel_main then Done (Some "duplicate kernel_main."%string)
          else
            others ← mapM (node_at ir) l;
            if existsb (fun other =>
                 bool_decide (opcode other = VNT_IR_FUNCTION) &&
                 match value other with VAL_TEXT text => bytes_eqb text name | _ => false end) others
            then Done (Some "duplicate function name."%string)
            else check_declarations l (is_main || kernel_main)
      | _, _ => Done (Some "only function declarations are allowed at top level."%string)
      end
  end.

Definition start_lines : list Line :=
  [Directive (str ".section .text"); Directive (str ".code64"); Directive (str ".globl _start");
   Directive (str ".type _start, @function"); LabelLine Start; Ins CLI [];
   Ins LEA [Rip StackTop; rsp]; Ins ANDQ [Imm (-16); rsp];
   Ins CALL [Target (FunctionSymbol (str "kernel_main"))];
   LabelLine HaltForever; Ins CLI []; Ins HLT []; Ins JMP [Target HaltForever];
   Directive (str ".size _start, .-_start"); Directive []].

(** The bytes of a string with a zero at the end. *)
Definition byte_list (text : bytes) : bytes :=
  joined (str ",") (map (fun c => print_Z (code c)) text ++ [str "0"]).

Definition string_lines : list Line :=
  concat (imap (fun i n =>
    match opcode n, value n with
    | VNT_IR_STRING, VAL_TEXT text =>
        [LabelLine (StringLabel i); Directive (str "    .byte " ++ byte_list text)]
    | _, _ => []
    end) (nodes ir)).

Definition end_lines : list Line :=
  [Directive (str ".section .bss"); Directive (str ".balign 16");
   Directive (str ".globl freestanding_stack_bottom"); LabelLine (External (str "freestanding_stack_bottom"));
   Directive (str "    .skip 16384"); Directive (str ".globl freestanding_stack_top"); LabelLine StackTop;
   Directive (str ".section .note.GNU-stack," ++ [quote; quote] ++ str ",@progbits")].

Definition empty_generator : FreestandingGen :=
  {| g_variables := []; g_next_label := 0; g_loops := []; g_failed := false; g_message := None;
     g_out := start_lines |}.

(** The assembly, or what has been printed after "Freestanding backend: ". *)
Definition vnt_emit_freestanding_x86_64 : outcome (bytes + list Line) :=
  valid ← vnt_ir_validate ir;
  if negb valid then Done (inl (str "invalid HIR program."))
  else
    match root ir with
    | None => Fault
    | Some r =>
        root ← node_at ir r;
        top_level ← child_list ir root;
        wrong ← check_declarations top_level false;
        match wrong with
        | Some message => Done (inl (str message))
        | None =>
            '(_, g) ← emit_functions top_level empty_generator;
            if g_failed g then Done (inl (default [] (g_message g)))
            else
              Done (inr (g_out g ++ [LabelLine ArithmeticFault; Ins UD2 []; Directive (str ".section .rodata")] ++
                         string_lines ++ end_lines))
        end
    end.

End ir.
