(* ===== verification/FreestandingRuns.v ===== *)
(** FreestandingRuns: a meaning of the programs that the freestanding back end compiles, the
    specification of its code. Values are signed 64-bit integers; truth values are 0 and 1,
    and a test looks at the low 32 bits; a variable of a type that is not wide keeps 32 bits.
    Arithmetic that overflows, or divides by zero, ends the program. Memory holds bytes, and
    a program may use all of it but the addresses that are [private], where its own stack
    is. The instructions of the operating mode, and inline assembly, are not given a
    meaning. *)

From stdpp Require Import gmap.
From S2P Require Import Prelude Clib Ast Ir IrTrees HirSemantics Asm Freestanding.
Local Open Scope Z_scope.

(** The values of the variables of the running function, and the memory. *)
Record FsState := { locals : gmap bytes Z; heap : Memory }.

Definition set_locals (ls : gmap bytes Z) (s : FsState) : FsState := {| locals := ls; heap := heap s |}.
Definition set_heap (m : Memory) (s : FsState) : FsState := {| locals := locals s; heap := m |}.

Abbreviation FsExec := (Exec FsState).

(** How arithmetic goes wrong. *)
Definition arithmetic_fault {A} : FsExec A := fun s => Halts "arithmetic fault" s.

Definition in_word (z : Z) : FsExec Z := if in_int64 z then mret z else arithmetic_fault.

Definition is_true (v : Z) : bool := negb (low32 v =? 0).

(** * Operators *)

Definition fs_divide (op : Z -> Z -> Z) (x y : Z) : FsExec Z :=
  if (y =? 0) || ((y =? -1) && (x =? INT64_MIN)) then arithmetic_fault else mret (op x y).

Definition fs_binary (op : BinaryOperator) (x y : Z) : FsExec Z :=
  match op with
  | BINARY_ADD => in_word (x + y)
  | BINARY_SUBTRACT => in_word (x - y)
  | BINARY_MULTIPLY => in_word (x * y)
  | BINARY_DIVIDE => fs_divide Z.quot x y
  | BINARY_MODULO => fs_divide Z.rem x y
  | BINARY_EQUAL => mret (Z.b2z (x =? y))
  | BINARY_NOT_EQUAL => mret (Z.b2z (negb (x =? y)))
  | BINARY_GREATER => mret (Z.b2z (y <? x))
  | BINARY_LESS => mret (Z.b2z (x <? y))
  | BINARY_GREATER_EQUAL => mret (Z.b2z (y <=? x))
  | BINARY_LESS_EQUAL => mret (Z.b2z (x <=? y))
  | BINARY_AND | BINARY_OR => crash
  end.

Definition fs_unary (op : UnaryOperator) (x : Z) : FsExec Z :=
  match op with
  | UNARY_NEGATE => in_word (- x)
  | UNARY_NOT => mret (Z.b2z (negb (is_true x)))
  | _ => crash
  end.

(** * Variables *)

Definition is_wide (type : bytes) : bool :=
  bytes_eqb type (str "int") || bytes_eqb type (str "i64") || bytes_eqb type (str "string").

(** The variables of a function with their types: the parameters, then the names in its
    body as they come; a declaration with a type sets the type. *)
Definition add_name (name : bytes) (vs : list (bytes * bytes)) : list (bytes * bytes) :=
  match index_of name vs with
  | Some _ => vs
  | None => vs ++ [(name, str "int")]
  end.

Definition set_type (name type : bytes) (vs : list (bytes * bytes)) : list (bytes * bytes) :=
  match index_of name vs with
  | Some vi => <[vi := (name, type)]> vs
  | None => vs
  end.

Definition label_text (l : Label) : bytes := match l_value l with VAL_TEXT text => text | _ => [] end.

Definition collected_label (l : Label) (vs : list (bytes * bytes)) : list (bytes * bytes) :=
  let vs := if is_variable (l_opcode l) then add_name (label_text l) vs else vs in
  match l_opcode l, l_type_name l with
  | VNT_IR_VARIABLE_DECL, Some type => set_type (label_text l) type vs
  | _, _ => vs
  end.

Fixpoint collected (t : tree) (vs : list (bytes * bytes)) : list (bytes * bytes) :=
  match t with
  | Tree _ l ts => fold_left (fun vs f => f vs) (map collected ts) (collected_label l vs)
  end.

Definition function_variables (f : tree) : list (bytes * bytes) :=
  collected f (fold_left (fun vs p => add_name p vs) (l_names (label f)) []).

(** What a variable with this type keeps of a value. *)
Definition kept (vs : list (bytes * bytes)) (name : bytes) (v : Z) : Z :=
  match vs !! default 0%nat (index_of name vs) with
  | Some (_, type) => if is_wide type then v else low32 v
  | None => v
  end.

Definition fs_get (name : bytes) : FsExec Z := fun s =>
  match locals s !! name with
  | Some v => Goes v s
  | None => Crashes
  end.

Definition fs_set (vs : list (bytes * bytes)) (name : bytes) (v : Z) : FsExec unit :=
  match index_of name vs with
  | Some _ => writes (fun s => set_locals (<[name := kept vs name v]> (locals s)) s)
  | None => crash
  end.

(** * Memory *)

Section semantics.
(** The addresses of the symbols, and those that the program must not use. *)
Context (address : symbol -> Z) (private : Z -> bool).

Definition open_range (n : nat) (a : Z) : bool :=
  forallb (fun i => negb (private (a + Z.of_nat i))) (seq 0 n).

Definition fs_load (w : width) (a : Z) : FsExec Z := fun s =>
  if open_range (width_bytes w) a then Goes (extended w (load (width_bytes w) (heap s) a)) s else Crashes.

Definition fs_store (w : width) (a v : Z) : FsExec unit := fun s =>
  if open_range (width_bytes w) a then Goes tt (set_heap (store (width_bytes w) v a (heap s)) s) else Crashes.

(** The instructions that are not given a meaning. *)
Definition unmodelled_call (name : bytes) : bool :=
  bytes_eqb name (str "cpu_read_msr") || bytes_eqb name (str "cpu_write_msr") ||
  match raw_operation name with Some ReadCr2 | Some InvalidatePage => true | _ => false end.

(** The others with a name of their own. *)
Definition fs_intrinsic (name : bytes) (vs : list Z) : option (FsExec Z) :=
  if bytes_eqb name (str "cpu_atomic_exchange_u64") then
    Some match vs with
         | [a; v] => old ← fs_load W64 a; _ ← fs_store W64 a v; mret old
         | _ => crash
         end
  else
    match raw_operation name with
    | Some (ReadMemory w) =>
        Some match vs with [a; i] => fs_load w (wrap64 (a + i)) | _ => crash end
    | Some (WriteMemory w) =>
        Some match vs with [a; i; v] => _ ← fs_store w (wrap64 (a + i)) v; mret 1 | _ => crash end
    | Some _ => Some crash
    | None => None
    end.

(** * Expressions *)

(** The first of the children in a role. *)
Definition in_role {A} (r : VntIrEdgeRole) (l : list (VntIrEdgeRole * A)) : option A :=
  match filter (fun e => e.1 = r) l with
  | e :: _ => Some e.2
  | [] => None
  end.

Definition run_child {A} (e : option (FsExec A)) : FsExec A := default crash e.

Fixpoint fs_in_turn (ms : list (FsExec Z)) : FsExec (list Z) :=
  match ms with
  | [] => mret []
  | m :: ms => v ← m; vs ← fs_in_turn ms; mret (v :: vs)
  end.

Section body.
(** A call returns a value, or nothing that may be used. *)
Context (call : bytes -> list Z -> FsExec (option Z)).
Context (vs : list (bytes * bytes)).

(** The call of a function or an intrinsic. *)
Definition fs_apply_call (name : bytes) (arguments : list tree) (ms : list (FsExec Z)) : FsExec (option Z) :=
  if bytes_eqb name (str "symbol_address") then
    match arguments with
    | [a] => mret (Some (wrap64 (address (External (label_text (label a))))))
    | _ => crash
    end
  else if unmodelled_call name then crash
  else
    vs ← fs_in_turn ms;
    match fs_intrinsic name vs with
    | Some m => v ← m; mret (Some v)
    | None => call name vs
    end.

Definition fs_logical (is_and : bool) (left right : FsExec Z) : FsExec Z :=
  x ← left;
  if Bool.eqb (is_true x) is_and
  then y ← right; mret (Z.b2z (is_true y))
  else mret (Z.b2z (negb is_and)).

Definition defined (v : option Z) : FsExec Z := match v with Some v => mret v | None => crash end.

Fixpoint fs_eval (t : tree) : FsExec Z :=
  match t with
  | Tree i l ts =>
      let children := map (fun t => (l_role (label t), fs_eval t)) ts in
      let child r := run_child (in_role r children) in
      match l_opcode l with
      | VNT_IR_INTEGER => match l_value l with VAL_INTEGER z => mret (wrap64 z) | _ => crash end
      | VNT_IR_BOOLEAN => match l_value l with VAL_BOOLEAN b => mret (Z.b2z b) | _ => crash end
      | VNT_IR_STRING => mret (wrap64 (address (StringLabel i)))
      | VNT_IR_VARIABLE => fs_get (label_text l)
      | VNT_IR_UNARY =>
          x ← child VNT_IR_EDGE_OPERAND;
          match unary_of_int (l_operation l) with Some op => fs_unary op x | None => crash end
      | VNT_IR_BINARY =>
          match binary_of_int (l_operation l) with
          | Some BINARY_AND => fs_logical true (child VNT_IR_EDGE_LEFT) (child VNT_IR_EDGE_RIGHT)
          | Some BINARY_OR => fs_logical false (child VNT_IR_EDGE_LEFT) (child VNT_IR_EDGE_RIGHT)
          | Some op => x ← child VNT_IR_EDGE_LEFT; y ← child VNT_IR_EDGE_RIGHT; fs_binary op x y
          | None => crash
          end
      | VNT_IR_INDEX =>
          a ← child VNT_IR_EDGE_OBJECT;
          i ← child VNT_IR_EDGE_INDEX;
          fs_load W8 (wrap64 (a + i))
      | VNT_IR_CALL =>
          v ← fs_apply_call (label_text l) ts (in_edge VNT_IR_EDGE_ARGUMENT children);
          defined v
      | _ => crash
      end
  end.

(** A call whose value is not used. *)
Definition fs_call_statement (t : tree) : FsExec (option Z) :=
  match t with
  | Tree _ l ts =>
      fs_apply_call (label_text l) ts
        (in_edge VNT_IR_EDGE_ARGUMENT (map (fun t => (l_role (label t), fs_eval t)) ts))
  end.

(** * Statements *)

Inductive fs_completion : Type :=
  | FsNormal
  | FsBroke
  | FsContinued
  | FsReturned (v : option Z).

Fixpoint fs_sequence (ms : list (FsExec fs_completion)) : FsExec fs_completion :=
  match ms with
  | [] => mret FsNormal
  | m :: ms =>
      c ← m;
      match c with
      | FsNormal => fs_sequence ms
      | _ => mret c
      end
  end.

Fixpoint fs_while (n : nat) (condition : FsExec Z) (body : FsExec fs_completion) : FsExec fs_completion :=
  v ← condition;
  if is_true v then
    match n with
    | O => unfinished
    | S n =>
        c ← body;
        match c with
        | FsNormal | FsContinued => fs_while n condition body
        | FsBroke => mret FsNormal
        | FsReturned v => mret (FsReturned v)
        end
    end
  else mret FsNormal.

(** The value of the child in a role. *)
Definition eval_role (r : VntIrEdgeRole) (ts : list tree) : FsExec Z :=
  run_child (in_role r (map (fun t => (l_role (label t), fs_eval t)) ts)).

Definition fs_assign (ts : list tree) : FsExec unit :=
  match in_role VNT_IR_EDGE_TARGET (map (fun t => (l_role (label t), t)) ts) with
  | Some (Tree _ l us) =>
      match l_opcode l with
      | VNT_IR_INDEX =>
          a ← eval_role VNT_IR_EDGE_OBJECT us;
          i ← eval_role VNT_IR_EDGE_INDEX us;
          v ← eval_role VNT_IR_EDGE_VALUE ts;
          fs_store W8 (wrap64 (a + i)) v
      | VNT_IR_VARIABLE =>
          v ← eval_role VNT_IR_EDGE_VALUE ts;
          fs_set vs (label_text l) v
      | _ => crash
      end
  | None => crash
  end.

Fixpoint fs_exec (loops : nat) (t : tree) : FsExec fs_completion :=
  match t with
  | Tree i l ts =>
      let statements r :=
        fs_sequence (in_edge r (map (fun t => (l_role (label t), fs_exec loops t)) ts)) in
      match l_opcode l with
      | VNT_IR_PROGRAM => statements VNT_IR_EDGE_STATEMENT
      | VNT_IR_CALL => _ ← fs_call_statement t; mret FsNormal
      | VNT_IR_VARIABLE_DECL | VNT_IR_REASSIGN =>
          v ← eval_role VNT_IR_EDGE_VALUE ts;
          _ ← fs_set vs (label_text l) v;
          mret FsNormal
      | VNT_IR_ASSIGN => _ ← fs_assign ts; mret FsNormal
      | VNT_IR_IF =>
          v ← eval_role VNT_IR_EDGE_CONDITION ts;
          statements (if is_true v then VNT_IR_EDGE_THEN else VNT_IR_EDGE_ELSE)
      | VNT_IR_WHILE =>
          fs_while loops (eval_role VNT_IR_EDGE_CONDITION ts) (statements VNT_IR_EDGE_BODY)
      | VNT_IR_BREAK => mret FsBroke
      | VNT_IR_CONTINUE => mret FsContinued
      | VNT_IR_RETURN =>
          match ts with
          | [] => mret (FsReturned None)
          | _ => v ← eval_role VNT_IR_EDGE_VALUE ts; mret (FsReturned (Some v))
          end
      | _ => crash
      end
  end.

Definition fs_body (loops : nat) (ts : list tree) : FsExec fs_completion :=
  fs_sequence (in_edge VNT_IR_EDGE_BODY (map (fun t => (l_role (label t), fs_exec loops t)) ts)).
End body.

(** * Functions *)

Definition is_named (name : bytes) (t : tree) : bool :=
  match l_opcode (label t) with
  | VNT_IR_FUNCTION => bytes_eqb (label_text (label t)) name
  | _ => false
  end.

Definition find_declared (program : tree) (name : bytes) : option tree :=
  find (is_named name) (subtrees program).

(** The variables when a function begins: the parameters. *)
Definition parameters (vs : list (bytes * bytes)) (names : list bytes) (values : list Z) : gmap bytes Z :=
  fold_left (fun ls p => <[p.1 := kept vs p.1 p.2]> ls) (zip names values) ∅.

Definition fs_function (call : bytes -> list Z -> FsExec (option Z)) (loops : nat) (f : tree)
    (values : list Z) : FsExec (option Z) :=
  if negb (length values =? length (l_names (label f)))%nat || negb (bool_decide (NoDup (l_names (label f)))) then crash
  else
    before ← reads locals;
    let vs := function_variables f in
    _ ← writes (set_locals (parameters vs (l_names (label f)) values));
    c ← fs_body call vs loops (subtrees f);
    _ ← writes (set_locals before);
    match c with
    | FsNormal => mret None
    | FsReturned v => mret v
    | _ => crash
    end.

(** Calls, at most [n] inside of each other. *)
Fixpoint fs_call (program : tree) (loops n : nat) (name : bytes) (values : list Z) : FsExec (option Z) :=
  match find_declared program name with
  | None => crash
  | Some f =>
      match n with
      | O => unfinished
      | S n => fs_function (fs_call program loops n) loops f values
      end
  end.

(** A program: its kernel_main. *)
Definition fs_program (program : tree) (loops n : nat) : FsExec (option Z) :=
  fs_call program loops n (str "kernel_main") [].
End semantics.
