(* ===== verification/FreestandingCode.v ===== *)
(** FreestandingCode: the code of an expression, a statement, a function and a program, as a
    relation that does not have the state of the generator; and that the generator of
    Freestanding writes such code, with labels of its own. *)

From stdpp Require Import list.
From S2P Require Import Prelude Clib Ast Ir IrTrees IrFacts IrAccess Cfg HirSemantics Asm.
From S2P Require Import Freestanding FreestandingRuns.

(** * Code *)

(** The children in a role, in their order. *)
Definition children_in (r : VntIrEdgeRole) (ts : list tree) : list tree :=
  in_edge r (map (fun t => (l_role (label t), t)) ts).

Definition child_of (r : VntIrEdgeRole) (ts : list tree) : option tree :=
  in_role r (map (fun t => (l_role (label t), t)) ts).

(** Each argument is evaluated and put in its place. *)
Definition arguments_code (codes : list (list Line)) : list Line :=
  concat (imap (fun ai code => code ++ [Ins MOVQ [rax; on_stack (Z.of_nat ai * 8)]]) codes).

Inductive operation_code : BinaryOperator -> list Line -> Prop :=
  | code_overflowing op m :
      (op, m) ∈ [(BINARY_ADD, ADDQ); (BINARY_SUBTRACT, SUBQ); (BINARY_MULTIPLY, IMULQ)] ->
      operation_code op [Ins m [rcx; rax]; jump_to_fault]
  | code_division op safe last :
      (op, last) ∈ [(BINARY_DIVIDE, []); (BINARY_MODULO, [Ins MOVQ [rdx; rax]])] ->
      operation_code op
        ([Ins TESTQ [rcx; rcx]; Ins JZ [Target ArithmeticFault]; Ins CMPQ [Imm (-1); rcx];
          Ins JNE [local safe]; Ins MOVABSQ [Imm INT64_MIN; rdx]; Ins CMPQ [rdx; rax];
          Ins JE [Target ArithmeticFault]; LabelLine (LocalLabel safe); Ins CQTO []; Ins IDIVQ [rcx]] ++ last)
  | code_comparison op m :
      (op, m) ∈ [(BINARY_EQUAL, SETE); (BINARY_NOT_EQUAL, SETNE); (BINARY_GREATER, SETG);
                 (BINARY_LESS, SETL); (BINARY_GREATER_EQUAL, SETGE); (BINARY_LESS_EQUAL, SETLE)] ->
      operation_code op [Ins CMPQ [rcx; rax]; Ins m [al]; Ins MOVZBL [al; eax]].

Section code.
(** The functions of the program, and the variables of the one that is compiled. *)
Context (program : tree) (vs : list (bytes * bytes)).

Definition wide_at (vi : nat) : bool :=
  match vs !! vi with Some (_, type) => is_wide type | None => false end.

Definition load_code (vi : nat) : list Line :=
  if wide_at vi then [Ins MOVQ [slot vi; rax]] else [Ins MOVL [slot vi; eax]].
Definition store_code (vi : nat) : list Line :=
  if wide_at vi then [Ins MOVQ [rax; slot vi]] else [Ins MOVL [eax; slot vi]].

Definition is_intrinsic (name : bytes) : bool :=
  bytes_eqb name (str "symbol_address") || bytes_eqb name (str "cpu_read_msr") ||
  bytes_eqb name (str "cpu_write_msr") || bytes_eqb name (str "cpu_atomic_exchange_u64") ||
  bool_decide (is_Some (raw_operation name)).

(** What follows the arguments of a call: their number, and the code between them and the
    release of their area. *)
Inductive call_code : bytes -> nat -> list Line -> Prop :=
  | code_read_msr :
      call_code (str "cpu_read_msr") 1
        [Ins MOVL [on_stack 0; Reg W32 RCX]; Ins RDMSR []; Ins SHLQ [Imm 32; rdx]; Ins ORQ [rdx; rax]]
  | code_write_msr :
      call_code (str "cpu_write_msr") 2
        [Ins MOVL [on_stack 0; Reg W32 RCX]; Ins MOVQ [on_stack 8; rdx]; Ins MOVL [Reg W32 RDX; eax];
         Ins SHRQ [Imm 32; rdx]; Ins WRMSR []; Ins MOVL [Imm 1; eax]]
  | code_exchange :
      call_code (str "cpu_atomic_exchange_u64") 2
        [Ins MOVQ [on_stack 0; Reg W64 RDI]; Ins MOVQ [on_stack 8; rax]; Ins XCHGQ [rax; Mem None RDI None]]
  | code_raw name raw :
      raw_operation name = Some raw -> raw <> ReadCr2 ->
      call_code name (raw_argc raw) (load_arguments [RDI; RSI; RDX] (raw_argc raw) ++ raw_instructions raw)
  | code_function name f :
      find_declared program name = Some f -> length (l_names (label f)) <= 6 -> is_intrinsic name = false ->
      call_code name (length (l_names (label f)))
        (load_arguments argument_registers (length (l_names (label f))) ++
         [Ins CALL [Target (FunctionSymbol name)]]).

Inductive expression_code : tree -> list Line -> Prop :=
  | code_integer i l ts z :
      l_opcode l = VNT_IR_INTEGER -> l_value l = VAL_INTEGER z ->
      expression_code (Tree i l ts) [Ins (if in_int32 z then MOVQ else MOVABSQ) [Imm z; rax]]
  | code_boolean i l ts b :
      l_opcode l = VNT_IR_BOOLEAN -> l_value l = VAL_BOOLEAN b ->
      expression_code (Tree i l ts) [Ins MOVL [Imm (Z.b2z b); eax]]
  | code_string i l ts :
      l_opcode l = VNT_IR_STRING ->
      expression_code (Tree i l ts) [Ins LEAQ [Rip (StringLabel i); rax]]
  | code_variable i l ts vi :
      l_opcode l = VNT_IR_VARIABLE -> index_of (label_text l) vs = Some vi ->
      expression_code (Tree i l ts) (load_code vi)
  | code_negate i l ts c code :
      l_opcode l = VNT_IR_UNARY -> unary_of_int (l_operation l) = Some UNARY_NEGATE ->
      child_of VNT_IR_EDGE_OPERAND ts = Some c -> expression_code c code ->
      expression_code (Tree i l ts) (code ++ [Ins NEGQ [rax]; jump_to_fault])
  | code_not i l ts c code :
      l_opcode l = VNT_IR_UNARY -> unary_of_int (l_operation l) = Some UNARY_NOT ->
      child_of VNT_IR_EDGE_OPERAND ts = Some c -> expression_code c code ->
      expression_code (Tree i l ts) (code ++ [Ins TESTL [eax; eax]; Ins SETE [al]; Ins MOVZBL [al; eax]])
  | code_logical i l ts (is_and : bool) a b code_a code_b short done :
      l_opcode l = VNT_IR_BINARY ->
      binary_of_int (l_operation l) = Some (if is_and then BINARY_AND else BINARY_OR) ->
      child_of VNT_IR_EDGE_LEFT ts = Some a -> child_of VNT_IR_EDGE_RIGHT ts = Some b ->
      expression_code a code_a -> expression_code b code_b ->
      expression_code (Tree i l ts)
        (code_a ++ [Ins TESTL [eax; eax]; Ins (if is_and then JZ else JNZ) [local short]] ++ code_b ++
         [Ins TESTL [eax; eax]; Ins SETNE [al]; Ins MOVZBL [al; eax]; Ins JMP [local done];
          LabelLine (LocalLabel short); Ins MOVL [Imm (if is_and then 0 else 1); eax];
          LabelLine (LocalLabel done)])
  | code_binary i l ts op a b code_a code_b code :
      l_opcode l = VNT_IR_BINARY -> binary_of_int (l_operation l) = Some op ->
      child_of VNT_IR_EDGE_LEFT ts = Some a -> child_of VNT_IR_EDGE_RIGHT ts = Some b ->
      expression_code a code_a -> expression_code b code_b -> operation_code op code ->
      expression_code (Tree i l ts) (code_a ++ keep_left ++ code_b ++ take_left ++ code)
  | code_index i l ts a b code_a code_b :
      l_opcode l = VNT_IR_INDEX ->
      child_of VNT_IR_EDGE_OBJECT ts = Some a -> child_of VNT_IR_EDGE_INDEX ts = Some b ->
      expression_code a code_a -> expression_code b code_b ->
      expression_code (Tree i l ts)
        (code_a ++ keep_left ++ code_b ++ take_left ++ [Ins MOVZBL [Mem None RAX (Some RCX); eax]])
  | code_symbol_address i l a :
      l_opcode l = VNT_IR_CALL -> label_text l = str "symbol_address" ->
      expression_code (Tree i l [a]) [Ins LEAQ [Rip (External (label_text (label a))); rax]]
  | code_read_cr2 i l :
      l_opcode l = VNT_IR_CALL -> label_text l = str "cpu_read_cr2" ->
      expression_code (Tree i l []) [Ins MOVQ [Cr2; rax]]
  | code_call i l ts codes code :
      l_opcode l = VNT_IR_CALL ->
      Forall2 expression_code (children_in VNT_IR_EDGE_ARGUMENT ts) codes ->
      call_code (label_text l) (length codes) code ->
      expression_code (Tree i l ts)
        (reserve (argument_area (length codes)) ++ arguments_code codes ++ code ++
         release (argument_area (length codes))).

(** The labels are those of the loops around the statement. *)
Inductive statement_code : list (nat * nat) -> tree -> list Line -> Prop :=
  | code_block loops i l ts codes :
      l_opcode l = VNT_IR_PROGRAM -> Forall2 (statement_code loops) (children_in VNT_IR_EDGE_STATEMENT ts) codes ->
      statement_code loops (Tree i l ts) (concat codes)
  | code_call_statement loops i l ts code :
      l_opcode l = VNT_IR_CALL -> expression_code (Tree i l ts) code ->
      statement_code loops (Tree i l ts) code
  | code_asm loops i l ts :
      l_opcode l = VNT_IR_ASM ->
      statement_code loops (Tree i l ts)
        [Directive (str "    # VNT inline assembly follows"); Verbatim (label_text l)]
  | code_declaration loops i l ts c code vi :
      l_opcode l = VNT_IR_VARIABLE_DECL \/ l_opcode l = VNT_IR_REASSIGN ->
      child_of VNT_IR_EDGE_VALUE ts = Some c -> expression_code c code ->
      index_of (label_text l) vs = Some vi ->
      statement_code loops (Tree i l ts) (code ++ store_code vi)
  | code_assign_variable loops i l ts j k us c code vi :
      l_opcode l = VNT_IR_ASSIGN -> child_of VNT_IR_EDGE_TARGET ts = Some (Tree j k us) ->
      l_opcode k = VNT_IR_VARIABLE -> child_of VNT_IR_EDGE_VALUE ts = Some c -> expression_code c code ->
      index_of (label_text k) vs = Some vi ->
      statement_code loops (Tree i l ts) (code ++ store_code vi)
  | code_assign_index loops i l ts j k us a b c code_a code_b code_c :
      l_opcode l = VNT_IR_ASSIGN -> child_of VNT_IR_EDGE_TARGET ts = Some (Tree j k us) ->
      l_opcode k = VNT_IR_INDEX ->
      child_of VNT_IR_EDGE_OBJECT us = Some a -> child_of VNT_IR_EDGE_INDEX us = Some b ->
      child_of VNT_IR_EDGE_VALUE ts = Some c ->
      expression_code a code_a -> expression_code b code_b -> expression_code c code_c ->
      statement_code loops (Tree i l ts)
        (code_a ++ [Ins PUSHQ [rax]; Ins PUSHQ [Imm 0]] ++ code_b ++ [Ins MOVQ [rax; stack_top]] ++ code_c ++
         [Ins MOVQ [rax; Reg W64 R8]; Ins POPQ [rcx]; Ins POPQ [rdx];
          Ins MOVB [Reg W8 R8; Mem None RDX (Some RCX)]])
  | code_return loops i l ts code :
      l_opcode l = VNT_IR_RETURN ->
      match child_of VNT_IR_EDGE_VALUE ts with Some c => expression_code c code | None => code = [] end ->
      statement_code loops (Tree i l ts) (code ++ [Ins LEAVE []; Ins RET []])
  | code_if loops i l ts c code codes_then codes_else other done :
      l_opcode l = VNT_IR_IF -> child_of VNT_IR_EDGE_CONDITION ts = Some c -> expression_code c code ->
      Forall2 (statement_code loops) (children_in VNT_IR_EDGE_THEN ts) codes_then ->
      Forall2 (statement_code loops) (children_in VNT_IR_EDGE_ELSE ts) codes_else ->
      statement_code loops (Tree i l ts)
        (code ++ test_false other ++ concat codes_then ++ [Ins JMP [local done]; LabelLine (LocalLabel other)] ++
         concat codes_else ++ [LabelLine (LocalLabel done)])
  | code_while loops i l ts c code codes start done :
      l_opcode l = VNT_IR_WHILE -> child_of VNT_IR_EDGE_CONDITION ts = Some c -> expression_code c code ->
      Forall2 (statement_code ((start, done) :: loops)) (children_in VNT_IR_EDGE_BODY ts) codes ->
      statement_code loops (Tree i l ts)
        (LabelLine (LocalLabel start) :: code ++ test_false done ++ concat codes ++
         [Ins JMP [local start]; LabelLine (LocalLabel done)])
  | code_break loops i l ts start done :
      l_opcode l = VNT_IR_BREAK -> head loops = Some (start, done) ->
      statement_code loops (Tree i l ts) [Ins JMP [local done]]
  | code_continue loops i l ts start done :
      l_opcode l = VNT_IR_CONTINUE -> head loops = Some (start, done) ->
      statement_code loops (Tree i l ts) [Ins JMP [local start]].

End code.

(** * What can be compiled *)

(** A property of all the labels of a tree, with the children under each. *)
Fixpoint everywhere (p : Label -> list tree -> bool) (t : tree) : bool :=
  match t with
  | Tree _ l ts => p l ts && forallb (fun b => b) (map (everywhere p) ts)
  end.

Lemma everywhere_iff p i l ts :
  everywhere p (Tree i l ts) = true <-> p l ts = true /\ Forall (fun t => everywhere p t = true) ts.
Proof.
  cbn [everywhere]. rewrite andb_true_iff, forallb_forall, Forall_forall. apply and_iff_compat_l. split.
  - intros H t Hin. apply H. by apply in_map, list_elem_of_In.
  - intros H b Hb. apply in_map_iff in Hb as (t & <- & Ht). apply H. by apply list_elem_of_In.
Qed.

Lemma everywhere_inv p i l ts : everywhere p (Tree i l ts) = true ->
  p l ts = true /\ Forall (fun t => everywhere p t = true) ts.
Proof. apply everywhere_iff. Qed.

(** How many arguments a call must have, if there is something to call. *)
Definition call_arity (program : tree) (name : bytes) : option nat :=
  if bytes_eqb name (str "symbol_address") then Some 1
  else if bytes_eqb name (str "cpu_read_msr") then Some 1
  else if bytes_eqb name (str "cpu_write_msr") then Some 2
  else if bytes_eqb name (str "cpu_atomic_exchange_u64") then Some 2
  else
    match raw_operation name with
    | Some raw => Some (raw_argc raw)
    | None =>
        f ← find_declared program name;
        if length (l_names (label f)) <=? 6 then Some (length (l_names (label f))) else None
    end.

(** The name of a symbol of the linker. *)
Definition symbol_argument (ts : list tree) : bool :=
  match ts with
  | [t] =>
      bool_decide (l_opcode (label t) = VNT_IR_STRING) && negb (bool_decide (label_text (label t) = [])) &&
      forallb in_symbol (label_text (label t))
  | _ => false
  end.

Definition supported_node (program : tree) (vs : list (bytes * bytes)) (l : Label) (ts : list tree) : bool :=
  match l_opcode l with
  | VNT_IR_INTEGER | VNT_IR_BOOLEAN | VNT_IR_STRING | VNT_IR_INDEX | VNT_IR_BINARY => true
  | VNT_IR_VARIABLE => bool_decide (is_Some (index_of (label_text l) vs))
  | VNT_IR_UNARY =>
      match unary_of_int (l_operation l) with Some UNARY_NEGATE | Some UNARY_NOT => true | _ => false end
  | VNT_IR_CALL =>
      bool_decide (call_arity program (label_text l) = Some (length ts)) &&
      (negb (bytes_eqb (label_text l) (str "symbol_address")) || symbol_argument ts)
  | _ => false
  end.

Definition supported_expression (program : tree) (vs : list (bytes * bytes)) : tree -> bool :=
  everywhere (supported_node program vs).

Definition local_type (l : Label) : bool :=
  match l_type_name l with Some type => existsb (bytes_eqb type) local_types | None => true end.

(** The variables and bytes that can be assigned to. *)
Definition assignable (ts : list tree) : bool :=
  match child_of VNT_IR_EDGE_TARGET ts with
  | Some t => match l_opcode (label t) with VNT_IR_VARIABLE | VNT_IR_INDEX => true | _ => false end
  | None => false
  end.

(** A statement inside of [loops] loops. *)
Fixpoint supported_statement (program : tree) (vs : list (bytes * bytes)) (loops : nat) (t : tree) : bool :=
  match t with
  | Tree _ l ts =>
      let statements loops := forallb (fun b => b) (map (fun t =>
        if decide (l_role (label t) = VNT_IR_EDGE_CONDITION) then supported_expression program vs t
        else supported_statement program vs loops t) ts) in
      let expressions := forallb (supported_expression program vs) ts in
      match l_opcode l with
      | VNT_IR_ASM => true
      | VNT_IR_CALL => supported_expression program vs t
      | VNT_IR_VARIABLE_DECL | VNT_IR_REASSIGN => local_type l && expressions
      | VNT_IR_ASSIGN => assignable ts && expressions
      | VNT_IR_RETURN => expressions
      | VNT_IR_PROGRAM | VNT_IR_IF => statements loops
      | VNT_IR_WHILE => (loops <? max_loop_depth) && statements (S loops)
      | VNT_IR_BREAK | VNT_IR_CONTINUE => negb (is_zero loops)
      | _ => false
      end
  end.

(** * Labels *)

Definition labels (code : list Line) : list symbol :=
  omap (fun line => match line with LabelLine s => Some s | _ => None end) code.

(** The labels of the code are new ones, each used at most once. *)
Definition fresh (from to : nat) (code : list Line) : Prop :=
  labels code ⊆+ map LocalLabel (seq from (to - from)).

Lemma labels_app c1 c2 : labels (c1 ++ c2) = labels c1 ++ labels c2.
Proof. apply omap_app. Qed.

Lemma fresh_nil from to code : labels code = [] -> fresh from to code.
Proof. unfold fresh. intros ->. apply submseteq_nil_l. Qed.

Lemma seq_split from mid to : from <= mid <= to ->
  map LocalLabel (seq from (to - from)) = map LocalLabel (seq from (mid - from)) ++ map LocalLabel (seq mid (to - mid)).
Proof.
  intros H. rewrite <- map_app. f_equal. replace (to - from) with ((mid - from) + (to - mid)) by lia.
  rewrite seq_app. by replace (from + (mid - from)) with mid by lia.
Qed.

Lemma fresh_app from mid to c1 c2 : from <= mid <= to ->
  fresh from mid c1 -> fresh mid to c2 -> fresh from to (c1 ++ c2).
Proof. unfold fresh. intros H H1 H2. rewrite labels_app, (seq_split from mid to H). by apply submseteq_app. Qed.

(** What the generator has done when it is done. *)
Record wrote (g : FreestandingGen) (code : list Line) (g' : FreestandingGen) : Prop := {
  wrote_out : g_out g' = g_out g ++ code;
  wrote_variables : g_variables g' = g_variables g;
  wrote_loops : g_loops g' = g_loops g;
  wrote_failed : g_failed g' = g_failed g;
  wrote_labels : g_next_label g <= g_next_label g'
}.

(** It writes code if it can, and fails if it can not. *)
Definition writes_code (can : Prop) (m : Gen bool) (g : FreestandingGen) (Q : nat -> list Line -> Prop) : Prop :=
  wp m g (fun ok g' =>
    if ok then can /\ exists code, wrote g code g' /\ Q (g_next_label g') code else ~ can /\ g_failed g' = true).

(** With labels of its own. *)
Definition writes_fresh (can : Prop) (m : Gen bool) (g : FreestandingGen) (Q : list Line -> Prop) : Prop :=
  writes_code can m g (fun to code => fresh (g_next_label g) to code /\ Q code).

Lemma wrote_app g c1 g1 c2 g2 : wrote g c1 g1 -> wrote g1 c2 g2 -> wrote g (c1 ++ c2) g2.
Proof.
  intros [] []. constructor; try congruence; [|lia]. rewrite wrote_out1, wrote_out0. by rewrite app_assoc.
Qed.

Lemma wrote_nil g : wrote g [] g.
Proof. constructor; try done. by rewrite app_nil_r. Qed.

Lemma writes_fail (can : Prop) message g Q : ~ can -> writes_code can (fail message) g Q.
Proof. done. Qed.

Lemma writes_true (can : Prop) g (Q : nat -> list Line -> Prop) :
  can -> Q (g_next_label g) [] -> writes_code can (mret true) g Q.
Proof. intros Hcan HQ. split; [done|]. exists []. split; [apply wrote_nil|done]. Qed.

Lemma writes_asks {A} can (x : outcome A) (k : A -> Gen bool) g a Q :
  x = Done a -> writes_code can (k a) g Q -> writes_code can (a ← asks (fun _ => x); k a) g Q.
Proof. intros -> H. exact H. Qed.

Lemma writes_gets {A} can (f : FreestandingGen -> A) (k : A -> Gen bool) g Q :
  writes_code can (k (f g)) g Q -> writes_code can (a ← gets f; k a) g Q.
Proof. done. Qed.

Lemma writes_get can (k : FreestandingGen -> Gen bool) g Q :
  writes_code can (k g) g Q -> writes_code can (a ← get; k a) g Q.
Proof. done. Qed.

Lemma writes_mono (can can' : Prop) m g (P Q : nat -> list Line -> Prop) :
  writes_code can m g P -> (can <-> can') ->
  (forall to code, g_next_label g <= to -> P to code -> Q to code) -> writes_code can' m g Q.
Proof.
  intros H Hcan HPQ. eapply wp_mono; [exact H|]. intros [|] g'; [|by rewrite Hcan]. intros (Hc & code & Hw & HP).
  split; [by apply Hcan|]. exists code. split; [done|]. apply HPQ; [apply Hw|done].
Qed.

Lemma writes_require (can1 can : Prop) m k g (P Q : nat -> list Line -> Prop) :
  writes_code can1 m g P -> (can -> can1) ->
  (forall c1 g1, can1 -> wrote g c1 g1 -> P (g_next_label g1) c1 ->
     writes_code can k g1 (fun to c2 => Q to (c1 ++ c2))) ->
  writes_code can (ok ← m; if (ok : bool) then k else mret false) g Q.
Proof.
  intros Hm Hcan Hk. apply wp_bind. eapply wp_mono; [exact Hm|]. intros [|] g1; [|intros [H Hf]; split; [tauto|done]].
  intros (Hc1 & c1 & Hw & HP). eapply wp_mono; [exact (Hk c1 g1 Hc1 Hw HP)|].
  intros [|] g2; [|done]. intros (Hc & c2 & Hw2 & HQ). split; [done|]. exists (c1 ++ c2). split; [by eapply wrote_app|done].
Qed.

Definition written (lines : list Line) (g : FreestandingGen) : FreestandingGen :=
  {| g_variables := g_variables g; g_next_label := g_next_label g; g_loops := g_loops g;
     g_failed := g_failed g; g_message := g_message g; g_out := g_out g ++ lines |}.

Lemma wrote_written lines g : wrote g lines (written lines g).
Proof. by constructor. Qed.

Lemma writes_write can lines k g Q :
  writes_code can k (written lines g) (fun to c => Q to (lines ++ c)) -> writes_code can (_ ← write lines; k) g Q.
Proof.
  intros H. apply wp_bind, wp_modify. eapply wp_mono; [exact H|]. intros [|] g'; [|done].
  intros (Hc & c & Hw & HQ). split; [done|]. exists (lines ++ c). split; [|done].
  eapply wrote_app; [apply wrote_written|done].
Qed.

Definition labelled (g : FreestandingGen) : FreestandingGen :=
  {| g_variables := g_variables g; g_next_label := S (g_next_label g); g_loops := g_loops g;
     g_failed := g_failed g; g_message := g_message g; g_out := g_out g |}.

Lemma writes_label can (k : nat -> Gen bool) g Q :
  writes_code can (k (g_next_label g)) (labelled g) Q -> writes_code can (l ← label_new; k l) g Q.
Proof.
  intros H. eapply wp_mono; [exact H|]. intros [|] g'; [|done]. intros (Hc & c & [Ho Hv Hl Hf Hn] & HQ).
  split; [done|]. exists c. split; [|done]. constructor; try done. cbn in Hn. lia.
Qed.

Lemma writes_if can (b : bool) m1 m2 g Q :
  (b = true -> writes_code can m1 g Q) -> (b = false -> writes_code can m2 g Q) ->
  writes_code can (if b then m1 else m2) g Q.
Proof. destruct b; auto. Qed.

Lemma labels_reserve area : labels (reserve area) = [].
Proof. unfold reserve. by destruct (area =? 0)%Z. Qed.
Lemma labels_release area : labels (release area) = [].
Proof. unfold release. by destruct (area =? 0)%Z. Qed.
Lemma labels_ins {A} (f : nat -> A -> Line) l :
  (forall i a, labels [f i a] = []) -> labels (imap f l) = [].
Proof.
  revert f. induction l as [|a l IH]; intros f H; [done|]. rewrite imap_cons.
  change (f 0 a :: ?x) with ([f 0 a] ++ x). rewrite labels_app, H. apply IH. intros i b. apply H.
Qed.
Lemma labels_load_arguments regs argc : labels (load_arguments regs argc) = [].
Proof. by apply labels_ins. Qed.
Lemma labels_raw raw : labels (raw_instructions raw) = [].
Proof. by destruct raw as [[]|[]| |]. Qed.

Lemma fresh_same from to c c' : labels c' = labels c -> fresh from to c -> fresh from to c'.
Proof. unfold fresh. by intros ->. Qed.

Ltac code_labels :=
  repeat first [rewrite labels_app | rewrite labels_reserve | rewrite labels_release
               | rewrite labels_load_arguments | rewrite labels_raw];
  cbn [labels omap list_omap app keep_left take_left]; rewrite ?app_nil_r.

(** * Reading the array *)

Lemma child_list_spec ir n l : chain ir (first_child n) l -> NoDup l -> child_list ir n = Done l.
Proof.
  intros Hc Hd. unfold child_list. pose proof (chain_fuel _ _ _ Hc Hd) as Hf.
  pose proof (fold_siblings_spec ir (fun c l => mret (l ++ [c])) (first_child n) l (fun pre a => a = pre) Hc) as H.
  specialize (H ltac:(by intros i pre a _ ->) [] [] (sibling_fuel ir) eq_refl Hf).
  apply returns_done in H as (a & -> & ->). done.
Qed.

Lemma in_role_index r ts : in_role r (map (fun t => (l_role (label t), t)) ts) =
  find (fun t => bool_decide (l_role (label t) = r)) ts.
Proof.
  unfold in_role. induction ts as [|t ts IH]; [done|]. cbn [map find].
  rewrite filter_cons. cbn [fst]. destruct (decide _) as [E|E].
  - by rewrite bool_decide_eq_true_2.
  - by rewrite bool_decide_eq_false_2.
Qed.

Lemma emitted_child_spec ir i l ts r : subtree ir (Tree i l ts) ->
  child_role ir i r = Done (index <$> child_of r ts).
Proof.
  intros Hs. destruct (subtree_inv _ _ _ _ Hs) as (n & Hn & _ & [Hc _ _] & Hd & _ & _ & Hts).
  unfold child_role. destruct (Nat.leb_spec (node_count ir) i) as [H|_].
  { apply lookup_lt_Some in Hn. unfold node_count in H. lia. }
  rewrite (node_at_done _ _ _ Hn). cbn [mbind outcome_bind]. rewrite (find_role_spec _ _ _ _ Hc Hd). f_equal.
  unfold child_of. rewrite in_role_index. unfold first_in_role. clear - Hts.
  induction Hts as [|t ts Ht Hts IH]; [done|]. cbn [map find].
  destruct t as [j k us]. destruct (subtree_inv _ _ _ _ Ht) as (m & Hm & -> & _).
  cbn [index]. rewrite (role_at_node _ _ _ Hm). cbn [label l_role label_of].
  destruct (bool_decide (role m = r)); [done|]. exact IH.
Qed.

(** * Expressions *)

Section expressions.
Context (ir : VntIrProgram) (program : tree).
Hypothesis literals : literals_ok ir.
Hypothesis program_stored : subtree ir program.
Hypothesis program_root : root ir = Some (index program).

(** What the generator sees of a subtree. *)
Record view i l ts (n : VntIrNode) : Prop := {
  view_node : node_at ir i = Done n;
  view_range : i < node_count ir;
  view_label : l = label_of n;
  view_children : child_list ir n = Done (map index ts);
  view_count : child_count n = length ts;
  view_role r : child_role ir i r = Done (index <$> child_of r ts);
  view_label_ok : label_ok l;
  view_literal : literal_ok l;
  view_roles : roles_ok (l_opcode l) (map (fun t => l_role (label t)) ts);
  view_subtrees : Forall (subtree ir) ts
}.

Lemma subtree_view i l ts : subtree ir (Tree i l ts) -> exists n, view i l ts n.
Proof.
  intros Hs. destruct (subtree_inv _ _ _ _ Hs) as (n & Hn & -> & [Hc Hl Hcount] & Hd & Hlab & Hroles & Hts).
  exists n. constructor; try done.
  - by apply node_at_done.
  - by eapply lookup_lt_Some.
  - by apply child_list_spec.
  - by rewrite Hcount, length_map.
  - intros r. by eapply emitted_child_spec.
  - by eapply literals.
Qed.

Lemma view_text i l ts n : view i l ts n -> has_text (l_opcode l) = true ->
  text_pointer n = Done (Some (label_text l)) /\ node_text n = Done (label_text l).
Proof.
  intros [_ _ -> _ _ _ [Ht _ _ _ _] _ _ _] H. destruct (Ht H) as [text E].
  unfold text_pointer, node_text, label_text. cbn in *. by rewrite E.
Qed.

Lemma child_of_in r ts c : child_of r ts = Some c -> c ∈ ts /\ l_role (label c) = r.
Proof.
  unfold child_of. rewrite in_role_index. intros H. apply find_some in H as [Hin Hr].
  apply bool_decide_eq_true in Hr. by rewrite list_elem_of_In.
Qed.

Lemma find_function_spec name : 
  match find_declared program name with
  | Some f => exists n, find_function ir name = Done (Some n) /\ label f = label_of n
  | None => find_function ir name = Done None
  end.
Proof.
  destruct program as [i l ts] eqn:EP. destruct (subtree_inv _ _ _ _ program_stored) as (n & Hn & _ & [Hc _ _] & Hd & _ & _ & Hts).
  unfold find_function, find_declared. rewrite program_root. cbn [index subtrees].
  destruct (Nat.leb_spec (node_count ir) i) as [H|_].
  { apply lookup_lt_Some in Hn. unfold node_count in H. lia. }
  rewrite (node_at_done _ _ _ Hn). cbn [mbind outcome_bind].
  pose proof (chain_fuel _ _ _ Hc Hd) as Hf. rewrite length_map in Hf. revert Hf. generalize (sibling_fuel ir) as fuel.
  clear - Hc Hts. revert Hc. generalize (first_child n) as c. induction Hts as [|t ts Ht Hts IH]; intros c Hc fuel Hf.
  - inversion Hc; subst. by destruct fuel.
  - destruct fuel as [|fuel]; [cbn in Hf; lia|]. inversion Hc as [|? m ? Hm Hnext]; subst.
    cbn [each_sibling]. rewrite (node_at_done _ _ _ Hm). cbn [mbind outcome_bind mret outcome_ret find].
    assert (label t = label_of m /\ label_ok (label_of m)) as [El Hok].
    { destruct t as [j k us]. destruct (subtree_inv _ _ _ _ Ht) as (m' & Hm' & -> & _ & _ & Hok & _). cbn in *.
      assert (m = m') as -> by congruence. done. }
    assert (is_named name t = bool_decide (opcode m = VNT_IR_FUNCTION) &&
      match value m with VAL_TEXT text => bytes_eqb text name | _ => false end) as En.
    { unfold is_named. rewrite El. cbn. destruct (opcode m) eqn:Eo; try done. unfold label_text. cbn.
      destruct Hok as [Htext _ _ _ _]. cbn in Htext. rewrite Eo in Htext. destruct (Htext eq_refl) as [text ->]. done. }
    rewrite <- En. destruct (is_named name t) eqn:E.
    + exists m. done.
    + cbn in Hf. specialize (IH _ Hnext fuel ltac:(lia)). exact IH.
Qed.
(** ** Arguments *)

(** The expression is one that can be compiled. *)
Definition can_emit (g : FreestandingGen) (t : tree) : Prop :=
  supported_expression program (g_variables g) t = true.

Lemma can_emit_iff g i l ts : can_emit g (Tree i l ts) <->
  supported_node program (g_variables g) l ts = true /\ Forall (can_emit g) ts.
Proof. apply everywhere_iff. Qed.

Lemma can_emit_in g i l ts t : t ∈ ts -> can_emit g (Tree i l ts) -> can_emit g t.
Proof. intros Hin [_ H]%can_emit_iff. rewrite Forall_forall in H. by apply H. Qed.

Definition emits (emit : nat -> Gen bool) (t : tree) : Prop :=
  forall g, writes_fresh (can_emit g t) (emit (index t)) g (expression_code program (g_variables g) t).

Lemma can_emit_variables g g' t : g_variables g' = g_variables g -> can_emit g' t <-> can_emit g t.
Proof. intros Hvs. unfold can_emit. by rewrite Hvs. Qed.

Definition arguments_from (ai : nat) (codes : list (list Line)) : list Line :=
  concat (imap (fun k code => code ++ [Ins MOVQ [rax; on_stack (Z.of_nat (ai + k) * 8)]]) codes).

Lemma arguments_from_cons ai code codes :
  arguments_from ai (code :: codes) = (code ++ [Ins MOVQ [rax; on_stack (Z.of_nat ai * 8)]]) ++ arguments_from (S ai) codes.
Proof.
  unfold arguments_from. cbn [imap concat]. rewrite Nat.add_0_r. f_equal. f_equal.
  apply imap_ext. intros k c _. cbn. by rewrite Nat.add_succ_r.
Qed.

Definition stores_arguments (ts : list tree) (ai : nat) (g : FreestandingGen) (o : option nat) (g' : FreestandingGen) : Prop :=
  match o with
  | None => ~ Forall (can_emit g) (children_in VNT_IR_EDGE_ARGUMENT ts) /\ g_failed g' = true
  | Some last => Forall (can_emit g) (children_in VNT_IR_EDGE_ARGUMENT ts) /\ exists codes, last = ai + length codes /\ wrote g (arguments_from ai codes) g' /\
      fresh (g_next_label g) (g_next_label g') (arguments_from ai codes) /\
      Forall2 (expression_code program (g_variables g)) (children_in VNT_IR_EDGE_ARGUMENT ts) codes
  end.

Lemma children_in_cons r t ts : children_in r (t :: ts) =
  if decide (l_role (label t) = r) then t :: children_in r ts else children_in r ts.
Proof. unfold children_in, in_edge. cbn [map]. rewrite filter_cons. cbn [fst]. by destruct (decide _). Qed.

Lemma wp_asks_done {A S} (x : outcome A) a (s : S) Q : x = Done a -> Q a s -> wp (asks (fun _ => x)) s Q.
Proof. intros ->. done. Qed.

Lemma store_arguments_spec emit at_most ts : Forall (subtree ir) ts -> Forall (emits emit) ts ->
  forall ai g, match at_most with Some limit => ai + length ts <= limit | None => True end ->
  wp (store_arguments ir emit at_most (map index ts) ai) g (stores_arguments ts ai g).
Proof.
  intros Hs He. induction Hs as [|t ts Ht Hs IH]; intros ai g Hlimit.
  - apply wp_ret. split; [constructor|]. exists []. split_and!; [cbn; lia|apply wrote_nil|by apply fresh_nil|constructor].
  - inversion He as [|? ? Het Hets]; subst. specialize (IH Hets). destruct t as [j k us].
    destruct (subtree_view _ _ _ Ht) as [n Hv]. cbn [map index store_arguments].
    apply wp_bind. eapply wp_asks_done; [apply Hv|]. cbv beta.
    assert (l_role (label (Tree j k us)) = role n) as Hr by (cbn; by destruct Hv as [_ _ -> _ _ _ _ _ _ _]).
    destruct (decide (role n = VNT_IR_EDGE_ARGUMENT)) as [E|E].
    + rewrite (bool_decide_eq_true_2 _ E). cbn [negb].
      assert (match at_most with Some limit => limit <=? ai | None => false end = false) as ->.
      { destruct at_most; [|done]. cbn in Hlimit. apply Nat.leb_gt. lia. }
      assert (children_in VNT_IR_EDGE_ARGUMENT (Tree j k us :: ts) =
        Tree j k us :: children_in VNT_IR_EDGE_ARGUMENT ts) as Ecs by (by rewrite children_in_cons, decide_True by (by rewrite Hr)).
      apply wp_bind. eapply wp_mono; [apply (Het g)|]. cbn [index].
      intros [|] g1; [|intros [Hno Hg]; split; [rewrite Ecs; by intros [? _]%Forall_cons|done]].
      intros (Hcan & code & Hw & Hf & Hc). cbn [negb]. apply wp_bind, wp_modify.
      set (mv := [Ins MOVQ [rax; on_stack (Z.of_nat ai * 8)]]) in *.
      pose proof (wrote_app _ _ _ _ _ Hw (wrote_written mv g1)) as Hw1.
      assert (forall fs, Forall (can_emit (written mv g1)) fs <-> Forall (can_emit g) fs) as Hcans.
      { intros fs. apply Forall_iff. intros f. apply can_emit_variables. apply (wrote_variables _ _ _ Hw1). }
      eapply wp_mono; [apply (IH (S ai)); destruct at_most; [cbn in Hlimit; lia|done]|].
      unfold stores_arguments. intros o g2 H2. rewrite Ecs.
      destruct o as [last|]; [|destruct H2 as [Hno Hg]; split; [intros [_ H]%Forall_cons; by apply Hno, Hcans|done]].
      destruct H2 as (Hcs'%Hcans & codes & -> & Hw2 & Hf2 & Hcs). split; [by constructor|].
      exists (code :: codes). rewrite arguments_from_cons. fold mv.
      split_and!; [cbn; lia|by eapply wrote_app| |].
      * eapply fresh_app; [|eapply (fresh_app _ (g_next_label g1)); [|exact Hf|by apply fresh_nil]|exact Hf2].
        -- split; [apply Hw1|apply Hw2].
        -- split; [apply Hw|done].
      * constructor; [done|]. rewrite <- (wrote_variables _ _ _ Hw1). exact Hcs.
    + rewrite (bool_decide_eq_false_2 _ E). cbn [negb]. eapply wp_mono; [apply IH; destruct at_most; [cbn in Hlimit; lia|done]|].
      unfold stores_arguments. rewrite children_in_cons, decide_False by (by rewrite Hr). done.
Qed.

Lemma writes_arguments can emit at_most i l ts n g (k : option nat -> Gen bool) Q :
  view i l ts n -> Forall (emits emit) ts ->
  (can -> Forall (can_emit g) (children_in VNT_IR_EDGE_ARGUMENT ts)) ->
  match at_most with Some limit => length ts <= limit | None => True end ->
  k None = mret false ->
  (forall codes g1, Forall (can_emit g) (children_in VNT_IR_EDGE_ARGUMENT ts) -> wrote g (arguments_code codes) g1 ->
     fresh (g_next_label g) (g_next_label g1) (arguments_code codes) ->
     Forall2 (expression_code program (g_variables g)) (children_in VNT_IR_EDGE_ARGUMENT ts) codes ->
     writes_code can (k (Some (length codes))) g1 (fun to c => Q to (arguments_code codes ++ c))) ->
  writes_code can (o ← emit_arguments ir emit at_most n; k o) g Q.
Proof.
  intros Hv He Hcan Hlimit Hnone Hsome. apply wp_bind. unfold emit_arguments. apply wp_bind.
  eapply wp_asks_done; [apply Hv|]. cbv beta.
  eapply wp_mono; [apply store_arguments_spec; [apply Hv|done|by destruct at_most]|]. intros [last|] g1 H1.
  - destruct H1 as (Hcs & codes & -> & Hw & Hf & Hc). change (arguments_from 0 codes) with (arguments_code codes) in *.
    eapply wp_mono; [exact (Hsome codes g1 Hcs Hw Hf Hc)|]. intros [|] g2; [|done]. intros (Hcan' & c & Hw2 & HQ).
    split; [done|]. exists (arguments_code codes ++ c). split; [by eapply wrote_app|done].
  - rewrite Hnone. destruct H1 as [Hno Hg]. split; [by intros ?%Hcan|done].
Qed.

(** ** Calls *)

Lemma children_in_all r ts : Forall (fun r' => r' = r) (map (fun t => l_role (label t)) ts) -> children_in r ts = ts.
Proof.
  rewrite Forall_map. induction 1 as [|t ts Ht _ IH]; [done|]. by rewrite children_in_cons, decide_True, IH.
Qed.

Lemma call_arity_function name : is_intrinsic name = false ->
  call_arity program name =
  match find_declared program name with
  | Some f => if length (l_names (label f)) <=? 6 then Some (length (l_names (label f))) else None
  | None => None
  end.
Proof.
  unfold is_intrinsic, call_arity. rewrite !orb_false_iff, bool_decide_eq_false. intros ((((-> & ->) & ->) & ->) & H).
  destruct (raw_operation name) as [raw|]; [destruct H; by exists raw|]. done.
Qed.

Lemma raw_read_cr2 name : raw_operation name = Some ReadCr2 -> name = str "cpu_read_cr2".
Proof.
  unfold raw_operation. cbv zeta. intros H.
  repeat match type of H with (if ?b then _ else _) = _ => destruct b eqn:?; [discriminate H || (by apply bytes_eqb_spec)|] end.
  discriminate H.
Qed.

(** All the children of a call are its arguments. *)
Lemma call_children i l ts n : view i l ts n -> l_opcode l = VNT_IR_CALL -> children_in VNT_IR_EDGE_ARGUMENT ts = ts.
Proof. intros Hv Hop. apply children_in_all. pose proof (view_roles _ _ _ _ Hv) as Hr. by rewrite Hop in Hr. Qed.

(** The common part of the calls with an area for their arguments. *)
Lemma call_area emit at_most i l ts n g (argc : nat) (middle : list Line) (k : option nat -> Gen bool) :
  view i l ts n -> Forall (emits emit) ts -> l_opcode l = VNT_IR_CALL -> length ts = argc ->
  supported_node program (g_variables g) l ts = true -> labels middle = [] ->
  call_code program (label_text l) argc middle ->
  match at_most with Some limit => argc <= limit | None => True end -> k None = mret false ->
  (forall can g', can -> writes_code can (k (Some argc)) g'
     (fun to c => to = g_next_label g' /\ c = middle ++ release (argument_area argc))) ->
  writes_fresh (can_emit g (Tree i l ts)) (_ ← write (reserve (argument_area argc)); o ← emit_arguments ir emit at_most n; k o) g
    (expression_code program (g_variables g) (Tree i l ts)).
Proof.
  intros Hv He Hop Hlen Hnode Hmiddle Hcall Hlimit Hnone Hsome. unfold writes_fresh. apply writes_write.
  pose proof (call_children _ _ _ _ Hv Hop) as Hargs.
  eapply writes_arguments; [done|done| |by rewrite Hlen|done|].
  { rewrite Hargs. intros H. by apply can_emit_iff in H as [_ H]. }
  intros codes g1 Hcan Hw Hf Hcs. rewrite Hargs in Hcan.
  assert (length codes = argc) as Hcl by by rewrite <- (Forall2_length _ _ _ Hcs), Hargs.
  rewrite Hcl. eapply (writes_mono (can_emit g (Tree i l ts))); [apply Hsome; apply can_emit_iff; by split|done|]. intros to code _ [-> ->]. split.
  - eapply fresh_same; [|exact Hf]. code_labels. by rewrite Hmiddle, !app_nil_r.
  - rewrite <- Hcl. eapply code_call; [done|done|by rewrite Hcl].
Qed.

(** The number of arguments of a call is right or not. *)
Lemma call_supported vs l ts argc : l_opcode l = VNT_IR_CALL -> bytes_eqb (label_text l) (str "symbol_address") = false ->
  call_arity program (label_text l) = Some argc -> supported_node program vs l ts = (argc =? length ts).
Proof.
  intros Hop Hs Ha. unfold supported_node. rewrite Hop, Hs, Ha. cbn [negb orb]. rewrite andb_true_r.
  destruct (Nat.eqb_spec argc (length ts)) as [->|H]; [by apply bool_decide_eq_true_2|].
  apply bool_decide_eq_false_2. by intros [=].
Qed.

Lemma call_refused g i l ts n argc message (Q : nat -> list Line -> Prop) : view i l ts n -> l_opcode l = VNT_IR_CALL ->
  bytes_eqb (label_text l) (str "symbol_address") = false -> call_arity program (label_text l) = Some argc ->
  negb (child_count n =? argc) = true -> writes_code (can_emit g (Tree i l ts)) (fail message) g Q.
Proof.
  intros Hv Hop Hs Ha Hcount. apply writes_fail. intros [H _]%can_emit_iff. rewrite (call_supported _ _ _ _ Hop Hs Ha) in H.
  rewrite (view_count _ _ _ _ Hv), Nat.eqb_sym, H in Hcount. done.
Qed.

Lemma call_arity_ok vs i l ts n argc : view i l ts n -> l_opcode l = VNT_IR_CALL ->
  bytes_eqb (label_text l) (str "symbol_address") = false -> call_arity program (label_text l) = Some argc ->
  negb (child_count n =? argc) = false -> length ts = argc /\ supported_node program vs l ts = true.
Proof.
  intros Hv Hop Hs Ha Hcount. apply negb_false_iff in Hcount. rewrite (view_count _ _ _ _ Hv) in Hcount.
  rewrite (call_supported _ _ _ _ Hop Hs Ha). rewrite Nat.eqb_sym. split; [by apply Nat.eqb_eq|done].
Qed.

Lemma emit_msr_spec emit (write_msr : bool) i l ts n g : view i l ts n -> Forall (emits emit) ts ->
  l_opcode l = VNT_IR_CALL -> label_text l = (if write_msr then str "cpu_write_msr" else str "cpu_read_msr") ->
  writes_fresh (can_emit g (Tree i l ts)) (emit_msr ir emit write_msr n) g (expression_code program (g_variables g) (Tree i l ts)).
Proof.
  intros Hv He Hop Hname. unfold emit_msr.
  assert (bytes_eqb (label_text l) (str "symbol_address") = false) as Hs by (rewrite Hname; by destruct write_msr).
  assert (call_arity program (label_text l) = Some (if write_msr then 2 else 1)) as Ha by (rewrite Hname; by destruct write_msr).
  apply writes_if; intros Hcount; [by eapply call_refused|].
  destruct (call_arity_ok (g_variables g) _ _ _ _ _ Hv Hop Hs Ha Hcount) as [Hlen Hnode].
  set (last := if write_msr then _ else _) in |- * at 2.
  eapply (call_area _ _ _ _ _ _ _ _ ([Ins MOVL [on_stack 0; Reg W32 RCX]] ++ last));
    [done|done|done|done|done| |rewrite Hname; unfold last; destruct write_msr; [apply code_write_msr|apply code_read_msr]|done|done|];
    [unfold last; by destruct write_msr|].
  intros can g' Hcan. apply writes_write, writes_write, writes_write, writes_true; [done|]. split; [done|].
  by rewrite app_nil_r, <- app_assoc.
Qed.

Lemma emit_raw_spec emit raw i l ts n g : view i l ts n -> Forall (emits emit) ts ->
  l_opcode l = VNT_IR_CALL -> bytes_eqb (label_text l) (str "symbol_address") = false ->
  raw_operation (label_text l) = Some raw -> call_arity program (label_text l) = Some (raw_argc raw) ->
  writes_fresh (can_emit g (Tree i l ts)) (emit_raw ir emit raw n) g (expression_code program (g_variables g) (Tree i l ts)).
Proof.
  intros Hv He Hop Hs Hraw Ha. unfold emit_raw. apply writes_if; intros Hcount; [by eapply call_refused|].
  destruct (call_arity_ok (g_variables g) _ _ _ _ _ Hv Hop Hs Ha Hcount) as [Hlen Hnode].
  assert (raw = ReadCr2 \/ raw <> ReadCr2) as [->|Hcr2] by (destruct raw; auto).
  { destruct ts; [|done]. apply writes_write, writes_true; [by apply can_emit_iff|]. split; [by apply fresh_nil|].
    apply code_read_cr2; [done|]. by apply raw_read_cr2. }
  replace (match raw with ReadCr2 => _ | _ => _ end) with
    (_ ← write (reserve (argument_area (raw_argc raw)));
     stored ← emit_arguments ir emit None n;
     match stored with
     | None => mret false
     | Some _ => _ ← write (load_arguments [RDI; RSI; RDX] (raw_argc raw));
                 _ ← write (raw_instructions raw); _ ← write (release (argument_area (raw_argc raw))); mret true
     end : Gen bool) by by destruct raw.
  eapply call_area; [done|done|done|done|done| |by apply code_raw|done|done|].
  - by code_labels.
  - intros can g' Hcan. apply writes_write, writes_write, writes_write, writes_true; [done|]. split; [done|].
    by rewrite app_nil_r, <- app_assoc.
Qed.

Lemma emit_exchange_spec emit i l ts n g : view i l ts n -> Forall (emits emit) ts ->
  l_opcode l = VNT_IR_CALL -> label_text l = str "cpu_atomic_exchange_u64" ->
  writes_fresh (can_emit g (Tree i l ts)) (emit_atomic_exchange ir emit n) g (expression_code program (g_variables g) (Tree i l ts)).
Proof.
  intros Hv He Hop Hname. unfold emit_atomic_exchange.
  assert (bytes_eqb (label_text l) (str "symbol_address") = false) as Hs by by rewrite Hname.
  assert (call_arity program (label_text l) = Some 2) as Ha by by rewrite Hname.
  apply writes_if; intros Hcount; [by eapply call_refused|].
  destruct (call_arity_ok (g_variables g) _ _ _ _ _ Hv Hop Hs Ha Hcount) as [Hlen Hnode].
  change [Ins SUBQ [Imm 16; rsp]] with (reserve (argument_area 2)).
  eapply call_area; [done|done|done|done|done| |rewrite Hname; apply code_exchange|cbn; lia|done|]; [done|].
  intros can g' Hcan. apply writes_write, writes_true; [done|]. done.
Qed.

Lemma emit_symbol_address_spec i l ts n g : view i l ts n ->
  l_opcode l = VNT_IR_CALL -> label_text l = str "symbol_address" ->
  writes_fresh (can_emit g (Tree i l ts)) (emit_symbol_address ir i n) g (expression_code program (g_variables g) (Tree i l ts)).
Proof.
  intros Hv Hop Hname. unfold emit_symbol_address. eapply writes_asks; [apply Hv|]. cbv beta.
  pose proof (call_children _ _ _ _ Hv Hop) as Hargs.
  assert (can_emit g (Tree i l ts) -> symbol_argument ts = true) as Hcan.
  { intros [H _]%can_emit_iff. unfold supported_node in H. rewrite Hop, Hname in H. by apply andb_true_iff in H as [_ H]. }
  destruct (child_of VNT_IR_EDGE_ARGUMENT ts) as [[j k us]|] eqn:Ec; cbn [fmap option_fmap option_map index].
  2:{ eapply writes_asks; [done|]. apply writes_fail. intros H%Hcan. destruct ts as [|t [|]]; try done.
      assert (l_role (label t) = VNT_IR_EDGE_ARGUMENT) as Hr.
      { pose proof (view_roles _ _ _ _ Hv) as Hr. rewrite Hop in Hr. by apply Forall_inv in Hr. }
      unfold child_of in Ec. rewrite in_role_index in Ec. cbn [find] in Ec. by rewrite bool_decide_eq_true_2 in Ec. }
  apply child_of_in in Ec as [Hin _]. pose proof (view_subtrees _ _ _ _ Hv) as Hts. rewrite Forall_forall in Hts.
  destruct (subtree_view _ _ _ (Hts _ Hin)) as [m Hm].
  assert (symbol_argument ts = true -> opcode m = VNT_IR_STRING /\ label_text k <> [] /\ length ts = 1 /\
    forallb in_symbol (label_text k) = true) as Harg.
  { destruct ts as [|t [|]]; try done. apply list_elem_of_singleton in Hin as <-. cbn [symbol_argument].
    cbn [label]. rewrite !andb_true_iff, negb_true_iff, bool_decide_eq_true, bool_decide_eq_false, (view_label _ _ _ _ Hm). naive_solver. }
  eapply (writes_asks _ _ _ _ (if bool_decide (opcode m = VNT_IR_STRING) then Some (label_text k) else None)).
  { rewrite (view_node _ _ _ _ Hm). cbn [mbind outcome_bind]. case_bool_decide as E; [|done].
    apply (view_text _ _ _ _ Hm). destruct Hm as [_ _ -> _ _ _ _ _ _ _]. cbn. by rewrite E. }
  case_bool_decide as E; [|apply writes_fail; intros H%Hcan%Harg; naive_solver].
  destruct (label_text k) as [|c name] eqn:En; [apply writes_fail; intros H%Hcan%Harg; naive_solver|].
  apply writes_if; intros Hcount.
  { apply writes_fail. intros (_ & _ & H & _)%Hcan%Harg. rewrite (view_count _ _ _ _ Hv), H in Hcount. done. }
  apply negb_false_iff, Nat.eqb_eq in Hcount.
  rewrite (view_count _ _ _ _ Hv) in Hcount. destruct ts as [|t [|]]; try done.
  apply list_elem_of_singleton in Hin as <-.
  apply writes_if; intros Hsym; [apply writes_fail; intros (_ & _ & _ & H)%Hcan%Harg; by rewrite H in Hsym|].
  apply negb_false_iff in Hsym. apply writes_write, writes_true.
  - apply can_emit_iff. unfold supported_node. rewrite Hop, Hname. cbn [length symbol_argument label].
    rewrite bool_decide_eq_true_2 by done. assert (l_opcode k = VNT_IR_STRING) as Ek by by rewrite (view_label _ _ _ _ Hm).
    rewrite (bool_decide_eq_true_2 _ Ek), En, (bool_decide_eq_false_2 (_ :: _ = [])), Hsym by done. split; [done|].
    constructor; [|constructor]. apply can_emit_iff. unfold supported_node. rewrite Ek. split; [done|].
    pose proof (view_roles _ _ _ _ Hm) as Hr. rewrite Ek in Hr. destruct us; [constructor|done].
  - split; [by apply fresh_nil|].
    pose proof (code_symbol_address program (g_variables g) i l (Tree j k us) Hop Hname) as H. cbn [label] in H. by rewrite En in H.
Qed.

Lemma emit_function_call_spec emit i l ts n g : view i l ts n -> Forall (emits emit) ts ->
  l_opcode l = VNT_IR_CALL -> is_intrinsic (label_text l) = false ->
  writes_fresh (can_emit g (Tree i l ts)) (emit_function_call ir emit (label_text l) n) g
    (expression_code program (g_variables g) (Tree i l ts)).
Proof.
  intros Hv He Hop Hi. unfold emit_function_call. pose proof (find_function_spec (label_text l)) as Hf.
  pose proof (call_arity_function (label_text l) Hi) as Ha.
  assert (bytes_eqb (label_text l) (str "symbol_address") = false) as Hs.
  { unfold is_intrinsic in Hi. by destruct (bytes_eqb (label_text l) (str "symbol_address")). }
  destruct (find_declared program (label_text l)) as [f|] eqn:Ef.
  2:{ eapply writes_asks; [exact Hf|]. apply writes_fail. intros [H _]%can_emit_iff. unfold supported_node in H.
      by rewrite Hop, Ha in H. }
  destruct Hf as (m & Hf & El). eapply writes_asks; [exact Hf|]. cbv beta iota zeta.
  assert (names m = l_names (label f)) as -> by by rewrite El.
  apply writes_if; intros Hcount.
  { apply orb_true_iff in Hcount as [Hcount|H6].
    - destruct (Nat.leb_spec (length (l_names (label f))) 6); [by eapply call_refused|].
      apply writes_fail. intros [H' _]%can_emit_iff. unfold supported_node in H'. by rewrite Hop, Ha in H'.
    - apply Nat.ltb_lt in H6. destruct (Nat.leb_spec (length (l_names (label f))) 6); [lia|].
      apply writes_fail. intros [H' _]%can_emit_iff. unfold supported_node in H'. by rewrite Hop, Ha in H'. }
  apply orb_false_iff in Hcount as [Hcount H6]. apply Nat.ltb_ge in H6.
  rewrite (proj2 (Nat.leb_le _ _) H6) in Ha.
  destruct (call_arity_ok (g_variables g) _ _ _ _ _ Hv Hop Hs Ha Hcount) as [Hlen Hnode].
  eapply call_area; [done|done|done|done|done| |by apply code_function|done|done|].
  - by code_labels.
  - intros can g' Hcan. apply writes_write, writes_write, writes_write, writes_true; [done|]. split; [done|].
    by rewrite app_nil_r, <- app_assoc.
Qed.

Lemma emit_call_spec emit i l ts n g : view i l ts n -> Forall (emits emit) ts -> l_opcode l = VNT_IR_CALL ->
  writes_fresh (can_emit g (Tree i l ts)) (emit_call ir emit i n) g (expression_code program (g_variables g) (Tree i l ts)).
Proof.
  intros Hv He Hop. unfold emit_call. eapply writes_asks.
  { eapply view_text; [done|]. by rewrite Hop. }
  cbv beta iota. apply writes_if; intros H1; [apply bytes_eqb_spec in H1; by apply emit_symbol_address_spec|].
  apply writes_if; intros H2; [apply bytes_eqb_spec in H2; by eapply (emit_msr_spec _ false)|].
  apply writes_if; intros H3; [apply bytes_eqb_spec in H3; by eapply (emit_msr_spec _ true)|].
  apply writes_if; intros H4; [apply bytes_eqb_spec in H4; by apply emit_exchange_spec|].
  destruct (raw_operation (label_text l)) as [raw|] eqn:Er.
  - apply emit_raw_spec; try done. unfold call_arity. by rewrite H1, H2, H3, H4, Er.
  - apply emit_function_call_spec; try done. unfold is_intrinsic. by rewrite H1, H2, H3, H4, Er.
Qed.

(** ** Operators *)

Lemma writes_child can emit r ts c g k Q :
  Forall (emits emit) ts -> child_of r ts = Some c -> (can -> can_emit g c) ->
  (forall code g1, can_emit g c -> wrote g code g1 -> fresh (g_next_label g) (g_next_label g1) code ->
     expression_code program (g_variables g) c code -> writes_code can k g1 (fun to c2 => Q to (code ++ c2))) ->
  writes_code can (ok ← emit (index c); if (ok : bool) then k else mret false) g Q.
Proof.
  intros He Hc Hcan Hk. apply child_of_in in Hc as [Hin _]. rewrite Forall_forall in He.
  eapply writes_require; [apply (He c Hin g)|done|]. intros code g1 Hcan1 Hw [Hf Hcode]. by apply Hk.
Qed.

Lemma child_of_role r rs ts : map (fun t => l_role (label t)) ts ≡ₚ rs -> r ∈ rs -> is_Some (child_of r ts).
Proof.
  intros Hp Hr. rewrite <- Hp in Hr. apply list_elem_of_fmap in Hr as (t & -> & Hin).
  unfold child_of. rewrite in_role_index. destruct (find _ ts) eqn:E; [done|].
  apply list_elem_of_In in Hin. pose proof (find_none _ _ E t Hin) as H. by apply bool_decide_eq_false in H.
Qed.

(** Two children with different roles are all the children. *)
Lemma child_of_cons r t ts :
  child_of r (t :: ts) = if bool_decide (l_role (label t) = r) then Some t else child_of r ts.
Proof. unfold child_of. rewrite !in_role_index. done. Qed.

Lemma two_can_emit (P : tree -> Prop) r1 r2 ts : r1 <> r2 -> map (fun t => l_role (label t)) ts ≡ₚ [r1; r2] ->
  exists a b, child_of r1 ts = Some a /\ child_of r2 ts = Some b /\ (Forall P ts <-> P a /\ P b).
Proof.
  intros Hr Hp. symmetry in Hp. apply Permutation_length_2_inv in Hp as [Hp|Hp];
    destruct ts as [|t1 [|t2 [|]]]; try done; injection Hp as H1 H2; [exists t1, t2|exists t2, t1];
    rewrite !child_of_cons, H1, H2, !Forall_cons, Forall_nil.
  - rewrite (bool_decide_eq_false_2 (r1 = r2)), !bool_decide_eq_true_2 by done. tauto.
  - rewrite (bool_decide_eq_false_2 (r2 = r1)), !bool_decide_eq_true_2 by done. tauto.
Qed.

(** The operands of a node that has two of them. *)
Lemma operands i l ts n g r1 r2 : view i l ts n -> r1 <> r2 ->
  supported_node program (g_variables g) l ts = true ->
  map (fun t => l_role (label t)) ts ≡ₚ [r1; r2] ->
  exists a b, child_of r1 ts = Some a /\ child_of r2 ts = Some b /\
    (can_emit g (Tree i l ts) <-> can_emit g a /\ can_emit g b).
Proof.
  intros Hv Hr Hnode Hp. destruct (two_can_emit (can_emit g) r1 r2 ts Hr Hp) as (a & b & Ha & Hb & H).
  exists a, b. rewrite can_emit_iff, H. tauto.
Qed.

Lemma emit_index_spec emit i l ts n g : view i l ts n -> Forall (emits emit) ts -> l_opcode l = VNT_IR_INDEX ->
  writes_fresh (can_emit g (Tree i l ts)) (emit_index ir emit i) g (expression_code program (g_variables g) (Tree i l ts)).
Proof.
  intros Hv He Hop. unfold emit_index. eapply writes_asks; [apply Hv|]. eapply writes_asks; [apply Hv|]. cbv beta.
  pose proof (view_roles _ _ _ _ Hv) as Hr. rewrite Hop in Hr.
  destruct (operands i l ts n g VNT_IR_EDGE_OBJECT VNT_IR_EDGE_INDEX Hv) as (a & b & Ea & Eb & Hcan);
    [done|unfold supported_node; by rewrite Hop|exact Hr|].
  rewrite Ea, Eb. cbn [fmap option_fmap option_map].
  eapply writes_child; [done|exact Ea|tauto|]. intros code_a g1 Ha Hw1 Hf1 Hca. apply writes_write.
  eapply writes_child; [done|exact Eb|intros H; apply (can_emit_variables g _ b (wrote_variables _ _ _ Hw1)); tauto|].
  intros code_b g2 Hb Hw2 Hf2 Hcb. apply (can_emit_variables g _ b (wrote_variables _ _ _ Hw1)) in Hb.
  apply writes_write, writes_true; [tauto|]. split.
  - eapply (fresh_same _ _ (code_a ++ code_b)); [by code_labels|].
    eapply fresh_app; [|exact Hf1|exact Hf2]. split; [apply Hw1|apply Hw2].
  - rewrite app_nil_r. eapply code_index; try done. cbn [g_variables written] in Hcb.
    by rewrite (wrote_variables _ _ _ Hw1) in Hcb.
Qed.

Lemma emit_unary_spec emit i l ts n g : view i l ts n -> Forall (emits emit) ts -> l_opcode l = VNT_IR_UNARY ->
  writes_fresh (can_emit g (Tree i l ts)) (emit_unary ir emit i n) g (expression_code program (g_variables g) (Tree i l ts)).
Proof.
  intros Hv He Hop. unfold emit_unary. eapply writes_asks; [apply Hv|]. cbv beta.
  pose proof (view_roles _ _ _ _ Hv) as Hroles. rewrite Hop in Hroles. cbn in Hroles.
  destruct (child_of_role VNT_IR_EDGE_OPERAND _ ts ltac:(by rewrite Hroles) ltac:(by constructor)) as [a Ea].
  assert (can_emit g (Tree i l ts) <-> supported_node program (g_variables g) l ts = true /\ can_emit g a) as Hcan.
  { destruct ts as [|t [|]]; try done. apply child_of_in in Ea as [->%list_elem_of_singleton _].
    by rewrite can_emit_iff, Forall_singleton. }
  unfold supported_node in Hcan. rewrite Hop in Hcan.
  rewrite Ea. cbn [fmap option_fmap option_map emit_child].
  eapply writes_child; [done|exact Ea|tauto|]. intros code g1 Ha Hw Hf Hc.
  assert (operation n = l_operation l) as -> by by rewrite (view_label _ _ _ _ Hv).
  destruct (unary_of_int (l_operation l)) as [[]|] eqn:Eop; try (apply writes_fail; naive_solver);
    (apply writes_write, writes_true; [naive_solver|]; split; [eapply fresh_same; [|exact Hf]; by code_labels|]); rewrite app_nil_r.
  - by eapply code_not.
  - by eapply code_negate.
Qed.

(** Labels that were taken before the code in the middle. *)
Lemma fresh_around (from to : nat) (outer : list nat) (code inner : list Line) :
  labels code ≡ₚ map LocalLabel (seq from (length outer)) ++ labels inner ->
  length outer + from <= to -> fresh (length outer + from) to inner -> fresh from to code.
Proof.
  unfold fresh. intros Hp Hle Hf. rewrite Hp, (seq_split from (length outer + from) to) by lia.
  replace (length outer + from - from) with (length outer) by lia. by apply submseteq_app.
Qed.

Lemma emit_logical_spec emit (is_and : bool) i l ts n a b g : view i l ts n -> Forall (emits emit) ts ->
  l_opcode l = VNT_IR_BINARY -> binary_of_int (l_operation l) = Some (if is_and then BINARY_AND else BINARY_OR) ->
  child_of VNT_IR_EDGE_LEFT ts = Some a -> child_of VNT_IR_EDGE_RIGHT ts = Some b ->
  (can_emit g (Tree i l ts) <-> can_emit g a /\ can_emit g b) ->
  writes_fresh (can_emit g (Tree i l ts)) (emit_logical emit is_and (index a) (index b)) g
    (expression_code program (g_variables g) (Tree i l ts)).
Proof.
  intros Hv He Hop Hbin Ea Eb Hcan. unfold emit_logical. apply writes_label, writes_label. cbn [g_next_label labelled].
  eapply writes_child; [done|exact Ea|intros H; apply (can_emit_variables g); [done|tauto]|].
  intros code_a g1 Ha Hw1 Hf1 Hca. apply writes_write.
  eapply writes_child; [done|exact Eb|intros H; apply (can_emit_variables g _ b (wrote_variables _ _ _ Hw1)); tauto|].
  intros code_b g2 Hb Hw2 Hf2 Hcb. apply (can_emit_variables g _ b (wrote_variables _ _ _ Hw1)) in Hb.
  apply writes_write, writes_write, writes_write, writes_write, writes_true; [by apply Hcan|]. cbn [g_next_label written labelled] in *.
  pose proof (wrote_labels _ _ _ Hw1) as Hn1. pose proof (wrote_labels _ _ _ Hw2) as Hn2. cbn in Hn1, Hn2. split.
  - apply (fresh_around _ _ [0; 0] _ (code_a ++ code_b)); [|cbn; lia|eapply fresh_app; [|exact Hf1|exact Hf2]; cbn; lia].
    code_labels. cbn. solve_Permutation.
  - rewrite app_nil_r. eapply code_logical; try done. cbn [g_variables written] in Hcb.
    by rewrite (wrote_variables _ _ _ Hw1) in Hcb.
Qed.

Lemma emit_operation_spec (can : Prop) o g : can -> o <> BINARY_AND -> o <> BINARY_OR ->
  writes_fresh can (emit_operation (Some o)) g (operation_code o).
Proof.
  intros Hcan Hand Hor.
  assert (forall o m, (o, m) ∈ [(BINARY_ADD, ADDQ); (BINARY_SUBTRACT, SUBQ); (BINARY_MULTIPLY, IMULQ)] ->
    writes_fresh can (emit_overflowing m) g (operation_code o)) as Hover.
  { intros o' m H. apply writes_write, writes_true; [done|]. split; [by apply fresh_nil|]. by apply code_overflowing. }
  assert (forall o m, (o, m) ∈ [(BINARY_EQUAL, SETE); (BINARY_NOT_EQUAL, SETNE); (BINARY_GREATER, SETG);
                 (BINARY_LESS, SETL); (BINARY_GREATER_EQUAL, SETGE); (BINARY_LESS_EQUAL, SETLE)] ->
    writes_fresh can (emit_comparison m) g (operation_code o)) as Hcomp.
  { intros o' m H. apply writes_write, writes_write, writes_true; [done|]. split; [by apply fresh_nil|]. by apply code_comparison. }
  assert (forall o (modulo : bool),
    (o, if modulo then [Ins MOVQ [rdx; rax]] else []) ∈ [(BINARY_DIVIDE, []); (BINARY_MODULO, [Ins MOVQ [rdx; rax]])] ->
    writes_fresh can (emit_division modulo) g (operation_code o)) as Hdiv.
  { intros o' modulo H. apply writes_label, writes_write, writes_write, writes_write, writes_write, writes_true; [done|]. split.
    - apply (fresh_around _ _ [0] _ []); [|cbn; lia|by apply fresh_nil]. destruct modulo; done.
    - rewrite app_nil_r. by eapply (code_division _ _ _ H). }
  destruct o; try done; cbn [emit_operation].
  all: first [apply Hover|apply Hcomp|apply (Hdiv _ false)|apply (Hdiv _ true)]; by repeat constructor.
Qed.

Lemma emit_binary_spec emit i l ts n g : view i l ts n -> Forall (emits emit) ts -> l_opcode l = VNT_IR_BINARY ->
  writes_fresh (can_emit g (Tree i l ts)) (emit_binary ir emit i n) g (expression_code program (g_variables g) (Tree i l ts)).
Proof.
  intros Hv He Hop. unfold emit_binary. eapply writes_asks; [apply Hv|]. eapply writes_asks; [apply Hv|]. cbv beta.
  pose proof (view_roles _ _ _ _ Hv) as Hr. rewrite Hop in Hr.
  destruct (operands i l ts n g VNT_IR_EDGE_LEFT VNT_IR_EDGE_RIGHT Hv) as (a & b & Ea & Eb & Hcan);
    [done|unfold supported_node; by rewrite Hop|exact Hr|].
  rewrite Ea, Eb. cbn [fmap option_fmap option_map].
  assert (operation n = l_operation l) as -> by by rewrite (view_label _ _ _ _ Hv).
  destruct (label_binary _ (view_label_ok _ _ _ _ Hv) Hop) as [o Eop]. rewrite Eop.
  assert (o <> BINARY_AND -> o <> BINARY_OR -> writes_fresh (can_emit g (Tree i l ts))
      (require emit (index a); _ ← write keep_left; require emit (index b); _ ← write take_left;
       emit_operation (Some o))%vnt g (expression_code program (g_variables g) (Tree i l ts))) as Hplain.
  { intros Hand Hor. eapply writes_child; [done|exact Ea|tauto|]. intros code_a g1 Ha Hw1 Hf1 Hca. apply writes_write.
    eapply writes_child; [done|exact Eb|intros H; apply (can_emit_variables g _ b (wrote_variables _ _ _ Hw1)); tauto|].
    intros code_b g2 Hb Hw2 Hf2 Hcb. apply (can_emit_variables g _ b (wrote_variables _ _ _ Hw1)) in Hb. apply writes_write.
    eapply writes_mono; [apply (emit_operation_spec (can_emit g (Tree i l ts))); [by apply Hcan|done|done]|done|]. intros to code Hto [Hf Hcode].
    cbn [g_next_label written] in Hto, Hf. split.
    - apply (fresh_same _ _ ((code_a ++ code_b) ++ code)); [code_labels; by rewrite <- ?app_assoc|].
      eapply fresh_app; [|eapply fresh_app; [|exact Hf1|exact Hf2]|exact Hf].
      + pose proof (wrote_labels _ _ _ Hw1). pose proof (wrote_labels _ _ _ Hw2). cbn in *. lia.
      + split; [apply Hw1|apply Hw2].
    - eapply code_binary; try done. cbn [g_variables written] in Hcb. by rewrite (wrote_variables _ _ _ Hw1) in Hcb. }
  destruct o; try (by apply Hplain); by eapply emit_logical_spec.
Qed.

(** A node without children. *)
Lemma leaf_can_emit i l ts n g : view i l ts n -> (forall rs, roles_ok (l_opcode l) rs -> rs = []) ->
  can_emit g (Tree i l ts) <-> supported_node program (g_variables g) l ts = true.
Proof.
  intros Hv Hl. pose proof (Hl _ (view_roles _ _ _ _ Hv)) as E. destruct ts; [|done].
  rewrite can_emit_iff, Forall_nil. tauto.
Qed.

Lemma emit_variable_spec i l ts n g : view i l ts n -> l_opcode l = VNT_IR_VARIABLE ->
  writes_fresh (can_emit g (Tree i l ts)) (emit_variable n) g (expression_code program (g_variables g) (Tree i l ts)).
Proof.
  intros Hv Hop. unfold emit_variable. eapply writes_asks; [eapply view_text; [done|by rewrite Hop]|]. cbv beta.
  assert (can_emit g (Tree i l ts) <-> is_Some (index_of (label_text l) (g_variables g))) as Hcan.
  { rewrite (leaf_can_emit _ _ _ _ _ Hv) by (rewrite Hop; by intros rs H). unfold supported_node. rewrite Hop. apply bool_decide_eq_true. }
  apply writes_get. unfold variable_index. destruct (index_of (label_text l) (g_variables g)) as [vi|] eqn:E.
  2:{ apply writes_fail. rewrite Hcan. by intros []. }
  apply writes_write, writes_true; [by apply Hcan|].
  assert ((if variable_is_64 g vi then [Ins MOVQ [slot vi; rax]] else [Ins MOVL [slot vi; eax]]) =
    load_code (g_variables g) vi) as -> by done.
  split; [apply fresh_nil; rewrite app_nil_r; unfold load_code; by destruct (wide_at _ _)|].
  rewrite app_nil_r. by apply code_variable.
Qed.

Lemma emit_node_spec emit i l ts n g : view i l ts n -> Forall (emits emit) ts ->
  writes_fresh (can_emit g (Tree i l ts)) (emit_node ir emit i n) g (expression_code program (g_variables g) (Tree i l ts)).
Proof.
  intros Hv He. unfold emit_node. assert (opcode n = l_opcode l) as Hop by by rewrite (view_label _ _ _ _ Hv).
  pose proof (view_literal _ _ _ _ Hv) as Hlit. unfold literal_ok in Hlit.
  assert (value n = l_value l) as Hval by by rewrite (view_label _ _ _ _ Hv).
  assert (can_emit g (Tree i l ts) -> supported_node program (g_variables g) l ts = true) as Hnode.
  { by intros [H _]%can_emit_iff. }
  assert (forall b, supported_node program (g_variables g) l ts = b -> (forall rs, roles_ok (l_opcode l) rs -> rs = []) ->
    can_emit g (Tree i l ts) <-> b = true) as Hleaf.
  { intros b <- Hl. by eapply leaf_can_emit. }
  unfold supported_node in Hnode, Hleaf.
  rewrite Hop. destruct (l_opcode l) eqn:E; try (apply writes_fail; intros H; by apply Hnode in H).
  - by apply emit_call_spec.
  - apply writes_write, writes_true; [by apply (Hleaf _ eq_refl)|]. split; [by apply fresh_nil|by apply code_string].
  - destruct Hlit as [z Hz]. eapply writes_asks; [unfold node_integer; by rewrite Hval, Hz|]. cbv beta.
    apply writes_write, writes_true; [by apply (Hleaf _ eq_refl)|]. split; [by apply fresh_nil|by apply code_integer].
  - destruct Hlit as [b Hb]. eapply writes_asks; [unfold node_boolean; by rewrite Hval, Hb|]. cbv beta.
    apply writes_write, writes_true; [by apply (Hleaf _ eq_refl)|]. split; [by apply fresh_nil|by apply code_boolean].
  - by apply emit_variable_spec.
  - by eapply emit_index_spec.
  - by apply emit_binary_spec.
  - by apply emit_unary_spec.
Qed.

Lemma emit_expression_spec fuel t : subtree ir t -> length (indices t) <= fuel -> emits (emit_expression ir fuel) t.
Proof.
  revert t. induction fuel as [|fuel IH]; intros [i l ts] Ht Hf g; [cbn in Hf; lia|].
  destruct (subtree_view _ _ _ Ht) as [n Hv]. cbn [emit_expression index].
  destruct (Nat.leb_spec (node_count ir) i) as [H|_]; [pose proof (view_range _ _ _ _ Hv); lia|].
  eapply writes_asks; [apply Hv|]. cbv beta. apply emit_node_spec; [done|].
  pose proof (view_subtrees _ _ _ _ Hv) as Hts. rewrite Forall_forall in Hts. apply Forall_forall. intros t Hin.
  apply IH; [by apply Hts|]. pose proof (child_subtree_length t ts i l Hin). lia.
Qed.

End expressions.
