(* ===== verification/FreestandingEmit.v ===== *)
(** FreestandingEmit: the generator writes the code of statements, functions and programs:
    the second half of FreestandingCode. *)

From stdpp Require Import list sets.
From S2P Require Import Prelude Clib Ast Ir IrTrees IrFacts IrAccess Cfg HirSemantics Asm.
From S2P Require Import Freestanding FreestandingRuns FreestandingCode.

(** Declarations have a value. *)
Definition initialised : tree -> bool :=
  everywhere (fun l ts => match l_opcode l, ts with VNT_IR_VARIABLE_DECL, [] => false | _, _ => true end).

(** The variables of a tree are among these. *)
Definition known (vs : list (bytes * bytes)) : tree -> bool :=
  everywhere (fun l _ => negb (is_variable (l_opcode l)) || bool_decide (is_Some (index_of (label_text l) vs))).

(** ** Children in roles *)

Lemma elem_of_children_in r t ts : t ∈ children_in r ts <-> t ∈ ts /\ l_role (label t) = r.
Proof.
  induction ts as [|t' ts IH]; [split; [by intros ?%not_elem_of_nil|by intros [?%not_elem_of_nil _]]|].
  rewrite children_in_cons, elem_of_cons. destruct (decide (l_role (label t') = r)) as [E|E]; [rewrite elem_of_cons|]; rewrite IH; naive_solver.
Qed.

(** A property of all the children is one of those in each role. *)
Lemma Forall_roles (P : tree -> Prop) rs ts : Forall (fun r => r ∈ rs) (map (fun t => l_role (label t)) ts) ->
  Forall P ts <-> Forall (fun r => Forall P (children_in r ts)) rs.
Proof.
  rewrite Forall_map, !Forall_forall. intros Hrs. split.
  - intros H r Hr. apply Forall_forall. intros t [Hin _]%elem_of_children_in. by apply H.
  - intros H t Hin. specialize (H _ (Hrs t Hin)). rewrite Forall_forall in H. apply H. by apply elem_of_children_in.
Qed.

Lemma Forall_children (P P' : tree -> Prop) r ts : (forall t, l_role (label t) = r -> P t <-> P' t) ->
  Forall P (children_in r ts) <-> Forall P' (children_in r ts).
Proof.
  intros H. rewrite !Forall_forall. split; intros HP t Hin; pose proof Hin as [_ Hr]%elem_of_children_in; by apply H, HP.
Qed.

Lemma only_child r c ts : count_role r (map (fun t => l_role (label t)) ts) = 1 -> child_of r ts = Some c ->
  children_in r ts = [c].
Proof.
  intros Hcount Hc. assert (length (children_in r ts) = count_role r (map (fun t => l_role (label t)) ts)) as Hl.
  { unfold count_role, children_in, in_edge. rewrite length_map. clear. induction ts as [|t ts IH]; [done|].
    cbn [map]. rewrite !filter_cons. cbn [fst]. destruct (decide _); cbn [length]; by rewrite ?IH. }
  apply child_of_in in Hc as [Hin Hr]. assert (c ∈ children_in r ts) as H by by apply elem_of_children_in.
  rewrite Hcount in Hl. destruct (children_in r ts) as [|c' [|]]; try done. by apply list_elem_of_singleton in H as <-.
Qed.

Section statements.
Context (ir : VntIrProgram) (program : tree).
Hypothesis literals : literals_ok ir.
Hypothesis program_stored : subtree ir program.
Hypothesis program_root : root ir = Some (index program).

(** The statement is one that can be compiled. *)
Definition can_state (g : FreestandingGen) (t : tree) : Prop :=
  supported_statement program (g_variables g) (length (g_loops g)) t = true.

(** A condition or a statement. *)
Definition can_child (vs : list (bytes * bytes)) (loops : nat) (t : tree) : Prop :=
  (if decide (l_role (label t) = VNT_IR_EDGE_CONDITION) then supported_expression program vs t
   else supported_statement program vs loops t) = true.

Lemma can_children vs loops ts : forallb (fun b => b) (map (fun t =>
    if decide (l_role (label t) = VNT_IR_EDGE_CONDITION) then supported_expression program vs t
    else supported_statement program vs loops t) ts) = true <-> Forall (can_child vs loops) ts.
Proof.
  induction ts as [|t ts IH]; [by split; [constructor|]|]. cbn [map forallb]. by rewrite andb_true_iff, Forall_cons, IH.
Qed.

Lemma can_statements vs loops r ts : r <> VNT_IR_EDGE_CONDITION ->
  Forall (can_child vs loops) (children_in r ts) <->
  Forall (fun t => supported_statement program vs loops t = true) (children_in r ts).
Proof. intros Hr. apply Forall_children. intros t Ht. unfold can_child. by rewrite decide_False by congruence. Qed.

Lemma can_expressions vs ts :
  forallb (supported_expression program vs) ts = true <-> Forall (fun t => supported_expression program vs t = true) ts.
Proof. rewrite forallb_forall, Forall_forall. by setoid_rewrite list_elem_of_In. Qed.

Definition emits_statement (emit : nat -> Gen bool) (t : tree) : Prop :=
  forall g, known (g_variables g) t = true -> initialised t = true ->
  writes_fresh (can_state g t) (emit (index t)) g (statement_code program (g_variables g) (g_loops g) t).

Definition all_known (vs : list (bytes * bytes)) (ts : list tree) : Prop := Forall (fun t => known vs t = true) ts.
Definition all_initialised (ts : list tree) : Prop := Forall (fun t => initialised t = true) ts.

(** What the statements of a node give. *)
Definition statements_code (vs : list (bytes * bytes)) (loops : list (nat * nat)) (r : VntIrEdgeRole)
    (ts : list tree) (code : list Line) : Prop :=
  exists codes, code = concat codes /\ Forall2 (statement_code program vs loops) (children_in r ts) codes.

Lemma for_all_spec emit r ts : Forall (subtree ir) ts -> Forall (emits_statement emit) ts ->
  forall g, all_known (g_variables g) ts -> all_initialised ts ->
    writes_fresh (Forall (can_state g) (children_in r ts)) (for_all (fun c =>
      child ← asks (fun _ => node_at ir c);
      if bool_decide (role child = r) then emit c else mret true) (map index ts)) g
    (statements_code (g_variables g) (g_loops g) r ts).
Proof.
  intros Hs He. induction Hs as [|t ts Ht Hs IH]; intros g Hk Hi.
  - apply writes_true; [constructor|]. split; [by apply fresh_nil|]. exists []. split; [done|constructor].
  - inversion Hk as [|? ? Hkt Hkts]; inversion Hi as [|? ? Hit Hits]; subst. inversion He as [|? ? Het Hets]; subst. specialize (IH Hets). cbn [map for_all].
    destruct t as [j k us]. destruct (subtree_view ir literals _ _ _ Ht) as [n Hv].
    assert (l_role k = role n) as Hr by by rewrite (view_label _ _ _ _ _ Hv).
    assert (children_in r (Tree j k us :: ts) = children_in r [Tree j k us] ++ children_in r ts) as Ecs.
    { rewrite !children_in_cons. by destruct (decide _). }
    rewrite Ecs. eapply (writes_require (Forall (can_state g) (children_in r [Tree j k us])) _ _ _ _ (fun to code => fresh (g_next_label g) to code /\
      exists codes, code = concat codes /\ Forall2 (statement_code program (g_variables g) (g_loops g))
        (children_in r [Tree j k us]) codes)).
    + eapply writes_asks; [apply Hv|]. cbv beta. rewrite children_in_cons. cbn [label]. rewrite Hr. case_bool_decide as E.
      * rewrite decide_True by done. eapply writes_mono; [apply (Het g Hkt Hit)|by rewrite Forall_singleton|].
        intros to code _ [Hf Hc]. split; [done|].
        exists [code]. split; [cbn; by rewrite app_nil_r|]. constructor; [exact Hc|constructor].
      * rewrite decide_False by done. apply writes_true; [constructor|]. split; [by apply fresh_nil|]. exists []. split; [done|constructor].
    + by intros [H _]%Forall_app.
    + intros c1 g1 Hc Hw (Hf1 & codes1 & -> & Hc1).
      eapply writes_mono; [apply IH; [by rewrite (wrote_variables _ _ _ Hw)|done]| |].
      { unfold can_state in *. rewrite (wrote_variables _ _ _ Hw), (wrote_loops _ _ _ Hw), Forall_app. tauto. }
      intros to c2 Hto (Hf2 & codes2 & -> & Hc2). split.
      * eapply fresh_app; [|exact Hf1|exact Hf2]. split; [apply Hw|done].
      * exists (codes1 ++ codes2). rewrite concat_app. split; [done|].
        rewrite Ecs. rewrite (wrote_variables _ _ _ Hw), (wrote_loops _ _ _ Hw) in Hc2. by apply Forall2_app.
Qed.

Lemma emit_statements_spec emit i l ts n r g : view ir i l ts n -> Forall (emits_statement emit) ts ->
  all_known (g_variables g) ts -> all_initialised ts ->
  writes_fresh (Forall (can_state g) (children_in r ts)) (emit_statements ir emit n r) g (statements_code (g_variables g) (g_loops g) r ts).
Proof.
  intros Hv He Hk Hi. unfold emit_statements. eapply writes_asks; [apply Hv|]. cbv beta.
  apply for_all_spec; [apply Hv|done..].
Qed.

Section cases.
Context (fuel : nat) (emit : nat -> Gen bool) (i : nat) (l : Label) (ts : list tree) (n : VntIrNode).
Hypothesis Hv : view ir i l ts n.
Hypothesis He : Forall (emits_statement emit) ts.
Hypothesis Hexpr : forall t, subtree ir t -> length (indices t) < length (indices (Tree i l ts)) ->
  emits program (emit_expression ir fuel) t.

Lemma node_opcode : opcode n = l_opcode l.
Proof. by rewrite (view_label _ _ _ _ _ Hv). Qed.

Lemma child_emits r c : child_of r ts = Some c -> emits program (emit_expression ir fuel) c.
Proof.
  intros [Hin _]%child_of_in. apply Hexpr; [|by apply child_subtree_length].
  pose proof (view_subtrees _ _ _ _ _ Hv) as Hts. rewrite Forall_forall in Hts. by apply Hts.
Qed.

Lemma writes_value can r c g k Q : child_of r ts = Some c -> (can -> can_emit program g c) ->
  (forall code g1, can_emit program g c -> wrote g code g1 -> fresh (g_next_label g) (g_next_label g1) code ->
     expression_code program (g_variables g) c code -> writes_code can k g1 (fun to c2 => Q to (code ++ c2))) ->
  writes_code can (ok ← emit_expression ir fuel (index c); if (ok : bool) then k else mret false) g Q.
Proof.
  intros Hc Hcan Hk. eapply writes_require; [apply (child_emits _ _ Hc g)|done|].
  intros code g1 Hcan1 Hw [Hf Hcode]. by apply Hk.
Qed.

Lemma labels_store vs vi : labels (store_code vs vi) = [].
Proof. unfold store_code. by destruct (wide_at vs vi). Qed.

Lemma store_variable_code g vi : store_variable g vi = store_code (g_variables g) vi.
Proof. done. Qed.

Lemma emit_to_variable_spec (can : Prop) c r name vi g (Q : list Line -> Prop) : child_of r ts = Some c ->
  index_of name (g_variables g) = Some vi -> (can <-> can_emit program g c) ->
  (forall code, expression_code program (g_variables g) c code -> Q (code ++ store_code (g_variables g) vi)) ->
  writes_fresh can (emit_to_variable ir fuel (Some (index c)) name) g Q.
Proof.
  intros Hc Hvi Hcan HQ. unfold emit_to_variable. apply writes_get. unfold variable_index. rewrite Hvi.
  eapply writes_value; [done|tauto|]. intros code g1 Hv1 Hw Hf Hcode. apply writes_write, writes_true; [tauto|].
  rewrite store_variable_code, app_nil_r. split.
  - eapply fresh_same; [|exact Hf]. by rewrite labels_app, labels_store, app_nil_r.
  - by apply HQ.
Qed.

(** What is known of the node. *)
Definition node_known (g : FreestandingGen) : Prop := known (g_variables g) (Tree i l ts) = true.
Hypothesis node_initialised : initialised (Tree i l ts) = true.

Lemma node_variable g : node_known g -> is_variable (l_opcode l) = true ->
  exists vi, index_of (label_text l) (g_variables g) = Some vi.
Proof.
  intros Hkn Hv'. destruct (everywhere_inv _ i l ts Hkn) as [Hk _]. rewrite Hv' in Hk. cbn in Hk. by apply bool_decide_eq_true in Hk.
Qed.

Lemma children_known g : node_known g -> all_known (g_variables g) ts.
Proof. intros Hkn. apply (everywhere_inv _ i l ts Hkn). Qed.

Lemma children_initialised : all_initialised ts.
Proof. apply (everywhere_inv _ i l ts node_initialised). Qed.

Lemma roles op : l_opcode l = op -> roles_ok op (map (fun t => l_role (label t)) ts).
Proof. intros <-. apply Hv. Qed.

Lemma declaration_value : l_opcode l = VNT_IR_VARIABLE_DECL \/ l_opcode l = VNT_IR_REASSIGN ->
  is_Some (child_of VNT_IR_EDGE_VALUE ts).
Proof.
  intros Hop. assert (map (fun t => l_role (label t)) ts = [VNT_IR_EDGE_VALUE]) as E.
  { destruct Hop as [Hop|Hop]; pose proof (roles _ Hop) as Hr; cbn in Hr; [|done].
    destruct Hr as [Hr|Hr]; [|done]. destruct ts; [|done]. cbn in node_initialised. by rewrite Hop in node_initialised. }
  eapply child_of_role; [by rewrite E|by constructor].
Qed.

(** The only child. *)
Lemma value_child c : map (fun t => l_role (label t)) ts = [VNT_IR_EDGE_VALUE] -> child_of VNT_IR_EDGE_VALUE ts = Some c -> ts = [c].
Proof. intros E [Hin _]%child_of_in. destruct ts as [|t [|]]; try done. by apply list_elem_of_singleton in Hin as <-. Qed.

Lemma emit_declaration_spec g : node_known g -> l_opcode l = VNT_IR_VARIABLE_DECL \/ l_opcode l = VNT_IR_REASSIGN ->
  writes_fresh (can_state g (Tree i l ts)) (emit_declaration ir fuel i n) g
    (statement_code program (g_variables g) (g_loops g) (Tree i l ts)).
Proof.
  intros Hk Hop. unfold emit_declaration. destruct (declaration_value Hop) as [c Ec].
  assert (can_state g (Tree i l ts) <-> local_type l = true /\ can_emit program g c) as Hcan.
  { assert (can_state g (Tree i l ts) <-> local_type l = true /\ Forall (can_emit program g) ts) as ->.
    { unfold can_state. cbn [supported_statement]. unfold can_emit. rewrite <- can_expressions, <- andb_true_iff.
      by destruct Hop as [-> | ->]. }
    assert (ts = [c]) as ->; [|by rewrite Forall_singleton]. apply value_child; [|done].
    destruct Hop as [Hop|Hop]; pose proof (roles _ Hop) as Hr; cbn in Hr; [|done]. destruct Hr as [Hr|Hr]; [|done].
    destruct ts; [|done]. by destruct (child_of_in _ _ _ Ec) as [?%not_elem_of_nil _]. }
  assert (type_name n = l_type_name l) as -> by by rewrite (view_label _ _ _ _ _ Hv).
  apply writes_if; intros Htype.
  { apply writes_fail. rewrite Hcan. unfold local_type. destruct (l_type_name l); [|done].
    apply negb_true_iff in Htype. rewrite Htype. by intros []. }
  assert (local_type l = true) as Hlocal.
  { unfold local_type. destruct (l_type_name l); [|done]. by apply negb_false_iff in Htype. }
  eapply writes_asks; [apply Hv|]. eapply writes_asks.
  { eapply view_text; [done|]. by destruct Hop as [-> | ->]. }
  cbv beta. rewrite Ec. cbn [fmap option_fmap option_map].
  destruct (node_variable g Hk) as [vi Evi]; [by destruct Hop as [-> | ->]|].
  eapply emit_to_variable_spec; [done|done|tauto|]. intros code Hcode. by eapply code_declaration.
Qed.

Lemma emit_return_spec g : l_opcode l = VNT_IR_RETURN ->
  writes_fresh (can_state g (Tree i l ts)) (emit_return ir fuel i) g
    (statement_code program (g_variables g) (g_loops g) (Tree i l ts)).
Proof.
  intros Hop. unfold emit_return. eapply writes_asks; [apply Hv|]. cbv beta.
  assert (can_state g (Tree i l ts) <-> Forall (can_emit program g) ts) as Hcan.
  { unfold can_state. cbn [supported_statement]. rewrite Hop. apply can_expressions. }
  pose proof (roles _ Hop) as Hr. cbn in Hr.
  destruct (child_of VNT_IR_EDGE_VALUE ts) as [c|] eqn:Ec; cbn [fmap option_fmap option_map].
  - assert (ts = [c]) as Ets.
    { apply value_child; [|done]. destruct Hr as [Hr|Hr]; [|done]. destruct ts; [|done].
      by destruct (child_of_in _ _ _ Ec) as [?%not_elem_of_nil _]. }
    assert (can_state g (Tree i l ts) <-> can_emit program g c) as Hc by (rewrite Hcan, Ets; apply Forall_singleton).
    eapply writes_value; [done|tauto|]. intros code g1 Hcan1 Hw Hf Hcode. apply writes_write, writes_true; [tauto|]. split.
    + eapply fresh_same; [|exact Hf]. by code_labels.
    + rewrite app_nil_r. apply code_return; [done|]. by rewrite Ec.
  - apply writes_write, writes_true.
    + apply Hcan. destruct Hr as [Hr|Hr]; destruct ts as [|t us]; try done.
      rewrite child_of_cons in Ec. cbn [map] in Hr. injection Hr as Hr _. by rewrite bool_decide_eq_true_2 in Ec.
    + split; [by apply fresh_nil|]. apply (code_return _ _ _ i l ts []); [done|]. by rewrite Ec.
Qed.

Lemma emit_jump_spec is_break g : l_opcode l = (if is_break : bool then VNT_IR_BREAK else VNT_IR_CONTINUE) ->
  writes_fresh (can_state g (Tree i l ts)) (emit_jump is_break) g (statement_code program (g_variables g) (g_loops g) (Tree i l ts)).
Proof.
  intros Hop. unfold emit_jump. apply writes_gets. destruct (g_loops g) as [|[start done_] loops] eqn:El.
  { apply writes_fail. unfold can_state. cbn [supported_statement]. rewrite Hop, El. by destruct is_break. }
  apply writes_write, writes_true; [unfold can_state; cbn [supported_statement]; rewrite Hop, El; by destruct is_break|].
  split; [by apply fresh_nil|]. destruct is_break.
  - by eapply code_break.
  - by eapply code_continue.
Qed.

Lemma emit_condition_spec g c : child_of VNT_IR_EDGE_CONDITION ts = Some c ->
  writes_fresh (can_emit program g c) (emit_condition ir fuel i) g (expression_code program (g_variables g) c).
Proof.
  intros Ec. unfold emit_condition. eapply writes_asks; [apply Hv|]. cbv beta.
  rewrite Ec. cbn [fmap option_fmap option_map emit_child]. apply (child_emits _ _ Ec g).
Qed.

Lemma condition_present : l_opcode l = VNT_IR_IF \/ l_opcode l = VNT_IR_WHILE ->
  is_Some (child_of VNT_IR_EDGE_CONDITION ts).
Proof.
  intros Hop. assert (count_role VNT_IR_EDGE_CONDITION (map (fun t => l_role (label t)) ts) = 1) as E.
  { destruct Hop as [Hop|Hop]; apply (roles _ Hop). }
  eapply child_of_role; [done|]. unfold count_role in E. destruct (filter _ _) as [|r rs] eqn:F; [done|].
  assert (r ∈ filter (fun r' => r' = VNT_IR_EDGE_CONDITION) (map (fun t => l_role (label t)) ts)) as H.
  { rewrite F. by constructor. }
  by apply list_elem_of_filter in H as [-> H].
Qed.

(** The condition and the statements of a node. *)
Lemma can_branches vs loops c rs : l_opcode l = VNT_IR_IF \/ l_opcode l = VNT_IR_WHILE ->
  child_of VNT_IR_EDGE_CONDITION ts = Some c -> VNT_IR_EDGE_CONDITION ∉ rs ->
  Forall (fun r => r ∈ VNT_IR_EDGE_CONDITION :: rs) (map (fun t => l_role (label t)) ts) ->
  Forall (can_child vs loops) ts <-> supported_expression program vs c = true /\
    Forall (fun r => Forall (fun t => supported_statement program vs loops t = true) (children_in r ts)) rs.
Proof.
  intros Hop Ec Hrs Hroles. rewrite (Forall_roles _ _ _ Hroles), Forall_cons, (only_child _ c ts).
  - rewrite Forall_singleton. pose proof (child_of_in _ _ _ Ec) as [_ Hr]. unfold can_child at 1. rewrite decide_True by done.
    apply and_iff_compat_l. rewrite !Forall_forall.
    split; intros H r Hr'; (apply can_statements, H; [by intros ->|done]) || (apply can_statements; [by intros ->|by apply H]).
  - destruct Hop as [Hop|Hop]; apply (roles _ Hop).
  - done.
Qed.

Lemma can_if g c : l_opcode l = VNT_IR_IF -> child_of VNT_IR_EDGE_CONDITION ts = Some c ->
  can_state g (Tree i l ts) <-> can_emit program g c /\ Forall (can_state g) (children_in VNT_IR_EDGE_THEN ts) /\
    Forall (can_state g) (children_in VNT_IR_EDGE_ELSE ts).
Proof.
  intros Hop Ec. unfold can_state. cbn [supported_statement]. rewrite Hop. etransitivity; [apply can_children|].
  rewrite (can_branches _ _ c [VNT_IR_EDGE_THEN; VNT_IR_EDGE_ELSE]); [|by left|done|set_solver|].
  - by rewrite !Forall_cons, Forall_nil, (right_id True and).
  - eapply Forall_impl; [apply (roles _ Hop)|]. cbn. intros r. rewrite !elem_of_cons. tauto.
Qed.

Lemma can_while g c : l_opcode l = VNT_IR_WHILE -> child_of VNT_IR_EDGE_CONDITION ts = Some c ->
  can_state g (Tree i l ts) <-> (length (g_loops g) < max_loop_depth)%nat /\ can_emit program g c /\
    Forall (fun t => supported_statement program (g_variables g) (S (length (g_loops g))) t = true)
      (children_in VNT_IR_EDGE_BODY ts).
Proof.
  intros Hop Ec. unfold can_state. cbn [supported_statement]. rewrite Hop, andb_true_iff, Nat.ltb_lt.
  apply and_iff_compat_l. etransitivity; [apply can_children|].
  rewrite (can_branches _ _ c [VNT_IR_EDGE_BODY]); [|by right|done|set_solver|].
  - by rewrite Forall_singleton.
  - eapply Forall_impl; [apply (roles _ Hop)|]. cbn. intros r. rewrite !elem_of_cons. tauto.
Qed.

Lemma emit_if_spec g : node_known g -> l_opcode l = VNT_IR_IF ->
  writes_fresh (can_state g (Tree i l ts)) (emit_if ir emit fuel i n) g
    (statement_code program (g_variables g) (g_loops g) (Tree i l ts)).
Proof.
  intros Hk Hop. unfold emit_if. pose proof (children_known _ Hk) as Hkts. pose proof children_initialised as Hits.
  destruct (condition_present (or_introl Hop)) as [c Ec]. pose proof (can_if g c Hop Ec) as Hcan.
  eapply writes_require; [by apply emit_condition_spec|tauto|].
  intros code g1 Hcan1 Hw1 (Hf1 & Hcode). apply writes_label, writes_label, writes_write.
  assert (forall g2 ts', g_variables g2 = g_variables g -> g_loops g2 = g_loops g ->
    Forall (can_state g2) ts' <-> Forall (can_state g) ts') as Hsame.
  { intros g2 ts' Hvs Hls. unfold can_state. by rewrite Hvs, Hls. }
  eapply writes_require.
  { eapply emit_statements_spec; [done|done| |done]. by rewrite <- (wrote_variables _ _ _ Hw1) in Hkts. }
  { rewrite Hsame by (apply Hw1). tauto. }
  intros code_t g2 Hcan2 Hw2 (Hf2 & codes_t & -> & Hct). rewrite Hsame in Hcan2 by (apply Hw1).
  pose proof (eq_trans (wrote_variables _ _ _ Hw2) (wrote_variables _ _ _ Hw1)) as Hv2.
  pose proof (eq_trans (wrote_loops _ _ _ Hw2) (wrote_loops _ _ _ Hw1)) as Hl2.
  apply writes_write, writes_write. eapply writes_require.
  { eapply emit_statements_spec; [done|done| |done]. by rewrite <- Hv2 in Hkts. }
  { rewrite Hsame by done. tauto. }
  intros code_e g3 Hcan3 Hw3 (Hf3 & codes_e & -> & Hce). rewrite Hsame in Hcan3 by done.
  apply writes_write, writes_true; [tauto|].
  cbn [g_next_label g_variables g_loops written labelled] in *.
  pose proof (wrote_labels _ _ _ Hw1) as Hn1. pose proof (wrote_labels _ _ _ Hw2) as Hn2.
  pose proof (wrote_labels _ _ _ Hw3) as Hn3. cbn in Hn2, Hn3. split.
  - eapply fresh_app; [|exact Hf1|]; [lia|].
    apply (fresh_around _ _ [0; 0] _ (concat codes_t ++ concat codes_e));
      [|cbn; lia|eapply fresh_app; [|exact Hf2|exact Hf3]; cbn; lia].
    code_labels. cbn. solve_Permutation.
  - rewrite app_nil_r. rewrite (wrote_variables _ _ _ Hw1), (wrote_loops _ _ _ Hw1) in Hct.
    rewrite Hv2, Hl2 in Hce. by eapply code_if.
Qed.

Lemma writes_ext can m m' g Q : m g = m' g -> writes_code can m' g Q -> writes_code can m g Q.
Proof. unfold writes_code, wp. by intros ->. Qed.

Lemma writes_with_loops can ls loops m g (P Q : nat -> list Line -> Prop) :
  writes_code can m (with_loops ls g) P -> loops = g_loops g -> (forall to code, P to code -> Q to code) ->
  writes_code can (_ ← modify (with_loops ls); require m; _ ← modify (with_loops loops); mret true)%vnt g Q.
Proof.
  intros Hm -> HPQ. apply wp_bind, wp_modify, wp_bind. eapply wp_mono; [exact Hm|].
  intros [|] g1; [|done]. intros (Hc & code & Hw & HP). split; [done|]. exists code. split; [|by apply HPQ].
  destruct Hw. by constructor.
Qed.

(** The loop has its labels while its condition and its body are emitted. *)
Definition while_body (start done_ : nat) : Gen bool :=
  (_ ← label_emit start;
   require emit_condition ir fuel i;
   _ ← write (test_false done_);
   require emit_statements ir emit n VNT_IR_EDGE_BODY;
   _ ← write [Ins JMP [local start]];
   _ ← label_emit done_;
   mret true)%vnt.

Lemma emit_while_unfold g : emit_while ir emit fuel i n g =
  (loops ← gets g_loops;
   if max_loop_depth <=? length loops then fail "loop nesting exceeds 64."
   else
     start ← label_new;
     done_ ← label_new;
     _ ← modify (with_loops ((start, done_) :: loops));
     require while_body start done_;
     _ ← modify (with_loops loops);
     mret true)%vnt g.
Proof.
  unfold emit_while, while_body, label_emit, write, modify, gets, label_new, mbind, mret, St_bind, St_ret.
  destruct (max_loop_depth <=? length (g_loops g)); [done|].
  cbn [g_loops g_next_label with_loops].
  repeat match goal with |- context [match ?m with Done _ => _ | Fault => _ | Stuck => _ end] =>
    destruct m as [[[] ?]| |]; try done end.
Qed.

Lemma while_body_spec start done_ c g : node_known g -> l_opcode l = VNT_IR_WHILE ->
  child_of VNT_IR_EDGE_CONDITION ts = Some c -> g_loops g = (start, done_) :: tail (g_loops g) ->
  writes_code (can_emit program g c /\ Forall (can_state g) (children_in VNT_IR_EDGE_BODY ts))
    (while_body start done_) g (fun to code =>
    (forall from, g_next_label g = S (S from) -> from = start -> S from = done_ -> fresh from to code) /\
    forall loops, g_loops g = (start, done_) :: loops -> statement_code program (g_variables g) loops (Tree i l ts) code).
Proof.
  intros Hk Hop Ec Hl. unfold while_body. pose proof (children_known _ Hk) as Hkts. pose proof children_initialised as Hits.
  apply writes_write. eapply writes_require; [by apply emit_condition_spec|by intros [? _]|].
  intros code g1 Hcan1 Hw1 (Hf1 & Hcode). apply writes_write.
  assert (Forall (can_state (written (test_false done_) g1)) (children_in VNT_IR_EDGE_BODY ts) <->
    Forall (can_state g) (children_in VNT_IR_EDGE_BODY ts)) as Hsame.
  { unfold can_state. cbn [g_variables g_loops written]. by rewrite (wrote_variables _ _ _ Hw1), (wrote_loops _ _ _ Hw1). }
  eapply writes_require.
  { eapply emit_statements_spec; [done|done| |done]. cbn. by rewrite (wrote_variables _ _ _ Hw1). }
  { rewrite Hsame. tauto. }
  intros code_b g2 Hcan2 Hw2 (Hf2 & codes & -> & Hcs). rewrite Hsame in Hcan2.
  apply writes_write, writes_write, writes_true; [done|].
  cbn [g_next_label g_variables g_loops written labelled] in *.
  pose proof (wrote_labels _ _ _ Hw1) as Hn1. pose proof (wrote_labels _ _ _ Hw2) as Hn2. cbn in Hn1, Hn2. split.
  - intros from Hfrom -> <-. apply (fresh_around _ _ [0; 0] _ (code ++ concat codes)).
    + code_labels. cbn. solve_Permutation.
    + cbn. lia.
    + eapply fresh_app; [|cbn; by rewrite <- Hfrom|exact Hf2]. cbn; lia.
  - intros loops Hloops. rewrite app_nil_r. rewrite (wrote_variables _ _ _ Hw1), (wrote_loops _ _ _ Hw1) in Hcs.
    cbn in Hcs. rewrite Hloops in Hcs. by eapply code_while.
Qed.

Lemma emit_while_spec g : node_known g -> l_opcode l = VNT_IR_WHILE ->
  writes_fresh (can_state g (Tree i l ts)) (emit_while ir emit fuel i n) g
    (statement_code program (g_variables g) (g_loops g) (Tree i l ts)).
Proof.
  intros Hk Hop. destruct (condition_present (or_intror Hop)) as [c Ec]. pose proof (can_while g c Hop Ec) as Hcan.
  eapply writes_ext; [apply emit_while_unfold|]. apply writes_gets, writes_if; intros Hdepth.
  { apply Nat.leb_le in Hdepth. apply writes_fail. rewrite Hcan. lia. }
  apply Nat.leb_gt in Hdepth. apply writes_label, writes_label. eapply writes_with_loops; [|done|].
  { eapply writes_mono; [by apply (while_body_spec _ _ c)| |done]. rewrite Hcan. split; [intros []; split_and!; done|tauto]. }
  intros to code [Hf Hcode]. cbn in Hf, Hcode. split; [by apply Hf|by apply Hcode].
Qed.

(** ** Assignments *)

Lemma target_view c : child_of VNT_IR_EDGE_TARGET ts = Some c -> subtree ir c.
Proof.
  intros [Hin _]%child_of_in. pose proof (view_subtrees _ _ _ _ _ Hv) as Hts. rewrite Forall_forall in Hts. by apply Hts.
Qed.

(** The expressions in a target are compiled like the others. *)
Lemma grandchild_emits r j k us c : child_of VNT_IR_EDGE_TARGET ts = Some (Tree j k us) -> child_of r us = Some c ->
  emits program (emit_expression ir fuel) c.
Proof.
  intros Ht [Hc _]%child_of_in. pose proof (target_view _ Ht) as Hs. apply child_of_in in Ht as [Hin _].
  destruct (subtree_view ir literals _ _ _ Hs) as [m Hm]. pose proof (view_subtrees _ _ _ _ _ Hm) as Hus.
  rewrite Forall_forall in Hus. apply Hexpr; [by apply Hus|].
  pose proof (child_subtree_length _ ts i l Hin). pose proof (child_subtree_length _ us j k Hc). lia.
Qed.

Lemma writes_grandchild can r j k us c g m Q : child_of VNT_IR_EDGE_TARGET ts = Some (Tree j k us) ->
  child_of r us = Some c -> (can -> can_emit program g c) ->
  (forall code g1, can_emit program g c -> wrote g code g1 -> fresh (g_next_label g) (g_next_label g1) code ->
     expression_code program (g_variables g) c code -> writes_code can m g1 (fun to c2 => Q to (code ++ c2))) ->
  writes_code can (ok ← emit_expression ir fuel (index c); if (ok : bool) then m else mret false) g Q.
Proof.
  intros Ht Hc Hcan Hk. eapply writes_require; [apply (grandchild_emits _ _ _ _ _ Ht Hc g)|done|].
  intros code g1 Hcan1 Hw [Hf Hcode]. by apply Hk.
Qed.

Lemma can_assign g t c : l_opcode l = VNT_IR_ASSIGN -> child_of VNT_IR_EDGE_TARGET ts = Some t ->
  child_of VNT_IR_EDGE_VALUE ts = Some c -> can_state g (Tree i l ts) <->
  match l_opcode (label t) with VNT_IR_VARIABLE | VNT_IR_INDEX => True | _ => False end /\
  can_emit program g t /\ can_emit program g c.
Proof.
  intros Hop Et Ec. pose proof (roles _ Hop) as Hr. cbn in Hr.
  destruct (two_can_emit program (can_emit program g) VNT_IR_EDGE_TARGET VNT_IR_EDGE_VALUE ts) as (t' & c' & Et' & Ec' & H); [done|done|].
  assert (t' = t) as -> by congruence. assert (c' = c) as -> by congruence.
  unfold can_state. cbn [supported_statement]. rewrite Hop, andb_true_iff, can_expressions. unfold can_emit in H. rewrite H.
  unfold assignable, can_emit. rewrite Et. apply and_iff_compat_r. by destruct (l_opcode (label t)).
Qed.

Lemma emit_assignment_spec g : node_known g -> l_opcode l = VNT_IR_ASSIGN ->
  writes_fresh (can_state g (Tree i l ts)) (emit_assignment ir fuel i) g
    (statement_code program (g_variables g) (g_loops g) (Tree i l ts)).
Proof.
  intros Hk Hop. unfold emit_assignment. pose proof (roles _ Hop) as Hr. cbn in Hr.
  destruct (child_of_role VNT_IR_EDGE_TARGET _ ts Hr ltac:(by repeat constructor)) as [[j k us] Et].
  destruct (child_of_role VNT_IR_EDGE_VALUE _ ts Hr ltac:(by repeat constructor)) as [c Ec].
  pose proof (can_assign g _ c Hop Et Ec) as Hcan. cbn [label] in Hcan.
  eapply writes_asks; [apply Hv|]. eapply writes_asks; [apply Hv|]. cbv beta. rewrite Et, Ec.
  cbn [fmap option_fmap option_map index]. destruct (subtree_view ir literals _ _ _ (target_view _ Et)) as [m Hm].
  eapply writes_asks; [apply Hm|]. cbv beta.
  assert (opcode m = l_opcode k) as -> by by rewrite (view_label _ _ _ _ _ Hm).
  destruct (l_opcode k) eqn:Ek; try (apply writes_fail; tauto).
  - eapply writes_asks; [eapply view_text; [done|by rewrite Ek]|]. cbv beta.
    assert (exists vi, index_of (label_text k) (g_variables g) = Some vi) as [vi Evi].
    { pose proof (children_known _ Hk) as H. apply child_of_in in Et as [Hin _]. unfold all_known in H.
      rewrite Forall_forall in H. destruct (everywhere_inv _ j k us (H _ Hin)) as [Hkv _]. rewrite Ek in Hkv.
      by apply bool_decide_eq_true in Hkv. }
    assert (can_emit program g (Tree j k us)) as Ht.
    { rewrite (leaf_can_emit ir program _ _ _ _ g Hm) by (rewrite Ek; by intros rs).
      unfold supported_node. rewrite Ek, Evi. by apply bool_decide_eq_true_2. }
    eapply emit_to_variable_spec; [done|done|tauto|]. intros code Hcode. by eapply code_assign_variable.
  - pose proof (view_roles _ _ _ _ _ Hm) as Hru. rewrite Ek in Hru. cbn in Hru.
    destruct (operands ir program j k us m g VNT_IR_EDGE_OBJECT VNT_IR_EDGE_INDEX Hm) as (a & b & Ea & Eb & Hcan2);
      [done|unfold supported_node; by rewrite Ek|exact Hru|].
    eapply writes_asks; [apply Hm|]. eapply writes_asks; [apply Hm|]. cbv beta. rewrite Ea, Eb.
    cbn [fmap option_fmap option_map].
    eapply writes_grandchild; [done|exact Ea|tauto|]. intros code_a g1 Ha Hw1 Hf1 Hca. apply writes_write.
    pose proof (wrote_variables _ _ _ Hw1) as Hv1.
    eapply writes_grandchild; [done|exact Eb|intros H; apply (can_emit_variables program g _ b Hv1); tauto|].
    intros code_b g2 Hb Hw2 Hf2 Hcb. apply (can_emit_variables program g _ b Hv1) in Hb. apply writes_write.
    pose proof (eq_trans (wrote_variables _ _ _ Hw2) Hv1) as Hv2.
    eapply writes_value; [exact Ec|intros H; apply (can_emit_variables program g _ c Hv2); tauto|].
    intros code_c g3 Hc Hw3 Hf3 Hcc. apply (can_emit_variables program g _ c Hv2) in Hc. apply writes_write, writes_true; [tauto|].
    cbn [g_next_label g_variables g_loops written] in *. rewrite Hv1 in Hcb. rewrite Hv2 in Hcc.
    pose proof (wrote_labels _ _ _ Hw1) as Hn1. pose proof (wrote_labels _ _ _ Hw2) as Hn2.
    pose proof (wrote_labels _ _ _ Hw3) as Hn3. cbn in Hn2, Hn3. split.
    + apply (fresh_same _ _ (code_a ++ code_b ++ code_c)); [by code_labels|].
      eapply fresh_app; [|exact Hf1|eapply fresh_app; [|exact Hf2|exact Hf3]]; lia.
    + rewrite app_nil_r. by eapply code_assign_index.
Qed.

(** ** Statements *)

Lemma emit_asm_spec g : l_opcode l = VNT_IR_ASM ->
  writes_fresh (can_state g (Tree i l ts)) (emit_asm n) g (statement_code program (g_variables g) (g_loops g) (Tree i l ts)).
Proof.
  intros Hop. unfold emit_asm. eapply writes_asks; [eapply view_text; [done|by rewrite Hop]|]. cbv beta.
  apply writes_write, writes_true; [unfold can_state; cbn [supported_statement]; by rewrite Hop|].
  split; [by apply fresh_nil|]. by apply code_asm.
Qed.

Lemma emit_statement_node_spec g :
  emits program (emit_expression ir fuel) (Tree i l ts) -> node_known g ->
  writes_fresh (can_state g (Tree i l ts)) (emit_statement_node ir emit fuel i n) g
    (statement_code program (g_variables g) (g_loops g) (Tree i l ts)).
Proof.
  intros Hself Hk. unfold emit_statement_node. rewrite node_opcode.
  destruct (l_opcode l) eqn:E; try (apply writes_fail; unfold can_state; cbn [supported_statement]; by rewrite E).
  { assert (Forall (fun r => r ∈ [VNT_IR_EDGE_STATEMENT]) (map (fun t => l_role (label t)) ts)) as Hr.
    { eapply Forall_impl; [apply (roles _ E)|]. cbn. intros r ->. by constructor. }
    eapply writes_mono; [eapply emit_statements_spec; [done|done|by apply children_known|apply children_initialised]| |].
    { unfold can_state at 2. cbn [supported_statement]. rewrite E. symmetry. etransitivity; [apply can_children|].
      rewrite (Forall_roles _ _ _ Hr), Forall_singleton. by apply can_statements. }
    intros to code _ [Hf (codes & -> & Hc)]. split; [done|]. by apply code_block. }
  all: try first [by apply emit_return_spec|by apply emit_asm_spec|by apply emit_assignment_spec
                 |by apply emit_if_spec|by apply emit_while_spec|by apply emit_jump_spec
                 |by apply emit_declaration_spec; auto].
  eapply writes_mono; [apply (Hself g)|unfold can_state; cbn [supported_statement]; by rewrite E|]. intros to code _ [Hf Hc]. split; [done|]. by apply code_call_statement.
Qed.

End cases.

Lemma emit_statement_spec fuel t : subtree ir t -> length (indices t) <= fuel ->
  emits_statement (emit_statement ir fuel) t.
Proof.
  revert t. induction fuel as [|fuel IH]; intros [i l ts] Ht Hf g Hk Hi; [cbn in Hf; lia|].
  destruct (subtree_view ir literals _ _ _ Ht) as [n Hv]. cbn [emit_statement index].
  destruct (Nat.leb_spec (node_count ir) i) as [H|_]; [pose proof (view_range _ _ _ _ _ Hv); lia|].
  eapply writes_asks; [apply Hv|]. cbv beta. eapply emit_statement_node_spec; try done.
  - pose proof (view_subtrees _ _ _ _ _ Hv) as Hts. rewrite Forall_forall in Hts. apply Forall_forall. intros t Hin.
    apply IH; [by apply Hts|]. pose proof (child_subtree_length t ts i l Hin). lia.
  - intros t Hs Hlen. apply emit_expression_spec; [done..|lia].
  - apply emit_expression_spec; [done..|lia].
Qed.
End statements.
