(* ===== verification/FreestandingProgram.v ===== *)
(** FreestandingProgram: the code of functions and programs, and that
    vnt_emit_freestanding_x86_64 writes it: the last part of FreestandingCode. *)

From stdpp Require Import list sets.
From S2P Require Import Prelude Clib Ast Ir IrTrees IrFacts IrAccess Cfg HirSemantics Asm.
From S2P Require Import Freestanding FreestandingRuns FreestandingCode FreestandingEmit.

(** * Code *)

Definition function_name (f : tree) : bytes := label_text (label f).

Definition prologue (f : tree) : list Line :=
  let text := function_text (function_name f) in
  [Directive (str ".globl " ++ text); Directive (str ".type " ++ text ++ str ", @function");
   LabelLine (FunctionSymbol (function_name f)); Ins PUSHQ [rbp]; Ins MOVQ [rsp; rbp]] ++
  reserve (frame_size (length (function_variables f))) ++
  imap (fun p r => Ins MOVQ [Reg W64 r; slot p]) (take (length (l_names (label f))) argument_registers).

Definition epilogue (f : tree) : list Line :=
  let text := function_text (function_name f) in
  [Ins LEAVE []; Ins RET []; Directive (str ".size " ++ text ++ str ", .-" ++ text)].

(** The code of a function, with the code of its statements. *)
Record function_code (program f : tree) (codes : list (list Line)) : Prop := {
  function_statements : Forall2 (statement_code program (function_variables f) [])
    (children_in VNT_IR_EDGE_BODY (subtrees f)) codes;
  function_arity : length (l_names (label f)) <= 6
}.

Definition function_lines (f : tree) (codes : list (list Line)) : list Line :=
  prologue f ++ concat codes ++ epilogue f.

Definition data_lines (ir : VntIrProgram) : list Line :=
  [LabelLine ArithmeticFault; Ins UD2 []; Directive (str ".section .rodata")] ++ string_lines ir ++ end_lines.

(** The code of a program: its functions, with names and labels that are all different, and
    a kernel_main without parameters. *)
Record program_code (ir : VntIrProgram) (program : tree) (bodies : list (list (list Line))) : Prop := {
  program_functions : Forall2 (function_code program) (subtrees program) bodies;
  program_named : Forall (fun f => l_opcode (label f) = VNT_IR_FUNCTION) (subtrees program);
  program_main : exists f, find_declared program (str "kernel_main") = Some f /\ l_names (label f) = [];
  program_names : NoDup (map function_name (subtrees program));
  program_labels : NoDup (labels (concat (concat bodies)));
  program_local : Forall (fun s => exists n, s = LocalLabel n) (labels (concat (concat bodies)))
}.

Definition program_lines (ir : VntIrProgram) (program : tree) (bodies : list (list (list Line))) : list Line :=
  start_lines ++ concat (zip_with function_lines (subtrees program) bodies) ++ data_lines ir.

(** * What can be compiled *)

Definition supported_function (program f : tree) : bool :=
  (length (l_names (label f)) <=? 6) && (Z.of_nat (length (function_variables f)) <=? max_variables)%Z &&
  forallb (supported_statement program (function_variables f) 0) (subtrees f).

(** Functions with different names, one of which is kernel_main without parameters. *)
Definition supported_program (program : tree) : bool :=
  forallb (fun f => bool_decide (l_opcode (label f) = VNT_IR_FUNCTION)) (subtrees program) &&
  bool_decide (NoDup (map function_name (subtrees program))) &&
  match find_declared program (str "kernel_main") with Some f => is_zero (length (l_names (label f))) | None => false end &&
  forallb (supported_function program) (subtrees program).

(** * Variables *)

(** There is room for these variables. *)
Definition roomy (vs : list (bytes * bytes)) : Prop := (Z.of_nat (length vs) <= max_variables)%Z.

Lemma add_name_length x vs : length vs <= length (add_name x vs).
Proof. unfold add_name. destruct (index_of x vs); [done|]. rewrite length_app. lia. Qed.

Lemma set_type_length x type vs : length (set_type x type vs) = length vs.
Proof. unfold set_type. destruct (index_of x vs); [|done]. apply length_insert. Qed.

Lemma collected_label_length l vs : length vs <= length (collected_label l vs).
Proof.
  unfold collected_label. assert (length vs <= length (if is_variable (l_opcode l) then add_name (label_text l) vs else vs)) as H.
  { destruct (is_variable _); [apply add_name_length|done]. }
  destruct (l_opcode l), (l_type_name l); by rewrite ?set_type_length.
Qed.

Lemma fold_length {A} (F : A -> list (bytes * bytes) -> list (bytes * bytes)) l :
  Forall (fun a => forall vs, length vs <= length (F a vs)) l ->
  forall vs, length vs <= length (fold_left (fun vs f => f vs) (map F l) vs).
Proof. induction 1 as [|a l Ha Hl IH]; [done|]. intros vs. cbn. etrans; [apply Ha|apply IH]. Qed.

Lemma collected_length t : forall vs, length vs <= length (collected t vs).
Proof.
  induction t as [i l ts IH] using tree_ind. intros vs. cbn [collected].
  etrans; [apply (collected_label_length l)|]. by apply fold_length.
Qed.

Lemma roomy_le vs vs' : length vs <= length vs' -> roomy vs' -> roomy vs.
Proof. unfold roomy. lia. Qed.

Lemma with_variables_same g : with_variables (g_variables g) g = g.
Proof. by destruct g. Qed.

Definition collects (m : Gen unit) (F : list (bytes * bytes) -> list (bytes * bytes)) : Prop :=
  forall g, g_failed g = false -> roomy (g_variables g) ->
  wp m g (fun _ g' => (g_failed g' = true /\ ~ roomy (F (g_variables g))) \/
    (g' = with_variables (F (g_variables g)) g /\ roomy (F (g_variables g)))).

Lemma add_variable_spec name g :
  wp (add_variable (Some name)) g (fun ok g' =>
    (ok = false /\ g' = g /\ ~ roomy (add_name name (g_variables g))) \/
    (ok = true /\ g' = with_variables (add_name name (g_variables g)) g /\
     (roomy (g_variables g) -> roomy (add_name name (g_variables g))))).
Proof.
  unfold add_variable, add_name, variable_index, roomy. apply wp_bind, wp_gets.
  destruct (index_of name (g_variables g)) as [vi|].
  - right. by rewrite with_variables_same.
  - apply wp_bind, wp_gets. rewrite length_app. cbn [length]. destruct (Z.leb_spec max_variables (Z.of_nat (length (g_variables g)))) as [H|H].
    + left. split_and!; [done..|lia].
    + apply wp_bind, wp_modify. right. split_and!; [done..|lia].
Qed.

Section collect.
Context (ir : VntIrProgram) (literals : literals_ok ir).

Lemma collect_failed fuel i g : g_failed g = true -> collect_variables ir (S fuel) i g = Done (tt, g).
Proof. intros H. cbn [collect_variables]. st_unfold. by rewrite H, orb_true_r. Qed.

Lemma for_each_failed {A} (body : A -> Gen unit) l g :
  (forall a, body a g = Done (tt, g)) -> for_each body l g = Done (tt, g).
Proof.
  intros H. induction l as [|a l IH]; [done|]. cbn [for_each]. st_unfold. by rewrite H.
Qed.

Lemma for_each_collects fuel ts :
  Forall (fun t => collects (collect_variables ir (S fuel) (index t)) (collected t)) ts ->
  collects (for_each (collect_variables ir (S fuel)) (map index ts))
    (fun vs => fold_left (fun vs f => f vs) (map collected ts) vs).
Proof.
  induction 1 as [|t ts Ht Hts IH]; intros g Hg.
  - intros Hr. right. split; [symmetry; apply with_variables_same|done].
  - intros Hr. cbn [map for_each fold_left]. apply wp_bind. eapply wp_mono; [by apply Ht|].
    intros _ g' [[Hf Hno]|[-> Hr']].
    + apply wp_done; exists tt, g'; split; [apply for_each_failed; intros i; by apply collect_failed|]. left. split; [done|].
      intros H. apply Hno. eapply roomy_le; [|exact H]. apply fold_length, Forall_forall. intros. apply collected_length.
    + exact (IH (with_variables (collected t (g_variables g)) g) Hg Hr').
Qed.

Lemma collect_label l n g : l = label_of n -> label_ok l -> g_failed g = false ->
  forall (k : Gen unit) Q,
  roomy (g_variables g) ->
  (forall g', g_failed g' = true -> ~ roomy (collected_label l (g_variables g)) -> Q tt g') ->
  (roomy (collected_label l (g_variables g)) -> wp k (with_variables (collected_label l (g_variables g)) g) Q) ->
  wp (added ← (if is_variable (opcode n)
               then name ← asks (fun _ => text_pointer n); add_variable name
               else mret true);
      if negb (added : bool)
      then modify (fun g => set_failed (print_message "out of memory collecting locals." g))
      else
        _ ← (match type_name n with
             | Some type =>
                 if bool_decide (opcode n = VNT_IR_VARIABLE_DECL) then
                   name ← asks (fun _ => node_text n);
                   modify (fun g =>
                     match variable_index name g with
                     | Some vi => with_variables (<[vi := (name, type)]> (g_variables g)) g
                     | None => g
                     end)
                 else mret tt
             | None => mret tt
             end); k)%vnt g Q.
Proof.
  intros -> Hok Hg k Q Hroom Hfail Hk. apply wp_bind.
  assert (roomy (collected_label (label_of n) (g_variables g)) <->
    roomy (if is_variable (opcode n) then add_name (label_text (label_of n)) (g_variables g) else g_variables g)) as Hsize.
  { unfold collected_label. cbn [l_opcode l_type_name label_of]. unfold roomy.
    by destruct (opcode n), (type_name n); rewrite ?set_type_length. }
  assert (is_variable (opcode n) = true -> exists text, value n = VAL_TEXT text) as Htext.
  { intros H. apply (IrTrees.label_text _ Hok). cbn. by destruct (opcode n). }
  assert (wp (if is_variable (opcode n) then name ← asks (fun _ => text_pointer n); add_variable name else mret true)%vnt g
    (fun ok g' => (ok = false /\ ~ roomy (collected_label (label_of n) (g_variables g))) \/
       (ok = true /\ roomy (collected_label (label_of n) (g_variables g)) /\
       g' = with_variables (if is_variable (opcode n) then add_name (label_text (label_of n)) (g_variables g)
                            else g_variables g) g))) as H.
  { destruct (is_variable (opcode n)).
    - destruct (Htext eq_refl) as [text Et]. apply wp_bind. eapply wp_asks_done; [unfold text_pointer; by rewrite Et|].
      cbv beta. eapply wp_mono; [apply add_variable_spec|]. unfold label_text in Hsize |- *. cbn in Hsize |- *.
      rewrite Et in Hsize |- *. intros ok g'. rewrite Hsize. naive_solver.
    - apply wp_ret. right. rewrite Hsize. by rewrite with_variables_same. }
  eapply wp_mono; [exact H|]. clear H. intros ok g' [[-> Hno] |(-> & Hroom' & ->)]; [by apply wp_modify, Hfail|]. cbn [negb].
  specialize (Hk Hroom'). clear Hsize Hfail Hroom Hroom'.
  unfold collected_label in Hk. cbn in Hk.
  set (vs := if is_variable (opcode n) then _ else _) in *. apply wp_bind.
  assert (forall g', wp k g' Q -> wp (mret tt : Gen unit) g' (fun _ g'' => wp k g'' Q)) as Hret by done.
  destruct (type_name n) as [type|]; [|apply Hret; by destruct (opcode n)].
  case_bool_decide as Ed; [|apply Hret; by destruct (opcode n)].
  rewrite Ed in *. destruct (Htext eq_refl) as [text Et]. apply wp_bind. eapply wp_asks_done.
  { unfold node_text. by rewrite Et. }
  apply wp_modify. unfold set_type, label_text in Hk. cbn in Hk. rewrite Et in Hk.
  unfold variable_index. cbn [g_variables with_variables].
  destruct (index_of text vs) as [vi|]; [exact Hk|exact Hk].
Qed.

Lemma collect_locals_spec fuel t : subtree ir t -> length (indices t) <= fuel ->
  collects (collect_variables ir fuel (index t)) (collected t).
Proof.
  revert t. induction fuel as [|fuel IH]; intros [i l ts] Ht Hf g Hg Hroom; [cbn in Hf; lia|].
  destruct (subtree_view ir literals _ _ _ Ht) as [n Hv]. cbn [collect_variables index].
  apply wp_bind, wp_gets. rewrite Hg, orb_false_r.
  destruct (Nat.leb_spec (node_count ir) i) as [H|_]; [pose proof (view_range _ _ _ _ _ Hv); lia|].
  apply wp_bind. eapply wp_asks_done; [apply Hv|]. cbv beta zeta.
  eapply (collect_label l); [apply Hv|apply Hv|done|done| |].
  { intros g' H Hno. left. split; [done|]. intros H'. apply Hno. eapply roomy_le; [|exact H'].
    cbn [collected]. apply fold_length, Forall_forall. intros. apply collected_length. }
  intros Hroom'. apply wp_bind. eapply wp_asks_done; [apply Hv|]. cbv beta.
  pose proof (view_subtrees _ _ _ _ _ Hv) as Hts. rewrite Forall_forall in Hts.
  destruct fuel as [|fuel]; [|refine (for_each_collects fuel ts _ (with_variables (collected_label l (g_variables g)) g) Hg Hroom')].
  - destruct ts as [|t ts]; [by right|]. pose proof (child_subtree_length t (t :: ts) i l ltac:(by left)). destruct t; cbn in *; lia.
  - apply Forall_forall. intros t Hin. apply IH; [by apply Hts|]. pose proof (child_subtree_length t ts i l Hin). lia.
Qed.

End collect.

(** ** The variables of a function *)

Lemma index_of_lookup x vs i : index_of x vs = Some i -> exists type, vs !! i = Some (x, type).
Proof.
  revert i. induction vs as [|[y type] vs IH]; intros i; [done|]. cbn [index_of fst].
  destruct (bytes_eqb y x) eqn:E.
  - intros [= <-]. apply bytes_eqb_spec in E as ->. by exists type.
  - destruct (index_of x vs) as [j|]; [|done]. intros [= <-]. by destruct (IH j eq_refl) as [type' H]; exists type'.
Qed.

Lemma index_of_inj x y vs i : index_of x vs = Some i -> index_of y vs = Some i -> x = y.
Proof. intros (t & Hx)%index_of_lookup (t' & Hy)%index_of_lookup. congruence. Qed.

Lemma index_of_app x vs vs' i : index_of x vs = Some i -> index_of x (vs ++ vs') = Some i.
Proof.
  revert i. induction vs as [|v vs IH]; intros i; [done|]. cbn [app index_of]. destruct (bytes_eqb v.1 x); [done|].
  destruct (index_of x vs) as [j|]; [|done]. intros [= <-]. by rewrite (IH j).
Qed.

Lemma index_of_end x vs type : index_of x vs = None -> index_of x (vs ++ [(x, type)]) = Some (length vs).
Proof.
  induction vs as [|v vs IH]; cbn [app index_of fst].
  - intros _. by rewrite (proj2 (bytes_eqb_spec x x)).
  - destruct (bytes_eqb v.1 x); [done|]. destruct (index_of x vs); [done|]. intros _. by rewrite IH.
Qed.

Lemma index_of_fst x vs vs' : map fst vs = map fst vs' -> index_of x vs = index_of x vs'.
Proof.
  revert vs'. induction vs as [|v vs IH]; intros [|v' vs']; try done. cbn. intros [= E H]. by rewrite E, (IH vs').
Qed.

Lemma add_name_keeps x y vs i : index_of x vs = Some i -> index_of x (add_name y vs) = Some i.
Proof. unfold add_name. destruct (index_of y vs); [done|]. apply index_of_app. Qed.

Lemma add_name_known x vs : is_Some (index_of x (add_name x vs)).
Proof. unfold add_name. destruct (index_of x vs) eqn:E; [by rewrite E|]. by rewrite index_of_end. Qed.

Lemma set_type_names x type vs : map fst (set_type x type vs) = map fst vs.
Proof.
  unfold set_type. destruct (index_of x vs) as [i|] eqn:E; [|done]. apply index_of_lookup in E as [t E].
  change (map ?f) with (fmap (M := list) f). rewrite list_fmap_insert. apply list_insert_id.
  by rewrite list_lookup_fmap, E.
Qed.

Lemma collected_label_keeps x l vs i : index_of x vs = Some i -> index_of x (collected_label l vs) = Some i.
Proof.
  intros H. unfold collected_label.
  assert (index_of x (if is_variable (l_opcode l) then add_name (label_text l) vs else vs) = Some i) as H'.
  { destruct (is_variable _); [by apply add_name_keeps|done]. }
  destruct (l_opcode l); try done. destruct (l_type_name l); [|done].
  by rewrite (index_of_fst x _ _ (set_type_names _ _ _)).
Qed.

Lemma fold_keeps {A} (F : A -> list (bytes * bytes) -> list (bytes * bytes)) l x :
  Forall (fun a => forall vs i, index_of x vs = Some i -> index_of x (F a vs) = Some i) l ->
  forall vs i, index_of x vs = Some i -> index_of x (fold_left (fun vs f => f vs) (map F l) vs) = Some i.
Proof. induction 1 as [|a l Ha Hl IH]; [done|]. intros vs i H. cbn. by apply IH, Ha. Qed.

Lemma collected_keeps x t : forall vs i, index_of x vs = Some i -> index_of x (collected t vs) = Some i.
Proof.
  induction t as [j l ts IH] using tree_ind. intros vs i H. cbn [collected].
  eapply fold_keeps; [exact IH|]. by apply collected_label_keeps.
Qed.

Lemma everywhere_intro p i l ts :
  p l ts = true -> Forall (fun t => everywhere p t = true) ts -> everywhere p (Tree i l ts) = true.
Proof.
  intros Hp Hts. cbn [everywhere]. rewrite Hp. cbn. apply forallb_forall. intros b Hb. apply in_map_iff in Hb as (t & <- & Ht).
  rewrite Forall_forall in Hts. apply Hts. by apply list_elem_of_In.
Qed.

Definition among (vs vs' : list (bytes * bytes)) : Prop :=
  forall x i, index_of x vs = Some i -> index_of x vs' = Some i.

Lemma known_among vs vs' t : among vs vs' -> known vs t = true -> known vs' t = true.
Proof.
  intros Hvs. induction t as [i l ts IH] using tree_ind. intros Hk. destruct (everywhere_inv _ i l ts Hk) as [Hp Hts]. apply everywhere_intro.
  - destruct (is_variable (l_opcode l)); [|done]. cbn in *. apply bool_decide_eq_true in Hp as [vi Hp].
    apply bool_decide_eq_true. rewrite (Hvs _ _ Hp). done.
  - rewrite Forall_forall in *. intros t Hin. apply IH; [done|]. by apply Hts.
Qed.

Lemma fold_collected_known ts : Forall (fun t => forall vs, known (collected t vs) t = true) ts ->
  forall vs, Forall (fun t => known (fold_left (fun vs f => f vs) (map collected ts) vs) t = true) ts.
Proof.
  induction 1 as [|t ts Ht Hts IH]; intros vs; [constructor|]. cbn [map fold_left]. constructor; [|apply IH].
  eapply known_among; [|apply Ht]. intros x i. apply fold_keeps. apply Forall_forall. intros. by apply collected_keeps.
Qed.

Lemma collected_known t : forall vs, known (collected t vs) t = true.
Proof.
  induction t as [i l ts IH] using tree_ind. intros vs. apply everywhere_intro.
  - destruct (is_variable (l_opcode l)) eqn:E; [|done]. cbn [negb orb]. apply bool_decide_eq_true.
    assert (is_Some (index_of (label_text l) (collected_label l vs))) as [vi H].
    { unfold collected_label. rewrite E. destruct (l_opcode l); try apply add_name_known.
      destruct (l_type_name l); [|apply add_name_known].
      rewrite (index_of_fst _ _ _ (set_type_names _ _ _)). apply add_name_known. }
    exists vi. cbn [collected]. apply fold_keeps; [|done]. apply Forall_forall. intros. by apply collected_keeps.
  - cbn [collected]. by apply fold_collected_known.
Qed.

(** The parameters come first. *)
Lemma parameters_first names vs : NoDup (map fst vs ++ names) ->
  forall p x, names !! p = Some x ->
  index_of x (fold_left (fun vs p => add_name p vs) names vs) = Some (length vs + p).
Proof.
  revert vs. induction names as [|y names IH]; intros vs Hd p x Hp; [done|]. cbn [fold_left].
  assert (index_of y vs = None) as Hy.
  { destruct (index_of y vs) as [i|] eqn:E; [|done]. exfalso. apply index_of_lookup in E as [t E].
    apply NoDup_app in Hd as (_ & Hd & _). apply (Hd y); [|by constructor].
    apply list_elem_of_fmap. exists (y, t). split; [done|]. by eapply list_elem_of_lookup_2. }
  assert (NoDup (map fst (add_name y vs) ++ names)) as Hd'.
  { unfold add_name. rewrite Hy, map_app. cbn. by rewrite <- app_assoc. }
  destruct p as [|p].
  - injection Hp as <-. rewrite Nat.add_0_r.
    assert (forall ns vs i, index_of y vs = Some i -> index_of y (fold_left (fun vs p => add_name p vs) ns vs) = Some i) as Hkeep.
    { clear. intros ns. induction ns as [|n ns IH]; intros vs i H; [done|]. cbn. by apply IH, add_name_keeps. }
    apply Hkeep. unfold add_name. rewrite Hy. by apply index_of_end.
  - rewrite (IH _ Hd' p x Hp). unfold add_name. rewrite Hy, length_app. cbn. f_equal. lia.
Qed.

Lemma parameter_slot f p x : NoDup (l_names (label f)) -> l_names (label f) !! p = Some x ->
  index_of x (function_variables f) = Some p.
Proof. intros Hd Hp. apply collected_keeps. by apply (parameters_first _ []). Qed.

(** * Functions *)

Section functions.
Context (ir : VntIrProgram) (program : tree).
Hypothesis literals : literals_ok ir.
Hypothesis program_stored : subtree ir program.
Hypothesis program_root : root ir = Some (index program).

Lemma add_parameters_spec names g :
  wp (add_parameters names) g (fun ok g' =>
    if ok then g' = with_variables (fold_left (fun vs p => add_name p vs) names (g_variables g)) g /\
      (roomy (g_variables g) -> roomy (fold_left (fun vs p => add_name p vs) names (g_variables g)))
    else ~ roomy (fold_left (fun vs p => add_name p vs) names (g_variables g)) /\ g_failed g' = true).
Proof.
  revert g. induction names as [|x names IH]; intros g; [split; [symmetry; apply with_variables_same|done]|].
  cbn [add_parameters fold_left]. apply wp_bind. eapply wp_mono; [apply add_variable_spec|].
  intros ok g' [(-> & -> & Hno)|(-> & -> & Hr)].
  - split; [|done]. intros H. apply Hno. eapply roomy_le; [|exact H]. generalize (add_name x (g_variables g)). clear.
    induction names as [|y names IH]; intros vs; [done|]. cbn. etrans; [apply (add_name_length y)|apply IH].
  - eapply wp_mono; [exact (IH (with_variables (add_name x (g_variables g)) g))|]. intros [|] g'; [|done]. cbn. naive_solver.
Qed.

(** What a function, or some of them, add to the assembly. *)
Record emitted (g : FreestandingGen) (lines code : list Line) (g' : FreestandingGen) : Prop := {
  emitted_failed : g_failed g' = false;
  emitted_loops : g_loops g' = g_loops g;
  emitted_labels : g_next_label g <= g_next_label g';
  emitted_out : g_out g' = g_out g ++ lines;
  emitted_fresh : fresh (g_next_label g) (g_next_label g') code
}.

Lemma emit_function_spec i l ts g : subtree ir (Tree i l ts) -> length (indices (Tree i l ts)) <= emit_fuel ir ->
  l_opcode l = VNT_IR_FUNCTION -> initialised (Tree i l ts) = true -> g_failed g = false -> g_loops g = [] ->
  wp (emit_function ir i) g (fun _ g' => (supported_function program (Tree i l ts) = false /\ g_failed g' = true) \/
    supported_function program (Tree i l ts) = true /\ exists codes,
    function_code program (Tree i l ts) codes /\ emitted g (function_lines (Tree i l ts) codes) (concat codes) g').
Proof.
  intros Hs Hlen Hop Hi Hg Hl. destruct (subtree_view ir literals _ _ _ Hs) as [n Hv]. unfold emit_function.
  apply wp_bind. eapply wp_asks_done; [apply Hv|]. cbv beta.
  assert (names n = l_names l) as -> by by rewrite (view_label _ _ _ _ _ Hv).
  assert (children_in VNT_IR_EDGE_BODY ts = ts) as Hbody.
  { apply children_in_all. pose proof (view_roles _ _ _ _ _ Hv) as Hr. by rewrite Hop in Hr. }
  assert (roomy []) as Hempty by done.
  assert (supported_function program (Tree i l ts) = true <-> length (l_names l) <= 6 /\
    roomy (function_variables (Tree i l ts)) /\
    Forall (fun t => supported_statement program (function_variables (Tree i l ts)) 0 t = true) ts) as Hcan.
  { unfold supported_function. cbn [label subtrees]. rewrite !andb_true_iff, Nat.leb_le, Z.leb_le, forallb_forall, Forall_forall.
    setoid_rewrite <- list_elem_of_In. unfold roomy. tauto. }
  assert (forall g' : FreestandingGen, g_failed g' = true ->
    ~ (length (l_names l) <= 6 /\ roomy (function_variables (Tree i l ts)) /\
       Forall (fun t => supported_statement program (function_variables (Tree i l ts)) 0 t = true) ts) ->
    supported_function program (Tree i l ts) = false /\ g_failed g' = true) as Hrefuse.
  { intros g' Hg' Hno. split; [|done]. apply not_true_is_false. by rewrite Hcan. }
  destruct (Nat.ltb_spec 6 (length (l_names l))) as [H6|H6]; [left; apply Hrefuse; [done|lia]|].
  apply wp_bind, wp_modify, wp_bind. eapply wp_mono; [apply add_parameters_spec|].
  cbn [g_variables with_variables]. assert (forall vs, length vs <= length (collected (Tree i l ts) vs)) as Hgrow by apply collected_length.
  intros [|] g1; [intros [-> Hr1]|intros [Hno H]; left; apply Hrefuse; [done|intros (_ & Hr & _); apply Hno; exact (roomy_le _ _ (Hgrow _) Hr)]].
  specialize (Hr1 Hempty). cbn [negb]. apply wp_bind.
  eapply wp_mono; [exact (collect_locals_spec ir literals (emit_fuel ir) _ Hs Hlen
    (with_variables (fold_left (fun vs p => add_name p vs) (l_names l) []) g) Hg Hr1)|].
  intros _ g2 [[H Hno]|[-> Hr2]]; [apply wp_bind, wp_gets; rewrite H; left; apply Hrefuse; [done|by intros (_ & Hr & _)]|]. apply wp_bind, wp_gets. cbn [g_failed with_variables].
  rewrite Hg. apply wp_bind. eapply wp_asks_done; [eapply view_text; [done|by rewrite Hop]|]. cbv beta.
  apply wp_bind, wp_gets, wp_bind, wp_modify, wp_bind, wp_modify, wp_bind, wp_modify, wp_bind.
  cbn [g_variables g_loops g_next_label g_out g_failed g_message with_variables].
  fold (collected (Tree i l ts)).
  change (collected (Tree i l ts) (fold_left _ (l_names l) [])) with (function_variables (Tree i l ts)).
  set (vs := function_variables (Tree i l ts)) in *.
  eapply wp_mono; [eapply (emit_statements_spec ir program literals (emit_statement ir (emit_fuel ir)) i l ts n VNT_IR_EDGE_BODY); [done|..]|].
  - pose proof (view_subtrees _ _ _ _ _ Hv) as Hts. rewrite Forall_forall in Hts. apply Forall_forall. intros t Hin.
    apply emit_statement_spec; [done..|by apply Hts|]. pose proof (child_subtree_length t ts i l Hin). lia.
  - eapply (everywhere_inv _ i l ts). exact (collected_known (Tree i l ts) _).
  - apply (everywhere_inv _ i l ts Hi).
  - intros [|] g3.
    + rewrite Hbody. unfold can_state. cbn [g_variables g_loops with_variables]. intros (Hall & code & Hw & Hf & codes & -> & Hcodes). apply wp_bind, wp_gets. rewrite (wrote_failed _ _ _ Hw). cbn.
      rewrite Hg. right. split.
      { apply Hcan. split_and!; [done|exact Hr2|]. cbn in Hall. by rewrite Hl in Hall. }
      exists codes. cbn in Hcodes. rewrite Hl in Hcodes. split; [by constructor|].
      constructor; cbn; [by rewrite (wrote_failed _ _ _ Hw)|by rewrite (wrote_loops _ _ _ Hw)|apply Hw| |exact Hf].
      rewrite (wrote_out _ _ _ Hw). cbn. unfold function_lines, prologue, epilogue. cbn [label subtrees function_name].
      by rewrite <- !app_assoc.
    + rewrite Hbody. intros [Hno H]. apply wp_bind, wp_gets. rewrite H. left. apply Hrefuse; [exact H|].
      intros (_ & _ & Hall). apply Hno. unfold can_state. cbn. by rewrite Hl.
Qed.

Lemma emit_functions_spec fs g : Forall (subtree ir) fs -> Forall (fun f => length (indices f) <= emit_fuel ir) fs ->
  Forall (fun f => l_opcode (label f) = VNT_IR_FUNCTION) fs -> all_initialised fs ->
  g_failed g = false -> g_loops g = [] ->
  wp (emit_functions ir (map index fs)) g (fun _ g' =>
    (~ Forall (fun f => supported_function program f = true) fs /\ g_failed g' = true) \/
    Forall (fun f => supported_function program f = true) fs /\ exists bodies,
    Forall2 (function_code program) fs bodies /\
    emitted g (concat (zip_with function_lines fs bodies)) (concat (concat bodies)) g').
Proof.
  intros Hs Hlen Hop Hi Hg Hl. revert g Hg Hl. induction Hs as [|f fs Hf Hs IH]; intros g Hg Hl.
  - right. split; [constructor|]. exists []. split; [constructor|]. constructor; try done; [cbn; by rewrite app_nil_r|by apply fresh_nil].
  - inversion Hlen; inversion Hop; inversion Hi; subst. destruct f as [i l ts]. cbn [map index emit_functions].
    destruct (subtree_view ir literals _ _ _ Hf) as [n Hv]. apply wp_bind. eapply wp_asks_done; [apply Hv|]. cbv beta.
    assert (opcode n = VNT_IR_FUNCTION) as -> by by rewrite (view_label _ _ _ _ _ Hv) in *.
    cbn [bool_decide]. apply wp_bind. eapply wp_mono; [by apply emit_function_spec|].
    intros _ g1 [[Hno H']|(Hcan1 & codes & Hcode & [Hf1 Hl1 Hn1 Ho1 Hfr1])]; apply wp_bind, wp_gets.
    { rewrite H'. left. split; [|done]. intros [H'' _]%Forall_cons. by rewrite Hno in H''. }
    rewrite Hf1. eapply wp_mono; [apply IH; try done; by rewrite Hl1|].
    intros _ g2 [[Hno H']|(Hcan2 & bodies & Hbodies & [Hf2 Hl2 Hn2 Ho2 Hfr2])].
    { left. split; [|done]. by intros [_ ?]%Forall_cons. }
    right. split; [by constructor|]. exists (codes :: bodies).
    split; [by constructor|]. constructor; [done|by rewrite Hl2|lia| |].
    + rewrite Ho2, Ho1, <- app_assoc. done.
    + cbn [concat]. rewrite concat_app. eapply fresh_app; [|exact Hfr1|exact Hfr2]. lia.
Qed.

End functions.

(** * Programs *)

Section whole.
Context (ir : VntIrProgram) (program : tree).
Hypothesis literals : literals_ok ir.
Hypothesis stored_program : represents ir program.
Hypothesis wf_program : hir_wf (erase program).

Lemma program_subtree : subtree ir program.
Proof.
  constructor; [apply stored_program|done|]. rewrite (represents_all _ _ stored_program). apply NoDup_seq.
Qed.

Lemma program_fuel f : f ∈ subtrees program -> length (indices f) <= emit_fuel ir.
Proof.
  intros Hin. destruct program as [i l ts]. pose proof (child_subtree_length f ts i l Hin) as H.
  pose proof (Permutation_length (represents_all _ _ stored_program)) as Hl. rewrite length_seq in Hl.
  unfold emit_fuel. rewrite Hl in H. lia.
Qed.

(** Functions with different names; kernel_main has been found, or is among them. *)
Record declarations_ok (fs : list tree) (kernel_main : bool) : Prop := {
  declared_functions : Forall (fun f => l_opcode (label f) = VNT_IR_FUNCTION) fs;
  declared_names : NoDup (map function_name fs);
  declared_main : match find (is_named (str "kernel_main")) fs with
                  | Some f => kernel_main = false /\ l_names (label f) = []
                  | None => kernel_main = true
                  end
}.

Lemma is_named_iff name f : l_opcode (label f) = VNT_IR_FUNCTION -> is_named name f = true <-> function_name f = name.
Proof. intros Hop. unfold is_named. rewrite Hop. apply bytes_eqb_spec. Qed.

(** The first declaration and the others. *)
Lemma declarations_cons f fs km : l_opcode (label f) = VNT_IR_FUNCTION ->
  let main := bytes_eqb (function_name f) (str "kernel_main") in
  declarations_ok (f :: fs) km <->
  (main = true -> l_names (label f) = [] /\ km = false) /\ function_name f ∉ map function_name fs /\
  declarations_ok fs (main || km).
Proof.
  intros Hop main. assert (is_named (str "kernel_main") f = main) as Hm by (unfold is_named; by rewrite Hop).
  assert (main = true -> Forall (fun f => l_opcode (label f) = VNT_IR_FUNCTION) fs ->
    function_name f ∉ map function_name fs -> find (is_named (str "kernel_main")) fs = None) as Hnone.
  { intros Hmain Hops Hnot. destruct (find _ fs) as [f'|] eqn:E; [|done]. apply find_some in E as [Hin E].
    rewrite <- list_elem_of_In in Hin. rewrite Forall_forall in Hops. apply is_named_iff in E; [|by apply Hops].
    rewrite <- Hm in Hmain. apply is_named_iff in Hmain; [|done]. destruct Hnot. rewrite Hmain, <- E. by apply list_elem_of_fmap_2. }
  split.
  - intros [[_ Hops]%Forall_cons [Hnot Hd]%NoDup_cons Hfind]. cbn [find] in Hfind. rewrite Hm in Hfind.
    destruct main; cbn [orb] in *.
    + split_and!; [by destruct Hfind|done|]. constructor; [done..|]. by rewrite Hnone.
    + split_and!; [done..|]. by constructor.
  - intros (Hmain & Hnot & [Hops Hd Hfind]). constructor; [by constructor|by apply NoDup_cons|].
    cbn [find]. rewrite Hm. destruct main; cbn [orb] in *; [|done]. by destruct Hmain.
Qed.

(** Whether there is something wrong with the declarations. *)
Lemma check_declarations_spec fs kernel_main : Forall (subtree ir) fs ->
  returns (check_declarations ir (map index fs) kernel_main) (fun wrong => wrong = None <-> declarations_ok fs kernel_main).
Proof.
  intros Hs. revert kernel_main. induction Hs as [|[i l ts] fs Hf Hs IH]; intros kernel_main.
  { destruct kernel_main; cbn [check_declarations returns map]; [by split; [constructor; by constructor|]|].
    split; [done|]. by intros [_ _ H]. }
  destruct (subtree_view ir literals _ _ _ Hf) as [n Hv]. cbn [map index check_declarations].
  rewrite (view_node _ _ _ _ _ Hv). cbn [mbind outcome_bind].
  pose proof (view_label _ _ _ _ _ Hv) as El. assert (opcode n = l_opcode l) as -> by by rewrite El.
  assert (value n = l_value l) as -> by by rewrite El. assert (names n = l_names l) as -> by by rewrite El.
  assert (l_opcode l <> VNT_IR_FUNCTION -> forall message : string, Some message = None <-> declarations_ok (Tree i l ts :: fs) kernel_main) as Hother.
  { intros H message. split; [done|]. by intros [[H' _]%Forall_cons _ _]. }
  destruct (l_opcode l) eqn:Eop; try (by apply Hother). clear Hother.
  pose proof (view_label_ok _ _ _ _ _ Hv) as Hok. destruct (IrTrees.label_text _ Hok) as [name Eval]; [by rewrite Eop|].
  rewrite Eval. assert (function_name (Tree i l ts) = name) as Ename by (unfold function_name, label_text; cbn; by rewrite Eval).
  pose proof (declarations_cons (Tree i l ts) fs kernel_main Eop) as Hcons. cbv zeta in Hcons |- *. rewrite Ename in Hcons. cbn [label] in Hcons.
  set (is_main := bytes_eqb name (str "kernel_main")) in *.
  destruct (is_main && negb (is_zero (length (l_names l)))) eqn:Emain.
  { cbn [returns]. split; [done|]. intros (H & _)%Hcons. apply andb_true_iff in Emain as [Em En]. destruct (H Em) as [E _].
    by rewrite E in En. }
  destruct (is_main && kernel_main) eqn:Edup.
  { cbn [returns]. split; [done|]. intros (H & _)%Hcons. apply andb_true_iff in Edup as [Em ->]. by destruct (H Em). }
  apply returns_bind.
  assert (returns (mapM (node_at ir) (map index fs)) (fun others => Forall2 (fun f m => label f = label_of m) fs others)) as Hothers.
  { clear IH Hcons. induction Hs as [|[j k us] fs Hg Hs IH]; [constructor|]. cbn [map mapM index].
    destruct (subtree_view ir literals _ _ _ Hg) as [m Hm]. rewrite (view_node _ _ _ _ _ Hm). cbn [mbind outcome_bind].
    apply returns_bind. eapply returns_mono; [exact IH|]. intros others Ho. constructor; [apply Hm|done]. }
  eapply returns_mono; [exact Hothers|]. intros others Ho.
  assert (Forall (fun f => l_opcode (label f) = VNT_IR_FUNCTION) fs -> existsb (fun other =>
      bool_decide (opcode other = VNT_IR_FUNCTION) && match value other with VAL_TEXT text => bytes_eqb text name | _ => false end) others
      = true <-> name ∈ map function_name fs) as Hexists.
  { clear - Ho Hs literals. induction Ho as [|f m fs others Hfm Ho IH]; intros Hops; [by split; [|intros ?%not_elem_of_nil]|].
    inversion Hs as [|? ? Hsf Hsfs]; inversion Hops as [|? ? Hopf Hopfs]; subst. cbn [existsb map].
    rewrite orb_true_iff, elem_of_cons, (IH Hsfs Hopfs). apply or_iff_compat_r. destruct f as [j k us]. cbn [label] in Hfm, Hopf.
    destruct (subtree_view ir literals _ _ _ Hsf) as [m' Hm']. pose proof (view_label_ok _ _ _ _ _ Hm') as Hok'.
    destruct (IrTrees.label_text _ Hok') as [text Et]; [by rewrite Hopf|]. unfold function_name, label_text. cbn [label].
    rewrite Et. subst k. cbn in Hopf, Et. rewrite Hopf, Et. cbn [bool_decide andb]. rewrite bool_decide_eq_true_2 by done.
    cbn. rewrite bytes_eqb_spec. by split. }
  destruct (existsb _ others) eqn:Ex.
  { cbn [returns]. split; [done|]. intros (_ & Hnot & [Hops _ _])%Hcons. destruct Hnot. by apply Hexists. }
  eapply returns_mono; [apply IH|]. intros wrong ->. rewrite Hcons. split; [|tauto]. intros Hd. split_and!; [|intros Hin; by apply Hexists in Hin; [rewrite Hin in Ex|apply Hd]|done].
  intros Em. rewrite Em in Emain, Edup. cbn in Emain, Edup. split; [by destruct (l_names l)|done].
Qed.

Lemma fresh_labels from to code : fresh from to code ->
  NoDup (labels code) /\ Forall (fun s => exists n, s = LocalLabel n) (labels code).
Proof.
  unfold fresh. intros [k Hk]%submseteq_Permutation.
  assert (NoDup (labels code ++ k)) as Hd.
  { rewrite <- Hk. apply NoDup_fmap_2; [by intros ? ? [=]|apply NoDup_seq]. }
  split; [by apply NoDup_app in Hd as [? _]|]. apply Forall_forall. intros s Hs.
  assert (s ∈ map LocalLabel (seq from (to - from))) as H by (rewrite Hk; apply elem_of_app; by left).
  apply list_elem_of_fmap in H as (n & -> & _). by exists n.
Qed.

(** The subset in the words of the declarations. *)
Lemma supported_program_iff : supported_program program = true <->
  declarations_ok (subtrees program) false /\ Forall (fun f => supported_function program f = true) (subtrees program).
Proof.
  unfold supported_program, find_declared. rewrite !andb_true_iff, !forallb_forall, bool_decide_eq_true, !Forall_forall.
  setoid_rewrite <- list_elem_of_In. setoid_rewrite bool_decide_eq_true.
  split.
  - intros [[[Hops Hd] Hm] Hf]. split; [|done]. constructor; [by apply Forall_forall|done|].
    destruct (find _ _) as [f|]; [|done]. split; [done|]. by destruct (l_names (label f)).
  - intros [[Hops Hd Hm] Hf]. rewrite Forall_forall in Hops. split_and!; [done..| |done].
    destruct (find _ _) as [f|]; [|done]. by destruct Hm as [_ ->].
Qed.

Lemma vnt_emit_freestanding_spec :
  Forall (fun f => initialised f = true) (subtrees program) ->
  returns (vnt_emit_freestanding_x86_64 ir) (fun r =>
    match r with
    | inl _ => ir_valid ir -> supported_program program = false
    | inr lines => supported_program program = true /\
        exists bodies, lines = program_lines ir program bodies /\ program_code ir program bodies
    end).
Proof.
  intros Hi. unfold vnt_emit_freestanding_x86_64. apply returns_bind.
  eapply returns_mono; [apply vnt_ir_validate_returns|]. intros [|] Hvalid; [|intros H; by apply Hvalid in H]. cbn [negb].
  pose proof program_subtree as Hs. pose proof program_fuel as Hfuel. rewrite (represents_root _ _ stored_program).
  pose proof supported_program_iff as Hcan.
  destruct program as [i l ts] eqn:EP. destruct (subtree_view ir literals _ _ _ Hs) as [n Hv]. cbn [index].
  rewrite (view_node _ _ _ _ _ Hv). cbn [mbind outcome_bind]. rewrite (view_children _ _ _ _ _ Hv).
  cbn [mbind outcome_bind]. apply returns_bind.
  pose proof (view_subtrees _ _ _ _ _ Hv) as Hts.
  eapply returns_mono; [by apply check_declarations_spec|]. intros [message|] Hdecl.
  { intros _. apply not_true_is_false. rewrite Hcan. intros [H _]. by apply Hdecl in H. }
  destruct (proj1 Hdecl eq_refl) as [Hops Hnames Hmain]. apply returns_bind.
  assert (Forall (fun f => length (indices f) <= emit_fuel ir) ts) as Hlen.
  { apply Forall_forall. intros f Hin. by apply Hfuel. }
  pose proof (emit_functions_spec ir (Tree i l ts) literals Hs (represents_root _ _ stored_program) ts
    empty_generator Hts Hlen Hops Hi eq_refl eq_refl) as H.
  apply wp_done in H as (u & g & -> & H). cbn [returns].
  destruct H as [[Hno Hf]|(Hall & bodies & Hb & [Hf _ _ Ho Hfr])]; rewrite Hf.
  { intros _. apply not_true_is_false. rewrite Hcan. by intros [_ H]. }
  cbn [returns]. split; [apply Hcan; by split; [apply Hdecl|]|].
  exists bodies. split; [rewrite Ho; unfold program_lines, data_lines; by rewrite <- app_assoc|].
  apply fresh_labels in Hfr as [Hd Hlocal]. constructor; try done.
  unfold find_declared. cbn [subtrees]. destruct (find _ ts) as [f|]; [|done]. exists f. by destruct Hmain.
Qed.

End whole.

(** The labels of a program are all different. *)
Lemma labels_cons line code : labels (line :: code) = labels [line] ++ labels code.
Proof. by rewrite <- labels_app. Qed.

Lemma labels_function f codes : labels (function_lines f codes) = FunctionSymbol (function_name f) :: labels (concat codes).
Proof.
  unfold function_lines, prologue, epilogue. rewrite !labels_app, labels_reserve. cbn [labels omap list_omap app].
  rewrite (labels_ins (fun p r => Ins MOVQ [Reg W64 r; slot p])) by done. cbn. by rewrite app_nil_r.
Qed.

Lemma labels_functions fs bodies : length fs = length bodies ->
  labels (concat (zip_with function_lines fs bodies)) ≡ₚ
  map (fun f => FunctionSymbol (function_name f)) fs ++ labels (concat (concat bodies)).
Proof.
  revert bodies. induction fs as [|f fs IH]; intros [|codes bodies]; try done. intros [= Hl]%eq_sym. cbn [zip_with concat map].
  rewrite labels_app, labels_function, IH by done. rewrite concat_app, labels_app. cbn [app].
  solve_Permutation.
Qed.

Lemma labels_strings ir : exists ids, labels (string_lines ir) = map StringLabel ids /\ NoDup ids.
Proof.
  unfold string_lines. set (f := fun (i : nat) (n : VntIrNode) => _).
  assert (forall l k, exists ids, labels (concat (imap (fun i => f (k + i)) l)) = map StringLabel ids /\
    NoDup ids /\ Forall (fun i => k <= i) ids) as H.
  { induction l as [|n l IH]; intros k.
    - exists []. split_and!; [done|constructor|constructor].
    - destruct (IH (S k)) as (ids & Hl & Hd & Hk). cbn [imap concat]. rewrite labels_app.
      replace (imap ((fun i => f (k + i)) ∘ S) l) with (imap (fun i => f (S k + i)) l)
        by (apply imap_ext; intros j x _; cbn; by rewrite Nat.add_succ_r).
      rewrite Hl, Nat.add_0_r. subst f. cbv beta.
      assert (Forall (fun i => k <= i) ids) by (eapply Forall_impl; [exact Hk|]; cbn; lia).
      destruct (opcode n); try (by exists ids). destruct (value n); try (by exists ids).
      exists (k :: ids). split_and!; [done| |by constructor]. constructor; [|done].
      intros Hin. rewrite Forall_forall in Hk. specialize (Hk k Hin). lia. }
  destruct (H (nodes ir) 0) as (ids & Hl & Hd & _). by exists ids.
Qed.

(** The labels come in groups. *)
Definition group (s : symbol) : nat :=
  match s with
  | Start => 0 | HaltForever => 1 | FunctionSymbol _ => 2 | LocalLabel _ => 3
  | ArithmeticFault => 4 | StringLabel _ => 5 | External _ => 6 | StackTop => 7
  end.

Lemma NoDup_groups n l1 l2 : NoDup l1 -> NoDup l2 -> Forall (fun s => group s <= n) l1 ->
  Forall (fun s => n < group s) l2 -> NoDup (l1 ++ l2).
Proof.
  intros H1 H2 Hle Hlt. apply NoDup_app. split_and!; [done| |done]. intros s Hs1 Hs2.
  rewrite Forall_forall in *. specialize (Hle s Hs1). specialize (Hlt s Hs2). lia.
Qed.

Lemma program_labels_nodup ir program bodies : program_code ir program bodies ->
  NoDup (labels (program_lines ir program bodies)).
Proof.
  intros [Hf _ _ Hn Hd Hloc]. unfold program_lines, data_lines. rewrite !labels_app.
  destruct (labels_strings ir) as (ids & -> & His). rewrite labels_functions by by apply Forall2_length in Hf.
  set (F := map (fun f => FunctionSymbol (function_name f)) (subtrees program)).
  set (L := labels (concat (concat bodies))) in *.
  assert (NoDup F) as HF.
  { unfold F. replace (map _ _) with (map FunctionSymbol (map function_name (subtrees program))) by by rewrite map_map.
    apply NoDup_fmap_2; [by intros ? ? [=]|done]. }
  assert (Forall (fun s => group s = 2) F) as GF by (apply Forall_map, Forall_forall; done).
  assert (Forall (fun s => group s = 3) L) as GL by (eapply Forall_impl; [exact Hloc|]; by intros s [n ->]).
  assert (NoDup (map StringLabel ids)) as HS by (apply NoDup_fmap_2; [by intros ? ? [=]|done]).
  assert (Forall (fun s => group s = 5) (map StringLabel ids)) as GS by (apply Forall_map, Forall_forall; done).
  assert (forall n (P : nat -> Prop) l, Forall (fun s => group s = n) l -> P n -> Forall (fun s => P (group s)) l) as G.
  { intros n P l Hl HP. eapply Forall_impl; [exact Hl|]. by intros s ->. }
  change (NoDup ([Start; HaltForever] ++ (F ++ L) ++ [ArithmeticFault] ++ map StringLabel ids ++
    [External (str "freestanding_stack_bottom"); StackTop])).
  assert (NoDup [Start; HaltForever]) as H1 by (repeat constructor; set_solver).
  assert (NoDup [External (str "freestanding_stack_bottom"); StackTop]) as H2 by (repeat constructor; set_solver).
  assert (NoDup [ArithmeticFault]) as H3 by (repeat constructor; set_solver).
  apply (NoDup_groups 1); [exact H1| |by repeat constructor|].
  - apply (NoDup_groups 3); [apply (NoDup_groups 2); [done..| |]| | |].
    + apply (G 2 (fun x => x <= 2)); [done|lia].
    + apply (G 3 (fun x => 2 < x)); [done|lia].
    + apply (NoDup_groups 4); [exact H3| |by repeat constructor|].
      * apply (NoDup_groups 5); [exact HS|exact H2| |by repeat constructor].
        apply (G 5 (fun x => x <= 5)); [done|lia].
      * apply Forall_app; split; [|by repeat constructor]. apply (G 5 (fun x => 4 < x)); [done|lia].
    + apply Forall_app; split; [apply (G 2 (fun x => x <= 3))|apply (G 3 (fun x => x <= 3))]; (done || lia).
    + repeat (apply Forall_app; split); [by repeat constructor| |by repeat constructor].
      apply (G 5 (fun x => 3 < x)); [done|lia].
  - repeat (apply Forall_app; split).
    + apply (G 2 (fun x => 1 < x)); [done|lia].
    + apply (G 3 (fun x => 1 < x)); [done|lia].
    + by repeat constructor; cbn; lia.
    + apply (G 5 (fun x => 1 < x)); [done|lia].
    + repeat constructor; cbn; lia.
Qed.
