(* ===== verification/AsmFacts.v ===== *)
(** AsmFacts: how the processor of Asm runs: words, memory, pieces of code at a place of the
    program, and runs of it. *)

From stdpp Require Import list sets.
From S2P Require Import Prelude Clib Ast Ir IrTrees Asm Freestanding FreestandingCode.
Local Open Scope Z_scope.

(** * Words *)

Lemma in_int64_bounds z : in_int64 z = true <-> - 2 ^ 63 <= z < 2 ^ 63.
Proof. unfold in_int64. rewrite andb_true_iff, !Z.leb_le. unfold INT64_MIN, INT64_MAX. lia. Qed.

Lemma wrap64_small z : in_int64 z = true -> wrap64 z = z.
Proof. rewrite in_int64_bounds. intros H. unfold wrap64. rewrite Z.mod_small; lia. Qed.

Lemma wrap64_range z : in_int64 (wrap64 z) = true.
Proof. rewrite in_int64_bounds. unfold wrap64. pose proof (Z.mod_pos_bound (z + 2 ^ 63) (2 ^ 64) ltac:(lia)). lia. Qed.

Lemma wrap64_idemp z : wrap64 (wrap64 z) = wrap64 z.
Proof. apply wrap64_small, wrap64_range. Qed.

Lemma wrap64_mod z : wrap64 (z mod 2 ^ 64) = wrap64 z.
Proof. unfold wrap64. by rewrite Z.add_mod_idemp_l. Qed.

Lemma low32_range z : 0 <= low32 z < 2 ^ 32.
Proof. apply Z.mod_pos_bound. lia. Qed.

Lemma low32_idemp z : low32 (low32 z) = low32 z.
Proof. apply Z.mod_mod. lia. Qed.

Lemma low32_word z : in_int64 (low32 z) = true.
Proof. rewrite in_int64_bounds. pose proof (low32_range z). lia. Qed.

Lemma low32_small z : 0 <= z < 2 ^ 32 -> low32 z = z.
Proof. apply Z.mod_small. Qed.

Lemma extended_word w v : in_int64 (extended w v) = true.
Proof.
  destruct w; cbn [extended]; [|apply low32_word|apply wrap64_range].
  rewrite in_int64_bounds. pose proof (Z.mod_pos_bound v (2 ^ 8) ltac:(lia)). lia.
Qed.

(** * Memory *)

Lemma store_outside n v a m a' : a' < a \/ a + Z.of_nat n <= a' -> store n v a m a' = m a'.
Proof.
  revert v a m. induction n as [|n IH]; intros v a m H; [done|]. cbn [store]. rewrite IH by lia.
  unfold set_byte. by rewrite (proj2 (Z.eqb_neq a' a)) by lia.
Qed.

Lemma load_ext n m m' a : (forall a', a <= a' < a + Z.of_nat n -> m a' = m' a') -> load n m a = load n m' a.
Proof.
  revert a. induction n as [|n IH]; intros a H; [done|]. cbn [load]. rewrite (H a) by lia.
  rewrite (IH (a + 1)); [done|]. intros a' Ha. apply H. lia.
Qed.

Lemma load_store_other n k v a m a' : a' + Z.of_nat n <= a \/ a + Z.of_nat k <= a' ->
  load n (store k v a m) a' = load n m a'.
Proof. intros H. apply load_ext. intros x Hx. apply store_outside. lia. Qed.

(** The low bytes of what was stored. *)
Lemma load_store_prefix k n v a m : (k <= n)%nat -> load k (store n v a m) a = v mod 2 ^ (8 * Z.of_nat k).
Proof.
  revert n v a m. induction k as [|k IH]; intros n v a m Hk; [by rewrite Z.mod_1_r|].
  destruct n as [|n]; [lia|]. cbn [load store]. rewrite IH by lia. rewrite store_outside by lia.
  unfold set_byte. rewrite Z.eqb_refl, Z.mod_mod by lia.
  replace (8 * Z.of_nat (S k)) with (8 + 8 * Z.of_nat k) by lia. rewrite Z.pow_add_r by lia.
  change (2 ^ 8) with 256. rewrite (Z.rem_mul_r v 256 (2 ^ (8 * Z.of_nat k))) by lia. done.
Qed.

Lemma load_store_same n v a m : load n (store n v a m) a = v mod 2 ^ (8 * Z.of_nat n).
Proof. by apply load_store_prefix. Qed.

Lemma load_word v a m : in_int64 v = true -> wrap64 (load 8 (store 8 v a m) a) = v.
Proof.
  intros H. rewrite load_store_same. change (2 ^ (8 * Z.of_nat 8)) with (2 ^ 64). by rewrite wrap64_mod, wrap64_small.
Qed.

Lemma store_pointwise n v a m m' x : m x = m' x -> store n v a m x = store n v a m' x.
Proof.
  revert v a m m'. induction n as [|n IH]; intros v a m m' H; [done|]. cbn [store]. apply IH. unfold set_byte.
  by destruct (x =? a).
Qed.

Lemma store_congruent n v v' a m : v mod 2 ^ (8 * Z.of_nat n) = v' mod 2 ^ (8 * Z.of_nat n) -> store n v a m = store n v' a m.
Proof.
  revert v v' a m. induction n as [|n IH]; intros v v' a m H; [done|]. cbn [store].
  replace (8 * Z.of_nat (S n)) with (8 + 8 * Z.of_nat n) in H by lia. rewrite Z.pow_add_r in H by lia.
  change (2 ^ 8) with 256 in H. rewrite !Z.rem_mul_r in H by lia.
  pose proof (Z.mod_pos_bound v 256 ltac:(lia)). pose proof (Z.mod_pos_bound v' 256 ltac:(lia)).
  assert (v mod 256 = v' mod 256) as -> by lia. apply IH. lia.
Qed.

(** * Code *)

Definition code_at (C : list Line) (p : nat) (code : list Line) : Prop :=
  exists before after, C = before ++ code ++ after /\ p = length before.

Lemma code_at_app C p c1 c2 : code_at C p (c1 ++ c2) -> code_at C p c1 /\ code_at C (p + length c1) c2.
Proof.
  intros (before & after & -> & ->). split.
  - exists before, (c2 ++ after). by rewrite <- !app_assoc.
  - exists (before ++ c1), after. rewrite <- !app_assoc, length_app. done.
Qed.

Lemma code_at_cons C p line code : code_at C p (line :: code) -> C !! p = Some line /\ code_at C (S p) code.
Proof.
  intros (before & after & -> & ->). split.
  - by apply list_lookup_middle.
  - exists (before ++ [line]), after. rewrite <- !app_assoc, length_app. cbn. split; [done|lia].
Qed.

Lemma code_at_single C p line : C !! p = Some line -> code_at C p [line].
Proof.
  intros H. exists (take p C), (drop (S p) C). rewrite length_take_le by (apply lookup_lt_Some in H; lia).
  split; [|done]. by rewrite <- (take_drop_middle C p line H) at 1.
Qed.

(** * Runs *)

Section runs.
Context (address : symbol -> Z) (code_address : nat -> Z) (code_index : Z -> option nat).
Context (C : list Line).

Abbreviation step := (step address code_address code_index C).
Abbreviation instruction := (instruction address code_address code_index C).

(** The processor comes to a state that satisfies [P]. *)
Inductive arrives (P : Cpu -> Prop) (s : Cpu) : Prop :=
  | arrives_now : P s -> arrives P s
  | arrives_later s' : step s = Next s' -> arrives P s' -> arrives P s.

Lemma arrives_mono (P Q : Cpu -> Prop) s : arrives P s -> (forall s', P s' -> Q s') -> arrives Q s.
Proof. induction 1; intros H'; [by apply arrives_now, H'|by eapply arrives_later; eauto]. Qed.

Lemma arrives_trans (P Q : Cpu -> Prop) s : arrives P s -> (forall s', P s' -> arrives Q s') -> arrives Q s.
Proof. induction 1; intros H'; [by apply H'|by eapply arrives_later; eauto]. Qed.

Definition line_step (line : Line) (s : Cpu) : Step :=
  match line with
  | Ins m operands => instruction m operands s
  | LabelLine _ | Directive _ => Next (advanced s)
  | Verbatim _ => Unmodelled
  end.

Lemma step_line line s : C !! pc s = Some line -> step s = line_step line s.
Proof. unfold Asm.step. intros ->. by destruct line. Qed.

(** Lines one after the other. *)
Inductive straight : list Line -> Cpu -> Cpu -> Prop :=
  | straight_nil s : straight [] s s
  | straight_cons line code s s1 s2 :
      line_step line s = Next s1 -> pc s1 = S (pc s) -> straight code s1 s2 -> straight (line :: code) s s2.

Lemma straight_arrives code s s' P : code_at C (pc s) code -> straight code s s' -> arrives P s' -> arrives P s.
Proof.
  intros Hc Hs. revert Hc. induction Hs as [s|line code s s1 s2 Hl Hp Hs IH]; intros Hc HP; [done|].
  apply code_at_cons in Hc as [Hline Hc]. eapply arrives_later; [by rewrite (step_line _ _ Hline)|].
  apply IH; [by rewrite Hp|done].
Qed.

Lemma straight_pc code s s' : straight code s s' -> pc s' = (pc s + length code)%nat.
Proof. induction 1 as [s|line code s s1 s2 Hl Hp Hs IH]; cbn; lia. Qed.

Lemma straight_join c1 c2 s s1 s2 : straight c1 s s1 -> straight c2 s1 s2 -> straight (c1 ++ c2) s s2.
Proof. induction 1; cbn; [done|]. intros H'. econstructor; eauto. Qed.

(** ** Labels *)

Lemma symbol_eqb_spec a b : symbol_eqb a b = true <-> a = b.
Proof.
  destruct a, b; cbn; try (split; [done|by intros [=]]); try done.
  - rewrite Nat.eqb_eq. split; [by intros ->|by intros [=]].
  - rewrite Nat.eqb_eq. split; [by intros ->|by intros [=]].
  - rewrite bytes_eqb_spec. split; [by intros ->|by intros [=]].
  - rewrite bytes_eqb_spec. split; [by intros ->|by intros [=]].
Qed.

Lemma is_label_spec s line : is_label s line = true <-> line = LabelLine s.
Proof.
  destruct line; cbn; try (split; [done|by intros [=]]). rewrite symbol_eqb_spec. split; [by intros ->|by intros [=]].
Qed.

Lemma lookup_labels i s : C !! i = Some (LabelLine s) -> s ∈ labels C.
Proof.
  intros H%list_elem_of_lookup_2. unfold labels. apply list_elem_of_omap. exists (LabelLine s). done.
Qed.

Lemma label_position_unique i s : NoDup (labels C) -> C !! i = Some (LabelLine s) -> label_position C s = Some i.
Proof.
  unfold label_position. revert i. induction C as [|line code IH]; intros i Hd Hi; [done|]. cbn [list_find].
  destruct i as [|i].
  - injection Hi as ->. rewrite decide_True by by apply is_label_spec. done.
  - destruct (decide (is_label s line = true)) as [E|E].
    + apply is_label_spec in E as ->. cbn in Hd. apply NoDup_cons in Hd as [Hn _]. exfalso. apply Hn.
      apply list_elem_of_omap. exists (LabelLine s). split; [by eapply list_elem_of_lookup_2|done].
    + assert (NoDup (labels code)) as Hd' by (destruct line; cbn in Hd; [done|by apply NoDup_cons in Hd as [_ ?]|done..]).
      specialize (IH i Hd' Hi). destruct (list_find _ code) as [[j l]|]; [|done]. cbn in IH |- *. by injection IH as ->.
Qed.
End runs.

(** ** Jumps *)

Section jumps.
Context (address : symbol -> Z) (code_address : nat -> Z) (code_index : Z -> option nat).
Context (C : list Line).
Hypothesis labels_unique : NoDup (labels C).

Abbreviation arrives := (arrives address code_address code_index C).

Lemma arrives_jump k t s P : C !! pc s = Some (Ins JMP [Target t]) -> C !! k = Some (LabelLine t) ->
  arrives P (set_pc k s) -> arrives P s.
Proof.
  intros Hp Hk HP. eapply arrives_later; [|exact HP]. rewrite (step_line _ _ _ _ _ _ Hp). cbn. unfold jump.
  by rewrite (label_position_unique _ _ _ labels_unique Hk).
Qed.

Lemma arrives_branch m k t c s P : C !! pc s = Some (Ins m [Target t]) -> C !! k = Some (LabelLine t) ->
  m ∈ [JE; JNE; JZ; JNZ; JO] -> condition_of m (flags s) = Some c ->
  (c = true -> arrives P (set_pc k s)) -> (c = false -> arrives P (advanced s)) -> arrives P s.
Proof.
  intros Hp Hk Hm Hc Ht Hf.
  assert (line_step address code_address code_index C (Ins m [Target t]) s =
    if c then Next (set_pc k s) else Next (advanced s)) as Hstep.
  { cbn [line_step]. set_unfold in Hm. unfold instruction, jump.
    destruct_or! Hm; subst m; rewrite Hc; rewrite (label_position_unique _ _ _ labels_unique Hk); by destruct c. }
  destruct c; (eapply arrives_later; [by rewrite (step_line _ _ _ _ _ _ Hp), Hstep|]); auto.
Qed.

Lemma arrives_call k t s P : C !! pc s = Some (Ins CALL [Target t]) -> C !! k = Some (LabelLine t) ->
  arrives P (set_pc k (push (code_address (S (pc s))) s)) -> arrives P s.
Proof.
  intros Hp Hk HP. eapply arrives_later; [|exact HP]. rewrite (step_line _ _ _ _ _ _ Hp). cbn. unfold jump.
  by rewrite (label_position_unique _ _ _ labels_unique Hk).
Qed.

(** A label is passed. *)
Lemma arrives_pass s P : (exists t, C !! pc s = Some (LabelLine t)) \/ (exists text, C !! pc s = Some (Directive text)) ->
  arrives P (advanced s) -> arrives P s.
Proof.
  intros [[t H]|[t H]] HP; (eapply arrives_later; [by rewrite (step_line _ _ _ _ _ _ H)|exact HP]).
Qed.
End jumps.
