(* ===== verification/FreestandingSteps.v ===== *)
(** FreestandingSteps: runs of the pieces of code that the back end puts together: what they
    do to the registers, the stack and the memory, and how a run follows the meaning of a
    program. *)

From stdpp Require Import list sets gmap.
From S2P Require Import Prelude Clib Ast Ir IrTrees IrFacts HirSemantics Asm.
From S2P Require Import Freestanding FreestandingRuns FreestandingCode FreestandingEmit FreestandingProgram AsmFacts.
Local Open Scope Z_scope.

(** * Words *)

Definition word (v : Z) : Prop := - 2 ^ 63 <= v < 2 ^ 63.

Lemma wrap_word v : word v -> wrap64 v = v.
Proof. intros H. by apply wrap64_small, in_int64_bounds. Qed.

Lemma word_wrap v : word (wrap64 v).
Proof. apply in_int64_bounds, wrap64_range. Qed.

Lemma word_low32 v : word (low32 v).
Proof. apply in_int64_bounds, low32_word. Qed.

#[local] Arguments wrap64 : simpl never.
#[local] Arguments low32 : simpl never.
#[local] Arguments load : simpl never.
#[local] Arguments store : simpl never.
#[local] Arguments overflows : simpl never.
#[local] Arguments word : simpl never.

Ltac range := unfold word in *; lia.

(** Words that are in range already. *)
Ltac words := repeat match goal with |- context [wrap64 ?v] => rewrite (wrap_word v) by range end.

(** The registers and the memory after straight code, from equations [H]. *)
Ltac run_lines := repeat (eapply straight_cons; [reflexivity|reflexivity|]); apply straight_nil.
Ltac cpu_state := unfold effective_address; cbn [registers memory flags pc advanced set_register set_flags set_memory
  set_pc register_eqb push pop width_bytes extended option_map default id condition_of ZF SF OF result_flags];
  rewrite ?Z.add_0_l, ?Z.add_0_r.

(** * The machine *)

(** How a program is put into the memory of a machine: its symbols, its code, with the way
    back from a return address, the addresses that the program must not use, and the
    stack, from [lo] to [hi]. *)
Class Layout := {
  symbol_place : symbol -> Z;
  code_place : nat -> Z;
  code_index : Z -> option nat;
  private : Z -> bool;
  lo : Z;
  hi : Z;
  image : list Line
}.

Class LayoutLaws {L : Layout} : Prop := {
  stack_private a : lo <= a < hi -> private a = true;
  stack_low : - 2 ^ 63 <= lo;
  stack_high : hi < 2 ^ 63;
  stack_size : hi - lo < 2 ^ 31;
  labels_unique : NoDup (labels image);
  fault_code : exists k, image !! k = Some (LabelLine ArithmeticFault) /\ image !! S k = Some (Ins UD2 []);
  return_index n : (n <= length image)%nat -> code_index (wrap64 (code_place n)) = Some n
}.

Section machine.
Context {L : Layout} {Laws : LayoutLaws}.

Abbreviation straight := (straight symbol_place code_place code_index image).
Abbreviation arrives := (arrives symbol_place code_place code_index image).
Abbreviation step := (step symbol_place code_place code_index image).

(** * Runs and states *)

(** The memory that a program may use is the same. *)
Definition agrees (m m' : Memory) : Prop := forall a, private a = false -> m a = m' a.

(** An arithmetic fault: the processor is stopped by the instruction ud2 after the label
    .Lvnt_arithmetic_fault, and by no other, so that no division has faulted. *)
Definition faulted (st : FsState) (s : Cpu) : Prop :=
  exists k, image !! k = Some (LabelLine ArithmeticFault) /\ image !! S k = Some (Ins UD2 []) /\
    pc s = S k /\ step s = Exception s /\ agrees (heap st) (memory s).

(** The processor does what a run says. *)
Definition follows {A} (r : run FsState A) (Q : A -> FsState -> Cpu -> Prop) (s : Cpu) : Prop :=
  match r with
  | Goes a st => arrives (Q a st) s
  | Halts _ st => arrives (faulted st) s
  | Crashes | Unfinished => True
  end.

Lemma follows_bind {A B} (m : FsExec A) (k : A -> FsExec B) st s P Q :
  follows (m st) P s -> (forall a st' s', P a st' s' -> follows (k a st') Q s') -> follows ((m ≫= k) st) Q s.
Proof.
  unfold mbind, Exec_bind. destruct (m st) as [a st'|message st'| |]; cbn; try done. intros H Hk.
  specialize (Hk a st'). destruct (k a st') as [b st''|message st''| |]; cbn in *; try done;
    (eapply arrives_trans; [exact H|exact Hk]).
Qed.

Lemma follows_mono {A} (r : run FsState A) (P Q : A -> FsState -> Cpu -> Prop) s :
  follows r P s -> (forall a st' s', P a st' s' -> Q a st' s') -> follows r Q s.
Proof. destruct r; cbn; try done. intros H HPQ. eapply arrives_mono; [exact H|]. auto. Qed.

Lemma follows_straight {A} (r : run FsState A) Q code s :
  code_at image (pc s) code -> (exists s', straight code s s' /\ follows r Q s') -> follows r Q s.
Proof.
  intros Hc (s' & Hs & HQ). destruct r; cbn in *; try done; by eapply straight_arrives.
Qed.

Lemma arrives_straight code s P :
  code_at image (pc s) code -> (exists s', straight code s s' /\ arrives P s') -> arrives P s.
Proof. intros Hc (s' & Hs & HP). by eapply straight_arrives. Qed.

(** Below the top of the stack, memory may change. *)
Definition kept_above (sp : Z) (m m' : Memory) : Prop := forall a, a < lo \/ sp <= a -> m' a = m a.

Lemma kept_agrees sp m m' h : sp <= hi -> kept_above sp m m' -> agrees h m -> agrees h m'.
Proof.
  intros Hsp Hk Ha a Hp. rewrite (Ha a Hp). symmetry. apply Hk.
  destruct (decide (lo <= a < hi)) as [H|H]; [|lia]. by rewrite (stack_private a H) in Hp.
Qed.

Lemma kept_trans sp m m' m'' : kept_above sp m m' -> kept_above sp m' m'' -> kept_above sp m m''.
Proof. intros H1 H2 a Ha. by rewrite H2, H1. Qed.

Lemma kept_below sp sp' m m' : sp' <= sp -> kept_above sp' m m' -> kept_above sp m m'.
Proof. intros H Hk a Ha. apply Hk. lia. Qed.

Lemma kept_store n v a sp m : lo <= a -> a + Z.of_nat n <= sp -> kept_above sp m (store n v a m).
Proof. intros H1 H2 a' Ha. apply store_outside. lia. Qed.

Lemma kept_same sp m : kept_above sp m m.
Proof. by intros a _. Qed.

(** The variables of the running function, and its frame: the base, and the variables in
    their slots. *)
Section frame.
Context (program : tree) (vs : list (bytes * bytes)).

Definition slot_address (b : Z) (vi : nat) : Z := b - (Z.of_nat vi + 1) * 8.

Definition slot_value (b : Z) (vi : nat) (m : Memory) : Z :=
  if wide_at vs vi then wrap64 (load 8 m (slot_address b vi)) else low32 (load 4 m (slot_address b vi)).

Definition in_slots (b : Z) (ls : gmap bytes Z) (m : Memory) : Prop :=
  forall x v, ls !! x = Some v -> exists vi, index_of x vs = Some vi /\ slot_value b vi m = v.

Definition slots_size : Z := 8 * Z.of_nat (length vs).

(** The processor is at [p], with the top and the base of the stack. *)
Record stands (p : nat) (sp b : Z) (st : FsState) (s : Cpu) : Prop := {
  stands_pc : pc s = p;
  stands_top : registers s RSP = sp;
  stands_base : registers s RBP = b;
  stands_heap : agrees (heap st) (memory s);
  stands_slots : in_slots b (locals st) (memory s);
  stands_frame : sp + slots_size <= b < hi
}.

Lemma slot_value_word b vi m : word (slot_value b vi m).
Proof. unfold slot_value. destruct (wide_at vs vi); [apply word_wrap|apply word_low32]. Qed.

Lemma index_of_lt x vi : index_of x vs = Some vi -> (vi < length vs)%nat.
Proof. intros (type & H)%index_of_lookup. by eapply lookup_lt_Some. Qed.

(** Another place, another top of the stack, another heap. *)
Lemma stands_change p sp b st s p' sp' st' s' : stands p sp b st s ->
  pc s' = p' -> registers s' RSP = sp' -> registers s' RBP = registers s RBP -> sp' + slots_size <= b ->
  locals st' = locals st -> agrees (heap st') (memory s') ->
  (forall a, b - slots_size <= a < hi -> memory s' a = memory s a) -> stands p' sp' b st' s'.
Proof.
  intros [Hp Ht Hb Hh Hs Hf] Hp' Ht' Hb' Hf' Hl Hh' Hm. constructor; [done|done|by rewrite Hb'|done| |lia].
  intros x v Hx. rewrite Hl in Hx. destruct (Hs x v Hx) as (vi & Hvi & Hv). exists vi. split; [done|]. rewrite <- Hv.
  apply index_of_lt in Hvi. unfold slot_value, slot_address, slots_size in *.
  assert (forall n, (n <= 8)%nat -> load n (memory s') (b - (Z.of_nat vi + 1) * 8) = load n (memory s) (b - (Z.of_nat vi + 1) * 8)) as H.
  { intros n Hn. apply load_ext. intros a Ha. apply Hm. lia. }
  by rewrite !H by lia.
Qed.

Lemma stands_move p sp b st s p' sp' s' : stands p sp b st s ->
  pc s' = p' -> registers s' RSP = sp' -> registers s' RBP = registers s RBP ->
  sp' + slots_size <= b -> kept_above sp (memory s) (memory s') -> stands p' sp' b st s'.
Proof.
  intros Hs Hp' Ht' Hb' Hf' Hk. pose proof (stands_frame _ _ _ _ _ Hs). pose proof (Zle_0_nat (length vs)).
  unfold slots_size in *. eapply stands_change; [exact Hs|done..| |].
  - eapply kept_agrees; [|exact Hk|apply Hs]. lia.
  - intros a Ha. apply Hk. unfold slots_size in Ha. lia.
Qed.

(** An expression has been evaluated. *)
Record evaluated (p : nat) (sp b : Z) (m : Memory) (v : Z) (st : FsState) (s : Cpu) : Prop := {
  evaluated_stands : stands p sp b st s;
  evaluated_value : registers s RAX = v;
  evaluated_word : word v;
  evaluated_above : forall a, sp <= a < hi -> memory s a = m a
}.
Lemma stands_words p sp b st s : stands p sp b st s -> lo <= sp -> word sp /\ word b.
Proof.
  intros [_ _ _ _ _ Hf] Hlo. pose proof (stack_low). pose proof (stack_high).
  pose proof (Zle_0_nat (length vs)). unfold slots_size in Hf. range.
Qed.

(** * Pieces of code *)

(** Code that only puts a value into RAX. *)
Lemma value_runs p sp b st s code v : stands p sp b st s -> code_at image p code -> word v ->
  (exists s', straight code s s' /\ registers s' RAX = v /\ registers s' RSP = registers s RSP /\
     registers s' RBP = registers s RBP /\ memory s' = memory s) ->
  arrives (evaluated (p + length code) sp b (memory s) v st) s.
Proof.
  intros Hs Hc Hv (s' & Hrun & Hax & Hsp & Hbp & Hm). eapply arrives_straight; [by rewrite (stands_pc _ _ _ _ _ Hs)|].
  exists s'. split; [done|]. apply arrives_now. constructor; [|done|done|by rewrite Hm].
  pose proof (stands_frame _ _ _ _ _ Hs).
  eapply stands_move; [done| | |done|lia|by rewrite Hm].
  - by rewrite (straight_pc _ _ _ _ _ _ _ Hrun), (stands_pc _ _ _ _ _ Hs).
  - by rewrite Hsp, (stands_top _ _ _ _ _ Hs).
Qed.

Lemma keep_left_straight v sp s : registers s RAX = v -> registers s RSP = sp -> word v -> word sp -> word (sp - 16) ->
  exists s', straight keep_left s s' /\ registers s' RSP = sp - 16 /\ registers s' RBP = registers s RBP /\
    memory s' = store 8 v (sp - 16) (memory s).
Proof.
  intros Hv Ht Wv Wsp Wsp'. eexists. split; [run_lines|]. cpu_state. rewrite Hv, Ht. words. done.
Qed.

Lemma keep_left_runs p sp b m v st s : evaluated p sp b m v st s -> code_at image p keep_left -> lo <= sp - 16 ->
  arrives (fun s' => stands (p + 2) (sp - 16) b st s' /\ wrap64 (load 8 (memory s') (sp - 16)) = v /\
    forall a, sp <= a < hi -> memory s' a = m a) s.
Proof.
  intros [Hs Hv Wv Hm] Hc Hlo. pose proof (stands_words _ _ _ _ _ Hs ltac:(lia)) as [Wsp _].
  destruct (keep_left_straight v sp s Hv (stands_top _ _ _ _ _ Hs) Wv Wsp) as (s' & Hrun & Ht & Hb & Hm').
  { pose proof (stack_low). range. }
  eapply arrives_straight; [by rewrite (stands_pc _ _ _ _ _ Hs)|]. exists s'. split; [done|]. apply arrives_now. split_and!.
  - eapply stands_move; [exact Hs|by rewrite (straight_pc _ _ _ _ _ _ _ Hrun), (stands_pc _ _ _ _ _ Hs)|done|done| |].
    + pose proof (stands_frame _ _ _ _ _ Hs). lia.
    + rewrite Hm'. apply kept_store; lia.
  - rewrite Hm'. apply load_word. by apply in_int64_bounds.
  - intros a Ha. rewrite Hm', store_outside by lia. by apply Hm.
Qed.

(** Two operands: the left one in RAX and the right one in RCX. *)
Record ready (p : nat) (sp b : Z) (m : Memory) (x y : Z) (st : FsState) (s : Cpu) : Prop := {
  ready_stands : stands p sp b st s;
  ready_left : registers s RAX = x;
  ready_right : registers s RCX = y;
  ready_words : word x /\ word y;
  ready_above : forall a, sp <= a < hi -> memory s a = m a
}.

Lemma take_left_straight y sp s : registers s RAX = y -> registers s RSP = sp -> word y -> word sp -> word (sp + 16) ->
  exists s', straight take_left s s' /\ registers s' RAX = wrap64 (load 8 (memory s) sp) /\ registers s' RCX = y /\
    registers s' RSP = sp + 16 /\ registers s' RBP = registers s RBP /\ memory s' = memory s.
Proof.
  intros Hv Ht Wv Wsp Wsp'. eexists. split; [run_lines|]. cpu_state. rewrite Hv, Ht. words. rewrite wrap64_idemp. done.
Qed.

Lemma take_left_runs p sp b m x y st s : evaluated p (sp - 16) b m y st s -> code_at image p take_left ->
  lo <= sp - 16 -> sp + slots_size <= b -> wrap64 (load 8 m (sp - 16)) = x ->
  arrives (ready (p + 3) sp b m x y st) s.
Proof.
  intros [Hs Hv Wv Hm] Hc Hlo Hf Hx. pose proof (stands_words _ _ _ _ _ Hs ltac:(lia)) as [Wsp Wb].
  pose proof (stands_frame _ _ _ _ _ Hs) as Hfr. pose proof (Zle_0_nat (length vs)). unfold slots_size in *.
  destruct (take_left_straight y (sp - 16) s Hv (stands_top _ _ _ _ _ Hs) Wv Wsp) as (s' & Hrun & Hax & Hcx & Ht & Hb & Hm').
  { range. }
  assert (registers s' RAX = x) as Hax'.
  { rewrite Hax, <- Hx. f_equal. apply load_ext. intros a Ha. apply Hm. lia. }
  eapply arrives_straight; [by rewrite (stands_pc _ _ _ _ _ Hs)|]. exists s'. split; [done|]. apply arrives_now.
  constructor; [|done|done|split; [rewrite <- Hx; apply word_wrap|done]|].
  - eapply stands_move; [exact Hs|by rewrite (straight_pc _ _ _ _ _ _ _ Hrun), (stands_pc _ _ _ _ _ Hs)| |done| |].
    + rewrite Ht. lia.
    + unfold slots_size. lia.
    + by rewrite Hm'.
  - intros a Ha. rewrite Hm'. apply Hm. lia.
Qed.

(** ** Faults *)

Lemma faults st s k : image !! k = Some (LabelLine ArithmeticFault) -> image !! S k = Some (Ins UD2 []) ->
  agrees (heap st) (memory s) -> arrives (faulted st) (set_pc k s).
Proof.
  intros H1 H2 Hh. eapply arrives_later; [by rewrite (step_line _ _ _ _ (LabelLine ArithmeticFault))|].
  apply arrives_now. exists k. split_and!; try done. by rewrite (step_line _ _ _ _ (Ins UD2 [])).
Qed.

(** A jump to the exception, if a condition holds. *)
Lemma fault_branch {A} (r : run FsState A) Q st m c s :
  image !! pc s = Some (Ins m [Target ArithmeticFault]) -> m ∈ [JE; JNE; JZ; JNZ; JO] ->
  condition_of m (flags s) = Some c -> agrees (heap st) (memory s) ->
  (c = true -> exists message, r = Halts message st) -> (c = false -> follows r Q (advanced s)) -> follows r Q s.
Proof.
  intros Hp Hm Hc Hh Ht Hf. destruct (fault_code) as (k & Hk & Hk').
  assert (forall P, (c = true -> arrives P (set_pc k s)) -> (c = false -> arrives P (advanced s)) -> arrives P s) as Hb.
  { intros P. eapply arrives_branch; [apply labels_unique|exact Hp|exact Hk|done|done]. }
  destruct c.
  - destruct (Ht eq_refl) as [message ->]. cbn. apply Hb; [|done]. intros _. by apply faults.
  - specialize (Hf eq_refl). destruct r; cbn in *; try done; (apply Hb; [done|auto]).
Qed.

(** ** Truth values *)

Lemma set_straight set c v s : set ∈ [SETE; SETNE; SETG; SETL; SETGE; SETLE] ->
  condition_of set (flags s) = Some c -> registers s RAX = v ->
  exists s', straight [Ins set [al]; Ins MOVZBL [al; eax]] s s' /\ registers s' RAX = Z.b2z c /\
    registers s' RSP = registers s RSP /\ registers s' RBP = registers s RBP /\ memory s' = memory s.
Proof.
  intros Hset Hc Hv.
  assert (line_step symbol_place code_place code_index image (Ins set [al]) s =
    next (write_operand W8 al (Z.b2z c) s)) as Hline.
  { set_unfold in Hset. destruct_or! Hset; subst set; cbn [line_step]; unfold instruction; by rewrite Hc. }
  eexists. split.
  { eapply straight_cons; [rewrite Hline; reflexivity|reflexivity|]. run_lines. }
  cpu_state. split_and!; [|done..]. rewrite Hv. cbn [al]. destruct c; cbn [Z.b2z].
  - assert ((v - v mod 2 ^ 8 + 1 mod 2 ^ 8) mod 2 ^ 8 = 1) as ->.
    { rewrite Z.add_mod, Zminus_mod_idemp_r by lia. by rewrite Z.sub_diag. }
    done.
  - assert ((v - v mod 2 ^ 8 + 0 mod 2 ^ 8) mod 2 ^ 8 = 0) as ->.
    { rewrite Z.add_mod, Zminus_mod_idemp_r by lia. by rewrite Z.sub_diag. }
    done.
Qed.

Lemma word_bool c : word (Z.b2z c).
Proof. destruct c; cbn; range. Qed.

(** ** Operations *)

Lemma ready_goto p k sp b m x y st s : ready p sp b m x y st s -> ready k sp b m x y st (set_pc k s).
Proof. intros [[] ? ? ? ?]. by constructor. Qed.

Lemma ready_next p sp b m x y st s : ready p sp b m x y st s -> ready (S p) sp b m x y st (advanced s).
Proof. intros H. unfold advanced. rewrite (stands_pc _ _ _ _ _ (ready_stands _ _ _ _ _ _ _ _ H)). by eapply ready_goto. Qed.

(** Lines that only set flags, or RDX. *)
Lemma ready_straight p sp b m x y st s code s' : ready p sp b m x y st s -> straight code s s' ->
  registers s' RAX = registers s RAX -> registers s' RCX = registers s RCX ->
  registers s' RSP = registers s RSP -> registers s' RBP = registers s RBP -> memory s' = memory s ->
  ready (p + length code) sp b m x y st s'.
Proof.
  intros [Hs Hx Hy Hw Hm] Hrun Ha Hc Ht Hb Hm'. pose proof (stands_frame _ _ _ _ _ Hs).
  constructor; [|by rewrite Ha|by rewrite Hc|done|by rewrite Hm'].
  eapply stands_move; [exact Hs| | |done|lia|by rewrite Hm'].
  - by rewrite (straight_pc _ _ _ _ _ _ _ Hrun), (stands_pc _ _ _ _ _ Hs).
  - by rewrite Ht, (stands_top _ _ _ _ _ Hs).
Qed.

Lemma ready_value p sp b m x y st s code v : ready p sp b m x y st s -> code_at image p code -> word v ->
  (exists s', straight code s s' /\ registers s' RAX = v /\ registers s' RSP = registers s RSP /\
     registers s' RBP = registers s RBP /\ memory s' = memory s) ->
  arrives (evaluated (p + length code) sp b m v st) s.
Proof.
  intros [Hs _ _ _ Hm] Hc Wv Hrun. eapply arrives_mono; [by eapply value_runs|].
  intros s' [Hs' Hv _ Hm']. constructor; [done..|]. intros a Ha. rewrite Hm' by done. by apply Hm.
Qed.

Lemma ready_pc p sp b m x y st s : ready p sp b m x y st s -> pc s = p.
Proof. intros H. apply (ready_stands _ _ _ _ _ _ _ _ H). Qed.

Lemma ready_heap p sp b m x y st s : ready p sp b m x y st s -> agrees (heap st) (memory s).
Proof. intros H. apply (ready_stands _ _ _ _ _ _ _ _ H). Qed.

(** What CMP finds out. *)
Definition compared (x y : Z) (s : Cpu) : Prop :=
  flags s = result_flags (wrap64 (x - y)) (Some (overflows (x - y))).

Lemma compared_zero x y : word x -> word y -> (wrap64 (x - y) =? 0) = (x =? y).
Proof.
  intros Wx Wy. apply eq_true_iff_eq. rewrite !Z.eqb_eq. unfold wrap64, word in *. split; [|intros ->; by rewrite Z.sub_diag].
  intros H. destruct (decide (- 2 ^ 63 <= x - y < 2 ^ 63)) as [H'|H'].
  - rewrite Z.mod_small in H by lia. lia.
  - destruct (decide (x - y < 0)).
    + replace (x - y + 2 ^ 63) with (x - y + 2 ^ 63 + 2 ^ 64 + (-1) * 2 ^ 64) in H by lia.
      rewrite Z.mod_add, Z.mod_small in H by lia. lia.
    + replace (x - y + 2 ^ 63) with (x - y + 2 ^ 63 - 2 ^ 64 + 1 * 2 ^ 64) in H by lia.
      rewrite Z.mod_add, Z.mod_small in H by lia. lia.
Qed.

Lemma compared_less x y : word x -> word y -> xorb (wrap64 (x - y) <? 0) (overflows (x - y)) = (x <? y).
Proof.
  intros Wx Wy. unfold overflows. destruct (in_int64 (x - y)) eqn:E.
  - rewrite wrap64_small by done. rewrite xorb_false_r. apply eq_true_iff_eq. rewrite !Z.ltb_lt. lia.
  - rewrite xorb_true_r. apply eq_true_iff_eq. rewrite negb_true_iff, Z.ltb_ge, Z.ltb_lt.
    assert (~ word (x - y)) as H by (intros H%in_int64_bounds; congruence).
    unfold wrap64, word in *. destruct (decide (x - y < 0)).
    + replace (x - y + 2 ^ 63) with (x - y + 2 ^ 63 + 2 ^ 64 + (-1) * 2 ^ 64) by lia.
      rewrite Z.mod_add, Z.mod_small by lia. lia.
    + replace (x - y + 2 ^ 63) with (x - y + 2 ^ 63 - 2 ^ 64 + 1 * 2 ^ 64) by lia.
      rewrite Z.mod_add, Z.mod_small by lia. lia.
Qed.

Lemma comparison_runs p sp b m x y st s op set :
  (op, set) ∈ [(BINARY_EQUAL, SETE); (BINARY_NOT_EQUAL, SETNE); (BINARY_GREATER, SETG);
               (BINARY_LESS, SETL); (BINARY_GREATER_EQUAL, SETGE); (BINARY_LESS_EQUAL, SETLE)] ->
  ready p sp b m x y st s -> code_at image p [Ins CMPQ [rcx; rax]; Ins set [al]; Ins MOVZBL [al; eax]] ->
  follows (fs_binary op x y st) (evaluated (p + 3) sp b m) s.
Proof.
  intros Hop Hr Hc. destruct (ready_words _ _ _ _ _ _ _ _ Hr) as [Wx Wy].
  pose proof (ready_left _ _ _ _ _ _ _ _ Hr) as Hx. pose proof (ready_right _ _ _ _ _ _ _ _ Hr) as Hy.
  assert (exists s1, straight [Ins CMPQ [rcx; rax]] s s1 /\ compared x y s1 /\ registers s1 = registers s /\ memory s1 = memory s)
    as (s1 & Hrun & Hcmp & Hregs & Hmem).
  { eexists. split; [run_lines|]. unfold compared. cpu_state. rewrite Hx, Hy. words. done. }
  assert (exists c, fs_binary op x y st = Goes (Z.b2z c) st /\ condition_of set (flags s1) = Some c /\
    set ∈ [SETE; SETNE; SETG; SETL; SETGE; SETLE]) as (c & -> & Hcond & Hset).
  { rewrite Hcmp. set_unfold in Hop. destruct_or! Hop; injection Hop as -> ->; cbn [condition_of result_flags ZF SF OF];
      cbn [mbind option_bind fmap option_fmap option_map]; rewrite ?compared_zero, ?compared_less by done;
      (eexists; split; [reflexivity|split; [|by repeat constructor]]); f_equal.
    all: apply eq_true_iff_eq; rewrite ?andb_true_iff, ?orb_true_iff, ?negb_true_iff, ?Z.ltb_lt, ?Z.leb_le, ?Z.eqb_neq, ?Z.eqb_eq, ?Z.ltb_ge; lia. }
  destruct (set_straight set c x s1 Hset Hcond) as (s2 & Hrun2 & Hax & Hsp & Hbp & Hm); [by rewrite Hregs|].
  cbn. eapply (ready_value _ _ _ _ _ _ _ _ [Ins CMPQ [rcx; rax]; Ins set [al]; Ins MOVZBL [al; eax]]);
    [exact Hr|exact Hc|apply word_bool|].
  exists s2. split; [by apply (straight_join _ _ _ _ [_] _ _ _ _ Hrun Hrun2)|]. by rewrite Hsp, Hbp, Hm, Hregs, Hmem.
Qed.

(** An instruction that computes a number into RAX, and a jump if it has overflowed. *)
Lemma overflow_runs p sp b m st s line z : stands p sp b st s -> (forall a, sp <= a < hi -> memory s a = m a) ->
  code_at image p [line; jump_to_fault] ->
  (exists s', straight [line] s s' /\ registers s' RAX = wrap64 z /\ OF (flags s') = Some (overflows z) /\
     registers s' RSP = registers s RSP /\ registers s' RBP = registers s RBP /\ memory s' = memory s) ->
  follows (in_word z st) (evaluated (p + 2) sp b m) s.
Proof.
  intros Hs Hm Hc (s' & Hrun & Hax & Hof & Ht & Hb & Hm').
  pose proof (stands_pc _ _ _ _ _ Hs) as Hp. pose proof (straight_pc _ _ _ _ _ _ _ Hrun) as Hp'. cbn in Hp'.
  pose proof Hc as Hc2. apply code_at_cons in Hc as [_ Hc]. apply code_at_cons in Hc as [Hj _].
  eapply (follows_straight _ _ [line]).
  { rewrite Hp. by apply (code_at_app image p [line] [jump_to_fault]). }
  exists s'. split; [done|].
  assert (forall p', stands p' sp b st (set_pc p' s')) as Hs'.
  { intros p'. pose proof (stands_frame _ _ _ _ _ Hs).
    eapply stands_move; [exact Hs|done| |done|lia|by cbn; rewrite Hm']. cbn. by rewrite Ht, (stands_top _ _ _ _ _ Hs). }
  eapply (fault_branch _ _ st JO); [|by repeat constructor|exact Hof| | |].
  - rewrite Hp', Hp. replace (p + 1)%nat with (S p) by lia. exact Hj.
  - apply (stands_heap _ _ _ _ _ (Hs' p)).
  - intros H. unfold in_word. unfold overflows in H. apply negb_true_iff in H. rewrite H. by eexists.
  - intros H. unfold in_word. unfold overflows in H. apply negb_false_iff in H. rewrite H. apply arrives_now.
    assert (advanced s' = set_pc (p + 2) s') as -> by (unfold advanced; rewrite Hp', Hp; f_equal; lia).
    constructor; [apply Hs'|cbn; by rewrite Hax, wrap64_small|by apply in_int64_bounds|]. intros a Ha. cbn. rewrite Hm'. by apply Hm.
Qed.

Lemma overflowing_runs p sp b m x y st s op i :
  (op, i) ∈ [(BINARY_ADD, ADDQ); (BINARY_SUBTRACT, SUBQ); (BINARY_MULTIPLY, IMULQ)] ->
  ready p sp b m x y st s -> code_at image p [Ins i [rcx; rax]; jump_to_fault] ->
  follows (fs_binary op x y st) (evaluated (p + 2) sp b m) s.
Proof.
  intros Hop [Hs Hx Hy [Wx Wy] Hm] Hc.
  set_unfold in Hop. destruct_or! Hop; injection Hop as -> ->; cbn [fs_binary];
    (eapply overflow_runs; [exact Hs|exact Hm|exact Hc|]); eexists; (split; [run_lines|]); cpu_state;
    rewrite Hx, Hy; words; done.
Qed.

Lemma negate_runs p sp b m x st s : evaluated p sp b m x st s -> code_at image p [Ins NEGQ [rax]; jump_to_fault] ->
  follows (fs_unary UNARY_NEGATE x st) (evaluated (p + 2) sp b m) s.
Proof.
  intros [Hs Hx Wx Hm] Hc. eapply overflow_runs; [exact Hs|exact Hm|exact Hc|].
  eexists. split; [run_lines|]. cpu_state. rewrite Hx. words. done.
Qed.

(** Division: the two cases that the processor does not accept are tested before it. *)
Lemma quotient_word x y : word x -> word y -> y <> 0 -> ~ (x = INT64_MIN /\ y = -1) -> word (Z.quot x y).
Proof.
  intros Wx Wy Hy H. unfold word, INT64_MIN in *. pose proof (Z.quot_abs x y Hy) as Ha.
  assert (Z.abs x ÷ Z.abs y <= Z.abs x) as Hle by (apply Z.quot_le_upper_bound; nia).
  assert (0 <= Z.abs x ÷ Z.abs y) by (apply Z.quot_pos; lia).
  destruct (decide (x = - 2 ^ 63)) as [->|]; [|lia].
  assert (y <> -1) by naive_solver. destruct (decide (y = 1)) as [->|]; [rewrite Z.quot_1_r; lia|].
  assert (Z.abs (- 2 ^ 63) ÷ Z.abs y < 2 ^ 63); [|lia].
  apply Z.quot_lt_upper_bound; nia.
Qed.

Lemma remainder_word x y : word x -> word y -> y <> 0 -> word (Z.rem x y).
Proof.
  intros Wx Wy Hy. unfold word in *. pose proof (Z.rem_bound_abs x y Hy). lia.
Qed.

Lemma dividend_word x : word x -> (if x <? 0 then -1 else 0) * 2 ^ 64 + x mod 2 ^ 64 = x.
Proof.
  intros Wx. unfold word in Wx. destruct (Z.ltb_spec x 0) as [H|H].
  - replace x with (x + 2 ^ 64 + (-1) * 2 ^ 64) at 1 by lia. rewrite Z.mod_add, Z.mod_small by lia. lia.
  - rewrite Z.mod_small by lia. lia.
Qed.

Lemma divide_straight x y s (modulo : bool) : registers s RAX = x -> registers s RCX = y -> word x -> word y -> y <> 0 ->
  ~ (x = INT64_MIN /\ y = -1) ->
  exists s', straight ([Ins CQTO []; Ins IDIVQ [rcx]] ++ if modulo then [Ins MOVQ [rdx; rax]] else []) s s' /\
    registers s' RAX = (if modulo then Z.rem x y else Z.quot x y) /\
    registers s' RSP = registers s RSP /\ registers s' RBP = registers s RBP /\ memory s' = memory s.
Proof.
  intros Hx Hy Wx Wy Hz Hmin. pose proof (quotient_word x y Wx Wy Hz Hmin) as Hq.
  set (s1 := advanced (set_register RDX (if registers s RAX <? 0 then -1 else 0) s)).
  assert (exists s2, straight [Ins CQTO []; Ins IDIVQ [rcx]] s s2 /\
    registers s2 RAX = Z.quot x y /\ registers s2 RDX = Z.rem x y /\
    registers s2 RSP = registers s RSP /\ registers s2 RBP = registers s RBP /\ memory s2 = memory s)
    as (s2 & Hrun & Hax & Hdx & Ht & Hb & Hm).
  { assert (line_step symbol_place code_place code_index image (Ins IDIVQ [rcx]) s1 =
      Next (advanced (set_flags {| ZF := None; SF := None; OF := None |}
           (set_register RDX (Z.rem x y) (set_register RAX (Z.quot x y) s1))))) as Hdiv.
    { cbn [line_step]. unfold instruction, read_operand. cbn [rcx extended]. unfold s1, divide. cpu_state.
      rewrite Hx, Hy, dividend_word by done. words. rewrite (proj2 (Z.eqb_neq y 0) Hz).
      by rewrite (proj2 (in_int64_bounds _) Hq). }
    eexists. split; [|].
    - eapply straight_cons; [reflexivity|reflexivity|]. fold s1. eapply straight_cons; [exact Hdiv|reflexivity|]. apply straight_nil.
    - subst s1. by cpu_state. }
  destruct modulo; [|by exists s2; rewrite app_nil_r].
  assert (exists s3, straight [Ins MOVQ [rdx; rax]] s2 s3 /\ registers s3 RAX = Z.rem x y /\
    registers s3 RSP = registers s2 RSP /\ registers s3 RBP = registers s2 RBP /\ memory s3 = memory s2)
    as (s3 & Hrun3 & Hax3 & Ht3 & Hb3 & Hm3).
  { eexists. split; [run_lines|]. cpu_state. rewrite Hdx. pose proof (remainder_word x y Wx Wy Hz). words. done. }
  exists s3. split; [by eapply straight_join|]. by rewrite Ht3, Hb3, Hm3.
Qed.

(** One line that only sets flags or RDX, and what it has set. *)
Lemma ready_line {A} (r : run FsState A) Q p sp b m x y st s line : ready p sp b m x y st s -> image !! p = Some line ->
  (exists s', straight [line] s s' /\
    registers s' RAX = registers s RAX /\ registers s' RCX = registers s RCX /\
    registers s' RSP = registers s RSP /\ registers s' RBP = registers s RBP /\ memory s' = memory s /\
    (ready (S p) sp b m x y st s' -> follows r Q s')) ->
  follows r Q s.
Proof.
  intros Hr Hline (s' & Hrun & Ha & Hc & Ht & Hb & Hm & HQ). pose proof (ready_pc _ _ _ _ _ _ _ _ Hr) as Hp.
  assert (ready (S p) sp b m x y st s') as Hr'.
  { replace (S p) with (p + length [line])%nat by (cbn; lia). by eapply ready_straight. }
  specialize (HQ Hr'). assert (step s = Next s') as Hstep.
  { inversion Hrun as [|? ? ? s1 ? Hl _ Hnil]; subst. inversion Hnil; subst. by rewrite (step_line _ _ _ _ _ _ Hline). }
  destruct r; cbn in *; try done; by eapply arrives_later.
Qed.

Lemma test_straight y s : registers s RCX = y -> word y -> exists s', straight [Ins TESTQ [rcx; rcx]] s s' /\
  registers s' = registers s /\ memory s' = memory s /\ ZF (flags s') = Some (y =? 0).
Proof. intros Hy Wy. eexists. split; [run_lines|]. cpu_state. rewrite Hy. words. by rewrite Z.land_diag. Qed.

Lemma compare_minus_one_straight y s : registers s RCX = y -> word y -> exists s', straight [Ins CMPQ [Imm (-1); rcx]] s s' /\
  registers s' = registers s /\ memory s' = memory s /\ ZF (flags s') = Some (y =? -1).
Proof.
  intros Hy Wy. eexists. split; [run_lines|]. cpu_state. rewrite Hy.
  rewrite (wrap_word y), (wrap_word (-1)) by range. rewrite compared_zero by range. done.
Qed.

Lemma compare_min_straight x s : registers s RAX = x -> registers s RDX = INT64_MIN -> word x ->
  exists s', straight [Ins CMPQ [rdx; rax]] s s' /\
  registers s' = registers s /\ memory s' = memory s /\ ZF (flags s') = Some (x =? INT64_MIN).
Proof.
  intros Hx Hd Wx. assert (word INT64_MIN) by (unfold INT64_MIN; range).
  eexists. split; [run_lines|]. cpu_state. rewrite Hx, Hd.
  rewrite (wrap_word x), (wrap_word INT64_MIN) by range. rewrite compared_zero by range. done.
Qed.

Lemma ready_branch {A} (r : run FsState A) Q p sp b m x y st s i k t c : ready p sp b m x y st s ->
  image !! p = Some (Ins i [Target t]) -> image !! k = Some (LabelLine t) -> i ∈ [JE; JNE; JZ; JNZ; JO] ->
  condition_of i (flags s) = Some c ->
  (c = true -> follows r Q (set_pc k s)) -> (c = false -> follows r Q (advanced s)) -> follows r Q s.
Proof.
  intros Hr Hline Hk Hi Hc Ht Hf. rewrite <- (ready_pc _ _ _ _ _ _ _ _ Hr) in Hline.
  destruct r; cbn in *; try done; (eapply arrives_branch; [apply labels_unique|exact Hline|exact Hk|exact Hi|exact Hc|done|done]).
Qed.

Lemma division_runs p sp b m x y st s op (modulo : bool) safe :
  (op, if modulo then [Ins MOVQ [rdx; rax]] else []) ∈ [(BINARY_DIVIDE, []); (BINARY_MODULO, [Ins MOVQ [rdx; rax]])] ->
  ready p sp b m x y st s ->
  code_at image p ([Ins TESTQ [rcx; rcx]; Ins JZ [Target ArithmeticFault]; Ins CMPQ [Imm (-1); rcx];
          Ins JNE [local safe]; Ins MOVABSQ [Imm INT64_MIN; rdx]; Ins CMPQ [rdx; rax];
          Ins JE [Target ArithmeticFault]; LabelLine (LocalLabel safe); Ins CQTO []; Ins IDIVQ [rcx]] ++
          if modulo then [Ins MOVQ [rdx; rax]] else []) ->
  follows (fs_binary op x y st) (evaluated (p + 10 + if modulo then 1 else 0) sp b m) s.
Proof.
  intros Hop Hr Hc. destruct (ready_words _ _ _ _ _ _ _ _ Hr) as [Wx Wy].
  assert (fs_binary op x y = fs_divide (if modulo then Z.rem else Z.quot) x y) as ->.
  { set_unfold in Hop. destruct modulo; destruct_or! Hop; by simplify_eq. }
  assert (forall s', ready (p + 8) sp b m x y st s' -> y <> 0 -> ~ (x = INT64_MIN /\ y = -1) ->
    arrives (evaluated (p + 10 + if modulo then 1 else 0) sp b m (if modulo then Z.rem x y else Z.quot x y) st) s') as Hdiv.
  { intros s' Hr' Hy Hmin.
    apply (code_at_app _ _ [_; _; _; _; _; _; _; _]) in Hc as [_ Hc].
    destruct (divide_straight x y s' modulo (ready_left _ _ _ _ _ _ _ _ Hr') (ready_right _ _ _ _ _ _ _ _ Hr') Wx Wy Hy Hmin)
      as (s2 & Hrun & Hrest).
    replace (p + 10 + if modulo then 1 else 0)%nat with
      (p + 8 + length ([Ins CQTO []; Ins IDIVQ [rcx]] ++ if modulo then [Ins MOVQ [rdx; rax]] else []))%nat
      by (destruct modulo; cbn; lia).
    eapply ready_value; [exact Hr'|exact Hc| |by exists s2].
    destruct modulo; [by apply remainder_word|by apply quotient_word]. }
  cbn [app] in Hc. do 8 (apply code_at_cons in Hc as [?H Hc]).
  eapply ready_line; [exact Hr|done|]. destruct (test_straight y s (ready_right _ _ _ _ _ _ _ _ Hr) Wy)
    as (s1 & Hrun1 & Hg1 & Hm1 & Hz1). exists s1. rewrite Hg1. split_and!; try done. intros Hr1.
  eapply (fault_branch _ _ st JZ); [by rewrite (ready_pc _ _ _ _ _ _ _ _ Hr1)|by repeat constructor|exact Hz1|
    by eapply ready_heap| |].
  { intros E. unfold fs_divide. rewrite E. by eexists. }
  intros E1. apply Z.eqb_neq in E1 as Hy. apply ready_next in Hr1.
  eapply ready_line; [exact Hr1|done|]. destruct (compare_minus_one_straight y (advanced s1) (ready_right _ _ _ _ _ _ _ _ Hr1) Wy)
    as (s2 & Hrun2 & Hg2 & Hm2 & Hz2). exists s2. rewrite Hg2. split_and!; try done. intros Hr2.
  assert (forall op : Z -> Z -> Z, ~ (x = INT64_MIN /\ y = -1) -> fs_divide op x y st = Goes (op x y) st) as Hgo.
  { intros o Hmin. unfold fs_divide. rewrite E1. cbn [orb]. destruct (Z.eqb_spec y (-1)); [|done].
    destruct (Z.eqb_spec x INT64_MIN); [naive_solver|done]. }
  eapply (ready_branch _ _ _ _ _ _ _ _ _ _ JNE (S (S (S (S (S (S (S p))))))) _ (negb (y =? -1)));
    [exact Hr2|done|done|by repeat constructor|cbn; by rewrite Hz2| |].
  { intros E%negb_true_iff%Z.eqb_neq. rewrite Hgo by naive_solver. cbn.
    apply (ready_goto _ (S (S (S (S (S (S (S p))))))))  in Hr2. eapply arrives_pass.
    { left. eexists. by rewrite (ready_pc _ _ _ _ _ _ _ _ Hr2). }
    apply ready_next in Hr2. replace (p + 8)%nat with (S (S (S (S (S (S (S (S p)))))))) in Hdiv by lia.
    destruct modulo; apply Hdiv; naive_solver. }
  intros E2%negb_false_iff. apply ready_next in Hr2.
  eapply ready_line; [exact Hr2|done|].
  assert (exists s3, straight [Ins MOVABSQ [Imm INT64_MIN; rdx]] (advanced s2) s3 /\
    registers s3 RAX = registers (advanced s2) RAX /\ registers s3 RCX = registers (advanced s2) RCX /\
    registers s3 RSP = registers (advanced s2) RSP /\ registers s3 RBP = registers (advanced s2) RBP /\
    memory s3 = memory (advanced s2) /\ registers s3 RDX = INT64_MIN) as (s3 & Hrun3 & Ha3 & Hc3 & Ht3 & Hb3 & Hm3 & Hd3).
  { eexists. split; [run_lines|]. cpu_state. done. }
  exists s3. split_and!; try done. intros Hr3.
  eapply ready_line; [exact Hr3|done|]. destruct (compare_min_straight x s3 (ready_left _ _ _ _ _ _ _ _ Hr3) Hd3 Wx)
    as (s4 & Hrun4 & Hg4 & Hm4 & Hz4). exists s4. rewrite Hg4. split_and!; try done. intros Hr4.
  eapply (fault_branch _ _ st JE); [by rewrite (ready_pc _ _ _ _ _ _ _ _ Hr4)|by repeat constructor|exact Hz4|
    by eapply ready_heap| |].
  { intros E. unfold fs_divide. rewrite E2, E, orb_true_r. by eexists. }
  intros E4. apply Z.eqb_neq in E4. rewrite Hgo by naive_solver. cbn. apply ready_next in Hr4.
  eapply arrives_pass; [left; eexists; by rewrite (ready_pc _ _ _ _ _ _ _ _ Hr4)|]. apply ready_next in Hr4.
  replace (p + 8)%nat with (S (S (S (S (S (S (S (S p)))))))) in Hdiv by lia.
  destruct modulo; apply Hdiv; naive_solver.
Qed.

Lemma operation_runs p sp b m x y st s op code : operation_code op code ->
  ready p sp b m x y st s -> code_at image p code ->
  follows (fs_binary op x y st) (evaluated (p + length code) sp b m) s.
Proof.
  intros Hop Hr Hc. destruct Hop as [op i Hin|op safe last Hin|op i Hin].
  - by eapply overflowing_runs.
  - assert (exists modulo : bool, last = if modulo then [Ins MOVQ [rdx; rax]] else []) as [modulo ->].
    { set_unfold in Hin. destruct_or! Hin; simplify_eq; [by exists false|by exists true]. }
    eapply follows_mono; [eapply division_runs; [exact Hin|exact Hr|exact Hc]|].
    intros v st' s' H. rewrite length_app.
    replace (p + _)%nat with (p + 10 + if modulo then 1 else 0)%nat by (destruct modulo; cbn; lia). exact H.
  - by eapply comparison_runs.
Qed.

(** ** The memory of the program *)

Lemma open_range_spec n a : open_range private n a = true <-> forall x, a <= x < a + Z.of_nat n -> private x = false.
Proof.
  unfold open_range. rewrite forallb_forall. split.
  - intros H x Hx. specialize (H (Z.to_nat (x - a))). rewrite negb_true_iff in H.
    replace (a + Z.of_nat (Z.to_nat (x - a))) with x in H by lia. apply H, in_seq. lia.
  - intros H i Hi%in_seq. apply negb_true_iff, H. lia.
Qed.

Lemma open_range_stack n a x : open_range private n a = true -> lo <= x < hi -> x < a \/ a + Z.of_nat n <= x.
Proof.
  rewrite open_range_spec. intros H Hx. destruct (decide (a <= x < a + Z.of_nat n)) as [Ha|Ha]; [|lia].
  specialize (H x Ha). by rewrite (stack_private x Hx) in H.
Qed.

Lemma heap_load n a m m' : open_range private n a = true -> agrees m m' -> load n m a = load n m' a.
Proof. rewrite open_range_spec. intros H Ha. apply load_ext. intros x Hx. by apply Ha, H. Qed.

Lemma heap_store n v a m m' : agrees m m' -> agrees (store n v a m) (store n v a m').
Proof. intros H x Hx. apply store_pointwise. by apply H. Qed.

Lemma heap_store_stack n v a m x : open_range private n a = true -> lo <= x < hi -> store n v a m x = m x.
Proof. intros H Hx. apply store_outside. destruct (open_range_stack n a x H Hx); lia. Qed.

(** A byte of a string or of the memory. *)
Lemma index_runs p sp b m x y st s : ready p sp b m x y st s -> code_at image p [Ins MOVZBL [Mem None RAX (Some RCX); eax]] ->
  follows (fs_load private W8 (wrap64 (x + y)) st) (evaluated (p + 1) sp b m) s.
Proof.
  intros Hr Hc. unfold fs_load. destruct (open_range _ _ _) eqn:Ho; [|done]. cbn [follows].
  destruct Hr as [Hs Hx Hy Hw Hm] eqn:E. clear E.
  eapply (ready_value _ _ _ _ _ _ _ _ [_]); [exact Hr|exact Hc|apply in_int64_bounds, extended_word|].
  eexists. split; [run_lines|]. cpu_state. rewrite Hx, Hy.
  rewrite <- (heap_load 1 _ _ _ Ho (ready_heap _ _ _ _ _ _ _ _ Hr)). split_and!; [|done..].
  apply low32_small.
  pose proof (Z.mod_pos_bound (load 1 (heap st) (wrap64 (x + y))) (2 ^ 8) ltac:(lia)). lia.
Qed.

(** ** Arguments *)

Lemma reserve_straight area sp s : registers s RSP = sp -> word sp -> word (sp - area) -> word area ->
  exists s', straight (reserve area) s s' /\ registers s' RSP = sp - area /\
    registers s' RBP = registers s RBP /\ memory s' = memory s.
Proof.
  intros Ht Wsp Wsp' Wa. unfold reserve. destruct (Z.eqb_spec area 0) as [->|Ha].
  - exists s. split; [apply straight_nil|]. rewrite Ht. by rewrite Z.sub_0_r.
  - eexists. split; [run_lines|]. cpu_state. rewrite Ht. words. done.
Qed.

Lemma release_straight area sp s : registers s RSP = sp -> word sp -> word (sp + area) -> word area ->
  exists s', straight (release area) s s' /\ registers s' RSP = sp + area /\ registers s' RAX = registers s RAX /\
    registers s' RBP = registers s RBP /\ memory s' = memory s.
Proof.
  intros Ht Wsp Wsp' Wa. unfold release. destruct (Z.eqb_spec area 0) as [->|Ha].
  - exists s. split; [apply straight_nil|]. rewrite Ht. by rewrite Z.add_0_r.
  - eexists. split; [run_lines|]. cpu_state. rewrite Ht. words. done.
Qed.

(** Registers are loaded from the area of the arguments. *)
Lemma load_straight regs k sp s : registers s RSP = sp -> word sp -> word (sp + (Z.of_nat k + Z.of_nat (length regs)) * 8) ->
  NoDup regs -> RSP ∉ regs -> RBP ∉ regs ->
  exists s', straight (imap (fun i r => Ins MOVQ [on_stack (Z.of_nat (k + i) * 8); Reg W64 r]) regs) s s' /\
    (forall i r, regs !! i = Some r -> registers s' r = wrap64 (load 8 (memory s) (sp + Z.of_nat (k + i) * 8))) /\
    (forall r, r ∉ regs -> registers s' r = registers s r) /\ memory s' = memory s.
Proof.
  revert k s. induction regs as [|r regs IH]; intros k s Ht Wsp Wend Hd Hnsp Hnbp.
  { exists s. split; [apply straight_nil|]. done. }
  apply NoDup_cons in Hd as [Hr Hd]. apply not_elem_of_cons in Hnsp as [Hrsp Hnsp], Hnbp as [Hrbp Hnbp]. cbn [length] in Wend.
  assert (exists s1, straight [Ins MOVQ [on_stack (Z.of_nat k * 8); Reg W64 r]] s s1 /\
    registers s1 r = wrap64 (load 8 (memory s) (sp + Z.of_nat k * 8)) /\
    (forall r', r' <> r -> registers s1 r' = registers s r') /\ memory s1 = memory s) as (s1 & Hrun1 & Hr1 & Hother & Hm1).
  { eexists. split; [run_lines|]. cpu_state. rewrite Ht. rewrite (wrap_word (Z.of_nat k * 8 + sp)) by range.
    rewrite (Z.add_comm (Z.of_nat k * 8)). split_and!; [|intros r' Hr'; by destruct r', r|done].
    destruct r; by rewrite !wrap64_idemp. }
  destruct (IH (S k) s1) as (s2 & Hrun2 & Hregs & Hother2 & Hm2); [by rewrite Hother|done|range|done..|].
  exists s2. split; [|split_and!].
  - rewrite imap_cons, Nat.add_0_r. apply (straight_join _ _ _ _ [_] _ _ _ _ Hrun1).
    replace (imap _ regs) with (imap (fun i r => Ins MOVQ [on_stack (Z.of_nat (S k + i) * 8); Reg W64 r]) regs); [done|].
    apply imap_ext. intros i x _. unfold compose. by rewrite Nat.add_succ_r.
  - intros [|i] r' Hi.
    + injection Hi as <-. rewrite Hother2, Hr1, Nat.add_0_r by done. done.
    + rewrite (Hregs i r' Hi), Hm1. by rewrite Nat.add_succ_r.
  - intros r' [Hr' Hn]%not_elem_of_cons. rewrite Hother2, Hother by done. done.
  - by rewrite Hm2.
Qed.

(** ** Intrinsics *)

Definition raw_run (raw : RawOperation) (vs : list Z) : FsExec Z :=
  match raw, vs with
  | ReadMemory w, [a; i] => fs_load private w (wrap64 (a + i))
  | WriteMemory w, [a; i; v] => (_ ← fs_store private w (wrap64 (a + i)) v; mret 1)%vnt
  | _, _ => crash
  end.

(** The registers hold these values. *)
Definition registers_hold (regs : list register) (vs : list Z) (s : Cpu) : Prop :=
  forall j r v, regs !! j = Some r -> vs !! j = Some v -> registers s r = v /\ word v.

(** A value is written to the memory of the program. *)
Lemma stored_stands p sp b st s n w a v p' s' : stands p sp b st s -> lo <= sp -> n = width_bytes w ->
  open_range private n a = true ->
  pc s' = p' -> registers s' RSP = sp -> registers s' RBP = registers s RBP ->
  memory s' = store n v a (memory s) ->
  stands p' sp b (set_heap (store n v a (heap st)) st) s' /\ forall x, sp <= x < hi -> memory s' x = memory s x.
Proof.
  intros Hs Hlo -> Ho Hp Ht Hb Hm. pose proof (stands_frame _ _ _ _ _ Hs) as Hf. pose proof (Zle_0_nat (length vs)).
  assert (forall x, lo <= x < hi -> memory s' x = memory s x) as Hsame.
  { intros x Hx. rewrite Hm. by apply heap_store_stack. }
  split; [|intros x Hx; apply Hsame; lia]. eapply stands_change; [exact Hs|done..|lia|done| |].
  - rewrite Hm. apply heap_store, Hs.
  - intros x Hx. apply Hsame. unfold slots_size in *. lia.
Qed.

Lemma raw_load p sp b st s w a i : stands p sp b st s -> registers s RDI = a -> registers s RSI = i ->
  code_at image p (raw_instructions (ReadMemory w)) ->
  follows (fs_load private w (wrap64 (a + i)) st) (evaluated (p + length (raw_instructions (ReadMemory w))) sp b (memory s)) s.
Proof.
  intros Hs Ha Hi Hc. unfold fs_load. destruct (open_range _ _ _) eqn:Ho; [|done]. cbn [follows].
  eapply value_runs; [exact Hs|exact Hc|apply in_int64_bounds, extended_word|].
  pose proof (heap_load _ _ _ _ Ho (stands_heap _ _ _ _ _ Hs)) as Hl.
  destruct w; (eexists; split; [run_lines|]; cpu_state; rewrite Ha, Hi; cbn [width_bytes] in Hl; rewrite <- Hl;
    split_and!; [|done..]).
  - apply low32_small. pose proof (Z.mod_pos_bound (load 1 (heap st) (wrap64 (a + i))) (2 ^ 8) ltac:(lia)). lia.
  - apply low32_idemp.
  - apply wrap64_idemp.
Qed.

Lemma raw_store p sp b st s w a i v : stands p sp b st s -> lo <= sp -> registers s RDI = a -> registers s RSI = i ->
  registers s RDX = v -> code_at image p (raw_instructions (WriteMemory w)) ->
  follows ((_ ← fs_store private w (wrap64 (a + i)) v; mret 1)%vnt st)
    (evaluated (p + length (raw_instructions (WriteMemory w))) sp b (memory s)) s.
Proof.
  intros Hs Hlo Ha Hi Hv Hc. unfold fs_store, mbind, Exec_bind. destruct (open_range _ _ _) eqn:Ho; [|done]. cbn [follows mret Exec_ret].
  set (n := width_bytes w) in *.
  assert (exists s', straight (raw_instructions (WriteMemory w)) s s' /\ registers s' RAX = 1 /\
    registers s' RSP = registers s RSP /\ registers s' RBP = registers s RBP /\
    memory s' = store n v (wrap64 (a + i)) (memory s)) as (s' & Hrun & Hax & Ht & Hb & Hm).
  { subst n. destruct w; (eexists; split; [run_lines|]; cpu_state; rewrite Ha, Hi, Hv; split_and!; [done..|]);
      apply store_congruent; change (8 * Z.of_nat 1) with 8; change (8 * Z.of_nat 4) with 32; change (8 * Z.of_nat 8) with 64;
      unfold low32, wrap64; rewrite ?Z.mod_mod by lia; try done.
    rewrite Zminus_mod_idemp_l, Z.add_simpl_r. done. }
  eapply arrives_straight; [by rewrite (stands_pc _ _ _ _ _ Hs)|]. exists s'. split; [done|]. apply arrives_now.
  destruct (stored_stands p sp b st s n w (wrap64 (a + i)) v (p + length (raw_instructions (WriteMemory w))) s')
    as [Hs' Hm']; try done.
  - by rewrite (straight_pc _ _ _ _ _ _ _ Hrun), (stands_pc _ _ _ _ _ Hs).
  - by rewrite Ht, (stands_top _ _ _ _ _ Hs).
Qed.

Lemma raw_runs raw vs' p sp b st s : stands p sp b st s -> lo <= sp -> length vs' = raw_argc raw ->
  registers_hold [RDI; RSI; RDX] vs' s -> code_at image p (raw_instructions raw) ->
  follows (raw_run raw vs' st) (evaluated (p + length (raw_instructions raw)) sp b (memory s)) s.
Proof.
  intros Hs Hlo Hlen Hregs Hc. destruct raw as [w|w| |]; try done.
  - destruct vs' as [|a [|i [|]]]; try done. destruct (Hregs 0%nat _ _ eq_refl eq_refl) as [Ha _].
    destruct (Hregs 1%nat _ _ eq_refl eq_refl) as [Hi _]. by apply raw_load.
  - destruct vs' as [|a [|i [|v [|]]]]; try done. destruct (Hregs 0%nat _ _ eq_refl eq_refl) as [Ha _].
    destruct (Hregs 1%nat _ _ eq_refl eq_refl) as [Hi _]. destruct (Hregs 2%nat _ _ eq_refl eq_refl) as [Hv _].
    by apply raw_store.
Qed.

Lemma exchange_runs p sp b st s a v : stands p sp b st s -> lo <= sp -> word (sp + 8) ->
  wrap64 (load 8 (memory s) sp) = a -> wrap64 (load 8 (memory s) (sp + 8)) = v ->
  code_at image p [Ins MOVQ [on_stack 0; Reg W64 RDI]; Ins MOVQ [on_stack 8; rax]; Ins XCHGQ [rax; Mem None RDI None]] ->
  follows ((old ← fs_load private W64 a; _ ← fs_store private W64 a v; mret old)%vnt st)
    (evaluated (p + 3) sp b (memory s)) s.
Proof.
  intros Hs Hlo Wsp Ha Hv Hc. destruct (stands_words _ _ _ _ _ Hs Hlo) as [Wt _].
  unfold fs_store, fs_load, mbind, Exec_bind. destruct (open_range _ _ _) eqn:Ho; [|done]. cbn [follows mret Exec_ret].
  pose proof (heap_load _ _ _ _ Ho (stands_heap _ _ _ _ _ Hs)) as Hl. cbn [width_bytes] in Hl, Ho.
  assert (exists s', straight [Ins MOVQ [on_stack 0; Reg W64 RDI]; Ins MOVQ [on_stack 8; rax]; Ins XCHGQ [rax; Mem None RDI None]] s s' /\
    registers s' RAX = wrap64 (load 8 (memory s) a) /\
    registers s' RSP = registers s RSP /\ registers s' RBP = registers s RBP /\
    memory s' = store 8 v a (memory s)) as (s' & Hrun & Hax & Ht & Hb & Hm).
  { eexists. split; [run_lines|]. cpu_state. rewrite (stands_top _ _ _ _ _ Hs). rewrite (Z.add_comm 8).
    rewrite !wrap64_idemp, !(wrap_word sp), !(wrap_word (sp + 8)) by done. rewrite Ha, Hv.
    done. }
  eapply arrives_straight; [by rewrite (stands_pc _ _ _ _ _ Hs)|]. exists s'. split; [done|]. apply arrives_now.
  destruct (stored_stands p sp b st s 8 W64 a v (p + 3) s') as [Hs' Hm']; try done.
  - by rewrite (straight_pc _ _ _ _ _ _ _ Hrun), (stands_pc _ _ _ _ _ Hs).
  - by rewrite Ht, (stands_top _ _ _ _ _ Hs).
  - constructor; [exact Hs'| |apply word_wrap|exact Hm']. rewrite Hax. cbn [extended width_bytes]. by rewrite Hl.
Qed.

(** ** Variables *)

Lemma slot_word p sp b st s vi : stands p sp b st s -> lo <= sp -> (vi < length vs)%nat -> word (slot_address b vi).
Proof.
  intros Hs Hlo Hvi. pose proof (stands_frame _ _ _ _ _ Hs). pose proof stack_low. pose proof stack_high.
  unfold slots_size, slot_address in *. range.
Qed.

Lemma slot_effective b vi s : registers s RBP = b -> word (slot_address b vi) ->
  effective_address (Some (- (Z.of_nat vi + 1) * 8)) RBP None s = slot_address b vi.
Proof.
  intros Hb W. unfold effective_address. rewrite Hb, Z.add_0_r. cbn [default id].
  replace (- (Z.of_nat vi + 1) * 8 + b) with (slot_address b vi) by (unfold slot_address; lia). by apply wrap_word.
Qed.

Lemma variable_runs p sp b st s x vi : stands p sp b st s -> lo <= sp -> index_of x vs = Some vi ->
  code_at image p (load_code vs vi) ->
  follows (fs_get x st) (evaluated (p + length (load_code vs vi)) sp b (memory s)) s.
Proof.
  intros Hs Hlo Hvi Hc. unfold fs_get. destruct (locals st !! x) as [v|] eqn:Ex; [|done]. cbn [follows].
  destruct (stands_slots _ _ _ _ _ Hs x v Ex) as (vi' & Hvi' & Hv). assert (vi' = vi) as -> by congruence.
  pose proof (slot_word _ _ _ _ _ vi Hs Hlo (index_of_lt _ _ Hvi)) as W.
  pose proof (slot_effective b vi s (stands_base _ _ _ _ _ Hs) W) as Heff.
  eapply value_runs; [exact Hs|exact Hc|rewrite <- Hv; apply slot_value_word|].
  unfold load_code, slot_value in *. destruct (wide_at vs vi); (eexists; split; [run_lines|]);
    cbn [registers memory advanced set_pc set_register register_eqb extended width_bytes]; rewrite Heff; split_and!; try done; rewrite <- Hv.
  - apply wrap64_idemp.
  - apply low32_idemp.
Qed.

(** ** Tests *)

(** The low 32 bits of RAX are tested, and a jump is taken or not. *)
Lemma test_runs {A} (r : run FsState A) Q p sp b m v st s (on_zero : bool) k t : evaluated p sp b m v st s ->
  code_at image p [Ins TESTL [eax; eax]; Ins (if on_zero then JZ else JNZ) [Target t]] ->
  image !! k = Some (LabelLine t) ->
  (is_true v = negb on_zero -> forall s', evaluated k sp b m v st s' -> follows r Q s') ->
  (is_true v = on_zero -> forall s', evaluated (p + 2) sp b m v st s' -> follows r Q s') ->
  follows r Q s.
Proof.
  intros [Hs Hv Wv Hm] Hc Hk Htaken Hnot. pose proof Hc as Hc1. apply (code_at_app _ _ [_]) in Hc1 as [Hc1 _].
  apply code_at_cons in Hc as [_ Hc]. apply code_at_cons in Hc as [Hj _].
  assert (exists s1, straight [Ins TESTL [eax; eax]] s s1 /\ registers s1 = registers s /\ memory s1 = memory s /\
    ZF (flags s1) = Some (negb (is_true v))) as (s1 & Hrun & Hg & Hm1 & Hz).
  { eexists. split; [run_lines|]. cpu_state. split_and!; [done..|]. rewrite Hv, Z.land_diag. unfold is_true. by rewrite negb_involutive. }
  eapply follows_straight; [by rewrite (stands_pc _ _ _ _ _ Hs)|]. exists s1. split; [exact Hrun|].
  assert (pc s1 = S p) as Hp1 by (rewrite (straight_pc _ _ _ _ _ _ _ Hrun), (stands_pc _ _ _ _ _ Hs); cbn; lia).
  assert (forall p', evaluated p' sp b m v st (set_pc p' s1)) as Hev.
  { intros p'. constructor; [|cbn; by rewrite Hg|done|cbn; by rewrite Hm1].
    pose proof (stands_frame _ _ _ _ _ Hs). eapply stands_move; [exact Hs|done| |cbn; by rewrite Hg|lia|cbn; by rewrite Hm1].
    cbn. by rewrite Hg, (stands_top _ _ _ _ _ Hs). }
  assert (advanced s1 = set_pc (p + 2) s1) as Eadv by (unfold advanced; rewrite Hp1; f_equal; lia).
  rewrite <- Hp1 in Hj.
  assert (condition_of (if on_zero then JZ else JNZ) (flags s1) = Some (xorb on_zero (is_true v))) as Hcond.
  { destruct on_zero; cbn [condition_of]; rewrite Hz; [done|]. cbn. by rewrite negb_involutive. }
  assert (forall P, (is_true v = negb on_zero -> arrives P (set_pc k s1)) -> (is_true v = on_zero -> arrives P (advanced s1)) ->
    arrives P s1) as Hb.
  { intros P H1 H2. eapply arrives_branch; [apply labels_unique|exact Hj|exact Hk|destruct on_zero; by repeat constructor|exact Hcond|..].
    - intros E. apply H1. by destruct on_zero, (is_true v).
    - intros E. apply H2. by destruct on_zero, (is_true v). }
  specialize (fun E => Htaken E _ (Hev k)). specialize (fun E => Hnot E _ (Hev (p + 2)%nat)). rewrite <- Eadv in Hnot.
  destruct r; cbn in *; try done; by apply Hb.
Qed.

End frame.
End machine.
