(* ===== verification/FreestandingExpressions.v ===== *)
(** FreestandingExpressions: the code of an expression computes its value: the processor
    of Asm comes to the end of the code with the value in RAX, or to an exception when the
    evaluation ends with an arithmetic fault. *)

From stdpp Require Import list sets gmap.
From S2P Require Import Prelude Clib Ast Ir IrTrees IrFacts HirSemantics Asm.
From S2P Require Import Freestanding FreestandingRuns FreestandingCode FreestandingEmit FreestandingProgram AsmFacts.
From S2P Require Import FreestandingSteps.
Local Open Scope Z_scope.

(** * Children *)

Lemma in_role_map {A} r (f : tree -> A) ts :
  in_role r (map (fun t => (l_role (label t), f t)) ts) = f <$> child_of r ts.
Proof.
  unfold child_of. rewrite in_role_index. unfold in_role. induction ts as [|t ts IH]; [done|]. cbn [map find].
  rewrite filter_cons. cbn [fst]. destruct (decide _) as [E|E].
  - by rewrite bool_decide_eq_true_2.
  - rewrite bool_decide_eq_false_2 by done. exact IH.
Qed.

Lemma in_edge_map {A} r (f : tree -> A) ts :
  in_edge r (map (fun t => (l_role (label t), f t)) ts) = map f (children_in r ts).
Proof.
  unfold children_in, in_edge. induction ts as [|t ts IH]; [done|]. cbn [map]. rewrite !filter_cons. cbn [fst].
  destruct (decide _); cbn [map]; [f_equal|]; exact IH.
Qed.

Lemma children_in_in r ts t : t ∈ children_in r ts -> t ∈ ts.
Proof.
  unfold children_in, in_edge. intros (e & -> & He)%list_elem_of_fmap. apply list_elem_of_filter in He as [_ He].
  apply list_elem_of_fmap in He as (u & -> & Hu). exact Hu.
Qed.

(** * The stack that code needs *)

(** What is pushed at a node, while its children are evaluated. *)
Definition own_room (op : VntIrOpcode) (children : nat) : Z :=
  match op with
  | VNT_IR_BINARY | VNT_IR_INDEX | VNT_IR_ASSIGN => 16
  | VNT_IR_CALL => argument_area children
  | _ => 0
  end.

Fixpoint room (t : tree) : Z :=
  match t with
  | Tree _ l ts => own_room (l_opcode l) (length ts) + foldr Z.max 0 (map room ts)
  end.

Lemma argument_area_bounds n : 8 * Z.of_nat n <= argument_area n <= 8 * Z.of_nat n + 8.
Proof.
  unfold argument_area. pose proof (Nat.div_mod_eq (n + 1) 2). pose proof (Nat.mod_upper_bound (n + 1) 2 ltac:(lia)). lia.
Qed.

Lemma argument_area_mono m n : (m <= n)%nat -> argument_area m <= argument_area n.
Proof. intros H. unfold argument_area. pose proof (Nat.Div0.div_le_mono (m + 1) (n + 1) 2 ltac:(lia)). lia. Qed.

Lemma own_room_nonneg op n : 0 <= own_room op n.
Proof. pose proof (argument_area_bounds n). destruct op; cbn; lia. Qed.

Lemma max_room_in t ts : t ∈ ts -> room t <= foldr Z.max 0 (map room ts).
Proof. induction ts as [|u ts IH]; [by intros ?%not_elem_of_nil|]. intros [->|H]%elem_of_cons; cbn; [lia|]. specialize (IH H). lia. Qed.

Lemma room_child i l ts t : t ∈ ts -> own_room (l_opcode l) (length ts) + room t <= room (Tree i l ts).
Proof. intros H%max_room_in. cbn [room]. lia. Qed.

Lemma max_room_nonneg ts : 0 <= foldr Z.max 0 (map room ts).
Proof. induction ts; cbn; lia. Qed.

Lemma room_nonneg t : 0 <= room t.
Proof. destruct t as [i l ts]. cbn [room]. pose proof (own_room_nonneg (l_opcode l) (length ts)). pose proof (max_room_nonneg ts). lia. Qed.

Section expressions.
Context {L : Layout} {Laws : LayoutLaws} (program : tree) (vs : list (bytes * bytes)).
(** Calls, and the stack that they need. *)
Context (call : bytes -> list Z -> FsExec (option Z)) (K : Z).

Abbreviation arrives := (arrives symbol_place code_place code_index image).
Abbreviation straight := (straight symbol_place code_place code_index image).
Abbreviation eval := (fs_eval symbol_place private call).

(** What a call has done when it returns to [p]. *)
Record returned (p : nat) (sp : Z) (before : Cpu) (st : FsState) (v : option Z) (st' : FsState) (s : Cpu) : Prop := {
  returned_pc : pc s = p;
  returned_top : registers s RSP = sp;
  returned_base : registers s RBP = registers before RBP;
  returned_value z : v = Some z -> registers s RAX = z /\ word z;
  returned_heap : agrees (heap st') (memory s);
  returned_locals : locals st' = locals st;
  returned_above a : sp <= a < hi -> memory s a = memory before a
}.

(** A call does what the function means, from the instruction that makes it. *)
Definition calls_correct : Prop := forall name f values st s p sp,
  find_declared program name = Some f -> length values = length (l_names (label f)) ->
  image !! p = Some (Ins CALL [Target (FunctionSymbol name)]) ->
  pc s = p -> registers s RSP = sp -> word (registers s RBP) ->
  registers_hold argument_registers values s -> agrees (heap st) (memory s) -> lo <= sp - K -> sp <= hi ->
  follows (call name values st) (returned (S p) sp s st) s.
Hypothesis call_room : 0 <= K.
Hypothesis call_correct : calls_correct.

Definition expression_correct (t : tree) (code : list Line) : Prop :=
  forall p sp b st s, code_at image p code -> stands vs p sp b st s -> lo <= sp - room t - K ->
  follows (eval t st) (evaluated vs (p + length code) sp b (memory s)) s.

(** * Rules *)

Lemma follows_arrives {A} (r : run FsState A) P Q s : arrives P s -> (forall s', P s' -> follows r Q s') -> follows r Q s.
Proof. intros H HP. destruct r; cbn in *; try done; by eapply arrives_trans. Qed.

Lemma follows_then {A} (r : run FsState A) (P : A -> FsState -> Cpu -> Prop) (Q : A -> FsState -> Cpu -> Prop) s :
  follows r P s -> (forall a st' s', P a st' s' -> arrives (Q a st') s') -> follows r Q s.
Proof. destruct r; cbn; try done. intros H HP. eapply arrives_trans; [exact H|]. auto. Qed.

Lemma evaluated_weaken p sp b m m' v st s : (forall a, sp <= a < hi -> m a = m' a) ->
  evaluated vs p sp b m v st s -> evaluated vs p sp b m' v st s.
Proof. intros H [Hs Hv Hw Hm]. constructor; [done..|]. intros a Ha. by rewrite Hm, H. Qed.

Lemma stands_p p sp b st s : stands vs p sp b st s -> pc s = p.
Proof. by intros []. Qed.

(** A truth value from the low 32 bits of RAX. *)
Lemma bool_runs p sp b m v st s (is_not : bool) : evaluated vs p sp b m v st s ->
  code_at image p [Ins TESTL [eax; eax]; Ins (if is_not then SETE else SETNE) [al]; Ins MOVZBL [al; eax]] ->
  arrives (evaluated vs (p + 3) sp b m (Z.b2z (xorb is_not (is_true v))) st) s.
Proof.
  intros [Hs Hv Wv Hm] Hc.
  assert (exists s1, straight [Ins TESTL [eax; eax]] s s1 /\ registers s1 = registers s /\ memory s1 = memory s /\
    ZF (flags s1) = Some (negb (is_true v))) as (s1 & Hrun & Hg & Hm1 & Hz).
  { eexists. split; [run_lines|]. cpu_state. split_and!; [done..|]. rewrite Hv, Z.land_diag. unfold is_true. by rewrite negb_involutive. }
  destruct (set_straight (if is_not then SETE else SETNE) (xorb is_not (is_true v)) v s1) as (s2 & Hrun2 & Hax & Ht & Hb & Hm2).
  - destruct is_not; by repeat constructor.
  - destruct is_not; cbn [condition_of]; rewrite Hz; [done|]. cbn. by rewrite negb_involutive.
  - by rewrite Hg.
  - eapply arrives_mono; [eapply (value_runs vs p sp b st s _ _ Hs Hc (word_bool (xorb is_not (is_true v))))|].
    + exists s2. split; [exact (straight_join _ _ _ _ [_] _ _ _ _ Hrun Hrun2)|]. by rewrite Ht, Hb, Hm2, Hg, Hm1.
    + intros s'. by apply evaluated_weaken.
Qed.

(** The code of a child, and the run of the child. *)
Lemma child_eval r ts c : child_of r ts = Some c ->
  run_child (in_role r (map (fun t => (l_role (label t), eval t)) ts)) = eval c.
Proof. intros Hc. by rewrite in_role_map, Hc. Qed.

Section node.
Context (i : nat) (l : Label) (ts : list tree).
Hypothesis IH : Forall (fun t => forall code, expression_code program vs t code -> expression_correct t code) ts.

Lemma child_correct r c code : child_of r ts = Some c -> expression_code program vs c code -> expression_correct c code.
Proof. intros [Hin _]%child_of_in. rewrite Forall_forall in IH. by apply IH. Qed.

Lemma child_room r c : child_of r ts = Some c -> own_room (l_opcode l) (length ts) + room c <= room (Tree i l ts).
Proof. intros [Hin _]%child_of_in. by apply room_child. Qed.

(** Two operands, one after the other. *)
Lemma operands_run {A} p sp b st s ra rb ca cb code_a code_b (k : Z -> Z -> FsExec A) Q :
  own_room (l_opcode l) (length ts) = 16 ->
  child_of ra ts = Some ca -> child_of rb ts = Some cb ->
  expression_code program vs ca code_a -> expression_code program vs cb code_b ->
  code_at image p (code_a ++ keep_left ++ code_b ++ take_left) ->
  stands vs p sp b st s -> lo <= sp - room (Tree i l ts) - K ->
  (forall x y st' s', ready vs (p + length (code_a ++ keep_left ++ code_b ++ take_left)) sp b (memory s) x y st' s' ->
     follows (k x y st') Q s') ->
  follows ((x ← eval ca; y ← eval cb; k x y)%vnt st) Q s.
Proof.
  intros Hown Ha Hb Hca Hcb Hc Hs Hlo Hk.
  pose proof (child_room _ _ Ha). pose proof (child_room _ _ Hb). pose proof (room_nonneg ca). pose proof (room_nonneg cb).
  apply code_at_app in Hc as [Hc1 Hc]. apply code_at_app in Hc as [Hc2 Hc]. apply code_at_app in Hc as [Hc3 Hc4].
  pose proof (stands_frame _ _ _ _ _ _ Hs) as Hf.
  eapply follows_bind; [eapply (child_correct _ _ _ Ha Hca); [exact Hc1|exact Hs|lia]|]. intros x st1 s1 Hev1.
  eapply follows_arrives; [eapply (keep_left_runs vs); [exact Hev1|exact Hc2|lia]|].
  intros s2 (Hs2 & Hx & Hm2). eapply follows_bind; [eapply (child_correct _ _ _ Hb Hcb); [exact Hc3|exact Hs2|lia]|].
  intros y st2 s3 Hev3. eapply follows_arrives; [eapply (take_left_runs vs); [exact Hev3|exact Hc4|lia|lia|exact Hx]|].
  intros s4 [Hs4 Hx4 Hy4 Hw4 Hm4]. apply Hk. rewrite !length_app.
  replace (p + (length code_a + (length keep_left + (length code_b + length take_left))))%nat
    with (p + length code_a + 2 + length code_b + 3)%nat by (cbn; lia).
  constructor; [exact Hs4|done..|]. intros a Ha'. rewrite Hm4 by done. by apply Hm2.
Qed.

Lemma binary_correct op ca cb code_a code_b code :
  l_opcode l = VNT_IR_BINARY -> binary_of_int (l_operation l) = Some op ->
  child_of VNT_IR_EDGE_LEFT ts = Some ca -> child_of VNT_IR_EDGE_RIGHT ts = Some cb ->
  expression_code program vs ca code_a -> expression_code program vs cb code_b -> operation_code op code ->
  expression_correct (Tree i l ts) (code_a ++ keep_left ++ code_b ++ take_left ++ code).
Proof.
  intros Hop Hbin Ha Hb Hca Hcb Hoc p sp b st s Hc Hs Hlo.
  assert (eval (Tree i l ts) = (x ← eval ca; y ← eval cb; fs_binary op x y)%vnt) as ->.
  { cbn [fs_eval]. rewrite Hop, Hbin, !(child_eval _ _ _ Ha), !(child_eval _ _ _ Hb). destruct Hoc; try done.
    - set_unfold in H. destruct_or! H; by simplify_eq.
    - set_unfold in H. destruct_or! H; by simplify_eq.
    - set_unfold in H. destruct_or! H; by simplify_eq. }
  replace (code_a ++ keep_left ++ code_b ++ take_left ++ code) with ((code_a ++ keep_left ++ code_b ++ take_left) ++ code) in *
    by by rewrite <- !app_assoc.
  apply code_at_app in Hc as [Hc1 Hc2].
  eapply operands_run; [by rewrite Hop|exact Ha|exact Hb|exact Hca|exact Hcb|exact Hc1|exact Hs|exact Hlo|].
  intros x y st' s' Hr. rewrite length_app, Nat.add_assoc. by eapply operation_runs.
Qed.

Lemma index_correct ca cb code_a code_b : l_opcode l = VNT_IR_INDEX ->
  child_of VNT_IR_EDGE_OBJECT ts = Some ca -> child_of VNT_IR_EDGE_INDEX ts = Some cb ->
  expression_code program vs ca code_a -> expression_code program vs cb code_b ->
  expression_correct (Tree i l ts)
    (code_a ++ keep_left ++ code_b ++ take_left ++ [Ins MOVZBL [Mem None RAX (Some RCX); eax]]).
Proof.
  intros Hop Ha Hb Hca Hcb p sp b st s Hc Hs Hlo.
  assert (eval (Tree i l ts) = (x ← eval ca; y ← eval cb; fs_load private W8 (wrap64 (x + y)))%vnt) as ->.
  { cbn [fs_eval]. by rewrite Hop, (child_eval _ _ _ Ha), (child_eval _ _ _ Hb). }
  set (last := [Ins MOVZBL _]) in *.
  replace (code_a ++ keep_left ++ code_b ++ take_left ++ last) with ((code_a ++ keep_left ++ code_b ++ take_left) ++ last) in *
    by by rewrite <- !app_assoc.
  apply code_at_app in Hc as [Hc1 Hc2].
  eapply operands_run; [by rewrite Hop|exact Ha|exact Hb|exact Hca|exact Hcb|exact Hc1|exact Hs|exact Hlo|].
  intros x y st' s' Hr. rewrite length_app, Nat.add_assoc. by eapply index_runs.
Qed.

Lemma unary_run c code st s p sp b Q k : child_of VNT_IR_EDGE_OPERAND ts = Some c -> expression_code program vs c code ->
  code_at image p code -> stands vs p sp b st s -> lo <= sp - room (Tree i l ts) - K ->
  (forall v st' s', evaluated vs (p + length code) sp b (memory s) v st' s' -> follows (k v st') Q s') ->
  follows ((v ← eval c; k v : FsExec Z)%vnt st) Q s.
Proof.
  intros Hch Hcode Hc Hs Hlo Hk. pose proof (child_room _ _ Hch). pose proof (own_room_nonneg (l_opcode l) (length ts)).
  eapply follows_bind; [|exact Hk]. eapply child_correct; [done|done|done|done|lia].
Qed.

Lemma negate_correct c code : l_opcode l = VNT_IR_UNARY -> unary_of_int (l_operation l) = Some UNARY_NEGATE ->
  child_of VNT_IR_EDGE_OPERAND ts = Some c -> expression_code program vs c code ->
  expression_correct (Tree i l ts) (code ++ [Ins NEGQ [rax]; jump_to_fault]).
Proof.
  intros Hop Hun Hch Hcode p sp b st s Hc Hs Hlo. apply code_at_app in Hc as [Hc1 Hc2].
  assert (eval (Tree i l ts) = (v ← eval c; fs_unary UNARY_NEGATE v)%vnt) as ->.
  { cbn [fs_eval]. by rewrite Hop, Hun, (child_eval _ _ _ Hch). }
  eapply unary_run; [done..|]. intros v st' s' Hev. rewrite length_app, Nat.add_assoc. by apply negate_runs.
Qed.

Lemma not_correct c code : l_opcode l = VNT_IR_UNARY -> unary_of_int (l_operation l) = Some UNARY_NOT ->
  child_of VNT_IR_EDGE_OPERAND ts = Some c -> expression_code program vs c code ->
  expression_correct (Tree i l ts) (code ++ [Ins TESTL [eax; eax]; Ins SETE [al]; Ins MOVZBL [al; eax]]).
Proof.
  intros Hop Hun Hch Hcode p sp b st s Hc Hs Hlo. apply code_at_app in Hc as [Hc1 Hc2].
  assert (eval (Tree i l ts) = (v ← eval c; fs_unary UNARY_NOT v)%vnt) as ->.
  { cbn [fs_eval]. by rewrite Hop, Hun, (child_eval _ _ _ Hch). }
  eapply unary_run; [done..|]. intros v st' s' Hev. rewrite length_app, Nat.add_assoc. cbn [fs_unary follows mret Exec_ret].
  rewrite <- xorb_true_l. by eapply (bool_runs _ _ _ _ _ _ _ true).
Qed.

(** [&&] and [||] do not always evaluate their second operand. *)
Lemma logical_correct (is_and : bool) ca cb code_a code_b short done :
  l_opcode l = VNT_IR_BINARY -> binary_of_int (l_operation l) = Some (if is_and then BINARY_AND else BINARY_OR) ->
  child_of VNT_IR_EDGE_LEFT ts = Some ca -> child_of VNT_IR_EDGE_RIGHT ts = Some cb ->
  expression_code program vs ca code_a -> expression_code program vs cb code_b ->
  expression_correct (Tree i l ts)
    (code_a ++ [Ins TESTL [eax; eax]; Ins (if is_and then JZ else JNZ) [local short]] ++ code_b ++
     [Ins TESTL [eax; eax]; Ins SETNE [al]; Ins MOVZBL [al; eax]; Ins JMP [local done];
      LabelLine (LocalLabel short); Ins MOVL [Imm (if is_and then 0 else 1); eax]; LabelLine (LocalLabel done)]).
Proof.
  intros Hop Hbin Ha Hb Hca Hcb p sp b st s Hc Hs Hlo.
  pose proof (child_room _ _ Ha). pose proof (child_room _ _ Hb). pose proof (own_room_nonneg (l_opcode l) (length ts)).
  assert (eval (Tree i l ts) = fs_logical is_and (eval ca) (eval cb)) as ->.
  { cbn [fs_eval]. rewrite Hop, Hbin, !(child_eval _ _ _ Ha), !(child_eval _ _ _ Hb). by destruct is_and. }
  apply code_at_app in Hc as [Hc1 Hc]. apply code_at_app in Hc as [Hc2 Hc]. apply code_at_app in Hc as [Hc3 Hc].
  set (p1 := (p + length code_a)%nat) in *. set (p2 := (p1 + 2)%nat). change (p1 + length _)%nat with p2 in Hc3, Hc.
  set (p3 := (p2 + length code_b)%nat) in *. pose proof Hc as Hc4.
  apply (code_at_app _ _ [_; _; _]) in Hc as [Hc5 Hc]. change (p3 + length _)%nat with (p3 + 3)%nat in Hc.
  do 4 (apply code_at_cons in Hc as [?HL Hc]).
  replace (p + length _)%nat with (p3 + 7)%nat by (rewrite !length_app; cbn; lia).
  assert (forall q v st' s', evaluated vs q sp b (memory s) v st' s' -> q = S (S (S (p3 + 3))) ->
    arrives (evaluated vs (p3 + 7) sp b (memory s) v st') s') as Hend.
  { intros q v st' s' Hev ->. eapply arrives_pass.
    { left. eexists. by rewrite (stands_p _ _ _ _ _ (evaluated_stands _ _ _ _ _ _ _ _ Hev)). }
    apply arrives_now. destruct Hev as [Hs' Hv' Hw' Hm']. constructor; [|done..].
    pose proof (stands_frame _ _ _ _ _ _ Hs').
    eapply stands_move; [exact Hs'| |apply Hs'|done|lia|apply kept_same].
    cbn. rewrite (stands_p _ _ _ _ _ Hs'). lia. }
  eapply follows_bind; [eapply (child_correct _ _ _ Ha Hca); [exact Hc1|exact Hs|lia]|]. intros x st1 s1 Hev1.
  eapply (test_runs vs _ _ _ _ _ _ _ _ _ is_and); [exact Hev1|exact Hc2|exact HL0| |].
  - intros Hx s2 Hev2. rewrite Hx. assert (Bool.eqb (negb is_and) is_and = false) as -> by by destruct is_and.
    cbn [follows mret Exec_ret].
    assert (evaluated vs (S (S (p3 + 3))) sp b (memory s) x st1 (advanced s2)) as Hev2'.
    { destruct Hev2 as [Hs2 Hv2 Hw2 Hm2]. constructor; [|done..]. pose proof (stands_frame _ _ _ _ _ _ Hs2).
      eapply stands_move; [exact Hs2| |apply Hs2|done|lia|apply kept_same]. cbn. by rewrite (stands_p _ _ _ _ _ Hs2). }
    eapply arrives_pass.
    { left. eexists. by rewrite (stands_p _ _ _ _ _ (evaluated_stands _ _ _ _ _ _ _ _ Hev2)). }
    eapply arrives_trans; [eapply (value_runs vs _ _ _ _ _ [Ins MOVL [Imm (if is_and then 0 else 1); eax]] (Z.b2z (negb is_and))
      (evaluated_stands _ _ _ _ _ _ _ _ Hev2'))|].
    + by apply code_at_single.
    + apply word_bool.
    + eexists. split; [run_lines|]. cpu_state. by destruct is_and.
    + intros s3 Hev3. eapply Hend; [|reflexivity]. eapply evaluated_weaken; [|].
      2:{ replace (S (S (S (p3 + 3)))) with (S (S (p3 + 3)) + 1)%nat by lia. exact Hev3. }
      apply Hev2'.
  - intros Hx s2 Hev2. rewrite Hx. rewrite Bool.eqb_reflx.
    eapply follows_bind; [eapply (child_correct _ _ _ Hb Hcb); [exact Hc3|apply Hev2|lia]|]. intros y st3 s3 Hev3.
    cbn [follows mret Exec_ret]. eapply arrives_trans; [eapply (bool_runs _ _ _ _ _ _ _ false); [exact Hev3|exact Hc5]|].
    intros s4 Hev4. eapply arrives_jump; [apply labels_unique| |exact HL2|].
    { rewrite (stands_p _ _ _ _ _ (evaluated_stands _ _ _ _ _ _ _ _ Hev4)). exact HL. }
    eapply Hend; [|reflexivity]. destruct Hev4 as [Hs4 Hv4 Hw4 Hm4]. constructor; [|done..|].
    + pose proof (stands_frame _ _ _ _ _ _ Hs4). eapply stands_move; [exact Hs4|done|apply Hs4|done|lia|apply kept_same].
    + intros a Ha'. cbn. rewrite Hm4 by done. by apply Hev2.
Qed.

(** ** Arguments *)

(** Values that are on the stack from [sp] on. *)
Definition held (sp : Z) (values : list Z) (m : Memory) : Prop :=
  forall j v, values !! j = Some v -> word v /\ wrap64 (load 8 m (sp + Z.of_nat j * 8)) = v.

Lemma held_same sp values m m' : held sp values m ->
  (forall a, sp <= a < sp + Z.of_nat (length values) * 8 -> m' a = m a) -> held sp values m'.
Proof.
  intros H Hm j v Hj. destruct (H j v Hj) as [Hw Hv]. split; [done|]. rewrite <- Hv. f_equal.
  apply lookup_lt_Some in Hj. apply load_ext. intros a Ha. apply Hm. lia.
Qed.

(** A value is put in its place. *)
Lemma store_argument p sp b m v st s k top : evaluated vs p sp b m v st s ->
  code_at image p [Ins MOVQ [rax; on_stack (Z.of_nat k * 8)]] -> lo <= sp -> sp + Z.of_nat k * 8 + 8 <= top ->
  top + slots_size vs <= b ->
  arrives (fun s' => stands vs (S p) sp b st s' /\ memory s' = store 8 v (sp + Z.of_nat k * 8) (memory s)) s.
Proof.
  intros [Hs Hv Wv Hm] Hc Hlo Htop Hb. pose proof (stands_frame _ _ _ _ _ _ Hs) as Hf.
  destruct (stands_words _ _ _ _ _ _ Hs Hlo) as [Wsp Wb]. pose proof (Zle_0_nat (length vs)) as Hn.
  assert (word (sp + Z.of_nat k * 8)) as Wa by (unfold slots_size in *; pose proof stack_low; pose proof stack_high; range).
  assert (exists s', straight [Ins MOVQ [rax; on_stack (Z.of_nat k * 8)]] s s' /\ registers s' = registers s /\
    memory s' = store 8 v (sp + Z.of_nat k * 8) (memory s)) as (s' & Hrun & Hg & Hm').
  { eexists. split; [run_lines|]. cpu_state. rewrite Hv, (stands_top _ _ _ _ _ _ Hs). rewrite (Z.add_comm _ sp). words. done. }
  eapply arrives_straight; [by rewrite (stands_p _ _ _ _ _ Hs)|]. exists s'. split; [exact Hrun|]. apply arrives_now. split; [|done].
  eapply stands_change; [exact Hs| | |by rewrite Hg|lia|done| |].
  - rewrite (straight_pc _ _ _ _ _ _ _ Hrun), (stands_p _ _ _ _ _ Hs). cbn. lia.
  - by rewrite Hg, (stands_top _ _ _ _ _ _ Hs).
  - rewrite Hm'. eapply (kept_agrees top); [|apply kept_store|apply Hs]; unfold slots_size in *; lia.
  - intros a Ha. rewrite Hm'. apply store_outside. unfold slots_size in *. lia.
Qed.

Lemma arguments_run sp b top us codes : Forall2 (expression_code program vs) us codes ->
  Forall (fun t => t ∈ ts) us -> lo <= sp - foldr Z.max 0 (map room ts) - K -> top + slots_size vs <= b ->
  forall ai values p st s, length values = ai -> sp + Z.of_nat (ai + length us) * 8 <= top ->
  stands vs p sp b st s -> code_at image p (arguments_from ai codes) -> held sp values (memory s) ->
  follows (fs_in_turn (map eval us) st) (fun vals st' s' =>
    stands vs (p + length (arguments_from ai codes)) sp b st' s' /\ length vals = length us /\
    held sp (values ++ vals) (memory s') /\ (forall a, top <= a < hi -> memory s' a = memory s a)) s.
Proof.
  intros Hcodes Hin Hlo Htop. pose proof (max_room_nonneg ts) as Hmax.
  induction Hcodes as [|t code us codes Ht Hcodes IHus]; intros ai values p st s Hlen Hsize Hs Hc Hheld.
  - cbn. apply arrives_now. rewrite Nat.add_0_r, app_nil_r. done.
  - inversion Hin as [|? ? Hint Hin']; subst. specialize (IHus Hin').
    rewrite arguments_from_cons in Hc |- *. apply code_at_app in Hc as [Hc1 Hc3]. apply code_at_app in Hc1 as [Hc1 Hc2].
    pose proof (stands_frame _ _ _ _ _ _ Hs) as Hf. cbn [length] in Hsize. pose proof (Zle_0_nat (length vs)) as Hn.
    unfold slots_size in *.
    rewrite Forall_forall in IH. cbn [map fs_in_turn].
    eapply follows_bind; [eapply (IH t Hint code Ht); [exact Hc1|exact Hs|]|].
    { pose proof (max_room_in t ts Hint). lia. }
    intros v st1 s1 Hev. eapply follows_arrives.
    { eapply (store_argument _ _ _ _ _ _ _ (length values) top); [exact Hev|exact Hc2| | |]; unfold slots_size; lia. }
    intros s2 [Hs2 Hm2].
    assert (held sp (values ++ [v]) (memory s2)) as Hheld2.
    { intros j w Hj. apply lookup_app_Some in Hj as [Hj|[Hj Hw]].
      - rewrite Hm2. pose proof (lookup_lt_Some _ _ _ Hj). destruct (Hheld j w Hj) as [Ww Hw]. split; [done|].
        rewrite load_store_other by lia. rewrite <- Hw. f_equal. apply load_ext. intros a Ha. apply Hev. lia.
      - destruct (j - length values)%nat eqn:E; [|done]. injection Hw as <-. assert (j = length values) as -> by lia.
        rewrite Hm2, load_word by (apply in_int64_bounds, Hev). split; [apply Hev|done]. }
    eapply follows_bind.
    { eapply (IHus (S (length values)) (values ++ [v])); [by rewrite length_app, Nat.add_comm|lia|exact Hs2| |exact Hheld2].
      replace (S (p + length code)) with (p + length (code ++ [Ins MOVQ [rax; on_stack (Z.of_nat (length values) * 8)]]))%nat
        by (rewrite length_app; cbn; lia). exact Hc3. }
    cbv beta. intros vals st3 s3 (Hs3 & Hl3 & Hheld3 & Hm3). apply arrives_now. split_and!.
    + replace (p + _)%nat with (S (p + length code) + length (arguments_from (S (length values)) codes))%nat
        by (rewrite !length_app; cbn; lia). exact Hs3.
    + cbn. lia.
    + by rewrite <- app_assoc in Hheld3.
    + intros a Ha. rewrite Hm3, Hm2, store_outside by lia. apply Hev. lia.
Qed.

(** ** Calls *)

(** A call has been made: there is a value or not. *)
Record called (p : nat) (sp b : Z) (m : Memory) (v : option Z) (st : FsState) (s : Cpu) : Prop := {
  called_stands : stands vs p sp b st s;
  called_value z : v = Some z -> registers s RAX = z /\ word z;
  called_above : forall a, sp <= a < hi -> memory s a = m a
}.

Lemma evaluated_called p sp b m v st s : evaluated vs p sp b m v st s -> called p sp b m (Some v) st s.
Proof. intros [Hs Hv Hw Hm]. constructor; [done| |done]. by intros z [= <-]. Qed.

(** The arguments are loaded from their places. *)
Lemma load_arguments_run p sp b st s regs values n : stands vs p sp b st s -> lo <= sp -> n = length values ->
  (n <= length regs)%nat -> sp + Z.of_nat n * 8 <= hi ->
  NoDup regs -> RSP ∉ regs -> RBP ∉ regs -> held sp values (memory s) ->
  exists s', straight (load_arguments regs n) s s' /\ registers_hold regs values s' /\
    stands vs (p + length (load_arguments regs n)) sp b st s' /\ memory s' = memory s.
Proof.
  intros Hs Hlo -> Hlen Hhi Hd Hsp Hbp Hheld. pose proof (stands_frame _ _ _ _ _ _ Hs).
  destruct (stands_words _ _ _ _ _ _ Hs Hlo) as [Wsp _]. pose proof stack_high.
  assert (forall r, r ∈ take (length values) regs -> r ∈ regs) as Hsub.
  { intros r Hr. rewrite <- (take_drop (length values) regs). apply elem_of_app. by left. }
  destruct (load_straight (take (length values) regs) 0 sp s (stands_top _ _ _ _ _ _ Hs) Wsp) as (s' & Hrun & Hregs & Hother & Hm).
  - rewrite length_take_le by done. range.
  - rewrite <- (take_drop (length values) regs) in Hd. by apply NoDup_app in Hd as [Hd _].
  - intros Hr. by apply Hsp, Hsub.
  - intros Hr. by apply Hbp, Hsub.
  - exists s'. split; [exact Hrun|]. split_and!; [| |done].
    + intros j r v Hr Hv. destruct (Hheld j v Hv) as [Ww Hw]. rewrite (Hregs j r); [done|].
      rewrite lookup_take_lt; [done|]. by eapply lookup_lt_Some.
    + eapply stands_move; [exact Hs| | | |lia|by rewrite Hm].
      * by rewrite (straight_pc _ _ _ _ _ _ _ Hrun), (stands_p _ _ _ _ _ Hs).
      * rewrite Hother, (stands_top _ _ _ _ _ _ Hs); [done|]. intros Hr. by apply Hsp, Hsub.
      * rewrite Hother; [done|]. intros Hr. by apply Hbp, Hsub.
Qed.

(** What is run when the arguments have their values. *)
Definition call_run (name : bytes) (values : list Z) : FsExec (option Z) :=
  match fs_intrinsic private name values with
  | Some m => (v ← m; mret (Some v))%vnt
  | None => call name values
  end.

Lemma follows_some (m : FsExec Z) st p sp b m0 s :
  follows (m st) (evaluated vs p sp b m0) s -> follows ((v ← m; mret (Some v))%vnt st) (called p sp b m0) s.
Proof.
  intros H. eapply follows_bind; [exact H|]. intros v st' s' Hev. apply arrives_now. by apply evaluated_called.
Qed.

Lemma raw_operation_exchange name raw : raw_operation name = Some raw -> bytes_eqb name (str "cpu_atomic_exchange_u64") = false.
Proof. intros H. destruct (bytes_eqb name _) eqn:E; [|done]. apply bytes_eqb_spec in E as ->. discriminate H. Qed.

Lemma call_middle name values code p sp b st s : call_code program name (length values) code ->
  unmodelled_call name = false -> stands vs p sp b st s -> lo <= sp - K -> sp + Z.of_nat (length values) * 8 <= hi ->
  held sp values (memory s) -> code_at image p code ->
  follows (call_run name values st) (called (p + length code) sp b (memory s)) s.
Proof.
  intros Hcode Hun Hs Hlo Hhi Hheld Hc. destruct (stands_words _ _ _ _ _ _ Hs ltac:(lia)) as [Wsp Wb]. pose proof stack_high.
  inversion Hcode as [E1 E2 E3|E1 E2 E3|E1 E2 E3|? raw Hraw Hcr2 E1 E2|? f Hf H6 Hint E1 E2]; subst; try discriminate Hun;
    unfold call_run, fs_intrinsic.
  - destruct values as [|a [|v [|]]]; try done. cbn [length] in *.
    rewrite (proj2 (bytes_eqb_spec _ _) eq_refl). apply follows_some.
    destruct (Hheld 0%nat a eq_refl) as [Wa Ha]. destruct (Hheld 1%nat v eq_refl) as [Wv Hv].
    rewrite Z.add_0_r in Ha. eapply exchange_runs; [exact Hs|lia|range|exact Ha|exact Hv|exact Hc].
  - rewrite (raw_operation_exchange _ _ Hraw), Hraw.
    apply code_at_app in Hc as [Hc1 Hc2]. rewrite length_app, Nat.add_assoc.
    destruct (load_arguments_run p sp b st s [RDI; RSI; RDX] values (raw_argc raw) Hs) as (s1 & Hrun & Hregs & Hs1 & Hm1);
      [lia|done|destruct raw; cbn; lia|lia|by repeat constructor; set_solver|set_solver|set_solver|done|].
    eapply follows_straight; [rewrite (stands_p _ _ _ _ _ Hs); exact Hc1|]. exists s1. split; [exact Hrun|].
    assert (follows (raw_run raw values st) (evaluated vs (p + length (load_arguments [RDI; RSI; RDX] (raw_argc raw)) + length (raw_instructions raw)) sp b (memory s)) s1) as H1.
    { rewrite <- Hm1. by apply raw_runs; [|lia|..]. }
    apply follows_some in H1.
    destruct raw as [w|w| |]; try done; destruct values as [|a1 [|a2 [|a3 [|]]]]; try done; exact H1.
  - unfold is_intrinsic in Hint. rewrite !orb_false_iff in Hint. destruct Hint as [[_ Hex] Hraw].
    rewrite Hex. apply bool_decide_eq_false in Hraw. destruct (raw_operation name) as [raw|]; [destruct Hraw; by exists raw|].
    apply code_at_app in Hc as [Hc1 Hc2]. rewrite length_app, Nat.add_assoc.
    match goal with H : length (l_names (label f)) = length values |- _ => rename H into Hlen | H : length values = length (l_names (label f)) |- _ => symmetry in H; rename H into Hlen end.
    destruct (load_arguments_run p sp b st s argument_registers values (length (l_names (label f))) Hs) as (s1 & Hrun & Hregs & Hs1 & Hm1);
      [lia|done|exact H6|lia|by repeat constructor; set_solver|set_solver|set_solver|done|].
    eapply follows_straight; [rewrite (stands_p _ _ _ _ _ Hs); exact Hc1|]. exists s1. split; [exact Hrun|].
    apply code_at_cons in Hc2 as [Hcall _].
    eapply follows_mono; [eapply (call_correct name f values st s1 _ sp Hf)|].
    + done.
    + exact Hcall.
    + apply Hs1.
    + apply Hs1.
    + rewrite (stands_base _ _ _ _ _ _ Hs1). exact Wb.
    + exact Hregs.
    + apply Hs1.
    + lia.
    + lia.
    + intros v st' s' [Hp Ht Hb Hv Hh Hl Ha]. pose proof (stands_frame _ _ _ _ _ _ Hs1).
      pose proof (Zle_0_nat (length vs)). constructor; [|done|].
      * eapply stands_change; [exact Hs1| |exact Ht|exact Hb|lia|exact Hl|exact Hh|].
        -- rewrite Hp. cbn. lia.
        -- intros a Ha'. apply Ha. unfold slots_size in *. lia.
      * intros a Ha'. by rewrite Ha, Hm1.
Qed.

Lemma call_code_modelled name n code : call_code program name n code -> bytes_eqb name (str "symbol_address") = false.
Proof.
  intros H. destruct (bytes_eqb name (str "symbol_address")) eqn:E; [|done]. apply bytes_eqb_spec in E as ->.
  inversion H as [| | |? raw Hraw|? f ? ? Hint]; subst; done.
Qed.

Lemma call_runs p sp b st s codes code : l_opcode l = VNT_IR_CALL -> unmodelled_call (label_text l) = false ->
  Forall2 (expression_code program vs) (children_in VNT_IR_EDGE_ARGUMENT ts) codes ->
  call_code program (label_text l) (length codes) code ->
  let all := reserve (argument_area (length codes)) ++ arguments_code codes ++ code ++ release (argument_area (length codes)) in
  code_at image p all -> stands vs p sp b st s -> lo <= sp - room (Tree i l ts) - K ->
  follows (fs_apply_call symbol_place private call (label_text l) ts (map eval (children_in VNT_IR_EDGE_ARGUMENT ts)) st)
    (called (p + length all) sp b (memory s)) s.
Proof.
  intros Hop Hun Hcodes Hcall all Hc Hs Hlo. subst all. unfold fs_apply_call. rewrite (call_code_modelled _ _ _ Hcall), Hun.
  set (area := argument_area (length codes)) in *. apply code_at_app in Hc as [Hc1 Hc].
  apply code_at_app in Hc as [Hc2 Hc]. apply code_at_app in Hc as [Hc3 Hc4]. rewrite !length_app, !Nat.add_assoc.
  pose proof (Forall2_length _ _ _ Hcodes) as Hlen. pose proof (stands_frame _ _ _ _ _ _ Hs) as Hf.
  pose proof (Zle_0_nat (length vs)) as Hn. pose proof (max_room_nonneg ts) as Hmax.
  pose proof (argument_area_bounds (length codes)) as Harea. fold area in Harea.
  assert (length (children_in VNT_IR_EDGE_ARGUMENT ts) <= length ts)%nat as Hsub.
  { unfold children_in, in_edge. rewrite length_map. etrans; [apply length_filter|]. by rewrite length_map. }
  assert (area <= argument_area (length ts)) as Hmono by (apply argument_area_mono; lia).
  cbn [room] in Hlo. rewrite Hop in Hlo. cbn [own_room] in Hlo. pose proof stack_low. pose proof stack_high. pose proof stack_size. pose proof (Zle_0_nat (length codes)).
  assert (0 <= slots_size vs) as Hslots by (unfold slots_size; lia).
  destruct (stands_words _ _ _ _ _ _ Hs ltac:(lia)) as [Wsp Wb].
  destruct (reserve_straight area sp s (stands_top _ _ _ _ _ _ Hs) Wsp) as (s1 & Hrun & Ht1 & Hb1 & Hm1); [range..|].
  eapply follows_straight; [rewrite (stands_p _ _ _ _ _ Hs); exact Hc1|]. exists s1. split; [exact Hrun|].
  assert (stands vs (p + length (reserve area)) (sp - area) b st s1) as Hs1.
  { eapply stands_move; [exact Hs| |exact Ht1|exact Hb1|lia|by rewrite Hm1].
    by rewrite (straight_pc _ _ _ _ _ _ _ Hrun), (stands_p _ _ _ _ _ Hs). }
  eapply follows_bind.
  { eapply (fun H1 H2 H3 => arguments_run (sp - area) b sp _ codes Hcodes H1 H2 H3 0%nat []); [|lia|unfold slots_size in *; lia|done|lia|exact Hs1|exact Hc2|].
    - apply Forall_forall. intros t. apply children_in_in.
    - by intros j v Hj. }
  cbv beta. intros values st2 s2 (Hs2 & Hlen2 & Hheld2 & Hm2). cbn [app] in Hheld2.
  change (match fs_intrinsic private (label_text l) values with Some m => _ | None => _ end)
    with (call_run (label_text l) values).
  assert (length values = length codes) as Hlv by lia. rewrite <- Hlv in Hcall.
  eapply follows_then.
  { eapply call_middle; [exact Hcall|exact Hun|exact Hs2|lia|lia|exact Hheld2|exact Hc3]. }
  intros v st3 s3 [Hs3 Hv3 Hm3].
  destruct (release_straight area (sp - area) s3 (stands_top _ _ _ _ _ _ Hs3)) as (s4 & Hrun4 & Ht4 & Hax4 & Hb4 & Hm4); [range..|].
  eapply arrives_straight; [rewrite (stands_p _ _ _ _ _ Hs3); exact Hc4|]. exists s4. split; [exact Hrun4|]. apply arrives_now.
  constructor.
  - eapply stands_move; [exact Hs3| | |exact Hb4|lia|by rewrite Hm4].
    + by rewrite (straight_pc _ _ _ _ _ _ _ Hrun4), (stands_p _ _ _ _ _ Hs3).
    + rewrite Ht4. lia.
  - intros z Hz. rewrite Hax4. by apply Hv3.
  - intros a Ha. rewrite Hm4, Hm3, Hm2, Hm1 by lia. done.
Qed.

End node.

(** * Expressions *)

Lemma call_expression_runs i l ts code p sp b st s : l_opcode l = VNT_IR_CALL ->
  Forall (fun t => forall code, expression_code program vs t code -> expression_correct t code) ts ->
  expression_code program vs (Tree i l ts) code -> code_at image p code ->
  stands vs p sp b st s -> lo <= sp - room (Tree i l ts) - K ->
  follows (fs_apply_call symbol_place private call (label_text l) ts
    (in_edge VNT_IR_EDGE_ARGUMENT (map (fun t => (l_role (label t), eval t)) ts)) st)
    (called (p + length code) sp b (memory s)) s.
Proof.
  intros Hop IH Hcode Hc Hs Hlo. rewrite in_edge_map. destruct (unmodelled_call (label_text l)) eqn:Hun.
  { unfold fs_apply_call. rewrite Hun. assert (bytes_eqb (label_text l) (str "symbol_address") = false) as ->; [|done].
    destruct (bytes_eqb (label_text l) (str "symbol_address")) eqn:E; [|done]. apply bytes_eqb_spec in E.
    rewrite E in Hun. discriminate Hun. }
  inversion Hcode as [| | | | | | | | |? ? a ? Ht|? ? ? Ht|? ? ? codes code' ? Hcodes Hcall]; subst; try congruence.
  - unfold fs_apply_call. rewrite Ht, (proj2 (bytes_eqb_spec _ _) eq_refl). cbn [follows mret Exec_ret].
    eapply arrives_mono; [eapply (value_runs vs p sp b st s [_]); [exact Hs|exact Hc|apply word_wrap|]|].
    + eexists. split; [run_lines|]. cpu_state. done.
    + intros s'. apply evaluated_called.
  - by rewrite Ht in Hun.
  - by eapply (call_runs i l ts IH).
Qed.

Lemma expression_code_correct t : forall code, expression_code program vs t code -> expression_correct t code.
Proof.
  induction t as [i l ts IH] using tree_ind. intros code Hcode.
  destruct (decide (l_opcode l = VNT_IR_CALL)) as [Hop|Hop].
  { intros p sp b st s Hc Hs Hlo. cbn [fs_eval]. rewrite Hop.
    eapply follows_bind; [by eapply call_expression_runs|]. intros v st' s' [Hs' Hv Hm]. destruct v as [v|]; [|done].
    apply arrives_now. destruct (Hv v eq_refl) as [Hax Hw]. by constructor. }
  assert (forall p sp b st s v, stands vs p sp b st s -> code_at image p code -> word v ->
    eval (Tree i l ts) = mret v -> (exists s', straight code s s' /\ registers s' RAX = v /\
      registers s' RSP = registers s RSP /\ registers s' RBP = registers s RBP /\ memory s' = memory s) ->
    follows (eval (Tree i l ts) st) (evaluated vs (p + length code) sp b (memory s)) s) as Hvalue.
  { intros p sp b st s v Hs Hc Wv -> Hrun. by eapply value_runs. }
  inversion Hcode; subst; try congruence.
  - intros p sp b st s Hc Hs Hlo. eapply (Hvalue p sp b st s (wrap64 z)); [exact Hs|exact Hc|apply word_wrap| |].
    + cbn [fs_eval]. rewrite H3. by rewrite H4.
    + destruct (in_int32 z); (eexists; split; [run_lines|]; cpu_state; rewrite ?wrap64_idemp; done).
  - intros p sp b0 st s Hc Hs Hlo. eapply (Hvalue p sp b0 st s (Z.b2z b)); [exact Hs|exact Hc|apply word_bool| |].
    + cbn [fs_eval]. rewrite H3. by rewrite H4.
    + eexists. split; [run_lines|]. cpu_state. by destruct b.
  - intros p sp b st s Hc Hs Hlo. eapply (Hvalue p sp b st s (wrap64 (symbol_place (StringLabel i)))); [exact Hs|exact Hc|apply word_wrap| |].
    + cbn [fs_eval]. by rewrite H3.
    + eexists. split; [run_lines|]. cpu_state. done.
  - intros p sp b st s Hc Hs Hlo. cbn [fs_eval]. rewrite H3. pose proof (room_nonneg (Tree i l ts)).
    eapply variable_runs; [exact Hs|lia|done|exact Hc].
  - by eapply negate_correct.
  - by eapply not_correct.
  - by eapply logical_correct.
  - by eapply binary_correct.
  - by eapply index_correct.
Qed.

End expressions.
