(* ===== verification/FreestandingStatements.v ===== *)
(** FreestandingStatements: the code of statements does what they mean: a statement ends
    normally at the end of its code, or at a label of the loop around it, or where the
    function returns. *)

From stdpp Require Import list sets gmap.
From S2P Require Import Prelude Clib Ast Ir IrTrees IrFacts HirSemantics Asm.
From S2P Require Import Freestanding FreestandingRuns FreestandingCode FreestandingEmit FreestandingProgram AsmFacts.
From S2P Require Import FreestandingSteps FreestandingExpressions.
Local Open Scope Z_scope.

Section statements.
Context {L : Layout} {Laws : LayoutLaws} (program : tree) (vs : list (bytes * bytes)).
Context (call : bytes -> list Z -> FsExec (option Z)) (K : Z) (loops : nat).
Hypothesis call_room : 0 <= K.
Hypothesis call_correct : calls_correct program call K.

Abbreviation arrives := (arrives symbol_place code_place code_index image).
Abbreviation straight := (straight symbol_place code_place code_index image).
Abbreviation eval := (fs_eval symbol_place private call).
Abbreviation exec := (fs_exec symbol_place private call vs loops).

Lemma expressions t code : expression_code program vs t code -> expression_correct vs call K t code.
Proof. by apply expression_code_correct. Qed.

(** * How statements end *)

Definition placed (l : nat) (k : nat) : Prop := image !! k = Some (LabelLine (LocalLabel l)).

Definition completed (Ls : list (nat * nat)) (p : nat) (sp b : Z) (m : Memory) (c : fs_completion) (st : FsState)
    (s : Cpu) : Prop :=
  match c with
  | FsNormal => stands vs p sp b st s
  | FsBroke => exists start done_ k, head Ls = Some (start, done_) /\ placed done_ k /\ stands vs k sp b st s
  | FsContinued => exists start done_ k, head Ls = Some (start, done_) /\ placed start k /\ stands vs k sp b st s
  | FsReturned v => exists q, code_at image q [Ins LEAVE []; Ins RET []] /\ stands vs q sp b st s /\
      forall z, v = Some z -> registers s RAX = z /\ word z
  end /\ forall a, b <= a < hi -> memory s a = m a.

Definition loops_placed (Ls : list (nat * nat)) : Prop :=
  Forall (fun l => (exists k, placed l.1 k) /\ exists k, placed l.2 k) Ls.

Definition statement_correct (Ls : list (nat * nat)) (t : tree) (code : list Line) : Prop :=
  forall p sp b st s, code_at image p code -> stands vs p sp b st s -> lo <= sp - room t - K -> loops_placed Ls ->
  follows (exec t st) (completed Ls (p + length code) sp b (memory s)) s.

Lemma placed_unique l k k' : placed l k -> placed l k' -> k = k'.
Proof.
  intros H%(label_position_unique _ _ _ labels_unique) H'%(label_position_unique _ _ _ labels_unique). congruence.
Qed.

Lemma completed_weaken Ls p sp b m m' c st s : (forall a, b <= a < hi -> m a = m' a) ->
  completed Ls p sp b m c st s -> completed Ls p sp b m' c st s.
Proof. intros H [Hc Hm]. split; [done|]. intros a Ha. by rewrite Hm, H. Qed.

(** A label is passed, or jumped to. *)
Lemma stands_goto p k sp b st s : stands vs p sp b st s -> stands vs k sp b st (set_pc k s).
Proof. intros []. by constructor. Qed.

Lemma stands_pass p sp b st s P : stands vs p sp b st s -> (exists l, placed l p) ->
  (stands vs (S p) sp b st (advanced s) -> arrives P (advanced s)) -> arrives P s.
Proof.
  intros Hs [l Hl] HP. eapply arrives_pass; [left; eexists; by rewrite (stands_p _ _ _ _ _ _ Hs)|]. apply HP.
  unfold advanced. rewrite (stands_p _ _ _ _ _ _ Hs). by eapply stands_goto.
Qed.

Lemma stands_jump p k l sp b st s P : stands vs p sp b st s -> image !! p = Some (Ins JMP [local l]) -> placed l k ->
  (stands vs k sp b st (set_pc k s) -> arrives P (set_pc k s)) -> arrives P s.
Proof.
  intros Hs Hj Hk HP. eapply arrives_jump; [apply labels_unique| |exact Hk|apply HP; by eapply stands_goto].
  by rewrite (stands_p _ _ _ _ _ _ Hs).
Qed.

Lemma follows_pass {A} (r : run FsState A) Q p sp b st s : stands vs p sp b st s -> (exists l, placed l p) ->
  (forall s', stands vs (S p) sp b st s' -> memory s' = memory s -> follows r Q s') -> follows r Q s.
Proof.
  intros Hs Hl Hk. apply (follows_arrives _ (fun s' => stands vs (S p) sp b st s' /\ memory s' = memory s)).
  - eapply stands_pass; [exact Hs|exact Hl|]. intros H. by apply arrives_now.
  - intros s' [Hs' Hm']. by apply Hk.
Qed.

Lemma follows_jump {A} (r : run FsState A) Q p k l sp b st s : stands vs p sp b st s ->
  image !! p = Some (Ins JMP [local l]) -> placed l k ->
  (forall s', stands vs k sp b st s' -> memory s' = memory s -> follows r Q s') -> follows r Q s.
Proof.
  intros Hs Hj Hp Hk. apply (follows_arrives _ (fun s' => stands vs k sp b st s' /\ memory s' = memory s)).
  - eapply stands_jump; [exact Hs|exact Hj|exact Hp|]. intros H. by apply arrives_now.
  - intros s' [Hs' Hm']. by apply Hk.
Qed.

Lemma frame_above p sp b st s m v : evaluated vs p sp b m v st s -> forall a, b <= a < hi -> memory s a = m a.
Proof.
  intros [Hs _ _ Hm] a Ha. apply Hm. pose proof (stands_frame _ _ _ _ _ _ Hs). pose proof (Zle_0_nat (length vs)).
  unfold slots_size in *. lia.
Qed.

(** * Sequences *)

Lemma sequence_runs Ls us codes : Forall2 (statement_correct Ls) us codes -> loops_placed Ls ->
  forall p sp b st s, code_at image p (concat codes) -> stands vs p sp b st s ->
  Forall (fun t => lo <= sp - room t - K) us ->
  follows (fs_sequence (map exec us) st) (completed Ls (p + length (concat codes)) sp b (memory s)) s.
Proof.
  intros Hus HLs. induction Hus as [|t code us codes Ht Hus IH]; intros p sp b st s Hc Hs Hroom.
  - apply arrives_now. rewrite Nat.add_0_r. split; [done|]. done.
  - inversion Hroom as [|? ? Hrt Hrus]; subst. cbn [concat] in *. apply code_at_app in Hc as [Hc1 Hc2].
    cbn [map fs_sequence]. eapply follows_bind; [by apply (Ht p sp b)|]. intros c st1 s1 [Hc' Hm].
    rewrite length_app, Nat.add_assoc. destruct c; try (apply arrives_now; by split).
    eapply follows_mono; [by apply (IH (p + length code)%nat sp b)|]. intros c st2 s2. by apply completed_weaken.
Qed.

Section node.
Context (i : nat) (l : Label) (ts : list tree).
Hypothesis IH : Forall (fun t => forall Ls code, statement_code program vs Ls t code -> statement_correct Ls t code) ts.

Lemma children_run Ls r codes p sp b st s :
  Forall2 (statement_code program vs Ls) (children_in r ts) codes -> loops_placed Ls ->
  code_at image p (concat codes) -> stands vs p sp b st s -> lo <= sp - room (Tree i l ts) - K ->
  follows (fs_sequence (in_edge r (map (fun t => (l_role (label t), exec t)) ts)) st)
    (completed Ls (p + length (concat codes)) sp b (memory s)) s.
Proof.
  intros Hcodes HLs Hc Hs Hlo. rewrite in_edge_map.
  assert (forall t, t ∈ children_in r ts -> t ∈ ts) as Hin by (intros t; apply children_in_in).
  apply sequence_runs; [|done..|].
  - rewrite Forall_forall in IH. clear Hc. revert Hin. induction Hcodes as [|t code us codes Ht Hus IHus]; intros Hin; constructor.
    + apply IH; [apply Hin; by constructor|done].
    + apply IHus. intros u Hu. apply Hin. by constructor.
  - apply Forall_forall. intros t Ht%Hin. pose proof (room_child i l ts t Ht).
    pose proof (own_room_nonneg (l_opcode l) (length ts)). lia.
Qed.

Lemma value_role_run {A} r c code p sp b st s (k : Z -> FsExec A) Q : child_of r ts = Some c -> expression_code program vs c code ->
  code_at image p code -> stands vs p sp b st s -> lo <= sp - room (Tree i l ts) - K ->
  (forall v st' s', evaluated vs (p + length code) sp b (memory s) v st' s' -> follows (k v st') Q s') ->
  follows ((v ← eval_role symbol_place private call r ts; k v)%vnt st) Q s.
Proof.
  intros Hch Hcode Hc Hs Hlo Hk. unfold eval_role. rewrite (child_eval call r ts c Hch).
  pose proof (room_child i l ts c (proj1 (child_of_in _ _ _ Hch))). pose proof (own_room_nonneg (l_opcode l) (length ts)).
  eapply follows_bind; [|exact Hk]. eapply expressions; [done|done|done|lia].
Qed.

(** * Variables *)

Lemma store_code_straight vi b v s : registers s RBP = b -> registers s RAX = v -> word v -> word (slot_address b vi) ->
  exists s', straight (store_code vs vi) s s' /\ registers s' = registers s /\
    memory s' = if wide_at vs vi then store 8 v (slot_address b vi) (memory s)
                else store 4 (low32 v) (slot_address b vi) (memory s).
Proof.
  intros Hb Hv Wv W. pose proof (slot_effective b vi s Hb W) as Heff. unfold store_code.
  destruct (wide_at vs vi); (eexists; split; [run_lines|]);
    cbn [registers memory advanced set_pc set_memory set_register register_eqb extended width_bytes]; rewrite Heff, Hv; [by words|done].
Qed.

Lemma kept_wide x vi v : index_of x vs = Some vi -> kept vs x v = if wide_at vs vi then v else low32 v.
Proof.
  intros Hvi. unfold kept, wide_at. rewrite Hvi. cbn [default id]. destruct (index_of_lookup _ _ _ Hvi) as [type E].
  by rewrite E.
Qed.

Lemma slot_value_store b vi v m : word v ->
  slot_value vs b vi (if wide_at vs vi then store 8 v (slot_address b vi) m
                      else store 4 (low32 v) (slot_address b vi) m) = if wide_at vs vi then v else low32 v.
Proof.
  intros Wv. unfold slot_value. destruct (wide_at vs vi).
  - apply load_word. by apply in_int64_bounds.
  - rewrite load_store_same. change (2 ^ (8 * Z.of_nat 4)) with (2 ^ 32). fold (low32 (low32 v)). by rewrite !low32_idemp.
Qed.

Lemma store_runs p sp b m v st s x vi : evaluated vs p sp b m v st s -> lo <= sp -> index_of x vs = Some vi ->
  code_at image p (store_code vs vi) ->
  follows (fs_set vs x v st) (fun _ st' s' => stands vs (p + length (store_code vs vi)) sp b st' s' /\
    forall a, b <= a < hi -> memory s' a = m a) s.
Proof.
  intros Hev Hlo Hvi Hc. pose proof (frame_above _ _ _ _ _ _ _ Hev) as Habove. destruct Hev as [Hs Hv Wv Hm].
  pose proof (slot_word _ _ _ _ _ _ vi Hs Hlo (index_of_lt _ _ _ Hvi)) as W.
  destruct (store_code_straight vi b v s (stands_base _ _ _ _ _ _ Hs) Hv Wv W) as (s' & Hrun & Hg & Hm').
  unfold fs_set. rewrite Hvi. eapply arrives_straight; [rewrite (stands_p _ _ _ _ _ _ Hs); exact Hc|].
  exists s'. split; [exact Hrun|]. apply arrives_now.
  pose proof (stands_frame _ _ _ _ _ _ Hs) as Hf. pose proof (index_of_lt _ _ _ Hvi) as Hlt.
  assert (forall a, a < slot_address b vi \/ slot_address b vi + 8 <= a -> memory s' a = memory s a) as Hother.
  { intros a Ha. rewrite Hm'. destruct (wide_at vs vi); apply store_outside; lia. }
  assert (forall vi', vi' <> vi -> (vi' < length vs)%nat -> slot_value vs b vi' (memory s') = slot_value vs b vi' (memory s)) as Hslots.
  { intros vi' Hne Hlt'. unfold slot_value.
    assert (forall n, (n <= 8)%nat -> load n (memory s') (slot_address b vi') = load n (memory s) (slot_address b vi')) as H.
    { intros n Hn. apply load_ext. intros a Ha. apply Hother. unfold slot_address in *. lia. }
    by rewrite !H by lia. }
  unfold slots_size, slot_address in *. split.
  2:{ intros a Ha. rewrite Hother by lia. by apply Habove. }
  constructor.
  - by rewrite (straight_pc _ _ _ _ _ _ _ Hrun), (stands_p _ _ _ _ _ _ Hs).
  - by rewrite Hg, (stands_top _ _ _ _ _ _ Hs).
  - by rewrite Hg, (stands_base _ _ _ _ _ _ Hs).
  - cbn. intros a Ha. rewrite (stands_heap _ _ _ _ _ _ Hs a Ha). symmetry. apply Hother.
    destruct (decide (lo <= a < hi)) as [H|H]; [by rewrite (stack_private a H) in Ha|lia].
  - cbn. intros y w Hy. apply lookup_insert_Some in Hy as [[<- <-]|[Hne Hy]].
    + exists vi. split; [done|]. rewrite (kept_wide _ _ _ Hvi), Hm'. by apply slot_value_store.
    + destruct (stands_slots _ _ _ _ _ _ Hs y w Hy) as (vi' & Hvi' & Hw). exists vi'. split; [done|].
      rewrite Hslots; [done| |by eapply index_of_lt]. intros ->. apply Hne. by eapply index_of_inj.
  - unfold slots_size. lia.
Qed.

Lemma completed_normal Ls p sp b m st s : stands vs p sp b st s -> (forall a, b <= a < hi -> memory s a = m a) ->
  completed Ls p sp b m FsNormal st s.
Proof. by split. Qed.

(** A value to a variable. *)
Lemma set_variable_runs Ls r c code x vi p sp b st s : child_of r ts = Some c -> expression_code program vs c code ->
  index_of x vs = Some vi -> code_at image p (code ++ store_code vs vi) -> stands vs p sp b st s ->
  lo <= sp - room (Tree i l ts) - K ->
  follows ((v ← eval_role symbol_place private call r ts; _ ← fs_set vs x v; mret FsNormal)%vnt st)
    (completed Ls (p + length (code ++ store_code vs vi)) sp b (memory s)) s.
Proof.
  intros Hch Hcode Hvi Hc Hs Hlo. apply code_at_app in Hc as [Hc1 Hc2]. rewrite length_app, Nat.add_assoc.
  pose proof (room_nonneg (Tree i l ts)). eapply value_role_run; [done..|]. intros v st1 s1 Hev.
  eapply follows_bind; [eapply store_runs; [exact Hev|lia|exact Hvi|exact Hc2]|]. intros _ st2 s2 [Hs2 Hm2].
  apply arrives_now. by apply completed_normal.
Qed.

Lemma declaration_correct Ls c code vi : l_opcode l = VNT_IR_VARIABLE_DECL \/ l_opcode l = VNT_IR_REASSIGN ->
  child_of VNT_IR_EDGE_VALUE ts = Some c -> expression_code program vs c code -> index_of (label_text l) vs = Some vi ->
  statement_correct Ls (Tree i l ts) (code ++ store_code vs vi).
Proof.
  intros Hop Hch Hcode Hvi p sp b st s Hc Hs Hlo HLs.
  assert (exec (Tree i l ts) = (v ← eval_role symbol_place private call VNT_IR_EDGE_VALUE ts;
    _ ← fs_set vs (label_text l) v; mret FsNormal)%vnt) as -> by (cbn [fs_exec]; by destruct Hop as [-> | ->]).
  by eapply set_variable_runs.
Qed.

Lemma assign_variable_correct Ls j k us c code vi : l_opcode l = VNT_IR_ASSIGN ->
  child_of VNT_IR_EDGE_TARGET ts = Some (Tree j k us) -> l_opcode k = VNT_IR_VARIABLE ->
  child_of VNT_IR_EDGE_VALUE ts = Some c -> expression_code program vs c code -> index_of (label_text k) vs = Some vi ->
  statement_correct Ls (Tree i l ts) (code ++ store_code vs vi).
Proof.
  intros Hop Ht Hk Hch Hcode Hvi p sp b st s Hc Hs Hlo HLs. cbn [fs_exec]. rewrite Hop. unfold fs_assign.
  unfold child_of in Ht. rewrite Ht, Hk.
  pose proof (set_variable_runs Ls _ _ _ _ _ _ _ _ _ _ Hch Hcode Hvi Hc Hs Hlo) as H. revert H.
  unfold mbind, Exec_bind, mret, Exec_ret.
  destruct (eval_role _ _ _ _ _ st) as [v st1|message st1| |]; try done.
Qed.

(** ** Assignments to bytes *)

Lemma push_straight a sp s : registers s RAX = a -> registers s RSP = sp -> word a -> word sp -> word (sp - 16) ->
  exists s', straight [Ins PUSHQ [rax]; Ins PUSHQ [Imm 0]] s s' /\ registers s' RSP = sp - 16 /\
    registers s' RBP = registers s RBP /\ memory s' = store 8 0 (sp - 16) (store 8 a (sp - 8) (memory s)).
Proof.
  intros Ha Ht Wa Wsp Wsp'. eexists. split; [run_lines|]. cpu_state. rewrite Ha, Ht. words.
  replace (sp - 8 - 8) with (sp - 16) by lia. words. done.
Qed.

Lemma put_straight v sp s : registers s RAX = v -> registers s RSP = sp -> word v -> word sp ->
  exists s', straight [Ins MOVQ [rax; stack_top]] s s' /\ registers s' = registers s /\ memory s' = store 8 v sp (memory s).
Proof. intros Hv Ht Wv Wsp. eexists. split; [run_lines|]. cpu_state. rewrite Hv, Ht. words. done. Qed.

Lemma byte_straight v sp s : registers s RAX = v -> registers s RSP = sp -> word v -> word sp -> word (sp + 16) ->
  exists s', straight [Ins MOVQ [rax; Reg W64 R8]; Ins POPQ [rcx]; Ins POPQ [rdx];
                       Ins MOVB [Reg W8 R8; Mem None RDX (Some RCX)]] s s' /\
    registers s' RSP = sp + 16 /\ registers s' RBP = registers s RBP /\
    memory s' = store 1 v (wrap64 (wrap64 (load 8 (memory s) (sp + 8)) + wrap64 (load 8 (memory s) sp))) (memory s).
Proof.
  intros Hv Ht Wv Wsp Wsp'. eexists. split; [run_lines|]. unfold top_of_stack. cpu_state. rewrite Hv, Ht.
  rewrite (wrap_word (sp + 8)) by range. replace (sp + 8 + 8) with (sp + 16) by lia.
  rewrite !wrap64_idemp, (wrap_word (sp + 16)), (wrap_word v) by done. split_and!; [done..|].
  apply store_congruent. change (2 ^ (8 * Z.of_nat 1)) with (2 ^ 8). by rewrite Z.mod_mod.
Qed.

Lemma assign_index_correct Ls j k us ca cb cc code_a code_b code_c : l_opcode l = VNT_IR_ASSIGN ->
  child_of VNT_IR_EDGE_TARGET ts = Some (Tree j k us) -> l_opcode k = VNT_IR_INDEX ->
  child_of VNT_IR_EDGE_OBJECT us = Some ca -> child_of VNT_IR_EDGE_INDEX us = Some cb ->
  child_of VNT_IR_EDGE_VALUE ts = Some cc ->
  expression_code program vs ca code_a -> expression_code program vs cb code_b -> expression_code program vs cc code_c ->
  statement_correct Ls (Tree i l ts)
    (code_a ++ [Ins PUSHQ [rax]; Ins PUSHQ [Imm 0]] ++ code_b ++ [Ins MOVQ [rax; stack_top]] ++ code_c ++
     [Ins MOVQ [rax; Reg W64 R8]; Ins POPQ [rcx]; Ins POPQ [rdx]; Ins MOVB [Reg W8 R8; Mem None RDX (Some RCX)]]).
Proof.
  intros Hop Ht Hk Ha Hb Hcv Hca Hcb Hcc p sp b st s Hc Hs Hlo HLs. cbn [fs_exec]. rewrite Hop. unfold fs_assign.
  pose proof Ht as Ht'. unfold child_of in Ht'. rewrite Ht', Hk. clear Ht'.
  unfold eval_role. rewrite (child_eval call _ us ca Ha), (child_eval call _ us cb Hb), (child_eval call _ ts cc Hcv).
  pose proof (room_child i l ts _ (proj1 (child_of_in _ _ _ Ht))) as Rt. rewrite Hop in Rt. cbn [own_room] in Rt.
  pose proof (room_child j k us _ (proj1 (child_of_in _ _ _ Ha))) as Ra.
  pose proof (room_child j k us _ (proj1 (child_of_in _ _ _ Hb))) as Rb.
  pose proof (room_child i l ts _ (proj1 (child_of_in _ _ _ Hcv))) as Rc. rewrite Hop in Rc. cbn [own_room] in Rc.
  rewrite Hk in Ra, Rb. cbn [own_room] in Ra, Rb.
  pose proof (room_nonneg ca). pose proof (room_nonneg cb). pose proof (room_nonneg cc).
  pose proof (stands_frame _ _ _ _ _ _ Hs) as Hf. assert (0 <= slots_size vs) as Hslots by (unfold slots_size; lia).
  destruct (stands_words _ _ _ _ _ _ Hs ltac:(lia)) as [Wsp Wb]. pose proof stack_low as Hlow.
  assert (word (sp - 16)) as Wsp' by range.
  apply code_at_app in Hc as [Hc1 Hc]. apply code_at_app in Hc as [Hc2 Hc]. apply code_at_app in Hc as [Hc3 Hc].
  apply code_at_app in Hc as [Hc4 Hc]. apply code_at_app in Hc as [Hc5 Hc6].
  rewrite !length_app, !Nat.add_assoc. set (pend := (_ + length [_; _; _; _])%nat).
  apply (follows_bind _ _ _ _ (fun _ st' s' => stands vs pend sp b st' s' /\ forall a, b <= a < hi -> memory s' a = memory s a)).
  2:{ intros _ st' s' [Hs' Hm']. apply arrives_now. by apply completed_normal. }
  eapply follows_bind; [eapply (expressions ca code_a Hca); [exact Hc1|exact Hs|lia]|]. intros va st1 s1 [Hs1 Hv1 Wv1 Hm1].
  destruct (push_straight va sp s1 Hv1 (stands_top _ _ _ _ _ _ Hs1) Wv1 Wsp Wsp') as (s2 & Hrun2 & Ht2 & Hb2 & Hm2).
  eapply follows_straight; [rewrite (stands_p _ _ _ _ _ _ Hs1); exact Hc2|]. exists s2. split; [exact Hrun2|].
  assert (stands vs (p + length code_a + 2) (sp - 16) b st1 s2) as Hs2.
  { eapply stands_move; [exact Hs1| |exact Ht2|exact Hb2|lia|].
    - by rewrite (straight_pc _ _ _ _ _ _ _ Hrun2), (stands_p _ _ _ _ _ _ Hs1).
    - rewrite Hm2. eapply kept_trans; apply kept_store; lia. }
  assert (wrap64 (load 8 (memory s2) (sp - 8)) = va) as Hla.
  { rewrite Hm2, load_store_other by lia. by apply load_word, in_int64_bounds. }
  eapply follows_bind; [eapply (expressions cb code_b Hcb); [exact Hc3|exact Hs2|lia]|]. intros vb st3 s3 [Hs3 Hv3 Wv3 Hm3].
  destruct (put_straight vb (sp - 16) s3 Hv3 (stands_top _ _ _ _ _ _ Hs3) Wv3 Wsp') as (s4 & Hrun4 & Hg4 & Hm4).
  eapply follows_straight; [rewrite (stands_p _ _ _ _ _ _ Hs3); exact Hc4|]. exists s4. split; [exact Hrun4|].
  assert (stands vs (p + length code_a + 2 + length code_b + 1) (sp - 16) b st3 s4) as Hs4.
  { eapply stands_change; [exact Hs3| | |by rewrite Hg4|lia|done| |].
    - by rewrite (straight_pc _ _ _ _ _ _ _ Hrun4), (stands_p _ _ _ _ _ _ Hs3).
    - by rewrite Hg4, (stands_top _ _ _ _ _ _ Hs3).
    - rewrite Hm4. eapply (kept_agrees sp); [lia|apply kept_store; lia|apply Hs3].
    - intros a Ha'. rewrite Hm4. apply store_outside. lia. }
  assert (wrap64 (load 8 (memory s4) (sp - 16)) = vb) as Hlb by (rewrite Hm4; by apply load_word, in_int64_bounds).
  assert (wrap64 (load 8 (memory s4) (sp - 8)) = va) as Hla'.
  { rewrite Hm4, load_store_other by lia. rewrite <- Hla. f_equal. apply load_ext. intros a Ha'. apply Hm3. lia. }
  eapply follows_bind; [eapply (expressions cc code_c Hcc); [exact Hc5|exact Hs4|lia]|]. intros vc st5 s5 [Hs5 Hv5 Wv5 Hm5].
  destruct (byte_straight vc (sp - 16) s5 Hv5 (stands_top _ _ _ _ _ _ Hs5) Wv5 Wsp') as (s6 & Hrun6 & Ht6 & Hb6 & Hm6);
    [by replace (sp - 16 + 16) with sp by lia|].
  replace (sp - 16 + 16) with sp in Ht6 by lia. replace (sp - 16 + 8) with (sp - 8) in Hm6 by lia.
  rewrite (load_ext 8 (memory s5) (memory s4) (sp - 8)), Hla', (load_ext 8 (memory s5) (memory s4) (sp - 16)), Hlb in Hm6
    by (intros a Ha'; apply Hm5; lia).
  unfold fs_store. destruct (open_range _ _ _) eqn:Ho; [|done].
  eapply follows_straight; [rewrite (stands_p _ _ _ _ _ _ Hs5); exact Hc6|]. exists s6. split; [exact Hrun6|]. apply arrives_now.
  assert (forall x, lo <= x < hi -> memory s6 x = memory s5 x) as Hsame.
  { intros x Hx. rewrite Hm6. by apply (heap_store_stack 1). }
  split.
  - eapply stands_change; [exact Hs5| |exact Ht6|exact Hb6|lia|done| |].
    + by rewrite (straight_pc _ _ _ _ _ _ _ Hrun6), (stands_p _ _ _ _ _ _ Hs5).
    + rewrite Hm6. apply (heap_store 1), Hs5.
    + intros x Hx. apply Hsame. lia.
  - intros x Hx. rewrite Hsame, Hm5, Hm4, store_outside, Hm3, Hm2, !store_outside, Hm1 by lia. done.
Qed.

(** ** Jumps *)

Lemma return_correct Ls code : l_opcode l = VNT_IR_RETURN ->
  match child_of VNT_IR_EDGE_VALUE ts with Some c => expression_code program vs c code | None => code = [] end ->
  statement_correct Ls (Tree i l ts) (code ++ [Ins LEAVE []; Ins RET []]).
Proof.
  intros Hop Hcode p sp b st s Hc Hs Hlo HLs. cbn [fs_exec]. rewrite Hop. apply code_at_app in Hc as [Hc1 Hc2].
  destruct (child_of VNT_IR_EDGE_VALUE ts) as [c|] eqn:Ec.
  - replace (match ts with [] => _ | _ => _ end) with
      (v ← eval_role symbol_place private call VNT_IR_EDGE_VALUE ts; mret (FsReturned (Some v)))%vnt by by destruct ts.
    eapply value_role_run; [done..|]. intros v st1 s1 Hev. apply arrives_now. split; [|by eapply frame_above].
    exists (p + length code)%nat. split_and!; [done|apply Hev|]. intros z [= <-]. by destruct Hev.
  - subst code. rewrite Nat.add_0_r in Hc2. destruct ts as [|t ts'].
    + apply arrives_now. split; [|done]. exists p. split_and!; [done..|]. by intros z [=].
    + unfold eval_role. by rewrite in_role_map, Ec.
Qed.

Lemma break_correct Ls start done_ : l_opcode l = VNT_IR_BREAK -> head Ls = Some (start, done_) ->
  statement_correct Ls (Tree i l ts) [Ins JMP [local done_]].
Proof.
  intros Hop Hhead p sp b st s Hc Hs Hlo HLs. cbn [fs_exec]. rewrite Hop. apply code_at_cons in Hc as [Hj _].
  destruct Ls as [|[start' done'] Ls']; [done|]. injection Hhead as -> ->.
  apply Forall_cons in HLs as [[_ [k Hk]] _]. cbn. eapply stands_jump; [exact Hs|exact Hj|exact Hk|].
  intros Hs'. apply arrives_now. split; [|done]. by exists start, done_, k.
Qed.

Lemma continue_correct Ls start done_ : l_opcode l = VNT_IR_CONTINUE -> head Ls = Some (start, done_) ->
  statement_correct Ls (Tree i l ts) [Ins JMP [local start]].
Proof.
  intros Hop Hhead p sp b st s Hc Hs Hlo HLs. cbn [fs_exec]. rewrite Hop. apply code_at_cons in Hc as [Hj _].
  destruct Ls as [|[start' done'] Ls']; [done|]. injection Hhead as -> ->.
  apply Forall_cons in HLs as [[[k Hk] _] _]. cbn. eapply stands_jump; [exact Hs|exact Hj|exact Hk|].
  intros Hs'. apply arrives_now. split; [|done]. by exists start, done_, k.
Qed.

(** ** Conditionals *)

(** When statements end normally, the run goes on from the end of their code. *)
Lemma completed_then Ls p p' sp b m (r : run FsState fs_completion) s :
  follows r (completed Ls p sp b m) s ->
  (forall st' s', stands vs p sp b st' s' -> (forall a, b <= a < hi -> memory s' a = m a) ->
     arrives (fun s'' => stands vs p' sp b st' s'' /\ memory s'' = memory s') s') ->
  follows r (completed Ls p' sp b m) s.
Proof.
  intros H Hend. eapply follows_then; [exact H|]. intros c st' s' [Hc Hm].
  destruct c; try (apply arrives_now; by split). eapply arrives_mono; [by apply Hend|].
  intros s'' [Hs'' Hm'']. split; [done|]. by rewrite Hm''.
Qed.

Lemma if_correct Ls c code codes_then codes_else other done_ : l_opcode l = VNT_IR_IF ->
  child_of VNT_IR_EDGE_CONDITION ts = Some c -> expression_code program vs c code ->
  Forall2 (statement_code program vs Ls) (children_in VNT_IR_EDGE_THEN ts) codes_then ->
  Forall2 (statement_code program vs Ls) (children_in VNT_IR_EDGE_ELSE ts) codes_else ->
  statement_correct Ls (Tree i l ts)
    (code ++ test_false other ++ concat codes_then ++ [Ins JMP [local done_]; LabelLine (LocalLabel other)] ++
     concat codes_else ++ [LabelLine (LocalLabel done_)]).
Proof.
  intros Hop Hch Hcode Hthen Helse p sp b st s Hc Hs Hlo HLs. cbn [fs_exec]. rewrite Hop.
  apply code_at_app in Hc as [Hc1 Hc]. apply code_at_app in Hc as [Hc2 Hc]. apply code_at_app in Hc as [Hc3 Hc].
  apply (code_at_cons _ _ (Ins JMP _)) in Hc as [Hj Hc]. apply (code_at_cons _ _ (LabelLine _)) in Hc as [Hother Hc].
  apply code_at_app in Hc as [Hc4 Hc]. apply code_at_cons in Hc as [Hdone _].
  rewrite !length_app, !Nat.add_assoc. cbn [length test_false] in *. set (p1 := (p + length code)%nat) in *.
  set (p2 := (p1 + 2 + length (concat codes_then))%nat) in *.
  replace (p2 + 2 + length (concat codes_else) + 1)%nat with (S (S (S p2) + length (concat codes_else)))%nat by lia.
  set (p3 := (S (S p2) + length (concat codes_else))%nat) in *.
  eapply value_role_run; [done..|]. intros v st1 s1 Hev. pose proof (frame_above _ _ _ _ _ _ _ Hev) as Habove.
  assert (forall st' s' , stands vs p3 sp b st' s' -> arrives (fun s'' => stands vs (S p3) sp b st' s'' /\ memory s'' = memory s') s') as Hend.
  { intros st' s' Hs'. eapply stands_pass; [exact Hs'|by exists done_|]. intros H. by apply arrives_now. }
  eapply (test_runs vs _ _ _ _ _ _ _ _ _ true); [exact Hev|exact Hc2|exact Hother| |].
  - intros Hv s2 [Hs2 _ _ Hm2]. rewrite Hv. cbn [negb].
    eapply follows_pass; [exact Hs2|by exists other|]. intros s3 Hs3 Hm3. eapply (completed_then Ls p3); [|intros st' s' Hs' _; by apply Hend].
    eapply follows_mono; [by eapply (children_run Ls VNT_IR_EDGE_ELSE)|]. intros c' st' s'. apply completed_weaken.
    intros a Ha. rewrite Hm3. apply Hm2. pose proof (stands_frame _ _ _ _ _ _ Hs2). unfold slots_size in *. lia.
  - intros Hv s2 [Hs2 _ _ Hm2]. rewrite Hv. eapply completed_then.
    + eapply follows_mono; [by eapply (children_run Ls VNT_IR_EDGE_THEN)|]. intros c' st' s'. apply completed_weaken.
      intros a Ha. apply Hm2. pose proof (stands_frame _ _ _ _ _ _ Hs2). unfold slots_size in *. lia.
    + intros st' s' Hs' _. eapply stands_jump; [exact Hs'|exact Hj|exact Hdone|]. intros H. exact (Hend st' (set_pc p3 s') H).
Qed.

(** ** Loops *)

Lemma while_correct Ls c code codes start done_ : l_opcode l = VNT_IR_WHILE ->
  child_of VNT_IR_EDGE_CONDITION ts = Some c -> expression_code program vs c code ->
  Forall2 (statement_code program vs ((start, done_) :: Ls)) (children_in VNT_IR_EDGE_BODY ts) codes ->
  statement_correct Ls (Tree i l ts)
    (LabelLine (LocalLabel start) :: code ++ test_false done_ ++ concat codes ++
     [Ins JMP [local start]; LabelLine (LocalLabel done_)]).
Proof.
  intros Hop Hch Hcode Hbody p sp b st s Hc Hs Hlo HLs. cbn [fs_exec]. rewrite Hop.
  apply (code_at_cons _ _ (LabelLine (LocalLabel start))) in Hc as [Hstart Hc].
  apply code_at_app in Hc as [Hc1 Hc]. apply code_at_app in Hc as [Hc2 Hc]. apply code_at_app in Hc as [Hc3 Hc].
  apply code_at_cons in Hc as [Hj Hc]. apply code_at_cons in Hc as [Hdone _].
  cbn [length]. rewrite !length_app. cbn [length test_false] in *. set (p1 := (S p + length code)%nat) in *.
  set (p2 := (p1 + 2 + length (concat codes))%nat) in *.
  replace (p + S (length code + (2 + (length (concat codes) + 2))))%nat with (S (S p2)) by lia.
  assert (loops_placed ((start, done_) :: Ls)) as HLs'.
  { constructor; [|done]. split; [by exists p|by exists (S p2)]. }
  set (cond := eval_role symbol_place private call VNT_IR_EDGE_CONDITION ts).
  set (body := fs_sequence (in_edge VNT_IR_EDGE_BODY (map (fun t => (l_role (label t), exec t)) ts))).
  set (m := memory s).
  enough (forall n st s', stands vs p sp b st s' -> (forall a, b <= a < hi -> memory s' a = m a) ->
    follows (fs_while n cond body st) (completed Ls (S (S p2)) sp b m) s') as H by by apply H.
  assert (forall st' s', stands vs (S p2) sp b st' s' -> (forall a, b <= a < hi -> memory s' a = m a) ->
    arrives (completed Ls (S (S p2)) sp b m FsNormal st') s') as Hend.
  { intros st' s' Hs' Hm'. eapply stands_pass; [exact Hs'|by exists done_|]. intros H. apply arrives_now. by split. }
  (* the condition, and what follows when it holds *)
  assert (forall (next : FsExec fs_completion) st s', stands vs p sp b st s' -> (forall a, b <= a < hi -> memory s' a = m a) ->
    (forall st'' s'', stands vs (p1 + 2) sp b st'' s'' -> (forall a, b <= a < hi -> memory s'' a = m a) ->
       follows (next st'') (completed Ls (S (S p2)) sp b m) s'') ->
    follows ((v ← cond; if is_true v then next else mret FsNormal)%vnt st) (completed Ls (S (S p2)) sp b m) s') as Hround.
  { intros next st0 s0 Hs0 Hm0 Hnext. eapply follows_pass; [exact Hs0|by exists start|]. intros s1 Hs1 Hm1.
    eapply value_role_run; [done..|]. intros v st2 s2 Hev.
    eapply (test_runs vs _ _ _ _ _ _ _ _ _ true); [exact Hev|exact Hc2|exact Hdone| |]; intros Hv s3 Hev3; rewrite Hv.
    - apply Hend; [apply Hev3|]. intros a Ha. rewrite (frame_above _ _ _ _ _ _ _ Hev3 a Ha), Hm1. by apply Hm0.
    - apply Hnext; [apply Hev3|]. intros a Ha. rewrite (frame_above _ _ _ _ _ _ _ Hev3 a Ha), Hm1. by apply Hm0. }
  intros n. induction n as [|n IHn]; intros st0 s0 Hs0 Hm0.
  - apply (Hround unfinished); [done..|by intros].
  - apply (Hround (c' ← body; match c' with
      | FsNormal | FsContinued => fs_while n cond body
      | FsBroke => mret FsNormal
      | FsReturned v => mret (FsReturned v)
      end)%vnt); [done..|]. intros st1 s1 Hs1 Hm1.
    eapply follows_bind; [eapply (children_run _ VNT_IR_EDGE_BODY); [exact Hbody|done|exact Hc3|exact Hs1|done]|].
    intros c' st2 s2 [Hc' Hm2]. assert (forall a, b <= a < hi -> memory s2 a = m a) as Hm2'.
    { intros a Ha. rewrite Hm2 by done. by apply Hm1. }
    destruct c'.
    + eapply (follows_jump _ _ _ p); [exact Hc'|exact Hj|exact Hstart|]. intros s3 Hs3 Hm3. apply IHn; [done|]. by rewrite Hm3.
    + destruct Hc' as (start' & done' & k & [= <- <-] & Hk & Hs'). rewrite (placed_unique _ _ _ Hk Hdone) in Hs'. by apply Hend.
    + destruct Hc' as (start' & done' & k & [= <- <-] & Hk & Hs'). rewrite (placed_unique _ _ _ Hk Hstart) in Hs'. by apply IHn.
    + apply arrives_now. by split.
Qed.

End node.

(** * Statements *)

Lemma statement_code_correct t : forall Ls code, statement_code program vs Ls t code -> statement_correct Ls t code.
Proof.
  induction t as [i l ts IH] using tree_ind. intros Ls code Hcode. inversion Hcode; subst.
  all: try first [by eapply declaration_correct | by eapply assign_variable_correct | by eapply assign_index_correct
                 | by eapply return_correct | by eapply break_correct | by eapply continue_correct
                 | by eapply if_correct | by eapply while_correct].
  all: intros p sp b st s Hc Hs Hlo HLs; cbn [fs_exec]; match goal with H : l_opcode ?k = _ |- _ => rewrite H end.
  3: done.
  - by eapply children_run.
  - eapply follows_bind.
    { eapply (call_expression_runs program vs call K call_room call_correct); [done| |done|exact Hc|exact Hs|exact Hlo].
      apply Forall_forall. intros t _. apply expressions. }
    intros v st' s' [Hs' _ Hm']. apply arrives_now. apply completed_normal; [done|]. intros a Ha. apply Hm'.
    pose proof (stands_frame _ _ _ _ _ _ Hs). pose proof (Zle_0_nat (length vs)). unfold slots_size in *. lia.
Qed.

End statements.
