(* ===== verification/FreestandingProps.v ===== *)
(** FreestandingProps: the back end for a machine without an operating system is correct:
    the functions of a program, called with enough stack, and the whole assembly, from
    _start to the loop that halts the machine. *)

From stdpp Require Import list sets gmap.
From S2P Require Import Prelude Clib Ast Statements StatementsProps Ir IrTrees IrLayout IrLower IrScopesFacts IrAccess IrResolve IrFacts IrPasses IrPassesFacts IrOptimizeProps IrProps HirSemantics TypeSystem Compiler CompilerProps Asm.
From S2P Require Import Freestanding FreestandingRuns FreestandingCode FreestandingEmit FreestandingProgram AsmFacts.
From S2P Require Import FreestandingSteps FreestandingExpressions FreestandingStatements.
Local Open Scope Z_scope.

(** * The stack of a function *)

(** The return address, the base of the caller, the frame, and what the body pushes. *)
Definition function_room (f : tree) : Z := 16 + frame_size (length (function_variables f)) + room f.

(** Enough for each call. *)
Definition program_room (program : tree) : Z := foldr Z.max 0 (map function_room (subtrees program)).

Lemma function_room_in program f : f ∈ subtrees program -> function_room f <= program_room program.
Proof.
  unfold program_room. induction (subtrees program) as [|g fs IH]; [by intros ?%not_elem_of_nil|].
  intros [->|H]%elem_of_cons; cbn; [lia|]. specialize (IH H). lia.
Qed.

Lemma program_room_nonneg program : 0 <= program_room program.
Proof. unfold program_room. induction (subtrees program); cbn; lia. Qed.

Lemma find_declared_in program name f : find_declared program name = Some f -> f ∈ subtrees program /\ function_name f = name.
Proof.
  intros H. apply find_some in H as [Hin Hn]. split; [by apply list_elem_of_In|]. unfold is_named in Hn.
  destruct (l_opcode (label f)); try done. by apply bytes_eqb_spec in Hn.
Qed.

(** * Parameters *)

Lemma parameters_fold (vs : list (bytes * bytes)) (names : list bytes) (values : list Z) (x : bytes) (w : Z) (ls : gmap bytes Z) :
  fold_left (fun ls p => <[p.1 := kept vs p.1 p.2]> ls) (zip names values) ls !! x = Some w ->
  ls !! x = Some w \/ exists (p : nat) v, names !! p = Some x /\ values !! p = Some v /\ w = kept vs x v.
Proof.
  revert values ls. induction names as [|y names IH]; intros values ls H; [by left|]. destruct values as [|u values]; [by left|].
  cbn [zip zip_with fold_left fst snd] in H. apply IH in H as [H|(p & v & Hp & Hv & ->)]; [|right; by exists (S p), v].
  apply lookup_insert_Some in H as [[<- <-]|[_ H]]; [right; by exists 0%nat, u|by left].
Qed.

Lemma parameters_lookup (vs : list (bytes * bytes)) (names : list bytes) (values : list Z) (x : bytes) (w : Z) : parameters vs names values !! x = Some w ->
  exists (p : nat) v, names !! p = Some x /\ values !! p = Some v /\ w = kept vs x v.
Proof. intros [H|H]%parameters_fold; [by rewrite lookup_empty in H|exact H]. Qed.

Section functions.
Context {L : Layout} {Laws : LayoutLaws} (program : tree) (loops : nat).

Abbreviation arrives := (arrives symbol_place code_place code_index image).
Abbreviation straight := (straight symbol_place code_place code_index image).
Abbreviation calls := (fs_call symbol_place private program loops).

(** The registers of the parameters go to their slots. *)
Lemma parameters_straight vs b regs k s : registers s RBP = b -> 
  (forall i, (i < length regs)%nat -> word (slot_address b (k + i))) ->
  exists s', straight (imap (fun i r => Ins MOVQ [Reg W64 r; slot (k + i)]) regs) s s' /\ registers s' = registers s /\
    (forall i r v, regs !! i = Some r -> registers s r = v -> word v ->
       slot_value vs b (k + i) (memory s') = if wide_at vs (k + i) then v else low32 v) /\
    (forall a, a < b - Z.of_nat (k + length regs) * 8 \/ b - Z.of_nat k * 8 <= a -> memory s' a = memory s a).
Proof.
  revert k s. induction regs as [|r regs IH]; intros k s Hb W.
  { exists s. split; [apply straight_nil|]. done. }
  assert (exists s1, straight [Ins MOVQ [Reg W64 r; slot k]] s s1 /\ registers s1 = registers s /\
    memory s1 = store 8 (wrap64 (registers s r)) (slot_address b k) (memory s)) as (s1 & Hrun1 & Hg1 & Hm1).
  { pose proof (slot_effective b k s Hb) as Heff. eexists. split; [run_lines|].
    cbn [registers memory advanced set_pc set_memory set_register register_eqb extended width_bytes]. rewrite Heff.
    - done.
    - specialize (W 0%nat). rewrite Nat.add_0_r in W. apply W. cbn. lia. }
  destruct (IH (S k) s1) as (s2 & Hrun2 & Hg2 & Hslots2 & Hm2); [by rewrite Hg1| |].
  { intros i Hi. replace (S k + i)%nat with (k + S i)%nat by lia. apply W. cbn. lia. }
  exists s2. split; [|split_and!].
  - rewrite imap_cons, Nat.add_0_r. apply (straight_join _ _ _ _ [_] _ _ _ _ Hrun1).
    replace (imap _ regs) with (imap (fun i r => Ins MOVQ [Reg W64 r; slot (S k + i)]) regs); [done|].
    apply imap_ext. intros i x _. unfold compose. by rewrite Nat.add_succ_r.
  - by rewrite Hg2.
  - intros [|i] r' v Hi Hv Wv.
    + injection Hi as <-. rewrite Nat.add_0_r.
      assert (forall n, (n <= 8)%nat -> load n (memory s2) (slot_address b k) = load n (memory s1) (slot_address b k)) as Hl.
      { intros n Hn. apply load_ext. intros a Ha. apply Hm2. unfold slot_address in *. lia. }
      unfold slot_value. rewrite !Hl, Hm1, Hv, (wrap_word v Wv) by lia. destruct (wide_at vs k).
      * by apply load_word, in_int64_bounds.
      * rewrite load_store_prefix by lia. change (2 ^ (8 * Z.of_nat 4)) with (2 ^ 32). fold (low32 v). by rewrite low32_idemp.
    + replace (k + S i)%nat with (S k + i)%nat by lia. apply (Hslots2 i r'); [done|by rewrite Hg1|done].
  - intros a Ha. cbn [length] in Ha. rewrite Hm2, Hm1 by lia. apply store_outside. unfold slot_address. lia.
Qed.

(** ** The entry of a function *)

Lemma frame_straight frame sp s : registers s RSP = sp -> word sp -> word (sp - frame) -> word frame ->
  exists s', straight (reserve frame) s s' /\ registers s' RSP = sp - frame /\
    (forall r, r <> RSP -> registers s' r = registers s r) /\ memory s' = memory s.
Proof.
  intros Ht Wsp Wsp' Wf. unfold reserve. destruct (Z.eqb_spec frame 0) as [->|Ha].
  - exists s. split; [apply straight_nil|]. rewrite Ht. by rewrite Z.sub_0_r.
  - eexists. split; [run_lines|]. cpu_state. rewrite Ht. words. split_and!; [done| |done]. by intros [].
Qed.

Lemma entry_straight x sp s : registers s RSP = sp - 8 -> word (sp - 8) -> word (sp - 16) -> word (registers s RBP) ->
  exists s', straight [LabelLine x; Ins PUSHQ [rbp]; Ins MOVQ [rsp; rbp]] s s' /\
    registers s' RSP = sp - 16 /\ registers s' RBP = sp - 16 /\
    (forall r, r <> RSP -> r <> RBP -> registers s' r = registers s r) /\
    memory s' = store 8 (registers s RBP) (sp - 16) (memory s).
Proof.
  intros Ht W8 W16 Wb. eexists. split; [run_lines|]. cpu_state. rewrite Ht.
  replace (sp - 8 - 8) with (sp - 16) by lia. rewrite !wrap64_idemp. words. split_and!; [done..| |done]. by intros [].
Qed.

(** The return address and the base of the caller, above the frame. *)
Record entered (f : tree) (p : nat) (base sp : Z) (before : Memory) (m : Memory) : Prop := {
  entered_base : wrap64 (load 8 m (sp - 16)) = base;
  entered_return : code_index (wrap64 (load 8 m (sp - 8))) = Some p;
  entered_above a : sp <= a < hi -> m a = before a
}.

Lemma function_entry f q codes p sp s st values :
  code_at image q (function_lines f codes) -> image !! p = Some (Ins CALL [Target (FunctionSymbol (function_name f))]) ->
  pc s = p -> registers s RSP = sp -> word (registers s RBP) -> (length (l_names (label f)) <= 6)%nat ->
  length values = length (l_names (label f)) -> NoDup (l_names (label f)) ->
  registers_hold argument_registers values s -> agrees (heap st) (memory s) ->
  lo <= sp - 16 - frame_size (length (function_variables f)) -> sp <= hi ->
  arrives (fun s' =>
    stands (function_variables f) (q + length (prologue f)) (sp - 16 - frame_size (length (function_variables f))) (sp - 16)
      (set_locals (parameters (function_variables f) (l_names (label f)) values) st) s' /\
    entered f (S p) (registers s RBP) sp (memory s) (memory s')) s.
Proof.
  intros Hc Hcall Hp Ht Wb H6 Hlen Hd Hregs Hh Hlo Hhi. set (vs := function_variables f) in *.
  set (frame := frame_size (length vs)) in *. set (names := l_names (label f)) in *.
  pose proof stack_low. pose proof stack_high. pose proof stack_size. pose proof (argument_area_bounds (length vs)) as Hframe.
  fold (frame_size (length vs)) in Hframe. fold frame in Hframe. pose proof (Zle_0_nat (length vs)).
  apply code_at_app in Hc as [Hc _]. unfold prologue in Hc |- *. fold vs names frame in Hc |- *. cbn [app] in Hc.
  do 2 apply code_at_cons in Hc as [_ Hc]. pose proof Hc as Hcl. apply code_at_cons in Hcl as [Hlabel _].
  apply (code_at_app _ _ [_; _; _]) in Hc as [Hc1 Hc]. apply code_at_app in Hc as [Hc2 Hc3].
  eapply arrives_call; [apply labels_unique|by rewrite Hp|exact Hlabel|]. rewrite Hp.
  set (s1 := set_pc (S (S q)) (push (code_place (S p)) s)).
  assert (registers s1 RSP = sp - 8) as Ht1.
  { unfold s1. cpu_state. rewrite Ht. apply wrap_word. range. }
  assert (memory s1 = store 8 (code_place (S p)) (sp - 8) (memory s)) as Hm1.
  { unfold s1. cpu_state. rewrite Ht. rewrite wrap_word by range. done. }
  assert (forall r, r <> RSP -> registers s1 r = registers s r) as Hr1 by by intros [].
  destruct (entry_straight (FunctionSymbol (function_name f)) sp s1 Ht1) as (s2 & Hrun2 & Ht2 & Hb2 & Hr2 & Hm2);
    [range|range|by rewrite Hr1|].
  eapply arrives_straight; [exact Hc1|]. exists s2. split; [exact Hrun2|].
  destruct (frame_straight frame (sp - 16) s2 Ht2) as (s3 & Hrun3 & Ht3 & Hr3 & Hm3); [range..|].
  assert (pc s2 = S (S q) + 3)%nat as Hp2 by (rewrite (straight_pc _ _ _ _ _ _ _ Hrun2); cbn; lia).
  eapply arrives_straight; [rewrite Hp2; exact Hc2|]. exists s3. split; [exact Hrun3|].
  assert (forall i, (i < length names)%nat -> (i < length vs)%nat) as Hparam.
  { intros i Hi. destruct (lookup_lt_is_Some_2 names i Hi) as [x Hx]. eapply index_of_lt. by apply parameter_slot. }
  assert (length (take (length names) argument_registers) = length names) as Htake by (rewrite length_take_le; [done|cbn; lia]).
  destruct (parameters_straight vs (sp - 16) (take (length names) argument_registers) 0 s3) as (s4 & Hrun4 & Hg4 & Hslots4 & Hm4).
  { rewrite Hr3 by done. exact Hb2. }
  { intros i Hi. rewrite Htake in Hi. specialize (Hparam i Hi). unfold slot_address. cbn [Nat.add]. range. }
  rewrite Htake in Hm4. assert (length names <= length vs)%nat as Hnv.
  { destruct (length names) as [|n]; [lia|]. specialize (Hparam n ltac:(lia)). lia. }
  eapply arrives_straight.
  { rewrite (straight_pc _ _ _ _ _ _ _ Hrun3), Hp2. exact Hc3. }
  exists s4. split; [exact Hrun4|]. apply arrives_now.
  assert (forall a, sp - 16 <= a -> memory s4 a = store 8 (registers s RBP) (sp - 16) (store 8 (code_place (S p)) (sp - 8) (memory s)) a) as Hm.
  { intros a Ha. rewrite Hm4 by lia. by rewrite Hm3, Hm2, Hm1, Hr1. }
  assert (forall a, a < lo \/ sp <= a -> memory s4 a = memory s a) as Hout.
  { intros a Ha. rewrite Hm4, Hm3, Hm2, Hm1, !store_outside by lia. done. }
  split; [constructor|constructor].
  - rewrite (straight_pc _ _ _ _ _ _ _ Hrun4), (straight_pc _ _ _ _ _ _ _ Hrun3), Hp2, !length_app, !length_imap. cbn [length]. lia.
  - rewrite Hg4. exact Ht3.
  - rewrite Hg4, Hr3 by done. exact Hb2.
  - cbn. intros a Ha. rewrite (Hh a Ha). symmetry. apply Hout.
    destruct (decide (lo <= a < hi)) as [H'|H']; [by rewrite (stack_private a H') in Ha|lia].
  - cbn. intros x w Hx. apply parameters_lookup in Hx as (i & v & Hn & Hv & ->). exists i.
    split; [by apply parameter_slot|]. pose proof (lookup_lt_Some _ _ _ Hn) as Hi.
    destruct (lookup_lt_is_Some_2 argument_registers i (Nat.lt_le_trans _ _ _ Hi H6)) as [r Hr].
    destruct (Hregs i r v Hr Hv) as [Hrv Wv].
    rewrite (kept_wide vs x i v (parameter_slot f i x Hd Hn)). apply (Hslots4 i r v); [| |done].
    + by rewrite lookup_take_lt.
    + assert (r <> RSP /\ r <> RBP) as [Hsp Hbp].
      { split; intros ->; apply list_elem_of_lookup_2 in Hr; unfold argument_registers in Hr; repeat (apply elem_of_cons in Hr as [Hr|Hr]; [done|]); by apply not_elem_of_nil in Hr. }
      by rewrite Hr3, Hr2, Hr1.
  - unfold slots_size. lia.
  - rewrite (load_ext 8 _ _ (sp - 16) (fun a Ha => Hm a ltac:(lia))). by apply load_word, in_int64_bounds.
  - rewrite (load_ext 8 _ _ (sp - 8) (fun a Ha => Hm a ltac:(lia))). rewrite load_store_other, load_store_same by lia.
    change (2 ^ (8 * Z.of_nat 8)) with (2 ^ 64). rewrite wrap64_mod. apply return_index.
    by apply lookup_lt_Some in Hcall.
  - intros a Ha. apply Hout. lia.
Qed.

(** ** The end of a function *)

Lemma function_return f vs q p top base sp before st s : stands vs q top (sp - 16) st s -> lo <= sp - 16 -> sp <= hi ->
  code_at image q [Ins LEAVE []; Ins RET []] -> entered f p base sp before (memory s) ->
  arrives (fun s' => pc s' = p /\ registers s' RSP = sp /\ registers s' RBP = base /\
    registers s' RAX = registers s RAX /\ memory s' = memory s) s.
Proof.
  intros Hs Hlo Hhi Hc [Hbase Hret _]. pose proof stack_low. pose proof stack_high.
  apply code_at_cons in Hc as [Hleave Hc]. apply code_at_cons in Hc as [Hret' _].
  assert (exists s1, straight [Ins LEAVE []] s s1 /\ registers s1 RSP = sp - 8 /\ registers s1 RBP = base /\
    registers s1 RAX = registers s RAX /\ memory s1 = memory s) as (s1 & Hrun & Ht1 & Hb1 & Ha1 & Hm1).
  { eexists. split; [run_lines|]. unfold top_of_stack. cpu_state. rewrite (stands_base _ _ _ _ _ _ Hs).
    replace (sp - 16 + 8) with (sp - 8) by lia. rewrite (wrap_word (sp - 8)) by range. done. }
  eapply arrives_straight; [rewrite (stands_p _ _ _ _ _ _ Hs); by apply code_at_single|]. exists s1. split; [exact Hrun|].
  assert (pc s1 = S q) as Hp1 by (rewrite (straight_pc _ _ _ _ _ _ _ Hrun), (stands_p _ _ _ _ _ _ Hs); cbn; lia).
  eapply arrives_later.
  - rewrite (step_line _ _ _ _ (Ins RET [])) by by rewrite Hp1. cbn [line_step]. unfold instruction, top_of_stack.
    rewrite Ht1, Hm1, Hret. reflexivity.
  - apply arrives_now. cpu_state. rewrite Ht1. replace (sp - 8 + 8) with sp by lia. rewrite wrap_word by range. done.
Qed.

(** ** Calls *)

Hypothesis functions_placed : forall f, f ∈ subtrees program ->
  exists q codes, code_at image q (function_lines f codes) /\ function_code program f codes.

Lemma function_correct n name f values st s p sp :
  calls_correct program (calls n) (Z.of_nat n * program_room program) ->
  find_declared program name = Some f -> length values = length (l_names (label f)) ->
  image !! p = Some (Ins CALL [Target (FunctionSymbol name)]) ->
  pc s = p -> registers s RSP = sp -> word (registers s RBP) ->
  registers_hold argument_registers values s -> agrees (heap st) (memory s) ->
  lo <= sp - Z.of_nat (S n) * program_room program -> sp <= hi ->
  follows (fs_function symbol_place private (calls n) loops f values st) (returned (S p) sp s st) s.
Proof.
  intros Hcalls Hf Hlen Hcall Hp Ht Wb Hregs Hh Hlo Hhi. destruct (find_declared_in _ _ _ Hf) as [Hin <-].
  destruct (functions_placed f Hin) as (q & codes & Hc & Hbody & H6).
  pose proof (function_room_in _ _ Hin) as Hroom. unfold function_room in Hroom. pose proof (room_nonneg f).
  pose proof (program_room_nonneg program). pose proof (argument_area_bounds (length (function_variables f))) as Hframe.
  fold (frame_size (length (function_variables f))) in Hframe.
  set (vs := function_variables f) in *. set (frame := frame_size (length vs)) in *.
  assert (0 <= Z.of_nat n * program_room program) as Hn by nia.
  assert (Z.of_nat (S n) * program_room program = Z.of_nat n * program_room program + program_room program) as En by (rewrite Nat2Z.inj_succ; lia).
  unfold fs_function. rewrite Hlen, Nat.eqb_refl. cbn [negb orb]. case_bool_decide as Hd; [|done]. cbn [negb].
  unfold mbind at 1 2, Exec_bind at 1 2, reads, writes. fold vs.
  eapply follows_arrives; [eapply function_entry; [exact Hc|exact Hcall|exact Hp|exact Ht|exact Wb|exact H6|exact Hlen|exact Hd|exact Hregs|exact Hh|fold vs frame; lia|exact Hhi]|]. cbv beta. fold vs frame.
  intros s1 [Hs1 Hent]. set (st1 := set_locals _ st) in *.
  pose proof Hc as Hcode. apply code_at_app in Hcode as [_ Hcode]. apply code_at_app in Hcode as [Hcode Hend].
  apply (code_at_app _ _ [_; _]) in Hend as [Hend _].
  assert (follows (fs_body symbol_place private (calls n) vs loops (subtrees f) st1)
    (completed vs [] (q + length (prologue f) + length (concat codes)) (sp - 16 - frame) (sp - 16) (memory s1)) s1) as Hrun.
  { destruct f as [i l ts]. unfold fs_body. cbn [subtrees] in *.
    eapply (children_run program vs (calls n) (Z.of_nat n * program_room program) loops i l ts); [|exact Hbody|constructor|exact Hcode|exact Hs1|lia].
    apply Forall_forall. intros t _ Ls code. by apply statement_code_correct. }
  eapply follows_bind; [exact Hrun|]. intros c st2 s2 [Hdone Hm2].
  assert (forall v q' , code_at image q' [Ins LEAVE []; Ins RET []] -> stands vs q' (sp - 16 - frame) (sp - 16) st2 s2 ->
    (forall z, v = Some z -> registers s2 RAX = z /\ word z) ->
    arrives (returned (S p) sp s st v (set_locals (locals st) st2)) s2) as Hreturn.
  { intros v q' Hq Hs2 Hv. assert (entered f (S p) (registers s RBP) sp (memory s) (memory s2)) as Hent2.
    { destruct Hent as [H1 H2 H3]. constructor.
      - rewrite (load_ext 8 _ _ (sp - 16) (fun a Ha => Hm2 a ltac:(lia))). exact H1.
      - rewrite (load_ext 8 _ _ (sp - 8) (fun a Ha => Hm2 a ltac:(lia))). exact H2.
      - intros a Ha. rewrite Hm2 by lia. by apply H3. }
    eapply arrives_mono; [eapply function_return; [exact Hs2|lia|exact Hhi|exact Hq|exact Hent2]|].
    intros s3 (Hp3 & Ht3 & Hb3 & Ha3 & Hm3). constructor; [done|done|done| | |done|].
    - intros z Hz. rewrite Ha3. by apply Hv.
    - cbn. rewrite Hm3. apply Hs2.
    - intros a Ha. rewrite Hm3. by apply Hent2. }
  unfold mbind, Exec_bind. destruct c as [| | |v]; cbn [mret Exec_ret crash follows]; try done.
  - by eapply Hreturn; [exact Hend|exact Hdone|].
  - destruct Hdone as (q' & Hq & Hs2 & Hv). by eapply Hreturn.
Qed.

Lemma calls_are_correct n : calls_correct program (calls n) (Z.of_nat n * program_room program).
Proof.
  induction n as [|n IH]; intros name f values st s p sp Hf Hlen Hcall Hp Ht Wb Hregs Hh Hlo Hhi;
    cbn [fs_call]; rewrite Hf; [done|]. by eapply function_correct.
Qed.

End functions.

(** * Programs *)

(** How the linker puts the assembly into memory: the stack is where the assembly has
    reserved it, and it is not used otherwise; a return address leads back. *)
Class Linked {L : Layout} : Prop := {
  linked_top : symbol_place StackTop = hi;
  linked_aligned : hi mod 16 = 0;
  linked_stack : lo = hi - 16384;
  linked_low : - 2 ^ 63 <= lo;
  linked_high : hi < 2 ^ 63;
  linked_private a : lo <= a < hi -> private a = true;
  linked_return n : (n <= length image)%nat -> code_index (wrap64 (code_place n)) = Some n
}.

(** The machine has been halted, with the value of kernel_main. *)
Definition halted {L : Layout} (v : option Z) (st : FsState) (s : Cpu) : Prop :=
  step symbol_place code_place code_index image s = Halted s /\ agrees (heap st) (memory s) /\
  forall z, v = Some z -> registers s RAX = z.

Lemma zip_code_at {A B} (F : A -> B -> list Line) fs bodies f before after : length fs = length bodies -> f ∈ fs ->
  exists q body, (f, body) ∈ zip fs bodies /\
    code_at (before ++ concat (zip_with F fs bodies) ++ after) q (F f body).
Proof.
  revert before bodies. induction fs as [|g fs IH]; intros before [|body bodies] Hl Hin; try done; [by apply not_elem_of_nil in Hin|].
  injection Hl as Hl. apply elem_of_cons in Hin as [->|Hin].
  - exists (length before), body. split; [by constructor|]. cbn. exists before, (concat (zip_with F fs bodies) ++ after).
    by rewrite <- app_assoc.
  - destruct (IH (before ++ F g body) bodies Hl Hin) as (q & b & Hb & Hc). exists q, b. split; [by constructor|].
    cbn. by rewrite <- !app_assoc in *.
Qed.

Section whole.
Context {L : Layout} {linked : Linked} (ir : VntIrProgram) (program : tree) (bodies : list (list (list Line))).
Hypothesis coded : program_code ir program bodies.
Hypothesis assembled : image = program_lines ir program bodies.

Lemma linked_laws : LayoutLaws.
Proof.
  pose proof linked_stack. constructor.
  - apply linked_private.
  - apply linked_low.
  - apply linked_high.
  - lia.
  - rewrite assembled. by apply program_labels_nodup.
  - rewrite assembled. unfold program_lines, data_lines.
    eexists (length (start_lines ++ concat (zip_with function_lines (subtrees program) bodies))). rewrite app_assoc. split.
    + by rewrite lookup_app_r, Nat.sub_diag by lia.
    + by rewrite lookup_app_r, Nat.sub_succ_l, Nat.sub_diag by lia.
  - apply linked_return.
Qed.

Lemma program_placed f : f ∈ subtrees program ->
  exists q codes, code_at image q (function_lines f codes) /\ function_code program f codes.
Proof.
  intros Hin. pose proof (program_functions _ _ _ coded) as Hf. rewrite assembled. unfold program_lines.
  destruct (zip_code_at function_lines (subtrees program) bodies f start_lines (data_lines ir) (Forall2_length _ _ _ Hf) Hin)
    as (q & codes & Hz & Hc). exists q, codes. split; [exact Hc|]. clear - Hf Hz.
  induction Hf as [|g body fs bodies' Hg Hf IH]; [by apply not_elem_of_nil in Hz|]. cbn in Hz.
  apply elem_of_cons in Hz as [[= -> ->]|Hz]; auto.
Qed.

Lemma stack_aligned : Z.land hi (-16) = hi.
Proof.
  change (-16) with (Z.lnot (Z.ones 4)). rewrite <- Z.ldiff_land, Z.ldiff_ones_r by lia.
  rewrite Z.shiftl_mul_pow2, Z.shiftr_div_pow2 by lia. change (2 ^ 4) with 16.
  pose proof linked_aligned. pose proof (Z.div_mod hi 16 ltac:(lia)). lia.
Qed.

Lemma start_straight s :
  exists s', AsmFacts.straight symbol_place code_place code_index image
    [LabelLine Start; Ins CLI []; Ins LEA [Rip StackTop; rsp]; Ins ANDQ [Imm (-16); rsp]] s s' /\
    registers s' RSP = hi /\ registers s' RBP = registers s RBP /\ memory s' = memory s.
Proof.
  assert (word hi) as W by (pose proof linked_low; pose proof linked_high; pose proof linked_stack; range).
  eexists. split; [run_lines|]. cpu_state. rewrite linked_top, (wrap_word hi), (wrap_word (-16)) by (done || range).
  rewrite (wrap_word hi), stack_aligned, (wrap_word hi) by done. done.
Qed.

Lemma start_correct loops n st s : Z.of_nat n * program_room program <= 16384 ->
  label_position image Start = Some (pc s) -> word (registers s RBP) -> agrees (heap st) (memory s) ->
  follows (fs_program symbol_place private program loops n st) halted s.
Proof.
  intros Hroom Hstart Wb Hh. pose proof linked_laws as Laws. pose proof linked_stack.
  assert (code_at image 4 (drop 4 start_lines)) as Hc.
  { rewrite assembled. exists (take 4 start_lines), (concat (zip_with function_lines (subtrees program) bodies) ++ data_lines ir).
    split; [|done]. reflexivity. }
  cbn [drop start_lines] in Hc. assert (pc s = 4%nat) as Hp.
  { pose proof (proj1 (code_at_cons _ _ _ _ Hc)) as Hl. apply (label_position_unique _ _ _ labels_unique) in Hl. congruence. }
  apply (code_at_app _ _ [_; _; _; _]) in Hc as [Hc1 Hc]. cbn [length] in Hc. apply code_at_cons in Hc as [Hcall Hc].
  destruct (start_straight s) as (s1 & Hrun & Ht1 & Hb1 & Hm1).
  eapply follows_straight; [rewrite Hp; exact Hc1|]. exists s1. split; [exact Hrun|].
  assert (pc s1 = 8%nat) as Hp1 by (rewrite (straight_pc _ _ _ _ _ _ _ Hrun), Hp; done).
  destruct (program_main _ _ _ coded) as (f & Hf & Hnames).
  eapply follows_then; [eapply (calls_are_correct program loops program_placed n (str "kernel_main") f [] st s1 8%nat hi)|]; try done.
  - by rewrite Hnames.
  - by rewrite Hb1.
  - by rewrite Hm1.
  - lia.
  - intros v st' s' [Hp' Ht' Hb' Hv' Hh' _ _].
    apply (code_at_app _ _ [_; _]) in Hc as [Hc2 Hc]. apply code_at_cons in Hc as [Hhlt _]. cbn [length] in Hhlt.
    eapply arrives_straight; [rewrite Hp'; exact Hc2|]. eexists. split; [run_lines|]. apply arrives_now. split_and!.
    + rewrite (step_line _ _ _ _ (Ins HLT [])) by (cpu_state; by rewrite Hp'). reflexivity.
    + exact Hh'.
    + intros z Hz. by apply Hv'.
Qed.

End whole.

(** * What the optimizer gives *)

Lemma tidy_initialised t : tidy (erase t) -> initialised t = true.
Proof.
  induction t as [i l ts IH] using tree_ind. intros Ht. inversion Ht as [? ? _ Horder Hts]; subst. apply everywhere_intro.
  - destruct (l_opcode l); try done. by destruct ts.
  - rewrite Forall_map in Hts. rewrite Forall_forall in *. intros t Hin. apply IH; [done|]. by apply Hts.
Qed.

Lemma tidy_literal ir t i n : stored ir t -> tidy (erase t) -> i ∈ indices t -> nodes ir !! i = Some n -> literal_ok (label_of n).
Proof.
  revert i n. induction t as [j l ts IH] using tree_ind. intros i n Hst Ht Hi Hn.
  inversion Hst as [? m ? Hm Hlink Hts]; subst. inversion Ht as [? ? Hlit _ Hts']; subst.
  cbn [indices] in Hi. apply elem_of_cons in Hi as [->|Hi]; [congruence|].
  apply list_elem_of_In, in_concat in Hi as (js & Hjs & Hi).
  apply in_map_iff in Hjs as (t & <- & Hin). apply list_elem_of_In in Hi, Hin.
  rewrite Forall_map in Hts'. rewrite Forall_forall in *. eapply (IH t Hin); [by apply Hts|by apply Hts'|done|done].
Qed.

Lemma tidy_literals ir t : represents ir t -> tidy (erase t) -> literals_ok ir.
Proof.
  intros [_ Hst Hall] Ht i n Hn. eapply tidy_literal; [exact Hst|exact Ht| |exact Hn].
  rewrite Hall. apply elem_of_seq. apply lookup_lt_Some in Hn. unfold node_count. lia.
Qed.

Lemma emission_spec ir program : represents ir program -> good (erase program) ->
  returns (vnt_emit_freestanding_x86_64 ir) (fun r =>
    match r with
    | inl _ => ir_valid ir -> supported_program program = false
    | inr lines => supported_program program = true /\
        exists bodies, lines = program_lines ir program bodies /\ program_code ir program bodies
    end).
Proof.
  intros Hrep [Hwf Ht]. apply vnt_emit_freestanding_spec; [by eapply tidy_literals|done|done|].
  destruct program as [i l ts]. inversion Ht as [? ? _ _ Hts]; subst. rewrite Forall_map in Hts.
  eapply Forall_impl; [exact Hts|]. apply tidy_initialised.
Qed.

Lemma emitted_correct ir program lines loops n {L : Layout} {linked : Linked} st s :
  represents ir program -> good (erase program) -> vnt_emit_freestanding_x86_64 ir = Done (inr lines) -> image = lines ->
  Z.of_nat n * program_room program <= 16384 ->
  label_position image Start = Some (pc s) -> word (registers s RBP) -> agrees (heap st) (memory s) ->
  follows (fs_program symbol_place private program loops n st) halted s.
Proof.
  intros Hrep Hgood Hemit Himage. pose proof (emission_spec ir program Hrep Hgood) as H. rewrite Hemit in H.
  destruct H as (_ & bodies & -> & Hcode). by eapply start_correct.
Qed.

(** C5: the assembly that the back end for a machine without an operating system emits
    simulates the program, for every run in which the depth of calls times the stack of a
    call fits in the 16384 bytes that the assembly reserves: from _start the processor halts
    with the value of kernel_main in RAX and the memory of the program, or, if the
    arithmetic of the program overflows or divides by zero, it is stopped with this memory
    at the ud2 after .Lvnt_arithmetic_fault. No division faults by itself. Runs that reach
    inline assembly, an MSR, cr2 or invlpg, which have no meaning here, are left out. *)
Theorem freestanding_program_correct ir program lines loops n (L : Layout) (linked : Linked) st s :
  represents ir program -> good (erase program) -> vnt_emit_freestanding_x86_64 ir = Done (inr lines) -> image = lines ->
  Z.of_nat n * program_room program <= 16384 ->
  label_position image Start = Some (pc s) -> word (registers s RBP) -> agrees (heap st) (memory s) ->
  follows (fs_program symbol_place private program loops n st) halted s.
Proof. intros Hrep Hgood Hemit. by eapply emitted_correct. Qed.

(** C6: the back end accepts exactly the programs of its subset (supported_program:
    functions of at most six parameters with different names, among them kernel_main without
    parameters; known statements, operators and types of locals; calls with as many
    arguments as the function or the instruction takes; break and continue in loops, at most
    64 deep), and refuses the others. What it emits are exactly the pieces of code of the
    statements and expressions of each function, those of the instructions without a meaning
    included, between its prologue and epilogue, the code of _start and the data, and no
    label is defined twice. *)
Theorem freestanding_emission_exact ir program : ir_valid ir -> represents ir program -> good (erase program) ->
  returns (vnt_emit_freestanding_x86_64 ir) (fun r =>
    match r with
    | inl _ => supported_program program = false
    | inr lines => supported_program program = true /\ NoDup (labels lines) /\
        exists bodies, lines = program_lines ir program bodies /\ program_code ir program bodies
    end).
Proof.
  intros Hvalid Hrep Hgood. eapply returns_mono; [by eapply emission_spec|]. intros [message|lines]; [by intros H; apply H|].
  intros (Hcan & bodies & -> & Hcode). split_and!; [done|by apply program_labels_nodup|by exists bodies].
Qed.

(** * Compilation *)

(** compiler_compile_freestanding; what is printed by the back end, or the assembly. *)
Definition compiler_compile_freestanding (program : ast) : outcome (CompileFailure + bytes + list Line) :=
  compiled ← compile_mode program;
  match compiled with
  | inl failure => Done (inl (inl failure))
  | inr ir =>
      emitted ← vnt_emit_freestanding_x86_64 ir;
      Done (match emitted with inl message => inl (inr message) | inr lines => inr lines end)
  end.

(** C4: from the source of a kernel to the machine: compiling what the parser accepts
    returns, with the failure of compile_mode, a message of the back end or assembly. The
    assembly, run by the processor from _start with the 16384 bytes of stack that it
    reserves, does what the optimized HIR of the program does, for every run whose calls are
    not deeper than this stack allows; a program that the back end refuses with a message is
    not in its subset. *)
Theorem kernel_compiled_correctly counter src program parser :
  parse_source counter src = Done (Some program, parser) ->
  exists ss, program = AST_PROGRAM ss /\ returns (compiler_compile_freestanding program) (fun r =>
    match r with
    | inl (inl failure) => compile_mode program = Done (inl failure)
    | inl (inr message) => exists ir kernel, compile_mode program = Done (inr ir) /\
        represents ir kernel /\ supported_program kernel = false
    | inr lines => exists ss' rn kernel, accepted ss = Some ss' /\
        resolve_program (subtrees (tree_at 0 (hir_of (AST_PROGRAM ss')))) = Some rn /\
        erase kernel = back_end_tree rn ss' /\
        forall loops n (L : Layout) (linked : Linked) st s, image = lines ->
          Z.of_nat n * program_room kernel <= 16384 ->
          label_position image Start = Some (pc s) -> word (registers s RBP) -> agrees (heap st) (memory s) ->
          follows (fs_program symbol_place private kernel loops n st) halted s
    end).
Proof.
  intros E. destruct (source_wf _ _ _ _ E) as (ss & -> & Hw & _). exists ss. split; [done|].
  unfold compiler_compile_freestanding. pose proof (compile_mode_returns ss Hw) as H. apply returns_done in H as (r & Hc & H).
  rewrite Hc. cbn [mbind outcome_bind]. destruct r as [failure|ir]; [done|].
  destruct (accepted ss) as [ss'|] eqn:Ha; [|by destruct H].
  destruct H as (rn & out & Hrn & Hst & <- & _). pose proof (stores_valid _ _ Hst) as Hvalid.
  destruct Hst as (kernel & m & Hrep & Hk & [Hgood _] & _).
  rewrite <- Hk in Hgood. apply returns_bind. pose proof (emission_spec _ _ Hrep Hgood) as He.
  apply returns_done in He as (r & He & Hr). rewrite He. cbn [returns].
  destruct r as [message|lines]; cbn [returns]; [eexists _, kernel; split_and!; [done..|by apply Hr]|].
  exists ss', rn, kernel. split_and!; try done. intros loops n L linked st s. by eapply emitted_correct.
Qed.

(** * A sample *)

Definition kernel_sample : bytes :=
  str "fun fib(n: int) -> int { if n < 2 { return n } return fib(n - 1) + fib(n - 2) } fun kernel_main() -> int { let s: int = 0 let i: int = 0 while i < 7 { s = s + fib(i) i = i + 1 } return s }".

(** The assembly for the compiled program, and where a linker may put it. *)
Definition assembly_of (src : bytes) : list Line :=
  match vnt_emit_freestanding_x86_64 (compiled_ir src) with
  | Done (inr lines) => lines
  | _ => []
  end.

Definition sample_layout (lines : list Line) : Layout :=
  {| symbol_place := fun s => match s with StackTop => 1048576 | _ => 0 end;
     code_place := Z.of_nat;
     code_index := fun z => Some (Z.to_nat z);
     private := fun a => (1032192 <=? a) && (a <? 1048576);
     lo := 1032192;
     hi := 1048576;
     image := lines |}.

Lemma sample_linked lines : (length lines < 1000)%nat -> @Linked (sample_layout lines).
Proof.
  intros Hl. constructor; cbn [hi lo private symbol_place code_place code_index image sample_layout]; try done.
  - intros a Ha. apply andb_true_iff. split; [apply Z.leb_le|apply Z.ltb_lt]; lia.
  - intros n Hn. cbn in Hn. rewrite wrap_word by range. by rewrite Nat2Z.id.
Qed.

(** A machine whose memory is empty, at the first instruction. *)
Definition sample_start : Cpu :=
  {| registers := fun _ => 0; flags := {| ZF := None; SF := None; OF := None |}; memory := fun _ => 0; pc := 4%nat |}.

(** The processor comes to a state. *)
Definition comes_to {L : Layout} (P : Cpu -> Prop) (s : Cpu) : Prop :=
  arrives symbol_place code_place code_index image P s.

(** The source is parsed and compiled. *)
Definition compiles (src : bytes) : bool :=
  match parse_source 0 src with
  | Done (Some program, _) => match compile_mode program with Done (inr _) => true | _ => false end
  | _ => false
  end.

Lemma compiled_tree_root src : compiles src = true -> is_root (compiled_tree src).
Proof.
  unfold compiles. destruct (parse_source 0 src) as [[[program|] p]| |] eqn:Hp; try done.
  destruct (compile_mode program) as [[e|ir]| |] eqn:Hc; try done. intros _.
  assert (program_of src = program) as Hprogram by (unfold program_of; by rewrite Hp).
  destruct (source_wf _ _ _ _ Hp) as (ss & -> & Hw & _). pose proof (compile_mode_returns ss Hw) as H.
  rewrite Hc in H. cbn [returns] in H. destruct (accepted ss) as [ss'|] eqn:Ha; [|by destruct H].
  destruct H as (rn & ir' & Hrn & (_ & _ & _ & _ & Hroot & _) & _).
  unfold compiled_tree, source_tree, names_for. rewrite Hprogram. cbn [statements_of]. rewrite Ha. cbn [default id].
  by rewrite Hrn.
Qed.

Definition value_of {M A} (r : run M A) : option A := match r with Goes a _ => Some a | _ => None end.

Lemma follows_value {L : Layout} {A} (r : run FsState A) Q s v : value_of r = Some v -> follows r Q s ->
  exists st, comes_to (Q v st) s.
Proof. destruct r; try done. intros [= ->] H. by eexists. Qed.

Lemma freestanding_program_correct_witness :
  vnt_emit_freestanding_x86_64 (compiled_ir kernel_sample) = Done (inr (assembly_of kernel_sample)) /\
  exists st, comes_to (L := sample_layout (assembly_of kernel_sample))
    (halted (L := sample_layout (assembly_of kernel_sample)) (Some 20) st) sample_start.
Proof.
  assert (vnt_emit_freestanding_x86_64 (compiled_ir kernel_sample) = Done (inr (assembly_of kernel_sample))) as Hemit
    by (vm_compute; reflexivity).
  split; [exact Hemit|]. set (h := compiled_tree kernel_sample). set (L := sample_layout (assembly_of kernel_sample)).
  assert (compiled_ir kernel_sample = laid_out h (optimized_nodes (compiled_ir kernel_sample))) as Hlaid by (vm_compute; reflexivity).
  assert (is_root h) as Hroot by (apply compiled_tree_root; vm_compute; reflexivity).
  assert (value_of (fs_program symbol_place private (tree_at 0 h) 10 10 {| locals := ∅; heap := fun _ => 0 |}) = Some (Some 20)) as Hrun
    by (vm_compute; reflexivity).
  assert (follows (L := L) (fs_program symbol_place private (tree_at 0 h) 10 10 {| locals := ∅; heap := fun _ => 0 |}) halted sample_start) as H.
  { apply (freestanding_program_correct (compiled_ir kernel_sample) (tree_at 0 h) (assembly_of kernel_sample) 10 10 L).
    - apply sample_linked. apply Nat.ltb_lt. vm_compute. reflexivity.
    - rewrite Hlaid. apply layout_represents.
    - rewrite erase_tree_at. apply Hroot.
    - exact Hemit.
    - reflexivity.
    - vm_compute. discriminate.
    - vm_compute. reflexivity.
    - cbn. range.
    - by intros a _. }
  exact (follows_value _ _ _ _ Hrun H).
Defined.

(** The assembly of the sample, and its labels. *)
Lemma freestanding_emission_exact_witness : supported_program (tree_at 0 (compiled_tree kernel_sample)) = true /\
  NoDup (labels (assembly_of kernel_sample)) /\ length (labels (assembly_of kernel_sample)) = 11%nat.
Proof.
  assert (compiled_ir kernel_sample = laid_out (compiled_tree kernel_sample) (optimized_nodes (compiled_ir kernel_sample))) as Hlaid
    by (vm_compute; reflexivity).
  assert (is_root (compiled_tree kernel_sample)) as Hroot by (apply compiled_tree_root; vm_compute; reflexivity).
  assert (represents (compiled_ir kernel_sample) (tree_at 0 (compiled_tree kernel_sample))) as Hrep
    by (rewrite Hlaid; apply layout_represents).
  assert (ir_valid (compiled_ir kernel_sample)) as Hvalid.
  { rewrite Hlaid. eapply stores_valid. by apply laid_out_stores. }
  pose proof (freestanding_emission_exact (compiled_ir kernel_sample) (tree_at 0 (compiled_tree kernel_sample)) Hvalid Hrep) as H.
  rewrite erase_tree_at in H. specialize (H (proj1 Hroot)).
  assert (vnt_emit_freestanding_x86_64 (compiled_ir kernel_sample) = Done (inr (assembly_of kernel_sample))) as Hemit
    by (vm_compute; reflexivity).
  rewrite Hemit in H. destruct H as (Hcan & Hd & _). split; [exact Hcan|]. split; [exact Hd|vm_compute; reflexivity].
Defined.

(** A kernel with instructions that are not given a meaning, and their lines. *)
Definition instructions_sample : bytes :=
  str "fun kernel_main() { let x: i64 = 0 unsafe { asm volatile(" ++ [quote] ++ str "nop" ++ [quote] ++
  str ") x = cpu_read_cr2() x = cpu_read_msr(16) } }".

Lemma instructions_emitted : exists before after, assembly_of instructions_sample = before ++
  [Directive (str "    # VNT inline assembly follows"); Verbatim (str "nop");
   Ins MOVQ [Cr2; rax]; Ins MOVQ [rax; slot 0];
   Ins SUBQ [Imm 16; rsp]; Ins MOVQ [Imm 16; rax]; Ins MOVQ [rax; on_stack 0];
   Ins MOVL [on_stack 0; Reg W32 RCX]; Ins RDMSR []; Ins SHLQ [Imm 32; rdx]; Ins ORQ [rdx; rax];
   Ins ADDQ [Imm 16; rsp]; Ins MOVQ [rax; slot 0]] ++ after.
Proof.
  exists (firstn 23 (assembly_of instructions_sample)), (skipn 36 (assembly_of instructions_sample)). vm_compute. reflexivity.
Qed.

(** A program that type checks and can not be compiled. *)
Definition refused_sample : bytes := str "fun kernel_main() { print(1) }".

Lemma printing_refused : compiles refused_sample = true /\
  supported_program (tree_at 0 (compiled_tree refused_sample)) = false /\
  vnt_emit_freestanding_x86_64 (compiled_ir refused_sample) =
    Done (inl (str "unsupported statement in freestanding target; no hosted fallback is allowed.")).
Proof. vm_compute. done. Qed.

(** The sample from its source. *)
Lemma kernel_compiled_correctly_witness : exists kernel,
  compiler_compile_freestanding (program_of kernel_sample) = Done (inr (assembly_of kernel_sample)) /\
  erase kernel = compiled_tree kernel_sample /\
  forall st s, let L := sample_layout (assembly_of kernel_sample) in
    10 * program_room kernel <= 16384 -> pc s = 4%nat -> word (registers s RBP) -> agrees (heap st) (memory s) ->
    follows (fs_program symbol_place private kernel 10 10 st) halted s.
Proof.
  assert (exists parser, parse_source 0 kernel_sample = Done (Some (program_of kernel_sample), parser)) as [parser Hp].
  { assert (match parse_source 0 kernel_sample with Done (Some _, _) => true | _ => false end = true) as H by (vm_compute; reflexivity).
    revert H. unfold program_of. destruct (parse_source 0 kernel_sample) as [[[program|] parser]| |]; try done. by eexists. }
  destruct (kernel_compiled_correctly 0 kernel_sample _ parser Hp) as (ss & E & H).
  assert (compiler_compile_freestanding (program_of kernel_sample) = Done (inr (assembly_of kernel_sample))) as Hc by (vm_compute; reflexivity).
  rewrite Hc in H. cbn [returns] in H. destruct H as (ss' & rn & kernel & Ha & Hrn & Hk & Hrun). exists kernel.
  split; [exact Hc|]. split.
  { rewrite Hk. unfold compiled_tree, source_tree, names_for. rewrite E. cbn [statements_of]. rewrite Ha. cbn [default id].
    by rewrite Hrn. }
  assert (length (assembly_of kernel_sample) < 1000)%nat as Hsize by (apply Nat.ltb_lt; vm_compute; reflexivity).
  assert (label_position (assembly_of kernel_sample) Start = Some 4%nat) as Hstart by (vm_compute; reflexivity).
  clear Hc. revert Hsize Hstart Hrun. generalize (assembly_of kernel_sample) as lines. intros lines Hsize Hstart Hrun st s L Hroom Hpc Wb Hh.
  apply (Hrun 10%nat 10%nat L (sample_linked lines Hsize)); [reflexivity|exact Hroom|by rewrite Hpc|exact Wb|exact Hh].
Defined.

(** A condition is true if the low half of its word is not 0, so 4294967296, which is true in
    the runtime library, is false here. *)
Definition wide_sample : bytes :=
  str "fun f() { return 4294967296 } fun kernel_main() -> int { if f() { return 1 } return 2 }".

Lemma wide_condition_is_false : compiles wide_sample = true /\
  value_of (fs_program (fun _ => 0) (fun _ => false) (tree_at 0 (compiled_tree wide_sample)) 10 10
    {| locals := ∅; heap := fun _ => 0 |}) = Some (Some 2).
Proof. vm_compute. by split. Qed.
